(* ===== verification/_CoqProject ===== *)
-Q . S2P
Prelude.v
F64.v
BTreeMap.v
PathScheduler.v
Segments.v
SegmentStore.v
SharedState.v
Resume.v
Coordinator.v
CoordInv.v
Ramp.v
SpeedLimiter.v
Text.v
ConnPolicy.v
QueueOrder.v
Projection.v
Coalesce.v
TableSync.v
SnapshotWf.v
EventHub.v
Traffic.v
EventPump.v
Selection.v
FileNames.v
Claims.v
Unicode.v
Disposition.v
Naming.v
Schedule.v
PendingQueue.v
Slots.v
Manager.v
Batch.v
SchedInv.v
Drain.v
Sched.v
Positions.v
BatchInv.v
Scheduler.v
Stopping.v
Retry.v
NodePool.v
Multipath.v
