(* ===== verification/Prelude.v ===== *)
(** * FluxDown: the download engine's core, modelled and verified

    FluxDown downloads a file over several connections at once.  This library
    models the parts of its engine that decide what is downloaded by whom, what
    is remembered on disk, how many connections are used and over which paths,
    what the file is called and who may replace another, which of the tasks run
    and which wait, and how the state of the engine reaches its clients, and
    proves them correct.

    ** The program and the files

    The engine lives in [src/native/engine/src].  A segmented download is run
    by [segment_coordinator.rs]: the file is cut into segments, each worker
    downloads one segment, idle workers take pending segments or split running
    ones, and every change of the layout is mirrored in the table
    [task_segments] of the database ([db.rs]) so that a crash loses no finished
    byte and counts no missing one.

    - [F64]: IEEE doubles as the engine's [f64] arithmetic, on the Standard
      Library's [SpecFloat].
    - [BTreeMap]: an ordered association list, the engine's [BTreeMap<i32, _>].
    - [PathScheduler]: the rate and time estimates of [path_scheduler.rs] that
      decide where a segment is split and which worker is preempted.
    - [Segments]: [LiveSegment], fresh layouts, [validate_coverage], the split
      planner and [find_next_work] of [segment_coordinator.rs].
    - [SegmentStore]: the operations of [db.rs] on the rows of one task.
    - [SharedState]: the vector of progress that workers and coordinator share,
      its rebuilding, the durable watermarks, the cross-connection validators,
      the absorption of pending segments by an open stream, and
      [persist_segment_change].
    - [Resume]: the start of a download: restoring, drift, rebuilding.
    - [Coordinator]: the coordinator's state and the handlers of its event loop
      in [run_coordinated_download].
    - [CoordInv]: the invariant of the coordinator, its step relation (any
      event in any order, any outside call failing, a crash at any point) and
      the end-to-end theorems.
    - [Ramp]: the adaptive number of connections: verdicts, freeze states, the
      ramp tick, the reaction to rejections.
    - [SpeedLimiter]: the token bucket all downloads share
      ([speed_limiter.rs]), as concurrent programs on atomic variables.
    - [Text]: byte strings with the operations of Rust's [str] the formats use.
    - [ConnPolicy]: the per-host memory of connection limits and its storage
      format ([segment_coordinator.rs], lines 95-425).
    - [QueueOrder]: the publication of the queue order ([queue_order.rs]) and
      the subscriber's table ([apply_queue_order] of
      [native/protocol/src/event.rs]).

    The state of the engine reaches its clients through a daemon
    ([src/native/protocol/src]): a client loads a snapshot, then applies the
    numbered frames of events that follow it.

    - [Projection]: the snapshot and the reducer [apply_daemon_event]
      ([event.rs], [daemon.rs]).
    - [Coalesce]: frames, the queue of a subscriber that falls behind and what
      it merges ([coalesce.rs]), the consumer's verdict on a frame.
    - [TableSync]: large tables loaded page by page while frames arrive
      ([table_sync.rs], the page functions of [event.rs]).
    - [SnapshotWf]: well-formed snapshots, kept by every event.
    - [EventHub], [Traffic]: the daemon's hub ([native/daemon/src/event_hub.rs])
      numbers the events, keeps the snapshot and derives the statistics it
      shows; its ring of traffic buckets.
    - [EventPump]: a connection's pump and writer ([event_pump.rs]), composed
      with the hub, [Coalesce] and [Projection]: from an event to a client.
    - [Selection]: the questions the engine asks its users ([selection.rs]), as
      critical sections of interleaved operations.

    A download gets a name ([naming/], all functions) and a place in its
    directory.

    - [FileNames]: the decisions of [file_exists.rs], the probing of candidate
      names, reservation, exclusive claim and rename of [download_manager.rs]
      and [downloader.rs], the leases of [temp_file_guard.rs], as programs over the operations of the directory;
      tasks and other programs interleave, any operation fails.
    - [Claims]: a logic for these programs and the theorems about them.
    - [Unicode]: texts as characters, UTF-8, the operations of [str] on them.
    - [Disposition]: [naming/charset.rs] and [naming/disposition.rs]: the name
      in a header, in whatever encoding.
    - [Naming]: [naming/sanitize.rs], [mime.rs], [sniff.rs], [mod.rs]: the name
      from header, address, type and first bytes; its refinement.

    The download manager ([download_manager.rs], [download_manager/boost.rs]) is
    an actor that handles one message at a time; it starts a coordinator (or the
    downloader of another protocol) for a task, within limits.

    - [Schedule]: the daily schedules of queues, against what a schedule asks.
    - [PendingQueue]: the waiting tasks with their aggregate counts.
    - [Slots]: who holds a slot, who waits, the limits; then the abstract
      scheduler: the moves it may make, their invariant and bounds.
    - [Manager]: the handlers, in a state monad over the manager's record.
    - [Batch]: the operations on many tasks, on queues and on everything.
    - [SchedInv]: a Hoare logic for the handlers; starting a task is a sequence
      of moves.
    - [Drain]: the loop of [drain_queue] is a single pass over the queue.
    - [Sched]: the invariant over all handlers.
    - [Positions]: every handler lets the clients know of the queue.
    - [BatchInv]: the batch handlers keep both.
    - [Scheduler]: the messages as one type, the reachable states, the theorems.
    - [Stopping]: what pausing a batch and stopping a queue achieve.
    - [Retry]: what a failure's message says ([net_failure.rs],
      [auto_proxy.rs]) and the manager's policy of retries and route changes,
      which [Manager] leaves to its world.
    - [NodePool]: the paths and nodes of a download, their estimates, leases and
      bans ([cdn/node_pool.rs]).
    - [Multipath]: what the coordinator does with the pool in every window, and
      at the end of a lease ([segment_coordinator/multipath.rs]).

    The files depend on each other in the order of this list; [Ramp] needs
    [Segments] only, [SpeedLimiter] and [Text] only this file, [ConnPolicy],
    [QueueOrder], [PendingQueue] and [Retry] [Text], [Projection] [QueueOrder],
    and [Manager] [Slots] and [QueueOrder]; [EventHub], [EventPump] and
    [Selection] build on [Projection], [Coalesce] and [TableSync], [FileNames]
    and [Unicode] on [Text], and [NodePool] on [PathScheduler] and [Retry].

    ** What is shown

    - Layouts: a fresh layout partitions the file; [validate_coverage] accepts
      exactly the partitions; an assignment never overlaps another worker's
      segment, a split keeps what is downloaded with its owner, and work is
      refused only when nothing can be split ([Segments]).
    - Storage: rows mirror the map after every change, writes of a worker from
      an earlier start are ignored, progress in the rows never exceeds the row
      and the batch never goes backwards ([SegmentStore], [SharedState]).
    - The coordinator: in every reachable state layout, rows, shared progress
      and workers agree; a download that finishes has every byte and passes the
      final check; after a crash at any point the next start counts only bytes
      that are on disk ([CoordInv], [Resume]).
    - The ramp: allowance and cap stay within bounds, a hard freeze is final,
      a limit is learned only from the collapse of a normal growth ([Ramp]).
    - The speed limiter: under any interleaving the bytes granted stay within
      the limit times the time passed, and no call starves ([SpeedLimiter]).
    - Learned policies: the storage format loses nothing and admits nothing out
      of range, observations merge, survive restarts, expire ([ConnPolicy]).
    - Queue order: every subscriber shows the last order with stable keys, and
      increments are as small as the change ([QueueOrder]).
    - Clients: whatever is merged for a slow subscriber, its client reaches the
      state after all events ([Coalesce]); tables paged from a server that goes
      on changing converge to the server's, and a load of a still server ends
      ([TableSync]); no event makes a snapshot ill-formed ([SnapshotWf]).
    - The daemon: replaying the frames gives the hub's snapshot, its counts are
      those of the tasks, every byte of traffic is in the ring once, and rates
      return to zero when traffic ends ([EventHub], [Traffic]); a connection
      that is not closed with a gap brings its client to the hub's state, as long
      as no event makes it reload its tables ([EventPump]).
    - Questions: a request is decided once, the answer is one that was offered,
      dialogs are shown while the question is open ([Selection]).  Two races are
      shown as well: an announcement published after the end of its question
      leaves a dialog nobody can close, and a question asked while the watcher
      of a slow client takes stock is cancelled as if its task were gone.
    - Names on disk: on a file system that tells all names apart a temporary file
      has one writer, and no completed download and no file of another program is
      lost without permission; on one that does not, leases exclude a second
      writer when they fold names as it does; where names are compared as the code folds
      them, the probing of names equals the reference scan ([Claims]).  Two defects
      are shown: an answer overruled by a setting, and file systems that ignore
      case under leases that do not.
    - Names: what a server writes is read back ([Disposition]); every name is
      one safe path component, sanitizing is the identity on safe names and
      bounds the length, refinement changes a name once; and exactly when the
      bound is missed, and how a cut lays bare a device's name ([Naming]).
    - The scheduler: a task is active or waits, once; limits are never exceeded
      by a handler that checks them; no message leaves a slot free that a task
      waits for, unless it takes out the entry of a failed task; draining equals
      its reference; the clients know the queue
      ([Scheduler], the counts in [PendingQueue]).  Three theorems show where the
      code falls short: boosting a waiting task does not announce its departure,
      a move to another queue is lost on a task whose link is being
      resolved, and a batch deletion forgets the resolutions of its tasks; states
      reached through the last ([Scheduler.op_ok]) are outside the theorems about
      reachable states, and boosting is outside the one about clients.
    - Batches: no task of a paused batch starts on the way; once a queue has been
      stopped nothing waits in it and what is active is being paused ([Stopping]);
      a queue with a schedule runs when the schedule says ([Schedule]).
    - Paths: leases and connections are accounted for, a lease is always
      granted, bans are final ([NodePool]); one window preempts few connections
      and spares the last of a link; a failing path does not fail the task while
      another is left ([Multipath]).
    - Retries: automatic restarts end, never repeat a route, wait a bounded
      time, and follow the tag of the message ([Retry]).

    ** Conventions

    A w-bit integer is a [Z] with its range; operations that wrap, saturate or
    check by name do so in the model, and where the code adds without a check
    the invariant bounds the operands.  Byte offsets of segments are [i64] in
    the code and unbounded here: they stay within the file size.  Rust's
    [Result] and [Option] are [result] and [option].  Time, random choices,
    database failures and network events are arguments of the definitions or
    labels of the step relations, so theorems hold for all of them.

    Loops with a fuel argument: [Segments.max_by] and the sorts are structural;
    [SharedState.absorb_loop] runs with one more than the number of segments
    and ends because every iteration removes one ([absorb_correct] shows that
    the result exists); [QueueOrder.assign_loop] runs with one more than the
    length of the queue and advances in every iteration ([assign_loop_fuel]);
    [Text.show_digits] has as many digits as bits;
    [TableSync.binary_search_base] halves its range, so the length of the list
    is enough, and [TableSync.load_still], the client's loop, runs with one more
    than the number of rows, each page holding at least one;
    [Manager.drain_loop] runs with one more than the length of the queue, and
    [drain_is_reference] shows that more changes nothing; the text functions of
    [Retry] and of [Disposition] consume input in every round and run for its
    length; [EventPump.pump_batch] takes at most the code's 512 frames;
    [FileNames.next_free_loop] has the code's 9999 numbers and [claim_loop] its
    five conflicts; [reserve_loop], a loop without a bound in the code, runs for
    the rounds the model is given, and [reserve_loop_rounds] shows how many are
    enough.

    The download manager asks the outside (database, torrent session, plugin
    host, retry policy) and does not control the answers: a [World] gives them,
    by the number of the call, and every theorem is about all worlds.  The
    status of a task's row is part of the world, since workers write it at any
    moment.

    ** What is not modelled

    Sockets, TLS, HTTP parsing and the workers' transfer loops: a worker is
    what it may do to the shared state (advance its watermark within its
    segment, report, fail).  Poisoned locks and allocation failures.  The other
    protocols (BitTorrent, ED2K, HLS/DASH), plugins, RSS, the HTTP API, FFI
    bindings, the user interface.  Of the projection, the agent's own snapshot
    and the parts the reducer only stores; the claim about paging does not cover
    readings that the daemon samples at runtime, whose loss the next sample
    repairs.  Of the download manager, groups and manifests, restarts and
    changes of a link, start-up, seeding, its log lines and webhooks, the choice
    of a limiter.  Of the names on disk, the
    resumption of an old temporary file; of the naming, the tables of characters (the
    encoding library, a class of the model) and the routing by category.  Of the
    paths, how nodes, links and proxies are found.  The manifest lists these parts with the reason for each. *)
From Stdlib Require Export ZArith Lia.
From stdpp Require Export base tactics option list numbers gmap strings sorting.

#[global] Set Default Goal Selector "!".

(** ** Fallible code *)

(** [Result<A, E>]. *)
Inductive result (A E : Type) : Type :=
| Ok (a : A)
| Err (e : E).
Arguments Ok {A E} a.
Arguments Err {A E} e.

Declare Scope engine_scope.
Delimit Scope engine_scope with engine.

(** Rust's [?] operator on [Result] and on [Option]. *)
Notation "'let?' x ':=' c 'in' k" :=
  (match c with Ok x => k | Err e => Err e end)
  (at level 10, x pattern, c at level 200, k at level 200) : engine_scope.
Notation "'let*' x ':=' c 'in' k" :=
  (match c with Some x => k | None => None end)
  (at level 10, x pattern, c at level 200, k at level 200) : engine_scope.
Open Scope engine_scope.
Open Scope Z_scope.

Definition is_ok {A E} (r : result A E) : bool :=
  match r with Ok _ => true | Err _ => false end.

(** [opt.ok_or(e)]. *)
Definition ok_or {A E} (o : option A) (e : E) : result A E :=
  match o with Some a => Ok a | None => Err e end.

(** ** Machine integers

    A w-bit unsigned integer is the [Z] in [0 .. 2^w - 1]; release builds of
    the engine wrap on overflow, and the code asks for saturation or checks
    by name. *)

Definition u8_max : Z := 2 ^ 8 - 1.
Definition u16_max : Z := 2 ^ 16 - 1.
Definition u32_max : Z := 2 ^ 32 - 1.
Definition u64_max : Z := 2 ^ 64 - 1.
Definition i32_max : Z := 2 ^ 31 - 1.
Definition i32_min : Z := - 2 ^ 31.
Definition i64_max : Z := 2 ^ 63 - 1.
Definition i64_min : Z := - 2 ^ 63.

Definition is_u8 (z : Z) : Prop := 0 <= z < 2 ^ 8.
Definition is_u16 (z : Z) : Prop := 0 <= z < 2 ^ 16.
Definition is_u32 (z : Z) : Prop := 0 <= z < 2 ^ 32.
Definition is_u64 (z : Z) : Prop := 0 <= z < 2 ^ 64.
Definition is_i64 (z : Z) : Prop := i64_min <= z <= i64_max.

#[global] Instance is_u8_dec z : Decision (is_u8 z).
Proof. unfold is_u8. apply _. Defined.
#[global] Instance is_u64_dec z : Decision (is_u64 z).
Proof. unfold is_u64. apply _. Defined.

(** Wrapping. *)
Definition wrap_u32 (z : Z) : Z := z mod 2 ^ 32.
Definition wrap_u64 (z : Z) : Z := z mod 2 ^ 64.
Definition wrap_i32 (z : Z) : Z := (z + 2 ^ 31) mod 2 ^ 32 - 2 ^ 31.

(** [x.clamp(lo, hi)] (Rust panics when [lo > hi]; the callers exclude it). *)
Definition clamp (lo hi x : Z) : Z := Z.max lo (Z.min x hi).

(** [a.saturating_add(b)], [a.saturating_sub(b)], [a.saturating_mul(b)] on u64. *)
Definition sat_add_u64 (a b : Z) : Z := Z.min (a + b) u64_max.
Definition sat_sub_u64 (a b : Z) : Z := Z.max (a - b) 0.
Definition sat_mul_u64 (a b : Z) : Z := Z.min (a * b) u64_max.
Definition sat_add_u32 (a b : Z) : Z := Z.min (a + b) u32_max.
Definition sat_mul_u32 (a b : Z) : Z := Z.min (a * b) u32_max.

(** [checked_add] / [checked_sub] / [checked_mul] on i64. *)
Definition checked_i64 (z : Z) : option Z :=
  if (i64_min <=? z) && (z <=? i64_max) then Some z else None.

(** Rust's [/] on signed integers truncates toward zero. *)
Definition idiv (a b : Z) : Z := Z.quot a b.

(** [u64::div_ceil]. *)
Definition div_ceil (a b : Z) : Z := (a + b - 1) / b.

Lemma clamp_bounds lo hi x : lo <= hi -> lo <= clamp lo hi x <= hi.
Proof. unfold clamp. lia. Qed.

Lemma clamp_id lo hi x : lo <= x <= hi -> clamp lo hi x = x.
Proof. unfold clamp. lia. Qed.

Lemma checked_i64_Some z z' : checked_i64 z = Some z' <-> z' = z /\ is_i64 z.
Proof.
  unfold checked_i64, is_i64. destruct (_ && _) eqn:E.
  - apply andb_prop in E as [? ?]. split; [intros [= <-]; lia|]. intros [-> _]. done.
  - split; [done|]. intros [_ ?]. apply andb_false_iff in E. lia.
Qed.

Lemma idiv_nonneg a b : 0 <= a -> 0 < b -> idiv a b = a / b.
Proof. intros. unfold idiv. apply Z.quot_div_nonneg; lia. Qed.

(** Linear goals with [/], [mod]: [lia] after the division equations. *)
Ltac div_lia := Z.div_mod_to_equations; lia.

(** Case analysis on the boolean tests of the code, as arithmetic facts. *)
Ltac bool_hyps :=
  repeat match goal with
  | H : _ && _ = true |- _ => apply andb_prop in H as [? ?]
  | H : _ || _ = false |- _ => apply orb_false_elim in H as [? ?]
  | H : negb _ = true |- _ => apply negb_true_iff in H
  | H : negb _ = false |- _ => apply negb_false_iff in H
  | H : (_ <? _) = true |- _ => apply Z.ltb_lt in H
  | H : (_ <? _) = false |- _ => apply Z.ltb_ge in H
  | H : (_ <=? _) = true |- _ => apply Z.leb_le in H
  | H : (_ <=? _) = false |- _ => apply Z.leb_gt in H
  | H : (_ =? _) = true |- _ => apply Z.eqb_eq in H
  | H : (_ =? _) = false |- _ => apply Z.eqb_neq in H
  | H : bool_decide _ = true |- _ => apply bool_decide_eq_true_1 in H
  | H : bool_decide _ = false |- _ => apply bool_decide_eq_false_1 in H
  end.

(** Split every [if] and [match] of the goal and turn the tests into facts. *)
Ltac case_code :=
  repeat (case_match; bool_hyps; simplify_eq).

(** ** Sums *)

Definition sum_list_with_Z {A} (f : A -> Z) (l : list A) : Z := foldr (fun x acc => f x + acc) 0 l.

Lemma sum_Z_app {A} (f : A -> Z) l1 l2 :
  sum_list_with_Z f (l1 ++ l2) = sum_list_with_Z f l1 + sum_list_with_Z f l2.
Proof. induction l1; simpl; lia. Qed.

Lemma sum_Z_perm {A} (f : A -> Z) l1 l2 :
  l1 ≡ₚ l2 -> sum_list_with_Z f l1 = sum_list_with_Z f l2.
Proof. induction 1; simpl; lia. Qed.

Lemma sum_Z_nonneg {A} (f : A -> Z) l :
  (forall x, x ∈ l -> 0 <= f x) -> 0 <= sum_list_with_Z f l.
Proof.
  induction l as [|x l IH]; simpl; [lia|]. intros H.
  pose proof (H x ltac:(left)). assert (0 <= sum_list_with_Z f l) by (apply IH; set_solver). lia.
Qed.

Lemma sum_Z_ge_elem {A} (f : A -> Z) l x :
  (forall y, y ∈ l -> 0 <= f y) -> x ∈ l -> f x <= sum_list_with_Z f l.
Proof.
  intros Hpos Hx. apply list_elem_of_split in Hx as (l1 & l2 & ->).
  rewrite sum_Z_app. simpl.
  pose proof (sum_Z_nonneg f l1 ltac:(set_solver)).
  pose proof (sum_Z_nonneg f l2 ltac:(set_solver)). lia.
Qed.

Lemma sum_Z_insert {A} (f : A -> Z) (l : list A) i x y :
  l !! i = Some x -> sum_list_with_Z f (<[i:=y]> l) = sum_list_with_Z f l - f x + f y.
Proof.
  revert i. induction l as [|z l IH]; intros [|i] Hi; try done.
  - injection Hi as ->. simpl. lia.
  - change (f z + sum_list_with_Z f (<[i:=y]> l) = f z + sum_list_with_Z f l - f x + f y). rewrite IH by done. lia.
Qed.

Lemma sum_Z_le {A} (f g : A -> Z) (l : list A) :
  (forall x, x ∈ l -> f x <= g x) -> sum_list_with_Z f l <= sum_list_with_Z g l.
Proof.
  induction l as [|x l IH]; simpl; [lia|]. intros H. pose proof (H x ltac:(left)).
  assert (sum_list_with_Z f l <= sum_list_with_Z g l) by (apply IH; intros y Hy; apply H; by right). lia.
Qed.
