(* ===== verification/F64.v ===== *)
(** * F64: IEEE-754 binary64, the engine's [f64].

    The rates, throughputs and durations of the engine are [f64].  They are
    modelled by the Standard Library's executable specification of binary
    floating point ([SpecFloat], precision 53, maximal exponent 1024), so every
    rounding the engine performs is performed by the model.  [SpecFloat] has
    one NaN, of no sign; no comparison of the modelled code by [total_cmp]
    reaches a NaN (each is guarded by a positivity or finiteness test). *)
From Stdlib Require Import SpecFloat.
From S2P Require Import Prelude.

Definition f64 : Type := spec_float.

Definition prec64 : Z := 53.
Definition emax64 : Z := 1024.

Definition f64_zero : f64 := S754_zero false.
Definition f64_neg_zero : f64 := S754_zero true.
Definition f64_inf : f64 := S754_infinity false.

(** [z as f64]: rounded to nearest, ties to even. *)
Definition f64_of_Z (z : Z) : f64 := binary_normalize prec64 emax64 z 0 false.

Definition f64_add : f64 -> f64 -> f64 := SFadd prec64 emax64.
Definition f64_sub : f64 -> f64 -> f64 := SFsub prec64 emax64.
Definition f64_mul : f64 -> f64 -> f64 := SFmul prec64 emax64.
Definition f64_div : f64 -> f64 -> f64 := SFdiv prec64 emax64.

(** A decimal literal [n / d], correctly rounded (n, d below 2^53). *)
Definition f64_lit (n d : Z) : f64 := f64_div (f64_of_Z n) (f64_of_Z d).

Definition f64_lt (x y : f64) : bool := SFltb x y.
Definition f64_le (x y : f64) : bool := SFleb x y.
Definition f64_gt (x y : f64) : bool := SFltb y x.
Definition f64_ge (x y : f64) : bool := SFleb y x.
Definition f64_eq (x y : f64) : bool := SFeqb x y.

Definition f64_is_finite (x : f64) : bool :=
  match x with S754_nan | S754_infinity _ => false | _ => true end.

(** [f64::max]: a NaN operand is ignored. *)
Definition f64_max (x y : f64) : f64 :=
  match x, y with
  | S754_nan, _ => y
  | _, S754_nan => x
  | _, _ => if f64_lt x y then y else x
  end.

(** [f64::total_cmp] (with the NaN taken positive). *)
Definition f64_total_cmp (x y : f64) : comparison :=
  match x, y with
  | S754_nan, S754_nan => Eq
  | S754_nan, _ => Gt
  | _, S754_nan => Lt
  | S754_zero s1, S754_zero s2 =>
      match s1, s2 with
      | true, false => Lt
      | false, true => Gt
      | _, _ => Eq
      end
  | _, _ => match SFcompare x y with Some c => c | None => Eq end
  end.

(** The integer part, toward zero, of a finite value. *)
Definition f64_trunc (x : f64) : Z :=
  match x with
  | S754_finite s m e =>
      let a := if 0 <=? e then Z.pos m * 2 ^ e else Z.pos m / 2 ^ (- e) in
      if s then - a else a
  | _ => 0
  end.

(** [x as i64], [x as i32], ...: truncation that saturates at the type's
    bounds, 0 for NaN. *)
Definition f64_to_int (lo hi : Z) (x : f64) : Z :=
  match x with
  | S754_nan => 0
  | S754_infinity s => if s then lo else hi
  | _ => clamp lo hi (f64_trunc x)
  end.
Definition f64_to_i64 : f64 -> Z := f64_to_int i64_min i64_max.
Definition f64_to_i32 : f64 -> Z := f64_to_int i32_min i32_max.

(** [x.ceil()] of a finite value, as an integer-valued [f64]. *)
Definition f64_ceil (x : f64) : f64 :=
  match x with
  | S754_finite s m e =>
      if 0 <=? e then x
      else if s then binary_normalize prec64 emax64 (- (Z.pos m / 2 ^ (- e))) 0 true
      else f64_of_Z (- ((- Z.pos m) / 2 ^ (- e)))
  | _ => x
  end.

(** [base.powi(n)] by repeated multiplication (exact for the powers of two
    the engine uses). *)
Fixpoint f64_powi (base : f64) (n : nat) : f64 :=
  match n with O => f64_of_Z 1 | S k => f64_mul base (f64_powi base k) end.

(** [iter.max_by(cmp)]: the last of the greatest elements. *)
Fixpoint max_by_from {A} (cmp : A -> A -> comparison) (best : A) (l : list A) : A :=
  match l with
  | [] => best
  | x :: l => max_by_from cmp (match cmp best x with Gt => best | _ => x end) l
  end.
Definition max_by {A} (cmp : A -> A -> comparison) (l : list A) : option A :=
  match l with [] => None | x :: l => Some (max_by_from cmp x l) end.

Lemma max_by_from_elem {A} cmp (l : list A) best : max_by_from cmp best l ∈ best :: l.
Proof.
  revert best. induction l as [|x l IH]; intros best; simpl; [set_solver|].
  destruct (cmp best x); [pose proof (IH x)|pose proof (IH x)|pose proof (IH best)]; set_solver +H.
Qed.

Lemma max_by_elem {A} cmp (l : list A) x : max_by cmp l = Some x -> x ∈ l.
Proof. destruct l as [|y l]; simpl; [done|]. intros [= <-]. apply max_by_from_elem. Qed.

Lemma max_by_None {A} cmp (l : list A) : max_by cmp l = None <-> l = [].
Proof. destruct l; simpl; done. Qed.

(** Where the code keeps the greatest of a nonempty list it has one. *)
Lemma max_by_is_Some {A} cmp (l : list A) : l <> [] -> is_Some (max_by cmp l).
Proof. destruct l; simpl; eauto; done. Qed.

Lemma f64_to_int_bounds lo hi x : lo <= 0 <= hi -> lo <= f64_to_int lo hi x <= hi.
Proof.
  intros H. unfold f64_to_int, clamp. destruct x as [s|s| |s m e]; try lia.
  - destruct s; lia.
Qed.

Lemma f64_to_i64_bounds x : is_i64 (f64_to_i64 x).
Proof. apply f64_to_int_bounds. unfold i64_min, i64_max. lia. Qed.

(** Literals and conversions round as the engine's do. *)
Example f64_lit_1_05 : f64_lit 105 100 = S754_finite false 4728779608739021 (-52).
Proof. vm_compute. reflexivity. Qed.
Example f64_trunc_neg : f64_to_i64 (f64_lit (-7) 2) = -3.
Proof. vm_compute. reflexivity. Qed.
Example f64_ceil_ex : f64_ceil (f64_lit 7 2) = f64_of_Z 4.
Proof. vm_compute. reflexivity. Qed.
Example f64_ceil_neg : f64_ceil (f64_lit (-7) 2) = f64_of_Z (-3).
Proof. vm_compute. reflexivity. Qed.

(** ** Order

    [SFcompare] on anything but NaN is the lexicographic order of sign,
    exponent and mantissa, so [lia] decides it. *)

Definition f64_is_nan (x : f64) : bool := match x with S754_nan => true | _ => false end.

Definition f64_rank (x : f64) : Z * (Z * Z) :=
  match x with
  | S754_nan => (0, (0, 0))
  | S754_infinity s => (if s then -2 else 2, (0, 0))
  | S754_zero _ => (0, (0, 0))
  | S754_finite s m e => if s then (-1, (- e, - Z.pos m)) else (1, (e, Z.pos m))
  end.

Definition rank_lt (a b : Z * (Z * Z)) : Prop :=
  a.1 < b.1 \/ (a.1 = b.1 /\ (a.2.1 < b.2.1 \/ (a.2.1 = b.2.1 /\ a.2.2 < b.2.2))).

Lemma SFcompare_rank x y : f64_is_nan x = false -> f64_is_nan y = false ->
  match SFcompare x y with
  | Some Lt => rank_lt (f64_rank x) (f64_rank y)
  | Some Eq => f64_rank x = f64_rank y
  | Some Gt => rank_lt (f64_rank y) (f64_rank x)
  | None => False
  end.
Proof.
  intros Hx Hy. unfold rank_lt.
  destruct x as [[]|[]| |[] m e]; try done; destruct y as [[]|[]| |[] m' e']; try done;
    simpl; try lia;
    (destruct (Z.compare_spec e e') as [->| |]; simpl; try lia);
    change (Pos.compare_cont Eq m m') with (Pos.compare m m');
    (destruct (Pos.compare_spec m m') as [->| |]; simpl; try lia; done).
Qed.

Lemma f64_lt_rank x y : f64_is_nan x = false -> f64_is_nan y = false ->
  f64_lt x y = true <-> rank_lt (f64_rank x) (f64_rank y).
Proof.
  intros Hx Hy. pose proof (SFcompare_rank x y Hx Hy) as H.
  unfold f64_lt, SFltb. destruct (SFcompare x y) as [[]|]; try done.
  - rewrite H. unfold rank_lt. split; [done|lia].
  - split; [done|]. unfold rank_lt in *. lia.
Qed.

Lemma f64_eq_rank x y : f64_is_nan x = false -> f64_is_nan y = false ->
  f64_eq x y = true <-> f64_rank x = f64_rank y.
Proof.
  intros Hx Hy. pose proof (SFcompare_rank x y Hx Hy) as H.
  unfold f64_eq, SFeqb. destruct (SFcompare x y) as [[]|]; try done.
  - split; [done|]. intros E. rewrite E in H. unfold rank_lt in H. lia.
  - split; [done|]. intros E. rewrite E in H. unfold rank_lt in H. lia.
Qed.

Lemma rank_trichotomy a b : rank_lt a b \/ a = b \/ rank_lt b a.
Proof. destruct a as [? [? ?]], b as [? [? ?]]. unfold rank_lt. simpl. 
  destruct (decide ((z, (z0, z1)) = (z2, (z3, z4)))) as [E|E]; [auto|].
  assert (z <> z2 \/ z0 <> z3 \/ z1 <> z4) by
    (destruct (decide (z = z2)), (decide (z0 = z3)), (decide (z1 = z4)); subst; auto).
  lia.
Qed.

(** ** Rates: no NaN, no negative sign *)

Definition f64_nonneg (x : f64) : Prop :=
  match x with
  | S754_zero false | S754_infinity false | S754_finite false _ _ => True
  | _ => False
  end.

Lemma f64_nonneg_not_nan x : f64_nonneg x -> f64_is_nan x = false.
Proof. destruct x; done. Qed.

(** Rounding a mantissa that is not negative. *)
Lemma shr_1_m r : 0 <= shr_m r -> shr_m (shr_1 r) = shr_m r / 2.
Proof.
  destruct r as [m r s]. simpl. intros H. destruct m as [|p|p]; [done| |lia].
  destruct p as [p|p|]; simpl; [|by rewrite (Pos2Z.inj_xO p), Z.mul_comm, Z.div_mul|done].
  rewrite Pos2Z.inj_xI. apply (Z.div_unique_pos _ _ _ 1); lia.
Qed.

Lemma iter_shr_1_m p r : 0 <= shr_m r -> shr_m (SpecFloat.iter_pos shr_1 p r) = shr_m r / 2 ^ Z.pos p.
Proof.
  revert r. induction p as [p IH|p IH|]; intros r H; simpl.
  - assert (0 <= shr_m (shr_1 r)) by (rewrite shr_1_m by done; apply Z.div_pos; lia).
    rewrite IH; rewrite ?IH by done; [|apply Z.div_pos; lia].
    rewrite shr_1_m by done. rewrite !Z.div_div by lia.
    f_equal. replace (Z.pos p~1) with (1 + (Z.pos p + Z.pos p)) by lia.
    rewrite !Z.pow_add_r by lia. ring.
  - rewrite IH; rewrite ?IH by done; [|apply Z.div_pos; lia].
    rewrite Z.div_div by lia. f_equal. rewrite <- Z.pow_add_r by lia. f_equal. lia.
  - rewrite shr_1_m by done. reflexivity.
Qed.

Lemma shr_m_shift mrs e n : 0 <= shr_m mrs ->
  shr_m (fst (shr mrs e n)) = shr_m mrs / 2 ^ Z.max n 0 /\ snd (shr mrs e n) = e + Z.max n 0.
Proof.
  intros H. destruct n as [|p|p]; simpl; rewrite ?Z.div_1_r; [split; lia| |split; lia].
  rewrite iter_shr_1_m by done. split; [done|lia].
Qed.

Lemma shr_record_of_loc_m m l : shr_m (shr_record_of_loc m l) = m.
Proof. destruct l as [|[]]; done. Qed.

Lemma round_nearest_even_bounds m l : m <= round_nearest_even m l <= m + 1.
Proof. unfold round_nearest_even. destruct l as [|[]]; [lia| |lia..]. destruct (Z.even m); lia. Qed.

(** Rounding keeps a positive sign and makes no NaN. *)
Lemma binary_round_aux_nonneg m e l : 0 <= m -> f64_nonneg (binary_round_aux prec64 emax64 false m e l).
Proof.
  intros H. unfold binary_round_aux, shr_fexp.
  destruct (shr (shr_record_of_loc m l) _ _) as [r1 e1] eqn:E1.
  assert (0 <= shr_m r1) as H1.
  { change r1 with (fst (r1, e1)). rewrite <- E1.
    destruct (shr_m_shift (shr_record_of_loc m l) e (fexp prec64 emax64 (Zdigits2 m + e) - e)) as [-> _];
      rewrite shr_record_of_loc_m; [done|]. apply Z.div_pos; [done|]. apply Z.pow_pos_nonneg; lia. }
  set (m2 := round_nearest_even _ _).
  assert (0 <= m2) by (pose proof (round_nearest_even_bounds (shr_m r1) (loc_of_shr_record r1)); subst m2; lia).
  destruct (shr (shr_record_of_loc m2 loc_Exact) _ _) as [r2 e2] eqn:E2.
  assert (0 <= shr_m r2) as H2.
  { change r2 with (fst (r2, e2)). rewrite <- E2.
    destruct (shr_m_shift (shr_record_of_loc m2 loc_Exact) e1 (fexp prec64 emax64 (Zdigits2 m2 + e1) - e1)) as [-> _];
      rewrite shr_record_of_loc_m; [done|]. apply Z.div_pos; [done|]. apply Z.pow_pos_nonneg; lia. }
  destruct (shr_m r2); [done| |lia]. destruct (_ <=? _); done.
Qed.

Lemma f64_of_Z_nonneg z : 0 <= z -> f64_nonneg (f64_of_Z z).
Proof.
  intros H. unfold f64_of_Z, binary_normalize. destruct z as [|p|p]; [done| |lia].
  unfold binary_round. destruct (shl_align _ _ _) as [m e]. apply binary_round_aux_nonneg. lia.
Qed.

Lemma f64_add_nonneg x y : f64_nonneg x -> f64_nonneg y -> f64_nonneg (f64_add x y).
Proof.
  intros Hx Hy. destruct x as [[]|[]| |[] m e]; try done; destruct y as [[]|[]| |[] m' e']; try done.
  unfold f64_add, SFadd, binary_normalize. simpl.
  unfold binary_round. destruct (shl_align _ (Z.min e e') _) as [mm ee] eqn:E. apply binary_round_aux_nonneg. lia.
Qed.

(** A positive finite factor. *)
Definition f64_pos (x : f64) : Prop := match x with S754_finite false _ _ => True | _ => False end.

Lemma f64_pos_nonneg x : f64_pos x -> f64_nonneg x.
Proof. destruct x as [| | |[]]; done. Qed.

Lemma f64_mul_nonneg x y : f64_nonneg x -> f64_pos y -> f64_nonneg (f64_mul x y).
Proof.
  intros Hx Hy. destruct y as [| | |[] m' e']; try done. destruct x as [[]|[]| |[] m e]; try done.
  apply binary_round_aux_nonneg. lia.
Qed.

Lemma f64_div_nonneg x y : f64_nonneg x -> f64_nonneg y -> f64_pos x \/ f64_pos y -> f64_nonneg (f64_div x y).
Proof.
  intros Hx Hy Hp.
  destruct x as [[]|[]| |[] m e]; try done; destruct y as [[]|[]| |[] m' e']; try done;
    try (destruct Hp; done).
  unfold f64_div, SFdiv, SFdiv_core_binary.
  set (s := e - e' - _). set (n := match s with Z0 => _ | _ => _ end).
  assert (0 <= n) by (subst n; destruct s; [lia|apply Z.shiftl_nonneg; lia|lia]).
  pose proof (Z_div_mod n (Z.pos m') ltac:(lia)) as Hd.
  destruct (Z.div_eucl n (Z.pos m')) as [q r]. apply binary_round_aux_nonneg. nia.
Qed.

(** An integer of at most a thousand bits is positive and finite as [f64]. *)
Lemma Zdigits2_log2 z : 0 < z -> Zdigits2 z = Z.log2 z + 1.
Proof.
  intros H. destruct z as [|p|p]; try lia. clear H. change (Z.pos (digits2_pos p) = Z.log2 (Z.pos p) + 1).
  induction p as [p IH|p IH|]; cbn [digits2_pos]; [..|done]; rewrite Pos2Z.inj_succ, IH.
  - rewrite Pos2Z.inj_xI, Z.log2_succ_double by lia. lia.
  - rewrite Pos2Z.inj_xO, Z.log2_double by lia. lia.
Qed.

(** One rounding step: the mantissa keeps at most 53 bits, none of them lost
    unless there are more. *)
Lemma shr_fexp_step m e l : 0 < m -> -1000 <= e -> 
  let d := Z.max (Z.log2 m + 1 - 53) 0 in
  shr_m (fst (shr_fexp prec64 emax64 m e l)) = m / 2 ^ d /\ snd (shr_fexp prec64 emax64 m e l) = e + d.
Proof.
  intros Hm He d. unfold shr_fexp.
  pose proof (Z.log2_nonneg m).
  destruct (shr_m_shift (shr_record_of_loc m l) e (fexp prec64 emax64 (Zdigits2 m + e) - e)) as [E1 E2];
    rewrite ?shr_record_of_loc_m in *; [lia|].
  rewrite Zdigits2_log2 in * by done.
  replace (Z.max (fexp prec64 emax64 (Z.log2 m + 1 + e) - e) 0) with d in * by
    (unfold fexp, SpecFloat.emin, prec64, emax64; lia).
  auto.
Qed.

Lemma div_pow2_pos m d : 0 < m -> 0 <= d <= Z.log2 m -> 0 < m / 2 ^ d < 2 ^ (Z.log2 m + 1 - d).
Proof.
  intros Hm Hd. pose proof (Z.log2_spec m Hm) as [H1 H2]. split.
  - apply Z.div_str_pos. split; [apply Z.pow_pos_nonneg; lia|].
    etransitivity; [|exact H1]. apply Z.pow_le_mono_r; lia.
  - apply Z.div_lt_upper_bound; [apply Z.pow_pos_nonneg; lia|].
    rewrite <- Z.pow_add_r by lia. replace (d + (Z.log2 m + 1 - d)) with (Z.succ (Z.log2 m)) by lia. done.
Qed.

Lemma iter_xO p d : Z.pos (Pos.iter xO p d) = Z.pos p * 2 ^ Z.pos d.
Proof.
  induction d as [|d IH] using Pos.peano_ind; [simpl; lia|].
  rewrite Pos.iter_succ, Pos2Z.inj_xO, IH, Pos2Z.inj_succ, Z.pow_succ_r by lia. ring.
Qed.

Lemma binary_round_aux_pos m e : 0 < m -> -1000 <= e -> Z.log2 m + e < 900 ->
  f64_pos (binary_round_aux prec64 emax64 false m e loc_Exact).
Proof.
  intros Hm He Hb. unfold binary_round_aux.
  pose proof (shr_fexp_step m e loc_Exact Hm He) as Hs. simpl in Hs.
  destruct (shr_fexp prec64 emax64 m e loc_Exact) as [r1 e1]. simpl in Hs. destruct Hs as [Hm1 ->].
  pose proof (Z.log2_nonneg m).
  set (d := Z.max (Z.log2 m + 1 - 53) 0) in *.
  destruct (div_pow2_pos m d Hm ltac:(lia)) as [Hp Hlt]. rewrite <- Hm1 in Hp, Hlt.
  set (m2 := round_nearest_even _ _).
  assert (Hm2 : 0 < m2 <= 2 ^ (Z.log2 m + 1 - d)) by
    (pose proof (round_nearest_even_bounds (shr_m r1) (loc_of_shr_record r1)); subst m2; lia).
  assert (Hl2 : Z.log2 m2 <= Z.log2 m + 1 - d) by (rewrite <- (Z.log2_pow2 (Z.log2 m + 1 - d)) by lia; apply Z.log2_le_mono; lia).
  pose proof (shr_fexp_step m2 (e + d) loc_Exact ltac:(lia) ltac:(lia)) as Hs2. simpl in Hs2.
  pose proof (Z.log2_nonneg m2).
  destruct (shr_fexp prec64 emax64 m2 (e + d) loc_Exact) as [r2 e2]. simpl in Hs2. destruct Hs2 as [Hm3 ->].
  destruct (div_pow2_pos m2 (Z.max (Z.log2 m2 + 1 - 53) 0) ltac:(lia) ltac:(lia)) as [Hp2 _]. rewrite <- Hm3 in Hp2.
  destruct (shr_m r2) as [|q|q]; try lia.
  destruct (Z.leb_spec (e + d + Z.max (Z.log2 m2 + 1 - 53) 0) (emax64 - prec64)); [done|unfold emax64, prec64 in *; lia].
Qed.

Lemma f64_of_Z_pos z : 0 < z < 2 ^ 800 -> f64_pos (f64_of_Z z).
Proof.
  intros [H0 H1]. unfold f64_of_Z, binary_normalize. destruct z as [|p|p]; try lia.
  assert (Hlog : Z.log2 (Z.pos p) < 800) by (apply Z.log2_lt_pow2; lia).
  pose proof (Z.log2_nonneg (Z.pos p)).
  unfold binary_round.
  change (Z.pos (digits2_pos p)) with (Zdigits2 (Z.pos p)). rewrite Zdigits2_log2 by done.
  set (f := fexp _ _ _). assert (f = Z.log2 (Z.pos p) + 1 - 53) as Ef by
    (subst f; unfold fexp, SpecFloat.emin, prec64, emax64; lia).
  unfold shl_align. destruct (f - 0) as [|d|d] eqn:Ed; try (apply binary_round_aux_pos; lia).
  apply binary_round_aux_pos; [lia..|].
  rewrite iter_xO, Z.log2_mul_pow2 by lia. lia.
Qed.
