(* ===== verification/BTreeMap.v ===== *)
(** * BTreeMap: Rust's ordered map on integer keys.

    [BTreeMap<i32, V>] is the association list of its entries in key order:
    [values()] and [iter()] enumerate the list, which the code relies on when
    it takes the first matching segment.  The functions keep the list strictly
    sorted; their laws are the map laws. *)
From S2P Require Import Prelude.

Section BTreeMap.
Context {V : Type}.
Implicit Types (m : list (Z * V)) (k : Z) (v : V).

Definition bt_sorted m : Prop := StronglySorted Z.lt m.*1.

(** [map.get(&k)]. *)
Fixpoint bt_get k m : option V :=
  match m with
  | [] => None
  | (k', v) :: m => if k =? k' then Some v else bt_get k m
  end.

(** [map.insert(k, v)]. *)
Fixpoint bt_insert k v m : list (Z * V) :=
  match m with
  | [] => [(k, v)]
  | (k', v') :: m' =>
      if k <? k' then (k, v) :: m
      else if k =? k' then (k, v) :: m'
      else (k', v') :: bt_insert k v m'
  end.

(** [map.remove(&k)]. *)
Fixpoint bt_remove k m : list (Z * V) :=
  match m with
  | [] => []
  | (k', v') :: m' => if k =? k' then m' else (k', v') :: bt_remove k m'
  end.

(** [if let Some(v) = map.get_mut(&k) { *v = f(v) }]. *)
Fixpoint bt_alter (f : V -> V) k m : list (Z * V) :=
  match m with
  | [] => []
  | (k', v') :: m' =>
      if k =? k' then (k', f v') :: m' else (k', v') :: bt_alter f k m'
  end.

(** [map.values()], in key order. *)
Definition bt_values m : list V := m.*2.

Lemma bt_get_elem k m v : bt_get k m = Some v -> (k, v) ∈ m.
Proof.
  induction m as [|[k' v'] m IH]; simpl; [done|].
  destruct (Z.eqb_spec k k') as [->|]; [intros [= ->]; left|intros ?; right; auto].
Qed.

Lemma bt_get_value k m v : bt_get k m = Some v -> v ∈ bt_values m.
Proof. intros H%bt_get_elem. apply (list_elem_of_fmap_2 snd _ _ H). Qed.

Lemma bt_keys_lb k0 m : bt_sorted m -> StronglySorted Z.lt (k0 :: m.*1) ->
  forall k v, (k, v) ∈ m -> k0 < k.
Proof.
  intros _ Hs k v Hin. apply StronglySorted_inv in Hs as [_ Hf].
  rewrite Forall_forall in Hf. apply Hf, (list_elem_of_fmap_2 fst _ _ Hin).
Qed.

Lemma bt_elem_get k m v : bt_sorted m -> (k, v) ∈ m -> bt_get k m = Some v.
Proof.
  induction m as [|[k' v'] m IH]; simpl; [set_solver|].
  intros Hs [[= -> ->]|Hin]%elem_of_cons; [by rewrite Z.eqb_refl|].
  unfold bt_sorted in Hs. simpl in Hs.
  assert (bt_sorted m) as Hm by (by apply StronglySorted_inv in Hs as []).
  pose proof (bt_keys_lb _ _ Hm Hs _ _ Hin).
  destruct (Z.eqb_spec k k'); [lia|auto].
Qed.

Lemma bt_get_None k m : bt_get k m = None <-> forall v, (k, v) ∉ m.
Proof.
  induction m as [|[k' v'] m IH]; simpl; [set_solver|].
  destruct (Z.eqb_spec k k') as [->|Hne].
  - split; [done|]. intros H. destruct (H v'). left.
  - rewrite IH. set_solver.
Qed.

Lemma bt_insert_keys k v m k' v' :
  (k', v') ∈ bt_insert k v m -> (k', v') = (k, v) \/ (k', v') ∈ m.
Proof.
  induction m as [|[k1 v1] m IH]; simpl; [set_solver|].
  destruct (k <? k1); [set_solver|]. destruct (k =? k1); set_solver.
Qed.

Lemma bt_sorted_cons k v m :
  bt_sorted ((k, v) :: m) <-> bt_sorted m /\ (forall k' v', (k', v') ∈ m -> k < k').
Proof.
  unfold bt_sorted. simpl. split.
  - intros Hs. pose proof Hs as [? _]%StronglySorted_inv. split; [done|].
    by eapply bt_keys_lb.
  - intros [? Hlb]. constructor; [done|]. apply Forall_forall. intros x Hx.
    apply list_elem_of_fmap in Hx as [[k1 v1] [-> Hin]]. eauto.
Qed.

Lemma bt_insert_sorted k v m : bt_sorted m -> bt_sorted (bt_insert k v m).
Proof.
  induction m as [|[k1 v1] m IH]; simpl.
  - intros _. apply bt_sorted_cons. split; [constructor|set_solver].
  - intros [Hm Hlb]%bt_sorted_cons. destruct (Z.ltb_spec k k1).
    + apply bt_sorted_cons. split; [by apply bt_sorted_cons|].
      intros k' v' [[= -> ->]|Hin]%elem_of_cons; [done|].
      specialize (Hlb _ _ Hin). lia.
    + destruct (Z.eqb_spec k k1) as [->|]; apply bt_sorted_cons; split; auto.
      intros k' v' [[= -> ->]|Hin]%bt_insert_keys; [lia|eauto].
Qed.

Lemma bt_remove_subset k m x : x ∈ bt_remove k m -> x ∈ m.
Proof.
  induction m as [|[k1 v1] m IH]; simpl; [done|].
  destruct (k =? k1); set_solver.
Qed.

Lemma bt_remove_sorted k m : bt_sorted m -> bt_sorted (bt_remove k m).
Proof.
  induction m as [|[k1 v1] m IH]; simpl; [done|].
  intros [Hm Hlb]%bt_sorted_cons. destruct (k =? k1); [done|].
  apply bt_sorted_cons. split; [auto|]. intros k' v' Hin%bt_remove_subset. eauto.
Qed.

Lemma bt_alter_keys f k m : (bt_alter f k m).*1 = m.*1.
Proof.
  induction m as [|[k1 v1] m IH]; csimpl; [done|].
  destruct (k =? k1); csimpl; [done|by rewrite IH].
Qed.

Lemma bt_alter_sorted f k m : bt_sorted m -> bt_sorted (bt_alter f k m).
Proof. unfold bt_sorted. by rewrite bt_alter_keys. Qed.

Lemma bt_get_insert k v m k' :
  bt_sorted m ->
  bt_get k' (bt_insert k v m) = if k' =? k then Some v else bt_get k' m.
Proof.
  induction m as [|[k1 v1] m IH]; simpl; [by destruct (k' =? k)|].
  intros [Hm Hlb]%bt_sorted_cons. destruct (Z.ltb_spec k k1); simpl; [done|].
  destruct (Z.eqb_spec k k1) as [->|]; simpl.
  - by destruct (Z.eqb_spec k' k1).
  - rewrite IH by done. destruct (Z.eqb_spec k' k1), (Z.eqb_spec k' k); congruence.
Qed.

Lemma bt_get_remove k m k' :
  bt_sorted m ->
  bt_get k' (bt_remove k m) = if k' =? k then None else bt_get k' m.
Proof.
  induction m as [|[k1 v1] m IH]; simpl; [by destruct (k' =? k)|].
  intros [Hm Hlb]%bt_sorted_cons. destruct (Z.eqb_spec k k1) as [->|]; simpl.
  - destruct (Z.eqb_spec k' k1) as [Heq|]; [|done]. subst k'.
    apply bt_get_None. intros v Hin. specialize (Hlb _ _ Hin). lia.
  - rewrite IH by done. destruct (Z.eqb_spec k' k1), (Z.eqb_spec k' k); congruence.
Qed.

Lemma bt_get_alter f k m k' :
  bt_get k' (bt_alter f k m) = if k' =? k then f <$> bt_get k' m else bt_get k' m.
Proof.
  induction m as [|[k1 v1] m IH]; simpl; [by destruct (k' =? k)|].
  destruct (Z.eqb_spec k k1) as [->|]; simpl.
  - by destruct (Z.eqb_spec k' k1).
  - rewrite IH. destruct (Z.eqb_spec k' k1), (Z.eqb_spec k' k); congruence.
Qed.

(** A fresh insertion adds exactly one value. *)
Lemma bt_insert_fresh_perm k v m :
  bt_get k m = None -> bt_values (bt_insert k v m) ≡ₚ v :: bt_values m.
Proof.
  induction m as [|[k1 v1] m IH]; simpl; [done|].
  destruct (Z.eqb_spec k k1); [done|]. intros H.
  destruct (k <? k1); simpl; [done|].
  unfold bt_values in *. simpl. rewrite IH by done. by rewrite Permutation_swap.
Qed.

Lemma bt_alter_insert f k k' v m :
  k <> k' -> bt_alter f k (bt_insert k' v m) = bt_insert k' v (bt_alter f k m).
Proof.
  intros Hne. induction m as [|[k1 v1] m IH]; simpl.
  - by destruct (Z.eqb_spec k k').
  - destruct (Z.ltb_spec k' k1), (Z.eqb_spec k' k1), (Z.eqb_spec k k1); simpl;
      repeat match goal with
      | |- context [?a =? ?b] => destruct (Z.eqb_spec a b)
      | |- context [?a <? ?b] => destruct (Z.ltb_spec a b)
      end; subst; try (lia || congruence).
Qed.

Lemma bt_alter_insert_same f k v m : bt_alter f k (bt_insert k v m) = bt_insert k (f v) m.
Proof.
  induction m as [|[k1 v1] m IH]; simpl; [by rewrite Z.eqb_refl|].
  destruct (Z.ltb_spec k k1), (Z.eqb_spec k k1); simpl; rewrite ?Z.eqb_refl; try done.
  destruct (Z.eqb_spec k k1); [done|by rewrite IH].
Qed.

Lemma bt_alter_alter f g k m : bt_alter f k (bt_alter g k m) = bt_alter (fun v => f (g v)) k m.
Proof.
  induction m as [|[k1 v1] m IH]; simpl; [done|].
  destruct (k =? k1) eqn:E; simpl; rewrite E; [done|by rewrite IH].
Qed.

(** Focusing an entry: the map is its value and the others, an alteration
    replaces it and a removal leaves the others. *)
Lemma bt_focus k m v :
  bt_get k m = Some v ->
  exists l1 l2, m = l1 ++ (k, v) :: l2 /\
    (forall f, bt_alter f k m = l1 ++ (k, f v) :: l2) /\
    bt_remove k m = l1 ++ l2.
Proof.
  induction m as [|[k1 v1] m IH]; simpl; [done|].
  destruct (Z.eqb_spec k k1) as [->|].
  - intros [= ->]. by exists [], m.
  - intros (l1 & l2 & -> & Ha & Hr)%IH. exists ((k1, v1) :: l1), l2.
    split; [done|]. split; [intros f; by rewrite Ha|by rewrite Hr].
Qed.

Lemma bt_values_split l1 k v (l2 : list (Z * V)) :
  bt_values (l1 ++ (k, v) :: l2) = bt_values l1 ++ v :: bt_values l2.
Proof. unfold bt_values. by rewrite fmap_app. Qed.
End BTreeMap.

Create HintDb segments discriminated.
#[export] Hint Resolve bt_insert_sorted bt_remove_sorted bt_alter_sorted : segments.
