(* ===== verification/PathScheduler.v ===== *)
(** * PathScheduler: the stateless decisions of multi-path scheduling
      ([native/engine/src/path_scheduler.rs]). *)
From S2P Require Import Prelude F64.

Definition COMPETITIVE_RATIO : f64 := f64_lit 1 2.
Definition RATE_EWMA_ALPHA : f64 := f64_lit 1 2.
Definition PREEMPT_SLACK : f64 := f64_of_Z 2.
Definition PREEMPT_SETUP_SECS : f64 := f64_of_Z 1.
Definition EXPLORE_MIN_PIECE : Z := 1024 * 1024.
Definition MIN_SAMPLE_WINDOWS : Z := 2.
Definition MIN_SPLIT_PIECE : Z := 64 * 1024.
Definition LINK_FLOOR_SHARE : f64 := f64_lit 5 100.

(** A window of [secs] seconds ([Duration::as_secs_f64]). *)
Definition window_rate (bytes : Z) (secs : f64) : f64 :=
  if f64_le secs f64_zero then f64_zero
  else f64_div (f64_of_Z (Z.max bytes 0)) secs.

Definition f64_total_le (x y : f64) : Prop := f64_total_cmp x y <> Gt.
#[global] Instance f64_total_le_dec x y : Decision (f64_total_le x y).
Proof. unfold f64_total_le. destruct (f64_total_cmp x y); [left|left|right]; congruence. Defined.

(** [values.sort_by(f64::total_cmp)] then the middle element(s). *)
Definition median (values : list f64) : option f64 :=
  match values with
  | [] => None
  | _ =>
      let sorted := merge_sort f64_total_le values in
      let mid := Nat.div2 (length values) in
      if Nat.even (length values) then
        let* a := sorted !! (mid - 1)%nat in
        let* b := sorted !! mid in
        Some (f64_div (f64_add a b) (f64_of_Z 2))
      else sorted !! mid
  end.

Definition blend_rate (current sample : f64) (first_measurement : bool) : f64 :=
  if first_measurement then sample
  else f64_add (f64_mul (f64_sub (f64_of_Z 1) RATE_EWMA_ALPHA) current)
               (f64_mul RATE_EWMA_ALPHA sample).

Definition is_competitive (score best : f64) : bool :=
  f64_le best f64_zero || f64_ge score (f64_mul best COMPETITIVE_RATIO).

Definition link_marginal (capacity_bps : f64) (outstanding : Z) : f64 :=
  if negb (f64_is_finite capacity_bps && f64_gt capacity_bps f64_zero) then f64_zero
  else f64_div capacity_bps (f64_of_Z (sat_add_u32 outstanding 1)).

Definition completion_secs (remaining : Z) (bps : f64) : f64 :=
  if f64_gt bps f64_zero && f64_is_finite bps
  then f64_div (f64_of_Z (Z.max remaining 0)) bps
  else f64_inf.

(** [keep.clamp(piece, (remaining - piece).max(piece))] with
    [piece = MIN_SPLIT_PIECE.min(remaining / 2).max(1)]. *)
Definition clamp_keep (remaining keep : Z) : Z :=
  let half := idiv remaining 2 in
  let piece := Z.max (Z.min MIN_SPLIT_PIECE half) 1 in
  clamp piece (Z.max (remaining - piece) piece) keep.

Definition balanced_keep (remaining : Z) (holder_bps helper_bps : option f64) : Z :=
  let half := idiv remaining 2 in
  match holder_bps, helper_bps with
  | Some holder, Some helper =>
      if negb (f64_is_finite holder && f64_is_finite helper)
         || f64_lt holder f64_zero || f64_le helper f64_zero
      then half
      else
        clamp_keep remaining
          (f64_to_i64 (f64_div (f64_mul (f64_of_Z remaining) holder) (f64_add holder helper)))
  | _, _ => half
  end.

Definition split_keep_with_setup
    (remaining : Z) (holder_bps helper_bps : option f64) (setup_secs : f64) : option Z :=
  match holder_bps, helper_bps with
  | Some holder, Some helper =>
      if negb (f64_is_finite setup_secs && f64_gt setup_secs f64_zero && f64_gt holder f64_zero)
      then Some (balanced_keep remaining holder_bps helper_bps)
      else if f64_le (completion_secs remaining holder) setup_secs then None
      else if negb (f64_is_finite helper && f64_gt helper f64_zero && f64_is_finite holder)
      then Some (balanced_keep remaining holder_bps helper_bps)
      else
        Some (clamp_keep remaining
          (f64_to_i64
            (f64_div
              (f64_mul holder (f64_add (f64_mul setup_secs helper) (f64_of_Z remaining)))
              (f64_add holder helper))))
  | _, _ => Some (balanced_keep remaining holder_bps helper_bps)
  end.

Definition should_preempt (remaining : Z) (conn_bps best_bps : f64) : bool :=
  if (remaining <=? 0) || negb (f64_gt best_bps f64_zero && f64_is_finite best_bps)
  then false
  else
    let own := completion_secs remaining conn_bps in
    let handover :=
      f64_add (f64_mul PREEMPT_SLACK (completion_secs remaining best_bps)) PREEMPT_SETUP_SECS in
    f64_gt own handover.

#[global] Arguments clamp_keep : simpl never.
#[global] Arguments balanced_keep : simpl never.
#[global] Arguments split_keep_with_setup : simpl never.
#[global] Arguments completion_secs : simpl never.

(** ** Lemmas *)

(** The bytes each side of a split keeps at least. *)
Definition split_floor (remaining : Z) : Z := Z.min MIN_SPLIT_PIECE (remaining / 2).

Lemma clamp_keep_bounds remaining keep :
  2 <= remaining ->
  split_floor remaining <= clamp_keep remaining keep <= remaining - split_floor remaining.
Proof.
  intros H. unfold clamp_keep, split_floor. rewrite idiv_nonneg by lia.
  unfold clamp, MIN_SPLIT_PIECE. div_lia.
Qed.

Lemma balanced_keep_bounds remaining holder helper :
  2 <= remaining ->
  split_floor remaining <= balanced_keep remaining holder helper
    <= remaining - split_floor remaining.
Proof.
  intros H.
  assert (split_floor remaining <= idiv remaining 2 <= remaining - split_floor remaining)
    by (unfold split_floor, MIN_SPLIT_PIECE; rewrite idiv_nonneg by lia; div_lia).
  unfold balanced_keep. case_code; auto using clamp_keep_bounds.
Qed.

Lemma split_keep_bounds remaining holder helper setup keep :
  2 <= remaining ->
  split_keep_with_setup remaining holder helper setup = Some keep ->
  split_floor remaining <= keep <= remaining - split_floor remaining.
Proof.
  unfold split_keep_with_setup. intros H.
  case_code; intros ?; simplify_eq; auto using clamp_keep_bounds, balanced_keep_bounds.
Qed.
