(* ===== verification/Segments.v ===== *)
(** * Segments: the segment map of the download coordinator
      ([native/engine/src/segment_coordinator.rs]).

    The map assigns every byte of the file to one segment; workers download
    segments, and an idle worker is given half of the segment expected to
    finish last.  This file models the map, the split planner, the
    assignment of work, the coverage check, the absorption of pending
    segments into an open stream and the vector of progress shared with the
    workers. *)
From S2P Require Import Prelude F64 BTreeMap PathScheduler.

(** ** Data *)

Inductive SegState := Pending | Active | Completed.

#[global] Instance SegState_eq_dec : EqDecision SegState.
Proof. solve_decision. Defined.

Record LiveSegment := mkSeg {
  index : Z;
  start_byte : Z;
  end_byte : Z;
  downloaded_bytes : Z;
  state : SegState;
  rate_bps : option f64;
}.

(** [BTreeMap<i32, LiveSegment>]. *)
Abbreviation segmap := (list (Z * LiveSegment)).

Definition size (s : LiveSegment) : Z := Z.max (end_byte s - start_byte s + 1) 0.
Definition remaining (s : LiveSegment) : Z := Z.max (size s - downloaded_bytes s) 0.

Definition is_state (st : SegState) (s : LiveSegment) : bool := bool_decide (state s = st).

(** Field assignments of the code. *)
Definition set_state (st : SegState) (s : LiveSegment) : LiveSegment :=
  mkSeg (index s) (start_byte s) (end_byte s) (downloaded_bytes s) st (rate_bps s).
Definition set_end (e : Z) (s : LiveSegment) : LiveSegment :=
  mkSeg (index s) (start_byte s) e (downloaded_bytes s) (state s) (rate_bps s).
Definition set_downloaded (d : Z) (s : LiveSegment) : LiveSegment :=
  mkSeg (index s) (start_byte s) (end_byte s) d (state s) (rate_bps s).
Definition set_rate (r : option f64) (s : LiveSegment) : LiveSegment :=
  mkSeg (index s) (start_byte s) (end_byte s) (downloaded_bytes s) (state s) r.

Record WorkerAssignment := mkAssignment {
  seg_index : Z;
  seg_start : Z;
  actual_start : Z;
  seg_end : Z;
  open_ended : bool;
  no_range : bool;
}.

Record NextWork := mkNextWork {
  assignment : WorkerAssignment;
  split_parent : option Z;
}.

Record SplitCost := mkSplitCost {
  setup_secs : f64;
  conn_bps : option f64;
}.

Record SegmentProgressInfo := mkInfo {
  i_index : Z;
  i_start_byte : Z;
  i_end_byte : Z;
  i_downloaded_bytes : Z;
  i_active : option bool;
}.

Definition MIN_SPLIT_BYTES : Z := 2 * 1024 * 1024.
Definition MAX_SEGMENTS : Z := 512.
Definition TAIL_MIN_SPLIT_BYTES : Z := 64 * 1024.

(** ** Fresh segments *)

Definition fresh_segment (count total_bytes i : Z) : LiveSegment :=
  let chunk := idiv total_bytes count in
  let start := i * chunk in
  let end_ := if i =? count - 1 then total_bytes - 1 else (i + 1) * chunk - 1 in
  mkSeg i start end_ 0 Pending None.

(** The map and the rows to insert in the database: [count] uniform segments,
    the last one taking the rest. *)
Definition build_fresh_segments (count total_bytes : Z) : segmap * list (Z * Z * Z) :=
  fold_left
    (fun acc i =>
       let s := fresh_segment count total_bytes i in
       (bt_insert i s acc.1, acc.2 ++ [(i, start_byte s, end_byte s)]))
    (seqZ 0 count) ([], []).

(** ** The coverage check *)

Inductive CoverageError :=
| NoSegments
| FirstStart (start : Z)
| LastEnd (end_ expected : Z)
| GapOrOverlap (prev_index prev_end index start : Z)
| TotalCoverage (coverage total : Z).

Definition by_start (a b : LiveSegment) : Prop := start_byte a <= start_byte b.
#[global] Instance by_start_dec a b : Decision (by_start a b).
Proof. unfold by_start. apply _. Defined.

Fixpoint check_windows (prev : LiveSegment) (rest : list LiveSegment) : result unit CoverageError :=
  match rest with
  | [] => Ok tt
  | curr :: rest =>
      if negb (start_byte curr =? end_byte prev + 1)
      then Err (GapOrOverlap (index prev) (end_byte prev) (index curr) (start_byte curr))
      else check_windows curr rest
  end.

Definition validate_coverage (segments : segmap) (total_bytes : Z) : result unit CoverageError :=
  let sorted := merge_sort by_start (bt_values segments) in
  match sorted with
  | [] => Err NoSegments
  | first :: rest =>
      if negb (start_byte first =? 0) then Err (FirstStart (start_byte first))
      else
        let last := List.last rest first in
        if negb (end_byte last =? total_bytes - 1)
        then Err (LastEnd (end_byte last) (total_bytes - 1))
        else
          let? _ := check_windows first rest in
          let total_coverage := sum_list_with_Z size (bt_values segments) in
          if negb (total_coverage =? total_bytes)
          then Err (TotalCoverage total_coverage total_bytes)
          else Ok tt
  end.

(** ** Planning and performing a split *)

Definition active_segments (segments : segmap) : list LiveSegment :=
  List.filter (is_state Active) (bt_values segments).

Definition positive_rate (r : f64) : bool := f64_gt r f64_zero.

Definition positive_opt (o : option f64) : option f64 :=
  match o with Some r => if positive_rate r then Some r else None | None => None end.

Definition opt_or {A} (a b : option A) : option A :=
  match a with Some _ => a | None => b end.

(** The fastest rate of an active connection, or the estimate of the caller. *)
Definition helper_bps (segments : segmap) (cost : SplitCost) : option f64 :=
  opt_or
    (max_by f64_total_cmp
       (List.filter positive_rate (omap rate_bps (active_segments segments))))
    (positive_opt (conn_bps cost)).

Definition expected_finish (helper : option f64) (s : LiveSegment) : f64 :=
  match helper with
  | Some h => completion_secs (remaining s) (default h (rate_bps s))
  | None => f64_of_Z (remaining s)
  end.

(** [expected_finish(a).total_cmp(..).then(a.remaining().cmp(..))]. *)
Definition finish_cmp (helper : option f64) (a b : LiveSegment) : comparison :=
  match f64_total_cmp (expected_finish helper a) (expected_finish helper b) with
  | Eq => Z.compare (remaining a) (remaining b)
  | c => c
  end.

(** The segment to split: [(index, current position, remaining, split point)]. *)
Definition plan_split (segments : segmap) (min_split : Z) (cost : SplitCost)
    : option (Z * Z * Z * Z) :=
  let helper := helper_bps segments cost in
  let* best :=
    max_by (finish_cmp helper)
      (List.filter (fun s => is_state Active s && (min_split <=? remaining s))
         (bt_values segments)) in
  let current_pos := start_byte best + downloaded_bytes best in
  let remaining := end_byte best - current_pos + 1 in
  if remaining <? min_split then None
  else
    let* keep := split_keep_with_setup remaining (opt_or (rate_bps best) helper) helper
                   (setup_secs cost) in
    let split_point := current_pos + keep in
    if (split_point <=? current_pos) || (end_byte best <? split_point) then None
    else Some (index best, current_pos, remaining, split_point).

Definition active_or_pending (segments : segmap) : Z :=
  Z.of_nat (length (List.filter (fun s => negb (is_state Completed s)) (bt_values segments))).

(** Both splits: the parent keeps [.. split_point - 1], the child, of state
    [child_state], takes the rest. *)
Definition split_at (segments : segmap) (next_index best_idx split_point old_end : Z)
    (child_state : SegState) : segmap * Z * NextWork :=
  let new_index := next_index in
  let new_seg := mkSeg new_index split_point old_end 0 child_state None in
  let segments := bt_alter (set_end (split_point - 1)) best_idx segments in
  (bt_insert new_index new_seg segments, next_index + 1,
   mkNextWork (mkAssignment new_index split_point split_point old_end false false)
     (Some best_idx)).

Definition try_split_largest (segments : segmap) (next_index min_split : Z) (cost : SplitCost)
    : option (segmap * Z * NextWork) :=
  if MAX_SEGMENTS <=? active_or_pending segments then None
  else
    let* (best_idx, _, _, split_point) := plan_split segments min_split cost in
    let* parent := bt_get best_idx segments in
    Some (split_at segments next_index best_idx split_point (end_byte parent) Active).

Definition try_proactive_split (segments : segmap) (next_index min_split : Z) (cost : SplitCost)
    : option (segmap * Z * NextWork) :=
  if existsb (is_state Pending) (bt_values segments) then None
  else if MAX_SEGMENTS <=? active_or_pending segments then None
  else
    let* (best_idx, _, _, split_point) := plan_split segments min_split cost in
    let* parent := bt_get best_idx segments in
    Some (split_at segments next_index best_idx split_point (end_byte parent) Pending).

(** ** Assigning work *)

Definition pending_assignment (s : LiveSegment) : WorkerAssignment :=
  mkAssignment (index s) (start_byte s) (start_byte s + downloaded_bytes s) (end_byte s) false false.

Definition find_next_pending_only (segments : segmap) : option (segmap * NextWork) :=
  let* seg := List.find (is_state Pending) (bt_values segments) in
  Some (bt_alter (set_state Active) (index seg) segments,
        mkNextWork (pending_assignment seg) None).

(** [segments.values().filter(Active).map(remaining).max().unwrap_or(0)]. *)
Definition max_active_remaining (segments : segmap) : Z :=
  match active_segments segments with
  | [] => 0
  | s :: l => foldl (fun acc x => Z.max acc (remaining x)) (remaining s) l
  end.

Definition find_next_work (segments : segmap) (next_index min_split : Z) (cost : SplitCost)
    : option (segmap * Z * NextWork) :=
  match List.find (is_state Pending) (bt_values segments) with
  | Some seg =>
      Some (bt_alter (set_state Active) (index seg) segments, next_index,
            mkNextWork (pending_assignment seg) None)
  | None =>
      match try_split_largest segments next_index min_split cost with
      | Some work => Some work
      | None =>
          if TAIL_MIN_SPLIT_BYTES <? min_split then
            if 2 * TAIL_MIN_SPLIT_BYTES <=? max_active_remaining segments
            then try_split_largest segments next_index TAIL_MIN_SPLIT_BYTES cost
            else None
          else None
      end
  end.

Definition has_other_in_flight (segments : segmap) (failed_index : Z) : bool :=
  existsb (fun s => negb (index s =? failed_index) && is_state Active s) (bt_values segments).

Definition all_done (segments : segmap) : bool :=
  forallb (is_state Completed) (bt_values segments).

(** ** The layout as a partition of the file *)

Definition covers (b : Z) (s : LiveSegment) : bool :=
  (start_byte s <=? b) && (b <=? end_byte s).

(** How many segments of the list cover byte [b]. *)
Definition cov_count (l : list LiveSegment) (b : Z) : Z :=
  sum_list_with_Z (fun s => Z.b2z (covers b s)) l.

(** Every byte of [lo .. hi] in exactly one segment, no other byte in any. *)
Definition partition (l : list LiveSegment) (lo hi : Z) : Prop :=
  forall b, cov_count l b = Z.b2z ((lo <=? b) && (b <=? hi)).

Definition nonempty_seg (s : LiveSegment) : Prop := start_byte s <= end_byte s.

(** The segments follow one another from [lo] to [hi]. *)
Fixpoint contiguous (lo : Z) (l : list LiveSegment) (hi : Z) : Prop :=
  match l with
  | [] => lo = hi + 1
  | s :: l => start_byte s = lo /\ lo <= end_byte s + 1 /\ contiguous (end_byte s + 1) l hi
  end.

(** The invariant of the coordinator's map: keys are the indices, indices are
    below the next one to hand out, no segment is empty, what a segment has
    downloaded is non-negative, and the segments partition the file. *)
Record seg_inv (total next : Z) (m : segmap) : Prop := mkSegInv {
  inv_sorted : bt_sorted m;
  inv_index : forall k s, (k, s) ∈ m -> index s = k;
  inv_next : forall k s, (k, s) ∈ m -> k < next;
  inv_nonempty : forall k s, (k, s) ∈ m -> nonempty_seg s;
  inv_downloaded : forall k s, (k, s) ∈ m -> 0 <= downloaded_bytes s;
  inv_partition : partition (bt_values m) 0 (total - 1);
}.

(** ** Counting *)

Lemma cov_count_nonneg l b : 0 <= cov_count l b.
Proof. apply sum_Z_nonneg. intros s _. destruct (covers b s); simpl; lia. Qed.

Lemma cov_count_cons s l b : cov_count (s :: l) b = Z.b2z (covers b s) + cov_count l b.
Proof. done. Qed.

Lemma cov_count_pos l b s : s ∈ l -> covers b s = true -> 1 <= cov_count l b.
Proof.
  intros Hin Hc.
  pose proof (sum_Z_ge_elem (fun s => Z.b2z (covers b s)) l s) as H. simpl in H.
  rewrite Hc in H. simpl in H. unfold cov_count. apply H; [|done].
  intros y _. destruct (covers b y); simpl; lia.
Qed.

Lemma cov_count_pos_inv l b : 1 <= cov_count l b -> exists s, s ∈ l /\ covers b s = true.
Proof.
  induction l as [|s l IH]; [unfold cov_count; simpl; lia|].
  rewrite cov_count_cons. destruct (covers b s) eqn:E; simpl.
  - intros _. exists s. split; [left|done].
  - intros (s' & ? & ?)%IH. exists s'. split; [by right|done].
Qed.

Lemma partition_perm l1 l2 lo hi : l1 ≡ₚ l2 -> partition l1 lo hi -> partition l2 lo hi.
Proof. intros HP H b. rewrite <- (H b). symmetry. by apply sum_Z_perm. Qed.

(** Indicator functions as linear facts. *)
Ltac b2z_lia :=
  repeat match goal with
  | |- context [Z.b2z ?e] => let E := fresh "E" in destruct e eqn:E; cbn [Z.b2z]
  | H : context [Z.b2z ?e] |- _ => let E := fresh "E" in destruct e eqn:E; cbn [Z.b2z] in H
  end;
  unfold covers in *; cbn [start_byte end_byte set_end] in *;
  repeat match goal with
  | H : _ && _ = true |- _ => apply andb_prop in H as [? ?]
  | H : _ && _ = false |- _ => apply andb_false_iff in H
  end;
  rewrite ?Z.leb_le, ?Z.leb_gt, ?Z.ltb_lt, ?Z.ltb_ge in *; lia.

Lemma contiguous_partition lo l hi :
  contiguous lo l hi -> lo <= hi + 1 /\ partition l lo hi.
Proof.
  revert lo. induction l as [|s l IH]; simpl; intros lo.
  - intros ->. split; [lia|]. intros b. unfold cov_count. simpl. b2z_lia.
  - intros (<- & ? & [Hle HP]%IH). split; [lia|]. intros b.
    rewrite cov_count_cons, HP. b2z_lia.
Qed.

Lemma contiguous_sizes lo l hi :
  contiguous lo l hi -> sum_list_with_Z size l = hi + 1 - lo.
Proof.
  revert lo. induction l as [|s l IH]; simpl; intros lo; [lia|].
  intros (<- & ? & Hc). rewrite (IH _ Hc). unfold size. lia.
Qed.

(** A sorted list of non-empty segments that partition an interval is
    contiguous. *)
Lemma partition_contiguous l : forall lo hi,
  StronglySorted by_start l -> Forall nonempty_seg l -> lo <= hi + 1 ->
  partition l lo hi -> contiguous lo l hi.
Proof.
  induction l as [|s l IH]; intros lo hi Hs Hne Hlo HP; simpl.
  - destruct (decide (lo = hi + 1)); [done|].
    specialize (HP lo). unfold cov_count in HP. simpl in HP. b2z_lia.
  - apply StronglySorted_inv in Hs as [Hs Hmin]. apply Forall_cons in Hne as [Hs0 Hne].
    rewrite Forall_forall in Hmin.
    assert (lo <= hi) as Hlohi.
    { pose proof (cov_count_pos (s :: l) (start_byte s) s ltac:(left)) as H.
      rewrite HP in H. unfold nonempty_seg in Hs0.
      assert (covers (start_byte s) s = true) as Hc
        by (unfold covers; apply andb_true_intro; rewrite !Z.leb_le; lia).
      specialize (H Hc). b2z_lia. }
    assert (start_byte s = lo) as Hst.
    { assert (lo <= start_byte s).
      { pose proof (cov_count_pos (s :: l) (start_byte s) s ltac:(left)) as H.
        rewrite HP in H. unfold nonempty_seg in Hs0.
        assert (covers (start_byte s) s = true) as Hc
          by (unfold covers; apply andb_true_intro; rewrite !Z.leb_le; lia).
        specialize (H Hc). b2z_lia. }
      destruct (cov_count_pos_inv (s :: l) lo) as (s' & Hin & Hc).
      { rewrite HP. b2z_lia. }
      apply elem_of_cons in Hin as [->|Hin].
      - unfold covers in Hc. bool_hyps. lia.
      - apply Hmin in Hin. unfold by_start in Hin. unfold covers in Hc. bool_hyps. lia. }
    unfold nonempty_seg in Hs0. split; [done|]. split; [lia|].
    assert (end_byte s <= hi).
    { pose proof (cov_count_pos (s :: l) (end_byte s) s ltac:(left)) as H.
      rewrite HP in H.
      assert (covers (end_byte s) s = true) as Hc
        by (unfold covers; apply andb_true_intro; rewrite !Z.leb_le; lia).
      specialize (H Hc). b2z_lia. }
    apply IH; [done|done|lia|]. intros b. specialize (HP b).
    rewrite cov_count_cons in HP. pose proof (cov_count_nonneg l b). b2z_lia.
Qed.

Lemma check_windows_contiguous first rest hi :
  check_windows first rest = Ok tt ->
  StronglySorted by_start (first :: rest) ->
  end_byte (List.last rest first) = hi ->
  start_byte first <= end_byte first + 1 \/ rest = [] ->
  (forall s, s = List.last rest first -> start_byte s <= end_byte s + 1) ->
  contiguous (start_byte first) (first :: rest) hi.
Proof.
  revert first. induction rest as [|curr rest IH]; intros first; simpl.
  - intros _ _ <- _ Hlast. specialize (Hlast _ eq_refl). repeat split; lia.
  - destruct (Z.eqb_spec (start_byte curr) (end_byte first + 1)) as [Heq|]; [|done]. simpl.
    intros Hw Hs Hend Hf Hlast.
    apply StronglySorted_inv in Hs as [Hs Hmin].
    pose proof Hs as Hs2. apply StronglySorted_inv in Hs2 as [_ Hmin2].
    apply Forall_cons in Hmin as [Hfc _]. unfold by_start in Hfc.
    split; [done|]. split; [lia|]. rewrite <- Heq.
    assert (List.last rest curr = match rest with [] => curr | _ :: _ => List.last rest first end) as HL.
    { clear. destruct rest as [|x r]; [done|]. revert x. induction r as [|y r IH]; intros x; [done|].
      simpl in *. apply IH. }
    apply IH; [done|done|by rewrite HL|..].
    + destruct rest as [|c2 rest]; [by right|left].
      simpl in Hw. destruct (Z.eqb_spec (start_byte c2) (end_byte curr + 1)); [|done].
      apply Forall_cons in Hmin2 as [? _]. unfold by_start in *. lia.
    + intros s ->. apply Hlast. by rewrite HL.
Qed.

Lemma by_start_total : Total by_start.
Proof. intros a b. unfold by_start. lia. Qed.
Lemma by_start_trans : Transitive by_start.
Proof. intros a b c. unfold by_start. lia. Qed.

Lemma sorted_values_strongly m :
  StronglySorted by_start (merge_sort by_start (bt_values m)).
Proof.
  apply StronglySorted_merge_sort; [apply by_start_trans|apply by_start_total].
Qed.

(** ** The coverage check decides the partition property *)

(** An accepted layout is, in order of position, contiguous from byte 0. *)
Lemma validate_coverage_contiguous m total :
  validate_coverage m total = Ok tt ->
  contiguous 0 (merge_sort by_start (bt_values m)) (total - 1).
Proof.
  unfold validate_coverage.
  pose proof (sorted_values_strongly m) as Hs.
  pose proof (merge_sort_Permutation by_start (bt_values m)) as HP.
  destruct (merge_sort by_start (bt_values m)) as [|first rest] eqn:E; [done|].
  destruct (Z.eqb_spec (start_byte first) 0) as [Hf|]; [|done]. simpl.
  destruct (Z.eqb_spec (end_byte (List.last rest first)) (total - 1)) as [Hl|]; [|done]. simpl.
  destruct (check_windows first rest) as [[]|] eqn:Hw; [|done].
  destruct (Z.eqb_spec (sum_list_with_Z size (bt_values m)) total) as [Hsum|]; [|done]. intros _.
  rewrite <- Hf. apply check_windows_contiguous; [done|done|done|..].
  - destruct rest as [|c r]; [by right|left]. simpl in Hw.
    destruct (Z.eqb_spec (start_byte c) (end_byte first + 1)); [|done].
    apply StronglySorted_inv in Hs as [_ Hmin]. apply Forall_cons in Hmin as [? _].
    unfold by_start in *. lia.
  - (* were the last segment of negative size, the sizes of the others would
       exceed the total *)
    intros s ->. set (last := List.last rest first) in *.
    destruct (Z.le_gt_cases (start_byte last) (end_byte last + 1)); [done|exfalso].
    assert (Hc : forall first rest, check_windows first rest = Ok tt ->
      StronglySorted by_start (first :: rest) ->
      start_byte (List.last rest first) - start_byte first
        <= sum_list_with_Z size (first :: rest)).
    { clear. intros first rest. revert first. induction rest as [|c r IH]; intros first.
      - simpl. unfold size. lia.
      - simpl check_windows. destruct (Z.eqb_spec (start_byte c) (end_byte first + 1)); [|done].
        simpl. intros Hw [Hs Hm]%StronglySorted_inv. specialize (IH c Hw Hs).
        assert (List.last r c = match r with [] => c | _ :: _ => List.last r first end) as HL.
        { clear. destruct r as [|x r]; [done|]. revert x. induction r as [|y r IH]; intros x; [done|].
          simpl in *. apply IH. }
        rewrite <- HL. simpl in IH. unfold size at 1. lia. }
    specialize (Hc _ _ Hw Hs). rewrite (sum_Z_perm size _ _ HP) in Hc. subst last. lia.
Qed.

Lemma partition_values_contiguous m total :
  Forall nonempty_seg (bt_values m) -> 0 <= total ->
  partition (bt_values m) 0 (total - 1) ->
  contiguous 0 (merge_sort by_start (bt_values m)) (total - 1).
Proof.
  intros Hne Ht HP. apply partition_contiguous; [apply sorted_values_strongly| |lia|].
  - by rewrite merge_sort_Permutation.
  - eapply partition_perm; [|done]. by rewrite merge_sort_Permutation.
Qed.

Lemma contiguous_check_windows first rest hi :
  contiguous (start_byte first) (first :: rest) hi -> check_windows first rest = Ok tt.
Proof.
  revert first. induction rest as [|c r IH]; intros first; simpl; [done|].
  intros (_ & _ & Hc & ? & ?). rewrite Hc, Z.eqb_refl. simpl. apply IH. simpl.
  by rewrite Hc.
Qed.

Lemma contiguous_last lo first rest hi :
  contiguous lo (first :: rest) hi -> end_byte (List.last rest first) = hi.
Proof.
  revert lo first. induction rest as [|c r IH]; intros lo first.
  - simpl. lia.
  - intros (_ & _ & Hc). specialize (IH _ _ Hc). rewrite <- IH. simpl.
    destruct r as [|x r]; [done|]. f_equal. clear. revert x.
    induction r as [|y r IH]; intros x; [done|]. simpl in *. apply IH.
Qed.

Lemma validate_coverage_complete m total :
  0 < total -> Forall nonempty_seg (bt_values m) ->
  partition (bt_values m) 0 (total - 1) -> validate_coverage m total = Ok tt.
Proof.
  intros Ht Hne HP. pose proof (partition_values_contiguous m total Hne ltac:(lia) HP) as Hc.
  pose proof (contiguous_sizes _ _ _ Hc) as Hsum.
  rewrite (sum_Z_perm size _ _ (merge_sort_Permutation by_start (bt_values m))) in Hsum.
  unfold validate_coverage. destruct (merge_sort by_start (bt_values m)) as [|first rest].
  - simpl in Hc. lia.
  - pose proof (contiguous_last _ _ _ _ Hc) as ->. pose proof Hc as (Hf & _).
    rewrite Hf, Z.eqb_refl. simpl. rewrite Z.eqb_refl. simpl.
    rewrite (contiguous_check_windows first rest (total - 1)) by (by rewrite Hf).
    rewrite Hsum. replace (total - 1 + 1 - 0) with total by lia. by rewrite Z.eqb_refl.
Qed.

Lemma validate_coverage_sound m total :
  validate_coverage m total = Ok tt -> partition (bt_values m) 0 (total - 1).
Proof.
  intros Hc%validate_coverage_contiguous%contiguous_partition.
  eapply partition_perm; [|apply Hc]. apply merge_sort_Permutation.
Qed.

(** ** Fresh segments *)

(** Induction on a left fold over [seqZ]. *)
Lemma fold_left_seqZ {B} (f : B -> Z -> B) (P : Z -> B -> Prop) b n :
  0 <= n -> P 0 b -> (forall i b, 0 <= i < n -> P i b -> P (i + 1) (f b i)) ->
  P n (fold_left f (seqZ 0 n) b).
Proof.
  intros Hn H0 Hstep.
  assert (forall k, (k <= Z.to_nat n)%nat ->
    P (Z.of_nat k) (fold_left f (seqZ 0 (Z.of_nat k)) b)) as H.
  { induction k as [|k IH]; intros Hk; [done|].
    replace (Z.of_nat (S k)) with (Z.of_nat k + 1) by lia.
    rewrite seqZ_app by lia. rewrite fold_left_app. simpl.
    apply Hstep; [lia|]. apply IH. lia. }
  specialize (H (Z.to_nat n) ltac:(lia)). by rewrite Z2Nat.id in H.
Qed.

(** What the loop has built after [i] iterations. *)
Record fresh_upto (count total i : Z) (acc : segmap * list (Z * Z * Z)) : Prop := {
  fu_sorted : bt_sorted acc.1;
  fu_elem : forall k s, (k, s) ∈ acc.1 <-> 0 <= k < i /\ s = fresh_segment count total k;
  fu_cov : forall b, cov_count (bt_values acc.1) b =
    Z.b2z ((0 <=? b) && (b <? if i =? count then total else i * idiv total count));
  fu_rows : acc.2 = (fun k => (k, start_byte (fresh_segment count total k),
                                  end_byte (fresh_segment count total k))) <$> seqZ 0 i;
}.

Lemma fresh_segment_bounds count total i :
  0 < count <= total -> 0 <= i < count ->
  start_byte (fresh_segment count total i) = i * idiv total count /\
  end_byte (fresh_segment count total i) + 1 =
    (if i + 1 =? count then total else (i + 1) * idiv total count) /\
  nonempty_seg (fresh_segment count total i) /\ downloaded_bytes (fresh_segment count total i) = 0.
Proof.
  intros Hc Hi. unfold nonempty_seg, fresh_segment. simpl.
  rewrite (idiv_nonneg total count) by lia.
  assert (1 <= total / count) by (apply Z.div_le_lower_bound; lia).
  assert (count * (total / count) <= total) by (apply Z.mul_div_le; lia).
  destruct (Z.eqb_spec i (count - 1)), (Z.eqb_spec (i + 1) count); try lia; nia.
Qed.

Lemma cov_count_insert_fresh k s m b :
  bt_get k m = None ->
  cov_count (bt_values (bt_insert k s m)) b = Z.b2z (covers b s) + cov_count (bt_values m) b.
Proof.
  intros H. unfold cov_count.
  by rewrite (sum_Z_perm _ _ _ (bt_insert_fresh_perm k s m H)).
Qed.

Lemma bt_elem_insert k v (m : segmap) x : bt_sorted m -> bt_get k m = None ->
  x ∈ bt_insert k v m <-> x = (k, v) \/ x ∈ m.
Proof.
  destruct x as [k' v']. intros Hm Hn. split; [apply bt_insert_keys|].
  intros Hx. apply bt_get_elem. rewrite bt_get_insert by done.
  destruct Hx as [[= -> ->]|Hin]; [by rewrite Z.eqb_refl|].
  destruct (Z.eqb_spec k' k) as [Heq|]; [|by apply bt_elem_get]. subst k'.
  apply bt_get_None in Hin; done.
Qed.

Lemma build_fresh_upto count total :
  0 < count <= total -> fresh_upto count total count (build_fresh_segments count total).
Proof.
  intros Hc. unfold build_fresh_segments.
  apply (fold_left_seqZ _ (fresh_upto count total)); [lia|..].
  - split; cbn [fst snd]; [constructor|set_solver by lia| |done].
    intros b. destruct (Z.eqb_spec 0 count); [lia|]. rewrite Z.mul_0_l.
    unfold cov_count. cbn [bt_values fmap list_fmap sum_list_with_Z foldr]. b2z_lia.
  - intros i acc Hi [Hs He Hcov Hr].
    assert (Hnone : bt_get i acc.1 = None).
    { apply bt_get_None. intros v Hin%He. lia. }
    destruct (fresh_segment_bounds count total i Hc Hi) as (Hst & Hen & Hne & _).
    split; cbn [fst snd].
    + by apply bt_insert_sorted.
    + intros k s. rewrite bt_elem_insert, He by done. split.
      * intros [[= -> ->]|[? ->]]; split; (done || lia).
      * intros [? ->]. destruct (decide (k = i)) as [->|]; [by left|right]. split; [lia|done].
    + intros b. rewrite cov_count_insert_fresh, Hcov by done.
      rewrite (idiv_nonneg total count) in * by lia.
      assert (0 <= total / count) by (apply Z.div_pos; lia).
      assert (0 <= i * (total / count)) by nia.
      unfold covers, nonempty_seg in *.
      destruct (Z.eqb_spec i count); [lia|]. rewrite Hst in *.
      destruct (i + 1 =? count);
      repeat match goal with
      | |- context [?a <=? ?b] => destruct (Z.leb_spec a b)
      | |- context [?a <? ?b] => destruct (Z.ltb_spec a b)
      end; simpl; lia.
    + rewrite Hr, seqZ_app by lia. rewrite fmap_app. simpl. by rewrite Z.add_0_l.
Qed.

Lemma build_fresh_inv count total :
  0 < count <= total -> seg_inv total count (build_fresh_segments count total).1.
Proof.
  intros Hc. destruct (build_fresh_upto count total Hc) as [Hs He Hcov _].
  split; [done| | | | |].
  - intros k s [_ ->]%He. done.
  - intros k s [? _]%He. lia.
  - intros k s [Hk ->]%He. by apply fresh_segment_bounds.
  - intros k s [Hk ->]%He. destruct (fresh_segment_bounds count total k Hc Hk) as (_ & _ & _ & ->). done.
  - intros b. rewrite Hcov, Z.eqb_refl. b2z_lia.
Qed.

(** ** Splits *)

Lemma elem_of_filter_bool {A} (f : A -> bool) (l : list A) x :
  x ∈ List.filter f l <-> x ∈ l /\ f x = true.
Proof. rewrite !list_elem_of_In. apply filter_In. Qed.

Lemma is_state_true st s : is_state st s = true <-> state s = st.
Proof. apply bool_decide_eq_true. Qed.

(** What a planned split point satisfies. *)
Record split_point_ok (m : segmap) (min_split idx cur rem sp : Z) (s : LiveSegment) : Prop := {
  sp_get : bt_get idx m = Some s;
  sp_active : state s = Active;
  sp_cur : cur = start_byte s + downloaded_bytes s;
  sp_rem : rem = end_byte s - cur + 1 /\ min_split <= rem;
  sp_inside : cur < sp <= end_byte s;
  sp_floor : 2 <= min_split ->
    split_floor rem <= sp - cur /\ split_floor rem <= end_byte s - sp + 1;
}.

Lemma plan_split_sound m min_split cost idx cur rem sp :
  bt_sorted m -> (forall k s, (k, s) ∈ m -> index s = k) ->
  plan_split m min_split cost = Some (idx, cur, rem, sp) ->
  exists s, split_point_ok m min_split idx cur rem sp s.
Proof.
  intros Hs Hidx. unfold plan_split.
  destruct (max_by _ _) as [best|] eqn:Hbest; [|done].
  apply max_by_elem, elem_of_filter_bool in Hbest as [Hin Hf]. bool_hyps.
  set (r := end_byte best - (start_byte best + downloaded_bytes best) + 1).
  destruct (Z.ltb_spec r min_split) as [|Hr]; [done|].
  destruct (split_keep_with_setup _ _ _ _) as [keep|] eqn:Hk; [|done].
  destruct (_ || _) eqn:Hb; [done|]. bool_hyps. intros [= <- <- <- <-]. exists best.
  apply list_elem_of_fmap in Hin as [[k s] [-> Hin]]. simpl in *.
  split; [|by apply is_state_true|done|done|lia|].
  - apply bt_elem_get; [done|]. by rewrite (Hidx _ _ Hin).
  - intros Hm2. apply split_keep_bounds in Hk; subst r; lia.
Qed.

Lemma split_keep_is_Some rem holder helper setup :
  f64_gt setup f64_zero = false ->
  is_Some (split_keep_with_setup rem holder helper setup).
Proof.
  intros Hg. unfold split_keep_with_setup. destruct holder, helper; [|eauto..].
  rewrite Hg, andb_false_r. simpl. eauto.
Qed.

(** A candidate is split whenever the requests cost nothing to set up. *)
Lemma plan_split_progress m min_split cost s :
  2 <= min_split -> f64_gt (setup_secs cost) f64_zero = false ->
  (forall x, x ∈ bt_values m -> 0 <= downloaded_bytes x) ->
  s ∈ bt_values m -> state s = Active -> min_split <= remaining s ->
  is_Some (plan_split m min_split cost).
Proof.
  intros Hmin Hsetup Hdl Hin Hact Hrem. unfold plan_split.
  destruct (max_by _ _) as [best|] eqn:Hbest; last first.
  { apply max_by_None in Hbest.
    assert (s ∈ @nil LiveSegment) as Hn; [|set_solver].
    rewrite <- Hbest. apply elem_of_filter_bool. split; [done|].
    apply andb_true_intro. rewrite Z.leb_le, is_state_true. done. }
  apply max_by_elem, elem_of_filter_bool in Hbest as [Hin' Hf]. bool_hyps.
  assert (remaining best = end_byte best - (start_byte best + downloaded_bytes best) + 1) as Heq
    by (specialize (Hdl _ Hin'); unfold remaining, size in *; lia).
  rewrite <- Heq. destruct (Z.ltb_spec (remaining best) min_split); [lia|].
  destruct (split_keep_is_Some (remaining best)
    (opt_or (rate_bps best) (helper_bps m cost)) (helper_bps m cost) (setup_secs cost) Hsetup)
    as [keep Hk]. rewrite Hk.
  apply split_keep_bounds in Hk; [|lia].
  assert (1 <= split_floor (remaining best)) by (unfold split_floor, MIN_SPLIT_PIECE; div_lia).
  destruct (Z.leb_spec (start_byte best + downloaded_bytes best + keep)
                       (start_byte best + downloaded_bytes best)); [lia|].
  destruct (Z.ltb_spec (end_byte best) (start_byte best + downloaded_bytes best + keep)); [lia|].
  simpl. eauto.
Qed.

(** *** The map as the values around one entry *)

Lemma cov_count_app l1 l2 b : cov_count (l1 ++ l2) b = cov_count l1 b + cov_count l2 b.
Proof. apply sum_Z_app. Qed.

(** Replacing the value of an entry changes the count by that value's. *)
Lemma cov_count_alter f k m s b :
  bt_get k m = Some s ->
  cov_count (bt_values (bt_alter f k m)) b =
    cov_count (bt_values m) b - Z.b2z (covers b s) + Z.b2z (covers b (f s)).
Proof.
  intros (l1 & l2 & -> & Ha & _)%bt_focus. rewrite Ha, !bt_values_split, !cov_count_app.
  rewrite !cov_count_cons. lia.
Qed.

Lemma cov_count_remove k m s b :
  bt_get k m = Some s ->
  cov_count (bt_values (bt_remove k m)) b =
    cov_count (bt_values m) b - Z.b2z (covers b s).
Proof.
  intros (l1 & l2 & -> & _ & Hr)%bt_focus. rewrite Hr, bt_values_split, cov_count_app.
  unfold bt_values. rewrite fmap_app, cov_count_app. unfold bt_values.
  rewrite cov_count_cons. lia.
Qed.

Lemma bt_elem_alter (f : LiveSegment -> LiveSegment) k m x s : bt_sorted m ->
  (x, s) ∈ bt_alter f k m -> exists s0, (x, s0) ∈ m /\ (s = s0 \/ x = k /\ s = f s0).
Proof.
  intros Hs Hin. apply bt_elem_get in Hin; [|by apply bt_alter_sorted].
  rewrite bt_get_alter in Hin. destruct (Z.eqb_spec x k) as [Heq|].
  - destruct (bt_get x m) as [s0|] eqn:E; [|done]. simpl in Hin. simplify_eq.
    exists s0. split; [by apply bt_get_elem|by right].
  - exists s. split; [by apply bt_get_elem|by left].
Qed.

(** An assignment that leaves the range and keeps the progress non-negative
    preserves the invariant. *)
Lemma seg_inv_alter total next m f k :
  seg_inv total next m ->
  (forall s, bt_get k m = Some s ->
    index (f s) = index s /\ start_byte (f s) = start_byte s /\ end_byte (f s) = end_byte s /\
    0 <= downloaded_bytes (f s)) ->
  seg_inv total next (bt_alter f k m).
Proof.
  intros [Hs Hi Hn Hne Hd HP] Hf.
  assert (Hin : forall x s, (x, s) ∈ bt_alter f k m -> exists s0, (x, s0) ∈ m /\
    index s = index s0 /\ start_byte s = start_byte s0 /\ end_byte s = end_byte s0 /\
    0 <= downloaded_bytes s).
  { intros x s (s0 & Hin & [->|[-> ->]])%bt_elem_alter; [..|done].
    - exists s0. eauto 6.
    - exists s0. pose proof (Hf s0 (bt_elem_get _ _ _ Hs Hin)). intuition. }
  split.
  - by apply bt_alter_sorted.
  - intros x s (s0 & ? & -> & _)%Hin. eauto.
  - intros x s (s0 & ? & _)%Hin. eauto.
  - intros x s (s0 & Hin0 & _ & Hst & Hen & _)%Hin. unfold nonempty_seg.
    rewrite Hst, Hen. by apply (Hne x).
  - intros x s (s0 & ? & _ & _ & _ & ?)%Hin. done.
  - intros b. destruct (bt_get k m) as [s|] eqn:E.
    + rewrite (cov_count_alter _ _ _ _ _ E), HP. destruct (Hf s eq_refl) as (_ & Hst & Hen & _).
      assert (covers b (f s) = covers b s) as -> by (unfold covers; by rewrite Hst, Hen). lia.
    + assert (bt_alter f k m = m) as ->; [|done].
      clear -E. induction m as [|[k' v] m IH]; simpl in *; [done|].
      destruct (k =? k'); [done|]. by rewrite IH.
Qed.

Lemma split_at_inv total next m idx sp s st :
  seg_inv total next m -> bt_get idx m = Some s -> start_byte s < sp <= end_byte s ->
  seg_inv total (next + 1) (split_at m next idx sp (end_byte s) st).1.1.
Proof.
  intros [Hs Hi Hn Hne Hd HP] Hget Hsp. unfold split_at. cbn [fst].
  set (m1 := bt_alter (set_end (sp - 1)) idx m).
  assert (Hnone : bt_get next m1 = None).
  { apply bt_get_None. intros v Hin. subst m1.
    apply bt_elem_alter in Hin as (s0 & Hin & _); [|done]. specialize (Hn _ _ Hin). lia. }
  assert (Hs1 : bt_sorted m1) by (by apply bt_alter_sorted).
  assert (Hin1 : forall k v, (k, v) ∈ m1 -> exists s0, (k, s0) ∈ m /\ (v = s0 \/ k = idx /\ v = set_end (sp - 1) s0)).
  { intros k v. by apply bt_elem_alter. }
  assert (Hin2 : forall x new, x ∈ bt_insert next new m1 -> x = (next, new) \/ x ∈ m1).
  { intros x new. by apply bt_elem_insert. }
  assert (Huniq : forall s0, (idx, s0) ∈ m -> s0 = s).
  { intros s0 Hin%(bt_elem_get _ _ _ Hs). congruence. }
  split.
  - by apply bt_insert_sorted.
  - intros k v [[= -> ->]|Hin]%Hin2; [done|].
    apply Hin1 in Hin as (s0 & Hin & [->|[-> ->]]); apply (Hi _ _ Hin).
  - intros k v [[= -> ->]|Hin]%Hin2; [lia|].
    apply Hin1 in Hin as (s0 & Hin & _). specialize (Hn _ _ Hin). lia.
  - intros k v [[= -> ->]|Hin]%Hin2; [unfold nonempty_seg; simpl; lia|].
    apply Hin1 in Hin as (s0 & Hin & [->|[-> ->]]); [eauto|].
    rewrite (Huniq _ Hin). unfold nonempty_seg. simpl. lia.
  - intros k v [[= -> ->]|Hin]%Hin2; [simpl; lia|].
    apply Hin1 in Hin as (s0 & Hin & [->|[-> ->]]); [eauto|]. apply (Hd _ _ Hin).
  - intros b. rewrite cov_count_insert_fresh by done. unfold m1.
    rewrite (cov_count_alter _ _ _ _ _ Hget), HP. b2z_lia.
Qed.

(** Both splitters succeed the same way. *)
Lemma try_split_largest_inv m next min_split cost m' next' w :
  try_split_largest m next min_split cost = Some (m', next', w) ->
  active_or_pending m < MAX_SEGMENTS /\
  exists idx cur rem sp s, plan_split m min_split cost = Some (idx, cur, rem, sp) /\
    bt_get idx m = Some s /\ split_at m next idx sp (end_byte s) Active = (m', next', w).
Proof.
  unfold try_split_largest. case_code; intros ?; simplify_eq. split; [done|]. eauto 10.
Qed.

Lemma try_proactive_split_inv m next min_split cost m' next' w :
  try_proactive_split m next min_split cost = Some (m', next', w) ->
  existsb (is_state Pending) (bt_values m) = false /\ active_or_pending m < MAX_SEGMENTS /\
  exists idx cur rem sp s, plan_split m min_split cost = Some (idx, cur, rem, sp) /\
    bt_get idx m = Some s /\ split_at m next idx sp (end_byte s) Pending = (m', next', w).
Proof.
  unfold try_proactive_split. case_code; intros ?; simplify_eq. split; [done|]. split; [done|].
  eauto 10.
Qed.

Lemma planned_split_preserves total next m min_split cost idx cur rem sp s st :
  seg_inv total next m -> plan_split m min_split cost = Some (idx, cur, rem, sp) ->
  bt_get idx m = Some s ->
  seg_inv total (next + 1) (split_at m next idx sp (end_byte s) st).1.1.
Proof.
  intros Hinv Hplan Hget.
  destruct (plan_split_sound _ _ _ _ _ _ _ (inv_sorted _ _ _ Hinv) (inv_index _ _ _ Hinv) Hplan)
    as [s' [Hg _ Hcur _ Hin _]].
  simplify_eq. apply split_at_inv; [done|done|].
  pose proof (inv_downloaded _ _ _ Hinv _ _ (bt_get_elem _ _ _ Hget)). lia.
Qed.

(** *** Disjointness and the effect of an assignment *)

Lemma seg_inv_disjoint total next m k1 k2 s1 s2 b :
  seg_inv total next m -> bt_get k1 m = Some s1 -> bt_get k2 m = Some s2 -> k1 <> k2 ->
  covers b s1 = true -> covers b s2 = false.
Proof.
  intros Hinv H1 H2 Hne Hc. destruct (covers b s2) eqn:Hc2; [exfalso|done].
  pose proof (cov_count_remove _ _ _ b H1) as Hr.
  rewrite (inv_partition _ _ _ Hinv), Hc in Hr.
  assert (bt_get k2 (bt_remove k1 m) = Some s2) as H2'.
  { rewrite bt_get_remove by apply Hinv. by destruct (Z.eqb_spec k2 k1). }
  apply bt_get_value, cov_count_pos with (b := b) in H2'; [|done].
  destruct (_ && _) in Hr; simpl in Hr; lia.
Qed.

(** What a worker is told agrees with the map it was taken from, and is
    disjoint from every other segment. *)
Record assignment_ok (total next : Z) (m' : segmap) (a : WorkerAssignment) : Prop := {
  as_inv : seg_inv total next m';
  as_seg : exists s, bt_get (seg_index a) m' = Some s /\ state s = Active /\
    seg_start a = start_byte s /\ seg_end a = end_byte s /\
    actual_start a = start_byte s + downloaded_bytes s;
  as_disjoint : forall k s b, bt_get k m' = Some s -> k <> seg_index a ->
    seg_start a <= b <= seg_end a -> covers b s = false;
  as_ranged : open_ended a = false /\ no_range a = false;
}.

(** How the map changed: either one pending segment became active, or a new
    segment took the tail of an active one, whose downloaded part it keeps. *)
Definition assignment_step (m m' : segmap) (w : NextWork) : Prop :=
  let a := assignment w in
  match split_parent w with
  | None => exists s, bt_get (seg_index a) m = Some s /\ state s = Pending /\
      m' = bt_alter (set_state Active) (seg_index a) m
  | Some p => exists s, bt_get p m = Some s /\ state s = Active /\
      bt_get p m' = Some (set_end (seg_start a - 1) s) /\
      bt_get (seg_index a) m = None /\ p <> seg_index a /\
      start_byte s + downloaded_bytes s < seg_start a /\ seg_end a = end_byte s /\
      split_floor (remaining s) <= seg_start a - (start_byte s + downloaded_bytes s) /\
      split_floor (remaining s) <= seg_end a - seg_start a + 1 /\
      (forall k, k <> p -> k <> seg_index a -> bt_get k m' = bt_get k m)
  end.

Lemma assignment_ok_intro total next m' a s :
  seg_inv total next m' -> bt_get (seg_index a) m' = Some s -> state s = Active ->
  seg_start a = start_byte s -> seg_end a = end_byte s ->
  actual_start a = start_byte s + downloaded_bytes s ->
  open_ended a = false -> no_range a = false -> assignment_ok total next m' a.
Proof.
  intros Hinv Hg Hst H1 H2 H3 H4 H5. split; [done|eauto 10| |done].
  intros k s' b Hk Hne Hb. eapply (seg_inv_disjoint _ _ _ (seg_index a) k); [done..|].
  unfold covers. apply andb_true_intro. rewrite !Z.leb_le. lia.
Qed.

Lemma find_pending m s :
  List.find (is_state Pending) (bt_values m) = Some s ->
  (forall k s, (k, s) ∈ m -> index s = k) -> bt_sorted m ->
  bt_get (index s) m = Some s /\ state s = Pending.
Proof.
  intros [Hin Hp]%find_some Hi Hs. apply is_state_true in Hp. split; [|done].
  apply list_elem_of_In, list_elem_of_fmap in Hin as [[k s'] [-> Hin]]. simpl in *.
  apply bt_elem_get; [done|]. by rewrite (Hi _ _ Hin).
Qed.

Lemma pending_step total next m s :
  seg_inv total next m -> List.find (is_state Pending) (bt_values m) = Some s ->
  let m' := bt_alter (set_state Active) (index s) m in
  let w := mkNextWork (pending_assignment s) None in
  assignment_ok total next m' (assignment w) /\ assignment_step m m' w.
Proof.
  intros Hinv Hf m' w.
  destruct (find_pending m s Hf (inv_index _ _ _ Hinv) (inv_sorted _ _ _ Hinv)) as [Hg Hp].
  split; [|exists s; split; [exact Hg|done]].
  assert (seg_inv total next m') as Hinv'.
  { apply seg_inv_alter; [done|]. intros s' ?. simplify_eq.
    split; [done|]. split; [done|]. split; [done|]. simpl.
    by eapply inv_downloaded, bt_get_elem. }
  eapply (assignment_ok_intro _ _ _ _ (set_state Active s)); try done.
  cbn [seg_index pending_assignment w assignment]. subst m'.
  by rewrite bt_get_alter, Z.eqb_refl, Hg.
Qed.

Lemma split_step total next m min_split cost idx cur rem sp s :
  2 <= min_split ->
  seg_inv total next m -> plan_split m min_split cost = Some (idx, cur, rem, sp) ->
  bt_get idx m = Some s ->
  let '(m', next', w) := split_at m next idx sp (end_byte s) Active in
  assignment_ok total next' m' (assignment w) /\ assignment_step m m' w.
Proof.
  intros Hmin Hinv Hplan Hget.
  pose proof (planned_split_preserves _ _ _ _ _ _ _ _ _ _ Active Hinv Hplan Hget) as Hinv'.
  destruct (plan_split_sound _ _ _ _ _ _ _ (inv_sorted _ _ _ Hinv) (inv_index _ _ _ Hinv) Hplan)
    as [s' [Hg Hact -> [-> Hrem] Hin Hfl]].
  assert (s' = s) as -> by congruence. clear Hg. unfold split_at in *. cbn [fst] in Hinv'.
  set (m1 := bt_alter (set_end (sp - 1)) idx m) in *.
  assert (Hs1 : bt_sorted m1) by (apply bt_alter_sorted, Hinv).
  assert (Hnew : bt_get next m = None).
  { apply bt_get_None. intros v Hv. apply (inv_next _ _ _ Hinv) in Hv. lia. }
  assert (Hidx : idx <> next) by congruence.
  pose proof (inv_downloaded _ _ _ Hinv _ _ (bt_get_elem _ _ _ Hget)).
  assert (Hr : remaining s = end_byte s - (start_byte s + downloaded_bytes s) + 1)
    by (unfold remaining, size; lia).
  split.
  - apply (assignment_ok_intro _ _ _ _ (mkSeg next sp (end_byte s) 0 Active None)); simpl;
      [done| |done|done|done|lia|done|done].
    rewrite bt_get_insert by done. by rewrite Z.eqb_refl.
  - exists s. cbn [seg_start seg_end seg_index assignment]. rewrite Hr.
    destruct (Hfl Hmin) as [? ?]. repeat split; try done; try lia.
    + rewrite bt_get_insert by done. destruct (Z.eqb_spec idx next); [done|].
      unfold m1. by rewrite bt_get_alter, Z.eqb_refl, Hget.
    + intros k Hk1 Hk2. rewrite bt_get_insert by done.
      destruct (Z.eqb_spec k next); [done|]. unfold m1. rewrite bt_get_alter.
      by destruct (Z.eqb_spec k idx).
Qed.

Lemma try_split_largest_step total next m min_split cost m' next' w :
  2 <= min_split -> seg_inv total next m ->
  try_split_largest m next min_split cost = Some (m', next', w) ->
  assignment_ok total next' m' (assignment w) /\ assignment_step m m' w.
Proof.
  intros Hmin Hinv (_ & idx & cur & rem & sp & s & Hplan & Hg & Heq)%try_split_largest_inv.
  pose proof (split_step _ _ _ _ _ _ _ _ _ _ Hmin Hinv Hplan Hg) as H. by rewrite Heq in H.
Qed.

Lemma find_next_work_step total next m min_split cost m' next' w :
  2 <= min_split -> seg_inv total next m ->
  find_next_work m next min_split cost = Some (m', next', w) ->
  assignment_ok total next' m' (assignment w) /\ assignment_step m m' w.
Proof.
  intros Hmin Hinv. unfold find_next_work.
  destruct (List.find _ _) as [s|] eqn:Hf; [intros [= <- <- <-]; by apply pending_step|].
  destruct (try_split_largest m next min_split cost) as [[[m1 n1] w1]|] eqn:Ht.
  { intros [= -> -> ->]. by eapply try_split_largest_step. }
  destruct (_ <? _); [|done]. destruct (_ <=? _); [|done].
  intros. eapply try_split_largest_step; [|done..]. unfold TAIL_MIN_SPLIT_BYTES. lia.
Qed.

(** *** When an idle worker is left without work *)

Lemma max_active_remaining_ge m s :
  s ∈ active_segments m -> remaining s <= max_active_remaining m.
Proof.
  unfold max_active_remaining. destruct (active_segments m) as [|x l]; [set_solver|].
  assert (Hmono : forall l acc, acc <= foldl (fun acc x => Z.max acc (remaining x)) acc l).
  { clear. induction l as [|y l IH]; intros acc; simpl; [lia|]. specialize (IH (Z.max acc (remaining y))). lia. }
  assert (H : forall l acc y, y ∈ l -> remaining y <= foldl (fun acc x => Z.max acc (remaining x)) acc l).
  { clear -Hmono. induction l as [|z l IH]; intros acc y; simpl; [set_solver|].
    intros [->|Hin]%elem_of_cons; [|by apply IH].
    specialize (Hmono l (Z.max acc (remaining z))). lia. }
  intros [->|Hin]%elem_of_cons; [apply Hmono|by apply H].
Qed.

Lemma max_active_remaining_elem m :
  0 < max_active_remaining m ->
  exists s, s ∈ bt_values m /\ state s = Active /\ remaining s = max_active_remaining m.
Proof.
  unfold max_active_remaining, active_segments.
  assert (H : forall l (x : LiveSegment), exists s, s ∈ x :: l /\
    remaining s = foldl (fun acc y => Z.max acc (remaining y)) (remaining x) l).
  { induction l as [|y l IH]; intros x; simpl; [exists x; set_solver|].
    destruct (Z.max_spec (remaining x) (remaining y)) as [[_ ->]|[_ ->]].
    - destruct (IH y) as (s & ? & ?). exists s. set_solver.
    - destruct (IH x) as (s & ? & ?). exists s. set_solver. }
  destruct (List.filter _ _) as [|x l] eqn:E; [lia|]. intros _.
  destruct (H l x) as (s & Hs & Heq). exists s. rewrite <- E in Hs.
  apply elem_of_filter_bool in Hs as [? Ha]. by apply is_state_true in Ha.
Qed.

Lemma try_split_largest_progress m next min_split cost s :
  2 <= min_split -> f64_gt (setup_secs cost) f64_zero = false ->
  bt_sorted m -> (forall k s, (k, s) ∈ m -> index s = k /\ 0 <= downloaded_bytes s) ->
  active_or_pending m < MAX_SEGMENTS ->
  s ∈ bt_values m -> state s = Active -> min_split <= remaining s ->
  is_Some (try_split_largest m next min_split cost).
Proof.
  intros Hmin Hsetup Hs Hk Hcap Hin Hact Hrem. unfold try_split_largest.
  destruct (Z.leb_spec MAX_SEGMENTS (active_or_pending m)); [lia|].
  destruct (plan_split_progress m min_split cost s Hmin Hsetup) as [[[[idx cur] rem] sp] Hp];
    [|done..|].
  { intros x Hx. apply list_elem_of_fmap in Hx as [[k y] [-> Hx]]. simpl. apply (Hk _ _ Hx). }
  destruct (plan_split_sound m min_split cost idx cur rem sp Hs) as [p [Hg _ _ _ _ _]];
    [intros k y Hx; apply (Hk _ _ Hx)|done|].
  rewrite Hp, Hg. eauto.
Qed.

(** A map with a segment covers at least a byte. *)
Lemma seg_inv_total_pos total next m : seg_inv total next m -> m <> [] -> 0 < total.
Proof.
  intros Hinv Hne. destruct m as [|[k s] m]; [done|].
  pose proof (inv_nonempty _ _ _ Hinv k s ltac:(left)) as Hs. unfold nonempty_seg in Hs.
  pose proof (cov_count_pos (bt_values ((k, s) :: m)) (start_byte s) s ltac:(left)) as H.
  rewrite (inv_partition _ _ _ Hinv) in H.
  assert (covers (start_byte s) s = true) as Hc
    by (unfold covers; apply andb_true_intro; rewrite !Z.leb_le; lia).
  specialize (H Hc). b2z_lia.
Qed.

(** ** Deciding the invariant of a concrete map *)

Fixpoint sorted_b (l : list Z) : bool :=
  match l with
  | [] => true
  | x :: l => forallb (fun y => x <? y) l && sorted_b l
  end.

Definition seg_inv_b (total next : Z) (m : segmap) : bool :=
  sorted_b m.*1 &&
  forallb (fun e => (index e.2 =? e.1) && (e.1 <? next) && (start_byte e.2 <=? end_byte e.2)
                    && (0 <=? downloaded_bytes e.2)) m &&
  is_ok (validate_coverage m total).

Lemma sorted_b_sound l : sorted_b l = true -> StronglySorted Z.lt l.
Proof.
  induction l as [|x l IH]; cbn [sorted_b]; [constructor|]. intros H. bool_hyps.
  constructor; [auto|]. apply Forall_forall. intros y Hy%list_elem_of_In.
  rewrite forallb_forall in H. by apply Z.ltb_lt, H.
Qed.

Lemma seg_inv_b_sound total next m : seg_inv_b total next m = true -> seg_inv total next m.
Proof.
  unfold seg_inv_b. intros H. bool_hyps.
  assert (Hall : forall k s, (k, s) ∈ m ->
    index s = k /\ k < next /\ start_byte s <= end_byte s /\ 0 <= downloaded_bytes s).
  { intros k s Hin%list_elem_of_In. rewrite forallb_forall in H1.
    specialize (H1 _ Hin). simpl in H1. bool_hyps. lia. }
  split; [by apply sorted_b_sound|intros k s Hin; by apply (Hall k s)..|].
  apply validate_coverage_sound.
  by destruct (validate_coverage m total) as [[]|].
Qed.

(** ** Theorems *)

(** The coverage check run on resume and before a file is declared
    complete decides the layout property: an accepted map assigns every byte
    of the file to exactly one segment and no byte outside it to any, and a map
    of non-empty segments with that property is accepted. *)
Theorem validate_coverage_exact m total :
  (validate_coverage m total = Ok tt -> partition (bt_values m) 0 (total - 1)) /\
  (0 < total -> Forall nonempty_seg (bt_values m) ->
   partition (bt_values m) 0 (total - 1) -> validate_coverage m total = Ok tt).
Proof. split; [apply validate_coverage_sound|apply validate_coverage_complete]. Qed.

(** A fresh layout of [count] segments satisfies the map invariant (it
    partitions the file), and the database rows handed out with it are the
    ranges of its segments. *)
Theorem build_fresh_segments_correct count total :
  0 < count <= total ->
  let '(m, rows) := build_fresh_segments count total in
  seg_inv total count m /\
  length rows = Z.to_nat count /\
  (forall k s e, (k, s, e) ∈ rows <->
    exists seg, bt_get k m = Some seg /\ start_byte seg = s /\ end_byte seg = e) /\
  (forall k s, bt_get k m = Some s -> state s = Pending /\ downloaded_bytes s = 0).
Proof.
  intros Hc. pose proof (build_fresh_inv count total Hc) as Hinv.
  destruct (build_fresh_upto count total Hc) as [Hs He _ Hr].
  destruct (build_fresh_segments count total) as [m rows]. cbn [fst snd] in *.
  split; [done|]. rewrite Hr. split; [by rewrite length_fmap, length_seqZ|]. split.
  - intros k s e. rewrite list_elem_of_fmap. split.
    + intros (x & [= -> -> ->] & Hx%elem_of_seqZ). exists (fresh_segment count total x).
      split; [|done]. apply bt_elem_get, He; [done|]. split; [lia|done].
    + intros (seg & Hg & <- & <-). apply bt_get_elem, He in Hg as [? ->].
      exists k. rewrite elem_of_seqZ. split; [done|lia].
  - intros k s Hg%bt_get_elem%He. by destruct Hg as [_ ->].
Qed.

Lemma build_fresh_segments_correct_witness :
  0 < 4 <= 1000 /\
  let '(m, rows) := build_fresh_segments 4 1000 in
  seg_inv 1000 4 m /\ length rows = 4%nat /\
  (forall k s e, (k, s, e) ∈ rows <->
    exists seg, bt_get k m = Some seg /\ start_byte seg = s /\ end_byte seg = e) /\
  (forall k s, bt_get k m = Some s -> state s = Pending /\ downloaded_bytes s = 0).
Proof. split; [lia|]. apply (build_fresh_segments_correct 4 1000). lia. Defined.

(** C5. The work handed to an idle worker: the map keeps its invariant; the
    assignment is the range of an active segment of the new map, disjoint from
    every other segment; and the map changed either by activating one pending
    segment or by giving the new segment the tail of one active segment, whose
    downloaded bytes stay with it, both sides keeping at least
    [split_floor] bytes. *)
Theorem find_next_work_correct total next m min_split cost m' next' w :
  2 <= min_split -> seg_inv total next m ->
  find_next_work m next min_split cost = Some (m', next', w) ->
  assignment_ok total next' m' (assignment w) /\ assignment_step m m' w.
Proof. apply find_next_work_step. Qed.

(** A layout in mid-download: one completed, two active segments. *)
Definition sample_map : segmap :=
  [(0, mkSeg 0 0 (10 * MIN_SPLIT_BYTES - 1) (10 * MIN_SPLIT_BYTES) Completed None);
   (1, mkSeg 1 (10 * MIN_SPLIT_BYTES) (20 * MIN_SPLIT_BYTES - 1) 5000 Active None);
   (2, mkSeg 2 (20 * MIN_SPLIT_BYTES) (22 * MIN_SPLIT_BYTES - 1) 0 Active None)].

Definition no_cost : SplitCost := mkSplitCost f64_zero None.

Lemma find_next_work_correct_witness :
  exists m' w,
    find_next_work sample_map 3 MIN_SPLIT_BYTES no_cost = Some (m', 4, w) /\
    assignment_ok (22 * MIN_SPLIT_BYTES) 4 m' (assignment w) /\ assignment_step sample_map m' w /\
    split_parent w = Some 1.
Proof.
  destruct (find_next_work sample_map 3 MIN_SPLIT_BYTES no_cost) as [[[m' n'] w]|] eqn:E;
    [|vm_compute in E; discriminate].
  exists m', w. assert (n' = 4 /\ split_parent w = Some 1) as [-> Hw]
    by (vm_compute in E; injection E as <- <- <-; done).
  split; [done|].
  destruct (find_next_work_correct (22 * MIN_SPLIT_BYTES) 3 sample_map MIN_SPLIT_BYTES no_cost m' 4 w)
    as [H1 H2]; [vm_compute; discriminate|apply seg_inv_b_sound; vm_compute; reflexivity|done|].
  done.
Defined.

(** An idle worker is not left without work: when no request has a set-up
    cost, [find_next_work] refuses exactly when no segment is pending and
    either the live segments reached the cap, or no active segment has
    [min_split] bytes left and (when the threshold is above the tail
    threshold) the largest is below twice the tail threshold. *)
Theorem find_next_work_none total next m min_split cost :
  2 <= min_split -> f64_gt (setup_secs cost) f64_zero = false ->
  seg_inv total next m ->
  find_next_work m next min_split cost = None ->
  (forall s, s ∈ bt_values m -> state s <> Pending) /\
  (MAX_SEGMENTS <= active_or_pending m \/
   forall s, s ∈ bt_values m -> state s = Active ->
     remaining s < min_split /\
     (TAIL_MIN_SPLIT_BYTES < min_split -> remaining s < 2 * TAIL_MIN_SPLIT_BYTES)).
Proof.
  intros Hmin Hsetup Hinv. unfold find_next_work.
  destruct (List.find _ _) as [s|] eqn:Hf; [done|]. intros Hnone. split.
  { intros s Hin%list_elem_of_In Hp. pose proof (find_none _ _ Hf s Hin) as H.
    apply is_state_true in Hp. congruence. }
  destruct (Z.le_gt_cases MAX_SEGMENTS (active_or_pending m)) as [|Hcap]; [by left|right].
  assert (Hk : forall k s, (k, s) ∈ m -> index s = k /\ 0 <= downloaded_bytes s)
    by (intros; split; by eapply Hinv).
  intros s Hin Hact.
  destruct (try_split_largest m next min_split cost) eqn:Ht; [done|]. split.
  - destruct (Z.lt_ge_cases (remaining s) min_split) as [|Hge]; [done|].
    destruct (try_split_largest_progress m next min_split cost s) as [? ?];
      (apply Hinv || congruence || done).
  - intros Htail. destruct (Z.ltb_spec TAIL_MIN_SPLIT_BYTES min_split); [|lia].
    assert (Hle : remaining s <= max_active_remaining m).
    { apply max_active_remaining_ge. apply elem_of_filter_bool. split; [done|].
      by apply is_state_true. }
    destruct (Z.leb_spec (2 * TAIL_MIN_SPLIT_BYTES) (max_active_remaining m)) as [Hbig|]; [|lia].
    destruct (max_active_remaining_elem m) as (s' & ? & ? & ?);
      [unfold TAIL_MIN_SPLIT_BYTES in *; lia|].
    destruct (try_split_largest_progress m next TAIL_MIN_SPLIT_BYTES cost s') as [? ?];
      unfold TAIL_MIN_SPLIT_BYTES in *; (apply Hinv || congruence || done || lia).
Qed.

Lemma find_next_work_none_witness :
  find_next_work sample_map 3 (30 * MIN_SPLIT_BYTES) no_cost <> None /\
  let done_map := [(0, mkSeg 0 0 999 1000 Completed None); (1, mkSeg 1 1000 1999 100 Active None)] in
  find_next_work done_map 2 MIN_SPLIT_BYTES no_cost = None /\
  (forall s, s ∈ bt_values done_map -> state s <> Pending).
Proof.
  split; [vm_compute; discriminate|]. cbn zeta.
  assert (find_next_work [(0, mkSeg 0 0 999 1000 Completed None);
    (1, mkSeg 1 1000 1999 100 Active None)] 2 MIN_SPLIT_BYTES no_cost = None) as E
    by (vm_compute; reflexivity).
  split; [done|].
  apply (find_next_work_none 2000 2 _ MIN_SPLIT_BYTES no_cost);
    [vm_compute; discriminate|vm_compute; reflexivity|apply seg_inv_b_sound; vm_compute; reflexivity|done].
Defined.

(** The proactive split never runs while a segment is pending, keeps the
    invariant, and adds one pending segment: the tail of an active one, past
    everything that one has downloaded. *)
Theorem try_proactive_split_correct total next m min_split cost m' next' w :
  2 <= min_split -> seg_inv total next m ->
  try_proactive_split m next min_split cost = Some (m', next', w) ->
  (forall s, s ∈ bt_values m -> state s <> Pending) /\
  seg_inv total next' m' /\ next' = next + 1 /\
  exists p parent child,
    split_parent w = Some p /\ bt_get p m = Some parent /\ state parent = Active /\
    bt_get next m' = Some child /\ state child = Pending /\ downloaded_bytes child = 0 /\
    end_byte child = end_byte parent /\
    start_byte parent + downloaded_bytes parent < start_byte child /\
    bt_get p m' = Some (set_end (start_byte child - 1) parent) /\
    (forall k, k <> p -> k <> next -> bt_get k m' = bt_get k m).
Proof.
  intros Hmin Hinv (Hp & _ & idx & cur & rem & sp & s & Hplan & Hg & Heq)%try_proactive_split_inv.
  pose proof (planned_split_preserves _ _ _ _ _ _ _ _ _ _ Pending Hinv Hplan Hg) as Hinv'.
  destruct (plan_split_sound _ _ _ _ _ _ _ (inv_sorted _ _ _ Hinv) (inv_index _ _ _ Hinv) Hplan)
    as [s' [Hg' Hact -> _ Hin _]]. simplify_eq. rewrite Heq in Hinv'. injection Heq as <- <- <-.
  split.
  { intros x Hx Hst. apply is_state_true in Hst. apply not_true_iff_false in Hp. apply Hp.
    apply existsb_exists. exists x. by rewrite <- list_elem_of_In. }
  split; [done|]. split; [done|].
  assert (Hs1 : bt_sorted (bt_alter (set_end (sp - 1)) idx m)) by (apply bt_alter_sorted, Hinv).
  assert (idx <> next).
  { apply bt_get_elem, (inv_next _ _ _ Hinv) in Hg. lia. }
  exists idx, s, (mkSeg next sp (end_byte s) 0 Pending None). simpl.
  rewrite !bt_get_insert, Z.eqb_refl by done. destruct (Z.eqb_spec idx next); [done|].
  rewrite bt_get_alter, Z.eqb_refl, Hg. repeat split; try (done || lia).
  intros k Hk1 Hk2. rewrite bt_get_insert, bt_get_alter by done.
  by destruct (Z.eqb_spec k next), (Z.eqb_spec k idx).
Qed.

Lemma try_proactive_split_correct_witness :
  exists m' w, try_proactive_split sample_map 3 MIN_SPLIT_BYTES no_cost = Some (m', 4, w) /\
    seg_inv (22 * MIN_SPLIT_BYTES) 4 m'.
Proof.
  destruct (try_proactive_split sample_map 3 MIN_SPLIT_BYTES no_cost) as [[[m' n'] w]|] eqn:E;
    [|vm_compute in E; discriminate].
  destruct (try_proactive_split_correct (22 * MIN_SPLIT_BYTES) 3 sample_map MIN_SPLIT_BYTES
    no_cost m' n' w) as (_ & H & -> & _);
    [vm_compute; discriminate|apply seg_inv_b_sound; vm_compute; reflexivity|done|].
  exists m', w. done.
Defined.
