(* ===== verification/SegmentStore.v ===== *)
(** * SegmentStore: the segment rows of one task
      ([native/engine/src/db.rs]).

    [task_segments] restricted to one task is a table keyed by the segment
    index ([PRIMARY KEY (task_id, segment_index)]), kept here sorted by that
    key; [tasks] contributes the owner epoch of the segment layout, the total
    size and the downloaded counter.  Every operation is one SQL statement or
    one transaction of the source: it happens entirely or not at all. *)
From S2P Require Import Prelude F64 BTreeMap PathScheduler Segments.

Record Row := mkRow { r_start : Z; r_end : Z; r_downloaded : Z }.

Abbreviation rowmap := (list (Z * Row)).

Record Store := mkStore {
  st_rows : rowmap;
  st_epoch : Z;
  st_total : Z;
  st_task_downloaded : Z;
}.

Definition with_rows (db : Store) (rows : rowmap) : Store :=
  mkStore rows (st_epoch db) (st_total db) (st_task_downloaded db).

Definition row_set_end (e : Z) (r : Row) : Row := mkRow (r_start r) e (r_downloaded r).
Definition row_set_downloaded (d : Z) (r : Row) : Row := mkRow (r_start r) (r_end r) d.
Definition row_size (r : Row) : Z := r_end r - r_start r + 1.

(** [UPDATE tasks SET segments_epoch = $1]. *)
Definition set_segments_epoch (epoch : Z) (db : Store) : Store :=
  mkStore (st_rows db) epoch (st_total db) (st_task_downloaded db).

(** [INSERT] of each tuple in one transaction: a duplicate key fails it. *)
Fixpoint insert_segments (segments : list (Z * Z * Z)) (rows : rowmap) : option rowmap :=
  match segments with
  | [] => Some rows
  | (index, start, end_) :: rest =>
      match bt_get index rows with
      | Some _ => None
      | None => insert_segments rest (bt_insert index (mkRow start end_ 0) rows)
      end
  end.

Definition db_insert_segments (segments : list (Z * Z * Z)) (db : Store) : option Store :=
  with_rows db <$> insert_segments segments (st_rows db).

(** [SELECT ... ORDER BY segment_index]. *)
Definition load_segments (db : Store) : list (Z * Row) := st_rows db.

(** [CASE WHEN $1 > end_byte - start_byte + 1 THEN end_byte - start_byte + 1 ELSE $1 END]. *)
Definition case_bounded (downloaded : Z) (r : Row) : Z :=
  if row_size r <? downloaded then row_size r else downloaded.

Definition guarded_update (index start epoch : Z) (f : Row -> Row) (db : Store) : Store :=
  if st_epoch db =? epoch
  then with_rows db
         (bt_alter (fun r => if r_start r =? start then f r else r) index (st_rows db))
  else db.

(** A worker's own write: guarded by the epoch and the start of the row. *)
Definition update_segment_progress_bounded (index downloaded start epoch : Z) (db : Store) : Store :=
  guarded_update index start epoch (fun r => row_set_downloaded (case_bounded downloaded r) r) db.

(** One row of the batch: clamped, and never below what is stored. *)
Definition case_batch (downloaded : Z) (r : Row) : Z :=
  if row_size r <? downloaded then row_size r
  else if downloaded <? r_downloaded r then r_downloaded r
  else downloaded.

Definition update_segments_progress_batch (epoch : Z) (updates : list (Z * Z * Z)) (db : Store)
    : Store :=
  foldl (fun db '(index, downloaded, start) =>
           guarded_update index start epoch
             (fun r => row_set_downloaded (case_batch downloaded r) r) db) db updates.

Definition flush_segments_progress (updates : list (Z * Z)) (db : Store) : Store :=
  foldl (fun db '(index, downloaded) =>
           with_rows db (bt_alter (row_set_downloaded downloaded) index (st_rows db))) db updates.

Definition delete_segments (db : Store) : Store :=
  mkStore [] (st_epoch db) (st_total db) 0.

Definition reset_segments_progress (db : Store) : Store :=
  mkStore ((fun '(k, r) => (k, row_set_downloaded 0 r)) <$> st_rows db)
    (st_epoch db) (st_total db) 0.

(** [DELETE] then [INSERT], one transaction. *)
Definition upsert_segment (index start end_ downloaded : Z) (db : Store) : Store :=
  with_rows db (bt_insert index (mkRow start end_ downloaded) (bt_remove index (st_rows db))).

Definition persist_split (child_index child_start child_end child_downloaded parent_index parent_new_end : Z)
    (db : Store) : Store :=
  with_rows db
    (bt_alter (row_set_end parent_new_end) parent_index
      (bt_insert child_index (mkRow child_start child_end child_downloaded)
        (bt_remove child_index (st_rows db)))).

Definition persist_merge (parent_index parent_new_end : Z) (absorbed : list Z) (db : Store) : Store :=
  with_rows db
    (foldl (fun rows idx => bt_remove idx rows)
       (bt_alter (row_set_end parent_new_end) parent_index (st_rows db)) absorbed).

Definition update_task_total_bytes (total : Z) (db : Store) : Store :=
  mkStore (st_rows db) (st_epoch db) total (st_task_downloaded db).

(** ** The geometry of the rows *)

(** A row as the segment a resumed task builds from it. *)
Definition resume_state (r : Row) : SegState :=
  if row_size r <=? r_downloaded r then Completed else Pending.

Definition row_segment (k : Z) (r : Row) : LiveSegment :=
  mkSeg k (r_start r) (r_end r) (r_downloaded r) (resume_state r) None.

(** The rows mirror the segments: the same indices with the same ranges. *)
Definition row_of (s : LiveSegment) (r : Row) : Prop :=
  r_start r = start_byte s /\ r_end r = end_byte s.

Definition mirrors (rows : rowmap) (m : segmap) : Prop :=
  Forall2 (fun e e' => e.1 = e'.1 /\ row_of e'.2 e.2) rows m.

(** ** Lemmas: the two tables move together *)

Lemma mirrors_cons k r rows k' s m :
  k = k' -> row_of s r -> mirrors rows m -> mirrors ((k, r) :: rows) ((k', s) :: m).
Proof. intros. by apply Forall2_cons. Qed.

Lemma mirrors_keys rows m : mirrors rows m -> rows.*1 = m.*1.
Proof. induction 1 as [|[k r] [k' s] rows m [? ?] ? IH]; csimpl; [done|]. by f_equal. Qed.

Lemma mirrors_get rows m k : mirrors rows m ->
  match bt_get k rows, bt_get k m with
  | Some r, Some s => row_of s r
  | None, None => True
  | _, _ => False
  end.
Proof.
  induction 1 as [|[k1 r] [k2 s] rows m [? ?] ? IH]; simpl in *; [done|]. subst k2.
  by destruct (k =? k1).
Qed.

Lemma mirrors_insert rows m k r s :
  mirrors rows m -> row_of s r -> mirrors (bt_insert k r rows) (bt_insert k s m).
Proof.
  intros H Hrs. induction H as [|[k1 r1] [k2 s1] rows m [? ?] HF IH]; simpl in *.
  - apply mirrors_cons; [done..|constructor].
  - subst k2. destruct (k <? k1); [|destruct (k =? k1)]; repeat (apply mirrors_cons; try done).
Qed.

Lemma mirrors_alter rows m k f g :
  mirrors rows m -> (forall r s, row_of s r -> row_of (g s) (f r)) ->
  mirrors (bt_alter f k rows) (bt_alter g k m).
Proof.
  intros H Hfg. induction H as [|[k1 r1] [k2 s1] rows m [? ?] HF IH]; simpl in *; [constructor|].
  subst k2. destruct (k =? k1); apply mirrors_cons; auto.
Qed.

(** A change of the map that is invisible to the rows, and conversely. *)
Lemma mirrors_alter_r rows m k g :
  mirrors rows m -> (forall s, start_byte (g s) = start_byte s /\ end_byte (g s) = end_byte s) ->
  mirrors rows (bt_alter g k m).
Proof.
  intros H Hg. induction H as [|[k1 r1] [k2 s1] rows m [? Hr] HF IH]; simpl in *; [constructor|].
  subst k2. destruct (k =? k1); apply mirrors_cons; auto.
  destruct (Hg s1), Hr. split; congruence.
Qed.

Lemma mirrors_alter_l rows m k f :
  mirrors rows m -> (forall r, r_start (f r) = r_start r /\ r_end (f r) = r_end r) ->
  mirrors (bt_alter f k rows) m.
Proof.
  intros H Hf. induction H as [|[k1 r1] [k2 s1] rows m [? Hr] HF IH]; simpl in *; [constructor|].
  subst k2. destruct (k =? k1); apply mirrors_cons; auto.
  destruct (Hf r1), Hr. split; congruence.
Qed.

Lemma mirrors_remove rows m k : mirrors rows m -> mirrors (bt_remove k rows) (bt_remove k m).
Proof.
  induction 1 as [|[k1 r1] [k2 s1] rows m [? Hr] HF IH]; simpl in *; [constructor|].
  subst k2. destruct (k =? k1); [done|]. by apply mirrors_cons.
Qed.

Lemma mirrors_removes ks : forall rows m, mirrors rows m ->
  mirrors (foldl (fun rows idx => bt_remove idx rows) rows ks)
          (foldl (fun rows idx => bt_remove idx rows) m ks).
Proof. induction ks as [|k ks IH]; simpl; [done|]. intros. by apply IH, mirrors_remove. Qed.

Lemma bt_remove_fresh {V} k (m : list (Z * V)) : bt_get k m = None -> bt_remove k m = m.
Proof.
  induction m as [|[k1 v] m IH]; simpl; [done|]. destruct (k =? k1); [done|].
  intros ?. by rewrite IH.
Qed.

(** The value-wise form of [mirrors]: same ranges, so the same coverage. *)
Lemma mirrors_cov rows m b :
  mirrors rows m ->
  cov_count ((fun '(k, r) => row_segment k r) <$> rows) b = cov_count (bt_values m) b.
Proof.
  unfold bt_values.
  induction 1 as [|[k1 r1] [k2 s1] rows m [? [Hs He]] HF IH]; [done|].
  rewrite !fmap_cons, !cov_count_cons, IH. unfold covers. simpl in *. by rewrite Hs, He.
Qed.

Lemma bt_elem_fmap {V W} (f : Z -> V -> W) (m : list (Z * V)) k w :
  (k, w) ∈ ((fun '(k, v) => (k, f k v)) <$> m) <-> exists v, (k, v) ∈ m /\ w = f k v.
Proof.
  rewrite list_elem_of_fmap. split.
  - intros ([k' v] & [= -> ->] & Hin). eauto.
  - intros (v & Hin & ->). by exists (k, v).
Qed.

(** Inserting fresh rows: the result has them all. *)
Lemma insert_segments_mirrors segs : forall rows m m',
  mirrors rows m ->
  (forall k, is_Some (bt_get k m) -> forall s e, (k, s, e) ∉ segs) ->
  NoDup segs.*1.*1 ->
  m' = foldl (fun m '(k, s, e) => bt_insert k (mkSeg k s e 0 Pending None) m) m segs ->
  exists rows', insert_segments segs rows = Some rows' /\ mirrors rows' m'.
Proof.
  induction segs as [|[[k s] e] segs IH]; simpl; intros rows m m' Hm Hfresh Hnd ->; [eauto|].
  apply NoDup_cons in Hnd as [Hk Hnd].
  pose proof (mirrors_get rows m k Hm) as Hg.
  destruct (bt_get k m) as [x|] eqn:Ek.
  { destruct (Hfresh k ltac:(eauto) s e). left. }
  destruct (bt_get k rows); [done|]. eapply (IH _ _ _); [|..|done|done].
  - apply mirrors_insert; done.
  - intros k' [x Hx] s' e' Hin. apply bt_get_elem, bt_insert_keys in Hx as [[= -> ->]|Hx].
    + apply Hk. apply list_elem_of_fmap. exists (k, s'). split; [done|].
      apply list_elem_of_fmap. by exists (k, s', e').
    + destruct (bt_get k' m) as [y|] eqn:E.
      * destruct (Hfresh k' ltac:(eauto) s' e'). by right.
      * by eapply (proj1 (bt_get_None k' m)) in E.
Qed.

(** ** Writes by workers *)

Lemma guarded_update_stale index start epoch f db :
  st_epoch db <> epoch -> guarded_update index start epoch f db = db.
Proof. intros. unfold guarded_update. by destruct (Z.eqb_spec (st_epoch db) epoch). Qed.

Lemma guarded_update_epoch index start epoch f db :
  st_epoch (guarded_update index start epoch f db) = st_epoch db.
Proof. unfold guarded_update. by destruct (_ =? _). Qed.

Lemma guarded_update_mirrors index start epoch f db m :
  (forall r, r_start (f r) = r_start r /\ r_end (f r) = r_end r) ->
  mirrors (st_rows db) m -> mirrors (st_rows (guarded_update index start epoch f db)) m.
Proof.
  intros Hf Hm. unfold guarded_update. destruct (_ =? _); [|done]. simpl.
  apply mirrors_alter_l; [done|]. intros r. by destruct (_ =? _).
Qed.

Lemma batch_mirrors epoch updates m : forall db,
  mirrors (st_rows db) m ->
  mirrors (st_rows (update_segments_progress_batch epoch updates db)) m.
Proof.
  unfold update_segments_progress_batch.
  induction updates as [|[[k d] s] updates IH]; simpl; [done|]. intros db Hm.
  by apply IH, guarded_update_mirrors.
Qed.

(** What the rows claim: every stored watermark lies within its row. *)
Definition rows_bounded (rows : rowmap) : Prop :=
  forall k r, (k, r) ∈ rows -> r_downloaded r <= row_size r.

Lemma bt_elem_alter_gen {V} (f : V -> V) k (m : list (Z * V)) x v :
  (x, v) ∈ bt_alter f k m -> exists v0, (x, v0) ∈ m /\ (v = v0 \/ x = k /\ v = f v0).
Proof.
  induction m as [|[k1 v1] m IH]; simpl; [set_solver|].
  destruct (Z.eqb_spec k k1) as [->|].
  - intros [[= -> ->]|Hin]%elem_of_cons; [exists v1; split; [left|by right]|].
    exists v. split; [by right|by left].
  - intros [[= -> ->]|Hin]%elem_of_cons; [exists v1; split; [left|by left]|].
    apply IH in Hin as (v0 & ? & ?). exists v0. split; [by right|done].
Qed.

Lemma guarded_update_bounded index start epoch f db :
  (forall r, r_downloaded r <= row_size r -> r_downloaded (f r) <= row_size (f r)) ->
  rows_bounded (st_rows db) -> rows_bounded (st_rows (guarded_update index start epoch f db)).
Proof.
  intros Hf Hb. unfold guarded_update. destruct (_ =? _); [|done]. simpl.
  intros k r Hin. apply bt_elem_alter_gen in Hin as (r0 & Hin & [->|[-> ->]]); [by eapply Hb|].
  destruct (_ =? _); [apply Hf|]; by eapply Hb.
Qed.

(** ** Interleaved writers *)

(** A progress write reaching the database, with the epoch of its spawn. *)
Inductive ProgressWrite :=
| WBounded (index downloaded start epoch : Z)
| WBatch (epoch : Z) (updates : list (Z * Z * Z)).

Definition write_epoch (w : ProgressWrite) : Z :=
  match w with WBounded _ _ _ e => e | WBatch e _ => e end.

Definition apply_write (db : Store) (w : ProgressWrite) : Store :=
  match w with
  | WBounded index downloaded start epoch =>
      update_segment_progress_bounded index downloaded start epoch db
  | WBatch epoch updates => update_segments_progress_batch epoch updates db
  end.

Lemma batch_stale epoch updates : forall db,
  st_epoch db <> epoch -> update_segments_progress_batch epoch updates db = db.
Proof.
  unfold update_segments_progress_batch.
  induction updates as [|[[k d] s] updates IH]; simpl; [done|]. intros db H.
  by rewrite guarded_update_stale, IH.
Qed.

Lemma batch_epoch epoch updates : forall db,
  st_epoch (update_segments_progress_batch epoch updates db) = st_epoch db.
Proof.
  unfold update_segments_progress_batch.
  induction updates as [|[[k d] s] updates IH]; simpl; [done|]. intros db.
  by rewrite IH, guarded_update_epoch.
Qed.

Lemma apply_write_epoch db w : st_epoch (apply_write db w) = st_epoch db.
Proof. destruct w; [apply guarded_update_epoch|apply batch_epoch]. Qed.

Lemma apply_write_bounded db w :
  rows_bounded (st_rows db) -> rows_bounded (st_rows (apply_write db w)).
Proof.
  assert (Hone : forall i s e f db,
    (forall r, r_downloaded r <= row_size r -> r_downloaded (f r) <= row_size (f r)) ->
    rows_bounded (st_rows db) -> rows_bounded (st_rows (guarded_update i s e f db)))
    by (intros; by apply guarded_update_bounded).
  destruct w as [k d s e|e us]; simpl.
  - apply Hone. intros r _. unfold row_size, case_bounded. simpl.
    unfold row_size. case_code; lia.
  - unfold update_segments_progress_batch. revert db.
    induction us as [|[[k d] s] us IH]; simpl; [done|]. intros db Hb. apply IH, Hone; [|done].
    intros r. unfold row_size, case_batch. simpl. unfold row_size. case_code; lia.
Qed.

Lemma guarded_update_monotone index start epoch f db k r :
  (forall r, r_downloaded r <= row_size r -> r_downloaded r <= r_downloaded (f r)) ->
  bt_get k (st_rows db) = Some r -> r_downloaded r <= row_size r ->
  exists r', bt_get k (st_rows (guarded_update index start epoch f db)) = Some r' /\
    r_downloaded r <= r_downloaded r'.
Proof.
  intros Hf Hg Hr. unfold guarded_update. destruct (_ =? _); [|eexists; split; [done|lia]].
  simpl. rewrite bt_get_alter, Hg. destruct (k =? index); simpl; [|eexists; split; [done|lia]].
  eexists. split; [done|]. destruct (_ =? _); [by apply Hf|lia].
Qed.

(** ** Theorems *)

(** Once a spawn has taken the layout over, the writes of the spawns
    before it, however late and however interleaved with its own, change
    nothing: the store is the one its own writes alone produce. *)
Theorem stale_writes_ignored db epoch ws :
  foldl apply_write (set_segments_epoch epoch db) ws =
  foldl apply_write (set_segments_epoch epoch db)
    (List.filter (fun w => write_epoch w =? epoch) ws).
Proof.
  assert (H : forall ws db, st_epoch db = epoch ->
    foldl apply_write db ws =
    foldl apply_write db (List.filter (fun w => write_epoch w =? epoch) ws)); [|by apply H].
  clear. induction ws as [|w ws IH]; intros db He; simpl; [done|].
  destruct (Z.eqb_spec (write_epoch w) epoch) as [Hw|Hw]; simpl.
  - apply IH. by rewrite apply_write_epoch.
  - rewrite <- IH by done. f_equal. destruct w; simpl in *.
    + apply guarded_update_stale. congruence.
    + apply batch_stale. congruence.
Qed.

(** Progress writes never claim more than a row holds, and the batch of
    the coordinator never moves a stored watermark back. *)
Theorem progress_writes_bounded db ws epoch updates k r :
  rows_bounded (st_rows db) ->
  rows_bounded (st_rows (foldl apply_write db ws)) /\
  (bt_get k (st_rows db) = Some r ->
   exists r', bt_get k (st_rows (update_segments_progress_batch epoch updates db)) = Some r' /\
     r_downloaded r <= r_downloaded r').
Proof.
  intros Hb. split.
  { revert db Hb. induction ws as [|w ws IH]; simpl; [done|]. intros db Hb.
    by apply IH, apply_write_bounded. }
  intros Hg. unfold update_segments_progress_batch. revert db r Hb Hg.
  induction updates as [|[[i d] s] us IH]; intros db r Hb Hg; simpl.
  { exists r. split; [done|lia]. }
  destruct (guarded_update_monotone i s epoch
    (fun r => row_set_downloaded (case_batch d r) r) db k r) as (r1 & Hg1 & Hle); [..|done| |].
  { intros r0 H0. simpl. unfold case_batch. case_code; lia. }
  { by eapply Hb, bt_get_elem. }
  destruct (IH _ _ (apply_write_bounded db (WBatch epoch [(i, d, s)]) Hb) Hg1)
    as (r' & ? & ?). exists r'. split; [done|lia].
Qed.

Lemma progress_writes_bounded_witness :
  exists r', bt_get 1 (st_rows (update_segments_progress_batch 7 [(1, 40, 100)]
      (mkStore [(0, mkRow 0 99 10); (1, mkRow 100 199 60)] 7 200 0))) = Some r' /\
    60 <= r_downloaded r'.
Proof.
  assert (rows_bounded [(0, mkRow 0 99 10); (1, mkRow 100 199 60)]) as Hb.
  { intros k r. rewrite !elem_of_cons. intros [[= -> ->]|[[= -> ->]|[]%elem_of_nil]];
      vm_compute; discriminate. }
  destruct (progress_writes_bounded
    (mkStore [(0, mkRow 0 99 10); (1, mkRow 100 199 60)] 7 200 0) [] 7 [(1, 40, 100)] 1
    (mkRow 100 199 60) Hb) as [_ H]. by apply H.
Defined.
