(* ===== verification/SharedState.v ===== *)
(** * SharedState: the progress vector shared with the workers and the
      operations that tie it to the segment map
      ([native/engine/src/segment_coordinator.rs]).

    [seg_states] is the only channel from the workers to the coordinator:
    a worker overwrites the [downloaded_bytes] of its entry, the coordinator
    rebuilds the ranges.  A mutex held by a panicking thread (a poisoned lock)
    is not modelled: every lock succeeds. *)
From S2P Require Import Prelude F64 BTreeMap PathScheduler Segments SegmentStore.

(** ** Finding an entry *)

(** [slice::binary_search_by_key]: [size] halves, [base] stays at or before
    the key; [fuel] bounds the iterations. *)
Fixpoint binary_search_base (fuel : nat) (key_at : nat -> option Z) (key : Z) (base size : nat) : nat :=
  match fuel with
  | O => base
  | S fuel =>
      if (size <=? 1)%nat then base
      else
        let half := Nat.div2 size in
        let mid := (base + half)%nat in
        let greater := match key_at mid with Some k => key <? k | None => true end in
        binary_search_base fuel key_at key (if greater then base else mid) (size - half)
  end.

Definition binary_search_by_key (states : list SegmentProgressInfo) (key : Z) : option nat :=
  match states with
  | [] => None
  | _ =>
      let key_at n := i_index <$> states !! n in
      let base := binary_search_base (length states) key_at key 0 (length states) in
      if bool_decide (key_at base = Some key) then Some base else None
  end.

(** [iter().position(|s| s.index == seg_idx)]. *)
Fixpoint position_of (states : list SegmentProgressInfo) (key : Z) : option nat :=
  match states with
  | [] => None
  | s :: states => if i_index s =? key then Some O else S <$> position_of states key
  end.

Definition seg_state_pos (states : list SegmentProgressInfo) (seg_idx : Z) : option nat :=
  opt_or (binary_search_by_key states seg_idx) (position_of states seg_idx).

(** A worker's report of its progress. *)
Definition update_seg_state (states : list SegmentProgressInfo) (seg_idx downloaded : Z)
    : list SegmentProgressInfo :=
  match seg_state_pos states seg_idx with
  | Some pos =>
      alter (fun s => mkInfo (i_index s) (i_start_byte s) (i_end_byte s) downloaded (i_active s))
        pos states
  | None => states
  end.

(** ** The coordinator's side *)

Definition info_of (s : LiveSegment) : SegmentProgressInfo :=
  mkInfo (index s) (start_byte s) (end_byte s) (downloaded_bytes s) None.

Definition build_seg_state_vec (segments : segmap) : list SegmentProgressInfo :=
  info_of <$> bt_values segments.

(** The [HashMap] collected from the vector: the last entry of an index wins. *)
Definition existing_downloaded (states : list SegmentProgressInfo) : gmap Z Z :=
  list_to_map (reverse ((fun s => (i_index s, i_downloaded_bytes s)) <$> states)).

Definition rebuild_seg_states (segments : segmap) (states : list SegmentProgressInfo)
    : list SegmentProgressInfo :=
  let existing := existing_downloaded states in
  (fun s => mkInfo (i_index s) (i_start_byte s) (i_end_byte s)
              (default (i_downloaded_bytes s) (existing !! i_index s)) (i_active s))
    <$> build_seg_state_vec segments.

Definition sync_one (segments : segmap) (info : SegmentProgressInfo) : segmap :=
  bt_alter (fun s => if is_state Active s then set_downloaded (i_downloaded_bytes info) s else s)
    (i_index info) segments.

Definition sync_downloaded_from_shared (segments : segmap) (states : list SegmentProgressInfo) : segmap :=
  foldl sync_one segments states.

(** The rows of the batch write: entries of unknown or completed segments are
    dropped, the watermark is clamped to the segment. *)
Definition durable_row (segments : segmap) (entry : Z * Z) : option (Z * Z * Z) :=
  let '(idx, bytes) := entry in
  let* seg := bt_get idx segments in
  if is_state Completed seg then None
  else Some (idx, Z.max (Z.min bytes (size seg)) 0, start_byte seg).

(** The table is drained: its entries, in the order the map yields them, and
    the empty table left behind. *)
Definition take_durable_progress_rows (durable : list (Z * Z)) (segments : segmap)
    : list (Z * Z * Z) * list (Z * Z) :=
  (omap (durable_row segments) durable, []).

(** ** One version of the file across segments *)

Definition check_cross_segment_validators (first : option (string * string)) (resp_etag resp_lm : string)
    : option (string * string) * result unit (string * string) :=
  match first with
  | None => (Some (resp_etag, resp_lm), Ok tt)
  | Some (base_etag, base_lm) =>
      let mismatch base resp :=
        bool_decide (base <> ""%string) && bool_decide (resp <> ""%string) && bool_decide (base <> resp) in
      (first,
       if mismatch base_etag resp_etag || mismatch base_lm resp_lm
       then Err (base_etag, base_lm) else Ok tt)
  end.

(** ** Absorbing pending segments into an open stream *)

(** The [while let] loop: the first pending, untouched segment that starts
    where the stream ends.  [None] when the fuel runs out. *)
Fixpoint absorb_loop (fuel : nat) (segments : segmap) (new_end : Z) (absorbed : list Z)
    : option (Z * list Z) :=
  match fuel with
  | O => None
  | S fuel =>
      match List.find (fun s => is_state Pending s && (downloaded_bytes s =? 0)
                                && (start_byte s =? new_end + 1)) (bt_values segments) with
      | None => Some (new_end, absorbed)
      | Some s => absorb_loop fuel segments (end_byte s) (absorbed ++ [index s])
      end
  end.

Record Absorbed := mkAbsorbed {
  ab_segments : segmap;
  ab_states : list SegmentProgressInfo;
  ab_db : Store;
  ab_hostile : bool;
  ab_count : Z;
}.

(** [db_ok]: whether the merge transaction committed. *)
Definition absorb_pending_into_open_stream (db_ok : bool) (db : Store) (segments : segmap)
    (states : list SegmentProgressInfo) (open_ended_streaming : option Z) (hostile : bool)
    : option Absorbed :=
  let same := mkAbsorbed segments states db hostile 0 in
  match open_ended_streaming with
  | None => Some same
  | Some open_idx =>
      match bt_get open_idx segments with
      | None => Some same
      | Some open =>
          if negb (is_state Active open) then Some same
          else
            let* (new_end, absorbed) :=
              absorb_loop (S (length segments)) segments (end_byte open) [] in
            match absorbed with
            | [] => Some same
            | _ =>
                if db_ok then
                  let segments' :=
                    bt_alter (set_end new_end) open_idx
                      (foldl (fun m idx => bt_remove idx m) segments absorbed) in
                  Some (mkAbsorbed segments' (rebuild_seg_states segments' states)
                          (persist_merge open_idx new_end absorbed db) true
                          (Z.of_nat (length absorbed)))
                else Some same
            end
      end
  end.

(** ** Persisting a split *)

(** [db_ok]: whether the transaction committed. *)
Definition persist_segment_change (db_ok : bool) (db : Store) (segments : segmap)
    (changed_index : Z) (split_parent : option Z) : result Store string :=
  match split_parent with
  | None => Ok db
  | Some parent_idx =>
      let? child := ok_or (bt_get changed_index segments) "missing split child"%string in
      let? parent := ok_or (bt_get parent_idx segments) "missing split parent"%string in
      if db_ok then
        Ok (persist_split (index child) (start_byte child) (end_byte child) 0
              (index parent) (end_byte parent) db)
      else Err "database error"%string
  end.

(** ** Lemmas: finding an entry *)

Definition states_sorted (states : list SegmentProgressInfo) : Prop :=
  StronglySorted Z.lt (i_index <$> states).

Lemma sorted_lookup_lt (l : list Z) i j x y :
  StronglySorted Z.lt l -> (i < j)%nat -> l !! i = Some x -> l !! j = Some y -> x < y.
Proof.
  revert i j. induction l as [|z l IH]; intros i j; [done|].
  intros [Hs Hf]%StronglySorted_inv Hij Hi Hj.
  destruct j as [|j]; [lia|]. simpl in Hj. destruct i as [|i]; simpl in Hi.
  - simplify_eq. rewrite Forall_forall in Hf. by eapply Hf, list_elem_of_lookup_2.
  - eapply IH; [done| |done..]. lia.
Qed.

Lemma sorted_lookup_inj (l : list Z) i j x :
  StronglySorted Z.lt l -> l !! i = Some x -> l !! j = Some x -> i = j.
Proof.
  intros Hs Hi Hj. destruct (Nat.lt_trichotomy i j) as [H|[?|H]]; [|done|].
  - pose proof (sorted_lookup_lt l i j x x Hs H Hi Hj). lia.
  - pose proof (sorted_lookup_lt l j i x x Hs H Hj Hi). lia.
Qed.

(** The loop keeps the position of the key within [base .. base + size). *)
Lemma binary_search_base_spec fuel : forall l key p base size,
  StronglySorted Z.lt l -> l !! p = Some key ->
  (base <= p < base + size)%nat -> (base + size <= length l)%nat -> (size <= fuel)%nat ->
  binary_search_base fuel (fun n => l !! n) key base size = p.
Proof.
  induction fuel as [|fuel IH]; intros l key p base size Hs Hp Hin Hlen Hf; [lia|].
  simpl. destruct (Nat.leb_spec size 1); [lia|].
  pose proof (Nat.div2_odd size) as Hodd.
  assert (1 <= Nat.div2 size)%nat by (destruct (Nat.odd size); simpl in Hodd; lia).
  assert (Nat.div2 size <= size)%nat by (destruct (Nat.odd size); simpl in Hodd; lia).
  set (half := Nat.div2 size) in *.
  destruct (lookup_lt_is_Some_2 l (base + half)) as [k Hk]; [lia|]. rewrite Hk.
  destruct (Z.ltb_spec key k) as [Hlt|Hge].
  - apply IH; try done; try lia. split; [lia|].
    destruct (Nat.le_gt_cases (base + half) p) as [Hle|]; [exfalso|lia].
    destruct (decide (p = (base + half)%nat)) as [->|]; [simplify_eq; lia|].
    pose proof (sorted_lookup_lt l (base + half) p k key Hs ltac:(lia) Hk Hp). lia.
  - apply IH; try done; try lia. split; [|lia].
    destruct (Nat.le_gt_cases (base + half) p) as [Hle|]; [done|exfalso].
    pose proof (sorted_lookup_lt l p (base + half) key k Hs ltac:(lia) Hp Hk). lia.
Qed.

Lemma binary_search_by_key_sorted states key p :
  states_sorted states -> i_index <$> states !! p = Some key ->
  binary_search_by_key states key = Some p.
Proof.
  intros Hs Hp.
  assert (Hp' : (i_index <$> states) !! p = Some key) by (by rewrite list_lookup_fmap).
  pose proof (lookup_lt_Some _ _ _ Hp') as Hlt. rewrite length_fmap in Hlt.
  assert (Hb : binary_search_base (length states) (fun n => i_index <$> states !! n) key 0
    (length states) = p).
  { rewrite <- (binary_search_base_spec (length states) (i_index <$> states) key p 0 (length states)) at 1;
      [|done|done|lia|rewrite length_fmap; lia|lia].
    assert (Hext : forall fuel f g k b s, (forall n, f n = g n) ->
      binary_search_base fuel f k b s = binary_search_base fuel g k b s).
    { clear. induction fuel as [|fuel IH]; intros f g k b s Hfg; simpl; [done|].
      destruct (s <=? 1)%nat; [done|]. rewrite Hfg. by apply IH. }
    apply Hext. intros n. by rewrite list_lookup_fmap. }
  destruct states as [|s0 states]; [done|]. unfold binary_search_by_key.
  rewrite Hb. by rewrite bool_decide_eq_true_2.
Qed.

Lemma binary_search_by_key_sound states key p :
  binary_search_by_key states key = Some p -> i_index <$> states !! p = Some key.
Proof.
  destruct states as [|s states]; [done|]. unfold binary_search_by_key.
  case_bool_decide; [|done]. by intros [= <-].
Qed.

Lemma position_of_sound states key p :
  position_of states key = Some p -> i_index <$> states !! p = Some key.
Proof.
  revert p. induction states as [|s states IH]; intros p; simpl; [done|].
  destruct (Z.eqb_spec (i_index s) key) as [<-|].
  - by intros [= <-].
  - destruct (position_of states key) as [q|]; [|done]. intros [= <-]. by apply IH.
Qed.

Lemma position_of_None states key :
  position_of states key = None -> forall s, s ∈ states -> i_index s <> key.
Proof.
  induction states as [|s states IH]; simpl; [set_solver|].
  destruct (Z.eqb_spec (i_index s) key); [done|].
  destruct (position_of states key); [done|]. intros _ s' [->|?]%elem_of_cons; [done|by apply IH].
Qed.

Lemma seg_state_pos_sound states key p :
  seg_state_pos states key = Some p -> exists s, states !! p = Some s /\ i_index s = key.
Proof.
  unfold seg_state_pos, opt_or. intros H.
  assert (i_index <$> states !! p = Some key) as Hk.
  { destruct (binary_search_by_key states key) eqn:E.
    - simplify_eq. by apply binary_search_by_key_sound.
    - by apply position_of_sound. }
  destruct (states !! p) as [s|]; [|done]. exists s. by injection Hk.
Qed.

Lemma seg_state_pos_None states key :
  seg_state_pos states key = None -> forall s, s ∈ states -> i_index s <> key.
Proof.
  unfold seg_state_pos, opt_or. destruct (binary_search_by_key states key); [done|].
  apply position_of_None.
Qed.

(** ** Lemmas: the vector and the map *)

(** A vector without duplicate indices, as the map it stands for. *)
Lemma existing_downloaded_lookup states k :
  NoDup (i_index <$> states) ->
  (forall s, s ∈ states -> i_index s = k -> existing_downloaded states !! k = Some (i_downloaded_bytes s)) /\
  ((forall s, s ∈ states -> i_index s <> k) -> existing_downloaded states !! k = None).
Proof.
  intros Hnd. unfold existing_downloaded.
  assert (Hnd' : NoDup (reverse ((fun s => (i_index s, i_downloaded_bytes s)) <$> states)).*1).
  { rewrite fmap_reverse, reverse_Permutation. by rewrite <- list_fmap_compose. }
  split.
  - intros s Hin <-. apply elem_of_list_to_map_1; [done|]. apply elem_of_reverse.
    by apply (list_elem_of_fmap_2 (fun s => (i_index s, i_downloaded_bytes s))).
  - intros Hn. apply not_elem_of_list_to_map_1. rewrite list_elem_of_fmap.
    intros ([k' d] & -> & Hin). apply elem_of_reverse, list_elem_of_fmap in Hin as (s & [= -> ->] & Hin).
    by eapply Hn.
Qed.

Lemma rebuild_indices m states :
  i_index <$> rebuild_seg_states m states = index <$> bt_values m.
Proof.
  unfold rebuild_seg_states, build_seg_state_vec. rewrite <- !list_fmap_compose.
  by apply list_fmap_ext.
Qed.

Lemma seg_inv_indices total next m : seg_inv total next m -> index <$> bt_values m = m.*1.
Proof.
  intros Hinv. unfold bt_values. rewrite <- list_fmap_compose. apply list_fmap_ext.
  intros i [k s] Hin%list_elem_of_lookup_2. simpl. by apply (inv_index _ _ _ Hinv).
Qed.

Lemma sorted_NoDup (l : list Z) : StronglySorted Z.lt l -> NoDup l.
Proof.
  induction 1 as [|x l Hs IH Hf]; constructor; [|done].
  intros Hin. rewrite Forall_forall in Hf. specialize (Hf _ Hin). lia.
Qed.

Lemma sync_one_get m info k :
  bt_get k (sync_one m info) =
    if k =? i_index info
    then (fun s => if is_state Active s then set_downloaded (i_downloaded_bytes info) s else s) <$> bt_get k m
    else bt_get k m.
Proof. apply bt_get_alter. Qed.

(** What a segment becomes when the vector is read back. *)
Lemma sync_get states : forall m k s,
  NoDup (i_index <$> states) -> bt_get k m = Some s ->
  (forall i, i ∈ states -> i_index i = k ->
     bt_get k (sync_downloaded_from_shared m states) =
       Some (if is_state Active s then set_downloaded (i_downloaded_bytes i) s else s)) /\
  ((forall i, i ∈ states -> i_index i <> k) ->
     bt_get k (sync_downloaded_from_shared m states) = Some s).
Proof.
  induction states as [|i0 states IH]; intros m k s Hnd Hg; simpl.
  - split; [set_solver|done].
  - apply NoDup_cons in Hnd as [Hni Hnd].
    destruct (Z.eqb_spec k (i_index i0)) as [->|Hne].
    + assert (Hnone : forall i, i ∈ states -> i_index i <> i_index i0).
      { intros i Hin Heq. apply Hni. rewrite <- Heq. by apply list_elem_of_fmap_2. }
      destruct (IH (sync_one m i0) (i_index i0) (if is_state Active s
        then set_downloaded (i_downloaded_bytes i0) s else s) Hnd) as [_ H2].
      { by rewrite sync_one_get, Z.eqb_refl, Hg. }
      split.
      * intros i [->|Hin]%elem_of_cons Heq; [by apply H2|]. by destruct (Hnone i Hin).
      * intros H. destruct (H i0); [left|done].
    + destruct (IH (sync_one m i0) k s Hnd) as [H1 H2].
      { rewrite sync_one_get. by destruct (Z.eqb_spec k (i_index i0)). }
      split; [|set_solver]. intros i [->|Hin]%elem_of_cons Heq; [done|by apply H1].
Qed.

Lemma sync_mirrors states : forall rows m,
  mirrors rows m -> mirrors rows (sync_downloaded_from_shared m states).
Proof.
  induction states as [|i states IH]; intros rows m H; simpl; [done|].
  apply IH, mirrors_alter_r; [done|]. intros s. by destruct (is_state Active s).
Qed.

Lemma sync_inv states : forall total next m,
  (forall i, i ∈ states -> 0 <= i_downloaded_bytes i) ->
  seg_inv total next m -> seg_inv total next (sync_downloaded_from_shared m states).
Proof.
  induction states as [|i states IH]; intros total next m Hd H; simpl; [done|].
  apply IH; [set_solver|]. apply seg_inv_alter; [done|]. intros s Hg.
  pose proof (Hd i ltac:(left)).
  destruct (is_state Active s); repeat split; simpl; try lia.
  by eapply inv_downloaded, bt_get_elem.
Qed.

(** ** Lemmas: absorption *)

Lemma contiguous_app l1 : forall lo mid hi l2,
  contiguous lo l1 (mid - 1) -> contiguous mid l2 hi -> contiguous lo (l1 ++ l2) hi.
Proof.
  induction l1 as [|s l1 IH]; simpl; intros lo mid hi l2.
  - intros ->. by replace (mid - 1 + 1) with mid by lia.
  - intros (? & ? & ?) ?. repeat split; [done..|]. by eapply IH.
Qed.

(** The segments the loop has collected, going from [lo] to [new_end]. *)
Record absorbed_upto (m : segmap) (lo new_end : Z) (gs : list LiveSegment) : Prop := {
  au_contig : contiguous lo gs new_end;
  au_nodup : NoDup gs;
  au_elem : forall g, g ∈ gs -> g ∈ bt_values m /\ state g = Pending /\ downloaded_bytes g = 0;
}.

Lemma contiguous_start_le lo l hi g :
  contiguous lo l hi -> g ∈ l -> nonempty_seg g -> start_byte g <= hi.
Proof.
  revert lo. induction l as [|s l IH]; simpl; intros lo; [set_solver|].
  intros (Hs & Hle & Hc) [->|Hin]%elem_of_cons Hne; [|by eapply IH].
  unfold nonempty_seg in Hne. apply contiguous_partition in Hc as [? _]. lia.
Qed.

Lemma absorb_loop_spec fuel : forall m lo new_end gs,
  (forall g, g ∈ bt_values m -> nonempty_seg g) ->
  absorbed_upto m lo new_end gs -> (S (length m) <= fuel + length gs)%nat ->
  exists new_end' gs', absorb_loop fuel m new_end (index <$> gs) = Some (new_end', index <$> gs') /\
    absorbed_upto m lo new_end' gs' /\
    (forall s, s ∈ bt_values m -> state s = Pending -> downloaded_bytes s = 0 ->
       start_byte s <> new_end' + 1).
Proof.
  induction fuel as [|fuel IH]; intros m lo new_end gs Hne [Hc Hnd Hel] Hf; simpl.
  - exfalso.
    assert (length gs <= length (bt_values m))%nat.
    { apply submseteq_length, NoDup_submseteq; [done|]. intros g Hg. by apply Hel. }
    unfold bt_values in H. rewrite length_fmap in H. lia.
  - destruct (List.find _ _) as [s|] eqn:Hfind.
    + apply find_some in Hfind as [Hin%list_elem_of_In Hs]. bool_hyps.
      match goal with H : is_state Pending s = true |- _ => apply is_state_true in H end.
      pose proof (Hne s Hin) as Hs0. unfold nonempty_seg in Hs0.
      destruct (IH m lo (end_byte s) (gs ++ [s]) Hne) as (e' & gs' & Hrun & Hup & Hmax).
      * split.
        -- apply (contiguous_app _ _ (new_end + 1)); [|simpl; lia].
           by replace (new_end + 1 - 1) with new_end by lia.
        -- apply NoDup_app. split; [done|]. split; [|apply NoDup_singleton].
           intros g Hg Hgs. apply list_elem_of_singleton in Hgs as ->.
           pose proof (contiguous_start_le _ _ _ _ Hc Hg Hs0). lia.
        -- intros g [Hg|Hg%list_elem_of_singleton]%elem_of_app; [by apply Hel|by subst g].
      * rewrite length_app. simpl. lia.
      * exists e', gs'. rewrite <- Hrun, fmap_app. done.
    + exists new_end, gs. split; [done|]. split; [done|]. intros s Hin%list_elem_of_In Hp Hd Hst.
      pose proof (find_none _ _ Hfind s Hin) as H. simpl in H.
      apply is_state_true in Hp. rewrite Hp, Hd, Hst, !Z.eqb_refl in H. done.
Qed.

Lemma bt_value_get total next m s :
  seg_inv total next m -> s ∈ bt_values m -> bt_get (index s) m = Some s.
Proof.
  intros Hinv ([k s'] & -> & Hin)%list_elem_of_fmap. simpl.
  rewrite (inv_index _ _ _ Hinv _ _ Hin). apply bt_elem_get; [apply Hinv|done].
Qed.

Definition removes (m : segmap) (ks : list Z) : segmap := foldl (fun m idx => bt_remove idx m) m ks.

Lemma removes_sorted ks : forall m, bt_sorted m -> bt_sorted (removes m ks).
Proof. induction ks as [|k ks IH]; simpl; [done|]. intros. by apply IH, bt_remove_sorted. Qed.

Lemma removes_elem ks : forall m x, x ∈ removes m ks -> x ∈ m.
Proof. induction ks as [|k ks IH]; simpl; [done|]. intros m x Hx%IH. by apply bt_remove_subset in Hx. Qed.

Lemma removes_get ks : forall m k, bt_sorted m ->
  bt_get k (removes m ks) = if bool_decide (k ∈ ks) then None else bt_get k m.
Proof.
  induction ks as [|k0 ks IH]; intros m k Hs; simpl; [done|].
  rewrite IH by (by apply bt_remove_sorted). rewrite bt_get_remove by done.
  destruct (Z.eqb_spec k k0) as [->|]; repeat case_bool_decide; set_solver.
Qed.

Lemma removes_cov gs : forall m b, bt_sorted m -> NoDup (index <$> gs) ->
  (forall g, g ∈ gs -> bt_get (index g) m = Some g) ->
  cov_count (bt_values (removes m (index <$> gs))) b = cov_count (bt_values m) b - cov_count gs b.
Proof.
  induction gs as [|g gs IH]; intros m b Hs Hnd Hg; [unfold cov_count; simpl; lia|].
  rewrite fmap_cons in *. unfold removes. cbn [foldl]. apply NoDup_cons in Hnd as [Hni Hnd].
  change (foldl _ ?x _) with (removes (bt_remove (index g) m) (index <$> gs)).
  rewrite IH; [|by apply bt_remove_sorted|done|].
  - rewrite (cov_count_remove _ _ _ _ (Hg g ltac:(left))), cov_count_cons. lia.
  - intros g' Hin. rewrite bt_get_remove by done. destruct (Z.eqb_spec (index g') (index g)) as [Heq|].
    + destruct Hni. rewrite <- Heq. by apply list_elem_of_fmap_2.
    + apply Hg. by right.
Qed.

(** The collected segments are distinct entries of the map, the open one is
    not among them. *)
Lemma absorbed_keys total next m open_idx o new_end gs :
  seg_inv total next m -> bt_get open_idx m = Some o -> state o = Active ->
  absorbed_upto m (end_byte o + 1) new_end gs ->
  (forall g, g ∈ gs -> bt_get (index g) m = Some g) /\
  NoDup (index <$> gs) /\ open_idx ∉ index <$> gs.
Proof.
  intros Hinv Ho Hact [Hc Hnd Hel].
  assert (Hget : forall g, g ∈ gs -> bt_get (index g) m = Some g).
  { intros g Hg. eapply bt_value_get; [done|]. by apply Hel. }
  split; [done|]. split.
  - clear -Hnd Hget. induction Hnd as [|g gs Hni Hnd IH]; csimpl; constructor.
    + intros (g' & Heq & Hin)%list_elem_of_fmap.
      pose proof (Hget g ltac:(left)). pose proof (Hget g' ltac:(by right)).
      rewrite Heq in *. simplify_eq. done.
    + apply IH. intros g' ?. apply Hget. by right.
  - intros (g & -> & Hg)%list_elem_of_fmap. rewrite (Hget g Hg) in Ho. simplify_eq.
    destruct (Hel _ Hg) as (_ & ? & _). congruence.
Qed.

Lemma removes_length ks : forall m, bt_sorted m -> NoDup ks ->
  (forall k, k ∈ ks -> is_Some (bt_get k m)) ->
  (length (removes m ks) + length ks = length m)%nat.
Proof.
  induction ks as [|k ks IH]; intros m Hs Hnd Hg; unfold removes; cbn [foldl length]; [lia|].
  apply NoDup_cons in Hnd as [Hni Hnd].
  destruct (Hg k ltac:(left)) as [s Hk].
  assert (S (length (bt_remove k m)) = length m) as <-.
  { apply bt_focus in Hk as (l1 & l2 & -> & _ & ->). rewrite !length_app. simpl. lia. }
  rewrite <- (IH (bt_remove k m)); [unfold removes; lia|by apply bt_remove_sorted|done|].
  intros k' Hin. rewrite bt_get_remove by done.
  destruct (Z.eqb_spec k' k) as [->|]; [done|]. apply Hg. by right.
Qed.

(** Merging the collected segments into the open one keeps the layout. *)
Lemma absorb_merge_inv total next m open_idx o new_end gs :
  seg_inv total next m -> bt_get open_idx m = Some o -> state o = Active ->
  absorbed_upto m (end_byte o + 1) new_end gs ->
  bt_get open_idx (removes m (index <$> gs)) = Some o /\
  seg_inv total next (bt_alter (set_end new_end) open_idx (removes m (index <$> gs))).
Proof.
  intros Hinv Ho Hact Hup.
  destruct (absorbed_keys _ _ _ _ _ _ _ Hinv Ho Hact Hup) as (Hget & Hnd' & Hopen).
  destruct Hup as [Hc Hnd Hel].
  assert (Hs1 : bt_sorted (removes m (index <$> gs))) by apply removes_sorted, Hinv.
  assert (Ho1 : bt_get open_idx (removes m (index <$> gs)) = Some o).
  { rewrite removes_get by apply Hinv. by rewrite bool_decide_eq_false_2. }
  pose proof (contiguous_partition _ _ _ Hc) as [Hle HPg].
  pose proof (inv_nonempty _ _ _ Hinv _ _ (bt_get_elem _ _ _ Ho)) as Hne. unfold nonempty_seg in Hne.
  assert (Hin : forall k s, (k, s) ∈ bt_alter (set_end new_end) open_idx (removes m (index <$> gs)) ->
    exists s0, (k, s0) ∈ m /\ (s = s0 \/ s0 = o /\ s = set_end new_end o)).
  { intros k s (s0 & Hin & Hs)%bt_elem_alter; [|done].
    exists s0. split; [by apply removes_elem in Hin|]. destruct Hs as [->|[-> ->]]; [by left|right].
    apply (bt_elem_get _ _ _ Hs1) in Hin. by simplify_eq. }
  split; [done|]. split.
  - by apply bt_alter_sorted.
  - intros k s (s0 & Hin0 & [->|[-> ->]])%Hin; [by eapply inv_index|].
    by apply (inv_index _ _ _ Hinv _ _ Hin0).
  - intros k s (s0 & Hin0 & _)%Hin. by eapply inv_next.
  - intros k s (s0 & Hin0 & [->|[-> ->]])%Hin; [by eapply inv_nonempty|].
    unfold nonempty_seg. simpl. lia.
  - intros k s (s0 & Hin0 & [->|[-> ->]])%Hin; [by eapply inv_downloaded|].
    by apply (inv_downloaded _ _ _ Hinv _ _ Hin0).
  - intros b. rewrite (cov_count_alter _ _ _ _ _ Ho1), removes_cov by (done || apply Hinv).
    rewrite (inv_partition _ _ _ Hinv), HPg.
    pose proof (cov_count_pos (bt_values m) b o (bt_get_value _ _ _ Ho)) as Hpos.
    rewrite (inv_partition _ _ _ Hinv) in Hpos.
    b2z_lia.
Qed.

(** A sequence of responses, checked one after the other. *)
Fixpoint check_responses (first : option (string * string)) (responses : list (string * string))
    : option (string * string) * list (result unit (string * string)) :=
  match responses with
  | [] => (first, [])
  | (etag, lm) :: rest =>
      let '(first, r) := check_cross_segment_validators first etag lm in
      let '(first, rs) := check_responses first rest in
      (first, r :: rs)
  end.

(** Two validators of one header contradict each other. *)
Definition contradict (base resp : string) : Prop := base <> ""%string /\ resp <> ""%string /\ base <> resp.

Lemma check_responses_latched base responses :
  (check_responses (Some base) responses).1 = Some base /\
  forall i resp, responses !! i = Some resp ->
    exists r, (check_responses (Some base) responses).2 !! i = Some r /\
      (r = Err base <-> contradict base.1 resp.1 \/ contradict base.2 resp.2) /\
      (r = Ok tt \/ r = Err base).
Proof.
  destruct base as [be bl].
  induction responses as [|[e l] responses [IH1 IH2]]; [done|]. simpl.
  destruct (check_responses (Some (be, bl)) responses) as [f rs]. simpl in *. split; [done|].
  intros [|i] resp; simpl; [|apply IH2].
  intros [= <-]. eexists. split; [done|]. unfold contradict. simpl.
  repeat case_bool_decide; simpl; split; try (by left); try (by right); naive_solver.
Qed.

Lemma removes_alter f k ks : forall m, k ∉ ks -> removes (bt_alter f k m) ks = bt_alter f k (removes m ks).
Proof.
  unfold removes. induction ks as [|k0 ks IH]; cbn [foldl]; [done|].
  intros m Hni. rewrite <- IH by set_solver. f_equal.
  assert (k0 <> k) as Hne by set_solver. clear -Hne.
  induction m as [|[k1 s1] m IH]; simpl; [done|].
  destruct (Z.eqb_spec k k1), (Z.eqb_spec k0 k1); simpl;
    repeat match goal with |- context [?a =? ?b] => destruct (Z.eqb_spec a b) end; congruence.
Qed.

(** The merge transaction does to the rows what the merge does to the map. *)
Lemma merge_mirrors db total next m idx o new_end gs :
  seg_inv total next m -> bt_get idx m = Some o -> state o = Active ->
  absorbed_upto m (end_byte o + 1) new_end gs -> mirrors (st_rows db) m ->
  mirrors (st_rows (persist_merge idx new_end (index <$> gs) db))
    (bt_alter (set_end new_end) idx (removes m (index <$> gs))).
Proof.
  intros Hinv Ho Hact Hup Hm.
  destruct (absorbed_keys _ _ _ _ _ _ _ Hinv Ho Hact Hup) as (_ & _ & Hopen).
  rewrite <- removes_alter by done. apply mirrors_removes, mirrors_alter; [done|].
  by intros r s [? ?].
Qed.

(** The absorption either changes nothing or merges the run of segments it
    collected. *)
Lemma absorb_run db_ok db total next m states open_idx hostile :
  seg_inv total next m ->
  absorb_pending_into_open_stream db_ok db m states open_idx hostile =
    Some (mkAbsorbed m states db hostile 0) \/
  exists idx o new_end g gs, open_idx = Some idx /\ bt_get idx m = Some o /\ state o = Active /\
    absorbed_upto m (end_byte o + 1) new_end (g :: gs) /\
    (forall s, s ∈ bt_values m -> state s = Pending -> downloaded_bytes s = 0 ->
       start_byte s <> new_end + 1) /\
    let m' := bt_alter (set_end new_end) idx (removes m (index <$> g :: gs)) in
    absorb_pending_into_open_stream db_ok db m states open_idx hostile =
    Some (mkAbsorbed m' (rebuild_seg_states m' states)
       (persist_merge idx new_end (index <$> g :: gs) db) true
       (Z.of_nat (length (index <$> g :: gs)))).
Proof.
  intros Hinv. unfold absorb_pending_into_open_stream.
  destruct open_idx as [idx|]; [|by left].
  destruct (bt_get idx m) as [o|] eqn:Ho; [|by left].
  destruct (is_state Active o) eqn:Hact; [|by left].
  apply is_state_true in Hact. cbn [negb].
  assert (Hne : forall g, g ∈ bt_values m -> nonempty_seg g).
  { intros g ([k g'] & -> & Hin)%list_elem_of_fmap. by eapply inv_nonempty. }
  destruct (absorb_loop_spec (S (length m)) m (end_byte o + 1) (end_byte o) [] Hne)
    as (new_end & gs & Hrun & Hup & Hmax).
  { split; [simpl; lia|constructor|set_solver]. }
  { simpl. lia. }
  change (index <$> []) with (@nil Z) in Hrun. rewrite Hrun.
  destruct gs as [|g gs]; [by left|]. destruct db_ok; [right|by left].
  by exists idx, o, new_end, g, gs.
Qed.

(** ** Theorems *)

(** The binary search over the shared vector agrees with the linear scan:
    on any vector a returned position holds the index asked for and [None]
    means no entry has it; on a vector sorted by index the search alone
    returns what the scan does. *)
Theorem seg_state_pos_correct states key :
  (forall p, seg_state_pos states key = Some p ->
     exists s, states !! p = Some s /\ i_index s = key) /\
  (seg_state_pos states key = None -> forall s, s ∈ states -> i_index s <> key) /\
  (states_sorted states ->
     binary_search_by_key states key = position_of states key /\
     seg_state_pos states key = position_of states key).
Proof.
  split; [intros p; apply seg_state_pos_sound|]. split; [apply seg_state_pos_None|].
  intros Hs. unfold seg_state_pos.
  destruct (position_of states key) as [p|] eqn:E.
  - by rewrite (binary_search_by_key_sorted states key p Hs (position_of_sound _ _ _ E)).
  - destruct (binary_search_by_key states key) as [p|] eqn:E'; [|done].
    apply binary_search_by_key_sound in E'.
    destruct (states !! p) as [s|] eqn:Ep; [|done]. simpl in E'. simplify_eq.
    by destruct (position_of_None _ _ E s (list_elem_of_lookup_2 _ _ _ Ep)).
Qed.

(** What an entry of the rebuilt vector is: the range of its segment, with
    the progress of the old entry of that index if there was one. *)
Definition rebuilt_from (states : list SegmentProgressInfo) (info : SegmentProgressInfo)
    (s : LiveSegment) : Prop :=
  i_index info = index s /\ i_start_byte info = start_byte s /\ i_end_byte info = end_byte s /\
  (forall old, old ∈ states -> i_index old = index s ->
     i_downloaded_bytes info = i_downloaded_bytes old) /\
  ((forall old, old ∈ states -> i_index old <> index s) ->
     i_downloaded_bytes info = downloaded_bytes s).

Definition sample_states : list SegmentProgressInfo :=
  [mkInfo 0 0 99 40 None; mkInfo 1 100 199 7 None].

Definition sample_split : segmap :=
  [(0, mkSeg 0 0 49 0 Active None); (1, mkSeg 1 100 199 0 Active None);
   (2, mkSeg 2 50 99 0 Pending None)].

(** Single writer: rebuilding the shared vector takes the segments and
    their ranges from the map and the progress of every segment that already
    had an entry from the vector; only new segments take theirs from the map. *)
Theorem rebuild_preserves_progress m states :
  NoDup (i_index <$> states) ->
  Forall2 (rebuilt_from states) (rebuild_seg_states m states) (bt_values m).
Proof.
  intros Hnd. unfold rebuild_seg_states, build_seg_state_vec. rewrite <- list_fmap_compose.
  apply Forall2_fmap_l, Forall_Forall2_diag, Forall_forall. intros s _.
  destruct (existing_downloaded_lookup states (index s) Hnd) as [H1 H2].
  repeat split; simpl.
  - intros old Hin Heq. by rewrite (H1 old Hin Heq).
  - intros Hn. by rewrite (H2 Hn).
Qed.

Lemma rebuild_preserves_progress_witness :
  i_downloaded_bytes <$> rebuild_seg_states sample_split sample_states = [40; 7; 0] /\
  Forall2 (rebuilt_from sample_states) (rebuild_seg_states sample_split sample_states)
    (bt_values sample_split).
Proof.
  split; [vm_compute; reflexivity|]. apply rebuild_preserves_progress.
  apply NoDup_cons; split; [set_solver|apply NoDup_singleton].
Defined.

(** What the absorption promises: no change, or one merge. *)
Record absorb_ok (db : Store) (total next : Z) (m : segmap) (states : list SegmentProgressInfo)
    (open_idx : option Z) (r : Absorbed) : Prop := {
  abo_inv : seg_inv total next (ab_segments r);
  abo_rows : mirrors (st_rows db) m -> mirrors (st_rows (ab_db r)) (ab_segments r);
  abo_none : ab_count r = 0 -> ab_segments r = m /\ ab_db r = db /\ ab_states r = states;
  abo_some : ab_count r <> 0 -> exists idx o new_end,
    open_idx = Some idx /\ bt_get idx m = Some o /\ state o = Active /\
    bt_get idx (ab_segments r) = Some (set_end new_end o) /\ end_byte o < new_end /\
    ab_hostile r = true /\
    Z.of_nat (length (ab_segments r)) = Z.of_nat (length m) - ab_count r /\
    (forall k s, k <> idx -> bt_get k (ab_segments r) = Some s -> bt_get k m = Some s) /\
    (forall k s, bt_get k (ab_segments r) = Some s -> state s = Pending ->
       downloaded_bytes s = 0 -> start_byte s <> new_end + 1);
}.

Lemma absorb_same db total next m states open_idx hostile :
  seg_inv total next m ->
  absorb_ok db total next m states open_idx (mkAbsorbed m states db hostile 0).
Proof. intros Hinv. by split. Qed.

Lemma absorb_merge db total next m states idx o new_end g gs :
  seg_inv total next m -> bt_get idx m = Some o -> state o = Active ->
  absorbed_upto m (end_byte o + 1) new_end (g :: gs) ->
  (forall s, s ∈ bt_values m -> state s = Pending -> downloaded_bytes s = 0 ->
     start_byte s <> new_end + 1) ->
  let m' := bt_alter (set_end new_end) idx (removes m (index <$> g :: gs)) in
  absorb_ok db total next m states (Some idx)
    (mkAbsorbed m' (rebuild_seg_states m' states)
       (persist_merge idx new_end (index <$> g :: gs) db) true
       (Z.of_nat (length (index <$> g :: gs)))).
Proof.
  intros Hinv Ho Hact Hup Hmax m'.
  destruct (absorb_merge_inv _ _ _ _ _ _ _ Hinv Ho Hact Hup) as [Ho1 Hinv'].
  destruct (absorbed_keys _ _ _ _ _ _ _ Hinv Ho Hact Hup) as (Hget & Hnd & Hopen).
  pose proof Hup as [Hc _ Hel].
  assert (Hs1 : bt_sorted (removes m (index <$> g :: gs))) by apply removes_sorted, Hinv.
  assert (Hother : forall k s, k <> idx -> bt_get k m' = Some s -> bt_get k m = Some s).
  { intros k s Hk. unfold m'. rewrite bt_get_alter. destruct (Z.eqb_spec k idx); [done|].
    rewrite removes_get by apply Hinv. by case_bool_decide. }
  assert (Hidx : bt_get idx m' = Some (set_end new_end o)).
  { unfold m'. by rewrite bt_get_alter, Z.eqb_refl, Ho1. }
  split; cbn [ab_segments ab_db ab_states ab_count ab_hostile]; [done| | |].
  - intros Hm. by eapply merge_mirrors.
  - rewrite length_fmap. simpl. lia.
  - intros _. exists idx, o, new_end. repeat split; try done.
    + destruct Hc as (? & ? & [? _]%contiguous_partition).
      pose proof (Hget g ltac:(left)) as Hg.
      pose proof (inv_nonempty _ _ _ Hinv _ _ (bt_get_elem _ _ _ Hg)). unfold nonempty_seg in *. lia.
    + pose proof (removes_length (index <$> g :: gs) m (inv_sorted _ _ _ Hinv) Hnd) as Hlen.
      assert (length m' = length (removes m (index <$> g :: gs))) as ->.
      { rewrite <- (length_fmap fst), <- (length_fmap fst (removes _ _)). unfold m'. by rewrite bt_alter_keys. }
      rewrite <- Hlen; [lia|]. intros k (x & -> & Hx)%list_elem_of_fmap. rewrite (Hget x Hx). eauto.
    + intros k s Hk Hp Hd. destruct (decide (k = idx)) as [->|Hne].
      * rewrite Hidx in Hk. injection Hk as <-. simpl in Hp. congruence.
      * apply Hmax; [|done..]. by eapply bt_get_value, Hother.
Qed.

(** Absorbing pending segments into an open stream always ends; it
    keeps the map invariant and the correspondence with the database rows,
    reports the number of segments removed, extends only the open segment,
    touches nothing when the transaction fails, and leaves no untouched
    pending segment right after the open stream's new end. *)
Theorem absorb_correct db_ok db total next m states open_idx hostile :
  seg_inv total next m ->
  exists r, absorb_pending_into_open_stream db_ok db m states open_idx hostile = Some r /\
    absorb_ok db total next m states open_idx r.
Proof.
  intros Hinv. destruct (absorb_run db_ok db total next m states open_idx hostile Hinv) as
    [->|(idx & o & new_end & g & gs & -> & Ho & Hact & Hup & Hmax & ->)].
  - eexists. split; [done|]. by apply absorb_same.
  - eexists. split; [done|]. by eapply (absorb_merge db total next m states idx o new_end g gs).
Qed.

Definition open_map : segmap :=
  [(0, mkSeg 0 0 99 40 Active None); (1, mkSeg 1 100 199 0 Pending None);
   (2, mkSeg 2 200 299 0 Pending None)].

Lemma absorb_correct_witness :
  exists r, absorb_pending_into_open_stream true
      (mkStore [(0, mkRow 0 99 40); (1, mkRow 100 199 0); (2, mkRow 200 299 0)] 1 300 0)
      open_map [] (Some 0) false = Some r /\
    absorb_ok (mkStore [(0, mkRow 0 99 40); (1, mkRow 100 199 0); (2, mkRow 200 299 0)] 1 300 0)
      300 3 open_map [] (Some 0) r /\ ab_count r = 2.
Proof.
  destruct (absorb_correct true
      (mkStore [(0, mkRow 0 99 40); (1, mkRow 100 199 0); (2, mkRow 200 299 0)] 1 300 0)
      300 3 open_map [] (Some 0) false) as (r & Hr & Hok);
    [apply seg_inv_b_sound; vm_compute; reflexivity|].
  exists r. split; [done|]. split; [done|]. vm_compute in Hr. by injection Hr as <-.
Defined.

(** Responses checked against the first one: the baseline never changes,
    and a later response is rejected, with the baseline, exactly when one of
    its non-empty validators contradicts a non-empty one of the baseline. *)
Theorem cross_segment_validators_latch etag lm responses :
  let '(first, results) := check_responses None ((etag, lm) :: responses) in
  first = Some (etag, lm) /\ results !! 0%nat = Some (Ok tt) /\
  forall i resp, responses !! i = Some resp ->
    exists r, results !! S i = Some r /\
      (r = Err (etag, lm) <-> contradict etag resp.1 \/ contradict lm resp.2) /\
      (r = Ok tt \/ r = Err (etag, lm)).
Proof.
  destruct (check_responses_latched (etag, lm) responses) as [H1 H2]. simpl.
  destruct (check_responses (Some (etag, lm)) responses) as [first rs]. simpl in *.
  split; [done|]. split; [done|]. apply H2.
Qed.

(** The rows of a batch write: one for each drained entry of a segment
    that is still live, clamped to that segment, carrying its start. *)
Theorem durable_rows_correct durable m idx bytes start :
  (idx, bytes, start) ∈ (take_durable_progress_rows durable m).1 <->
  exists raw s, (idx, raw) ∈ durable /\ bt_get idx m = Some s /\ state s <> Completed /\
    start = start_byte s /\ bytes = Z.max (Z.min raw (size s)) 0 /\ 0 <= bytes <= size s.
Proof.
  unfold take_durable_progress_rows. cbn [fst]. rewrite list_elem_of_omap. split.
  - intros ([i raw] & Hin & Hr). unfold durable_row in Hr.
    destruct (bt_get i m) as [s|] eqn:Eg; [|done]. destruct (is_state Completed s) eqn:Est; [done|].
    injection Hr as <- <- <-. exists raw, s. split; [done|]. split; [done|].
    split; [by intros ?%is_state_true; congruence|]. repeat split; unfold size; lia.
  - intros (raw & s & Hin & Hg & Hst & -> & -> & _). exists (idx, raw). split; [done|].
    unfold durable_row. rewrite Hg. destruct (is_state Completed s) eqn:E; [|done].
    by apply is_state_true in E.
Qed.
