(* ===== verification/Resume.v ===== *)
(** * Resume: the segment map a download starts from
      ([run_coordinated_download], its first phase).

    A task without rows gets a fresh layout; one with rows gets the layout
    they encode, unless the size the server reports, or a broken coverage,
    forces a rebuild; a file shorter than its last preallocation resets the
    progress.  Every database operation is taken to succeed (a failure makes
    the source return before any worker starts); [il_log] lists the stores the
    transactions leave, one per commit, for the crash arguments. *)
From S2P Require Import Prelude F64 BTreeMap PathScheduler Segments SegmentStore SharedState.

Record ReportScope := mkScope {
  owns_task_total : bool;
  strict_total : bool;
}.

Record Layout := mkLayout {
  il_segments : segmap;
  il_next : Z;
  il_total : Z;     (** [effective_total_bytes] *)
  il_db : Store;
  il_log : list Store;
}.

(** [segments.insert(seg.index, ...)] for every row, in the order of the rows. *)
Definition restore_segments (existing : list (Z * Row)) : segmap * Z :=
  fold_left
    (fun acc e =>
       let '(k, r) := e in
       (bt_insert k (row_segment k r) acc.1, if acc.2 <=? k then k + 1 else acc.2))
    existing ([], 0).

(** [initial_segment_count] clamped so that every segment has a byte. *)
Definition clamp_count (count total_bytes : Z) : Z :=
  if total_bytes <? count then total_bytes else count.

(** [segments.values().map(|s| s.end_byte + 1).max()]. *)
Definition db_total_of (segments : segmap) (total_bytes : Z) : Z :=
  match bt_values segments with
  | [] => total_bytes
  | s :: l => foldl (fun acc x => Z.max acc (end_byte x + 1)) (end_byte s + 1) l
  end.

Definition growth_threshold (strict : bool) (db_total : Z) : Z :=
  if strict then 0 else clamp 1 1048576 (idiv db_total 100).

(** [delete_segments] then [insert_segments] of a fresh layout. *)
Definition rebuild_layout (scope : ReportScope) (count total_bytes : Z) (total : Z) (l : Layout)
    : option Layout :=
  let db1 := delete_segments (il_db l) in
  let '(fresh, db_segs) := build_fresh_segments count total_bytes in
  let* db2 := db_insert_segments db_segs db1 in
  let db3 := if owns_task_total scope then update_task_total_bytes total_bytes db2 else db2 in
  Some (mkLayout fresh count total db3 (il_log l ++ [db1; db2; db3])).

(** The layout before the coverage check. *)
Definition load_layout (scope : ReportScope) (size_is_estimate : bool) (count total_bytes : Z)
    (db : Store) : option Layout :=
  match load_segments db with
  | [] =>
      let plan_count := if size_is_estimate then 1 else count in
      let '(fresh, db_segs) := build_fresh_segments plan_count total_bytes in
      let* db1 := db_insert_segments db_segs db in
      Some (mkLayout fresh plan_count total_bytes db1 [db1])
  | existing =>
      let '(segments, next_index) := restore_segments existing in
      let db_total := db_total_of segments total_bytes in
      if db_total =? total_bytes then Some (mkLayout segments next_index db_total db [])
      else if db_total <? total_bytes then
        let delta := total_bytes - db_total in
        if delta <=? growth_threshold (strict_total scope) db_total then
          let db1 := if owns_task_total scope then update_task_total_bytes db_total db else db in
          Some (mkLayout segments next_index db_total db1 [db1])
        else
          rebuild_layout scope count total_bytes total_bytes
            (mkLayout segments next_index total_bytes db [])
      else Some (mkLayout segments next_index total_bytes db [])
  end.

(** The coverage check: a broken layout is rebuilt with [total_bytes];
    [effective_total_bytes] keeps its value. *)
Definition check_layout (scope : ReportScope) (count total_bytes : Z) (l : Layout) : option Layout :=
  match validate_coverage (il_segments l) (il_total l) with
  | Ok _ => Some l
  | Err _ => rebuild_layout scope count total_bytes (il_total l) l
  end.

(** The check of the file on disk. *)
Definition check_file (file_len : Z) (l : Layout) : Layout :=
  let db_downloaded := sum_list_with_Z downloaded_bytes (bt_values (il_segments l)) in
  if (0 <? db_downloaded) &&
     ((file_len =? 0) || (file_len <? db_downloaded) || (file_len <? il_total l))
  then
    let db' := reset_segments_progress (il_db l) in
    mkLayout ((fun e => (e.1, set_state Pending (set_downloaded 0 e.2))) <$> il_segments l)
      (il_next l) (il_total l) db' (il_log l ++ [db'])
  else l.

(** [None]: the arguments are rejected, or a transaction fails. *)
Definition initial_layout (scope : ReportScope) (size_is_estimate : bool)
    (initial_segment_count total_bytes spawn_gen file_len : Z) (db : Store) : option Layout :=
  if (total_bytes <=? 0) || (initial_segment_count <? 1) then None
  else
    let count := clamp_count initial_segment_count total_bytes in
    let db := set_segments_epoch spawn_gen db in
    let* l := load_layout scope size_is_estimate count total_bytes db in
    let* l := check_layout scope count total_bytes l in
    Some (check_file file_len l).

(** ** Lemmas *)

(** The map the rows encode. *)
Definition restored (existing : rowmap) : segmap :=
  (fun e => (e.1, row_segment e.1 e.2)) <$> existing.

(** Rows as the store keeps them: sorted, non-empty ranges, a non-negative
    watermark (a split that shrinks a row may leave it above the size). *)
Record rows_ok (rows : rowmap) : Prop := {
  ro_sorted : bt_sorted rows;
  ro_row : forall k r, (k, r) ∈ rows -> r_start r <= r_end r /\ 0 <= r_downloaded r;
}.

Lemma restore_upto existing : forall acc0 n0,
  bt_sorted (acc0 ++ existing) -> (forall k r, (k, r) ∈ acc0 -> k < n0) ->
  exists n, fold_left
    (fun acc e => let '(k, r) := e in
       (bt_insert k (row_segment k r) acc.1, if acc.2 <=? k then k + 1 else acc.2))
    existing (restored acc0, n0) =
    (restored (acc0 ++ existing), n) /\
    forall k r, (k, r) ∈ acc0 ++ existing -> k < n.
Proof.
  induction existing as [|[k r] existing IH]; intros acc0 n0 Hs Hlt; cbn [fold_left].
  - exists n0. rewrite app_nil_r. done.
  - cbn [fst snd].
    assert (Hins : bt_insert k (row_segment k r) (restored acc0) = restored (acc0 ++ [(k, r)])).
    { clear -Hs. induction acc0 as [|[k0 r0] acc0 IH]; [done|].
      rewrite <- app_comm_cons in Hs. apply bt_sorted_cons in Hs as [Hs Hlb].
      unfold restored in *. rewrite fmap_cons, <- app_comm_cons, fmap_cons. cbn [bt_insert fst snd].
      specialize (Hlb k r ltac:(set_solver)).
      destruct (Z.ltb_spec k k0); [lia|]. destruct (Z.eqb_spec k k0); [lia|].
      by rewrite <- IH. }
    rewrite Hins.
    replace (acc0 ++ (k, r) :: existing) with ((acc0 ++ [(k, r)]) ++ existing) in *
      by (by rewrite <- app_assoc).
    apply IH; [done|]. intros k' r' [Hin|Hin%list_elem_of_singleton]%elem_of_app.
    + specialize (Hlt _ _ Hin). destruct (Z.leb_spec n0 k); lia.
    + simplify_eq. destruct (Z.leb_spec n0 k); lia.
Qed.

Lemma restore_segments_spec existing :
  rows_ok existing ->
  exists n, restore_segments existing = (restored existing, n) /\
    forall k r, (k, r) ∈ existing -> k < n.
Proof.
  intros [Hs Hr]. destruct (restore_upto existing [] 0) as (n & Heq & Hlt); [done|set_solver|].
  exists n. split; [exact Heq|done].
Qed.

Lemma restored_elem existing k s :
  (k, s) ∈ restored existing <->
  exists r, (k, r) ∈ existing /\ s = row_segment k r.
Proof.
  unfold restored. rewrite list_elem_of_fmap. split.
  - intros ([k' r] & [= -> ->] & Hin). eauto.
  - intros (r & Hin & ->). by exists (k, r).
Qed.

Lemma restored_mirrors existing :
  mirrors existing (restored existing).
Proof.
  induction existing as [|[k r] existing IH]; [constructor|].
  unfold restored. rewrite fmap_cons. by apply mirrors_cons.
Qed.

Lemma restored_inv existing n total :
  rows_ok existing -> (forall k r, (k, r) ∈ existing -> k < n) ->
  validate_coverage (restored existing) total = Ok tt -> seg_inv total n (restored existing).
Proof.
  intros [Hs Hr] Hn Hv. split.
  - unfold bt_sorted. by rewrite <- (mirrors_keys _ _ (restored_mirrors existing)).
  - intros k s (r & _ & ->)%restored_elem. done.
  - intros k s (r & Hin & _)%restored_elem. by eapply Hn.
  - intros k s (r & Hin & ->)%restored_elem. unfold nonempty_seg. simpl. by apply (Hr _ _ Hin).
  - intros k s (r & Hin & ->)%restored_elem. simpl. by apply (Hr _ _ Hin).
  - by apply validate_coverage_sound.
Qed.

(** *** Fresh layouts in the store *)

Lemma build_fresh_as_inserts count total :
  0 <= count ->
  (build_fresh_segments count total).1 =
  foldl (fun m '(k, s, e) => bt_insert k (mkSeg k s e 0 Pending None) m) []
    (build_fresh_segments count total).2.
Proof.
  intros Hc. unfold build_fresh_segments.
  apply (fold_left_seqZ _ (fun _ acc => acc.1 =
    foldl (fun m '(k, s, e) => bt_insert k (mkSeg k s e 0 Pending None) m) [] acc.2)); [done..|].
  intros i [m rows] _. cbn [fst snd]. intros ->. by rewrite foldl_app.
Qed.

Lemma insert_segments_elem segs : forall rows rows' k r,
  insert_segments segs rows = Some rows' -> (k, r) ∈ rows' ->
  (k, r) ∈ rows \/ exists s e, (k, s, e) ∈ segs /\ r = mkRow s e 0.
Proof.
  induction segs as [|[[k0 s] e] segs IH]; simpl; intros rows rows' k r; [intros [= ->]; by left|].
  destruct (bt_get k0 rows); [done|]. intros Hi Hin.
  destruct (IH _ _ _ _ Hi Hin) as [Hin'|(s' & e' & ? & ->)].
  - apply bt_insert_keys in Hin' as [[= -> ->]|?]; [|by left]. right. exists s, e. split; [left|done].
  - right. exists s', e'. split; [by right|done].
Qed.

Lemma insert_segments_sorted segs : forall rows rows',
  insert_segments segs rows = Some rows' -> bt_sorted rows -> bt_sorted rows'.
Proof.
  induction segs as [|[[k0 s] e] segs IH]; simpl; intros rows rows'; [by intros [= ->]|].
  destruct (bt_get k0 rows); [done|]. intros Hi Hs. by eapply IH, bt_insert_sorted.
Qed.

Lemma insert_fresh count total :
  0 < count <= total ->
  exists rows, insert_segments (build_fresh_segments count total).2 [] = Some rows /\
    mirrors rows (build_fresh_segments count total).1 /\ rows_ok rows /\
    forall k r, (k, r) ∈ rows -> r_downloaded r = 0.
Proof.
  intros Hc. pose proof (build_fresh_upto count total Hc) as [_ _ _ Hrows].
  destruct (insert_segments_mirrors (build_fresh_segments count total).2 [] []
    (build_fresh_segments count total).1) as (rows & Hi & Hm).
  - constructor.
  - intros k [? H]. done.
  - rewrite Hrows, <- !list_fmap_compose. rewrite (list_fmap_ext _ id); [|done].
    rewrite list_fmap_id. apply NoDup_seqZ.
  - apply build_fresh_as_inserts. lia.
  - exists rows. split; [done|]. split; [done|].
    assert (Hel : forall k r, (k, r) ∈ rows -> r_start r <= r_end r /\ r_downloaded r = 0).
    { intros k r Hin. destruct (insert_segments_elem _ _ _ _ _ Hi Hin) as [Hn%elem_of_nil|(s & e & Hin' & ->)];
        [done|]. clear Hin. rename Hin' into Hin.
      rewrite Hrows in Hin. apply list_elem_of_fmap in Hin as (x & [= -> -> ->] & Hx%elem_of_seqZ).
      destruct (fresh_segment_bounds count total x Hc ltac:(lia)) as (_ & _ & Hne & _).
      by unfold nonempty_seg in Hne. }
    split; [split|].
    + eapply insert_segments_sorted; [exact Hi|]. unfold bt_sorted. constructor.
    + intros k r (? & Hz)%Hel. unfold row_size. lia.
    + by intros k r (_ & ?)%Hel.
Qed.

(** What every stage of the start-up maintains; [T] is the size the map
    covers, [orig] the rows the task had. *)
Record layout_ok (orig : rowmap) (T : Z) (l : Layout) : Prop := {
  lo_total : 0 < T;
  lo_inv : seg_inv T (il_next l) (il_segments l);
  lo_mirror : mirrors (st_rows (il_db l)) (il_segments l);
  lo_rows : rows_ok (st_rows (il_db l));
  lo_progress : forall k s, bt_get k (il_segments l) = Some s ->
    (exists r, bt_get k (st_rows (il_db l)) = Some r /\ r_downloaded r = downloaded_bytes s) /\
    (downloaded_bytes s = 0 \/
     exists r, bt_get k orig = Some r /\ r_start r = start_byte s /\ r_downloaded r = downloaded_bytes s);
  lo_state : forall k s, bt_get k (il_segments l) = Some s ->
    state s = if size s <=? downloaded_bytes s then Completed else Pending;
  lo_log : forall d, d ∈ il_log l -> st_rows d = [] \/ st_rows d = orig \/
    exists T' n m, seg_inv T' n m /\ mirrors (st_rows d) m;
}.

Lemma mirrors_downloaded_zero rows m k s :
  mirrors rows m -> (forall k r, (k, r) ∈ rows -> r_downloaded r = 0) ->
  bt_get k m = Some s -> downloaded_bytes s = 0 ->
  exists r, bt_get k rows = Some r /\ r_downloaded r = downloaded_bytes s.
Proof.
  intros Hm Hz Hg Hd. pose proof (mirrors_get _ _ k Hm) as H. rewrite Hg in H.
  destruct (bt_get k rows) as [r|] eqn:E; [|done]. exists r. split; [done|].
  rewrite Hd. by eapply Hz, bt_get_elem.
Qed.

Lemma fresh_layout_ok orig count total rows next db log :
  0 < count <= total ->
  mirrors rows (build_fresh_segments count total).1 -> rows_ok rows ->
  (forall k r, (k, r) ∈ rows -> r_downloaded r = 0) ->
  st_rows db = rows ->
  (forall d, d ∈ log -> st_rows d = [] \/ st_rows d = orig \/ st_rows d = rows) ->
  layout_ok orig total (mkLayout (build_fresh_segments count total).1 count next db log).
Proof.
  intros Hc Hm Hok Hz Hdb Hlog.
  pose proof (build_fresh_inv count total Hc) as Hinv.
  pose proof (build_fresh_upto count total Hc) as [Hs He _ _].
  assert (Hseg : forall k s, bt_get k (build_fresh_segments count total).1 = Some s ->
    downloaded_bytes s = 0 /\ state s = Pending /\ nonempty_seg s).
  { intros k s Hg. pose proof (inv_nonempty _ _ _ Hinv _ _ (bt_get_elem _ _ _ Hg)).
    apply bt_get_elem, He in Hg as [_ ->]. done. }
  split; cbn [il_segments il_next il_db il_log]; rewrite ?Hdb; [lia|done|done|done| | |].
  - intros k s Hg. destruct (Hseg k s Hg) as (Hd & _). split; [|by left].
    by eapply mirrors_downloaded_zero.
  - intros k s (Hd & -> & Hne)%Hseg. unfold nonempty_seg in Hne. rewrite Hd. unfold size.
    destruct (Z.leb_spec (Z.max (end_byte s - start_byte s + 1) 0) 0); [lia|done].
  - intros d Hd. destruct (Hlog d Hd) as [?|[?|Hr]]; [by left|by right; left|right; right].
    rewrite Hr. eauto.
Qed.

Lemma rebuild_layout_ok orig scope count total T l :
  0 < count <= total ->
  (forall d, d ∈ il_log l -> st_rows d = [] \/ st_rows d = orig) ->
  exists l', rebuild_layout scope count total T l = Some l' /\ layout_ok orig total l' /\
    il_total l' = T /\ st_epoch (il_db l') = st_epoch (il_db l).
Proof.
  intros Hc Hlog. unfold rebuild_layout.
  destruct (insert_fresh count total Hc) as (rows & Hi & Hm & Hok & Hz).
  destruct (build_fresh_segments count total) as [fresh db_segs] eqn:E. cbn [fst snd] in *.
  unfold db_insert_segments. cbn [delete_segments st_rows]. rewrite Hi. csimpl.
  eexists. split; [done|].
  set (db3 := if owns_task_total scope then _ else _).
  assert (Hrows : st_rows db3 = rows) by (unfold db3; by destruct (owns_task_total scope)).
  split; [|split; [done|unfold db3; by destruct (owns_task_total scope)]].
  replace fresh with (build_fresh_segments count total).1 in * by (by rewrite E).
  eapply fresh_layout_ok; [done..|].
  intros d [Hd|Hd]%elem_of_app.
  - destruct (Hlog d Hd); [by left|by right; left].
  - rewrite !elem_of_cons in Hd. destruct Hd as [->|[->|[->|[]%elem_of_nil]]];
      [by left|by right; right|by right; right].
Qed.

(** *** Restored layouts *)

Lemma restored_get existing k :
  bt_get k (restored existing) = row_segment k <$> bt_get k existing.
Proof.
  unfold restored. induction existing as [|[k' r] existing IH]; [done|].
  rewrite fmap_cons. cbn [bt_get fst snd]. destruct (Z.eqb_spec k k') as [->|]; [done|exact IH].
Qed.

Lemma restored_layout_ok orig n total T db log :
  st_rows db = orig -> rows_ok orig -> (forall k r, (k, r) ∈ orig -> k < n) ->
  validate_coverage (restored orig) T = Ok tt ->
  (forall d, d ∈ log -> st_rows d = [] \/ st_rows d = orig) ->
  layout_ok orig T (mkLayout (restored orig) n total db log).
Proof.
  intros Hdb Hok Hn Hv Hlog.
  split; cbn [il_segments il_next il_db il_log]; rewrite ?Hdb;
    [|by apply restored_inv|apply restored_mirrors|done| | |].
  - eapply seg_inv_total_pos; [by apply restored_inv|]. intros Hnil. by rewrite Hnil in Hv.
  - intros k s. rewrite restored_get.
    destruct (bt_get k orig) as [r|] eqn:E; [|done]. intros [= <-]. simpl. split; [eauto|right; eauto].
  - intros k s. rewrite restored_get.
    destruct (bt_get k orig) as [r|] eqn:E; [|done]. intros [= <-]. simpl.
    unfold resume_state. f_equal. unfold size, row_size. simpl.
    destruct Hok as [_ Hr]. pose proof (Hr _ _ (bt_get_elem _ _ _ E)).
    destruct (Z.leb_spec (r_end r - r_start r + 1) (r_downloaded r)),
      (Z.leb_spec (Z.max (r_end r - r_start r + 1) 0) (r_downloaded r)); lia || done.
  - intros d Hd. destruct (Hlog d Hd); auto.
Qed.

(** The one start in which [effective_total_bytes] is not the size the map
    covers: the server reports slightly more than the rows, and their
    coverage turns out to be broken. *)
Definition drift_rebuilt (scope : ReportScope) (total_bytes : Z) (rows : rowmap) : bool :=
  let db_total := db_total_of (restored rows) total_bytes in
  match rows with
  | [] => false
  | _ => (db_total <? total_bytes) && (total_bytes - db_total <=? growth_threshold (strict_total scope) db_total)
         && negb (is_ok (validate_coverage (restored rows) db_total))
  end.

Definition zero_segments (m : segmap) : segmap :=
  (fun e => (e.1, set_state Pending (set_downloaded 0 e.2))) <$> m.

Lemma zero_segments_get k m :
  bt_get k (zero_segments m) = (fun s => set_state Pending (set_downloaded 0 s)) <$> bt_get k m.
Proof.
  unfold zero_segments. induction m as [|[k' s] m IH]; [done|].
  rewrite fmap_cons. cbn [bt_get fst snd]. destruct (k =? k'); [done|exact IH].
Qed.

Lemma zero_segments_elem k s m :
  (k, s) ∈ zero_segments m <-> exists s0, (k, s0) ∈ m /\ s = set_state Pending (set_downloaded 0 s0).
Proof.
  unfold zero_segments. rewrite list_elem_of_fmap. split.
  - intros ([k' s0] & [= -> ->] & Hin). eauto.
  - intros (s0 & Hin & ->). by exists (k, s0).
Qed.

Lemma zero_segments_inv total next m : seg_inv total next m -> seg_inv total next (zero_segments m).
Proof.
  intros [Hs Hi Hn Hne Hd HP]. split.
  - unfold bt_sorted, zero_segments. rewrite <- list_fmap_compose. by apply Hs.
  - intros k s (s0 & Hin & ->)%zero_segments_elem. by apply (Hi _ _ Hin).
  - intros k s (s0 & Hin & _)%zero_segments_elem. by eapply Hn.
  - intros k s (s0 & Hin & ->)%zero_segments_elem. by apply (Hne _ _ Hin).
  - intros k s (s0 & Hin & ->)%zero_segments_elem. simpl. lia.
  - intros b. rewrite <- (HP b). unfold bt_values, zero_segments. rewrite <- list_fmap_compose.
    clear. induction m as [|[k s] m IH]; [done|]. rewrite !fmap_cons, !cov_count_cons. by f_equal.
Qed.

Lemma reset_rows_mirror rows m :
  mirrors rows m ->
  mirrors ((fun '(k, r) => (k, row_set_downloaded 0 r)) <$> rows) (zero_segments m).
Proof.
  induction 1 as [|[k r] [k' s] rows m [? Hr] HF IH]; [constructor|].
  unfold zero_segments. rewrite !fmap_cons. apply mirrors_cons; done.
Qed.

Lemma check_file_ok orig T file_len l :
  layout_ok orig T l -> layout_ok orig T (check_file file_len l) /\
  il_total (check_file file_len l) = il_total l /\
  st_epoch (il_db (check_file file_len l)) = st_epoch (il_db l).
Proof.
  intros [Ht Hinv Hm Hok Hp Hst Hlog]. unfold check_file. destruct (_ && _); [|by split].
  split; [|done]. fold (zero_segments (il_segments l)).
  assert (Hinv' := zero_segments_inv _ _ _ Hinv).
  assert (Hm' := reset_rows_mirror _ _ Hm).
  assert (Hel : forall k r, (k, r) ∈ st_rows (reset_segments_progress (il_db l)) ->
    exists r0, (k, r0) ∈ st_rows (il_db l) /\ r = row_set_downloaded 0 r0).
  { intros k r Hin. simpl in Hin. apply list_elem_of_fmap in Hin as ([k' r0] & [= -> ->] & Hin). eauto. }
  split; cbn [il_segments il_next il_db il_log]; [done|done|done| | | |].
  - destruct Hok as [Hs Hr]. split.
    + unfold bt_sorted. cbn [reset_segments_progress st_rows].
      rewrite (mirrors_keys _ _ Hm'). apply Hinv'.
    + intros k r (r0 & Hin & ->)%Hel. specialize (Hr _ _ Hin). unfold row_size in *. simpl. lia.
  - intros k s Hg. assert (downloaded_bytes s = 0) as Hd.
    { rewrite zero_segments_get in Hg. by destruct (bt_get k (il_segments l)); simplify_eq/=. }
    split; [|by left]. eapply mirrors_downloaded_zero; [exact Hm'| |exact Hg|done].
    intros k' r (r0 & _ & ->)%Hel. done.
  - intros k s Hg. pose proof (inv_nonempty _ _ _ Hinv' _ _ (bt_get_elem _ _ _ Hg)) as Hne.
    rewrite zero_segments_get in Hg. destruct (bt_get k (il_segments l)); [|done].
    injection Hg as <-. unfold nonempty_seg, size in *. simpl in *.
    destruct (Z.leb_spec (Z.max (end_byte l0 - start_byte l0 + 1) 0) 0); [lia|done].
  - intros d [?|Hd%list_elem_of_singleton]%elem_of_app; [by apply Hlog|]. subst d. eauto 10.
Qed.

(** *** The stages of the start *)

Definition drift_cond (scope : ReportScope) (total db_total : Z) : Prop :=
  db_total < total /\ total - db_total <= growth_threshold (strict_total scope) db_total.

Lemma drift_rebuilt_spec scope total rows :
  rows <> [] ->
  let dbt := db_total_of (restored rows) total in
  (drift_cond scope total dbt ->
     drift_rebuilt scope total rows = negb (is_ok (validate_coverage (restored rows) dbt))) /\
  (~ drift_cond scope total dbt -> drift_rebuilt scope total rows = false).
Proof.
  intros Hne dbt. unfold drift_rebuilt, drift_cond. fold dbt. destruct rows as [|e rows]; [done|].
  destruct (Z.ltb_spec dbt total), (Z.leb_spec (total - dbt) (growth_threshold (strict_total scope) dbt));
    cbn [andb]; (split; intros ?; [|]); (done || lia).
Qed.

Lemma layout_nonempty orig T l : layout_ok orig T l -> Forall nonempty_seg (bt_values (il_segments l)).
Proof.
  intros Hl. apply Forall_forall. intros s ([k s'] & -> & Hin)%list_elem_of_fmap.
  by apply (inv_nonempty _ _ _ (lo_inv _ _ _ Hl) _ _ Hin).
Qed.

(** A layout that covers what it should passes the check unchanged. *)
Lemma check_layout_pass orig scope n total l :
  0 < total -> layout_ok orig total l -> il_total l = total ->
  check_layout scope n total l = Some l.
Proof.
  intros Ht Hl HT. unfold check_layout. rewrite HT, validate_coverage_complete; [done|done| |apply Hl].
  by eapply layout_nonempty.
Qed.

(** The rows as loaded, then checked: kept, or rebuilt with [total]. *)
Lemma check_restored scope n total nx T0 db log :
  0 < n <= total -> rows_ok (st_rows db) -> (forall k r, (k, r) ∈ st_rows db -> k < nx) ->
  forall db1, st_rows db1 = st_rows db ->
  (forall d, d ∈ log -> st_rows d = [] \/ st_rows d = st_rows db) ->
  exists l, check_layout scope n total (mkLayout (restored (st_rows db)) nx T0 db1 log) = Some l /\
    st_epoch (il_db l) = st_epoch db1 /\ il_total l = T0 /\
    layout_ok (st_rows db)
      (if is_ok (validate_coverage (restored (st_rows db)) T0) then T0 else total) l.
Proof.
  intros Hn Hok Hlt db1 Hdb1 Hlog. unfold check_layout. cbn [il_segments il_total].
  destruct (validate_coverage (restored (st_rows db)) T0) as [[]|err] eqn:Ev; cbn [is_ok].
  - eexists. split; [done|]. split; [done|]. split; [done|]. by apply restored_layout_ok.
  - destruct (rebuild_layout_ok (st_rows db) scope n total T0
      (mkLayout (restored (st_rows db)) nx T0 db1 log) Hn Hlog) as (l' & -> & Hl' & HT & He).
    by exists l'.
Qed.

(** A task without rows. *)
Lemma start_fresh scope est n total db :
  0 < n <= total -> st_rows db = [] ->
  exists l, load_layout scope est n total db = Some l /\ st_epoch (il_db l) = st_epoch db /\
    il_total l = total /\ layout_ok (st_rows db) total l.
Proof.
  intros Hn Hrows. unfold load_layout, load_segments. rewrite Hrows.
  set (pc := if est then 1 else n).
  assert (Hpc : 0 < pc <= total) by (unfold pc; destruct est; lia).
  destruct (insert_fresh pc total Hpc) as (rows & Hi & Hm & Hrok & Hz).
  destruct (build_fresh_segments pc total) as [fresh segs] eqn:E. cbn [fst snd] in *.
  unfold db_insert_segments. rewrite Hrows, Hi. csimpl.
  replace fresh with (build_fresh_segments pc total).1 in * by (by rewrite E).
  eexists. split; [done|]. split; [done|]. split; [done|].
  eapply fresh_layout_ok; [done..|]. intros d Hd%list_elem_of_singleton. subst d. by right; right.
Qed.

(** A task with rows. *)
Lemma start_restored scope est n total db :
  0 < n <= total -> rows_ok (st_rows db) -> st_rows db <> [] ->
  exists l0 l, load_layout scope est n total db = Some l0 /\ check_layout scope n total l0 = Some l /\
    st_epoch (il_db l) = st_epoch db /\
    layout_ok (st_rows db) (if drift_rebuilt scope total (st_rows db) then total else il_total l) l.
Proof.
  intros Hn Hok Hne. destruct (drift_rebuilt_spec scope total (st_rows db) Hne) as [Hdrift Hnodrift].
  destruct (restore_segments_spec _ Hok) as (nx & Hrest & Hlt).
  unfold load_layout, load_segments. destruct (st_rows db) as [|row0 rows0] eqn:Erows; [done|].
  rewrite <- Erows in *. rewrite Hrest. clear Hrest.
  set (dbt := db_total_of (restored (st_rows db)) total) in *. unfold drift_cond in *.
  pose proof (fun T0 log => check_restored scope n total nx T0 db log Hn Hok Hlt) as Hcheck.
  assert (Hnil : forall d : Store, d ∈ [] -> st_rows d = [] \/ st_rows d = st_rows db)
    by (by intros d ?%elem_of_nil).
  destruct (Z.eqb_spec dbt total) as [Heq|Hneq]; [|destruct (Z.ltb_spec dbt total) as [Hless|Hge];
    [destruct (Z.leb_spec (total - dbt) (growth_threshold (strict_total scope) dbt)) as [Hdr|Hgrow]|]].
  - destruct (Hcheck dbt [] db eq_refl Hnil) as (l & Hl1 & He & HT & Hl).
    eexists _, l. split; [done|]. split; [exact Hl1|]. split; [done|].
    rewrite Hnodrift, HT by lia.
    by destruct (is_ok (validate_coverage (restored (st_rows db)) dbt)); [|rewrite Heq].
  - set (db1 := if owns_task_total scope then update_task_total_bytes dbt db else db).
    assert (Hdb1 : st_rows db1 = st_rows db /\ st_epoch db1 = st_epoch db)
      by (unfold db1; by destruct (owns_task_total scope)).
    destruct (Hcheck dbt [db1] db1 (proj1 Hdb1)) as (l & Hl1 & He & HT & Hl).
    { intros d Hd%list_elem_of_singleton. subst d. right. by apply Hdb1. }
    eexists _, l. split; [done|]. split; [exact Hl1|]. split; [rewrite He; by apply Hdb1|].
    rewrite (Hdrift (conj Hless Hdr)), HT.
    by destruct (is_ok (validate_coverage (restored (st_rows db)) dbt)).
  - destruct (rebuild_layout_ok (st_rows db) scope n total total
      (mkLayout (restored (st_rows db)) nx total db []) Hn Hnil) as (l' & Hr & Hl' & HT & He).
    exists l', l'. split; [done|]. split; [apply (check_layout_pass (st_rows db)); (done || lia)|].
    split; [done|]. by rewrite Hnodrift, HT by lia.
  - destruct (Hcheck total [] db eq_refl Hnil) as (l & Hl1 & He & HT & Hl).
    eexists _, l. split; [done|]. split; [exact Hl1|]. split; [done|].
    rewrite Hnodrift, HT by lia. by destruct (is_ok (validate_coverage (restored (st_rows db)) total)).
Qed.

Lemma initial_layout_ok scope est count total gen file_len db :
  0 < total -> 1 <= count -> rows_ok (st_rows db) ->
  exists l, initial_layout scope est count total gen file_len db = Some l /\
    st_epoch (il_db l) = gen /\
    layout_ok (st_rows db) (if drift_rebuilt scope total (st_rows db) then total else il_total l) l.
Proof.
  intros Ht Hc Hok. unfold initial_layout.
  destruct (Z.leb_spec total 0); [lia|]. destruct (Z.ltb_spec count 1); [lia|]. cbn [orb].
  set (n := clamp_count count total).
  assert (Hn : 0 < n <= total) by (unfold n, clamp_count; destruct (Z.ltb_spec total count); lia).
  assert (Hst : exists l0 l, load_layout scope est n total (set_segments_epoch gen db) = Some l0 /\
    check_layout scope n total l0 = Some l /\ st_epoch (il_db l) = gen /\
    layout_ok (st_rows db) (if drift_rebuilt scope total (st_rows db) then total else il_total l) l).
  { destruct (decide (st_rows db = [])) as [Hnil|Hne].
    - destruct (start_fresh scope est n total (set_segments_epoch gen db) Hn Hnil)
        as (l & Hl & He & HT & Hlo).
      exists l, l. split; [done|]. split; [by eapply check_layout_pass|]. split; [done|].
      unfold drift_rebuilt. rewrite Hnil, HT. by rewrite <- Hnil.
    - by apply (start_restored scope est n total (set_segments_epoch gen db)). }
  destruct Hst as (l0 & l & -> & -> & He & Hl).
  destruct (check_file_ok _ _ file_len _ Hl) as (H1 & H2 & H3).
  eexists. split; [done|]. split; [by rewrite H3|by rewrite H2].
Qed.

(** ** Theorems *)

(** C4. Start-up always yields a layout, owned by the new spawn: the map
    partitions the file, the rows mirror it, every kept watermark is one the
    rows had for the same start and everything else starts from zero, a
    segment is complete exactly when its watermark reaches its size, and a
    crash after any of the commits leaves no rows, the old rows, or the rows
    of a covering layout.  [effective_total_bytes] is the size covered, except
    in the [drift_rebuilt] case. *)
Theorem initial_layout_correct scope est count total gen file_len db :
  0 < total -> 1 <= count -> rows_ok (st_rows db) ->
  exists l, initial_layout scope est count total gen file_len db = Some l /\
    st_epoch (il_db l) = gen /\
    layout_ok (st_rows db) (if drift_rebuilt scope total (st_rows db) then total else il_total l) l.
Proof. apply initial_layout_ok. Qed.

Definition saved_rows : rowmap := [(0, mkRow 0 499 500); (1, mkRow 500 999 20)].

Lemma saved_rows_ok : rows_ok saved_rows.
Proof.
  split.
  - unfold bt_sorted. apply sorted_b_sound. reflexivity.
  - intros k r. unfold saved_rows. rewrite !elem_of_cons.
    intros [[= -> ->]|[[= -> ->]|[]%elem_of_nil]]; unfold row_size; simpl; lia.
Qed.

Lemma initial_layout_correct_witness :
  exists l, initial_layout (mkScope true false) false 8 1000 7 1000 (mkStore saved_rows 3 1000 520) = Some l /\
    st_epoch (il_db l) = 7 /\ seg_inv 1000 2 (il_segments l).
Proof.
  destruct (initial_layout_correct (mkScope true false) false 8 1000 7 1000
    (mkStore saved_rows 3 1000 520)) as (l & Hl & He & Hok); [lia|lia|apply saved_rows_ok|].
  exists l. split; [done|]. split; [done|].
  assert (il_next l = 2 /\ il_total l = 1000) as [H1 H2]
    by (vm_compute in Hl; injection Hl as <-; done).
  destruct Hok as [_ Hinv _ _ _ _ _]. by rewrite H1, H2 in Hinv.
Defined.

(** The exception is real: with a gap in the rows and a server reporting
    one byte more than they span, the layout is rebuilt for the reported size
    while the effective total keeps the old one, so the final coverage check
    rejects even a fully downloaded file. *)
Theorem drift_rebuild_inconsistent :
  exists l, initial_layout (mkScope true false) false 2 10000 7 0
      (mkStore [(0, mkRow 0 4999 0); (1, mkRow 5001 9998 0)] 3 9999 0) = Some l /\
    il_total l = 9999 /\ validate_coverage (il_segments l) 10000 = Ok tt /\
    is_ok (validate_coverage (il_segments l) (il_total l)) = false.
Proof. eexists. split; [vm_compute; reflexivity|]. vm_compute. done. Qed.
