(* ===== verification/Coordinator.v ===== *)
(** * Coordinator: the event handlers of a segmented download
      ([run_coordinated_download], its event loop).

    One handler per event that changes the segment layout: a worker finished,
    was preempted or failed, the server revealed a larger file, the proactive
    timer fired, the progress table is flushed.  The outcome of every call
    that leaves the process (a database transaction, a send to a worker, the
    preallocation) is an argument of the handler. *)
From S2P Require Import Prelude F64 BTreeMap PathScheduler Segments SegmentStore SharedState Resume.

Record Coord := mkCoord {
  c_segments : segmap;
  c_next : Z;
  c_states : list SegmentProgressInfo;
  c_total : Z;
  c_expansions : Z;
  c_open : option Z;
  c_hostile : bool;
  c_serial : bool;
  c_db : Store;
  c_table : list (Z * Z);   (** [durable_progress] *)
  c_epoch : Z;              (** [spawn_gen] *)
}.

(** Where a handler leaves the loop: still running, every segment completed,
    or stopped with an error. *)
Inductive outcome := Running (c : Coord) | Finished (c : Coord) | Broken (c : Coord).

Definition out_coord (o : outcome) : Coord :=
  match o with Running c | Finished c | Broken c => c end.

Definition with_layout (c : Coord) (m : segmap) (next : Z) (states : list SegmentProgressInfo)
    (db : Store) : Coord :=
  mkCoord m next states (c_total c) (c_expansions c) (c_open c) (c_hostile c) (c_serial c) db
    (c_table c) (c_epoch c).

Definition with_open (c : Coord) (o : option Z) : Coord :=
  mkCoord (c_segments c) (c_next c) (c_states c) (c_total c) (c_expansions c) o (c_hostile c)
    (c_serial c) (c_db c) (c_table c) (c_epoch c).

Definition clear_open (c : Coord) (seg_index : Z) : Coord :=
  if bool_decide (c_open c = Some seg_index) then with_open c None else c.

Definition with_segments (c : Coord) (m : segmap) : Coord :=
  with_layout c m (c_next c) (c_states c) (c_db c).

Definition MAX_SIZE_EXPANSIONS : Z := 3.

(** ** The pieces of the handlers *)

(** The [Done] handler's change of the map: a worker that stopped short of
    its segment leaves the rest as a new pending segment. *)
Definition finish_segment (m : segmap) (next seg_index downloaded : Z)
    : segmap * Z * option Z :=
  match bt_get seg_index m with
  | None => (m, next, None)
  | Some seg =>
      if (0 <? downloaded) && (downloaded <? size seg) then
        let rem_start := start_byte seg + downloaded in
        let rem_end := end_byte seg in
        let m := bt_alter (fun s => set_state Completed (set_downloaded downloaded
                                      (set_end (rem_start - 1) s))) seg_index m in
        (bt_insert next (mkSeg next rem_start rem_end 0 Pending None) m, next + 1, Some next)
      else
        (bt_alter (fun s => set_state Completed (set_downloaded (Z.min downloaded (size s)) s))
           seg_index m, next, None)
  end.

(** What the handlers look up to choose the next work. *)
Record WorkEnv := mkWorkEnv {
  over_quota : bool;       (** more live workers than [allowed_workers] *)
  min_split_bytes : Z;     (** [current_min_split] *)
  split_cost : SplitCost;
}.

Definition choose_work (env : WorkEnv) (c : Coord) : option (segmap * Z * NextWork) :=
  if c_serial c then
    if existsb (is_state Active) (bt_values (c_segments c)) then None
    else
      let* (m, nw) := find_next_pending_only (c_segments c) in
      Some (m, c_next c, nw)
  else if over_quota env then None
  else find_next_work (c_segments c) (c_next c) (min_split_bytes env) (split_cost env).

(** The choice while the server's range support is not confirmed: only an
    untouched segment at offset 0 is sent again, without a range. *)
Definition choose_unverified (c : Coord) : option (segmap * Z * NextWork) :=
  match find_next_pending_only (c_segments c) with
  | Some (m, nw) =>
      let a := assignment nw in
      if actual_start a =? 0 then
        Some (m, c_next c,
              mkNextWork (mkAssignment (seg_index a) (seg_start a) (actual_start a) (seg_end a) true true)
                (split_parent nw))
      else None
  | None => None
  end.

(** The map after a refused choice: the segment is put back. *)
Definition unverified_put_back (c : Coord) : segmap :=
  match find_next_pending_only (c_segments c) with
  | Some (m, nw) =>
      if actual_start (assignment nw) =? 0 then c_segments c
      else bt_alter (set_state Pending) (seg_index (assignment nw)) m
  | None => c_segments c
  end.

(** What the dispatch of an assignment met. *)
Record SendEnv := mkSendEnv {
  persist_ok : bool;   (** the split transaction committed *)
  send_ok : bool;      (** the worker took the assignment *)
}.

(** Persist, rebuild the shared vector, send; a dead worker's segment is
    reclaimed. *)
Definition dispatch (env : SendEnv) (c : Coord) (work : option (segmap * Z * NextWork)) : outcome :=
  match work with
  | None => Running c
  | Some (m, next, nw) =>
      let idx := seg_index (assignment nw) in
      match persist_segment_change (persist_ok env) (c_db c) m idx (split_parent nw) with
      | Err _ => Broken (with_layout c m next (c_states c) (c_db c))
      | Ok db =>
          let states := rebuild_seg_states m (c_states c) in
          let m := if send_ok env then m else bt_alter (set_state Pending) idx m in
          let c := with_layout c m next states db in
          Running (if send_ok env && open_ended (assignment nw) then with_open c (Some idx) else c)
      end
  end.

(** [if all_done(&segments) { ... break }]. *)
Definition check_done (o : outcome) : outcome :=
  match o with
  | Running c => if all_done (c_segments c) then Finished c else Running c
  | _ => o
  end.

(** ** The handlers *)

(** [WorkerEvent::Done]. *)
Definition on_done (short_persist_ok : bool) (wenv : WorkEnv) (senv : SendEnv)
    (seg_index downloaded : Z) (c : Coord) : outcome :=
  let c := clear_open c seg_index in
  let '(m, next, child) := finish_segment (c_segments c) (c_next c) seg_index downloaded in
  let c1 := with_layout c m next (c_states c) (c_db c) in
  let persisted :=
    match child with
    | None => Ok c1
    | Some child_idx =>
        match persist_segment_change short_persist_ok (c_db c) m child_idx (Some seg_index) with
        | Err e => Err e
        | Ok db => Ok (with_layout c1 m next (rebuild_seg_states m (c_states c)) db)
        end
    end in
  match persisted with
  | Err _ => Broken c1
  | Ok c =>
      let c := with_segments c (sync_downloaded_from_shared (c_segments c) (c_states c)) in
      check_done (dispatch senv c (choose_work wenv c))
  end.

(** A segment returns to the queue with the progress its worker reported. *)
Definition requeue (seg_index : Z) (c : Coord) : Coord :=
  let m := sync_downloaded_from_shared (c_segments c) (c_states c) in
  with_segments c
    (bt_alter (fun s => let s := set_rate None s in
                        set_state (if remaining s =? 0 then Completed else Pending) s) seg_index m).

(** [WorkerEvent::Preempted]. *)
Definition on_preempted (wenv : WorkEnv) (senv : SendEnv) (seg_index : Z) (c : Coord) : outcome :=
  let c := requeue seg_index c in
  if all_done (c_segments c) then Finished c else dispatch senv c (choose_work wenv c).

(** [WorkerEvent::Failed], a transient failure isolated to one segment. *)
Definition on_transient_failure (seg_index : Z) (c : Coord) : outcome :=
  let c := requeue seg_index (clear_open c seg_index) in
  if all_done (c_segments c) then Finished c else Running c.

(** [WorkerEvent::Failed], the failed segment returned as it is: a failed CDN
    node, a revival after a 429. *)
Definition reclaim (seg_index : Z) (c : Coord) : Coord :=
  with_segments (clear_open c seg_index)
    (bt_alter (set_state Pending) seg_index (c_segments c)).

(** The redispatch after a failure that keeps the worker alive. *)
Definition redispatch (verdict_ok : bool) (wenv : WorkEnv) (senv : SendEnv) (c : Coord) : outcome :=
  if verdict_ok then dispatch senv c (choose_work (mkWorkEnv false (min_split_bytes wenv) (split_cost wenv)) c)
  else
    match choose_unverified c with
    | Some work => dispatch senv c (Some work)
    | None => Running (with_segments c (unverified_put_back c))
    end.

Definition on_node_failed (verdict_ok : bool) (wenv : WorkEnv) (senv : SendEnv) (seg_index : Z)
    (c : Coord) : outcome :=
  redispatch verdict_ok wenv senv (reclaim seg_index c).

(** Growing the layout to the size the server reports. *)
Definition append_tail (reported : Z) (c : Coord) : Coord :=
  let tail_idx := c_next c in
  let m := bt_insert tail_idx (mkSeg tail_idx (c_total c) (reported - 1) 0 Pending None) (c_segments c) in
  mkCoord m (tail_idx + 1) (c_states c) reported (c_expansions c + 1) (c_open c) (c_hostile c)
    (c_serial c) (c_db c) (c_table c) (c_epoch c).

(** [DownloadError::TrueSizeLarger]. *)
Definition on_true_size_larger (owns_total prealloc_ok upsert_ok total_ok verdict_ok : bool)
    (wenv : WorkEnv) (senv : SendEnv) (seg_index reported : Z) (c : Coord) : outcome :=
  let c := clear_open c seg_index in
  if c_total c <? reported then
    if (MAX_SIZE_EXPANSIONS <=? c_expansions c) || negb prealloc_ok
    then Broken (reclaim seg_index c)
    else
      let grown := append_tail reported c in
      if negb upsert_ok then Broken grown
      else
        let db := upsert_segment (c_next c) (c_total c) (reported - 1) 0 (c_db c) in
        let db_total := if owns_total && total_ok then update_task_total_bytes reported db else db in
        let grown := with_layout grown (c_segments grown) (c_next grown) (c_states grown) db_total in
        if owns_total && negb total_ok then Broken grown
        else
          let grown := with_layout grown (c_segments grown) (c_next grown)
                         (rebuild_seg_states (c_segments grown) (c_states grown)) db_total in
          redispatch verdict_ok wenv senv (reclaim seg_index grown)
  else redispatch verdict_ok wenv senv (reclaim seg_index c).

(** [WorkerEvent::Failed], a rejected connection: the segment is returned, the
    worker retires and the open stream takes over what follows it.  [None]
    when the absorption does not return. *)
Definition on_rejected (to_serial merge_ok : bool) (seg_index : Z) (c : Coord) : option Coord :=
  let c := reclaim seg_index c in
  let* r := absorb_pending_into_open_stream merge_ok (c_db c) (c_segments c) (c_states c) (c_open c)
              (c_hostile c) in
  Some (mkCoord (ab_segments r) (c_next c) (ab_states r) (c_total c) (c_expansions c) (c_open c)
          (ab_hostile r) (c_serial c || to_serial) (ab_db r) (c_table c) (c_epoch c)).

(** A worker added by the ramp (or the single one after a revival): the view
    of the active segments is refreshed, then it is given work. *)
Definition on_spawn (wenv : WorkEnv) (senv : SendEnv) (c : Coord) : outcome :=
  let c := with_segments c (sync_downloaded_from_shared (c_segments c) (c_states c)) in
  dispatch senv c (find_next_work (c_segments c) (c_next c) (min_split_bytes wenv) (split_cost wenv)).

(** The proactive timer: a split persisted ahead of need, at the normal
    threshold or, for a straggler, at the tail threshold. *)
Definition proactive_split (m : segmap) (next min_split : Z) (cost : SplitCost)
    : option (segmap * Z * NextWork) :=
  match try_proactive_split m next min_split cost with
  | Some work => Some work
  | None =>
      if (TAIL_MIN_SPLIT_BYTES <? min_split) && (2 * TAIL_MIN_SPLIT_BYTES <=? max_active_remaining m)
      then try_proactive_split m next TAIL_MIN_SPLIT_BYTES cost
      else None
  end.

Definition on_proactive_tick (split_ok conn_sensitive range_ok : bool) (min_split : Z) (cost : SplitCost)
    (c : Coord) : outcome :=
  if negb (c_serial c) && negb conn_sensitive && range_ok && negb (all_done (c_segments c)) then
    let m := sync_downloaded_from_shared (c_segments c) (c_states c) in
    match proactive_split m (c_next c) min_split cost with
    | None => Running (with_segments c m)
    | Some (m, next, nw) =>
        match persist_segment_change split_ok (c_db c) m (seg_index (assignment nw)) (split_parent nw) with
        | Err _ => Broken (with_layout c m next (c_states c) (c_db c))
        | Ok db => Running (with_layout c m next (rebuild_seg_states m (c_states c)) db)
        end
    end
  else Running c.

(** The flush timer: the table is drained whether or not the batch commits. *)
Definition on_flush (batch_ok : bool) (c : Coord) : Coord :=
  let '(rows, table) := take_durable_progress_rows (c_table c) (c_segments c) in
  let db := if batch_ok then update_segments_progress_batch (c_epoch c) rows (c_db c) else c_db c in
  mkCoord (c_segments c) (c_next c) (c_states c) (c_total c) (c_expansions c) (c_open c)
    (c_hostile c) (c_serial c) db table (c_epoch c).

(** The check before success is reported. *)
Definition final_verification (c : Coord) : result unit CoverageError :=
  let m := sync_downloaded_from_shared (c_segments c) (c_states c) in
  let seg_total := sum_list_with_Z downloaded_bytes (bt_values m) in
  if seg_total <? c_total c then Err (TotalCoverage seg_total (c_total c))
  else validate_coverage m (c_total c).

(** ** Starting up *)

(** The first assignments: every pending segment; the one at offset 0 without
    progress is requested open-ended, and without a range when the size is
    an estimate. *)
Definition initial_assignments (size_is_estimate : bool) (m : segmap) : list WorkerAssignment :=
  (fun s =>
     let from_zero := start_byte s + downloaded_bytes s =? 0 in
     mkAssignment (index s) (start_byte s) (start_byte s + downloaded_bytes s) (end_byte s)
       from_zero (size_is_estimate && from_zero))
    <$> List.filter (is_state Pending) (bt_values m).

(** One worker started with one assignment; [sent]: it took it. *)
Definition start_worker (c : Coord) (e : bool * WorkerAssignment) : Coord :=
  let '(sent, a) := e in
  let m := bt_alter (set_state Active) (seg_index a) (c_segments c) in
  let m := if sent then m else bt_alter (set_state Pending) (seg_index a) m in
  let c := with_segments c m in
  if open_ended a then with_open c (Some (seg_index a)) else c.

(** The number of workers opened at once: a lone one when the segment at
    offset 0 is untouched. *)
Definition initial_workers (m : segmap) (allowed : Z) : Z :=
  let pending := Z.of_nat (length (List.filter (is_state Pending) (bt_values m))) in
  if existsb (fun s => is_state Pending s && (start_byte s + downloaded_bytes s =? 0)) (bt_values m)
  then Z.min (Z.min pending allowed) 1
  else Z.min pending allowed.

(** The coordinator a layout starts; [sends]: how the hand-overs went. *)
Definition start_coord (size_is_estimate : bool) (sends : list bool) (allowed gen : Z) (l : Layout) : outcome :=
  let c := mkCoord (il_segments l) (il_next l) (build_seg_state_vec (il_segments l)) (il_total l) 0 None
             false false (il_db l) [] gen in
  let n := Z.to_nat (initial_workers (il_segments l) allowed) in
  check_done (Running (foldl start_worker c
    (zip sends (take n (initial_assignments size_is_estimate (il_segments l)))))).
