(* ===== verification/CoordInv.v ===== *)
(** * CoordInv: the invariant of the coordinator and its reachable states.

    [Coordinator] has the handlers; here a world adds what the workers did to
    the file: the bytes written, and the bytes made durable by a sync.  The
    step relation interleaves the events of the workers with the handlers, in
    any order and with any outcome of the outside calls; the invariant ties
    the map, the shared vector, the table of watermarks and the database rows
    to the bytes of the file. *)
From S2P Require Import Prelude F64 BTreeMap PathScheduler Segments SegmentStore SharedState Resume Coordinator.

(** [n] bytes from [start] are in [P]. *)
Definition claims (P : Z -> Prop) (start n : Z) : Prop := forall b, start <= b < start + n -> P b.

Record coord_inv (W D : Z -> Prop) (c : Coord) : Prop := mkCoordInv {
  ci_seg : seg_inv (c_total c) (c_next c) (c_segments c);
  ci_total : 0 < c_total c;
  ci_mirror : mirrors (st_rows (c_db c)) (c_segments c);
  ci_rows : rows_ok (st_rows (c_db c));
  ci_epoch : st_epoch (c_db c) = c_epoch c;
  ci_row_claims : forall k r, (k, r) ∈ st_rows (c_db c) -> claims D (r_start r) (r_downloaded r);
  ci_claims : forall k s, (k, s) ∈ c_segments c -> claims W (start_byte s) (downloaded_bytes s);
  ci_done : forall k s, (k, s) ∈ c_segments c -> state s = Completed -> size s <= downloaded_bytes s;
  ci_nodup : NoDup (i_index <$> c_states c);
  ci_states : forall i, i ∈ c_states c -> 0 <= i_downloaded_bytes i /\ i_index i < c_next c /\
    forall s, (i_index i, s) ∈ c_segments c -> claims W (start_byte s) (i_downloaded_bytes i);
  ci_table : forall k d, (k, d) ∈ c_table c -> k < c_next c /\
    forall s, (k, s) ∈ c_segments c -> claims D (start_byte s) d;
  ci_durable : forall b, D b -> W b;
}.

Lemma claims_mono (P Q : Z -> Prop) start n :
  (forall b, P b -> Q b) -> claims P start n -> claims Q start n.
Proof. unfold claims. auto. Qed.

Lemma claims_zero P start n : n <= 0 -> claims P start n.
Proof. intros ? b ?. lia. Qed.

Lemma claims_le P start n n' : n' <= n -> claims P start n -> claims P start n'.
Proof. intros ? H b ?. apply H. lia. Qed.

(** More bytes written, more bytes durable. *)
Lemma inv_mono (W D W' D' : Z -> Prop) c :
  (forall b, W b -> W' b) -> (forall b, D b -> D' b) -> (forall b, D' b -> W' b) ->
  coord_inv W D c -> coord_inv W' D' c.
Proof.
  intros HW HD HDW []. split; try done.
  - intros k r Hin. by eapply claims_mono, ci_row_claims0.
  - intros k s Hin. by eapply claims_mono, ci_claims0.
  - intros i Hin. destruct (ci_states0 i Hin) as (? & ? & H). repeat split; [done..|].
    intros s Hs. by eapply claims_mono, H.
  - intros k d Hin. destruct (ci_table0 k d Hin) as (? & H). split; [done|].
    intros s Hs. by eapply claims_mono, H.
Qed.

(** What an assignment to one segment may do. *)
Definition good_update (W : Z -> Prop) (s s' : LiveSegment) : Prop :=
  index s' = index s /\ start_byte s' = start_byte s /\ end_byte s' = end_byte s /\
  0 <= downloaded_bytes s' /\ claims W (start_byte s) (downloaded_bytes s') /\
  (state s' = Completed -> size s <= downloaded_bytes s').

Lemma inv_alter W D c f k :
  coord_inv W D c ->
  (forall s, (k, s) ∈ c_segments c -> good_update W s (f s)) ->
  coord_inv W D (with_segments c (bt_alter f k (c_segments c))).
Proof.
  intros [] Hf.
  assert (Hel : forall x s, (x, s) ∈ bt_alter f k (c_segments c) ->
    exists s0, (x, s0) ∈ c_segments c /\ (s = s0 \/ good_update W s0 s)).
  { intros x s (s0 & Hin & [->|[-> ->]])%bt_elem_alter_gen; exists s0; [by split; [|left]|].
    split; [done|right; by apply Hf]. }
  split; cbn [with_segments with_layout c_segments c_next c_states c_total c_db c_table c_epoch]; try done.
  - apply seg_inv_alter; [done|]. intros s Hg. apply bt_get_elem in Hg.
    destruct (Hf s Hg) as (? & ? & ? & ? & _). done.
  - clear Hel. revert ci_mirror0 Hf. generalize (st_rows (c_db c)), (c_segments c). clear.
    intros rows m H Hf. induction H as [|[k1 r] [k2 s] rows m [? Hr] HF IH]; simpl in *; [constructor|].
    subst k2. destruct (Z.eqb_spec k k1) as [->|].
    + apply mirrors_cons; [done| |done]. destruct (Hf s ltac:(left)) as (_ & ? & ? & _).
      destruct Hr. split; congruence.
    + apply mirrors_cons; [done..|]. apply IH. intros s' ?. apply Hf. by right.
  - intros x s (s0 & Hin & [->|(_ & -> & _ & _ & H & _)])%Hel; [by eapply ci_claims0|done].
  - intros x s (s0 & Hin & [->|(_ & Hst & He & _ & _ & H)])%Hel Hc; [by eapply ci_done0|].
    unfold size. rewrite Hst, He. apply H, Hc.
  - intros i Hi. destruct (ci_states0 i Hi) as (? & ? & H). repeat split; [done..|].
    intros s (s0 & Hin & [->|(_ & -> & _)])%Hel; by apply H.
  - intros x d Hx. destruct (ci_table0 x d Hx) as (? & H). split; [done|].
    intros s (s0 & Hin & [->|(_ & -> & _)])%Hel; by apply H.
Qed.

(** The vector may be replaced by any vector with true entries. *)
Lemma inv_states_replace W D c states :
  coord_inv W D c -> NoDup (i_index <$> states) ->
  (forall i, i ∈ states -> 0 <= i_downloaded_bytes i /\ i_index i < c_next c /\
    forall s, (i_index i, s) ∈ c_segments c -> claims W (start_byte s) (i_downloaded_bytes i)) ->
  coord_inv W D (with_layout c (c_segments c) (c_next c) states (c_db c)).
Proof. intros [] Hnd Hst. by split. Qed.

Lemma inv_rebuild W D c :
  coord_inv W D c ->
  coord_inv W D (with_layout c (c_segments c) (c_next c)
                   (rebuild_seg_states (c_segments c) (c_states c)) (c_db c)).
Proof.
  intros Hc. pose proof Hc as []. apply inv_states_replace; [done|..].
  - rewrite rebuild_indices, (seg_inv_indices _ _ _ ci_seg0). apply sorted_NoDup, ci_seg0.
  - intros i Hi. unfold rebuild_seg_states, build_seg_state_vec in Hi.
    apply list_elem_of_fmap in Hi as (i0 & -> & Hi). cbn [i_downloaded_bytes i_index].
    apply list_elem_of_fmap in Hi as (s & -> & Hs). cbn [info_of i_downloaded_bytes i_index].
    pose proof (bt_value_get _ _ _ _ ci_seg0 Hs) as Hg. apply bt_get_elem in Hg.
    assert (Hs' : forall s', (index s, s') ∈ c_segments c -> s' = s).
    { intros s' Hin. apply (bt_elem_get _ _ _ (inv_sorted _ _ _ ci_seg0)) in Hin.
      apply (bt_elem_get _ _ _ (inv_sorted _ _ _ ci_seg0)) in Hg. congruence. }
    destruct (existing_downloaded_lookup (c_states c) (index s) ci_nodup0) as [H1 H2].
    destruct (decide (Exists (fun i => i_index i = index s) (c_states c))) as [Hex|Hnex].
    + apply Exists_exists in Hex as (old & Hold & Heq). rewrite (H1 old Hold Heq). cbn.
      destruct (ci_states0 old Hold) as (? & ? & H3). rewrite Heq in *.
      split; [done|]. split; [done|]. intros s' Hin%Hs'. subst s'. by apply H3.
    + rewrite H2; [|intros old Hold Heq; apply Hnex, Exists_exists; eauto]. cbn.
      split; [by eapply inv_downloaded|]. split; [by eapply inv_next|].
      intros s' ->%Hs'. by eapply ci_claims0.
Qed.

(** Reading the vector back into the map. *)
Lemma inv_sync W D c :
  coord_inv W D c ->
  coord_inv W D (with_segments c (sync_downloaded_from_shared (c_segments c) (c_states c))).
Proof.
  intros Hc.
  assert (H : forall l m, (forall i, i ∈ l -> i ∈ c_states c) ->
    coord_inv W D (with_segments c m) ->
    coord_inv W D (with_segments c (sync_downloaded_from_shared m l))).
  { induction l as [|i l IH]; intros m Hl Hm; simpl; [done|].
    apply IH; [set_solver|].
    apply (inv_alter W D (with_segments c m)
      (fun s => if is_state Active s then set_downloaded (i_downloaded_bytes i) s else s) (i_index i));
      [done|]. intros s Hs. cbn in Hs.
    destruct (ci_states _ _ _ Hm i (Hl i ltac:(left))) as (? & ? & Hcl).
    destruct (is_state Active s) eqn:E.
    - apply is_state_true in E. repeat split; [done|by apply Hcl|].
      cbn [set_downloaded state]. congruence.
    - repeat split; [by eapply inv_downloaded; [apply Hm|]|by eapply (ci_claims _ _ _ Hm)|].
      by eapply (ci_done _ _ _ Hm). }
  apply H; [done|]. by destruct c.
Qed.

(** Writing rows that only claim durable bytes. *)
Lemma inv_db W D c db :
  coord_inv W D c -> mirrors (st_rows db) (c_segments c) -> rows_ok (st_rows db) ->
  st_epoch db = c_epoch c ->
  (forall k r, (k, r) ∈ st_rows db -> claims D (r_start r) (r_downloaded r)) ->
  coord_inv W D (with_layout c (c_segments c) (c_next c) (c_states c) db).
Proof. intros [] ? ? ? ?. by split. Qed.

Lemma rows_ok_alter rows k f :
  rows_ok rows ->
  (forall r, (k, r) ∈ rows -> r_start (f r) <= r_end (f r) /\ 0 <= r_downloaded (f r)) ->
  rows_ok (bt_alter f k rows).
Proof.
  intros [Hs Hr] Hf. split; [by apply bt_alter_sorted|].
  intros x r (r0 & Hin & [->|[-> ->]])%bt_elem_alter_gen; [by eapply Hr|by apply Hf].
Qed.

Lemma rows_ok_insert rows k r :
  rows_ok rows -> r_start r <= r_end r /\ 0 <= r_downloaded r ->
  rows_ok (bt_insert k r rows).
Proof.
  intros [Hs Hr] Hf. split; [by apply bt_insert_sorted|].
  intros x r' [[= -> ->]|Hin]%bt_insert_keys; [done|by eapply Hr].
Qed.

Lemma inv_fresh_rows W D c : coord_inv W D c -> bt_get (c_next c) (st_rows (c_db c)) = None.
Proof.
  intros Hc. pose proof (mirrors_get _ _ (c_next c) (ci_mirror _ _ _ Hc)) as H.
  destruct (bt_get (c_next c) (st_rows (c_db c))) as [r|]; [|done].
  destruct (bt_get (c_next c) (c_segments c)) as [s|] eqn:E; [|done].
  apply bt_get_elem, (inv_next _ _ _ (ci_seg _ _ _ Hc)) in E. lia.
Qed.

(** ** Splits *)

Lemma bt_remove_fresh_get {V} k (m : list (Z * V)) : bt_get k m = None -> bt_remove k m = m.
Proof. apply bt_remove_fresh. Qed.

(** What the split transaction leaves in the store. *)
Lemma persist_split_rows W D c k p sp :
  coord_inv W D c -> bt_get k (c_segments c) = Some p -> start_byte p < sp <= end_byte p ->
  let db := persist_split (c_next c) sp (end_byte p) 0 k (sp - 1) (c_db c) in
  let m := bt_insert (c_next c) (mkSeg (c_next c) sp (end_byte p) 0 Pending None)
             (bt_alter (set_end (sp - 1)) k (c_segments c)) in
  mirrors (st_rows db) m /\ rows_ok (st_rows db) /\ st_epoch db = c_epoch c /\
  (forall x r, (x, r) ∈ st_rows db -> claims D (r_start r) (r_downloaded r)).
Proof.
  intros Hc Hg Hsp db m. pose proof Hc as [].
  assert (Hk : k <> c_next c).
  { apply bt_get_elem, (inv_next _ _ _ ci_seg0) in Hg. lia. }
  unfold db, persist_split. cbn [with_rows st_rows st_epoch].
  rewrite bt_remove_fresh_get by (by eapply inv_fresh_rows).
  assert (Hins : rows_ok (bt_insert (c_next c) (mkRow sp (end_byte p) 0) (st_rows (c_db c))))
    by (apply rows_ok_insert; [done|simpl; lia]).
  split; [|split; [|split; [done|]]].
  - unfold m. rewrite <- bt_alter_insert by done.
    apply mirrors_alter; [|by intros r s [? ?]]. apply mirrors_insert; done.
  - apply rows_ok_alter; [done|]. intros r Hr. simpl.
    destruct Hins as [Hs Hok]. pose proof (Hok _ _ Hr) as [? ?]. split; [|done].
    pose proof (mirrors_get _ _ k ci_mirror0) as Hmg. rewrite Hg in Hmg.
    apply (bt_elem_get _ _ _ Hs) in Hr.
    rewrite bt_get_insert in Hr by apply ci_rows0. destruct (Z.eqb_spec k (c_next c)); [done|].
    rewrite Hr in Hmg. destruct Hmg as [-> _]. lia.
  - intros x r (r0 & Hin & [->|[-> ->]])%bt_elem_alter_gen;
      apply bt_insert_keys in Hin as [[= -> ->]|Hin]; try (by apply claims_zero);
      apply (ci_row_claims0 _ _ Hin).
Qed.

(** A split of the map and of the rows, with the vector still the old one. *)
Lemma inv_split W D c k p sp st :
  coord_inv W D c -> bt_get k (c_segments c) = Some p -> state p <> Completed ->
  st <> Completed -> start_byte p < sp <= end_byte p ->
  coord_inv W D
    (with_layout c
      (bt_insert (c_next c) (mkSeg (c_next c) sp (end_byte p) 0 st None)
         (bt_alter (set_end (sp - 1)) k (c_segments c)))
      (c_next c + 1) (c_states c)
      (persist_split (c_next c) sp (end_byte p) 0 k (sp - 1) (c_db c))).
Proof.
  intros Hc Hg Hp Hst Hsp. pose proof Hc as [].
  destruct (persist_split_rows W D c k p sp Hc Hg Hsp) as (Hm & Hok & Hep & Hcl).
  pose proof (split_at_inv _ _ _ k sp p st ci_seg0 Hg Hsp) as Hinv.
  cbn [split_at fst] in Hinv.
  set (m1 := bt_alter (set_end (sp - 1)) k (c_segments c)) in *.
  assert (Hel : forall x s, (x, s) ∈ bt_insert (c_next c) (mkSeg (c_next c) sp (end_byte p) 0 st None) m1 ->
    (x = c_next c /\ s = mkSeg (c_next c) sp (end_byte p) 0 st None) \/
    exists s0, (x, s0) ∈ c_segments c /\
      (s = s0 \/ (x, s0) = (k, p) /\ s = set_end (sp - 1) s0)).
  { intros x s [[= -> ->]|Hin]%bt_insert_keys; [by left|right].
    apply bt_elem_alter_gen in Hin as (s0 & Hin & [->|[-> ->]]); exists s0; (split; [done|]); [by left|right].
    split; [|done]. apply (bt_elem_get _ _ _ (inv_sorted _ _ _ ci_seg0)) in Hin. congruence. }
  split; cbn [with_layout c_segments c_next c_states c_total c_db c_table c_epoch]; try done.
  - apply (mirrors_alter_r _ _ (c_next c) (set_state st)) in Hm; [|done].
    by rewrite bt_alter_insert_same in Hm.
  - intros x s [[-> ->]|(s0 & Hin & [->|[_ ->]])]%Hel; [by apply claims_zero|by eapply ci_claims0|].
    apply (ci_claims0 _ _ Hin).
  - intros x s [[-> ->]|(s0 & Hin & [->|[[= -> ->] ->]])]%Hel; [done|by eapply ci_done0|done].
  - intros i Hi. destruct (ci_states0 i Hi) as (? & ? & H). split; [done|]. split; [lia|].
    intros s [[? ->]|(s0 & Hin & [->|[_ ->]])]%Hel; [lia|by apply H|by apply (H _ Hin)].
  - intros x d Hx. destruct (ci_table0 x d Hx) as (? & H). split; [lia|].
    intros s [[? ->]|(s0 & Hin & [->|[_ ->]])]%Hel; [lia|by apply H|by apply (H _ Hin)].
Qed.

(** ** Choosing and dispatching work *)

(** The work a chooser may return: a pending segment, or the tail of an active
    one as a new segment. *)
Inductive work_of (c : Coord) : segmap -> Z -> NextWork -> Prop :=
| work_pending s a :
    bt_get (index s) (c_segments c) = Some s -> state s = Pending -> seg_index a = index s ->
    work_of c (bt_alter (set_state Active) (index s) (c_segments c)) (c_next c) (mkNextWork a None)
| work_split k p sp st :
    bt_get k (c_segments c) = Some p -> state p = Active -> st <> Completed ->
    start_byte p < sp <= end_byte p ->
    work_of c
      (bt_insert (c_next c) (mkSeg (c_next c) sp (end_byte p) 0 st None)
         (bt_alter (set_end (sp - 1)) k (c_segments c)))
      (c_next c + 1) (split_at (c_segments c) (c_next c) k sp (end_byte p) st).2.

Definition db_inv (D : Z -> Prop) (db : Store) : Prop :=
  rows_ok (st_rows db) /\
  (forall k r, (k, r) ∈ st_rows db -> claims D (r_start r) (r_downloaded r)) /\
  exists total next m, seg_inv total next m /\ mirrors (st_rows db) m.

Definition out_inv (W D : Z -> Prop) (o : outcome) : Prop :=
  match o with
  | Running c => coord_inv W D c
  | Finished c => coord_inv W D c /\ all_done (c_segments c) = true
  | Broken c => db_inv D (c_db c)
  end.

Lemma coord_inv_db W D c : coord_inv W D c -> db_inv D (c_db c).
Proof. intros []. split; [done|]. split; [done|]. by exists (c_total c), (c_next c), (c_segments c). Qed.

Lemma planned_work W D c min_split cost st k cur rem sp :
  coord_inv W D c -> st <> Completed ->
  plan_split (c_segments c) min_split cost = Some (k, cur, rem, sp) ->
  exists p, bt_get k (c_segments c) = Some p /\ state p = Active /\ start_byte p < sp <= end_byte p.
Proof.
  intros Hc Hst Hp. pose proof (ci_seg _ _ _ Hc) as Hinv.
  destruct (plan_split_sound _ _ _ _ _ _ _ (inv_sorted _ _ _ Hinv) (inv_index _ _ _ Hinv) Hp)
    as [p [Hg Hact -> _ Hin _]].
  exists p. split; [done|]. split; [done|].
  pose proof (inv_downloaded _ _ _ Hinv _ _ (bt_get_elem _ _ _ Hg)). lia.
Qed.

Lemma try_split_work W D c min_split cost m next nw :
  coord_inv W D c ->
  try_split_largest (c_segments c) (c_next c) min_split cost = Some (m, next, nw) ->
  work_of c m next nw.
Proof.
  intros Hc (_ & k & cur & rem & sp & s & Hp & Hg & Heq)%try_split_largest_inv.
  destruct (planned_work _ _ _ _ _ Active _ _ _ _ Hc ltac:(done) Hp) as (p & Hg' & Ha & Hsp).
  simplify_eq. injection Heq as <- <- <-. by apply (work_split c k s sp Active).
Qed.

Lemma find_next_work_work W D c min_split cost m next nw :
  coord_inv W D c ->
  find_next_work (c_segments c) (c_next c) min_split cost = Some (m, next, nw) ->
  work_of c m next nw.
Proof.
  intros Hc. unfold find_next_work. destruct (List.find _ _) as [s|] eqn:Hf.
  - intros [= <- <- <-].
    destruct (find_pending _ _ Hf (inv_index _ _ _ (ci_seg _ _ _ Hc)) (inv_sorted _ _ _ (ci_seg _ _ _ Hc))).
    by apply work_pending.
  - destruct (try_split_largest _ _ min_split cost) as [[[m1 n1] w1]|] eqn:Ht.
    + intros [= -> -> ->]. by eapply try_split_work.
    + destruct (_ <? _); [|done]. destruct (_ <=? _); [|done]. intros. by eapply try_split_work.
Qed.

Lemma pending_only_work W D c m nw :
  coord_inv W D c -> find_next_pending_only (c_segments c) = Some (m, nw) ->
  exists s, List.find (is_state Pending) (bt_values (c_segments c)) = Some s /\
    m = bt_alter (set_state Active) (index s) (c_segments c) /\
    nw = mkNextWork (pending_assignment s) None /\
    bt_get (index s) (c_segments c) = Some s /\ state s = Pending.
Proof.
  intros Hc. unfold find_next_pending_only. destruct (List.find _ _) as [s|] eqn:Hf; [|done].
  intros [= <- <-]. exists s.
  destruct (find_pending _ _ Hf (inv_index _ _ _ (ci_seg _ _ _ Hc)) (inv_sorted _ _ _ (ci_seg _ _ _ Hc))).
  done.
Qed.

Lemma choose_work_work W D env c m next nw :
  coord_inv W D c -> choose_work env c = Some (m, next, nw) -> work_of c m next nw.
Proof.
  intros Hc. unfold choose_work. destruct (c_serial c).
  - destruct (existsb _ _); [done|].
    destruct (find_next_pending_only (c_segments c)) as [[m0 w0]|] eqn:E; [|done].
    intros [= <- <- <-]. destruct (pending_only_work _ _ _ _ _ Hc E) as (s & _ & -> & -> & ? & ?).
    by apply work_pending.
  - destruct (over_quota env); [done|]. by apply (find_next_work_work W D).
Qed.

Lemma choose_unverified_work W D c m next nw :
  coord_inv W D c -> choose_unverified c = Some (m, next, nw) -> work_of c m next nw.
Proof.
  intros Hc. unfold choose_unverified.
  destruct (find_next_pending_only (c_segments c)) as [[m0 w0]|] eqn:E; [|done].
  destruct (pending_only_work _ _ _ _ _ Hc E) as (s & _ & -> & -> & ? & ?).
  destruct (_ =? 0); [|done]. intros [= <- <- <-]. by apply work_pending.
Qed.

(** A segment handed out keeps its range and progress. *)
Lemma good_state W D c k s st :
  coord_inv W D c -> (k, s) ∈ c_segments c -> st <> Completed -> good_update W s (set_state st s).
Proof.
  intros Hc Hin Hst. split; [done|]. split; [done|]. split; [done|].
  split; [apply (inv_downloaded _ _ _ (ci_seg _ _ _ Hc) k s Hin)|].
  split; [apply (ci_claims _ _ _ Hc k s Hin)|done].
Qed.

Lemma inv_set_state W D c k st :
  coord_inv W D c -> st <> Completed ->
  coord_inv W D (with_segments c (bt_alter (set_state st) k (c_segments c))).
Proof. intros Hc Hst. apply inv_alter; [done|]. intros s Hs. by eapply good_state. Qed.

(** The split transaction of the work at hand. *)
Lemma persist_work c k p sp st ok idx :
  bt_get k (c_segments c) = Some p -> index p = k -> k <> c_next c -> bt_sorted (c_segments c) ->
  idx = c_next c ->
  persist_segment_change ok (c_db c)
    (bt_insert (c_next c) (mkSeg (c_next c) sp (end_byte p) 0 st None)
         (bt_alter (set_end (sp - 1)) k (c_segments c))) idx (Some k) =
  if ok then Ok (persist_split (c_next c) sp (end_byte p) 0 k (sp - 1) (c_db c))
  else Err "database error"%string.
Proof.
  intros Hg Hi Hk Hs ->. unfold persist_segment_change.
  rewrite !bt_get_insert, Z.eqb_refl by (by apply bt_alter_sorted). cbn [ok_or].
  destruct (Z.eqb_spec k (c_next c)); [done|].
  rewrite bt_get_alter, Z.eqb_refl, Hg. cbn. by rewrite Hi.
Qed.

(** Persisting a piece of work and rebuilding the vector keeps the invariant;
    a failed transaction leaves the store as it was. *)
Lemma persist_work_inv W D c m next nw ok :
  coord_inv W D c -> work_of c m next nw ->
  match persist_segment_change ok (c_db c) m (seg_index (assignment nw)) (split_parent nw) with
  | Ok db => coord_inv W D (with_layout c m next (rebuild_seg_states m (c_states c)) db)
  | Err _ => ok = false
  end.
Proof.
  intros Hc Hw. destruct Hw as [s a Hg Hst Ha|k p sp st Hg Hact Hst Hsp].
  - cbn [split_parent persist_segment_change].
    pose proof (inv_set_state W D c (index s) Active Hc ltac:(done)) as H.
    apply inv_rebuild in H. by destruct c.
  - cbn [split_at snd split_parent assignment seg_index].
    pose proof (ci_seg _ _ _ Hc) as Hinv. pose proof (bt_get_elem _ _ _ Hg) as Hin.
    rewrite (persist_work c k p sp st ok (c_next c));
      [|done|by apply (inv_index _ _ _ Hinv)|pose proof (inv_next _ _ _ Hinv _ _ Hin); lia|apply Hinv|done].
    destruct ok; [|done].
    pose proof (inv_split W D c k p sp st Hc Hg ltac:(congruence) Hst Hsp) as H.
    apply inv_rebuild in H. by destruct c.
Qed.

Lemma inv_with_open W D c o : coord_inv W D c -> coord_inv W D (with_open c o).
Proof. intros []. by split. Qed.

Lemma dispatch_inv W D senv c work :
  coord_inv W D c ->
  (forall m next nw, work = Some (m, next, nw) -> work_of c m next nw) ->
  out_inv W D (dispatch senv c work).
Proof.
  intros Hc Hw. unfold dispatch. destruct work as [[[m next] nw]|]; [|done].
  pose proof (persist_work_inv W D c m next nw (persist_ok senv) Hc (Hw _ _ _ eq_refl)) as H.
  destruct (persist_segment_change _ _ _ _ _) as [db|e]; [|by apply (coord_inv_db W D c)].
  destruct (send_ok senv); cbn [andb].
  - destruct (open_ended (assignment nw)); [by apply inv_with_open|done].
  - pose proof (inv_set_state W D _ (seg_index (assignment nw)) Pending H ltac:(done)) as H'. exact H'.
Qed.

Lemma check_done_inv W D o : out_inv W D o -> out_inv W D (check_done o).
Proof.
  destruct o as [c| |]; [|done..]. cbn [check_done]. intros Hc.
  destruct (all_done (c_segments c)) eqn:E; cbn [out_inv]; done.
Qed.

Lemma clear_open_inv W D c k : coord_inv W D c -> coord_inv W D (clear_open c k).
Proof. intros. unfold clear_open. case_bool_decide; [by apply inv_with_open|done]. Qed.

(** ** The handlers *)

Lemma persist_split_result ok db m ch k child parent :
  bt_get ch m = Some child -> bt_get k m = Some parent ->
  persist_segment_change ok db m ch (Some k) =
  if ok then Ok (persist_split (index child) (start_byte child) (end_byte child) 0 (index parent)
                   (end_byte parent) db)
  else Err "database error"%string.
Proof. intros Hch Hk. unfold persist_segment_change. by rewrite Hch, Hk. Qed.

(** The end of a segment: the map, and the rows if the rest was split off. *)
Lemma finish_inv W D c k s d ok :
  coord_inv W D c -> bt_get k (c_segments c) = Some s -> state s = Active ->
  0 < d -> claims W (start_byte s) d ->
  let '(m, next, child) := finish_segment (c_segments c) (c_next c) k d in
  match child with
  | None => next = c_next c /\ coord_inv W D (with_segments c m)
  | Some ch =>
      match persist_segment_change ok (c_db c) m ch (Some k) with
      | Ok db => coord_inv W D (with_layout c m next (c_states c) db)
      | Err _ => True
      end
  end.
Proof.
  intros Hc Hg Hact Hd Hcl. unfold finish_segment. rewrite Hg.
  pose proof (ci_seg _ _ _ Hc) as Hinv. pose proof (bt_get_elem _ _ _ Hg) as Hin.
  pose proof (inv_nonempty _ _ _ Hinv _ _ Hin) as Hne. unfold nonempty_seg in Hne.
  assert (Huniq : forall x, (k, x) ∈ c_segments c -> x = s).
  { intros x Hx. apply (bt_elem_get _ _ _ (inv_sorted _ _ _ Hinv)) in Hx. congruence. }
  assert (Hk : k <> c_next c) by (pose proof (inv_next _ _ _ Hinv _ _ Hin); lia).
  destruct (Z.ltb_spec 0 d); [|lia]. cbn [andb]. destruct (Z.ltb_spec d (size s)) as [Hshort|Hfull].
  - set (h := fun x => set_state Completed (set_downloaded d x)).
    set (sp := start_byte s + d).
    set (m0 := bt_insert (c_next c) (mkSeg (c_next c) sp (end_byte s) 0 Pending None)
                 (bt_alter (set_end (sp - 1)) k (c_segments c))).
    assert (Hm : bt_insert (c_next c) (mkSeg (c_next c) sp (end_byte s) 0 Pending None)
        (bt_alter (fun s0 => set_state Completed (set_downloaded d (set_end (sp - 1) s0))) k (c_segments c))
        = bt_alter h k m0).
    { unfold m0. rewrite bt_alter_insert by done. by rewrite bt_alter_alter. }
    rewrite Hm. unfold size in Hshort.
    assert (Hsp : start_byte s < sp <= end_byte s) by (unfold sp; lia).
    pose proof (inv_split W D c k s sp Pending Hc Hg ltac:(congruence) ltac:(done) Hsp) as Hsplit.
    fold m0 in Hsplit.
    assert (Hgk : bt_get k m0 = Some (set_end (sp - 1) s)).
    { unfold m0. rewrite bt_get_insert by apply bt_alter_sorted, Hinv.
      destruct (Z.eqb_spec k (c_next c)); [done|]. by rewrite bt_get_alter, Z.eqb_refl, Hg. }
    rewrite (persist_split_result ok (c_db c) _ (c_next c) k
      (mkSeg (c_next c) sp (end_byte s) 0 Pending None) (h (set_end (sp - 1) s))).
    2: { rewrite bt_get_alter. destruct (Z.eqb_spec (c_next c) k); [congruence|]. unfold m0.
         rewrite bt_get_insert by apply bt_alter_sorted, Hinv. by rewrite Z.eqb_refl. }
    2: { by rewrite bt_get_alter, Z.eqb_refl, Hgk. }
    cbn [index start_byte end_byte h set_state set_downloaded set_end].
    rewrite (inv_index _ _ _ Hinv _ _ Hin). destruct ok; [|done].
    apply (inv_alter W D _ h k) in Hsplit; [exact Hsplit|]. intros x Hx.
    cbn [with_layout c_segments] in Hx.
    apply (bt_elem_get _ _ _ (inv_sorted _ _ _ (ci_seg _ _ _ Hsplit))) in Hx.
    cbn [with_layout c_segments] in Hx. rewrite Hgk in Hx. injection Hx as <-.
    unfold good_update, h, size. cbn. repeat split; [lia|done|unfold sp; lia].
  - split; [done|]. apply inv_alter; [done|]. intros x ->%Huniq.
    unfold good_update. cbn. repeat split; [unfold size; lia| |lia].
    eapply claims_le; [|done]. lia.
Qed.

Lemma on_done_inv W D ok wenv senv k d c s :
  coord_inv W D c -> bt_get k (c_segments c) = Some s -> state s = Active ->
  0 < d -> claims W (start_byte s) d ->
  out_inv W D (on_done ok wenv senv k d c).
Proof.
  intros Hc Hg Hact Hd Hcl. unfold on_done.
  pose proof (clear_open_inv W D c k Hc) as Hc'. set (c' := clear_open c k) in *.
  assert (Hsame : c_segments c' = c_segments c /\ c_next c' = c_next c)
    by (unfold c', clear_open; by case_bool_decide).
  destruct Hsame as [Hs Hn]. rewrite <- Hs in Hg.
  pose proof (finish_inv W D c' k s d ok Hc' Hg Hact Hd Hcl) as Hf.
  destruct (finish_segment (c_segments c') (c_next c') k d) as [[m next] child].
  assert (Hrest : forall c1, coord_inv W D c1 ->
    out_inv W D (check_done (dispatch senv
      (with_segments c1 (sync_downloaded_from_shared (c_segments c1) (c_states c1)))
      (choose_work wenv (with_segments c1 (sync_downloaded_from_shared (c_segments c1) (c_states c1))))))).
  { intros c1 Hc1. pose proof (inv_sync W D c1 Hc1) as Hc2. apply check_done_inv, dispatch_inv; [done|].
    intros m' n' w' Hch. by eapply choose_work_work. }
  destruct child as [ch|].
  - destruct (persist_segment_change ok (c_db c') m ch (Some k)) as [db|e].
    + apply Hrest. apply inv_rebuild in Hf. exact Hf.
    + by apply (coord_inv_db W D c').
  - destruct Hf as [-> Hf]. apply (Hrest _ Hf).
Qed.

Lemma remaining_done s : remaining s = 0 -> size s <= downloaded_bytes s.
Proof. unfold remaining. lia. Qed.

Lemma requeue_inv W D k c : coord_inv W D c -> coord_inv W D (requeue k c).
Proof.
  intros Hc. unfold requeue. pose proof (inv_sync W D c Hc) as H.
  apply (inv_alter W D _ (fun s => let s := set_rate None s in
    set_state (if remaining s =? 0 then Completed else Pending) s) k) in H; [exact H|].
  intros s Hin. unfold good_update. cbn [set_rate set_state index start_byte end_byte downloaded_bytes state].
  repeat split.
  - by apply (inv_downloaded _ _ _ (ci_seg _ _ _ H) k).
  - by apply (ci_claims _ _ _ H k).
  - destruct (Z.eqb_spec (remaining (set_rate None s)) 0) as [Hr|]; [|done].
    intros _. apply remaining_done in Hr. exact Hr.
Qed.

Lemma on_preempted_inv W D wenv senv k c :
  coord_inv W D c -> out_inv W D (on_preempted wenv senv k c).
Proof.
  intros Hc. unfold on_preempted. pose proof (requeue_inv W D k c Hc) as H.
  destruct (all_done _) eqn:E; [done|]. apply dispatch_inv; [done|].
  intros. by eapply choose_work_work.
Qed.

Lemma on_transient_failure_inv W D k c :
  coord_inv W D c -> out_inv W D (on_transient_failure k c).
Proof.
  intros Hc. unfold on_transient_failure.
  pose proof (requeue_inv W D k _ (clear_open_inv W D c k Hc)) as H. by destruct (all_done _) eqn:E.
Qed.

Lemma reclaim_inv W D k c : coord_inv W D c -> coord_inv W D (reclaim k c).
Proof.
  intros Hc. unfold reclaim.
  assert (c_segments (clear_open c k) = c_segments c) as <- by (unfold clear_open; by case_bool_decide).
  apply inv_set_state; [by apply clear_open_inv|done].
Qed.

Lemma redispatch_inv W D v wenv senv c :
  coord_inv W D c -> out_inv W D (redispatch v wenv senv c).
Proof.
  intros Hc. unfold redispatch. destruct v.
  - apply dispatch_inv; [done|]. intros. by eapply choose_work_work.
  - destruct (choose_unverified c) as [work|] eqn:E.
    + apply dispatch_inv; [done|]. intros m n w [= ->]. by eapply choose_unverified_work.
    + cbn [out_inv]. unfold unverified_put_back.
      destruct (find_next_pending_only (c_segments c)) as [[m0 w0]|] eqn:E0.
      2: { by destruct c. }
      destruct (_ =? 0); [by destruct c|].
      destruct (pending_only_work _ _ _ _ _ Hc E0) as (s & _ & -> & -> & _).
      apply (inv_set_state W D (with_segments c (bt_alter (set_state Active) (index s) (c_segments c))));
        [|done]. by apply inv_set_state.
Qed.

(** *** A larger file *)

Lemma append_tail_seg_inv total next m reported :
  seg_inv total next m -> 0 <= total < reported ->
  seg_inv reported (next + 1) (bt_insert next (mkSeg next total (reported - 1) 0 Pending None) m).
Proof.
  intros [Hs Hi Hn Hne Hd HP] Hlt.
  assert (Hnone : bt_get next m = None).
  { apply bt_get_None. intros v Hin. specialize (Hn _ _ Hin). lia. }
  split.
  - by apply bt_insert_sorted.
  - intros k s [[= -> ->]|Hin]%bt_insert_keys; [done|by apply Hi].
  - intros k s [[= -> ->]|Hin]%bt_insert_keys; [lia|]. specialize (Hn _ _ Hin). lia.
  - intros k s [[= -> ->]|Hin]%bt_insert_keys; [unfold nonempty_seg; simpl; lia|by eapply Hne].
  - intros k s [[= -> ->]|Hin]%bt_insert_keys; [simpl; lia|by eapply Hd].
  - intros b. rewrite cov_count_insert_fresh, HP by done. b2z_lia.
Qed.

Lemma append_tail_inv W D c reported db :
  coord_inv W D c -> c_total c < reported ->
  st_rows db = st_rows (upsert_segment (c_next c) (c_total c) (reported - 1) 0 (c_db c)) ->
  st_epoch db = c_epoch c ->
  let g := append_tail reported c in
  coord_inv W D (with_layout g (c_segments g) (c_next g) (c_states g) db).
Proof.
  intros Hc Hlt Hdb Hep g. pose proof Hc as [].
  cbn [upsert_segment with_rows st_rows] in Hdb.
  rewrite bt_remove_fresh_get in Hdb by (by eapply inv_fresh_rows).
  split; cbn [g append_tail with_layout c_segments c_next c_states c_total c_db c_table c_epoch];
    rewrite ?Hdb; try done.
  - apply append_tail_seg_inv; [done|lia].
  - lia.
  - by apply mirrors_insert.
  - apply rows_ok_insert; [done|simpl; lia].
  - intros k r [[= -> ->]|Hin]%bt_insert_keys; [by apply claims_zero|by eapply ci_row_claims0].
  - intros k s [[= -> ->]|Hin]%bt_insert_keys; [by apply claims_zero|by eapply ci_claims0].
  - intros k s [[= -> ->]|Hin]%bt_insert_keys; [done|by eapply ci_done0].
  - intros i Hi. destruct (ci_states0 i Hi) as (? & ? & H). split; [done|]. split; [lia|].
    intros s [[=]|Hin]%bt_insert_keys; [lia|by apply H].
  - intros k d Hk. destruct (ci_table0 k d Hk) as (? & H). split; [lia|].
    intros s [[=]|Hin]%bt_insert_keys; [lia|by apply H].
Qed.

Lemma on_true_size_larger_inv W D owns p u t v wenv senv k reported c :
  coord_inv W D c -> out_inv W D (on_true_size_larger owns p u t v wenv senv k reported c).
Proof.
  intros Hc. unfold on_true_size_larger.
  apply (clear_open_inv W D c k) in Hc. set (c0 := clear_open c k) in *. clearbody c0.
  destruct (Z.ltb_spec (c_total c0) reported) as [Hlt|]; [|by apply redispatch_inv, reclaim_inv].
  destruct ((MAX_SIZE_EXPANSIONS <=? c_expansions c0) || negb p).
  { cbn [out_inv]. by eapply coord_inv_db, reclaim_inv. }
  destruct (negb u); [by apply (coord_inv_db W D c0)|].
  set (db := if owns && t then _ else _).
  assert (Hdb : st_rows db = st_rows (upsert_segment (c_next c0) (c_total c0) (reported - 1) 0 (c_db c0)) /\
    st_epoch db = c_epoch c0).
  { unfold db. destruct (owns && t); split; try done; apply (ci_epoch _ _ _ Hc). }
  destruct Hdb as [Hrows Hep].
  pose proof (append_tail_inv W D c0 reported db Hc Hlt Hrows Hep) as Hg. cbv zeta in Hg.
  destruct (owns && negb t); [by apply (coord_inv_db W D _ Hg)|].
  apply redispatch_inv, reclaim_inv. apply inv_rebuild in Hg. exact Hg.
Qed.

(** *** Rejection, spawning, the timers *)

(** Extending the open segment over the absorbed ones, in the map and the rows. *)
Lemma merge_inv W D c idx o new_end gs :
  coord_inv W D c -> bt_get idx (c_segments c) = Some o -> state o = Active ->
  absorbed_upto (c_segments c) (end_byte o + 1) new_end gs ->
  coord_inv W D
    (with_layout c (bt_alter (set_end new_end) idx (removes (c_segments c) (index <$> gs)))
       (c_next c) (c_states c) (persist_merge idx new_end (index <$> gs) (c_db c))).
Proof.
  intros Hc Ho Hact Hup. pose proof Hc as [].
  destruct (absorb_merge_inv _ _ _ _ _ _ _ ci_seg0 Ho Hact Hup) as [Ho1 Hinv'].
  pose proof (merge_mirrors _ _ _ _ _ _ _ _ ci_seg0 Ho Hact Hup ci_mirror0) as Hmir.
  assert (Hend : end_byte o <= new_end).
  { destruct Hup as [[? _]%contiguous_partition _ _]. lia. }
  pose proof (inv_nonempty _ _ _ ci_seg0 _ _ (bt_get_elem _ _ _ Ho)) as Hne. unfold nonempty_seg in Hne.
  assert (Hrow : forall k r, (k, r) ∈ st_rows (persist_merge idx new_end (index <$> gs) (c_db c)) ->
    exists r0, (k, r0) ∈ st_rows (c_db c) /\
      (r = r0 \/ k = idx /\ r = row_set_end new_end r0)).
  { intros k r Hin. unfold persist_merge in Hin. cbn [with_rows st_rows] in Hin.
    assert (Hrm : forall ks (rows : rowmap) x, x ∈ foldl (fun rows i => bt_remove i rows) rows ks -> x ∈ rows).
    { clear. induction ks as [|k ks IH]; simpl; [done|]. intros rows x Hx%IH. by apply bt_remove_subset in Hx. }
    by apply Hrm, bt_elem_alter_gen in Hin. }
  assert (Hel : forall k s, (k, s) ∈ bt_alter (set_end new_end) idx (removes (c_segments c) (index <$> gs)) ->
    exists s0, (k, s0) ∈ c_segments c /\ (s = s0 \/ s0 = o /\ s = set_end new_end s0)).
  { intros k s (s0 & Hin & Hs)%bt_elem_alter_gen. apply removes_elem in Hin. exists s0. split; [done|].
    destruct Hs as [->|[-> ->]]; [by left|right]. split; [|done].
    apply (bt_elem_get _ _ _ (inv_sorted _ _ _ ci_seg0)) in Hin. congruence. }
  split; cbn [with_layout c_segments c_next c_states c_total c_db c_table c_epoch]; try done.
  - split.
    + unfold bt_sorted. rewrite (mirrors_keys _ _ Hmir). apply Hinv'.
    + intros k r (r0 & Hin & [->|[-> ->]])%Hrow; [by eapply ro_row|].
      destruct ci_rows0 as [Hs Hr]. pose proof (Hr _ _ Hin). simpl. split; [|by apply (Hr _ _ Hin)].
      pose proof (mirrors_get _ _ idx ci_mirror0) as Hg.
      rewrite Ho, (bt_elem_get _ _ _ Hs Hin) in Hg. destruct Hg as [-> _]. lia.
  - intros k r (r0 & Hin & [->|[-> ->]])%Hrow; apply (ci_row_claims0 _ _ Hin).
  - intros k s (s0 & Hin & [->|[-> ->]])%Hel; apply (ci_claims0 _ _ Hin).
  - intros k s (s0 & Hin & [->|[-> ->]])%Hel Hst; [by eapply ci_done0|]. simpl in Hst. congruence.
  - intros i Hi. destruct (ci_states0 i Hi) as (? & ? & H). repeat split; [done..|].
    intros s (s0 & Hin & [->|[_ ->]])%Hel; by apply (H _ Hin).
  - intros k d Hk. destruct (ci_table0 k d Hk) as (? & H). split; [done|].
    intros s (s0 & Hin & [->|[_ ->]])%Hel; by apply (H _ Hin).
Qed.

Lemma absorb_inv W D ok c :
  coord_inv W D c ->
  exists r, absorb_pending_into_open_stream ok (c_db c) (c_segments c) (c_states c) (c_open c)
    (c_hostile c) = Some r /\
    coord_inv W D (with_layout c (ab_segments r) (c_next c) (ab_states r) (ab_db r)).
Proof.
  intros Hc.
  destruct (absorb_run ok (c_db c) _ _ (c_segments c) (c_states c) (c_open c) (c_hostile c) (ci_seg _ _ _ Hc))
    as [->|(idx & o & ne & g & gs & -> & Ho & Hact & Hup & _ & ->)].
  - eexists. split; [done|]. by destruct c.
  - eexists. split; [done|]. cbn [ab_segments ab_states ab_db].
    pose proof (merge_inv W D c idx o ne (g :: gs) Hc Ho Hact Hup) as H.
    apply inv_rebuild in H. exact H.
Qed.

Lemma on_rejected_inv W D ser ok k c :
  coord_inv W D c -> exists c', on_rejected ser ok k c = Some c' /\ coord_inv W D c'.
Proof.
  intros Hc. apply (reclaim_inv W D k) in Hc. unfold on_rejected.
  destruct (absorb_inv W D ok (reclaim k c) Hc) as (r & -> & Hr).
  eexists. split; [done|]. destruct Hr. by split.
Qed.

Lemma on_spawn_inv W D wenv senv c :
  coord_inv W D c -> out_inv W D (on_spawn wenv senv c).
Proof.
  intros Hc. apply inv_sync in Hc. unfold on_spawn. apply dispatch_inv; [done|].
  intros m n w. by apply (find_next_work_work W D).
Qed.

Lemma proactive_work W D c min_split cost m next nw :
  coord_inv W D c ->
  proactive_split (c_segments c) (c_next c) min_split cost = Some (m, next, nw) ->
  work_of c m next nw.
Proof.
  intros Hc.
  assert (Htry : forall ms, try_proactive_split (c_segments c) (c_next c) ms cost = Some (m, next, nw) ->
    work_of c m next nw).
  { intros ms (_ & _ & k & cur & rem & sp & s & Hp & Hg & Heq)%try_proactive_split_inv.
    destruct (planned_work _ _ _ _ _ Pending _ _ _ _ Hc ltac:(done) Hp) as (p & Hg' & Ha & Hsp).
    simplify_eq. injection Heq as <- <- <-. by apply (work_split c k s sp Pending). }
  unfold proactive_split.
  destruct (try_proactive_split _ _ min_split cost) as [[[m1 n1] w1]|] eqn:E.
  - intros [= -> -> ->]. by eapply Htry.
  - destruct (_ && _); [apply Htry|done].
Qed.

Lemma on_proactive_tick_inv W D ok cs ro min_split cost c :
  coord_inv W D c -> out_inv W D (on_proactive_tick ok cs ro min_split cost c).
Proof.
  intros Hc. unfold on_proactive_tick. destruct (_ && _); [|done].
  apply inv_sync in Hc. set (c1 := with_segments c _) in *.
  change (sync_downloaded_from_shared (c_segments c) (c_states c)) with (c_segments c1).
  change (c_next c) with (c_next c1). change (c_states c) with (c_states c1). change (c_db c) with (c_db c1).
  destruct (proactive_split (c_segments c1) (c_next c1) min_split cost) as [[[m next] nw]|] eqn:E; [|done].
  apply (proactive_work W D) in E; [|done].
  pose proof (persist_work_inv W D c1 m next nw ok Hc E) as H.
  destruct (persist_segment_change _ _ _ _ _) as [db|e]; [exact H|].
  by apply (coord_inv_db W D c1).
Qed.

(** *** Progress writes *)

(** A write that raises a watermark only over durable bytes. *)
Lemma guarded_write_inv W D c k start f epoch :
  coord_inv W D c ->
  (forall r, (k, r) ∈ st_rows (c_db c) -> r_start r = start ->
     r_start (f r) = r_start r /\ r_end (f r) = r_end r /\ 0 <= r_downloaded (f r) /\
     claims D (r_start r) (r_downloaded (f r))) ->
  coord_inv W D (with_layout c (c_segments c) (c_next c) (c_states c)
                   (guarded_update k start epoch f (c_db c))).
Proof.
  intros Hc Hf. unfold guarded_update. destruct (_ =? epoch); [|by destruct c].
  set (g := fun r => if r_start r =? start then f r else r).
  assert (Hg : forall r, (k, r) ∈ st_rows (c_db c) ->
    r_start (g r) = r_start r /\ r_end (g r) = r_end r /\ 0 <= r_downloaded (g r) /\
    claims D (r_start r) (r_downloaded (g r))).
  { intros r Hr. unfold g. destruct (Z.eqb_spec (r_start r) start) as [Heq|]; [by apply Hf|].
    split; [done|]. split; [done|]. split; [by apply (ro_row _ (ci_rows _ _ _ Hc) k)|].
    by apply (ci_row_claims _ _ _ Hc k). }
  apply inv_db; [done|..]; cbn [with_rows st_rows st_epoch].
  - revert Hg. pose proof (ci_mirror _ _ _ Hc) as Hm. revert Hm.
    generalize (st_rows (c_db c)), (c_segments c). clear. intros rows m Hm Hg.
    induction Hm as [|[k1 r] [k2 s] rows m [? Hr] HF IH]; simpl in *; [constructor|].
    subst k2. destruct (Z.eqb_spec k k1) as [->|].
    + apply mirrors_cons; [done| |done]. destruct (Hg r ltac:(left)) as (? & ? & _), Hr. split; congruence.
    + apply mirrors_cons; [done..|]. apply IH. intros r' ?. apply Hg. by right.
  - apply rows_ok_alter; [apply Hc|]. intros r Hr. destruct (Hg r Hr) as (-> & -> & ? & _).
    split; [|done]. by apply (ro_row _ (ci_rows _ _ _ Hc) k).
  - apply Hc.
  - intros x r (r0 & Hin & [->|[-> ->]])%bt_elem_alter_gen; [by apply (ci_row_claims _ _ _ Hc x)|].
    destruct (Hg r0 Hin) as (-> & _ & _ & H). done.
Qed.

(** A row and the segment it mirrors start together. *)
Lemma row_segment_start W D c k r s :
  coord_inv W D c -> (k, r) ∈ st_rows (c_db c) -> bt_get k (c_segments c) = Some s ->
  r_start r = start_byte s.
Proof.
  intros Hc Hr Hs. pose proof (mirrors_get _ _ k (ci_mirror _ _ _ Hc)) as H.
  rewrite Hs, (bt_elem_get _ _ _ (ro_sorted _ (ci_rows _ _ _ Hc)) Hr) in H. by destruct H.
Qed.

Lemma bounded_write_inv W D c k s d epoch :
  coord_inv W D c -> bt_get k (c_segments c) = Some s -> 0 <= d -> claims D (start_byte s) d ->
  coord_inv W D (with_layout c (c_segments c) (c_next c) (c_states c)
    (update_segment_progress_bounded k d (start_byte s) epoch (c_db c))).
Proof.
  intros Hc Hg Hd Hcl. apply guarded_write_inv; [done|]. intros r Hr Heq. cbn.
  pose proof (ro_row _ (ci_rows _ _ _ Hc) k r Hr) as [? ?].
  split; [done|]. split; [done|]. unfold case_bounded, row_size.
  destruct (Z.ltb_spec (r_end r - r_start r + 1) d); rewrite Heq; [|done].
  split; [lia|]. eapply claims_le; [|exact Hcl]. lia.
Qed.

(** The batch: every update is of a live segment, over durable bytes. *)
Lemma batch_write_inv W D updates : forall c epoch,
  coord_inv W D c ->
  (forall k d start, (k, d, start) ∈ updates -> 0 <= d /\ claims D start d) ->
  coord_inv W D (with_layout c (c_segments c) (c_next c) (c_states c)
    (update_segments_progress_batch epoch updates (c_db c))).
Proof.
  unfold update_segments_progress_batch.
  induction updates as [|[[k d] start] updates IH]; intros c epoch Hc Hu; simpl; [by destruct c|].
  destruct (Hu k d start ltac:(left)) as [Hd Hcl].
  assert (Hc1 : coord_inv W D (with_layout c (c_segments c) (c_next c) (c_states c)
    (guarded_update k start epoch (fun r => row_set_downloaded (case_batch d r) r) (c_db c)))).
  { apply guarded_write_inv; [done|]. intros r Hr Heq. cbn.
    pose proof (ro_row _ (ci_rows _ _ _ Hc) k r Hr) as [? ?].
    pose proof (ci_row_claims _ _ _ Hc k r Hr).
    split; [done|]. split; [done|]. unfold case_batch, row_size. rewrite Heq in *.
    destruct (Z.ltb_spec (r_end r - start + 1) d).
    - split; [lia|]. eapply claims_le; [|exact Hcl]. lia.
    - destruct (Z.ltb_spec d (r_downloaded r)); done. }
  apply (IH _ epoch) in Hc1; [exact Hc1|]. intros k' d' s' Hin. apply (Hu k'). by right.
Qed.

Lemma on_flush_inv W D ok c : coord_inv W D c -> coord_inv W D (on_flush ok c).
Proof.
  intros Hc. unfold on_flush, take_durable_progress_rows.
  set (rows := omap _ _).
  assert (Hrows : forall k d start, (k, d, start) ∈ rows -> 0 <= d /\ claims D start d).
  { intros k d start ([i raw] & Hin & Hr)%list_elem_of_omap. unfold durable_row in Hr.
    destruct (bt_get i (c_segments c)) as [s|] eqn:Eg; [|done].
    destruct (is_state Completed s); [done|]. injection Hr as <- <- <-. split; [lia|].
    destruct (ci_table _ _ _ Hc _ _ Hin) as [_ H]. specialize (H s (bt_get_elem _ _ _ Eg)).
    destruct (Z.le_gt_cases (Z.min raw (size s)) 0); [apply claims_zero; lia|].
    eapply claims_le; [|exact H]. lia. }
  assert (Hc' : coord_inv W D (with_layout c (c_segments c) (c_next c) (c_states c)
    (if ok then update_segments_progress_batch (c_epoch c) rows (c_db c) else c_db c))).
  { destruct ok; [by apply batch_write_inv|by destruct c]. }
  destruct Hc'. split; try done. intros k d Hk. by apply elem_of_nil in Hk.
Qed.

(** ** The world *)

(** [w_out]: the coordinator, or how it stopped; [w_written], [w_durable]: the
    bytes of the file that have been written, and synced. *)
Record World := mkWorld {
  w_out : outcome;
  w_written : Z -> Prop;
  w_durable : Z -> Prop;
}.

(** [P] and [n] more bytes from [start]. *)
Definition extend (P : Z -> Prop) (start n : Z) (b : Z) : Prop := P b \/ start <= b < start + n.

(** [durable_progress.insert(idx, bytes)]. *)
Definition table_insert (k d : Z) (table : list (Z * Z)) : list (Z * Z) :=
  (k, d) :: List.filter (fun e => negb (e.1 =? k)) table.

Definition with_table (c : Coord) (table : list (Z * Z)) : Coord :=
  mkCoord (c_segments c) (c_next c) (c_states c) (c_total c) (c_expansions c) (c_open c)
    (c_hostile c) (c_serial c) (c_db c) table (c_epoch c).

Definition held (c : Coord) (k : Z) (s : LiveSegment) : Prop :=
  bt_get k (c_segments c) = Some s /\ state s = Active.

(** One step.  A worker acts on a segment it holds (an active one); what it
    reports it has written, what it checkpoints it has synced, and it never
    reports a segment done without a byte.  Spawns before this one may still
    write to the database. *)
Inductive step : World -> World -> Prop :=
| step_progress c W D k s d :
    held c k s -> 0 <= d ->
    step (mkWorld (Running c) W D)
      (mkWorld (Running (with_layout c (c_segments c) (c_next c)
                           (update_seg_state (c_states c) k d) (c_db c)))
         (extend W (start_byte s) d) D)
| step_checkpoint c W D k s d :
    held c k s -> 0 <= d ->
    step (mkWorld (Running c) W D)
      (mkWorld (Running (with_table c (table_insert k d (c_table c))))
         (extend W (start_byte s) d) (extend D (start_byte s) d))
| step_final_write c W D k s d :
    held c k s -> 0 <= d ->
    step (mkWorld (Running c) W D)
      (mkWorld (Running (with_layout c (c_segments c) (c_next c) (c_states c)
          (update_segment_progress_bounded k d (start_byte s) (c_epoch c) (c_db c))))
         (extend W (start_byte s) d) (extend D (start_byte s) d))
| step_stale_write c W D w :
    write_epoch w <> c_epoch c ->
    step (mkWorld (Running c) W D)
      (mkWorld (Running (with_layout c (c_segments c) (c_next c) (c_states c)
                           (apply_write (c_db c) w))) W D)
| step_done c W D k s d ok wenv senv :
    held c k s -> 0 < d -> claims W (start_byte s) d ->
    step (mkWorld (Running c) W D) (mkWorld (on_done ok wenv senv k d c) W D)
| step_preempted c W D k wenv senv :
    step (mkWorld (Running c) W D) (mkWorld (on_preempted wenv senv k c) W D)
| step_transient c W D k :
    step (mkWorld (Running c) W D) (mkWorld (on_transient_failure k c) W D)
| step_node_failed c W D v k wenv senv :
    step (mkWorld (Running c) W D) (mkWorld (on_node_failed v wenv senv k c) W D)
| step_larger c W D owns p u t v wenv senv k reported :
    step (mkWorld (Running c) W D)
      (mkWorld (on_true_size_larger owns p u t v wenv senv k reported c) W D)
| step_rejected c W D ser ok k c' :
    on_rejected ser ok k c = Some c' ->
    step (mkWorld (Running c) W D) (mkWorld (Running c') W D)
| step_spawn c W D wenv senv :
    step (mkWorld (Running c) W D) (mkWorld (on_spawn wenv senv c) W D)
| step_proactive c W D ok cs ro min_split cost :
    step (mkWorld (Running c) W D) (mkWorld (on_proactive_tick ok cs ro min_split cost c) W D)
| step_flush c W D ok :
    step (mkWorld (Running c) W D) (mkWorld (Running (on_flush ok c)) W D).

Definition world_inv (w : World) : Prop := out_inv (w_written w) (w_durable w) (w_out w).

(** ** The invariant is kept *)

Lemma update_seg_state_elem states k d i :
  i ∈ update_seg_state states k d -> i ∈ states \/ i_index i = k /\ i_downloaded_bytes i = d.
Proof.
  unfold update_seg_state. destruct (seg_state_pos states k) as [p|] eqn:E; [|by left].
  apply seg_state_pos_sound in E as (s & Hs & Hi).
  intros (j & Hj)%list_elem_of_lookup. destruct (decide (j = p)) as [->|Hne].
  - rewrite list_lookup_alter_eq, Hs in Hj. injection Hj as <-. right. done.
  - rewrite list_lookup_alter_ne in Hj by done. left. by eapply list_elem_of_lookup_2.
Qed.

Lemma update_seg_state_indices states k d : i_index <$> update_seg_state states k d = i_index <$> states.
Proof.
  unfold update_seg_state. destruct (seg_state_pos states k) as [p|]; [|done].
  apply list_eq. intros i. rewrite !list_lookup_fmap, list_lookup_alter.
  case_decide; [|done]. subst. by destruct (states !! i).
Qed.

Lemma inv_progress W D c k s d :
  coord_inv W D c -> held c k s -> 0 <= d -> claims W (start_byte s) d ->
  coord_inv W D (with_layout c (c_segments c) (c_next c) (update_seg_state (c_states c) k d) (c_db c)).
Proof.
  intros Hc [Hg _] Hd Hcl. apply inv_states_replace; [done| |].
  - rewrite update_seg_state_indices. apply Hc.
  - intros i [Hi|[Hk Hdl]]%update_seg_state_elem; [by apply (ci_states _ _ _ Hc)|].
    pose proof (bt_get_elem _ _ _ Hg) as Hin. rewrite Hk, Hdl. split; [done|].
    split; [by apply (inv_next _ _ _ (ci_seg _ _ _ Hc) _ s)|].
    intros s' Hin'. apply (bt_elem_get _ _ _ (inv_sorted _ _ _ (ci_seg _ _ _ Hc))) in Hin'.
    rewrite Hg in Hin'. by injection Hin' as <-.
Qed.

Lemma inv_checkpoint W D c k s d :
  coord_inv W D c -> held c k s -> claims D (start_byte s) d ->
  coord_inv W D (with_table c (table_insert k d (c_table c))).
Proof.
  intros Hc [Hg _] Hcl. pose proof (bt_get_elem _ _ _ Hg) as Hin. destruct Hc.
  split; try done. intros k' d' Hk. unfold with_table, table_insert in Hk. cbn [c_table] in Hk.
  apply elem_of_cons in Hk as [[= -> ->]|[Hk _]%elem_of_filter_bool]; [|by apply ci_table0].
  split; [by eapply inv_next|]. intros s' Hin'.
  apply (bt_elem_get _ _ _ (inv_sorted _ _ _ ci_seg0)) in Hin'.
  rewrite Hg in Hin'. by injection Hin' as <-.
Qed.

Lemma extend_claims P start n : claims (extend P start n) start n.
Proof. intros b Hb. by right. Qed.

Lemma inv_extend_written W D c start n : coord_inv W D c -> coord_inv (extend W start n) D c.
Proof.
  intros Hc. eapply inv_mono; [..|exact Hc]; [by left|done|].
  intros b Hb. left. by eapply ci_durable.
Qed.

Lemma inv_extend_durable W D c start n :
  coord_inv W D c -> coord_inv (extend W start n) (extend D start n) c.
Proof.
  intros Hc. eapply inv_mono; [..|exact Hc]; [by left|by left|].
  intros b [Hb|Hb]; [left; by eapply ci_durable|by right].
Qed.

Lemma apply_stale_write db w : write_epoch w <> st_epoch db -> apply_write db w = db.
Proof.
  intros H. destruct w; simpl in *; [apply guarded_update_stale|apply batch_stale]; congruence.
Qed.

Lemma step_inv w w' : world_inv w -> step w w' -> world_inv w'.
Proof.
  unfold world_inv. intros Hw Hs. destruct Hs; cbn [w_out w_written w_durable out_inv] in *.
  - eapply inv_progress; [by apply inv_extend_written|done|done|apply extend_claims].
  - eapply inv_checkpoint; [by apply inv_extend_durable|done|apply extend_claims].
  - destruct H as [Hg _].
    eapply (bounded_write_inv _ _ c k s d); [by apply inv_extend_durable|done|done|apply extend_claims].
  - rewrite apply_stale_write by (by rewrite (ci_epoch _ _ _ Hw)). by destruct c.
  - destruct H. by eapply on_done_inv.
  - by apply on_preempted_inv.
  - by apply on_transient_failure_inv.
  - by apply redispatch_inv, reclaim_inv.
  - by apply on_true_size_larger_inv.
  - destruct (on_rejected_inv W D ser ok k c Hw) as (c'' & Heq & H'). congruence.
  - by apply on_spawn_inv.
  - by apply on_proactive_tick_inv.
  - by apply on_flush_inv.
Qed.

(** ** Starting *)

Definition bare_coord (l : Layout) (gen : Z) : Coord :=
  mkCoord (il_segments l) (il_next l) (build_seg_state_vec (il_segments l)) (il_total l) 0 None
    false false (il_db l) [] gen.

Lemma bare_inv (W D : Z -> Prop) orig l gen :
  layout_ok orig (il_total l) l -> st_epoch (il_db l) = gen ->
  (forall b, D b -> W b) ->
  (forall k r, (k, r) ∈ orig -> claims D (r_start r) (r_downloaded r)) ->
  coord_inv W D (bare_coord l gen).
Proof.
  intros [Ht Hinv Hm Hok Hp Hst _] He HDW Hcl.
  assert (Hseg : forall k s, (k, s) ∈ il_segments l -> claims D (start_byte s) (downloaded_bytes s)).
  { intros k s Hin. apply (bt_elem_get _ _ _ (inv_sorted _ _ _ Hinv)) in Hin.
    destruct (Hp k s Hin) as [_ [->|(r & Hr & <- & <-)]]; [by apply claims_zero|].
    by eapply Hcl, bt_get_elem. }
  split; cbn [bare_coord c_segments c_next c_states c_total c_db c_table c_epoch]; try done.
  - intros k r Hr. pose proof (mirrors_get _ _ k Hm) as Hg.
    rewrite (bt_elem_get _ _ _ (ro_sorted _ Hok) Hr) in Hg.
    destruct (bt_get k (il_segments l)) as [s|] eqn:Es; [|done]. destruct Hg as [Hg1 _].
    destruct (Hp k s Es) as [(r' & Hr' & Hd) _].
    rewrite (bt_elem_get _ _ _ (ro_sorted _ Hok) Hr) in Hr'. injection Hr' as <-.
    rewrite Hg1, Hd. by eapply Hseg, bt_get_elem.
  - intros k s Hin. eapply claims_mono; [exact HDW|]. by eapply Hseg.
  - intros k s Hin Hc. pose proof (Hst k s (bt_elem_get _ _ _ (inv_sorted _ _ _ Hinv) Hin)) as Hs.
    rewrite Hs in Hc. destruct (Z.leb_spec (size s) (downloaded_bytes s)); [done|discriminate].
  - unfold build_seg_state_vec. rewrite <- list_fmap_compose.
    change (i_index ∘ info_of) with index. rewrite (seg_inv_indices _ _ _ Hinv).
    apply sorted_NoDup, Hinv.
  - intros i (s & -> & Hs)%list_elem_of_fmap. cbn.
    pose proof (bt_get_elem _ _ _ (bt_value_get _ _ _ _ Hinv Hs)) as Hin.
    split; [by eapply inv_downloaded|]. split; [by eapply inv_next|].
    intros s' Hin'. pose proof (bt_elem_get _ _ _ (inv_sorted _ _ _ Hinv) Hin') as Hg'.
    rewrite (bt_value_get _ _ _ _ Hinv Hs) in Hg'. injection Hg' as <-.
    eapply claims_mono; [exact HDW|]. by eapply Hseg.
  - intros k d Hk. by apply elem_of_nil in Hk.
Qed.

Lemma start_worker_inv W D c e : coord_inv W D c -> coord_inv W D (start_worker c e).
Proof.
  intros Hc. destruct e as [sent a]. unfold start_worker.
  pose proof (inv_set_state W D c (seg_index a) Active Hc ltac:(done)) as H1.
  assert (H2 : coord_inv W D (with_segments c (if sent
    then bt_alter (set_state Active) (seg_index a) (c_segments c)
    else bt_alter (set_state Pending) (seg_index a)
           (bt_alter (set_state Active) (seg_index a) (c_segments c))))).
  { destruct sent; [done|]. apply (inv_set_state W D _ (seg_index a) Pending) in H1; [exact H1|done]. }
  destruct (open_ended a); [by apply inv_with_open|done].
Qed.

Lemma start_coord_inv (W D : Z -> Prop) orig est sends allowed l gen :
  layout_ok orig (il_total l) l -> st_epoch (il_db l) = gen ->
  (forall b, D b -> W b) ->
  (forall k r, (k, r) ∈ orig -> claims D (r_start r) (r_downloaded r)) ->
  out_inv W D (start_coord est sends allowed gen l).
Proof.
  intros Hl He HDW Hcl. unfold start_coord. apply check_done_inv. cbn [out_inv].
  pose proof (bare_inv W D orig l gen Hl He HDW Hcl) as Hc. unfold bare_coord in Hc.
  revert Hc. generalize (mkCoord (il_segments l) (il_next l) (build_seg_state_vec (il_segments l))
    (il_total l) 0 None false false (il_db l) [] gen). intros c Hc.
  generalize (zip sends (take (Z.to_nat (initial_workers (il_segments l) allowed))
    (initial_assignments est (il_segments l)))). intros es. revert c Hc.
  induction es as [|e es IH]; intros c Hc; simpl; [done|]. apply IH. by apply start_worker_inv.
Qed.

(** A download: start-up on a store, then steps.  The bytes the stored rows
    claim were durable before, and the start-up is not the [drift_rebuilt]
    one. *)
Record start_ok (scope : ReportScope) (count total : Z) (db : Store) (W D : Z -> Prop) : Prop := {
  so_total : 0 < total;
  so_count : 1 <= count;
  so_rows : rows_ok (st_rows db);
  so_drift : drift_rebuilt scope total (st_rows db) = false;
  so_claims : forall k r, (k, r) ∈ st_rows db -> claims D (r_start r) (r_downloaded r);
  so_durable : forall b, D b -> W b;
}.

Definition started (scope : ReportScope) (est : bool) (count total gen file_len allowed : Z)
    (sends : list bool) (db : Store) (W D : Z -> Prop) (w : World) : Prop :=
  exists l, initial_layout scope est count total gen file_len db = Some l /\
    w = mkWorld (start_coord est sends allowed gen l) W D.

Lemma started_inv scope est count total gen file_len allowed sends db W D w :
  start_ok scope count total db W D ->
  started scope est count total gen file_len allowed sends db W D w -> world_inv w.
Proof.
  intros [Ht Hc Hr Hd Hcl HDW] (l & Hl & ->).
  destruct (initial_layout_ok scope est count total gen file_len db Ht Hc Hr) as (l' & Hl' & He & Hok).
  rewrite Hl in Hl'. injection Hl' as <-. rewrite Hd in Hok.
  unfold world_inv. cbn [w_out w_written w_durable]. by eapply start_coord_inv.
Qed.

Lemma reachable_inv w w' : world_inv w -> rtc step w w' -> world_inv w'.
Proof. intros Hw Hs. revert Hw. induction Hs; eauto using step_inv. Qed.

(** Reading the vector back does nothing when every segment is completed. *)
Lemma sync_all_done states : forall m,
  all_done m = true -> sync_downloaded_from_shared m states = m.
Proof.
  induction states as [|i states IH]; intros m Hd; simpl; [done|].
  assert (sync_one m i = m) as ->; [|by apply IH].
  unfold all_done, bt_values in Hd. unfold sync_one.
  induction m as [|[k s] m IHm]; simpl in *; [done|].
  apply andb_prop in Hd as [Hs Hd]. destruct (_ =? k).
  - apply is_state_true in Hs. assert (is_state Active s = false) as ->; [|done].
    apply not_true_iff_false. intros Ha%is_state_true. congruence.
  - by rewrite IHm.
Qed.

Lemma finished_sum W D c :
  coord_inv W D c -> all_done (c_segments c) = true ->
  c_total c <= sum_list_with_Z downloaded_bytes (bt_values (c_segments c)) /\
  forall s, s ∈ bt_values (c_segments c) -> size s <= downloaded_bytes s.
Proof.
  intros Hc Hd.
  assert (Hall : forall s, s ∈ bt_values (c_segments c) -> size s <= downloaded_bytes s).
  { intros s Hs. unfold all_done in Hd. rewrite forallb_forall in Hd.
    pose proof (Hd s (proj1 (list_elem_of_In _ _) Hs)) as Hst%is_state_true.
    apply list_elem_of_fmap in Hs as ([k s'] & -> & Hs). by apply (ci_done _ _ _ Hc k). }
  split; [|done].
  assert (Hne : Forall nonempty_seg (bt_values (c_segments c))).
  { apply Forall_forall. intros s ([k s'] & -> & Hs)%list_elem_of_fmap.
    by apply (inv_nonempty _ _ _ (ci_seg _ _ _ Hc) k). }
  pose proof (ci_total _ _ _ Hc) as Ht.
  pose proof (partition_values_contiguous (c_segments c) (c_total c) Hne ltac:(lia)
    (inv_partition _ _ _ (ci_seg _ _ _ Hc))) as Hcont.
  apply contiguous_sizes in Hcont.
  rewrite (sum_Z_perm size _ _ (merge_sort_Permutation by_start _)) in Hcont.
  assert (sum_list_with_Z size (bt_values (c_segments c)) <=
    sum_list_with_Z downloaded_bytes (bt_values (c_segments c))); [|lia].
  clear -Hall. induction (bt_values (c_segments c)) as [|s l IH]; simpl; [lia|].
  pose proof (Hall s ltac:(left)). specialize (IH ltac:(intros; apply Hall; by right)). lia.
Qed.

(** *** A run: two segments, one worker after the other *)

Definition run_scope : ReportScope := mkScope true false.
Definition run_store : Store := mkStore [] 0 1000 0.
Definition none_written (_ : Z) : Prop := False.
Definition run_wenv : WorkEnv := mkWorkEnv false MIN_SPLIT_BYTES no_cost.
Definition run_senv : SendEnv := mkSendEnv true true.

Definition run_layout : Layout :=
  Eval vm_compute in
  default (mkLayout [] 0 0 run_store []) (initial_layout run_scope false 2 1000 7 0 run_store).
Definition run_0 : Coord := Eval vm_compute in out_coord (start_coord false [true] 4 7 run_layout).

Lemma run_start_ok : start_ok run_scope 2 1000 run_store none_written none_written.
Proof.
  split; [lia|lia| |reflexivity| |done].
  - split; [constructor|]. intros k r Hin. by apply elem_of_nil in Hin.
  - intros k r Hin. by apply elem_of_nil in Hin.
Qed.

Lemma run_started :
  started run_scope false 2 1000 7 0 4 [true] run_store none_written none_written
    (mkWorld (Running run_0) none_written none_written).
Proof. exists run_layout. split; vm_compute; reflexivity. Qed.

Definition run_states (c : Coord) (k d : Z) : Coord :=
  with_layout c (c_segments c) (c_next c) (update_seg_state (c_states c) k d) (c_db c).

(** A worker writes its segment and reports it done. *)
Lemma run_segment c k s d (W D : Z -> Prop) :
  held c k s -> 0 < d ->
  rtc step (mkWorld (Running c) W D)
    (mkWorld (on_done true run_wenv run_senv k d (run_states c k d)) (extend W (start_byte s) d) D).
Proof.
  intros Hh Hd. eapply rtc_l; [by apply (step_progress c W D k s d); [|lia]|].
  apply rtc_once. apply (step_done _ _ _ k s); [by destruct Hh|done|apply extend_claims].
Qed.

Definition run_end : Coord := Eval vm_compute in
  out_coord (on_done true run_wenv run_senv 1 500 (run_states
    (out_coord (on_done true run_wenv run_senv 0 500 (run_states run_0 0 500))) 1 500)).

Lemma run_finishes :
  rtc step (mkWorld (Running run_0) none_written none_written)
    (mkWorld (Finished run_end) (extend (extend none_written 0 500) 500 500) none_written).
Proof.
  etransitivity.
  - apply (run_segment run_0 0 (mkSeg 0 0 499 0 Active None) 500); [by vm_compute|lia].
  - set (c := out_coord (on_done true run_wenv run_senv 0 500 (run_states run_0 0 500))).
    replace (on_done true run_wenv run_senv 0 500 (run_states run_0 0 500)) with (Running c)
      by (vm_compute; reflexivity).
    replace (Finished run_end) with (on_done true run_wenv run_senv 1 500 (run_states c 1 500))
      by (vm_compute; reflexivity).
    apply (run_segment c 1 (mkSeg 1 500 999 0 Active None) 500); [by vm_compute|lia].
Qed.

(** ** Theorems *)

(** C1. Every reachable state of a download, whatever the order of the
    events and the failures of the outside calls, keeps the invariant: while
    it runs or has finished, the map partitions the file, the rows mirror the
    map, and the map, the shared vector, the table and the rows claim only
    bytes that were written (synced, for the table and the rows); when it
    stops with an error the rows are still those of a covering layout. *)
Theorem reachable_states_safe scope est count total gen file_len allowed sends db W D w w' :
  start_ok scope count total db W D ->
  started scope est count total gen file_len allowed sends db W D w ->
  rtc step w w' -> world_inv w'.
Proof. intros Hok Hst. apply reachable_inv. by eapply started_inv. Qed.

Lemma reachable_states_safe_witness :
  coord_inv (extend (extend none_written 0 500) 500 500) none_written run_end.
Proof.
  pose proof (reachable_states_safe _ _ _ _ _ _ _ _ _ _ _ _ _ run_start_ok run_started run_finishes) as H.
  exact (proj1 H).
Defined.

(** C2. A download that finishes has written every byte of the file, and the
    final verification accepts it. *)
Theorem finished_is_complete scope est count total gen file_len allowed sends db W D w W' D' c :
  start_ok scope count total db W D ->
  started scope est count total gen file_len allowed sends db W D w ->
  rtc step w (mkWorld (Finished c) W' D') ->
  (forall b, 0 <= b < c_total c -> W' b) /\ final_verification c = Ok tt.
Proof.
  intros Hok Hst Hr. apply (reachable_inv _ _ (started_inv _ _ _ _ _ _ _ _ _ _ _ _ Hok Hst)) in Hr.
  destruct Hr as [Hc Hd]. cbn [w_written w_durable] in Hc.
  destruct (finished_sum _ _ _ Hc Hd) as [Hsum Hall]. split.
  - intros b Hb. destruct (cov_count_pos_inv (bt_values (c_segments c)) b) as (s & Hin & Hcov).
    { rewrite (inv_partition _ _ _ (ci_seg _ _ _ Hc)). b2z_lia. }
    pose proof (Hall s Hin). apply list_elem_of_fmap in Hin as ([k s'] & -> & Hin).
    apply (ci_claims _ _ _ Hc k _ Hin). unfold covers, size in *. cbn in *. bool_hyps. lia.
  - unfold final_verification. rewrite sync_all_done by done.
    destruct (Z.ltb_spec (sum_list_with_Z downloaded_bytes (bt_values (c_segments c))) (c_total c)); [lia|].
    apply validate_coverage_complete; [apply Hc| |apply Hc].
    apply Forall_forall. intros s ([k s'] & -> & Hs)%list_elem_of_fmap.
    by apply (inv_nonempty _ _ _ (ci_seg _ _ _ Hc) k).
Qed.

Lemma finished_is_complete_witness :
  (forall b, 0 <= b < 1000 -> extend (extend none_written 0 500) 500 500 b) /\
  final_verification run_end = Ok tt.
Proof.
  apply (finished_is_complete _ _ _ _ _ _ _ _ _ _ _ _ _ _ _ run_start_ok run_started run_finishes).
Defined.

(** C3. Whenever the process dies, the next start resumes soundly: from the
    rows left by any reachable state, running, finished or broken, start-up
    yields a layout, and whatever a segment of it counts as downloaded is
    durable in the file. *)
Theorem crash_resume_sound scope est count total gen file_len allowed sends db W D w w'
    scope2 est2 count2 total2 gen2 file_len2 :
  start_ok scope count total db W D ->
  started scope est count total gen file_len allowed sends db W D w ->
  rtc step w w' -> 0 < total2 -> 1 <= count2 ->
  exists l, initial_layout scope2 est2 count2 total2 gen2 file_len2 (c_db (out_coord (w_out w'))) = Some l /\
    forall k s, bt_get k (il_segments l) = Some s ->
      claims (w_durable w') (start_byte s) (downloaded_bytes s).
Proof.
  intros Hok Hst Hr Ht2 Hc2.
  apply (reachable_inv _ _ (started_inv _ _ _ _ _ _ _ _ _ _ _ _ Hok Hst)) in Hr.
  assert (Hdb : db_inv (w_durable w') (c_db (out_coord (w_out w')))).
  { unfold world_inv in Hr. destruct (w_out w') as [c|c|c]; cbn in *;
      [by eapply coord_inv_db|by destruct Hr; eapply coord_inv_db|done]. }
  destruct Hdb as (Hrows & Hcl & _).
  destruct (initial_layout_ok scope2 est2 count2 total2 gen2 file_len2 _ Ht2 Hc2 Hrows) as (l & Hl & _ & Hlo).
  exists l. split; [done|]. intros k s Hg.
  destruct (lo_progress _ _ _ Hlo k s Hg) as [_ [->|(r & Hr' & <- & <-)]]; [by apply claims_zero|].
  by eapply Hcl, bt_get_elem.
Qed.

Lemma crash_resume_sound_witness :
  exists l, initial_layout run_scope false 4 1000 8 1000 (c_db run_end) = Some l /\
    forall k s, bt_get k (il_segments l) = Some s -> claims none_written (start_byte s) (downloaded_bytes s).
Proof.
  apply (crash_resume_sound _ _ _ _ _ _ _ _ _ _ _ _ _ run_scope false 4 1000 8 1000
    run_start_ok run_started run_finishes); lia.
Defined.
