(* ===== verification/Ramp.v ===== *)
(** * Ramp: how many connections a download may open
      ([native/engine/src/segment_coordinator.rs], the adaptive ramp).

    The verdicts on a measured window, the freeze states, and the ramp tick
    itself: evaluation of the last growth, verification of a shrink, detection
    of sustained degradation, refill and growth, in the order of the code; and
    the reaction to a rejected connection.  Throughputs are IEEE doubles; the
    measured values, the clock and the live workers are arguments. *)
From S2P Require Import Prelude F64 Segments.

(** ** Constants and verdicts *)

Definition TAIL_FRACTION_DENOM : Z := 50.
Definition RAMP_INITIAL_WORKERS : Z := 4.
Definition RAMP_SOFT_PROBE_COOLDOWN_TICKS : Z := 15.
Definition RAMP_SOFT_PROBE_MAX_ATTEMPTS : Z := 2.
Definition RAMP_SOFT_PROBE_TASK_BUDGET : Z := 6.
Definition HINT_UNCAP_MAX : Z := 64.   (* desktop *)
Definition RAMP_IMPROVE_FACTOR : f64 := f64_lit 105 100.
Definition RAMP_COLLAPSE_FACTOR : f64 := f64_lit 1 2.
Definition RAMP_SHRINK_STRIKES : Z := 2.
Definition RAMP_SHRINK_EVAL_WINDOWS : Z := 2.
Definition RAMP_PEAK_DECAY : f64 := f64_lit 99 100.
Definition RAMP_UNCAP_LINEARITY : f64 := f64_lit 8 10.
Definition LIMITER_SATURATION_FLOOR : f64 := f64_lit 1 2.
Definition MAX_RETRIES : Z := 5.
Definition PINNED_NODE_MAX_RETRIES : Z := 2.

Definition dynamic_min_split_bytes (throughput_bps : f64) : Z :=
  let BW_LOW := f64_mul (f64_mul (f64_of_Z 1) (f64_of_Z 1024)) (f64_of_Z 1024) in
  let BW_HIGH := f64_mul (f64_mul (f64_of_Z 10) (f64_of_Z 1024)) (f64_of_Z 1024) in
  if f64_lt throughput_bps BW_LOW then 512 * 1024
  else if f64_lt throughput_bps BW_HIGH then 1024 * 1024
  else MIN_SPLIT_BYTES.

Inductive ShrinkEval := EvalPending | Confirmed | Revert.

Definition shrink_eval_verdict (shrunk_bps best_bps : f64) (windows : Z) : ShrinkEval :=
  if f64_gt best_bps (f64_mul shrunk_bps RAMP_IMPROVE_FACTOR) then Confirmed
  else if RAMP_SHRINK_EVAL_WINDOWS <=? windows then Revert
  else EvalPending.

Inductive RampVerdict := Improved | Freeze | Collapse.

Inductive FreezeState :=
| FActive
| FSoft (ticks_waited cooldown attempts : Z)
| FHard.

Definition is_active (f : FreezeState) : bool := match f with FActive => true | _ => false end.

Definition ramp_verdict (pre_grow_bps current_bps : f64) : RampVerdict :=
  if f64_gt current_bps (f64_mul pre_grow_bps RAMP_IMPROVE_FACTOR) then Improved
  else if f64_lt current_bps (f64_mul pre_grow_bps RAMP_COLLAPSE_FACTOR) then Collapse
  else Freeze.

Definition is_tail (remaining worker_cap total : Z) : bool :=
  (remaining <? worker_cap * MIN_SPLIT_BYTES) && (remaining <? idiv total TAIL_FRACTION_DENOM).

Definition should_shrink (throughput peak : f64) (allowed cap alive : Z) (frozen awaiting_eval : bool) : bool :=
  negb awaiting_eval && (frozen || (cap <=? allowed)) && (1 <? allowed) && (alive =? allowed)
  && f64_gt peak f64_zero && f64_lt throughput (f64_mul peak RAMP_COLLAPSE_FACTOR).

Definition should_expand (frozen conn_sensitive : bool) (alive allowed cap : Z) (shrunk_this_tick : bool) : bool :=
  negb frozen && negb conn_sensitive && (allowed <=? alive) && (allowed <? cap) && negb shrunk_this_tick.

Definition initial_allowed_workers (worker_cap : Z) (hint : option Z) : Z :=
  let base := match hint with
              | Some h =>
                  (* [h as usize]: a negative [i32] wraps *)
                  if RAMP_INITIAL_WORKERS <? wrap_u64 h then wrap_u64 h else RAMP_INITIAL_WORKERS
              | None => RAMP_INITIAL_WORKERS
              end in
  Z.max (Z.min worker_cap base) 1.

Definition hint_uncap_ceiling (allow : bool) (negative_cap hint : option Z) (base_cap : Z) : Z :=
  if negb allow || bool_decide (is_Some negative_cap) then base_cap
  else match hint with
       | None => base_cap
       | Some h =>
           if h <=? 0 then base_cap
           else
             let target := Z.min (Z.min (h * 2) HINT_UNCAP_MAX) MAX_SEGMENTS in
             if base_cap <? target then target else base_cap
       end.

Definition in_task_uncap_ceiling (allow : bool) (negative_cap : option Z) (cap pre_workers workers : Z)
    (pre_bps bps : f64) (remaining : Z) : Z :=
  if negb allow || bool_decide (is_Some negative_cap) || (workers <? cap) || (pre_workers =? 0) then cap
  else if (workers <=? pre_workers) || negb (f64_gt pre_bps f64_zero && f64_is_finite bps) then cap
  else
    let conn_gain := f64_sub (f64_div (f64_of_Z workers) (f64_of_Z pre_workers)) (f64_of_Z 1) in
    let rate_gain := f64_sub (f64_div bps pre_bps) (f64_of_Z 1) in
    if f64_lt rate_gain (f64_mul conn_gain RAMP_UNCAP_LINEARITY) then cap
    else
      let target := Z.min (Z.min (cap * 2) HINT_UNCAP_MAX) MAX_SEGMENTS in
      let fed := target * 2 * MIN_SPLIT_BYTES in
      if (cap <? target) && (fed <=? remaining) then target else cap.

Definition soft_probe_ready (freeze : FreezeState) (tail range_ok serial_mode conn_sensitive : bool)
    (reject_strikes alive allowed worker_cap task_probes_used : Z) : bool :=
  match freeze with
  | FSoft ticks_waited cooldown attempts =>
      (cooldown <=? ticks_waited) && (attempts <? RAMP_SOFT_PROBE_MAX_ATTEMPTS) && negb tail && range_ok
      && negb serial_mode && negb conn_sensitive && (reject_strikes =? 0) && (allowed <=? alive)
      && (allowed <? worker_cap) && (task_probes_used <? RAMP_SOFT_PROBE_TASK_BUDGET)
  | _ => false
  end.

Definition soft_probe_eval_transition (verdict : RampVerdict) (attempts cooldown : Z) : FreezeState * bool :=
  match verdict with
  | Improved => (FActive, false)
  | Freeze =>
      let next_attempts := sat_add_u32 attempts 1 in
      if RAMP_SOFT_PROBE_MAX_ATTEMPTS <=? next_attempts then (FHard, true)
      else (FSoft 0 (sat_mul_u32 cooldown 2) next_attempts, true)
  | Collapse => (FHard, true)
  end.

Definition freeze_verdict_next_state (task_probes_used : Z) : FreezeState :=
  if RAMP_SOFT_PROBE_TASK_BUDGET <=? task_probes_used then FHard
  else FSoft 0 RAMP_SOFT_PROBE_COOLDOWN_TICKS 0.

Definition sustained_shrink_next_state (current : FreezeState) (task_probes_used : Z) : FreezeState :=
  if is_active current then freeze_verdict_next_state task_probes_used else FHard.

Definition beneficial_hint_scale (proven_scale beneficial_scale : Z) : Z :=
  Z.min proven_scale beneficial_scale.

Definition buf_writer_capacity_for_segment (remaining_bytes : Z) : Z :=
  if 32 * 1024 * 1024 <=? remaining_bytes then 1024 * 1024
  else if 4 * 1024 * 1024 <=? remaining_bytes then 512 * 1024
  else 256 * 1024.

Definition window_app_limited (limit_bps throttle_waits_delta : Z) (throughput_bps : f64) : bool :=
  (0 <? limit_bps) && (0 <? throttle_waits_delta)
  && f64_ge throughput_bps (f64_mul LIMITER_SATURATION_FLOOR (f64_of_Z limit_bps)).

Definition sys_fast_release (sys_fallback_available open_ended no_range : bool) : bool :=
  sys_fallback_available && negb open_ended && negb no_range.

Definition segment_retry_budget (attributable_lease fast_release transport_error : bool) : Z :=
  if attributable_lease || (fast_release && transport_error) then PINNED_NODE_MAX_RETRIES else MAX_RETRIES.

(** ** The state of the ramp *)

Record RampState := mkRamp {
  allowed_workers : Z;
  worker_cap : Z;
  freeze : FreezeState;
  awaiting_ramp_eval : bool;
  probe_window : bool;
  soft_probe_task_used : Z;
  pre_grow_throughput : f64;
  pre_grow_workers : Z;
  peak_throughput : f64;
  shrink_strikes : Z;
  shrink_eval : option (Z * f64 * f64 * Z);
  shrink_disabled : bool;
  beneficial_scale : Z;
  proven_scale : Z;
  reject_strikes : Z;
  reject_quota : option Z;      (** [None]: [usize::MAX] *)
  uncap_floor : option Z;
  uncap_disabled : bool;
  serial_mode : bool;
}.

(** What a tick observes. *)
Record TickEnv := mkTick {
  throughput : f64;
  tail : bool;
  migrating : bool;
  rest : Z;                      (** bytes left of the file *)
  conn_sensitive : bool;
  allow_hint_uncap : bool;
  negative_cap : option Z;       (** [domain_conn_cap(url)] *)
  start_hint : option Z;
  connection_cap : option Z;     (** [spec.connection_cap()] *)
  alternates_used : bool;
  refill : Z -> Z -> Z;          (** live workers after refilling from [alive] up to [allowed] *)
}.

Definition set_allowed (a : Z) (st : RampState) : RampState :=
  mkRamp a (worker_cap st) (freeze st) (awaiting_ramp_eval st) (probe_window st)
    (soft_probe_task_used st) (pre_grow_throughput st) (pre_grow_workers st) (peak_throughput st)
    (shrink_strikes st) (shrink_eval st) (shrink_disabled st) (beneficial_scale st) (proven_scale st)
    (reject_strikes st) (reject_quota st) (uncap_floor st) (uncap_disabled st) (serial_mode st).

Definition set_cap (c : Z) (floor : option Z) (st : RampState) : RampState :=
  mkRamp (allowed_workers st) c (freeze st) (awaiting_ramp_eval st) (probe_window st)
    (soft_probe_task_used st) (pre_grow_throughput st) (pre_grow_workers st) (peak_throughput st)
    (shrink_strikes st) (shrink_eval st) (shrink_disabled st) (beneficial_scale st) (proven_scale st)
    (reject_strikes st) (reject_quota st) floor (uncap_disabled st) (serial_mode st).

Definition set_freeze (f : FreezeState) (st : RampState) : RampState :=
  mkRamp (allowed_workers st) (worker_cap st) f (awaiting_ramp_eval st) (probe_window st)
    (soft_probe_task_used st) (pre_grow_throughput st) (pre_grow_workers st) (peak_throughput st)
    (shrink_strikes st) (shrink_eval st) (shrink_disabled st) (beneficial_scale st) (proven_scale st)
    (reject_strikes st) (reject_quota st) (uncap_floor st) (uncap_disabled st) (serial_mode st).

Definition set_eval (awaiting probe : bool) (st : RampState) : RampState :=
  mkRamp (allowed_workers st) (worker_cap st) (freeze st) awaiting probe
    (soft_probe_task_used st) (pre_grow_throughput st) (pre_grow_workers st) (peak_throughput st)
    (shrink_strikes st) (shrink_eval st) (shrink_disabled st) (beneficial_scale st) (proven_scale st)
    (reject_strikes st) (reject_quota st) (uncap_floor st) (uncap_disabled st) (serial_mode st).

Definition set_beneficial (b : Z) (st : RampState) : RampState :=
  mkRamp (allowed_workers st) (worker_cap st) (freeze st) (awaiting_ramp_eval st) (probe_window st)
    (soft_probe_task_used st) (pre_grow_throughput st) (pre_grow_workers st) (peak_throughput st)
    (shrink_strikes st) (shrink_eval st) (shrink_disabled st) b (proven_scale st)
    (reject_strikes st) (reject_quota st) (uncap_floor st) (uncap_disabled st) (serial_mode st).

Definition set_shrink (peak : f64) (strikes : Z) (ev : option (Z * f64 * f64 * Z)) (disabled : bool)
    (st : RampState) : RampState :=
  mkRamp (allowed_workers st) (worker_cap st) (freeze st) (awaiting_ramp_eval st) (probe_window st)
    (soft_probe_task_used st) (pre_grow_throughput st) (pre_grow_workers st) peak strikes ev disabled
    (beneficial_scale st) (proven_scale st)
    (reject_strikes st) (reject_quota st) (uncap_floor st) (uncap_disabled st) (serial_mode st).

(** Growth to [a] connections, to be evaluated at the next tick. *)
Definition grow_to (a : Z) (probe : bool) (probes_used : Z) (now : f64) (st : RampState) : RampState :=
  mkRamp a (worker_cap st) (freeze st) true probe probes_used now (allowed_workers st)
    (peak_throughput st) (shrink_strikes st) (shrink_eval st) (shrink_disabled st)
    (beneficial_scale st) (proven_scale st)
    (reject_strikes st) (reject_quota st) (uncap_floor st) (uncap_disabled st) (serial_mode st).

(** ** The stages of a tick *)

(** Back to the scale before the growth. *)
Definition rollback (st : RampState) : RampState :=
  let a := Z.max (pre_grow_workers st) 1 in
  set_beneficial (Z.min (beneficial_scale st) a) (set_allowed a st).

(** 2.: the evaluation of the last growth.  The second component is the
    connection limit learned for the domain. *)
Definition eval_stage (env : TickEnv) (st0 : RampState) : RampState * option Z :=
  let st := if tail env || migrating env then set_eval false false st0 else st0 in
  if negb (awaiting_ramp_eval st) then (st, None)
  else
    let was_probe := probe_window st in
    let st := set_eval false false st in
    let verdict := ramp_verdict (pre_grow_throughput st) (throughput env) in
    if was_probe then
      let attempts := match freeze st with FSoft _ _ a => a | _ => 0 end in
      let cooldown := match freeze st with FSoft _ c _ => c | _ => RAMP_SOFT_PROBE_COOLDOWN_TICKS end in
      let '(next, back) := soft_probe_eval_transition verdict attempts cooldown in
      let st := set_freeze next st in
      ((if back then rollback st else set_beneficial (allowed_workers st) st), None)
    else
      match verdict with
      | Improved =>
          let st := set_beneficial (allowed_workers st) st in
          let uncapped :=
            in_task_uncap_ceiling
              (allow_hint_uncap env && negb (uncap_disabled st) && (reject_strikes st =? 0))
              (negative_cap env) (worker_cap st) (pre_grow_workers st) (allowed_workers st)
              (pre_grow_throughput st) (throughput env) (rest env) in
          let uncapped := match connection_cap env with
                          | Some l => Z.min uncapped (Z.max l 1)
                          | None => uncapped
                          end in
          if worker_cap st <? uncapped then
            let floor := match uncap_floor st with Some f => f | None => worker_cap st end in
            (set_cap uncapped (Some floor) st, None)
          else (st, None)
      | Collapse =>
          let st := rollback (set_freeze FHard st) in
          (st, if alternates_used env then None else Some (allowed_workers st))
      | Freeze =>
          let st := match start_hint env with
                    | Some h => if h <=? pre_grow_workers st then rollback st else st
                    | None => st
                    end in
          (set_freeze (freeze_verdict_next_state (soft_probe_task_used st)) st, None)
      end.

(** 2a'.: the verification of the last shrink; [true]: the allowance moved. *)
Definition shrink_eval_stage (env : TickEnv) (alive : Z) (st : RampState) : RampState * bool :=
  let put ev dis := set_shrink (peak_throughput st) (shrink_strikes st) ev dis st in
  match shrink_eval st with
  | None => (st, false)
  | Some (pre_workers, shrunk_bps, best_bps, windows) =>
      if tail env || migrating env then (put None (shrink_disabled st), false)
      else if allowed_workers st <? alive then (st, false)
      else
        let best_bps := f64_max best_bps (throughput env) in
        let windows := windows + 1 in
        match shrink_eval_verdict shrunk_bps best_bps windows with
        | EvalPending => (put (Some (pre_workers, shrunk_bps, best_bps, windows)) (shrink_disabled st), false)
        | Confirmed => (put None (shrink_disabled st), false)
        | Revert =>
            (set_allowed (Z.max (Z.min pre_workers (worker_cap st)) (allowed_workers st)) (put None true), true)
        end
  end.

(** 2b.: sustained degradation; [true]: the allowance shrank. *)
Definition shrink_stage (env : TickEnv) (alive : Z) (st : RampState) : RampState * bool :=
  let peak := f64_mul (peak_throughput st) RAMP_PEAK_DECAY in
  let put p strikes ev := set_shrink p strikes ev (shrink_disabled st) st in
  if f64_gt (throughput env) peak then (put (throughput env) 0 (shrink_eval st), false)
  else if negb (tail env) && negb (migrating env) && negb (shrink_disabled st)
          && bool_decide (shrink_eval st = None)
          && should_shrink (throughput env) peak (allowed_workers st) (worker_cap st) alive
               (negb (is_active (freeze st))) (awaiting_ramp_eval st)
  then
    let strikes := shrink_strikes st + 1 in
    if RAMP_SHRINK_STRIKES <=? strikes then
      let old := allowed_workers st in
      let a := Z.max (idiv old 2) 1 in
      let st1 := set_beneficial (Z.min (beneficial_scale st) a)
                   (set_allowed a (put peak 0 (Some (old, throughput env, f64_zero, 0)))) in
      (set_freeze (sustained_shrink_next_state (freeze st) (soft_probe_task_used st)) st1, true)
    else (put peak strikes (shrink_eval st), false)
  else (put peak 0 (shrink_eval st), false).

(** 3. and 4.: refill up to the allowance, then grow at most once and refill
    again.  The second component is the number of live workers. *)
Definition expand_stage (env : TickEnv) (shrunk : bool) (alive : Z) (st : RampState) : RampState * Z :=
  let alive := refill env alive (allowed_workers st) in
  if tail env || shrunk then (st, alive)
  else if soft_probe_ready (freeze st) (tail env) true false (conn_sensitive env) (reject_strikes st)
            alive (allowed_workers st) (worker_cap st) (soft_probe_task_used st)
  then
    let st := grow_to (Z.min (allowed_workers st + 1) (worker_cap st)) true
                (sat_add_u32 (soft_probe_task_used st) 1) (throughput env) st in
    (st, refill env alive (allowed_workers st))
  else if should_expand (negb (is_active (freeze st))) (conn_sensitive env) alive (allowed_workers st)
            (worker_cap st) shrunk
  then
    let st := grow_to (Z.min (allowed_workers st * 2) (worker_cap st)) false
                (soft_probe_task_used st) (throughput env) st in
    (st, refill env alive (allowed_workers st))
  else (st, alive).

(** The cooldown of a soft freeze counts full ticks. *)
Definition count_tick (st : RampState) : RampState :=
  match freeze st with
  | FSoft t c a => if awaiting_ramp_eval st then st else set_freeze (FSoft (sat_add_u32 t 1) c a) st
  | _ => st
  end.

(** The scale the server accepted without a rejection. *)
Definition prove_scale (env : TickEnv) (alive : Z) (st : RampState) : RampState :=
  if f64_gt (throughput env) f64_zero && (reject_strikes st =? 0) && negb (serial_mode st)
     && negb (conn_sensitive env) && (proven_scale st <? alive)
  then mkRamp (allowed_workers st) (worker_cap st) (freeze st) (awaiting_ramp_eval st) (probe_window st)
         (soft_probe_task_used st) (pre_grow_throughput st) (pre_grow_workers st) (peak_throughput st)
         (shrink_strikes st) (shrink_eval st) (shrink_disabled st) (beneficial_scale st) alive
         (reject_strikes st) (reject_quota st) (uncap_floor st) (uncap_disabled st) (serial_mode st)
  else st.

(** A full tick.  [active]: not serial, not all done, range support confirmed. *)
Definition ramp_tick (env : TickEnv) (all_done range_ok : bool) (alive : Z) (st : RampState)
    : RampState * Z * option Z :=
  let st := prove_scale env alive (count_tick st) in
  if negb (serial_mode st) && negb all_done && range_ok then
    let '(st, learned) := eval_stage env st in
    let '(st, s1) := shrink_eval_stage env alive st in
    let '(st, s2) := shrink_stage env alive st in
    let '(st, alive) := expand_stage env (s1 || s2) alive st in
    (st, alive, learned)
  else (st, alive, None).

(** ** Rejected connections *)

(** The graded reaction to a rejection while other connections live; the
    second component: the domain limit learned ([1]: single-connection). *)
Definition on_reject (transient_range can_learn : bool) (alive : Z) (st : RampState)
    : RampState * option Z :=
  let shedding_excess := negb transient_range && negb (serial_mode st)
    && match reject_quota st with Some q => q <? alive | None => false end in
  let overshoot_floor := match uncap_floor st with
    | Some floor => if negb shedding_excess && negb transient_range && negb (serial_mode st) && (floor <? alive)
                    then Some floor else None
    | None => None end in
  let strikes := if negb shedding_excess && bool_decide (overshoot_floor = None)
                 then reject_strikes st + 1 else reject_strikes st in
  let base allowed cap quota floor disabled serial :=
    mkRamp allowed cap FHard false false (soft_probe_task_used st)
      (pre_grow_throughput st) (pre_grow_workers st) (peak_throughput st) (shrink_strikes st)
      (shrink_eval st) (shrink_disabled st) (beneficial_scale st) (proven_scale st) strikes
      quota floor disabled serial in
  match overshoot_floor with
  | Some floor => (base floor floor (Some floor) None true (serial_mode st), None)
  | None =>
      if shedding_excess then
        (base (allowed_workers st) (worker_cap st) (reject_quota st) (uncap_floor st)
           (uncap_disabled st) (serial_mode st), None)
      else if negb (serial_mode st) && (strikes =? 1) && (2 <? alive) then
        let a := Z.max (idiv alive 2) 1 in
        (base a (worker_cap st) (Some a) (uncap_floor st) (uncap_disabled st) (serial_mode st),
         if can_learn then Some a else None)
      else
        (base (allowed_workers st) (worker_cap st) (reject_quota st) (uncap_floor st)
           (uncap_disabled st) true,
         if negb (serial_mode st) && can_learn then Some 1 else None)
  end.

(** A download's first state. *)
Definition initial_ramp (cap : Z) (hint : option Z) : RampState :=
  let a := initial_allowed_workers cap hint in
  mkRamp a cap FActive false false 0 f64_zero a f64_zero 0 None false a 0 0 None None false false.

(** Every connection was rejected with a 429: one connection is revived later. *)
Definition on_revive (st : RampState) : RampState :=
  mkRamp (allowed_workers st) (worker_cap st) FHard false false (soft_probe_task_used st)
    (pre_grow_throughput st) (pre_grow_workers st) (peak_throughput st) (shrink_strikes st)
    (shrink_eval st) (shrink_disabled st) (beneficial_scale st) (proven_scale st) (reject_strikes st)
    (reject_quota st) (uncap_floor st) (uncap_disabled st) true.

(** ** The invariant *)

Record ramp_inv (st : RampState) : Prop := mkRampInv {
  ri_allowed : 1 <= allowed_workers st <= worker_cap st;
  ri_cap : worker_cap st <= MAX_SEGMENTS;
  ri_probes : 0 <= soft_probe_task_used st <= RAMP_SOFT_PROBE_TASK_BUDGET;
  ri_pre : awaiting_ramp_eval st = true -> 1 <= pre_grow_workers st <= worker_cap st;
  ri_soft : forall t c a, freeze st = FSoft t c a -> 0 <= a < RAMP_SOFT_PROBE_MAX_ATTEMPTS;
  ri_probe : awaiting_ramp_eval st = true -> probe_window st = true ->
    exists t c a, freeze st = FSoft t c a;
  ri_grown : awaiting_ramp_eval st = true -> probe_window st = false -> freeze st = FActive;
  ri_floor : forall f, uncap_floor st = Some f -> 1 <= f <= worker_cap st;
  ri_quota : forall q, reject_quota st = Some q -> 1 <= q <= worker_cap st;
}.

(** One event.  A rejection finds at most twice the limit alive (see
    [reject_raises_allowance] for what happens beyond); range support is
    denied before any growth. *)
Inductive ramp_step : RampState -> RampState -> Prop :=
| ramp_tick_step env all_done range_ok alive st :
    ramp_step st (ramp_tick env all_done range_ok alive st).1.1
| ramp_reject_step tr cl alive st :
    alive <= 2 * worker_cap st + 1 ->
    ramp_step st (on_reject tr cl alive st).1
| ramp_revive_step st : ramp_step st (on_revive st)
| ramp_unsupported_step st :
    awaiting_ramp_eval st = false -> ramp_step st (set_freeze FHard st).

(** ** Lemmas *)

Lemma freeze_next_soft p t c a :
  freeze_verdict_next_state p = FSoft t c a -> 0 <= a < RAMP_SOFT_PROBE_MAX_ATTEMPTS.
Proof. unfold freeze_verdict_next_state. case_code; intros; simplify_eq. unfold RAMP_SOFT_PROBE_MAX_ATTEMPTS. lia. Qed.

Lemma probe_next_soft v att cd t c a b :
  0 <= att -> soft_probe_eval_transition v att cd = (FSoft t c a, b) ->
  0 <= a < RAMP_SOFT_PROBE_MAX_ATTEMPTS.
Proof.
  unfold soft_probe_eval_transition, sat_add_u32, u32_max. intros.
  case_code; split; lia.
Qed.

Lemma uncap_bounds allow neg cap pw w pb b r :
  cap <= in_task_uncap_ceiling allow neg cap pw w pb b r <= Z.max cap HINT_UNCAP_MAX.
Proof. unfold in_task_uncap_ceiling, MAX_SEGMENTS, HINT_UNCAP_MAX. case_code; lia. Qed.

Ltac ramp_split :=
  split; cbn [allowed_workers worker_cap freeze awaiting_ramp_eval probe_window soft_probe_task_used
    pre_grow_throughput pre_grow_workers peak_throughput shrink_strikes shrink_eval shrink_disabled
    beneficial_scale proven_scale reject_strikes reject_quota uncap_floor uncap_disabled serial_mode
    set_allowed set_cap set_freeze set_eval set_beneficial set_shrink grow_to rollback].

Lemma count_tick_inv st : ramp_inv st -> ramp_inv (count_tick st).
Proof.
  intros Hi. pose proof Hi as []. unfold count_tick. destruct (freeze st) as [|t c a|] eqn:E; [done| |done].
  destruct (awaiting_ramp_eval st) eqn:Ea; [done|]. ramp_split; try done; try congruence.
  intros t' c' a' [= <- <- <-]. by eapply ri_soft0.
Qed.

Lemma prove_scale_inv env alive st : ramp_inv st -> ramp_inv (prove_scale env alive st).
Proof. intros Hi. unfold prove_scale. destruct (_ && _); [|done]. destruct Hi. by ramp_split. Qed.

Lemma set_eval_inv st : ramp_inv st -> ramp_inv (set_eval false false st).
Proof. intros []. by ramp_split. Qed.

Lemma rollback_inv st :
  ramp_inv st -> awaiting_ramp_eval st = false -> pre_grow_workers st <= worker_cap st ->
  ramp_inv (rollback st).
Proof. intros [] Ha Hp. ramp_split; try done; try congruence. lia. Qed.

Lemma set_freeze_inv f st :
  ramp_inv st -> awaiting_ramp_eval st = false ->
  (forall t c a, f = FSoft t c a -> 0 <= a < RAMP_SOFT_PROBE_MAX_ATTEMPTS) ->
  ramp_inv (set_freeze f st).
Proof. intros [] Ha Hf. ramp_split; try done; congruence. Qed.

Lemma set_beneficial_inv b st : ramp_inv st -> ramp_inv (set_beneficial b st).
Proof. intros []. by ramp_split. Qed.

Lemma eval_stage_inv env st : ramp_inv st -> ramp_inv (eval_stage env st).1.
Proof.
  intros Hi. unfold eval_stage.
  set (st1 := if tail env || migrating env then set_eval false false st else st).
  assert (Hi1 : ramp_inv st1) by (unfold st1; destruct (_ || _); [by apply set_eval_inv|done]).
  clearbody st1. clear Hi st. rename st1 into st.
  destruct (awaiting_ramp_eval st) eqn:Ea; cbn [negb]; [|done].
  pose proof (ri_pre _ Hi1 Ea) as Hpre. pose proof (set_eval_inv _ Hi1) as Hi2.
  destruct (probe_window st) eqn:Ep.
  - destruct (ri_probe _ Hi1 Ea Ep) as (t & c & a & Ef).
    pose proof (ri_soft _ Hi1 _ _ _ Ef) as Ha. cbn [freeze set_eval]. rewrite Ef.
    destruct (soft_probe_eval_transition _ a c) as [next back] eqn:Et.
    assert (Hi3 : ramp_inv (set_freeze next (set_eval false false st))).
    { apply set_freeze_inv; [done|done|]. intros t' c' a' ->. eapply probe_next_soft; [|done]. lia. }
    destruct back; [apply rollback_inv|apply set_beneficial_inv]; try done. cbn. lia.
  - destruct (ramp_verdict _ _).
    + set (st2 := set_beneficial _ _). assert (Hi3 : ramp_inv st2) by by apply set_beneficial_inv.
      match goal with |- context [Z.ltb (worker_cap st2) ?u] => set (un := u) end.
      destruct (Z.ltb_spec (worker_cap st2) un) as [Hlt|]; [|done]. cbn [fst].
      assert (Hun : un <= MAX_SEGMENTS).
      { unfold un. pose proof (uncap_bounds (allow_hint_uncap env && negb (uncap_disabled st2) && (reject_strikes st2 =? 0))
          (negative_cap env) (worker_cap st2) (pre_grow_workers st2) (allowed_workers st2)
          (pre_grow_throughput st2) (throughput env) (rest env)) as [_ Hub].
        pose proof (ri_cap _ Hi3). unfold MAX_SEGMENTS, HINT_UNCAP_MAX in *.
        destruct (connection_cap env); lia. }
      clearbody un. clearbody st2. pose proof Hi3 as []. ramp_split; try done; try lia.
      * intros Hw. specialize (ri_pre0 Hw). lia.
      * intros f. destruct (uncap_floor st2) as [f0|] eqn:Efl; intros [= <-]; [|lia].
        specialize (ri_floor0 _ eq_refl). lia.
      * intros q Hq. specialize (ri_quota0 _ Hq). lia.
    + set (st2 := if start_hint env is Some h then _ else _).
      assert (Hi3 : ramp_inv st2 /\ awaiting_ramp_eval st2 = false).
      { unfold st2. destruct (start_hint env); [|done]. destruct (_ <=? _); [|done].
        split; [|done]. apply rollback_inv; [done|done|]. cbn. lia. }
      apply set_freeze_inv; [apply Hi3|apply Hi3|]. intros *. apply freeze_next_soft.
    + cbn [fst]. apply rollback_inv; [|done|cbn; lia]. by apply set_freeze_inv.
Qed.

Lemma set_shrink_inv p s e d st : ramp_inv st -> ramp_inv (set_shrink p s e d st).
Proof. intros []. by ramp_split. Qed.

Lemma set_allowed_inv a st :
  ramp_inv st -> 1 <= a <= worker_cap st -> ramp_inv (set_allowed a st).
Proof. intros [] Ha. by ramp_split. Qed.

Lemma shrink_eval_stage_inv env alive st : ramp_inv st -> ramp_inv (shrink_eval_stage env alive st).1.
Proof.
  intros Hi. unfold shrink_eval_stage. destruct (shrink_eval st) as [[[[pw sb] bb] w]|]; [|done].
  destruct (_ || _); [by apply set_shrink_inv|]. destruct (_ <? _); [done|].
  destruct (shrink_eval_verdict _ _ _); cbn [fst]; try by apply set_shrink_inv.
  apply set_allowed_inv; [by apply set_shrink_inv|]. pose proof (ri_allowed _ Hi). cbn. lia.
Qed.

Lemma shrink_stage_inv env alive st : ramp_inv st -> ramp_inv (shrink_stage env alive st).1.
Proof.
  intros Hi. unfold shrink_stage. destruct (f64_gt _ _); [by apply set_shrink_inv|].
  destruct (negb (tail env) && _ && _ && _ && _) eqn:E; [|by apply set_shrink_inv].
  destruct (_ <=? _); [|by apply set_shrink_inv]. cbn [fst].
  bool_hyps. unfold should_shrink in *. bool_hyps.
  pose proof (ri_allowed _ Hi).
  apply set_freeze_inv.
  - apply set_beneficial_inv, set_allowed_inv; [by apply set_shrink_inv|]. cbn.
    rewrite idiv_nonneg by lia. div_lia.
  - done.
  - intros *. unfold sustained_shrink_next_state. destruct (is_active _); [apply freeze_next_soft|done].
Qed.

Lemma expand_stage_inv env shrunk alive st : ramp_inv st -> ramp_inv (expand_stage env shrunk alive st).1.
Proof.
  intros Hi. unfold expand_stage. destruct (_ || _); [done|].
  pose proof (ri_allowed _ Hi). pose proof (ri_probes _ Hi).
  destruct (soft_probe_ready _ _ _ _ _ _ _ _ _ _) eqn:Es; cbn [fst].
  - unfold soft_probe_ready in Es. destruct (freeze st) as [|t c a|] eqn:Ef; [done| |done]. bool_hyps.
    destruct Hi. ramp_split; try done; try lia; try congruence.
    + unfold sat_add_u32, u32_max, RAMP_SOFT_PROBE_TASK_BUDGET in *. lia.
    + intros _ _. eauto.
  - destruct (should_expand _ _ _ _ _ _) eqn:Ee; cbn [fst]; [|done].
    unfold should_expand in Ee. bool_hyps. destruct Hi. ramp_split; try done; try lia; try congruence.
    intros _ _. by destruct (freeze st).
Qed.

Lemma ramp_tick_inv env ad ro alive st : ramp_inv st -> ramp_inv (ramp_tick env ad ro alive st).1.1.
Proof.
  intros Hi. unfold ramp_tick. apply count_tick_inv, (prove_scale_inv env alive) in Hi.
  destruct (_ && _); [|done].
  apply (eval_stage_inv env) in Hi. destruct (eval_stage env _) as [st1 learned].
  apply (shrink_eval_stage_inv env alive) in Hi. cbn [fst] in *. destruct (shrink_eval_stage _ _ st1) as [st2 s1].
  apply (shrink_stage_inv env alive) in Hi. cbn [fst] in *. destruct (shrink_stage _ _ st2) as [st3 s2].
  apply (expand_stage_inv env (s1 || s2) alive) in Hi. cbn [fst] in *.
  by destruct (expand_stage _ _ _ st3) as [st4 alive'].
Qed.

Lemma on_reject_inv tr cl alive st :
  ramp_inv st -> alive <= 2 * worker_cap st + 1 ->
  ramp_inv (on_reject tr cl alive st).1.
Proof.
  intros Hi Hal. pose proof Hi as []. unfold on_reject.
  set (shed := negb tr && _ && _).
  destruct (match uncap_floor st with Some _ => _ | None => None end) as [f|] eqn:Ef; cbn [fst].
  - destruct (uncap_floor st) as [f'|] eqn:Eu; [|done]. specialize (ri_floor0 _ eq_refl).
    match type of Ef with (if ?b then _ else _) = _ => destruct b; [|discriminate Ef] end.
    injection Ef as ->.
    ramp_split; try done; try lia. intros q [= <-]. lia.
  - destruct shed eqn:Eshed; cbn [fst]; [by ramp_split|].
    match goal with |- context [if ?b then (_, if cl then _ else _) else _] => destruct b eqn:E end;
      cbn [fst]; [|by ramp_split]. bool_hyps.
    assert (1 <= Z.max (idiv alive 2) 1 <= worker_cap st) as Ha.
    { rewrite idiv_nonneg by lia. div_lia. }
    ramp_split; try done. intros q [= <-]. done.
Qed.

Lemma ramp_step_inv st st' : ramp_inv st -> ramp_step st st' -> ramp_inv st'.
Proof.
  intros Hi Hs. destruct Hs.
  - by apply ramp_tick_inv.
  - by apply on_reject_inv.
  - destruct Hi. by ramp_split.
  - by apply set_freeze_inv.
Qed.

Lemma initial_ramp_inv cap hint : 1 <= cap <= MAX_SEGMENTS -> ramp_inv (initial_ramp cap hint).
Proof.
  intros Hc. unfold initial_ramp, initial_allowed_workers. ramp_split; try done.
  - destruct hint as [h|]; [destruct (_ <? _) eqn:E|]; unfold RAMP_INITIAL_WORKERS in *; bool_hyps; lia.
  - lia.
Qed.

(** *** What a hard freeze leaves *)

Definition allowance_ceiling (st : RampState) : Z :=
  match shrink_eval st with
  | Some (pre, _, _, _) => Z.max (allowed_workers st) pre
  | None => allowed_workers st
  end.

(** Nothing but the revision of a shrink raises the allowance. *)
Definition held_down (c : Z) (st : RampState) : Prop :=
  freeze st = FHard /\ awaiting_ramp_eval st = false /\ allowance_ceiling st <= c.

Lemma eval_stage_hard env c st : held_down c st -> held_down c (eval_stage env st).1.
Proof.
  intros (Hf & Ha & Hc). unfold eval_stage.
  destruct (tail env || migrating env); cbn [set_eval awaiting_ramp_eval negb fst]; [done|].
  rewrite Ha. cbn [negb fst]. done.
Qed.

Lemma shrink_eval_stage_hard env alive c st :
  held_down c st -> held_down c (shrink_eval_stage env alive st).1.
Proof.
  intros Hh. pose proof Hh as (Hf & Ha & Hc). unfold shrink_eval_stage, allowance_ceiling in Hc |- *.
  destruct (shrink_eval st) as [[[[pw sb] bb] w]|] eqn:E; [|done].
  destruct (_ || _); [repeat split; try done; unfold allowance_ceiling; cbn; lia|].
  destruct (_ <? _); [done|].
  destruct (shrink_eval_verdict _ _ _); repeat split; try done; unfold allowance_ceiling; cbn; lia.
Qed.

Lemma shrink_stage_hard env alive c st :
  ramp_inv st -> held_down c st -> held_down c (shrink_stage env alive st).1.
Proof.
  intros Hi (Hf & Ha & Hc). unfold shrink_stage.
  assert (Hput : forall p s, held_down c (set_shrink p s (shrink_eval st) (shrink_disabled st) st)).
  { intros. by repeat split. }
  destruct (f64_gt _ _); [done|].
  destruct (negb (tail env) && _ && _ && _ && _) eqn:E; [|done].
  destruct (_ <=? _); [|done]. cbn [fst]. bool_hyps. pose proof (ri_allowed _ Hi).
  repeat split; cbn; [by rewrite Hf|done|]. unfold allowance_ceiling in *. cbn.
  match goal with H : shrink_eval st = None |- _ => rewrite H in Hc end.
  rewrite idiv_nonneg by lia. div_lia.
Qed.

Lemma expand_stage_hard env shrunk alive c st :
  held_down c st -> held_down c (expand_stage env shrunk alive st).1.
Proof.
  intros (Hf & Ha & Hc). unfold expand_stage. destruct (_ || _); [done|].
  rewrite Hf. cbn [soft_probe_ready is_active negb should_expand andb fst]. done.
Qed.

Lemma ramp_tick_hard env ad ro alive c st :
  ramp_inv st -> held_down c st -> held_down c (ramp_tick env ad ro alive st).1.1.
Proof.
  intros Hi Hh. unfold ramp_tick.
  assert (Hh1 : held_down c (prove_scale env alive (count_tick st))).
  { destruct Hh as (Hf & Ha & Hc). unfold count_tick. rewrite Hf. unfold prove_scale.
    destruct (_ && _); done. }
  apply count_tick_inv, (prove_scale_inv env alive) in Hi. clear Hh.
  destruct (_ && _); [|done].
  apply (eval_stage_inv env) in Hi. apply (eval_stage_hard env) in Hh1.
  destruct (eval_stage env _) as [st1 learned]. cbn [fst] in *.
  apply (shrink_eval_stage_inv env alive) in Hi. apply (shrink_eval_stage_hard env alive) in Hh1.
  destruct (shrink_eval_stage _ _ st1) as [st2 s1]. cbn [fst] in *.
  apply (shrink_stage_hard env alive) in Hh1; [|done].
  destruct (shrink_stage _ _ st2) as [st3 s2]. cbn [fst] in *.
  apply (expand_stage_hard env (s1 || s2) alive) in Hh1.
  by destruct (expand_stage _ _ _ st3) as [st4 alive'].
Qed.

(** *** What a tick near the end of the file does *)

Lemma tail_shrink_eval env alive st :
  tail env = true ->
  let '(st', s) := shrink_eval_stage env alive st in
  allowed_workers st' = allowed_workers st /\ worker_cap st' = worker_cap st /\ s = false.
Proof.
  intros Ht. unfold shrink_eval_stage. rewrite Ht.
  by destruct (shrink_eval st) as [[[[pw sb] bb] w]|].
Qed.

Lemma tail_shrink env alive st :
  tail env = true ->
  let '(st', s) := shrink_stage env alive st in
  allowed_workers st' = allowed_workers st /\ worker_cap st' = worker_cap st /\ s = false.
Proof.
  intros Ht. unfold shrink_stage. rewrite Ht.
  by destruct (f64_gt (throughput env) (f64_mul (peak_throughput st) RAMP_PEAK_DECAY)).
Qed.

(** ** Theorems *)

(** In every reachable state of the ramp the allowance lies between one
    connection and the limit, the limit is at most [MAX_SEGMENTS], a probe runs
    only under a soft freeze, and a task makes at most
    [RAMP_SOFT_PROBE_TASK_BUDGET] probes. *)
Theorem ramp_bounded cap hint st :
  1 <= cap <= MAX_SEGMENTS -> rtc ramp_step (initial_ramp cap hint) st -> ramp_inv st.
Proof.
  intros Hc Hs. apply (initial_ramp_inv _ hint) in Hc. revert Hc.
  induction Hs; eauto using ramp_step_inv.
Qed.

(** A tick in mid-task: everything live, nothing at its end. *)
Definition sample_tick (bps : Z) : TickEnv :=
  mkTick (f64_of_Z bps) false false (1000 * MIN_SPLIT_BYTES) false true None None None false
    (fun _ allowed => allowed).

(** Two ticks of near-linear gain lift a limit of 8 to 32. *)
Definition grown_ramp : RampState :=
  (ramp_tick (sample_tick 400) false true 16
    (ramp_tick (sample_tick 200) false true 8
      (ramp_tick (sample_tick 100) false true 4 (initial_ramp 8 None)).1.1).1.1).1.1.

Lemma grown_ramp_reachable : rtc ramp_step (initial_ramp 8 None) grown_ramp.
Proof. do 3 (eapply rtc_r; [|apply ramp_tick_step]). apply rtc_refl. Qed.

Lemma ramp_bounded_witness :
  allowed_workers grown_ramp = 32 /\ worker_cap grown_ramp = 32 /\ ramp_inv grown_ramp.
Proof.
  split; [vm_compute; reflexivity|]. split; [vm_compute; reflexivity|].
  apply (ramp_bounded 8 None); [vm_compute; split; discriminate|apply grown_ramp_reachable].
Defined.

(** A hard freeze lasts: from then on no tick leaves it or evaluates a
    growth, and the allowance never exceeds the larger of its value at the
    freeze and the value a pending shrink verification may restore. *)
Theorem hard_freeze_is_final st envs :
  ramp_inv st -> freeze st = FHard -> awaiting_ramp_eval st = false ->
  let st' := foldl (fun st e => let '(env, ad, ro, alive) := e in (ramp_tick env ad ro alive st).1.1) st envs in
  freeze st' = FHard /\ awaiting_ramp_eval st' = false /\ allowed_workers st' <= allowance_ceiling st.
Proof.
  intros Hi Hf Ha st'.
  assert (H : forall st, ramp_inv st -> held_down (allowance_ceiling st) st -> forall c, held_down c st ->
    held_down c (foldl (fun st e => let '(env, ad, ro, alive) := e in (ramp_tick env ad ro alive st).1.1) st envs)).
  { clear. induction envs as [|[[[env ad] ro] alive] envs IH]; simpl; [done|]. intros st Hi Hh c Hc.
    apply IH; [by apply ramp_tick_inv| |by apply ramp_tick_hard].
    pose proof (ramp_tick_hard env ad ro alive c st Hi Hc) as (? & ? & _). by repeat split. }
  destruct (H st Hi ltac:(by repeat split) (allowance_ceiling st) ltac:(by repeat split)) as (H1 & H2 & H3).
  split; [exact H1|]. split; [exact H2|]. etransitivity; [|exact H3].
  unfold allowance_ceiling at 1. destruct (shrink_eval _) as [[[[pw ?] ?] ?]|]; [|done].
  apply Z.le_max_l.
Qed.

(** The first rejection: half the connections, and no growth any more. *)
Definition frozen_ramp : RampState := (on_reject false true 16
  (ramp_tick (sample_tick 100) false true 4 (initial_ramp 16 None)).1.1).1.

Lemma hard_freeze_is_final_witness :
  let envs := [(sample_tick 1000, false, true, 8); (sample_tick 9000, false, true, 8)] in
  let st' := foldl (fun st e => let '(env, ad, ro, alive) := e in (ramp_tick env ad ro alive st).1.1)
               frozen_ramp envs in
  freeze st' = FHard /\ awaiting_ramp_eval st' = false /\ allowed_workers st' <= allowance_ceiling frozen_ramp.
Proof.
  apply hard_freeze_is_final; [|vm_compute; reflexivity..].
  apply on_reject_inv; [apply ramp_tick_inv, initial_ramp_inv; vm_compute; split; discriminate|].
  vm_compute. discriminate.
Defined.

(** Near the end of the file a tick neither moves the allowance nor the
    limit, and learns nothing about the domain; and away from it a domain
    limit is learned only from the collapse of a normal growth, never from a
    probe: it is then the rolled-back allowance under a hard freeze. *)
Theorem tail_and_learning env alive st :
  (tail env = true -> forall ad ro,
     let '(st', _, learned) := ramp_tick env ad ro alive st in
     allowed_workers st' = allowed_workers st /\ worker_cap st' = worker_cap st /\ learned = None) /\
  (forall c, (eval_stage env st).2 = Some c ->
     awaiting_ramp_eval st = true /\ probe_window st = false /\
     ramp_verdict (pre_grow_throughput st) (throughput env) = Collapse /\
     c = Z.max (pre_grow_workers st) 1 /\ allowed_workers (eval_stage env st).1 = c /\
     freeze (eval_stage env st).1 = FHard).
Proof.
  split.
  - intros Ht ad ro. unfold ramp_tick.
    assert (Hp : allowed_workers (prove_scale env alive (count_tick st)) = allowed_workers st /\
      worker_cap (prove_scale env alive (count_tick st)) = worker_cap st).
    { unfold prove_scale, count_tick. destruct (freeze st); [|destruct (awaiting_ramp_eval st)|];
        destruct (_ && _); done. }
    set (st0 := prove_scale env alive (count_tick st)) in *. clearbody st0.
    destruct (_ && _); [|by destruct Hp].
    assert (He : eval_stage env st0 = (set_eval false false st0, None)).
    { unfold eval_stage. by rewrite Ht. }
    rewrite He. pose proof (tail_shrink_eval env alive (set_eval false false st0) Ht) as Hse.
    destruct (shrink_eval_stage env alive (set_eval false false st0)) as [st1 s1].
    destruct Hse as (H1 & H2 & ->).
    pose proof (tail_shrink env alive st1 Ht) as Hsh.
    destruct (shrink_stage env alive st1) as [st2 s2]. destruct Hsh as (H4 & H5 & ->).
    assert (Hx : expand_stage env (false || false) alive st2 = (st2, refill env alive (allowed_workers st2))).
    { unfold expand_stage. by rewrite Ht. }
    rewrite Hx, H4, H5, H1, H2. by destruct Hp.
  - intros c. unfold eval_stage. destruct (tail env || migrating env) eqn:Et; [done|].
    destruct (awaiting_ramp_eval st); [|done]. cbn [negb set_eval probe_window pre_grow_throughput].
    destruct (probe_window st).
    + destruct (soft_probe_eval_transition _ _ _). done.
    + destruct (ramp_verdict _ _) eqn:Ev; [destruct (_ <? _); done|done|].
      destruct (alternates_used env); [done|]. cbn. by intros [= <-].
Qed.

Lemma tail_and_learning_witness :
  (eval_stage (sample_tick 10) (ramp_tick (sample_tick 100) false true 4 (initial_ramp 8 None)).1.1).2 = Some 4 /\
  freeze (eval_stage (sample_tick 10)
    (ramp_tick (sample_tick 100) false true 4 (initial_ramp 8 None)).1.1).1 = FHard.
Proof.
  assert ((eval_stage (sample_tick 10)
    (ramp_tick (sample_tick 100) false true 4 (initial_ramp 8 None)).1.1).2 = Some 4) as E
    by (vm_compute; reflexivity).
  split; [exact E|].
  destruct (tail_and_learning (sample_tick 10) 8
    (ramp_tick (sample_tick 100) false true 4 (initial_ramp 8 None)).1.1) as [_ H].
  by destruct (H 4 E) as (_ & _ & _ & _ & _ & Hf).
Defined.

(** A rejection can raise the allowance above the limit: after growth
    past the initial limit and a rejection that falls back to it, a transient
    full response with the excess connections still alive "halves" them into
    an allowance above both. *)
Theorem reject_raises_allowance :
  let st1 := (on_reject false true 32 grown_ramp).1 in
  let st2 := (on_reject true true 31 st1).1 in
  rtc ramp_step (initial_ramp 8 None) grown_ramp /\
  allowed_workers st1 = 8 /\ worker_cap st1 = 8 /\
  allowed_workers st2 = 15 /\ worker_cap st2 = 8.
Proof. split; [apply grown_ramp_reachable|]. vm_compute. done. Qed.
