(* ===== verification/SpeedLimiter.v ===== *)
(** * SpeedLimiter: the token bucket all downloads share
      ([native/engine/src/speed_limiter.rs]).

    Any number of [consume] calls and the refill task run concurrently on
    atomic variables.  A step here is one atomic access: each call and the
    refill task has a program counter, an [Event] runs one of them for a step,
    lets time pass or sets the limit, and a schedule is any list of events.  A
    [compare_exchange_weak] may fail for no reason, which the schedule decides.
    Waiting on a [Notify] or a timer ends at any moment: the wait in [consume]
    is bounded, so a lost notification only delays.

    [granted] and [passed] do not exist in the code: they add up what the calls
    returned, with and without a limit.  Time is in microseconds. *)
From S2P Require Import Prelude.

Definition REFILL_INTERVAL_MS : Z := 50.
Definition CAP_DURATION_MS : Z := 250.

(** ** State *)

(** A call of [consume], by what it does next. *)
Inductive Consumer :=
| Ready
| ReadLimit (requested : Z)
| ReadTokens (requested : Z)
| Exchange (requested available : Z)
| CountWait (requested : Z)
| Waiting (requested : Z).

(** The refill task, by what it does next. *)
Inductive RefillTask :=
| NextTick
| Clearing
| LongSleep
| Measuring (limit : Z)
| Adding (refill cap : Z)
| Swapping (refill cap current : Z).

Record Limiter := mk_limiter {
  limit_bps : Z; tokens : Z; throttle_waits : Z;
  clock : Z; last_refill : Z; refill_task : RefillTask; consumers : list Consumer;
  granted : Z; passed : Z }.

Definition set_tokens (v : Z) (s : Limiter) : Limiter :=
  mk_limiter (limit_bps s) v (throttle_waits s) (clock s) (last_refill s) (refill_task s) (consumers s) (granted s) (passed s).
Definition set_waits (v : Z) (s : Limiter) : Limiter :=
  mk_limiter (limit_bps s) (tokens s) v (clock s) (last_refill s) (refill_task s) (consumers s) (granted s) (passed s).
Definition set_last (v : Z) (s : Limiter) : Limiter :=
  mk_limiter (limit_bps s) (tokens s) (throttle_waits s) (clock s) v (refill_task s) (consumers s) (granted s) (passed s).
Definition set_refill (v : RefillTask) (s : Limiter) : Limiter :=
  mk_limiter (limit_bps s) (tokens s) (throttle_waits s) (clock s) (last_refill s) v (consumers s) (granted s) (passed s).
Definition set_consumers (v : list Consumer) (s : Limiter) : Limiter :=
  mk_limiter (limit_bps s) (tokens s) (throttle_waits s) (clock s) (last_refill s) (refill_task s) v (granted s) (passed s).
Definition grant (n : Z) (s : Limiter) : Limiter :=
  mk_limiter (limit_bps s) (tokens s) (throttle_waits s) (clock s) (last_refill s) (refill_task s) (consumers s) (granted s + n) (passed s).
Definition pass (n : Z) (s : Limiter) : Limiter :=
  mk_limiter (limit_bps s) (tokens s) (throttle_waits s) (clock s) (last_refill s) (refill_task s) (consumers s) (granted s) (passed s + n).

(** [SpeedLimiter::new], then [spawn_refill_task] at once, and [n] callers. *)
Definition limiter_new (limit : Z) (n : nat) : Limiter :=
  mk_limiter limit 0 0 0 0 NextTick (replicate n Ready) 0 0.

Definition set_limit (limit : Z) (s : Limiter) : Limiter :=
  mk_limiter limit (tokens s) (throttle_waits s) (clock s) (last_refill s) (refill_task s) (consumers s) (granted s) (passed s).
Definition elapse (d : Z) (s : Limiter) : Limiter :=
  mk_limiter (limit_bps s) (tokens s) (throttle_waits s) (clock s + d) (last_refill s) (refill_task s) (consumers s) (granted s) (passed s).

(** ** [consume] *)

Definition consume (requested : Z) : Consumer := if requested =? 0 then Ready else ReadLimit requested.

(** One step of a call; [spurious]: a weak exchange fails for no reason. *)
Definition consume_step (spurious : bool) (c : Consumer) (s : Limiter) : Consumer * Limiter :=
  match c with
  | Ready => (Ready, s)
  | ReadLimit requested =>
      if limit_bps s =? 0 then (Ready, pass requested s) else (ReadTokens requested, s)
  | ReadTokens requested =>
      if 0 <? tokens s then (Exchange requested (tokens s), s) else (CountWait requested, s)
  | Exchange requested available =>
      let take := Z.min requested available in
      if negb spurious && (tokens s =? available)
      then (Ready, grant take (set_tokens (available - take) s))
      else (ReadLimit requested, s)
  | CountWait requested => (Waiting requested, set_waits (wrap_u64 (throttle_waits s + 1)) s)
  | Waiting requested => (ReadLimit requested, s)
  end.

(** ** The refill task *)

(** The products are computed in [u64] and wrap. *)
Definition capacity_of (limit : Z) : Z :=
  let nominal_tick := wrap_u64 (limit * REFILL_INTERVAL_MS) / 1000 in
  Z.max (Z.max (wrap_u64 (limit * CAP_DURATION_MS) / 1000) (wrap_u64 (nominal_tick * 2))) 1.

Definition refill_step (spurious : bool) (s : Limiter) : Limiter :=
  match refill_task s with
  | NextTick => if limit_bps s =? 0 then set_refill Clearing s else set_refill (Measuring (limit_bps s)) s
  | Clearing => set_refill LongSleep (set_tokens 0 s)
  | LongSleep => set_refill NextTick (set_last (clock s) s)
  | Measuring limit =>
      let elapsed_us := wrap_u64 (clock s - last_refill s) in
      let refill := wrap_u64 (limit * elapsed_us / 1000000) in
      if refill =? 0 then set_refill NextTick s
      else set_refill (Adding refill (capacity_of limit)) (set_last (clock s) s)
  | Adding refill cap =>
      if Z.min (sat_add_u64 (tokens s) refill) cap =? tokens s then set_refill NextTick s
      else set_refill (Swapping refill cap (tokens s)) s
  | Swapping refill cap current =>
      if negb spurious && (tokens s =? current)
      then set_refill NextTick (set_tokens (Z.min (sat_add_u64 current refill) cap) s)
      else set_refill (Adding refill cap) s
  end.

(** ** Schedules *)

Inductive Event :=
| Call (i : nat) (requested : Z)
| Run (i : nat) (spurious : bool)
| Refill (spurious : bool)
| Elapse (d : Z)
| SetLimit (limit : Z).

Definition step (s : Limiter) (e : Event) : Limiter :=
  match e with
  | Call i requested =>
      match consumers s !! i with
      | Some Ready => set_consumers (<[i := consume requested]> (consumers s)) s
      | _ => s
      end
  | Run i spurious =>
      match consumers s !! i with
      | Some c => let '(c, s) := consume_step spurious c s in set_consumers (<[i := c]> (consumers s)) s
      | None => s
      end
  | Refill spurious => refill_step spurious s
  | Elapse d => elapse d s
  | SetLimit limit => set_limit limit s
  end.

Definition run (es : list Event) (s : Limiter) : Limiter := foldl step s es.

(** Requests are sizes, time does not go back, limits are at most [L]. *)
Definition event_ok (L : Z) (e : Event) : Prop :=
  match e with
  | Call _ requested => 0 <= requested
  | Elapse d => 0 <= d
  | SetLimit limit => 0 <= limit <= L
  | _ => True
  end.

(** ** The invariant *)

Definition consumer_ok (c : Consumer) : Prop :=
  match c with
  | Ready => True
  | ReadLimit r | ReadTokens r | CountWait r | Waiting r => 0 < r
  | Exchange r a => 0 < r /\ 0 < a
  end.

Definition refill_ok (L : Z) (r : RefillTask) : Prop :=
  match r with
  | Measuring limit => 0 < limit <= L
  | Adding refill cap | Swapping refill cap _ => 0 < refill /\ 0 < cap <= capacity_of L
  | _ => True
  end.

Record limiter_ok (L : Z) (s : Limiter) : Prop := mk_limiter_ok {
  ok_limit : 0 <= limit_bps s <= L;
  ok_tokens : 0 <= tokens s <= capacity_of L;
  ok_clock : last_refill s <= clock s;
  ok_refill : refill_ok L (refill_task s);
  ok_consumers : Forall consumer_ok (consumers s) }.

(** The limits whose capacity is computed without overflow. *)
Definition sane (L : Z) : Prop := 0 <= L /\ L * CAP_DURATION_MS < 2 ^ 64.

Lemma u64_bounds z : 0 <= wrap_u64 z < 2 ^ 64.
Proof. apply Z.mod_pos_bound. lia. Qed.

Lemma u64_le z : 0 <= z -> wrap_u64 z <= z.
Proof. intros Hz. apply Z.mod_le; lia. Qed.

Lemma u64_small z : 0 <= z < 2 ^ 64 -> wrap_u64 z = z.
Proof. apply Z.mod_small. Qed.

(** A quarter of a second's worth, if the limit is not tiny. *)
Lemma capacity_of_eq L : sane L -> capacity_of L = Z.max (Z.max (L * 250 / 1000) (L * 50 / 1000 * 2)) 1.
Proof.
  unfold sane, capacity_of, CAP_DURATION_MS, REFILL_INTERVAL_MS. intros [H1 H2].
  assert (0 <= L * 50 / 1000 * 2 <= L * 250) as H3 by (Z.div_mod_to_equations; lia).
  rewrite (u64_small (L * 50)), (u64_small (L * 250)), u64_small by lia. done.
Qed.

Lemma capacity_of_mono l L : sane L -> 0 <= l <= L -> capacity_of l <= capacity_of L.
Proof.
  intros HL Hl. assert (sane l) as Hl' by (unfold sane, CAP_DURATION_MS in *; lia).
  rewrite !capacity_of_eq by done.
  assert (l * 250 / 1000 <= L * 250 / 1000) as H1 by (apply Z.div_le_mono; lia).
  assert (l * 50 / 1000 <= L * 50 / 1000) as H2 by (apply Z.div_le_mono; lia). lia.
Qed.

Lemma capacity_of_pos l : 0 < capacity_of l.
Proof. unfold capacity_of. lia. Qed.

(** ** Credit

    What has been granted, what may be granted without more time passing (the
    tokens, those about to be added, those the time since the last refill is
    worth), in millionths of a byte. *)

Definition inflight (r : RefillTask) : Z :=
  match r with Adding refill cap | Swapping refill cap _ => Z.min refill cap | _ => 0 end.

Definition unclaimed (L : Z) (s : Limiter) : Z :=
  Z.min (1000000 * capacity_of L) (L * (clock s - last_refill s)).

Definition credit (L : Z) (s : Limiter) : Z :=
  1000000 * (granted s + tokens s + inflight (refill_task s)) + unclaimed L s.

Section Steps.
Context (L : Z) (HL : sane L).

Lemma capacity_range l : 0 < l <= L -> 0 < capacity_of l <= capacity_of L.
Proof. intros Hl. split; [apply capacity_of_pos|apply capacity_of_mono; [done|lia]]. Qed.

Lemma saturating_min a b cap : 0 <= a -> 0 < b -> 0 < cap -> Z.min (sat_add_u64 a b) cap <= a + Z.min b cap.
Proof. unfold sat_add_u64, u64_max. lia. Qed.

(** What a call does: it takes the tokens it is granted. *)
Lemma consume_step_spec spurious c s :
  consumer_ok c -> 0 <= tokens s ->
  let '(c', s') := consume_step spurious c s in
  consumer_ok c' /\ 0 <= tokens s' <= tokens s /\ granted s' + tokens s' = granted s + tokens s /\
  limit_bps s' = limit_bps s /\ clock s' = clock s /\ last_refill s' = last_refill s /\
  refill_task s' = refill_task s /\ consumers s' = consumers s.
Proof.
  intros Hc Ht. destruct c as [|r|r|r a|r|r]; cbn in Hc; cbn [consume_step]; try (split_and!; done || lia).
  - destruct (_ =? 0); cbn; split_and!; done || lia.
  - destruct (0 <? tokens s) eqn:E; cbn; bool_hyps; split_and!; try done; lia.
  - destruct (_ && _) eqn:E; cbn; bool_hyps; split_and!; try done; lia.
Qed.

(** Waking up, measuring, adding: the refill task turns time into tokens. *)
Lemma refill_step_spec spurious s :
  limiter_ok L s ->
  let s' := refill_step spurious s in
  limiter_ok L s' /\ credit L s' <= credit L s /\ granted s' = granted s /\ clock s' = clock s.
Proof.
  intros [H1 H2 H3 H4 H5] s'. subst s'. unfold refill_step, credit, unclaimed. pose proof (capacity_of_pos L).
  assert (0 <= L * (clock s - last_refill s)) as Hmul by (apply Z.mul_nonneg_nonneg; lia).
  destruct (refill_task s) as [| | |limit|refill cap|refill cap current] eqn:E; cbn in H4.
  - destruct (limit_bps s =? 0) eqn:E0; bool_hyps; cbn; split_and!; try done; try lia; constructor; cbn; try done; lia.
  - cbn. split_and!; try done; try lia; constructor; cbn; try done; lia.
  - cbn. rewrite Z.sub_diag, Z.mul_0_r. split_and!; try done; try lia; constructor; cbn; try done; lia.
  - set (elapsed := wrap_u64 (clock s - last_refill s)). set (refill := wrap_u64 (limit * elapsed / 1000000)).
    assert (0 <= elapsed <= clock s - last_refill s) as He by (subst elapsed; split; [apply u64_bounds|apply u64_le; lia]).
    assert (0 <= limit * elapsed <= L * (clock s - last_refill s)) as Hle by nia.
    assert (0 <= refill /\ 1000000 * refill <= limit * elapsed) as Hr.
    { subst refill. pose proof (u64_bounds (limit * elapsed / 1000000)) as [Hb _]. split; [done|].
      assert (0 <= limit * elapsed / 1000000) as H0 by (apply Z.div_pos; lia). apply u64_le in H0.
      transitivity (1000000 * (limit * elapsed / 1000000)); [lia|apply Z.mul_div_le; lia]. }
    destruct (refill =? 0) eqn:E0; bool_hyps; cbn.
    + split_and!; try done; try lia; by constructor.
    + pose proof (capacity_range limit H4) as Hcap. rewrite Z.sub_diag, Z.mul_0_r.
      split_and!; try done; [constructor; cbn; try done; lia|].
      assert (1000000 * Z.min refill (capacity_of limit) <= Z.min (1000000 * capacity_of L) (L * (clock s - last_refill s))) by lia. lia.
  - destruct (_ =? tokens s) eqn:E0; cbn; split_and!; try done; try lia; constructor; cbn; done || lia.
  - destruct (negb spurious && (tokens s =? current)) eqn:E0; cbn; bool_hyps.
    + subst current. pose proof (saturating_min (tokens s) refill cap) as Hs. split_and!; try done; [|lia].
      constructor; cbn; try done. unfold sat_add_u64, u64_max. lia.
    + split_and!; try done; try lia; constructor; cbn; done || lia.
Qed.

Lemma step_spec s e :
  limiter_ok L s -> event_ok L e ->
  let s' := step s e in
  let d := match e with Elapse d => d | _ => 0 end in
  limiter_ok L s' /\ credit L s' <= credit L s + L * d /\ clock s' = clock s + d.
Proof.
  intros Hok He s' d. destruct e as [i r|i spurious|spurious|d'|limit]; cbn in He; subst s' d; cbn [step].
  - rewrite Z.mul_0_r, !Z.add_0_r. destruct (consumers s !! i) as [[]|] eqn:E; try (split_and!; done || lia).
    destruct Hok as [H1 H2 H3 H4 H5]. split_and!; [|unfold credit, unclaimed; cbn; lia|done]. constructor; cbn; try done.
    apply Forall_insert; [done|]. unfold consume. destruct (r =? 0) eqn:E0; bool_hyps; cbn; [done|lia].
  - rewrite Z.mul_0_r, !Z.add_0_r. destruct (consumers s !! i) as [c|] eqn:E; [|split_and!; done || lia].
    destruct Hok as [H1 H2 H3 H4 H5].
    assert (consumer_ok c) as Hc by (by apply (proj1 (Forall_lookup _ _) H5 i)).
    pose proof (consume_step_spec spurious c s Hc (proj1 H2)) as H. destruct (consume_step spurious c s) as [c' s1].
    destruct H as (G1 & G2 & G3 & G4 & G5 & G6 & G7 & G8). split_and!; [| |done].
    + constructor; cbn; rewrite ?G4, ?G5, ?G6, ?G7, ?G8; try done; [lia|]. by apply Forall_insert.
    + unfold credit, unclaimed. cbn. rewrite G5, G6, G7, G3. lia.
  - rewrite Z.mul_0_r, !Z.add_0_r. by destruct (refill_step_spec spurious s Hok) as (? & ? & _ & ?).
  - destruct Hok as [H1 H2 H3 H4 H5]. unfold sane in HL. split_and!; [constructor; cbn; try done; lia| |done].
    unfold credit, unclaimed. cbn. replace (clock s + d' - last_refill s) with (clock s - last_refill s + d') by lia.
    rewrite Z.mul_add_distr_l. assert (0 <= L * d') by (apply Z.mul_nonneg_nonneg; lia). lia.
  - rewrite Z.mul_0_r, !Z.add_0_r. destruct Hok as [H1 H2 H3 H4 H5]. split_and!; [by constructor| |done]. unfold credit, unclaimed. cbn. lia.
Qed.

Lemma run_spec es s :
  limiter_ok L s -> Forall (event_ok L) es ->
  let s' := run es s in limiter_ok L s' /\ credit L s' <= credit L s + L * (clock s' - clock s).
Proof.
  revert s. induction es as [|e es IH]; intros s Hok Hes; cbn; [split; [done|lia]|].
  apply Forall_cons in Hes as [He Hes]. destruct (step_spec s e Hok He) as (H1 & H2 & H3).
  destruct (IH (step s e) H1 Hes) as [G1 G2]. split; [done|]. fold (run es (step s e)). nia.
Qed.

Lemma new_ok limit n : 0 <= limit <= L -> limiter_ok L (limiter_new limit n).
Proof.
  intros Hl. constructor; cbn; try done; [split; [done|]; pose proof (capacity_of_pos L); lia|].
  by apply Forall_replicate.
Qed.
End Steps.

(** C14. Whatever the schedule of the calls, of the refill task and of changes
    of the limit up to [L]: from the start on, the bytes granted never exceed
    [L] times the time that has passed; and in any window of a longer run they
    exceed it at most by three quarters of a second's worth (the tokens in the
    bucket, those being added, those the time before the window is worth). *)
Theorem rate_bounded (L limit : Z) (n : nat) (es es' : list Event) :
  sane L -> 0 <= limit <= L -> Forall (event_ok L) (es ++ es') ->
  let s := run es (limiter_new limit n) in
  let s' := run es' s in
  1000000 * granted s <= L * clock s /\
  0 <= tokens s <= capacity_of L /\
  1000000 * (granted s' - granted s) <= 1000000 * (3 * capacity_of L) + L * (clock s' - clock s).
Proof.
  intros HL Hl Hes s s'. apply Forall_app in Hes as [Hes Hes'].
  destruct (run_spec L HL es _ (new_ok L limit n Hl) Hes) as [Hok Hc]. fold s in Hok, Hc.
  destruct (run_spec L HL es' s Hok Hes') as [Hok' Hc']. fold s' in Hok', Hc'.
  assert (forall x, limiter_ok L x -> 0 <= unclaimed L x <= 1000000 * capacity_of L /\ 0 <= inflight (refill_task x) <= capacity_of L) as Hpos.
  { intros x [G1 G2 G3 G4 G5]. unfold unclaimed, sane in *. assert (0 <= L * (clock x - last_refill x)) by (apply Z.mul_nonneg_nonneg; lia).
    pose proof (capacity_of_pos L). split; [lia|]. destruct (refill_task x); cbn in G4 |- *; lia. }
  destruct (Hpos s Hok) as [Hu Hi]. destruct (Hpos s' Hok') as [Hu' Hi'].
  destruct Hok as [_ Ht _ _ _]. destruct Hok' as [_ Ht' _ _ _].
  split_and!; [|lia|lia|unfold credit in *; lia].
  assert (credit L (limiter_new limit n) = 0) as H0 by (unfold credit, unclaimed; cbn; pose proof (capacity_of_pos L); lia).
  rewrite H0 in Hc. change (clock (limiter_new limit n)) with 0 in Hc. unfold credit in Hc. lia.
Qed.

(** ** Progress *)

Definition request (c : Consumer) : option Z :=
  match c with
  | Ready => None
  | ReadLimit r | ReadTokens r | Exchange r _ | CountWait r | Waiting r => Some r
  end.

(** Events of the refill task and of the call [i], undisturbed by others. *)
Definition alone (i : nat) (e : Event) : Prop :=
  match e with
  | Refill spurious => spurious = false
  | Run j spurious => j = i /\ spurious = false
  | Elapse d => 0 <= d
  | _ => False
  end.

(** The time since the start in [u64] microseconds, and what [L] makes of it. *)
Definition in_range (L t : Z) : Prop := t < 2 ^ 64 /\ L * t < 1000000 * 2 ^ 64.

Definition elapsed_by (es : list Event) : Z :=
  foldr (fun e n => match e with Elapse d => d + n | _ => n end) 0 es.

(** The refill task alone comes back to its timer. *)
Lemma refill_returns s :
  0 < limit_bps s ->
  exists k, (k <= 4)%nat /\
    let s' := run (replicate k (Refill false)) s in
    refill_task s' = NextTick /\ limit_bps s' = limit_bps s /\ granted s' = granted s /\ consumers s' = consumers s /\ clock s' = clock s.
Proof.
  intros Hl.
  assert (forall t r c, exists k, (k <= 2)%nat /\
    let s' := run (replicate k (Refill false)) (set_refill (Adding r c) t) in
    refill_task s' = NextTick /\ limit_bps s' = limit_bps t /\ granted s' = granted t /\ consumers s' = consumers t /\ clock s' = clock t) as Hadd.
  { intros t r c. destruct (Z.min (sat_add_u64 (tokens t) r) c =? tokens t) eqn:E.
    - exists 1%nat. split; [lia|]. cbn. unfold refill_step; cbn. by rewrite E.
    - exists 2%nat. split; [lia|]. cbn. unfold refill_step; cbn. rewrite E; cbn. by rewrite Z.eqb_refl. }
  destruct (refill_task s) as [| | |limit|r c|r c cur] eqn:E.
  - by exists 0%nat; split_and!; [lia|..].
  - exists 2%nat. split; [lia|]. cbn. unfold refill_step. by rewrite E.
  - exists 1%nat. split; [lia|]. cbn. unfold refill_step. by rewrite E.
  - destruct (wrap_u64 (limit * wrap_u64 (clock s - last_refill s) / 1000000) =? 0) eqn:E0.
    + exists 1%nat. split; [lia|]. cbn. unfold refill_step. by rewrite E, E0.
    + destruct (Hadd (set_last (clock s) s) (wrap_u64 (limit * wrap_u64 (clock s - last_refill s) / 1000000)) (capacity_of limit)) as (k & Hk & H).
      exists (S k). split; [lia|]. cbn [replicate run foldl step]. unfold refill_step. rewrite E, E0. exact H.
  - destruct (Hadd s r c) as (k & Hk & H). exists k. split; [lia|]. replace (set_refill (Adding r c) s) with s in H; [exact H|].
    destruct s; cbn in *. by subst.
  - destruct (tokens s =? cur) eqn:E0.
    + exists 1%nat. split; [lia|]. cbn. unfold refill_step. by rewrite E, E0.
    + destruct (Hadd s r c) as (k & Hk & H). exists (S k). split; [lia|]. cbn [replicate run foldl step]. unfold refill_step.
      rewrite E, E0. exact H.
Qed.

(** A second later it adds tokens. *)
Lemma refill_adds L s :
  sane L -> limiter_ok L s -> 0 < limit_bps s -> refill_task s = NextTick -> 0 <= last_refill s -> in_range L (clock s + 1000000) ->
  exists k, (k <= 4)%nat /\
    let s' := run (Elapse 1000000 :: replicate k (Refill false)) s in
    0 < tokens s' /\ limit_bps s' = limit_bps s /\ granted s' = granted s /\ consumers s' = consumers s.
Proof.
  intros HL [H1 H2 H3 _ _] Hl E H0 [R1 R2].
  set (e := clock s + 1000000 - last_refill s). assert (1000000 <= e <= clock s + 1000000) as He by lia.
  assert (wrap_u64 e = e) as Eu by (apply u64_small; lia).
  assert (1000000 <= limit_bps s * e <= L * (clock s + 1000000)) as Hle by nia.
  assert (wrap_u64 (limit_bps s * e / 1000000) = limit_bps s * e / 1000000 /\ 1 <= limit_bps s * e / 1000000) as [Er Hr].
  { assert (1 <= limit_bps s * e / 1000000) by (apply Z.div_le_lower_bound; lia). split; [|done]. apply u64_small. split; [lia|].
    apply Z.div_lt_upper_bound; lia. }
  set (refill := limit_bps s * e / 1000000) in *. set (cap := capacity_of (limit_bps s)). pose proof (capacity_of_pos (limit_bps s)) as Hcap. fold cap in Hcap.
  set (s3 := set_refill (Adding refill cap) (set_last (clock s + 1000000) (elapse 1000000 s))).
  assert (run [Elapse 1000000; Refill false; Refill false] s = s3) as Hrun.
  { unfold run. cbn [foldl step]. unfold refill_step at 2. unfold elapse at 1 2. cbn. rewrite E.
    destruct (limit_bps s =? 0) eqn:E0; bool_hyps; [lia|]. unfold refill_step. cbn. fold e. rewrite Eu. fold refill. rewrite Er.
    destruct (refill =? 0) eqn:E1; bool_hyps; [lia|]. done. }
  assert (forall k, run (Elapse 1000000 :: replicate (S (S k)) (Refill false)) s = run (replicate k (Refill false)) s3) as Hk by (intros k; by rewrite <-Hrun).
  destruct (Z.min (sat_add_u64 (tokens s) refill) cap =? tokens s) eqn:E1.
  - exists 3%nat. split; [lia|]. rewrite Hk. cbn. unfold refill_step; cbn. rewrite E1. cbn. split_and!; try done.
    bool_hyps. unfold sat_add_u64, u64_max in *. lia.
  - exists 4%nat. split; [lia|]. rewrite Hk. cbn. unfold refill_step; cbn. rewrite E1; cbn. rewrite Z.eqb_refl. cbn.
    split_and!; try done. unfold sat_add_u64, u64_max in *. lia.
Qed.

Lemma run_schedules_app es es' s : run (es ++ es') s = run es' (run es s).
Proof. apply foldl_app. Qed.

Lemma step_run s i spurious c :
  consumers s !! i = Some c ->
  step s (Run i spurious) = let '(c', s') := consume_step spurious c s in set_consumers (<[i := c']> (consumers s')) s'.
Proof. intros Hi. unfold step. by rewrite Hi. Qed.

(** The call [i] is somewhere in [consume]: the state with its counter set. *)
Definition at_counter (i : nat) (c : Consumer) (s : Limiter) : Limiter := set_consumers (<[i := c]> (consumers s)) s.

Lemma at_counter_lookup i c s : (i < length (consumers s))%nat -> consumers (at_counter i c s) !! i = Some c.
Proof. intros Hi. cbn. by rewrite list_lookup_insert_eq. Qed.

(** With tokens in the bucket a call alone is granted some, from its counters
    in the order in which it passes them. *)
Definition served (k : nat) (i : nat) (r : Z) (s : Limiter) : Prop :=
  exists j, (j <= k)%nat /\ let s' := run (replicate j (Run i false)) s in
    consumers s' !! i = Some Ready /\ granted s < granted s' <= granted s + r.

Lemma served_step k i r s s' :
  step s (Run i false) = s' -> granted s' = granted s -> served k i r s' -> served (S k) i r s.
Proof. intros Hs Hg (j & Hj & H). exists (S j). split; [lia|]. cbn [replicate run foldl]. rewrite Hs, <-Hg. exact H. Qed.

Section Served.
Context (i : nat) (r : Z) (Hr : 0 < r).

Lemma served_exchange s :
  consumers s !! i = Some (Exchange r (tokens s)) -> 0 < tokens s -> served 1 i r s.
Proof.
  intros Hi Ht. exists 1%nat. split; [lia|]. cbn [replicate run foldl]. rewrite (step_run s i false _ Hi). cbn.
  rewrite Z.eqb_refl. cbn. rewrite list_lookup_insert_eq by (by eapply lookup_lt_Some). split; [done|lia].
Qed.

Lemma served_tokens s : consumers s !! i = Some (ReadTokens r) -> 0 < tokens s -> served 2 i r s.
Proof.
  intros Hi Ht. pose proof (lookup_lt_Some _ _ _ Hi) as Hlen. apply (served_step _ _ _ _ (at_counter i (Exchange r (tokens s)) s)); [|done|].
  - rewrite (step_run s i false _ Hi). cbn. destruct (0 <? tokens s) eqn:E; [done|bool_hyps; lia].
  - apply served_exchange; [by apply at_counter_lookup|done].
Qed.

Lemma served_limit s : consumers s !! i = Some (ReadLimit r) -> 0 < limit_bps s -> 0 < tokens s -> served 3 i r s.
Proof.
  intros Hi Hl Ht. pose proof (lookup_lt_Some _ _ _ Hi) as Hlen. apply (served_step _ _ _ _ (at_counter i (ReadTokens r) s)); [|done|].
  - rewrite (step_run s i false _ Hi). cbn. destruct (limit_bps s =? 0) eqn:E; [bool_hyps; lia|done].
  - apply served_tokens; [by apply at_counter_lookup|done].
Qed.

Lemma served_waiting s : consumers s !! i = Some (Waiting r) -> 0 < limit_bps s -> 0 < tokens s -> served 4 i r s.
Proof.
  intros Hi Hl Ht. pose proof (lookup_lt_Some _ _ _ Hi) as Hlen. apply (served_step _ _ _ _ (at_counter i (ReadLimit r) s)); [|done|].
  - by rewrite (step_run s i false _ Hi).
  - by apply served_limit; [apply at_counter_lookup|..].
Qed.
End Served.

Lemma served_weaken k k' i r s : (k <= k')%nat -> served k i r s -> served k' i r s.
Proof. intros Hk (j & Hj & H). exists j. split; [lia|done]. Qed.

Lemma consumer_served i c r s :
  0 < limit_bps s -> 0 < tokens s -> consumers s !! i = Some c -> request c = Some r -> consumer_ok c -> served 5 i r s.
Proof.
  intros Hl Ht Hi Hr Hok. pose proof (lookup_lt_Some _ _ _ Hi) as Hlen.
  destruct c as [|q|q|q a|q|q]; cbn in Hr, Hok; [done|injection Hr as ->..].
  - by apply (served_weaken 3); [lia|apply served_limit].
  - by apply (served_weaken 2); [lia|apply served_tokens].
  - destruct (tokens s =? a) eqn:E.
    + bool_hyps. subst a. apply (served_weaken 1); [lia|]. apply served_exchange; [apply Hok|done|done].
    + apply (served_weaken 4); [lia|]. apply (served_step _ _ _ _ (at_counter i (ReadLimit r) s)); [|done|].
      * rewrite (step_run s i false _ Hi). cbn. by rewrite E.
      * apply served_limit; [apply Hok|by apply at_counter_lookup|done|done].
  - apply (served_step _ _ _ _ (at_counter i (Waiting r) (set_waits (wrap_u64 (throttle_waits s + 1)) s))); [|done|].
    + by rewrite (step_run s i false _ Hi).
    + apply served_waiting; [done|by apply at_counter_lookup|done|done].
  - by apply (served_weaken 4); [lia|apply served_waiting].
Qed.

Lemma consume_step_last spurious c s : last_refill (snd (consume_step spurious c s)) = last_refill s.
Proof. destruct c; cbn [consume_step]; try case_match; done. Qed.

Lemma run_last_nonneg L es s : sane L -> limiter_ok L s -> Forall (event_ok L) es -> 0 <= last_refill s -> 0 <= last_refill (run es s) /\ 0 <= clock (run es s).
Proof.
  intros HL. revert s. induction es as [|e es IH]; intros s Hok Hes H0; [destruct Hok; cbn; lia|]. apply Forall_cons in Hes as [He Hes].
  destruct (step_spec L HL s e Hok He) as (H1 & _ & _). apply (IH (step s e) H1 Hes). destruct Hok as [_ _ Hc _ _].
  destruct e as [i r|i sp|sp|d|l]; cbn [step]; [by repeat case_match| |unfold refill_step; repeat case_match; cbn; lia|done|done].
  destruct (consumers s !! i) as [c|]; [|done]. pose proof (consume_step_last sp c s) as Hl. destruct (consume_step sp c s); cbn in *. lia.
Qed.

(** C15. No call starves: from every reachable state with a limit, however far
    each call and the refill task have come and whatever notifications were
    lost, one more second and at most thirteen steps of the refill task and of
    a call, undisturbed, give the call a share of its request. *)
Theorem waiters_served (L limit : Z) (n : nat) (es : list Event) (i : nat) (c : Consumer) (r : Z) :
  sane L -> 0 <= limit <= L -> Forall (event_ok L) es ->
  let s := run es (limiter_new limit n) in
  0 < limit_bps s -> consumers s !! i = Some c -> request c = Some r -> in_range L (clock s + 1000000) ->
  exists es', Forall (alone i) es' /\ (length es' <= 14)%nat /\ elapsed_by es' = 1000000 /\
    let s' := run es' s in
    consumers s' !! i = Some Ready /\ granted s < granted s' <= granted s + r.
Proof.
  intros HL Hlim Hes s Hl Hi Hr Hrange. pose proof (new_ok L limit n Hlim) as Hnew.
  destruct (run_spec L HL es _ Hnew Hes) as [Hok _]. fold s in Hok.
  destruct (run_last_nonneg L es _ HL Hnew Hes) as [Hlast _]; [done|]. fold s in Hlast.
  assert (forall k, Forall (event_ok L) (replicate k (Refill false))) as Hrefills by (intros k; by apply Forall_replicate).
  destruct (refill_returns s Hl) as (k1 & Hk1 & E1 & L1 & G1 & C1 & T1). set (s1 := run (replicate k1 (Refill false)) s) in *.
  destruct (run_spec L HL _ s Hok (Hrefills k1)) as [Hok1 _]. fold s1 in Hok1.
  destruct (run_last_nonneg L _ s HL Hok (Hrefills k1) Hlast) as [Hlast1 _]. fold s1 in Hlast1.
  rewrite <-L1 in Hl. rewrite <-T1 in Hrange.
  destruct (refill_adds L s1 HL Hok1 Hl E1 Hlast1 Hrange) as (k2 & Hk2 & T2 & L2 & G2 & C2).
  set (s2 := run (Elapse 1000000 :: replicate k2 (Refill false)) s1) in *.
  assert (consumer_ok c) as Hc by (destruct Hok as [_ _ _ _ H5]; by apply (proj1 (Forall_lookup _ _) H5 i)).
  assert (consumers s2 !! i = Some c) as Hi2 by congruence. rewrite <-L2 in Hl.
  destruct (consumer_served i c r s2 Hl T2 Hi2 Hr Hc) as (k3 & Hk3 & H3).
  exists (replicate k1 (Refill false) ++ (Elapse 1000000 :: replicate k2 (Refill false)) ++ replicate k3 (Run i false)).
  assert (forall k e m, match e with Elapse _ => False | _ => True end -> elapsed_by (replicate k e ++ m) = elapsed_by m) as Hel.
  { induction k as [|k IH]; intros e m He; [done|]. cbn. rewrite IH by done. by destruct e. }
  split_and!.
  - repeat apply Forall_app_2; [by apply Forall_replicate|constructor; [done|by apply Forall_replicate]|by apply Forall_replicate].
  - rewrite !length_app. cbn. rewrite !length_replicate. lia.
  - rewrite Hel by done. cbn. rewrite Hel by done. rewrite <-(app_nil_r (replicate k3 _)), Hel by done. done.
  - rewrite !run_schedules_app. fold s1. fold s2. rewrite <-G1, <-G2. exact H3.
Qed.

(** ** Witnesses *)

(** Two calls at 1 KB/s: one comes before the tokens do. *)
Definition sample_run : list Event :=
  [Call 0 500; Run 0 false; Run 0 false; Run 0 false; Elapse 50000; Refill false; Refill false; Refill true; Refill false;
   Call 1 20; Run 1 false; Run 1 false; Run 1 true].

Lemma rate_bounded_witness :
  let s := run sample_run (limiter_new 1000 2) in
  let s' := run [Run 0 false; Run 0 false; Run 0 false; Run 0 false] s in
  tokens s = 50 /\ granted s' = 50 /\ 1000000 * (granted s' - granted s) <= 1000000 * (3 * capacity_of 1000) + 1000 * 0.
Proof.
  split; [by vm_compute|]. split; [by vm_compute|].
  apply (rate_bounded 1000 1000 2 sample_run [Run 0 false; Run 0 false; Run 0 false; Run 0 false]); [by vm_compute|lia|].
  unfold sample_run. cbn [app]. repeat constructor; cbn; lia.
Defined.

Lemma waiters_served_witness :
  let s := run sample_run (limiter_new 1000 2) in
  consumers s !! 0%nat = Some (Waiting 500) /\
  exists es', (length es' <= 14)%nat /\ granted s < granted (run es' s).
Proof.
  split; [by vm_compute|].
  destruct (waiters_served 1000 1000 2 sample_run 0 (Waiting 500) 500) as (es' & _ & Hl & _ & _ & Hg & _).
  - by vm_compute.
  - lia.
  - unfold sample_run. repeat constructor; cbn; lia.
  - by vm_compute.
  - by vm_compute.
  - done.
  - split; by vm_compute.
  - exists es'. split; [exact Hl|exact Hg].
Defined.

(** ** Rounding

    A refill that adds something forgets the rest of a token: at 30 bytes per
    second, twenty ticks of 50 milliseconds bring 20 tokens. *)
Definition tick : list Event := [Elapse 50000; Refill false; Refill false; Refill false; Refill false].
Definition ticks_and_take (n : nat) : list Event :=
  concat (replicate n (tick ++ [Call 0 100; Run 0 false; Run 0 false; Run 0 false])).

Example fraction_discarded :
  let s := run (ticks_and_take 20) (limiter_new 30 1) in clock s = 1000000 /\ granted s = 20 /\ tokens s = 0.
Proof. by vm_compute. Qed.

(** The capacity of an extreme limit wraps to a single byte. *)
Example capacity_wraps : capacity_of ((2 ^ 64 + 49) / 50 + 1) = 1.
Proof. by vm_compute. Qed.
