(* ===== verification/Text.v ===== *)
(** * Text: byte strings and the parts of Rust's [str] the engine's formats use.

    A [String] is the list of its bytes.  Splitting and joining, lines, white
    space, the byte order used by [sort], decimal printing and the checked
    decimal parser of the integer types, with their round trips. *)
From Stdlib Require Import Ascii.
From S2P Require Import Prelude.

Definition text : Type := list ascii.

(** A string literal of the source. *)
Definition lit (s : string) : text := String.list_ascii_of_string s.

Definition TAB : ascii := "009"%char.
Definition LF : ascii := "010"%char.
Definition CR : ascii := "013"%char.

Definition byte_of (c : ascii) : Z := Z.of_N (N_of_ascii c).

(** ** Splitting and joining *)

(** [s.split(c)]: always at least one piece. *)
Fixpoint split_on (c : ascii) (s : text) : list text :=
  match s with
  | [] => [[]]
  | x :: s' =>
      if decide (x = c) then [] :: split_on c s'
      else match split_on c s' with
           | p :: ps => (x :: p) :: ps
           | [] => [[x]]
           end
  end.

(** [parts.join(c)]. *)
Fixpoint join (c : ascii) (ps : list text) : text :=
  match ps with
  | [] => []
  | [p] => p
  | p :: ps' => p ++ c :: join c ps'
  end.

Lemma split_on_none c s : c ∉ s -> split_on c s = [s].
Proof.
  induction s as [|x s IH]; [done|]. intros Hc. cbn.
  rewrite decide_False by set_solver. rewrite IH by set_solver. done.
Qed.

Lemma split_on_app c p s : c ∉ p -> split_on c (p ++ c :: s) = p :: split_on c s.
Proof.
  induction p as [|x p IH]; intros Hc; cbn; [by rewrite decide_True|].
  rewrite decide_False by set_solver. by rewrite IH by set_solver.
Qed.

Lemma join_cons c p q ps : join c (p :: q :: ps) = p ++ c :: join c (q :: ps).
Proof. done. Qed.

Lemma split_join c ps : ps <> [] -> Forall (fun p => c ∉ p) ps -> split_on c (join c ps) = ps.
Proof.
  intros Hne HF. induction HF as [|p ps Hp HF IH]; [done|].
  destruct ps as [|q ps]; [by apply split_on_none|].
  rewrite join_cons, split_on_app by done. by rewrite IH.
Qed.

Lemma split_on_nonempty c s : split_on c s <> [].
Proof. destruct s as [|x s]; [done|]. cbn. case_decide; [done|]. by destruct (split_on c s). Qed.

Lemma split_on_pieces c s p : p ∈ split_on c s -> (c ∉ p) /\ (forall x, x ∈ p -> x ∈ s).
Proof.
  revert p. induction s as [|x s IH]; intros p; cbn.
  { rewrite list_elem_of_singleton. intros ->. set_solver. }
  case_decide as Hx.
  { rewrite elem_of_cons. intros [->|Hp]; [set_solver|]. apply IH in Hp. set_solver. }
  destruct (split_on c s) as [|q qs]; [by rewrite list_elem_of_singleton; intros ->; set_solver|].
  rewrite elem_of_cons. intros [->|Hp].
  - destruct (IH q) as [? ?]; [set_solver|]. set_solver.
  - destruct (IH p) as [? ?]; [set_solver|]. set_solver.
Qed.

(** ** Lines *)

(** The carriage return before a line feed is part of the line ending. *)
Definition strip_cr (p : text) : text :=
  match reverse p with
  | x :: r => if decide (x = CR) then reverse r else p
  | [] => p
  end.

Fixpoint line_pieces (ps : list text) : list text :=
  match ps with
  | [] => []
  | [p] => match p with [] => [] | _ => [p] end
  | p :: ps' => strip_cr p :: line_pieces ps'
  end.

(** [s.lines()]. *)
Definition lines (s : text) : list text := line_pieces (split_on LF s).

(** A line that survives [lines] unchanged: not empty, no line feed, and not
    ending with a carriage return. *)
Definition plain_line (p : text) : Prop := p <> [] /\ (LF ∉ p) /\ last p <> Some CR.

Lemma strip_cr_plain p : last p <> Some CR -> strip_cr p = p.
Proof.
  intros Hl. unfold strip_cr. destruct (reverse p) as [|x r] eqn:E; [done|].
  apply (f_equal reverse) in E. rewrite reverse_involutive, reverse_cons in E. subst p.
  rewrite last_snoc in Hl. by rewrite decide_False by congruence.
Qed.

Lemma line_pieces_plain ps : Forall plain_line ps -> line_pieces ps = ps.
Proof.
  induction 1 as [|p ps (Hne & Hlf & Hcr) HF IH]; [done|].
  destruct ps as [|q ps]; [by destruct p|].
  change (strip_cr p :: line_pieces (q :: ps) = p :: q :: ps).
  by rewrite IH, strip_cr_plain.
Qed.

Lemma lines_join ps : ps <> [] -> Forall plain_line ps -> lines (join LF ps) = ps.
Proof.
  intros Hne HF. unfold lines. rewrite split_join; [by apply line_pieces_plain|done|].
  eapply Forall_impl; [done|]. by intros p (_ & ? & _).
Qed.

Lemma strip_cr_subset p x : x ∈ strip_cr p -> x ∈ p.
Proof.
  unfold strip_cr. destruct (reverse p) as [|y r] eqn:E; [done|]. case_decide; [|done].
  rewrite elem_of_reverse. intros Hx. apply elem_of_reverse. rewrite E. set_solver.
Qed.

Lemma lines_no_lf s p : p ∈ lines s -> LF ∉ p.
Proof.
  unfold lines. pose proof (split_on_pieces LF s) as Hs.
  induction (split_on LF s) as [|q qs IH]; [set_solver|].
  destruct qs as [|q' qs]; cbn.
  - destruct q as [|y q]; [set_solver|]. rewrite list_elem_of_singleton. intros ->.
    apply Hs. set_solver.
  - rewrite elem_of_cons. intros [->|Hp].
    + intros Hx%strip_cr_subset. destruct (Hs q) as [Hq _]; set_solver.
    + apply IH; [|exact Hp]. intros p' Hp'. apply Hs. set_solver.
Qed.

(** ** White space: [str::trim] removes the White_Space characters, here as
    their UTF-8 encodings. *)

Definition space_codes : list text :=
  map (map ascii_of_nat)
    ([[9]; [10]; [11]; [12]; [13]; [32]; [194; 133]; [194; 160]; [225; 154; 128];
      [226; 128; 168]; [226; 128; 169]; [226; 128; 175]; [226; 129; 159]; [227; 128; 128]]%nat
     ++ map (fun k => [226; 128; 128 + k]%nat) (seq 0 11)).

Fixpoint strip_prefix (p s : text) : option text :=
  match p, s with
  | [], _ => Some s
  | x :: p', y :: s' => if decide (x = y) then strip_prefix p' s' else None
  | _, [] => None
  end.

(** [str::starts_with] and [str::eq_ignore_ascii_case]. *)
Definition starts_with (p s : text) : bool := match strip_prefix p s with Some _ => true | None => false end.

Definition ascii_lower (c : ascii) : ascii :=
  if (65 <=? byte_of c) && (byte_of c <=? 90) then ascii_of_N (N_of_ascii c + 32) else c.

Definition eq_ignore_ascii_case (s1 s2 : text) : bool := bool_decide (map ascii_lower s1 = map ascii_lower s2).

Definition strip_one (codes : list text) (s : text) : option text :=
  head (omap (fun p => strip_prefix p s) codes).

Fixpoint strip_many (fuel : nat) (codes : list text) (s : text) : text :=
  match fuel with
  | O => s
  | S n => match strip_one codes s with Some s' => strip_many n codes s' | None => s end
  end.

Definition trim_start (s : text) : text := strip_many (length s) space_codes s.
Definition trim_end (s : text) : text :=
  reverse (strip_many (length s) (map reverse space_codes) (reverse s)).
Definition trim (s : text) : text := trim_end (trim_start s).

(** ** Order: [Ord for String] compares the bytes. *)

Fixpoint text_leb (a b : text) : bool :=
  match a, b with
  | [], _ => true
  | _ :: _, [] => false
  | x :: a', y :: b' =>
      if N_of_ascii x <? N_of_ascii y then true
      else if decide (x = y) then text_leb a' b' else false
  end%N.

Definition text_le (a b : text) : Prop := text_leb a b = true.

#[global] Instance text_le_dec a b : Decision (text_le a b).
Proof. unfold text_le. apply _. Defined.

Lemma N_of_ascii_inj x y : N_of_ascii x = N_of_ascii y -> x = y.
Proof. intros H. by rewrite <-(ascii_N_embedding x), H, ascii_N_embedding. Qed.

#[global] Instance text_le_total : Total text_le.
Proof.
  intros a. unfold text_le. induction a as [|x a IH]; intros [|y b]; cbn;
    [by left|by left|by right|].
  destruct (N.ltb_spec (N_of_ascii x) (N_of_ascii y)); [by left|].
  destruct (N.ltb_spec (N_of_ascii y) (N_of_ascii x)); [by right|].
  assert (x = y) as -> by (apply N_of_ascii_inj; lia). rewrite !decide_True by done. apply IH.
Qed.

#[global] Instance text_le_anti : AntiSymm eq text_le.
Proof.
  intros a. unfold text_le. induction a as [|x a IH]; intros [|y b]; cbn; try done.
  destruct (N.ltb_spec (N_of_ascii x) (N_of_ascii y)), (N.ltb_spec (N_of_ascii y) (N_of_ascii x)); try lia.
  - intros _. case_decide; [subst; lia|done].
  - case_decide; [subst; lia|done].
  - case_decide; [|done]. subst. rewrite decide_True by done. intros. f_equal. by apply IH.
Qed.

#[global] Instance text_le_trans : Transitive text_le.
Proof.
  intros a. unfold text_le. induction a as [|x a IH]; intros [|y b] [|z c]; cbn; try done.
  destruct (N.ltb_spec (N_of_ascii x) (N_of_ascii y)), (N.ltb_spec (N_of_ascii y) (N_of_ascii z)),
    (N.ltb_spec (N_of_ascii x) (N_of_ascii z)); repeat case_decide; subst; try done; try lia.
  apply IH.
Qed.

(** [v.sort()] on a vector of strings. *)
Definition sort_texts : list text -> list text := merge_sort text_le.

Lemma sort_texts_perm l1 l2 : l1 ≡ₚ l2 -> sort_texts l1 = sort_texts l2.
Proof.
  intros Hp. apply (StronglySorted_unique text_le); [apply StronglySorted_merge_sort; apply _..|].
  unfold sort_texts. by rewrite !merge_sort_Permutation.
Qed.

(** ** Decimal integers *)

Definition digit_char (d : Z) : ascii := ascii_of_N (Z.to_N (48 + d)).

Definition digit_of (c : ascii) : option Z :=
  let b := byte_of c in if (48 <=? b) && (b <=? 57) then Some (b - 48) else None.

Fixpoint show_digits (fuel : nat) (z : Z) (acc : text) : text :=
  match fuel with
  | O => acc
  | S n =>
      let acc' := digit_char (z mod 10) :: acc in
      if z <? 10 then acc' else show_digits n (z / 10) acc'
  end.

(** [format!("{}", z)]: a number has at most as many digits as bits. *)
Definition show_nat (z : Z) : text := show_digits (S (Z.to_nat (Z.log2 z))) z [].
Definition show_int (z : Z) : text := if z <? 0 then "-"%char :: show_nat (- z) else show_nat z.

(** The digit loop of [from_str_radix]: every step is checked. *)
Fixpoint parse_digits (lo hi sign acc : Z) (s : text) : option Z :=
  match s with
  | [] => Some acc
  | c :: s' =>
      let* d := digit_of c in
      let acc' := acc * 10 + sign * d in
      if (lo <=? acc') && (acc' <=? hi) then parse_digits lo hi sign acc' s' else None
  end.

(** [s.parse::<T>()] for an integer type with the bounds [lo], [hi]: a leading
    [+] is accepted, a leading [-] by signed types only, and a sign alone is
    rejected. *)
Definition parse_int (lo hi : Z) (s : text) : option Z :=
  match s with
  | [] => None
  | c :: s' =>
      if decide (c = "+"%char) then
        match s' with [] => None | _ => parse_digits lo hi 1 0 s' end
      else if decide (c = "-"%char) then
        if lo <? 0 then match s' with [] => None | _ => parse_digits lo hi (-1) 0 s' end
        else None
      else parse_digits lo hi 1 0 s
  end.

Definition parse_i32 : text -> option Z := parse_int i32_min i32_max.
Definition parse_u64 : text -> option Z := parse_int 0 u64_max.
Definition parse_i64 : text -> option Z := parse_int i64_min i64_max.

Lemma digit_char_byte d : 0 <= d < 10 -> byte_of (digit_char d) = 48 + d.
Proof. intros. unfold byte_of, digit_char. rewrite N_ascii_embedding; lia. Qed.

Lemma digit_of_char d : 0 <= d < 10 -> digit_of (digit_char d) = Some d.
Proof.
  intros. unfold digit_of. rewrite digit_char_byte by done. case_match eqn:E; [f_equal; lia|].
  apply andb_false_iff in E. lia.
Qed.

Definition is_digit (c : ascii) : Prop := 48 <= byte_of c <= 57.

Lemma digit_char_is_digit d : 0 <= d < 10 -> is_digit (digit_char d).
Proof. intros. unfold is_digit. rewrite digit_char_byte; lia. Qed.

(** The value of a digit string read after the accumulator [acc]. *)
Lemma parse_digits_app lo hi sign acc s1 s2 :
  parse_digits lo hi sign acc (s1 ++ s2) =
  (let* v := parse_digits lo hi sign acc s1 in parse_digits lo hi sign v s2).
Proof.
  revert acc. induction s1 as [|c s1 IH]; intros acc; cbn; [done|].
  destruct (digit_of c) as [d|]; [|done]. case_match; [apply IH|done].
Qed.

(** Printing is the snoc of the last digit. *)
Lemma show_digits_app fuel z acc : show_digits fuel z acc = show_digits fuel z [] ++ acc.
Proof.
  revert z acc. induction fuel as [|n IH]; intros z acc; cbn; [done|].
  case_match; [done|]. rewrite IH, (IH _ [_]), <-app_assoc. done.
Qed.

Lemma show_digits_more fuel1 fuel2 z :
  0 <= z < 2 ^ Z.of_nat fuel1 -> (fuel1 <= fuel2)%nat -> (0 < fuel1)%nat ->
  show_digits fuel1 z [] = show_digits fuel2 z [].
Proof.
  revert fuel2 z. induction fuel1 as [|n IH]; intros fuel2 z Hz Hle Hp; [lia|].
  destruct fuel2 as [|m]; [lia|]. cbn.
  destruct (z <? 10) eqn:E; [done|]. bool_hyps.
  destruct n as [|n]; [lia|].
  rewrite (show_digits_app (S n)), (show_digits_app m). f_equal. apply IH; try lia.
  rewrite Nat2Z.inj_succ, Z.pow_succ_r in Hz by lia. div_lia.
Qed.

Lemma show_nat_step z : 10 <= z -> show_nat z = show_nat (z / 10) ++ [digit_char (z mod 10)].
Proof.
  intros Hz. unfold show_nat at 1. cbn.
  destruct (z <? 10) eqn:E; bool_hyps; [lia|]. rewrite show_digits_app. f_equal. symmetry.
  assert (z / 10 < 2 ^ Z.log2 z).
  { destruct (Z.log2_spec z) as [_ H]; [lia|]. rewrite Z.pow_succ_r in H by apply Z.log2_nonneg. div_lia. }
  assert (1 <= z / 10) by div_lia.
  assert (Z.log2 (z / 10) < Z.log2 z) by (apply Z.log2_lt_pow2; lia).
  pose proof (Z.log2_nonneg (z / 10)).
  apply (show_digits_more (S (Z.to_nat (Z.log2 (z / 10))))); [|lia|lia].
  rewrite Nat2Z.inj_succ, Z2Nat.id by apply Z.log2_nonneg.
  split; [lia|]. apply Z.log2_spec. lia.
Qed.

Lemma show_nat_small z : 0 <= z < 10 -> show_nat z = [digit_char z].
Proof.
  intros Hz. unfold show_nat. cbn. destruct (z <? 10) eqn:E; bool_hyps; [|lia].
  by rewrite Z.mod_small by lia.
Qed.

(** Induction on the decimal digits. *)
Lemma decimal_ind (P : Z -> Prop) :
  (forall z, 0 <= z < 10 -> P z) ->
  (forall z, 10 <= z -> P (z / 10) -> P z) ->
  forall z, 0 <= z -> P z.
Proof.
  intros Hs Hd z Hz. revert z Hz. apply (Zlt_0_ind P). intros z IH Hz.
  destruct (Z.lt_ge_cases z 10); [by apply Hs|]. apply Hd; [done|]. apply IH. div_lia.
Qed.

Lemma show_nat_digits z : 0 <= z -> show_nat z <> [] /\ Forall is_digit (show_nat z).
Proof.
  revert z. apply decimal_ind; intros z Hz.
  - rewrite show_nat_small by done. split; [done|]. constructor; [|done]. by apply digit_char_is_digit.
  - intros [Hne HF]. rewrite show_nat_step by done. split; [by destruct (show_nat (z / 10))|].
    apply Forall_app. split; [done|]. constructor; [|done]. apply digit_char_is_digit. div_lia.
Qed.

Lemma parse_digits_show lo hi z :
  lo <= 0 -> 0 <= z <= hi -> parse_digits lo hi 1 0 (show_nat z) = Some z.
Proof.
  intros Hlo [Hz Hhi]. revert z Hz Hhi.
  apply (decimal_ind (fun z => z <= hi -> parse_digits lo hi 1 0 (show_nat z) = Some z)); intros z Hz.
  - intros Hhi. rewrite show_nat_small by done. cbn. rewrite digit_of_char by done.
    case_match; bool_hyps; [f_equal; lia|]. apply andb_false_iff in H. lia.
  - intros IH Hhi. rewrite show_nat_step, parse_digits_app, IH by div_lia. cbn.
    rewrite digit_of_char by div_lia. case_match; bool_hyps; [f_equal; div_lia|].
    apply andb_false_iff in H. div_lia.
Qed.

Lemma parse_digits_show_neg lo hi z :
  0 <= hi -> 0 <= z -> lo <= - z -> parse_digits lo hi (-1) 0 (show_nat z) = Some (- z).
Proof.
  intros Hhi Hz Hlo. revert z Hz Hlo.
  apply (decimal_ind (fun z => lo <= - z -> parse_digits lo hi (-1) 0 (show_nat z) = Some (- z))); intros z Hz.
  - intros Hlo. rewrite show_nat_small by done. cbn. rewrite digit_of_char by done.
    case_match; bool_hyps; [f_equal; lia|]. apply andb_false_iff in H. lia.
  - intros IH Hlo. rewrite show_nat_step, parse_digits_app, IH by div_lia. cbn.
    rewrite digit_of_char by div_lia. case_match; bool_hyps; [f_equal; div_lia|].
    apply andb_false_iff in H. div_lia.
Qed.

(** Every printed integer parses back, in any type that can hold it. *)
Lemma parse_show_int lo hi z :
  lo <= 0 <= hi -> lo <= z <= hi -> parse_int lo hi (show_int z) = Some z.
Proof.
  intros Hlo Hz. unfold show_int. destruct (z <? 0) eqn:E; bool_hyps.
  - pose proof (show_nat_digits (- z) ltac:(lia)) as [Hne _]. cbn [parse_int].
    rewrite decide_False by done. rewrite decide_True by done. rewrite (proj2 (Z.ltb_lt lo 0)) by lia.
    pose proof (parse_digits_show_neg lo hi (- z) ltac:(lia) ltac:(lia) ltac:(lia)) as Hp.
    rewrite Z.opp_involutive in Hp. by destruct (show_nat (- z)).
  - pose proof (show_nat_digits z ltac:(lia)) as [Hne HF].
    pose proof (parse_digits_show lo hi z ltac:(lia) ltac:(lia)) as Hp.
    unfold parse_int. destruct (show_nat z) as [|c s]; [done|].
    inversion HF as [|? ? Hc HF']; subst. unfold is_digit in Hc.
    rewrite !decide_False; [exact Hp| |]; intros ->; destruct Hc as [Hc _]; by apply Hc.
Qed.

Lemma parse_digits_bounds lo hi sign acc s z :
  lo <= acc <= hi -> parse_digits lo hi sign acc s = Some z -> lo <= z <= hi.
Proof.
  revert acc. induction s as [|c s IH]; intros acc Ha; cbn; [by intros [= <-]|].
  destruct (digit_of c) as [d|]; [|done]. case_match; [|done]. bool_hyps. apply IH. lia.
Qed.

(** What the parser accepts is in the range of the type. *)
Lemma parse_int_bounds lo hi s z : lo <= 0 <= hi -> parse_int lo hi s = Some z -> lo <= z <= hi.
Proof.
  intros Hb. unfold parse_int. destruct s as [|c s]; [done|].
  repeat case_match; try done; by apply parse_digits_bounds.
Qed.
