(* ===== verification/ConnPolicy.v ===== *)
(** * ConnPolicy: what the engine remembers about each server's connection
      limits ([native/engine/src/segment_coordinator.rs], lines 95-425).

    A process-wide cache maps a host to two independent observations with
    their own time stamps: [cap], a limit learned from rejections, and [hint],
    a scale that a download without rejections has sustained.  The cache is
    written to the [config] table as text and read back at start-up.  The
    clock is an argument, URL parsing (the [url] crate) a section variable;
    the mutex is never poisoned. *)
From Stdlib Require Import Ascii.
From S2P Require Import Prelude Text.

Definition CONN_CAP_TTL : Z := 24 * 3600.

Record ConnPolicyEntry := mk_entry { cap : Z; cap_ts : Z; hint : Z; hint_ts : Z }.

Definition default_entry : ConnPolicyEntry := mk_entry 0 0 0 0.

#[global] Instance entry_eq_dec : EqDecision ConnPolicyEntry.
Proof. solve_decision. Defined.

Definition conn_cap_fresh (recorded_secs now_secs : Z) : bool :=
  sat_sub_u64 now_secs recorded_secs <? CONN_CAP_TTL.

(** The entry without its expired faces, and whether both are empty. *)
Definition prune_stale_faces (now : Z) (e : ConnPolicyEntry) : ConnPolicyEntry * bool :=
  let e := if (0 <? cap e) && negb (conn_cap_fresh (cap_ts e) now)
           then mk_entry 0 0 (hint e) (hint_ts e) else e in
  let e := if (0 <? hint e) && negb (conn_cap_fresh (hint_ts e) now)
           then mk_entry (cap e) (cap_ts e) 0 0 else e in
  (e, (cap e =? 0) && (hint e =? 0)).

#[global] Arguments prune_stale_faces : simpl never.

Notation Cache := (gmap text ConnPolicyEntry).

Definition entry_or_default (m : Cache) (host : text) : ConnPolicyEntry :=
  default default_entry (m !! host).

(** The update under the lock, for a URL that has a host. *)
Definition record_cap_entry (now cap_new : Z) (e : ConnPolicyEntry) : ConnPolicyEntry :=
  let effective := if (0 <? cap e) && conn_cap_fresh (cap_ts e) now
                   then Z.min (cap e) cap_new else cap_new in
  mk_entry effective now (hint e) (hint_ts e).

Definition record_hint_entry (now scale : Z) (e : ConnPolicyEntry) : ConnPolicyEntry :=
  let effective := if (0 <? hint e) && conn_cap_fresh (hint_ts e) now
                   then Z.max (hint e) scale else scale in
  mk_entry (cap e) (cap_ts e) effective now.

(** The storage format: a version line, then one line per host. *)
Definition CONN_CAP_FORMAT_VERSION : text := lit "v3".

Definition entry_line (he : text * ConnPolicyEntry) : text :=
  join TAB [he.1; show_int (cap he.2); show_int (cap_ts he.2);
            show_int (hint he.2); show_int (hint_ts he.2)].

Definition serialize_conn_caps (m : Cache) : text :=
  join LF (CONN_CAP_FORMAT_VERSION :: sort_texts (map entry_line (map_to_list m))).

Definition parse_line (line : text) : option (text * ConnPolicyEntry) :=
  match split_on TAB line with
  | host :: cap_s :: cap_ts_s :: hint_s :: hint_ts_s :: _ =>
      match parse_i32 cap_s, parse_u64 cap_ts_s, parse_i32 hint_s, parse_u64 hint_ts_s with
      | Some c, Some ct, Some h, Some ht =>
          if bool_decide (host = []) || (c <? 0) || (h <? 0) || ((c =? 0) && (h =? 0))
          then None
          else Some (host, mk_entry c ct h ht)
      | _, _, _, _ => None
      end
  | _ => None
  end.

Definition insert_parsed (m : Cache) (line : text) : Cache :=
  match parse_line line with Some (host, e) => <[host := e]> m | None => m end.

Definition parse_conn_caps (raw : text) : Cache :=
  match lines raw with
  | first :: rest =>
      if decide (trim first = CONN_CAP_FORMAT_VERSION) then foldl insert_parsed ∅ rest else ∅
  | [] => ∅
  end.

(** The count shown in the settings page. *)
Definition count_domain_conn_policies (now : Z) (raw : text) : nat :=
  length (filter (fun e => negb (prune_stale_faces now e).2) (map snd (map_to_list (parse_conn_caps raw)))).

(** The merge of one stored entry into the cache at start-up. *)
Definition load_entry (now : Z) (host : text) (e : ConnPolicyEntry) (m : Cache) : Cache :=
  let '(e, empty) := prune_stale_faces now e in
  if empty then m
  else
    let entry := entry_or_default m host in
    let entry := if (0 <? cap e) &&
                    ((cap entry =? 0) || negb (conn_cap_fresh (cap_ts entry) now) || (cap e <? cap entry))
                 then mk_entry (cap e) (cap_ts e) (hint entry) (hint_ts entry) else entry in
    let entry := if (0 <? hint e) &&
                    ((hint entry =? 0) || negb (conn_cap_fresh (hint_ts entry) now) || (hint entry <? hint e))
                 then mk_entry (cap entry) (cap_ts entry) (hint e) (hint_ts e) else entry in
    <[host := entry]> m.

(** [load_domain_conn_caps] with the outcome of [db.get_config]: the stored
    text, no value, or an error. *)
Definition load_domain_conn_caps (now : Z) (stored : result (option text) unit) (m : Cache) : Cache :=
  match stored with
  | Ok (Some raw) => map_fold (load_entry now) m (parse_conn_caps raw)
  | Ok None | Err _ => m
  end.

Definition retain_fresh (now : Z) (m : Cache) : Cache :=
  omap (fun e => let '(e, empty) := prune_stale_faces now e in if empty then None else Some e) m.

(** The cache after [persist_domain_conn_caps] and the text its task writes. *)
Definition persist_domain_conn_caps (now : Z) (m : Cache) : Cache * text :=
  let m := retain_fresh now m in (m, serialize_conn_caps m).

Definition clear_domain_conn_caps (now : Z) (m : Cache) : Cache * option text :=
  if decide (m = ∅) then (m, None)
  else let '(m', t) := persist_domain_conn_caps now ∅ in (m', Some t).

Section Urls.
(** [Url::parse] with [host_str] and [port]. *)
Variable url_host_port : text -> option (text * option Z).

Definition extract_host (url : text) : option text :=
  let* (h, port) := url_host_port url in
  Some (match port with Some p => h ++ ":"%char :: show_int p | None => h end).

Definition record_domain_conn_cap (now : Z) (url : text) (c : Z) (m : Cache) : Cache :=
  let c := Z.max c 1 in
  match extract_host url with
  | Some host => <[host := record_cap_entry now c (entry_or_default m host)]> m
  | None => m
  end.

Definition record_domain_conn_hint (now : Z) (url : text) (scale : Z) (m : Cache) : Cache :=
  let scale := Z.max scale 1 in
  match extract_host url with
  | Some host => <[host := record_hint_entry now scale (entry_or_default m host)]> m
  | None => m
  end.

Definition read_conn_policy (now : Z) (url : text) (m : Cache) : option ConnPolicyEntry * Cache :=
  match extract_host url with
  | None => (None, m)
  | Some host =>
      match m !! host with
      | None => (None, m)
      | Some e =>
          let '(e, empty) := prune_stale_faces now e in
          if empty then (None, delete host m) else (Some e, <[host := e]> m)
      end
  end.

Definition domain_conn_cap (now : Z) (url : text) (m : Cache) : option Z * Cache :=
  let '(r, m) := read_conn_policy now url m in
  ((let* e := r in if 0 <? cap e then Some (cap e) else None), m).

Definition domain_conn_hint (now : Z) (url : text) (m : Cache) : option Z * Cache :=
  let '(r, m) := read_conn_policy now url m in
  ((let* e := r in
    if 0 <? hint e then Some (if 0 <? cap e then Z.min (hint e) (cap e) else hint e) else None), m).

Definition is_single_conn_domain (now : Z) (url : text) (m : Cache) : bool * Cache :=
  let '(c, m) := domain_conn_cap now url m in (bool_decide (c = Some 1), m).

Definition record_domain_conn_cap_persist (now : Z) (url : text) (c : Z) (m : Cache) : Cache * text :=
  persist_domain_conn_caps now (record_domain_conn_cap now url c m).

Definition record_domain_conn_hint_persist (now : Z) (url : text) (scale : Z) (m : Cache) : Cache * text :=
  persist_domain_conn_caps now (record_domain_conn_hint now url scale m).

End Urls.

(** ** Well-formed caches *)

Definition face_ok (v ts : Z) : Prop := 0 <= v <= i32_max /\ is_u64 ts.

Definition entry_ok (e : ConnPolicyEntry) : Prop :=
  face_ok (cap e) (cap_ts e) /\ face_ok (hint e) (hint_ts e) /\ (cap e <> 0 \/ hint e <> 0).

(** URL hosts are not empty and hold neither tabs nor line feeds. *)
Definition host_ok (h : text) : Prop := h <> [] /\ (TAB ∉ h) /\ (LF ∉ h).

Definition cache_ok (m : Cache) : Prop := map_Forall (fun h e => host_ok h /\ entry_ok e) m.

(** ** What a cache says about a host at a given time *)

Definition fresh_face (now v ts : Z) : option Z :=
  if (0 <? v) && conn_cap_fresh ts now then Some v else None.

Definition eff_cap (now : Z) (m : Cache) (h : text) : option Z :=
  let* e := m !! h in fresh_face now (cap e) (cap_ts e).

Definition eff_hint (now : Z) (m : Cache) (h : text) : option Z :=
  let* e := m !! h in fresh_face now (hint e) (hint_ts e).

Definition opt_merge (f : Z -> Z -> Z) : option Z -> option Z -> option Z :=
  union_with (fun a b => Some (f a b)).

(** Two caches that no reader can tell apart at [now]. *)
Definition same_view (now : Z) (m1 m2 : Cache) : Prop :=
  forall h, eff_cap now m1 h = eff_cap now m2 h /\ eff_hint now m1 h = eff_hint now m2 h.

Lemma fresh_later ts t1 t2 : t1 <= t2 -> conn_cap_fresh ts t2 = true -> conn_cap_fresh ts t1 = true.
Proof. unfold conn_cap_fresh, sat_sub_u64, CONN_CAP_TTL. rewrite !Z.ltb_lt. lia. Qed.

Lemma fresh_now now : conn_cap_fresh now now = true.
Proof. unfold conn_cap_fresh, sat_sub_u64, CONN_CAP_TTL. rewrite Z.ltb_lt. lia. Qed.

Lemma is_u64_0 : is_u64 0.
Proof. unfold is_u64. lia. Qed.

(** One face of an entry after pruning: kept or reset. *)
Definition face_after (now v ts : Z) : Z * Z :=
  if (0 <? v) && negb (conn_cap_fresh ts now) then (0, 0) else (v, ts).

Lemma prune_stale_faces_eq now e :
  prune_stale_faces now e =
  let '(c, ct) := face_after now (cap e) (cap_ts e) in
  let '(h, ht) := face_after now (hint e) (hint_ts e) in
  (mk_entry c ct h ht, (c =? 0) && (h =? 0)).
Proof.
  destruct e as [c ct h ht]. unfold prune_stale_faces, face_after. cbn [cap cap_ts hint hint_ts].
  destruct ((0 <? c) && _); cbn [cap cap_ts hint hint_ts]; by destruct (_ && _).
Qed.

Lemma face_after_spec now t v ts :
  now <= t -> face_ok v ts ->
  let '(v', ts') := face_after now v ts in
  (fresh_face t v' ts' = fresh_face t v ts) /\ face_ok v' ts' /\
  v' = default 0 (fresh_face now v ts).
Proof.
  intros Ht [Hv Hu]. unfold is_u64 in *. pose proof (fresh_later ts now t Ht) as Hf.
  unfold face_after, fresh_face, face_ok. unfold is_u64.
  destruct (0 <? v) eqn:E, (conn_cap_fresh ts now) eqn:F; cbn; rewrite ?E, ?F; cbn; bool_hyps;
    repeat split; try done; try lia; unfold i32_max in *; try lia.
  destruct (conn_cap_fresh ts t); [|done]. by specialize (Hf eq_refl).
Qed.

(** Pruning keeps what is fresh, at the time of the pruning and later. *)
Lemma prune_faces now t e :
  now <= t -> entry_ok e ->
  let '(e', empty) := prune_stale_faces now e in
  fresh_face t (cap e') (cap_ts e') = fresh_face t (cap e) (cap_ts e) /\
  fresh_face t (hint e') (hint_ts e') = fresh_face t (hint e) (hint_ts e) /\
  (if empty then fresh_face t (cap e) (cap_ts e) = None /\ fresh_face t (hint e) (hint_ts e) = None
   else entry_ok e') /\
  (cap e' = default 0 (fresh_face now (cap e) (cap_ts e))) /\
  (hint e' = default 0 (fresh_face now (hint e) (hint_ts e))).
Proof.
  intros Ht (Hc & Hh & Hne). rewrite prune_stale_faces_eq.
  pose proof (face_after_spec now t _ _ Ht Hc) as Hc'. pose proof (face_after_spec now t _ _ Ht Hh) as Hh'.
  destruct (face_after now (cap e) (cap_ts e)) as [c ct].
  destruct (face_after now (hint e) (hint_ts e)) as [h ht].
  destruct Hc' as (Hc1 & Hc2 & Hc3), Hh' as (Hh1 & Hh2 & Hh3).
  cbn [cap cap_ts hint hint_ts]. repeat split; try done.
  destruct (c =? 0) eqn:Ec, (h =? 0) eqn:Eh; bool_hyps; cbn [andb];
    [|by repeat split; cbn; tauto || apply Hc2 || apply Hh2 ..].
  rewrite <-Hc1, <-Hh1, Ec, Eh. done.
Qed.

(** ** The storage format *)

Lemma show_nat_chars z c : 0 <= z -> c ∈ show_nat z -> is_digit c.
Proof. intros Hz. by apply Forall_forall, show_nat_digits. Qed.

Lemma digit_not c x : is_digit c -> ~ is_digit x -> c <> x.
Proof. by intros ? ? ->. Qed.

Lemma show_int_plain z x : 0 <= z -> ~ is_digit x -> x ∉ show_int z.
Proof.
  intros Hz Hx Hin. unfold show_int in Hin. destruct (z <? 0) eqn:E; bool_hyps; [lia|].
  by apply show_nat_chars in Hin.
Qed.

Lemma not_digit x : bool_decide (byte_of x < 48) = true -> ~ is_digit x.
Proof. intros ?%bool_decide_eq_true_1. unfold is_digit. lia. Qed.

Lemma entry_line_parses h e : host_ok h -> entry_ok e -> parse_line (entry_line (h, e)) = Some (h, e).
Proof.
  intros (Hne & Htab & _) ((Hc & Hct) & (Hh & Hht) & Hz). unfold is_u64 in *.
  assert (forall z, 0 <= z -> TAB ∉ show_int z) as Hp.
  { intros z Hz'. apply show_int_plain; [done|]. by apply not_digit. }
  unfold parse_line, entry_line, parse_i32, parse_u64. cbn [fst snd].
  rewrite split_join; [|done|].
  2: { repeat apply Forall_cons_2; try done; apply Hp; lia. }
  rewrite !parse_show_int by (unfold i32_min, i32_max, u64_max in *; lia).
  rewrite bool_decide_eq_false_2 by done. destruct e as [c ct f ft]. cbn in *.
  replace (c <? 0) with false by (symmetry; lia). replace (f <? 0) with false by (symmetry; lia).
  destruct (c =? 0) eqn:Ec, (f =? 0) eqn:Ef; bool_hyps; cbn; try done. tauto.
Qed.

Lemma entry_line_plain h e : host_ok h -> entry_ok e -> plain_line (entry_line (h, e)).
Proof.
  intros (Hne & _ & Hlf) ((Hc & Hct) & (Hh & Hht) & _). unfold is_u64 in *.
  pose proof (show_int_plain (hint_ts e) CR ltac:(lia) ltac:(by apply not_digit)) as Hcr.
  assert (forall z, 0 <= z -> LF ∉ show_int z) as Hp.
  { intros z Hz'. apply show_int_plain; [done|]. by apply not_digit. }
  pose proof (Hp (cap e) ltac:(lia)). pose proof (Hp (cap_ts e) ltac:(lia)).
  pose proof (Hp (hint e) ltac:(lia)). pose proof (Hp (hint_ts e) ltac:(lia)).
  unfold entry_line, plain_line. cbn [join fst snd]. split_and!.
  - by destruct h.
  - assert (LF <> TAB) by done. set_solver.
  - assert (show_int (hint_ts e) <> []) as Hn.
    { unfold show_int. destruct (_ <? 0); [done|].
      apply show_nat_digits. lia. }
    rewrite !app_comm_cons, !app_assoc, last_app, last_cons.
    destruct (last (show_int (hint_ts e))) as [x|] eqn:El.
    + intros [= ->]. apply Hcr. by apply last_Some_elem_of.
    + apply last_None in El. done.
Qed.

Lemma foldl_insert_parsed (ls : list text) (m : Cache) :
  foldl insert_parsed m ls = (list_to_map (reverse (omap parse_line ls)) : Cache) ∪ m.
Proof.
  induction ls as [|l ls IH] using rev_ind; cbn; [by rewrite left_id_L by apply _|].
  rewrite foldl_app, IH, omap_app, reverse_app. cbn [foldl omap list_omap].
  unfold insert_parsed. destruct (parse_line l) as [[h e]|]; cbn [app]; [|done].
  rewrite reverse_singleton. cbn. by rewrite insert_union_l.
Qed.

Lemma omap_parse_lines (l : list (text * ConnPolicyEntry)) :
  Forall (fun he => host_ok he.1 /\ entry_ok he.2) l -> omap parse_line (map entry_line l) = l.
Proof.
  induction 1 as [|[h e] l [Hh He] HF IH]; [done|]. cbn [map omap list_omap].
  rewrite entry_line_parses by done. by f_equal.
Qed.

Lemma cache_ok_list m : cache_ok m -> Forall (fun he => host_ok he.1 /\ entry_ok he.2) (map_to_list m).
Proof. intros Hm. apply Forall_forall. intros [h e] He%elem_of_map_to_list. by apply Hm. Qed.

Lemma serialize_lines m :
  cache_ok m -> exists l, l ≡ₚ map_to_list m /\
    lines (serialize_conn_caps m) = CONN_CAP_FORMAT_VERSION :: map entry_line l.
Proof.
  intros Hm. unfold serialize_conn_caps, sort_texts.
  destruct (Permutation_map_inv entry_line (map_to_list m) (l1 := merge_sort text_le (map entry_line (map_to_list m))))
    as (l & Hl & Hp).
  { apply merge_sort_Permutation. }
  exists l. split; [by symmetry|]. rewrite Hl, lines_join; [done|done|].
  constructor.
  { split_and!; [done| |done]. change (LF ∉ ["v"%char; "3"%char]). set_solver. }
  apply Forall_map. pose proof (cache_ok_list m Hm) as HF. rewrite Hp in HF.
  eapply Forall_impl; [exact HF|]. intros [h e] [? ?]. by apply entry_line_plain.
Qed.

Lemma parse_serialize m : cache_ok m -> parse_conn_caps (serialize_conn_caps m) = m.
Proof.
  intros Hm. destruct (serialize_lines m Hm) as (l & Hl & Hs).
  unfold parse_conn_caps. rewrite Hs, decide_True by (vm_compute; reflexivity).
  rewrite foldl_insert_parsed, omap_parse_lines, right_id_L by
    (apply _ || (rewrite Hl; by apply cache_ok_list)).
  etrans; [|apply list_to_map_to_list]. apply list_to_map_proper.
  - rewrite fmap_reverse, reverse_Permutation, Hl. apply NoDup_fst_map_to_list.
  - by rewrite reverse_Permutation.
Qed.

(** Whatever the stored text is, the parser yields a well-formed cache. *)
Lemma parse_line_ok line h e : LF ∉ line -> parse_line line = Some (h, e) -> host_ok h /\ entry_ok e.
Proof.
  intros Hlf. unfold parse_line. pose proof (split_on_pieces TAB line) as Hp.
  destruct (split_on TAB line) as [|h' [|cs [|cts [|hs [|hts rest]]]]]; try done.
  destruct (parse_i32 cs) as [c|] eqn:Ec; [|done]. destruct (parse_u64 cts) as [ct|] eqn:Ect; [|done].
  destruct (parse_i32 hs) as [f|] eqn:Ef; [|done]. destruct (parse_u64 hts) as [ft|] eqn:Eft; [|done].
  case_match eqn:Eb; [done|]. intros [= <- <-].
  apply parse_int_bounds in Ec, Ect, Ef, Eft; try (unfold i32_min, i32_max, u64_max; lia).
  unfold u64_max, i32_max, i32_min in *.
  bool_hyps. apply andb_false_iff in H0. rewrite !Z.eqb_neq in H0.
  destruct (Hp h') as [? Hsub]; [set_solver|].
  split; [split_and!; [done|done|set_solver]|].
  unfold entry_ok, face_ok, is_u64, i32_max. cbn. repeat split; try lia.
Qed.

Lemma parse_ok raw : cache_ok (parse_conn_caps raw).
Proof.
  unfold parse_conn_caps. destruct (lines raw) as [|first rest] eqn:E; [apply map_Forall_empty|].
  case_decide; [|apply map_Forall_empty].
  assert (forall p, p ∈ rest -> LF ∉ p) as Hr.
  { intros p Hp. apply (lines_no_lf raw). rewrite E. set_solver. }
  clear E. assert (cache_ok ∅) as H0 by apply map_Forall_empty. revert H0.
  generalize (∅ : Cache). induction rest as [|l rest IH]; intros m Hm; [done|].
  cbn. apply IH; [set_solver|]. unfold insert_parsed.
  destruct (parse_line l) as [[h e]|] eqn:El; [|done].
  apply map_Forall_insert_2; [|done]. eapply parse_line_ok; [|done]. apply Hr. set_solver.
Qed.

(** ** Observations *)

Lemma eff_cap_insert now m h e h' :
  eff_cap now (<[h := e]> m) h' =
  if decide (h' = h) then fresh_face now (cap e) (cap_ts e) else eff_cap now m h'.
Proof.
  unfold eff_cap. case_decide as H; [subst; by rewrite lookup_insert_eq|by rewrite lookup_insert_ne].
Qed.

Lemma eff_hint_insert now m h e h' :
  eff_hint now (<[h := e]> m) h' =
  if decide (h' = h) then fresh_face now (hint e) (hint_ts e) else eff_hint now m h'.
Proof.
  unfold eff_hint. case_decide as H; [subst; by rewrite lookup_insert_eq|by rewrite lookup_insert_ne].
Qed.

Lemma eff_default now m h :
  eff_cap now m h = fresh_face now (cap (entry_or_default m h)) (cap_ts (entry_or_default m h)) /\
  eff_hint now m h = fresh_face now (hint (entry_or_default m h)) (hint_ts (entry_or_default m h)).
Proof. unfold eff_cap, eff_hint, entry_or_default. by destruct (m !! h). Qed.

Lemma eff_insert_same now m h e :
  fresh_face now (cap e) (cap_ts e) = eff_cap now m h ->
  fresh_face now (hint e) (hint_ts e) = eff_hint now m h ->
  same_view now (<[h := e]> m) m.
Proof.
  intros Hc Hh h'. rewrite eff_cap_insert, eff_hint_insert. by case_decide; subst.
Qed.

(** An entry that is well formed except that it may be empty. *)
Definition faces_ok (e : ConnPolicyEntry) : Prop := face_ok (cap e) (cap_ts e) /\ face_ok (hint e) (hint_ts e).

Lemma entry_or_default_ok m h : cache_ok m -> faces_ok (entry_or_default m h).
Proof.
  intros Hm. unfold entry_or_default. destruct (m !! h) as [e|] eqn:E; cbn.
  - destruct (Hm h e E) as (_ & ? & ? & _). done.
  - unfold faces_ok, face_ok, is_u64, i32_max. cbn. lia.
Qed.

(** The value of a face after one more observation [v] at [now]. *)
Definition observe (f : Z -> Z -> Z) (now old ts v : Z) : Z :=
  if (0 <? old) && conn_cap_fresh ts now then f old v else v.

Lemma observe_fresh f now old ts v :
  0 < v -> (forall a, 0 < a -> 0 < f a v) ->
  fresh_face now (observe f now old ts v) now = opt_merge f (fresh_face now old ts) (Some v).
Proof.
  intros Hv Hf. unfold observe, fresh_face. rewrite fresh_now.
  destruct (0 <? old) eqn:E, (conn_cap_fresh ts now); bool_hyps; cbn;
    destruct (_ <? _) eqn:E2; bool_hyps; try done; try lia; specialize (Hf old); lia.
Qed.

(** One face of the merge at start-up. *)
Definition load_face (lt : Z -> Z -> bool) (now old ots v ts : Z) : Z * Z :=
  if (0 <? v) && ((old =? 0) || negb (conn_cap_fresh ots now) || lt v old) then (v, ts) else (old, ots).

Lemma load_face_merge (lt : Z -> Z -> bool) f now old ots v ts :
  (forall a b, f a b = if lt b a then b else a) ->
  face_ok old ots -> face_ok v ts -> v = default 0 (fresh_face now v ts) ->
  let '(r, rts) := load_face lt now old ots v ts in
  fresh_face now r rts = opt_merge f (fresh_face now old ots) (fresh_face now v ts) /\
  face_ok r rts /\ (v <> 0 -> r <> 0).
Proof.
  intros Hf Ho Hv. pose proof Ho as [[Ho1 _] _]. pose proof Hv as [[Hv1 _] _].
  unfold load_face, fresh_face.
  destruct (0 <? v) eqn:Ev, (conn_cap_fresh ts now) eqn:Fv, (old =? 0) eqn:Eo,
    (conn_cap_fresh ots now) eqn:Fo, (lt v old) eqn:El;
    cbn; bool_hyps; intros Hz; try lia; subst; cbn; rewrite ?Ev, ?Fv, ?Fo; cbn;
    rewrite ?(proj2 (Z.ltb_lt 0 v)) by lia; rewrite ?(proj2 (Z.ltb_lt 0 old)) by lia; cbn;
    rewrite ?Hf, ?El; repeat split; try apply Ho; try apply Hv; try done; try lia.
Qed.

Lemma retain_fresh_view now m :
  cache_ok m -> cache_ok (retain_fresh now m) /\ forall t, now <= t -> same_view t (retain_fresh now m) m.
Proof.
  intros Hm. unfold retain_fresh. split.
  - intros h e He. apply lookup_omap_Some in He as (e0 & Hp & He0). destruct (Hm _ _ He0) as [Hh Hok].
    split; [done|]. pose proof (prune_faces now now e0 ltac:(lia) Hok) as Hpf.
    destruct (prune_stale_faces now e0) as [e' []]; [done|]. simplify_eq. by destruct Hpf as (_ & _ & ? & _).
  - intros t Ht h. unfold eff_cap, eff_hint. rewrite lookup_omap.
    destruct (m !! h) as [e0|] eqn:He0; cbn; [|done]. destruct (Hm _ _ He0) as [_ Hok].
    pose proof (prune_faces now t e0 Ht Hok) as Hpf.
    destruct (prune_stale_faces now e0) as [e' []]; destruct Hpf as (? & ? & Hx & _); cbn; [|by split].
    by destruct Hx as [-> ->].
Qed.

Lemma opt_merge_None_r f a : opt_merge f a None = a.
Proof. by destruct a. Qed.

Lemma load_entry_eq now h e m :
  load_entry now h e m =
  let '(e, empty) := prune_stale_faces now e in
  if empty then m
  else
    let d := entry_or_default m h in
    let '(c, ct) := load_face (fun a b => a <? b) now (cap d) (cap_ts d) (cap e) (cap_ts e) in
    let '(f, ft) := load_face (fun a b => b <? a) now (hint d) (hint_ts d) (hint e) (hint_ts e) in
    <[h := mk_entry c ct f ft]> m.
Proof.
  unfold load_entry, load_face. destruct (prune_stale_faces now e) as [e' []]; [done|].
  destruct (entry_or_default m h) as [c ct f ft]. cbn [cap cap_ts hint hint_ts].
  destruct ((0 <? cap e') && _); cbn [cap cap_ts hint hint_ts]; by destruct ((0 <? hint e') && _).
Qed.

(** Loading one entry merges its fresh faces into the host's. *)
Lemma load_entry_merge now h e m :
  host_ok h -> entry_ok e -> cache_ok m ->
  cache_ok (load_entry now h e m) /\
  (forall h', eff_cap now (load_entry now h e m) h' =
     if decide (h' = h) then opt_merge Z.min (eff_cap now m h) (fresh_face now (cap e) (cap_ts e))
     else eff_cap now m h') /\
  (forall h', eff_hint now (load_entry now h e m) h' =
     if decide (h' = h) then opt_merge Z.max (eff_hint now m h) (fresh_face now (hint e) (hint_ts e))
     else eff_hint now m h').
Proof.
  intros Hh He Hm. rewrite load_entry_eq. pose proof (prune_faces now now e ltac:(lia) He) as Hpf.
  destruct (prune_stale_faces now e) as [e' []]; destruct Hpf as (Hc & Hi & Hx & Hc0 & Hi0).
  { destruct Hx as [-> ->]. split; [done|].
    by split; intros h'; case_decide; subst; rewrite ?opt_merge_None_r. }
  pose proof (entry_or_default_ok m h Hm) as [Hd1 Hd2]. destruct (eff_default now m h) as [-> ->].
  destruct Hx as (Hx1 & Hx2 & Hx3). rewrite <-Hc, <-Hi. rewrite <-Hc in Hc0. rewrite <-Hi in Hi0.
  pose proof (load_face_merge (fun a b => a <? b) Z.min now _ _ _ _
    ltac:(intros a b; cbn; destruct (Z.ltb_spec b a); lia) Hd1 Hx1 Hc0) as Mc.
  pose proof (load_face_merge (fun a b => b <? a) Z.max now _ _ _ _
    ltac:(intros a b; cbn; destruct (Z.ltb_spec a b); lia) Hd2 Hx2 Hi0) as Mh.
  cbn zeta. destruct (load_face _ now (cap _) _ _ _) as [c ct], (load_face _ now (hint _) _ _ _) as [f ft].
  destruct Mc as (Mc1 & Mc2 & Mc3), Mh as (Mh1 & Mh2 & Mh3). split_and!.
  - apply map_Forall_insert_2; [|done]. split; [done|]. split_and!; [done|done|]. cbn. tauto.
  - intros h'. by rewrite eff_cap_insert, <-Mc1.
  - intros h'. by rewrite eff_hint_insert, <-Mh1.
Qed.

(** A host the cache does not know gets the fresh faces of the entry. *)
Lemma load_entry_new now t h e m :
  now <= t -> entry_ok e -> m !! h = None ->
  (forall h', eff_cap t (load_entry now h e m) h' =
     if decide (h' = h) then fresh_face t (cap e) (cap_ts e) else eff_cap t m h') /\
  (forall h', eff_hint t (load_entry now h e m) h' =
     if decide (h' = h) then fresh_face t (hint e) (hint_ts e) else eff_hint t m h').
Proof.
  intros Ht He Hm. rewrite load_entry_eq. pose proof (prune_faces now t e Ht He) as Hpf.
  destruct (prune_stale_faces now e) as [e' []]; destruct Hpf as (Hc & Hi & Hx & Hc0 & Hi0).
  { destruct Hx as [-> ->]. unfold eff_cap, eff_hint.
    by split; intros h'; case_decide; subst; rewrite ?Hm. }
  destruct Hx as ([[? _] _] & [[? _] _] & _).
  unfold entry_or_default, load_face. rewrite Hm. cbn.
  destruct (0 <? cap e') eqn:Ec, (0 <? hint e') eqn:Eh; cbn;
    (split; intros h'; [rewrite eff_cap_insert, <-Hc|rewrite eff_hint_insert, <-Hi]); cbn;
    case_decide; try done; unfold fresh_face; by rewrite ?Ec, ?Eh.
Qed.

(** Loading a whole table. *)
Lemma load_all_merge now m l :
  cache_ok m -> cache_ok l ->
  cache_ok (map_fold (load_entry now) m l) /\
  forall h, eff_cap now (map_fold (load_entry now) m l) h = opt_merge Z.min (eff_cap now m h) (eff_cap now l h) /\
    eff_hint now (map_fold (load_entry now) m l) h = opt_merge Z.max (eff_hint now m h) (eff_hint now l h).
Proof.
  intros Hm. revert l. apply (map_fold_weak_ind (fun r l => cache_ok l -> cache_ok r /\
    forall h, eff_cap now r h = opt_merge Z.min (eff_cap now m h) (eff_cap now l h) /\
      eff_hint now r h = opt_merge Z.max (eff_hint now m h) (eff_hint now l h))).
  { intros _. split; [done|]. intros h. unfold eff_cap at 3, eff_hint at 3. by rewrite lookup_empty, !opt_merge_None_r. }
  intros h e l r Hl IH Hok. apply map_Forall_insert in Hok as [[Hh He] Hok]; [|done].
  destruct (IH Hok) as [Hr IHh]. destruct (load_entry_merge now h e r Hh He Hr) as (Hr' & Hc & Hi).
  split; [done|]. intros h'. rewrite Hc, Hi, eff_cap_insert, eff_hint_insert.
  destruct (IHh h) as [IH1 IH2], (IHh h') as [IH3 IH4]. case_decide; [subst|done].
  assert (eff_cap now l h = None /\ eff_hint now l h = None) as [E1 E2] by (unfold eff_cap, eff_hint; by rewrite Hl).
  by rewrite IH3, IH4, E1, E2, !opt_merge_None_r.
Qed.

(** Loading a table into an empty cache, seen at any later time. *)
Lemma load_all_fresh now t l :
  now <= t -> cache_ok l -> same_view t (map_fold (load_entry now) ∅ l) l.
Proof.
  intros Ht. revert l. apply (map_fold_weak_ind (fun r l => cache_ok l ->
    (forall h, l !! h = None -> r !! h = None) /\ same_view t r l)).
  { intros _. split; [done|]. by intros h. }
  intros h e l r Hl IH Hok. apply map_Forall_insert in Hok as [[Hh He] Hok]; [|done].
  destruct (IH Hok) as [Hdom Hv]. destruct (load_entry_new now t h e r Ht He (Hdom h Hl)) as [Hc Hi].
  split.
  - intros h' [Hh' Hne]%lookup_insert_None. apply Hdom in Hh'. rewrite load_entry_eq.
    destruct (prune_stale_faces now e) as [e' []]; [done|]. cbn zeta.
    destruct (load_face _ now (cap _) _ _ _), (load_face _ now (hint _) _ _ _). by rewrite lookup_insert_ne.
  - intros h'. rewrite Hc, Hi, eff_cap_insert, eff_hint_insert. case_decide; [done|]. apply Hv.
Qed.

(** ** Properties *)

(** C39. The storage format loses nothing, and no stored text, damaged or edited by
    hand, can bring in an entry out of range: the text written for a cache
    reads back as that cache, whatever order the hash map iterates in, and
    every text reads as a well-formed cache. *)
Theorem conn_policy_roundtrip m raw entries :
  (cache_ok m -> parse_conn_caps (serialize_conn_caps m) = m) /\ cache_ok (parse_conn_caps raw) /\
  (entries ≡ₚ map_to_list m ->
   serialize_conn_caps m = join LF (CONN_CAP_FORMAT_VERSION :: sort_texts (map entry_line entries))).
Proof.
  split_and!; [apply parse_serialize|apply parse_ok|]. intros Hp. unfold serialize_conn_caps.
  do 2 f_equal. symmetry. by apply sort_texts_perm, Permutation_map.
Qed.

Definition sample_cache : Cache :=
  <[lit "cdn.example:8080" := mk_entry 4 1000 0 0]> {[lit "mirror.example" := mk_entry 0 0 16 2000]}.

Lemma sample_cache_ok : cache_ok sample_cache.
Proof.
  unfold sample_cache. apply map_Forall_insert_2; [|apply map_Forall_singleton].
  all: split; [|unfold entry_ok, face_ok, is_u64, i32_max; cbn; lia].
  all: split_and!; [done|by apply (bool_decide_unpack _)|by apply (bool_decide_unpack _)].
Qed.

Lemma conn_policy_roundtrip_witness :
  cache_ok sample_cache /\ parse_conn_caps (serialize_conn_caps sample_cache) = sample_cache.
Proof.
  split; [exact sample_cache_ok|].
  exact (proj1 (conn_policy_roundtrip sample_cache [] []) sample_cache_ok).
Defined.

Section Hosts.
Variable url_host_port : text -> option (text * option Z).

(** Learning is monotone within the time to live: a rejection lowers the
    host's limit to the minimum of what is known and the new limit, a download
    without rejections raises its hint to the maximum, neither touches the
    other face or another host, and start-up merges the stored observations in
    the same way, host by host. *)
Theorem observations_merge now url h v raw m :
  cache_ok m -> extract_host url_host_port url = Some h -> host_ok h -> is_u64 now -> v <= i32_max ->
  (let m' := record_domain_conn_cap url_host_port now url v m in
   cache_ok m' /\
   forall h', eff_cap now m' h' =
       (if decide (h' = h) then opt_merge Z.min (eff_cap now m h) (Some (Z.max v 1)) else eff_cap now m h') /\
     eff_hint now m' h' = eff_hint now m h') /\
  (let m' := record_domain_conn_hint url_host_port now url v m in
   cache_ok m' /\
   forall h', eff_hint now m' h' =
       (if decide (h' = h) then opt_merge Z.max (eff_hint now m h) (Some (Z.max v 1)) else eff_hint now m h') /\
     eff_cap now m' h' = eff_cap now m h') /\
  (let m' := load_domain_conn_caps now (Ok (Some raw)) m in
   cache_ok m' /\
   forall h', eff_cap now m' h' = opt_merge Z.min (eff_cap now m h') (eff_cap now (parse_conn_caps raw) h') /\
     eff_hint now m' h' = opt_merge Z.max (eff_hint now m h') (eff_hint now (parse_conn_caps raw) h')).
Proof.
  intros Hm Hx Hh Hn Hv. pose proof (entry_or_default_ok m h Hm) as [[Hd1 Hd1'] [Hd2 Hd2']].
  destruct (eff_default now m h) as [Ec Ei]. split_and!.
  - unfold record_domain_conn_cap. rewrite Hx. cbn zeta.
    change (record_cap_entry now (Z.max v 1) (entry_or_default m h)) with
      (mk_entry (observe Z.min now (cap (entry_or_default m h)) (cap_ts (entry_or_default m h)) (Z.max v 1)) now
        (hint (entry_or_default m h)) (hint_ts (entry_or_default m h))).
    split.
    + apply map_Forall_insert_2; [|done]. split; [done|]. split_and!; try done; cbn; [split; [|done]|left]; unfold observe, i32_max in *;
        destruct ((_ <? _) && _) eqn:E; bool_hyps; lia.
    + intros h'. rewrite eff_cap_insert, eff_hint_insert, Ec. cbn.
      rewrite observe_fresh by lia. case_decide; [subst|]; done.
  - unfold record_domain_conn_hint. rewrite Hx. cbn zeta.
    change (record_hint_entry now (Z.max v 1) (entry_or_default m h)) with
      (mk_entry (cap (entry_or_default m h)) (cap_ts (entry_or_default m h))
        (observe Z.max now (hint (entry_or_default m h)) (hint_ts (entry_or_default m h)) (Z.max v 1)) now).
    split.
    + apply map_Forall_insert_2; [|done]. split; [done|]. split_and!; try done; cbn; [split; [|done]|right]; unfold observe, i32_max in *;
        destruct ((_ <? _) && _) eqn:E; bool_hyps; lia.
    + intros h'. rewrite eff_cap_insert, eff_hint_insert, Ei. cbn.
      rewrite observe_fresh by lia. case_decide; [subst|]; done.
  - cbn zeta. unfold load_domain_conn_caps. apply load_all_merge; [done|apply parse_ok].
Qed.

(** A reader sees exactly the observations that are still fresh: the learned
    limit, the hint clamped by it, and the single-connection flag; dropping the
    expired faces on the way changes nothing any later reader could see. *)
Theorem reads_see_fresh_observations now url m :
  cache_ok m ->
  match extract_host url_host_port url with
  | None => domain_conn_cap url_host_port now url m = (None, m) /\
            domain_conn_hint url_host_port now url m = (None, m) /\
            is_single_conn_domain url_host_port now url m = (false, m)
  | Some h =>
      exists m', cache_ok m' /\ (forall t, now <= t -> same_view t m' m) /\
      domain_conn_cap url_host_port now url m = (eff_cap now m h, m') /\
      domain_conn_hint url_host_port now url m =
        ((let* v := eff_hint now m h in
          Some (match eff_cap now m h with Some c => Z.min v c | None => v end)), m') /\
      is_single_conn_domain url_host_port now url m = (bool_decide (eff_cap now m h = Some 1), m')
  end.
Proof.
  intros Hm. unfold is_single_conn_domain, domain_conn_cap, domain_conn_hint, read_conn_policy.
  destruct (extract_host url_host_port url) as [h|]; [|by rewrite bool_decide_eq_false_2].
  destruct (m !! h) as [e|] eqn:He.
  2: { exists m. unfold eff_cap, eff_hint. rewrite He. by split_and!. }
  destruct (Hm h e He) as [Hh Hok].
  assert (forall t, now <= t -> let '(e', empty) := prune_stale_faces now e in
    same_view t (if empty then delete h m else <[h := e']> m) m) as Hview.
  { intros t Ht. pose proof (prune_faces now t e Ht Hok) as Hp.
    destruct (prune_stale_faces now e) as [e' []]; destruct Hp as (Hc & Hi & Hx & _).
    - intros h'. unfold eff_cap, eff_hint. destruct (decide (h' = h)) as [->|];
        [|by rewrite lookup_delete_ne]. rewrite lookup_delete_eq, He. by destruct Hx as [-> ->].
    - apply eff_insert_same; unfold eff_cap, eff_hint; by rewrite He. }
  pose proof (prune_faces now now e ltac:(lia) Hok) as Hp.
  assert (eff_cap now m h = fresh_face now (cap e) (cap_ts e)) as -> by (unfold eff_cap; by rewrite He).
  assert (eff_hint now m h = fresh_face now (hint e) (hint_ts e)) as -> by (unfold eff_hint; by rewrite He).
  revert Hp Hview.
  destruct (prune_stale_faces now e) as [e' []]; intros (Hc & Hi & Hx & Hc0 & Hi0) Hview.
  - exists (delete h m). destruct Hx as [-> ->]. split_and!; try done.
    by apply map_Forall_delete.
  - exists (<[h := e']> m). assert (forall v ts, v = default 0 (fresh_face now v ts) -> fresh_face now v ts = (if 0 <? v then Some v else None)) as Hr.
    { intros v ts. unfold fresh_face. destruct (0 <? v) eqn:E, (conn_cap_fresh ts now); bool_hyps; cbn; try done; lia. }
    rewrite <-Hc in Hc0. rewrite <-Hi in Hi0. rewrite <-Hc, <-Hi, (Hr _ _ Hc0), (Hr _ _ Hi0).
    split_and!; try done.
    + by apply map_Forall_insert_2.
    + by destruct (0 <? hint e'), (0 <? cap e').
Qed.
End Hosts.

(** URLs are split by a table. *)
Definition sample_host_port (url : text) : option (text * option Z) :=
  if decide (url = lit "http://cdn.example:8080/f") then Some (lit "cdn.example", Some 8080) else None.

Definition sample_url : text := lit "http://cdn.example:8080/f".
Definition sample_host : text := lit "cdn.example:8080".

Lemma observations_merge_witness :
  let m' := record_domain_conn_cap sample_host_port 3000 sample_url 2 sample_cache in
  cache_ok m' /\ eff_cap 3000 m' sample_host = Some 2 /\
  eff_hint 3000 m' (lit "mirror.example") = Some 16.
Proof.
  destruct (observations_merge sample_host_port 3000 sample_url sample_host 2 [] sample_cache) as [[Hok Hv] _].
  - exact sample_cache_ok.
  - vm_compute. reflexivity.
  - split_and!; [done|by apply (bool_decide_unpack _)|by apply (bool_decide_unpack _)].
  - unfold is_u64. lia.
  - unfold i32_max. lia.
  - split; [exact Hok|]. split.
    + rewrite (proj1 (Hv sample_host)). vm_compute. reflexivity.
    + rewrite (proj2 (Hv (lit "mirror.example"))). vm_compute. reflexivity.
Defined.

Lemma reads_see_fresh_observations_witness :
  exists m', domain_conn_cap sample_host_port 3000 sample_url sample_cache = (Some 4, m') /\
    same_view 100000 m' sample_cache.
Proof.
  pose proof (reads_see_fresh_observations sample_host_port 3000 sample_url sample_cache sample_cache_ok) as H.
  change (extract_host sample_host_port sample_url) with (Some sample_host) in H. cbn iota in H.
  destruct H as (m' & _ & Hv & Hc & _). exists m'. rewrite Hc. split; [|apply Hv; lia].
  change (eff_cap 3000 sample_cache sample_host) with (Some 4). reflexivity.
Defined.

(** What is written when the cache is saved survives a restart: loading the
    stored text into the empty cache of a new process, at any later time,
    gives readers the same answers as the cache that was saved, from then on;
    saving itself changes no answer either, and a cleared cache is stored as
    one that says nothing about any host. *)
Theorem learning_survives_restart t1 t2 t m :
  cache_ok m -> t1 <= t2 -> t2 <= t ->
  let '(m1, stored) := persist_domain_conn_caps t1 m in
  same_view t m1 m /\ same_view t (load_domain_conn_caps t2 (Ok (Some stored)) ∅) m /\
  match (clear_domain_conn_caps t1 m).2 with
  | Some stored' => load_domain_conn_caps t2 (Ok (Some stored')) ∅ = ∅
  | None => m = ∅
  end.
Proof.
  intros Hm H12 H2. cbn beta iota zeta delta [persist_domain_conn_caps load_domain_conn_caps].
  destruct (retain_fresh_view t1 m Hm) as [Hok Hv]. split_and!.
  - apply Hv. lia.
  - rewrite parse_serialize by done. intros h.
    destruct (load_all_fresh t2 t _ H2 Hok h) as [-> ->]. apply Hv. lia.
  - unfold clear_domain_conn_caps, persist_domain_conn_caps, retain_fresh, load_domain_conn_caps.
    case_decide; [done|]. cbn [fst snd]. rewrite omap_empty, parse_serialize; [done|].
    apply map_Forall_empty.
Qed.

Lemma learning_survives_restart_witness :
  same_view 90000 (load_domain_conn_caps 5000 (Ok (Some (persist_domain_conn_caps 4000 sample_cache).2)) ∅)
    sample_cache.
Proof.
  pose proof (learning_survives_restart 4000 5000 90000 sample_cache sample_cache_ok ltac:(lia) ltac:(lia)) as H.
  destruct (persist_domain_conn_caps 4000 sample_cache) as [m1 stored]. exact (proj1 (proj2 H)).
Defined.
