(* ===== verification/QueueOrder.v ===== *)
(** * QueueOrder: publishing the queue order as increments
      ([native/engine/src/queue_order.rs]) and applying them at a subscriber
      ([apply_queue_order] of [native/protocol/src/event.rs]).

    The publisher keeps the last published sort key of every queued task and
    turns a new queue order into a full table or an increment; the subscriber
    keeps the table sorted by key.  The theorems show that after any sequence
    of queue orders the subscriber's table is the queue, with keys that stay
    the same while a task is queued.  Keys stay within [KEY_LIMIT], so the
    additions of the code that are not checked cannot overflow. *)
From Stdlib Require Import Ascii.
From S2P Require Import Prelude Text.

Definition KEY_STEP : Z := Z.shiftl 1 20.
Definition KEY_LIMIT : Z := Z.shiftl 1 52.

Record QueuePosition := mk_pos { qp_task : text; qp_position : Z; qp_order : Z }.
Record QueueOrderEntry := mk_qentry { qe_task : text; qe_order : Z }.

Inductive QueueOrderDelta :=
| Unchanged
| Full (positions : list QueuePosition)
| Incremental (removed : list text) (added : list QueueOrderEntry).

Notation Keys := (gmap text Z).

(** ** The publisher *)

(** The filter of the queue by insertion into the set of seen ids. *)
Fixpoint first_occurrences (seen : gset text) (queue : list text) : list text :=
  match queue with
  | [] => []
  | id :: queue' =>
      if decide (id ∈ seen) then first_occurrences seen queue'
      else id :: first_occurrences ({[id]} ∪ seen) queue'
  end.

Definition position_of (index : nat) : Z := Z.min (Z.of_nat index + 1) i32_max.

(** [reassign]: new keys for the whole queue. *)
Definition reassign_order (index : nat) : Z := (Z.of_nat index + 1) * KEY_STEP.

Definition reassign (ordered : list text) : QueueOrderDelta * Keys :=
  (Full (imap (fun i id => mk_pos id (position_of i) (reassign_order i)) ordered),
   foldl (fun m '(id, k) => <[id := k]> m) ∅ (imap (fun i id => (id, reassign_order i)) ordered)).

(** Keys already published, in queue order; [None] when they do not increase. *)
Fixpoint scan_existing (keys : Keys) (ordered : list text) (last : option Z)
    (existing : list (option Z)) (retained : nat) : option (list (option Z) * nat) :=
  match ordered with
  | [] => Some (existing, retained)
  | id :: ordered' =>
      match keys !! id with
      | Some key =>
          if match last with Some l => key <=? l | None => false end then None
          else scan_existing keys ordered' (Some key) (existing ++ [Some key]) (S retained)
      | None => scan_existing keys ordered' last (existing ++ [None]) retained
      end
  end.

Fixpoint position_some (l : list (option Z)) : option nat :=
  match l with
  | [] => None
  | Some _ :: _ => Some O
  | None :: l' => option_map S (position_some l')
  end.

(** The keys of a run of [count] new tasks at [index] between the neighbours'
    keys. *)
Definition run_keys (prev next : option Z) (count : nat) : option (list Z) :=
  let c := Z.of_nat count in
  match prev, next with
  | Some prev, None =>
      let* m := checked_i64 (KEY_STEP * c) in
      let* last := checked_i64 (prev + m) in
      if KEY_LIMIT <? last then None
      else Some (map (fun offset => prev + KEY_STEP * (Z.of_nat offset + 1)) (seq 0 count))
  | None, Some next =>
      let* m := checked_i64 (KEY_STEP * c) in
      let* first := checked_i64 (next - m) in
      if first <? - KEY_LIMIT then None
      else Some (map (fun offset => first + KEY_STEP * Z.of_nat offset) (seq 0 count))
  | Some prev, Some next =>
      let step := idiv (next - prev) (c + 1) in
      if step <? 1 then None
      else Some (map (fun offset => prev + step * (Z.of_nat offset + 1)) (seq 0 count))
  | None, None => None
  end.

(** The [while] loop of [assign_new_keys]; every iteration advances [index]. *)
Fixpoint assign_loop (fuel : nat) (existing : list (option Z)) (index : nat) (prev : option Z)
    (assigned : list (nat * Z)) : option (list (nat * Z)) :=
  match fuel with
  | O => None
  | S fuel =>
      if (index <? length existing)%nat then
        match existing !! index with
        | Some (Some key) => assign_loop fuel existing (S index) (Some key) assigned
        | _ =>
            let run_end := match position_some (drop index existing) with
                           | Some offset => (index + offset)%nat
                           | None => length existing
                           end in
            let next := default None (existing !! run_end) in
            let* ks := run_keys prev next (run_end - index) in
            assign_loop fuel existing run_end prev
              (assigned ++ imap (fun offset k => (index + offset, k)%nat) ks)
        end
      else Some assigned
  end.

Definition assign_new_keys (existing : list (option Z)) : option (list (nat * Z)) :=
  assign_loop (S (length existing)) existing 0 None [].

(** [QueueOrderPublisher::diff] *)
Definition diff (keys : Keys) (queue : list text) : QueueOrderDelta * Keys :=
  let ordered := first_occurrences ∅ queue in
  if bool_decide (ordered = []) then
    if bool_decide (keys = ∅) then (Unchanged, keys) else (Full [], ∅)
  else if bool_decide (keys = ∅) then reassign ordered
  else
    match scan_existing keys ordered None [] 0 with
    | None => reassign ordered
    | Some (existing, retained) =>
        match assign_new_keys existing with
        | None => reassign ordered
        | Some assigned =>
            let removed :=
              if (retained <? size keys)%nat
              then filter (fun id => id ∉ (list_to_set ordered : gset text)) (map fst (map_to_list keys))
              else [] in
            if bool_decide (removed = []) && bool_decide (assigned = []) then (Unchanged, keys)
            else
              let keys := foldl (fun m id => delete id m) keys removed in
              let added := omap (fun '(index, key) => (fun id => (id, key)) <$> ordered !! index) assigned in
              (Incremental removed (map (fun '(id, key) => mk_qentry id key) added),
               foldl (fun m '(id, key) => <[id := key]> m) keys added)
        end
    end.

(** ** The subscriber *)

(** A stable sort by key, as [sort_by_key]. *)
Fixpoint insert_by_order (e : QueueOrderEntry) (l : list QueueOrderEntry) : list QueueOrderEntry :=
  match l with
  | [] => [e]
  | x :: l' => if qe_order e <=? qe_order x then e :: l else x :: insert_by_order e l'
  end.

Definition sort_by_order (l : list QueueOrderEntry) : list QueueOrderEntry :=
  foldr insert_by_order [] l.

(** Each task once, the last occurrence wins; in reverse order. *)
Fixpoint last_entries (seen : gset text) (rev_added : list QueueOrderEntry) : list QueueOrderEntry :=
  match rev_added with
  | [] => []
  | e :: l =>
      if decide (qe_task e ∈ seen) then last_entries seen l
      else e :: last_entries ({[qe_task e]} ∪ seen) l
  end.

Definition position_of_entry (e : QueueOrderEntry) : QueuePosition := mk_pos (qe_task e) 0 (qe_order e).

(** [incoming.next_if(|next| next.order < entry.order)], repeated. *)
Fixpoint span_below (bound : Z) (incoming : list QueueOrderEntry) : list QueueOrderEntry * list QueueOrderEntry :=
  match incoming with
  | e :: l =>
      if qe_order e <? bound then let '(a, b) := span_below bound l in (e :: a, b) else ([], incoming)
  | [] => ([], [])
  end.

Fixpoint merge_incoming (existing : list QueuePosition) (incoming : list QueueOrderEntry) : list QueuePosition :=
  match existing with
  | [] => map position_of_entry incoming
  | entry :: existing' =>
      let '(front, rest) := span_below (qp_order entry) incoming in
      map position_of_entry front ++ entry :: merge_incoming existing' rest
  end.

Definition renumber (positions : list QueuePosition) : list QueuePosition :=
  imap (fun i p => mk_pos (qp_task p) (position_of i) (qp_order p)) positions.

Definition touched (removed : list text) (added : list QueueOrderEntry) : gset text :=
  list_to_set (removed ++ map qe_task added).

Definition apply_queue_order (positions : list QueuePosition) (removed : list text)
    (added : list QueueOrderEntry) : list QueuePosition :=
  renumber
    (if bool_decide (removed = []) && bool_decide (added = []) then positions
     else
       let positions := filter (fun p => qp_task p ∉ touched removed added) positions in
       let incoming := sort_by_order (last_entries ∅ (reverse added)) in
       if bool_decide (incoming = []) then positions else merge_incoming positions incoming).

(** What a subscriber does with the event of a delta: nothing, replace, apply. *)
Definition receive (positions : list QueuePosition) (d : QueueOrderDelta) : list QueuePosition :=
  match d with
  | Unchanged => positions
  | Full ps => ps
  | Incremental removed added => apply_queue_order positions removed added
  end.

(** ** Tables *)

(** The published keys of a queue: exactly its tasks, increasing along it. *)
Definition published (keys : Keys) (ordered : list text) (ks : list Z) : Prop :=
  length ks = length ordered /\ NoDup ordered /\ keys = list_to_map (zip ordered ks) /\
  StronglySorted Z.lt ks /\ Forall (fun k => - KEY_LIMIT <= k <= KEY_LIMIT) ks.

Definition table (ordered : list text) (ks : list Z) : list QueuePosition :=
  imap (fun i '(id, k) => mk_pos id (position_of i) k) (zip ordered ks).

Example diff_first : diff ∅ [lit "a"; lit "b"; lit "a"] =
  (Full [mk_pos (lit "a") 1 KEY_STEP; mk_pos (lit "b") 2 (2 * KEY_STEP)],
   <[lit "b" := 2 * KEY_STEP]> {[lit "a" := KEY_STEP]}).
Proof. vm_compute. reflexivity. Qed.

Example diff_head :
  (diff (<[lit "b" := 2 * KEY_STEP]> {[lit "a" := KEY_STEP]}) [lit "b"; lit "c"]).1 =
  Incremental [lit "a"] [mk_qentry (lit "c") (3 * KEY_STEP)].
Proof. vm_compute. reflexivity. Qed.

(** ** Increasing keys *)

Definition key_ok (k : Z) : Prop := - KEY_LIMIT <= k <= KEY_LIMIT.

Notation increasing := (StronglySorted Z.lt).

Lemma increasing_seq (f : nat -> Z) n m :
  (forall i, f i < f (S i)) -> increasing (map f (seq m n)).
Proof.
  intros Hf. assert (forall i j, (i < j)%nat -> f i < f j) as Hm.
  { intros i j Hij. induction Hij as [|j Hij IH]; [apply Hf|]. specialize (Hf j). lia. }
  revert m. induction n as [|n IH]; intros m; cbn; constructor; [apply IH|].
  apply Forall_map, Forall_forall. intros j Hj%elem_of_seq. apply Hm. lia.
Qed.

Lemma increasing_NoDup l : increasing l -> NoDup l.
Proof.
  induction 1 as [|x l Hs IH HF]; constructor; [|done]. intros Hx. rewrite Forall_forall in HF.
  apply HF in Hx. lia.
Qed.

Lemma weakly_increasing_NoDup l : StronglySorted Z.le l -> NoDup l -> increasing l.
Proof.
  induction 1 as [|x l Hs IH HF]; intros Hn; constructor; inversion Hn; subst; [by apply IH|].
  rewrite Forall_forall in HF |- *. intros y Hy. specialize (HF y Hy). assert (x <> y) by set_solver. lia.
Qed.

(** A table is determined by its entries once its keys increase. *)
Lemma pairs_unique (l1 l2 : list (text * Z)) :
  increasing l1.*2 -> increasing l2.*2 -> l1 ≡ₚ l2 -> l1 = l2.
Proof.
  intros H1 H2 Hp. set (R := fun a b : text * Z => a.2 < b.2).
  assert (forall l : list (text * Z), increasing l.*2 -> StronglySorted R l) as Hs.
  { intros l. induction l as [|x l IH]; cbn; intros Hl; [constructor|].
    apply StronglySorted_cons in Hl as [HF Hl]. apply StronglySorted_cons.
    split; [exact (proj1 (Forall_fmap _ _ _) HF)|by apply IH]. }
  apply (StronglySorted_unique_strong R); auto. unfold R. lia.
Qed.

(** ** Keys for new tasks *)

Definition between (prev next : option Z) (k : Z) : Prop :=
  match prev with Some p => p < k | None => True end /\
  match next with Some n => k < n | None => True end.

Lemma run_keys_spec prev next count r :
  (forall p, prev = Some p -> key_ok p) -> (forall n, next = Some n -> key_ok n) ->
  run_keys prev next count = Some r ->
  length r = count /\ increasing r /\ Forall (fun k => between prev next k /\ key_ok k) r.
Proof.
  intros Hp Hn. unfold run_keys, between.
  assert (0 < KEY_STEP) as Hstep by done.
  destruct prev as [p|], next as [n|]; [| | |done].
  - specialize (Hp p eq_refl). specialize (Hn n eq_refl). unfold key_ok in *.
    destruct (_ <? 1) eqn:E; [done|]. bool_hyps. intros [= <-].
    set (step := idiv (n - p) (Z.of_nat count + 1)) in *.
    assert (step * (Z.of_nat count + 1) <= n - p) as Hb.
    { destruct (Z.lt_ge_cases (n - p) 0) as [Hneg|Hpos].
      - exfalso. assert (step <= 0); [|lia]. unfold step, idiv. 
        rewrite <-(Z.opp_involutive (n - p)), Z.quot_opp_l by lia.
        pose proof (Z.quot_pos (- (n - p)) (Z.of_nat count + 1)). lia.
      - unfold step. rewrite idiv_nonneg by lia. rewrite Z.mul_comm. apply Z.mul_div_le. lia. }
    split_and!; [by rewrite length_map, length_seq|apply increasing_seq; intros i; nia|].
    apply Forall_map, Forall_forall. intros i Hi%elem_of_seq.
    assert (step * (Z.of_nat i + 1) < step * (Z.of_nat count + 1)) by nia. nia.
  - specialize (Hp p eq_refl). unfold key_ok in *.
    destruct (checked_i64 (KEY_STEP * _)) as [m|] eqn:E1; [|done].
    destruct (checked_i64 (p + m)) as [l|] eqn:E2; [|done].
    apply checked_i64_Some in E1 as [-> _]. apply checked_i64_Some in E2 as [-> _].
    destruct (KEY_LIMIT <? _) eqn:E; [done|]. bool_hyps. intros [= <-].
    split_and!; [by rewrite length_map, length_seq|apply increasing_seq; intros i; nia|].
    apply Forall_map, Forall_forall. intros i Hi%elem_of_seq.
    assert (KEY_STEP * (Z.of_nat i + 1) <= KEY_STEP * Z.of_nat count) by nia. nia.
  - specialize (Hn n eq_refl). unfold key_ok in *.
    destruct (checked_i64 (KEY_STEP * _)) as [m|] eqn:E1; [|done].
    destruct (checked_i64 (n - m)) as [l|] eqn:E2; [|done].
    apply checked_i64_Some in E1 as [-> _]. apply checked_i64_Some in E2 as [-> _].
    destruct (_ <? - KEY_LIMIT) eqn:E; [done|]. bool_hyps. intros [= <-].
    split_and!; [by rewrite length_map, length_seq|apply increasing_seq; intros i; nia|].
    apply Forall_map, Forall_forall. intros i Hi%elem_of_seq.
    assert (KEY_STEP * (Z.of_nat i + 1) <= KEY_STEP * Z.of_nat count) by nia. nia.
Qed.

Lemma position_some_Some l n :
  position_some l = Some n ->
  exists k, l !! n = Some (Some k) /\ take n l = replicate n None.
Proof.
  revert n. induction l as [|[k|] l IH]; intros n; cbn; [done| |].
  - intros [= <-]. by exists k.
  - destruct (position_some l) as [m|]; [|done]. intros [= <-].
    destruct (IH m eq_refl) as (k & Hk & Ht). exists k. cbn. by rewrite Ht.
Qed.

Lemma position_some_None l : position_some l = None -> l = replicate (length l) None.
Proof.
  induction l as [|[k|] l IH]; cbn; [done|done|].
  destruct (position_some l) as [m|]; [done|]. intros _. f_equal. by apply IH.
Qed.

(** The keys of all tasks agree with those already published. *)
Definition fits : list (option Z) -> list Z -> Prop :=
  Forall2 (fun e k => e = None \/ e = Some k).

(** The assignments to the tasks without a key. *)
Fixpoint gather (index : nat) (existing : list (option Z)) (ks : list Z) : list (nat * Z) :=
  match existing, ks with
  | None :: ex, k :: ks => (index, k) :: gather (S index) ex ks
  | Some _ :: ex, _ :: ks => gather (S index) ex ks
  | _, _ => []
  end.

Lemma gather_app i ex1 ks1 ex2 ks2 :
  length ex1 = length ks1 ->
  gather i (ex1 ++ ex2) (ks1 ++ ks2) = gather i ex1 ks1 ++ gather (i + length ex1) ex2 ks2.
Proof.
  revert i ks1. induction ex1 as [|[e|] ex1 IH]; intros i [|k ks1] Hl; cbn in *; try lia.
  - by rewrite Nat.add_0_r.
  - rewrite IH by lia. do 2 f_equal. lia.
  - f_equal. rewrite IH by lia. do 2 f_equal. lia.
Qed.

Lemma gather_replicate i ks :
  gather i (replicate (length ks) None) ks = imap (fun off k => (i + off, k)%nat) ks.
Proof.
  revert i. induction ks as [|k ks IH]; intros i; cbn; [done|]. rewrite Nat.add_0_r, IH. f_equal.
  apply imap_ext. intros j x _. cbn. f_equal. lia.
Qed.

Definition known (existing : list (option Z)) : list Z := omap id existing.

Lemma known_replicate n : known (replicate n None) = [].
Proof. by induction n. Qed.

Lemma known_app l1 l2 : known (l1 ++ l2) = known l1 ++ known l2.
Proof. apply omap_app. Qed.

Lemma last_between prev r x : last r = prev -> increasing r -> x ∈ r ->
  match prev with Some p => x <= p | None => False end.
Proof.
  intros <- Hs Hx. destruct (last r) as [p|] eqn:E; [|apply last_None in E; subst; set_solver].
  apply last_Some in E as [r' ->]. apply StronglySorted_app in Hs as (H & _).
  apply elem_of_app in Hx as [Hx|Hx]; [|set_solver].
  specialize (H x p Hx). assert (x < p); [apply H; set_solver|lia].
Qed.

(** A run of new tasks between the keys [ks] before it and [next] after it. *)
Lemma extend_run ks r rest prev next :
  increasing (ks ++ rest) -> last ks = prev -> head rest = next ->
  increasing r -> Forall (fun k => between prev next k) r ->
  increasing (ks ++ r ++ rest).
Proof.
  intros Hs Hl Hh Hr Hb. apply StronglySorted_app in Hs as (Hc & Hk & Hrest).
  rewrite Forall_forall in Hb.
  apply StronglySorted_app_2; [|done|apply StronglySorted_app_2; [|done|done]].
  - intros x y Hx [Hy|Hy]%elem_of_app; [|by apply Hc].
    pose proof (last_between prev ks x Hl Hk Hx) as Hle. destruct prev as [p|]; [|done].
    destruct (Hb y Hy) as [Hp _]. lia.
  - intros x y Hx Hy. destruct (Hb x Hx) as [_ Hn]. destruct rest as [|n rest]; [set_solver|].
    cbn in Hh. subst next. apply elem_of_cons in Hy as [->|Hy]; [done|].
    apply StronglySorted_cons in Hrest as [HF _]. rewrite Forall_forall in HF. specialize (HF y Hy). lia.
Qed.

(** State of the loop: keys [ks] are settled for the first [index] tasks. *)
Record assign_inv (existing : list (option Z)) (index : nat) (prev : option Z)
    (assigned : list (nat * Z)) (ks : list Z) : Prop := {
  ai_len : length ks = index;
  ai_le : (index <= length existing)%nat;
  ai_fits : fits (take index existing) ks;
  ai_assigned : assigned = gather 0 (take index existing) ks;
  ai_inc : increasing (ks ++ known (drop index existing));
  ai_ok : Forall key_ok (ks ++ known (drop index existing));
  ai_prev : existing !! index = Some None -> last ks = prev
}.

Lemma take_S_lookup {A} (l : list A) i x : l !! i = Some x -> take (S i) l = take i l ++ [x].
Proof. intros. by apply take_S_r. Qed.

Lemma drop_lookup {A} (l : list A) i x : l !! i = Some x -> drop i l = x :: drop (S i) l.
Proof. intros. by apply drop_S. Qed.

Lemma assign_step_known existing index prev assigned ks key :
  assign_inv existing index prev assigned ks -> existing !! index = Some (Some key) ->
  assign_inv existing (S index) (Some key) assigned (ks ++ [key]).
Proof.
  intros [] Hk. pose proof (lookup_lt_Some _ _ _ Hk). rewrite (drop_lookup _ _ _ Hk) in *.
  cbn in ai_inc0, ai_ok0. change (known (Some key :: ?l)) with (key :: known l) in *.
  constructor; rewrite ?(take_S_lookup _ _ _ Hk), ?length_app, <-?app_assoc; cbn; try done; try lia.
  - apply Forall2_app; [done|]. constructor; [by right|constructor].
  - rewrite gather_app by (rewrite length_take; lia). cbn. by rewrite app_nil_r.
  - intros _. by rewrite last_snoc.
Qed.

(** The extent of a run of new tasks. *)
Lemma run_extent (existing : list (option Z)) index :
  existing !! index = Some None ->
  let run_end := match position_some (drop index existing) with
                 | Some offset => (index + offset)%nat | None => length existing end in
  (index < run_end <= length existing)%nat /\
  take run_end existing = take index existing ++ replicate (run_end - index) None /\
  known (drop index existing) = known (drop run_end existing) /\
  (run_end < length existing -> exists k, existing !! run_end = Some (Some k))%nat.
Proof.
  intros Hn. pose proof (lookup_lt_Some _ _ _ Hn) as Hlt. cbn zeta.
  destruct (position_some (drop index existing)) as [off|] eqn:E.
  - apply position_some_Some in E as (k & Hk & Ht). rewrite lookup_drop in Hk.
    pose proof (lookup_lt_Some _ _ _ Hk). replace (index + off - index)%nat with off by lia.
    assert (off <> 0)%nat by (intros ->; rewrite Nat.add_0_r in Hk; congruence).
    split_and!; try lia.
    + by rewrite <-take_take_drop, Ht.
    + rewrite <-(take_drop off (drop index existing)) at 1.
      by rewrite Ht, known_app, known_replicate, drop_drop.
    + intros _. by exists k.
  - apply position_some_None in E. rewrite length_drop in E. split_and!; try lia.
    + rewrite firstn_all, <-E. by rewrite take_drop.
    + by rewrite drop_all, E, known_replicate.
Qed.

Lemma assign_step_run existing index prev assigned ks r :
  assign_inv existing index prev assigned ks -> existing !! index = Some None ->
  let run_end := match position_some (drop index existing) with
                 | Some offset => (index + offset)%nat | None => length existing end in
  run_keys prev (default None (existing !! run_end)) (run_end - index) = Some r ->
  assign_inv existing run_end prev (assigned ++ imap (fun offset k => (index + offset, k)%nat) r) (ks ++ r).
Proof.
  intros [] Hn run_end Hr. destruct (run_extent existing index Hn) as (Hre & Htake & Hknown & Hend).
  fold run_end in Hre, Htake, Hknown, Hend. specialize (ai_prev0 Hn).
  assert (head (known (drop run_end existing)) = default None (existing !! run_end)) as Hhead.
  { destruct (decide (run_end < length existing)%nat) as [Hlt|Hge].
    - destruct (Hend Hlt) as [k Hk]. by rewrite (drop_lookup _ _ _ Hk), Hk.
    - rewrite drop_ge, lookup_ge_None_2 by lia. done. }
  rewrite Hknown in ai_inc0, ai_ok0. apply Forall_app in ai_ok0 as [Hok1 Hok2].
  apply run_keys_spec in Hr as (Hlen & Hinc & HF).
  2: { intros p ->. apply last_Some in ai_prev0 as [ks' ->]. rewrite Forall_app in Hok1.
       destruct Hok1 as [_ Hok1]. by inversion Hok1. }
  2: { intros n Hn'. rewrite Hn' in Hhead. destruct (known _) as [|x l]; [done|].
       injection Hhead as ->. by inversion Hok2. }
  apply Forall_and in HF as [Hb Hok].
  constructor.
  - rewrite length_app. lia.
  - lia.
  - rewrite Htake. apply Forall2_app; [done|]. rewrite <-Hlen. clear. 
    induction r; cbn; constructor; [by left|done].
  - rewrite Htake, gather_app by (rewrite length_take; lia).
    rewrite ai_assigned0, <-Hlen, gather_replicate, length_take. f_equal.
    by replace (0 + index `min` length existing)%nat with index by lia.
  - rewrite <-app_assoc. by eapply extend_run.
  - rewrite <-app_assoc, !Forall_app. done.
  - intros Hx. apply lookup_lt_Some in Hx as Hlt. destruct (Hend Hlt) as [k Hk]. congruence.
Qed.

Lemma assign_loop_spec fuel existing index prev assigned ks res :
  assign_inv existing index prev assigned ks ->
  assign_loop fuel existing index prev assigned = Some res ->
  exists ks', length ks' = length existing /\ fits existing ks' /\ increasing ks' /\
    Forall key_ok ks' /\ res = gather 0 existing ks'.
Proof.
  revert index prev assigned ks. induction fuel as [|fuel IH]; intros index prev assigned ks Hi; [done|].
  cbn [assign_loop]. destruct (Nat.ltb_spec index (length existing)) as [Hlt|Hge].
  - destruct (lookup_lt_is_Some_2 _ _ Hlt) as [[key|] Hk]; rewrite Hk.
    + apply (IH _ _ _ (ks ++ [key])). by apply assign_step_known with (prev := prev).
    + destruct (run_keys _ _ _) as [r|] eqn:Hr; [|done].
      apply (IH _ _ _ (ks ++ r)). by apply assign_step_run.
  - intros [= <-]. destruct Hi. exists ks. assert (index = length existing) as -> by lia.
    rewrite firstn_all in *. rewrite drop_all, app_nil_r in *. done.
Qed.

(** The fuel is enough: more of it changes nothing. *)
Lemma assign_loop_fuel fuel1 fuel2 existing index prev assigned :
  (index <= length existing)%nat ->
  (length existing < index + fuel1)%nat -> (length existing < index + fuel2)%nat ->
  assign_loop fuel1 existing index prev assigned = assign_loop fuel2 existing index prev assigned.
Proof.
  revert fuel2 index prev assigned.
  induction fuel1 as [|f1 IH]; intros [|f2] index prev assigned H0 H1 H2; cbn [assign_loop];
    destruct (Nat.ltb_spec index (length existing)) as [Hlt|Hge]; try done; try lia.
  destruct (lookup_lt_is_Some_2 _ _ Hlt) as [[key|] Hk]; rewrite Hk; [apply IH; lia|].
  destruct (run_extent existing index Hk) as ((? & ?) & _).
  destruct (run_keys _ _ _) as [r|]; [|done]. apply IH; lia.
Qed.

(** ** The publisher's table *)

Lemma first_occurrences_spec seen queue :
  NoDup (first_occurrences seen queue) /\
  forall id, id ∈ first_occurrences seen queue <-> id ∈ queue /\ (id ∉ seen).
Proof.
  revert seen. induction queue as [|x queue IH]; intros seen; cbn; [split; [constructor|set_solver]|].
  case_decide as Hx.
  - destruct (IH seen) as [Hn Hi]. split; [done|]. intros id. rewrite Hi. set_solver.
  - destruct (IH ({[x]} ∪ seen)) as [Hn Hi]. split.
    + constructor; [|done]. rewrite Hi. set_solver.
    + intros id. rewrite elem_of_cons, Hi. destruct (decide (id = x)); set_solver.
Qed.

Lemma first_occurrences_id queue : NoDup queue -> first_occurrences ∅ queue = queue.
Proof.
  cut (forall seen, NoDup queue -> (forall id, id ∈ queue -> id ∉ seen) -> first_occurrences seen queue = queue).
  { intros H Hn. apply H; [done|]. set_solver. }
  induction queue as [|x queue IH]; intros seen Hn Hs; cbn; [done|]. inversion Hn; subst.
  rewrite decide_False by (apply Hs; set_solver). f_equal. apply IH; [done|].
  intros id Hid. apply not_elem_of_union. split; [set_solver|]. apply Hs. set_solver.
Qed.

Lemma scan_existing_spec keys ordered last existing retained ex' ret' :
  scan_existing keys ordered last existing retained = Some (ex', ret') ->
  ex' = existing ++ map (fun id => keys !! id) ordered /\
  ret' = (retained + length (known (map (fun id => keys !! id) ordered)))%nat /\
  increasing (known (map (fun id => keys !! id) ordered)) /\
  Forall (fun k => match last with Some l => l < k | None => True end)
    (known (map (fun id => keys !! id) ordered)).
Proof.
  revert last existing retained. induction ordered as [|id ordered IH]; intros last existing retained; cbn.
  { intros [= <- <-]. rewrite app_nil_r, Nat.add_0_r. by repeat constructor. }
  destruct (keys !! id) as [key|] eqn:Ek; cbn.
  - destruct (match last with Some l => _ | None => _ end) eqn:El; [done|].
    intros (-> & -> & Hs & HF)%IH. rewrite <-app_assoc. fold (known (map (fun id => keys !! id) ordered)).
    split_and!; [done|cbn; lia|by constructor|].
    assert (match last with Some l => l < key | None => True end) as Hl by (destruct last; bool_hyps; [lia|done]).
    constructor; [done|]. eapply Forall_impl; [exact HF|]. intros k Hk. destruct last; [cbn in *; lia|done].
  - intros (-> & -> & Hs & HF)%IH. by rewrite <-app_assoc.
Qed.

Lemma zip_fst (l : list text) (ks : list Z) : length ks = length l -> (zip l ks).*1 = l.
Proof. intros. apply fst_zip. lia. Qed.

Lemma zip_snd (l : list text) (ks : list Z) : length ks = length l -> (zip l ks).*2 = ks.
Proof. intros. apply snd_zip. lia. Qed.

Lemma published_lookup keys ordered ks id k :
  published keys ordered ks -> keys !! id = Some k <-> (id, k) ∈ zip ordered ks.
Proof.
  intros (Hl & Hn & -> & _). symmetry. apply elem_of_list_to_map. by rewrite zip_fst.
Qed.

Lemma published_dom keys ordered ks id :
  published keys ordered ks -> is_Some (keys !! id) <-> id ∈ ordered.
Proof.
  intros Hp. pose proof Hp as (Hl & _). split.
  - intros [k Hk]. apply (published_lookup _ _ _ _ _ Hp) in Hk. by apply elem_of_zip_l in Hk.
  - intros Hid. rewrite <-(zip_fst ordered ks Hl) in Hid.
    apply list_elem_of_fmap in Hid as ([id' k] & -> & Hin). exists k. by apply (published_lookup _ _ _ _ _ Hp).
Qed.

Lemma published_known keys ordered ks ids :
  published keys ordered ks -> Forall key_ok (known (map (fun id => keys !! id) ids)).
Proof.
  intros Hp. apply Forall_forall. intros k Hk. apply list_elem_of_omap in Hk as (o & Ho & Hk). cbn in Hk. subst o.
  apply list_elem_of_fmap in Ho as (id & Hid & _). symmetry in Hid.
  apply (published_lookup _ _ _ _ _ Hp) in Hid. apply elem_of_zip_r in Hid.
  destruct Hp as (_ & _ & _ & _ & HF). rewrite Forall_forall in HF. by apply HF.
Qed.

Lemma foldl_insert_pairs (l : list (text * Z)) (m : Keys) :
  NoDup l.*1 -> foldl (fun m '(id, k) => <[id := k]> m) m l = (list_to_map l : Keys) ∪ m.
Proof.
  revert m. induction l as [|[id k] l IH]; intros m Hn; cbn; [by rewrite left_id_L by apply _|].
  inversion Hn; subst. rewrite IH by done.
  rewrite <-insert_union_r, insert_union_l; [done|]. by apply not_elem_of_list_to_map_1.
Qed.

Lemma foldl_delete_lookup (ids : list text) (m : Keys) id :
  foldl (fun m id => delete id m) m ids !! id = if decide (id ∈ ids) then None else m !! id.
Proof.
  revert m. induction ids as [|x ids IH]; intros m; cbn; [done|]. rewrite IH.
  destruct (decide (id = x)) as [->|].
  - rewrite lookup_delete_eq. repeat case_decide; set_solver.
  - rewrite lookup_delete_ne by done. repeat case_decide; set_solver.
Qed.

Lemma map_imap_list {A B C} (f : B -> C) (g : nat -> A -> B) l : map f (imap g l) = imap (fun i x => f (g i x)) l.
Proof. apply fmap_imap. Qed.

Lemma imap_zip {A} (l : list text) (g : nat -> Z) (f : nat -> text -> Z -> A) :
  imap (fun i '(id, k) => f i id k) (zip l (map g (seq 0 (length l)))) = imap (fun i id => f i id (g i)) l.
Proof.
  cut (forall j (f : nat -> text -> Z -> A), imap (fun i '(id, k) => f i id k) (zip l (map g (seq j (length l)))) =
    imap (fun i id => f i id (g (j + i)%nat)) l).
  { intros H. rewrite (H 0%nat). done. }
  clear f. induction l as [|id l IH]; intros j f; cbn; [done|]. rewrite Nat.add_0_r. f_equal.
  etrans; [apply (IH (S j) (fun i => f (S i)))|]. apply imap_ext. intros i x _. cbn. do 2 f_equal. lia.
Qed.

Lemma imap_pair_id (l : list (text * Z)) : imap (fun _ '(id, k) => (id, k)) l = l.
Proof. induction l as [|[id k] l IH]; cbn; [done|]. f_equal. exact IH. Qed.

(** A full publication. *)
Lemma reassign_spec ordered :
  NoDup ordered -> Z.of_nat (length ordered) * KEY_STEP <= KEY_LIMIT ->
  exists ks, reassign ordered = (Full (table ordered ks), list_to_map (zip ordered ks)) /\
    published (list_to_map (zip ordered ks)) ordered ks.
Proof.
  intros Hn Hlim. set (ks := map reassign_order (seq 0 (length ordered))).
  assert (length ks = length ordered) as Hlen by (unfold ks; by rewrite length_map, length_seq).
  assert (imap (fun i id => (id, reassign_order i)) ordered = zip ordered ks) as Hz.
  { rewrite <-(imap_zip ordered reassign_order (fun _ id k => (id, k))). fold ks.
    apply imap_pair_id. }
  exists ks. split.
  - unfold reassign, table. rewrite Hz, foldl_insert_pairs, (right_id_L ∅ (∪)) by (by rewrite zip_fst).
    f_equal. f_equal. symmetry. exact (imap_zip ordered reassign_order (fun i id k => mk_pos id (position_of i) k)).
  - split_and!; [done|done|done| |].
    + apply increasing_seq. intros i. unfold reassign_order. assert (0 < KEY_STEP) by done. nia.
    + apply Forall_map, Forall_forall. intros i Hi%elem_of_seq. unfold reassign_order.
      assert (0 < KEY_STEP) by done. assert (0 < KEY_LIMIT) by done.
      assert ((Z.of_nat i + 1) * KEY_STEP <= Z.of_nat (length ordered) * KEY_STEP) by nia. nia.
Qed.

(** ** Increments *)

Lemma fits_lookup (keys : Keys) ordered ks id k k0 :
  fits (map (fun id => keys !! id) ordered) ks ->
  (id, k) ∈ zip ordered ks -> keys !! id = Some k0 -> k0 = k.
Proof.
  revert ks. induction ordered as [|x ordered IH]; intros [|k1 ks] HF; cbn; try set_solver.
  inversion HF as [|? ? ? ? Hx HF']; subst. intros [Hin|Hin]%elem_of_cons Hk.
  - simplify_eq. rewrite Hk in Hx. destruct Hx as [?|Hx]; congruence.
  - by eapply IH.
Qed.

(** The tasks of [ordered] that have no key yet, with their new keys. *)
Definition new_pairs (keys : Keys) (pairs : list (text * Z)) : list (text * Z) :=
  filter (fun x => keys !! x.1 = None) pairs.

Lemma gather_new (keys : Keys) ordered ks :
  length ks = length ordered ->
  omap (fun '(index, key) => (fun id => (id, key)) <$> ordered !! index)
    (gather 0 (map (fun id => keys !! id) ordered) ks) = new_pairs keys (zip ordered ks).
Proof.
  cut (forall pre o ks, length ks = length o -> ordered = pre ++ o ->
    omap (fun '(index, key) => (fun id => (id, key)) <$> ordered !! index)
      (gather (length pre) (map (fun id => keys !! id) o) ks) = new_pairs keys (zip o ks)).
  { intros H Hl. by apply (H []). }
  clear ks. intros pre o. revert pre. induction o as [|id o IH]; intros pre [|k ks] Hl ->; cbn in Hl; try done; try lia.
  specialize (IH (pre ++ [id]) ks ltac:(lia)). rewrite <-app_assoc in IH. specialize (IH eq_refl).
  rewrite length_app, Nat.add_1_r in IH. cbn [zip_with map gather].
  unfold new_pairs in *. rewrite filter_cons.
  destruct (keys !! id) as [k0|] eqn:Ek; cbn.
  - by rewrite decide_False by by cbn; rewrite Ek.
  - rewrite decide_True by done. rewrite list_lookup_middle by done. cbn. by f_equal.
Qed.

Definition removed_ids (keys : Keys) (ordered : list text) (retained : nat) : list text :=
  if (retained <? size keys)%nat
  then filter (fun id => id ∉ (list_to_set ordered : gset text)) (map fst (map_to_list keys))
  else [].

Lemma known_length (keys : Keys) ordered :
  length (known (map (fun id => keys !! id) ordered)) = length (filter (fun id => is_Some (keys !! id)) ordered).
Proof.
  induction ordered as [|id ordered IH]; [done|]. rewrite filter_cons. cbn [map known omap list_omap].
  destruct (keys !! id) eqn:E; cbn; [rewrite decide_True by eauto; cbn; by f_equal|].
  rewrite decide_False; [done|]. by intros [? ?].
Qed.

Lemma removed_ids_spec keys ordered id :
  NoDup ordered ->
  id ∈ removed_ids keys ordered (length (known (map (fun id => keys !! id) ordered))) <->
  is_Some (keys !! id) /\ (id ∉ ordered).
Proof.
  intros Hn. rewrite known_length. unfold removed_ids.
  set (kept := filter (fun id => is_Some (keys !! id)) ordered).
  destruct (Nat.ltb_spec (length kept) (size keys)) as [Hlt|Hge].
  - rewrite list_elem_of_filter, elem_of_list_to_set, list_elem_of_fmap. split.
    + intros (Hid & [id' k] & -> & Hin). apply elem_of_map_to_list in Hin. cbn in *. eauto.
    + intros ([k Hk] & Hid). split; [done|]. exists (id, k). split; [done|]. by apply elem_of_map_to_list.
  - split; [set_solver|]. intros (Hid & Hno). exfalso. apply Hno.
    assert (list_to_set kept ⊆ dom keys) as Hsub.
    { intros x [Hx _]%elem_of_list_to_set%list_elem_of_filter. by apply elem_of_dom. }
    assert (list_to_set kept = dom keys) as Heq.
    { apply (set_subseteq_size_eq (C := gset text)); [done|]. rewrite size_list_to_set, size_dom; [done|].
      by apply NoDup_filter. }
    apply elem_of_dom in Hid. rewrite <-Heq in Hid. by apply elem_of_list_to_set, list_elem_of_filter in Hid as [_ ?].
Qed.

Lemma new_pairs_fst keys ordered ks id :
  length ks = length ordered -> id ∈ (new_pairs keys (zip ordered ks)).*1 <-> id ∈ ordered /\ keys !! id = None.
Proof.
  intros Hl. rewrite list_elem_of_fmap. split.
  - intros ([id' k] & -> & [Hk Hin]%list_elem_of_filter). split; [by apply elem_of_zip_l in Hin|done].
  - intros [Hin Hk]. rewrite <-(zip_fst ordered ks Hl) in Hin. apply list_elem_of_fmap in Hin as ([? k] & -> & Hin).
    exists (t, k). split; [done|]. by apply list_elem_of_filter.
Qed.

(** The key map after an increment is that of the new queue. *)
Lemma update_keys keys ordered ks removed :
  NoDup ordered -> length ks = length ordered -> fits (map (fun id => keys !! id) ordered) ks ->
  (forall id, id ∈ removed <-> is_Some (keys !! id) /\ (id ∉ ordered)) ->
  foldl (fun m '(id, k) => <[id := k]> m) (foldl (fun m id => delete id m) keys removed)
    (new_pairs keys (zip ordered ks)) = list_to_map (zip ordered ks).
Proof.
  intros Hn Hl HF Hrem. set (new := new_pairs keys (zip ordered ks)).
  assert (NoDup (zip ordered ks).*1) as Hnz by by rewrite zip_fst.
  assert (NoDup new.*1) as Hnn.
  { unfold new, new_pairs. eapply sublist_NoDup; [exact Hnz|]. apply fmap_sublist, sublist_filter. }
  rewrite foldl_insert_pairs by done. apply map_eq. intros id. rewrite lookup_union, foldl_delete_lookup.
  destruct (decide (id ∈ ordered)) as [Hin|Hout].
  - rewrite decide_False by (rewrite Hrem; tauto).
    pose proof Hin as Hin'. rewrite <-(zip_fst ordered ks Hl) in Hin'.
    apply list_elem_of_fmap in Hin' as ([id' k] & -> & Hz). cbn in *.
    rewrite (elem_of_list_to_map_1 (zip ordered ks) id' k Hnz Hz).
    destruct (keys !! id') as [k0|] eqn:Ek.
    + pose proof (fits_lookup _ _ _ _ _ _ HF Hz Ek) as ->.
      rewrite not_elem_of_list_to_map_1; [done|]. unfold new. rewrite new_pairs_fst by done.
      intros [_ ?]. congruence.
    + rewrite (elem_of_list_to_map_1 new id' k Hnn); [done|]. by apply list_elem_of_filter.
  - rewrite !not_elem_of_list_to_map_1; [|by rewrite zip_fst|unfold new; rewrite new_pairs_fst by done; tauto].
    rewrite left_id by apply _. case_decide as Hr; [done|]. rewrite Hrem in Hr.
    destruct (keys !! id) eqn:E; [|done]. destruct Hr. split; [eauto|done].
Qed.

(** ** The subscriber's table *)

Definition pair_of (p : QueuePosition) : text * Z := (qp_task p, qp_order p).
Definition entry_pair (e : QueueOrderEntry) : text * Z := (qe_task e, qe_order e).

Lemma renumber_pairs ps : renumber ps = imap (fun i '(id, k) => mk_pos id (position_of i) k) (map pair_of ps).
Proof. unfold renumber. change (map pair_of ps) with (pair_of <$> ps). by rewrite imap_fmap. Qed.

Lemma table_pairs ordered ks : map pair_of (table ordered ks) = zip ordered ks.
Proof.
  unfold table. rewrite map_imap_list. etrans; [|apply imap_pair_id]. apply imap_ext. by intros i [id k] _.
Qed.

Lemma insert_by_order_spec e l :
  StronglySorted Z.le (map qe_order l) ->
  insert_by_order e l ≡ₚ e :: l /\ StronglySorted Z.le (map qe_order (insert_by_order e l)).
Proof.
  induction l as [|x l IH]; cbn; intros Hs; [split; [done|by repeat constructor]|].
  apply StronglySorted_cons in Hs as [HF Hs]. destruct (qe_order e <=? qe_order x) eqn:E; bool_hyps; cbn.
  - split; [done|]. constructor; [by constructor|]. constructor; [done|].
    eapply Forall_impl; [exact HF|]. cbn. lia.
  - destruct (IH Hs) as [Hp Hs']. split; [rewrite Hp; constructor|]. constructor; [done|].
    apply Forall_map. rewrite Hp. constructor; [cbn; lia|]. by apply Forall_map.
Qed.

Lemma sort_by_order_spec l :
  sort_by_order l ≡ₚ l /\ StronglySorted Z.le (map qe_order (sort_by_order l)).
Proof.
  induction l as [|e l [Hp Hs]]; cbn; [split; [done|constructor]|].
  destruct (insert_by_order_spec e _ Hs) as [Hp' Hs']. split; [by rewrite Hp', Hp|done].
Qed.

Lemma last_entries_NoDup seen l :
  NoDup (map qe_task l) -> (forall e, e ∈ l -> qe_task e ∉ seen) -> last_entries seen l = l.
Proof.
  revert seen. induction l as [|e l IH]; intros seen Hn Hs; cbn; [done|]. inversion Hn; subst.
  rewrite decide_False by (apply Hs; set_solver). f_equal. apply IH; [done|].
  intros e' He'. apply not_elem_of_union. split; [|apply Hs; set_solver].
  rewrite elem_of_singleton. intros Heq. apply H1. rewrite <-Heq. by apply list_elem_of_fmap_2.
Qed.

Lemma span_below_spec bound l front rest :
  StronglySorted Z.le (map qe_order l) -> span_below bound l = (front, rest) ->
  l = front ++ rest /\ Forall (fun e => qe_order e < bound) front /\ Forall (fun e => bound <= qe_order e) rest.
Proof.
  revert front rest. induction l as [|e l IH]; intros front rest Hs; cbn.
  { intros [= <- <-]. by repeat constructor. }
  cbn in Hs. apply StronglySorted_cons in Hs as [HF Hs]. destruct (qe_order e <? bound) eqn:E; bool_hyps.
  - destruct (span_below bound l) as [a b]. intros [= <- <-]. destruct (IH a b Hs eq_refl) as (-> & ? & ?).
    split_and!; [done|by constructor|done].
  - intros [= <- <-]. split_and!; [done|done|]. constructor; [done|]. rewrite Forall_map in HF.
    eapply Forall_impl; [exact HF|]. cbn. lia.
Qed.

Lemma merge_incoming_spec existing incoming :
  StronglySorted Z.le (map qp_order existing) -> StronglySorted Z.le (map qe_order incoming) ->
  merge_incoming existing incoming ≡ₚ existing ++ map position_of_entry incoming /\
  StronglySorted Z.le (map qp_order (merge_incoming existing incoming)).
Proof.
  revert incoming. induction existing as [|p existing IH]; intros incoming He Hi; cbn.
  { split; [done|]. by rewrite map_map. }
  cbn in He. apply StronglySorted_cons in He as [HFe He]. rewrite Forall_map in HFe.
  destruct (span_below (qp_order p) incoming) as [front rest] eqn:Es.
  destruct (span_below_spec _ _ _ _ Hi Es) as (-> & Hf & Hr).
  rewrite map_app in Hi. apply StronglySorted_app in Hi as (_ & Hif & Hir).
  destruct (IH rest He Hir) as [Hp Hs]. split.
  - rewrite Hp, map_app. solve_Permutation.
  - rewrite map_app. cbn. assert (Forall (fun q => qp_order p <= qp_order q) (merge_incoming existing rest)) as Hge.
    { rewrite Hp. apply Forall_app. split; [done|]. by apply Forall_map. }
    apply StronglySorted_app_2; [|by rewrite map_map|].
    + intros x y Hx Hy. rewrite map_map in Hx. apply list_elem_of_fmap in Hx as (e & -> & He').
      apply (proj1 (Forall_forall _ _)) with (x := e) in Hf; [|done]. rewrite Forall_forall in Hge. cbn.
      apply elem_of_cons in Hy as [->|(q & -> & Hq)%list_elem_of_fmap]; [lia|]. specialize (Hge q Hq). lia.
    + constructor; [done|]. by apply Forall_map.
Qed.

Lemma filter_all {A} (P : A -> Prop) `{!forall x, Decision (P x)} (l : list A) :
  (forall x, P x) -> filter P l = l.
Proof.
  intros HP. induction l as [|x l IH]; [done|]. by rewrite filter_cons_True, IH.
Qed.

Lemma filter_pairs (P : text -> Prop) `{!forall p, Decision (P (qp_task p))}
    `{!forall x : text * Z, Decision (P x.1)} ps :
  map pair_of (filter (fun p => P (qp_task p)) ps) = filter (fun x => P x.1) (map pair_of ps).
Proof.
  induction ps as [|p ps IH]; [done|]. rewrite filter_cons. cbn [map]. rewrite filter_cons.
  change (pair_of p).1 with (qp_task p). repeat case_decide; cbn; try done; by rewrite IH.
Qed.

Lemma sorted_filter {A} (f : A -> Z) (P : A -> Prop) `{!forall x, Decision (P x)} (l : list A) :
  StronglySorted Z.le (map f l) -> StronglySorted Z.le (map f (filter P l)).
Proof.
  induction l as [|x l IH]; [done|]. rewrite filter_cons. cbn [map]. intros Hs.
  apply StronglySorted_cons in Hs as [HF Hs]. case_decide; [|by apply IH]. cbn. constructor; [by apply IH|].
  rewrite Forall_map in *. apply Forall_forall. intros y [_ Hy]%list_elem_of_filter.
  rewrite Forall_forall in HF. by apply HF.
Qed.

(** What the subscriber's update does to the entries: touched tasks leave, the
    added ones come in, and the table stays sorted. *)
Lemma apply_spec ps removed added :
  StronglySorted Z.le (map qp_order ps) -> NoDup (map qe_task added) ->
  exists r, apply_queue_order ps removed added = renumber r /\ StronglySorted Z.le (map qp_order r) /\
    map pair_of r ≡ₚ filter (fun x => x.1 ∉ touched removed added) (map pair_of ps) ++ map entry_pair added.
Proof.
  intros Hs Hn. unfold apply_queue_order. eexists. split; [reflexivity|].
  destruct (bool_decide (removed = []) && bool_decide (added = [])) eqn:E.
  { bool_hyps. subst. split; [done|]. rewrite app_nil_r, filter_all; [done|].
    intros x. unfold touched. set_solver. }
  clear E. rewrite last_entries_NoDup;
    [|change (NoDup (qe_task <$> reverse added)); by rewrite fmap_reverse, reverse_Permutation|set_solver].
  destruct (sort_by_order_spec (reverse added)) as [Hp Hi].
  assert (sort_by_order (reverse added) ≡ₚ added) as Hp' by (etrans; [exact Hp|apply reverse_Permutation]).
  clear Hp. rename Hp' into Hp.
  set (kept := filter (fun p => qp_task p ∉ touched removed added) ps).
  assert (StronglySorted Z.le (map qp_order kept)) as Hk by by apply sorted_filter.
  assert (map pair_of kept = filter (fun x => x.1 ∉ touched removed added) (map pair_of ps)) as Hkp by
    apply (filter_pairs (fun id => id ∉ touched removed added)).
  case_bool_decide as Hnil.
  - rewrite Hnil in Hp. symmetry in Hp. apply Permutation_nil_r in Hp as ->. split; [done|]. by rewrite app_nil_r, Hkp.
  - destruct (merge_incoming_spec kept _ Hk Hi) as [Hmp Hms]. split; [done|].
    rewrite Hmp, map_app, Hkp, map_map. f_equiv. rewrite Hp.
    by rewrite (map_ext _ entry_pair) by by intros [? ?].
Qed.

Lemma sorted_pairs_eq (l1 l2 : list (text * Z)) :
  StronglySorted Z.le l1.*2 -> increasing l2.*2 -> l1 ≡ₚ l2 -> l1 = l2.
Proof.
  intros H1 H2 Hp. apply pairs_unique; [|done|done]. apply weakly_increasing_NoDup; [done|].
  rewrite Hp. by apply increasing_NoDup.
Qed.

Lemma increasing_weakly l : increasing l -> StronglySorted Z.le l.
Proof. induction 1; constructor; [done|]. eapply Forall_impl; [done|]. cbn. lia. Qed.

Lemma orders_of_pairs ps : map qp_order ps = (map pair_of ps).*2.
Proof. symmetry. change (map pair_of ps).*2 with (map snd (map pair_of ps)). by rewrite map_map. Qed.

(** The subscriber's table after an increment, when the entries that should be
    in it are those of a table with increasing keys. *)
Lemma apply_to_table ps removed added ordered ks :
  StronglySorted Z.le (map qp_order ps) -> NoDup (map qe_task added) ->
  length ks = length ordered -> increasing ks ->
  filter (fun x => x.1 ∉ touched removed added) (map pair_of ps) ++ map entry_pair added ≡ₚ zip ordered ks ->
  apply_queue_order ps removed added = table ordered ks.
Proof.
  intros Hs Hn Hl Hk Hp. destruct (apply_spec ps removed added Hs Hn) as (r & -> & Hr & Hrp).
  rewrite renumber_pairs. unfold table. f_equal. apply sorted_pairs_eq.
  - by rewrite <-orders_of_pairs.
  - by rewrite zip_snd.
  - by rewrite Hrp.
Qed.

Lemma published_unique keys o1 ks1 o2 ks2 :
  published keys o1 ks1 -> published keys o2 ks2 -> o1 = o2 /\ ks1 = ks2.
Proof.
  intros (Hl1 & Hn1 & Hk1 & Hi1 & _) (Hl2 & Hn2 & Hk2 & Hi2 & _).
  assert (zip o1 ks1 = zip o2 ks2) as Hz.
  { apply pairs_unique; rewrite ?zip_snd by done; [done|done|].
    apply (list_to_map_inj (M := gmap text)); rewrite ?zip_fst by done; try done. congruence. }
  pose proof (f_equal (fmap fst) Hz) as Hf. pose proof (f_equal (fmap snd) Hz) as Hs.
  by rewrite !zip_fst in Hf by done; rewrite !zip_snd in Hs by done.
Qed.

Lemma NoDup_fst_pairs (l : list (text * Z)) : NoDup l.*1 -> NoDup l.
Proof. apply NoDup_fmap_1. Qed.

(** The table after the increment [removed], [new_pairs]. *)
Lemma increment_table keys ordered0 ks0 ordered ks removed :
  published keys ordered0 ks0 -> NoDup ordered -> length ks = length ordered -> increasing ks ->
  fits (map (fun id => keys !! id) ordered) ks ->
  (forall id, id ∈ removed <-> is_Some (keys !! id) /\ (id ∉ ordered)) ->
  apply_queue_order (table ordered0 ks0) removed
    (map (fun '(id, key) => mk_qentry id key) (new_pairs keys (zip ordered ks))) = table ordered ks.
Proof.
  intros Hpub Hn Hl Hk HF Hrem. set (new := new_pairs keys (zip ordered ks)).
  set (added := map (fun '(id, key) => mk_qentry id key) new).
  assert (map entry_pair added = new) as Hnew.
  { unfold added. rewrite map_map. rewrite <-(map_id new) at 2. apply map_ext. by intros [? ?]. }
  assert (map qe_task added = new.*1) as Htasks.
  { unfold added. rewrite map_map. apply map_ext. by intros [? ?]. }
  assert (NoDup new.*1) as Hnn.
  { unfold new, new_pairs. eapply sublist_NoDup; [rewrite <-(zip_fst ordered ks Hl) in Hn; exact Hn|].
    apply fmap_sublist, sublist_filter. }
  pose proof Hpub as (Hl0 & Hn0 & _ & Hk0 & _).
  apply apply_to_table; [|by rewrite Htasks|done|done|].
  { rewrite orders_of_pairs, table_pairs, zip_snd by done. by apply increasing_weakly. }
  rewrite table_pairs, Hnew.
  assert (forall id, id ∈ touched removed added <-> id ∈ removed \/ (id ∈ ordered /\ keys !! id = None)) as Ht.
  { intros id. unfold touched. rewrite elem_of_list_to_set, elem_of_app, Htasks. unfold new.
    by rewrite new_pairs_fst by done. }
  apply NoDup_Permutation.
  - apply NoDup_app. split_and!.
    + apply NoDup_filter, NoDup_fst_pairs. by rewrite zip_fst.
    + intros [id k] [Hid _]%list_elem_of_filter Hin. cbn in Hid. apply Hid, Ht. right.
      by apply (list_elem_of_fmap_2 fst), (new_pairs_fst keys ordered ks) in Hin.
    + by apply NoDup_fst_pairs.
  - apply NoDup_fst_pairs. by rewrite zip_fst.
  - intros [id k]. rewrite elem_of_app, list_elem_of_filter, Ht. cbn. unfold new, new_pairs.
    rewrite list_elem_of_filter. cbn. rewrite <-(published_lookup _ _ _ _ _ Hpub), Hrem. split.
    + intros [[Hno Hk']|[_ Hz]]; [|done].
      assert (id ∈ ordered) as Hin by (destruct (decide (id ∈ ordered)); [done|]; destruct Hno; eauto).
      rewrite <-(zip_fst ordered ks Hl) in Hin. apply list_elem_of_fmap in Hin as ([id' k'] & -> & Hz).
      cbn in *. by rewrite (fits_lookup _ _ _ _ _ _ HF Hz Hk').
    + intros Hz. pose proof (elem_of_zip_l _ _ _ _ Hz) as Hin. destruct (keys !! id) as [k'|] eqn:Ek; [left|by right].
      rewrite (fits_lookup _ _ _ _ _ _ HF Hz Ek). split; [|done]. intros [[_ ?]|[_ ?]]; [done|congruence].
Qed.

(** ** One publication *)

(** What an increment or an unchanged order promises about the keys. *)
Definition keeps_keys (keys keys' : Keys) (queue : list text) (d : QueueOrderDelta) : Prop :=
  match d with
  | Full _ => True
  | Unchanged => keys' = keys
  | Incremental removed added =>
      (forall id k, keys !! id = Some k -> id ∈ queue -> keys' !! id = Some k) /\
      (forall id, id ∈ removed <-> is_Some (keys !! id) /\ (id ∉ queue)) /\
      (forall id, id ∈ map qe_task added <-> id ∈ queue /\ keys !! id = None) /\
      NoDup (map qe_task added)
  end.

Lemma assign_new_keys_spec keys ordered0 ks0 ordered assigned :
  published keys ordered0 ks0 ->
  increasing (known (map (fun id => keys !! id) ordered)) ->
  assign_new_keys (map (fun id => keys !! id) ordered) = Some assigned ->
  exists ks, length ks = length ordered /\ fits (map (fun id => keys !! id) ordered) ks /\
    increasing ks /\ Forall key_ok ks /\ assigned = gather 0 (map (fun id => keys !! id) ordered) ks.
Proof.
  intros Hp Hi Ha. apply assign_loop_spec with (ks := []) in Ha.
  - destruct Ha as (ks & Hl & ?). rewrite length_map in Hl. by exists ks.
  - constructor; cbn; try done; [lia|constructor|by eapply published_known].
Qed.

Lemma assigned_nil keys ordered ks :
  length ks = length ordered ->
  gather 0 (map (fun id => keys !! id) ordered) ks = [] -> new_pairs keys (zip ordered ks) = [].
Proof. intros Hl Hg. by rewrite <-gather_new, Hg. Qed.

Lemma diff_step keys ordered0 ks0 queue :
  published keys ordered0 ks0 -> Z.of_nat (length queue) * KEY_STEP <= KEY_LIMIT ->
  let ordered := first_occurrences ∅ queue in
  let '(d, keys') := diff keys queue in
  exists ks, published keys' ordered ks /\ receive (table ordered0 ks0) d = table ordered ks /\
    keeps_keys keys keys' queue d.
Proof.
  intros Hp Hlim ordered. destruct (first_occurrences_spec ∅ queue) as [Hn Hmem]. fold ordered in Hn, Hmem.
  assert (length ordered <= length queue)%nat as Hle.
  { apply submseteq_length, NoDup_submseteq; [done|]. intros id Hid. by apply Hmem in Hid as [? _]. }
  assert (exists ks, reassign ordered = (Full (table ordered ks), list_to_map (zip ordered ks)) /\
    published (list_to_map (zip ordered ks)) ordered ks) as (ks1 & Hre & Hpre).
  { apply reassign_spec; [done|]. assert (0 < KEY_STEP) by done. nia. }
  unfold diff. fold ordered. case_bool_decide as Hnil; [case_bool_decide as Hk|case_bool_decide as Hk].
  { subst keys. exists []. rewrite Hnil. split_and!; [by repeat constructor| |done].
    assert (published ∅ [] []) as Hpe by by repeat constructor.
    by destruct (published_unique _ _ _ _ _ Hp Hpe) as [-> ->]. }
  { exists []. rewrite Hnil. split_and!; [by repeat constructor|done|done]. }
  { rewrite Hre. by exists ks1. }
  destruct (scan_existing keys ordered None [] 0) as [[ex ret]|] eqn:Es; [|rewrite Hre; by exists ks1].
  apply scan_existing_spec in Es as (-> & -> & Hinc & _). cbn [app Nat.add].
  destruct (assign_new_keys _) as [assigned|] eqn:Ea; [|rewrite Hre; by exists ks1].
  destruct (assign_new_keys_spec _ _ _ _ _ Hp Hinc Ea) as (ks & Hl & HF & Hks & Hok & ->).
  fold (removed_ids keys ordered (length (known (map (fun id => keys !! id) ordered)))).
  set (removed := removed_ids keys ordered _).
  assert (forall id, id ∈ removed <-> is_Some (keys !! id) /\ (id ∉ ordered)) as Hrem by
    (intros id; by apply removed_ids_spec).
  pose proof (update_keys keys ordered ks removed Hn Hl HF Hrem) as Hup.
  pose proof (increment_table keys ordered0 ks0 ordered ks removed Hp Hn Hl Hks HF Hrem) as Htab.
  assert (published (list_to_map (zip ordered ks)) ordered ks) as Hpub by by split_and!.
  destruct (bool_decide (removed = []) && _) eqn:Eb.
  - bool_hyps. apply assigned_nil in H0; [|done]. rewrite H, H0 in Hup. cbn in Hup.
    rewrite <-Hup in Hpub. exists ks. destruct (published_unique _ _ _ _ _ Hp Hpub) as [-> ->].
    by split_and!.
  - rewrite gather_new by done. exists ks. rewrite Hup. split_and!; [done|exact Htab|].
    unfold keeps_keys. assert (forall id, id ∈ queue <-> id ∈ ordered) as Hq by (intros id; rewrite Hmem; set_solver).
    assert (map qe_task (map (fun '(id, key) => mk_qentry id key) (new_pairs keys (zip ordered ks))) =
      (new_pairs keys (zip ordered ks)).*1) as -> by (rewrite map_map; apply map_ext; by intros [? ?]).
    split_and!.
    + intros id k Hk0 Hid%Hq. rewrite <-(zip_fst ordered ks Hl) in Hid.
      apply list_elem_of_fmap in Hid as ([id' k'] & -> & Hz). cbn in *.
      rewrite (fits_lookup _ _ _ _ _ _ HF Hz Hk0). apply elem_of_list_to_map_1; [by rewrite zip_fst|done].
    + intros id. by rewrite Hrem, Hq.
    + intros id. by rewrite new_pairs_fst, Hq by done.
    + eapply sublist_NoDup; [rewrite <-(zip_fst ordered ks Hl) in Hn; exact Hn|].
      apply fmap_sublist, sublist_filter.
Qed.

(** The publisher and one subscriber along a sequence of queue orders. *)
Definition publish_step (st : Keys * list QueuePosition) (queue : list text) : Keys * list QueuePosition :=
  let '(keys, positions) := st in
  let '(d, keys) := diff keys queue in (keys, receive positions d).

Definition publish_all (queues : list (list text)) : Keys * list QueuePosition :=
  foldl publish_step (∅, []) queues.

(** ** When an increment suffices *)

Lemma increasing_sublist l1 l2 : l1 `sublist_of` l2 -> increasing l2 -> increasing l1.
Proof.
  induction 1 as [|x l1 l2 Hs IH|x l1 l2 Hs IH]; [done| |].
  - intros [HF Hi]%StronglySorted_cons. apply StronglySorted_cons. split; [|by apply IH].
    rewrite Forall_forall in HF |- *. intros y Hy. apply HF. by eapply elem_of_sublist.
  - intros [_ Hi]%StronglySorted_cons. by apply IH.
Qed.

Lemma known_map_sublist (keys : Keys) l1 l2 :
  l1 `sublist_of` l2 -> known (map (fun id => keys !! id) l1) `sublist_of` known (map (fun id => keys !! id) l2).
Proof.
  induction 1 as [|x l1 l2 Hs IH|x l1 l2 Hs IH]; cbn; [done| |];
    destruct (keys !! x); cbn; by repeat constructor.
Qed.

Lemma published_keys_list keys ordered ks :
  published keys ordered ks -> map (fun id => keys !! id) ordered = map Some ks.
Proof.
  intros Hp. pose proof Hp as (Hl & _). rewrite <-(zip_fst ordered ks Hl) at 1. rewrite <-(zip_snd ordered ks Hl) at 2.
  change ((zip ordered ks).*1) with (map fst (zip ordered ks)).
  change ((zip ordered ks).*2) with (map snd (zip ordered ks)). rewrite !map_map.
  apply map_ext_in. intros [id k] Hin. cbn. apply (published_lookup _ _ _ _ _ Hp).
  by apply list_elem_of_In.
Qed.

Lemma known_Some ks : known (map Some ks) = ks.
Proof. induction ks as [|k ks IH]; cbn; [done|]. by f_equal. Qed.

Lemma scan_existing_complete keys ordered last existing retained :
  increasing (known (map (fun id => keys !! id) ordered)) ->
  Forall (fun k => match last with Some l => l < k | None => True end)
    (known (map (fun id => keys !! id) ordered)) ->
  is_Some (scan_existing keys ordered last existing retained).
Proof.
  revert last existing retained. induction ordered as [|id ordered IH]; intros last existing retained; cbn; [by eauto|].
  destruct (keys !! id) as [key|]; cbn; [|apply IH].
  fold (known (map (fun id => keys !! id) ordered)). intros [HF Hi]%StronglySorted_cons HL.
  inversion HL; subst. destruct (match last with Some l => _ | None => _ end) eqn:E.
  - destruct last; bool_hyps; [lia|done].
  - by apply IH.
Qed.

(** Known keys followed by a run that fits at the tail: the loop succeeds. *)
Lemma assign_tail_complete kk count fuel index prev assigned :
  (index <= length kk)%nat -> prev = last (take index kk) -> (length kk - index + Nat.min 1 count + 1 <= fuel)%nat ->
  (count = O \/ exists k, last kk = Some k /\ is_i64 (k + KEY_STEP * Z.of_nat count) /\
    is_i64 (KEY_STEP * Z.of_nat count) /\ k + KEY_STEP * Z.of_nat count <= KEY_LIMIT) ->
  is_Some (assign_loop fuel (map Some kk ++ replicate count None) index prev assigned).
Proof.
  intros Hi Hp Hf Hc. remember (length kk - index)%nat as n eqn:Hn.
  revert fuel index prev assigned Hi Hp Hf Hn.
  induction n as [|n IH]; intros [|fuel] index prev assigned Hi Hp Hf Hn; try lia; cbn [assign_loop];
    rewrite length_app, length_map, length_replicate.
  - assert (index = length kk) as -> by lia. rewrite firstn_all in Hp.
    destruct (Nat.ltb_spec (length kk) (length kk + count)) as [Hlt|]; [|by eauto].
    rewrite lookup_app_r, length_map, Nat.sub_diag by (rewrite length_map; lia).
    destruct count as [|count]; [lia|]. destruct Hc as [?|(k & Hk & Hi1 & Hi2 & Hlim)]; [lia|]. subst prev.
    cbn [lookup list_lookup replicate].
    rewrite drop_app_length' by (by rewrite length_map).
    assert (position_some (None :: replicate count None) = None) as ->.
    { cbn. clear. induction count as [|c IH]; cbn; [done|]. by destruct (position_some _). }
    rewrite lookup_ge_None_2 by (rewrite length_app, length_map; cbn; rewrite length_replicate; lia).
    rewrite Hk. unfold run_keys. cbn [default].
    replace (length kk + S count - length kk)%nat with (S count) by lia.
    rewrite (proj2 (checked_i64_Some _ _) (conj eq_refl Hi2)), (proj2 (checked_i64_Some _ _) (conj eq_refl Hi1)).
    destruct (KEY_LIMIT <? _) eqn:E; bool_hyps; [lia|]. destruct fuel as [|fuel]; [lia|]. cbn [assign_loop].
    rewrite (proj2 (Nat.ltb_ge _ _)); [by eauto|].
    rewrite length_app, length_map. cbn. rewrite length_replicate. lia.
  - destruct (Nat.ltb_spec index (length kk + count)) as [Hlt|]; [|lia].
    destruct (lookup_lt_is_Some_2 kk index ltac:(lia)) as [k Hk].
    rewrite lookup_app_l by (rewrite length_map; lia).
    change (map Some kk) with (Some <$> kk). rewrite list_lookup_fmap, Hk. cbn [fmap option_fmap option_map].
    apply IH; try lia. by rewrite (take_S_lookup _ _ _ Hk), last_snoc.
Qed.

(** ** Properties *)

Lemma publish_all_spec queues :
  (forall q, q ∈ queues -> Z.of_nat (length q) * KEY_STEP <= KEY_LIMIT) ->
  exists ks, published (publish_all queues).1 (first_occurrences ∅ (default [] (last queues))) ks /\
    (publish_all queues).2 = table (first_occurrences ∅ (default [] (last queues))) ks.
Proof.
  intros Hlim. induction queues as [|q queues IH] using rev_ind; [exists []; by repeat constructor|].
  destruct IH as (ks & Hp & Ht); [intros q' ?; apply Hlim; set_solver|].
  unfold publish_all in *. rewrite foldl_app, last_snoc. cbn [foldl default].
  destruct (foldl publish_step _ queues) as [keys positions]. cbn in Hp, Ht. subst positions.
  pose proof (diff_step _ _ _ q Hp (Hlim q ltac:(set_solver))) as Hd. cbn in Hd |- *.
  destruct (diff keys q) as [d keys']. destruct Hd as (ks' & ? & ? & _). by exists ks'.
Qed.

Lemma table_tasks ordered ks : length ks = length ordered -> map qp_task (table ordered ks) = ordered.
Proof.
  intros Hl. change (map qp_task (table ordered ks)) with (map (fun p => (pair_of p).1) (table ordered ks)).
  rewrite <-(map_map pair_of fst), table_pairs. by apply zip_fst.
Qed.

Lemma table_positions ordered ks :
  length ks = length ordered -> map qp_position (table ordered ks) = imap (fun i _ => position_of i) ordered.
Proof.
  intros Hl. unfold table. rewrite map_imap_list. rewrite <-(zip_fst ordered ks Hl) at 2. rewrite imap_fmap.
  apply imap_ext. by intros i [? ?].
Qed.

(** After any sequence of queue orders, a subscriber that has applied every
    published delta shows exactly the last order: each task once, at its first
    occurrence, with the ranks 1, 2, 3 and so on and strictly increasing keys
    within the limit, the same keys the publisher holds. *)
Theorem subscriber_shows_queue queues :
  (forall q, q ∈ queues -> Z.of_nat (length q) * KEY_STEP <= KEY_LIMIT) ->
  let '(keys, positions) := publish_all queues in
  let ordered := first_occurrences ∅ (default [] (last queues)) in
  map qp_task positions = ordered /\
  map qp_position positions = imap (fun i _ => position_of i) ordered /\
  increasing (map qp_order positions) /\ Forall key_ok (map qp_order positions) /\
  keys = list_to_map (map pair_of positions).
Proof.
  intros Hlim. destruct (publish_all_spec queues Hlim) as (ks & Hp & Ht).
  destruct (publish_all queues) as [keys positions]. cbn in Hp, Ht. subst positions.
  set (ordered := first_occurrences _ _) in *. destruct Hp as (Hl & Hn & -> & Hi & Hok). split_and!.
  - by apply table_tasks.
  - by apply table_positions.
  - rewrite orders_of_pairs, table_pairs. by rewrite zip_snd.
  - rewrite orders_of_pairs, table_pairs. by rewrite zip_snd.
  - by rewrite table_pairs.
Qed.

Lemma subscriber_shows_queue_witness :
  let '(keys, positions) :=
    publish_all [[lit "a"; lit "b"]; [lit "b"; lit "c"; lit "b"]; [lit "x"; lit "b"; lit "y"; lit "c"]] in
  map qp_task positions = [lit "x"; lit "b"; lit "y"; lit "c"] /\ map qp_position positions = [1; 2; 3; 4].
Proof.
  pose proof (subscriber_shows_queue [[lit "a"; lit "b"]; [lit "b"; lit "c"; lit "b"];
    [lit "x"; lit "b"; lit "y"; lit "c"]]) as H.
  match type of H with ?P -> _ => assert P as Hl end.
  { intros q Hq. repeat (apply elem_of_cons in Hq as [->|Hq]; [done|]). set_solver. }
  specialize (H Hl). destruct (publish_all _) as [keys positions]. destruct H as (H1 & H2 & _).
  split; [rewrite H1; vm_compute; reflexivity|rewrite H2; vm_compute; reflexivity].
Defined.

(** Tasks that stay in the queue keep their keys unless the whole table is
    published; an increment names exactly the tasks that left and the tasks
    that came, each once; and as long as tasks only leave, or arrive at the
    tail within the key limit, the table is never published again as a whole. *)
Theorem increments_are_minimal keys ordered0 ks0 queue :
  published keys ordered0 ks0 -> Z.of_nat (length queue) * KEY_STEP <= KEY_LIMIT ->
  keeps_keys keys (diff keys queue).2 queue (diff keys queue).1 /\
  (forall kept new tail k, queue = kept ++ new -> kept `sublist_of` ordered0 -> NoDup new ->
    (forall id, id ∈ new -> id ∉ ordered0) -> last kept = Some tail -> keys !! tail = Some k ->
    k + KEY_STEP * Z.of_nat (length new) <= KEY_LIMIT ->
    forall ps, (diff keys queue).1 <> Full ps).
Proof.
  intros Hp Hlim. split.
  { pose proof (diff_step _ _ _ queue Hp Hlim) as Hd. cbn in Hd.
    destruct (diff keys queue) as [d keys']. by destruct Hd as (? & _ & _ & ?). }
  intros kept new tail k -> Hs Hnn Hnew Htail Hk Hfit ps.
  pose proof Hp as (Hl & Hn & _ & Hi & Hok).
  assert (NoDup (kept ++ new)) as Hnq.
  { apply NoDup_app. split_and!; [by eapply sublist_NoDup| |done]. intros id Hid Hid'.
    apply (Hnew id Hid'). exact (elem_of_sublist _ _ _ Hid Hs). }
  assert (first_occurrences ∅ (kept ++ new) = kept ++ new) as Hfo by by apply first_occurrences_id.
  assert (map (fun id => keys !! id) new = replicate (length new) None) as Hnone.
  { clear -Hp Hnew. induction new as [|id new IH]; cbn; [done|]. f_equal; [|apply IH; set_solver].
    apply eq_None_not_Some. rewrite (published_dom _ _ _ id Hp). set_solver. }
  set (kk := known (map (fun id => keys !! id) kept)).
  assert (map (fun id => keys !! id) kept = map Some kk) as Hkept.
  { unfold kk. assert (forall id, id ∈ kept -> is_Some (keys !! id)) as Hin.
    { intros id Hid. apply (published_dom _ _ _ id Hp). by eapply elem_of_sublist. }
    clear -Hin. induction kept as [|id kept IH]; [done|]. cbn. destruct (Hin id ltac:(set_solver)) as [x ->].
    cbn. f_equal. apply IH. set_solver. }
  assert (increasing kk) as Hkk.
  { eapply increasing_sublist; [by apply known_map_sublist|]. by rewrite (published_keys_list _ _ _ Hp), known_Some. }
  assert (last kk = Some k) as Hlast.
  { apply last_Some in Htail as [l ->]. unfold kk. rewrite map_app, known_app. cbn. rewrite Hk. apply last_snoc. }
  assert (key_ok k) as Hkok.
  { rewrite Forall_forall in Hok. apply Hok. apply (published_lookup _ _ _ _ _ Hp) in Hk. by apply elem_of_zip_r in Hk. }
  unfold diff. rewrite Hfo.
  assert (kept ++ new <> []) as Hne by (destruct kept; done).
  rewrite (bool_decide_eq_false_2 _ Hne).
  rewrite bool_decide_eq_false_2 by (intros ->; by rewrite lookup_empty in Hk).
  destruct (scan_existing_complete keys (kept ++ new) None [] 0) as [[ex ret] Hsc].
  { by rewrite map_app, known_app, Hnone, known_replicate, app_nil_r. }
  { by apply Forall_forall. }
  rewrite Hsc. apply scan_existing_spec in Hsc as (-> & _). rewrite map_app, Hnone, Hkept. cbn [app].
  assert (0 <= KEY_STEP * Z.of_nat (length new)) by (assert (0 < KEY_STEP) by done; nia).
  unfold key_ok, is_i64 in *. assert (KEY_LIMIT < i64_max / 4) by done.
  destruct (assign_tail_complete kk (length new) (S (length (map Some kk ++ replicate (length new) None))) 0 None [])
    as [assigned Has]; [lia|done| | |].
  - rewrite length_app, length_map, length_replicate.
    lia.
  - right. exists k. unfold is_i64, i64_min, i64_max in *.
    assert (KEY_LIMIT < 2 ^ 53) by done. split_and!; try done; try lia.
  - unfold assign_new_keys. rewrite Has. destruct (bool_decide _ && bool_decide _); cbn; discriminate.
Qed.

Definition sample_queue : list text := [lit "a"; lit "b"; lit "c"].
Definition sample_keys : list Z := [KEY_STEP; 2 * KEY_STEP; 3 * KEY_STEP].

Lemma sample_published : published (list_to_map (zip sample_queue sample_keys)) sample_queue sample_keys.
Proof.
  split_and!; [done|by apply (bool_decide_unpack _)|done| |].
  - apply (increasing_seq (fun i => (Z.of_nat i + 1) * KEY_STEP) 3 0). intros i. assert (0 < KEY_STEP) by done. nia.
  - by apply (bool_decide_unpack _).
Qed.

Lemma increments_are_minimal_witness :
  (diff (list_to_map (zip sample_queue sample_keys)) [lit "b"; lit "c"; lit "d"]).1 <> Full [].
Proof.
  destruct (increments_are_minimal (list_to_map (zip sample_queue sample_keys)) sample_queue sample_keys
    [lit "b"; lit "c"; lit "d"] sample_published ltac:(done)) as [_ H].
  apply (H [lit "b"; lit "c"] [lit "d"] (lit "c") (3 * KEY_STEP)); try done.
  - by repeat constructor.
  - apply NoDup_singleton.
  - intros id ->%list_elem_of_singleton. by apply (bool_decide_unpack _).
Defined.

(** ** Composing increments *)

(** A table sorted by key; and one whose keys are all different. *)
Definition sorted_table (ps : list QueuePosition) : Prop := StronglySorted Z.le (map qp_order ps).
Definition strict_table (ps : list QueuePosition) : Prop := increasing (map qp_order ps).

Lemma renumber_orders ps : map qp_order (renumber ps) = map qp_order ps.
Proof.
  rewrite !orders_of_pairs, renumber_pairs, map_imap_list. f_equal.
  etrans; [|apply imap_pair_id]. apply imap_ext. by intros i [? ?] _.
Qed.

Lemma pairs_renumber ps : map pair_of (renumber ps) = map pair_of ps.
Proof.
  rewrite renumber_pairs, map_imap_list. etrans; [|apply imap_pair_id]. apply imap_ext. by intros i [? ?] _.
Qed.

Lemma apply_sorted ps removed added :
  sorted_table ps -> NoDup (map qe_task added) -> sorted_table (apply_queue_order ps removed added).
Proof.
  intros Hs Hn. destruct (apply_spec ps removed added Hs Hn) as (r & -> & Hr & _).
  unfold sorted_table. by rewrite renumber_orders.
Qed.

(** Two updates that lead to the same entries agree when the keys differ. *)
Lemma renumber_determined r1 r2 :
  sorted_table r1 -> sorted_table r2 -> strict_table r2 -> map pair_of r1 ≡ₚ map pair_of r2 ->
  renumber r1 = renumber r2.
Proof.
  intros H1 H2 Hs Hp. rewrite !renumber_pairs. f_equal. apply sorted_pairs_eq; [| |done].
  - by rewrite <-orders_of_pairs.
  - by rewrite <-orders_of_pairs.
Qed.

Lemma filter_entries (P : text -> Prop) `{!forall e, Decision (P (qe_task e))}
    `{!forall x : text * Z, Decision (P x.1)} l :
  map entry_pair (filter (fun e => P (qe_task e)) l) = filter (fun x => P x.1) (map entry_pair l).
Proof.
  induction l as [|e l IH]; [done|]. rewrite filter_cons. cbn [map]. rewrite filter_cons.
  change (entry_pair e).1 with (qe_task e). repeat case_decide; cbn; try done; by rewrite IH.
Qed.

Lemma touched_spec removed added id : id ∈ touched removed added <-> id ∈ removed \/ id ∈ map qe_task added.
Proof. unfold touched. by rewrite elem_of_list_to_set, elem_of_app. Qed.

Lemma entry_pair_fst l : (map entry_pair l).*1 = map qe_task l.
Proof. change ((map entry_pair l).*1) with (map fst (map entry_pair l)). by rewrite map_map. Qed.

(** Applying an increment twice is applying it once. *)
Lemma apply_twice ps removed added :
  sorted_table ps -> NoDup (map qe_task added) -> strict_table (apply_queue_order ps removed added) ->
  apply_queue_order (apply_queue_order ps removed added) removed added = apply_queue_order ps removed added.
Proof.
  intros Hs Hn. destruct (apply_spec ps removed added Hs Hn) as (r & E & Hr & Hrp). rewrite E.
  unfold strict_table. rewrite renumber_orders. intros Hst.
  destruct (apply_spec (renumber r) removed added) as (r' & -> & Hr' & Hrp'); [by unfold sorted_table; rewrite renumber_orders|done|].
  apply renumber_determined; [done|done|done|]. rewrite Hrp', pairs_renumber.
  set (A := map entry_pair added) in *. set (X := map pair_of ps) in *.
  assert (filter (fun x => x.1 ∉ touched removed added) A = []) as HA.
  { apply elem_of_nil_inv. intros x [Hx Hin]%list_elem_of_filter. apply Hx, touched_spec. right.
    rewrite <-entry_pair_fst. by apply list_elem_of_fmap_2. }
  rewrite Hrp, filter_app, HA, app_nil_r. by rewrite list_filter_filter_r by auto.
Qed.
