(* ===== verification/Projection.v ===== *)
(** * Projection: the client's copy of the daemon's state and the events that
      keep it current ([native/protocol/src/event.rs], [daemon.rs]).

    [DaemonSnapshot] is the state; [apply_daemon_event] is the reducer that
    every consumer uses.  Contents that the reducer only stores or ignores as
    a whole are a [Blob], their serialised form.  [DaemonSnapshot::task_index]
    is a cache of the positions of the tasks: it is rebuilt whenever the task
    table changes shape, so a lookup finds the last task with the id, which is
    what [find_task] and [alter_task] do. *)
From Stdlib Require Import Ascii.
From S2P Require Import Prelude Text QueueOrder.

Definition Blob : Type := text.

(** ** Data *)

Record TaskDto := mk_task {
  t_id : text; t_url : text; t_file_name : text; t_save_dir : text;
  t_status : Z;            (** 0 pending, 1 downloading, 2 paused, 3 completed, 4 error, 5 preparing *)
  t_downloaded : Z; t_total : Z; t_error : text; t_queue_id : text; t_file_missing : bool;
  t_auto_route : text; t_uploaded : Z; t_seeding_status : Z; t_seeding_message : text;
  t_seeding_time : Z; t_other : Blob
}.

Record TaskSegmentDto := mk_tseg {
  ts_index : Z; ts_start : Z; ts_end : Z; ts_downloaded : Z; ts_active : option bool
}.

Record TaskRuntimeDto := mk_runtime {
  r_id : text; r_seq : Z; r_active_transfers : option Z; r_connected_peers : option Z;
  r_total : Z; r_segments : list TaskSegmentDto;
  r_other : option Blob    (** sampling time, parallelism, source bytes; [None] is their default *)
}.

Record SegmentDetailDto := mk_detail { sd_index : Z; sd_start : Z; sd_end : Z; sd_downloaded : Z }.

Record WebhookDelivery := mk_delivery { wd_id : text; wd_timestamp : Z; wd_other : Blob }.

Record Plugin := mk_plugin { pl_identity : text; pl_enabled : bool; pl_disabled_reason : text; pl_other : Blob }.

Record DaemonRuntimeStatsDto := mk_stats {
  st_active : Z; st_pending : Z; st_download_bps : Z; st_upload_bps : Z; st_disk_free : option Z;
  st_save_dir : text; st_retry_pending : Z
}.

#[global] Instance runtime_stats_dec : EqDecision DaemonRuntimeStatsDto.
Proof. solve_decision. Defined.

Record DaemonConfigSnapshot := mk_config { cf_revision : Z; cf_values : gmap text text }.

Record DaemonSnapshot := mk_snapshot {
  sn_runtime : gmap text TaskRuntimeDto;
  sn_tasks : list TaskDto;
  sn_task_total : option Z;
  sn_queue_total : option Z;
  sn_queue_positions : list QueuePosition;
  sn_stats : DaemonRuntimeStatsDto;
  sn_queues : list Blob;
  sn_groups : list Blob;
  sn_config : DaemonConfigSnapshot;
  sn_rss_sources : list Blob;
  sn_rss_revisions : gmap text Z;
  sn_plugins : list Plugin;
  sn_components : list Blob;
  sn_deliveries : list WebhookDelivery;
  sn_priority : list text;
  sn_selections : list (text * Blob)
}.

Record TaskProgress := mk_progress {
  p_id : text; p_status : Z; p_downloaded : Z; p_total : Z; p_file_name : text; p_save_dir : text;
  p_url : text; p_error : text; p_uploaded : Z; p_seeding_status : Z; p_seeding_message : text;
  p_seeding_time : Z; p_speeds : Blob
}.

Inductive WsServerMsg :=
| MTaskProgress (p : TaskProgress)
| MTasksSnapshot (tasks : list TaskDto)
| MSegmentProgress (id : text) (total_bytes segment_count : Z) (segments : list SegmentDetailDto)
| MSegmentSplit (id : text) (b : Blob)
| MTaskCdnEvent (id : text) (b : Blob)
| MTaskMetaProbed (id file_name : text) (total_bytes : Z)
| MQueuesChanged (queues : list Blob)
| MTaskQueueChanged (id queue_id : text)
| MTaskRouteChanged (id route : text)
| MQueuePositionsChanged (positions : list QueuePosition)
| MQueueOrderChanged (removed : list text) (added : list QueueOrderEntry)
| MFileMissingChanged (updates : list (text * bool))
| MPriorityTaskChanged (priority_task_id : text) (auto_paused_count : Z)
| MHlsSelectionRequest (id : text) (b : Blob)
| MBtSelectionRequest (id : text) (b : Blob)
| MResolveVariantRequest (id : text) (b : Blob)
| MPong
| MPluginAutoDisabled (identity reason : text)
| MDuplicateTorrent (id existing_id existing_name : text)
| MPluginHookActivity (id : text) (b : Blob)
| MPluginsChanged
| MGroupsChanged (groups : list Blob)
| MRssSourcesChanged (sources : list Blob)
| MRssItemsChanged (source_id : text) (b : Blob)
| MRssFeedValidated (b : Blob)
| MComponentProgress (b : Blob)
| MComponentResult (b : Blob)
| MLinkIncomingPairing (b : Blob)
| MLinkDevicesChanged
| MWebhookDeliveriesChanged (deliveries : list WebhookDelivery).

Inductive DaemonEvent :=
| TaskRuntimeChanged (r : TaskRuntimeDto)
| TaskActivityAdded (b : Blob)
| SnapshotReplaced (s : DaemonSnapshot)
| TablesReloading (tasks queue : option Z)
| Engine (m : WsServerMsg)
| TaskChanged (t : TaskDto)
| TasksChanged (ts : list TaskDto)
| TaskDeleted (id : text)
| TasksDeleted (ids : list text)
| QueuesChanged (queues : list Blob)
| GroupsChanged (groups : list Blob)
| ConfigChanged (config : DaemonConfigSnapshot)
| RssChanged (source_id : text) (item_revision : Z)
| PluginsChanged (plugins : list Plugin)
| ComponentsChanged (components : list Blob)
| WebhooksChanged (deliveries : list WebhookDelivery)
| WebhooksCleared
| RuntimeStatsChanged (stats : DaemonRuntimeStatsDto)
| SelectionPending (request_id : text) (b : Blob)
| SelectionResolved (request_id : text)
| TaskNotice (b : Blob)
| PluginViewFrame (b : Blob)
| PluginViewClosed (session reason : text)
| PluginToast (identity level message : text).

(** ** Field updates *)

Definition with_tasks (s : DaemonSnapshot) ts :=
  mk_snapshot (sn_runtime s) ts (sn_task_total s) (sn_queue_total s) (sn_queue_positions s) (sn_stats s)
    (sn_queues s) (sn_groups s) (sn_config s) (sn_rss_sources s) (sn_rss_revisions s) (sn_plugins s)
    (sn_components s) (sn_deliveries s) (sn_priority s) (sn_selections s).
Definition with_runtime (s : DaemonSnapshot) rt :=
  mk_snapshot rt (sn_tasks s) (sn_task_total s) (sn_queue_total s) (sn_queue_positions s) (sn_stats s)
    (sn_queues s) (sn_groups s) (sn_config s) (sn_rss_sources s) (sn_rss_revisions s) (sn_plugins s)
    (sn_components s) (sn_deliveries s) (sn_priority s) (sn_selections s).
Definition with_task_total (s : DaemonSnapshot) o :=
  mk_snapshot (sn_runtime s) (sn_tasks s) o (sn_queue_total s) (sn_queue_positions s) (sn_stats s)
    (sn_queues s) (sn_groups s) (sn_config s) (sn_rss_sources s) (sn_rss_revisions s) (sn_plugins s)
    (sn_components s) (sn_deliveries s) (sn_priority s) (sn_selections s).
Definition with_queue (s : DaemonSnapshot) ps o :=
  mk_snapshot (sn_runtime s) (sn_tasks s) (sn_task_total s) o ps (sn_stats s)
    (sn_queues s) (sn_groups s) (sn_config s) (sn_rss_sources s) (sn_rss_revisions s) (sn_plugins s)
    (sn_components s) (sn_deliveries s) (sn_priority s) (sn_selections s).
Definition with_stats (s : DaemonSnapshot) st :=
  mk_snapshot (sn_runtime s) (sn_tasks s) (sn_task_total s) (sn_queue_total s) (sn_queue_positions s) st
    (sn_queues s) (sn_groups s) (sn_config s) (sn_rss_sources s) (sn_rss_revisions s) (sn_plugins s)
    (sn_components s) (sn_deliveries s) (sn_priority s) (sn_selections s).

(** The fields no coalesced event touches. *)
Record Rest := mk_rest {
  re_queues : list Blob; re_groups : list Blob; re_config : DaemonConfigSnapshot; re_rss_sources : list Blob;
  re_rss_revisions : gmap text Z; re_plugins : list Plugin; re_components : list Blob;
  re_deliveries : list WebhookDelivery; re_priority : list text; re_selections : list (text * Blob)
}.

Definition rest_of (s : DaemonSnapshot) : Rest :=
  mk_rest (sn_queues s) (sn_groups s) (sn_config s) (sn_rss_sources s) (sn_rss_revisions s) (sn_plugins s)
    (sn_components s) (sn_deliveries s) (sn_priority s) (sn_selections s).

Definition with_rest (s : DaemonSnapshot) (r : Rest) :=
  mk_snapshot (sn_runtime s) (sn_tasks s) (sn_task_total s) (sn_queue_total s) (sn_queue_positions s) (sn_stats s)
    (re_queues r) (re_groups r) (re_config r) (re_rss_sources r) (re_rss_revisions r) (re_plugins r)
    (re_components r) (re_deliveries r) (re_priority r) (re_selections r).

(** ** Tasks *)

Fixpoint find_task (id : text) (ts : list TaskDto) : option TaskDto :=
  match ts with
  | [] => None
  | t :: ts' =>
      match find_task id ts' with
      | Some t' => Some t'
      | None => if decide (t_id t = id) then Some t else None
      end
  end.

(** [task_mut] and the change of the task it finds. *)
Fixpoint alter_task (id : text) (f : TaskDto -> TaskDto) (ts : list TaskDto) : list TaskDto :=
  match ts with
  | [] => []
  | t :: ts' =>
      match find_task id ts' with
      | Some _ => t :: alter_task id f ts'
      | None => if decide (t_id t = id) then f t :: ts' else t :: ts'
      end
  end.

Definition remove_task (id : text) (ts : list TaskDto) : list TaskDto := filter (fun t => t_id t <> id) ts.

Definition task_edit (id : text) (f : TaskDto -> TaskDto) (s : DaemonSnapshot) : DaemonSnapshot :=
  with_tasks s (alter_task id f (sn_tasks s)).

Definition runtime_retained (status : Z) : bool := negb (status =? 3).

(** [matches!(status, 1 | 5)] *)
Definition transfers (status : Z) : bool := (status =? 1) || (status =? 5).

Definition deactivate (sg : TaskSegmentDto) : TaskSegmentDto :=
  mk_tseg (ts_index sg) (ts_start sg) (ts_end sg) (ts_downloaded sg) (Some false).

Definition zero_runtime_activity (r : TaskRuntimeDto) : TaskRuntimeDto :=
  mk_runtime (r_id r) (r_seq r) (Some 0) (Some 0) (r_total r) (map deactivate (r_segments r)) (r_other r).

(** The runtime entry of a task whose status has become [status]. *)
Definition settled_runtime (status : Z) (o : option TaskRuntimeDto) : option TaskRuntimeDto :=
  if negb (runtime_retained status) then None
  else if transfers status then o
  else zero_runtime_activity <$> o.

Definition settle_runtime (id : text) (status : Z) (s : DaemonSnapshot) : DaemonSnapshot :=
  with_runtime s (partial_alter (settled_runtime status) id (sn_runtime s)).

(** [settle_task_table]: after the whole table was replaced. *)
Definition settle_task_table (s : DaemonSnapshot) : DaemonSnapshot :=
  with_runtime s
    (map_imap (fun id r => let* t := find_task id (sn_tasks s) in settled_runtime (t_status t) (Some r))
       (sn_runtime s)).

Definition table_total (len : nat) : option Z :=
  if (0 <? len)%nat then Some (Z.min (Z.of_nat len) u64_max) else None.

Definition paged_header (s : DaemonSnapshot) : DaemonSnapshot :=
  with_queue
    (with_task_total (with_tasks s [])
       (match table_total (length (sn_tasks s)) with Some n => Some n | None => sn_task_total s end))
    [] (match table_total (length (sn_queue_positions s)) with Some n => Some n | None => sn_queue_total s end).

Definition begin_reload (tasks queue : option Z) (s : DaemonSnapshot) : DaemonSnapshot :=
  let s := match tasks with Some n => with_task_total (with_tasks s []) (Some n) | None => s end in
  match queue with Some n => with_queue s [] (Some n) | None => s end.

(** ** The reducer *)

Definition accepted_runtime_status (s : DaemonSnapshot) (r : TaskRuntimeDto) : option Z :=
  let late := match sn_runtime s !! r_id r with
              | Some previous => negb (r_seq previous =? 0) && (r_seq r <=? r_seq previous)
              | None => false
              end in
  if late then None
  else let* t := find_task (r_id r) (sn_tasks s) in
       if runtime_retained (t_status t) then Some (t_status t) else None.

Definition apply_runtime (r : TaskRuntimeDto) (s : DaemonSnapshot) : DaemonSnapshot :=
  match accepted_runtime_status s r with
  | None => s
  | Some status =>
      let segments := match r_segments r with
                      | [] => match sn_runtime s !! r_id r with Some p => r_segments p | None => [] end
                      | sgs => sgs
                      end in
      let r := if transfers status
               then mk_runtime (r_id r) (r_seq r) (r_active_transfers r) (r_connected_peers r) (r_total r)
                      segments (r_other r)
               else mk_runtime (r_id r) (r_seq r) (Some 0) (r_connected_peers r) (r_total r)
                      (map deactivate segments) (r_other r) in
      with_runtime s (<[r_id r := r]> (sn_runtime s))
  end.

Definition apply_task_changed (t : TaskDto) (s : DaemonSnapshot) : DaemonSnapshot :=
  let s := match find_task (t_id t) (sn_tasks s) with
           | Some _ => task_edit (t_id t) (fun _ => t) s
           | None => with_tasks s (sn_tasks s ++ [t])
           end in
  settle_runtime (t_id t) (t_status t) s.

Definition or_keep (new old : text) : text := match new with [] => old | _ => new end.

Definition progress_task (p : TaskProgress) (t : TaskDto) : TaskDto :=
  mk_task (t_id t) (or_keep (p_url p) (t_url t)) (or_keep (p_file_name p) (t_file_name t))
    (or_keep (p_save_dir p) (t_save_dir t)) (p_status p) (p_downloaded p) (p_total p) (p_error p)
    (t_queue_id t) (t_file_missing t) (t_auto_route t) (p_uploaded p) (p_seeding_status p)
    (p_seeding_message p) (p_seeding_time p) (t_other t).

Definition is_deleted_progress (p : TaskProgress) : bool :=
  (p_status p =? 4) && bool_decide (p_error p = lit "deleted").

Definition delete_task (id : text) (s : DaemonSnapshot) : DaemonSnapshot :=
  with_runtime (with_tasks s (remove_task id (sn_tasks s))) (delete id (sn_runtime s)).

Definition apply_progress (p : TaskProgress) (s : DaemonSnapshot) : DaemonSnapshot :=
  if is_deleted_progress p then delete_task (p_id p) s
  else task_edit (p_id p) (progress_task p) (settle_runtime (p_id p) (p_status p) s).

Definition fresh_segments (inactive : bool) (sgs : list SegmentDetailDto) : list TaskSegmentDto :=
  map (fun d => mk_tseg (sd_index d) (sd_start d) (sd_end d) (sd_downloaded d)
                  (if inactive then Some false else None)) sgs.

Definition apply_segments (id : text) (total : Z) (sgs : list SegmentDetailDto) (s : DaemonSnapshot)
    : DaemonSnapshot :=
  match find_task id (sn_tasks s) with
  | None => s
  | Some t =>
      if negb (runtime_retained (t_status t)) then s
      else
        let inactive := negb (transfers (t_status t)) in
        let r := default (mk_runtime id 0 (if inactive then Some 0 else None) None 0 [] None)
                   (sn_runtime s !! id) in
        let r := if r_seq r =? 0
                 then mk_runtime (r_id r) (r_seq r) (r_active_transfers r) (r_connected_peers r) total
                        (fresh_segments inactive sgs) (r_other r)
                 else r in
        with_runtime s (<[id := r]> (sn_runtime s))
  end.

Fixpoint insert_delivery (d : WebhookDelivery) (l : list WebhookDelivery) : list WebhookDelivery :=
  match l with
  | [] => [d]
  | x :: l' => if wd_timestamp x <=? wd_timestamp d then d :: l else x :: insert_delivery d l'
  end.

Definition WEBHOOK_DELIVERY_LIMIT : nat := 1000.

Definition merge_webhook_deliveries (current delta : list WebhookDelivery) : list WebhookDelivery :=
  match delta with
  | [] => current
  | _ =>
      let kept := filter (fun d => wd_id d ∉ map wd_id delta) current in
      take WEBHOOK_DELIVERY_LIMIT (foldr insert_delivery [] (kept ++ delta))
  end.

Fixpoint disable_plugin (identity reason : text) (ps : list Plugin) : list Plugin :=
  match ps with
  | [] => []
  | p :: ps' =>
      if decide (pl_identity p = identity)
      then mk_plugin (pl_identity p) false reason (pl_other p) :: ps'
      else p :: disable_plugin identity reason ps'
  end.

Definition apply_rest (f : Rest -> Rest) (s : DaemonSnapshot) : DaemonSnapshot := with_rest s (f (rest_of s)).

Definition set_file_missing (s : DaemonSnapshot) (u : text * bool) : DaemonSnapshot :=
  task_edit u.1 (fun t =>
    mk_task (t_id t) (t_url t) (t_file_name t) (t_save_dir t) (t_status t) (t_downloaded t) (t_total t)
      (t_error t) (t_queue_id t) u.2 (t_auto_route t) (t_uploaded t) (t_seeding_status t)
      (t_seeding_message t) (t_seeding_time t) (t_other t)) s.

Definition rest_with_queues q (r : Rest) :=
  mk_rest q (re_groups r) (re_config r) (re_rss_sources r) (re_rss_revisions r) (re_plugins r)
    (re_components r) (re_deliveries r) (re_priority r) (re_selections r).
Definition rest_with_groups g (r : Rest) :=
  mk_rest (re_queues r) g (re_config r) (re_rss_sources r) (re_rss_revisions r) (re_plugins r)
    (re_components r) (re_deliveries r) (re_priority r) (re_selections r).
Definition rest_with_config c (r : Rest) :=
  mk_rest (re_queues r) (re_groups r) c (re_rss_sources r) (re_rss_revisions r) (re_plugins r)
    (re_components r) (re_deliveries r) (re_priority r) (re_selections r).
Definition rest_with_rss_sources l (r : Rest) :=
  mk_rest (re_queues r) (re_groups r) (re_config r) l (re_rss_revisions r) (re_plugins r)
    (re_components r) (re_deliveries r) (re_priority r) (re_selections r).
Definition rest_with_rss_revisions m (r : Rest) :=
  mk_rest (re_queues r) (re_groups r) (re_config r) (re_rss_sources r) m (re_plugins r)
    (re_components r) (re_deliveries r) (re_priority r) (re_selections r).
Definition rest_with_plugins l (r : Rest) :=
  mk_rest (re_queues r) (re_groups r) (re_config r) (re_rss_sources r) (re_rss_revisions r) l
    (re_components r) (re_deliveries r) (re_priority r) (re_selections r).
Definition rest_with_components l (r : Rest) :=
  mk_rest (re_queues r) (re_groups r) (re_config r) (re_rss_sources r) (re_rss_revisions r) (re_plugins r)
    l (re_deliveries r) (re_priority r) (re_selections r).
Definition rest_with_deliveries l (r : Rest) :=
  mk_rest (re_queues r) (re_groups r) (re_config r) (re_rss_sources r) (re_rss_revisions r) (re_plugins r)
    (re_components r) l (re_priority r) (re_selections r).
Definition rest_with_priority l (r : Rest) :=
  mk_rest (re_queues r) (re_groups r) (re_config r) (re_rss_sources r) (re_rss_revisions r) (re_plugins r)
    (re_components r) (re_deliveries r) l (re_selections r).
Definition rest_with_selections l (r : Rest) :=
  mk_rest (re_queues r) (re_groups r) (re_config r) (re_rss_sources r) (re_rss_revisions r) (re_plugins r)
    (re_components r) (re_deliveries r) (re_priority r) l.

Definition task_with_meta (file_name : text) (total : Z) (t : TaskDto) : TaskDto :=
  mk_task (t_id t) (t_url t) (or_keep file_name (t_file_name t)) (t_save_dir t) (t_status t)
    (t_downloaded t) total (t_error t) (t_queue_id t) (t_file_missing t) (t_auto_route t) (t_uploaded t)
    (t_seeding_status t) (t_seeding_message t) (t_seeding_time t) (t_other t).
Definition task_with_queue (queue_id : text) (t : TaskDto) : TaskDto :=
  mk_task (t_id t) (t_url t) (t_file_name t) (t_save_dir t) (t_status t)
    (t_downloaded t) (t_total t) (t_error t) queue_id (t_file_missing t) (t_auto_route t) (t_uploaded t)
    (t_seeding_status t) (t_seeding_message t) (t_seeding_time t) (t_other t).
Definition task_with_route (route : text) (t : TaskDto) : TaskDto :=
  mk_task (t_id t) (t_url t) (t_file_name t) (t_save_dir t) (t_status t)
    (t_downloaded t) (t_total t) (t_error t) (t_queue_id t) (t_file_missing t) route (t_uploaded t)
    (t_seeding_status t) (t_seeding_message t) (t_seeding_time t) (t_other t).

Definition apply_engine_message (m : WsServerMsg) (s : DaemonSnapshot) : DaemonSnapshot :=
  match m with
  | MTasksSnapshot tasks => settle_task_table (with_task_total (with_tasks s tasks) None)
  | MTaskProgress p => apply_progress p s
  | MSegmentProgress id total _ segments => apply_segments id total segments s
  | MTaskMetaProbed id file_name total => task_edit id (task_with_meta file_name total) s
  | MTaskQueueChanged id queue_id => task_edit id (task_with_queue queue_id) s
  | MTaskRouteChanged id route => task_edit id (task_with_route route) s
  | MQueuesChanged queues => apply_rest (rest_with_queues queues) s
  | MQueuePositionsChanged positions => with_queue s positions None
  | MQueueOrderChanged removed added =>
      with_queue s (apply_queue_order (sn_queue_positions s) removed added) (sn_queue_total s)
  | MGroupsChanged groups => apply_rest (rest_with_groups groups) s
  | MRssSourcesChanged sources => apply_rest (rest_with_rss_sources sources) s
  | MRssItemsChanged source_id _ =>
      apply_rest (fun r => rest_with_rss_revisions
        (<[source_id := sat_add_u64 (default 0 (re_rss_revisions r !! source_id)) 1]> (re_rss_revisions r)) r) s
  | MWebhookDeliveriesChanged deliveries =>
      apply_rest (fun r => rest_with_deliveries (merge_webhook_deliveries (re_deliveries r) deliveries) r) s
  | MFileMissingChanged updates => foldl set_file_missing s updates
  | MPriorityTaskChanged id _ =>
      apply_rest (rest_with_priority (match id with [] => [] | _ => [id] end)) s
  | MPluginAutoDisabled identity reason =>
      apply_rest (fun r => rest_with_plugins (disable_plugin identity reason (re_plugins r)) r) s
  | _ => s
  end.

Definition apply_daemon_event (e : DaemonEvent) (s : DaemonSnapshot) : DaemonSnapshot :=
  match e with
  | TaskRuntimeChanged r => apply_runtime r s
  | TaskActivityAdded _ | TaskNotice _ | PluginViewFrame _ | PluginViewClosed _ _ | PluginToast _ _ _ => s
  | SnapshotReplaced replacement => replacement
  | TablesReloading tasks queue => begin_reload tasks queue s
  | Engine m => apply_engine_message m s
  | TaskChanged t => apply_task_changed t s
  | TasksChanged ts => foldl (fun s t => apply_task_changed t s) s ts
  | TaskDeleted id => delete_task id s
  | TasksDeleted ids =>
      with_runtime (with_tasks s (filter (fun t => t_id t ∉ ids) (sn_tasks s)))
        (filter (fun '(id, _) => id ∉ ids) (sn_runtime s))
  | QueuesChanged queues => apply_rest (rest_with_queues queues) s
  | GroupsChanged groups => apply_rest (rest_with_groups groups) s
  | ConfigChanged config => apply_rest (rest_with_config config) s
  | RssChanged source_id revision =>
      apply_rest (fun r => rest_with_rss_revisions (<[source_id := revision]> (re_rss_revisions r)) r) s
  | PluginsChanged plugins => apply_rest (rest_with_plugins plugins) s
  | ComponentsChanged components => apply_rest (rest_with_components components) s
  | WebhooksChanged deliveries =>
      apply_rest (fun r => rest_with_deliveries (merge_webhook_deliveries (re_deliveries r) deliveries) r) s
  | WebhooksCleared => apply_rest (rest_with_deliveries []) s
  | RuntimeStatsChanged stats => with_stats s stats
  | SelectionPending request_id b =>
      apply_rest (fun r => rest_with_selections
        (filter (fun x => x.1 <> request_id) (re_selections r) ++ [(request_id, b)]) r) s
  | SelectionResolved request_id =>
      apply_rest (fun r => rest_with_selections (filter (fun x => x.1 <> request_id) (re_selections r)) r) s
  end.

(** ** Local changes

    A coalesced event changes one task and its runtime, or the queue table, or
    the statistics. *)

(** A change of task [id] and of its runtime entry that depends on both. *)
Definition local (id : text) (F : option TaskDto -> option TaskRuntimeDto ->
    (TaskDto -> TaskDto) * option TaskRuntimeDto) (s : DaemonSnapshot) : DaemonSnapshot :=
  let '(g, r) := F (find_task id (sn_tasks s)) (sn_runtime s !! id) in
  with_runtime (with_tasks s (alter_task id g (sn_tasks s))) (partial_alter (fun _ => r) id (sn_runtime s)).

Definition keeps_id (F : option TaskDto -> option TaskRuntimeDto ->
    (TaskDto -> TaskDto) * option TaskRuntimeDto) : Prop :=
  forall o r t, t_id ((F o r).1 t) = t_id t.

Lemma snapshot_eta s :
  mk_snapshot (sn_runtime s) (sn_tasks s) (sn_task_total s) (sn_queue_total s) (sn_queue_positions s) (sn_stats s)
    (sn_queues s) (sn_groups s) (sn_config s) (sn_rss_sources s) (sn_rss_revisions s) (sn_plugins s)
    (sn_components s) (sn_deliveries s) (sn_priority s) (sn_selections s) = s.
Proof. by destruct s. Qed.

Lemma find_alter_same id f ts :
  (forall t, t_id (f t) = t_id t) -> find_task id (alter_task id f ts) = f <$> find_task id ts.
Proof.
  intros Hf. induction ts as [|t ts IH]; [done|]. cbn. destruct (find_task id ts) as [t'|] eqn:E; cbn.
  - by rewrite IH.
  - case_decide as Hd; cbn; rewrite E; [by rewrite Hf, decide_True|by rewrite decide_False].
Qed.

Lemma find_alter_other id id' f ts :
  id <> id' -> (forall t, t_id (f t) = t_id t) -> find_task id (alter_task id' f ts) = find_task id ts.
Proof.
  intros Hne Hf. induction ts as [|t ts IH]; [done|]. cbn. destruct (find_task id' ts) as [t'|] eqn:E; cbn.
  - by rewrite IH.
  - destruct (decide (t_id t = id')) as [Hd|Hd]; cbn; [|done]. rewrite Hf, !decide_False by congruence. done.
Qed.

Lemma alter_none id f ts : find_task id ts = None -> alter_task id f ts = ts.
Proof.
  induction ts as [|t ts IH]; [done|]. cbn. destruct (find_task id ts) as [t'|] eqn:E; [done|].
  case_decide; [done|]. done.
Qed.

Lemma alter_alter_other id id' f g ts :
  id <> id' -> (forall t, t_id (f t) = t_id t) -> (forall t, t_id (g t) = t_id t) ->
  alter_task id f (alter_task id' g ts) = alter_task id' g (alter_task id f ts).
Proof.
  intros Hne Hf Hg. induction ts as [|t ts IH]; [done|].
  cbn. destruct (find_task id' ts) as [t'|] eqn:E', (find_task id ts) as [t0|] eqn:E; cbn;
    repeat case_decide; cbn; rewrite ?find_alter_other, ?E, ?E', ?IH by (done || congruence); try done;
    rewrite ?Hf, ?Hg; repeat case_decide; try done; congruence.
Qed.

Lemma alter_alter_same id f g ts :
  (forall t, t_id (g t) = t_id t) -> alter_task id f (alter_task id g ts) = alter_task id (fun t => f (g t)) ts.
Proof.
  intros Hg. induction ts as [|t ts IH]; [done|]. cbn. destruct (find_task id ts) as [t'|] eqn:E; cbn.
  - rewrite find_alter_same, E by done. cbn. by f_equal.
  - case_decide as Hd; cbn; rewrite E; [by rewrite Hg, decide_True|by rewrite decide_False].
Qed.

Lemma alter_ext id f g ts : (forall t, f t = g t) -> alter_task id f ts = alter_task id g ts.
Proof.
  intros Hfg. induction ts as [|t ts IH]; [done|]. cbn. destruct (find_task id ts); [by rewrite IH|].
  by rewrite Hfg.
Qed.

Lemma alter_id id ts : alter_task id (fun t => t) ts = ts.
Proof.
  induction ts as [|t ts IH]; [done|]. cbn. destruct (find_task id ts); [by rewrite IH|]. by case_decide.
Qed.

(** A table filtered by a condition on the ids. *)
Lemma find_filter_in (Q : TaskDto -> Prop) `{!forall t, Decision (Q t)} id ts :
  (forall t, t_id t = id -> Q t) -> find_task id (filter Q ts) = find_task id ts.
Proof.
  intros HQ. induction ts as [|t ts IH]; [done|]. rewrite filter_cons.
  destruct (decide (Q t)) as [Ht|Ht]; cbn; rewrite IH; [done|].
  destruct (find_task id ts); [done|]. rewrite decide_False; [done|]. intros Hid. by apply Ht, HQ.
Qed.

Lemma alter_filter (Q : TaskDto -> Prop) `{!forall t, Decision (Q t)} id f ts :
  (forall t, t_id t = id -> Q t) -> (forall t, t_id (f t) = t_id t) ->
  alter_task id f (filter Q ts) = filter Q (alter_task id f ts).
Proof.
  intros HQ Hf. induction ts as [|t ts IH]; [done|]. rewrite filter_cons. cbn [alter_task].
  pose proof (find_filter_in Q id ts HQ) as Hff.
  destruct (decide (Q t)) as [Ht|Ht].
  - cbn [alter_task]. rewrite Hff. destruct (find_task id ts) as [t'|] eqn:E.
    + by rewrite filter_cons_True, IH.
    + destruct (decide (t_id t = id)) as [Hd|Hd]; [|by rewrite filter_cons_True].
      rewrite filter_cons_True; [done|]. apply HQ. by rewrite Hf.
  - destruct (find_task id ts) as [t'|] eqn:E; [by rewrite filter_cons_False, IH|].
    destruct (decide (t_id t = id)) as [Hd|Hd]; [by destruct Ht; apply HQ|].
    rewrite filter_cons_False by done. by apply alter_none.
Qed.
