(* ===== verification/Coalesce.v ===== *)
(** * Coalesce: the queue of frames for a subscriber that falls behind
      ([native/protocol/src/coalesce.rs]), and the verdict of a consumer on a
      frame ([judge_frame] of [native/protocol/src/event.rs]).

    Frames wait in a deque; a frame that completely supersedes an earlier one
    of the same entity takes its place at the end.  The main theorem: whatever
    was merged, a consumer that starts from the state of any moment and judges
    the frames by their intervals never sees a gap and ends in the state it
    would have reached by applying every event.  Modelled for the daemon's
    stream ([ServiceEvent::Daemon]); the agent's own events and their key
    [ShareSession] are not. *)
From Stdlib Require Import Ascii.
From S2P Require Import Prelude Text QueueOrder Projection.

Record EventFrame := mk_frame {
  f_epoch : text; f_sequence : Z; f_previous : option Z; f_event : DaemonEvent
}.

Definition covers_from (f : EventFrame) : Z := default (sat_sub_u64 (f_sequence f) 1) (f_previous f).

Inductive FrameVerdict := Accept | Skip | Resync.

Definition judge_frame (epoch : text) (cursor : Z) (f : EventFrame) : FrameVerdict :=
  if decide (f_epoch f <> epoch) then Resync
  else if f_sequence f <=? cursor then Skip
  else if covers_from f <=? cursor then Accept
  else Resync.

(** ** What a frame touches *)

Inductive Key :=
| KProgress (id : text)
| KRuntime (id : text)
| KSegments (id : text)
| KRuntimeStats
| KQueue.

Inductive Touch :=
| TNone
| TTasks (ids : list text)
| TAll
| TKeyed (k : Key).

#[global] Instance key_eq_dec : EqDecision Key.
Proof. solve_decision. Defined.

Definition key_encode (k : Key) : nat * text :=
  match k with
  | KProgress id => (0%nat, id) | KRuntime id => (1%nat, id) | KSegments id => (2%nat, id)
  | KRuntimeStats => (3%nat, []) | KQueue => (4%nat, [])
  end.

Definition key_decode (x : nat * text) : Key :=
  match x with
  | (0%nat, id) => KProgress id | (1%nat, id) => KRuntime id | (2%nat, id) => KSegments id
  | (3%nat, _) => KRuntimeStats | _ => KQueue
  end.

#[global] Instance key_countable : Countable Key.
Proof. refine (inj_countable' key_encode key_decode _). by intros []. Defined.

Definition key_task (k : Key) : option text :=
  match k with KProgress id | KRuntime id | KSegments id => Some id | KRuntimeStats | KQueue => None end.

Definition engine_touch (m : WsServerMsg) : Touch :=
  match m with
  | MTaskProgress p => if is_deleted_progress p then TTasks [p_id p] else TKeyed (KProgress (p_id p))
  | MSegmentProgress id _ _ _ => TKeyed (KSegments id)
  | MQueuePositionsChanged _ | MQueueOrderChanged _ _ => TKeyed KQueue
  | MTasksSnapshot _ => TAll
  | MSegmentSplit id _ | MTaskCdnEvent id _ | MTaskMetaProbed id _ _ | MTaskQueueChanged id _
  | MTaskRouteChanged id _ | MHlsSelectionRequest id _ | MBtSelectionRequest id _
  | MResolveVariantRequest id _ | MPluginHookActivity id _ => TTasks [id]
  | MDuplicateTorrent id existing_id _ => TTasks [id; existing_id]
  | MFileMissingChanged updates => TTasks (map fst updates)
  | MQueuesChanged _ | MPriorityTaskChanged _ _ | MPong | MPluginAutoDisabled _ _ | MPluginsChanged
  | MGroupsChanged _ | MRssSourcesChanged _ | MRssItemsChanged _ _ | MRssFeedValidated _
  | MComponentProgress _ | MComponentResult _ | MLinkIncomingPairing _ | MLinkDevicesChanged
  | MWebhookDeliveriesChanged _ => TNone
  end.

Definition daemon_touch (e : DaemonEvent) : Touch :=
  match e with
  | TaskRuntimeChanged r => TKeyed (KRuntime (r_id r))
  | RuntimeStatsChanged _ => TKeyed KRuntimeStats
  | SnapshotReplaced _ => TAll
  | TablesReloading (Some _) _ => TAll
  | TablesReloading None _ => TKeyed KQueue
  | Engine m => engine_touch m
  | TaskChanged t => TTasks [t_id t]
  | TasksChanged ts => TTasks (map t_id ts)
  | TaskDeleted id => TTasks [id]
  | TasksDeleted ids => TTasks ids
  | TaskActivityAdded _ | QueuesChanged _ | GroupsChanged _ | ConfigChanged _ | RssChanged _ _
  | PluginsChanged _ | ComponentsChanged _ | WebhooksChanged _ | WebhooksCleared | SelectionPending _ _
  | SelectionResolved _ | TaskNotice _ | PluginViewFrame _ | PluginViewClosed _ _ | PluginToast _ _ _ => TNone
  end.

(** ** Merging *)

Definition compose_queue_order (old_removed : list text) (old_added : list QueueOrderEntry)
    (removed : list text) (added : list QueueOrderEntry) : list text * list QueueOrderEntry :=
  let overridden := touched removed added in
  (first_occurrences ∅ (old_removed ++ removed),
   filter (fun e => qe_task e ∉ overridden) old_added ++ added).

Definition merge_progress (old new : TaskProgress) : option TaskProgress :=
  if p_status old =? p_status new then
    Some (mk_progress (p_id new) (p_status new) (p_downloaded new) (p_total new)
            (or_keep (p_file_name new) (p_file_name old)) (or_keep (p_save_dir new) (p_save_dir old))
            (or_keep (p_url new) (p_url old)) (p_error new) (p_uploaded new) (p_seeding_status new)
            (p_seeding_message new) (p_seeding_time new) (p_speeds new))
  else None.

Definition merge_engine (old new : WsServerMsg) : option WsServerMsg :=
  match old, new with
  | MTaskProgress o, MTaskProgress n => MTaskProgress <$> merge_progress o n
  | MSegmentProgress _ _ _ _, MSegmentProgress _ _ _ _ => Some new
  | _, MQueuePositionsChanged _ => Some new
  | MQueuePositionsChanged base, MQueueOrderChanged removed added =>
      Some (MQueuePositionsChanged (apply_queue_order base removed added))
  | MQueueOrderChanged old_removed old_added, MQueueOrderChanged removed added =>
      let '(r, a) := compose_queue_order old_removed old_added removed added in
      Some (MQueueOrderChanged r a)
  | _, _ => None
  end.

(** The event that stands for [earlier] followed by [later]; [None] when the
    two stay apart. *)
Definition merge (earlier later : DaemonEvent) : option DaemonEvent :=
  match earlier, later with
  | RuntimeStatsChanged _, RuntimeStatsChanged _ => Some later
  | TaskRuntimeChanged o, TaskRuntimeChanged n =>
      if negb (bool_decide (r_segments n = [])) && negb (r_seq o =? 0) && (r_seq o <? r_seq n)
      then Some later else None
  | Engine o, Engine n => Engine <$> merge_engine o n
  | _, TablesReloading None _ => Some later
  | _, _ => None
  end.

(** ** The queue *)

Record FrameQueue := mk_queue {
  q_slots : list (option EventFrame);
  q_head : nat;
  q_keys : gmap Key nat;
  q_touched : gmap text nat;
  q_barrier : nat;
  q_live : nat;
  q_last_sent : option Z;
  q_first_from : option Z
}.

Definition new_queue : FrameQueue := mk_queue [] 0 ∅ ∅ 0 0 None None.

Definition mergeable (q : FrameQueue) (k : Key) : option nat :=
  let* earlier := q_keys q !! k in
  if (earlier <? q_head q)%nat || (earlier <? q_barrier q)%nat then None
  else match key_task k with
       | Some task => if decide (q_touched q !! task = Some earlier) then Some earlier else None
       | None => Some earlier
       end.

Definition frame_with_event (f : EventFrame) (e : DaemonEvent) : EventFrame :=
  mk_frame (f_epoch f) (f_sequence f) (f_previous f) e.

(** The merge of the earlier frame of [k] into [f]: the slots without it, and
    the frame that enters the queue. *)
Definition merge_into (q : FrameQueue) (k : Key) (f : EventFrame)
    : list (option EventFrame) * nat * EventFrame :=
  let same := (q_slots q, q_live q, f) in
  match mergeable q k with
  | None => same
  | Some earlier =>
      let slot := (earlier - q_head q)%nat in
      match q_slots q !! slot with
      | Some (Some previous) =>
          match merge (f_event previous) (f_event f) with
          | Some e => (<[slot := None]> (q_slots q), (q_live q - 1)%nat, frame_with_event f e)
          | None => same
          end
      | _ => same
      end
  end.

Definition push (q : FrameQueue) (f : EventFrame) : FrameQueue :=
  let first_from := match q_first_from q, q_last_sent q with
                    | None, None => Some (covers_from f)
                    | o, _ => o
                    end in
  let index := (q_head q + length (q_slots q))%nat in
  match daemon_touch (f_event f) with
  | TNone => mk_queue (q_slots q ++ [Some f]) (q_head q) (q_keys q) (q_touched q) (q_barrier q)
               (S (q_live q)) (q_last_sent q) first_from
  | TAll => mk_queue (q_slots q ++ [Some f]) (q_head q) ∅ ∅ (S index)
              (S (q_live q)) (q_last_sent q) first_from
  | TTasks ids => mk_queue (q_slots q ++ [Some f]) (q_head q) (q_keys q)
                    (foldl (fun m id => <[id := index]> m) (q_touched q) ids) (q_barrier q)
                    (S (q_live q)) (q_last_sent q) first_from
  | TKeyed k =>
      let '(slots, live, f) := merge_into q k f in
      mk_queue (slots ++ [Some f]) (q_head q) (<[k := index]> (q_keys q))
        (match key_task k with Some task => <[task := index]> (q_touched q) | None => q_touched q end)
        (q_barrier q) (S live) (q_last_sent q) first_from
  end.

(** The slots and the head after the empty slots in front and one frame. *)
Fixpoint pop_slot (slots : list (option EventFrame)) (head : nat)
    : option EventFrame * list (option EventFrame) * nat :=
  match slots with
  | [] => (None, [], head)
  | Some f :: slots => (Some f, slots, S head)
  | None :: slots => pop_slot slots (S head)
  end.

Definition pop (q : FrameQueue) : option EventFrame * FrameQueue :=
  let '(o, slots, head) := pop_slot (q_slots q) (q_head q) in
  match o with
  | None => (None, mk_queue slots head (q_keys q) (q_touched q) (q_barrier q) (q_live q)
                     (q_last_sent q) (q_first_from q))
  | Some f =>
      let live := (q_live q - 1)%nat in
      let previous := match q_last_sent q with
                      | Some n => n
                      | None => default (covers_from f) (q_first_from q)
                      end in
      let f' := mk_frame (f_epoch f) (f_sequence f)
                  (if previous =? sat_sub_u64 (f_sequence f) 1 then None else Some previous) (f_event f) in
      (Some f',
       if (live =? 0)%nat
       then mk_queue [] head ∅ ∅ (q_barrier q) live (Some (f_sequence f)) (q_first_from q)
       else mk_queue slots head (q_keys q) (q_touched q) (q_barrier q) live (Some (f_sequence f)) (q_first_from q))
  end.

(** The frames that wait. *)
Definition pending (q : FrameQueue) : list EventFrame := omap id (q_slots q).

(** ** Independent events commute *)

(** [e] neither replaces tables nor touches what [k] is about. *)
Definition independent (k : Key) (e : DaemonEvent) : Prop :=
  match daemon_touch e with
  | TNone => True
  | TAll => False
  | TTasks ids => forall task, key_task k = Some task -> task ∉ ids
  | TKeyed k' => k' <> k /\ forall task, key_task k = Some task -> key_task k' <> Some task
  end.

(** A change that leaves tasks and runtimes alone and does not read them. *)
Definition ignores_tasks (h : DaemonSnapshot -> DaemonSnapshot) : Prop :=
  forall s ts rt, h (with_runtime (with_tasks s ts) rt) = with_runtime (with_tasks (h s) ts) rt /\
    sn_tasks (h s) = sn_tasks s /\ sn_runtime (h s) = sn_runtime s.

Definition ignores_queue (h : DaemonSnapshot -> DaemonSnapshot) : Prop :=
  forall s ps o, h (with_queue s ps o) = with_queue (h s) ps o /\
    sn_queue_positions (h s) = sn_queue_positions s /\ sn_queue_total (h s) = sn_queue_total s.

Definition ignores_stats (h : DaemonSnapshot -> DaemonSnapshot) : Prop :=
  forall s st, h (with_stats s st) = with_stats (h s) st /\ sn_stats (h s) = sn_stats s.

Lemma local_ignores id F h :
  ignores_tasks h -> forall s, h (local id F s) = local id F (h s).
Proof.
  intros Hh s. unfold local. destruct (Hh s [] ∅) as (_ & -> & ->). destruct (F _ _) as [g r].
  by destruct (Hh s (alter_task id g (sn_tasks s)) (partial_alter (fun _ => r) id (sn_runtime s))) as (-> & _).
Qed.

(** Every change of one task is [local]. *)
Lemma partial_alter_self_id (id : text) (m : gmap text TaskRuntimeDto) :
  partial_alter (fun _ => m !! id) id m = m.
Proof. apply partial_alter_self. Qed.

Lemma task_edit_local id f s : task_edit id f s = local id (fun _ r => (f, r)) s.
Proof. unfold task_edit, local. rewrite partial_alter_self_id. by destruct s. Qed.

Definition progress_local (p : TaskProgress) (o : option TaskDto) (r : option TaskRuntimeDto) :=
  (progress_task p, settled_runtime (p_status p) r).

Lemma partial_alter_const (f : option TaskRuntimeDto -> option TaskRuntimeDto) (id : text) (m : gmap text TaskRuntimeDto) :
  partial_alter f id m = partial_alter (fun _ => f (m !! id)) id m.
Proof.
  apply map_eq. intros i. destruct (decide (i = id)) as [->|].
  - by rewrite !lookup_partial_alter_eq.
  - by rewrite !lookup_partial_alter_ne.
Qed.

Lemma apply_progress_local p s :
  is_deleted_progress p = false -> apply_progress p s = local (p_id p) (progress_local p) s.
Proof.
  intros Hd. unfold apply_progress. rewrite Hd. unfold task_edit, settle_runtime, local, progress_local.
  rewrite partial_alter_const. done.
Qed.

Definition runtime_segments (r : TaskRuntimeDto) (o : option TaskRuntimeDto) : list TaskSegmentDto :=
  match r_segments r with
  | [] => match o with Some p => r_segments p | None => [] end
  | sgs => sgs
  end.

Definition runtime_local (r : TaskRuntimeDto) (t : option TaskDto) (o : option TaskRuntimeDto)
    : (TaskDto -> TaskDto) * option TaskRuntimeDto :=
  (fun t => t,
   match t with
   | None => o
   | Some t =>
       let late := match o with
                   | Some previous => negb (r_seq previous =? 0) && (r_seq r <=? r_seq previous)
                   | None => false
                   end in
       if late || negb (runtime_retained (t_status t)) then o
       else Some (if transfers (t_status t)
                  then mk_runtime (r_id r) (r_seq r) (r_active_transfers r) (r_connected_peers r) (r_total r)
                         (runtime_segments r o) (r_other r)
                  else mk_runtime (r_id r) (r_seq r) (Some 0) (r_connected_peers r) (r_total r)
                         (map deactivate (runtime_segments r o)) (r_other r))
   end).

Lemma with_runtime_self s : with_runtime (with_tasks s (sn_tasks s)) (sn_runtime s) = s.
Proof. by destruct s. Qed.

Lemma apply_runtime_local r s : apply_runtime r s = local (r_id r) (runtime_local r) s.
Proof.
  unfold apply_runtime, local, accepted_runtime_status, runtime_local, runtime_segments. rewrite alter_id.
  destruct (find_task (r_id r) (sn_tasks s)) as [t|] eqn:Ef;
    destruct (match sn_runtime s !! r_id r with Some _ => _ | None => false end) eqn:El; cbn [orb];
    try (rewrite partial_alter_self_id, with_runtime_self; done).
  destruct (runtime_retained (t_status t)); cbn [negb];
    [|by rewrite partial_alter_self_id, with_runtime_self].
  change (with_tasks s (sn_tasks s)) with (with_tasks s (sn_tasks s)).
  replace (with_tasks s (sn_tasks s)) with s by by destruct s.
  by destruct (transfers (t_status t)).
Qed.

Definition segments_local (id : text) (total : Z) (sgs : list SegmentDetailDto) (t : option TaskDto)
    (o : option TaskRuntimeDto) : (TaskDto -> TaskDto) * option TaskRuntimeDto :=
  (fun t => t,
   match t with
   | None => o
   | Some t =>
       if negb (runtime_retained (t_status t)) then o
       else
         let inactive := negb (transfers (t_status t)) in
         let r := default (mk_runtime id 0 (if inactive then Some 0 else None) None 0 [] None) o in
         Some (if r_seq r =? 0
               then mk_runtime (r_id r) (r_seq r) (r_active_transfers r) (r_connected_peers r) total
                      (fresh_segments inactive sgs) (r_other r)
               else r)
   end).

Lemma apply_segments_local id total sgs s :
  apply_segments id total sgs s = local id (segments_local id total sgs) s.
Proof.
  unfold apply_segments, local, segments_local. rewrite alter_id.
  destruct (find_task id (sn_tasks s)) as [t|]; [|by rewrite partial_alter_self_id, with_runtime_self].
  destruct (negb (runtime_retained (t_status t))); [by rewrite partial_alter_self_id, with_runtime_self|].
  replace (with_tasks s (sn_tasks s)) with s by by destruct s. done.
Qed.

Lemma local_find_other id id' F s :
  id <> id' -> keeps_id F -> find_task id (sn_tasks (local id' F s)) = find_task id (sn_tasks s).
Proof.
  intros Hne HF. unfold local. pose proof (HF (find_task id' (sn_tasks s)) (sn_runtime s !! id')) as Hk.
  destruct (F _ _) as [g r]. cbn. by apply find_alter_other.
Qed.

Lemma local_runtime_other id id' F s :
  id <> id' -> sn_runtime (local id' F s) !! id = sn_runtime s !! id.
Proof. intros Hne. unfold local. destruct (F _ _) as [g r]. cbn. by rewrite lookup_partial_alter_ne. Qed.

Lemma local_local id id' F G s :
  id <> id' -> keeps_id F -> keeps_id G -> local id F (local id' G s) = local id' G (local id F s).
Proof.
  intros Hne HF HG. unfold local at 1 3.
  rewrite local_find_other, local_runtime_other by done.
  rewrite local_find_other, local_runtime_other by (done || congruence).
  pose proof (HF (find_task id (sn_tasks s)) (sn_runtime s !! id)) as HF'.
  pose proof (HG (find_task id' (sn_tasks s)) (sn_runtime s !! id')) as HG'.
  unfold local. destruct (F _ _) as [f rf] eqn:EF, (G _ _) as [g rg] eqn:EG. cbn in *.
  unfold with_runtime, with_tasks. cbn. f_equal.
  - by apply partial_alter_partial_alter_ne.
  - by apply alter_alter_other.
Qed.

Lemma find_app_other id ts t : t_id t <> id -> find_task id (ts ++ [t]) = find_task id ts.
Proof.
  intros Hne. induction ts as [|x ts IH]; cbn; [by rewrite decide_False|]. by rewrite IH.
Qed.

Lemma alter_app_other id f ts t : t_id t <> id -> alter_task id f (ts ++ [t]) = alter_task id f ts ++ [t].
Proof.
  intros Hne. induction ts as [|x ts IH]; cbn; [by rewrite decide_False|].
  rewrite find_app_other by done. destruct (find_task id ts); [by rewrite IH|]. by case_decide.
Qed.

Lemma settle_runtime_local id status s :
  settle_runtime id status s = local id (fun _ r => ((fun t => t), settled_runtime status r)) s.
Proof.
  unfold settle_runtime, local. rewrite alter_id, partial_alter_const. by destruct s.
Qed.

Lemma keeps_id_edit (f : TaskDto -> TaskDto) :
  (forall t, t_id (f t) = t_id t) -> keeps_id (fun _ r => (f, r)).
Proof. intros Hf o r t. apply Hf. Qed.

Lemma keeps_id_settle status : keeps_id (fun _ r => ((fun t => t), settled_runtime status r)).
Proof. by intros o r t. Qed.

Lemma local_with_tasks_app id F s t :
  t_id t <> id ->
  with_tasks (local id F s) (sn_tasks (local id F s) ++ [t]) = local id F (with_tasks s (sn_tasks s ++ [t])).
Proof.
  intros Hne. unfold local. cbn [with_tasks sn_tasks sn_runtime]. rewrite find_app_other by done.
  destruct (F _ _) as [g r]. cbn. by rewrite alter_app_other.
Qed.

Lemma changed_commutes id F t s :
  keeps_id F -> t_id t <> id -> apply_task_changed t (local id F s) = local id F (apply_task_changed t s).
Proof.
  intros HF Hne. unfold apply_task_changed. rewrite !settle_runtime_local, local_find_other by done.
  rewrite <-(local_local (t_id t) id) by (done || apply keeps_id_settle). f_equal.
  destruct (find_task (t_id t) (sn_tasks s)) as [t'|] eqn:E; [|by apply local_with_tasks_app].
  assert (forall s, task_edit (t_id t) (fun _ => t) s = local (t_id t) (fun _ r => ((fun x =>
    if decide (t_id x = t_id t) then t else x), r)) s) as He.
  { intros s'. rewrite task_edit_local. unfold local. f_equal. f_equal.
    induction (sn_tasks s') as [|x ts IH]; [done|]. cbn. destruct (find_task (t_id t) ts); [by rewrite IH|].
    by case_decide. }
  rewrite !He. apply local_local; [done| |done]. apply keeps_id_edit. intros x. by case_decide.
Qed.

Lemma foldl_commutes {A} (h : DaemonSnapshot -> A -> DaemonSnapshot) (k : DaemonSnapshot -> DaemonSnapshot) l s :
  (forall x s, x ∈ l -> h (k s) x = k (h s x)) -> foldl h (k s) l = k (foldl h s l).
Proof.
  revert s. induction l as [|x l IH]; intros s Hh; cbn; [done|]. rewrite Hh by set_solver.
  apply IH. intros y s' Hy. apply Hh. set_solver.
Qed.

Lemma delete_commutes id F id' s :
  keeps_id F -> id' <> id -> delete_task id' (local id F s) = local id F (delete_task id' s).
Proof.
  intros HF Hne. unfold delete_task, local, remove_task. cbn.
  rewrite find_filter_in by congruence.
  rewrite lookup_delete_ne by done. pose proof (HF (find_task id (sn_tasks s)) (sn_runtime s !! id)) as Hk.
  destruct (F _ _) as [g r]. cbn in *. unfold with_runtime, with_tasks. cbn. f_equal.
  - by apply (partial_alter_partial_alter_ne (M := gmap text)).
  - symmetry. apply alter_filter; [congruence|done].
Qed.

Lemma deletes_commute id F ids s :
  keeps_id F -> id ∉ ids ->
  apply_daemon_event (TasksDeleted ids) (local id F s) = local id F (apply_daemon_event (TasksDeleted ids) s).
Proof.
  intros HF Hne. cbn. unfold local. cbn.
  rewrite find_filter_in by congruence.
  assert (forall m : gmap text TaskRuntimeDto, filter (fun '(i, _) => i ∉ ids) m !! id = m !! id) as Hl.
  { intros m. destruct (m !! id) as [r|] eqn:E.
    - by apply map_lookup_filter_Some_2.
    - apply map_lookup_filter_None_2. by left. }
  rewrite Hl. pose proof (HF (find_task id (sn_tasks s)) (sn_runtime s !! id)) as Hk.
  destruct (F _ _) as [g r]. cbn in *. unfold with_runtime, with_tasks. cbn. f_equal.
  - apply map_eq. intros i. destruct (decide (i = id)) as [->|].
    + by rewrite Hl, !lookup_partial_alter_eq.
    + rewrite lookup_partial_alter_ne by done. apply option_eq. intros x.
      rewrite !map_lookup_filter_Some, lookup_partial_alter_ne by done. done.
  - symmetry. apply alter_filter; [congruence|done].
Qed.

(** Which task an event touches. *)
Definition touches_task (e : DaemonEvent) (id : text) : Prop :=
  match daemon_touch e with
  | TNone => False
  | TAll => True
  | TTasks ids => id ∈ ids
  | TKeyed k => key_task k = Some id
  end.

Ltac ignore := intros ???; by repeat split.

Lemma ignores_rest f : ignores_tasks (apply_rest f).
Proof. ignore. Qed.

Lemma keeps_id_runtime r : keeps_id (runtime_local r).
Proof. by intros o r' t. Qed.

Lemma keeps_id_segments id total sgs : keeps_id (segments_local id total sgs).
Proof. by intros o r' t. Qed.

Lemma keeps_id_progress p : keeps_id (progress_local p).
Proof. by intros o r' t. Qed.

Lemma engine_commutes_local id F m s :
  keeps_id F -> ~ touches_task (Engine m) id ->
  apply_engine_message m (local id F s) = local id F (apply_engine_message m s).
Proof.
  intros HF Hno. unfold touches_task in Hno.
  destruct m; cbn in Hno; try done;
    try (apply (local_ignores id F (apply_engine_message _)); ignore);
    cbn [apply_engine_message];
    try (by rewrite !task_edit_local, local_local by (done || set_solver)).
  - destruct (is_deleted_progress p) eqn:Ed; cbn in Hno.
    + unfold apply_progress. rewrite Ed. apply delete_commutes; [done|set_solver].
    + rewrite !apply_progress_local by done. apply local_local; [congruence|apply keeps_id_progress|done].
  - rewrite !apply_segments_local. apply local_local; [congruence|apply keeps_id_segments|done].
  - apply foldl_commutes. intros [i b] s' Hin. unfold set_file_missing. rewrite !task_edit_local.
    apply local_local; [|by apply keeps_id_edit|done]. cbn. intros Heq. apply Hno.
    apply list_elem_of_fmap. exists (i, b). by split.
Qed.

Lemma commutes_local id F e s :
  keeps_id F -> ~ touches_task e id ->
  apply_daemon_event e (local id F s) = local id F (apply_daemon_event e s).
Proof.
  intros HF Hno. destruct e; try (unfold touches_task in Hno; cbn in Hno); try done;
    try (apply (local_ignores id F (apply_daemon_event _)); ignore); cbn [apply_daemon_event].
  - rewrite !apply_runtime_local. apply local_local; [congruence|apply keeps_id_runtime|done].
  - destruct tasks; [done|]. apply (local_ignores id F (begin_reload None queue)). intros ???. unfold begin_reload.
    by destruct queue; repeat split.
  - by apply engine_commutes_local.
  - apply changed_commutes; [done|set_solver].
  - apply foldl_commutes. intros t s' Hin. apply changed_commutes; [done|]. intros <-. apply Hno.
    by apply list_elem_of_fmap_2.
  - apply delete_commutes; [done|set_solver].
  - by apply deletes_commute.
Qed.

(** Events that neither replace nor touch the queue table ignore it, and the
    same for the statistics. *)
Ltac ignore_fields :=
  intros; cbn; unfold apply_runtime, accepted_runtime_status, apply_segments, apply_progress, apply_task_changed,
    task_edit, settle_runtime, delete_task, set_file_missing, begin_reload; cbn; repeat case_match; by repeat split.

Lemma foldl_ignores_queue {A} (h : DaemonSnapshot -> A -> DaemonSnapshot) l :
  (forall x, ignores_queue (fun s => h s x)) -> ignores_queue (fun s => foldl h s l).
Proof.
  intros Hh. induction l as [|x l IH]; intros s ps o; cbn; [done|].
  destruct (Hh x s ps o) as (-> & Hp & Ht). destruct (IH (h s x) ps o) as (-> & Hp' & Ht').
  split_and!; congruence.
Qed.

Lemma foldl_ignores_stats {A} (h : DaemonSnapshot -> A -> DaemonSnapshot) l :
  (forall x, ignores_stats (fun s => h s x)) -> ignores_stats (fun s => foldl h s l).
Proof.
  intros Hh. induction l as [|x l IH]; intros s st; cbn; [done|].
  destruct (Hh x s st) as (-> & Hp). destruct (IH (h s x) st) as (-> & Hp'). split; congruence.
Qed.

Lemma event_ignores_queue e :
  daemon_touch e <> TAll -> daemon_touch e <> TKeyed KQueue -> ignores_queue (apply_daemon_event e).
Proof.
  intros Ha Hk. destruct e; cbn in Ha, Hk; try done; cbn [apply_daemon_event]; try (intros ???; ignore_fields).
  - destruct m; cbn in Ha, Hk; try done; cbn [apply_engine_message]; try (intros ???; ignore_fields).
    apply foldl_ignores_queue. intros x ???; ignore_fields.
  - apply foldl_ignores_queue. intros x ???; ignore_fields.
Qed.

Lemma event_ignores_stats e :
  daemon_touch e <> TAll -> daemon_touch e <> TKeyed KRuntimeStats -> ignores_stats (apply_daemon_event e).
Proof.
  intros Ha Hk. destruct e; cbn in Ha, Hk; try done; cbn [apply_daemon_event]; try (intros ??; ignore_fields).
  - destruct m; cbn in Ha, Hk; try done; cbn [apply_engine_message]; try (intros ??; ignore_fields).
    apply foldl_ignores_stats. intros x ??; ignore_fields.
  - apply foldl_ignores_stats. intros x ??; ignore_fields.
Qed.

(** The three kinds of coalesced events. *)
Inductive keyed_view : Key -> DaemonEvent -> Prop :=
| view_progress p : is_deleted_progress p = false -> keyed_view (KProgress (p_id p)) (Engine (MTaskProgress p))
| view_runtime r : keyed_view (KRuntime (r_id r)) (TaskRuntimeChanged r)
| view_segments id total count sgs : keyed_view (KSegments id) (Engine (MSegmentProgress id total count sgs))
| view_stats st : keyed_view KRuntimeStats (RuntimeStatsChanged st)
| view_positions ps : keyed_view KQueue (Engine (MQueuePositionsChanged ps))
| view_order r a : keyed_view KQueue (Engine (MQueueOrderChanged r a))
| view_reload q : keyed_view KQueue (TablesReloading None q).

Lemma keyed_view_spec k e : daemon_touch e = TKeyed k <-> keyed_view k e.
Proof.
  split; [|intros []; cbn; try done; by rewrite H].
  destruct e; cbn; try discriminate; try (intros [= <-]; constructor).
  - destruct tasks; [discriminate|]. intros [= <-]. constructor.
  - destruct m; cbn; try discriminate; try (intros [= <-]; constructor).
    destruct (is_deleted_progress p) eqn:E; [discriminate|]. intros [= <-]. by constructor.
Qed.

Lemma independent_ignores k e :
  independent k e -> daemon_touch e <> TAll /\ daemon_touch e <> TKeyed k /\
  (forall task, key_task k = Some task -> ~ touches_task e task).
Proof.
  unfold independent, touches_task. destruct (daemon_touch e) as [|ids| |k'] eqn:E; intros Hi; try done.
  - split; [done|split; [done|by intros ???]].
  - destruct Hi as [Hk Hi]. split_and!; [done|congruence|]. intros task Ht Hk'. by apply (Hi task Ht).
Qed.

(** An event commutes with every event independent of its key. *)
Lemma commute k e e' s :
  daemon_touch e = TKeyed k -> independent k e' ->
  apply_daemon_event e' (apply_daemon_event e s) = apply_daemon_event e (apply_daemon_event e' s).
Proof.
  intros Hv%keyed_view_spec (Ha & Hk & Ht)%independent_ignores. destruct Hv; cbn [apply_daemon_event apply_engine_message].
  - rewrite !apply_progress_local by done. apply commutes_local; [apply keeps_id_progress|by apply Ht].
  - rewrite !apply_runtime_local. apply commutes_local; [apply keeps_id_runtime|by apply Ht].
  - rewrite !apply_segments_local. apply commutes_local; [apply keeps_id_segments|by apply Ht].
  - by destruct (event_ignores_stats e' Ha Hk s st) as [-> _].
  - by destruct (event_ignores_queue e' Ha Hk s ps None) as [-> _].
  - destruct (event_ignores_queue e' Ha Hk s (apply_queue_order (sn_queue_positions s) r a) (sn_queue_total s))
      as (-> & -> & ->). done.
  - destruct q as [n|]; [|done]. cbn. by destruct (event_ignores_queue e' Ha Hk s [] (Some n)) as (-> & _).
Qed.

(** ** Merging is composition *)

Lemma composed_NoDup r1 a1 r2 a2 :
  NoDup (map qe_task a1) -> NoDup (map qe_task a2) ->
  NoDup (map qe_task (compose_queue_order r1 a1 r2 a2).2).
Proof.
  intros H1 H2. cbn. rewrite map_app. apply NoDup_app. split_and!; [| |done].
  - eapply sublist_NoDup; [exact H1|]. apply (fmap_sublist qe_task), sublist_filter.
  - intros id (e & -> & [He _]%list_elem_of_filter)%list_elem_of_fmap Hin. apply He, touched_spec. by right.
Qed.

Lemma composed_touched r1 a1 r2 a2 id :
  let '(r, a) := compose_queue_order r1 a1 r2 a2 in
  id ∈ touched r a <-> id ∈ touched r1 a1 \/ id ∈ touched r2 a2.
Proof.
  cbn. rewrite !touched_spec, map_app, elem_of_app.
  destruct (first_occurrences_spec ∅ (r1 ++ r2)) as [_ Hf]. rewrite Hf, elem_of_app.
  assert (id ∈ map qe_task (filter (fun e => qe_task e ∉ touched r2 a2) a1) <->
    id ∈ map qe_task a1 /\ (id ∉ touched r2 a2)) as ->.
  { rewrite !list_elem_of_fmap. split.
    - intros (e & -> & [He Hin]%list_elem_of_filter). split; [by exists e|done].
    - intros ((e & -> & Hin) & He). exists e. split; [done|]. by apply list_elem_of_filter. }
  rewrite touched_spec. destruct (decide (id ∈ r2)), (decide (id ∈ map qe_task a2)); set_solver.
Qed.

Lemma compose_correct ps r1 a1 r2 a2 :
  sorted_table ps -> NoDup (map qe_task a1) -> NoDup (map qe_task a2) ->
  strict_table (apply_queue_order (apply_queue_order ps r1 a1) r2 a2) ->
  apply_queue_order ps (compose_queue_order r1 a1 r2 a2).1 (compose_queue_order r1 a1 r2 a2).2 =
  apply_queue_order (apply_queue_order ps r1 a1) r2 a2.
Proof.
  intros Hs H1 H2. pose proof (composed_touched r1 a1 r2 a2) as Htouch.
  pose proof (composed_NoDup r1 a1 r2 a2 H1 H2) as Hc. cbn [fst snd compose_queue_order] in *.
  destruct (apply_spec ps r1 a1 Hs H1) as (u & -> & Hu & Hup).
  destruct (apply_spec (renumber u) r2 a2) as (v & -> & Hv & Hvp);
    [by unfold sorted_table; rewrite renumber_orders|done|].
  unfold strict_table. rewrite renumber_orders. intros Hst. rewrite pairs_renumber in Hvp.
  destruct (apply_spec ps (first_occurrences ∅ (r1 ++ r2)) _ Hs Hc) as (w & -> & Hw & Hwp).
  apply renumber_determined; [done|done|done|].
  rewrite Hwp, Hvp, Hup, filter_app, map_app. rewrite <-app_assoc. f_equiv; [|f_equiv].
  - rewrite list_filter_filter. match goal with |- ?a ≡ₚ ?b => cut (a = b); [by intros ->|] end.
    apply list_filter_iff. intros x. rewrite Htouch. tauto.
  - match goal with |- ?a ≡ₚ ?b => cut (a = b); [by intros ->|] end.
    by apply (filter_entries (fun id => id ∉ touched r2 a2)).
Qed.

Lemma local_compose id F G s :
  keeps_id F ->
  local id G (local id F s) =
  local id (fun o r => let '(f, r1) := F o r in let '(g, r2) := G (f <$> o) r1 in ((fun t => g (f t)), r2)) s.
Proof.
  intros HF. unfold local.
  pose proof (HF (find_task id (sn_tasks s)) (sn_runtime s !! id)) as Hk. destruct (F _ _) as [f r1]. cbn in *.
  rewrite find_alter_same, lookup_partial_alter_eq by done. destruct (G _ _) as [g r2].
  unfold with_runtime, with_tasks. cbn. f_equal.
  - by rewrite partial_alter_partial_alter_eq.
  - by apply alter_alter_same.
Qed.

Lemma local_ext id F G s :
  (forall o r, (F o r).2 = (G o r).2 /\ forall t, (F o r).1 t = (G o r).1 t) -> local id F s = local id G s.
Proof.
  intros H. unfold local. destruct (H (find_task id (sn_tasks s)) (sn_runtime s !! id)) as [H2 H1].
  destruct (F _ _) as [f r], (G _ _) as [g r']. cbn in *. subst r'. f_equal. f_equal. by apply alter_ext.
Qed.

Lemma or_keep_assoc a b c : or_keep a (or_keep b c) = or_keep (or_keep a b) c.
Proof. by destruct a. Qed.

Lemma deactivate_twice sgs : map deactivate (map deactivate sgs) = map deactivate sgs.
Proof. rewrite map_map. by apply map_ext. Qed.

Lemma settled_twice status o : settled_runtime status (settled_runtime status o) = settled_runtime status o.
Proof.
  unfold settled_runtime. destruct (negb _); [done|]. destruct (transfers status); [done|].
  destruct o as [r|]; cbn; [|done]. unfold zero_runtime_activity. cbn. by rewrite deactivate_twice.
Qed.

Lemma progress_merge o n m s :
  p_id o = p_id n -> is_deleted_progress o = false -> is_deleted_progress n = false -> merge_progress o n = Some m ->
  apply_progress m s = apply_progress n (apply_progress o s) /\ p_id m = p_id n /\ is_deleted_progress m = false.
Proof.
  intros Hid Ho Hn Hm. unfold merge_progress in Hm. destruct (p_status o =? p_status n) eqn:Es; [|done].
  bool_hyps. injection Hm as <-. assert (forall x, is_deleted_progress (mk_progress (p_id n) (p_status n)
    (p_downloaded n) (p_total n) (or_keep (p_file_name n) (p_file_name o)) (or_keep (p_save_dir n) (p_save_dir o))
    (or_keep (p_url n) (p_url o)) (p_error n) (p_uploaded n) (p_seeding_status n)
    (p_seeding_message n) (p_seeding_time n) x) = false) as Hd by done.
  split_and!; [|done|done]. rewrite !apply_progress_local by done. cbn [p_id]. rewrite Hid.
  rewrite local_compose by apply keeps_id_progress. apply local_ext. intros t r. cbn. split.
  - by rewrite Es, settled_twice.
  - intros x. unfold progress_task. cbn. by rewrite !or_keep_assoc.
Qed.

Lemma progress_twice p s :
  is_deleted_progress p = false -> apply_progress p (apply_progress p s) = apply_progress p s.
Proof.
  intros Hd. rewrite !apply_progress_local by done. rewrite local_compose by apply keeps_id_progress.
  apply local_ext. intros t r. cbn. split; [apply settled_twice|]. intros x. unfold progress_task. cbn.
  by destruct (p_url p), (p_file_name p), (p_save_dir p).
Qed.

Lemma runtime_merge o n s :
  r_id o = r_id n -> r_segments n <> [] -> r_seq o <> 0 -> r_seq o < r_seq n ->
  apply_runtime n s = apply_runtime n (apply_runtime o s).
Proof.
  intros Hid Hsg Ho Hlt. assert ((r_seq o =? 0) = false) as Ho' by by apply Z.eqb_neq.
  assert ((r_seq n <=? r_seq o) = false) as Hlt' by (apply Z.leb_gt; lia).
  rewrite !apply_runtime_local, Hid, local_compose by apply keeps_id_runtime.
  apply local_ext. intros t r. split; [|done]. cbn. destruct t as [t|]; cbn; [|done].
  destruct (runtime_retained (t_status t)); cbn; [|by rewrite !orb_true_r]. rewrite !orb_false_r.
  assert (forall x, runtime_segments n x = r_segments n) as Hrs by (intros x; unfold runtime_segments; by destruct (r_segments n)).
  destruct (match r with Some p => negb (r_seq p =? 0) && (r_seq o <=? r_seq p) | None => false end) eqn:El; [done|].
  assert (match r with Some p => negb (r_seq p =? 0) && (r_seq n <=? r_seq p) | None => false end = false) as ->.
  { destruct r as [r|]; [|done]. apply andb_false_iff in El as [->|El]; [done|]. bool_hyps.
    rewrite (proj2 (Z.leb_gt (r_seq n) (r_seq r))) by lia. by rewrite andb_false_r. }
  destruct (transfers (t_status t)); cbn; rewrite Ho', Hlt'; cbn; by rewrite !Hrs.
Qed.

Lemma runtime_twice n s : apply_runtime n (apply_runtime n s) = apply_runtime n s.
Proof.
  rewrite !apply_runtime_local, local_compose by apply keeps_id_runtime.
  apply local_ext. intros t r. split; [|done]. cbn. destruct t as [t|]; cbn; [|done].
  destruct (runtime_retained (t_status t)); cbn; [|by rewrite !orb_true_r]. rewrite !orb_false_r.
  set (late := match r with Some p => negb (r_seq p =? 0) && (r_seq n <=? r_seq p) | None => false end).
  destruct late eqn:El; unfold late in *; [by rewrite El|].
  assert ((r_seq n <=? r_seq n) = true) as Hle by (apply Z.leb_le; lia).
  destruct (transfers (t_status t)); cbn; rewrite Hle, andb_true_r; destruct (r_seq n =? 0); cbn; try done;
    unfold runtime_segments; cbn; destruct (r_segments n); cbn; by rewrite ?deactivate_twice.
Qed.

Lemma segments_merge id t1 sg1 t2 sg2 s :
  apply_segments id t2 sg2 s = apply_segments id t2 sg2 (apply_segments id t1 sg1 s).
Proof.
  rewrite !apply_segments_local, local_compose by apply keeps_id_segments.
  apply local_ext. intros t r. split; [|done]. cbn. destruct t as [t|]; cbn; [|done].
  destruct (runtime_retained (t_status t)); cbn; [|done].
  by destruct r as [r|]; cbn; [destruct (r_seq r =? 0) eqn:E; cbn; rewrite E|].
Qed.

Lemma local_ignores_queue id F s : sn_queue_positions (local id F s) = sn_queue_positions s.
Proof. unfold local. by destruct (F _ _). Qed.

(** Events the daemon sends: tables sorted, increments without repetition. *)
Definition valid_event (e : DaemonEvent) : Prop :=
  match e with
  | SnapshotReplaced s => sorted_table (sn_queue_positions s)
  | TablesReloading tasks queue => tasks <> None \/ queue <> None
  | Engine (MQueuePositionsChanged ps) => sorted_table ps
  | Engine (MQueueOrderChanged _ added) => NoDup (map qe_task added)
  | _ => True
  end.

Definition sorted_snapshot (s : DaemonSnapshot) : Prop := sorted_table (sn_queue_positions s).
Definition strict_snapshot (s : DaemonSnapshot) : Prop := strict_table (sn_queue_positions s).

Lemma valid_keeps_sorted e s : valid_event e -> sorted_snapshot s -> sorted_snapshot (apply_daemon_event e s).
Proof.
  intros Hv Hs. unfold sorted_snapshot in *.
  assert (sorted_table []) as Hnil by constructor.
  destruct (daemon_touch e) as [|ids| |k] eqn:Et.
  - destruct (event_ignores_queue e ltac:(by rewrite Et) ltac:(by rewrite Et) s [] None) as (_ & -> & _). done.
  - destruct (event_ignores_queue e ltac:(by rewrite Et) ltac:(by rewrite Et) s [] None) as (_ & -> & _). done.
  - destruct e; try discriminate; cbn in *; [done| |].
    + destruct tasks; [|done]. by destruct queue.
    + destruct m; try discriminate; cbn in Et.
      * by destruct (is_deleted_progress p).
      * done.
  - apply keyed_view_spec in Et. destruct Et; cbn [apply_daemon_event apply_engine_message].
    + by rewrite apply_progress_local, local_ignores_queue by done.
    + by rewrite apply_runtime_local, local_ignores_queue.
    + by rewrite apply_segments_local, local_ignores_queue.
    + done.
    + done.
    + by apply apply_sorted.
    + by destruct q.
Qed.

(** The laws the queue relies on.  Merging yields the same effect as the two
    events one after the other, under the same key. *)
Lemma merge_keyed k e l m :
  keyed_view k e -> keyed_view k l -> merge e l = Some m -> valid_event e -> valid_event l ->
  keyed_view k m /\ valid_event m.
Proof.
  intros He Hl Hm Hve Hvl. destruct He; inversion Hl; subst; cbn in Hm; try discriminate.
  - destruct (merge_progress p p0) as [q|] eqn:E; [|done]. injection Hm as <-.
    assert (p_id q = p_id p0 /\ is_deleted_progress q = false) as [Hq Hd].
    { unfold merge_progress in E. destruct (_ =? _); [|done]. by injection E as <-. }
    split; [|done]. rewrite <-Hq. by constructor.
  - destruct (_ && _); [|done]. injection Hm as <-. split; [constructor|done].
  - injection Hm as <-. split; [constructor|done].
  - injection Hm as <-. split; [constructor|done].
  - injection Hm as <-. split; [constructor|done].
  - injection Hm as <-. split; [constructor|]. by apply apply_sorted.
  - injection Hm as <-. split; [constructor|done].
  - injection Hm as <-. split; [constructor|done].
  - injection Hm as <-. split; [constructor|]. by apply (composed_NoDup []).
  - injection Hm as <-. split; [constructor|done].
  - injection Hm as <-. split; [constructor|done].
Qed.

Lemma merge_law k e l m s :
  keyed_view k e -> keyed_view k l -> merge e l = Some m -> valid_event e -> valid_event l ->
  sorted_snapshot s -> strict_snapshot (apply_daemon_event l (apply_daemon_event e s)) ->
  apply_daemon_event m s = apply_daemon_event l (apply_daemon_event e s).
Proof.
  intros He Hl Hm Hve Hvl Hs Hst. destruct He; inversion Hl; subst; cbn in Hm; try discriminate.
  - destruct (merge_progress p p0) as [q|] eqn:E; [|done]. injection Hm as <-.
    by apply progress_merge.
  - destruct (_ && _) eqn:E; [|done]. injection Hm as <-. bool_hyps. cbn. by apply runtime_merge.
  - injection Hm as <-. cbn. by apply segments_merge.
  - by injection Hm as <-.
  - by injection Hm as <-.
  - by injection Hm as <-.
  - destruct q as [n|]; [|by destruct Hvl]. by injection Hm as <-.
  - by injection Hm as <-.
  - injection Hm as <-. cbn in *. unfold with_queue. cbn. f_equal. by apply compose_correct.
  - destruct q as [n|]; [|by destruct Hvl]. by injection Hm as <-.
  - destruct q0 as [n|]; [|by destruct Hvl]. injection Hm as <-. cbn. by destruct q.
Qed.

(** A coalesced event applied twice is applied once. *)
Lemma keyed_twice k e s :
  keyed_view k e -> valid_event e -> sorted_snapshot s -> strict_snapshot (apply_daemon_event e s) ->
  apply_daemon_event e (apply_daemon_event e s) = apply_daemon_event e s.
Proof.
  intros He Hv Hs Hst. destruct He; cbn.
  - by apply progress_twice.
  - apply runtime_twice.
  - symmetry. apply segments_merge.
  - done.
  - done.
  - unfold with_queue. cbn. f_equal. by apply apply_twice.
  - by destruct q.
Qed.

(** ** The log of a queue

    What is pushed, as sequence numbers and events, against what the consumer
    has received and will receive. *)
Notation entry := (Z * DaemonEvent)%type.

Definition run_events (s : DaemonSnapshot) (l : list entry) : DaemonSnapshot :=
  foldl (fun s x => apply_daemon_event x.2 s) s l.

Definition upto (c : Z) (l : list entry) : list entry := filter (fun x => x.1 <= c) l.
Definition after (c : Z) (l : list entry) : list entry := filter (fun x => c < x.1) l.

Lemma run_app s l1 l2 : run_events s (l1 ++ l2) = run_events (run_events s l1) l2.
Proof. apply foldl_app. Qed.

Lemma run_snoc s l x : run_events s (l ++ [x]) = apply_daemon_event x.2 (run_events s l).
Proof. by rewrite run_app. Qed.

Lemma run_sorted s l :
  Forall (fun x => valid_event x.2) l -> sorted_snapshot s -> sorted_snapshot (run_events s l).
Proof.
  revert s. induction l as [|x l IH]; intros s Hv Hs; cbn; [done|]. inversion Hv; subst.
  apply IH; [done|]. by apply valid_keeps_sorted.
Qed.

Lemma run_commute k e s l :
  keyed_view k e -> Forall (fun x => independent k x.2) l ->
  run_events (apply_daemon_event e s) l = apply_daemon_event e (run_events s l).
Proof.
  intros He%keyed_view_spec. revert s. induction l as [|x l IH]; intros s Hi; cbn; [done|]. inversion Hi; subst.
  rewrite (commute k) by done. by apply IH.
Qed.

Lemma after_app c l1 l2 : after c (l1 ++ l2) = after c l1 ++ after c l2.
Proof. apply filter_app. Qed.

Lemma after_in c (x : entry) l : c < x.1 -> after c (x :: l) = x :: after c l.
Proof. intros. unfold after. by rewrite filter_cons_True. Qed.

Lemma after_out c (x : entry) l : ~ c < x.1 -> after c (x :: l) = after c l.
Proof. intros. unfold after. by rewrite filter_cons_False. Qed.

Lemma after_nil c l : Forall (fun x => x.1 <= c) l -> after c l = [].
Proof.
  intros HF. apply elem_of_nil_inv. intros x [Hx Hin]%list_elem_of_filter.
  rewrite Forall_forall in HF. specialize (HF x Hin). lia.
Qed.

Lemma after_all c l : Forall (fun x => c < x.1) l -> after c l = l.
Proof.
  induction 1 as [|x l Hx HF IH]; [done|]. unfold after. by rewrite filter_cons_True by done; f_equal.
Qed.

Lemma upto_all c l : Forall (fun x => x.1 <= c) l -> upto c l = l.
Proof.
  induction 1 as [|x l Hx HF IH]; [done|]. unfold upto. by rewrite filter_cons_True by done; f_equal.
Qed.

Lemma Forall_after (P : entry -> Prop) c l : Forall P l -> Forall P (after c l).
Proof. intros HF. apply Forall_forall. intros x [_ Hx]%list_elem_of_filter. rewrite Forall_forall in HF. by apply HF. Qed.

Lemma Forall_upto (P : entry -> Prop) c l : Forall P l -> Forall P (upto c l).
Proof. intros HF. apply Forall_forall. intros x [_ Hx]%list_elem_of_filter. rewrite Forall_forall in HF. by apply HF. Qed.

(** A coalesced event that nothing after it interferes with is settled: it
    would change nothing if it were applied again. *)
Definition settled (l : list entry) (s : DaemonSnapshot) : Prop :=
  forall a x b k, l = a ++ x :: b -> keyed_view k x.2 -> Forall (fun y => independent k y.2) b ->
    apply_daemon_event x.2 s = s.

Record log_ok (s0 : DaemonSnapshot) (hist log : list entry) : Prop := {
  lo_start : sorted_snapshot s0;
  lo_inc : increasing (map fst log);
  lo_sub : forall x, x ∈ log -> x.1 ∈ map fst hist;
  lo_valid_hist : Forall (fun x => valid_event x.2) hist;
  lo_valid : Forall (fun x => valid_event x.2) log;
  lo_agree : forall c, run_events (run_events s0 (upto c hist)) (after c log) = run_events s0 hist;
  lo_settled : settled log (run_events s0 hist)
}.

(** A frame that may follow [hist]. *)
Definition admissible (s0 : DaemonSnapshot) (hist : list entry) (x : entry) : Prop :=
  valid_event x.2 /\ (forall y, y ∈ map fst hist -> y < x.1) /\
  strict_snapshot (run_events s0 (hist ++ [x])).

Lemma log_empty s0 : sorted_snapshot s0 -> log_ok s0 [] [].
Proof.
  intros Hs. constructor; try done; try constructor; [set_solver|].
  intros a x b k H. by destruct a.
Qed.

Lemma log_inc_snoc (hist log : list entry) (x : entry) :
  increasing (map fst log) -> (forall y, y ∈ log -> y.1 ∈ map fst hist) ->
  (forall y, y ∈ map fst hist -> y < x.1) -> increasing (map fst (log ++ [x])).
Proof.
  intros Hi Hsub Hx. rewrite map_app. apply StronglySorted_app_2; [|done|repeat constructor].
  intros a b (y & -> & Hy)%list_elem_of_fmap ->%list_elem_of_singleton. cbn. by apply Hx, Hsub.
Qed.

Lemma upto_snoc_skip c (hist : list entry) (x : entry) : c < x.1 -> upto c (hist ++ [x]) = upto c hist.
Proof.
  intros Hc. unfold upto. rewrite filter_app, filter_cons_False; [by rewrite app_nil_r|]. cbn. lia.
Qed.

Lemma log_below (hist log : list entry) (x : entry) :
  (forall y, y ∈ log -> y.1 ∈ map fst hist) -> (forall y, y ∈ map fst hist -> y < x.1) ->
  Forall (fun y => y.1 <= x.1) (log ++ [x]).
Proof.
  intros Hsub Hx. apply Forall_app. split; [|by repeat constructor].
  apply Forall_forall. intros y Hy. specialize (Hx _ (Hsub y Hy)). lia.
Qed.

(** From the moment of [x] on, every client is up to date. *)
Lemma agree_late s0 (hist log : list entry) (x : entry) c :
  (forall y, y ∈ map fst hist -> y < x.1) -> Forall (fun y => y.1 <= x.1) log -> x.1 <= c ->
  run_events (run_events s0 (upto c (hist ++ [x]))) (after c log) = run_events s0 (hist ++ [x]).
Proof.
  intros Hx Hl Hc. rewrite after_nil by (eapply Forall_impl; [exact Hl|]; cbn; lia).
  rewrite upto_all; [done|]. apply Forall_app. split; [|by repeat constructor].
  apply Forall_forall. intros y Hy. assert (y.1 < x.1); [|lia]. apply Hx. by apply list_elem_of_fmap_2.
Qed.

(** A frame enters without a merge. *)
Lemma log_push s0 (hist log : list entry) (x : entry) :
  log_ok s0 hist log -> admissible s0 hist x -> log_ok s0 (hist ++ [x]) (log ++ [x]).
Proof.
  intros [] (Hv & Hseq & Hst). pose proof (log_below _ _ _ lo_sub0 Hseq) as Hbelow.
  assert (sorted_snapshot (run_events s0 hist)) as Hsort by by apply run_sorted.
  constructor.
  - done.
  - by apply (log_inc_snoc hist).
  - intros y Hy. rewrite map_app. apply elem_of_app in Hy as [Hy|Hy]; [set_solver|].
    apply list_elem_of_singleton in Hy as ->. set_solver.
  - apply Forall_app. by repeat constructor.
  - apply Forall_app. by repeat constructor.
  - intros c. destruct (Z.le_gt_cases x.1 c) as [Hc|Hc]; [by apply agree_late|].
    rewrite upto_snoc_skip, after_app, run_app, lo_agree0 by lia.
    unfold after. rewrite filter_cons_True by done. by rewrite run_snoc.
  - rewrite run_snoc in *. intros a y b k Hl Hk Hb.
    destruct (decide (b = [])) as [->|Hne].
    + apply app_inj_tail in Hl as [-> ->]. by eapply keyed_twice.
    + destruct b as [|z b'] using rev_ind; [done|]. clear IHb'.
      rewrite app_comm_cons, app_assoc in Hl. apply app_inj_tail in Hl as [-> ->].
      apply Forall_app in Hb as [Hb Hz]. inversion Hz; subst.
      rewrite <-(commute k) by (done || by apply keyed_view_spec). f_equal. by eapply lo_settled0.
Qed.

Lemma independent_same_key k k' e m :
  keyed_view k e -> keyed_view k m -> independent k' e <-> independent k' m.
Proof. intros He%keyed_view_spec Hm%keyed_view_spec. unfold independent. by rewrite He, Hm. Qed.

Lemma increasing_remove (a b : list Z) x : increasing (a ++ x :: b) -> increasing (a ++ b).
Proof.
  intros Hi. apply StronglySorted_app in Hi as (Hc & Ha & Hb). apply StronglySorted_cons in Hb as [_ Hb].
  apply StronglySorted_app_2; [|done|done]. intros y z Hy Hz. apply Hc; set_solver.
Qed.

(** The state after the merged event, when the merged frame was already
    applied and when it was not. *)
Lemma merged_on_state s0 hist A x B l m k :
  log_ok s0 hist (A ++ x :: B) -> keyed_view k x.2 -> Forall (fun y => independent k y.2) B ->
  keyed_view k l.2 -> merge x.2 l.2 = Some m -> admissible s0 hist l ->
  apply_daemon_event m (run_events s0 hist) = apply_daemon_event l.2 (run_events s0 hist).
Proof.
  intros [] Hk HB Hl Hm (Hv & _ & Hst). rewrite run_snoc in Hst.
  pose proof (lo_settled0 A x B k eq_refl Hk HB) as He.
  apply Forall_app in lo_valid0 as [_ Hvx]. inversion Hvx; subst.
  rewrite (merge_law k x.2 l.2 m) by (rewrite ?He; done || by apply run_sorted). by rewrite He.
Qed.

Lemma merged_keeps_settled s0 hist A x B l m k :
  log_ok s0 hist (A ++ x :: B) -> keyed_view k x.2 -> Forall (fun y => independent k y.2) B ->
  keyed_view k l.2 -> merge x.2 l.2 = Some m -> admissible s0 hist l ->
  settled (A ++ B ++ [(l.1, m)]) (run_events s0 (hist ++ [l])).
Proof.
  intros Hlog Hk HB Hl Hm Hadm. pose proof (merged_on_state _ _ _ _ _ _ _ _ Hlog Hk HB Hl Hm Hadm) as Hms.
  destruct Hlog. destruct Hadm as (Hv & Hseq & Hst). rewrite run_snoc in *.
  apply Forall_app in lo_valid0 as [HvA HvxB]. inversion HvxB as [|? ? Hvx HvB]; subst.
  destruct (merge_keyed k x.2 l.2 m Hk Hl Hm Hvx Hv) as [Hkm Hvm].
  rewrite <-Hms in Hst |- *. intros a y b k' Hsplit Hky Hb.
  destruct (decide (b = [])) as [->|Hne].
  { rewrite app_assoc in Hsplit. apply app_inj_tail in Hsplit as [_ <-]. cbn in *.
    eapply keyed_twice; try done. by apply run_sorted. }
  destruct b as [|z b'] using rev_ind; [done|]. clear IHb'.
  rewrite app_assoc, app_comm_cons, (app_assoc a) in Hsplit. apply app_inj_tail in Hsplit as [Hsplit <-].
  apply Forall_app in Hb as [Hb Hz]. inversion Hz as [|? ? Him _]; subst. cbn in Him.
  rewrite <-(commute k') by (done || by apply keyed_view_spec). f_equal.
  assert (independent k' x.2) as Hix by by apply (independent_same_key k k' x.2 m).
  apply app_eq_app in Hsplit as (c & [[-> Hc]|[-> Hc]]).
  - destruct c as [|y' c]; cbn in Hc.
    + subst B. rewrite app_nil_r in *. apply (lo_settled0 (a ++ [x]) y b' k'); [by rewrite <-app_assoc|done|done].
    + injection Hc as <- ->. apply (lo_settled0 a y (c ++ x :: B) k'); [by rewrite <-app_assoc|done|].
      apply Forall_app in Hb as [? ?]. apply Forall_app. split; [done|]. by constructor.
  - subst B. apply (lo_settled0 (A ++ x :: c) y b' k'); [by rewrite <-app_assoc|done|done].
Qed.

(** A frame takes the place of the earlier one it supersedes. *)
Lemma log_merge s0 hist A x B l m k :
  log_ok s0 hist (A ++ x :: B) -> keyed_view k x.2 -> Forall (fun y => independent k y.2) B ->
  keyed_view k l.2 -> merge x.2 l.2 = Some m -> admissible s0 hist l ->
  log_ok s0 (hist ++ [l]) (A ++ B ++ [(l.1, m)]).
Proof.
  intros Hlog Hk HB Hl Hm Hadm. pose proof (merged_on_state _ _ _ _ _ _ _ _ Hlog Hk HB Hl Hm Hadm) as Hms.
  pose proof (merged_keeps_settled _ _ _ _ _ _ _ _ Hlog Hk HB Hl Hm Hadm) as Hset.
  destruct Hlog. destruct Hadm as (Hv & Hseq & Hst).
  pose proof lo_valid0 as HvL. apply Forall_app in HvL as [HvA HvxB]. inversion HvxB as [|? ? Hvx HvB]; subst.
  destruct (merge_keyed k x.2 l.2 m Hk Hl Hm Hvx Hv) as [Hkm Hvm].
  assert (forall y, y ∈ A ++ B -> y.1 ∈ map fst hist) as Hsub by (intros y Hy; apply lo_sub0; set_solver).
  assert (increasing (map fst (A ++ B))) as Hinc.
  { rewrite map_app in *. cbn in lo_inc0. by eapply increasing_remove. }
  pose proof (log_below _ _ l Hsub Hseq) as Hbelow.
  constructor; [done| | | | | |done].
  - rewrite app_assoc. by apply (log_inc_snoc hist (A ++ B) (l.1, m)).
  - intros y Hy. rewrite map_app, app_assoc in *. apply elem_of_app in Hy as [Hy|Hy]; [set_solver|].
    apply list_elem_of_singleton in Hy as ->. set_solver.
  - apply Forall_app. by repeat constructor.
  - rewrite !Forall_app. by repeat constructor.
  - intros c. destruct (Z.le_gt_cases l.1 c) as [Hc|Hc].
    { apply agree_late; [done| |done]. rewrite app_assoc. apply Forall_app in Hbelow as [? _].
      apply Forall_app. split; [done|]. by repeat constructor. }
    rewrite upto_snoc_skip, run_snoc by lia. specialize (lo_agree0 c).
    rewrite !after_app, !run_app in *. rewrite (after_in c (l.1, m)) by done.
    rewrite <-Hms. cbn [run_events foldl snd fst]. set (X := run_events (run_events s0 (upto c hist)) (after c A)) in *.
    destruct (decide (c < x.1)) as [Hx|Hx].
    + rewrite after_in in lo_agree0 by done.
      change (run_events X (x :: after c B)) with (run_events (apply_daemon_event x.2 X) (after c B)) in lo_agree0.
      rewrite (run_commute k) in lo_agree0 by (done || by apply Forall_after).
      rewrite Hms, <-lo_agree0. eapply merge_law; try done.
      * do 3 (apply run_sorted; [by repeat (apply Forall_after || apply Forall_upto)|]). done.
      * rewrite lo_agree0. exact Hst.
    + rewrite after_out in lo_agree0 by done.
      by rewrite lo_agree0.
Qed.

(** ** The bookkeeping of the queue *)

Record queue_ok (q : FrameQueue) : Prop := {
  qo_key : forall j f k, q_slots q !! j = Some (Some f) -> daemon_touch (f_event f) = TKeyed k ->
    (q_head q + j < q_barrier q)%nat \/ exists i, q_keys q !! k = Some i /\ (q_head q + j <= i)%nat;
  qo_task : forall j f task, q_slots q !! j = Some (Some f) -> touches_task (f_event f) task ->
    (q_head q + j < q_barrier q)%nat \/ exists i, q_touched q !! task = Some i /\ (q_head q + j <= i)%nat;
  qo_all : forall j f, q_slots q !! j = Some (Some f) -> daemon_touch (f_event f) = TAll ->
    (q_head q + j < q_barrier q)%nat;
  qo_slot : forall k i, q_keys q !! k = Some i -> (q_head q <= i)%nat ->
    exists f, q_slots q !! (i - q_head q)%nat = Some (Some f) /\ daemon_touch (f_event f) = TKeyed k;
  qo_live : q_live q = length (pending q)
}.

Lemma new_queue_ok : queue_ok new_queue.
Proof. by constructor. Qed.

Lemma merge_into_spec q k f slots live f' :
  queue_ok q -> merge_into q k f = (slots, live, f') ->
  (slots = q_slots q /\ live = q_live q /\ f' = f) \/
  exists A e B m, q_slots q = A ++ Some e :: B /\ slots = A ++ None :: B /\ live = (q_live q - 1)%nat /\
    merge (f_event e) (f_event f) = Some m /\ f' = frame_with_event f m /\
    daemon_touch (f_event e) = TKeyed k /\ mergeable q k = Some (q_head q + length A)%nat.
Proof.
  intros Hq. unfold merge_into. destruct (mergeable q k) as [i|] eqn:Em; [|intros [= <- <- <-]; by left].
  destruct (q_slots q !! (i - q_head q)%nat) as [[e|]|] eqn:Es; try (intros [= <- <- <-]; by left).
  destruct (merge (f_event e) (f_event f)) as [m|] eqn:Eme; intros [= <- <- <-]; [|by left]. right.
  pose proof Em as Em'. unfold mergeable in Em'. destruct (q_keys q !! k) as [i'|] eqn:Ek; [|done].
  destruct ((i' <? q_head q)%nat || (i' <? q_barrier q)%nat) eqn:El; [done|].
  apply orb_false_elim in El as [Hh%Nat.ltb_ge _].
  assert (i' = i) as -> by (destruct (key_task k); [case_decide; congruence|congruence]).
  destruct (qo_slot q Hq k i Ek Hh) as (e' & He' & Hte). rewrite Es in He'. injection He' as <-.
  pose proof (lookup_lt_Some _ _ _ Es) as Hlt.
  exists (take (i - q_head q) (q_slots q)), e, (drop (S (i - q_head q)) (q_slots q)), m.
  rewrite length_take, Nat.min_l by lia. replace (q_head q + (i - q_head q))%nat with i by lia.
  split_and!; try done.
  - by rewrite take_drop_middle.
  - by rewrite insert_take_drop by done.
Qed.

(** Nothing behind a mergeable frame interferes with it. *)
Lemma mergeable_independent q k A e B :
  queue_ok q -> q_slots q = A ++ Some e :: B -> mergeable q k = Some (q_head q + length A)%nat ->
  Forall (fun f => independent k (f_event f)) (omap id B).
Proof.
  intros Hq Hs Hm. apply Forall_forall. intros g (o & Ho & Hg)%list_elem_of_omap. cbn in Hg. subst o.
  apply list_elem_of_lookup in Ho as [j Hj].
  assert (q_slots q !! (length A + S j)%nat = Some (Some g)) as Hgj.
  { rewrite Hs, lookup_app_r, Nat.add_comm, Nat.add_sub by lia. exact Hj. }
  unfold mergeable in Hm. destruct (q_keys q !! k) as [i|] eqn:Ek; [|done].
  destruct ((i <? q_head q)%nat || (i <? q_barrier q)%nat) eqn:El; [done|].
  apply orb_false_elim in El as [Hh%Nat.ltb_ge Hb%Nat.ltb_ge].
  assert (i = (q_head q + length A)%nat /\
    forall task, key_task k = Some task -> q_touched q !! task = Some i) as [-> Ht].
  { destruct (key_task k); [case_decide|]; [|done|]; split; congruence. }
  assert (forall task, key_task k = Some task -> ~ touches_task (f_event g) task) as Hno.
  { intros task Hk Hg. destruct (qo_task q Hq _ _ _ Hgj Hg) as [?|(i' & Hi' & ?)]; [lia|].
    rewrite (Ht task Hk) in Hi'. injection Hi' as <-. lia. }
  unfold independent. destruct (daemon_touch (f_event g)) as [|ids| |k'] eqn:Et.
  - done.
  - intros task Hk Hin. apply (Hno task Hk). unfold touches_task. by rewrite Et.
  - pose proof (qo_all q Hq _ _ Hgj Et). lia.
  - split.
    + intros ->. destruct (qo_key q Hq _ _ _ Hgj Et) as [?|(i' & Hi' & ?)]; [lia|].
      rewrite Ek in Hi'. injection Hi' as <-. lia.
    + intros task Hk Hk'. apply (Hno task Hk). unfold touches_task. by rewrite Et.
Qed.

Lemma snoc_lookup {A} (l : list A) (x y : A) j :
  (l ++ [x]) !! j = Some y -> (l !! j = Some y /\ (j < length l)%nat) \/ (j = length l /\ x = y).
Proof.
  intros H. destruct (Nat.lt_ge_cases j (length l)).
  - rewrite lookup_app_l in H by done. by left.
  - rewrite lookup_app_r in H by done. right. destruct (j - length l)%nat eqn:E; cbn in H; [|done].
    split; [lia|congruence].
Qed.

Lemma foldl_insert_const (ids : list text) (m : gmap text nat) v id :
  foldl (fun m id => <[id := v]> m) m ids !! id = if decide (id ∈ ids) then Some v else m !! id.
Proof.
  revert m. induction ids as [|x ids IH]; intros m; cbn; [done|]. rewrite IH.
  destruct (decide (id = x)) as [->|].
  - rewrite lookup_insert_eq. repeat case_decide; set_solver.
  - rewrite lookup_insert_ne by done. repeat case_decide; set_solver.
Qed.

Lemma pending_snoc (slots : list (option EventFrame)) (f : EventFrame) : omap id (slots ++ [Some f]) = omap id slots ++ [f].
Proof. by rewrite omap_app. Qed.

Lemma pending_merged (A B : list (option EventFrame)) e :
  omap id (A ++ Some e :: B) = omap id A ++ e :: omap id B /\ omap id (A ++ None :: B) = omap id A ++ omap id B.
Proof. by rewrite !omap_app. Qed.

(** The keyed case: [slots] is the queue's with at most the slot of [k]
    emptied. *)
Lemma push_keyed_ok q k f slots live f' ff :
  queue_ok q -> daemon_touch (f_event f') = TKeyed k -> merge_into q k f = (slots, live, f') ->
  let index := (q_head q + length (q_slots q))%nat in
  queue_ok (mk_queue (slots ++ [Some f']) (q_head q) (<[k := index]> (q_keys q))
    (match key_task k with Some task => <[task := index]> (q_touched q) | None => q_touched q end)
    (q_barrier q) (S live) (q_last_sent q) ff).
Proof.
  intros Hq Ht Hm index. apply merge_into_spec in Hm as Hspec; [|done].
  assert (length slots = length (q_slots q) /\
    (forall j g, slots !! j = Some (Some g) -> q_slots q !! j = Some (Some g)) /\
    (forall j g, q_slots q !! j = Some (Some g) -> daemon_touch (f_event g) <> TKeyed k -> slots !! j = Some (Some g)) /\
    live = length (omap id slots)) as (Hlen & Hsub & Hkeep & Hlive).
  { destruct Hspec as [(-> & -> & _)|(A & e & B & m & HA & -> & -> & _ & _ & He & _)].
    - split_and!; try done. apply (qo_live q Hq).
    - rewrite HA, (qo_live q Hq). unfold pending. rewrite HA. destruct (pending_merged A B e) as [-> ->].
      split_and!; [by rewrite !length_app| | |rewrite !length_app; cbn; lia].
      + intros j g Hj. apply lookup_app_Some in Hj as [Hj|[Hge Hj]]; apply lookup_app_Some; [by left|right].
        split; [done|]. destruct (j - length A)%nat; [done|exact Hj].
      + intros j g Hj Hg. apply lookup_app_Some in Hj as [Hj|[Hge Hj]]; apply lookup_app_Some; [by left|right].
        split; [done|]. destruct (j - length A)%nat; [|exact Hj]. cbn in Hj. congruence. }
  constructor; cbn [q_slots q_head q_keys q_touched q_barrier q_live].
  - intros j g k' Hj Hg. apply snoc_lookup in Hj as [[Hj Hlt]|[-> [= ->]]].
    + destruct (qo_key q Hq j g k' (Hsub j g Hj) Hg) as [?|(i & Hi & ?)]; [by left|right].
      destruct (decide (k' = k)) as [->|]; [exists index; rewrite lookup_insert_eq; split; [done|unfold index; lia]|].
      exists i. by rewrite lookup_insert_ne.
    + right. assert (k' = k) as -> by congruence. exists index. rewrite lookup_insert_eq. split; [done|unfold index; lia].
  - intros j g task Hj Hg. apply snoc_lookup in Hj as [[Hj Hlt]|[-> [= ->]]].
    + destruct (qo_task q Hq j g task (Hsub j g Hj) Hg) as [?|(i & Hi & ?)]; [by left|right].
      destruct (key_task k) as [t|]; [|by exists i]. destruct (decide (task = t)) as [->|].
      * exists index. rewrite lookup_insert_eq. split; [done|unfold index; lia].
      * exists i. by rewrite lookup_insert_ne.
    + right. unfold touches_task in Hg. rewrite Ht in Hg. rewrite Hg. exists index. rewrite lookup_insert_eq.
      split; [done|unfold index; lia].
  - intros j g Hj Hg. apply snoc_lookup in Hj as [[Hj Hlt]|[-> [= ->]]]; [|congruence].
    by apply (qo_all q Hq j g (Hsub j g Hj)).
  - intros k' i Hk' Hi. destruct (decide (k' = k)) as [->|].
    + rewrite lookup_insert_eq in Hk'. injection Hk' as <-. exists f'. split; [|done].
      rewrite lookup_app_r by (unfold index; lia). by replace (index - q_head q - length slots)%nat with 0%nat by (unfold index; lia).
    + rewrite lookup_insert_ne in Hk' by done. destruct (qo_slot q Hq k' i Hk' Hi) as (g & Hg & Hgk).
      exists g. split; [|done]. assert (slots !! (i - q_head q)%nat = Some (Some g)) as Hs by (apply Hkeep; [done|congruence]).
      rewrite lookup_app_l by (by eapply lookup_lt_Some). done.
  - unfold pending. cbn [q_slots]. rewrite pending_snoc, length_app, Hlive. cbn. lia.
Qed.

Lemma queue_push_plain q f ff keys touched barrier :
  queue_ok q ->
  let index := (q_head q + length (q_slots q))%nat in
  match daemon_touch (f_event f) with
  | TNone => keys = q_keys q /\ touched = q_touched q /\ barrier = q_barrier q
  | TTasks ids => keys = q_keys q /\ barrier = q_barrier q /\
      touched = foldl (fun m id => <[id := index]> m) (q_touched q) ids
  | TAll => keys = ∅ /\ touched = ∅ /\ barrier = S index
  | TKeyed _ => False
  end ->
  queue_ok (mk_queue (q_slots q ++ [Some f]) (q_head q) keys touched barrier (S (q_live q)) (q_last_sent q) ff).
Proof.
  intros Hq index Ht.
  assert (S (q_live q) = length (pending (mk_queue (q_slots q ++ [Some f]) (q_head q) keys touched barrier
    (S (q_live q)) (q_last_sent q) ff))) as Hlive.
  { unfold pending. cbn. rewrite pending_snoc, length_app, (qo_live q Hq). unfold pending. cbn. lia. }
  constructor; cbn [q_slots q_head q_keys q_touched q_barrier q_live]; [| | | |exact Hlive].
  - intros j g k Hj Hg. apply snoc_lookup in Hj as [[Hj Hlt]|[-> [= <-]]]; [|by rewrite Hg in Ht].
    destruct (qo_key q Hq j g k Hj Hg) as [?|?]; destruct (daemon_touch (f_event f)); destruct_and?; subst; auto; try done; left; unfold index; lia.
  - intros j g task Hj Hg. apply snoc_lookup in Hj as [[Hj Hlt]|[-> [= <-]]].
    + destruct (qo_task q Hq j g task Hj Hg) as [Hb|(i & Hi & Hle)];
        destruct (daemon_touch (f_event f)); destruct_and?; subst; auto; try done; try (left; unfold index; lia).
      * right. by exists i.
      * right. rewrite foldl_insert_const. case_decide; [exists index; split; [done|unfold index; lia]|by exists i].
    + unfold touches_task in Hg. destruct (daemon_touch (f_event f)); destruct_and?; subst; try done.
      * right. exists index. rewrite foldl_insert_const, decide_True by done. split; [done|unfold index; lia].
      * left. unfold index. lia.
  - intros j g Hj Hg. apply snoc_lookup in Hj as [[Hj Hlt]|[-> [= <-]]].
    + pose proof (qo_all q Hq j g Hj Hg). destruct (daemon_touch (f_event f)); destruct_and?; subst; try done. unfold index; lia.
    + rewrite Hg in Ht. destruct_and?; subst. unfold index; lia.
  - intros k i Hi Hle. destruct (daemon_touch (f_event f)); destruct_and?; subst; try done;
      destruct (qo_slot q Hq k i Hi Hle) as (g & Hg & Hk); exists g; (split; [|done]);
      rewrite lookup_app_l by (by eapply lookup_lt_Some); done.
Qed.

(** What a push does to the frames that wait. *)
Definition pushed_frames (q : FrameQueue) (f : EventFrame) (after_push : list EventFrame) : Prop :=
  after_push = pending q ++ [f] \/
  exists k A e B m, pending q = A ++ e :: B /\ after_push = A ++ B ++ [frame_with_event f m] /\
    keyed_view k (f_event e) /\ keyed_view k (f_event f) /\ merge (f_event e) (f_event f) = Some m /\
    Forall (fun g => independent k (f_event g)) B.

Lemma push_spec q f :
  queue_ok q -> Forall (fun g => valid_event (f_event g)) (pending q) -> valid_event (f_event f) ->
  queue_ok (push q f) /\ pushed_frames q f (pending (push q f)) /\
  q_last_sent (push q f) = q_last_sent q /\
  q_first_from (push q f) = match q_first_from q, q_last_sent q with
                            | None, None => Some (covers_from f) | o, _ => o end.
Proof.
  intros Hq Hvs Hv. unfold push.
  assert (forall keys touched barrier live last ff, pending (mk_queue (q_slots q ++ [Some f]) (q_head q) keys touched
    barrier live last ff) = pending q ++ [f]) as Hp by (intros; apply pending_snoc).
  pose proof (queue_push_plain q f) as Hplain.
  destruct (daemon_touch (f_event f)) as [|ids| |k] eqn:Et.
  - split_and!; [by apply Hplain|left; apply Hp|done|done].
  - split_and!; [by apply Hplain|left; apply Hp|done|done].
  - split_and!; [by apply Hplain|left; apply Hp|done|done].
  - destruct (merge_into q k f) as [[slots live] f'] eqn:Em. cbn [q_last_sent q_first_from].
    apply merge_into_spec in Em as Hs; [|done].
    destruct Hs as [(-> & -> & ->)|(A & e & B & m & HA & -> & -> & Hm & -> & He & Hmg)].
    + split_and!; [eapply push_keyed_ok; eassumption|left; apply Hp|done|done].
    + assert (pending q = omap id A ++ e :: omap id B) as Hpe by (unfold pending; by rewrite HA, (proj1 (pending_merged A B e))).
      rewrite Hpe in Hvs. apply Forall_app in Hvs as [_ Hvs]. inversion Hvs; subst.
      apply keyed_view_spec in He, Et. destruct (merge_keyed k _ _ m He Et Hm) as [Hk _]; [done|done|].
      split_and!; [refine (push_keyed_ok q k f _ _ _ _ Hq _ Em); by apply keyed_view_spec| |done|done].
      right. exists k, (omap id A), e, (omap id B), m. split_and!; try done.
      * unfold pending. cbn [q_slots]. rewrite pending_snoc, (proj2 (pending_merged A B e)). by rewrite <-app_assoc.
      * by eapply mergeable_independent.
Qed.

Lemma pop_slot_spec slots head o rest h :
  pop_slot slots head = (o, rest, h) ->
  match o with
  | Some f => exists n, slots = replicate n None ++ Some f :: rest /\ h = (head + S n)%nat
  | None => slots = replicate (length slots) None /\ rest = [] /\ h = (head + length slots)%nat
  end.
Proof.
  revert head. induction slots as [|[f|] slots IH]; intros head; cbn.
  - intros [= <- <- <-]. split_and!; [done|done|lia].
  - intros [= <- <- <-]. exists 0%nat. split; [done|lia].
  - intros H. specialize (IH _ H). destruct o as [g|].
    + destruct IH as (n & -> & ->). exists (S n). split; [done|lia].
    + destruct IH as (Hs & -> & ->). split_and!; [by rewrite <-Hs|done|lia].
Qed.

Lemma pending_replicate n : omap id (replicate n (@None EventFrame)) = [].
Proof. by induction n. Qed.

(** Slots leave the queue at the front. *)
Lemma queue_drop_ok q gone rest live last ff :
  queue_ok q -> q_slots q = gone ++ rest -> live = length (omap id rest) ->
  queue_ok (mk_queue rest (q_head q + length gone) (q_keys q) (q_touched q) (q_barrier q) live last ff).
Proof.
  intros Hq Hs Hl.
  assert (forall j g, rest !! j = Some g -> q_slots q !! (length gone + j)%nat = Some g) as Hup.
  { intros j g Hj. rewrite Hs, lookup_app_r by lia. by replace (length gone + j - length gone)%nat with j by lia. }
  constructor; cbn [q_slots q_head q_keys q_touched q_barrier q_live]; [| | | |exact Hl].
  - intros j f k Hj Hk. rewrite <-Nat.add_assoc. apply (qo_key q Hq _ f); auto.
  - intros j f task Hj Ht. rewrite <-Nat.add_assoc. apply (qo_task q Hq _ f); auto.
  - intros j f Hj Ht. rewrite <-Nat.add_assoc. apply (qo_all q Hq _ f); auto.
  - intros k i Hi Hle. destruct (qo_slot q Hq k i Hi ltac:(lia)) as (f & Hf & Hk). exists f. split; [|done].
    rewrite Hs, lookup_app_r in Hf by lia. by replace (i - (q_head q + length gone))%nat with (i - q_head q - length gone)%nat by lia.
Qed.

Lemma queue_reset_ok h barrier live last ff :
  live = 0%nat -> queue_ok (mk_queue [] h ∅ ∅ barrier live last ff).
Proof. intros ->. constructor; cbn; done. Qed.

(** The start of the interval of the next frame. *)
Definition next_from (q : FrameQueue) : option Z :=
  match q_last_sent q with Some n => Some n | None => q_first_from q end.

Lemma pop_spec q o q' :
  queue_ok q -> pop q = (o, q') ->
  queue_ok q' /\ q_first_from q' = q_first_from q /\
  match o with
  | None => pending q = [] /\ pending q' = [] /\ q_last_sent q' = q_last_sent q
  | Some f' => exists f, pending q = f :: pending q' /\ q_last_sent q' = Some (f_sequence f) /\
      f_epoch f' = f_epoch f /\ f_sequence f' = f_sequence f /\ f_event f' = f_event f /\
      covers_from f' = default (covers_from f) (next_from q)
  end.
Proof.
  intros Hq. unfold pop. destruct (pop_slot (q_slots q) (q_head q)) as [[o' rest] h] eqn:Ep.
  apply pop_slot_spec in Ep. destruct o' as [f|].
  - destruct Ep as (n & Hs & ->). intros [= <- <-].
    assert (pending q = f :: omap id rest) as Hp.
    { unfold pending. rewrite Hs, omap_app, pending_replicate. done. }
    assert (q_live q - 1 = length (omap id rest))%nat as Hl by (rewrite (qo_live q Hq), Hp; cbn; lia).
    assert (q_head q + S n = q_head q + length (replicate n (@None EventFrame) ++ [Some f]))%nat as Hh.
    { rewrite length_app, length_replicate. cbn. lia. }
    assert (covers_from (mk_frame (f_epoch f) (f_sequence f)
      (if match q_last_sent q with Some n => n | None => default (covers_from f) (q_first_from q) end =?
          sat_sub_u64 (f_sequence f) 1 then None
       else Some match q_last_sent q with Some n => n | None => default (covers_from f) (q_first_from q) end)
      (f_event f)) = default (covers_from f) (next_from q)) as Hc.
    { unfold covers_from at 1, next_from. cbn [f_previous f_sequence].
      set (p := match q_last_sent q with Some n => n | None => default (covers_from f) (q_first_from q) end).
      assert (p = default (covers_from f) match q_last_sent q with Some n0 => Some n0 | None => q_first_from q end) as <-
        by (unfold p; by destruct (q_last_sent q)).
      destruct (p =? _) eqn:E; cbn; [|done]. bool_hyps. done. }
    destruct (q_live q - 1 =? 0)%nat eqn:E0.
    + apply Nat.eqb_eq in E0. split_and!; [by apply queue_reset_ok|done|].
      exists f. split_and!; try done. rewrite Hp. rewrite E0 in Hl. by destruct (omap id rest).
    + split_and!; [|done|by exists f].
      rewrite Hh. eapply queue_drop_ok; [done| |done]. by rewrite <-app_assoc.
  - destruct Ep as (Hs & -> & ->). intros [= <- <-].
    assert (pending q = []) as Hp by (unfold pending; rewrite Hs; apply pending_replicate).
    split_and!; try done. eapply queue_drop_ok; [done|by rewrite app_nil_r|]. by rewrite (qo_live q Hq), Hp.
Qed.

(** ** A subscription *)

Definition core (f : EventFrame) : entry := (f_sequence f, f_event f).

(** A subscriber's queue over time: the frames pushed, the frames sent, the
    queue. *)
Inductive session (epoch : text) (s0 : DaemonSnapshot) : list EventFrame -> list EventFrame -> FrameQueue -> Prop :=
| session_new : session epoch s0 [] [] new_queue
| session_push hist out q f :
    session epoch s0 hist out q -> f_epoch f = epoch -> admissible s0 (map core hist) (core f) ->
    session epoch s0 (hist ++ [f]) out (push q f)
| session_pop hist out q f q' :
    session epoch s0 hist out q -> pop q = (Some f, q') -> session epoch s0 hist (out ++ [f]) q'
| session_idle hist out q q' :
    session epoch s0 hist out q -> pop q = (None, q') -> session epoch s0 hist out q'.

(** The consumer: [Accept] applies the event and moves the cursor, [Skip]
    drops the frame, [Resync] gives up. *)
Fixpoint consume (epoch : text) (cursor : Z) (s : DaemonSnapshot) (frames : list EventFrame)
    : option (Z * DaemonSnapshot) :=
  match frames with
  | [] => Some (cursor, s)
  | f :: frames =>
      match judge_frame epoch cursor f with
      | Accept => consume epoch (f_sequence f) (apply_daemon_event (f_event f) s) frames
      | Skip => consume epoch cursor s frames
      | Resync => None
      end
  end.

(** Each frame covers what lies between its predecessor and itself. *)
Fixpoint chained (from : Z) (frames : list EventFrame) : Prop :=
  match frames with
  | [] => True
  | f :: frames => covers_from f = from /\ chained (f_sequence f) frames
  end.

Definition chain_end (from : Z) (frames : list EventFrame) : Z :=
  default from (f_sequence <$> last frames).

Lemma chain_end_cons from f fs : chain_end from (f :: fs) = chain_end (f_sequence f) fs.
Proof. unfold chain_end. rewrite last_cons. by destruct (last fs). Qed.

Lemma chain_end_snoc from fs f : chain_end from (fs ++ [f]) = f_sequence f.
Proof. unfold chain_end. by rewrite last_snoc. Qed.

Lemma chained_snoc from fs f :
  chained from fs -> covers_from f = chain_end from fs -> chained from (fs ++ [f]).
Proof.
  revert from. induction fs as [|g fs IH]; intros from.
  { intros _ Hf. by split. }
  intros [Hg Hfs] Hf. split; [done|]. apply IH; [done|]. by rewrite chain_end_cons in Hf.
Qed.

(** A consumer that a chain reaches never asks for a new snapshot. *)
Lemma consume_chain epoch from frames cursor s :
  chained from frames -> from <= cursor -> Forall (fun f => f_epoch f = epoch) frames ->
  increasing (map fst (map core frames)) ->
  consume epoch cursor s frames =
    Some (Z.max cursor (chain_end from frames), run_events s (after cursor (map core frames))).
Proof.
  revert from cursor s. induction frames as [|f fs IH]; intros from cursor s Hc Hle He Hi.
  - cbn in *. unfold chain_end. cbn. by rewrite Z.max_l by lia.
  - destruct Hc as [Hcf Hc]. inversion He; subst. cbn [map fst core] in Hi.
    apply StronglySorted_cons in Hi as [Hlt Hi].
    assert (f_sequence f <= chain_end (f_sequence f) fs) as Hend'.
    { unfold chain_end. destruct (last fs) as [g|] eqn:El; cbn; [|lia].
      apply last_Some_elem_of in El. rewrite Forall_forall in Hlt.
      assert (f_sequence f < f_sequence g); [|lia]. apply Hlt. apply list_elem_of_fmap.
      exists (core g). split; [done|]. by apply list_elem_of_fmap_2. }
    cbn [consume]. unfold judge_frame. rewrite decide_False by tauto. rewrite chain_end_cons.
    destruct (f_sequence f <=? cursor) eqn:E; bool_hyps.
    + rewrite (IH (f_sequence f)) by done. cbn [map]. by rewrite after_out by (cbn; lia).
    + rewrite (proj2 (Z.leb_le _ _) Hle). rewrite (IH (f_sequence f)) by (done || lia).
      cbn [map]. rewrite after_in by (cbn; lia). rewrite !Z.max_r by lia. do 2 f_equal.
      cbn [run_events foldl core snd]. unfold run_events. f_equal.
      rewrite !after_all; [done| |]; (apply Forall_forall; intros x Hx; rewrite Forall_forall in Hlt;
        assert (f_sequence f < x.1); [|cbn in *; lia]; apply Hlt; by apply list_elem_of_fmap_2).
Qed.

(** What holds of a session at any time. *)
Record session_ok (epoch : text) (s0 : DaemonSnapshot) (hist out : list EventFrame) (q : FrameQueue) : Prop := {
  so_queue : queue_ok q;
  so_log : log_ok s0 (map core hist) (map core (out ++ pending q));
  so_epoch : Forall (fun f => f_epoch f = epoch) (out ++ pending q);
  so_last : f_sequence <$> last (out ++ pending q) = f_sequence <$> last hist;
  so_next : match hist with
            | [] => next_from q = None
            | f0 :: _ => chained (covers_from f0) out /\ next_from q = Some (chain_end (covers_from f0) out)
            end
}.

Lemma pushed_log s0 hist out q f fs :
  log_ok s0 hist (map core (out ++ pending q)) -> pushed_frames q f fs -> admissible s0 hist (core f) ->
  log_ok s0 (hist ++ [core f]) (map core (out ++ fs)).
Proof.
  intros Hlog [->|(k & A & e & B & m & Hp & -> & He & Hf & Hm & Hi)] Hadm.
  - rewrite app_assoc, map_app. by apply log_push.
  - rewrite Hp, !map_app in Hlog. cbn [map] in Hlog. rewrite app_assoc in Hlog.
    rewrite !map_app. rewrite app_assoc. refine (log_merge s0 hist _ (core e) _ (core f) m k Hlog He _ Hf Hm Hadm).
    by apply Stdlib.Lists.List.Forall_map.
Qed.

Lemma pushed_epochs epoch q f fs :
  Forall (fun f => f_epoch f = epoch) (pending q) -> pushed_frames q f fs -> f_epoch f = epoch ->
  Forall (fun f => f_epoch f = epoch) fs.
Proof.
  intros Hq [->|(k & A & e & B & m & Hp & -> & _)] Hf.
  - apply Forall_app. by repeat constructor.
  - rewrite Hp in Hq. apply Forall_app in Hq as [? Hq]. inversion Hq; subst. rewrite !Forall_app. by repeat constructor.
Qed.

Lemma pushed_last q f fs : pushed_frames q f fs -> forall out, f_sequence <$> last (out ++ fs) = Some (f_sequence f).
Proof.
  intros [->|(k & A & e & B & m & Hp & -> & _)] out; rewrite !app_assoc, last_snoc; done.
Qed.

Lemma session_invariant epoch s0 hist out q :
  sorted_snapshot s0 -> session epoch s0 hist out q -> session_ok epoch s0 hist out q.
Proof.
  intros Hs0. induction 1 as [|hist out q f Hsess [] He Hadm|hist out q f q' Hsess [] Hpop|hist out q q' Hsess [] Hpop].
  - constructor; [apply new_queue_ok|by apply log_empty|constructor|done|done].
  - pose proof (lo_valid _ _ _ so_log0) as Hv. rewrite map_app in Hv. apply Forall_app in Hv as [_ Hv].
    rewrite Stdlib.Lists.List.Forall_map in Hv.
    destruct (push_spec q f so_queue0 Hv) as (Hq & Hp & Hlast & Hfirst); [apply Hadm|].
    apply Forall_app in so_epoch0 as [Ho Hpe].
    constructor.
    + done.
    + rewrite map_app. by eapply pushed_log.
    + apply Forall_app. split; [done|]. by eapply pushed_epochs.
    + by rewrite (pushed_last q f), last_snoc.
    + unfold next_from in *. rewrite Hlast, Hfirst. destruct hist as [|f0 hist]; cbn [app].
      * destruct (q_last_sent q), (q_first_from q); try done.
        assert (out = []) as ->; [|done].
        destruct out as [|g out]; [done|]. pose proof (lo_sub _ _ _ so_log0 (core g)) as Hin.
        cbn in Hin. exfalso. set_solver.
      * destruct so_next0 as [Hc Hn]. split; [done|]. by destruct (q_last_sent q), (q_first_from q).
  - destruct (pop_spec q (Some f) q' so_queue0 Hpop) as (Hq & Hff & g & Hp & Hls & Hge & Hgs & Hgv & Hcf).
    assert (core f = core g) as Hcore by (unfold core; congruence).
    assert (map core ((out ++ [f]) ++ pending q') = map core (out ++ pending q)) as Heq.
    { rewrite Hp, <-app_assoc, !map_app. cbn. by rewrite Hcore. }
    constructor.
    + done.
    + by rewrite Heq.
    + rewrite Hp in so_epoch0. rewrite <-app_assoc. rewrite !Forall_app in *. rewrite Forall_cons in *.
      rewrite Hge. destruct_and!. by repeat constructor.
    + rewrite <-so_last0, Hp. rewrite <-app_assoc. cbn. rewrite !last_app, !last_cons.
      destruct (last (pending q')); [done|]. cbn. by rewrite Hgs.
    + destruct hist as [|f0 hist].
      * exfalso. pose proof (lo_sub _ _ _ so_log0 (core g)) as Hin. rewrite Hp, map_app in Hin. cbn in Hin. set_solver.
      * destruct so_next0 as [Hc Hn]. split.
        -- apply chained_snoc; [done|]. by rewrite Hcf, Hn.
        -- unfold next_from. by rewrite Hls, chain_end_snoc, Hgs.
  - destruct (pop_spec q None q' so_queue0 Hpop) as (Hq & Hff & Hp & Hp' & Hls).
    rewrite Hp in *. constructor; rewrite ?Hp'; try done.
    unfold next_from in *. by rewrite Hls, Hff.
Qed.

(** What a client of the session sees. *)
Lemma session_client (epoch : text) (s0 : DaemonSnapshot) (f0 : EventFrame) (hist out : list EventFrame)
    (q : FrameQueue) (cursor : Z) :
  sorted_snapshot s0 -> session epoch s0 (f0 :: hist) out q -> covers_from f0 <= cursor ->
  let pushed := map core (f0 :: hist) in
  exists s, consume epoch cursor (run_events s0 (upto cursor pushed)) out
              = Some (Z.max cursor (chain_end (covers_from f0) out), s) /\
    run_events s (after cursor (map core (pending q))) = run_events s0 pushed /\
    (pending q = [] -> s = run_events s0 pushed /\ Some (chain_end (covers_from f0) out) = f_sequence <$> last (f0 :: hist)).
Proof.
  intros Hs0 Hsess Hc pushed. destruct (session_invariant _ _ _ _ _ Hs0 Hsess) as [Hq Hlog He Hlast [Hch Hn]].
  destruct Hlog as [_ Hinc Hsub _ _ Hagree _]. specialize (Hagree cursor). rewrite map_app, after_app, run_app in Hagree.
  exists (run_events (run_events s0 (upto cursor pushed)) (after cursor (map core out))).
  assert (increasing (map fst (map core out))) as Hinc'.
  { rewrite map_app, map_app in Hinc. by apply StronglySorted_app in Hinc as (_ & ? & _). }
  split_and!.
  - apply consume_chain; try done. by apply Forall_app in He as [? _].
  - exact Hagree.
  - intros Hp. rewrite Hp in *. rewrite app_nil_r in Hlast. split; [exact Hagree|].
    rewrite <-Hlast. unfold chain_end. destruct (last out); [done|]. by rewrite last_cons in Hlast; destruct (last hist).
Qed.

(** ** Properties *)

(** A client may take its snapshot at any moment [cursor] the stream
    covers and then read the frames the queue sends, however the pushes, the
    merges and the sends interleave: no frame makes it ask for a new snapshot;
    what it has plus what still waits is the state after every pushed event;
    and once nothing waits its state is exactly that, with the cursor at the
    last pushed frame (or where the snapshot was, if that is later). *)
Theorem coalescing_invisible (epoch : text) (s0 : DaemonSnapshot) (f0 : EventFrame) (hist out : list EventFrame)
    (q : FrameQueue) (cursor : Z) :
  sorted_snapshot s0 -> session epoch s0 (f0 :: hist) out q -> covers_from f0 <= cursor ->
  let pushed := map core (f0 :: hist) in
  exists s, consume epoch cursor (run_events s0 (upto cursor pushed)) out
              = Some (Z.max cursor (chain_end (covers_from f0) out), s) /\
    run_events s (after cursor (map core (pending q))) = run_events s0 pushed /\
    (pending q = [] -> s = run_events s0 pushed /\ Some (chain_end (covers_from f0) out) = f_sequence <$> last (f0 :: hist)).
Proof. apply session_client. Qed.

(** Merging loses nothing: where [merge] puts two events into one, the one
    event has the effect of the two in order, keeps their key, and stays an
    event the daemon may send. *)
Theorem merge_is_sequential (k : Key) (earlier later merged : DaemonEvent) (s : DaemonSnapshot) :
  daemon_touch earlier = TKeyed k -> daemon_touch later = TKeyed k -> merge earlier later = Some merged ->
  valid_event earlier -> valid_event later -> sorted_snapshot s ->
  strict_snapshot (apply_daemon_event later (apply_daemon_event earlier s)) ->
  apply_daemon_event merged s = apply_daemon_event later (apply_daemon_event earlier s) /\
  daemon_touch merged = TKeyed k /\ valid_event merged.
Proof.
  intros He%keyed_view_spec Hl%keyed_view_spec Hm Hve Hvl Hs Hst.
  destruct (merge_keyed k _ _ _ He Hl Hm Hve Hvl) as [Hk Hv]. split_and!; [|by apply keyed_view_spec|done].
  by eapply merge_law.
Qed.

(** What [touch] declares untouched may be reordered: a coalescible event
    and an event that does not touch it reach the same state in either order. *)
Theorem independent_events_commute (k : Key) (keyed other : DaemonEvent) (s : DaemonSnapshot) :
  daemon_touch keyed = TKeyed k -> independent k other ->
  apply_daemon_event other (apply_daemon_event keyed s) = apply_daemon_event keyed (apply_daemon_event other s).
Proof. intros Hk Hi. by apply (commute k). Qed.

(** ** Witnesses *)
Definition sample_task (id : text) : TaskDto :=
  mk_task id [] [] [] 1 0 100 [] [] false [] 0 0 [] 0 [].

Definition sample_stats : DaemonRuntimeStatsDto := mk_stats 1 0 10 0 None [] 0.

Definition sample_snapshot : DaemonSnapshot :=
  mk_snapshot ∅ [sample_task (lit "a")] None None [] sample_stats [] [] (mk_config 0 ∅) [] ∅ [] [] [] [] [].

Definition sample_progress (name : text) (downloaded : Z) : DaemonEvent :=
  Engine (MTaskProgress (mk_progress (lit "a") 1 downloaded 100 name [] [] [] 0 0 [] 0 [])).

Definition sample_frame (n : Z) (e : DaemonEvent) : EventFrame := mk_frame (lit "e") n None e.

(** Three frames wait, the third supersedes the first. *)
Definition sample_queue : FrameQueue :=
  push (push (push new_queue (sample_frame 1 (sample_progress (lit "f") 10)))
          (sample_frame 2 (RuntimeStatsChanged sample_stats)))
    (sample_frame 3 (sample_progress [] 20)).

Definition sample_history : list EventFrame :=
  [sample_frame 1 (sample_progress (lit "f") 10); sample_frame 2 (RuntimeStatsChanged sample_stats);
   sample_frame 3 (sample_progress [] 20)].

Definition sample_sent : list EventFrame :=
  let '(a, q) := pop sample_queue in let '(b, _) := pop q in omap id [a; b].

Definition drained_queue : FrameQueue := (pop (pop sample_queue).2).2.

Ltac concrete_admissible := split_and!; [exact I|cbn; set_solver by lia|apply SSorted_nil].

Lemma sample_session : session (lit "e") sample_snapshot sample_history sample_sent drained_queue.
Proof.
  apply (session_pop _ _ _ [_] (pop sample_queue).2 _ drained_queue); [|reflexivity].
  apply (session_pop _ _ _ [] sample_queue _ (pop sample_queue).2); [|reflexivity].
  apply (session_push _ _ [_; _]); [|reflexivity|concrete_admissible].
  apply (session_push _ _ [_]); [|reflexivity|concrete_admissible].
  apply (session_push _ _ []); [|reflexivity|concrete_admissible]. apply session_new.
Qed.

(** A snapshot taken after the first of three events. *)
Lemma coalescing_invisible_witness :
  exists s, consume (lit "e") 1 (run_events sample_snapshot (upto 1 (map core sample_history))) sample_sent = Some (3, s) /\
    s = run_events sample_snapshot (map core sample_history).
Proof.
  destruct (coalescing_invisible (lit "e") sample_snapshot (sample_frame 1 (sample_progress (lit "f") 10))
    [sample_frame 2 (RuntimeStatsChanged sample_stats); sample_frame 3 (sample_progress [] 20)] sample_sent drained_queue 1)
    as (s & Hc & _ & Hd).
  - constructor.
  - exact sample_session.
  - vm_compute. discriminate.
  - exists s. split; [exact Hc|]. apply Hd. reflexivity.
Defined.

Lemma merge_is_sequential_witness :
  apply_daemon_event (sample_progress (lit "f") 20) sample_snapshot =
  apply_daemon_event (sample_progress [] 20) (apply_daemon_event (sample_progress (lit "f") 10) sample_snapshot).
Proof.
  apply (merge_is_sequential (KProgress (lit "a")) (sample_progress (lit "f") 10) (sample_progress [] 20)
    (sample_progress (lit "f") 20) sample_snapshot); try reflexivity; try exact I; constructor.
Defined.

Lemma independent_events_commute_witness :
  apply_daemon_event (RuntimeStatsChanged sample_stats) (apply_daemon_event (sample_progress (lit "f") 10) sample_snapshot) =
  apply_daemon_event (sample_progress (lit "f") 10) (apply_daemon_event (RuntimeStatsChanged sample_stats) sample_snapshot).
Proof.
  apply (independent_events_commute (KProgress (lit "a"))); [reflexivity|]. cbn. split; [discriminate|]. discriminate.
Defined.
