(* ===== verification/TableSync.v ===== *)
(** * TableSync: loading the tables of a snapshot page by page
      ([native/protocol/src/table_sync.rs], and the page functions of
      [DaemonSnapshot] in [native/protocol/src/event.rs]).

    A snapshot travels without its task and queue tables; a client asks for
    them page by page while the server goes on changing, keeps the frames that
    arrive meanwhile, and replays them on the tables it has put together.  The
    rows of such a table come from different moments.  The main theorem: after
    the replay the tables are those of the server. *)
From Stdlib Require Import Ascii.
From S2P Require Import Prelude Text QueueOrder Projection Coalesce.

(** ** Pages of the snapshot *)

Definition task_id_le (a b : TaskDto) : Prop := text_le (t_id a) (t_id b).

#[global] Instance task_id_le_dec a b : Decision (task_id_le a b).
Proof. unfold task_id_le. apply _. Defined.
#[global] Instance task_id_le_total : Total task_id_le.
Proof. intros a b. apply (total text_le). Qed.
#[global] Instance task_id_le_trans : Transitive task_id_le.
Proof. intros a b c. apply (transitivity (R := text_le)). Qed.

Definition sort_tasks : list TaskDto -> list TaskDto := merge_sort task_id_le.

(** [task_id > cursor] *)
Definition beyond (cursor : option text) (id : text) : Prop :=
  match cursor with Some c => ~ text_le id c | None => True end.

#[global] Instance beyond_dec cursor id : Decision (beyond cursor id).
Proof. destruct cursor; cbn; apply _. Defined.

(** The [limit] smallest of the rest, sorted. *)
Definition task_page (s : DaemonSnapshot) (cursor : option text) (limit : nat) : list TaskDto * option text :=
  let limit := Nat.max limit 1 in
  let rest := filter (fun t => beyond cursor (t_id t)) (sn_tasks s) in
  let more := (limit <? length rest)%nat in
  let page := sort_tasks (if more then take limit (sort_tasks rest) else rest) in
  (page, if more then t_id <$> last page else None).

(** The length of the longest prefix on which [p] holds. *)
Fixpoint prefix_len {A} (p : A -> bool) (l : list A) : nat :=
  match l with
  | x :: l => if p x then S (prefix_len p l) else 0%nat
  | [] => 0%nat
  end.

(** The entries after [cursor], and those that share the last one's key. *)
Definition queue_page (s : DaemonSnapshot) (cursor : option Z) (limit : nat)
    : list QueueOrderEntry * option text :=
  let start := match cursor with
               | Some c => prefix_len (fun p => qp_order p <=? c) (sn_queue_positions s)
               | None => 0%nat
               end in
  let rest := drop start (sn_queue_positions s) in
  let stop := Nat.min (Nat.max limit 1) (length rest) in
  let stop := match rest !! pred stop with
              | Some p => (stop + prefix_len (fun q => (qp_order q =? qp_order p)%Z) (drop stop rest))%nat
              | None => stop
              end in
  let page := take stop rest in
  (map (fun p => mk_qentry (qp_task p) (qp_order p)) page,
   if (stop <? length rest)%nat then (fun p => show_int (qp_order p)) <$> last page else None).

Definition install_tasks (ts : list TaskDto) (s : DaemonSnapshot) : DaemonSnapshot :=
  settle_task_table (with_task_total (with_tasks s ts) None).

(** By key, then by task. *)
Definition entry_le (a b : QueueOrderEntry) : Prop :=
  qe_order a < qe_order b \/ qe_order a = qe_order b /\ text_le (qe_task a) (qe_task b).

#[global] Instance entry_le_dec a b : Decision (entry_le a b).
Proof. unfold entry_le. apply _. Defined.

Definition install_queue (entries : list QueueOrderEntry) (s : DaemonSnapshot) : DaemonSnapshot :=
  with_queue s (imap (fun i e => mk_pos (qe_task e) (position_of i) (qe_order e)) (merge_sort entry_le entries)) None.

Definition tables_loading (s : DaemonSnapshot) : bool :=
  bool_decide (is_Some (sn_task_total s)) || bool_decide (is_Some (sn_queue_total s)).

(** ** The wire form of events *)

Definition TABLE_INLINE_LIMIT : Z := 2000.

Definition into_wire (e : DaemonEvent) : DaemonEvent :=
  match e with
  | SnapshotReplaced s => SnapshotReplaced (paged_header s)
  | Engine (MTasksSnapshot tasks) =>
      if TABLE_INLINE_LIMIT <? Z.of_nat (length tasks)
      then TablesReloading (Some (Z.min (Z.of_nat (length tasks)) u64_max)) None else e
  | Engine (MQueuePositionsChanged positions) =>
      if TABLE_INLINE_LIMIT <? Z.of_nat (length positions)
      then TablesReloading None (Some (Z.min (Z.of_nat (length positions)) u64_max)) else e
  | _ => e
  end.

Definition reloads_tables (e : DaemonEvent) : bool :=
  match e with
  | SnapshotReplaced s => tables_loading s
  | TablesReloading tasks queue => bool_decide (is_Some tasks) || bool_decide (is_Some queue)
  | _ => false
  end.

(** ** Requests and pages *)

Definition TASK_PAGE_DEFAULT_LIMIT : Z := 2000.
Definition TASK_PAGE_MAX_LIMIT : Z := 5000.
Definition TABLE_SYNC_BACKLOG_LIMIT : Z := 65536.

Inductive TableSection := TasksSection | QueueSection.

#[global] Instance table_section_dec : EqDecision TableSection.
Proof. solve_decision. Defined.

Record TablePageParams := mk_params { pp_section : TableSection; pp_cursor : option text; pp_limit : option Z }.

Record TablePage := mk_page {
  pg_epoch : text; pg_sequence : Z; pg_section : TableSection; pg_total : Z;
  pg_tasks : list TaskDto; pg_queue : list QueueOrderEntry; pg_next : option text
}.

Inductive InvalidPageCursor := invalid_page_cursor.

Definition page_limit (p : TablePageParams) : nat :=
  Z.to_nat (clamp 1 TASK_PAGE_MAX_LIMIT (default TASK_PAGE_DEFAULT_LIMIT (pp_limit p))).

(** [TablePage::build] *)
Definition build (s : DaemonSnapshot) (epoch : text) (sequence : Z) (p : TablePageParams)
    : result TablePage InvalidPageCursor :=
  match pp_section p with
  | TasksSection =>
      let '(rows, next) := task_page s (pp_cursor p) (page_limit p) in
      Ok (mk_page epoch sequence TasksSection (Z.min (Z.of_nat (length (sn_tasks s))) u64_max) rows [] next)
  | QueueSection =>
      let answer cursor :=
        let '(rows, next) := queue_page s cursor (page_limit p) in
        Ok (mk_page epoch sequence QueueSection (Z.min (Z.of_nat (length (sn_queue_positions s))) u64_max) [] rows next) in
      match pp_cursor p with
      | None => answer None
      | Some c => match parse_i64 c with Some c => answer (Some c) | None => Err invalid_page_cursor end
      end
  end.

(** ** One round of loading *)

Inductive TableSyncError := EpochChanged | UnexpectedSection | Stalled | BacklogOverflow.

(** [Section<T>] *)
Record Rows (T : Type) := mk_rows { rw_wanted : bool; rw_done : bool; rw_cursor : option text; rw_rows : list T }.
Arguments mk_rows {T}.
Arguments rw_wanted {T}.
Arguments rw_done {T}.
Arguments rw_cursor {T}.
Arguments rw_rows {T}.

Definition new_rows {T} (total : option Z) : Rows T :=
  mk_rows (bool_decide (is_Some total)) (bool_decide (total = None)) None [].

(** [Section::accept] *)
Definition accept_rows {T} (r : Rows T) (rows : list T) (requested next : option text) : result (Rows T) TableSyncError :=
  if decide (is_Some next /\ next = requested) then Err Stalled
  else Ok (mk_rows (rw_wanted r) (bool_decide (next = None)) next (rw_rows r ++ rows)).

Record TableSync := mk_sync {
  ts_epoch : text; ts_base : Z; ts_tasks : Rows TaskDto; ts_queue : Rows QueueOrderEntry;
  ts_requested : option (TableSection * option text); ts_backlog : list EventFrame
}.

(** [TableSync::new] *)
Definition sync_new (epoch : text) (base : Z) (tasks queue : option Z) : option TableSync :=
  match tasks, queue with
  | None, None => None
  | _, _ => Some (mk_sync epoch base (new_rows tasks) (new_rows queue) None [])
  end.

Definition for_snapshot (epoch : text) (base : Z) (s : DaemonSnapshot) : option TableSync :=
  sync_new epoch base (sn_task_total s) (sn_queue_total s).

Definition next_request (t : TableSync) : option TablePageParams * TableSync :=
  let ask section cursor :=
    (Some (mk_params section cursor None),
     mk_sync (ts_epoch t) (ts_base t) (ts_tasks t) (ts_queue t) (Some (section, cursor)) (ts_backlog t)) in
  if rw_wanted (ts_tasks t) && negb (rw_done (ts_tasks t)) then ask TasksSection (rw_cursor (ts_tasks t))
  else if rw_wanted (ts_queue t) && negb (rw_done (ts_queue t)) then ask QueueSection (rw_cursor (ts_queue t))
  else (None, mk_sync (ts_epoch t) (ts_base t) (ts_tasks t) (ts_queue t) None (ts_backlog t)).

(** [TableSync::accept]; after an error the caller drops the round. *)
Definition accept_page (t : TableSync) (page : TablePage) : result TableSync TableSyncError :=
  if decide (pg_epoch page <> ts_epoch t) then Err EpochChanged
  else match ts_requested t with
       | None => Err UnexpectedSection
       | Some (section, cursor) =>
           if decide (pg_section page <> section) then Err UnexpectedSection
           else match section with
                | TasksSection =>
                    let? r := accept_rows (ts_tasks t) (pg_tasks page) cursor (pg_next page) in
                    Ok (mk_sync (ts_epoch t) (ts_base t) r (ts_queue t) None (ts_backlog t))
                | QueueSection =>
                    let? r := accept_rows (ts_queue t) (pg_queue page) cursor (pg_next page) in
                    Ok (mk_sync (ts_epoch t) (ts_base t) (ts_tasks t) r None (ts_backlog t))
                end
       end.

Definition push_frame (t : TableSync) (f : EventFrame) : result TableSync TableSyncError :=
  if TABLE_SYNC_BACKLOG_LIMIT <=? Z.of_nat (length (ts_backlog t)) then Err BacklogOverflow
  else Ok (mk_sync (ts_epoch t) (ts_base t) (ts_tasks t) (ts_queue t) (ts_requested t) (ts_backlog t ++ [f])).

Record LoadedTables := mk_loaded {
  lt_tasks : option (list TaskDto); lt_queue : option (list QueueOrderEntry); lt_backlog : list EventFrame
}.

Definition into_parts (t : TableSync) : LoadedTables :=
  mk_loaded (if rw_wanted (ts_tasks t) then Some (rw_rows (ts_tasks t)) else None)
    (if rw_wanted (ts_queue t) then Some (rw_rows (ts_queue t)) else None) (ts_backlog t).

(** [TableSync::finish]: the snapshot with its tables, and the frames to replay. *)
Definition finish (t : TableSync) (s : DaemonSnapshot) : DaemonSnapshot * list EventFrame :=
  let loaded := into_parts t in
  let s := match lt_tasks loaded with Some ts => install_tasks ts s | None => s end in
  let s := match lt_queue loaded with Some es => install_queue es s | None => s end in
  (s, lt_backlog loaded).

(** ** Rows and events

    An event changes a row to a fixed row, or writes fixed values into some of
    its fields: replaying a stretch of events on a row that already went
    through the beginning of the stretch ends in the same row. *)

Definition field_kept {A} (get : TaskDto -> A) (f : TaskDto -> TaskDto) : Prop :=
  (exists a, forall t, get (f t) = a) \/ (forall t, get (f t) = get t).

Record overwrites (f : TaskDto -> TaskDto) : Prop := {
  ow_id : field_kept t_id f; ow_url : field_kept t_url f; ow_name : field_kept t_file_name f;
  ow_dir : field_kept t_save_dir f; ow_status : field_kept t_status f; ow_down : field_kept t_downloaded f;
  ow_total : field_kept t_total f; ow_error : field_kept t_error f; ow_queue : field_kept t_queue_id f;
  ow_missing : field_kept t_file_missing f; ow_route : field_kept t_auto_route f; ow_up : field_kept t_uploaded f;
  ow_seed : field_kept t_seeding_status f; ow_message : field_kept t_seeding_message f;
  ow_time : field_kept t_seeding_time f; ow_other : field_kept t_other f
}.

Lemma field_kept_compose {A} (get : TaskDto -> A) f g :
  field_kept get f -> field_kept get g -> field_kept get (fun t => g (f t)).
Proof.
  intros [[a Ha]|Ha] [[b Hb]|Hb]; [left; eauto|left|left; eauto|right].
  - exists a. intros t. by rewrite Hb.
  - intros t. by rewrite Hb.
Qed.

Lemma field_kept_twice {A} (get : TaskDto -> A) f t : field_kept get f -> get (f (f t)) = get (f t).
Proof. intros [[a Ha]|Ha]; by rewrite !Ha. Qed.

Lemma overwrites_compose f g : overwrites f -> overwrites g -> overwrites (fun t => g (f t)).
Proof. intros [] []. constructor; by apply field_kept_compose. Qed.

Lemma task_ext (a b : TaskDto) :
  t_id a = t_id b -> t_url a = t_url b -> t_file_name a = t_file_name b -> t_save_dir a = t_save_dir b ->
  t_status a = t_status b -> t_downloaded a = t_downloaded b -> t_total a = t_total b -> t_error a = t_error b ->
  t_queue_id a = t_queue_id b -> t_file_missing a = t_file_missing b -> t_auto_route a = t_auto_route b ->
  t_uploaded a = t_uploaded b -> t_seeding_status a = t_seeding_status b ->
  t_seeding_message a = t_seeding_message b -> t_seeding_time a = t_seeding_time b -> t_other a = t_other b -> a = b.
Proof. destruct a, b; cbn. intros; by subst. Qed.

Lemma overwrites_twice f t : overwrites f -> f (f t) = f t.
Proof. intros []. apply task_ext; by apply field_kept_twice. Qed.

Inductive absolute (f : option TaskDto -> option TaskDto) : Prop :=
| absolute_const o : (forall x, f x = o) -> absolute f
| absolute_edit g : overwrites g -> (forall x, f x = g <$> x) -> absolute f.

Lemma absolute_compose f g : absolute f -> absolute g -> absolute (fun x => g (f x)).
Proof.
  intros [o Hf|u Hu Hf] [o' Hg|v Hv Hg].
  - by apply (absolute_const _ o').
  - apply (absolute_const _ (v <$> o)). intros x. by rewrite Hg, Hf.
  - by apply (absolute_const _ o').
  - apply (absolute_edit _ (fun t => v (u t))); [by apply overwrites_compose|]. intros x. rewrite Hg, Hf. by destruct x.
Qed.

Lemma absolute_twice f x : absolute f -> f (f x) = f x.
Proof.
  intros [o Hf|u Hu Hf]; rewrite !Hf; [done|]. destruct x; cbn; [|done]. by rewrite overwrites_twice.
Qed.

Lemma overwrites_id : overwrites (fun t => t).
Proof. constructor; by right. Qed.

Lemma absolute_id : absolute (fun x => x).
Proof. apply (absolute_edit _ (fun t => t)); [apply overwrites_id|]. by intros []. Qed.

Notation row id s := (find_task id (sn_tasks s)).

(** What an event does to the row of [id]. *)
Definition row_effect (h : DaemonSnapshot -> DaemonSnapshot) (id : text) : Prop :=
  exists f, absolute f /\ forall s, row id (h s) = f (row id s).

Lemma row_effect_ext h h' id :
  (forall s, row id (h' s) = row id (h s)) -> row_effect h id -> row_effect h' id.
Proof. intros Hext (f & Hf & H). exists f. split; [done|]. intros s. by rewrite Hext. Qed.

Lemma row_effect_same h id : (forall s, sn_tasks (h s) = sn_tasks s) -> row_effect h id.
Proof. intros H. exists (fun x => x). split; [apply absolute_id|]. intros s. by rewrite H. Qed.

Lemma row_effect_const h id o : (forall s, row id (h s) = o) -> row_effect h id.
Proof. intros H. exists (fun _ => o). split; [by eapply absolute_const|done]. Qed.

Lemma row_effect_compose h1 h2 id : row_effect h1 id -> row_effect h2 id -> row_effect (fun s => h2 (h1 s)) id.
Proof.
  intros (f & Hf & H1) (g & Hg & H2). exists (fun x => g (f x)). split; [by apply absolute_compose|].
  intros s. by rewrite H2, H1.
Qed.

Lemma row_effect_fold {A} (h : DaemonSnapshot -> A -> DaemonSnapshot) id l :
  (forall a, row_effect (fun s => h s a) id) -> row_effect (fun s => foldl h s l) id.
Proof.
  intros Hh. induction l as [|a l IH]; [by apply row_effect_same|]. cbn. by apply (row_effect_compose (fun s => h s a) (fun s => foldl h s l)).
Qed.

Lemma row_effect_edit id' f id :
  (forall t, t_id (f t) = t_id t) -> overwrites f -> row_effect (task_edit id' f) id.
Proof.
  intros Hid Hf. destruct (decide (id = id')) as [->|Hne].
  - exists (fmap f). split; [by apply (absolute_edit _ f)|]. intros s. by apply find_alter_same.
  - exists (fun x => x). split; [apply absolute_id|]. intros s. by apply find_alter_other.
Qed.

Lemma find_filter_out (Q : TaskDto -> Prop) `{!forall t, Decision (Q t)} id ts :
  (forall t, t_id t = id -> ~ Q t) -> find_task id (filter Q ts) = None.
Proof.
  intros HQ. induction ts as [|t ts IH]; [done|]. rewrite filter_cons.
  destruct (decide (Q t)) as [Ht|Ht]; [|done]. cbn. rewrite IH. rewrite decide_False; [done|]. intros Hid. by apply (HQ t).
Qed.

Lemma find_remove id id' ts : find_task id (remove_task id' ts) = if decide (id = id') then None else find_task id ts.
Proof.
  unfold remove_task. case_decide as Hd.
  - apply find_filter_out. intros t. rewrite Hd. tauto.
  - apply find_filter_in. by intros t ->.
Qed.

Lemma row_effect_delete h id' id :
  (forall s, sn_tasks (h s) = remove_task id' (sn_tasks s)) -> row_effect h id.
Proof.
  intros Hh. exists (if decide (id = id') then fun _ => None else fun x => x). split.
  - case_decide; [by apply (absolute_const _ None)|apply absolute_id].
  - intros s. rewrite Hh, find_remove. by case_decide.
Qed.

Lemma find_task_app id ts t :
  find_task id (ts ++ [t]) = if decide (t_id t = id) then Some t else find_task id ts.
Proof. induction ts as [|x ts IH]; cbn; [by case_decide|]. rewrite IH. by case_decide. Qed.

Lemma find_alter_const id t ts :
  t_id t = id -> is_Some (find_task id ts) ->
  forall id', find_task id' (alter_task id (fun _ => t) ts) = if decide (id' = id) then Some t else find_task id' ts.
Proof.
  intros Hid Hin id'. induction ts as [|x ts IH]; [by destruct Hin|]. cbn in *.
  destruct (find_task id ts) as [y|] eqn:E; cbn.
  - rewrite IH by eauto. case_decide; [done|]. done.
  - destruct (decide (t_id x = id)) as [Hx|Hx]; [|by destruct Hin]. cbn. rewrite Hid.
    destruct (decide (id' = id)) as [->|Hne]; [by rewrite E, decide_True|].
    rewrite !decide_False by congruence. done.
Qed.

Lemma row_effect_changed t id : row_effect (apply_task_changed t) id.
Proof.
  exists (if decide (id = t_id t) then fun _ => Some t else fun x => x). split.
  { case_decide; [by apply (absolute_const _ (Some t))|apply absolute_id]. }
  intros s. unfold apply_task_changed. cbn [sn_tasks settle_runtime with_runtime].
  destruct (find_task (t_id t) (sn_tasks s)) as [x|] eqn:E; cbn.
  - rewrite (find_alter_const (t_id t)) by (done || by rewrite E). by case_decide.
  - rewrite find_task_app. repeat case_decide; congruence.
Qed.

Lemma overwrites_or_keep (new : text) (get : TaskDto -> text) (f : TaskDto -> TaskDto) :
  (forall t, get (f t) = or_keep new (get t)) -> field_kept get f.
Proof. intros H. destruct new as [|c new]; [by right|]. left. exists (c :: new). intros t. by rewrite H. Qed.

(** A field that is copied, or set to a fixed value. *)
Ltac overwritten := try (right; reflexivity); try (left; eexists; intros t; cbn; reflexivity).

Lemma overwrites_progress p : overwrites (progress_task p).
Proof.
  constructor; overwritten; by eapply overwrites_or_keep.
Qed.

Lemma overwrites_meta name total : overwrites (task_with_meta name total).
Proof. constructor; overwritten; by eapply overwrites_or_keep. Qed.

(** The events a client may replay: those that do not replace its tables by
    reload marks. *)
Definition quiet (e : DaemonEvent) : Prop := reloads_tables (into_wire e) = false.

Lemma table_total_None {A} (l : list A) : table_total (length l) = None -> l = [].
Proof. unfold table_total. by destruct l. Qed.

Lemma not_loading s : tables_loading s = false -> sn_task_total s = None /\ sn_queue_total s = None.
Proof.
  unfold tables_loading. intros [H1 H2]%orb_false_elim. bool_hyps.
  split; by apply eq_None_not_Some.
Qed.

Lemma paged_header_still s :
  tables_loading (paged_header s) = false -> sn_tasks s = [] /\ sn_queue_positions s = [] /\ paged_header s = s.
Proof.
  intros [Ht Hq]%not_loading. cbn in *.
  destruct (table_total (length (sn_tasks s))) eqn:E1; [done|].
  destruct (table_total (length (sn_queue_positions s))) eqn:E2; [done|].
  apply table_total_None in E1, E2. split_and!; [done|done|].
  unfold paged_header. rewrite E1, E2. cbn. destruct s. cbn in *. by subst.
Qed.

Lemma quiet_wire e : quiet e -> into_wire e = e.
Proof.
  unfold quiet. destruct e; cbn; try done.
  - intros H. by destruct (paged_header_still s H) as (_ & _ & ->).
  - destruct m; cbn; try done; by case_match.
Qed.

Lemma quiet_not_reload tasks queue : quiet (TablesReloading tasks queue) -> tasks = None /\ queue = None.
Proof. unfold quiet. cbn. intros [H1 H2]%orb_false_elim. bool_hyps. by split; apply eq_None_not_Some. Qed.

(** The others leave a client's tables marked as loading. *)
Lemma reload_marks e s : reloads_tables (into_wire e) = true -> tables_loading (apply_daemon_event (into_wire e) s) = true.
Proof.
  destruct (into_wire e); cbn; try done. unfold tables_loading. cbn. destruct tasks, queue; cbn; rewrite ?orb_true_r; done.
Qed.

Lemma engine_row m id : quiet (Engine m) -> row_effect (apply_engine_message m) id.
Proof.
  intros Hq. destruct m; try (by apply row_effect_same).
  - apply (row_effect_ext (apply_progress p)); [done|]. unfold apply_progress. destruct (is_deleted_progress p).
    + by eapply (row_effect_delete _ (p_id p)).
    + apply (row_effect_compose (settle_runtime (p_id p) (p_status p)) (task_edit (p_id p) (progress_task p)));
        [by apply row_effect_same|]. apply row_effect_edit; [done|apply overwrites_progress].
  - by apply (row_effect_const _ _ (find_task id tasks)).
  - apply row_effect_same. intros s. cbn. unfold apply_segments.
    destruct (find_task id0 (sn_tasks s)); [|done]. by case_match.
  - apply row_effect_edit; [done|apply overwrites_meta].
  - apply row_effect_edit; [done|]. constructor; overwritten.
  - apply row_effect_edit; [done|]. constructor; overwritten.
  - apply (row_effect_fold (fun s u => set_file_missing s u)). intros u. apply row_effect_edit; [done|].
    constructor; overwritten.
Qed.

Lemma event_row e id : quiet e -> row_effect (apply_daemon_event e) id.
Proof.
  intros Hq. destruct e; try (by apply row_effect_same).
  - apply row_effect_same. intros s. cbn. unfold apply_runtime. by destruct (accepted_runtime_status s r).
  - by apply (row_effect_const _ _ (row id s)).
  - destruct (quiet_not_reload _ _ Hq) as [-> ->]. by apply row_effect_same.
  - by apply engine_row.
  - apply row_effect_changed.
  - apply (row_effect_fold (fun s t => apply_task_changed t s)). intros t. apply row_effect_changed.
  - by eapply (row_effect_delete _ id0).
  - exists (if decide (id ∈ ids) then fun _ => None else fun x => x). split.
    { case_decide; [by apply (absolute_const _ None)|apply absolute_id]. }
    intros s. cbn. case_decide as Hd.
    + apply find_filter_out. intros t ->. tauto.
    + apply find_filter_in. by intros t ->.
Qed.

Definition server (s0 : DaemonSnapshot) (events : list DaemonEvent) : DaemonSnapshot :=
  foldl (fun s e => apply_daemon_event e s) s0 events.

Lemma server_app s0 l1 l2 : server s0 (l1 ++ l2) = server (server s0 l1) l2.
Proof. apply foldl_app. Qed.

Lemma events_row events id : Forall quiet events -> row_effect (fun s => server s events) id.
Proof.
  induction 1 as [|e l He Hl IH]; [by apply row_effect_same|].
  apply (row_effect_compose (apply_daemon_event e) (fun s => server s l)); [by apply event_row|done].
Qed.

(** Replaying everything on a row read at any moment ends in the last row. *)
Lemma replay_row s0 c events k id :
  Forall quiet events -> row id c = row id (server s0 (take k events)) ->
  row id (server c events) = row id (server s0 events).
Proof.
  intros Hq Hc. pose proof (take_drop k events) as Hs. revert Hc Hs.
  generalize (take k events) (drop k events). intros pre suf Hc <-.
  apply Forall_app in Hq as [Hq1 Hq2].
  destruct (events_row _ id Hq1) as (f & Hf & H1). destruct (events_row _ id Hq2) as (g & _ & H2).
  rewrite !server_app, !H2, !H1, Hc, H1. by rewrite absolute_twice.
Qed.

(** ** One page of tasks *)

Lemma task_sorted_merge l : StronglySorted task_id_le (sort_tasks l).
Proof. apply StronglySorted_merge_sort; apply _. Qed.

(** A table of rows in order of their ids, each id once. *)
Definition id_lt (a b : text) : Prop := text_le a b /\ a <> b.
Definition sorted_rows (ts : list TaskDto) : Prop := StronglySorted (fun a b => id_lt (t_id a) (t_id b)) ts.

Lemma sorted_rows_intro ts : StronglySorted task_id_le ts -> NoDup (map t_id ts) -> sorted_rows ts.
Proof.
  induction 1 as [|t ts Hs IH Hl]; cbn; intros Hn; [constructor|]. apply NoDup_cons in Hn as [Hni Hn].
  constructor; [by apply IH|]. rewrite Forall_forall in Hl |- *. intros x Hx. split; [by apply Hl|].
  intros Heq. apply Hni. rewrite Heq. by apply list_elem_of_fmap_2.
Qed.

Lemma sorted_rows_weak ts : sorted_rows ts -> StronglySorted task_id_le ts.
Proof. induction 1 as [|t ts Hs IH Hl]; constructor; [done|]. eapply Forall_impl; [exact Hl|]. by intros x []. Qed.

Lemma id_lt_irrefl a : ~ id_lt a a.
Proof. intros [_ H]. done. Qed.

Lemma sorted_rows_NoDup ts : sorted_rows ts -> NoDup (map t_id ts).
Proof.
  induction 1 as [|t ts Hs IH Hl]; cbn; constructor; [|done]. intros (x & Hx & Hin)%list_elem_of_fmap.
  rewrite Forall_forall in Hl. specialize (Hl x Hin). rewrite Hx in Hl. by apply id_lt_irrefl in Hl.
Qed.

Lemma text_not_le a b : ~ text_le a b -> id_lt b a.
Proof. intros H. split; [by destruct (total text_le a b)|]. intros ->. by destruct (total text_le a a). Qed.

Lemma id_lt_not_le a b : id_lt a b -> ~ text_le b a.
Proof. intros [H1 H2] H3. apply H2. by apply (anti_symm text_le). Qed.

Lemma find_task_spec ts id t : NoDup (map t_id ts) -> find_task id ts = Some t <-> t ∈ ts /\ t_id t = id.
Proof.
  induction ts as [|x ts IH]; cbn; intros Hn; [split; [done|set_solver]|]. apply NoDup_cons in Hn as [Hni Hn].
  specialize (IH Hn). destruct (find_task id ts) as [y|] eqn:E.
  - split; [intros [= <-]; destruct (proj1 IH eq_refl); set_solver|]. intros [Hin Hid].
    apply elem_of_cons in Hin as [->|Hin]; [|by apply IH]. exfalso.
    assert (y ∈ ts /\ t_id y = id) as [Hy Hyid].
    { clear IH. revert E. clear -Hid. induction ts as [|z ts IH]; cbn; [done|].
      destruct (find_task id ts) eqn:E; [intros [= <-]; destruct (IH eq_refl); set_solver|].
      case_decide; [intros [= <-]; set_solver|done]. }
    apply Hni. rewrite Hid, <-Hyid. by apply list_elem_of_fmap_2.
  - case_decide as Hd; split.
    + intros [= <-]. split; [by left|done].
    + intros [Hin Hid]. apply elem_of_cons in Hin as [->|Hin]; [done|]. discriminate (proj2 IH (conj Hin Hid)).
    + done.
    + intros [Hin Hid]. apply elem_of_cons in Hin as [->|Hin]; [done|]. discriminate (proj2 IH (conj Hin Hid)).
Qed.

Lemma same_id (ts : list TaskDto) a b : NoDup (map t_id ts) -> a ∈ ts -> b ∈ ts -> t_id a = t_id b -> a = b.
Proof.
  intros Hn Ha Hb Hid. pose proof (proj2 (find_task_spec ts (t_id a) a Hn) (conj Ha eq_refl)) as H1.
  pose proof (proj2 (find_task_spec ts (t_id a) b Hn) (conj Hb (eq_sym Hid))) as H2. congruence.
Qed.

Lemma sorted_split (ts : list TaskDto) n l a :
  sorted_rows ts -> take n ts = l ++ [a] ->
  (forall t, t ∈ take n ts <-> t ∈ ts /\ text_le (t_id t) (t_id a)).
Proof.
  intros Hs Hl t. rewrite <-(take_drop n ts) in Hs. rewrite Hl in Hs. unfold sorted_rows in Hs.
  apply StronglySorted_app in Hs as (Hc & Hs1 & _). apply StronglySorted_app in Hs1 as (Hl1 & _ & _).
  split.
  - intros Hin. split; [rewrite <-(take_drop n ts); set_solver|]. rewrite Hl in Hin.
    apply elem_of_app in Hin as [Hin|Hin]; [by destruct (Hl1 t a Hin ltac:(set_solver))|].
    apply list_elem_of_singleton in Hin as ->. by destruct (total text_le (t_id a) (t_id a)).
  - intros [Hin Hle]. rewrite <-(take_drop n ts) in Hin. apply elem_of_app in Hin as [Hin|Hin]; [done|].
    exfalso. apply (id_lt_not_le (t_id a) (t_id t)); [|done]. apply Hc; [set_solver|done].
Qed.

Lemma task_page_spec s cursor limit rows next :
  NoDup (map t_id (sn_tasks s)) -> task_page s cursor limit = (rows, next) ->
  sorted_rows rows /\
  (forall t, t ∈ rows <-> t ∈ sn_tasks s /\ beyond cursor (t_id t) /\
     match next with Some c => text_le (t_id t) c | None => True end) /\
  (forall c, next = Some c -> beyond cursor c /\ rows <> []).
Proof.
  intros Hn. unfold task_page. set (n := Nat.max limit 1). set (rest := filter (fun t => beyond cursor (t_id t)) (sn_tasks s)).
  assert (NoDup (map t_id rest)) as Hnr by (eapply sublist_NoDup; [exact Hn|apply fmap_sublist, sublist_filter]).
  assert (forall l, l ≡ₚ rest -> NoDup (map t_id l)) as Hperm by by intros l ->.
  assert (sorted_rows (sort_tasks rest)) as Hsr.
  { apply sorted_rows_intro; [apply task_sorted_merge|]. apply Hperm, merge_sort_Permutation. }
  assert (forall t, t ∈ sort_tasks rest <-> t ∈ sn_tasks s /\ beyond cursor (t_id t)) as Hin.
  { intros t. unfold sort_tasks. rewrite merge_sort_Permutation. unfold rest. rewrite list_elem_of_filter. tauto. }
  destruct (n <? length rest)%nat eqn:En; intros [= <- <-].
  - apply Nat.ltb_lt in En. set (page := take n (sort_tasks rest)).
    assert (sorted_rows page) as Hsp.
    { unfold page. rewrite <-(take_drop n (sort_tasks rest)) in Hsr. by apply StronglySorted_app in Hsr as (_ & ? & _). }
    assert (sort_tasks page = page) as Hpp.
    { apply (StronglySorted_unique_strong task_id_le); [|apply task_sorted_merge| |apply merge_sort_Permutation].
      - intros x y Hx Hy Hxy Hyx. unfold sort_tasks in Hx. rewrite merge_sort_Permutation in Hx.
        apply (same_id page); [by apply sorted_rows_NoDup|done|done|by apply (anti_symm text_le)].
      - by apply sorted_rows_weak. }
    rewrite Hpp. destruct (exists_last (l := page)) as (l & a & Ha).
    { intros H. apply (f_equal length) in H. unfold page in H. rewrite length_take in H.
      unfold sort_tasks in H. rewrite (Permutation_length (merge_sort_Permutation _ _)) in H. cbn in H. lia. }
    pose proof (sorted_split _ n l a Hsr Ha) as Hsplit. fold page in Hsplit. rewrite Ha, last_snoc. cbn.
    split_and!; [by rewrite <-Ha| |].
    + intros t. rewrite <-Ha, Hsplit, Hin. tauto.
    + intros c [= <-]. split; [|by destruct l]. apply Hin. apply Hsplit. rewrite Ha. set_solver.
  - split_and!; [done| |done]. intros t. rewrite Hin. tauto.
Qed.

(** ** One page of queue positions *)

Definition key_beyond (cursor : option Z) (k : Z) : Prop := match cursor with Some c => c < k | None => True end.
Definition key_upto (cursor : option Z) (k : Z) : Prop := match cursor with Some c => k <= c | None => True end.

#[global] Instance key_beyond_dec cursor k : Decision (key_beyond cursor k).
Proof. destruct cursor; cbn; apply _. Defined.
#[global] Instance key_upto_dec cursor k : Decision (key_upto cursor k).
Proof. destruct cursor; cbn; apply _. Defined.

Lemma filter_none {A} (P : A -> Prop) `{!forall x, Decision (P x)} (l : list A) :
  Forall (fun x => ~ P x) l -> filter P l = [].
Proof. induction 1 as [|x l Hx Hl IH]; [done|]. by rewrite filter_cons_False. Qed.

Lemma filter_keep {A} (P : A -> Prop) `{!forall x, Decision (P x)} (l : list A) :
  Forall P l -> filter P l = l.
Proof. induction 1 as [|x l Hx Hl IH]; [done|]. by rewrite filter_cons_True, IH. Qed.

(** A cut of a list is a filter on each side. *)
Lemma cut_filter {A} (P : A -> Prop) `{!forall x, Decision (P x)} (l : list A) n :
  Forall P (take n l) -> Forall (fun x => ~ P x) (drop n l) ->
  filter P l = take n l /\ filter (fun x => ~ P x) l = drop n l.
Proof.
  intros Ht Hd. split.
  - rewrite <-(take_drop n l) at 1. rewrite filter_app.
    rewrite (filter_none _ (drop n l)), filter_keep by done. apply app_nil_r.
  - rewrite <-(take_drop n l) at 1. rewrite filter_app.
    rewrite (filter_none _ (take n l)), (filter_keep _ (drop n l)); [done|done|].
    eapply Forall_impl; [exact Ht|]. cbn. tauto.
Qed.

Lemma sorted_orders_cons p ps :
  sorted_table (p :: ps) <-> sorted_table ps /\ Forall (fun q => qp_order p <= qp_order q) ps.
Proof.
  unfold sorted_table. cbn [map]. split.
  - intros H. inversion H as [|? ? Hs Hf]; subst. split; [done|].
    by rewrite Stdlib.Lists.List.Forall_map in Hf.
  - intros [Hs Hf]. constructor; [done|]. by rewrite Stdlib.Lists.List.Forall_map.
Qed.

Lemma prefix_len_le ps c :
  sorted_table ps ->
  Forall (fun p => qp_order p <= c) (take (prefix_len (fun p => qp_order p <=? c) ps) ps) /\
  Forall (fun p => ~ qp_order p <= c) (drop (prefix_len (fun p => qp_order p <=? c) ps) ps).
Proof.
  induction ps as [|p ps IH]; cbn; [by repeat constructor|]. intros [Hs Hf]%sorted_orders_cons.
  destruct (qp_order p <=? c) eqn:E; bool_hyps; cbn.
  - destruct (IH Hs). split; [by constructor|done].
  - split; [constructor|]. constructor; [lia|]. eapply Forall_impl; [exact Hf|]. cbn. lia.
Qed.

Lemma prefix_len_eq ps c :
  sorted_table ps -> Forall (fun p => c <= qp_order p) ps ->
  Forall (fun p => qp_order p <= c) (take (prefix_len (fun p => qp_order p =? c) ps) ps) /\
  Forall (fun p => ~ qp_order p <= c) (drop (prefix_len (fun p => qp_order p =? c) ps) ps).
Proof.
  induction ps as [|p ps IH]; cbn; [by repeat constructor|]. intros [Hs Hf]%sorted_orders_cons Hc.
  inversion Hc as [|? ? Hp Hc']; subst. destruct (qp_order p =? c) eqn:E; bool_hyps; cbn.
  - destruct (IH Hs Hc'). split; [constructor; [lia|done]|done].
  - split; [constructor|]. constructor; [lia|]. eapply Forall_impl; [exact Hf|]. cbn. lia.
Qed.

Lemma sorted_take_drop ps n p :
  sorted_table ps -> ps !! n = Some p ->
  Forall (fun q => qp_order q <= qp_order p) (take (S n) ps) /\ sorted_table (drop (S n) ps) /\
  Forall (fun q => qp_order p <= qp_order q) (drop (S n) ps).
Proof.
  revert n. induction ps as [|q ps IH]; intros n Hs Hn; [done|]. apply sorted_orders_cons in Hs as [Hs Hf].
  destruct n as [|n]; cbn in *.
  - injection Hn as ->. rewrite take_0, drop_0. split_and!; [by repeat constructor|done|done].
  - destruct (IH n Hs Hn) as (H1 & H2 & H3). split_and!; [|done|done]. constructor; [|done].
    rewrite Forall_forall in Hf. apply Hf. by eapply list_elem_of_lookup_2.
Qed.

(** The part of the table a page takes. *)
Lemma page_cut ps limit p :
  sorted_table ps -> ps !! pred (Nat.min (Nat.max limit 1) (length ps)) = Some p ->
  let stop0 := Nat.min (Nat.max limit 1) (length ps) in
  let stop := (stop0 + prefix_len (fun q => (qp_order q =? qp_order p)%Z) (drop stop0 ps))%nat in
  take stop ps = filter (fun q => qp_order q <= qp_order p) ps /\
  drop stop ps = filter (fun q => ~ qp_order q <= qp_order p) ps /\
  exists l q, take stop ps = l ++ [q] /\ qp_order q = qp_order p.
Proof.
  intros Hs Hp stop0 stop. pose proof (lookup_lt_Some _ _ _ Hp) as Hlt.
  assert (S (pred stop0) = stop0) as Hstop by (unfold stop0; lia).
  destruct (sorted_take_drop ps (pred stop0) p Hs Hp) as (H1 & H2 & H3). rewrite Hstop in *.
  set (n := prefix_len (fun q => (qp_order q =? qp_order p)%Z) (drop stop0 ps)) in *.
  destruct (prefix_len_eq (drop stop0 ps) (qp_order p) H2 H3) as [H4 H5]. fold n in H4, H5.
  assert (take stop ps = take stop0 ps ++ take n (drop stop0 ps)) as Ht.
  { unfold stop. by rewrite take_take_drop. }
  assert (drop stop ps = drop n (drop stop0 ps)) as Hd by by rewrite drop_drop.
  assert (Forall (fun q => qp_order q <= qp_order p) (take stop ps)) as Hall by (rewrite Ht; by apply Forall_app).
  destruct (cut_filter (fun q => qp_order q <= qp_order p) ps stop) as [-> ->]; [done|by rewrite Hd|].
  split_and!; [done|done|].
  destruct (exists_last (l := take stop ps)) as (l & q & Hl).
  { intros Hn%(f_equal length). rewrite length_take in Hn. cbn in Hn. unfold stop, stop0 in Hn. lia. }
  exists l, q. split; [done|]. rewrite Hl in Hall. apply Forall_app in Hall as [_ Hq]. inversion Hq; subst.
  assert (p ∈ take stop ps) as Hin.
  { rewrite Ht. apply elem_of_app. left. apply list_elem_of_lookup. exists (pred stop0). by rewrite lookup_take_lt by lia. }
  assert (sorted_table (take stop ps)) as Hst.
  { unfold sorted_table in *. rewrite <-(take_drop stop ps), map_app in Hs. by apply StronglySorted_app in Hs as (_ & ? & _). }
  rewrite Hl in Hst, Hin. unfold sorted_table in Hst. rewrite map_app in Hst.
  apply StronglySorted_app in Hst as (Hc & _ & _). apply elem_of_app in Hin as [Hin|Hin].
  - assert (qp_order p <= qp_order q); [|lia]. apply Hc; [by apply list_elem_of_fmap_2|]. cbn. set_solver.
  - apply list_elem_of_singleton in Hin as ->. done.
Qed.

Lemma filter_orders (P : Z -> Prop) `{!forall k, Decision (P k)} (ps : list QueuePosition) :
  map pair_of (filter (fun p => P (qp_order p)) ps) = filter (fun x => P x.2) (map pair_of ps).
Proof.
  induction ps as [|p ps IH]; [done|]. rewrite filter_cons. cbn [map]. rewrite filter_cons.
  change (pair_of p).2 with (qp_order p). case_decide; cbn; by rewrite IH.
Qed.

Lemma entries_of_page (page : list QueuePosition) :
  map entry_pair (map (fun p => mk_qentry (qp_task p) (qp_order p)) page) = map pair_of page.
Proof. by rewrite map_map. Qed.

Lemma queue_rest ps cursor :
  sorted_table ps ->
  drop (match cursor with Some c => prefix_len (fun p => qp_order p <=? c) ps | None => 0%nat end) ps
    = filter (fun p => key_beyond cursor (qp_order p)) ps.
Proof.
  intros Hs. destruct cursor as [c|]; [|by rewrite filter_keep by by apply Forall_true].
  destruct (prefix_len_le ps c Hs) as [H1 H2]. destruct (cut_filter (fun p => qp_order p <= c) ps _ H1 H2) as [_ <-].
  apply list_filter_iff. intros p. cbn. lia.
Qed.

Lemma queue_page_spec s cursor limit rows next :
  sorted_snapshot s -> queue_page s cursor limit = (rows, next) ->
  exists bound, next = show_int <$> bound /\
    map entry_pair rows =
      filter (fun x => key_beyond cursor x.2 /\ key_upto bound x.2) (map pair_of (sn_queue_positions s)) /\
    (forall k, bound = Some k -> key_beyond cursor k /\ (k ∈ map qp_order (sn_queue_positions s)) /\ rows <> []).
Proof.
  intros Hs. unfold queue_page. rewrite queue_rest by done. unfold sorted_snapshot in Hs.
  set (ps := sn_queue_positions s) in *. set (rest := filter (fun p => key_beyond cursor (qp_order p)) ps).
  assert (sorted_table rest) as Hr by by apply (sorted_filter qp_order).
  assert (forall bound, filter (fun x : text * Z => key_beyond cursor x.2 /\ key_upto bound x.2) (map pair_of ps) =
    map pair_of (filter (fun p => key_upto bound (qp_order p)) rest)) as Hf.
  { intros bound. rewrite (filter_orders (key_upto bound)). unfold rest. rewrite (filter_orders (key_beyond cursor)).
    rewrite list_filter_filter. apply list_filter_iff. intros x. tauto. }
  destruct (rest !! pred (Nat.min (Nat.max limit 1) (length rest))) as [p|] eqn:Ep.
  - destruct (page_cut rest limit p Hr Ep) as (Ht & Hd & l & q & Hl & Hq). intros [= <- <-].
    rewrite Hl, last_snoc. cbn [fmap option_fmap option_map]. rewrite Hq.
    match goal with |- context [(?a <? ?b)%nat] => destruct (a <? b)%nat eqn:E end.
    + exists (Some (qp_order p)). split_and!; [done| |].
      * rewrite entries_of_page, <-Hl, Ht, Hf. done.
      * intros k [= <-]. assert (p ∈ rest) as Hin by (by eapply list_elem_of_lookup_2).
        apply list_elem_of_filter in Hin as [Hb Hin]. split_and!; [done|by apply list_elem_of_fmap_2|by destruct l].
    + exists None. split_and!; [done| |done].
      apply Nat.ltb_ge in E. rewrite entries_of_page, <-Hl, Hf, take_ge by done.
      by rewrite (filter_keep _ rest) by by apply Forall_true.
  - apply lookup_ge_None in Ep. assert (rest = []) as Hnil by (destruct rest; [done|cbn in Ep; lia]).
    intros [= <- <-]. exists None. rewrite Hf, Hnil, take_nil. split_and!; [|done|done]. by rewrite Nat.min_0_r.
Qed.

#[global] Instance touch_dec : EqDecision Touch.
Proof. solve_decision. Defined.

(** ** Queue positions and events *)

Definition queue_touches (e : DaemonEvent) (id : text) : Prop :=
  match e with
  | SnapshotReplaced _ | Engine (MQueuePositionsChanged _) => True
  | Engine (MQueueOrderChanged removed added) => id ∈ touched removed added
  | _ => False
  end.

Definition of_task (id : text) (l : list (text * Z)) : list (text * Z) := filter (fun x => x.1 = id) l.
Notation entries s := (map pair_of (sn_queue_positions s)).

Lemma quiet_queue_same e s id :
  quiet e -> (match e with Engine (MQueueOrderChanged _ _) => False | _ => True end) -> ~ queue_touches e id ->
  sn_queue_positions (apply_daemon_event e s) = sn_queue_positions s.
Proof.
  intros Hq Hno Ht.
  destruct (decide (daemon_touch e = TAll)) as [Ha|Ha].
  { destruct e; try done; cbn in *.
    - by destruct (quiet_not_reload _ _ Hq) as [-> ->].
    - destruct m; try done. cbn in Ha. by destruct (is_deleted_progress p). }
  destruct (decide (daemon_touch e = TKeyed KQueue)) as [Hk|Hk].
  { apply keyed_view_spec in Hk. inversion Hk; subst; try done.
    by destruct (quiet_not_reload _ _ Hq) as [_ ->]. }
  by destruct (event_ignores_queue e Ha Hk s [] None) as (_ & -> & _).
Qed.

(** The entries of a task after an event: fixed, or as before. *)
Lemma event_entries e id :
  quiet e -> valid_event e ->
  (queue_touches e id /\ exists c, forall s, sorted_snapshot s -> of_task id (entries (apply_daemon_event e s)) ≡ₚ c) \/
  (~ queue_touches e id /\ forall s, sorted_snapshot s -> of_task id (entries (apply_daemon_event e s)) ≡ₚ of_task id (entries s)).
Proof.
  intros Hq Hv.
  assert ((exists removed added, e = Engine (MQueueOrderChanged removed added)) \/
    (exists o, forall s, sn_queue_positions (apply_daemon_event e s) = o) /\ queue_touches e id \/
    (match e with Engine (MQueueOrderChanged _ _) => False | _ => True end) /\ ~ queue_touches e id) as Hcase.
  { destruct e; try (right; right; split; [exact I|by intros []]); [right; left; by split; [eexists; intros; cbn; reflexivity|]|].
    destruct m; try (right; right; split; [exact I|by intros []]); [right; left; by split; [eexists; intros; cbn; reflexivity|]|]. left. by do 2 eexists. }
  destruct Hcase as [(removed & added & ->)|[[[o Ho] Ht]|[Hno Ht]]].
  - cbn in Hv. cbn [queue_touches]. assert (forall s, sorted_snapshot s ->
      entries (apply_daemon_event (Engine (MQueueOrderChanged removed added)) s) ≡ₚ
      filter (fun x => x.1 ∉ touched removed added) (entries s) ++ map entry_pair added) as Hspec.
    { intros s Hs. destruct (apply_spec _ removed added Hs Hv) as (r & Hr & _ & Hp). cbn. rewrite Hr.
      by rewrite pairs_renumber, Hp. }
    assert (forall l, of_task id (filter (fun x : text * Z => x.1 ∉ touched removed added) l ++ map entry_pair added)
      = (if decide (id ∈ touched removed added) then [] else of_task id l) ++ of_task id (map entry_pair added)) as Hof.
    { intros l. unfold of_task. rewrite filter_app. f_equal. rewrite list_filter_filter. case_decide as Hd.
      - apply filter_none, Forall_true. intros x [-> Hx]. done.
      - apply list_filter_iff. intros x. split; [by intros []|]. by intros ->. }
    assert (forall s, sorted_snapshot s -> of_task id (entries (apply_daemon_event (Engine (MQueueOrderChanged removed added)) s))
      ≡ₚ (if decide (id ∈ touched removed added) then [] else of_task id (entries s)) ++ of_task id (map entry_pair added)) as Heff.
    { intros s Hs. rewrite <-Hof. unfold of_task. by rewrite Hspec. }
    destruct (decide (id ∈ touched removed added)) as [Hin|Hout]; [left|right]; (split; [done|]).
    + eexists. intros s Hs. rewrite Heff by done. reflexivity.
    + intros s Hs. rewrite Heff by done. unfold of_task at 2.
      rewrite (filter_none _ (map entry_pair added)); [by rewrite app_nil_r|].
      apply Forall_forall. intros x (en & -> & Hen)%list_elem_of_fmap Hid. apply Hout, touched_spec. right.
      cbn in Hid. rewrite <-Hid. by apply list_elem_of_fmap_2.
  - left. split; [done|]. eexists. intros s _. by rewrite Ho.
  - right. split; [done|]. intros s _. by rewrite (quiet_queue_same e s id).
Qed.

Definition untouched (id : text) (events : list DaemonEvent) : Prop := Forall (fun e => ~ queue_touches e id) events.

Lemma server_sorted s events : Forall valid_event events -> sorted_snapshot s -> sorted_snapshot (server s events).
Proof.
  intros Hv. revert s. induction Hv as [|e l He Hl IH]; intros s Hs; [done|]. apply IH. by apply valid_keeps_sorted.
Qed.

Lemma untouched_entries s events id :
  Forall quiet events -> Forall valid_event events -> untouched id events -> sorted_snapshot s ->
  of_task id (entries (server s events)) ≡ₚ of_task id (entries s).
Proof.
  intros Hq Hv Hu. revert s. induction Hu as [|e l He Hl IH]; intros s Hs; [done|].
  inversion Hq; subst. inversion Hv; subst.
  change (server s (e :: l)) with (server (apply_daemon_event e s) l).
  rewrite IH by (done || by apply valid_keeps_sorted).
  destruct (event_entries e id) as [[? _]|[_ Hsame]]; [done|done|done|]. by apply Hsame.
Qed.

Lemma events_entries events id :
  Forall quiet events -> Forall valid_event events ->
  (exists c, forall s, sorted_snapshot s -> of_task id (entries (server s events)) ≡ₚ c) \/ untouched id events.
Proof.
  induction events as [|e l IH] using rev_ind; intros Hq Hv; [by right; constructor|].
  apply Forall_app in Hq as [Hq He], Hv as [Hv Hve]. inversion He; subst. inversion Hve; subst.
  assert (forall s, server s (l ++ [e]) = apply_daemon_event e (server s l)) as Hsnoc by (intros s; apply server_app).
  destruct (event_entries e id) as [[_ [c Hc]]|[Hno Hsame]]; [done|done| |].
  - left. exists c. intros s Hs. rewrite Hsnoc. apply Hc. by apply server_sorted.
  - destruct (IH Hq Hv) as [[c Hc]|Hu].
    + left. exists c. intros s Hs. rewrite Hsnoc, Hsame by by apply server_sorted. by apply Hc.
    + right. apply Forall_app. by repeat constructor.
Qed.

(** ** What the server's state is *)

Definition ranked (s : DaemonSnapshot) : Prop := renumber (sn_queue_positions s) = sn_queue_positions s.
Definition loaded (s : DaemonSnapshot) : Prop := sn_task_total s = None /\ sn_queue_total s = None.

(** The daemon's own state: complete tables, one row per task, keys that
    increase and positions that are ranks. *)
Record server_ok (s : DaemonSnapshot) : Prop := {
  sv_ids : NoDup (map t_id (sn_tasks s));
  sv_strict : strict_snapshot s;
  sv_ranked : ranked s;
  sv_keys : Forall is_i64 (map qp_order (sn_queue_positions s));
  sv_loaded : loaded s
}.

Lemma server_ok_sorted s : server_ok s -> sorted_snapshot s.
Proof. intros []. by apply increasing_weakly. Qed.

Lemma renumber_twice ps : renumber (renumber ps) = renumber ps.
Proof. by rewrite (renumber_pairs (renumber ps)), pairs_renumber, <-renumber_pairs. Qed.

Lemma alter_ids id t ts : t_id t = id -> map t_id (alter_task id (fun _ => t) ts) = map t_id ts.
Proof.
  intros Hid. induction ts as [|x ts IH]; [done|]. cbn. destruct (find_task id ts); cbn; [by rewrite IH|].
  case_decide; cbn; [congruence|done].
Qed.

Lemma alter_keeps_ids id f ts : (forall t, t_id (f t) = t_id t) -> map t_id (alter_task id f ts) = map t_id ts.
Proof.
  intros Hid. induction ts as [|x ts IH]; [done|]. cbn. destruct (find_task id ts); cbn; [by rewrite IH|].
  case_decide; cbn; [by rewrite Hid|done].
Qed.

Lemma find_task_None ts id : find_task id ts = None <-> id ∉ map t_id ts.
Proof.
  induction ts as [|x ts IH]; cbn; [split; [set_solver|done]|]. rewrite not_elem_of_cons, <-IH.
  destruct (find_task id ts); [split; [done|by intros []]|]. case_decide as Hd; split.
  - done.
  - intros [Hne _]. congruence.
  - intros _. split; [congruence|done].
  - done.
Qed.

Lemma NoDup_filter_ids (Q : TaskDto -> Prop) `{!forall t, Decision (Q t)} ts :
  NoDup (map t_id ts) -> NoDup (map t_id (filter Q ts)).
Proof. intros Hn. eapply sublist_NoDup; [exact Hn|apply fmap_sublist, sublist_filter]. Qed.

Notation unique_ids s := (NoDup (map t_id (sn_tasks s))).

Lemma edit_unique id f s : (forall t, t_id (f t) = t_id t) -> unique_ids s -> unique_ids (task_edit id f s).
Proof. intros Hid Hn. cbn. by rewrite alter_keeps_ids. Qed.

Lemma changed_unique t s : unique_ids s -> unique_ids (apply_task_changed t s).
Proof.
  intros Hn. unfold apply_task_changed. cbn. destruct (find_task (t_id t) (sn_tasks s)) as [x|] eqn:E; cbn.
  - by rewrite alter_ids.
  - rewrite map_app. apply NoDup_app. split_and!; [done| |cbn; apply NoDup_singleton].
    intros id Hid ->%list_elem_of_singleton. by apply find_task_None in E.
Qed.

Lemma fold_unique {A} (h : DaemonSnapshot -> A -> DaemonSnapshot) l s :
  (forall s a, unique_ids s -> unique_ids (h s a)) -> unique_ids s -> unique_ids (foldl h s l).
Proof. intros Hh. revert s. induction l as [|a l IH]; intros s Hs; [done|]. apply IH. by apply Hh. Qed.

(** Whatever the other state is in which the event left the ids unique. *)
Lemma event_unique e s s' :
  quiet e -> unique_ids (apply_daemon_event e s') -> unique_ids s -> unique_ids (apply_daemon_event e s).
Proof.
  intros Hq Hs' Hs. destruct e; cbn [apply_daemon_event] in *; try done.
  - unfold apply_runtime. by destruct (accepted_runtime_status s r).
  - destruct (quiet_not_reload _ _ Hq) as [-> ->]. done.
  - destruct m; cbn [apply_engine_message] in *; try done.
    + unfold apply_progress. destruct (is_deleted_progress p); [by apply NoDup_filter_ids|].
      by apply edit_unique.
    + unfold apply_segments. destruct (find_task id (sn_tasks s)); [|done]. by case_match.
    + by apply edit_unique.
    + by apply edit_unique.
    + by apply edit_unique.
    + apply fold_unique; [|done]. intros x u. by apply edit_unique.
  - by apply changed_unique.
  - apply fold_unique; [|done]. intros x t. by apply changed_unique.
  - by apply NoDup_filter_ids.
  - by apply NoDup_filter_ids.
Qed.

Lemma event_ranked e s s' :
  quiet e -> ranked (apply_daemon_event e s') -> ranked s -> ranked (apply_daemon_event e s).
Proof.
  intros Hq Hs' Hs.
  destruct e as [| |r| |m| | | | | | | | | | | | | | | | | | |]; try (unfold ranked; by rewrite (quiet_queue_same _ s []) by (done || by intros [])).
  - done.
  - destruct m; try (unfold ranked; by rewrite (quiet_queue_same _ s []) by (done || by intros [])); [done|].
    apply renumber_twice.
Qed.

Lemma event_loaded e s : quiet e -> loaded s -> loaded (apply_daemon_event e s).
Proof.
  intros Hq [Ht Hqt]. destruct e; cbn [apply_daemon_event]; try done.
  - unfold apply_runtime. by destruct (accepted_runtime_status s r).
  - destruct (paged_header_still s0 Hq) as (_ & _ & Heq). apply not_loading in Hq. cbn in Hq. rewrite <-Heq. exact Hq.
  - destruct (quiet_not_reload _ _ Hq) as [-> ->]. done.
  - destruct m; cbn [apply_engine_message]; try done.
    + unfold apply_progress. by destruct (is_deleted_progress p).
    + unfold apply_segments. destruct (find_task id (sn_tasks s)); [|done]. by case_match.
    + clear -Ht Hqt. revert s Ht Hqt. induction updates as [|u l IH]; intros s Ht Hqt; [done|]. by apply IH.
  - unfold apply_task_changed. by destruct (find_task (t_id t) (sn_tasks s)).
  - clear -Ht Hqt. revert s Ht Hqt. induction ts as [|t l IH]; intros s Ht Hqt; [done|]. cbn. apply IH;
      unfold apply_task_changed; by destruct (find_task (t_id t) (sn_tasks s)).
Qed.

(** ** One round of loading from a changing server *)

Inductive phase := Idle | Asked (p : TablePageParams) | Answered (page : TablePage).

Definition published (epoch : text) (base : Z) (events : list DaemonEvent) : list EventFrame :=
  imap (fun i e => mk_frame epoch (base + Z.of_nat i + 1) None (into_wire e)) events.

Definition with_limit (p : TablePageParams) (limit : option Z) : TablePageParams :=
  mk_params (pp_section p) (pp_cursor p) limit.

Section Loading.
Variables (epoch : text) (base : Z) (s0 : DaemonSnapshot).

(** The events of the server since the base frame, the frames on their way to
    the client, the request or page on its way, the client's state.  A page
    may be read at any moment after the request and arrive at any later one. *)
Inductive loading : list DaemonEvent -> list EventFrame -> phase -> TableSync -> Prop :=
| loading_start sync :
    for_snapshot epoch base (paged_header s0) = Some sync -> loading [] [] Idle sync
| loading_event events transit ph sync e :
    loading events transit ph sync -> quiet e -> valid_event e -> server_ok (server s0 (events ++ [e])) ->
    loading (events ++ [e])
      (transit ++ [mk_frame epoch (base + Z.of_nat (length events) + 1) None (into_wire e)]) ph sync
| loading_frame events f transit ph sync sync' :
    loading events (f :: transit) ph sync -> push_frame sync f = Ok sync' -> loading events transit ph sync'
| loading_request events transit sync p sync' :
    loading events transit Idle sync -> next_request sync = (Some p, sync') -> loading events transit (Asked p) sync'
| loading_serve events transit sync p limit page :
    loading events transit (Asked p) sync ->
    build (server s0 events) epoch (base + Z.of_nat (length events)) (with_limit p limit) = Ok page ->
    loading events transit (Answered page) sync
| loading_accept events transit sync page sync' :
    loading events transit (Answered page) sync -> accept_page sync page = Ok sync' ->
    loading events transit Idle sync'.

Definition task_covered (r : Rows TaskDto) (id : text) : Prop :=
  rw_done r = true \/ exists c, rw_cursor r = Some c /\ text_le id c.

Record tasks_ok (events : list DaemonEvent) (r : Rows TaskDto) : Prop := {
  tk_sorted : sorted_rows (rw_rows r);
  tk_rows : forall t, t ∈ rw_rows r -> task_covered r (t_id t);
  tk_read : forall id, task_covered r id ->
    exists k, (k <= length events)%nat /\ find_task id (rw_rows r) = row id (server s0 (take k events));
  tk_unwanted : rw_wanted r = false -> rw_done r = true /\ rw_rows r = []
}.

Definition key_covered (done : bool) (bound : option Z) (k : Z) : Prop :=
  done = true \/ match bound with Some c => k <= c | None => False end.

#[global] Instance key_covered_dec done bound k : Decision (key_covered done bound k).
Proof. unfold key_covered. destruct bound; apply _. Defined.

Record queue_rows_ok (events : list DaemonEvent) (r : Rows QueueOrderEntry) : Prop := {
  qr_cursor : exists bound, rw_cursor r = show_int <$> bound /\ (forall k, bound = Some k -> is_i64 k) /\
    forall id, untouched id events ->
      of_task id (map entry_pair (rw_rows r)) ≡ₚ
      filter (fun x => key_covered (rw_done r) bound x.2) (of_task id (entries s0));
  qr_unwanted : rw_wanted r = false -> rw_done r = true /\ rw_rows r = []
}.

(** The request that waits for its page. *)
Definition asked (sync : TableSync) (p : TablePageParams) : Prop :=
  ts_requested sync = Some (pp_section p, pp_cursor p) /\
  match pp_section p with
  | TasksSection => rw_wanted (ts_tasks sync) = true /\ rw_done (ts_tasks sync) = false /\ pp_cursor p = rw_cursor (ts_tasks sync)
  | QueueSection => rw_wanted (ts_queue sync) = true /\ rw_done (ts_queue sync) = false /\ pp_cursor p = rw_cursor (ts_queue sync)
  end.

Definition phase_ok (events : list DaemonEvent) (ph : phase) (sync : TableSync) : Prop :=
  match ph with
  | Idle => True
  | Asked p => asked sync p
  | Answered page => exists k p limit, (k <= length events)%nat /\ asked sync p /\
      build (server s0 (take k events)) epoch (base + Z.of_nat k) (with_limit p limit) = Ok page
  end.

Record loading_ok (events : list DaemonEvent) (transit : list EventFrame) (ph : phase) (sync : TableSync) : Prop := {
  ld_frames : ts_backlog sync ++ transit = published epoch base events;
  ld_base : ts_epoch sync = epoch /\ ts_base sync = base;
  ld_quiet : Forall quiet events;
  ld_valid : Forall valid_event events;
  ld_server : forall k, server_ok (server s0 (take k events));
  ld_wanted : rw_wanted (ts_tasks sync) = bool_decide (sn_tasks s0 <> []) /\
              rw_wanted (ts_queue sync) = bool_decide (sn_queue_positions s0 <> []);
  ld_tasks : tasks_ok events (ts_tasks sync);
  ld_queue : queue_rows_ok events (ts_queue sync);
  ld_phase : phase_ok events ph sync
}.

Lemma find_task_append id ts1 ts2 :
  find_task id (ts1 ++ ts2) = match find_task id ts2 with Some t => Some t | None => find_task id ts1 end.
Proof.
  induction ts1 as [|t ts1 IH]; cbn; [by destruct (find_task id ts2)|]. rewrite IH.
  by destruct (find_task id ts2).
Qed.

Lemma beyond_not_covered (r : Rows TaskDto) id :
  rw_done r = false -> beyond (rw_cursor r) id <-> ~ task_covered r id.
Proof.
  intros Hd. unfold task_covered, beyond. destruct (rw_cursor r) as [c|]; split.
  - intros Hb [?|(c' & [= <-] & Hc)]; [congruence|done].
  - intros Hn Hle. apply Hn. right. by exists c.
  - intros _ [?|(c' & ? & _)]; congruence.
  - done.
Qed.

(** A page read at moment [k] continues the rows. *)
Lemma tasks_accept events r k limit rows next r' :
  tasks_ok events r -> (k <= length events)%nat -> rw_wanted r = true -> rw_done r = false ->
  server_ok (server s0 (take k events)) ->
  task_page (server s0 (take k events)) (rw_cursor r) limit = (rows, next) ->
  accept_rows r rows (rw_cursor r) next = Ok r' -> tasks_ok events r'.
Proof.
  intros [Hsr Hrows Hread _] Hk Hw Hd Hsv Hp Ha.
  destruct (task_page_spec _ _ _ _ _ (sv_ids _ Hsv) Hp) as (Hsp & Hin & Hnext).
  unfold accept_rows in Ha. case_decide as Hstall; [done|]. injection Ha as <-. rewrite Hw.
  assert (forall id, task_covered r id -> forall t, t ∈ rows -> id_lt id (t_id t)) as Hafter.
  { intros id [?|(c & Hc & Hle)] t (_ & Hb & _)%Hin; [congruence|]. rewrite Hc in Hb.
    apply text_not_le in Hb as [Hb1 Hb2]. split; [by etrans|]. intros ->. apply Hb2.
    by apply (anti_symm text_le). }
  constructor; cbn [rw_rows rw_done rw_cursor rw_wanted]; [| | |done].
  - unfold sorted_rows. apply StronglySorted_app_2; [|done|done]. intros x y Hx Hy.
    by apply (Hafter (t_id x)); [apply Hrows|].
  - intros t Hin'. apply elem_of_app in Hin' as [Hold|Hnew].
    + apply Hrows in Hold as [?|(c & Hc & Hle)]; [congruence|]. destruct next as [c'|]; [right|by left].
      exists c'. split; [done|]. destruct (Hnext c' eq_refl) as [Hb _]. rewrite Hc in Hb.
      apply text_not_le in Hb as [Hb _]. by etrans.
    + apply Hin in Hnew as (_ & _ & Hup). destruct next as [c|]; [right; by exists c|by left].
  - intros id Hcov. rewrite find_task_append. destruct (decide (beyond (rw_cursor r) id)) as [Hb|Hb].
    + exists k. split; [done|].
      assert (find_task id (rw_rows r) = None) as ->.
      { apply find_task_None. intros (t & -> & Ht)%list_elem_of_fmap.
        apply (beyond_not_covered r (t_id t) Hd) in Hb. by apply Hb, Hrows. }
      assert (find_task id rows = row id (server s0 (take k events))) as ->; [|by destruct (row id (server s0 (take k events)))].
      apply option_eq. intros t. pose proof (sorted_rows_NoDup _ Hsp) as Hn1. pose proof (sv_ids _ Hsv) as Hn2.
      rewrite !find_task_spec by done.
      rewrite Hin. split; [tauto|]. intros [Ht <-]. split_and!; [done|done| |done].
      destruct next as [c|]; [|done]. destruct Hcov as [?|(c' & [= <-] & ?)]; done.
    + assert (task_covered r id) as Hc.
      { unfold task_covered. destruct (rw_cursor r) as [c|]; [|by destruct Hb]. right. exists c. split; [done|].
        cbn in Hb. by destruct (decide (text_le id c)). }
      assert (find_task id rows = None) as ->; [|by apply Hread].
      apply find_task_None. intros (t & -> & Ht)%list_elem_of_fmap. by apply (Hafter _ Hc) in Ht as [_ ?].
Qed.

Lemma filter_disjoint_or (P Q R : text * Z -> Prop) `{!forall x, Decision (P x)} `{!forall x, Decision (Q x)}
    `{!forall x, Decision (R x)} l :
  (forall x, R x <-> P x \/ Q x) -> (forall x, P x -> Q x -> False) -> filter P l ++ filter Q l ≡ₚ filter R l.
Proof.
  intros HR Hd. induction l as [|x l IH]; [done|]. rewrite !filter_cons.
  destruct (decide (P x)), (decide (Q x)); try (exfalso; by eapply Hd).
  - rewrite decide_True by (apply HR; by left). cbn. by rewrite IH.
  - rewrite decide_True by (apply HR; by right). by rewrite <-Permutation_middle, IH.
  - rewrite decide_False by (rewrite HR; tauto). done.
Qed.

Lemma untouched_take id events k : untouched id events -> untouched id (take k events).
Proof. unfold untouched. intros H. by apply Forall_take. Qed.

Lemma queue_accept events r k limit rows next r' bound :
  queue_rows_ok events r -> rw_wanted r = true -> rw_done r = false ->
  Forall quiet events -> Forall valid_event events -> server_ok s0 -> server_ok (server s0 (take k events)) ->
  rw_cursor r = show_int <$> bound -> (forall b, bound = Some b -> is_i64 b) ->
  queue_page (server s0 (take k events)) bound limit = (rows, next) ->
  accept_rows r rows (rw_cursor r) next = Ok r' -> queue_rows_ok events r'.
Proof.
  intros [(bound' & Hb' & Hi' & Hrows) _] Hw Hd Hq Hv Hs0 Hsk Hb Hi Hp Ha.
  assert (bound' = bound) as ->.
  { rewrite Hb in Hb'. destruct bound as [b|], bound' as [b'|]; try done. cbn in Hb'. injection Hb' as Hs.
    pose proof (parse_show_int i64_min i64_max b ltac:(done) ltac:(by apply Hi)) as H1.
    pose proof (parse_show_int i64_min i64_max b' ltac:(done) ltac:(by apply Hi')) as H2. congruence. }
  destruct (queue_page_spec _ _ _ _ _ (server_ok_sorted _ Hsk) Hp) as (bd & -> & Hentries & Hbd).
  unfold accept_rows in Ha. case_decide as Hstall; [done|]. injection Ha as <-. rewrite Hw.
  constructor; cbn [rw_rows rw_done rw_cursor rw_wanted]; [|done].
  exists bd. split_and!; [done| |].
  - intros b Hbb. destruct (Hbd b Hbb) as (_ & Hin & _). pose proof (sv_keys _ Hsk) as HF.
    rewrite Forall_forall in HF. by apply HF.
  - intros id Hu. rewrite map_app. unfold of_task at 1. rewrite filter_app. fold (of_task id (map entry_pair (rw_rows r))).
    rewrite Hrows, Hentries, list_filter_filter by done.
    assert (filter (fun x => x.1 = id /\ key_beyond bound x.2 /\ key_upto bd x.2) (entries (server s0 (take k events)))
      ≡ₚ filter (fun x => key_beyond bound x.2 /\ key_upto bd x.2) (of_task id (entries s0))) as ->.
    { rewrite <-(untouched_entries s0 (take k events) id) by
        (by apply Forall_take || by apply untouched_take || by apply server_ok_sorted).
      unfold of_task. rewrite list_filter_filter. apply Permutation_refl', list_filter_iff. intros x. tauto. }
    apply filter_disjoint_or.
    + intros [t key]. cbn. unfold key_covered. rewrite Hd. destruct bd as [c'|]; cbn.
      * destruct (Hbd c' eq_refl) as (Hlt & _ & _). destruct bound as [c|]; cbn in *.
        -- split; [intros [?|?]; [done|destruct (Z.le_gt_cases key c); [left; by right|right; lia]]|]. intros [[?|?]|[? ?]]; [done|right; lia|right; lia].
        -- split; [intros [?|?]; [done|by right]|]. intros [[?|[]]|[_ ?]]; [done|by right].
      * split; [intros _|by left]. destruct bound as [c|]; cbn; [|by right].
        destruct (Z.le_gt_cases key c); [left; by right|by right].
    + intros [t key]. cbn. unfold key_covered. rewrite Hd. destruct bound as [c|]; cbn; [|by intros [?|[]]].
      intros [?|?] [? _]; [done|lia].
Qed.

Lemma published_snoc events e :
  published epoch base (events ++ [e]) =
  published epoch base events ++ [mk_frame epoch (base + Z.of_nat (length events) + 1) None (into_wire e)].
Proof. unfold published. rewrite imap_app. cbn. by rewrite Nat.add_0_r. Qed.

Lemma tasks_ok_start total :
  sn_tasks s0 = [] \/ is_Some total -> (is_Some total <-> sn_tasks s0 <> []) -> tasks_ok [] (new_rows total).
Proof.
  intros Hor Hiff. constructor; cbn.
  - constructor.
  - intros t Ht. by apply not_elem_of_nil in Ht.
  - intros id [Hd|(c & ? & _)]; [|done]. cbn in Hd. bool_hyps. exists 0%nat. split; [done|].
    destruct Hor as [Hn|[? ?]]; [cbn; by rewrite Hn|congruence].
  - intros Hw. bool_hyps. split; [|done]. apply bool_decide_eq_true. by apply eq_None_not_Some.
Qed.

Lemma queue_ok_start total :
  sn_queue_positions s0 = [] \/ is_Some total -> queue_rows_ok [] (new_rows total).
Proof.
  intros Hor. constructor; cbn.
  - exists None. split_and!; [done|done|]. intros id _. cbn. destruct Hor as [->|Hs]; [done|].
    rewrite filter_none; [done|]. apply Forall_true. intros x [Hd|[]]. bool_hyps. subst. by destruct Hs.
  - intros Hw. bool_hyps. split; [|done]. apply bool_decide_eq_true. by apply eq_None_not_Some.
Qed.

Lemma total_spec {A} (l : list A) :
  (l = [] \/ is_Some (table_total (length l))) /\ (is_Some (table_total (length l)) <-> l <> []).
Proof. unfold table_total. destruct l; cbn; split; eauto; split; try done; by intros []. Qed.

Lemma start_ok sync :
  server_ok s0 -> for_snapshot epoch base (paged_header s0) = Some sync -> loading_ok [] [] Idle sync.
Proof.
  intros Hs0. unfold for_snapshot, sync_new. cbn. destruct (sv_loaded _ Hs0) as [-> ->].
  assert (forall {A} (l : list A), match table_total (length l) with Some n => Some n | None => None end
    = table_total (length l)) as Heta by (intros A l; by destruct (table_total _)).
  rewrite !Heta. intros H.
  assert (sync = mk_sync epoch base (new_rows (table_total (length (sn_tasks s0))))
    (new_rows (table_total (length (sn_queue_positions s0)))) None []) as ->.
  { destruct (table_total (length (sn_tasks s0))), (table_total (length (sn_queue_positions s0))); congruence. }
  destruct (total_spec (sn_tasks s0)) as [Ht Htw]. destruct (total_spec (sn_queue_positions s0)) as [Hq Hqw].
  constructor; cbn; try done.
  - intros k. by rewrite take_nil.
  - split; by apply bool_decide_ext.
  - by apply tasks_ok_start.
  - by apply queue_ok_start.
Qed.

(** More events of the server. *)
Lemma tasks_ok_event events e r : tasks_ok events r -> tasks_ok (events ++ [e]) r.
Proof.
  intros []. constructor; [done|done| |done]. intros id Hc. destruct (tk_read0 id Hc) as (k & Hk & ->).
  exists k. rewrite length_app, take_app_le by done. split; [lia|done].
Qed.

Lemma queue_ok_event events e r : queue_rows_ok events r -> queue_rows_ok (events ++ [e]) r.
Proof.
  intros [(bound & Hb & Hi & Hr) Hu]. constructor; [|done]. exists bound. split_and!; [done|done|].
  intros id H. apply Hr. by apply Forall_app in H as [? _].
Qed.

Lemma event_ok events transit ph sync e :
  loading_ok events transit ph sync -> quiet e -> valid_event e -> server_ok (server s0 (events ++ [e])) ->
  loading_ok (events ++ [e])
    (transit ++ [mk_frame epoch (base + Z.of_nat (length events) + 1) None (into_wire e)]) ph sync.
Proof.
  intros [] Hq Hv Hs. constructor; try done.
  - by rewrite published_snoc, <-ld_frames0, app_assoc.
  - apply Forall_app. by repeat constructor.
  - apply Forall_app. by repeat constructor.
  - intros k. destruct (Nat.le_gt_cases k (length events)) as [Hk|Hk]; [by rewrite take_app_le|].
    rewrite take_ge; [done|]. rewrite length_app. cbn. lia.
  - by apply tasks_ok_event.
  - by apply queue_ok_event.
  - destruct ph as [|p|page]; [done|done|]. destruct ld_phase0 as (k & p & limit & Hk & Ha & Hb).
    exists k, p, limit. rewrite length_app, take_app_le by done. split_and!; [lia|done|done].
Qed.

Lemma request_ok events transit sync p sync' :
  loading_ok events transit Idle sync -> next_request sync = (Some p, sync') -> loading_ok events transit (Asked p) sync'.
Proof.
  intros []. unfold next_request.
  destruct (rw_wanted (ts_tasks sync) && negb (rw_done (ts_tasks sync))) eqn:E1;
    [|destruct (rw_wanted (ts_queue sync) && negb (rw_done (ts_queue sync))) eqn:E2; [|done]];
    intros [= <- <-]; bool_hyps; constructor; try done; by split.
Qed.

Lemma accept_ok events transit sync page sync' :
  server_ok s0 -> loading_ok events transit (Answered page) sync -> accept_page sync page = Ok sync' ->
  loading_ok events transit Idle sync'.
Proof.
  intros Hs0 [] Ha. destruct ld_phase0 as (k & p & limit & Hk & [Hr Hsec] & Hb).
  unfold accept_page in Ha. case_decide; [done|]. rewrite Hr in Ha. unfold build, with_limit in Hb. cbn [pp_section pp_cursor] in Hb.
  destruct (pp_section p).
  - destruct (task_page _ _ _) as [rows next] eqn:Ep. injection Hb as <-. case_decide; [done|]. cbn in Ha.
    destruct Hsec as (Hw & Hd & Hc). destruct (accept_rows _ _ _ _) as [r|] eqn:Er; [|done]. injection Ha as <-.
    rewrite Hc in *. constructor; try done; cbn; [|by eapply tasks_accept].
    unfold accept_rows in Er. case_decide; [done|]. by injection Er as <-.
  - assert (exists bound, rw_cursor (ts_queue sync) = show_int <$> bound /\ (forall b, bound = Some b -> is_i64 b)) as
      (bound & Hcur & Hi) by (destruct (qr_cursor _ _ ld_queue0) as (b & ? & ? & _); by exists b).
    destruct Hsec as (Hw & Hd & Hc). rewrite Hc, Hcur in *.
    assert (exists rows next, queue_page (server s0 (take k events)) bound (page_limit (mk_params QueueSection (show_int <$> bound) limit)) = (rows, next) /\
      page = mk_page epoch (base + Z.of_nat k) QueueSection
        (Z.min (Z.of_nat (length (sn_queue_positions (server s0 (take k events))))) u64_max) [] rows next) as (rows & next & Ep & ->).
    { destruct bound as [b|]; cbn [fmap option_fmap option_map] in Hb.
      - unfold parse_i64 in Hb. rewrite parse_show_int in Hb by (done || by apply Hi).
        destruct (queue_page _ _ _) as [rows next] eqn:Ep. injection Hb as <-. by exists rows, next.
      - destruct (queue_page _ _ _) as [rows next] eqn:Ep. injection Hb as <-. by exists rows, next. }
    case_decide; [done|]. cbn in Ha. destruct (accept_rows _ _ _ _) as [r|] eqn:Er; [|done]. injection Ha as <-.
    rewrite <-Hcur in Er. constructor; try done; cbn; [|by eapply queue_accept].
    unfold accept_rows in Er. case_decide; [done|]. by injection Er as <-.
Qed.

Lemma loading_invariant events transit ph sync :
  server_ok s0 -> loading events transit ph sync -> loading_ok events transit ph sync.
Proof.
  intros Hs0. induction 1 as [sync Hf|events transit ph sync e Hl IH Hq Hv Hs|events f transit ph sync sync' Hl [] Hp|
    events transit sync p sync' Hl IH Hn|events transit sync p limit page Hl [] Hb|events transit sync page sync' Hl IH Ha].
  - by apply start_ok.
  - by apply event_ok.
  - unfold push_frame in Hp. case_match; [done|]. injection Hp as <-. constructor; try done.
    cbn. by rewrite <-app_assoc.
  - by eapply request_ok.
  - constructor; try done. exists (length events), p, limit. rewrite firstn_all. by split_and!.
  - by eapply accept_ok.
Qed.
End Loading.

(** ** The end of a round *)

Lemma rows_permutation (l1 l2 : list TaskDto) :
  NoDup (map t_id l1) -> NoDup (map t_id l2) -> (forall id, find_task id l1 = find_task id l2) -> l1 ≡ₚ l2.
Proof.
  intros H1 H2 Hf. apply NoDup_Permutation; [by eapply NoDup_fmap_1|by eapply NoDup_fmap_1|].
  intros t. pose proof (find_task_spec l1 (t_id t) t H1) as E1. pose proof (find_task_spec l2 (t_id t) t H2) as E2.
  rewrite Hf in E1. tauto.
Qed.

Lemma entries_permutation (l1 l2 : list (text * Z)) : (forall id, of_task id l1 ≡ₚ of_task id l2) -> l1 ≡ₚ l2.
Proof.
  revert l2. induction l1 as [|x l1 IH]; intros l2 H.
  - destruct l2 as [|y l2]; [done|]. specialize (H y.1). unfold of_task in H. rewrite (filter_cons_True _ y) in H by done.
    by apply Permutation_nil in H.
  - assert (x ∈ l2) as Hin.
    { specialize (H x.1). unfold of_task in H. rewrite filter_cons_True in H by done.
      assert (x ∈ filter (fun y => y.1 = x.1) l2) as Hx by (rewrite <-H; by left).
      by apply list_elem_of_filter in Hx as [_ ?]. }
    apply list_elem_of_split in Hin as (a & b & ->). rewrite <-Permutation_middle. f_equiv.
    apply IH. intros id. specialize (H id). unfold of_task in *. rewrite <-Permutation_middle, !filter_cons in H.
    case_decide; [by apply Permutation_cons_inv in H|done].
Qed.

Lemma of_task_filter (P : text * Z -> Prop) `{!forall x, Decision (P x)} id l :
  of_task id (filter P l) = filter P (of_task id l).
Proof. unfold of_task. rewrite !list_filter_filter. apply list_filter_iff. tauto. Qed.

Lemma published_cons epoch base e events :
  published epoch base (e :: events) = mk_frame epoch (base + 1) None (into_wire e) :: published epoch (base + 1) events.
Proof.
  unfold published. rewrite imap_cons. f_equal; [f_equal; lia|]. apply imap_ext. intros i x _. cbn. f_equal. lia.
Qed.

Lemma replay_published epoch base events c :
  0 <= base -> Forall quiet events ->
  consume epoch base c (published epoch base events) = Some (base + Z.of_nat (length events), server c events).
Proof.
  intros Hb Hq. revert base c Hb. induction Hq as [|e l He Hl IH]; intros base c Hb; [cbn; do 2 f_equal; lia|].
  rewrite published_cons. cbn [consume]. unfold judge_frame, covers_from. cbn [f_epoch f_sequence f_previous default].
  rewrite decide_False by tauto. rewrite (proj2 (Z.leb_gt _ _)) by lia.
  rewrite (proj2 (Z.leb_le _ _)) by (unfold sat_sub_u64, default; lia).
  cbn [f_event]. rewrite quiet_wire by done. rewrite IH by lia. cbn [length]. do 2 f_equal. lia.
Qed.

Lemma server_unique s0 c events :
  Forall quiet events -> (forall k, server_ok (server s0 (take k events))) -> unique_ids c -> unique_ids (server c events).
Proof.
  intros Hq. revert s0 c. induction Hq as [|e l He Hl IH]; intros s0 c Hs Hc; [done|].
  apply (IH (apply_daemon_event e s0)); [intros k; apply (Hs (S k))|].
  apply (event_unique e c s0); [done| |done]. pose proof (Hs 1%nat) as H1. cbn in H1. rewrite take_0 in H1. apply H1.
Qed.

Lemma server_ranked s0 c events :
  Forall quiet events -> (forall k, server_ok (server s0 (take k events))) -> ranked c -> ranked (server c events).
Proof.
  intros Hq. revert s0 c. induction Hq as [|e l He Hl IH]; intros s0 c Hs Hc; [done|].
  apply (IH (apply_daemon_event e s0)); [intros k; apply (Hs (S k))|].
  apply (event_ranked e c s0); [done| |done]. pose proof (Hs 1%nat) as H1. cbn in H1. rewrite take_0 in H1. apply H1.
Qed.

Lemma server_loaded c events : Forall quiet events -> loaded c -> loaded (server c events).
Proof. intros Hq. revert c. induction Hq as [|e l He Hl IH]; intros c Hc; [done|]. apply IH. by apply event_loaded. Qed.

Lemma ranked_determined s1 s2 :
  ranked s1 -> ranked s2 -> sorted_snapshot s1 -> strict_snapshot s2 -> entries s1 ≡ₚ entries s2 ->
  sn_queue_positions s1 = sn_queue_positions s2.
Proof.
  intros H1 H2 Hs1 Hs2 Hp. rewrite <-H1, <-H2. apply renumber_determined; [done|by apply increasing_weakly|done|done].
Qed.

Lemma imap_map {A B} (g : A -> B) l : imap (fun _ x => g x) l = map g l.
Proof. induction l as [|x l IH]; [done|]. rewrite imap_cons. cbn. f_equal. exact IH. Qed.

(** What [install_queue] makes of the entries. *)
Lemma install_queue_spec es s :
  entries (install_queue es s) ≡ₚ map entry_pair es /\ sorted_snapshot (install_queue es s) /\ ranked (install_queue es s).
Proof.
  unfold sorted_snapshot, ranked. cbn [install_queue with_queue sn_queue_positions].
  set (l := merge_sort entry_le es).
  assert (forall A (f : QueuePosition -> A) (g : QueueOrderEntry -> A), (forall i e, f (mk_pos (qe_task e) (position_of i) (qe_order e)) = g e) ->
    map f (imap (fun i e => mk_pos (qe_task e) (position_of i) (qe_order e)) l) = map g l) as Hmap.
  { intros A f g Hfg. rewrite map_imap_list, <-imap_map. apply imap_ext. intros i x _. apply Hfg. }
  split_and!.
  - rewrite (Hmap _ pair_of entry_pair) by done. unfold l. by rewrite merge_sort_Permutation.
  - unfold sorted_table. rewrite (Hmap _ qp_order qe_order) by done.
    assert (StronglySorted entry_le l) as Hs.
    { apply StronglySorted_merge_sort.
      - intros a b c [?|[? ?]] [?|[? ?]]; unfold entry_le; [left; lia|left; lia|left; lia|right]. split; [lia|by etrans].
      - intros a b. unfold entry_le. destruct (Z.lt_trichotomy (qe_order a) (qe_order b)) as [?|[?|?]]; [by left; left| |by right; left].
        destruct (total text_le (qe_task a) (qe_task b)); [left|right]; right; by split. }
    clear Hmap. clearbody l. induction Hs as [|e l' Hl IH HF]; cbn [map]; [constructor|]. constructor; [done|]. rewrite Stdlib.Lists.List.Forall_map.
    eapply Forall_impl; [exact HF|]. intros x. unfold entry_le. lia.
  - rewrite renumber_pairs, (Hmap _ pair_of entry_pair) by done. change (map entry_pair l) with (entry_pair <$> l).
    rewrite imap_fmap. by apply imap_ext.
Qed.

Record client_ok (s0 : DaemonSnapshot) (events : list DaemonEvent) (c : DaemonSnapshot) : Prop := {
  cl_rows : forall id, exists k, row id c = row id (server s0 (take k events));
  cl_unique : unique_ids c;
  cl_sorted : sorted_snapshot c;
  cl_ranked : ranked c;
  cl_entries : forall id, untouched id events -> of_task id (entries c) ≡ₚ of_task id (entries s0);
  cl_loaded : loaded c
}.

(** The tables as finished: the rows read, or the empty tables of the header. *)
Lemma finish_fields sync s :
  let c := (finish sync s).1 in
  sn_tasks c = (if rw_wanted (ts_tasks sync) then rw_rows (ts_tasks sync) else sn_tasks s) /\
  sn_task_total c = (if rw_wanted (ts_tasks sync) then None else sn_task_total s) /\
  sn_queue_positions c = (if rw_wanted (ts_queue sync)
    then sn_queue_positions (install_queue (rw_rows (ts_queue sync)) s) else sn_queue_positions s) /\
  sn_queue_total c = (if rw_wanted (ts_queue sync) then None else sn_queue_total s) /\
  (finish sync s).2 = ts_backlog sync.
Proof.
  unfold finish, into_parts. cbn. destruct (rw_wanted (ts_tasks sync)), (rw_wanted (ts_queue sync)); done.
Qed.

Lemma next_request_done sync sync' :
  next_request sync = (None, sync') ->
  (rw_wanted (ts_tasks sync) = true -> rw_done (ts_tasks sync) = true) /\
  (rw_wanted (ts_queue sync) = true -> rw_done (ts_queue sync) = true) /\
  ts_tasks sync' = ts_tasks sync /\ ts_queue sync' = ts_queue sync /\ ts_backlog sync' = ts_backlog sync.
Proof.
  unfold next_request. destruct (rw_wanted (ts_tasks sync)), (rw_done (ts_tasks sync)),
    (rw_wanted (ts_queue sync)), (rw_done (ts_queue sync)); cbn; intros [= <-]; done.
Qed.

Lemma table_total_nil {A} (l : list A) : bool_decide (l <> []) = false -> l = [] /\ table_total (length l) = None.
Proof. intros H. bool_hyps. destruct l; [done|]. by destruct H. Qed.

Lemma finished_client epoch base s0 events transit sync sync' :
  server_ok s0 -> loading_ok epoch base s0 events transit Idle sync -> next_request sync = (None, sync') ->
  client_ok s0 events (finish sync' (paged_header s0)).1 /\ (finish sync' (paged_header s0)).2 = ts_backlog sync.
Proof.
  intros Hs0 [] Hn. destruct (next_request_done _ _ Hn) as (Hdt & Hdq & Et & Eq & Eb).
  destruct (finish_fields sync' (paged_header s0)) as (Ft & Ftt & Fq & Fqt & Fb). rewrite Et, Eq, Eb in *.
  split; [|done]. set (c := (finish sync' (paged_header s0)).1) in *. clearbody c.
  destruct ld_wanted0 as [Wt Wq]. destruct ld_tasks0 as [Hsr Hrows Hread Hunw]. destruct ld_queue0 as [(bound & Hb & Hi & Hent) Hqunw].
  destruct (sv_loaded _ Hs0) as [Lt Lq].
  assert (sn_tasks c = rw_rows (ts_tasks sync) /\ (forall id, task_covered (ts_tasks sync) id) /\ sn_task_total c = None) as (Tt & Tc & Ttot).
  { destruct (rw_wanted (ts_tasks sync)) eqn:W.
    - split_and!; [done|intros id; left; by apply Hdt|done].
    - destruct (Hunw eq_refl) as [Hd Hr]. symmetry in Wt. apply table_total_nil in Wt as [Wn Wt].
      split_and!; [by rewrite Ft, Hr|intros id; by left|]. rewrite Ftt. cbn. by rewrite Wt, Lt. }
  assert ((forall id, untouched id events -> of_task id (entries c) ≡ₚ of_task id (entries s0)) /\
    sorted_snapshot c /\ ranked c /\ sn_queue_total c = None) as (Qe & Qs & Qr & Qtot).
  { unfold sorted_snapshot, ranked. rewrite Fq, Fqt. destruct (rw_wanted (ts_queue sync)) eqn:W.
    - destruct (install_queue_spec (rw_rows (ts_queue sync)) (paged_header s0)) as (Hp & Hs & Hr).
      split_and!; [|done|done|done]. intros id Hu. unfold of_task at 1. rewrite Hp. etrans; [exact (Hent id Hu)|].
      rewrite filter_keep; [done|]. apply Forall_true. intros x. left. by apply Hdq.
    - symmetry in Wq. apply table_total_nil in Wq as [Wn Wq]. cbn. rewrite Wq, Lq, Wn.
      split_and!; [done|constructor|done|done]. }
  constructor; try done.
  - intros id. destruct (Hread id (Tc id)) as (k & _ & Hk). exists k. by rewrite Tt, Hk.
  - rewrite Tt. by apply sorted_rows_NoDup.
Qed.

Lemma client_converges s0 events c :
  Forall quiet events -> Forall valid_event events -> (forall k, server_ok (server s0 (take k events))) ->
  client_ok s0 events c ->
  sn_tasks (server c events) ≡ₚ sn_tasks (server s0 events) /\
  sn_queue_positions (server c events) = sn_queue_positions (server s0 events) /\ loaded (server c events).
Proof.
  intros Hq Hv Hs []. pose proof (Hs (length events)) as Hend. rewrite firstn_all in Hend.
  assert (sorted_snapshot s0) as Hs0 by (pose proof (Hs 0%nat); by apply server_ok_sorted).
  split_and!.
  - apply rows_permutation; [by eapply server_unique|apply Hend|]. intros id. destruct (cl_rows0 id) as [k Hk].
    by apply (replay_row s0 c events k).
  - apply ranked_determined; [by eapply server_ranked|apply Hend|by apply server_sorted|apply Hend|].
    apply entries_permutation. intros id. destruct (events_entries events id Hq Hv) as [[l Hl]|Hu].
    + by rewrite !Hl.
    + rewrite !untouched_entries by done. by apply cl_entries0.
  - by apply server_loaded.
Qed.

(** ** Loading from a server that stands still *)

(** The loop of a client whose pages arrive one after the other; [None] when a
    page is refused or the fuel runs out. *)
Fixpoint load_still (fuel : nat) (s : DaemonSnapshot) (epoch : text) (sequence : Z) (sync : TableSync) : option TableSync :=
  match fuel with
  | O => None
  | S fuel =>
      match next_request sync with
      | (None, sync) => Some sync
      | (Some p, sync) =>
          match build s epoch sequence p with
          | Err _ => None
          | Ok page => match accept_page sync page with
                       | Err _ => None
                       | Ok sync => load_still fuel s epoch sequence sync
                       end
          end
      end
  end.

Definition rows_left {T} (total : nat) (r : Rows T) : nat :=
  if rw_done r then 0%nat else S (total - length (rw_rows r)).

Definition pages_left (s : DaemonSnapshot) (sync : TableSync) : nat :=
  (rows_left (length (sn_tasks s)) (ts_tasks sync) + rows_left (length (sn_queue_positions s)) (ts_queue sync))%nat.

Section Still.
Context (epoch : text) (base : Z) (s : DaemonSnapshot) (Hs : server_ok s).

Lemma still_rows_length transit ph sync :
  loading_ok epoch base s [] transit ph sync ->
  (length (rw_rows (ts_tasks sync)) <= length (sn_tasks s))%nat /\
  (length (rw_rows (ts_queue sync)) <= length (sn_queue_positions s))%nat.
Proof.
  intros []. destruct ld_tasks0 as [Hsr Hrows Hread _]. destruct ld_queue0 as [(bound & _ & _ & He) _]. split.
  - apply submseteq_length, NoDup_submseteq.
    { eapply NoDup_fmap_1. apply (sorted_rows_NoDup _ Hsr). }
    intros t Ht. destruct (Hread (t_id t) (Hrows t Ht)) as (k & _ & Hk). rewrite take_nil in Hk. cbn in Hk.
    rewrite (proj2 (find_task_spec _ _ t (sorted_rows_NoDup _ Hsr))) in Hk by done.
    symmetry in Hk. apply find_task_spec in Hk as [? _]; [done|apply Hs].
  - assert (map entry_pair (rw_rows (ts_queue sync)) ≡ₚ
      filter (fun x => key_covered (rw_done (ts_queue sync)) bound x.2) (entries s)) as Hp.
    { apply entries_permutation. intros id. rewrite of_task_filter. apply He. constructor. }
    apply Permutation_length in Hp. rewrite length_map in Hp. rewrite Hp, length_filter. apply Nat.eq_le_incl, length_map.
Qed.

Lemma accept_rows_ok {T} (r : Rows T) rows requested next :
  (forall c, next = Some c -> Some c <> requested) -> (is_Some next -> rows <> []) ->
  exists r', accept_rows r rows requested next = Ok r' /\
    (rw_done r' = true \/ (length (rw_rows r) < length (rw_rows r'))%nat).
Proof.
  intros Hne Hrows. unfold accept_rows. rewrite decide_False; [|intros [[c Hc] Heq]; by apply (Hne c); congruence].
  eexists. split; [done|]. cbn. destruct next as [c|]; [right|by left]. rewrite length_app.
  destruct rows; [by destruct Hrows|cbn; lia].
Qed.

Lemma rows_left_decreases {T} total (r r' : Rows T) :
  rw_done r = false -> (rw_done r' = true \/ (length (rw_rows r) < length (rw_rows r'))%nat) ->
  (length (rw_rows r') <= total)%nat -> (rows_left total r' < rows_left total r)%nat.
Proof. intros Hd Hr Hl. unfold rows_left. rewrite Hd. destruct (rw_done r'); [lia|]. destruct Hr; [done|lia]. Qed.

(** The page a request gets is accepted. *)
Lemma still_page sync p :
  loading_ok epoch base s [] [] (Asked p) sync ->
  exists page sync', build s epoch (base + 0) p = Ok page /\ accept_page sync page = Ok sync' /\
    match pp_section p with
    | TasksSection => (rw_done (ts_tasks sync') = true \/
        (length (rw_rows (ts_tasks sync)) < length (rw_rows (ts_tasks sync')))%nat) /\ ts_queue sync' = ts_queue sync
    | QueueSection => (rw_done (ts_queue sync') = true \/
        (length (rw_rows (ts_queue sync)) < length (rw_rows (ts_queue sync')))%nat) /\ ts_tasks sync' = ts_tasks sync
    end.
Proof.
  intros []. destruct ld_phase0 as [Hr Hsec]. destruct ld_base0 as [He _]. unfold build, accept_page. rewrite Hr.
  destruct (pp_section p) eqn:Esec.
  - destruct Hsec as (_ & _ & Hc). destruct (task_page s (pp_cursor p) (page_limit p)) as [rows next] eqn:Ep.
    destruct (task_page_spec _ _ _ _ _ (sv_ids _ Hs) Ep) as (_ & _ & Hnext).
    destruct (accept_rows_ok (ts_tasks sync) rows (pp_cursor p) next) as (r & Hr' & Hdone).
    { intros c Hn Heq. destruct (Hnext c Hn) as [Hb _]. rewrite <-Heq in Hb. apply Hb. by destruct (total text_le c c). }
    { intros [c Hn]. by destruct (Hnext c Hn). }
    eexists _, _. split; [done|]. cbn. rewrite decide_False by (cbn; congruence). cbn. rewrite Hr'. split; [done|]. by split.
  - destruct Hsec as (_ & _ & Hc). destruct (qr_cursor _ _ _ ld_queue0) as (bound & Hb & Hi & _). rewrite Hc, Hb in *.
    destruct (queue_page s bound (page_limit p)) as [rows next] eqn:Ep.
    destruct (queue_page_spec _ _ _ _ _ (server_ok_sorted _ Hs) Ep) as (bd & Hnx & _ & Hbd).
    destruct (accept_rows_ok (ts_queue sync) rows (show_int <$> bound) next) as (r & Hr' & Hdone).
    { intros c Hn Heq. rewrite Hnx in Hn. destruct bd as [k|]; [|done]. destruct bound as [b|]; [|done]. cbn in *.
      destruct (Hbd k eq_refl) as (Hlt & Hin & _). assert (is_i64 k) as Hk.
      { pose proof (sv_keys _ Hs) as HF. rewrite Forall_forall in HF. by apply HF. }
      pose proof (parse_show_int i64_min i64_max k ltac:(done) Hk) as H1.
      pose proof (parse_show_int i64_min i64_max b ltac:(done) (Hi b eq_refl)) as H2. cbn in Hlt.
      assert (Some k = Some b) as [= ->] by congruence. lia. }
    { intros [c Hn]. rewrite Hnx in Hn. destruct bd as [k|]; [|done]. by destruct (Hbd k eq_refl) as (_ & _ & ?). }
    assert (exists t, match (show_int <$> bound) with
      | None => let '(rows, next) := queue_page s None (page_limit p) in
          Ok (mk_page epoch (base + 0) QueueSection (Z.min (Z.of_nat (length (sn_queue_positions s))) u64_max) [] rows next)
      | Some c => match parse_i64 c with
          | Some c => let '(rows, next) := queue_page s (Some c) (page_limit p) in
              Ok (mk_page epoch (base + 0) QueueSection (Z.min (Z.of_nat (length (sn_queue_positions s))) u64_max) [] rows next)
          | None => Err invalid_page_cursor end end = Ok (mk_page epoch (base + 0) QueueSection t [] rows next)) as [t Ht].
    { eexists. destruct bound as [b|]; cbn [fmap option_fmap option_map]; [|by rewrite Ep].
      unfold parse_i64. rewrite parse_show_int by (done || by apply Hi). by rewrite Ep. }
    eexists _, _. split; [exact Ht|]. cbn. rewrite decide_False by (cbn; congruence). cbn. rewrite Hr'. split; [done|]. by split.
Qed.

Lemma still_step sync p sync1 :
  loading_ok epoch base s [] [] Idle sync -> next_request sync = (Some p, sync1) ->
  exists page sync2, build s epoch (base + 0) p = Ok page /\ accept_page sync1 page = Ok sync2 /\
    loading_ok epoch base s [] [] Idle sync2 /\ (pages_left s sync2 < pages_left s sync)%nat.
Proof.
  intros Hl Hn. pose proof (request_ok _ _ _ _ _ _ _ _ Hl Hn) as Hl1.
  destruct (still_page sync1 p Hl1) as (page & sync2 & Hb & Ha & Hprog). exists page, sync2.
  assert (loading_ok epoch base s [] [] Idle sync2) as Hl2.
  { eapply accept_ok; [exact Hs| |exact Ha]. destruct Hl1. constructor; try done.
    exists 0%nat, p, None. split_and!; [done|done|]. cbn.
    assert (with_limit p None = p) as ->; [|exact Hb].
    unfold next_request in Hn. by repeat case_match; simplify_eq. }
  split_and!; [done|done|done|]. destruct (still_rows_length _ _ _ Hl2) as [L1 L2].
  assert (ts_tasks sync1 = ts_tasks sync /\ ts_queue sync1 = ts_queue sync) as [E1 E2].
  { unfold next_request in Hn. by repeat case_match; simplify_eq. }
  destruct Hl1. destruct ld_phase0 as [_ Hsec]. unfold pages_left. rewrite <-E1, <-E2.
  destruct (pp_section p); destruct Hprog as [Hprog ->]; destruct Hsec as (_ & Hd & _).
  - pose proof (rows_left_decreases _ _ _ Hd Hprog L1). lia.
  - pose proof (rows_left_decreases _ _ _ Hd Hprog L2). lia.
Qed.

Lemma load_still_ends fuel sync :
  loading_ok epoch base s [] [] Idle sync -> (pages_left s sync < fuel)%nat ->
  exists sync1 sync2, load_still fuel s epoch (base + 0) sync = Some sync2 /\
    loading_ok epoch base s [] [] Idle sync1 /\ next_request sync1 = (None, sync2).
Proof.
  revert sync. induction fuel as [|fuel IH]; intros sync Hl Hf; [lia|]. cbn.
  destruct (next_request sync) as [[p|] sync1] eqn:Hn.
  - destruct (still_step sync p sync1 Hl Hn) as (page & sync2 & -> & -> & Hl2 & Hlt). apply IH; [done|lia].
  - by exists sync, sync1.
Qed.
End Still.

(** ** Properties *)

(** C34. However the pages are cut, whenever they are read and whatever the
    server does meanwhile: once every page is in, a client that installs the
    tables and replays the frames since the base frame, those it kept and those
    still on their way, meets no gap, ends at the server's sequence number with
    the server's task rows and queue positions, and its tables are complete. *)
Theorem paging_converges (epoch : text) (base : Z) (s0 : DaemonSnapshot) (events : list DaemonEvent)
    (transit : list EventFrame) (sync sync' : TableSync) :
  server_ok s0 -> 0 <= base -> loading epoch base s0 events transit Idle sync -> next_request sync = (None, sync') ->
  let '(start, backlog) := finish sync' (paged_header s0) in
  exists c, consume epoch base start (backlog ++ transit) = Some (base + Z.of_nat (length events), c) /\
    sn_tasks c ≡ₚ sn_tasks (server s0 events) /\
    sn_queue_positions c = sn_queue_positions (server s0 events) /\ loaded c.
Proof.
  intros Hs0 Hb Hl Hn. pose proof (loading_invariant _ _ _ _ _ _ _ Hs0 Hl) as Hok.
  destruct (finished_client _ _ _ _ _ _ _ Hs0 Hok Hn) as [Hc Hbl]. destruct Hok.
  destruct (finish sync' (paged_header s0)) as [start backlog]. cbn in *. subst backlog.
  exists (server start events). rewrite ld_frames0, replay_published by done. split; [done|].
  by apply client_converges.
Qed.

(** On a server that stands still the loop of requests ends, within one
    request per row and table, no page is refused, and the client has every
    task row once and the queue positions as they are. *)
Theorem still_load_complete (epoch : text) (base : Z) (s : DaemonSnapshot) (sync : TableSync) (fuel : nat) :
  server_ok s -> for_snapshot epoch base (paged_header s) = Some sync ->
  (length (sn_tasks s) + length (sn_queue_positions s) + 2 < fuel)%nat ->
  exists sync', load_still fuel s epoch base sync = Some sync' /\
    let '(c, backlog) := finish sync' (paged_header s) in
    backlog = [] /\ sn_tasks c ≡ₚ sn_tasks s /\ sn_queue_positions c = sn_queue_positions s /\ loaded c.
Proof.
  intros Hs Hf Hfuel. pose proof (start_ok _ base s sync Hs Hf) as Hok.
  destruct (load_still_ends epoch base s Hs fuel sync Hok) as (sync1 & sync2 & Hl & Hok1 & Hn).
  { unfold pages_left, rows_left. repeat case_match; lia. }
  exists sync2. rewrite Z.add_0_r in Hl. split; [done|].
  destruct (finished_client _ _ _ _ _ _ _ Hs Hok1 Hn) as [Hc Hbl]. destruct Hok1.
  destruct (finish sync2 (paged_header s)) as [c backlog]. cbn in *.
  split; [rewrite Hbl; by destruct (app_eq_nil _ _ ld_frames0)|]. by apply (client_converges s [] c).
Qed.

(** ** Witnesses *)
Definition sample_server : DaemonSnapshot :=
  mk_snapshot ∅ [sample_task (lit "b"); sample_task (lit "a")] None None [mk_pos (lit "b") 1 (-5)]
    sample_stats [] [] (mk_config 0 ∅) [] ∅ [] [] [] [] [].

(** A task in front of the cursor is deleted and a new one arrives while the
    second page is under way. *)
Definition sample_events : list DaemonEvent := [TaskDeleted (lit "a"); TaskChanged (sample_task (lit "c"))].

Ltac concrete_server := constructor;
  [apply (bool_decide_unpack _); vm_compute; exact I|repeat constructor|reflexivity|repeat constructor; done|by split].

Lemma still_load_complete_witness :
  exists sync sync', for_snapshot (lit "e") 7 (paged_header sample_server) = Some sync /\
    load_still 6 sample_server (lit "e") 7 sync = Some sync'.
Proof.
  eexists. destruct (still_load_complete (lit "e") 7 sample_server
    (mk_sync (lit "e") 7 (new_rows (Some 2)) (new_rows (Some 1)) None []) 6) as (sync' & Hl & _).
  - concrete_server.
  - reflexivity.
  - cbn. lia.
  - exists sync'. split; [reflexivity|exact Hl].
Defined.

(** One page of [limit] rows. *)
Definition run_page (s : DaemonSnapshot) (epoch : text) (sequence limit : Z) (sync : TableSync) : option TableSync :=
  match next_request sync with
  | (Some p, sync) =>
      match build s epoch sequence (with_limit p (Some limit)) with
      | Ok page => match accept_page sync page with Ok sync => Some sync | Err _ => None end
      | Err _ => None
      end
  | _ => None
  end.

Lemma loading_page epoch base s0 events transit sync limit sync' :
  loading epoch base s0 events transit Idle sync ->
  run_page (server s0 events) epoch (base + Z.of_nat (length events)) limit sync = Some sync' ->
  loading epoch base s0 events transit Idle sync'.
Proof.
  intros Hl. unfold run_page. destruct (next_request sync) as [[p|] sync1] eqn:Hn; [|done].
  destruct (build _ _ _ _) as [page|] eqn:Hb; [|done]. destruct (accept_page sync1 page) as [sync2|] eqn:Ha; [|done].
  intros [= <-]. eapply loading_accept; [|exact Ha]. eapply loading_serve; [|exact Hb]. by eapply loading_request.
Qed.

Definition sample_start : TableSync := mk_sync (lit "e") 7 (new_rows (Some 2)) (new_rows (Some 1)) None [].
Definition after_page (s : DaemonSnapshot) (sequence : Z) (sync : TableSync) : TableSync :=
  default sync (run_page s (lit "e") sequence 1 sync).
Definition sample_changed : DaemonSnapshot := server sample_server sample_events.
Definition sample_first_page : TableSync := after_page sample_server 7 sample_start.
Definition sample_rest : TableSync :=
  after_page sample_changed 9 (after_page sample_changed 9 (after_page sample_changed 9 sample_first_page)).

Lemma sample_loading :
  exists transit, loading (lit "e") 7 sample_server sample_events transit Idle sample_rest.
Proof.
  eexists. assert (loading (lit "e") 7 sample_server [] [] Idle sample_first_page) as H1.
  { eapply (loading_page _ _ _ [] [] sample_start 1); [|reflexivity]. by apply loading_start. }
  assert (loading (lit "e") 7 sample_server [TaskDeleted (lit "a")]
    [mk_frame (lit "e") 8 None (TaskDeleted (lit "a"))] Idle sample_first_page) as H2.
  { apply (loading_event (lit "e") 7 sample_server [] [] Idle sample_first_page (TaskDeleted (lit "a")));
      [exact H1|done|done|concrete_server]. }
  assert (loading (lit "e") 7 sample_server sample_events
    ([mk_frame (lit "e") 8 None (TaskDeleted (lit "a"))] ++
     [mk_frame (lit "e") 9 None (TaskChanged (sample_task (lit "c")))]) Idle sample_first_page) as H3.
  { apply (loading_event (lit "e") 7 sample_server [TaskDeleted (lit "a")] _ Idle sample_first_page
      (TaskChanged (sample_task (lit "c")))); [exact H2|done|done|concrete_server]. }
  apply (loading_page _ _ _ _ _ (after_page sample_changed 9 (after_page sample_changed 9 sample_first_page)) 1);
    [|reflexivity].
  apply (loading_page _ _ _ _ _ (after_page sample_changed 9 sample_first_page) 1); [|reflexivity].
  apply (loading_page _ _ _ _ _ sample_first_page 1); [exact H3|reflexivity].
Qed.

Lemma paging_converges_witness :
  exists c, sn_tasks c ≡ₚ sn_tasks sample_changed /\ sn_queue_positions c = [mk_pos (lit "b") 1 (-5)] /\ loaded c.
Proof.
  destruct sample_loading as [transit Hl].
  pose proof (paging_converges (lit "e") 7 sample_server sample_events transit sample_rest
    (next_request sample_rest).2 ltac:(concrete_server) ltac:(lia) Hl ltac:(reflexivity)) as Hp.
  destruct (finish (next_request sample_rest).2 (paged_header sample_server)) as [start backlog].
  destruct Hp as (c & _ & Ht & Hq & Hld). by exists c.
Defined.

(** The runtime readings are not tables, and the replay does not restore them:
    a late sample of a finished task, which the server drops, is accepted by a
    client whose page already shows the task restarted.  The next sample of the
    task replaces it. *)
Definition finished_task : DaemonSnapshot :=
  with_tasks sample_server [mk_task (lit "a") [] [] [] 3 0 100 [] [] false [] 0 0 [] 0 []].
Definition late_sample : list DaemonEvent :=
  [TaskRuntimeChanged (mk_runtime (lit "a") 5 None None 100 [] None); TaskChanged (sample_task (lit "a"))].

Example replayed_sample_stays :
  let at_server := server finished_task late_sample in
  let client := server (install_tasks (sn_tasks at_server) (paged_header finished_task)) late_sample in
  sn_tasks client = sn_tasks at_server /\ sn_runtime at_server !! lit "a" = None /\
  is_Some (sn_runtime client !! lit "a").
Proof. vm_compute. split_and!; [done|done|by eexists]. Qed.
