(* ===== verification/SnapshotWf.v ===== *)
(** * SnapshotWf: what the daemon's projection always satisfies
      ([native/protocol/src/event.rs]).

    One row per task; a runtime entry only for a known task that has not
    finished, and without activity unless the task transfers; one entry per
    pending selection; the delivery history newest first and bounded.  Every
    event and every table operation keeps this. *)
From Stdlib Require Import Ascii.
From S2P Require Import Prelude Text QueueOrder Projection Coalesce TableSync.

(** No transfer is shown as under way. *)
Definition at_rest (r : TaskRuntimeDto) : Prop :=
  r_active_transfers r = Some 0 /\ Forall (fun sg => ts_active sg = Some false) (r_segments r).

(** What a runtime entry may be, given its task. *)
Definition runtime_fits (t : option TaskDto) (r : TaskRuntimeDto) : Prop :=
  exists t', t = Some t' /\ t_status t' <> 3 /\ (transfers (t_status t') = false -> at_rest r).

Definition newest_first (l : list WebhookDelivery) : Prop :=
  StronglySorted (fun a b => wd_timestamp b <= wd_timestamp a) l.

Record snapshot_wf (s : DaemonSnapshot) : Prop := {
  wf_ids : unique_ids s;
  wf_runtime_id : forall id r, sn_runtime s !! id = Some r -> r_id r = id;
  wf_runtime : sn_task_total s = None -> forall id r, sn_runtime s !! id = Some r -> runtime_fits (row id s) r;
  wf_selections : NoDup (map fst (sn_selections s));
  wf_deliveries : newest_first (sn_deliveries s) /\ (length (sn_deliveries s) <= WEBHOOK_DELIVERY_LIMIT)%nat
}.

(** Tables inside an event are those of the daemon. *)
Definition event_wf (e : DaemonEvent) : Prop :=
  match e with
  | SnapshotReplaced s => snapshot_wf s
  | Engine (MTasksSnapshot ts) => NoDup (map t_id ts)
  | _ => True
  end.

(** ** Rows and runtime *)

(** A change of one task's row and runtime entry. *)
Lemma wf_local id F s :
  keeps_id F ->
  (forall r', (F (row id s) (sn_runtime s !! id)).2 = Some r' -> r_id r' = id) ->
  (sn_task_total s = None -> forall r', (F (row id s) (sn_runtime s !! id)).2 = Some r' ->
     runtime_fits ((F (row id s) (sn_runtime s !! id)).1 <$> row id s) r') ->
  snapshot_wf s -> snapshot_wf (local id F s).
Proof.
  intros HF Hid Hfit []. pose proof (HF (row id s) (sn_runtime s !! id)) as Hk. unfold local.
  destruct (F (row id s) (sn_runtime s !! id)) as [g o] eqn:E. cbn in *.
  constructor; cbn; try done.
  - by rewrite alter_keeps_ids.
  - intros id' r Hr. destruct (decide (id' = id)) as [->|Hne].
    + rewrite lookup_partial_alter_eq in Hr. by apply Hid.
    + rewrite lookup_partial_alter_ne in Hr by done. by apply wf_runtime_id0.
  - intros Ht id' r Hr. destruct (decide (id' = id)) as [->|Hne].
    + rewrite lookup_partial_alter_eq in Hr. rewrite find_alter_same by done. by apply Hfit.
    + rewrite lookup_partial_alter_ne in Hr by done. rewrite find_alter_other by done. by apply wf_runtime0.
Qed.

(** An edit that leaves the status alone. *)
Lemma wf_edit id f s :
  (forall t, t_id (f t) = t_id t) -> (forall t, t_status (f t) = t_status t) -> snapshot_wf s -> snapshot_wf (task_edit id f s).
Proof.
  intros Hid Hst Hs. rewrite task_edit_local. apply wf_local; [by apply keeps_id_edit|apply (wf_runtime_id _ Hs)| |done].
  intros Ht r Hr. destruct (wf_runtime _ Hs Ht id r Hr) as (t & Hrow & Hne & Hrest). cbn in *. rewrite Hrow.
  exists (f t). by rewrite Hst.
Qed.

Lemma at_rest_zero r : at_rest (zero_runtime_activity r).
Proof. split; [done|]. cbn. rewrite Stdlib.Lists.List.Forall_map. by apply Forall_true. Qed.

Lemma settled_fits status o r t :
  settled_runtime status o = Some r -> t_status t = status ->
  runtime_fits (Some t) r /\ exists r0, o = Some r0 /\ r_id r = r_id r0.
Proof.
  unfold settled_runtime, runtime_retained. destruct (status =? 3) eqn:E3; cbn; [done|]. bool_hyps.
  destruct (transfers status) eqn:Et.
  - intros -> Hst. split; [|by exists r]. exists t. split_and!; [done|congruence|]. rewrite Hst, Et. done.
  - destruct o as [r0|]; cbn; [|done]. intros [= <-] Hst. split; [|by exists r0].
    exists t. split_and!; [done|congruence|]. intros _. apply at_rest_zero.
Qed.

Lemma wf_changed t s : snapshot_wf s -> snapshot_wf (apply_task_changed t s).
Proof.
  intros []. pose proof (changed_unique t s wf_ids0) as Hu. revert Hu. unfold apply_task_changed.
  set (s' := match row (t_id t) s with Some _ => _ | None => _ end). intros Hu.
  assert (sn_runtime s' = sn_runtime s /\ sn_task_total s' = sn_task_total s /\ sn_selections s' = sn_selections s /\
    sn_deliveries s' = sn_deliveries s) as (Er & Et & Es & Ed) by (unfold s'; by destruct (row (t_id t) s)).
  assert (forall id, row id s' = if decide (id = t_id t) then Some t else row id s) as Hrow.
  { intros id. unfold s'. destruct (row (t_id t) s) as [x|] eqn:E; cbn.
    - rewrite (find_alter_const (t_id t)) by (done || by rewrite E). done.
    - rewrite find_task_app. repeat case_decide; congruence. }
  clearbody s'. constructor; cbn; rewrite ?Er, ?Et, ?Es, ?Ed; try done.
  - intros id r Hr. destruct (decide (id = t_id t)) as [->|Hne].
    + rewrite lookup_partial_alter_eq in Hr. destruct (settled_fits _ _ _ t Hr eq_refl) as [_ (r0 & Hr0 & ->)].
      by apply wf_runtime_id0.
    + rewrite lookup_partial_alter_ne in Hr by done. by apply wf_runtime_id0.
  - intros Ht id r Hr. rewrite Hrow. case_decide as Hd.
    + subst id. rewrite lookup_partial_alter_eq in Hr. by destruct (settled_fits _ _ _ t Hr eq_refl).
    + rewrite lookup_partial_alter_ne in Hr by done. by apply wf_runtime0.
Qed.

(** Tasks leave together with their runtime entries. *)
Lemma wf_remove (P : text -> Prop) `{!forall id, Decision (P id)} ts rt s :
  ts = filter (fun t => P (t_id t)) (sn_tasks s) ->
  (forall id r, rt !! id = Some r -> P id /\ sn_runtime s !! id = Some r) ->
  snapshot_wf s -> snapshot_wf (with_runtime (with_tasks s ts) rt).
Proof.
  intros -> Hrt []. constructor; cbn; try done.
  - by apply NoDup_filter_ids.
  - intros id r Hr. apply Hrt in Hr as [_ Hr]. by apply wf_runtime_id0.
  - intros Ht id r Hr. apply Hrt in Hr as [HP Hr]. rewrite find_filter_in by by intros t ->. by apply wf_runtime0.
Qed.

Lemma wf_delete id s : snapshot_wf s -> snapshot_wf (delete_task id s).
Proof.
  apply (wf_remove (fun id' => id' <> id)); [done|]. intros id' r Hr. by apply lookup_delete_Some in Hr as [? ?].
Qed.

Lemma wf_progress p s : snapshot_wf s -> snapshot_wf (apply_progress p s).
Proof.
  intros Hs. destruct (is_deleted_progress p) eqn:Hd.
  { unfold apply_progress. rewrite Hd. by apply wf_delete. }
  rewrite apply_progress_local by done. apply wf_local; [apply keeps_id_progress| | |done]; cbn.
  - intros r Hr. destruct (settled_fits _ _ _ (progress_task p (sample_task (p_id p))) Hr eq_refl) as [_ (r0 & Hr0 & ->)].
    by apply (wf_runtime_id _ Hs).
  - intros Ht r Hr. destruct (sn_runtime s !! p_id p) as [r0|] eqn:E.
    + destruct (wf_runtime _ Hs Ht _ _ E) as (t & -> & _). cbn.
      by destruct (settled_fits _ _ _ (progress_task p t) Hr eq_refl).
    + unfold settled_runtime in Hr. by repeat case_match.
Qed.

Lemma at_rest_deactivated a b c d sgs e : at_rest (mk_runtime a b (Some 0) c d (map deactivate sgs) e).
Proof. split; [done|]. cbn. rewrite Stdlib.Lists.List.Forall_map. by apply Forall_true. Qed.

Lemma wf_runtime_sample r s : snapshot_wf s -> snapshot_wf (apply_runtime r s).
Proof.
  intros Hs. rewrite apply_runtime_local. apply wf_local; [apply keeps_id_runtime| | |done]; cbn.
  - intros r'. destruct (row (r_id r) s) as [t|]; [|apply (wf_runtime_id _ Hs)].
    destruct (_ || _); [apply (wf_runtime_id _ Hs)|]. by destruct (transfers _); intros [= <-].
  - intros Ht r'. destruct (row (r_id r) s) as [t|] eqn:Et; cbn.
    + destruct (_ || _) eqn:E; intros Hr; [destruct (wf_runtime _ Hs Ht _ _ Hr) as (t' & Ht' & ?); rewrite Et in Ht'; by exists t'|].
      apply orb_false_elim in E as [_ E]. unfold runtime_retained in E. exists t. split; [done|].
      rewrite !negb_false_iff, negb_true_iff in E. bool_hyps. split; [done|]. intros Htr. rewrite Htr in Hr.
      injection Hr as <-. apply at_rest_deactivated.
    + intros Hr. destruct (wf_runtime _ Hs Ht _ _ Hr) as (t' & Ht' & _). congruence.
Qed.

Lemma wf_segments id total sgs s : snapshot_wf s -> snapshot_wf (apply_segments id total sgs s).
Proof.
  intros Hs. rewrite apply_segments_local. apply wf_local; [apply keeps_id_segments| | |done]; cbn.
  - intros r'. destruct (row id s) as [t|]; [|apply (wf_runtime_id _ Hs)].
    case_match; [apply (wf_runtime_id _ Hs)|]. intros [= <-].
    assert (r_id (default (mk_runtime id 0 (if negb (transfers (t_status t)) then Some 0 else None) None 0 [] None)
      (sn_runtime s !! id)) = id) as Hid.
    { destruct (sn_runtime s !! id) eqn:E; cbn; [by apply (wf_runtime_id _ Hs)|done]. }
    destruct (_ =? 0); exact Hid.
  - intros Ht r'. destruct (row id s) as [t|] eqn:Et; cbn.
    + destruct (negb (runtime_retained (t_status t))) eqn:E; intros Hr.
      { destruct (wf_runtime _ Hs Ht _ _ Hr) as (t' & Ht' & ?). rewrite Et in Ht'. by exists t'. }
      unfold runtime_retained in E. rewrite negb_false_iff, negb_true_iff in E. bool_hyps.
      exists t. split_and!; [done|done|]. intros Htr. rewrite Htr in Hr. cbn in Hr. injection Hr as <-.
      assert (at_rest (default (mk_runtime id 0 (Some 0) None 0 [] None) (sn_runtime s !! id))) as [Ha Hsg].
      { destruct (sn_runtime s !! id) as [r0|] eqn:E0; cbn; [|by split].
        destruct (wf_runtime _ Hs Ht _ _ E0) as (t' & Ht' & _ & Hq). rewrite Et in Ht'. injection Ht' as <-. by apply Hq. }
      destruct (_ =? 0); [|by split]. split; [done|]. cbn. unfold fresh_segments. rewrite Stdlib.Lists.List.Forall_map.
      by apply Forall_true.
    + intros Hr. destruct (wf_runtime _ Hs Ht _ _ Hr) as (t' & Ht' & _). congruence.
Qed.

(** ** Whole tables *)

Lemma wf_settled ts s :
  NoDup (map t_id ts) -> snapshot_wf s -> snapshot_wf (settle_task_table (with_task_total (with_tasks s ts) None)).
Proof.
  intros Hn []. constructor; cbn; try done.
  - intros id r Hr. rewrite map_lookup_imap in Hr. apply bind_Some in Hr as (r0 & Hr0 & Hr).
    destruct (find_task id ts) as [t|]; [|done]. destruct (settled_fits _ _ _ t Hr eq_refl) as [_ (r1 & [= <-] & ->)].
    by apply wf_runtime_id0.
  - intros _ id r Hr. rewrite map_lookup_imap in Hr. apply bind_Some in Hr as (r0 & Hr0 & Hr).
    destruct (find_task id ts) as [t|]; [|done]. by destruct (settled_fits _ _ _ t Hr eq_refl).
Qed.

Lemma wf_queue ps o s : snapshot_wf s -> snapshot_wf (with_queue s ps o).
Proof. intros []. by constructor. Qed.

Lemma wf_reload tasks queue s : snapshot_wf s -> snapshot_wf (begin_reload tasks queue s).
Proof.
  intros Hs. unfold begin_reload.
  assert (snapshot_wf (match tasks with Some n => with_task_total (with_tasks s []) (Some n) | None => s end)) as H.
  { destruct tasks as [n|]; [|done]. destruct Hs. constructor; cbn; try done. constructor. }
  destruct queue; [by apply wf_queue|done].
Qed.

Lemma wf_header s : snapshot_wf s -> snapshot_wf (paged_header s).
Proof.
  intros []. constructor; cbn; try done; [constructor|]. intros Ht id r Hr.
  destruct (table_total (length (sn_tasks s))) eqn:E; [done|]. apply table_total_None in E.
  destruct (wf_runtime0 Ht id r Hr) as (t & Hrow & _). by rewrite E in Hrow.
Qed.

(** ** The other parts *)

Lemma insert_delivery_spec d l : insert_delivery d l ≡ₚ d :: l /\ (newest_first l -> newest_first (insert_delivery d l)).
Proof.
  induction l as [|x l [IHp IHs]]; cbn; [split; [done|repeat constructor]|].
  destruct (wd_timestamp x <=? wd_timestamp d) eqn:E; bool_hyps.
  - split; [done|]. intros Hs. constructor; [done|]. inversion Hs as [|? ? Hl HF]; subst. constructor; [done|].
    eapply Forall_impl; [exact HF|]. cbn. lia.
  - split; [by rewrite IHp; constructor|]. intros Hs. inversion Hs as [|? ? Hl HF]; subst. constructor; [by apply IHs|].
    rewrite IHp. constructor; [lia|done].
Qed.

Lemma deliveries_merged current delta :
  newest_first current /\ (length current <= WEBHOOK_DELIVERY_LIMIT)%nat ->
  newest_first (merge_webhook_deliveries current delta) /\
  (length (merge_webhook_deliveries current delta) <= WEBHOOK_DELIVERY_LIMIT)%nat.
Proof.
  intros H. unfold merge_webhook_deliveries. destruct delta as [|d delta]; [done|].
  set (l := filter _ current ++ d :: delta). split.
  - assert (newest_first (foldr insert_delivery [] l)) as Hs.
    { induction l as [|x l IH]; [constructor|]. cbn. by apply insert_delivery_spec. }
    unfold newest_first in *. rewrite <-(take_drop WEBHOOK_DELIVERY_LIMIT) in Hs. by apply StronglySorted_app in Hs as (_ & ? & _).
  - rewrite length_take. lia.
Qed.

(** A change of the other parts that keeps what the state says of them. *)
Lemma wf_rest f s :
  (NoDup (map fst (sn_selections s)) -> NoDup (map fst (re_selections (f (rest_of s))))) ->
  (newest_first (sn_deliveries s) /\ (length (sn_deliveries s) <= WEBHOOK_DELIVERY_LIMIT)%nat ->
   newest_first (re_deliveries (f (rest_of s))) /\ (length (re_deliveries (f (rest_of s))) <= WEBHOOK_DELIVERY_LIMIT)%nat) ->
  snapshot_wf s -> snapshot_wf (apply_rest f s).
Proof. intros Hsel Hdel []. constructor; cbn; auto. Qed.

Lemma selections_kept (P : text * Blob -> Prop) `{!forall x, Decision (P x)} l :
  NoDup (map fst l) -> NoDup (map fst (filter P l)).
Proof. intros Hn. eapply sublist_NoDup; [exact Hn|apply fmap_sublist, sublist_filter]. Qed.

Lemma selection_added request_id b (l : list (text * Blob)) :
  NoDup (map fst l) -> NoDup (map fst (filter (fun x => x.1 <> request_id) l ++ [(request_id, b)])).
Proof.
  intros Hn. rewrite map_app. apply NoDup_app. split_and!; [by apply selections_kept| |cbn; apply NoDup_singleton].
  intros x (y & -> & [Hy _]%list_elem_of_filter)%list_elem_of_fmap Hin%list_elem_of_singleton. done.
Qed.

Lemma wf_fold {A} (h : DaemonSnapshot -> A -> DaemonSnapshot) l s :
  (forall s a, snapshot_wf s -> snapshot_wf (h s a)) -> snapshot_wf s -> snapshot_wf (foldl h s l).
Proof. intros Hh. revert s. induction l as [|a l IH]; intros s Hs; [done|]. apply IH. by apply Hh. Qed.

Lemma wf_engine m s : event_wf (Engine m) -> snapshot_wf s -> snapshot_wf (apply_engine_message m s).
Proof.
  intros He Hs. destruct m; cbn [apply_engine_message]; try done;
    try (by apply wf_rest); try (by apply wf_edit); try (by apply wf_queue).
  - by apply wf_progress.
  - by apply wf_settled.
  - by apply wf_segments.
  - apply wf_fold; [|done]. intros x u. by apply wf_edit.
  - apply wf_rest; [done| |done]. intros Hd. by apply deliveries_merged.
Qed.

(** ** Properties *)

(** C40. The projection is well formed after every event, whatever the event
    says about unknown, finished or deleted tasks, and after every operation on
    its tables: one row per task; runtime readings only of known tasks that are
    not finished, and at rest unless the task transfers; one entry per pending
    selection; a sorted delivery history of at most [WEBHOOK_DELIVERY_LIMIT]. *)
Theorem projection_well_formed (s : DaemonSnapshot) :
  snapshot_wf s ->
  (forall e, event_wf e -> snapshot_wf (apply_daemon_event e s)) /\
  (forall ts, NoDup (map t_id ts) -> snapshot_wf (install_tasks ts s)) /\
  (forall es, snapshot_wf (install_queue es s)) /\ snapshot_wf (paged_header s).
Proof.
  intros Hs. split_and!.
  - intros e He. destruct e; cbn [apply_daemon_event]; try done; try (by apply wf_rest).
    + by apply wf_runtime_sample.
    + by apply wf_reload.
    + by apply wf_engine.
    + by apply wf_changed.
    + apply wf_fold; [|done]. intros x t. by apply wf_changed.
    + by apply wf_delete.
    + apply (wf_remove (fun id => id ∉ ids)); [done| |done]. intros id r [Hr Hid]%map_lookup_filter_Some. done.
    + apply wf_rest; [done| |done]. intros Hd. by apply deliveries_merged.
    + apply wf_rest; [done| |done]. intros _. split; [constructor|cbn; lia].
    + destruct Hs. by constructor.
    + apply wf_rest; [|done|done]. intros Hn. by apply selection_added.
    + apply wf_rest; [|done|done]. intros Hn. by apply selections_kept.
  - intros ts Hn. by apply wf_settled.
  - intros es. by apply wf_queue.
  - by apply wf_header.
Qed.

(** A late sample of a task that has just finished. *)
Lemma projection_well_formed_witness :
  snapshot_wf sample_snapshot /\
  snapshot_wf (apply_daemon_event (TaskChanged (mk_task (lit "a") [] [] [] 3 0 100 [] [] false [] 0 0 [] 0 [])) sample_snapshot).
Proof.
  assert (snapshot_wf sample_snapshot) as Hs.
  { constructor; cbn; [apply NoDup_singleton|done|done|constructor|split; [constructor|lia]]. }
  split; [exact Hs|]. apply (proj1 (projection_well_formed sample_snapshot Hs)). exact I.
Defined.
