(* ===== verification/EventHub.v ===== *)
(** * EventHub: the daemon's event hub ([native/daemon/src/event_hub.rs])

    The hub owns the snapshot, numbers the events and broadcasts them as frames;
    next to the snapshot it accounts for the tasks and their traffic, and
    publishes the statistics it derives.  Statistics change without an event of
    their own (a rate falls when time passes), so the hub has to publish them
    whenever they differ from what the subscribers know.

    A moment is a number of nanoseconds on the monotonic clock; moments are
    arguments.  The ring of traffic buckets is a list of forty. *)
From Stdlib Require Import Ascii.
From S2P Require Import Prelude Text QueueOrder Projection Coalesce TableSync SnapshotWf.

(** ** Traffic *)

Definition TRAFFIC_BUCKET_US : Z := 100000.
Definition TRAFFIC_BUCKETS : Z := 40.
Definition RATE_WINDOW_BUCKETS : Z := 20.
Definition REPORT_LAG_BUCKETS : Z := 7.
Definition PUBLISH_PERIOD_BUCKETS : Z := 5.
Definition SPREAD_CAP_US : Z := 1000000.

Definition sat_i64 (z : Z) : Z := clamp i64_min i64_max z.

Record TrafficBucket := mk_bucket { b_tick : Z; b_downloaded : Z; b_uploaded : Z }.

Definition empty_bucket : TrafficBucket := mk_bucket 0 0 0.

Definition has_bytes (b : TrafficBucket) : bool := negb (b_downloaded b =? 0) || negb (b_uploaded b =? 0).

Record TaskSample := mk_sample {
  ts_status : Z; ts_down : Z; ts_up : Z; ts_explicit_baseline : bool; ts_measured : bool; ts_last_at : option Z }.

Record RuntimeAccounting := mk_accounting {
  a_tasks : gmap text TaskSample;
  a_active : Z;
  a_pending : Z;
  a_origin : Z;
  a_buckets : list TrafficBucket;
  a_burst_start : option Z;
  a_published : option (Z * Z * Z) }.

Definition set_samples v a := mk_accounting v (a_active a) (a_pending a) (a_origin a) (a_buckets a) (a_burst_start a) (a_published a).
Definition set_counts active pending a := mk_accounting (a_tasks a) active pending (a_origin a) (a_buckets a) (a_burst_start a) (a_published a).
Definition set_buckets v a := mk_accounting (a_tasks a) (a_active a) (a_pending a) (a_origin a) v (a_burst_start a) (a_published a).
Definition set_burst burst published a := mk_accounting (a_tasks a) (a_active a) (a_pending a) (a_origin a) (a_buckets a) burst published.

(** Does the status count as active? *)
Definition counts_active (status : Z) : bool := (status =? 1) || (status =? 5).

(** [value * part / whole] without overflow. *)
Definition i128_max : Z := 2 ^ 127 - 1.
Definition proportion (value part whole : Z) : Z :=
  let scaled := Z.quot (value * Z.min part i128_max) (Z.min whole i128_max) in
  if (i64_min <=? scaled) && (scaled <=? i64_max) then scaled else i64_max.

Definition remove_status (status : Z) (a : RuntimeAccounting) : RuntimeAccounting :=
  set_counts (Z.max 0 (a_active a - Z.b2z (counts_active status))) (Z.max 0 (a_pending a - Z.b2z (status =? 0))) a.
Definition add_status (status : Z) (a : RuntimeAccounting) : RuntimeAccounting :=
  set_counts (sat_add_u32 (a_active a) (Z.b2z (counts_active status))) (sat_add_u32 (a_pending a) (Z.b2z (status =? 0))) a.

Definition micros (a : RuntimeAccounting) (at_ : Z) : Z := Z.max 0 (at_ - a_origin a) / 1000.
Definition tick (a : RuntimeAccounting) (at_ : Z) : Z := micros a at_ / TRAFFIC_BUCKET_US.

Definition recent_traffic (tick : Z) (a : RuntimeAccounting) : bool :=
  let horizon := Z.max 0 (tick - (REPORT_LAG_BUCKETS + RATE_WINDOW_BUCKETS)) in
  existsb (fun b => has_bytes b && (horizon <=? b_tick b)) (a_buckets a).

Definition slot_of (tick : Z) : nat := Z.to_nat (tick mod TRAFFIC_BUCKETS).

Definition add_to_bucket (tick downloaded uploaded : Z) (buckets : list TrafficBucket) : list TrafficBucket :=
  match buckets !! slot_of tick with
  | None => buckets
  | Some b =>
      if tick <? b_tick b then buckets else
      let b := if b_tick b =? tick then b else mk_bucket tick 0 0 in
      <[slot_of tick := mk_bucket (b_tick b) (sat_i64 (b_downloaded b + downloaded)) (sat_i64 (b_uploaded b + uploaded))]> buckets
  end.

(** One round of the loop over the ticks of an interval: what is left to spread,
    the ring. *)
Definition spread_tick (downloaded uploaded start end_ last_tick : Z) (st : Z * Z * list TrafficBucket) (tick : Z)
    : Z * Z * list TrafficBucket :=
  let '(downloaded_left, uploaded_left, buckets) := st in
  let '(down, up) :=
    if tick =? last_tick then (downloaded_left, uploaded_left) else
    let low := Z.max start (tick * TRAFFIC_BUCKET_US) in
    let high := Z.min end_ ((tick + 1) * TRAFFIC_BUCKET_US) in
    let share := Z.max 0 (high - low) in
    (proportion downloaded share (end_ - start), proportion uploaded share (end_ - start)) in
  (sat_i64 (downloaded_left - down), sat_i64 (uploaded_left - up), add_to_bucket tick down up buckets).

Definition ticks_between (first last : Z) : list Z := seqZ first (last - first + 1).

Definition record_traffic (downloaded uploaded : Z) (since : option Z) (now : Z) (a : RuntimeAccounting) : RuntimeAccounting :=
  if (downloaded =? 0) && (uploaded =? 0) then a else
  let end_ := micros a now in
  let start := Z.min end_ (Z.max (match since with Some s => micros a s | None => end_ end) (Z.max 0 (end_ - SPREAD_CAP_US))) in
  let first_tick := start / TRAFFIC_BUCKET_US in
  let last_tick := end_ / TRAFFIC_BUCKET_US in
  let a := if recent_traffic last_tick a then a else set_burst (Some first_tick) None a in
  let '(_, _, buckets) :=
    foldl (spread_tick downloaded uploaded start end_ last_tick) (downloaded, uploaded, a_buckets a)
      (ticks_between first_tick last_tick) in
  set_buckets buckets a.

(** ** Tasks *)

Definition set_sample (id : text) (x : TaskSample) (a : RuntimeAccounting) : RuntimeAccounting := set_samples (<[id := x]> (a_tasks a)) a.

Definition transfer_baseline (id : text) (downloaded_bytes : Z) (a : RuntimeAccounting) : RuntimeAccounting :=
  match a_tasks a !! id with
  | Some x => set_sample id (mk_sample (ts_status x) (Z.max downloaded_bytes 0) (ts_up x) true false (ts_last_at x)) a
  | None => a
  end.

Definition settle_download (id : text) (downloaded_bytes now : Z) (a : RuntimeAccounting) : RuntimeAccounting :=
  match a_tasks a !! id with
  | Some x =>
      let delta := if ts_measured x then 0 else Z.max (sat_i64 (downloaded_bytes - ts_down x)) 0 in
      record_traffic delta 0 (ts_last_at x) now
        (set_sample id (mk_sample (ts_status x) (Z.max (ts_down x) downloaded_bytes) (ts_up x) (ts_explicit_baseline x)
           (ts_measured x) (Some now)) a)
  | None => a
  end.

Definition record_transfer (id : text) (bytes now : Z) (a : RuntimeAccounting) : RuntimeAccounting :=
  match a_tasks a !! id with
  | Some x =>
      record_traffic (Z.max bytes 0) 0 (ts_last_at x) now
        (set_sample id (mk_sample (ts_status x) (ts_down x) (ts_up x) (ts_explicit_baseline x) true (Some now)) a)
  | None => a
  end.

(** A task as it is first seen. *)
Definition first_sample (task : TaskDto) (last_at : option Z) : TaskSample :=
  mk_sample (t_status task) (Z.max (t_downloaded task) 0) (Z.max (t_uploaded task) 0) false false last_at.

(** What a row tells of a task already known. *)
Definition row_sample (task : TaskDto) (last_at : option Z) (x : TaskSample) : TaskSample :=
  mk_sample (t_status task)
    (if ts_explicit_baseline x then ts_down x else Z.max (ts_down x) (t_downloaded task))
    (Z.max (ts_up x) (t_uploaded task)) (ts_explicit_baseline x)
    (if counts_active (t_status task) then ts_measured x else false) last_at.

Definition baseline (now : Z) (a : RuntimeAccounting) (task : TaskDto) : RuntimeAccounting :=
  match a_tasks a !! t_id task with
  | Some x =>
      let last_at := if counts_active (t_status task) && negb (counts_active (ts_status x)) then Some now else ts_last_at x in
      add_status (t_status task) (remove_status (ts_status x) (set_sample (t_id task) (row_sample task last_at x) a))
  | None =>
      add_status (t_status task)
        (set_sample (t_id task) (first_sample task (if counts_active (t_status task) then Some now else None)) a)
  end.

Definition reconcile_task (a : RuntimeAccounting) (task : TaskDto) : RuntimeAccounting :=
  add_status (t_status task)
    (set_sample (t_id task)
       match a_tasks a !! t_id task with Some x => row_sample task (ts_last_at x) x | None => first_sample task None end a).

Definition reconcile (tasks : list TaskDto) (a : RuntimeAccounting) : RuntimeAccounting :=
  foldl reconcile_task
    (set_counts 0 0 (set_samples (filter (fun x => x.1 ∈ map t_id tasks) (a_tasks a)) a)) tasks.

Definition acc_remove (a : RuntimeAccounting) (id : text) : RuntimeAccounting :=
  match a_tasks a !! id with
  | Some x => remove_status (ts_status x) (set_samples (delete id (a_tasks a)) a)
  | None => a
  end.

Definition acc_progress (p : TaskProgress) (now : Z) (a : RuntimeAccounting) : RuntimeAccounting :=
  if is_deleted_progress p then acc_remove a (p_id p) else
  match a_tasks a !! p_id p with
  | None => a
  | Some x =>
      let downloaded := if ts_measured x then 0 else Z.max (sat_i64 (p_downloaded p - ts_down x)) 0 in
      let uploaded := Z.max (sat_i64 (p_uploaded p - ts_up x)) 0 in
      let sample := mk_sample (p_status p) (Z.max (ts_down x) (p_downloaded p)) (Z.max (ts_up x) (p_uploaded p))
        (ts_explicit_baseline x) (if counts_active (p_status p) then ts_measured x else false) (Some now) in
      record_traffic downloaded uploaded (ts_last_at x) now
        (add_status (p_status p) (remove_status (ts_status x) (set_sample (p_id p) sample a)))
  end.

(** [RuntimeAccounting::apply] *)
Definition account (e : DaemonEvent) (now : Z) (a : RuntimeAccounting) : RuntimeAccounting :=
  match e with
  | SnapshotReplaced s => reconcile (sn_tasks s) a
  | Engine (MTasksSnapshot tasks) => reconcile tasks a
  | TaskChanged task => baseline now a task
  | TasksChanged tasks => foldl (baseline now) a tasks
  | TaskDeleted id => acc_remove a id
  | TasksDeleted ids => foldl acc_remove a ids
  | Engine (MTaskProgress p) => acc_progress p now a
  | _ => a
  end.

Definition accounting_new (tasks : list TaskDto) (now : Z) : RuntimeAccounting :=
  reconcile tasks (mk_accounting ∅ 0 0 now (replicate (Z.to_nat TRAFFIC_BUCKETS) empty_bucket) None None).

(** ** Rates *)

Definition expire_bucket (tick : Z) (b : TrafficBucket) : TrafficBucket :=
  if TRAFFIC_BUCKETS <=? Z.max 0 (tick - b_tick b) then empty_bucket else b.

Definition window_sum (first end_ : Z) (get : TrafficBucket -> Z) (buckets : list TrafficBucket) : Z :=
  foldl (fun acc b => if has_bytes b && (first <=? b_tick b) && (b_tick b <? end_) then sat_i64 (acc + get b) else acc) 0 buckets.

Definition rates (now : Z) (a : RuntimeAccounting) : (Z * Z) * RuntimeAccounting :=
  let now_tick := tick a now in
  let a := set_buckets (map (expire_bucket now_tick) (a_buckets a)) a in
  let period := now_tick / PUBLISH_PERIOD_BUCKETS in
  let cached := match a_published a with
                | Some (published, downloaded, uploaded) => if published =? period then Some (downloaded, uploaded) else None
                | None => None
                end in
  match cached with
  | Some rates => (rates, a)
  | None =>
      let end_ := Z.max 0 (now_tick - REPORT_LAG_BUCKETS) in
      let window_start := Z.max 0 (end_ - RATE_WINDOW_BUCKETS) in
      let first := match a_burst_start a with Some burst => Z.max burst window_start | None => window_start end in
      let a := if recent_traffic now_tick a then a else set_burst None (a_published a) a in
      let buckets := Z.max 0 (end_ - first) in
      if buckets =? 0 then ((0, 0), a) else
      let per_second := 1000000 / TRAFFIC_BUCKET_US in
      let rates := (proportion (window_sum first end_ b_downloaded (a_buckets a)) per_second buckets,
                    proportion (window_sum first end_ b_uploaded (a_buckets a)) per_second buckets) in
      (rates, set_burst (a_burst_start a) (Some (period, rates.1, rates.2)) a)
  end.

Definition has_traffic (a : RuntimeAccounting) : bool := existsb has_bytes (a_buckets a).

(** ** The hub *)

Record EventState := mk_state {
  es_epoch : text; es_sequence : Z; es_snapshot : DaemonSnapshot; es_accounting : RuntimeAccounting; es_expiry_running : bool }.

Definition set_snapshot v s := mk_state (es_epoch s) (es_sequence s) v (es_accounting s) (es_expiry_running s).
Definition set_accounting v s := mk_state (es_epoch s) (es_sequence s) (es_snapshot s) v (es_expiry_running s).
Definition set_sequence v s := mk_state (es_epoch s) v (es_snapshot s) (es_accounting s) (es_expiry_running s).
Definition set_expiry v s := mk_state (es_epoch s) (es_sequence s) (es_snapshot s) (es_accounting s) v.

Definition runtime_measurements (st : DaemonRuntimeStatsDto) : Z * Z * Z * Z :=
  (st_active st, st_pending st, st_download_bps st, st_upload_bps st).

Definition default_save_dir (c : DaemonConfigSnapshot) : option text := cf_values c !! lit "default_save_dir".

(** The save directory the statistics show. *)
Definition shown_save_dir (c : DaemonConfigSnapshot) (current : text) : text :=
  match default_save_dir c with
  | Some path => if negb (bool_decide (trim path = [])) && negb (bool_decide (path = current)) then path else current
  | None => current
  end.

Definition update_runtime_stats (now : Z) (s : EventState) : EventState :=
  let snap := es_snapshot s in
  let '((downloaded, uploaded), a) := rates now (es_accounting s) in
  let st := sn_stats snap in
  set_accounting a
    (set_snapshot
       (with_stats snap
          (mk_stats (a_active a) (a_pending a) downloaded uploaded (st_disk_free st)
             (shown_save_dir (sn_config snap) (st_save_dir st)) (st_retry_pending st))) s).

Definition hub_new (epoch : text) (snapshot : DaemonSnapshot) (now : Z) : EventState :=
  update_runtime_stats now (mk_state epoch 0 snapshot (accounting_new (sn_tasks snapshot) now) false).

(** Every event published is returned with its frame. *)
Definition publish_locked_at (e : DaemonEvent) (now : Z) (s : EventState) : (DaemonEvent * EventFrame) * EventState :=
  let s := set_accounting (account e now (es_accounting s)) s in
  let s := set_snapshot (apply_daemon_event e (es_snapshot s)) s in
  let s := update_runtime_stats now s in
  let e := match e with RuntimeStatsChanged _ => RuntimeStatsChanged (sn_stats (es_snapshot s)) | _ => e end in
  let s := set_sequence (sat_add_u64 (es_sequence s) 1) s in
  ((e, mk_frame (es_epoch s) (es_sequence s) None (into_wire e)), s).

Definition is_stats (e : DaemonEvent) : bool := match e with RuntimeStatsChanged _ => true | _ => false end.

Definition metadata_changed (e : DaemonEvent) (s : DaemonSnapshot) : bool :=
  match e with
  | SnapshotReplaced new =>
      negb (bool_decide (sn_stats new = sn_stats s)) ||
      negb (bool_decide (default_save_dir (sn_config new) = default_save_dir (sn_config s)))
  | ConfigChanged config => negb (bool_decide (default_save_dir config = default_save_dir (sn_config s)))
  | _ => false
  end.

Definition measured (s : EventState) : Z * Z * Z * Z := runtime_measurements (sn_stats (es_snapshot s)).

Definition publish_with_stats_locked_at (e : DaemonEvent) (now : Z) (s : EventState)
    : list (DaemonEvent * EventFrame) * EventState :=
  let before := measured s in
  let metadata := metadata_changed e (es_snapshot s) in
  let '(out, s) := publish_locked_at e now s in
  if negb (is_stats e) && (metadata || negb (bool_decide (measured s = before))) then
    let '(out', s) := publish_locked_at (RuntimeStatsChanged (sn_stats (es_snapshot s))) now s in ([out; out'], s)
  else ([out], s).

(** [runtime]: is there a runtime to run the timer on? *)
Definition start_expiry (runtime : bool) (s : EventState) : EventState :=
  if es_expiry_running s || negb (has_traffic (es_accounting s)) then s
  else if runtime then set_expiry true s else s.

Definition publish (runtime : bool) (e : DaemonEvent) (now : Z) (s : EventState) : list (DaemonEvent * EventFrame) * EventState :=
  let '(out, s) := publish_with_stats_locked_at e now s in (out, start_expiry runtime s).

Definition with_retry_pending (count : Z) (st : DaemonRuntimeStatsDto) : DaemonRuntimeStatsDto :=
  mk_stats (st_active st) (st_pending st) (st_download_bps st) (st_upload_bps st) (st_disk_free st) (st_save_dir st) count.

Definition set_retry_pending_tasks (runtime : bool) (count now : Z) (s : EventState) : list (DaemonEvent * EventFrame) * EventState :=
  let st := sn_stats (es_snapshot s) in
  if st_retry_pending st =? count then ([], s) else
  let '(out, s) := publish_locked_at (RuntimeStatsChanged (with_retry_pending count st)) now s in
  ([out], start_expiry runtime s).

Definition expire_locked_at (now : Z) (s : EventState) : list (DaemonEvent * EventFrame) * EventState :=
  let before := measured s in
  let s := update_runtime_stats now s in
  if bool_decide (measured s = before) then ([], s) else
  let '(out, s) := publish_locked_at (RuntimeStatsChanged (sn_stats (es_snapshot s))) now s in ([out], s).

(** One round of the timer; it runs only while it is needed. *)
Definition expiry_round (now : Z) (s : EventState) : list (DaemonEvent * EventFrame) * EventState :=
  if negb (es_expiry_running s) then ([], s) else
  let '(out, s) := expire_locked_at now s in
  (out, if has_traffic (es_accounting s) then s else set_expiry false s).

(** The sink's events that only account. *)
Definition transferred (id : text) (bytes now : Z) (s : EventState) : EventState :=
  set_accounting (record_transfer id bytes now (es_accounting s)) s.

Definition transfer_baselined (id : text) (downloaded_bytes : Z) (previous : option Z) (now : Z) (s : EventState) : EventState :=
  let a := match previous with Some p => settle_download id p now (es_accounting s) | None => es_accounting s end in
  set_accounting (transfer_baseline id downloaded_bytes a) s.

(** ** Messages *)

Inductive HubOp :=
| Publish (e : DaemonEvent)
| SetRetryPending (count : Z)
| Transferred (id : text) (bytes : Z)
| TransferBaseline (id : text) (downloaded_bytes : Z) (previous : option Z)
| ExpiryRound.

Definition hub_step (runtime : bool) (op : HubOp) (now : Z) (s : EventState) : list (DaemonEvent * EventFrame) * EventState :=
  match op with
  | Publish e => publish runtime e now s
  | SetRetryPending count => set_retry_pending_tasks runtime count now s
  | Transferred id bytes => ([], transferred id bytes now s)
  | TransferBaseline id downloaded previous => ([], transfer_baselined id downloaded previous now s)
  | ExpiryRound => expiry_round now s
  end.

(** Operations one after the other, each at its moment. *)
Fixpoint hub_run (runtime : bool) (ops : list (HubOp * Z)) (s : EventState) : list (DaemonEvent * EventFrame) * EventState :=
  match ops with
  | [] => ([], s)
  | (op, now) :: ops =>
      let '(out, s) := hub_step runtime op now s in
      let '(out', s) := hub_run runtime ops s in (out ++ out', s)
  end.

(** ** The subscribers know the statistics *)

(** The shown directory is that of the configuration. *)
Definition dir_settled (s : EventState) : Prop :=
  shown_save_dir (sn_config (es_snapshot s)) (st_save_dir (sn_stats (es_snapshot s))) = st_save_dir (sn_stats (es_snapshot s)).

Lemma shown_again c dir : shown_save_dir c (shown_save_dir c dir) = shown_save_dir c dir.
Proof.
  unfold shown_save_dir. destruct (default_save_dir c) as [p|]; [|done].
  destruct (negb (bool_decide (trim p = []))); cbn [andb]; [|done].
  destruct (bool_decide (p = dir)) eqn:E; cbn [negb]; [by rewrite E|]. by rewrite bool_decide_eq_true_2.
Qed.

Lemma with_stats_twice snap st st' : with_stats (with_stats snap st) st' = with_stats snap st'.
Proof. done. Qed.

Lemma with_stats_same snap : with_stats snap (sn_stats snap) = snap.
Proof. by destruct snap. Qed.

(** What an update leaves alone. *)
Record updated (now : Z) (s s' : EventState) : Prop := mk_updated {
  up_epoch : es_epoch s' = es_epoch s;
  up_sequence : es_sequence s' = es_sequence s;
  up_running : es_expiry_running s' = es_expiry_running s;
  up_snapshot : es_snapshot s' = with_stats (es_snapshot s) (sn_stats (es_snapshot s'));
  up_disk : st_disk_free (sn_stats (es_snapshot s')) = st_disk_free (sn_stats (es_snapshot s));
  up_retry : st_retry_pending (sn_stats (es_snapshot s')) = st_retry_pending (sn_stats (es_snapshot s));
  up_dir : st_save_dir (sn_stats (es_snapshot s')) =
           shown_save_dir (sn_config (es_snapshot s)) (st_save_dir (sn_stats (es_snapshot s)));
  up_measured : measured s' = (a_active (es_accounting s), a_pending (es_accounting s),
                 (rates now (es_accounting s)).1.1, (rates now (es_accounting s)).1.2);
  up_accounting : es_accounting s' = (rates now (es_accounting s)).2 }.

Lemma rates_keep now a : let a' := (rates now a).2 in a_tasks a' = a_tasks a /\ a_active a' = a_active a /\ a_pending a' = a_pending a.
Proof. unfold rates. repeat case_match; done. Qed.

Lemma update_spec now s : updated now s (update_runtime_stats now s).
Proof.
  unfold update_runtime_stats. pose proof (rates_keep now (es_accounting s)) as (_ & Ha & Hp).
  destruct (rates now (es_accounting s)) as [[d u] a] eqn:E. cbn in Ha, Hp. constructor; rewrite ?E; cbn; try done.
  unfold measured, runtime_measurements. cbn. by rewrite Ha, Hp.
Qed.

Lemma update_settled now s : dir_settled (update_runtime_stats now s).
Proof.
  destruct (update_spec now s) as [_ _ _ H _ _ Hd _ _]. unfold dir_settled. rewrite H at 1. cbn. rewrite Hd. apply shown_again.
Qed.

Definition is_replaced (e : DaemonEvent) : bool := match e with SnapshotReplaced _ => true | _ => false end.
Definition is_config (e : DaemonEvent) : bool := match e with ConfigChanged _ => true | _ => false end.

Lemma fold_keeps {A B : Type} (get : DaemonSnapshot -> B) (h : DaemonSnapshot -> A -> DaemonSnapshot) l s :
  (forall s x, get (h s x) = get s) -> get (foldl h s l) = get s.
Proof. intros Hh. revert s. induction l as [|x l IH]; intros s; [done|]. cbn. by rewrite IH, Hh. Qed.

(** Events that keep statistics and configuration. *)
Lemma event_keeps_stats e s :
  is_stats e = false -> is_replaced e = false ->
  sn_stats (apply_daemon_event e s) = sn_stats s /\ (is_config e = false -> sn_config (apply_daemon_event e s) = sn_config s).
Proof.
  assert (forall t s, sn_stats (apply_task_changed t s) = sn_stats s /\ sn_config (apply_task_changed t s) = sn_config s) as Hc
    by (intros t s1; unfold apply_task_changed; by destruct (find_task _ _)).
  intros Hs Hr. destruct e; try done; cbn [apply_daemon_event].
  - unfold apply_runtime. by destruct (accepted_runtime_status s r).
  - by destruct tasks, queue.
  - destruct m; try done; cbn [apply_engine_message].
    + unfold apply_progress. by destruct (is_deleted_progress p).
    + unfold apply_segments. destruct (find_task id (sn_tasks s)); [|done]. by case_match.
    + by split; [apply (fold_keeps sn_stats)|intros _; apply (fold_keeps sn_config)].
  - split; [|intros _]; apply Hc.
  - split; [apply (fold_keeps sn_stats)|intros _; apply (fold_keeps sn_config)]; intros s1 x; apply Hc.
Qed.

(** One event published. *)
Record published_one (e : DaemonEvent) (s : EventState) (x : DaemonEvent * EventFrame) (s' : EventState) : Prop := mk_published_one {
  po_event : x.1 = match e with RuntimeStatsChanged _ => RuntimeStatsChanged (sn_stats (es_snapshot s')) | _ => e end;
  po_frame : x.2 = mk_frame (es_epoch s) (sat_add_u64 (es_sequence s) 1) None (into_wire x.1);
  po_epoch : es_epoch s' = es_epoch s;
  po_sequence : es_sequence s' = sat_add_u64 (es_sequence s) 1;
  po_running : es_expiry_running s' = es_expiry_running s;
  po_settled : dir_settled s';
  po_snapshot : es_snapshot s' = with_stats (apply_daemon_event e (es_snapshot s)) (sn_stats (es_snapshot s'));
  po_disk : st_disk_free (sn_stats (es_snapshot s')) = st_disk_free (sn_stats (apply_daemon_event e (es_snapshot s)));
  po_retry : st_retry_pending (sn_stats (es_snapshot s')) = st_retry_pending (sn_stats (apply_daemon_event e (es_snapshot s)));
  po_dir : st_save_dir (sn_stats (es_snapshot s')) = shown_save_dir (sn_config (apply_daemon_event e (es_snapshot s)))
             (st_save_dir (sn_stats (apply_daemon_event e (es_snapshot s)))) }.

Lemma publish_one e now s x s' : publish_locked_at e now s = (x, s') -> published_one e s x s'.
Proof.
  unfold publish_locked_at. set (s1 := set_snapshot _ (set_accounting _ _)).
  pose proof (update_spec now s1) as [H1 H2 H3 H4 H5 H6 H7 _ _]. pose proof (update_settled now s1) as H8.
  destruct (update_runtime_stats now s1) as [ep sq snap acc run]. intros [= <- <-]. cbn in *. subst ep sq. by constructor.
Qed.

Lemma stats_eq a b :
  runtime_measurements a = runtime_measurements b -> st_disk_free a = st_disk_free b -> st_retry_pending a = st_retry_pending b ->
  st_save_dir a = st_save_dir b -> a = b.
Proof. destruct a, b. unfold runtime_measurements. cbn. naive_solver. Qed.

(** What the operations publish, against the state. *)
Record faithful (s : EventState) (out : list (DaemonEvent * EventFrame)) (s' : EventState) : Prop := mk_faithful {
  fa_epoch : es_epoch s' = es_epoch s;
  fa_settled : dir_settled s';
  fa_snapshot : es_snapshot s' = server (es_snapshot s) (map fst out);
  fa_frames : es_sequence s + Z.of_nat (length out) <= u64_max ->
    map snd out = published (es_epoch s) (es_sequence s) (map fst out) /\ es_sequence s' = es_sequence s + Z.of_nat (length out) }.

Lemma faithful_nil s s' : es_epoch s' = es_epoch s -> es_sequence s' = es_sequence s -> es_snapshot s' = es_snapshot s ->
  dir_settled s -> faithful s [] s'.
Proof. intros He Hs Hn Hd. constructor; [done| |done|]. { unfold dir_settled in *. by rewrite Hn. } intros _. rewrite Hs. cbn. split; [done|lia]. Qed.

Lemma published_app epoch base l1 l2 :
  published epoch base (l1 ++ l2) = published epoch base l1 ++ published epoch (base + Z.of_nat (length l1)) l2.
Proof.
  revert base. induction l1 as [|e l1 IH]; intros base; cbn [app length]; [cbn [published imap app]; by rewrite Z.add_0_r|].
  rewrite !published_cons, IH. cbn [app]. do 2 f_equal. f_equal. lia.
Qed.

Lemma faithful_trans s1 out1 s2 out2 s3 : faithful s1 out1 s2 -> faithful s2 out2 s3 -> faithful s1 (out1 ++ out2) s3.
Proof.
  intros [A1 _ A2 A3] [B1 B2 B3 B4]. constructor; [congruence|done| |].
  - by rewrite map_app, server_app, <- A2.
  - rewrite length_app, Nat2Z.inj_add. intros Hn. destruct A3 as [A3 A4]; [lia|]. rewrite A4, A1 in *. destruct B4 as [B4 B5]; [lia|].
    split; [|lia]. rewrite !map_app, published_app, A3, B4, length_map. done.
Qed.

Lemma faithful_one e s x s' :
  published_one e s x s' -> es_snapshot s' = apply_daemon_event x.1 (es_snapshot s) -> faithful s [x] s'.
Proof.
  intros [H1 H2 H3 H4 _ H6 _ _ _ _] Hsnap. constructor; [done|done|done|]. intros Hn. cbn [length] in *. unfold sat_add_u64 in *.
  cbn [map]. rewrite published_cons, H2, H4. unfold published; cbn [imap]. rewrite Z.min_l by lia. split; [done|lia].
Qed.

Lemma faithful_stats now st s x s' : publish_locked_at (RuntimeStatsChanged st) now s = (x, s') -> faithful s [x] s'.
Proof.
  intros H%publish_one. eapply faithful_one; [exact H|]. destruct H as [H _ _ _ _ _ Hs _ _ _]. rewrite H, Hs at 1. done.
Qed.

(** No second frame is published exactly when the first told everything. *)
Lemma faithful_publish e now s out s' :
  dir_settled s -> publish_with_stats_locked_at e now s = (out, s') -> faithful s out s'.
Proof.
  intros Hset. unfold publish_with_stats_locked_at. destruct (publish_locked_at e now s) as [x s1] eqn:E1.
  destruct (is_stats e) eqn:Hst; cbn [negb andb].
  { destruct e; try done. intros [= <- <-]. by eapply faithful_stats. }
  pose proof (publish_one _ _ _ _ _ E1) as H1. destruct (_ || _) eqn:Hch.
  - destruct (publish_locked_at _ now s1) as [x2 s2] eqn:E2. intros [= <- <-].
    pose proof (publish_one _ _ _ _ _ E2) as H2. destruct H1 as [A1 A2 A3 A4 _ A6 A7 _ _ _], H2 as [B1 B2 B3 B4 _ B6 B7 _ _ _].
    assert (x.1 = e) as Ax by (rewrite A1; by destruct e). constructor; [congruence|done| |].
    + unfold server. cbn [map foldl]. rewrite Ax, B1, B7 at 1. cbn [apply_daemon_event]. rewrite A7. done.
    + intros Hn. cbn [length] in *. unfold sat_add_u64 in *. cbn [map]. rewrite !published_cons, A2, B2, B4, A4, A3.
      unfold published; cbn [imap]. rewrite !Z.min_l by lia. split; [|lia]. done.
  - intros [= <- <-]. apply orb_false_elim in Hch as [Hmeta Hm]. bool_hyps. eapply faithful_one; [exact H1|].
    destruct H1 as [A1 _ _ _ _ _ A7 A8 A9 A10]. assert (x.1 = e) as -> by (rewrite A1; by destruct e).
    rewrite A7. rewrite <- (with_stats_same (apply_daemon_event e (es_snapshot s))) at 2. f_equal.
    assert (sn_stats (apply_daemon_event e (es_snapshot s)) = sn_stats (es_snapshot s) /\
      default_save_dir (sn_config (apply_daemon_event e (es_snapshot s))) = default_save_dir (sn_config (es_snapshot s))) as [K1 K2].
    { destruct (is_replaced e) eqn:Hr.
      - destruct e; try done. cbn in *. apply orb_false_elim in Hmeta as [M1 M2]. by bool_hyps.
      - destruct (event_keeps_stats e (es_snapshot s) Hst Hr) as [K1 K2]. split; [done|]. destruct (is_config e) eqn:Hc.
        + destruct e; try done. cbn in *. by bool_hyps.
        + by rewrite K2. }
    apply stats_eq; [by rewrite K1|done|done|]. rewrite A10, K1. unfold shown_save_dir. rewrite K2. apply Hset.
Qed.

(** A rate changes as time passes. *)
Lemma update_keeps now s : dir_settled s -> measured (update_runtime_stats now s) = measured s ->
  es_snapshot (update_runtime_stats now s) = es_snapshot s.
Proof.
  intros Hset Hm. destruct (update_spec now s) as [_ _ _ H4 H5 H6 H7 _ _]. rewrite H4, <- (with_stats_same (es_snapshot s)) at 1.
  rewrite with_stats_twice. rewrite <- (with_stats_same (es_snapshot s)) at 2. f_equal. apply stats_eq; [exact Hm|done|done|].
  rewrite H7. apply Hset.
Qed.

Lemma faithful_expire now st s x s' :
  publish_locked_at (RuntimeStatsChanged st) now (update_runtime_stats now s) = (x, s') -> faithful s [x] s'.
Proof.
  intros [H1 H2 H3 H4 _ H6 H7 _ _ _]%publish_one. pose proof (update_spec now s) as [U1 U2 _ U4 _ _ _ _ _]. rewrite U1, U2 in *.
  constructor; [done|done| |].
  - unfold server. cbn [map foldl]. rewrite H1, H7 at 1. cbn [apply_daemon_event]. by rewrite U4.
  - intros Hn. cbn [length] in *. unfold sat_add_u64 in *. cbn [map]. rewrite published_cons, H2, H4.
    unfold published; cbn [imap]. rewrite Z.min_l by lia. split; [done|lia].
Qed.

Lemma faithful_expiry runtime s out s' : faithful s out s' -> faithful s out (start_expiry runtime s').
Proof.
  intros H. unfold start_expiry. destruct (_ || _); [done|]. destruct runtime; [|done]. destruct H as [H1 H2 H3 H4]. by constructor.
Qed.

Lemma faithful_step runtime op now s out s' : dir_settled s -> hub_step runtime op now s = (out, s') -> faithful s out s'.
Proof.
  intros Hset. destruct op; cbn [hub_step].
  - unfold publish. destruct (publish_with_stats_locked_at e now s) as [out1 s1] eqn:E. intros [= <- <-].
    apply faithful_expiry. by eapply faithful_publish.
  - unfold set_retry_pending_tasks. destruct (_ =? count); [intros [= <- <-]; by apply faithful_nil|].
    destruct (publish_locked_at _ now s) as [x s1] eqn:E. intros [= <- <-]. apply faithful_expiry. by eapply faithful_stats.
  - intros [= <- <-]. by apply faithful_nil.
  - intros [= <- <-]. by apply faithful_nil.
  - unfold expiry_round. destruct (es_expiry_running s); cbn [negb]; [|intros [= <- <-]; by apply faithful_nil].
    unfold expire_locked_at. case_bool_decide as Hm.
    + pose proof (update_keeps now s Hset Hm) as Hu. pose proof (update_spec now s) as [U1 U2 _ _ _ _ _ _ _].
      destruct (has_traffic _); intros [= <- <-]; by apply faithful_nil.
    + destruct (publish_locked_at _ now _) as [x s1] eqn:E. apply faithful_expire in E as [E1 E2 E3 E4].
      destruct (has_traffic _); intros [= <- <-]; by constructor.
Qed.

Lemma faithful_run runtime ops s out s' : dir_settled s -> hub_run runtime ops s = (out, s') -> faithful s out s'.
Proof.
  revert s out. induction ops as [|[op now] ops IH]; intros s out Hset; cbn [hub_run].
  - intros [= <- <-]. by apply faithful_nil.
  - destruct (hub_step runtime op now s) as [out1 s1] eqn:E1. destruct (hub_run runtime ops s1) as [out2 s2] eqn:E2. intros [= <- <-].
    apply faithful_step in E1; [|done]. eapply faithful_trans; [exact E1|]. apply IH; [apply E1|done].
Qed.

(** ** The counts *)

Definition pending_status (status : Z) : bool := status =? 0.

Definition tasks_where (f : Z -> bool) (ts : list TaskDto) : Z := Z.of_nat (length (filter (fun t => f (t_status t) = true) ts)).

(** The accounting knows every task of the table with its status, and counts
    them right. *)
Record mirrors (a : RuntimeAccounting) (ts : list TaskDto) : Prop := mk_mirrors {
  mi_active : a_active a = tasks_where counts_active ts;
  mi_pending : a_pending a = tasks_where pending_status ts;
  mi_status : forall id, ts_status <$> a_tasks a !! id = t_status <$> find_task id ts }.

Lemma tasks_where_cons f t ts : tasks_where f (t :: ts) = Z.b2z (f (t_status t)) + tasks_where f ts.
Proof. unfold tasks_where. rewrite filter_cons. case_decide as H; destruct (f (t_status t)); cbn [length Z.b2z]; done || lia. Qed.

Lemma tasks_where_app f l1 l2 : tasks_where f (l1 ++ l2) = tasks_where f l1 + tasks_where f l2.
Proof. unfold tasks_where. rewrite filter_app, length_app. lia. Qed.

Lemma tasks_where_bounds f ts : 0 <= tasks_where f ts <= Z.of_nat (length ts).
Proof. unfold tasks_where. pose proof (length_filter (fun t => f (t_status t) = true) ts). lia. Qed.

Lemma tasks_where_alter f id g ts t :
  find_task id ts = Some t ->
  tasks_where f (alter_task id g ts) = tasks_where f ts - Z.b2z (f (t_status t)) + Z.b2z (f (t_status (g t))).
Proof.
  induction ts as [|x ts IH]; [done|]. cbn. destruct (find_task id ts) as [t'|] eqn:E.
  - intros [= ->]. rewrite !tasks_where_cons, IH by done. lia.
  - case_decide; [|done]. intros [= ->]. rewrite !tasks_where_cons. lia.
Qed.

Lemma tasks_where_found f id ts t : find_task id ts = Some t -> Z.b2z (f (t_status t)) <= tasks_where f ts.
Proof.
  induction ts as [|x ts IH]; [done|]. cbn. rewrite tasks_where_cons. pose proof (tasks_where_bounds f ts).
  destruct (find_task id ts) as [t'|]; [intros [= ->]; specialize (IH eq_refl); destruct (f (t_status x)); cbn [Z.b2z]; lia|].
  case_decide; [|done]. intros [= ->]. lia.
Qed.

Lemma tasks_where_remove f id ts t :
  NoDup (map t_id ts) -> find_task id ts = Some t -> tasks_where f (remove_task id ts) = tasks_where f ts - Z.b2z (f (t_status t)).
Proof.
  induction ts as [|x ts IH]; [done|]. cbn [map]. intros [Hx Hn]%NoDup_cons. cbn [find_task].
  unfold remove_task in *. rewrite filter_cons.
  destruct (find_task id ts) as [t'|] eqn:E.
  - intros [= ->]. destruct (decide (t_id x <> id)) as [Hne|He].
    + rewrite !tasks_where_cons, IH by done. lia.
    + destruct Hx. assert (t_id x = id) as -> by (destruct (decide (t_id x = id)); [done|by destruct He]).
      destruct (decide (id ∈ map t_id ts)) as [|Hni]; [done|]. apply find_task_None in Hni. congruence.
  - case_decide as Hid; [|done]. intros [= ->]. rewrite decide_False by tauto. rewrite tasks_where_cons.
    rewrite filter_keep; [lia|]. apply Forall_forall. intros y Hy Hyid. apply Hx. rewrite Hid, <- Hyid. apply list_elem_of_fmap. by exists y.
Qed.

Lemma find_task_id id ts t : find_task id ts = Some t -> t_id t = id.
Proof.
  induction ts as [|x ts IH]; [done|]. cbn. destruct (find_task id ts) as [t'|]; [by intros [= ->]; apply IH|].
  case_decide; [by intros [= ->]|done].
Qed.

Lemma set_sample_lookup id x a i : a_tasks (set_sample id x a) !! i = if decide (i = id) then Some x else a_tasks a !! i.
Proof. unfold set_sample. cbn. case_decide; [subst; by rewrite lookup_insert_eq|by rewrite lookup_insert_ne by done]. Qed.

(** The counts after the elementary steps. *)
Lemma remove_counts st a :
  a_active (remove_status st a) = Z.max 0 (a_active a - Z.b2z (counts_active st)) /\
  a_pending (remove_status st a) = Z.max 0 (a_pending a - Z.b2z (pending_status st)).
Proof. done. Qed.

Lemma add_counts st a :
  a_active (add_status st a) = Z.min (a_active a + Z.b2z (counts_active st)) u32_max /\
  a_pending (add_status st a) = Z.min (a_pending a + Z.b2z (pending_status st)) u32_max.
Proof. done. Qed.

Lemma count_step (n k l : Z) (b b' : bool) :
  n = k - Z.b2z b + Z.b2z b' -> Z.b2z b <= k -> 0 <= n <= l -> l <= u32_max -> Z.min (Z.max 0 (k - Z.b2z b) + Z.b2z b') u32_max = n.
Proof. destruct b, b'; cbn [Z.b2z]; lia. Qed.

(** A known task changes its status; the table changes alike. *)
Lemma mirrors_change a ts id x y g t :
  mirrors a ts -> a_tasks a !! id = Some x -> find_task id ts = Some t -> (forall t, t_id (g t) = t_id t) ->
  ts_status y = t_status (g t) -> Z.of_nat (length ts) <= u32_max ->
  mirrors (add_status (t_status (g t)) (remove_status (ts_status x) (set_sample id y a))) (alter_task id g ts).
Proof.
  intros [Ha Hp Hst] Hx Ht Hg Hy Hlen. assert (ts_status x = t_status t) as Hxt by (specialize (Hst id); rewrite Hx, Ht in Hst; by injection Hst).
  pose proof (tasks_where_alter counts_active id g ts t Ht) as Na. pose proof (tasks_where_alter pending_status id g ts t Ht) as Np.
  assert (length (alter_task id g ts) = length ts) as Hl.
  { rewrite <- (length_map t_id), <- (length_map t_id ts). by rewrite alter_keeps_ids. }
  pose proof (tasks_where_bounds counts_active (alter_task id g ts)) as Ba. pose proof (tasks_where_bounds pending_status (alter_task id g ts)) as Bp.
  rewrite Hl in *. constructor.
  - rewrite (proj1 (add_counts _ _)), (proj1 (remove_counts _ _)), Hxt. change (a_active (set_sample id y a)) with (a_active a). rewrite Ha.
    eapply count_step; [done|by eapply tasks_where_found|done|done].
  - rewrite (proj2 (add_counts _ _)), (proj2 (remove_counts _ _)), Hxt. change (a_pending (set_sample id y a)) with (a_pending a). rewrite Hp.
    eapply count_step; [done|by eapply tasks_where_found|done|done].
  - intros i. change (a_tasks (add_status (t_status (g t)) (remove_status (ts_status x) (set_sample id y a)))) with (a_tasks (set_sample id y a)).
    rewrite set_sample_lookup. case_decide as Hi.
    + subst i. rewrite find_alter_same by done. rewrite Ht. cbn. by rewrite Hy.
    + rewrite find_alter_other by done. apply Hst.
Qed.

Lemma mirrors_new a ts x t :
  mirrors a ts -> find_task (t_id t) ts = None -> ts_status x = t_status t -> Z.of_nat (length (ts ++ [t])) <= u32_max ->
  mirrors (add_status (t_status t) (set_sample (t_id t) x a)) (ts ++ [t]).
Proof.
  intros [Ha Hp Hst] Ht Hx Hlen. rewrite length_app in Hlen. cbn in Hlen.
  pose proof (tasks_where_bounds counts_active (ts ++ [t])) as Ba. pose proof (tasks_where_bounds pending_status (ts ++ [t])) as Bp.
  rewrite length_app in Ba, Bp. cbn [length] in Ba, Bp. rewrite !tasks_where_app, !tasks_where_cons in *.
  assert (forall f, tasks_where f [] = 0) as Hnil by done. rewrite !Hnil in *.
  constructor; rewrite ?tasks_where_app, ?tasks_where_cons, ?Hnil.
  - rewrite (proj1 (add_counts _ _)). change (a_active (set_sample (t_id t) x a)) with (a_active a). lia.
  - rewrite (proj2 (add_counts _ _)). change (a_pending (set_sample (t_id t) x a)) with (a_pending a). lia.
  - intros i. change (a_tasks (add_status (t_status t) (set_sample (t_id t) x a))) with (a_tasks (set_sample (t_id t) x a)).
    rewrite set_sample_lookup, find_task_app. destruct (decide (i = t_id t)) as [->|Hi].
    + rewrite decide_True by done. cbn. by rewrite Hx.
    + rewrite decide_False by done. apply Hst.
Qed.

Lemma counts_remove a ts id : NoDup (map t_id ts) -> mirrors a ts -> mirrors (acc_remove a id) (remove_task id ts).
Proof.
  intros Hn Hm. pose proof Hm as [Ha Hp Hst]. unfold acc_remove. pose proof (Hst id) as Hid.
  destruct (a_tasks a !! id) as [x|] eqn:Hx, (find_task id ts) as [t|] eqn:Ht; try done.
  - injection Hid as Hid. pose proof (tasks_where_remove counts_active id ts t Hn Ht) as Na.
    pose proof (tasks_where_remove pending_status id ts t Hn Ht) as Np.
    pose proof (tasks_where_bounds counts_active (remove_task id ts)). pose proof (tasks_where_bounds pending_status (remove_task id ts)).
    constructor.
    + rewrite (proj1 (remove_counts _ _)). cbn [a_active set_samples]. rewrite Hid, Ha. lia.
    + rewrite (proj2 (remove_counts _ _)). cbn [a_pending set_samples]. rewrite Hid, Hp. lia.
    + intros i. change (a_tasks (remove_status (ts_status x) (set_samples (delete id (a_tasks a)) a))) with (delete id (a_tasks a)).
      rewrite find_remove. destruct (decide (i = id)) as [->|Hi]; [by rewrite lookup_delete_eq|].
      rewrite lookup_delete_ne by done. apply Hst.
  - assert (remove_task id ts = ts) as ->; [|done]. unfold remove_task. apply filter_keep, Forall_forall. intros y Hy Hyid.
    apply find_task_None in Ht. apply Ht. rewrite <- Hyid. apply list_elem_of_fmap. by exists y.
Qed.

(** A whole table. *)
Lemma reconcile_fold l pre a :
  NoDup (map t_id (pre ++ l)) -> Z.of_nat (length (pre ++ l)) <= u32_max ->
  a_active a = tasks_where counts_active pre -> a_pending a = tasks_where pending_status pre ->
  (forall id, id ∈ map t_id pre -> ts_status <$> a_tasks a !! id = t_status <$> find_task id pre) ->
  (forall id, id ∉ map t_id (pre ++ l) -> a_tasks a !! id = None) ->
  mirrors (foldl reconcile_task a l) (pre ++ l).
Proof.
  revert pre a. induction l as [|t l IH]; intros pre a Hn Hlen Ha Hp Hin Hout.
  - rewrite app_nil_r in *. constructor; [done|done|]. intros id. destruct (decide (id ∈ map t_id pre)) as [H|H]; [by apply Hin|].
    by rewrite Hout, (proj2 (find_task_None _ _) H).
  - cbn [foldl]. replace (pre ++ t :: l) with ((pre ++ [t]) ++ l) in * by (by rewrite <- app_assoc).
    assert (Z.of_nat (length (pre ++ [t])) <= u32_max) as Hlen' by (rewrite length_app in Hlen; lia).
    pose proof (tasks_where_bounds counts_active (pre ++ [t])) as Ba. pose proof (tasks_where_bounds pending_status (pre ++ [t])) as Bp.
    rewrite tasks_where_app, tasks_where_cons in Ba, Bp. assert (forall f, tasks_where f [] = 0) as Hnil by done. rewrite Hnil in *.
    assert (t_id t ∉ map t_id pre) as Hnew.
    { rewrite map_app in Hn. apply NoDup_app in Hn as (Hn & _ & _). rewrite map_app in Hn. apply NoDup_app in Hn as (_ & Hn & _).
      intros H. apply (Hn _ H). by left. }
    assert (forall id, ts_status <$> a_tasks (reconcile_task a t) !! id = if decide (id = t_id t) then Some (t_status t) else ts_status <$> a_tasks a !! id) as Hl.
    { intros id. unfold reconcile_task. change (a_tasks (add_status ?s (set_sample ?i ?y ?b))) with (a_tasks (set_sample i y b)).
      rewrite set_sample_lookup. case_decide; [|done]. by destruct (a_tasks a !! t_id t). }
    apply IH; [done|done| | | |].
    + unfold reconcile_task. rewrite (proj1 (add_counts _ _)), tasks_where_app, tasks_where_cons, Hnil.
      change (a_active (set_sample ?i ?y a)) with (a_active a). lia.
    + unfold reconcile_task. rewrite (proj2 (add_counts _ _)), tasks_where_app, tasks_where_cons, Hnil.
      change (a_pending (set_sample ?i ?y a)) with (a_pending a). lia.
    + intros id Hid. rewrite Hl, find_task_app. destruct (decide (id = t_id t)) as [->|Hne]; [by rewrite decide_True|].
      rewrite decide_False by congruence. apply Hin. rewrite map_app, elem_of_app in Hid. destruct Hid as [|Hid]; [done|].
      by apply list_elem_of_singleton in Hid.
    + intros id Hid. specialize (Hl id). rewrite decide_False in Hl.
      * apply (fmap_None ts_status). rewrite Hl, Hout; [done|]. done.
      * intros ->. apply Hid. rewrite !map_app, !elem_of_app. left. right. by left.
Qed.

Lemma mirrors_reconcile a ts : NoDup (map t_id ts) -> Z.of_nat (length ts) <= u32_max -> mirrors (reconcile ts a) ts.
Proof.
  intros Hn Hlen. unfold reconcile. apply (reconcile_fold ts []); [done|done|done|done| |].
  - intros id Hid. by apply not_elem_of_nil in Hid.
  - intros id Hid. cbn. by apply map_lookup_filter_None; right; intros x _.
Qed.

Lemma traffic_keeps d u since now a :
  let a' := record_traffic d u since now a in a_tasks a' = a_tasks a /\ a_active a' = a_active a /\ a_pending a' = a_pending a.
Proof. unfold record_traffic. destruct (_ && _); [done|]. cbv zeta. destruct (foldl _ _ _) as [[? ?] ?]. by destruct (recent_traffic _ a). Qed.

Lemma mirrors_traffic d u since now a ts : mirrors a ts -> mirrors (record_traffic d u since now a) ts.
Proof. intros [H1 H2 H3]. destruct (traffic_keeps d u since now a) as (E1 & E2 & E3). constructor; by rewrite ?E1, ?E2, ?E3. Qed.

(** Only the samples' amounts change. *)
Lemma mirrors_sample a ts id x y : mirrors a ts -> a_tasks a !! id = Some x -> ts_status y = ts_status x -> mirrors (set_sample id y a) ts.
Proof.
  intros [H1 H2 H3] Hx Hy. constructor; [done|done|]. intros i. rewrite set_sample_lookup. case_decide as Hi; [|done]. subst i.
  rewrite <- H3, Hx. cbn. by rewrite Hy.
Qed.

(** A table whose tasks have the same statuses. *)
Lemma mirrors_same a id g s :
  (forall t, t_id (g t) = t_id t) -> (forall t, t_status (g t) = t_status t) ->
  mirrors a (sn_tasks s) -> mirrors a (sn_tasks (task_edit id g s)).
Proof.
  intros Hid Hst [H1 H2 H3]. assert (forall f, tasks_where f (alter_task id g (sn_tasks s)) = tasks_where f (sn_tasks s)) as Hf.
  { intros f. destruct (find_task id (sn_tasks s)) as [t|] eqn:E.
    - rewrite (tasks_where_alter f id g _ t E), Hst. lia.
    - by rewrite alter_none. }
  constructor; cbn; [by rewrite Hf|by rewrite Hf|]. intros i. destruct (decide (i = id)) as [->|Hne].
  - rewrite find_alter_same by done. rewrite H3. destruct (find_task id (sn_tasks s)); cbn; [by rewrite Hst|done].
  - by rewrite find_alter_other by done.
Qed.

(** Events that bring a whole table bring one without duplicates; the daemon's
    own stream has no reload. *)
Definition table_ok (e : DaemonEvent) : Prop :=
  match e with
  | SnapshotReplaced s => NoDup (map t_id (sn_tasks s))
  | Engine (MTasksSnapshot tasks) => NoDup (map t_id tasks)
  | TablesReloading _ _ => False
  | _ => True
  end.

Abbreviation task_count s := (Z.of_nat (length (sn_tasks s))).

Lemma alter_task_ext id f g ts : (forall t, t_id t = id -> f t = g t) -> alter_task id f ts = alter_task id g ts.
Proof.
  intros H. induction ts as [|x ts IH]; [done|]. cbn. destruct (find_task id ts); [by rewrite IH|]. case_decide; [|done]. by rewrite H.
Qed.

Lemma mirrors_row now a s t :
  mirrors a (sn_tasks s) -> task_count (apply_task_changed t s) <= u32_max ->
  mirrors (baseline now a t) (sn_tasks (apply_task_changed t s)).
Proof.
  intros Hm Hlen. unfold baseline, apply_task_changed in *. cbn in *. pose proof (mi_status _ _ Hm (t_id t)) as Hst.
  destruct (a_tasks a !! t_id t) as [x|] eqn:Hx, (find_task (t_id t) (sn_tasks s)) as [t0|] eqn:Ht; try done; cbn in *.
  - assert (length (alter_task (t_id t) (fun _ => t) (sn_tasks s)) = length (sn_tasks s)) as Hl.
    { rewrite <- (length_map t_id), <- (length_map t_id (sn_tasks s)). by rewrite alter_ids. }
    rewrite Hl in Hlen. set (g := fun t' => if decide (t_id t' = t_id t) then t else t').
    rewrite (alter_task_ext _ _ g) by (intros t' Ht'; unfold g; by rewrite decide_True).
    assert (g t0 = t) as Hg by (unfold g; rewrite decide_True; [done|by eapply find_task_id]).
    pose proof (mirrors_change a (sn_tasks s) (t_id t) x (row_sample t
      (if counts_active (t_status t) && negb (counts_active (ts_status x)) then Some now else ts_last_at x) x) g t0) as H.
    rewrite Hg in H. apply H; [done..| |done|done]. intros t'. unfold g. case_decide; congruence.
  - by apply mirrors_new.
Qed.

Lemma row_count t s : task_count s <= task_count (apply_task_changed t s).
Proof.
  unfold apply_task_changed. cbn. destruct (find_task (t_id t) (sn_tasks s)); cbn; [|rewrite length_app; lia].
  rewrite <- (length_map t_id (alter_task _ _ _)), alter_ids, length_map by done. lia.
Qed.

Lemma rows_count ts s : task_count s <= task_count (foldl (fun s t => apply_task_changed t s) s ts).
Proof. revert s. induction ts as [|t ts IH]; intros s; [cbn; lia|]. etrans; [apply (row_count t)|]. apply IH. Qed.

Lemma mirrors_rows now ts a s :
  mirrors a (sn_tasks s) -> task_count (foldl (fun s t => apply_task_changed t s) s ts) <= u32_max ->
  mirrors (foldl (baseline now) a ts) (sn_tasks (foldl (fun s t => apply_task_changed t s) s ts)).
Proof.
  revert a s. induction ts as [|t ts IH]; intros a s Hm Hlen; [done|]. cbn [foldl] in *. apply IH; [|done].
  apply mirrors_row; [done|]. etrans; [apply rows_count|exact Hlen].
Qed.

Lemma counts_removes ids a ts :
  NoDup (map t_id ts) -> mirrors a ts -> mirrors (foldl acc_remove a ids) (filter (fun t => t_id t ∉ ids) ts).
Proof.
  revert a ts. induction ids as [|id ids IH]; intros a ts Hn Hm.
  - rewrite filter_keep; [done|]. apply Forall_forall. intros t _. apply not_elem_of_nil.
  - cbn [foldl]. replace (filter (fun t => t_id t ∉ id :: ids) ts) with (filter (fun t => t_id t ∉ ids) (remove_task id ts)).
    + apply IH; [by apply NoDup_filter_ids|by apply counts_remove].
    + unfold remove_task. rewrite list_filter_filter. apply list_filter_iff. intros t. rewrite not_elem_of_cons. tauto.
Qed.

Lemma mirrors_progress p now a s :
  NoDup (map t_id (sn_tasks s)) -> mirrors a (sn_tasks s) -> task_count s <= u32_max ->
  mirrors (acc_progress p now a) (sn_tasks (apply_progress p s)).
Proof.
  intros Hn Hm Hlen. unfold acc_progress, apply_progress. destruct (is_deleted_progress p); [by apply counts_remove|].
  pose proof (mi_status _ _ Hm (p_id p)) as Hst. cbn.
  destruct (a_tasks a !! p_id p) as [x|] eqn:Hx, (find_task (p_id p) (sn_tasks s)) as [t|] eqn:Ht; try done.
  - apply mirrors_traffic. by apply (mirrors_change a (sn_tasks s) (p_id p) x _ (progress_task p) t).
  - by rewrite alter_none.
Qed.

Lemma mirrors_event e now a s :
  table_ok e -> NoDup (map t_id (sn_tasks s)) -> mirrors a (sn_tasks s) ->
  task_count s <= u32_max -> task_count (apply_daemon_event e s) <= u32_max ->
  mirrors (account e now a) (sn_tasks (apply_daemon_event e s)).
Proof.
  intros Ht Hn Hm Hl Hl'. destruct e; try done; cbn [account apply_daemon_event] in *.
  - unfold apply_runtime. by destruct (accepted_runtime_status s r).
  - by apply mirrors_reconcile.
  - destruct m; try done; cbn [apply_engine_message] in *.
    + by apply mirrors_progress.
    + by apply mirrors_reconcile.
    + unfold apply_segments. destruct (find_task id (sn_tasks s)); [|done]. by case_match.
    + by apply mirrors_same.
    + by apply mirrors_same.
    + by apply mirrors_same.
    + clear -Hm. revert s Hm. induction updates as [|u l IH]; intros s Hm; [done|]. apply IH. by apply mirrors_same.
  - by apply mirrors_row.
  - by apply mirrors_rows.
  - by apply counts_remove.
  - by apply counts_removes.
Qed.

Lemma event_ids e s : table_ok e -> NoDup (map t_id (sn_tasks s)) -> NoDup (map t_id (sn_tasks (apply_daemon_event e s))).
Proof.
  intros Ht Hn. destruct e; try done; cbn [apply_daemon_event].
  - unfold apply_runtime. by destruct (accepted_runtime_status s r).
  - destruct m; try done; cbn [apply_engine_message].
    + unfold apply_progress. destruct (is_deleted_progress p); [by apply NoDup_filter_ids|]. by apply edit_unique.
    + unfold apply_segments. destruct (find_task id (sn_tasks s)); [|done]. by case_match.
    + by apply edit_unique.
    + by apply edit_unique.
    + by apply edit_unique.
    + apply fold_unique; [|done]. intros x u. by apply edit_unique.
  - by apply changed_unique.
  - apply fold_unique; [|done]. intros x t. by apply changed_unique.
  - by apply NoDup_filter_ids.
  - by apply NoDup_filter_ids.
Qed.

(** ** The hub's counts *)

Record counted (s : EventState) : Prop := mk_counted {
  ct_ids : NoDup (map t_id (sn_tasks (es_snapshot s)));
  ct_mirrors : mirrors (es_accounting s) (sn_tasks (es_snapshot s));
  ct_active : st_active (sn_stats (es_snapshot s)) = a_active (es_accounting s);
  ct_pending : st_pending (sn_stats (es_snapshot s)) = a_pending (es_accounting s) }.

Lemma update_counted now s :
  NoDup (map t_id (sn_tasks (es_snapshot s))) -> mirrors (es_accounting s) (sn_tasks (es_snapshot s)) ->
  counted (update_runtime_stats now s).
Proof.
  intros Hn [M1 M2 M3]. destruct (update_spec now s) as [_ _ _ U4 _ _ _ U8 U9].
  destruct (rates_keep now (es_accounting s)) as (R1 & R2 & R3). unfold measured, runtime_measurements in U8. injection U8 as E1 E2 _ _.
  assert (sn_tasks (es_snapshot (update_runtime_stats now s)) = sn_tasks (es_snapshot s)) as Hts by (by rewrite U4).
  constructor; rewrite ?Hts, ?U9; [done| | |].
  - constructor; by rewrite ?R1, ?R2, ?R3.
  - by rewrite R2, E1.
  - by rewrite R3, E2.
Qed.

Lemma publish_counted e now s x s' :
  publish_locked_at e now s = (x, s') -> table_ok e -> counted s ->
  task_count (es_snapshot s) <= u32_max -> task_count (es_snapshot s') <= u32_max -> counted s'.
Proof.
  intros E Ht [C1 C2 _ _] Hl Hl'. pose proof (publish_one _ _ _ _ _ E) as [_ _ _ _ _ _ P7 _ _ _].
  assert (sn_tasks (es_snapshot s') = sn_tasks (apply_daemon_event e (es_snapshot s))) as Hts by (by rewrite P7).
  rewrite Hts in Hl'. unfold publish_locked_at in E. set (s1 := set_snapshot _ (set_accounting _ _)) in E.
  assert (counted (update_runtime_stats now s1)) as [U1 U2 U3 U4].
  { apply update_counted; cbn; [by apply event_ids|by apply mirrors_event]. }
  destruct (update_runtime_stats now s1) as [ep sq snap acc run]. injection E as _ <-. by constructor.
Qed.

Lemma stats_counted st now s x s' :
  publish_locked_at (RuntimeStatsChanged st) now s = (x, s') -> counted s -> task_count (es_snapshot s) <= u32_max ->
  counted s' /\ sn_tasks (es_snapshot s') = sn_tasks (es_snapshot s).
Proof.
  intros E Hc Hl. pose proof (publish_one _ _ _ _ _ E) as [_ _ _ _ _ _ P7 _ _ _].
  assert (sn_tasks (es_snapshot s') = sn_tasks (es_snapshot s)) as Hts by (by rewrite P7).
  split; [|done]. eapply publish_counted; [exact E|done|done|done|by rewrite Hts].
Qed.

Lemma expiry_snapshot runtime s : es_snapshot (start_expiry runtime s) = es_snapshot s.
Proof. unfold start_expiry. destruct (_ || _); [done|]. by destruct runtime. Qed.

Lemma counted_expiry runtime s : counted s -> counted (start_expiry runtime s).
Proof. intros [H1 H2 H3 H4]. unfold start_expiry. destruct (_ || _); [done|]. by destruct runtime. Qed.

Lemma counted_accounting s a :
  counted s -> a_active a = a_active (es_accounting s) -> a_pending a = a_pending (es_accounting s) ->
  mirrors a (sn_tasks (es_snapshot s)) -> counted (set_accounting a s).
Proof. intros [H1 H2 H3 H4] Ha Hp Hm. constructor; cbn; congruence || done. Qed.

Lemma transfer_counts id bytes now a ts : mirrors a ts -> let a' := record_transfer id bytes now a in
  mirrors a' ts /\ a_active a' = a_active a /\ a_pending a' = a_pending a.
Proof.
  intros Hm. unfold record_transfer. destruct (a_tasks a !! id) as [x|] eqn:Hx; [|done].
  match goal with |- context [record_traffic ?d ?u ?t now ?b] => destruct (traffic_keeps d u t now b) as (_ & -> & ->); split; [|done] end.
  apply mirrors_traffic. by eapply mirrors_sample.
Qed.

Lemma settle_counts id bytes now a ts : mirrors a ts -> let a' := settle_download id bytes now a in
  mirrors a' ts /\ a_active a' = a_active a /\ a_pending a' = a_pending a.
Proof.
  intros Hm. unfold settle_download. destruct (a_tasks a !! id) as [x|] eqn:Hx; [|done].
  match goal with |- context [record_traffic ?d ?u ?t now ?b] => destruct (traffic_keeps d u t now b) as (_ & -> & ->); split; [|done] end.
  apply mirrors_traffic. by eapply mirrors_sample.
Qed.

Lemma baseline_counts id bytes a ts : mirrors a ts -> let a' := transfer_baseline id bytes a in
  mirrors a' ts /\ a_active a' = a_active a /\ a_pending a' = a_pending a.
Proof.
  intros Hm. unfold transfer_baseline. destruct (a_tasks a !! id) as [x|] eqn:Hx; [|done]. split; [|done]. by eapply mirrors_sample.
Qed.

Definition op_table_ok (op : HubOp) : Prop := match op with Publish e => table_ok e | _ => True end.

Lemma counted_step runtime op now s out s' :
  hub_step runtime op now s = (out, s') -> op_table_ok op -> counted s ->
  task_count (es_snapshot s) <= u32_max -> task_count (es_snapshot s') <= u32_max -> counted s'.
Proof.
  intros E Ht Hc Hl Hl'. destruct op; cbn [hub_step op_table_ok] in *.
  - unfold publish, publish_with_stats_locked_at in E. destruct (publish_locked_at e now s) as [x s1] eqn:E1.
    assert (forall s2, task_count (es_snapshot (start_expiry runtime s2)) = task_count (es_snapshot s2)) as Hx
      by (intros s2; by rewrite expiry_snapshot).
    pose proof (publish_one _ _ _ _ _ E1) as [_ _ _ _ _ _ P7 _ _ _].
    destruct (_ && _).
    + destruct (publish_locked_at _ now s1) as [x2 s2] eqn:E2. injection E as _ <-. rewrite Hx in Hl'.
      assert (sn_tasks (es_snapshot s2) = sn_tasks (es_snapshot s1)) as Hts.
      { pose proof (publish_one _ _ _ _ _ E2) as [_ _ _ _ _ _ P7' _ _ _]. by rewrite P7'. }
      rewrite Hts in Hl'. apply counted_expiry. apply (stats_counted _ _ _ _ _ E2); [|done]. by eapply publish_counted.
    + injection E as _ <-. rewrite Hx in Hl'. apply counted_expiry. by eapply publish_counted.
  - unfold set_retry_pending_tasks in E. destruct (_ =? count); [by injection E as _ <-|].
    destruct (publish_locked_at _ now s) as [x s1] eqn:E1. injection E as _ <-.
    apply counted_expiry. by apply (stats_counted _ _ _ _ _ E1).
  - injection E as _ <-. destruct (transfer_counts id bytes now _ _ (ct_mirrors _ Hc)) as (H1 & H2 & H3). by apply counted_accounting.
  - injection E as _ <-. unfold transfer_baselined.
    assert (exists a, match previous with Some p => settle_download id p now (es_accounting s) | None => es_accounting s end = a /\
      mirrors a (sn_tasks (es_snapshot s)) /\ a_active a = a_active (es_accounting s) /\ a_pending a = a_pending (es_accounting s))
      as (a & -> & Hm & Ha & Hp).
    { eexists. split; [reflexivity|]. destruct previous; [|by split; [apply Hc|]]. apply settle_counts, Hc. }
    destruct (baseline_counts id downloaded_bytes a _ Hm) as (H1 & H2 & H3). apply counted_accounting; [done|congruence|congruence|done].
  - unfold expiry_round in E. destruct (es_expiry_running s); cbn [negb] in E; [|by injection E as _ <-].
    unfold expire_locked_at in E. pose proof (update_counted now s (ct_ids _ Hc) (ct_mirrors _ Hc)) as Hu.
    assert (forall s1, counted s1 -> counted (if has_traffic (es_accounting s1) then s1 else set_expiry false s1)) as Hend
      by (intros s1 [K1 K2 K3 K4]; destruct (has_traffic _); by constructor).
    case_bool_decide; [injection E as _ <-; by apply Hend|].
    destruct (publish_locked_at _ now _) as [x s1] eqn:E1. injection E as _ <-. apply Hend. apply (stats_counted _ _ _ _ _ E1); [done|].
    by rewrite (up_snapshot _ _ _ (update_spec now s)).
Qed.

Lemma hub_new_counted epoch snapshot now :
  NoDup (map t_id (sn_tasks snapshot)) -> Z.of_nat (length (sn_tasks snapshot)) <= u32_max -> counted (hub_new epoch snapshot now).
Proof. intros Hn Hl. apply update_counted; [done|]. by apply mirrors_reconcile. Qed.

Lemma counted_run runtime ops s out s' :
  hub_run runtime ops s = (out, s') -> Forall (fun x => op_table_ok x.1) ops -> counted s ->
  (forall k, task_count (es_snapshot (hub_run runtime (take k ops) s).2) <= u32_max) -> counted s'.
Proof.
  revert s out. induction ops as [|[op now] ops IH]; intros s out; cbn [hub_run]; [by intros [= <- <-]|].
  destruct (hub_step runtime op now s) as [out1 s1] eqn:E1. destruct (hub_run runtime ops s1) as [out2 s2] eqn:E2.
  intros [= <- <-] [Hop Hops]%Forall_cons Hc Hl.
  assert (forall k, task_count (es_snapshot (hub_run runtime (take k ops) s1).2) <= u32_max) as Hl1.
  { intros k. specialize (Hl (S k)). cbn [take hub_run] in Hl. rewrite E1 in Hl. by destruct (hub_run runtime (take k ops) s1). }
  eapply IH; [exact E2|done| |done]. eapply counted_step; [exact E1|done|done|exact (Hl 0%nat)|exact (Hl1 0%nat)].
Qed.

(** The events callers asked for, statistics apart. *)
Definition other_than_stats (e : DaemonEvent) : option DaemonEvent := if is_stats e then None else Some e.

Definition asked_for (op : HubOp * Z) : option DaemonEvent :=
  match op.1 with Publish e => other_than_stats e | _ => None end.

Lemma told_one e now s x s' : publish_locked_at e now s = (x, s') -> other_than_stats x.1 = other_than_stats e.
Proof. intros [H _ _ _ _ _ _ _ _ _]%publish_one. rewrite H. by destruct e. Qed.

Lemma told_step runtime op now s out s' :
  hub_step runtime op now s = (out, s') -> omap other_than_stats (map fst out) = option_list (asked_for (op, now)).
Proof.
  intros E. destruct op; cbn [hub_step asked_for fst] in *.
  - unfold publish, publish_with_stats_locked_at in E. destruct (publish_locked_at e now s) as [x s1] eqn:E1. apply told_one in E1.
    destruct (_ && _).
    + destruct (publish_locked_at _ now s1) as [x2 s2] eqn:E2. apply told_one in E2. injection E as <- _.
      cbn [map omap list_omap]. rewrite E1, E2. by destruct (other_than_stats e).
    + injection E as <- _. cbn [map omap list_omap]. rewrite E1. by destruct (other_than_stats e).
  - unfold set_retry_pending_tasks in E. destruct (_ =? count); [by injection E as <- _|].
    destruct (publish_locked_at _ now s) as [x s1] eqn:E1. apply told_one in E1. injection E as <- _. cbn [map omap list_omap]. by rewrite E1.
  - by injection E as <- _.
  - by injection E as <- _.
  - unfold expiry_round in E. destruct (es_expiry_running s); cbn [negb] in E; [|by injection E as <- _].
    unfold expire_locked_at in E. case_bool_decide; [by injection E as <- _|].
    destruct (publish_locked_at _ now _) as [x s1] eqn:E1. apply told_one in E1. injection E as <- _. cbn [map omap list_omap]. by rewrite E1.
Qed.

Lemma told_run runtime ops s : omap other_than_stats (map fst (hub_run runtime ops s).1) = omap asked_for ops.
Proof.
  revert s. induction ops as [|[op now] ops IH]; intros s; [done|]. cbn [hub_run].
  destruct (hub_step runtime op now s) as [out s1] eqn:E1. specialize (IH s1). destruct (hub_run runtime ops s1) as [out2 s2].
  apply told_step in E1. cbn [fst] in *. rewrite map_app, omap_app, E1, IH. cbn [omap list_omap]. by destruct (asked_for (op, now)).
Qed.

Lemma hub_frames runtime epoch snapshot start ops out s :
  hub_run runtime ops (hub_new epoch snapshot start) = (out, s) -> Z.of_nat (length out) <= u64_max ->
  es_snapshot s = server (es_snapshot (hub_new epoch snapshot start)) (map fst out) /\
  map snd out = published epoch 0 (map fst out) /\ es_sequence s = Z.of_nat (length out).
Proof.
  intros E Hlen.
  destruct (update_spec start (mk_state epoch 0 snapshot (accounting_new (sn_tasks snapshot) start) false)) as [Ue Us _ _ _ _ _ _ _].
  apply faithful_run in E as [F1 _ F3 F4]; [|apply update_settled]. unfold hub_new in F4 at 1. rewrite Us in F4. cbn [es_sequence] in F4.
  destruct F4 as [F4 F5]; [lia|]. split; [exact F3|]. split.
  - rewrite F4. unfold hub_new. by rewrite Ue, Us.
  - rewrite F5. unfold hub_new. by rewrite Us.
Qed.

(** ** The theorems *)

(** The hub's frames tell its whole state: whatever events are published,
    rates fall or counts change, a subscriber who starts from the hub's first
    snapshot and applies the events published since is at the hub's present
    snapshot, its statistics included; the frames carry the epoch and the numbers
    1, 2, 3, ... without a gap; and apart from statistics, which the hub adds when
    they differ, the events are those asked for, in their order. *)
Theorem hub_replays runtime epoch snapshot start ops :
  let s0 := hub_new epoch snapshot start in
  let '(out, s) := hub_run runtime ops s0 in
  Z.of_nat (length out) <= u64_max ->
  es_snapshot s = server (es_snapshot s0) (map fst out) /\
  map snd out = published epoch 0 (map fst out) /\
  es_sequence s = Z.of_nat (length out) /\
  omap other_than_stats (map fst out) = omap asked_for ops.
Proof.
  cbv zeta. pose proof (told_run runtime ops (hub_new epoch snapshot start)) as Htold.
  destruct (hub_run runtime ops (hub_new epoch snapshot start)) as [out s] eqn:E. intros Hlen.
  destruct (hub_frames _ _ _ _ _ _ _ E Hlen) as (H1 & H2 & H3). done.
Qed.

(** C17. The numbers of active and of waiting tasks the subscribers see are those
    of the table they see: whatever events change rows, add and delete tasks one
    by one or at once, report progress or replace the table, the counts kept
    incrementally equal a recount of the table. *)
Theorem counts_recounted runtime epoch snapshot start ops :
  NoDup (map t_id (sn_tasks snapshot)) -> Z.of_nat (length (sn_tasks snapshot)) <= u32_max ->
  Forall (fun x => op_table_ok x.1) ops ->
  (forall k, task_count (es_snapshot (hub_run runtime (take k ops) (hub_new epoch snapshot start)).2) <= u32_max) ->
  let snap := es_snapshot (hub_run runtime ops (hub_new epoch snapshot start)).2 in
  st_active (sn_stats snap) = tasks_where counts_active (sn_tasks snap) /\
  st_pending (sn_stats snap) = tasks_where pending_status (sn_tasks snap).
Proof.
  intros Hn Hl Ht Hk. cbv zeta. destruct (hub_run runtime ops (hub_new epoch snapshot start)) as [out s] eqn:E. cbn [snd].
  destruct (counted_run _ _ _ _ _ E Ht (hub_new_counted _ _ _ Hn Hl) Hk) as [_ [M1 M2 _] C3 C4]. by rewrite C3, C4.
Qed.

(** ** Witnesses *)

Definition sample_progress_of (downloaded : Z) : DaemonEvent := sample_progress (lit "f") downloaded.

Definition sample_ops : list (HubOp * Z) :=
  [(Transferred (lit "a") 500000, 400000000); (Publish (sample_progress_of 500000), 500000000);
   (Publish (TaskDeleted (lit "a")), 600000000); (ExpiryRound, 1900000000)].

Lemma counts_recounted_witness :
  let snap := es_snapshot (hub_run true sample_ops (hub_new (lit "e") sample_snapshot 0)).2 in
  st_active (sn_stats snap) = tasks_where counts_active (sn_tasks snap) /\
  st_pending (sn_stats snap) = tasks_where pending_status (sn_tasks snap).
Proof.
  apply (counts_recounted true (lit "e") sample_snapshot 0 sample_ops).
  - repeat constructor. apply not_elem_of_nil.
  - vm_compute. discriminate.
  - repeat constructor.
  - intros k. destruct k as [|[|[|[|k]]]]; [..|rewrite take_ge by (cbn; lia)]; vm_compute; discriminate.
Defined.

Lemma hub_replays_witness :
  let s0 := hub_new (lit "e") sample_snapshot 0 in
  let '(out, s) := hub_run true sample_ops s0 in
  es_snapshot s = server (es_snapshot s0) (map fst out) /\
  map snd out = published (lit "e") 0 (map fst out) /\
  es_sequence s = Z.of_nat (length out) /\
  omap other_than_stats (map fst out) = omap asked_for sample_ops.
Proof.
  pose proof (hub_replays true (lit "e") sample_snapshot 0 sample_ops) as H. cbv zeta in *.
  destruct (hub_run true sample_ops (hub_new (lit "e") sample_snapshot 0)) as [out s] eqn:E. apply H.
  assert (length out = length (hub_run true sample_ops (hub_new (lit "e") sample_snapshot 0)).1) as -> by (by rewrite E).
  vm_compute. discriminate.
Defined.
