(* ===== verification/Traffic.v ===== *)
(** * Traffic: the rates the event hub shows

    About the definitions of EventHub.v: the ring of buckets holds every byte
    recorded exactly once, what is recorded for an interval is spread over the
    buckets of that interval, and the rates shown return to zero once the traffic
    ends, because a timer runs as long as they are not zero. *)
From S2P Require Import Prelude Text QueueOrder Projection Coalesce TableSync SnapshotWf EventHub.

(** ** The ring *)

(** Up to the tick [top]: each bucket is in the slot of its tick. *)
Record ring_ok (top : Z) (buckets : list TrafficBucket) : Prop := mk_ring {
  rg_length : length buckets = Z.to_nat TRAFFIC_BUCKETS;
  rg_slot : forall i b, buckets !! i = Some b -> b = empty_bucket \/ slot_of (b_tick b) = i;
  rg_tick : forall i b, buckets !! i = Some b -> 0 <= b_tick b <= top;
  rg_bytes : forall i b, buckets !! i = Some b -> 0 <= b_downloaded b /\ 0 <= b_uploaded b }.

(** What a bucket adds to a window. *)
Definition in_window (first end_ : Z) (get : TrafficBucket -> Z) (b : TrafficBucket) : Z :=
  if has_bytes b && (first <=? b_tick b) && (b_tick b <? end_) then get b else 0.

(** A reading of a bucket: its bytes down or up. *)
Definition reading (get : TrafficBucket -> Z) : Prop := get = b_downloaded \/ get = b_uploaded.

Lemma reading_nonneg get top buckets b : reading get -> ring_ok top buckets -> b ∈ buckets -> 0 <= get b.
Proof. intros Hg [_ _ _ Hb] (i & Hi)%list_elem_of_lookup. specialize (Hb i b Hi). destruct Hg as [->| ->]; tauto. Qed.

Lemma in_window_bounds first end_ get b : 0 <= get b -> 0 <= in_window first end_ get b <= get b.
Proof. intros H. unfold in_window. case_match; lia. Qed.

Lemma no_bytes_reading get b : reading get -> has_bytes b = false -> get b = 0.
Proof. unfold has_bytes. intros Hg H. bool_hyps. by destruct Hg as [->| ->]. Qed.

Lemma in_window_inside first end_ get b : reading get -> first <= b_tick b < end_ -> in_window first end_ get b = get b.
Proof.
  intros Hg Hb. unfold in_window. destruct (has_bytes b) eqn:E; cbn [andb].
  - by rewrite (proj2 (Z.leb_le _ _)), (proj2 (Z.ltb_lt _ _)) by lia.
  - by rewrite (no_bytes_reading get b).
Qed.

(** Nothing saturates while the ring holds less than [i64_max] bytes. *)
Lemma window_sum_plain first end_ get buckets :
  (forall b, b ∈ buckets -> 0 <= get b) -> sum_list_with_Z get buckets <= i64_max ->
  window_sum first end_ get buckets = sum_list_with_Z (in_window first end_ get) buckets.
Proof.
  intros Hpos Hmax. unfold window_sum.
  enough (forall l acc, (forall b, b ∈ l -> 0 <= get b) -> 0 <= acc -> acc + sum_list_with_Z get l <= i64_max ->
    foldl (fun acc b => if has_bytes b && (first <=? b_tick b) && (b_tick b <? end_) then sat_i64 (acc + get b) else acc) acc l =
    acc + sum_list_with_Z (in_window first end_ get) l) as H by (rewrite H; [lia|done|lia|lia]).
  clear. induction l as [|b l IH]; intros acc Hpos Hacc Hmax; [cbn; lia|]. cbn [foldl].
  assert (0 <= get b) as Hb by (apply Hpos; by left). assert (forall b, b ∈ l -> 0 <= get b) as Hl by (intros; apply Hpos; by right).
  pose proof (sum_Z_nonneg get l Hl) as Hs. cbn in Hmax. cbn [sum_list_with_Z foldr].
  change (foldr (fun x a => in_window first end_ get x + a) 0 l) with (sum_list_with_Z (in_window first end_ get) l).
  unfold in_window at 1. change (foldr (fun x a => get x + a) 0 l) with (sum_list_with_Z get l) in Hmax.
  destruct (_ && _).
  - unfold sat_i64. rewrite clamp_id by (unfold i64_min; lia). rewrite IH; [lia|done|lia|lia].
  - rewrite IH; [lia|done|lia|lia].
Qed.

(** Bytes of the tick [x] or later. *)
Definition holds_since (x : Z) (buckets : list TrafficBucket) : Prop :=
  exists b, b ∈ buckets /\ has_bytes b = true /\ x <= b_tick b.

(** *** One bucket *)

Lemma slot_of_same a b : 0 <= a -> slot_of a = slot_of b -> a <= b < a + TRAFFIC_BUCKETS -> a = b.
Proof.
  unfold slot_of, TRAFFIC_BUCKETS. intros Ha H Hb. apply Z2Nat.inj in H; [|apply Z.mod_pos_bound; lia..].
  Z.div_mod_to_equations. lia.
Qed.

Lemma slot_of_length t : (slot_of t < Z.to_nat TRAFFIC_BUCKETS)%nat.
Proof. unfold slot_of, TRAFFIC_BUCKETS. pose proof (Z.mod_pos_bound t 40). lia. Qed.

(** What a bucket among the last ones becomes. *)
Definition filled (tick d u : Z) (b : TrafficBucket) : TrafficBucket :=
  mk_bucket tick (sat_i64 ((if b_tick b =? tick then b_downloaded b else 0) + d)) (sat_i64 ((if b_tick b =? tick then b_uploaded b else 0) + u)).

Lemma add_bucket_eq top tick d u buckets :
  ring_ok top buckets -> 0 <= tick <= top -> top < tick + TRAFFIC_BUCKETS ->
  exists b, buckets !! slot_of tick = Some b /\ add_to_bucket tick d u buckets = <[slot_of tick := filled tick d u b]> buckets /\
    (b = empty_bucket \/ b_tick b = tick \/ b_tick b + TRAFFIC_BUCKETS <= tick).
Proof.
  intros [R1 R2 R3 R4] Ht Htop. unfold add_to_bucket. destruct (buckets !! slot_of tick) as [b|] eqn:Hb.
  2: { apply lookup_ge_None in Hb. rewrite R1 in Hb. pose proof (slot_of_length tick). lia. }
  pose proof (R3 _ _ Hb) as Hbt. exists b. split; [done|].
  assert (b = empty_bucket \/ b_tick b = tick \/ b_tick b + TRAFFIC_BUCKETS <= tick) as Hold.
  { destruct (R2 _ _ Hb) as [|Hs]; [by left|right]. destruct (Z_lt_ge_dec (b_tick b) tick) as [Hlt|Hge].
    - destruct (Z_lt_ge_dec tick (b_tick b + TRAFFIC_BUCKETS)); [|lia]. left. apply slot_of_same; [lia|done|lia].
    - left. symmetry. apply slot_of_same; [lia|done|lia]. }
  split; [|done].
  assert ((tick <? b_tick b) = false) as -> by (apply Z.ltb_ge; destruct Hold as [->|[|]]; cbn; unfold TRAFFIC_BUCKETS in *; lia).
  unfold filled. by destruct (Z.eqb_spec (b_tick b) tick) as [<-|].
Qed.

Lemma sat_nonneg x y : 0 <= x -> 0 <= y -> 0 <= sat_i64 (x + y).
Proof. unfold sat_i64, clamp, i64_min, i64_max. lia. Qed.

Lemma filled_nonneg tick d u b : 0 <= b_downloaded b -> 0 <= b_uploaded b -> 0 <= d -> 0 <= u ->
  0 <= b_downloaded (filled tick d u b) /\ 0 <= b_uploaded (filled tick d u b).
Proof. intros. cbn. split; apply sat_nonneg; try done; by destruct (_ =? _). Qed.

Lemma add_bucket_ring top tick d u buckets :
  ring_ok top buckets -> 0 <= tick <= top -> top < tick + TRAFFIC_BUCKETS -> 0 <= d -> 0 <= u ->
  ring_ok top (add_to_bucket tick d u buckets).
Proof.
  intros Hr Ht Htop Hd Hu. destruct (add_bucket_eq top tick d u buckets Hr Ht Htop) as (b & Hb & -> & _).
  destruct Hr as [R1 R2 R3 R4]. destruct (R4 _ _ Hb) as [Hbd Hbu]. constructor.
  - by rewrite length_insert.
  - intros i x Hx. apply list_lookup_insert_Some in Hx as [(<- & <- & _)|[_ Hx]]; [by right|by apply R2].
  - intros i x Hx. apply list_lookup_insert_Some in Hx as [(_ & <- & _)|[_ Hx]]; [done|by eapply R3].
  - intros i x Hx. apply list_lookup_insert_Some in Hx as [(_ & <- & _)|[_ Hx]]; [by apply filled_nonneg|by eapply R4].
Qed.

(** A bucket that is still in the window stays. *)
Lemma add_bucket_recent top tick d u buckets x :
  ring_ok top buckets -> 0 <= tick <= top -> top < tick + TRAFFIC_BUCKETS -> 0 <= d -> 0 <= u -> top < x + TRAFFIC_BUCKETS -> 
  holds_since x buckets ->
  holds_since x (add_to_bucket tick d u buckets).
Proof.
  intros Hr Ht Htop Hd Hu Hx (c & (i & Hc)%list_elem_of_lookup & Hbytes & Hct).
  destruct (add_bucket_eq top tick d u buckets Hr Ht Htop) as (b & Hb & -> & Hold).
  destruct (decide (i = slot_of tick)) as [->|Hne].
  - rewrite Hb in Hc. injection Hc as ->. destruct Hold as [->|[Hold|Hold]]; [done| |lia].
    exists (filled tick d u c). split; [|split; [|cbn; lia]].
    + eapply list_elem_of_lookup_2. rewrite list_lookup_insert_eq; [done|]. by eapply lookup_lt_Some.
    + destruct Hr as [_ _ _ R4]. destruct (R4 _ _ Hb) as [Bd Bu]. unfold has_bytes, filled in *. cbn. rewrite Hold, Z.eqb_refl.
      unfold sat_i64, clamp, i64_min, i64_max in *. destruct (Z.eqb_spec (b_downloaded c) 0), (Z.eqb_spec (b_uploaded c) 0); cbn in Hbytes; try done;
      rewrite ?orb_true_iff, ?negb_true_iff, ?Z.eqb_neq; lia.
  - exists c. split; [|done]. eapply list_elem_of_lookup_2. by rewrite list_lookup_insert_ne.
Qed.

(** Adding bytes at a tick among the last ones adds them to every window that
    holds the tick and reaches back less than the ring. *)
Lemma add_bucket_sums top tick d u buckets :
  ring_ok top buckets -> 0 <= tick <= top -> top < tick + TRAFFIC_BUCKETS -> 0 <= d -> 0 <= u ->
  sum_list_with_Z b_downloaded buckets + d <= i64_max -> sum_list_with_Z b_uploaded buckets + u <= i64_max ->
  sum_list_with_Z b_downloaded (add_to_bucket tick d u buckets) <= sum_list_with_Z b_downloaded buckets + d /\
  sum_list_with_Z b_uploaded (add_to_bucket tick d u buckets) <= sum_list_with_Z b_uploaded buckets + u /\
  forall lo, lo <= tick -> top < lo + TRAFFIC_BUCKETS ->
    sum_list_with_Z (in_window lo (top + 1) b_downloaded) (add_to_bucket tick d u buckets) =
      sum_list_with_Z (in_window lo (top + 1) b_downloaded) buckets + d /\
    sum_list_with_Z (in_window lo (top + 1) b_uploaded) (add_to_bucket tick d u buckets) =
      sum_list_with_Z (in_window lo (top + 1) b_uploaded) buckets + u.
Proof.
  intros Hr Ht Htop Hd Hu Hdm Hum. destruct (add_bucket_eq top tick d u buckets Hr Ht Htop) as (b & Hb & -> & Hold).
  pose proof Hr as [R1 R2 R3 R4]. pose proof (R3 _ _ Hb) as Hbt. destruct (R4 _ _ Hb) as [Hbd Hbu].
  assert (forall get, reading get -> get b <= sum_list_with_Z get buckets) as Hle.
  { intros get Hg. apply sum_Z_ge_elem; [intros y Hy; by eapply reading_nonneg|by eapply list_elem_of_lookup_2]. }
  pose proof (Hle b_downloaded ltac:(by left)) as Hld. pose proof (Hle b_uploaded ltac:(by right)) as Hlu.
  set (bd := if b_tick b =? tick then b_downloaded b else 0). set (bu := if b_tick b =? tick then b_uploaded b else 0).
  assert (0 <= bd <= b_downloaded b /\ 0 <= bu <= b_uploaded b) as [Bd Bu] by (unfold bd, bu; destruct (_ =? _); lia).
  assert (filled tick d u b = mk_bucket tick (bd + d) (bu + u)) as ->.
  { unfold filled. fold bd bu. unfold sat_i64. by rewrite !clamp_id by (unfold i64_min; lia). }
  rewrite !(sum_Z_insert _ _ _ _ _ Hb). cbn. split; [lia|split; [lia|]].
  intros lo Hlo Hlt. rewrite !(sum_Z_insert _ _ _ _ _ Hb).
  rewrite (in_window_inside _ _ b_downloaded (mk_bucket tick (bd + d) (bu + u))); [|by left|cbn; lia].
  rewrite (in_window_inside _ _ b_uploaded (mk_bucket tick (bd + d) (bu + u))); [|by right|cbn; lia]. cbn.
  assert (in_window lo (top + 1) b_downloaded b = bd /\ in_window lo (top + 1) b_uploaded b = bu) as [-> ->]; [|lia].
  unfold bd, bu. destruct (Z.eqb_spec (b_tick b) tick) as [E|E].
  - rewrite !in_window_inside; [done|by right|lia|by left|lia].
  - destruct Hold as [->|[|Hold]]; [done|done|]. unfold in_window. rewrite (proj2 (Z.leb_gt lo (b_tick b))) by lia. by rewrite andb_false_r.
Qed.

(** *** The loop over an interval *)

Lemma proportion_le v part whole :
  0 <= v <= i64_max -> 0 <= part <= whole -> 0 < whole <= i128_max ->
  0 <= proportion v part whole <= v /\ proportion v part whole * whole <= v * part.
Proof.
  intros Hv Hp Hw. unfold proportion. rewrite !Z.min_l by lia. rewrite Z.quot_div_nonneg by nia.
  assert (0 <= v * part / whole <= v) as Hq.
  { split; [apply Z.div_pos; nia|]. apply Z.div_le_upper_bound; nia. }
  assert ((i64_min <=? v * part / whole) && (v * part / whole <=? i64_max) = true) as ->.
  { unfold i64_min in *. rewrite andb_true_iff, !Z.leb_le. lia. }
  split; [done|]. pose proof (Z.mul_div_le (v * part) whole ltac:(lia)). lia.
Qed.

Lemma seqZ_step t n : (0 < n)%nat -> seqZ t (Z.of_nat n) = t :: seqZ (t + 1) (Z.of_nat (n - 1)).
Proof. intros Hn. rewrite seqZ_cons by lia. do 2 f_equal; lia. Qed.

Section Spread.
Context (d u start end_ : Z) (Hd : 0 <= d <= i64_max) (Hu : 0 <= u <= i64_max).
Context (Hint : 0 <= start <= end_) (Hspan : end_ - start <= SPREAD_CAP_US).
Abbreviation last := (end_ / TRAFFIC_BUCKET_US).

Definition covered (t : Z) : Z := Z.max start (t * TRAFFIC_BUCKET_US) - start.

Lemma spread_loop n t dl ul buckets :
  (0 < n)%nat -> t + Z.of_nat n = last + 1 -> start / TRAFFIC_BUCKET_US <= t -> ring_ok last buckets ->
  0 <= dl <= d -> 0 <= ul <= u -> (d - dl) * (end_ - start) <= d * covered t -> (u - ul) * (end_ - start) <= u * covered t ->
  let '(dl', ul', buckets') := foldl (spread_tick d u start end_ last) (dl, ul, buckets) (seqZ t (Z.of_nat n)) in
  ring_ok last buckets' /\
  (forall x, last < x + TRAFFIC_BUCKETS -> holds_since x buckets ->
     holds_since x buckets') /\
  (sum_list_with_Z b_downloaded buckets + dl <= i64_max -> sum_list_with_Z b_uploaded buckets + ul <= i64_max ->
   sum_list_with_Z b_downloaded buckets' <= sum_list_with_Z b_downloaded buckets + dl /\
   sum_list_with_Z b_uploaded buckets' <= sum_list_with_Z b_uploaded buckets + ul /\ forall lo, lo <= t -> last < lo + TRAFFIC_BUCKETS ->
    sum_list_with_Z (in_window lo (last + 1) b_downloaded) buckets' = sum_list_with_Z (in_window lo (last + 1) b_downloaded) buckets + dl /\
    sum_list_with_Z (in_window lo (last + 1) b_uploaded) buckets' = sum_list_with_Z (in_window lo (last + 1) b_uploaded) buckets + ul).
Proof.
  revert t dl ul buckets. induction n as [|n IH]; intros t dl ul buckets Hn Ht Hfirst Hr Hdl Hul Cd Cu; [lia|].
  rewrite seqZ_step by lia. cbn [foldl]. replace (S n - 1)%nat with n by lia.
  assert (0 <= t <= last /\ last < t + TRAFFIC_BUCKETS) as [Ht1 Ht2].
  { unfold SPREAD_CAP_US, TRAFFIC_BUCKETS, TRAFFIC_BUCKET_US in *. Z.div_mod_to_equations. lia. }
  unfold spread_tick at 2. destruct (Z.eqb_spec t last) as [E|E].
  - replace n with 0%nat by lia. cbn [seqZ foldl]. rewrite !Z.sub_diag. split; [apply add_bucket_ring; done || lia|].
    split; [intros x Hx; apply (add_bucket_recent last); done || lia|]. intros Md Mu.
    destruct (add_bucket_sums last t dl ul buckets) as (A1 & A2 & A); done || lia.
  - set (share := Z.max 0 _). assert (share = covered (t + 1) - covered t /\ 0 <= covered t /\ covered (t + 1) <= end_ - start) as (Hshare & Hc0 & Hc1).
    { unfold share, covered, TRAFFIC_BUCKET_US in *. Z.div_mod_to_equations. lia. }
    assert (0 <= share <= end_ - start) as Hs by lia.
    assert (0 < end_ - start) as Hpos by (unfold TRAFFIC_BUCKET_US in *; Z.div_mod_to_equations; lia).
    assert (0 < end_ - start <= i128_max) as Hw by (unfold SPREAD_CAP_US, i128_max in *; lia).
    destruct (proportion_le d share (end_ - start) Hd Hs Hw) as [Pd1 Pd2]. destruct (proportion_le u share (end_ - start) Hu Hs Hw) as [Pu1 Pu2].
    set (down := proportion d share (end_ - start)) in *. set (up := proportion u share (end_ - start)) in *.
    assert (down <= dl) as Ld by nia. assert (up <= ul) as Lu by nia.
    assert (sat_i64 (dl - down) = dl - down /\ sat_i64 (ul - up) = ul - up) as [-> ->] by (unfold sat_i64; rewrite !clamp_id by (unfold i64_min; lia); done).
    assert (ring_ok last (add_to_bucket t down up buckets)) as Hr' by (apply add_bucket_ring; done || lia).
    specialize (IH (t + 1) (dl - down) (ul - up) (add_to_bucket t down up buckets)).
    destruct (foldl _ _ _) as [[dl' ul'] b']. destruct IH as (I1 & I2 & I3); [(done || lia || nia)..|]. split; [done|]. split.
    + intros x Hx Hold. apply I2; [done|]. apply (add_bucket_recent last); done || lia.
    + intros Md Mu. destruct (add_bucket_sums last t down up buckets) as (A2 & A3 & A4); [done || lia..|].
      destruct I3 as (I3 & I4 & I5); [lia|lia|]. split; [lia|split; [lia|]]. intros lo Hlo1 Hlo2.
      destruct (I5 lo ltac:(lia) Hlo2) as [-> ->]. destruct (A4 lo Hlo1 Hlo2) as [-> ->]. lia.
Qed.
End Spread.

(** *** Recording *)

Lemma micros_nonneg a t : 0 <= micros a t.
Proof. unfold micros. apply Z.div_pos; lia. Qed.

Definition ring_at (a : RuntimeAccounting) (now : Z) : Prop := ring_ok (tick a now) (a_buckets a).

(** The recent buckets stay, and the windows that hold the interval gain its
    bytes. *)
Lemma record_ok d u since now a :
  ring_at a now -> 0 <= d <= i64_max -> 0 <= u <= i64_max ->
  let a' := record_traffic d u since now a in let top := tick a now in
  ring_at a' now /\ a_origin a' = a_origin a /\
  (a_published a' = a_published a \/ a_published a' = None) /\
  (forall x, top < x + TRAFFIC_BUCKETS -> holds_since x (a_buckets a) ->
     holds_since x (a_buckets a')) /\
  (sum_list_with_Z b_downloaded (a_buckets a) + d <= i64_max -> sum_list_with_Z b_uploaded (a_buckets a) + u <= i64_max ->
   sum_list_with_Z b_downloaded (a_buckets a') <= sum_list_with_Z b_downloaded (a_buckets a) + d /\
   sum_list_with_Z b_uploaded (a_buckets a') <= sum_list_with_Z b_uploaded (a_buckets a) + u /\
   forall lo, lo + 10 <= top -> top < lo + TRAFFIC_BUCKETS ->
    sum_list_with_Z (in_window lo (top + 1) b_downloaded) (a_buckets a') = sum_list_with_Z (in_window lo (top + 1) b_downloaded) (a_buckets a) + d /\
    sum_list_with_Z (in_window lo (top + 1) b_uploaded) (a_buckets a') = sum_list_with_Z (in_window lo (top + 1) b_uploaded) (a_buckets a) + u).
Proof.
  intros Hr Hd Hu. unfold record_traffic. destruct (_ && _) eqn:E0.
  { apply andb_prop in E0 as [-> %Z.eqb_eq ->%Z.eqb_eq]. do 2 (split; [done|]). split; [by left|]. split; [done|]. intros _ _. split; [lia|split; [lia|]]. intros lo _ _. lia. }
  cbv zeta. set (end_ := micros a now). set (start := Z.min end_ _). pose proof (micros_nonneg a now) as Hend. fold end_ in Hend.
  assert (0 <= start <= end_ /\ end_ - start <= SPREAD_CAP_US) as [Hint Hspan].
  { unfold start. unfold SPREAD_CAP_US. destruct since as [s0|]; [pose proof (micros_nonneg a s0)|]; lia. }
  clearbody start. set (a1 := if recent_traffic _ a then a else _).
  assert (a_buckets a1 = a_buckets a /\ a_origin a1 = a_origin a /\ (a_published a1 = a_published a \/ a_published a1 = None)) as (Eb & Eo & Ep)
    by (unfold a1; destruct (recent_traffic _ a); cbn; auto). clearbody a1.
  set (first := start / TRAFFIC_BUCKET_US). set (top := end_ / TRAFFIC_BUCKET_US).
  assert (0 <= first <= top /\ top <= first + 10) as [Hf1 Hf2].
  { unfold first, top, TRAFFIC_BUCKET_US, SPREAD_CAP_US in *. Z.div_mod_to_equations. lia. }
  pose proof (spread_loop d u start end_ Hd Hu Hint Hspan (Z.to_nat (top - first + 1)) first d u (a_buckets a)) as H.
  unfold ticks_between. rewrite Z2Nat.id in H by lia. rewrite Eb. fold top in H. destruct (foldl _ _ _) as [[dl ul] b'] eqn:E.
  assert (forall v, (v - v) * (end_ - start) <= v * covered start first) as Hc.
  { intros v. unfold covered, first, TRAFFIC_BUCKET_US. replace (Z.max start _) with start; [lia|]. Z.div_mod_to_equations. lia. }
  destruct H as (H3 & H4 & H5); [(done || lia || apply Hc)..|]. split; [|split; [done|split; [done|split]]].
  - unfold ring_at, tick, micros in *. cbn. rewrite Eo. exact H3.
  - exact H4.
  - intros Md Mu. change (tick a now) with top in *. cbn [a_buckets set_buckets]. destruct (H5 Md Mu) as (H6 & H7 & H8).
    split; [done|split; [done|]]. intros lo Hlo1 Hlo2. apply H8; done || lia.
Qed.

(** ** As time passes *)

Lemma tick_mono a t t' : t <= t' -> tick a t <= tick a t'.
Proof. intros H. unfold tick, micros. apply Z.div_le_mono; [done|]. apply Z.div_le_mono; lia. Qed.

Lemma tick_nonneg a t : 0 <= tick a t.
Proof. unfold tick. apply Z.div_pos; [apply micros_nonneg|done]. Qed.

Lemma tick_later a t t' : a_origin a <= t -> t + 4 * 10 ^ 9 <= t' -> tick a t + TRAFFIC_BUCKETS <= tick a t'.
Proof.
  intros Ho Ht. unfold tick, micros, TRAFFIC_BUCKETS, TRAFFIC_BUCKET_US. rewrite !Z.max_r by lia. Z.div_mod_to_equations. lia.
Qed.

Lemma ring_later top top' buckets : ring_ok top buckets -> top <= top' -> ring_ok top' buckets.
Proof. intros [R1 R2 R3 R4] Ht. constructor; [done|done| |done]. intros i b Hb. specialize (R3 i b Hb). lia. Qed.

(** The accounting at the moment [now]: the ring is in order, and a rate kept
    for the current period, unless zero, has its bytes still in the ring. *)
Record paced (now : Z) (a : RuntimeAccounting) : Prop := mk_paced {
  pc_origin : a_origin a <= now;
  pc_ring : ring_at a now;
  pc_cache : forall p d u, a_published a = Some (p, d, u) ->
    p <= tick a now / PUBLISH_PERIOD_BUCKETS /\
    ((d, u) <> (0, 0) -> p = tick a now / PUBLISH_PERIOD_BUCKETS ->
     holds_since (p * PUBLISH_PERIOD_BUCKETS - (REPORT_LAG_BUCKETS + RATE_WINDOW_BUCKETS)) (a_buckets a)) }.

Lemma paced_later now now' a : paced now a -> now <= now' -> paced now' a.
Proof.
  intros [Ho Hr Hc] Hn. pose proof (tick_mono a _ _ Hn) as Ht. constructor; [lia|by eapply ring_later|].
  intros p d u Hp. destruct (Hc p d u Hp) as [Hle Hk].
  pose proof (Z.div_le_mono _ _ PUBLISH_PERIOD_BUCKETS ltac:(done) Ht) as Hdiv. split; [lia|]. intros Hnz Heq. apply Hk; [done|lia].
Qed.

(** The parts the rates are computed from. *)
Definition same_traffic (a a' : RuntimeAccounting) : Prop :=
  a_origin a' = a_origin a /\ a_buckets a' = a_buckets a /\ a_published a' = a_published a.

#[export] Instance same_traffic_preorder : PreOrder same_traffic.
Proof.
  split; [by intros a|]. intros a b c (H1 & H2 & H3) (H4 & H5 & H6). repeat split; congruence.
Qed.

Lemma tick_same a a' now : a_origin a' = a_origin a -> tick a' now = tick a now.
Proof. intros H. unfold tick, micros. by rewrite H. Qed.

Lemma paced_same now a a' : same_traffic a a' -> paced now a -> paced now a'.
Proof.
  intros (H1 & H2 & H3) [Ho Hr Hc]. unfold ring_at in *. rewrite <- (tick_same _ _ now H1) in Hr, Hc. rewrite <- H1, <- H2, <- H3 in *.
  constructor; done.
Qed.

Lemma same_fold {A : Type} (f : RuntimeAccounting -> A -> RuntimeAccounting) (l : list A) a :
  (forall a x, same_traffic a (f a x)) -> same_traffic a (foldl f a l).
Proof. intros Hf. revert a. induction l as [|x l IH]; intros a; [done|]. cbn. etrans; [apply Hf|apply IH]. Qed.

Lemma same_baseline now a t : same_traffic a (baseline now a t).
Proof. unfold baseline. by destruct (a_tasks a !! t_id t). Qed.

Lemma same_remove a id : same_traffic a (acc_remove a id).
Proof. unfold acc_remove. by destruct (a_tasks a !! id). Qed.

Lemma same_reconcile ts a : same_traffic a (reconcile ts a).
Proof. unfold reconcile. etrans; [|by apply same_fold]. done. Qed.

Lemma record_paced d u since now a :
  0 <= d <= i64_max -> 0 <= u <= i64_max -> paced now a -> paced now (record_traffic d u since now a).
Proof.
  intros Hd Hu [Ho Hr Hc]. destruct (record_ok d u since now a Hr Hd Hu) as (R1 & R2 & R3 & R4 & _).
  constructor; [lia|done|]. rewrite (tick_same _ _ now R2). intros p d' u' Hp. destruct R3 as [R3|R3]; rewrite R3 in Hp; [|done].
  destruct (Hc p d' u' Hp) as [Hle Hk]. split; [done|]. intros Hnz Heq. apply R4; [|by apply Hk].
  subst p. unfold PUBLISH_PERIOD_BUCKETS, REPORT_LAG_BUCKETS, RATE_WINDOW_BUCKETS, TRAFFIC_BUCKETS. Z.div_mod_to_equations. lia.
Qed.

Lemma sat_max_i64 z : 0 <= Z.max (sat_i64 z) 0 <= i64_max.
Proof. unfold sat_i64, clamp, i64_min, i64_max. lia. Qed.

Lemma sat_max_unless (b : bool) z : 0 <= (if b then 0 else Z.max (sat_i64 z) 0) <= i64_max.
Proof. destruct b; [by split|]. apply sat_max_i64. Qed.

Lemma account_paced e now a : paced now a -> paced now (account e now a).
Proof.
  intros Ha. destruct e; try done; cbn [account].
  - eapply paced_same; [apply same_reconcile|done].
  - destruct m; try done.
    + unfold acc_progress. destruct (is_deleted_progress p); [eapply paced_same; [apply same_remove|done]|].
      destruct (a_tasks a !! p_id p) as [x|]; [|done]. apply record_paced; [apply sat_max_unless|apply sat_max_i64|].
      eapply paced_same; [|exact Ha]. done.
    + eapply paced_same; [apply same_reconcile|done].
  - eapply paced_same; [apply same_baseline|done].
  - eapply paced_same; [|exact Ha]. apply same_fold. intros. apply same_baseline.
  - eapply paced_same; [apply same_remove|done].
  - eapply paced_same; [|exact Ha]. apply same_fold. intros. apply same_remove.
Qed.

Lemma transfer_paced id bytes now a : bytes <= i64_max -> paced now a -> paced now (record_transfer id bytes now a).
Proof.
  intros Hb Ha. unfold record_transfer. destruct (a_tasks a !! id) as [x|]; [|done].
  apply record_paced; [unfold i64_max in *; lia|done|]. eapply paced_same; [|exact Ha]. done.
Qed.

Lemma settle_paced id bytes now a : paced now a -> paced now (settle_download id bytes now a).
Proof.
  intros Ha. unfold settle_download. destruct (a_tasks a !! id) as [x|]; [|done].
  apply record_paced; [apply sat_max_unless|done|]. eapply paced_same; [|exact Ha]. done.
Qed.

Lemma baseline_paced id bytes now a : paced now a -> paced now (transfer_baseline id bytes a).
Proof. intros Ha. unfold transfer_baseline. destruct (a_tasks a !! id); [|done]. eapply paced_same; [|exact Ha]. done. Qed.

(** *** The rates *)

Lemma holds_traffic x a : holds_since x (a_buckets a) -> has_traffic a = true.
Proof. intros (b & Hb & Hy & _). unfold has_traffic. apply existsb_exists. exists b. split; [by apply list_elem_of_In|done]. Qed.

Lemma expire_ring top buckets : ring_ok top buckets -> 0 <= top -> ring_ok top (map (expire_bucket top) buckets).
Proof.
  intros [R1 R2 R3 R4] Ht. assert (forall i b, map (expire_bucket top) buckets !! i = Some b -> b = empty_bucket \/ buckets !! i = Some b) as H.
  { intros i b. rewrite list_lookup_fmap. destruct (buckets !! i) as [c|]; [|done]. intros [= <-]. unfold expire_bucket.
    destruct (_ <=? _); [by left|by right]. }
  constructor; [by rewrite length_map| | |]; intros i b [->|Hb]%H; [by left|by eauto|done|by eauto|done|by eauto].
Qed.

Lemma expire_holds x top buckets : top < x + TRAFFIC_BUCKETS -> holds_since x buckets -> holds_since x (map (expire_bucket top) buckets).
Proof.
  intros Hx (b & Hb & Hy & Hxb). exists b. split; [|done]. apply list_elem_of_fmap. exists b. split; [|done].
  unfold expire_bucket, TRAFFIC_BUCKETS in *. by rewrite (proj2 (Z.leb_gt _ _)) by lia.
Qed.

Lemma expire_silent top top' buckets : ring_ok top buckets -> top + TRAFFIC_BUCKETS <= top' ->
  Forall (fun b => b = empty_bucket) (map (expire_bucket top') buckets).
Proof.
  intros [_ _ R3 _] Ht. apply Forall_map, Forall_lookup. intros i b Hb. specialize (R3 i b Hb). unfold expire_bucket.
  by rewrite (proj2 (Z.leb_le _ _)) by (unfold TRAFFIC_BUCKETS in *; lia).
Qed.

(** A sum that is not zero found a bucket. *)
Lemma window_sum_found first end_ get buckets :
  window_sum first end_ get buckets <> 0 -> holds_since first buckets.
Proof.
  intros H. destruct (existsb (fun b => has_bytes b && (first <=? b_tick b) && (b_tick b <? end_)) buckets) eqn:E.
  - apply existsb_exists in E as (b & Hb & Hk). rewrite !andb_true_iff, Z.leb_le in Hk. exists b.
    split; [by apply list_elem_of_In|tauto].
  - destruct H. unfold window_sum. generalize 0. induction buckets as [|b l IH]; intros acc; [done|]. cbn in E |- *.
    apply orb_false_elim in E as [-> E2]. by apply IH.
Qed.

Lemma proportion_zero part whole : proportion 0 part whole = 0.
Proof. unfold proportion. by destruct (Z.min whole i128_max). Qed.

Lemma proportion_found first end_ get buckets part whole :
  proportion (window_sum first end_ get buckets) part whole <> 0 -> holds_since first buckets.
Proof. intros H. eapply window_sum_found. intros E. apply H. by rewrite E, proportion_zero. Qed.

Lemma holds_weaken x y buckets : y <= x -> holds_since x buckets -> holds_since y buckets.
Proof. intros H (b & ? & ? & ?). exists b. split_and!; done || lia. Qed.

Lemma pair_nonzero (d u : Z) : (d, u) <> (0, 0) -> d <> 0 \/ u <> 0.
Proof. intros H. destruct (Z.eq_dec d 0) as [->|]; [right; intros ->; by apply H|by left]. Qed.

Lemma rates_ok now a :
  paced now a ->
  let r := rates now a in paced now r.2 /\ a_origin r.2 = a_origin a /\ (r.1 <> (0, 0) -> has_traffic r.2 = true).
Proof.
  intros [Ho Hr Hc]. unfold rates. cbv zeta. set (top := tick a now) in *. pose proof (tick_nonneg a now) as Htop. fold top in Htop.
  set (a1 := set_buckets _ a). assert (ring_ok top (a_buckets a1)) as Hr1 by (by apply expire_ring).
  assert (forall x, top < x + TRAFFIC_BUCKETS -> holds_since x (a_buckets a) -> holds_since x (a_buckets a1)) as Hh by (intros; by apply expire_holds).
  assert (a_published a1 = a_published a /\ a_origin a1 = a_origin a) as [Ep Eo] by done. clearbody a1. rewrite Ep.
  set (period := top / PUBLISH_PERIOD_BUCKETS) in *.
  assert (top < period * PUBLISH_PERIOD_BUCKETS - (REPORT_LAG_BUCKETS + RATE_WINDOW_BUCKETS) + TRAFFIC_BUCKETS) as Hper.
  { unfold period, PUBLISH_PERIOD_BUCKETS, REPORT_LAG_BUCKETS, RATE_WINDOW_BUCKETS, TRAFFIC_BUCKETS. Z.div_mod_to_equations. lia. }
  assert (forall a', same_traffic a1 a' -> paced now a') as Hkeep.
  { intros a' (H1 & H2 & H3). constructor; [by rewrite H1, Eo| |].
    - unfold ring_at. rewrite (tick_same a) by congruence. by rewrite H2.
    - rewrite (tick_same a) by congruence. fold top period. intros p d u Hp. rewrite H3, Ep in Hp. destruct (Hc p d u Hp) as [Hle Hk].
      split; [done|]. intros Hnz Heq. rewrite H2. subst p. apply Hh; [done|]. by apply Hk. }
  destruct (match a_published a with Some (p, d, u) => if p =? period then Some (d, u) else None | None => None end) as [[d u]|] eqn:Ecache.
  - cbn [fst snd]. split; [by apply Hkeep|split; [done|]]. intros Hnz. destruct (a_published a) as [[[p d0] u0]|] eqn:Ecp; [|done].
    destruct (Z.eqb_spec p period) as [Hpp|]; [|done]. injection Ecache as <- <-. destruct (Hc p d0 u0 eq_refl) as [_ Hk].
    eapply holds_traffic, Hh, Hk; [|done|done]. by rewrite Hpp.
  - clear Ecache. set (first := match a_burst_start a1 with Some _ => _ | None => _ end).
    assert (period * PUBLISH_PERIOD_BUCKETS - (REPORT_LAG_BUCKETS + RATE_WINDOW_BUCKETS) <= first) as Hfirst.
    { pose proof (Z.mul_div_le top PUBLISH_PERIOD_BUCKETS ltac:(done)). unfold first, period. destruct (a_burst_start a1); lia. }
    clearbody first. set (end_ := Z.max 0 (top - _)). set (a2 := if recent_traffic top a1 then a1 else _).
    assert (same_traffic a1 a2) as Ha2 by (unfold a2; by destruct (recent_traffic top a1)). clearbody a2.
    destruct (_ =? 0); [cbn [fst snd]; split; [by apply Hkeep|by split; [destruct Ha2; congruence|]]|]. cbn [fst snd].
    set (rd := proportion (window_sum first end_ b_downloaded (a_buckets a2)) _ _).
    set (ru := proportion (window_sum first end_ b_uploaded (a_buckets a2)) _ _).
    assert ((rd, ru) <> (0, 0) -> holds_since first (a_buckets a2)) as Hfound.
    { intros [Hn|Hn]%pair_nonzero; by eapply proportion_found. }
    clearbody rd ru. destruct Ha2 as (H1 & H2 & H3). split; [|split; [cbn; congruence|]].
    + constructor; [by cbn; rewrite H1, Eo|unfold ring_at; rewrite (tick_same a) by (cbn; congruence); cbn; by rewrite H2|].
      rewrite (tick_same a) by (cbn; congruence). cbn [a_published set_burst a_buckets]. fold top period. intros p d u [= <- <- <-].
      split; [done|]. intros Hnz _. eapply holds_weaken; [exact Hfirst|]. by apply Hfound.
    + intros Hnz. eapply (holds_traffic first). cbn. by apply Hfound.
Qed.

Lemma silent_sum first end_ get buckets : Forall (fun b => b = empty_bucket) buckets -> window_sum first end_ get buckets = 0.
Proof. unfold window_sum. induction 1 as [|b l -> _ IH]; [done|]. exact IH. Qed.

Lemma silent_traffic a : Forall (fun b => b = empty_bucket) (a_buckets a) -> has_traffic a = false.
Proof. unfold has_traffic. induction 1 as [|b l -> _ IH]; [done|]. exact IH. Qed.

(** Once the ring has gone round without traffic the rates are zero. *)
Lemma rates_silent last now a :
  paced last a -> tick a last + TRAFFIC_BUCKETS <= tick a now ->
  let r := rates now a in r.1 = (0, 0) /\ has_traffic r.2 = false.
Proof.
  intros [Ho Hr Hc] Ht. unfold rates. cbv zeta. set (top := tick a now) in *. set (a1 := set_buckets _ a).
  assert (Forall (fun b => b = empty_bucket) (a_buckets a1)) as Hs by (by eapply expire_silent).
  assert (match a_published a1 with Some (p, d, u) => if p =? top / PUBLISH_PERIOD_BUCKETS then Some (d, u) else None | None => None end = None) as ->.
  { change (a_published a1) with (a_published a). destruct (a_published a) as [[[p d] u]|]; [|done]. destruct (Hc p d u eq_refl) as [Hle _].
    rewrite (proj2 (Z.eqb_neq _ _)); [done|]. unfold PUBLISH_PERIOD_BUCKETS, TRAFFIC_BUCKETS in *. Z.div_mod_to_equations. lia. }
  set (a2 := if recent_traffic top a1 then a1 else _).
  assert (a_buckets a2 = a_buckets a1) as Eb by (unfold a2; by destruct (recent_traffic top a1)). clearbody a2.
  destruct (_ =? 0); cbn [fst snd]; [split; [done|apply silent_traffic; by rewrite Eb]|].
  rewrite Eb, !silent_sum, !proportion_zero by done. split; [done|]. apply silent_traffic. cbn. by rewrite Eb.
Qed.

(** ** The hub *)

(** The rates the subscribers see. *)
Definition shown (s : EventState) : Z * Z :=
  (st_download_bps (sn_stats (es_snapshot s)), st_upload_bps (sn_stats (es_snapshot s))).

(** Between operations: the timer runs while a rate is shown. *)
Record lively (now : Z) (s : EventState) : Prop := mk_lively {
  lv_paced : paced now (es_accounting s);
  lv_timer : shown s <> (0, 0) -> es_expiry_running s = true }.

(** Within an operation: what is shown is in the ring. *)
Record backed (origin now : Z) (running : bool) (s : EventState) : Prop := mk_backed {
  bk_origin : a_origin (es_accounting s) = origin;
  bk_paced : paced now (es_accounting s);
  bk_running : es_expiry_running s = running;
  bk_traffic : shown s <> (0, 0) -> has_traffic (es_accounting s) = true }.

Lemma update_backed now s : paced now (es_accounting s) ->
  backed (a_origin (es_accounting s)) now (es_expiry_running s) (update_runtime_stats now s).
Proof.
  intros Hp. destruct (update_spec now s) as [_ _ U3 _ _ _ _ U8 U9]. destruct (rates_ok now (es_accounting s) Hp) as (R1 & R2 & R3).
  constructor; rewrite ?U9; [done|done|done|]. intros Hs. apply R3. unfold measured, runtime_measurements in U8. injection U8 as _ _ E1 E2.
  unfold shown in Hs. rewrite E1, E2 in Hs. by destruct (rates now (es_accounting s)).1.
Qed.

Lemma traffic_origin d u since now a : a_origin (record_traffic d u since now a) = a_origin a.
Proof. unfold record_traffic. destruct (_ && _); [done|]. cbv zeta. destruct (foldl _ _ _) as [[? ?] ?]. by destruct (recent_traffic _ a). Qed.

Lemma transfer_origin id bytes now a : a_origin (record_transfer id bytes now a) = a_origin a.
Proof. unfold record_transfer. destruct (a_tasks a !! id); [|done]. by rewrite traffic_origin. Qed.

Lemma settle_origin id bytes now a : a_origin (settle_download id bytes now a) = a_origin a.
Proof. unfold settle_download. destruct (a_tasks a !! id); [|done]. by rewrite traffic_origin. Qed.

Lemma baseline_origin id bytes a : a_origin (transfer_baseline id bytes a) = a_origin a.
Proof. unfold transfer_baseline. by destruct (a_tasks a !! id). Qed.

Lemma account_origin e now a : a_origin (account e now a) = a_origin a.
Proof.
  destruct e; try done; cbn [account].
  - apply (same_reconcile (sn_tasks s)).
  - destruct m; try done; [|apply same_reconcile]. unfold acc_progress. destruct (is_deleted_progress p); [apply same_remove|].
    destruct (a_tasks a !! p_id p); [by rewrite traffic_origin|done].
  - apply same_baseline.
  - apply (same_fold (baseline now)). intros. apply same_baseline.
  - apply same_remove.
  - apply (same_fold acc_remove). intros. apply same_remove.
Qed.

Lemma publish_backed e now s x s' : publish_locked_at e now s = (x, s') -> paced now (es_accounting s) ->
  backed (a_origin (es_accounting s)) now (es_expiry_running s) s'.
Proof.
  unfold publish_locked_at. set (s1 := set_snapshot _ (set_accounting _ _)). intros E Hp.
  assert (backed (a_origin (es_accounting s)) now (es_expiry_running s) (update_runtime_stats now s1)) as [U1 U2 U3 U4].
  { pose proof (update_backed now s1 ltac:(by apply account_paced)) as H. cbn in H. by rewrite account_origin in H. }
  destruct (update_runtime_stats now s1) as [ep sq snap acc run]. injection E as _ <-. by constructor.
Qed.

Lemma expiry_lively origin now running s : backed origin now running s ->
  lively now (start_expiry true s) /\ a_origin (es_accounting (start_expiry true s)) = origin.
Proof.
  intros [B1 B2 B3 B4]. unfold start_expiry. destruct (es_expiry_running s || _) eqn:E; [|by split].
  split; [|done]. constructor; [done|]. intros Hs. rewrite (B4 Hs) in E. by rewrite orb_false_r in E.
Qed.

Lemma backed_round origin now running s : backed origin now running s -> running = true ->
  let s' := if has_traffic (es_accounting s) then s else set_expiry false s in
  lively now s' /\ a_origin (es_accounting s') = origin.
Proof.
  intros [B1 B2 B3 B4] ->. destruct (has_traffic _) eqn:E; [by split|]. split; [|done]. constructor; [done|]. intros Hs. by apply B4 in Hs.
Qed.

(** What an operation brings fits its type. *)
Definition op_fits (op : HubOp) : Prop := match op with Transferred _ bytes => bytes <= i64_max | _ => True end.

Lemma lively_step op now last s out s' :
  hub_step true op now s = (out, s') -> op_fits op -> last <= now -> lively last s ->
  lively now s' /\ a_origin (es_accounting s') = a_origin (es_accounting s).
Proof.
  intros E Hop Hn [L1 L2]. apply (paced_later last now) in L1; [|done]. destruct op; cbn [hub_step op_fits] in *.
  - unfold publish, publish_with_stats_locked_at in E. destruct (publish_locked_at e now s) as [x s1] eqn:E1.
    apply publish_backed in E1 as B1; [|done]. destruct (_ && _).
    + destruct (publish_locked_at _ now s1) as [x2 s2] eqn:E2. injection E as _ <-. apply publish_backed in E2 as B2; [|apply B1].
      rewrite (bk_origin _ _ _ _ B1) in B2. by eapply expiry_lively.
    + injection E as _ <-. by eapply expiry_lively.
  - unfold set_retry_pending_tasks in E. destruct (_ =? count); [injection E as _ <-; by split|].
    destruct (publish_locked_at _ now s) as [x s1] eqn:E1. injection E as _ <-. apply publish_backed in E1 as B1; [|done]. by eapply expiry_lively.
  - injection E as _ <-. split; [|cbn]. { constructor; [by apply transfer_paced|done]. }
    apply transfer_origin.
  - injection E as _ <-. unfold transfer_baselined. split; [constructor; [|done]|].
    + cbn. apply baseline_paced. destruct previous; [by apply settle_paced|done].
    + cbn. rewrite baseline_origin. destruct previous; [apply settle_origin|done].
  - unfold expiry_round in E. destruct (es_expiry_running s) eqn:Hrun; cbn [negb] in E; [|injection E as _ <-; split; [constructor; [done|by rewrite Hrun]|done]].
    unfold expire_locked_at in E. pose proof (update_backed now s L1) as Hu. rewrite Hrun in Hu. case_bool_decide.
    + injection E as _ <-. by eapply backed_round.
    + destruct (publish_locked_at _ now _) as [x s1] eqn:E1. injection E as _ <-. apply publish_backed in E1 as B1; [|apply Hu].
      destruct Hu as [U1 _ U3 _]. rewrite U1, U3 in B1. by eapply backed_round.
Qed.

Lemma silent_rates now a : Forall (fun b => b = empty_bucket) (a_buckets a) -> Forall (fun b => b = empty_bucket) (a_buckets (rates now a).2).
Proof.
  intros Hs. assert (Forall (fun b => b = empty_bucket) (map (expire_bucket (tick a now)) (a_buckets a))) as He.
  { apply Forall_map. eapply Forall_impl; [exact Hs|]. intros b ->. cbn. unfold expire_bucket. by destruct (_ <=? _). }
  unfold rates. cbv zeta. repeat case_match; done.
Qed.

Lemma quiet_rates now a : has_traffic a = false -> has_traffic (rates now a).2 = false.
Proof.
  intros Hs. assert (existsb has_bytes (map (expire_bucket (tick a now)) (a_buckets a)) = false) as He.
  { unfold has_traffic in Hs. induction (a_buckets a) as [|b l IH]; [done|]. cbn in Hs |- *. apply orb_false_elim in Hs as [Hb Hl].
    rewrite IH by done. rewrite orb_false_r. unfold expire_bucket. by destruct (_ <=? _). }
  unfold rates. cbv zeta. repeat case_match; done.
Qed.

(** Publishing statistics without traffic shows none. *)
Lemma publish_silent st now s x s' :
  publish_locked_at (RuntimeStatsChanged st) now s = (x, s') -> paced now (es_accounting s) -> has_traffic (es_accounting s) = false ->
  shown s' = (0, 0) /\ has_traffic (es_accounting s') = false.
Proof.
  intros E Hp Ht. pose proof (publish_backed _ _ _ _ _ E Hp) as [_ _ _ B].
  assert (has_traffic (es_accounting s') = false) as Hs.
  { unfold publish_locked_at in E. set (s1 := set_snapshot _ (set_accounting _ _)) in E. pose proof (up_accounting _ _ _ (update_spec now s1)) as U.
    destruct (update_runtime_stats now s1) as [ep sq snap acc run]. injection E as _ <-. cbn in *. rewrite U. by apply quiet_rates. }
  split; [|done]. destruct (decide (shown s' = (0, 0))) as [|H]; [done|]. apply B in H. congruence.
Qed.

(** Moments in order. *)
Fixpoint in_order (last : Z) (ops : list (HubOp * Z)) : Prop :=
  match ops with [] => True | (_, now) :: ops => last <= now /\ in_order now ops end.
Fixpoint last_moment (last : Z) (ops : list (HubOp * Z)) : Z :=
  match ops with [] => last | (_, now) :: ops => last_moment now ops end.

Lemma lively_run ops last s out s' :
  hub_run true ops s = (out, s') -> Forall (fun x => op_fits x.1) ops -> in_order last ops -> lively last s ->
  lively (last_moment last ops) s' /\ a_origin (es_accounting s') = a_origin (es_accounting s).
Proof.
  revert last s out. induction ops as [|[op now] ops IH]; intros last s out; cbn [hub_run in_order last_moment]; [by intros [= <- <-]|].
  destruct (hub_step true op now s) as [out1 s1] eqn:E1. destruct (hub_run true ops s1) as [out2 s2] eqn:E2.
  intros [= <- <-] [Hop Hops]%Forall_cons [Hn Ho] Hl. apply (lively_step op now last) in E1 as [L1 <-]; [|done..]. by eapply IH.
Qed.

Lemma hub_new_lively epoch snapshot start :
  lively start (hub_new epoch snapshot start) /\ a_origin (es_accounting (hub_new epoch snapshot start)) = start.
Proof.
  unfold hub_new. set (s := mk_state _ _ _ _ _).
  assert (same_traffic (mk_accounting ∅ 0 0 start (replicate (Z.to_nat TRAFFIC_BUCKETS) empty_bucket) None None) (es_accounting s)) as Hsame
    by apply same_reconcile.
  assert (paced start (es_accounting s)) as Hp.
  { eapply paced_same; [exact Hsame|]. constructor; [cbn; lia| |done].
    assert (forall i b, replicate (Z.to_nat TRAFFIC_BUCKETS) empty_bucket !! i = Some b -> b = empty_bucket) as He
      by (intros i b; rewrite lookup_replicate; by intros [-> _]).
    constructor; cbn [a_buckets]; [by rewrite length_replicate|by left; eapply He|intros i b ->%He|by intros i b ->%He].
    cbn. split; [done|]. apply tick_nonneg. }
  clearbody s. destruct (update_backed start s Hp) as [U1 U2 _ _]. split; [|rewrite U1; by destruct Hsame as (-> & _ & _)].
  constructor; [done|]. intros Hs. destruct Hs. destruct (update_spec start s) as [_ _ _ _ _ _ _ U8 _].
  unfold measured, runtime_measurements in U8. injection U8 as _ _ E1 E2. unfold shown. rewrite E1, E2.
  assert (Forall (fun b => b = empty_bucket) (a_buckets (es_accounting s))) as Hsil by (destruct Hsame as (_ & -> & _); by apply Forall_replicate).
  destruct (rates_ok start (es_accounting s) Hp) as (_ & _ & R3).
  destruct (decide ((rates start (es_accounting s)).1 = (0, 0))) as [E0|Hne]; [by rewrite E0|]. specialize (R3 Hne).
  rewrite silent_traffic in R3; [done|]. eapply silent_rates. exact Hsil.
Qed.

(** The windows that hold the interval of a record gain its bytes. *)
Lemma window_gains d u since now a :
  ring_at a now -> 0 <= d <= i64_max -> 0 <= u <= i64_max ->
  sum_list_with_Z b_downloaded (a_buckets a) + d <= i64_max -> sum_list_with_Z b_uploaded (a_buckets a) + u <= i64_max ->
  let a' := record_traffic d u since now a in let top := tick a now in
  forall lo, lo + 10 <= top -> top < lo + TRAFFIC_BUCKETS ->
    window_sum lo (top + 1) b_downloaded (a_buckets a') = window_sum lo (top + 1) b_downloaded (a_buckets a) + d /\
    window_sum lo (top + 1) b_uploaded (a_buckets a') = window_sum lo (top + 1) b_uploaded (a_buckets a) + u.
Proof.
  intros Hr Hd Hu Md Mu. cbv zeta. intros lo Hlo1 Hlo2.
  destruct (record_ok d u since now a Hr Hd Hu) as (R1 & R2 & _ & _ & R5). destruct (R5 Md Mu) as (S1 & S2 & S3).
  destruct (S3 lo Hlo1 Hlo2) as [W1 W2].
  assert (forall get b, reading get -> b ∈ a_buckets a -> 0 <= get b) as Hpos by (intros; eapply reading_nonneg; [done|exact Hr|done]).
  assert (forall get b, reading get -> b ∈ a_buckets (record_traffic d u since now a) -> 0 <= get b) as Hpos'
    by (intros; eapply reading_nonneg; [done|exact R1|done]).
  rewrite !window_sum_plain; [done|..]; try lia; intros b Hb;
    first [solve [apply Hpos; first [exact Hb|by left|by right]] | apply Hpos'; first [exact Hb|by left|by right]].
Qed.

(** The same for an accounting that differs in its samples. *)
Lemma window_gains_same d u since now a b :
  same_traffic a b -> ring_at a now -> 0 <= d <= i64_max -> 0 <= u <= i64_max ->
  sum_list_with_Z b_downloaded (a_buckets a) + d <= i64_max -> sum_list_with_Z b_uploaded (a_buckets a) + u <= i64_max ->
  forall lo, lo + 10 <= tick a now -> tick a now < lo + TRAFFIC_BUCKETS ->
    let window get l := window_sum lo (tick a now + 1) get l in
    window b_downloaded (a_buckets (record_traffic d u since now b)) = window b_downloaded (a_buckets a) + d /\
    window b_uploaded (a_buckets (record_traffic d u since now b)) = window b_uploaded (a_buckets a) + u.
Proof.
  intros (H1 & H2 & _) Hr Hd Hu. unfold ring_at in Hr. rewrite <- H2 in *. rewrite <- (tick_same _ _ now H1) in *. intros Md Mu.
  by apply window_gains.
Qed.

(** ** The theorems *)

(** C18. Every byte is counted once.  When progress of a known task is published,
    the windows of the ring that reach back over the interval gain exactly the
    growth over the task's high-water mark, whatever the interval's length and
    however the bytes are spread over its buckets; a task whose transfer is
    measured gains nothing, since the bytes measured were counted when they
    arrived: that record gives the same windows exactly the bytes measured. *)
Theorem traffic_conserved epoch snapshot start ops p x now bytes :
  let s := (hub_run true ops (hub_new epoch snapshot start)).2 in
  let a := es_accounting s in
  Forall (fun x => op_fits x.1) ops -> in_order start ops -> last_moment start ops <= now ->
  a_tasks a !! p_id p = Some x -> is_deleted_progress p = false -> 0 <= bytes ->
  let growth before after := Z.max (sat_i64 (after - before)) 0 in
  let down := if ts_measured x then 0 else growth (ts_down x) (p_downloaded p) in
  let up := growth (ts_up x) (p_uploaded p) in
  sum_list_with_Z b_downloaded (a_buckets a) + Z.max down bytes <= i64_max -> sum_list_with_Z b_uploaded (a_buckets a) + up <= i64_max ->
  forall lo, lo + 10 <= tick a now -> tick a now < lo + TRAFFIC_BUCKETS ->
  let window get a' := window_sum lo (tick a now + 1) get (a_buckets a') in
  let after := account (Engine (MTaskProgress p)) now a in
  let measured := record_transfer (p_id p) bytes now a in
  window b_downloaded after = window b_downloaded a + down /\ window b_uploaded after = window b_uploaded a + up /\
  window b_downloaded measured = window b_downloaded a + bytes /\ window b_uploaded measured = window b_uploaded a /\
  exists y, a_tasks measured !! p_id p = Some y /\ ts_measured y = true.
Proof.
  cbv zeta. destruct (hub_run true ops (hub_new epoch snapshot start)) as [out s] eqn:E. cbn [snd].
  intros Hops Hord Hnow Hx Hdel Hbytes Md Mu lo Hlo1 Hlo2. destruct (hub_new_lively epoch snapshot start) as [L0 _].
  apply (lively_run ops start) in E as [[L1 _] _]; [|done..]. apply (paced_later _ now) in L1; [|done].
  set (a := es_accounting s) in *. pose proof (pc_ring _ _ L1) as Hr.
  assert (forall get, reading get -> 0 <= sum_list_with_Z get (a_buckets a)) as Hsum
    by (intros get Hg; apply sum_Z_nonneg; intros b Hb; eapply reading_nonneg; [exact Hg|exact Hr|done]).
  pose proof (Hsum _ (or_introl eq_refl)) as Hsd. pose proof (Hsum _ (or_intror eq_refl)) as Hsu.
  cbn [account]. unfold acc_progress, record_transfer. rewrite Hdel, Hx.
  match goal with |- context [record_traffic ?d0 ?u0 ?since now (add_status _ ?b)] =>
    destruct (window_gains_same d0 u0 since now a (add_status (p_status p) b) ltac:(done) Hr ltac:(apply sat_max_unless)
      ltac:(apply sat_max_i64) ltac:(lia) Mu lo Hlo1 Hlo2) as [-> ->] end.
  match goal with |- context [record_traffic ?d0 0 ?since now ?b] =>
    destruct (window_gains_same d0 0 since now a b ltac:(done) Hr ltac:(lia) ltac:(done) ltac:(lia) ltac:(lia) lo Hlo1 Hlo2) as [-> ->] end.
  split; [done|]. split; [done|]. split; [by rewrite Z.max_l|]. split; [by rewrite Z.add_0_r|].
  match goal with |- context [a_tasks (record_traffic ?d0 ?u0 ?since now ?b)] => destruct (traffic_keeps d0 u0 since now b) as [-> _] end.
  rewrite set_sample_lookup, decide_True by done. by eexists.
Qed.

(** The rates shown return to zero.  After any operations in the order of
    their moments, a rate is shown only while the expiry timer runs; and a round
    of the timer four seconds after the last operation, or later, leaves both
    rates at zero, has published that if they were not, and stops the timer. *)
Theorem footer_returns_to_zero epoch snapshot start ops now :
  let s := (hub_run true ops (hub_new epoch snapshot start)).2 in
  Forall (fun x => op_fits x.1) ops -> in_order start ops ->
  (shown s <> (0, 0) -> es_expiry_running s = true) /\
  (last_moment start ops + 4 * 10 ^ 9 <= now ->
   let '(out, s') := expiry_round now s in
   shown s' = (0, 0) /\ es_expiry_running s' = false /\ es_snapshot s' = server (es_snapshot s) (map fst out)).
Proof.
  cbv zeta. destruct (hub_run true ops (hub_new epoch snapshot start)) as [out s] eqn:E. cbn [snd]. intros Hops Hord.
  destruct (hub_new_lively epoch snapshot start) as [L0 O0]. apply faithful_run in E as F; [|apply update_settled].
  apply (lively_run ops start) in E as [[L1 L2] O1]; [|done..]. rewrite O0 in O1. split; [exact L2|]. intros Hlater.
  destruct (expiry_round now s) as [out' s'] eqn:E'. pose proof (faithful_step true ExpiryRound now s out' s' (fa_settled _ _ _ F) E') as [_ _ F' _].
  assert (last_moment start ops <= now) as Hord' by lia. pose proof (pc_origin _ _ L1) as Hle. apply (tick_later _ _ _ Hle) in Hlater.
  apply and_assoc. split; [|exact F']. clear F'. unfold expiry_round in E'. destruct (es_expiry_running s) eqn:Hrun; cbn [negb] in E'.
  2: { injection E' as _ <-. split; [|done]. destruct (decide (shown s = (0, 0))) as [|H]; [done|]. by specialize (L2 H). }
  destruct (rates_silent _ now _ L1 Hlater) as [R1 R2]. destruct (update_spec now s) as [_ _ U3 _ _ _ _ U8 U9].
  assert (shown (update_runtime_stats now s) = (0, 0)) as Hs0.
  { unfold measured, runtime_measurements in U8. injection U8 as _ _ E1 E2. unfold shown. by rewrite E1, E2, R1. }
  unfold expire_locked_at in E'. case_bool_decide.
  { rewrite U9, R2 in E'. injection E' as _ <-. done. }
  apply (paced_later _ now) in L1; [|done]. pose proof (rates_ok now (es_accounting s) L1) as (Hp & _ & _).
  destruct (publish_locked_at _ now _) as [y s1] eqn:E1. apply publish_silent in E1 as (P1 & P2); [|by rewrite U9..].
  rewrite P2 in E'. injection E' as _ <-. done.
Qed.

(** ** Witnesses *)

Lemma traffic_conserved_witness :
  let s := (hub_run true [(Transferred (lit "b") 7, 100000000)] (hub_new (lit "e") sample_snapshot 0)).2 in
  let a := es_accounting s in
  let p := mk_progress (lit "a") 1 500000 1000000 (lit "f") [] [] [] 0 0 [] 0 [] in
  let window get a' := window_sum (-5) (tick a 2000000000 + 1) get (a_buckets a') in
  window b_downloaded (account (Engine (MTaskProgress p)) 2000000000 a) = window b_downloaded a + 500000.
Proof.
  cbv zeta. set (s := (hub_run _ _ _).2). set (p := mk_progress _ _ _ _ _ _ _ _ _ _ _ _ _).
  destruct (traffic_conserved (lit "e") sample_snapshot 0 [(Transferred (lit "b") 7, 100000000)] p
    (mk_sample 1 0 0 false false None) 2000000000 3) with (lo := -5) as [H _];
    [apply Forall_singleton; vm_compute; discriminate|split; [lia|done]|vm_compute; discriminate|by vm_compute|done|done|
    vm_compute; discriminate|vm_compute; discriminate|vm_compute; discriminate|by vm_compute|].
  exact H.
Defined.

Lemma footer_returns_to_zero_witness :
  let s := (hub_run true sample_ops (hub_new (lit "e") sample_snapshot 0)).2 in
  shown s <> (0, 0) /\ es_expiry_running s = true /\
  let '(_, s') := expiry_round 5900000000 s in shown s' = (0, 0) /\ es_expiry_running s' = false.
Proof.
  destruct (footer_returns_to_zero (lit "e") sample_snapshot 0 sample_ops 5900000000) as [H1 H2].
  - apply Forall_cons; split; [vm_compute; discriminate|by repeat constructor].
  - cbn. lia.
  - cbv zeta. set (s := (hub_run _ _ _).2) in *. assert (shown s <> (0, 0)) as Hs by (vm_compute; discriminate).
    split; [exact Hs|]. split; [by apply H1|].
    assert (let '(out, s') := expiry_round 5900000000 s in
      shown s' = (0, 0) /\ es_expiry_running s' = false /\ es_snapshot s' = server (es_snapshot s) (map fst out)) as H by (apply H2; cbn; lia).
    destruct (expiry_round 5900000000 s). tauto.
Defined.
