(* ===== verification/EventPump.v ===== *)
(** * EventPump: from the hub to a client ([native/daemon/src/event_pump.rs])

    A connection's pump takes frames from the broadcast receiver as soon as they
    are published and puts them into the connection's queue, where frames merge;
    the connection's writer takes frames from the queue.  When the pump cannot
    keep up (the receiver lagged, or too many frames wait although merged) it
    records an end, and the writer closes the connection with [event-gap].

    The receiver is outside code: it hands out the published frames in order, or
    says that it lost some, or that the sender is gone.  [linked] interleaves
    publications, the pump's batches and the writer. *)
From Stdlib Require Import Ascii.
From S2P Require Import Prelude Text QueueOrder Projection Coalesce TableSync SnapshotWf EventHub.

Definition MAX_PENDING_FRAMES : nat := Z.to_nat 16384.
Definition DRAIN_BATCH : nat := 512.

Inductive PumpEnd := EndLagged (skipped : Z) | EndOverflow (pending : nat) | EndClosed.

Record PumpState := mk_pump { ps_queue : FrameQueue; ps_end : option PumpEnd }.

Definition pump_new : PumpState := mk_pump new_queue None.

(** What the receiver answers. *)
Inductive received := RFrame (f : EventFrame) | RLagged (skipped : Z) | RClosed.

(** The loop of one batch: [more] is what [try_recv] will answer before it finds
    nothing, [budget] how many answers the batch may still take.  The result: the
    end, the queue, the answers not taken. *)
Fixpoint pump_batch (limit budget : nat) (incoming : received) (more : list received) (q : FrameQueue)
    : option PumpEnd * FrameQueue * list received :=
  match budget with
  | O => (None, q, more)
  | S budget =>
      match incoming with
      | RLagged skipped => (Some (EndLagged skipped), q, more)
      | RClosed => (Some EndClosed, q, more)
      | RFrame f =>
          let q := push q f in
          if (limit <? q_live q)%nat then (Some (EndOverflow (q_live q)), q, more)
          else if (budget =? 0)%nat then (None, q, more)
          else match more with
               | [] => (None, q, [])
               | incoming :: more => pump_batch limit budget incoming more q
               end
      end
  end.

Definition is_overflow (e : PumpEnd) : bool := match e with EndOverflow _ => true | _ => false end.

(** One round of the pump. *)
Definition pump_round (limit : nat) (incoming : received) (more : list received) (st : PumpState) : PumpState * list received :=
  let '(end_, q, more) := pump_batch limit DRAIN_BATCH incoming more (ps_queue st) in
  match end_ with
  | Some e => (mk_pump (if is_overflow e then new_queue else q) (Some e), more)
  | None => (mk_pump q (ps_end st), more)
  end.

Inductive next_frame := NextFrame (f : EventFrame) | NextEnd (e : PumpEnd) | NextWait.

Definition reader_next (st : PumpState) : next_frame * PumpState :=
  match ps_end st with
  | Some e => (NextEnd e, st)
  | None =>
      match pop (ps_queue st) with
      | (Some f, q) => (NextFrame f, mk_pump q None)
      | (None, q) => (NextWait, mk_pump q None)
      end
  end.

(** ** A connection *)

(** The frames published since the subscription and not yet taken, the pump, the
    frames it has pushed, the frames the writer has sent. *)
Record link := mk_link {
  ln_rest : list EventFrame; ln_pump : PumpState; ln_pushed : list EventFrame; ln_sent : list EventFrame }.

Definition link_new : link := mk_link [] pump_new [] [].

Definition frames_of (rs : list received) : list EventFrame := omap (fun r => match r with RFrame f => Some f | _ => None end) rs.

(** The receiver's answers: the next frames, then perhaps a loss or the end. *)
Definition answers (taken : nat) (tail : option received) (rest : list EventFrame) : list received :=
  map RFrame (take taken rest) ++ option_list tail.

Definition bad_news (r : received) : bool := match r with RFrame _ => false | _ => true end.

(** The pump takes a batch; it stops for good once it has recorded an end. *)
Definition pump_takes (limit : nat) (taken : nat) (tail : option received) (l : link) : link :=
  match ps_end (ln_pump l), answers taken tail (ln_rest l) with
  | None, incoming :: more =>
      let '(st, untaken) := pump_round limit incoming more (ln_pump l) in
      let fs := frames_of untaken in
      let taken_frames := take (length (take taken (ln_rest l)) - length fs) (ln_rest l) in
      mk_link (fs ++ drop taken (ln_rest l)) st (ln_pushed l ++ taken_frames) (ln_sent l)
  | _, _ => l
  end.

Definition writer_sends (l : link) : link :=
  let '(n, st) := reader_next (ln_pump l) in
  mk_link (ln_rest l) st (ln_pushed l) (ln_sent l ++ match n with NextFrame f => [f] | _ => [] end).

(** A connection to which exactly these frames have been published. *)
Inductive linked (limit : nat) : list EventFrame -> link -> Prop :=
| linked_new : linked limit [] link_new
| linked_published frames l f :
    linked limit frames l -> linked limit (frames ++ [f]) (mk_link (ln_rest l ++ [f]) (ln_pump l) (ln_pushed l) (ln_sent l))
| linked_pumped frames l taken tail :
    linked limit frames l -> from_option bad_news true tail = true -> linked limit frames (pump_takes limit taken tail l)
| linked_written frames l : linked limit frames l -> linked limit frames (writer_sends l).

(** ** The queue follows the frames *)

Lemma batch_spec limit budget incoming more q fs tail :
  (0 < budget)%nat -> incoming :: more = map RFrame fs ++ option_list tail -> from_option bad_news true tail = true ->
  let '(_, q', untaken) := pump_batch limit budget incoming more q in
  exists pre, fs = pre ++ frames_of untaken /\ q' = foldl push q pre.
Proof.
  revert incoming more q fs. induction budget as [|budget IH]; intros incoming more q fs Hb Heq Htail; [lia|]. cbn [pump_batch].
  destruct fs as [|f fs]; cbn in Heq.
  - destruct tail as [t|]; [|done]. cbn in Heq. injection Heq as -> ->. destruct t; [done|by exists []..].
  - injection Heq as -> ->. assert (frames_of (map RFrame fs ++ option_list tail) = fs) as Hfs.
    { unfold frames_of. rewrite omap_app. replace (omap _ (option_list tail)) with (@nil EventFrame) by (destruct tail as [[| |]|]; done).
      rewrite app_nil_r. induction fs as [|g fs IHf]; [done|]. cbn. f_equal. apply IHf. }
    destruct (_ <? _)%nat; [exists [f]; by rewrite Hfs|]. destruct (Nat.eqb_spec budget 0) as [|Hb0]; [exists [f]; by rewrite Hfs|].
    destruct (map RFrame fs ++ option_list tail) as [|incoming more] eqn:E; [exists [f]; by rewrite <- Hfs|].
    specialize (IH incoming more (push q f) fs ltac:(lia) (eq_sym E) Htail).
    destruct (pump_batch limit budget incoming more (push q f)) as [[e q'] untaken]. destruct IH as (pre & -> & ->). by exists (f :: pre).
Qed.

Section Following.
Context (epoch : text) (s0 : DaemonSnapshot) (all : list EventFrame).
Context (Hall : forall hist f, hist ++ [f] `prefix_of` all -> f_epoch f = epoch /\ admissible s0 (map core hist) (core f)).

Lemma session_pushes hist out q pre :
  session epoch s0 hist out q -> hist ++ pre `prefix_of` all -> session epoch s0 (hist ++ pre) out (foldl push q pre).
Proof.
  revert hist q. induction pre as [|f pre IH]; intros hist q Hs Hp; [by rewrite app_nil_r|]. cbn [foldl].
  replace (hist ++ f :: pre) with ((hist ++ [f]) ++ pre) in * by (by rewrite <- app_assoc). apply IH; [|done].
  destruct (Hall hist f) as [He Ha]; [by eapply prefix_app_l|]. by apply session_push.
Qed.

(** A connection, against the frames published to it. *)
Record follows (frames : list EventFrame) (l : link) : Prop := mk_follows {
  fo_frames : ps_end (ln_pump l) = None -> frames = ln_pushed l ++ ln_rest l;
  fo_live : ps_end (ln_pump l) = None -> session epoch s0 (ln_pushed l) (ln_sent l) (ps_queue (ln_pump l));
  fo_session : exists q, session epoch s0 (ln_pushed l) (ln_sent l) q;
  fo_pushed : ln_pushed l `prefix_of` frames }.

Lemma linked_follows limit frames l : linked limit frames l -> frames `prefix_of` all -> follows frames l.
Proof.
  induction 1 as [|frames l f _ IH|frames l taken tail _ IH Htail|frames l _ IH]; intros Hpre.
  - constructor; cbn; [done|constructor|eexists; constructor|done].
  - destruct IH as [F1 F2 F3 F4]; [by eapply prefix_app_l|]. constructor; cbn; [|done|done|by apply prefix_app_r].
    intros He. by rewrite F1, app_assoc.
  - destruct (IH Hpre) as [F1 F2 F3 F4]. unfold pump_takes. destruct (ps_end (ln_pump l)) eqn:Ee; [by constructor; rewrite ?Ee|].
    destruct (answers taken tail (ln_rest l)) as [|incoming more] eqn:Ea; [by constructor; rewrite ?Ee|].
    unfold pump_round. pose proof (batch_spec limit DRAIN_BATCH incoming more (ps_queue (ln_pump l)) (take taken (ln_rest l)) tail) as B.
    destruct (pump_batch _ _ _ _ _) as [[e q] untaken]. destruct B as (pre & Hpre' & Hq); [unfold DRAIN_BATCH; lia|by rewrite <- Ea|done|].
    assert (take (length (take taken (ln_rest l)) - length (frames_of untaken)) (ln_rest l) = pre) as Htake.
    { rewrite <- (take_drop taken (ln_rest l)) at 2. rewrite Hpre', length_app.
      replace (length pre + length (frames_of untaken) - length (frames_of untaken))%nat with (length pre) by lia.
      rewrite <- app_assoc. by rewrite take_app_length. }
    assert (frames = (ln_pushed l ++ pre) ++ (frames_of untaken ++ drop taken (ln_rest l))) as Hfr.
    { rewrite (F1 eq_refl). rewrite <- (take_drop taken (ln_rest l)) at 1. rewrite Hpre'. by rewrite <- !app_assoc. }
    assert (ln_pushed l ++ pre `prefix_of` frames) as Hp by (rewrite Hfr; by eexists).
    assert (session epoch s0 (ln_pushed l ++ pre) (ln_sent l) q) as Hs.
    { subst q. apply session_pushes; [by apply F2|]. by etrans. }
    destruct e as [e|]; constructor; cbn [ln_rest ln_pump ln_pushed ln_sent ps_end ps_queue]; rewrite ?Htake; try done; by eexists.
  - destruct (IH Hpre) as [F1 F2 F3 F4]. unfold writer_sends, reader_next. destruct (ps_end (ln_pump l)) eqn:Ee.
    { rewrite app_nil_r. constructor; cbn; try done; congruence. }
    destruct (pop (ps_queue (ln_pump l))) as [[f|] q] eqn:Ep.
    + pose proof (session_pop _ _ _ _ _ _ _ (F2 eq_refl) Ep) as Hs. constructor; cbn; first [done|by intros _; apply F1|by eexists].
    + rewrite app_nil_r. pose proof (session_idle _ _ _ _ _ _ (F2 eq_refl) Ep) as Hs. constructor; cbn; first [done|by intros _; apply F1].
Qed.
End Following.

(** ** Published frames *)

Lemma published_length epoch base events : length (published epoch base events) = length events.
Proof. apply length_imap. Qed.

Lemma take_published epoch base n events : take n (published epoch base events) = published epoch base (take n events).
Proof.
  rewrite <- (take_drop n events) at 1. rewrite published_app. destruct (Nat.le_gt_cases n (length events)) as [Hn|Hn].
  - rewrite take_app_length'; [done|]. by rewrite published_length, length_take, Nat.min_l.
  - rewrite (drop_ge events) by lia. cbn [published imap]. rewrite app_nil_r, take_ge; [done|]. rewrite published_length, length_take. lia.
Qed.

Lemma published_prefix epoch base hist events :
  hist `prefix_of` published epoch base events -> hist = published epoch base (take (length hist) events).
Proof. intros [more E]. rewrite <- take_published, E. by rewrite take_app_length. Qed.

Lemma run_published epoch base s events : Forall quiet events -> run_events s (map core (published epoch base events)) = server s events.
Proof.
  intros Hq. revert base s. induction Hq as [|e l He Hl IH]; intros base s; [done|]. rewrite published_cons. cbn. rewrite quiet_wire by done. apply IH.
Qed.

Lemma upto_published epoch base c events :
  upto c (map core (published epoch base events)) = map core (published epoch base (take (Z.to_nat (c - base)) events)).
Proof.
  revert base. induction events as [|e l IH]; intros base; [by rewrite take_nil|]. rewrite published_cons. cbn [map]. unfold upto in *.
  rewrite filter_cons. cbn [fst core f_sequence]. destruct (decide (base + 1 <= c)) as [Hc|Hc].
  - replace (Z.to_nat (c - base)) with (S (Z.to_nat (c - (base + 1)))) by lia. cbn [take]. by rewrite published_cons, IH.
  - rewrite IH. replace (Z.to_nat (c - base)) with 0%nat by lia. by replace (Z.to_nat (c - (base + 1))) with 0%nat by lia.
Qed.

Lemma published_bounds epoch base events f : f ∈ published epoch base events -> base < f_sequence f <= base + Z.of_nat (length events).
Proof.
  revert base. induction events as [|e l IH]; intros base Hf; [by apply not_elem_of_nil in Hf|]. rewrite published_cons in Hf.
  cbn [length]. apply elem_of_cons in Hf as [->|Hf]; [cbn; lia|]. apply IH in Hf. lia.
Qed.

Section Stream.
Context (epoch : text) (base : Z) (s0 : DaemonSnapshot) (events : list DaemonEvent).
Context (Hquiet : Forall quiet events) (Hvalid : Forall valid_event events).
Context (Hstrict : forall k, strict_snapshot (server s0 (take k events))).

Lemma published_admissible hist f :
  hist ++ [f] `prefix_of` published epoch base events -> f_epoch f = epoch /\ admissible s0 (map core hist) (core f).
Proof.
  intros Hp. pose proof (published_prefix _ _ _ _ Hp) as E. rewrite length_app in E. cbn [length] in E. rewrite Nat.add_1_r in E.
  destruct (events !! length hist) as [e|] eqn:He.
  - rewrite (take_S_r _ _ e He), published_app in E. apply app_inj_tail in E as [Eh Ef]. subst f.
    assert (quiet e /\ valid_event e) as [Hqe Hve].
    { split; [by apply (Forall_lookup_1 _ _ _ _ Hquiet He)|by apply (Forall_lookup_1 _ _ _ _ Hvalid He)]. }
    split; [done|]. cbn [core f_sequence f_event]. unfold core at 2. cbn [f_sequence f_event]. rewrite quiet_wire by done.
    assert (length hist = length (take (length hist) events)) as Hlen.
    { rewrite length_take. apply lookup_lt_Some in He. lia. }
    split_and!; [done| |].
    + intros y (x & -> & (g & -> & Hg)%list_elem_of_fmap)%list_elem_of_fmap. rewrite Eh in Hg. apply published_bounds in Hg. cbn. lia.
    + rewrite run_app. rewrite Eh, run_published by (by apply Forall_take). cbn.
      specialize (Hstrict (S (length hist))). rewrite (take_S_r _ _ e He), server_app in Hstrict. exact Hstrict.
  - apply lookup_ge_None in He. rewrite (take_ge events) in E by lia. apply (f_equal length) in E.
    rewrite length_app, published_length in E. cbn in E. lia.
Qed.
End Stream.

Lemma consume_skip epoch c s frames :
  Forall (fun f => f_epoch f = epoch /\ f_sequence f <= c) frames -> consume epoch c s frames = Some (c, s).
Proof.
  induction 1 as [|f l [He Hs] _ IH]; [done|]. cbn [consume]. unfold judge_frame. rewrite decide_False by (by intros []).
  by rewrite (proj2 (Z.leb_le _ _)).
Qed.

(** *** No queue grows over the limit *)

Lemma pop_live q : (q_live (pop q).2 <= q_live q)%nat.
Proof. unfold pop. destruct (pop_slot _ _) as [[[f|] slots] head]; cbn; [|lia]. repeat case_match; cbn; lia. Qed.

Lemma batch_live limit budget incoming more q :
  (q_live q <= limit)%nat -> let '(e, q', _) := pump_batch limit budget incoming more q in e = None -> (q_live q' <= limit)%nat.
Proof.
  revert incoming more q. induction budget as [|budget IH]; intros incoming more q Hq; cbn [pump_batch]; [by intros _|].
  destruct incoming; [|by intros [=]..]. destruct (Nat.ltb_spec limit (q_live (push q f))); [by intros [=]|].
  destruct (_ =? _)%nat; [by intros _|]. destruct more as [|r more]; [by intros _|]. by apply IH.
Qed.

Lemma linked_live limit frames l : linked limit frames l -> ps_end (ln_pump l) = None -> (q_live (ps_queue (ln_pump l)) <= limit)%nat.
Proof.
  induction 1 as [|frames l f _ IH|frames l taken tail _ IH _|frames l _ IH]; [cbn; lia|done| |].
  - unfold pump_takes, pump_round. destruct (ps_end (ln_pump l)) eqn:Ee; [by rewrite Ee|]. destruct (answers _ _ _) as [|incoming more]; [by rewrite Ee|].
    pose proof (batch_live limit DRAIN_BATCH incoming more (ps_queue (ln_pump l)) (IH eq_refl)) as B.
    destruct (pump_batch _ _ _ _ _) as [[[e|] q] untaken]; [done|]. intros _. by apply B.
  - unfold writer_sends, reader_next. destruct (ps_end (ln_pump l)) eqn:Ee; [cbn; by rewrite Ee|]. intros _. specialize (IH eq_refl).
    pose proof (pop_live (ps_queue (ln_pump l))). destruct (pop _) as [[f|] q]; cbn in *; lia.
Qed.

(** What a client of the session sees that took its snapshot at [cursor], after
    the session's start and perhaps after its last frame. *)
Lemma session_consumed epoch base s0 events out q hist cursor :
  sorted_snapshot s0 -> Forall quiet events -> 0 <= base <= cursor -> cursor <= base + Z.of_nat (length events) ->
  hist `prefix_of` published epoch base events -> base + Z.of_nat (length events) <= u64_max -> session epoch s0 hist out q ->
  exists seq s, consume epoch cursor (server s0 (take (Z.to_nat (cursor - base)) events)) out = Some (seq, s) /\
    (pending q = [] -> length hist = length events -> s = server s0 events /\ seq = base + Z.of_nat (length events)).
Proof.
  intros Hs0 Hquiet Hbase Hcur Hp Hmax Hsess. pose proof (published_prefix _ _ _ _ Hp) as Eh. set (n := length hist) in *.
  assert (n <= length events)%nat as Hn by (apply prefix_length in Hp; by rewrite published_length in Hp).
  assert (Forall quiet (take n events)) as Hqn by by apply Forall_take.
  destruct (Z.le_gt_cases (base + Z.of_nat n) cursor) as [Hlate|Hearly].
  - exists cursor, (server s0 (take (Z.to_nat (cursor - base)) events)). split.
    + destruct (session_invariant _ _ _ _ _ Hs0 Hsess) as [_ Hlog He _ _]. apply consume_skip, Forall_forall. intros f Hf.
      split; [rewrite Forall_forall in He; apply He, elem_of_app; by left|].
      assert (f_sequence f ∈ map fst (map core hist)) as Hseq.
      { apply (lo_sub _ _ _ Hlog (core f)). apply list_elem_of_fmap. exists f. split; [done|]. apply elem_of_app. by left. }
      apply list_elem_of_fmap in Hseq as (x & Ex & (g & -> & Hg)%list_elem_of_fmap). rewrite Eh in Hg. apply published_bounds in Hg.
      rewrite length_take in Hg. cbn in Ex. lia.
    + intros _ Hall. rewrite take_ge by lia. split; [done|lia].
  - destruct hist as [|f0 hist]; [cbn in n; lia|]. destruct (session_client epoch s0 f0 hist out q cursor Hs0 Hsess) as (s & H1 & _ & H3).
    + destruct events as [|e events]; [cbn in *; lia|]. unfold n in Eh. cbn [length take] in Eh. rewrite published_cons in Eh.
      injection Eh as Ef _. rewrite Ef. unfold covers_from, sat_sub_u64. cbn. lia.
    + rewrite Eh, upto_published, run_published in H1 by by apply Forall_take.
      rewrite take_take, Nat.min_l in H1 by lia. eexists _, s. split; [exact H1|]. intros Hq Hall. destruct (H3 Hq) as [-> Hlast].
      rewrite Eh, run_published by done. rewrite take_ge by lia. split; [done|].
      assert (f_sequence <$> last (f0 :: hist) = Some (base + Z.of_nat (length events))) as Hl.
      { rewrite Eh, take_ge by lia. destruct events as [|e l _] using rev_ind; [cbn in *; lia|].
        rewrite published_app, published_cons. change (published epoch ?b []) with (@nil EventFrame). rewrite last_snoc, length_app.
        cbn. f_equal. lia. }
      rewrite Hl in Hlast. injection Hlast as ->. lia.
Qed.

(** ** The theorems *)

(** C19. From the hub to a client, as long as no event makes clients reload their
    tables (a snapshot replaced that holds rows, a list of more than 2000), the
    tables of queue positions are sorted with distinct keys, increments name each
    task once, and the sequence
    numbers do not run out.  A client subscribes, takes a snapshot of the
    hub then or later, and applies the frames its connection sends, however the
    pump's batches and the writer interleave and whatever merges while the client is slow: no frame ever makes
    it ask for a new snapshot, and once the frames published have been taken and
    sent it has the hub's snapshot, statistics included, and the hub's sequence
    number.  At most [limit] frames wait for it; and once frames were lost,
    because they were too many or the receiver fell behind, it is not sent
    another one but closed.  The events left out leave the tables of a client
    that applies them marked as loading: it pages them anew, see C34. *)
Theorem client_follows_hub runtime epoch snapshot start ops subscribed taken limit l :
  let s0 := hub_new epoch snapshot start in
  let out := (hub_run runtime ops s0).1 in
  let hub := (hub_run runtime ops s0).2 in
  let events := map fst out in
  Z.of_nat (length out) <= u64_max -> Forall quiet events -> Forall valid_event events ->
  sorted_snapshot (es_snapshot s0) -> (forall k, strict_snapshot (server (es_snapshot s0) (take k events))) ->
  (subscribed <= taken <= length events)%nat -> linked limit (drop subscribed (map snd out)) l ->
  (exists seq s, consume epoch (Z.of_nat taken) (server (es_snapshot s0) (take taken events)) (ln_sent l) = Some (seq, s) /\
     (ps_end (ln_pump l) = None -> ln_rest l = [] -> pending (ps_queue (ln_pump l)) = [] -> s = es_snapshot hub /\ seq = es_sequence hub)) /\
  (ps_end (ln_pump l) = None -> (q_live (ps_queue (ln_pump l)) <= limit)%nat) /\
  (forall e, ps_end (ln_pump l) = Some e -> reader_next (ln_pump l) = (NextEnd e, ln_pump l)) /\
  (forall e s, ~ quiet e -> tables_loading (apply_daemon_event (into_wire e) s) = true).
Proof.
  cbv zeta. destruct (hub_run runtime ops (hub_new epoch snapshot start)) as [out hub] eqn:E. cbn [fst snd].
  intros Hmax Hquiet Hvalid Hsorted Hstrict Hpos Hl.
  destruct (hub_frames runtime epoch snapshot start ops out hub E Hmax) as (Hsnap & Hframes & Hseq).
  set (s0 := es_snapshot (hub_new epoch snapshot start)) in *. set (events := map fst out) in *.
  assert (length events = length out) as Hlen by apply length_map.
  assert (drop subscribed (map snd out) = published epoch (Z.of_nat subscribed) (drop subscribed events)) as Hdrop.
  { rewrite Hframes. rewrite <- (take_drop subscribed events) at 1. rewrite published_app, drop_app_length'; [|rewrite published_length, length_take; lia].
    rewrite length_take, Nat.min_l by lia. done. }
  rewrite Hdrop in Hl. split; [|split; [by apply (linked_live limit _ _ Hl)|split; [intros e He; unfold reader_next; by rewrite He|]]].
  2: { intros e s He. apply reload_marks. by apply not_false_is_true in He. }
  set (rest := drop subscribed events) in *. assert (length rest = (length events - subscribed)%nat) as Hrest by apply length_drop.
  assert (forall k, server (server s0 (take subscribed events)) (take k rest) = server s0 (take (subscribed + k) events)) as Hserver.
  { intros k. rewrite <- server_app. f_equal. unfold rest. apply take_take_drop. }
  assert (Forall quiet rest /\ Forall valid_event rest) as [Hqr Hvr] by (split; by apply Forall_drop).
  assert (sorted_snapshot (server s0 (take subscribed events))) as Hs1 by (apply server_sorted; [by apply Forall_take|done]).
  destruct (linked_follows epoch (server s0 (take subscribed events)) _ (published_admissible epoch (Z.of_nat subscribed) _ rest Hqr Hvr
    ltac:(intros k; rewrite Hserver; apply Hstrict)) limit _ l Hl ltac:(done)) as [F1 F2 [q F3] F4].
  assert (server (server s0 (take subscribed events)) (take (Z.to_nat (Z.of_nat taken - Z.of_nat subscribed)) rest) = server s0 (take taken events)) as Htaken.
  { rewrite Hserver. do 2 f_equal. lia. }
  destruct (ps_end (ln_pump l)) as [e|] eqn:He.
  - destruct (session_consumed epoch (Z.of_nat subscribed) (server s0 (take subscribed events)) rest (ln_sent l) q (ln_pushed l) (Z.of_nat taken))
      as (seq & s & Hc & _); [done|done|lia|lia|done|lia|done|]. rewrite Htaken in Hc. exists seq, s. split; [exact Hc|done].
  - destruct (session_consumed epoch (Z.of_nat subscribed) (server s0 (take subscribed events)) rest (ln_sent l) (ps_queue (ln_pump l)) (ln_pushed l)
      (Z.of_nat taken)) as (seq & s & Hc & Hend); [done|done|lia|lia|done|lia|by apply F2|]. rewrite Htaken in Hc. exists seq, s. split; [exact Hc|].
    intros _ Hr Hq. assert (length (ln_pushed l) = length rest) as Hall.
    { rewrite <- (published_length epoch (Z.of_nat subscribed) rest), (F1 eq_refl), Hr, app_nil_r. done. }
    destruct (Hend Hq Hall) as [-> ->]. rewrite Hsnap. split; [|lia].
    rewrite <- (take_ge rest (length rest)) at 1 by lia. rewrite Hserver. f_equal. apply take_ge. lia.
Qed.

(** ** Witness *)

#[local] Abbreviation sample_run := (hub_run true sample_ops (hub_new (lit "e") sample_snapshot 0)).

Definition plain_event (e : DaemonEvent) : bool :=
  match e with Engine (MTaskProgress _) | TaskDeleted _ | RuntimeStatsChanged _ => true | _ => false end.

Lemma plain_events l n :
  map (fun e => (plain_event e, reloads_tables (into_wire e))) l = replicate n (true, false) -> Forall quiet l /\ Forall valid_event l.
Proof.
  revert n. induction l as [|e l IH]; intros n; [by split|]. destruct n as [|n]; [done|]. intros [= Hp Hq Hl]. apply IH in Hl as [H1 H2].
  split; constructor; try done. destruct e; try done. by destruct m.
Qed.

Definition feed (f : EventFrame) (l : link) : link := mk_link (ln_rest l ++ [f]) (ln_pump l) (ln_pushed l) (ln_sent l).

(** All frames published, then taken, then sent. *)
Definition sample_link : link :=
  Nat.iter 4 writer_sends (pump_takes MAX_PENDING_FRAMES 4 None (foldl (fun l f => feed f l) link_new (map snd sample_run.1))).

Lemma feed_linked limit frames : linked limit frames (foldl (fun l f => feed f l) link_new frames).
Proof.
  induction frames as [|f frames IH] using rev_ind; [constructor|]. rewrite foldl_app. cbn. by apply linked_published.
Qed.

Lemma sample_linked : linked MAX_PENDING_FRAMES (map snd sample_run.1) sample_link.
Proof.
  assert (forall n l, linked MAX_PENDING_FRAMES (map snd sample_run.1) l -> linked MAX_PENDING_FRAMES (map snd sample_run.1) (Nat.iter n writer_sends l)) as H.
  { intros n l Hl. induction n as [|n IH]; [exact Hl|]. exact (linked_written _ _ _ IH). }
  refine (H 4%nat _ (linked_pumped _ _ _ 4 None _ eq_refl)). apply feed_linked.
Qed.

Lemma client_follows_hub_witness :
  exists seq s, consume (lit "e") 1 (server (es_snapshot (hub_new (lit "e") sample_snapshot 0)) (take 1 (map fst sample_run.1))) (ln_sent sample_link)
    = Some (seq, s) /\ s = es_snapshot sample_run.2 /\ (length (ln_sent sample_link) < length sample_run.1)%nat.
Proof.
  assert (length sample_run.1 = 4%nat) as Hlen by by vm_compute.
  assert (map (fun e => (plain_event e, reloads_tables (into_wire e))) (map fst sample_run.1) = replicate 4 (true, false)) as Hall by by vm_compute.
  assert (Forall quiet (map fst sample_run.1) /\ Forall valid_event (map fst sample_run.1)) as [Hquiet Hvalid].
  { exact (plain_events _ _ Hall). }
  assert (forall k, strict_snapshot (server (es_snapshot (hub_new (lit "e") sample_snapshot 0)) (take k (map fst sample_run.1)))) as Hstrict.
  { intros k. destruct k as [|[|[|[|k]]]]; [..|rewrite take_ge by (rewrite length_map, Hlen; lia)]; vm_compute; constructor. }
  assert (sorted_snapshot (es_snapshot (hub_new (lit "e") sample_snapshot 0))) as Hsorted by (vm_compute; constructor).
  assert (ps_end (ln_pump sample_link) = None /\ ln_rest sample_link = [] /\ pending (ps_queue (ln_pump sample_link)) = []) as (He & Hr & Hp)
    by (split_and!; by vm_compute).
  assert (length (ln_sent sample_link) = 3%nat) as Hsent by by vm_compute.
  destruct (client_follows_hub true (lit "e") sample_snapshot 0 sample_ops 0 1 MAX_PENDING_FRAMES sample_link) as [(seq & s & H1 & H2) _];
    [vm_compute; discriminate|exact Hquiet|exact Hvalid|exact Hsorted|exact Hstrict|split; [lia|]|exact sample_linked|].
  { rewrite length_map. change (1 <= length sample_run.1)%nat. rewrite Hlen. lia. }
  exists seq, s. split; [exact H1|]. split; [exact (proj1 (H2 He Hr Hp))|]. rewrite Hsent, Hlen. lia.
Defined.
