(* ===== verification/Selection.v ===== *)
(** * Selection: questions the engine asks its users ([native/daemon/src/selection.rs])

    A task that needs a decision (a quality, files of a torrent, a variant, what
    to do with an existing file, a plugin) registers a request with a default and
    waits; any connected client may answer, the first valid answer wins, and
    pauses, deletions, timeouts and disconnections decide what is left.

    Every operation runs one or more critical sections on the shared state and
    publishes events between or after them, so operations of different threads
    interleave: [SelectionState] and the functions on it are the sections, and
    [step] interleaves the rest of the operations, action by action.

    A hash map is iterated in an order of its own: functions that iterate over the
    pending requests take the order as an argument.  The channel of a request is
    named by its id; a request's serialised form is a parameter. *)
From S2P Require Import Prelude Text QueueOrder Projection Coalesce TableSync.

(** ** Data *)

Inductive FileExistsAction := Rename | Overwrite | Skip.

Inductive SelectionKind :=
| KindHls (options : list Blob)
| KindBt (files : list Blob)
| KindVariant (options : list Blob)
| KindFileExists (shown : Blob) (actions : list FileExistsAction)
| KindPlugin (shown : Blob) (candidates : list (text * Blob)).

Inductive SelectionOutcome :=
| OHls (index : Z)
| OBt (indices : list Z)
| OVariant (index : Z)
| OFileExists (action : FileExistsAction)
| OPlugin (identity : text) (remember : bool)
| OCancelled.

Record SelectionRequest := mk_request {
  rq_id : text; rq_task : text; rq_kind : SelectionKind; rq_default : SelectionOutcome; rq_deadline : Z }.

Inductive SelectionType := THls | TBt | TVariant | TFileExists | TPlugin.

#[export] Instance action_eq : EqDecision FileExistsAction.
Proof. solve_decision. Defined.
#[export] Instance outcome_eq : EqDecision SelectionOutcome.
Proof. solve_decision. Defined.
#[export] Instance type_eq : EqDecision SelectionType.
Proof. solve_decision. Defined.

(** The sender of the answer is the channel of the request's id. *)
Record PendingSelection := mk_pending {
  pe_type : SelectionType; pe_task : text; pe_default : SelectionOutcome;
  pe_actions : list FileExistsAction; pe_candidates : list text }.

Record SelectionState := mk_selection {
  subscribers : gset text; pending : gmap text PendingSelection; resolved : list text }.

Inductive SelectionWait := Immediate (o : SelectionOutcome) | Waiting.
Inductive SelectionError := NotFound | Conflict | InvalidOutcome | HlsCancel.

Definition RESOLVED_HISTORY_LIMIT : nat := 1024.
Definition TASK_STATUS_PAUSED : Z := 2.

Definition set_subscribers v s := mk_selection v (pending s) (resolved s).
Definition set_pending v s := mk_selection (subscribers s) v (resolved s).
Definition set_resolved v s := mk_selection (subscribers s) (pending s) v.

(** ** Sections *)

Definition selection_type (kind : SelectionKind) : SelectionType :=
  match kind with
  | KindHls _ => THls
  | KindBt _ => TBt
  | KindVariant _ => TVariant
  | KindFileExists _ _ => TFileExists
  | KindPlugin _ _ => TPlugin
  end.

Definition validate_outcome (p : PendingSelection) (o : SelectionOutcome) : result unit SelectionError :=
  match pe_type p, o with
  | THls, OHls _ | TBt, OBt _ | TVariant, OVariant _ => Ok tt
  | TFileExists, OFileExists action => if bool_decide (action ∈ pe_actions p) then Ok tt else Err InvalidOutcome
  | TPlugin, OPlugin identity _ => if bool_decide (identity ∈ pe_candidates p) then Ok tt else Err InvalidOutcome
  | THls, OCancelled => Err HlsCancel
  | _, OCancelled => Ok tt
  | _, _ => Err InvalidOutcome
  end.

(** [push_back], then [pop_front] down to the limit. *)
Definition remember_resolved (resolved : list text) (id : text) : list text :=
  drop (length (resolved ++ [id]) - RESOLVED_HISTORY_LIMIT) (resolved ++ [id]).

Definition pending_of (r : SelectionRequest) : PendingSelection :=
  mk_pending (selection_type (rq_kind r)) (rq_task r) (rq_default r)
    match rq_kind r with KindFileExists _ actions => actions | _ => [] end
    match rq_kind r with KindPlugin _ candidates => map fst candidates | _ => [] end.

Definition subscribe (connection : text) (s : SelectionState) : SelectionState := set_subscribers (subscribers s ∪ {[connection]}) s.

Definition begin_section (r : SelectionRequest) (s : SelectionState) : SelectionWait * SelectionState :=
  if bool_decide (subscribers s = ∅) then (Immediate (rq_default r), s)
  else (Waiting, set_pending (<[rq_id r := pending_of r]> (pending s)) s).

(** Every pending request gets its default. *)
Definition decide_all (order : list (text * PendingSelection)) (s : SelectionState) : list (text * SelectionOutcome) * SelectionState :=
  (map (fun x => (x.1, pe_default x.2)) order,
   mk_selection (subscribers s) ∅ (foldl remember_resolved (resolved s) (map fst order))).

Definition unsubscribe_section (connection : text) (order : list (text * PendingSelection)) (s : SelectionState)
    : list (text * SelectionOutcome) * SelectionState :=
  let s := set_subscribers (subscribers s ∖ {[connection]}) s in
  if bool_decide (subscribers s = ∅) then decide_all order s else ([], s).

Definition close_request (id : text) (s : SelectionState) : SelectionState :=
  mk_selection (subscribers s) (delete id (pending s)) (remember_resolved (resolved s) id).

Definition resolve_section (id : text) (o : SelectionOutcome) (s : SelectionState) : result unit SelectionError * SelectionState :=
  match pending s !! id with
  | None => (Err (if bool_decide (id ∈ resolved s) then Conflict else NotFound), s)
  | Some p =>
      match validate_outcome p o with
      | Err e => (Err e, s)
      | Ok _ => (Ok tt, close_request id s)
      end
  end.

Definition timeout_section (id : text) (s : SelectionState) : option SelectionOutcome * SelectionState :=
  match pending s !! id with
  | Some p => (Some (pe_default p), close_request id s)
  | None => (None, s)
  end.

Definition cancel_outcome (p : PendingSelection) : SelectionOutcome :=
  match pe_type p with THls => pe_default p | TBt | TVariant | TFileExists | TPlugin => OCancelled end.

Definition cancel_one (acc : list (text * SelectionOutcome) * SelectionState) (id : text) : list (text * SelectionOutcome) * SelectionState :=
  match pending acc.2 !! id with
  | Some p => (acc.1 ++ [(id, cancel_outcome p)], close_request id acc.2)
  | None => acc
  end.

Definition cancel_matching (matches : text -> bool) (order : list (text * PendingSelection)) (s : SelectionState)
    : list (text * SelectionOutcome) * SelectionState :=
  foldl cancel_one ([], s) (map fst (filter (fun x => matches (pe_task x.2) = true) order)).

(** Is the task of a request gone or paused? *)
Definition gone_or_paused (statuses : gmap text Z) (task : text) : bool :=
  match statuses !! task with None => true | Some status => status =? TASK_STATUS_PAUSED end.

(** The request [resolve_for_task] finds. *)
Definition request_for_task (task : text) (kind : SelectionType) (order : list (text * PendingSelection)) : option text :=
  fst <$> head (filter (fun x => pe_task x.2 = task /\ pe_type x.2 = kind) order).

(** ** Actions between the sections *)

Inductive action :=
| ASubscribe (connection : text)
| AUnsubscribe (connection : text)
| ABegin (r : SelectionRequest)
| AFind (task : text) (kind : SelectionType) (o : SelectionOutcome)
| AResolve (id : text) (o : SelectionOutcome)
| ASend (id : text) (o : SelectionOutcome)
| APublish (e : DaemonEvent)
| ATimeout (id : text)
| ADecideAll
| ACancelTask (task : text)
| AIfPending (statuses : gmap text Z)
| ASample
| AInspect (tasks : list text)
| ACancel (statuses : gmap text Z).

Definition announce (decided : list (text * SelectionOutcome)) : list action := map (fun x => APublish (SelectionResolved x.1)) decided.

(** What the watcher of task events does about a frame. *)
Definition observe_frame (e : DaemonEvent) : list action :=
  match e with
  | TaskDeleted id => [ACancelTask id]
  | TasksDeleted ids => map ACancelTask ids
  | TaskChanged task => if t_status task =? TASK_STATUS_PAUSED then [ACancelTask (t_id task)] else []
  | TasksChanged tasks => map (fun t => ACancelTask (t_id t)) (filter (fun t => t_status t = TASK_STATUS_PAUSED) tasks)
  | Engine (MTaskProgress p) => if (p_status p =? TASK_STATUS_PAUSED) || is_deleted_progress p then [ACancelTask (p_id p)] else []
  | Engine (MTasksSnapshot tasks) => [AIfPending (list_to_map (reverse (map (fun t => (t_id t, t_status t)) tasks)))]
  | SnapshotReplaced _ => [ASample]
  | TablesReloading (Some _) _ => [ASample]
  | _ => []
  end.

(** The statuses the projection shows for some tasks. *)
Definition statuses_of (tasks : list text) (hub : DaemonSnapshot) : gmap text Z :=
  list_to_map (omap (fun id => (fun t => (id, t_status t)) <$> find_task id (sn_tasks hub)) tasks).

(** What an action does: its decisions, what it sends to the waiters, what it
    publishes, what its operation does next. *)
Record effect := mk_effect {
  ef_begun : list SelectionRequest;
  ef_decided : list (text * SelectionOutcome);
  ef_sent : list (text * SelectionOutcome);
  ef_events : list DaemonEvent;
  ef_next : list action;
  ef_state : SelectionState }.

Definition only (s : SelectionState) : effect := mk_effect [] [] [] [] [] s.
Definition next_only (l : list action) (s : SelectionState) : effect := mk_effect [] [] [] [] l s.

(** Decisions whose answers are sent within the section. *)
Definition closing (x : list (text * SelectionOutcome) * SelectionState) : effect := mk_effect [] x.1 x.1 [] (announce x.1) x.2.

Section Actions.
Context (encode : SelectionRequest -> Blob).

Definition run_action (a : action) (order : list (text * PendingSelection)) (hub : DaemonSnapshot) (s : SelectionState) : effect :=
  match a with
  | ASubscribe connection => only (subscribe connection s)
  | AUnsubscribe connection => closing (unsubscribe_section connection order s)
  | ABegin r =>
      match begin_section r s with
      | (Immediate _, s) => only s
      | (Waiting, s) => mk_effect [r] [] [] [] [APublish (SelectionPending (rq_id r) (encode r))] s
      end
  | AFind task kind o =>
      match request_for_task task kind order with Some id => next_only [AResolve id o] s | None => only s end
  | AResolve id o =>
      match resolve_section id o s with
      | (Ok _, s) => mk_effect [] [(id, o)] [] [] [ASend id o; APublish (SelectionResolved id)] s
      | (Err _, s) => only s
      end
  | ASend id o => mk_effect [] [] [(id, o)] [] [] s
  | APublish e => mk_effect [] [] [] [e] [] s
  | ATimeout id =>
      match timeout_section id s with
      | (Some o, s) => mk_effect [] [(id, o)] [] [] [APublish (SelectionResolved id)] s
      | (None, s) => only s
      end
  | ADecideAll => closing (decide_all order s)
  | ACancelTask task => closing (cancel_matching (fun t => bool_decide (t = task)) order s)
  | AIfPending statuses => if bool_decide (pending s = ∅) then only s else next_only [ACancel statuses] s
  | ASample =>
      let tasks := map (fun x => pe_task x.2) order in
      if bool_decide (tasks = []) then only s else next_only [AInspect tasks] s
  | AInspect tasks => next_only [ACancel (statuses_of tasks hub)] s
  | ACancel statuses => closing (cancel_matching (gone_or_paused statuses) order s)
  end.

(** ** Operations, interleaved *)

Inductive selection_op :=
| Subscribe (connection : text)
| Unsubscribe (connection : text)
| Begin (r : SelectionRequest)
| Resolve (id : text) (o : SelectionOutcome)
| Provide (task : text) (kind : SelectionType) (o : SelectionOutcome)
| Timeout (id : text)
| Shutdown
| CancelTask (task : text)
| Observe (e : DaemonEvent)
| Lagged.

Definition program (op : selection_op) : list action :=
  match op with
  | Subscribe connection => [ASubscribe connection]
  | Unsubscribe connection => [AUnsubscribe connection]
  | Begin r => [ABegin r]
  | Resolve id o => [AResolve id o]
  | Provide task kind o => [AFind task kind o]
  | Timeout id => [ATimeout id]
  | Shutdown => [ADecideAll]
  | CancelTask task => [ACancelTask task]
  | Observe e => observe_frame e
  | Lagged => [ASample]
  end.

(** The state, the projection, the events published, the operations under way;
    then, for the statements, every request asked for, every request that
    waited, the decisions in their order and what the waiters were sent. *)
Record system := mk_system {
  sy_state : SelectionState;
  sy_hub : DaemonSnapshot;
  sy_log : list DaemonEvent;
  sy_threads : list (list action);
  sy_asked : list SelectionRequest;
  sy_begun : list SelectionRequest;
  sy_decided : list (text * SelectionOutcome);
  sy_sent : list (text * SelectionOutcome) }.

Definition system_new (hub : DaemonSnapshot) : system := mk_system (mk_selection ∅ ∅ []) hub [] [] [] [] [] [].

Definition call (op : selection_op) (y : system) : system :=
  mk_system (sy_state y) (sy_hub y) (sy_log y) (sy_threads y ++ [program op])
    match op with Begin r => sy_asked y ++ [r] | _ => sy_asked y end (sy_begun y) (sy_decided y) (sy_sent y).

(** The next action of an operation. *)
Definition exec (i : nat) (order : list (text * PendingSelection)) (y : system) : system :=
  match sy_threads y !! i with
  | Some (a :: rest) =>
      let f := run_action a order (sy_hub y) (sy_state y) in
      mk_system (ef_state f) (server (sy_hub y) (ef_events f)) (sy_log y ++ ef_events f) (<[i := ef_next f ++ rest]> (sy_threads y))
        (sy_asked y) (sy_begun y ++ ef_begun f) (sy_decided y ++ ef_decided f) (sy_sent y ++ ef_sent f)
  | _ => y
  end.

(** An event of the other parts. *)
Definition other (e : DaemonEvent) (y : system) : system :=
  mk_system (sy_state y) (apply_daemon_event e (sy_hub y)) (sy_log y ++ [e]) (sy_threads y) (sy_asked y) (sy_begun y) (sy_decided y) (sy_sent y).

(** Ids are fresh (version 4 UUIDs); a watcher sees frames that were published;
    no other part publishes selections. *)
Definition callable (op : selection_op) (y : system) : Prop :=
  match op with
  | Begin r => rq_id r ∉ map rq_id (sy_asked y)
  | Observe e => e ∈ map into_wire (sy_log y)
  | _ => True
  end.

Inductive step (y : system) : system -> Prop :=
| step_call op : callable op y -> step y (call op y)
| step_exec i order : order ≡ₚ map_to_list (pending (sy_state y)) -> step y (exec i order y)
| step_other e : sn_selections (apply_daemon_event e (sy_hub y)) = sn_selections (sy_hub y) -> step y (other e y).

(** An announcement under way. *)
Definition under_way (y : system) : list action := concat (sy_threads y).
Definition announcing (id : text) (y : system) : Prop := exists b, APublish (SelectionPending id b) ∈ under_way y.

(** [prompt]: no request is decided before its announcement is published. *)
Inductive reached (prompt : bool) (hub : DaemonSnapshot) : system -> Prop :=
| reached_start : reached prompt hub (system_new hub)
| reached_step y y' :
    reached prompt hub y -> step y y' ->
    (prompt = true -> forall id, announcing id y' -> is_Some (pending (sy_state y') !! id)) ->
    reached prompt hub y'.
End Actions.

(** ** The engine's questions *)

Inductive EngineOutcome (A : Type) := UserChose (a : A) | TimedOutDefaulted (a : A) | NoSelectorConfigured (a : A).
Arguments UserChose {A} a.
Arguments TimedOutDefaulted {A} a.
Arguments NoSelectorConfigured {A} a.

Inductive FileExistsChoice := ChooseRename | ChooseOverwrite | ChooseSkip | ChooseCancel.
Inductive PluginChoice := UsePlugin (identity : text) (remember : bool) | CancelPlugin.

(** How the wait ends: nobody to ask, an answer, or the deadline (or a lost
    channel). *)
Inductive waited := NotAsked | Received (o : SelectionOutcome) | Expired.

(** [max_by_key] takes the last of equal maxima. *)
Fixpoint best_from (i : Z) (best : option (Z * Z)) (bandwidths : list Z) : option (Z * Z) :=
  match bandwidths with
  | [] => best
  | b :: l => best_from (i + 1) (match best with Some (_, top) => if top <=? b then Some (i, b) else best | None => Some (i, b) end) l
  end.

Definition hls_default (options : list (Z * Blob)) : Z := match best_from 0 None (map fst options) with Some (i, _) => i | None => 0 end.

Definition hls_request (id task : text) (options : list (Z * Blob)) (deadline : Z) : SelectionRequest :=
  mk_request id task (KindHls (map snd options)) (OHls (hls_default options)) deadline.
Definition hls_result (options : list (Z * Blob)) (w : waited) : EngineOutcome Z :=
  match w with
  | NotAsked => NoSelectorConfigured (hls_default options)
  | Received (OHls index) => UserChose index
  | _ => TimedOutDefaulted (hls_default options)
  end.

Definition bt_request (id task : text) (files : list Blob) (deadline : Z) : SelectionRequest :=
  mk_request id task (KindBt files) (OBt []) deadline.
Definition bt_result (w : waited) : EngineOutcome (list Z) :=
  match w with
  | NotAsked => NoSelectorConfigured []
  | Received (OBt indices) => UserChose indices
  | Received OCancelled => UserChose [-1]
  | _ => TimedOutDefaulted []
  end.

Definition variant_request (id task : text) (options : list Blob) (default_index deadline : Z) : SelectionRequest :=
  mk_request id task (KindVariant options) (OVariant default_index) deadline.
Definition variant_result (default_index : Z) (w : waited) : EngineOutcome Z :=
  match w with
  | NotAsked => NoSelectorConfigured default_index
  | Received (OVariant index) => UserChose index
  | Received OCancelled => UserChose (-1)
  | _ => TimedOutDefaulted default_index
  end.

Definition file_exists_request (id task : text) (shown : Blob) (allow_skip : bool) (deadline : Z) : SelectionRequest :=
  mk_request id task (KindFileExists shown ([Rename; Overwrite] ++ if allow_skip then [Skip] else [])) (OFileExists Rename) deadline.
Definition file_exists_result (w : waited) : EngineOutcome FileExistsChoice :=
  match w with
  | NotAsked => NoSelectorConfigured ChooseRename
  | Received (OFileExists action) =>
      UserChose match action with Rename => ChooseRename | Overwrite => ChooseOverwrite | Skip => ChooseSkip end
  | Received OCancelled => UserChose ChooseCancel
  | _ => TimedOutDefaulted ChooseRename
  end.

Definition plugin_request (id task : text) (shown : Blob) (candidates : list (text * Blob)) (default_identity : text) (deadline : Z) : SelectionRequest :=
  mk_request id task (KindPlugin shown candidates) (OPlugin default_identity false) deadline.
Definition plugin_result (default_identity : text) (w : waited) : EngineOutcome PluginChoice :=
  match w with
  | NotAsked => NoSelectorConfigured (UsePlugin default_identity false)
  | Received (OPlugin identity remember) => UserChose (UsePlugin identity remember)
  | Received OCancelled => UserChose CancelPlugin
  | _ => TimedOutDefaulted (UsePlugin default_identity false)
  end.

(** ** The sections decide pending requests *)

Definition begin_of (a : action) : option SelectionRequest := match a with ABegin r => Some r | _ => None end.
Definition send_of (a : action) : option (text * SelectionOutcome) := match a with ASend id o => Some (id, o) | _ => None end.

(** An outcome that may end a request: a valid answer, or its default. *)
Definition fits (p : PendingSelection) (o : SelectionOutcome) : Prop := validate_outcome p o = Ok tt \/ o = pe_default p.

Record decides (s : SelectionState) (f : effect) : Prop := mk_decides {
  de_begun : ef_begun f = [];
  de_events : ef_events f = [];
  de_once : NoDup (map fst (ef_decided f));
  de_from : forall id o, (id, o) ∈ ef_decided f -> exists p, pending s !! id = Some p /\ fits p o;
  de_pending : forall id, pending (ef_state f) !! id = if decide (id ∈ map fst (ef_decided f)) then None else pending s !! id;
  de_resolved : resolved (ef_state f) = foldl remember_resolved (resolved s) (map fst (ef_decided f));
  de_subscribers : pending (ef_state f) <> ∅ -> subscribers s <> ∅ -> subscribers (ef_state f) <> ∅;
  de_sends : ef_sent f ++ omap send_of (ef_next f) = [] \/ ef_sent f ++ omap send_of (ef_next f) = ef_decided f;
  de_begins : omap begin_of (ef_next f) = [];
  de_publish : forall e, APublish e ∈ ef_next f -> exists id, id ∈ map fst (ef_decided f) /\ e = SelectionResolved id;
  de_announce : forall id, id ∈ map fst (ef_decided f) -> APublish (SelectionResolved id) ∈ ef_next f }.

Lemma decides_nothing l s s' : omap begin_of l = [] -> omap send_of l = [] -> (forall e, APublish e ∉ l) ->
  pending s' = pending s -> resolved s' = resolved s -> (subscribers s <> ∅ -> subscribers s' <> ∅) -> decides s (next_only l s').
Proof.
  intros Hb Hs Hp H1 H2 H3. constructor; cbn.
  - done.
  - done.
  - constructor.
  - intros id o H. by apply not_elem_of_nil in H.
  - intros id. rewrite H1. by rewrite decide_False by apply not_elem_of_nil.
  - done.
  - by intros _.
  - by left.
  - done.
  - intros e He. by apply Hp in He.
  - intros id H. by apply not_elem_of_nil in H.
Qed.

Lemma announce_spec decided :
  omap begin_of (announce decided) = [] /\ omap send_of (announce decided) = [] /\
  (forall e, APublish e ∈ announce decided <-> exists id, id ∈ map fst decided /\ e = SelectionResolved id).
Proof.
  split_and!; [by induction decided|by induction decided|]. intros e. unfold announce. rewrite list_elem_of_fmap. split.
  - intros (x & [= ->] & Hx). exists x.1. split; [|done]. apply list_elem_of_fmap. by exists x.
  - intros (id & (x & -> & Hx)%list_elem_of_fmap & ->). by exists x.
Qed.

(** Sections that send within. *)
Lemma decides_closing s (x : list (text * SelectionOutcome) * SelectionState) :
  NoDup (map fst x.1) -> (forall id o, (id, o) ∈ x.1 -> exists p, pending s !! id = Some p /\ fits p o) ->
  (forall id, pending x.2 !! id = if decide (id ∈ map fst x.1) then None else pending s !! id) ->
  resolved x.2 = foldl remember_resolved (resolved s) (map fst x.1) ->
  (pending x.2 <> ∅ -> subscribers s <> ∅ -> subscribers x.2 <> ∅) -> decides s (closing x).
Proof.
  intros H1 H2 H3 H4 H5. destruct (announce_spec x.1) as (A1 & A2 & A3). constructor; cbn; try done.
  - right. by rewrite A2, app_nil_r.
  - intros e He. by apply A3.
  - intros id Hid. apply A3. by exists id.
Qed.

Lemma order_lookup (order : list (text * PendingSelection)) m id p : order ≡ₚ map_to_list m -> (id, p) ∈ order <-> m !! id = Some p.
Proof. intros H. by rewrite H, elem_of_map_to_list. Qed.

Lemma order_ids (order : list (text * PendingSelection)) m id : order ≡ₚ map_to_list m -> id ∈ map fst order <-> is_Some (m !! id).
Proof.
  intros H. rewrite list_elem_of_fmap. split.
  - intros ([id' p] & -> & Hx). exists p. by apply (order_lookup order).
  - intros (p & Hp). exists (id, p). split; [done|]. by apply (order_lookup order m).
Qed.

Lemma decides_all order s : order ≡ₚ map_to_list (pending s) -> decides s (closing (decide_all order s)).
Proof.
  intros Ho. assert (map fst (decide_all order s).1 = map fst order) as Hids by (cbn; rewrite map_map; done).
  apply decides_closing; rewrite ?Hids.
  - rewrite Ho. apply NoDup_fst_map_to_list.
  - intros id o ([id' p] & [= -> ->] & Hx)%list_elem_of_fmap. exists p. split; [by apply (order_lookup order)|by right].
  - intros id. cbn. rewrite lookup_empty. case_decide as Hd; [done|]. destruct (pending s !! id) eqn:E; [|done].
    destruct Hd. apply (order_ids order (pending s)); [done|by eexists].
  - done.
  - done.
Qed.

Lemma decides_unsubscribe connection order s :
  order ≡ₚ map_to_list (pending s) -> decides s (closing (unsubscribe_section connection order s)).
Proof.
  intros Ho. unfold unsubscribe_section. set (s1 := set_subscribers _ s). case_bool_decide as He.
  - assert (decides s1 (closing (decide_all order s1))) as [D1 D2 D3 D4 D5 D6 D7 D8 D9 D10 D11] by (by apply decides_all).
    constructor; try done.
  - apply (decides_nothing []); done || (intros e; apply not_elem_of_nil).
Qed.

(** One by one. *)
Lemma cancel_spec l acc s :
  (forall id, id ∈ map fst acc.1 -> is_Some (pending s !! id)) ->
  NoDup (map fst acc.1) -> (forall id o, (id, o) ∈ acc.1 -> exists p, pending s !! id = Some p /\ fits p o) ->
  (forall id, pending acc.2 !! id = if decide (id ∈ map fst acc.1) then None else pending s !! id) ->
  resolved acc.2 = foldl remember_resolved (resolved s) (map fst acc.1) ->
  subscribers acc.2 = subscribers s ->
  let acc' := foldl cancel_one acc l in
  NoDup (map fst acc'.1) /\ (forall id o, (id, o) ∈ acc'.1 -> exists p, pending s !! id = Some p /\ fits p o) /\
  (forall id, pending acc'.2 !! id = if decide (id ∈ map fst acc'.1) then None else pending s !! id) /\
  resolved acc'.2 = foldl remember_resolved (resolved s) (map fst acc'.1) /\
  subscribers acc'.2 = subscribers s.
Proof.
  revert acc. induction l as [|id l IH]; intros acc H0 H1 H2 H3 H4 H5; [done|]. cbn [foldl].
  pose proof (H3 id) as Hid. destruct (pending acc.2 !! id) as [p|] eqn:E.
  2: { replace (cancel_one acc id) with acc by (unfold cancel_one; by rewrite E). by apply IH. }
  case_decide as Hnew; [done|]. replace (cancel_one acc id) with (acc.1 ++ [(id, cancel_outcome p)], close_request id acc.2) by (unfold cancel_one; by rewrite E).
  apply IH; cbn [fst snd]; rewrite ?map_app; cbn [map fst].
  - intros i [Hi|Hi]%elem_of_app; [by apply H0|]. apply list_elem_of_singleton in Hi as ->. by eexists.
  - apply NoDup_app. split_and!; [done| |apply NoDup_singleton]. intros i Hi ->%list_elem_of_singleton. done.
  - intros i o [Hi|Hi]%elem_of_app; [by apply H2|]. apply list_elem_of_singleton in Hi as [= -> ->]. exists p. split; [done|].
    unfold fits, cancel_outcome, validate_outcome. destruct (pe_type p); auto.
  - intros i. cbn. destruct (decide (i = id)) as [->|Hne].
    + rewrite lookup_delete_eq, decide_True; [done|]. apply elem_of_app. right. by left.
    + rewrite lookup_delete_ne by done. rewrite H3. destruct (decide (i ∈ map fst acc.1)) as [Hi|Hi].
      * rewrite decide_True; [done|]. apply elem_of_app. by left.
      * rewrite decide_False; [done|]. intros [Hx|Hx]%elem_of_app; [done|]. by apply list_elem_of_singleton in Hx.
  - cbn. by rewrite H4, foldl_app.
  - done.
Qed.

Lemma decides_cancel matches order s : decides s (closing (cancel_matching matches order s)).
Proof.
  unfold cancel_matching. destruct (cancel_spec (map fst (filter (fun x => matches (pe_task x.2) = true) order)) ([], s) s) as (H1 & H2 & H3 & H4 & H5).
  - intros id H. by apply not_elem_of_nil in H.
  - constructor.
  - intros id o H. by apply not_elem_of_nil in H.
  - intros id. cbn. by rewrite decide_False by apply not_elem_of_nil.
  - done.
  - done.
  - apply decides_closing; try done. by rewrite H5.
Qed.

(** One request at a time. *)
Lemma decides_close s id o p sent next :
  pending s !! id = Some p -> fits p o -> sent ++ omap send_of next = [] \/ sent ++ omap send_of next = [(id, o)] ->
  omap begin_of next = [] -> (forall e, APublish e ∈ next <-> e = SelectionResolved id) ->
  decides s (mk_effect [] [(id, o)] sent [] next (close_request id s)).
Proof.
  intros Hp Hf Hs Hb Hn. constructor; cbn; [done|done|apply NoDup_singleton| | |done|done|done|done| |].
  - intros i x [= -> ->]%list_elem_of_singleton. by exists p.
  - intros i. destruct (decide (i = id)) as [->|Hne].
    + rewrite lookup_delete_eq, decide_True by by left. done.
    + rewrite lookup_delete_ne by done. rewrite decide_False; [done|]. by intros ?%list_elem_of_singleton.
  - intros e ->%Hn. exists id. split; [by left|done].
  - intros i ->%list_elem_of_singleton. by apply Hn.
Qed.

Lemma statements_only l (f : text -> action) : (forall x, begin_of (f x) = None) -> (forall x, send_of (f x) = None) ->
  omap begin_of (map f l) = [] /\ omap send_of (map f l) = [].
Proof. intros H1 H2. split; induction l as [|x l IH]; cbn; [done| |done|]; [by rewrite H1|by rewrite H2]. Qed.

(** Every action but three decides pending requests, or nothing. *)
Definition plain (a : action) : bool := match a with ABegin _ | ASend _ _ | APublish _ => false | _ => true end.

Lemma action_decides encode a order hub s :
  plain a = true -> order ≡ₚ map_to_list (pending s) -> decides s (run_action encode a order hub s).
Proof.
  assert (forall e, APublish e ∉ ([] : list action)) as Hnil by (intros; apply not_elem_of_nil).
  intros Ha Ho. destruct a; try done; cbn [run_action].
  - apply (decides_nothing []); done || (cbn; set_solver).
  - by apply decides_unsubscribe.
  - destruct (request_for_task task kind order) as [id|]; [|by apply (decides_nothing [])].
    apply decides_nothing; try done. intros e [= ]%list_elem_of_singleton.
  - unfold resolve_section. destruct (pending s !! id) as [p|] eqn:Hp; [|by apply (decides_nothing [])].
    destruct (validate_outcome p o) as [[]|] eqn:Hv; [|by apply (decides_nothing [])].
    eapply decides_close; [done|by left|by right|done|]. intros e. rewrite !elem_of_cons, elem_of_nil. naive_solver.
  - unfold timeout_section. destruct (pending s !! id) as [p|] eqn:Hp; [|by apply (decides_nothing [])].
    eapply decides_close; [done|by right|by left|done|]. intros e. rewrite list_elem_of_singleton. naive_solver.
  - by apply decides_all.
  - apply decides_cancel.
  - case_bool_decide; apply decides_nothing; try done. intros e [= ]%list_elem_of_singleton.
  - case_bool_decide; apply decides_nothing; try done. intros e [= ]%list_elem_of_singleton.
  - apply decides_nothing; try done. intros e [= ]%list_elem_of_singleton.
  - apply decides_cancel.
Qed.

(** ** The actions under way *)

Lemma concat_insert {A : Type} (ls : list (list A)) i l :
  ls !! i = Some l -> exists others, concat ls ≡ₚ l ++ others /\ forall l', concat (<[i := l']> ls) ≡ₚ l' ++ others.
Proof.
  revert i. induction ls as [|x ls IH]; intros i; [done|]. destruct i as [|i]; cbn.
  - intros [= ->]. by exists (concat ls).
  - intros (others & H1 & H2)%IH. exists (x ++ others). split.
    + rewrite H1, !app_assoc. by rewrite (Permutation_app_comm x l).
    + intros l'. rewrite H2, !app_assoc. by rewrite (Permutation_app_comm x l').
Qed.

Lemma concat_app_one {A : Type} (ls : list (list A)) l : concat (ls ++ [l]) = concat ls ++ l.
Proof. rewrite concat_app. cbn. by rewrite app_nil_r. Qed.

(** *** The history of the resolved *)

Definition recent (ids : list text) : list text := drop (length ids - RESOLVED_HISTORY_LIMIT) ids.

Lemma remember_recent ids id : remember_resolved (recent ids) id = recent (ids ++ [id]).
Proof.
  unfold remember_resolved, recent. set (L := RESOLVED_HISTORY_LIMIT). rewrite <- drop_app_le by lia.
  rewrite drop_drop, length_drop, !length_app. cbn [length]. f_equal. lia.
Qed.

Lemma remember_all ids l : foldl remember_resolved (recent l) ids = recent (l ++ ids).
Proof.
  revert l. induction ids as [|id ids IH]; intros l; cbn [foldl]; [by rewrite app_nil_r|].
  by rewrite remember_recent, IH, <- app_assoc.
Qed.

Lemma recent_elem id ids : id ∈ recent ids -> id ∈ ids.
Proof. intros H. rewrite <- (take_drop (length ids - RESOLVED_HISTORY_LIMIT) ids), elem_of_app. by right. Qed.

(** ** The invariant *)

(** What a request may be decided with. *)
Definition allowed (r : SelectionRequest) (o : SelectionOutcome) : Prop := fits (pending_of r) o.

Definition shown_selection (id : text) (y : system) : Prop := id ∈ map fst (sn_selections (sy_hub y)).

Abbreviation asked_ids y := (map rq_id (sy_asked y)).
Abbreviation begun_ids y := (map rq_id (sy_begun y)).
Abbreviation decided_ids y := (map fst (sy_decided y)).

(** The announcement of [id] is among the actions [w]. *)
Definition announced_in (id : text) (w : list action) : Prop := exists b, APublish (SelectionPending id b) ∈ w.

(** [w]: the actions under way, in any order. *)
Record sound_with (prompt : bool) (w : list action) (y : system) : Prop := mk_sound {
  so_ids : NoDup (map rq_id (sy_begun y ++ omap begin_of (w)));
  so_asked : forall id, id ∈ map rq_id (sy_begun y ++ omap begin_of (w)) -> id ∈ asked_ids y;
  so_begun : forall id, id ∈ begun_ids y <-> is_Some (pending (sy_state y) !! id) \/ id ∈ decided_ids y;
  so_open : forall id, is_Some (pending (sy_state y) !! id) -> id ∉ decided_ids y;
  so_once : NoDup (decided_ids y);
  so_pending : forall id p, pending (sy_state y) !! id = Some p -> exists r, r ∈ sy_begun y /\ rq_id r = id /\ p = pending_of r;
  so_allowed : forall id o, (id, o) ∈ sy_decided y -> exists r, r ∈ sy_begun y /\ rq_id r = id /\ allowed r o;
  so_sent_once : NoDup (map fst (sy_sent y ++ omap send_of (w)));
  so_sent : forall x, x ∈ sy_sent y ++ omap send_of (w) -> x ∈ sy_decided y;
  so_watched : pending (sy_state y) <> ∅ -> subscribers (sy_state y) <> ∅;
  so_resolved : resolved (sy_state y) = recent (decided_ids y);
  so_publish : forall e, APublish e ∈ w ->
    (exists id b, e = SelectionPending id b) \/ exists id, e = SelectionResolved id /\ id ∈ decided_ids y;
  so_shown : forall id, is_Some (pending (sy_state y) !! id) -> shown_selection id y \/ announced_in id w;
  so_prompt : prompt = true -> (forall id, announced_in id w -> is_Some (pending (sy_state y) !! id)) /\
    forall id, shown_selection id y -> is_Some (pending (sy_state y) !! id) \/ APublish (SelectionResolved id) ∈ w }.

Definition sound (prompt : bool) (y : system) : Prop := sound_with prompt (under_way y) y.

Lemma sound_perm prompt w w' y : w ≡ₚ w' -> sound_with prompt w y -> sound_with prompt w' y.
Proof.
  intros Hw [H1 H2 H3 H4 H5 H6 H7 H8 H9 H10 H11 H12 H13 H14].
  assert (forall id, announced_in id w <-> announced_in id w') as Ha by (intros id; unfold announced_in; by setoid_rewrite Hw).
  constructor; try done; try (by rewrite <- Hw).
  - intros id. rewrite <- Hw. apply H2.
  - intros x. rewrite <- Hw. apply H9.
  - intros e. rewrite <- Hw. apply H12.
  - intros id. rewrite <- Ha. apply H13.
  - intros Hp. destruct (H14 Hp) as [H15 H16]. split; intros id; [rewrite <- Ha; apply H15|rewrite <- Hw; apply H16].
Qed.

Lemma sound_start prompt hub : sn_selections hub = [] -> sound prompt (system_new hub).
Proof.
  intros Hh. assert (forall A (x : A), x ∉ ([] : list A)) as Hnil by (intros; apply not_elem_of_nil).
  constructor; cbn; [constructor|done| |intros id [? H]; by rewrite lookup_empty in H|constructor|done| |constructor| |done|done| | |].
  - intros id. rewrite lookup_empty. split; [intros H; by apply Hnil in H|]. intros [[? H]|H]; [done|by apply Hnil in H].
  - intros id o H. by apply Hnil in H.
  - intros x H. by apply Hnil in H.
  - intros e H. by apply Hnil in H.
  - intros id [? H]. by rewrite lookup_empty in H.
  - intros _. split; [intros id [b H]; by apply Hnil in H|]. intros id H. unfold shown_selection in H. cbn in H. rewrite Hh in H. by apply Hnil in H.
Qed.

(** Requests that are decided. *)
Lemma decide_sound prompt a w y f threads :
  sound_with prompt (a :: w) y -> plain a = true -> decides (sy_state y) f ->
  (prompt = true -> forall id, announced_in id (ef_next f ++ w) -> is_Some (pending (ef_state f) !! id)) ->
  sound_with prompt (ef_next f ++ w)
    (mk_system (ef_state f) (server (sy_hub y) (ef_events f)) (sy_log y ++ ef_events f) threads (sy_asked y)
       (sy_begun y ++ ef_begun f) (sy_decided y ++ ef_decided f) (sy_sent y ++ ef_sent f)).
Proof.
  intros [H1 H2 H3 H4 H5 H6 H7 H8 H9 H10 H11 H12 H13 H14] Ha [D1 D2 D3 D4 D5 D6 D7 D8 D9 D10 D11] Hprompt.
  assert (begin_of a = None /\ send_of a = None /\ forall e, a <> APublish e) as (Hb & Hs & Hpub) by (by destruct a).
  cbn [omap list_omap] in *. rewrite Hb, Hs in *.
  assert (forall id, id ∈ map fst (ef_decided f) -> is_Some (pending (sy_state y) !! id)) as Hdec.
  { intros id ([i o] & -> & Hx)%list_elem_of_fmap. destruct (D4 i o Hx) as (p & Hp & _). by eexists. }
  assert (forall id, is_Some (pending (ef_state f) !! id) <-> is_Some (pending (sy_state y) !! id) /\ id ∉ map fst (ef_decided f)) as Hopen.
  { intros id. rewrite D5. case_decide; [|tauto]. split; [by intros [? ?]|tauto]. }
  assert (sy_begun y ++ omap begin_of (ef_next f ++ w) = sy_begun y ++ omap begin_of w) as Ebegin by (by rewrite omap_app, D9).
  constructor; cbn [sy_state sy_hub sy_log sy_asked sy_begun sy_decided sy_sent]; rewrite ?D1, ?app_nil_r, ?Ebegin; try done.
  - intros id. rewrite map_app, H3, Hopen, elem_of_app. destruct (decide (id ∈ map fst (ef_decided f))) as [Hd|Hd]; [|tauto].
    specialize (Hdec id Hd). tauto.
  - intros id [Ho Hn]%Hopen. rewrite map_app, elem_of_app. intros [Hd|Hd]; [by eapply H4|done].
  - rewrite map_app. apply NoDup_app. split_and!; [done| |done]. intros id Hd Hd'. by apply (H4 id); [apply Hdec|].
  - intros id p. rewrite D5. case_decide; [done|]. apply H6.
  - intros id o [Hx|Hx]%elem_of_app; [by apply H7|]. destruct (D4 id o Hx) as (p & Hp & Hf). destruct (H6 id p Hp) as (r & Hr & Hid & ->). by exists r.
  - rewrite omap_app. assert (sy_sent y ++ ef_sent f ++ omap send_of (ef_next f) ++ omap send_of w ≡ₚ
      (ef_sent f ++ omap send_of (ef_next f)) ++ (sy_sent y ++ omap send_of w)) as Hperm.
    { rewrite !app_assoc. f_equiv. rewrite <- app_assoc. apply Permutation_app_comm. }
    rewrite <- !app_assoc, Hperm. destruct D8 as [->| ->]; [done|]. rewrite map_app. apply NoDup_app. split_and!; [done| |done].
    intros id Hid (x & -> & Hx)%list_elem_of_fmap. apply (H4 x.1); [by apply Hdec|]. apply list_elem_of_fmap. exists x. split; [done|by apply H9].
  - intros x. rewrite omap_app, !elem_of_app. intros Hx.
    assert (x ∈ ef_sent f ++ omap send_of (ef_next f) \/ x ∈ sy_sent y ++ omap send_of w) as [Hx'|Hx'].
    { rewrite !elem_of_app. tauto. }
    + destruct D8 as [E|E]; rewrite E in Hx'; [by apply not_elem_of_nil in Hx'|by right].
    + left. by apply H9.
  - intros Hne. apply D7; [done|]. apply H10. intros He. apply Hne. apply map_eq. intros id. rewrite lookup_empty, D5, He, lookup_empty. by case_decide.
  - by rewrite map_app, D6, H11, remember_all.
  - intros e [He|He]%elem_of_app.
    + right. destruct (D10 e He) as (id & Hid & ->). exists id. split; [done|]. rewrite map_app. apply elem_of_app. by right.
    + destruct (H12 e) as [Hx|(id & -> & Hid)]; [by right|by left|]. right. exists id. split; [done|]. rewrite map_app. apply elem_of_app. by left.
  - intros id [Ho _]%Hopen. rewrite D2. destruct (H13 id Ho) as [Hsh|(b & Hb')]; [by left|]. right. exists b. apply elem_of_app. right.
    apply elem_of_cons in Hb' as [Hb'|]; [by destruct (Hpub _ (eq_sym Hb'))|done].
  - intros Hp. split; [by apply Hprompt|]. rewrite D2. intros id Hsh. destruct (H14 Hp) as [_ H16]. destruct (H16 id Hsh) as [Ho|Hin].
    + destruct (decide (id ∈ map fst (ef_decided f))) as [Hd|Hd]; [right; apply elem_of_app; left; by apply D11|left; by apply Hopen].
    + right. apply elem_of_app. right. apply elem_of_cons in Hin as [Hin|]; [by destruct (Hpub _ (eq_sym Hin))|done].
Qed.

(** A request that waits. *)
Lemma begin_sound encode prompt r w y order threads :
  sound_with prompt (ABegin r :: w) y ->
  let f := run_action encode (ABegin r) order (sy_hub y) (sy_state y) in
  (prompt = true -> forall id, announced_in id (ef_next f ++ w) -> is_Some (pending (ef_state f) !! id)) ->
  sound_with prompt (ef_next f ++ w)
    (mk_system (ef_state f) (server (sy_hub y) (ef_events f)) (sy_log y ++ ef_events f) threads (sy_asked y)
       (sy_begun y ++ ef_begun f) (sy_decided y ++ ef_decided f) (sy_sent y ++ ef_sent f)).
Proof.
  intros [H1 H2 H3 H4 H5 H6 H7 H8 H9 H10 H11 H12 H13 H14]. cbn [run_action]. unfold begin_section. cbn [omap list_omap begin_of send_of] in *.
  assert (rq_id r ∉ begun_ids y) as Hnew.
  { rewrite map_app in H1. apply NoDup_app in H1 as (_ & H1 & _). intros Hr. apply (H1 _ Hr). by left. }
  assert (forall e, APublish e ∈ w -> APublish e ∈ ABegin r :: w) as Hw by (intros; by right).
  assert (forall id, announced_in id (ABegin r :: w) <-> announced_in id w) as Hann.
  { intros id. split; intros [b Hb]; exists b; [by apply elem_of_cons in Hb as [|]|by right]. }
  case_bool_decide as Hs; cbn; rewrite !app_nil_r; intros Hprompt.
  - assert (sublist (sy_begun y ++ omap begin_of w) (sy_begun y ++ r :: omap begin_of w)) as Hsub
      by (apply sublist_app; [done|by apply sublist_cons]).
    constructor; cbn; try done.
    + eapply sublist_NoDup; [exact H1|by apply fmap_sublist].
    + intros id Hid. apply H2. revert Hid. rewrite !map_app, !elem_of_app. cbn. rewrite elem_of_cons. tauto.
    + intros e He. by apply H12, Hw.
    + intros id. rewrite <- Hann. apply H13.
    + intros Hp. destruct (H14 Hp) as [_ H16]. split; [by apply Hprompt|]. intros id [|Hin]%H16; [by left|right].
      by apply elem_of_cons in Hin as [|].
  - assert (pending (sy_state y) !! rq_id r = None) as Hnone.
    { destruct (pending (sy_state y) !! rq_id r) eqn:E; [|done]. destruct Hnew. apply H3. left. by eexists. }
    assert (rq_id r ∉ decided_ids y) as Hnd by (intros Hd; apply Hnew, H3; by right).
    assert (forall id, is_Some (<[rq_id r := pending_of r]> (pending (sy_state y)) !! id) <-> id = rq_id r \/ is_Some (pending (sy_state y) !! id)) as Hopen.
    { intros id. rewrite lookup_insert_is_Some'. naive_solver. }
    constructor; cbn; try done.
    + rewrite <- app_assoc. exact H1.
    + intros id. rewrite <- app_assoc. apply H2.
    + intros id. rewrite map_app, elem_of_app, H3, Hopen. cbn. rewrite list_elem_of_singleton. tauto.
    + intros id [->|Ho]%Hopen; [done|by apply H4].
    + intros id p. rewrite lookup_insert_Some. intros [[<- <-]|[Hne Hp]].
      * exists r. split; [apply elem_of_app; right; by left|done].
      * destruct (H6 id p Hp) as (r' & Hr' & ?). exists r'. split; [apply elem_of_app; by left|done].
    + intros id o Hx. destruct (H7 id o Hx) as (r' & Hr' & ?). exists r'. split; [apply elem_of_app; by left|done].
    + intros e [[= ->]|He]%elem_of_cons; [left; by eexists _, _|]. by apply H12, Hw.
    + intros id [->|Ho]%Hopen; [right; exists (encode r); by left|]. destruct (H13 id Ho) as [|[b Hb]]; [by left|right].
      exists b. by apply elem_of_cons in Hb as [|Hb]; [|right].
    + intros Hp. destruct (H14 Hp) as [_ H16]. split; [by apply Hprompt|]. intros id [Ho|Hin]%H16; [left; apply Hopen; by right|right].
      by apply elem_of_cons in Hin as [|]; [|right].
Qed.

(** An answer is sent. *)
Lemma send_sound prompt id o w y threads :
  sound_with prompt (ASend id o :: w) y ->
  sound_with prompt w (mk_system (sy_state y) (sy_hub y) (sy_log y) threads (sy_asked y) (sy_begun y) (sy_decided y) (sy_sent y ++ [(id, o)])).
Proof.
  intros [H1 H2 H3 H4 H5 H6 H7 H8 H9 H10 H11 H12 H13 H14]. cbn [omap list_omap begin_of send_of] in *.
  assert (forall i, announced_in i (ASend id o :: w) <-> announced_in i w) as Hann.
  { intros i. split; intros [b Hb]; exists b; [by apply elem_of_cons in Hb as [|]|by right]. }
  constructor; cbn; try done.
  - by rewrite <- app_assoc.
  - intros x. rewrite <- app_assoc. apply H9.
  - intros e He. apply H12. by right.
  - intros i. rewrite <- Hann. apply H13.
  - intros Hp. destruct (H14 Hp) as [H15 H16]. split; [intros i; rewrite <- Hann; apply H15|]. intros i [|Hin]%H16; [by left|right].
    by apply elem_of_cons in Hin as [|].
Qed.

(** *** Publishing *)

Lemma shown_pending id b hub : map fst (sn_selections (apply_daemon_event (SelectionPending id b) hub)) =
  map fst (filter (fun x => x.1 <> id) (sn_selections hub)) ++ [id].
Proof. cbn. by rewrite map_app. Qed.

Lemma elem_filter_ids id i (l : list (text * Blob)) : i ∈ map fst (filter (fun x => x.1 <> id) l) <-> i <> id /\ i ∈ map fst l.
Proof.
  rewrite !list_elem_of_fmap. split.
  - intros (x & -> & [Hx ?]%list_elem_of_filter). split; [done|]. by exists x.
  - intros [Hne (x & -> & Hx)]. exists x. split; [done|]. by apply list_elem_of_filter.
Qed.

Lemma publish_sound prompt e w y threads :
  sound_with prompt (APublish e :: w) y ->
  (prompt = true -> forall id, announced_in id w -> is_Some (pending (sy_state y) !! id)) ->
  sound_with prompt w
    (mk_system (sy_state y) (server (sy_hub y) [e]) (sy_log y ++ [e]) threads (sy_asked y) (sy_begun y) (sy_decided y) (sy_sent y)).
Proof.
  intros [H1 H2 H3 H4 H5 H6 H7 H8 H9 H10 H11 H12 H13 H14] Hprompt. cbn [omap list_omap begin_of send_of] in *.
  change (server (sy_hub y) [e]) with (apply_daemon_event e (sy_hub y)).
  constructor; cbn [sy_state sy_hub sy_log sy_asked sy_begun sy_decided sy_sent]; try done.
  - intros e' He. apply H12. by right.
  - intros id Ho. destruct (H12 e) as [(i & b & ->)|(i & -> & Hi)]; [by left| |].
    + unfold shown_selection. cbn [sy_hub]. rewrite shown_pending, elem_of_app, elem_filter_ids, list_elem_of_singleton.
      destruct (decide (id = i)) as [->|Hne]; [by left; right|]. destruct (H13 id Ho) as [Hs|[b' Hb]]; [by left; left|right].
      exists b'. apply elem_of_cons in Hb as [[= -> ->]|]; done.
    + unfold shown_selection. cbn. rewrite elem_filter_ids. assert (id <> i) by (intros ->; by apply (H4 i)).
      destruct (H13 id Ho) as [Hs|[b' Hb]]; [by left|right]. exists b'. by apply elem_of_cons in Hb as [|].
  - intros Hp. destruct (H14 Hp) as [H15 H16]. split; [by apply Hprompt|]. intros id.
    destruct (H12 e) as [(i & b & ->)|(i & -> & Hi)]; [by left| |]; unfold shown_selection; cbn [sy_hub].
    + rewrite shown_pending, elem_of_app, elem_filter_ids, list_elem_of_singleton. intros [[Hne Hs]| ->].
      * destruct (H16 id Hs) as [|Hin]; [by left|right]. by apply elem_of_cons in Hin as [|].
      * left. apply H15. exists b. by left.
    + cbn. rewrite elem_filter_ids. intros [Hne Hs]. destruct (H16 id Hs) as [|Hin]; [by left|right].
      apply elem_of_cons in Hin as [[= ->]|]; done.
Qed.

Lemma other_sound prompt e w y :
  sound_with prompt w y -> sn_selections (apply_daemon_event e (sy_hub y)) = sn_selections (sy_hub y) -> sound_with prompt w (other e y).
Proof.
  intros [H1 H2 H3 H4 H5 H6 H7 H8 H9 H10 H11 H12 H13 H14] He.
  assert (forall id, shown_selection id (other e y) <-> shown_selection id y) as Hs by (intros id; unfold shown_selection; cbn [sy_hub other]; by rewrite He).
  constructor; cbn [sy_state sy_hub sy_log sy_asked sy_begun sy_decided sy_sent other]; try done.
  - intros id. rewrite Hs. apply H13.
  - intros Hp. destruct (H14 Hp) as [H15 H16]. split; [done|]. intros id. rewrite Hs. apply H16.
Qed.

(** A new operation brings no announcement; only [Begin] brings a request. *)
Lemma program_actions op :
  (forall e, APublish e ∉ program op) /\ omap send_of (program op) = [] /\
  omap begin_of (program op) = match op with Begin r => [r] | _ => [] end.
Proof.
  destruct op; cbn; try (split_and!; [|done|done]; intros e' [= ]%list_elem_of_singleton).
  assert (forall (A : Type) (f : A -> text) (l : list A), (forall e', APublish e' ∉ map (fun x => ACancelTask (f x)) l) /\
    omap send_of (map (fun x => ACancelTask (f x)) l) = [] /\ omap begin_of (map (fun x => ACancelTask (f x)) l) = []) as Hmap.
  { intros A f l. split_and!; [|by induction l|by induction l]. intros e' (x & [= ] & _)%list_elem_of_fmap. }
  destruct e; cbn; try (split_and!; [|done|done]; intros e'; (apply not_elem_of_nil || intros [= ]%list_elem_of_singleton)).
  - destruct tasks; cbn; (split_and!; [|done|done]; intros e'; (apply not_elem_of_nil || intros [= ]%list_elem_of_singleton)).
  - destruct m; cbn; try (split_and!; [|done|done]; intros e'; (apply not_elem_of_nil || intros [= ]%list_elem_of_singleton)).
    destruct (_ || _); cbn; (split_and!; [|done|done]; intros e'; (apply not_elem_of_nil || intros [= ]%list_elem_of_singleton)).
  - destruct (_ =? _); cbn; (split_and!; [|done|done]; intros e'; (apply not_elem_of_nil || intros [= ]%list_elem_of_singleton)).
  - apply (Hmap _ t_id).
  - apply (Hmap _ (fun x => x)).
Qed.

Lemma call_sound prompt op y : sound prompt y -> callable op y -> sound prompt (call op y).
Proof.
  unfold sound. intros [H1 H2 H3 H4 H5 H6 H7 H8 H9 H10 H11 H12 H13 H14] Hop.
  destruct (program_actions op) as (P1 & P2 & P3). assert (under_way (call op y) = under_way y ++ program op) as -> by apply concat_app_one.
  assert (forall id, announced_in id (under_way y ++ program op) <-> announced_in id (under_way y)) as Hann.
  { intros id. split; intros [b Hb]; exists b; [apply elem_of_app in Hb as [|Hb]; [done|by apply P1 in Hb]|apply elem_of_app; by left]. }
  constructor; cbn [sy_state sy_hub sy_log sy_asked sy_begun sy_decided sy_sent call]; rewrite ?omap_app, ?P2, ?P3, ?app_nil_r; try done.
  - destruct op; rewrite ?app_nil_r; try done. cbn in Hop. rewrite app_assoc, map_app. apply NoDup_app. split_and!; [done| |apply NoDup_singleton].
    intros id Hid ->%list_elem_of_singleton. by apply Hop, H2.
  - intros id. destruct op; rewrite ?app_nil_r; try apply H2. intros Hid. rewrite app_assoc, map_app in Hid.
    apply elem_of_app in Hid as [Hid|Hid]; rewrite map_app, elem_of_app; [left; by apply H2|by right].
  - intros e [He|He]%elem_of_app; [by apply H12|by apply P1 in He].
  - intros id. rewrite Hann. apply H13.
  - intros Hp. destruct (H14 Hp) as [H15 H16]. split; [intros id; rewrite Hann; apply H15|]. intros id [|Hin]%H16; [by left|right].
    apply elem_of_app. by left.
Qed.

Lemma exec_sound encode prompt i order y :
  sound prompt y -> order ≡ₚ map_to_list (pending (sy_state y)) ->
  (prompt = true -> forall id, announcing id (exec encode i order y) -> is_Some (pending (sy_state (exec encode i order y)) !! id)) ->
  sound prompt (exec encode i order y).
Proof.
  unfold sound, exec. destruct (sy_threads y !! i) as [[|a rest]|] eqn:E; [done| |done].
  destruct (concat_insert _ _ _ E) as (others & Hw & Hw'). set (f := run_action encode a order (sy_hub y) (sy_state y)).
  set (threads := <[i := ef_next f ++ rest]> (sy_threads y)). intros Hs Ho Hprompt.
  apply (sound_perm _ _ (a :: (rest ++ others))) in Hs; [|unfold under_way; by rewrite Hw].
  assert (under_way (mk_system (ef_state f) (server (sy_hub y) (ef_events f)) (sy_log y ++ ef_events f) threads (sy_asked y)
    (sy_begun y ++ ef_begun f) (sy_decided y ++ ef_decided f) (sy_sent y ++ ef_sent f)) ≡ₚ ef_next f ++ (rest ++ others)) as Hafter.
  { unfold under_way. cbn [sy_threads]. unfold threads. by rewrite Hw', app_assoc. }
  assert (prompt = true -> forall id, announced_in id (ef_next f ++ (rest ++ others)) -> is_Some (pending (ef_state f) !! id)) as Hprompt'.
  { intros Hp id [b Hb]. apply (Hprompt Hp id). exists b. by rewrite Hafter. }
  eapply sound_perm; [symmetry; exact Hafter|]. clear Hprompt Hafter Hw Hw'. clearbody threads.
  destruct (plain a) eqn:Ha; [eapply decide_sound; try done; by apply action_decides|].
  destruct a; try done; [by apply (begin_sound encode prompt r)| |].
  - cbn. rewrite !app_nil_r. by apply send_sound.
  - cbn. rewrite !app_nil_r. by apply publish_sound.
Qed.

Lemma reached_sound encode prompt hub y : sn_selections hub = [] -> reached encode prompt hub y -> sound prompt y.
Proof.
  intros Hh. induction 1 as [|y y' _ IH Hstep Hp]; [by apply sound_start|]. destruct Hstep as [op Hop|i order Ho|e He].
  - by apply call_sound.
  - by apply exec_sound.
  - by apply other_sound.
Qed.

(** ** The theorems *)

(** C20. One decision per request, under any interleaving of answers, timeouts,
    cancellations, disconnections and shutdown: a request that waits is pending
    or decided, never both and never lost; it is decided once, with a valid
    answer or its own default, and what its waiter is sent, at most once, is that
    decision; a request is only left pending while somebody is connected; and the
    remembered ids are the last 1024 decided. *)
Theorem decided_once encode hub y :
  sn_selections hub = [] -> reached encode false hub y ->
  (forall id, id ∈ begun_ids y <-> is_Some (pending (sy_state y) !! id) \/ id ∈ decided_ids y) /\
  (forall id, ~ (is_Some (pending (sy_state y) !! id) /\ id ∈ decided_ids y)) /\
  NoDup (decided_ids y) /\
  (forall id o, (id, o) ∈ sy_decided y -> exists r, r ∈ sy_begun y /\ rq_id r = id /\
     (validate_outcome (pending_of r) o = Ok tt \/ o = rq_default r)) /\
  NoDup (map fst (sy_sent y)) /\ (forall x, x ∈ sy_sent y -> x ∈ sy_decided y) /\
  (pending (sy_state y) <> ∅ -> subscribers (sy_state y) <> ∅) /\
  resolved (sy_state y) = recent (decided_ids y).
Proof.
  intros Hh [H1 H2 H3 H4 H5 H6 H7 H8 H9 H10 H11 H12 H13 H14]%reached_sound; [|done]. split_and!; try done.
  - intros id [Ho Hd]. by apply (H4 id).
  - rewrite map_app in H8. by apply NoDup_app in H8 as [? _].
  - intros x Hx. apply H9. apply elem_of_app. by left.
Qed.

(** C21. How an answer is judged: one for a request that is pending is accepted
    exactly when it fits the request's kind, its actions or its candidates; one
    that comes too late is a conflict as long as the request is among the last
    1024 decided; any other id is unknown.  An answer that is refused changes
    nothing. *)
Theorem answers_judged encode hub y id o :
  sn_selections hub = [] -> reached encode false hub y ->
  let '(answer, s) := resolve_section id o (sy_state y) in
  (forall r, r ∈ sy_begun y -> rq_id r = id -> id ∉ decided_ids y -> answer = validate_outcome (pending_of r) o) /\
  (id ∈ recent (decided_ids y) -> answer = Err Conflict) /\
  (id ∉ begun_ids y \/ id ∈ decided_ids y /\ id ∉ recent (decided_ids y) -> answer = Err NotFound) /\
  match answer with
  | Ok _ => pending s = delete id (pending (sy_state y)) /\ is_Some (pending (sy_state y) !! id)
  | Err _ => s = sy_state y
  end.
Proof.
  intros Hh [H1 H2 H3 H4 H5 H6 H7 H8 H9 H10 H11 H12 H13 H14]%reached_sound; [|done]. unfold resolve_section. rewrite H11.
  assert (NoDup (begun_ids y)) as Hnd by (rewrite map_app in H1; by apply NoDup_app in H1 as [? _]).
  destruct (pending (sy_state y) !! id) as [p|] eqn:E.
  - assert (id ∉ decided_ids y) as Hnot by (apply H4; by eexists).
    destruct (H6 id p E) as (r & Hr & Hid & ->).
    assert (forall r', r' ∈ sy_begun y -> rq_id r' = id -> r' = r) as Huniq.
    { intros r' Hr' Hid'. apply list_elem_of_lookup in Hr as [i Hi], Hr' as [j Hj].
      assert (map rq_id (sy_begun y) !! i = Some id /\ map rq_id (sy_begun y) !! j = Some id) as [Hi' Hj'].
      { rewrite !list_lookup_fmap, Hi, Hj. cbn. by rewrite Hid, Hid'. }
      assert (i = j) as -> by (by eapply NoDup_lookup). congruence. }
    assert (id ∈ begun_ids y) as Hbegun by (apply H3; left; by eexists).
    assert (forall r', r' ∈ sy_begun y -> rq_id r' = id -> pending_of r' = pending_of r) as Hsame by (intros r' ? ?; by rewrite (Huniq r')).
    assert (id ∈ recent (decided_ids y) -> False) as Hlate by (intros Hx%recent_elem; by apply Hnot).
    assert (~ (id ∉ begun_ids y \/ id ∈ decided_ids y /\ id ∉ recent (decided_ids y))) as Hknown by tauto.
    destruct (validate_outcome (pending_of r) o) as [[]|e] eqn:V; split_and!;
      [intros r' Hr' Hid' _; by rewrite Hsame|tauto|tauto|done|by eexists|intros r' Hr' Hid' _; by rewrite Hsame|tauto|tauto|done].
  - split_and!.
    + intros r Hr Hid Hnot. assert (id ∈ begun_ids y) as [[? H]|]%H3 by (apply list_elem_of_fmap; by exists r); [congruence|done].
    + intros Hin. by rewrite bool_decide_eq_true_2.
    + intros Hor. rewrite bool_decide_eq_false_2; [done|]. intros Hin. destruct Hor as [Hor|[_ Hor]]; [|done].
      apply Hor, H3. right. by apply recent_elem.
    + done.
Qed.

(** C22. What the clients show.  Once no operation is under way, every pending
    request is shown by the projection, so that somebody can answer it; and where
    no request was decided before its announcement was published, nothing else is
    shown. *)
Theorem dialogs_shown encode prompt hub y :
  sn_selections hub = [] -> reached encode prompt hub y -> under_way y = [] ->
  (forall id, is_Some (pending (sy_state y) !! id) -> shown_selection id y) /\
  (prompt = true -> forall id, shown_selection id y <-> is_Some (pending (sy_state y) !! id)).
Proof.
  intros Hh [H1 H2 H3 H4 H5 H6 H7 H8 H9 H10 H11 H12 H13 H14]%reached_sound Hidle; [|done]. rewrite Hidle in *.
  assert (forall id, is_Some (pending (sy_state y) !! id) -> shown_selection id y) as Hshown.
  { intros id [|[b Hb]]%H13; [done|]. by apply not_elem_of_nil in Hb. }
  split; [done|]. intros Hp id. split; [|by apply Hshown]. intros Hs. destruct (proj2 (H14 Hp) id Hs) as [|Hin]; [done|].
  by apply not_elem_of_nil in Hin.
Qed.

(** The engine understands what it is sent: an outcome sent to the waiter of
    one of its five questions is taken as the choice it stands for, never as a
    timeout; a file is only skipped where the question offered that, and a plugin
    chosen is a candidate or the default. *)
Theorem answers_understood encode hub y id o :
  sn_selections hub = [] -> reached encode false hub y -> (id, o) ∈ sy_sent y ->
  exists r, r ∈ sy_begun y /\ rq_id r = id /\
  (forall task options deadline, r = hls_request id task options deadline ->
     exists i, o = OHls i /\ hls_result options (Received o) = UserChose i) /\
  (forall task files deadline, r = bt_request id task files deadline ->
     exists l, bt_result (Received o) = UserChose l /\ (o = OBt l \/ o = OCancelled /\ l = [-1])) /\
  (forall task options d deadline, r = variant_request id task options d deadline ->
     exists i, variant_result d (Received o) = UserChose i /\ (o = OVariant i \/ o = OCancelled /\ i = -1)) /\
  (forall task shown allow_skip deadline, r = file_exists_request id task shown allow_skip deadline ->
     exists c, file_exists_result (Received o) = UserChose c /\ (c = ChooseSkip -> allow_skip = true)) /\
  (forall task shown candidates d deadline, r = plugin_request id task shown candidates d deadline ->
     exists c, plugin_result d (Received o) = UserChose c /\
       forall identity remember, c = UsePlugin identity remember -> identity ∈ map fst candidates \/ identity = d).
Proof.
  intros Hh Hr Hsent. apply (reached_sound _ _ _ _ Hh) in Hr as [H1 H2 H3 H4 H5 H6 H7 H8 H9 H10 H11 H12 H13 H14].
  destruct (H7 id o) as (r & Hin & Hid & Hfits); [apply H9, elem_of_app; by left|]. exists r. split; [done|split; [done|]].
  unfold allowed, fits in Hfits. split_and!.
  - intros task options deadline ->. destruct Hfits as [Hv| ->]; [|cbn; by eexists]. destruct o; try done. by eexists.
  - intros task files deadline ->. destruct Hfits as [Hv| ->]; [|cbn; eexists; split; [done|by left]].
    destruct o; try done; eexists; (split; [done|]); auto.
  - intros task options d deadline ->. destruct Hfits as [Hv| ->]; [|cbn; eexists; split; [done|by left]].
    destruct o; try done; eexists; (split; [done|]); auto.
  - intros task shown allow_skip deadline ->. destruct Hfits as [Hv| ->]; [|cbn; by eexists].
    destruct o as [| | |act| |]; try done; [|by eexists]. unfold validate_outcome in Hv. cbn in Hv. case_bool_decide as Ha; [|done]. eexists. split; [done|].
    destruct act, allow_skip; try done. rewrite !elem_of_cons, elem_of_nil in Ha. naive_solver.
  - intros task shown candidates d deadline ->. destruct Hfits as [Hv| ->].
    + destruct o; try done; [|by eexists]. unfold validate_outcome in Hv. cbn in Hv. case_bool_decide as Ha; [|done]. eexists. split; [done|].
      intros i k [= <- <-]. by left.
    + eexists. split; [done|]. intros i k [= <- <-]. by right.
Qed.

(** ** Races *)

Definition no_encoding (r : SelectionRequest) : Blob := [].

Definition sample_question (id task : text) : SelectionRequest := variant_request id task [[]; []] 0 0.

(** Operations and actions in a given order. *)
Inductive move := MCall (op : selection_op) | MExec (i : nat) (order : list (text * PendingSelection)).

Definition play_one (m : move) (y : system) : system :=
  match m with MCall op => call op y | MExec i order => exec no_encoding i order y end.

Definition playable (m : move) (y : system) : Prop :=
  match m with MCall op => callable op y | MExec i order => order ≡ₚ map_to_list (pending (sy_state y)) end.

Fixpoint play (ms : list move) (y : system) : system := match ms with [] => y | m :: ms => play ms (play_one m y) end.
Fixpoint all_playable (ms : list move) (y : system) : Prop :=
  match ms with [] => True | m :: ms => playable m y /\ all_playable ms (play_one m y) end.

(** A decidable goal, evaluated. *)
Ltac by_decision := match goal with |- ?P => apply (bool_decide_eq_true_1 P) end; by vm_compute.

Ltac solve_playable :=
  split_and!;
  first [done | by vm_compute | cbv beta iota delta [playable callable]; by_decision | by (vm_compute; apply perm_swap)].

Lemma play_reached ms hub y : reached no_encoding false hub y -> all_playable ms y -> reached no_encoding false hub (play ms y).
Proof.
  revert y. induction ms as [|m ms IH]; intros y Hy; [done|]. intros [Hm Hms]. apply IH; [|done].
  eapply reached_step; [exact Hy| |done]. destruct m; [by constructor|by apply step_exec].
Qed.

(** No announcement under way is of a decided request. *)
Definition prompt_now (y : system) : Prop :=
  Forall (fun a => match a with APublish (SelectionPending id _) => is_Some (pending (sy_state y) !! id) | _ => True end) (under_way y).

Fixpoint all_prompt (ms : list move) (y : system) : Prop :=
  match ms with [] => True | m :: ms => prompt_now (play_one m y) /\ all_prompt ms (play_one m y) end.

Lemma play_prompt ms hub y : reached no_encoding true hub y -> all_playable ms y -> all_prompt ms y -> reached no_encoding true hub (play ms y).
Proof.
  revert y. induction ms as [|m ms IH]; intros y Hy; [done|]. intros [Hm Hms] [Hp Hps]. apply IH; [|done|done].
  eapply reached_step; [exact Hy| |]; [destruct m; [by constructor|by apply step_exec]|]. intros _ id [b Hb].
  unfold prompt_now in Hp. rewrite Forall_forall in Hp. exact (Hp _ Hb).
Qed.

Definition question_a : SelectionRequest := sample_question (lit "1") (lit "a").
Definition question_b : SelectionRequest := sample_question (lit "2") (lit "b").
Definition waiting (r : SelectionRequest) : text * PendingSelection := (rq_id r, pending_of r).

(** The last client leaves between the registration of a request and its
    announcement. *)
Definition overtaken : list move :=
  [MCall (Subscribe (lit "c")); MExec 0 []; MCall (Begin question_a); MExec 1 []; MCall (Unsubscribe (lit "c"));
   MExec 2 [waiting question_a]; MExec 2 []].

(** A decided request whose resolution is published and whose announcement is
    not, or was afterwards. *)
Definition overtaken_in (id : text) (w : list action) (y : system) : Prop :=
  id ∈ decided_ids y /\ (APublish (SelectionResolved id) ∉ w) /\ (announced_in id w \/ shown_selection id y).

Lemma overtaken_perm id w w' y : w ≡ₚ w' -> overtaken_in id w y -> overtaken_in id w' y.
Proof. intros Hw (H1 & H2 & H3). split; [done|]. unfold announced_in in *. split; [by rewrite <- Hw|by setoid_rewrite <- Hw]. Qed.

(** Decisions are of other requests, and publish other resolutions. *)
Lemma decide_overtaken prompt id a w y f threads :
  sound_with prompt (a :: w) y -> plain a = true -> decides (sy_state y) f -> overtaken_in id (a :: w) y ->
  overtaken_in id (ef_next f ++ w)
    (mk_system (ef_state f) (server (sy_hub y) (ef_events f)) (sy_log y ++ ef_events f) threads (sy_asked y)
       (sy_begun y ++ ef_begun f) (sy_decided y ++ ef_decided f) (sy_sent y ++ ef_sent f)).
Proof.
  intros Hs Ha [D1 D2 D3 D4 D5 D6 D7 D8 D9 D10 D11] (H1 & H2 & H3). split_and!; cbn [sy_decided].
  - rewrite map_app. apply elem_of_app. by left.
  - intros [Hin|Hin]%elem_of_app; [|by apply H2; right]. destruct (D10 _ Hin) as (i & ([j o] & -> & Hx)%list_elem_of_fmap & [= ->]).
    destruct (D4 j o Hx) as (p & Hp & _). apply (so_open _ _ _ Hs j); [by eexists|done].
  - unfold shown_selection. cbn [sy_hub]. rewrite D2. destruct H3 as [[c Hc]|H3]; [left|by right].
    exists c. apply elem_of_app. right. apply elem_of_cons in Hc as [<-|]; [done|done].
Qed.

(** Publishing shows the announced request and takes away another. *)
Lemma publish_overtaken prompt id e w y threads :
  sound_with prompt (APublish e :: w) y -> overtaken_in id (APublish e :: w) y ->
  overtaken_in id w (mk_system (sy_state y) (server (sy_hub y) [e]) (sy_log y ++ [e]) threads (sy_asked y) (sy_begun y) (sy_decided y) (sy_sent y)).
Proof.
  intros Hs (H1 & H2 & H3). split_and!; [done|by intros ?; apply H2; right|].
  unfold shown_selection. cbn [sy_hub]. change (server (sy_hub y) [e]) with (apply_daemon_event e (sy_hub y)).
  destruct (so_publish _ _ _ Hs e) as [(i & c & ->)|(i & -> & Hi)]; [by left| |].
  - rewrite shown_pending, elem_of_app, elem_filter_ids, list_elem_of_singleton. destruct (decide (id = i)) as [->|Hne]; [by right; right|].
    destruct H3 as [[c' Hc]|H3]; [left|by right; left]. exists c'. apply elem_of_cons in Hc as [[= -> ->]|]; done.
  - cbn. rewrite elem_filter_ids. destruct H3 as [[c' Hc]|H3]; [left|right].
    + exists c'. by apply elem_of_cons in Hc as [|].
    + split; [|done]. intros ->. apply H2. by left.
Qed.

Lemma overtaken_weaken id a w y : (forall e, a <> APublish e) -> overtaken_in id (a :: w) y -> overtaken_in id w y.
Proof.
  intros Ha (H1 & H2 & H3). split_and!; [done|by intros ?; apply H2; right|]. destruct H3 as [[c Hc]|H3]; [left|by right].
  exists c. apply elem_of_cons in Hc as [Hc|]; [by destruct (Ha _ (eq_sym Hc))|done].
Qed.

Lemma overtaken_step encode prompt id y y' :
  sound prompt y -> step encode y y' -> overtaken_in id (under_way y) y -> overtaken_in id (under_way y') y'.
Proof.
  intros Hs Hstep Hover. destruct Hstep as [op Hop|i order Ho|e He].
  - destruct (program_actions op) as (P1 & _ & _). destruct Hover as (H1 & H2 & H3).
    assert (under_way (call op y) = under_way y ++ program op) as -> by apply concat_app_one. split_and!; [done| |].
    + intros [Hin|Hin]%elem_of_app; [by apply H2|by apply P1 in Hin].
    + destruct H3 as [[c Hc]|H3]; [left; exists c; apply elem_of_app; by left|by right].
  - unfold exec. destruct (sy_threads y !! i) as [[|a rest]|] eqn:E; [done| |done].
    destruct (concat_insert _ _ _ E) as (others & Hw & Hw').
    apply (sound_perm _ _ (a :: (rest ++ others))) in Hs; [|unfold under_way; by rewrite Hw].
    apply (overtaken_perm id _ (a :: (rest ++ others))) in Hover; [|unfold under_way; by rewrite Hw].
    set (f := run_action encode a order (sy_hub y) (sy_state y)).
    apply (overtaken_perm id (ef_next f ++ (rest ++ others))); [unfold under_way; cbn [sy_threads]; by rewrite Hw', app_assoc|].
    set (threads := <[i := ef_next f ++ rest]> (sy_threads y)). clearbody threads. clear Hw Hw'.
    destruct (plain a) eqn:Ha; [eapply decide_overtaken; try done; by apply action_decides|].
    destruct a; try done.
    + apply overtaken_weaken in Hover; [|done]. destruct Hover as (H1 & H2 & H3).
      subst f. cbn [run_action]. unfold begin_section. case_bool_decide; cbn; (split_and!; cbn; [by rewrite app_nil_r| |]).
      * done.
      * exact H3.
      * by intros [[=]|]%elem_of_cons.
      * destruct H3 as [[c Hc]|H3]; [left; exists c; by right|by right].
    + apply overtaken_weaken in Hover; [|done]. destruct Hover as (H1 & H2 & H3). cbn. split_and!; cbn; [by rewrite app_nil_r|done|done].
    + cbn. rewrite !app_nil_r. by eapply publish_overtaken.
  - destruct Hover as (H1 & H2 & H3). split_and!; [done|done|]. destruct H3 as [|H3]; [by left|right].
    unfold shown_selection in *. cbn [sy_hub other]. by rewrite He.
Qed.

Lemma overtaken_steps encode hub id y y' :
  sn_selections hub = [] -> reached encode false hub y -> rtc (step encode) y y' -> overtaken_in id (under_way y) y ->
  reached encode false hub y' /\ overtaken_in id (under_way y') y'.
Proof.
  intros Hh Hy Hsteps. revert Hy. induction Hsteps as [y|y y1 y' Hstep Hsteps IH]; intros Hy Hover; [done|].
  apply IH; [by eapply reached_step|]. eapply overtaken_step; [by eapply reached_sound|done|done].
Qed.

(** C23. An announcement that is overtaken by the resolution leaves a dialog
    behind.  From a state in which a request is decided, its resolution published
    and its announcement not yet, whatever operations begin, end, interleave
    and whatever the other parts publish about other things: once the announcement
    is published the projection shows the request, in every later state, though
    it is not pending and every answer to it is refused. *)
Theorem overtaken_announcement_stays encode hub y id :
  sn_selections hub = [] -> reached encode false hub y ->
  id ∈ decided_ids y -> APublish (SelectionResolved id) ∉ under_way y -> announcing id y ->
  forall y', rtc (step encode) y y' -> ~ announcing id y' ->
  shown_selection id y' /\ pending (sy_state y') !! id = None /\
  forall o, exists e, (resolve_section id o (sy_state y')).1 = Err e.
Proof.
  intros Hh Hy Hd Hp Ha y' Hsteps Hdone.
  destruct (overtaken_steps encode hub id y y' Hh Hy Hsteps) as [Hy' (H1 & _ & H3)]; [split; [done|split; [done|by left]]|].
  apply (reached_sound _ _ _ _ Hh) in Hy'.
  assert (pending (sy_state y') !! id = None) as Hnone.
  { apply eq_None_not_Some. intros Ho. by apply (so_open _ _ _ Hy' id). }
  split_and!; [by destruct H3|done|]. intros o. unfold resolve_section. rewrite Hnone. by eexists.
Qed.

(** The watcher falls behind and takes stock of the pending requests; before it
    cancels those of lost tasks another task asks. *)
Definition late_question : list move :=
  [MCall (Subscribe (lit "c")); MExec 0 []; MCall (Begin question_a); MExec 1 []; MExec 1 [waiting question_a];
   MCall Lagged; MExec 2 [waiting question_a]; MExec 2 [waiting question_a];
   MCall (Begin question_b); MExec 3 [waiting question_a]; MExec 3 [waiting question_a; waiting question_b];
   MExec 2 [waiting question_a; waiting question_b]; MExec 2 [waiting question_a]].

(** A request of a task the watcher has not taken stock of is cancelled as
    if its task were gone: the task is in the table, downloading, nothing has
    happened to it, nobody has answered, and its question is answered with a
    cancellation. *)
Theorem late_question_cancelled :
  exists y t, reached no_encoding false sample_server y /\ under_way y = [] /\
    find_task (lit "b") (sn_tasks (sy_hub y)) = Some t /\ t_status t = 1 /\ question_b ∈ sy_begun y /\
    sy_sent y = [(rq_id question_b, OCancelled)] /\
    sy_log y = [SelectionPending (lit "1") []; SelectionPending (lit "2") []; SelectionResolved (lit "2")].
Proof.
  exists (play late_question (system_new sample_server)), (sample_task (lit "b")). split; [|split_and!; try by vm_compute].
  - apply (play_reached late_question); [constructor|]. unfold late_question, all_playable. solve_playable.
  - assert (sy_begun (play late_question (system_new sample_server)) = [question_a; question_b]) as -> by by vm_compute. by right; left.
Qed.

(** ** Witnesses *)

Definition answered : list move :=
  [MCall (Subscribe (lit "c")); MExec 0 []; MCall (Begin question_a); MExec 1 []; MExec 1 [waiting question_a];
   MCall (Begin question_b); MExec 2 [waiting question_a]; MExec 2 [waiting question_a; waiting question_b];
   MCall (Resolve (lit "1") (OVariant 1)); MExec 3 [waiting question_a; waiting question_b]; MExec 3 [waiting question_b];
   MExec 3 [waiting question_b]].

Lemma answered_playable : all_playable answered (system_new sample_server).
Proof. unfold answered, all_playable. solve_playable. Qed.

Lemma answered_reached : reached no_encoding false sample_server (play answered (system_new sample_server)).
Proof. apply play_reached; [constructor|apply answered_playable]. Qed.

Lemma answered_prompt : reached no_encoding true sample_server (play answered (system_new sample_server)).
Proof.
  apply play_prompt; [constructor|apply answered_playable|]. unfold answered, all_prompt.
  split_and!; try done; vm_compute; repeat constructor; by eexists.
Qed.

Lemma decided_once_witness :
  let y := play answered (system_new sample_server) in
  sy_decided y = [(lit "1", OVariant 1)] /\ sy_sent y = [(lit "1", OVariant 1)] /\ NoDup (decided_ids y).
Proof.
  destruct (decided_once no_encoding sample_server (play answered (system_new sample_server)) eq_refl answered_reached)
    as (_ & _ & H & _). split; [by vm_compute|split; [by vm_compute|exact H]].
Defined.

(** The announcement of the overtaken request is published at last. *)
Lemma overtaken_announcement_stays_witness :
  let y := play overtaken (system_new sample_server) in
  let y' := exec no_encoding 1 [] y in
  sy_decided y' = [(lit "1", OVariant 0)] /\ sy_log y' = [SelectionResolved (lit "1"); SelectionPending (lit "1") []] /\
  shown_selection (lit "1") y' /\ pending (sy_state y') !! lit "1" = None.
Proof.
  intros y y'. assert (reached no_encoding false sample_server y) as Hy.
  { apply (play_reached overtaken); [constructor|]. unfold overtaken, all_playable. solve_playable. }
  assert (under_way y = [APublish (SelectionPending (lit "1") [])]) as Hw by by vm_compute.
  assert (decided_ids y = [lit "1"]) as Hd by by vm_compute.
  destruct (overtaken_announcement_stays no_encoding sample_server y (lit "1") eq_refl Hy) with (y' := y') as (H1 & H2 & _).
  - rewrite Hd. by left.
  - rewrite Hw. by intros [=]%list_elem_of_singleton.
  - exists []. rewrite Hw. by left.
  - apply rtc_once. apply step_exec. by vm_compute.
  - intros [c Hc]. assert (under_way y' = []) as E by by vm_compute. rewrite E in Hc. by apply not_elem_of_nil in Hc.
  - split; [by vm_compute|split; [by vm_compute|split; [exact H1|exact H2]]].
Defined.

Lemma answers_judged_witness :
  let s := sy_state (play answered (system_new sample_server)) in
  (resolve_section (lit "1") (OVariant 0) s).1 = Err Conflict /\
  (resolve_section (lit "2") (OHls 0) s).1 = Err InvalidOutcome.
Proof.
  cbv zeta. set (y := play answered _).
  pose proof (answers_judged no_encoding sample_server y (lit "1") (OVariant 0) eq_refl answered_reached) as H1.
  pose proof (answers_judged no_encoding sample_server y (lit "2") (OHls 0) eq_refl answered_reached) as H2.
  destruct (resolve_section (lit "1") (OVariant 0) (sy_state y)) as [a1 s1], (resolve_section (lit "2") (OHls 0) (sy_state y)) as [a2 s2].
  destruct H1 as (_ & H1 & _), H2 as (H2 & _). split; [apply H1; vm_compute; by left|].
  cbn [fst]. rewrite (H2 question_b); [done|vm_compute; right; by left|done|]. by_decision.
Defined.

Lemma dialogs_shown_witness :
  let y := play answered (system_new sample_server) in
  under_way y = [] /\ shown_selection (lit "2") y /\ ~ shown_selection (lit "1") y.
Proof.
  cbv zeta. destruct (dialogs_shown no_encoding true sample_server (play answered (system_new sample_server)) eq_refl answered_prompt) as [_ H].
  - by vm_compute.
  - split; [by vm_compute|]. split.
    + apply H; [done|]. apply (bool_decide_unpack _). by vm_compute.
    + intros [x Hx]%H; [|done]. by vm_compute in Hx.
Defined.

Lemma answers_understood_witness :
  let y := play answered (system_new sample_server) in
  (lit "1", OVariant 1) ∈ sy_sent y /\ exists r, r ∈ sy_begun y /\ rq_id r = lit "1".
Proof.
  cbv zeta. assert ((lit "1", OVariant 1) ∈ sy_sent (play answered (system_new sample_server))) as H by (vm_compute; by left). split; [exact H|].
  destruct (answers_understood no_encoding sample_server _ (lit "1") (OVariant 1) eq_refl answered_reached H) as (r & Hr & Hid & _).
  by exists r.
Defined.
