(* ===== verification/FileNames.v ===== *)
(** * FileNames: which name a download gets, and who may replace a file

    Downloads of one directory choose their names concurrently: a name is probed
    on disk outside any lock, its temporary path is reserved in a shared set, the
    disk is probed again; the download takes the lease of its temporary file
    before it writes it ([temp_file_guard.rs]), and when it is complete its final
    name is claimed by creating it exclusively before the temporary file is
    renamed over it; then the lease and the reservation are given back
    ([reserve_deduped_name_blocking] of [download_manager.rs]; [DedupCursor],
    [claim_rename] and [claim_final_name] of [downloader.rs]; [file_exists.rs]).

    Programs are trees of operations on the directory and on the set of reserved
    paths, so that every operation is a step of its own: [step] interleaves the
    lives of any number of tasks, any operation failing, and other programs that
    create and change files of their own.

    A path is a name in the directory.  The file system's notion of equal names
    ([key]) and [str::to_lowercase] are parameters, as are the text of a UUID and
    what a lease makes of a resolved path ([lease_fold]: lower case on Windows,
    nothing elsewhere).  Resolving a path may give it in another spelling the
    file system takes for it, where the entry exists. *)
From Stdlib Require Import Ascii.
From S2P Require Import Prelude Text.

(** ** Decisions about existing files ([file_exists.rs]) *)

Inductive OverwritePolicy := OwNever | OwAny | OwOnly (asked : text).

Definition permits (p : OverwritePolicy) (name : text) : bool :=
  match p with OwNever => false | OwAny => true | OwOnly asked => bool_decide (asked = name) end.

Inductive ExistsDecision := DecNone | DecRename | DecOverwrite | DecSkip.
Inductive AskSupport := AskNone | WithSkip | NoSkip.
Inductive FileExistsBehavior := BhRename | BhOverwrite | BhSkip | BhAsk.

#[export] Instance decision_eq : EqDecision ExistsDecision.
Proof. solve_decision. Defined.
#[export] Instance support_eq : EqDecision AskSupport.
Proof. solve_decision. Defined.
#[export] Instance behavior_eq : EqDecision FileExistsBehavior.
Proof. solve_decision. Defined.
#[export] Instance policy_eq : EqDecision OverwritePolicy.
Proof. solve_decision. Defined.

Record ExistsFacts := mk_facts {
  ef_final_file_exists : bool; ef_temp_conflict : bool; ef_decision : ExistsDecision; ef_global : FileExistsBehavior;
  ef_support : AskSupport; ef_unattended : bool; ef_can_prompt : bool }.

Inductive ExistsAction := ActDedup | ActOverwrite | ActSkip | ActAsk (allow_skip : bool).

Definition from_db (value : text) : ExistsDecision :=
  if bool_decide (value = lit "rename") then DecRename
  else if bool_decide (value = lit "overwrite") then DecOverwrite
  else if bool_decide (value = lit "skip") then DecSkip else DecNone.

Definition as_db (d : ExistsDecision) : text :=
  match d with DecNone => lit "" | DecRename => lit "rename" | DecOverwrite => lit "overwrite" | DecSkip => lit "skip" end.

Definition decide_existing (f : ExistsFacts) : ExistsAction :=
  if negb (ef_final_file_exists f) then ActDedup
  else
    let skip_ok := bool_decide (ef_support f = WithSkip) in
    let wants_skip :=
      match ef_decision f with
      | DecSkip => true
      | DecNone => bool_decide (ef_global f = BhSkip) && skip_ok
      | DecRename | DecOverwrite => false
      end in
    if wants_skip then ActSkip
    else if ef_temp_conflict f then ActDedup
    else
      match ef_decision f with
      | DecRename => ActDedup
      | DecOverwrite => ActOverwrite
      | DecSkip | DecNone =>
          match ef_global f with
          | BhRename => ActDedup
          | BhOverwrite => ActOverwrite
          | BhSkip => if skip_ok then ActSkip else ActDedup
          | BhAsk =>
              if bool_decide (ef_support f = AskNone) || ef_unattended f || negb (ef_can_prompt f) then ActDedup
              else ActAsk skip_ok
          end
      end.

Definition global_overwrite_policy (b : FileExistsBehavior) : OverwritePolicy :=
  if bool_decide (b = BhOverwrite) then OwAny else OwNever.

(** The policy a starting task goes on with, unless it skips or asks. *)
Definition start_policy (name : text) (f : ExistsFacts) (spawned : OverwritePolicy) : option OverwritePolicy :=
  match decide_existing f with
  | ActSkip | ActAsk _ => None
  | ActOverwrite => Some (if bool_decide (spawned = OwNever) then OwOnly name else spawned)
  | ActDedup => Some spawned
  end.

(** ** Names *)

Definition TEMP_EXT : text := lit ".fdownloading".
Definition DEDUP_PROBE_LIMIT : nat := 32.
Definition DEDUP_MAX_NUMBER : nat := Z.to_nat 9999.

Definition temp_of (name : text) : text := name ++ TEMP_EXT.

Definition DOT : ascii := "."%char.

(** [Path::file_stem] and [Path::extension] of a name that is one path
    component: split at the last dot, a leading dot alone does not count. *)
Fixpoint split_last_dot (s : text) : option (text * text) :=
  match s with
  | [] => None
  | c :: s' =>
      match split_last_dot s' with
      | Some (a, b) => Some (c :: a, b)
      | None => if decide (c = DOT) then Some ([], s') else None
      end
  end.

Definition split_name (name : text) : option (text * text) :=
  if bool_decide (name = lit "..") then None
  else match split_last_dot name with Some ((_ :: _) as stem, ext) => Some (stem, ext) | _ => None end.

Definition file_stem (name : text) : text := from_option fst name (split_name name).
Definition extension (name : text) : option text := snd <$> split_name name.

Definition suffixed (name tag : text) : text :=
  match extension name with
  | Some ext => file_stem name ++ lit " (" ++ tag ++ lit ")." ++ ext
  | None => file_stem name ++ lit " (" ++ tag ++ lit ")"
  end.

(** The candidates of a cursor. *)
Definition candidate (name : text) (index : nat) : text :=
  match index with O => name | _ => suffixed name (show_nat (Z.of_nat index)) end.

Example candidates :
  map (fun x => candidate (lit x.1) x.2) [("a.zip", 0%nat); ("a.tar.gz", 2%nat); (".profile", 1%nat); ("notes", 12%nat); ("x.", 3%nat)]%string
  = [lit "a.zip"; lit "a.tar (2).gz"; lit ".profile (1)"; lit "notes (12)"; lit "x (3)."].
Proof. by vm_compute. Qed.

Definition uuid_suffixed_name (unique name : text) : text := suffixed name unique.

Definition companion_mp4_name (name : text) : text := file_stem name ++ lit ".mp4".

(** ** Programs *)

(** [std::io::ErrorKind], as far as the code looks at it. *)
Inductive io_error := NotFound | InvalidFilename | AlreadyExists | OtherError.

(** What [metadata] tells. *)
Inductive kind := KFile | KDir | KLink.

Inductive prog (A : Type) : Type :=
| Done (a : A)
| SymlinkMetadata (name : text) (k : result kind io_error -> prog A)
| Metadata (name : text) (k : result kind io_error -> prog A)
| ReadDir (k : result (list text) io_error -> prog A)
| CreateNew (name : text) (k : result unit io_error -> prog A)
| RenameFile (src dst : text) (k : result unit io_error -> prog A)
| RemoveFile (name : text) (k : result unit io_error -> prog A)
| InsertReserved (temp : text) (k : bool -> prog A)
| RemoveReserved (temp : text) (k : prog A)
| InsertUnique (name : text) (k : text -> prog A)
| NewUuid (k : text -> prog A)
| WriteTemp (temp : text) (k : prog A)
| AcquireLease (temp : text) (k : option text -> prog A)
| ReleaseLease (lease : text) (k : prog A).
Arguments Done {A}.
Arguments SymlinkMetadata {A}.
Arguments Metadata {A}.
Arguments ReadDir {A}.
Arguments CreateNew {A}.
Arguments RenameFile {A}.
Arguments RemoveFile {A}.
Arguments InsertReserved {A}.
Arguments RemoveReserved {A}.
Arguments InsertUnique {A}.
Arguments NewUuid {A}.
Arguments WriteTemp {A}.
Arguments AcquireLease {A}.
Arguments ReleaseLease {A}.

Fixpoint pbind {A B} (p : prog A) (f : A -> prog B) : prog B :=
  match p with
  | Done a => f a
  | SymlinkMetadata n k => SymlinkMetadata n (fun r => pbind (k r) f)
  | Metadata n k => Metadata n (fun r => pbind (k r) f)
  | ReadDir k => ReadDir (fun r => pbind (k r) f)
  | CreateNew n k => CreateNew n (fun r => pbind (k r) f)
  | RenameFile s d k => RenameFile s d (fun r => pbind (k r) f)
  | RemoveFile n k => RemoveFile n (fun r => pbind (k r) f)
  | InsertReserved t k => InsertReserved t (fun r => pbind (k r) f)
  | RemoveReserved t k => RemoveReserved t (pbind k f)
  | InsertUnique n k => InsertUnique n (fun r => pbind (k r) f)
  | NewUuid k => NewUuid (fun r => pbind (k r) f)
  | WriteTemp t k => WriteTemp t (pbind k f)
  | AcquireLease t k => AcquireLease t (fun r => pbind (k r) f)
  | ReleaseLease l k => ReleaseLease l (pbind k f)
  end.

(** A program that may fail, and the [?] of [io::Result]. *)
Definition io (A : Type) : Type := prog (result A io_error).

Declare Scope prog_scope.
Delimit Scope prog_scope with prog.
Notation "'do!' x ':=' p 'in' k" := (pbind p (fun x => k)) (at level 10, x pattern, p at level 200, k at level 200) : prog_scope.
Notation "'try!' x ':=' p 'in' k" :=
  (pbind p (fun r => match r with Ok x => k | Err e => Done (Err e) end)) (at level 10, x pattern, p at level 200, k at level 200) : prog_scope.
Open Scope prog_scope.

Definition op_SymlinkMetadata n : io kind := SymlinkMetadata n Done.
Definition op_Metadata n : io kind := Metadata n Done.

(** ** Probing *)

Section Code.
Context (to_lowercase : text -> text).

Record DedupRules := mk_rules {
  ru_reserved : option (gset text);
  ru_avoid : option (gset text);
  ru_allow_overwrite : bool;
  ru_companion_mp4 : bool }.

Definition absent (e : io_error) : bool := match e with NotFound | InvalidFilename => true | _ => false end.

Definition entry_exists (path : text) : io bool :=
  SymlinkMetadata path (fun r => Done match r with
    | Ok _ => Ok true
    | Err e => if absent e then Ok false else Err e
    end).

Definition path_is_dir (path : text) : io bool :=
  Metadata path (fun r => Done match r with
    | Ok m => Ok (match m with KDir => true | _ => false end)
    | Err e => if absent e then Ok false else Err e
    end).

Definition contains (s : option (gset text)) (x : text) : bool := match s with Some s => bool_decide (x ∈ s) | None => false end.

Definition candidate_taken_by_probe (cand : text) (rules : DedupRules) (overwrite_final : bool) : io bool :=
  let temp_path := temp_of cand in
  if contains (ru_reserved rules) temp_path || contains (ru_avoid rules) (to_lowercase cand) then Done (Ok true)
  else
    try! found := entry_exists temp_path in
    if found : bool then Done (Ok true)
    else
      let companion := if ru_companion_mp4 rules then Some (companion_mp4_name cand) else None in
      if overwrite_final then
        try! dir := path_is_dir cand in
        if dir : bool then Done (Ok true)
        else
          match companion with
          | Some c =>
              try! dir := path_is_dir c in
              Done (Ok dir)
          | None => Done (Ok false)
          end
      else
        try! found := entry_exists cand in
        if found : bool then Done (Ok true)
        else match companion with Some c => entry_exists c | None => Done (Ok false) end.

Definition candidate_taken_in_scan (cand : text) (rules : DedupRules) (existing : gset text) : bool :=
  let folded := to_lowercase cand in
  let temp_name := temp_of cand in
  contains (ru_reserved rules) temp_name
  || contains (ru_avoid rules) folded
  || bool_decide (folded ∈ existing)
  || bool_decide (to_lowercase temp_name ∈ existing)
  || ru_companion_mp4 rules && bool_decide (to_lowercase (companion_mp4_name cand) ∈ existing).

Definition scan_dir_folded : io (gset text) :=
  ReadDir (fun r => Done match r with
    | Ok entries => Ok (list_to_set (map to_lowercase entries))
    | Err NotFound => Ok ∅
    | Err e => Err e
    end).

(** ** The cursor *)

(** The candidates left ([0 ..= 9999] in all), the next number, the scan. *)
Record DedupCursor := mk_cursor { cu_left : nat; cu_next : nat; cu_scan : option (gset text) }.

Definition cursor_new : DedupCursor := mk_cursor (S DEDUP_MAX_NUMBER) 0 None.

Fixpoint next_free_loop (numbers : nat) (name : text) (rules : DedupRules) (next : nat) (scan : option (gset text))
    : io (option text * DedupCursor) :=
  match numbers with
  | O => Done (Ok (None, mk_cursor O next scan))
  | S numbers =>
      let cand := candidate name next in
      if (next <=? DEDUP_PROBE_LIMIT)%nat then
        let overwrite_final := (next =? 0)%nat && ru_allow_overwrite rules in
        try! taken := candidate_taken_by_probe cand rules overwrite_final in
        if taken : bool then next_free_loop numbers name rules (S next) scan
        else Done (Ok (Some cand, mk_cursor numbers (S next) scan))
      else
        try! existing := match scan with Some s => Done (Ok s) | None => scan_dir_folded end in
        if candidate_taken_in_scan cand rules existing then next_free_loop numbers name rules (S next) (Some existing)
        else Done (Ok (Some cand, mk_cursor numbers (S next) (Some existing)))
  end.

Definition next_free (name : text) (rules : DedupRules) (c : DedupCursor) : io (option text * DedupCursor) :=
  next_free_loop (cu_left c) name rules (cu_next c) (cu_scan c).

Definition dedup_name_by_probe (name : text) (rules : DedupRules) : io text :=
  try! found := next_free name rules cursor_new in
  match found.1 with
  | Some chosen => Done (Ok chosen)
  | None => NewUuid (fun u => Done (Ok (uuid_suffixed_name u name)))
  end.

Definition name_free_on_disk (cand : text) (allow_overwrite companion_mp4 : bool) : io bool :=
  try! taken := candidate_taken_by_probe cand (mk_rules None None allow_overwrite companion_mp4) allow_overwrite in
  Done (Ok (negb taken)).

Definition dedup_filename (name : text) (reserved avoid : gset text) (overwrite : OverwritePolicy) : prog text :=
  do! r := dedup_name_by_probe name (mk_rules (Some reserved) (Some avoid) (permits overwrite name) false) in
  match r with
  | Ok chosen => Done chosen
  | Err _ => NewUuid (fun u => Done (uuid_suffixed_name u name))
  end.

(** ** Reserving *)

(** Every round takes a number from the cursor. *)
Fixpoint reserve_loop (rounds : nat) (name : text) (allow_overwrite companion_mp4 : bool) (c : DedupCursor) : prog (option (text * text)) :=
  match rounds with
  | O => Done None
  | S rounds =>
      do! r := next_free name (mk_rules None None allow_overwrite companion_mp4) c in
      match r with
      | Err _ | Ok (None, _) => Done None
      | Ok (Some chosen, c) =>
          let temp := temp_of chosen in
          InsertReserved temp (fun inserted =>
            if inserted then
              let overwrite_final := allow_overwrite && bool_decide (chosen = name) in
              do! r := name_free_on_disk chosen overwrite_final companion_mp4 in
              match r with
              | Ok true => Done (Some (chosen, temp))
              | Ok false => RemoveReserved temp (reserve_loop rounds name allow_overwrite companion_mp4 c)
              | Err _ => RemoveReserved temp (Done None)
              end
            else reserve_loop rounds name allow_overwrite companion_mp4 c)
      end
  end.

Definition reserve_deduped_name_blocking (name : text) (overwrite : OverwritePolicy) (companion_mp4 : bool) : prog (text * text) :=
  do! r := reserve_loop (S (cu_left cursor_new)) name (permits overwrite name) companion_mp4 cursor_new in
  match r with
  | Some reserved => Done reserved
  | None => InsertUnique name (fun u => let unique := uuid_suffixed_name u name in Done (unique, temp_of unique))
  end.

(** ** Claiming *)

Definition claim_rename (src dst : text) : io unit :=
  CreateNew dst (fun r =>
    match r with
    | Err e => Done (Err e)
    | Ok _ =>
        RenameFile src dst (fun r =>
          match r with
          | Ok _ => Done (Ok tt)
          | Err e => RemoveFile dst (fun _ => Done (Err e))
          end)
    end).

(** [more]: the conflicts that may still follow; [attempt > 5] ends the loop. *)
Fixpoint claim_loop (more : nat) (src name : text) (overwrite : OverwritePolicy) (avoid : gset text) (chosen : text)
    (overwrite_attempted : bool) : io text :=
  do! r := claim_rename src chosen in
  match r with
  | Ok _ => Done (Ok chosen)
  | Err AlreadyExists =>
      match more with
      | O => Done (Err AlreadyExists)
      | S more =>
          let re_dedup attempted :=
            do! chosen := dedup_filename name ∅ avoid OwNever in
            claim_loop more src name overwrite avoid chosen attempted in
          if permits overwrite name && negb overwrite_attempted && bool_decide (chosen = name)
             && negb (bool_decide (to_lowercase chosen ∈ avoid))
          then
            Metadata chosen (fun m =>
              match m with
              | Ok KDir => re_dedup true
              | _ =>
                  RemoveFile chosen (fun r =>
                    match r with Ok _ => claim_loop more src name overwrite avoid chosen true | Err _ => re_dedup true end)
              end)
          else re_dedup overwrite_attempted
      end
  | Err e => Done (Err e)
  end.

Definition claim_final_name (src name : text) (overwrite : OverwritePolicy) (avoid : gset text) : io text :=
  claim_loop 5 src name overwrite avoid name false.

(** ** A task's life *)

(** What a task brings along: the name it asks for, the policy of its start, how
    often it writes, whether the transfer completes; then the name as refined by
    what was downloaded and the names of unfinished siblings read from the
    database. *)
Record task := mk_task {
  tk_name : text; tk_overwrite : OverwritePolicy; tk_companion : bool; tk_writes : nat; tk_completes : bool;
  tk_refined : text -> text; tk_avoid : gset text }.

Fixpoint writes (n : nat) (temp : text) (p : prog unit) : prog unit :=
  match n with O => p | S n => WriteTemp temp (writes n temp p) end.

(** The lease is held from before the first write to the end of the run. *)
Definition life (t : task) : prog unit :=
  do! reserved := reserve_deduped_name_blocking (tk_name t) (tk_overwrite t) (tk_companion t) in
  let '(chosen, temp) := reserved in
  AcquireLease temp (fun lease =>
    match lease with
    | None => RemoveReserved temp (Done tt)
    | Some lease =>
        writes (S (tk_writes t)) temp
          (if tk_completes t then
             do! _ := claim_final_name temp (tk_refined t chosen) (tk_overwrite t) (tk_avoid t) in
             ReleaseLease lease (RemoveReserved temp (Done tt))
           else ReleaseLease lease (RemoveReserved temp (Done tt)))
    end).

End Code.

(** ** The directory *)

(** A placeholder is the empty file of an exclusive creation. *)
Inductive content := Placeholder (owner : nat) | Data (owner : nat) | Foreign (c : Z).
Inductive entry := EFile (c : content) | EDir | ELink (target : option kind).

#[export] Instance content_eq : EqDecision content.
Proof. solve_decision. Defined.
#[export] Instance kind_eq : EqDecision kind.
Proof. solve_decision. Defined.
#[export] Instance entry_eq : EqDecision entry.
Proof. solve_decision. Defined.

(** The directory, the reserved paths, the leases with their holders, the files
    completed. *)
Record store := mk_store {
  st_disk : gmap text entry; st_reserved : gset text; st_leases : gmap text nat; st_finished : list (text * nat) }.

Definition set_disk d s := mk_store d (st_reserved s) (st_leases s) (st_finished s).
Definition set_reserved r s := mk_store (st_disk s) r (st_leases s) (st_finished s).
Definition set_leases l s := mk_store (st_disk s) (st_reserved s) l (st_finished s).

(** [symlink_metadata] and [metadata], which follows links; any call may fail. *)
Definition lstat (e : option entry) : result kind io_error :=
  match e with Some (EFile _) => Ok KFile | Some EDir => Ok KDir | Some (ELink _) => Ok KLink | None => Err NotFound end.
Definition stat (e : option entry) : result kind io_error :=
  match e with Some (ELink (Some k)) => Ok k | Some (ELink None) => Err NotFound | _ => lstat e end.

(** A name too long does not exist. *)
Definition answers (e : option entry) (truth r : result kind io_error) : Prop :=
  r = truth \/ r = Err OtherError \/ r = Err InvalidFilename /\ e = None.

Definition foreign (e : option entry) : bool :=
  match e with Some (EFile (Foreign _)) | Some EDir | Some (ELink _) | None => true | _ => false end.

(** Names that are not those of temporary files. *)
Definition plain (n : text) : Prop := ~ TEMP_EXT `suffix_of` n.

Section World.
Context (key lease_fold : text -> text).

Definition at_ (n : text) (s : store) : option entry := st_disk s !! key n.
Definition put (n : text) (e : entry) (s : store) : store := set_disk (<[key n := e]> (st_disk s)) s.
Definition drop_entry (n : text) (s : store) : store := set_disk (delete (key n) (st_disk s)) s.

(** The path of a lease is resolved by the file system: an existing entry may be
    told by any of its spellings, a missing one keeps the one it is asked by.
    (A temporary path is no link: its task has seen it absent.) *)
Inductive op_step (i : nat) (s : store) : prog unit -> store -> prog unit -> Prop :=
| op_lstat n k r : answers (at_ n s) (lstat (at_ n s)) r -> op_step i s (SymlinkMetadata n k) s (k r)
| op_stat n k r : answers (at_ n s) (stat (at_ n s)) r -> op_step i s (Metadata n k) s (k r)
| op_readdir k r : op_step i s (ReadDir k) s (k r)
| op_create n k : at_ n s = None -> op_step i s (CreateNew n k) (put n (EFile (Placeholder i)) s) (k (Ok tt))
| op_create_fails n k e : op_step i s (CreateNew n k) s (k (Err e))
| op_rename src dst k e :
    at_ src s = Some e -> at_ dst s <> Some EDir ->
    op_step i s (RenameFile src dst k)
      (mk_store (<[key dst := e]> (delete (key src) (st_disk s))) (st_reserved s) (st_leases s) (st_finished s ++ [(dst, i)])) (k (Ok tt))
| op_rename_fails src dst k e : op_step i s (RenameFile src dst k) s (k (Err e))
| op_remove n k e : at_ n s = Some e -> e <> EDir -> op_step i s (RemoveFile n k) (drop_entry n s) (k (Ok tt))
| op_remove_fails n k e : op_step i s (RemoveFile n k) s (k (Err e))
| op_insert t k : t ∉ st_reserved s -> op_step i s (InsertReserved t k) (set_reserved (st_reserved s ∪ {[t]}) s) (k true)
| op_insert_taken t k : t ∈ st_reserved s -> op_step i s (InsertReserved t k) s (k false)
| op_unreserve t k : op_step i s (RemoveReserved t k) (set_reserved (st_reserved s ∖ {[t]}) s) k
| op_unique u n k :
    let unique := uuid_suffixed_name u n in
    temp_of unique ∉ st_reserved s -> at_ (temp_of unique) s = None ->
    op_step i s (InsertUnique n k) (set_reserved (st_reserved s ∪ {[temp_of unique]}) s) (k u)
| op_uuid k u : op_step i s (NewUuid k) s (k u)
| op_write t k : op_step i s (WriteTemp t k) (put t (EFile (Data i)) s) k
| op_acquire t spelled k :
    key spelled = key t -> (at_ t s = None -> spelled = t) -> st_leases s !! lease_fold spelled = None ->
    op_step i s (AcquireLease t k) (set_leases (<[lease_fold spelled := i]> (st_leases s)) s) (k (Some (lease_fold spelled)))
| op_acquire_fails t k : op_step i s (AcquireLease t k) s (k None)
| op_release l k : op_step i s (ReleaseLease l k) (set_leases (delete l (st_leases s)) s) k.

Record world := mk_world { w_store : store; w_threads : list (prog unit) }.

(** One operation of a task, or a change another program makes to entries of
    its own. *)
Inductive step (w : world) : option nat -> world -> Prop :=
| step_task i p s p' :
    w_threads w !! i = Some p -> op_step i (w_store w) p s p' -> step w (Some i) (mk_world s (<[i := p']> (w_threads w)))
| step_other n e :
    plain n -> foreign (at_ n (w_store w)) = true -> foreign e = true ->
    step w None (mk_world (set_disk (partial_alter (fun _ => e) (key n) (st_disk (w_store w))) (w_store w)) (w_threads w)).

Context (to_lowercase : text -> text) (tasks : list task).

Inductive reached : world -> Prop :=
| reached_start disk :
    map_Forall (fun _ e => foreign (Some e) = true) disk ->
    reached (mk_world (mk_store disk ∅ ∅ []) (map (life to_lowercase) tasks))
| reached_step w who w' : reached w -> step w who w' -> reached w'.

(** A task may replace a file of the name it is complete with, when its policy
    permits that name and no unfinished sibling bears it. *)
Definition may_replace (t : task) (n : text) : Prop :=
  (exists chosen, n = tk_refined t chosen) /\ permits (tk_overwrite t) n = true /\ to_lowercase n ∉ tk_avoid t.

End World.

(** ** Running *)

(** A directory that answers without failures, and a fixed UUID. *)
Section Running.
Context (key lease_fold : text -> text) (uuid : text) (i : nat).

Definition entries (s : store) : list text := map fst (map_to_list (st_disk s)).

Definition try_create (n : text) (s : store) : store * result unit io_error :=
  match at_ key n s with None => (put key n (EFile (Placeholder i)) s, Ok tt) | Some _ => (s, Err AlreadyExists) end.

Definition try_rename (src dst : text) (s : store) : store * result unit io_error :=
  match at_ key src s with
  | None => (s, Err NotFound)
  | Some e =>
      if bool_decide (at_ key dst s = Some EDir) then (s, Err OtherError)
      else (mk_store (<[key dst := e]> (delete (key src) (st_disk s))) (st_reserved s) (st_leases s) (st_finished s ++ [(dst, i)]), Ok tt)
  end.

Definition try_remove (n : text) (s : store) : store * result unit io_error :=
  match at_ key n s with
  | None => (s, Err NotFound)
  | Some e => if bool_decide (e = EDir) then (s, Err OtherError) else (drop_entry key n s, Ok tt)
  end.

Definition try_insert (t : text) (s : store) : store * bool :=
  if bool_decide (t ∈ st_reserved s) then (s, false) else (set_reserved (st_reserved s ∪ {[t]}) s, true).

(** An entry is told by the spelling it is asked by. *)
Definition try_acquire (t : text) (s : store) : store * option text :=
  match st_leases s !! lease_fold t with
  | Some _ => (s, None)
  | None => (set_leases (<[lease_fold t := i]> (st_leases s)) s, Some (lease_fold t))
  end.

(** The next operation. *)
Definition next_op {A} (p : prog A) (s : store) : option (store * prog A) :=
  match p with
  | Done _ => None
  | SymlinkMetadata n k => Some (s, k (lstat (at_ key n s)))
  | Metadata n k => Some (s, k (stat (at_ key n s)))
  | ReadDir k => Some (s, k (Ok (entries s)))
  | CreateNew n k => let '(s, r) := try_create n s in Some (s, k r)
  | RenameFile src dst k => let '(s, r) := try_rename src dst s in Some (s, k r)
  | RemoveFile n k => let '(s, r) := try_remove n s in Some (s, k r)
  | InsertReserved t k => let '(s, r) := try_insert t s in Some (s, k r)
  | RemoveReserved t k => Some (set_reserved (st_reserved s ∖ {[t]}) s, k)
  | InsertUnique n k =>
      let unique := uuid_suffixed_name uuid n in
      if bool_decide (temp_of unique ∉ st_reserved s) && bool_decide (at_ key (temp_of unique) s = None)
      then Some (set_reserved (st_reserved s ∪ {[temp_of unique]}) s, k uuid) else None
  | NewUuid k => Some (s, k uuid)
  | WriteTemp t k => Some (put key t (EFile (Data i)) s, k)
  | AcquireLease t k => let '(s, r) := try_acquire t s in Some (s, k r)
  | ReleaseLease l k => Some (set_leases (delete l (st_leases s)) s, k)
  end.

(** A whole program, alone. *)
Fixpoint run_alone {A} (p : prog A) (s : store) : option (store * A) :=
  match p with
  | Done a => Some (s, a)
  | SymlinkMetadata n k => run_alone (k (lstat (at_ key n s))) s
  | Metadata n k => run_alone (k (stat (at_ key n s))) s
  | ReadDir k => run_alone (k (Ok (entries s))) s
  | CreateNew n k => let '(s, r) := try_create n s in run_alone (k r) s
  | RenameFile src dst k => let '(s, r) := try_rename src dst s in run_alone (k r) s
  | RemoveFile n k => let '(s, r) := try_remove n s in run_alone (k r) s
  | InsertReserved t k => let '(s, r) := try_insert t s in run_alone (k r) s
  | RemoveReserved t k => run_alone k (set_reserved (st_reserved s ∖ {[t]}) s)
  | InsertUnique n k =>
      let unique := uuid_suffixed_name uuid n in
      if bool_decide (temp_of unique ∉ st_reserved s) && bool_decide (at_ key (temp_of unique) s = None)
      then run_alone (k uuid) (set_reserved (st_reserved s ∪ {[temp_of unique]}) s) else None
  | NewUuid k => run_alone (k uuid) s
  | WriteTemp t k => run_alone k (put key t (EFile (Data i)) s)
  | AcquireLease t k => let '(s, r) := try_acquire t s in run_alone (k r) s
  | ReleaseLease l k => run_alone k (set_leases (delete l (st_leases s)) s)
  end.
End Running.

(** Operations of tasks, in an order. *)
Fixpoint play (key lease_fold : text -> text) (uuid : text) (order : list nat) (w : world) : option world :=
  match order with
  | [] => Some w
  | i :: order =>
      let* p := w_threads w !! i in
      let* sp := next_op key lease_fold uuid i p (w_store w) in
      play key lease_fold uuid order (mk_world sp.1 (<[i := sp.2]> (w_threads w)))
  end.

(** ** The reference

    The whole directory is read first; names are compared folded. *)
Section Reference.
Context (to_lowercase : text -> text).

Definition reference_taken (existing : gset text) (reserved avoid : gset text) (cand : text) : bool :=
  bool_decide (temp_of cand ∈ reserved) || bool_decide (to_lowercase cand ∈ avoid)
  || bool_decide (to_lowercase (temp_of cand) ∈ existing).

(** [for index in 1..=9999]. *)
Fixpoint reference_loop (free : text -> bool) (name : text) (numbers index : nat) : option text :=
  match numbers with
  | O => None
  | S numbers => if free (candidate name index) then Some (candidate name index) else reference_loop free name numbers (S index)
  end.

Definition dedup_reference_scan (names : list text) (is_dir : bool) (name : text) (reserved avoid : gset text) (allow_overwrite : bool) : option text :=
  let existing := list_to_set (map to_lowercase names) : gset text in
  if negb (reference_taken existing reserved avoid name
           || (if allow_overwrite then is_dir else bool_decide (to_lowercase name ∈ existing)))
  then Some name
  else
    reference_loop (fun cand => negb (reference_taken existing reserved avoid cand || bool_decide (to_lowercase cand ∈ existing)))
      name DEDUP_MAX_NUMBER 1.
End Reference.
