(* ===== verification/Claims.v ===== *)
(** * Claims: concurrent downloads never share or lose a file

    A logic for the programs of [FileNames]: [good] says what a program may do to
    the directory given what its task holds, and is stable under everything the
    other tasks and other programs do.  It yields the invariant of the reachable
    worlds and the theorems about temporary files, completed files and the files
    of other programs; and, on any file system, that leases exclude a second
    writer when they fold names as the file system does; then the cursor against its reference definition, and the
    decisions about existing files. *)
From Stdlib Require Import Ascii FunctionalExtensionality.
From S2P Require Import Prelude Text FileNames.

(** ** Names *)

#[export] Instance plain_dec n : Decision (plain n).
Proof. unfold plain. apply _. Defined.

Lemma temp_not_plain n : ~ plain (temp_of n).
Proof. intros H. apply H. by exists n. Qed.

#[export] Instance temp_of_inj : Inj (=) (=) temp_of.
Proof. intros a b H. by apply app_inv_tail in H. Qed.

Lemma split_last_dot_eq s a b : split_last_dot s = Some (a, b) -> s = a ++ DOT :: b /\ DOT ∉ b.
Proof.
  revert a. induction s as [|c s IH]; intros a; [done|]. cbn. destruct (split_last_dot s) as [[a' b']|] eqn:E.
  - intros [= <- <-]. destruct (IH a' eq_refl) as [-> Hd]. done.
  - case_decide as Hc; [|done]. intros [= <- <-]. subst c. split; [done|]. intros Hin. clear IH.
    induction s as [|x s IHs]; [by apply not_elem_of_nil in Hin|]. cbn in E. destruct (split_last_dot s) as [[? ?]|] eqn:E'; [done|].
    case_decide; [done|]. apply elem_of_cons in Hin as [Hx|Hin]; [by rewrite Hx in *|]. by apply IHs.
Qed.

Lemma split_name_eq name stem ext : split_name name = Some (stem, ext) -> name = stem ++ DOT :: ext /\ DOT ∉ ext.
Proof.
  unfold split_name. case_bool_decide; [done|]. destruct (split_last_dot name) as [[[|c s] e]|] eqn:E; [done| |done].
  intros [= <- <-]. exact (split_last_dot_eq _ _ _ E).
Qed.

Lemma suffix_last {A} (x y : A) l1 l2 : l1 ++ [x] `suffix_of` l2 ++ [y] -> x = y.
Proof. intros [k H]. rewrite app_assoc in H. by apply app_inj_tail in H as [_ ->]. Qed.

Lemma last_split {A} (x : A) l1 l2 b1 b2 : x ∉ b1 -> x ∉ b2 -> l1 ++ x :: b1 = l2 ++ x :: b2 -> l1 = l2 /\ b1 = b2.
Proof.
  intros H1 H2. revert l2. induction l1 as [|y l1 IH]; intros [|z l2] H; cbn in H.
  - by injection H.
  - injection H as -> ->. exfalso. apply H1. set_solver.
  - injection H as -> <-. exfalso. apply H2. set_solver.
  - injection H as -> H. by destruct (IH l2 H) as [-> ->].
Qed.

(** A numbered name ends the way the name does. *)
Lemma suffixed_plain name tag : plain name -> plain (suffixed name tag).
Proof.
  intros Hp. unfold suffixed, extension, file_stem. destruct (split_name name) as [[stem ext]|] eqn:E; cbn.
  - apply split_name_eq in E as [-> Hd]. intros [k H]. apply Hp.
    assert (TEMP_EXT = DOT :: lit "fdownloading") as HT by done.
    assert (ext = lit "fdownloading") as ->; [|exists stem; by rewrite HT].
    destruct (last_split DOT (stem ++ lit " (" ++ tag ++ lit ")") k ext (lit "fdownloading")) as [_ He]; [done| | |exact He].
    + apply (bool_decide_unpack _). by vm_compute.
    + rewrite <- !app_assoc. exact H.
  - intros H. assert (lit ".fdownloadin" ++ ["g"%char] `suffix_of` (name ++ lit " (" ++ tag) ++ [")"%char]) as Hs
      by (rewrite <- !app_assoc; exact H).
    by apply suffix_last in Hs.
Qed.

Lemma candidate_plain name i : plain name -> plain (candidate name i).
Proof. destruct i; [done|]. apply suffixed_plain. Qed.

(** ** What a program may do *)

(** A reservation: just made, found free, leased, written under a lease. *)
Inductive phase := Unchecked | Checked | Leased (lease : text) | Written (lease : text).

Definition lease_of (ph : phase) : option text := match ph with Leased l | Written l => Some l | _ => None end.

#[export] Instance phase_eq : EqDecision phase.
Proof. solve_decision. Defined.

(** What a task holds: a temporary path, and the names of its placeholders. *)
Record holding := mk_holding { ho_temp : option (text * phase); ho_own : gset text }.

Definition after_lstat (n : text) (r : result kind io_error) (h : holding) : holding :=
  match ho_temp h, r with
  | Some (t, Unchecked), Err e => if bool_decide (t = n) && absent e then mk_holding (Some (t, Checked)) (ho_own h) else h
  | _, _ => h
  end.

Fixpoint good {A} (may : text -> Prop) (p : prog A) (h : holding) (Q : holding -> A -> Prop) : Prop :=
  match p with
  | Done a => Q h a
  | SymlinkMetadata n k => forall r, good may (k r) (after_lstat n r h) Q
  | Metadata _ k => forall r, good may (k r) h Q
  | ReadDir k => forall r, good may (k r) h Q
  | CreateNew n k =>
      plain n /\ good may (k (Ok tt)) (mk_holding (ho_temp h) (ho_own h ∪ {[n]})) Q /\ forall e, good may (k (Err e)) h Q
  | RenameFile src dst k =>
      exists l, ho_temp h = Some (src, Written l) /\ dst ∈ ho_own h /\
      good may (k (Ok tt)) (mk_holding (Some (src, Leased l)) (ho_own h ∖ {[dst]})) Q /\ forall e, good may (k (Err e)) h Q
  | RemoveFile n k => plain n /\ (n ∈ ho_own h \/ may n) /\ forall r, good may (k r) (mk_holding (ho_temp h) (ho_own h ∖ {[n]})) Q
  | InsertReserved t k =>
      ~ plain t /\ ho_temp h = None /\ good may (k true) (mk_holding (Some (t, Unchecked)) (ho_own h)) Q /\ good may (k false) h Q
  | RemoveReserved t k => (exists ph, ho_temp h = Some (t, ph) /\ lease_of ph = None) /\ good may k (mk_holding None (ho_own h)) Q
  | InsertUnique n k =>
      ho_temp h = None /\
      forall u, good may (k u) (mk_holding (Some (temp_of (uuid_suffixed_name u n), Checked)) (ho_own h)) Q
  | NewUuid k => forall u, good may (k u) h Q
  | WriteTemp t k =>
      exists ph l, ho_temp h = Some (t, ph) /\ lease_of ph = Some l /\ good may k (mk_holding (Some (t, Written l)) (ho_own h)) Q
  | AcquireLease t k =>
      ho_temp h = Some (t, Checked) /\ (forall l, good may (k (Some l)) (mk_holding (Some (t, Leased l)) (ho_own h)) Q) /\ good may (k None) h Q
  | ReleaseLease l k =>
      exists t ph, ho_temp h = Some (t, ph) /\ lease_of ph = Some l /\ good may k (mk_holding (Some (t, Checked)) (ho_own h)) Q
  end.

Lemma good_bind {A B} may (p : prog A) (f : A -> prog B) h Q :
  good may p h (fun h a => good may (f a) h Q) -> good may (pbind p f) h Q.
Proof.
  revert h. induction p as [a|n k IH|n k IH|k IH|n k IH|s d k IH|n k IH|t k IH|t p IH|n k IH|k IH|t p IH|t k IH|l p IH]; intros h; cbn; try done.
  - intros H r. apply IH, H.
  - intros H r. apply IH, H.
  - intros H r. apply IH, H.
  - intros (? & ? & H). split; [done|]. split; [by apply IH|]. intros e. apply IH, H.
  - intros (l & ? & ? & ? & H). exists l. do 2 (split; [done|]). split; [by apply IH|]. intros e. apply IH, H.
  - intros (? & ? & H). do 2 (split; [done|]). intros r. apply IH, H.
  - intros (? & ? & ? & H). do 2 (split; [done|]). split; by apply IH.
  - intros (? & H). split; [done|]. by apply IH.
  - intros (? & H). split; [done|]. intros u. apply IH, H.
  - intros H u. apply IH, H.
  - intros (ph & l & ? & ? & H). exists ph, l. do 2 (split; [done|]). by apply IH.
  - intros (? & H1 & H2). split; [done|]. split; [intros l; apply IH, H1|by apply IH].
  - intros (t & ph & ? & ? & H). exists t, ph. do 2 (split; [done|]). by apply IH.
Qed.

Lemma good_mono {A} may (p : prog A) h (Q Q' : holding -> A -> Prop) :
  (forall h a, Q h a -> Q' h a) -> good may p h Q -> good may p h Q'.
Proof.
  intros HQ. revert h. induction p as [a|n k IH|n k IH|k IH|n k IH|s d k IH|n k IH|t k IH|t p IH|n k IH|k IH|t p IH|t k IH|l p IH]; intros h; cbn; try naive_solver.
Qed.

(** Programs that agree on the results agree. *)
Lemma pbind_ext {A B} may (p : prog A) h (f g : A -> prog B) : good may p h (fun _ a => f a = g a) -> pbind p f = pbind p g.
Proof.
  revert h. induction p as [a|n k IH|n k IH|k IH|n k IH|s d k IH|n k IH|t k IH|t p IH|n k IH|k IH|t p IH|t k IH|l p IH]; intros h; cbn; intros H; try done; f_equal;
    try (apply functional_extensionality; intros r).
  - by eapply IH.
  - by eapply IH.
  - by eapply IH.
  - destruct H as (_ & H1 & H2). destruct r as [[]|e]; by eapply IH.
  - destruct H as (l & _ & _ & H1 & H2). destruct r as [[]|e]; by eapply IH.
  - destruct H as (_ & _ & H). by eapply IH.
  - destruct H as (_ & _ & H1 & H2). destruct r; by eapply IH.
  - destruct H as [_ H]. by eapply IH.
  - destruct H as [_ H]. by eapply IH.
  - by eapply IH.
  - destruct H as (ph & l & _ & _ & H). by eapply IH.
  - destruct H as (_ & H1 & H2). destruct r; by eapply IH.
  - destruct H as (t & ph & _ & _ & H). by eapply IH.
Qed.

(** *** Probing only checks *)

Definition checks (h h' : holding) : Prop :=
  ho_own h' = ho_own h /\
  (ho_temp h' = ho_temp h \/ exists t, ho_temp h = Some (t, Unchecked) /\ ho_temp h' = Some (t, Checked)).

Definition checked (n : text) (h : holding) : Prop := ho_temp h <> Some (n, Unchecked).

#[export] Instance checks_preorder : PreOrder checks.
Proof.
  split.
  - intros h. split; [done|by left].
  - intros h1 h2 h3 [O1 T1] [O2 T2]. split; [congruence|]. destruct T1 as [T1|(t & T1 & T1')], T2 as [T2|(t' & T2 & T2')].
    + left. congruence.
    + right. exists t'. split; congruence.
    + right. exists t. split; congruence.
    + congruence.
Qed.

Lemma checks_none h h' : checks h h' -> ho_temp h = None -> h' = h.
Proof. destruct h, h'. unfold checks. cbn. intros [-> [->|(t & -> & _)]]; [done|by intros [=]]. Qed.

Lemma checks_checked n h h' : checks h h' -> checked n h -> checked n h'.
Proof. unfold checks, checked. intros [_ [->|(t & -> & ->)]]; [done|]. intros _. by intros [=]. Qed.

Lemma after_lstat_checks n r h : checks h (after_lstat n r h).
Proof.
  unfold after_lstat. destruct (ho_temp h) as [[t []]|] eqn:E; try done. destruct r as [|e]; [done|]. case_match; [|done].
  split; [done|]. right. by exists t.
Qed.

Section Programs.
Context (may : text -> Prop) (to_lowercase : text -> text).

(** A probe that says [false] has seen that the entry is absent. *)
Lemma entry_exists_good n h (Q : holding -> result bool io_error -> Prop) :
  (forall h' r, checks h h' -> (r = Ok false -> checked n h') -> Q h' r) -> good may (entry_exists n) h Q.
Proof.
  intros HQ r. cbn. apply HQ; [apply after_lstat_checks|]. intros Hr. unfold checked, after_lstat.
  destruct r as [|e]; [done|]. destruct (absent e) eqn:He; [|done]. destruct (ho_temp h) as [[t []]|] eqn:E; try (rewrite E; by intros [=]).
  case_bool_decide; cbn; [by intros [=]|]. rewrite E. by intros [=].
Qed.

Lemma path_is_dir_good n h (Q : holding -> result bool io_error -> Prop) : (forall r, Q h r) -> good may (path_is_dir n) h Q.
Proof. intros HQ r. apply HQ. Qed.

Lemma probe_good cand rules overwrite h (Q : holding -> result bool io_error -> Prop) :
  (forall h' r, checks h h' -> (r = Ok false -> checked (temp_of cand) h') -> Q h' r) ->
  good may (candidate_taken_by_probe to_lowercase cand rules overwrite) h Q.
Proof.
  intros HQ. unfold candidate_taken_by_probe. destruct (_ || _); [by apply HQ|]. apply good_bind, entry_exists_good.
  intros h1 [[]|e] C1 H1; try by apply HQ. specialize (H1 eq_refl).
  assert (forall h' r, checks h1 h' -> Q h' r) as HQ1.
  { intros h' r C. apply HQ; [by etrans|]. intros _. by eapply checks_checked. }
  destruct overwrite; apply good_bind.
  - apply path_is_dir_good. intros [[]|e]; try by apply HQ1. destruct (ru_companion_mp4 rules); [|by apply HQ1].
    apply good_bind, path_is_dir_good. intros [|]; by apply HQ1.
  - apply entry_exists_good. intros h2 [[]|e] C2 _; try by apply HQ1. destruct (ru_companion_mp4 rules); [|by apply HQ1].
    apply entry_exists_good. intros h3 r C3 _. apply HQ1. by etrans.
Qed.

Lemma next_free_good name rules c h (Q : holding -> result (option text * DedupCursor) io_error -> Prop) :
  (forall h' r, checks h h' ->
     (forall cand c', r = Ok (Some cand, c') -> (exists i, cand = candidate name i) /\ (cu_left c' < cu_left c)%nat) -> Q h' r) ->
  good may (next_free to_lowercase name rules c) h Q.
Proof.
  intros HQ. unfold next_free. destruct c as [left next scan]. cbn [cu_left cu_next cu_scan].
  revert next scan h HQ. induction left as [|left IH]; intros next scan h HQ; cbn [next_free_loop]; [by apply HQ|].
  assert (forall scan h' i, checks h h' -> Q h' (Ok (Some (candidate name i), mk_cursor left (S next) scan))) as Hfound.
  { intros scan' h' i C. apply HQ; [done|]. intros cand c' [= <- <-]. split; [by exists i|]. cbn. lia. }
  assert (forall scan h', checks h h' -> good may (next_free_loop to_lowercase left name rules (S next) scan) h' Q) as Hnext.
  { intros scan' h' C. apply IH. intros h2 r C2 H2. apply HQ; [by etrans|]. intros cand c' Hr. destruct (H2 _ _ Hr) as [? H3]. split; [done|]. cbn in *. lia. }
  destruct (_ <=? _)%nat.
  - apply good_bind, probe_good. intros h' [[]|e] C _; [by apply Hnext|by apply Hfound|by apply HQ].
  - apply good_bind. assert (forall r, good may (match r with
        | Ok existing => if candidate_taken_in_scan to_lowercase (candidate name next) rules existing
                         then next_free_loop to_lowercase left name rules (S next) (Some existing)
                         else Done (Ok (Some (candidate name next), mk_cursor left (S next) (Some existing)))
        | Err e => Done (Err e) end) h Q) as Hr.
    { intros [existing|e]; [|by apply HQ]. destruct (candidate_taken_in_scan _ _ _ _); [by apply Hnext|by apply Hfound]. }
    destruct scan as [existing|]; [by apply (Hr (Ok existing))|]. intros r. apply Hr.
Qed.

(** The candidate chosen is one of the cursor's, or carries a UUID. *)
Definition named (name chosen : text) : Prop := (exists i, chosen = candidate name i) \/ exists u, chosen = uuid_suffixed_name u name.

Lemma named_plain name chosen : plain name -> named name chosen -> plain chosen.
Proof. intros Hp [[i ->]|[u ->]]; [by apply candidate_plain|by apply suffixed_plain]. Qed.

Lemma dedup_filename_good name reserved avoid overwrite h (Q : holding -> text -> Prop) :
  (forall h' chosen, checks h h' -> named name chosen -> Q h' chosen) -> good may (dedup_filename to_lowercase name reserved avoid overwrite) h Q.
Proof.
  intros HQ. unfold dedup_filename, dedup_name_by_probe. apply good_bind, good_bind, next_free_good. intros h' r C Hr.
  destruct r as [[[cand|] c']|e]; cbn.
  - apply HQ; [done|]. left. by apply (Hr cand c').
  - intros u. apply HQ; [done|]. right. by exists u.
  - intros u. apply HQ; [done|]. right. by exists u.
Qed.

(** What a reservation is. *)
Definition reservation (name : text) (own : gset text) (h : holding) (chosen temp : text) : Prop :=
  named name chosen /\ temp = temp_of chosen /\ h = mk_holding (Some (temp, Checked)) own.

Lemma reserve_loop_good rounds name allow companion c own (Q : holding -> option (text * text) -> Prop) :
  (forall h chosen temp, reservation name own h chosen temp -> Q h (Some (chosen, temp))) -> Q (mk_holding None own) None ->
  good may (reserve_loop to_lowercase rounds name allow companion c) (mk_holding None own) Q.
Proof.
  intros HS HN. revert c. induction rounds as [|rounds IH]; intros c; cbn [reserve_loop]; [done|].
  apply good_bind, next_free_good. intros h r C%checks_none Hr; [|done]. subst h.
  destruct r as [[[cand|] c']|e]; [|done|done]. cbn [good]. split; [apply temp_not_plain|]. split; [done|]. split; [|apply IH].
  apply good_bind. unfold name_free_on_disk. apply good_bind, probe_good. intros h' r C Hc.
  assert (exists ph, h' = mk_holding (Some (temp_of cand, ph)) own /\ lease_of ph = None) as (ph & Hh' & Hph).
  { destruct h' as [temp' own']. destruct C as [Ho [Ht|(t & Ht & Ht')]]; cbn in *; subst; [by eexists|].
    injection Ht as <-. by eexists. }
  destruct r as [[]|e]; cbn.
  - split; [|subst h'; apply IH]. exists ph. by rewrite Hh'.
  - apply HS. split_and!; [left; by eapply Hr|done|]. rewrite Hh'. specialize (Hc eq_refl). rewrite Hh' in Hc. unfold checked in Hc. cbn in Hc.
    by destruct ph.
  - subst h'. split; [by exists ph|done].
Qed.

(** The number of rounds is no limit: every round takes candidates away. *)
Lemma reserve_loop_rounds rounds1 rounds2 name allow companion c :
  (cu_left c < rounds1)%nat -> (cu_left c < rounds2)%nat ->
  reserve_loop to_lowercase rounds1 name allow companion c = reserve_loop to_lowercase rounds2 name allow companion c.
Proof.
  revert rounds2 c. induction rounds1 as [|rounds1 IH]; intros [|rounds2] c H1 H2; try lia. cbn [reserve_loop].
  apply (pbind_ext may _ (mk_holding None ∅)), next_free_good. intros _ r _ Hr. destruct r as [[[cand|] c']|e]; [|done..].
  destruct (Hr _ _ eq_refl) as [_ Hc]. assert (reserve_loop to_lowercase rounds1 name allow companion c' = reserve_loop to_lowercase rounds2 name allow companion c') as Hsame
    by (apply IH; lia).
  f_equal. apply functional_extensionality. intros []; [|done]. f_equal. apply functional_extensionality. intros [[]|]; [done| |done]. by rewrite Hsame.
Qed.

Lemma reserve_good name overwrite companion own (Q : holding -> text * text -> Prop) :
  (forall h chosen temp, reservation name own h chosen temp -> Q h (chosen, temp)) ->
  good may (reserve_deduped_name_blocking to_lowercase name overwrite companion) (mk_holding None own) Q.
Proof.
  intros HQ. apply good_bind, reserve_loop_good.
  - intros h chosen temp Hr. by apply HQ.
  - cbn. split; [done|]. intros u. apply HQ. split_and!; [right; by exists u|done|done].
Qed.

Lemma claim_rename_good src dst l h (Q : holding -> result unit io_error -> Prop) :
  ho_temp h = Some (src, Written l) -> plain dst ->
  (forall h' r, ho_temp h' = Some (src, match r with Ok _ => Leased l | Err _ => Written l end) -> Q h' r) -> good may (claim_rename src dst) h Q.
Proof.
  intros Ht Hd HQ. cbn. split; [done|]. split; [|intros e; by apply HQ]. exists l. split; [done|]. split; [set_solver|]. split; [by apply HQ|].
  intros e. split; [done|]. split; [left; set_solver|]. intros r. by apply HQ.
Qed.

(** The lease of the temporary path [src] is held. *)
Definition leased (src l : text) (h : holding) : Prop := exists ph, ho_temp h = Some (src, ph) /\ lease_of ph = Some l.

Lemma claim_loop_good more src l name overwrite avoid chosen attempted h (Q : holding -> result text io_error -> Prop) :
  (permits overwrite name = true -> to_lowercase name ∉ avoid -> may name) ->
  ho_temp h = Some (src, Written l) -> plain name -> plain chosen ->
  (forall h' r, leased src l h' -> Q h' r) ->
  good may (claim_loop to_lowercase more src name overwrite avoid chosen attempted) h Q.
Proof.
  intros Hmay Ht Hn Hc HQ. revert chosen attempted h Ht Hc.
  induction more as [|more IH]; intros chosen attempted h Ht Hc; cbn [claim_loop]; apply good_bind, (claim_rename_good _ _ l); try done.
  { intros h' [[]|e] Hh'; [apply HQ; by eexists|]. destruct e; apply HQ; by eexists. }
  intros h' [[]|e] Hh'; [apply HQ; by eexists|]. destruct e; try (apply HQ; by eexists).
  assert (forall a h', ho_temp h' = Some (src, Written l) -> good may
    (do! chosen := dedup_filename to_lowercase name ∅ avoid OwNever in claim_loop to_lowercase more src name overwrite avoid chosen a) h' Q) as Hdedup.
  { intros a h1 Hh1. apply good_bind, dedup_filename_good. intros h2 cand [_ [H2|(t & H2 & _)]] Hcand; [|congruence].
    apply IH; [congruence|]. exact (named_plain _ _ Hn Hcand). }
  destruct (_ && _ && _ && _) eqn:E; [|by apply Hdedup]. bool_hyps. subst chosen. intros m.
  destruct m as [[]|e]; try by apply Hdedup.
  all: split; [done|]; split; [right; by apply Hmay|]; intros [[]|e']; [by apply IH|by apply Hdedup].
Qed.

(** The end of a run. *)
Lemma given_back_good src l h : leased src l h -> good may (ReleaseLease l (RemoveReserved src (Done tt))) h (fun _ _ => True).
Proof. intros (ph & Ht & Hl). cbn. exists src, ph. do 2 (split; [done|]). split; [|done]. by exists Checked. Qed.

Lemma writes_good n src l h p :
  ho_temp h = Some (src, Written l) -> (forall h, ho_temp h = Some (src, Written l) -> good may p h (fun _ _ => True)) ->
  good may (writes n src p) h (fun _ _ => True).
Proof.
  intros Hh Hp. revert h Hh. induction n as [|n IH]; intros h Hh; cbn; [by apply Hp|]. exists (Written l), l. do 2 (split; [done|]). by apply IH.
Qed.
End Programs.

Lemma life_good to_lowercase t :
  plain (tk_name t) -> (forall chosen, plain chosen -> plain (tk_refined t chosen)) ->
  good (may_replace to_lowercase t) (life to_lowercase t) (mk_holding None ∅) (fun _ _ => True).
Proof.
  intros Hn Hr. unfold life. apply good_bind, reserve_good. intros h chosen temp (Hnamed & _ & ->).
  pose proof (Hr _ (named_plain _ _ Hn Hnamed)) as Hrefined.
  cbn [good]. split; [done|]. split; [|by split; [exists Checked|]]. intros l. cbn [writes good ho_own]. exists (Leased l), l. do 2 (split; [done|]).
  apply (writes_good _ _ _ l); [done|]. intros h Hh. destruct (tk_completes t); [|apply given_back_good; by eexists].
  apply good_bind, (claim_loop_good _ _ _ _ l); try done; [intros ? ?; split_and!; [by exists chosen|done..]|]. intros h' _ Hh'. by apply given_back_good.
Qed.

(** ** The invariant *)

Section Safety.
Context (key lease_fold : text -> text) `{!Inj (=) (=) key} (to_lowercase : text -> text) (tasks : list task).
Context (Hnames : Forall (fun t => plain (tk_name t) /\ forall chosen, plain chosen -> plain (tk_refined t chosen)) tasks).

(** Names no task may replace. *)
Definition kept (n : text) : Prop := forall t, t ∈ tasks -> ~ may_replace to_lowercase t n.

Local Abbreviation at_ := (at_ key).
Local Abbreviation reached := (reached key lease_fold to_lowercase tasks).

(** What task [i] holds, against the directory. *)
Record holds (i : nat) (h : holding) (s : store) : Prop := mk_holds {
  hd_temp t ph : ho_temp h = Some (t, ph) -> ~ plain t /\ t ∈ st_reserved s;
  hd_checked t ph : ho_temp h = Some (t, ph) -> ph <> Unchecked -> at_ t s = None \/ at_ t s = Some (EFile (Data i));
  hd_written t l : ho_temp h = Some (t, Written l) -> at_ t s = Some (EFile (Data i));
  hd_own n : n ∈ ho_own h -> plain n /\ (kept n -> at_ n s = Some (EFile (Placeholder i))) }.

Record sound (w : world) (hs : list holding) : Prop := mk_sound {
  so_length : length hs = length tasks;
  so_threads : length (w_threads w) = length tasks;
  so_good i t p h :
    tasks !! i = Some t -> w_threads w !! i = Some p -> hs !! i = Some h -> good (may_replace to_lowercase t) p h (fun _ _ => True);
  so_holds i h : hs !! i = Some h -> holds i h (w_store w);
  so_apart i j h h' t ph ph' : hs !! i = Some h -> hs !! j = Some h' -> ho_temp h = Some (t, ph) -> ho_temp h' = Some (t, ph') -> i = j;
  so_finished n i : (n, i) ∈ st_finished (w_store w) -> plain n /\ (kept n -> at_ n (w_store w) = Some (EFile (Data i))) }.

Lemma at_put_eq n e s : at_ n (put key n e s) = Some e.
Proof. apply lookup_insert_eq. Qed.
Lemma at_put_ne n m e s : n <> m -> at_ m (put key n e s) = at_ m s.
Proof. intros Hne. apply lookup_insert_ne. intros ?%(inj key). done. Qed.
Lemma at_drop_ne n m s : n <> m -> at_ m (drop_entry key n s) = at_ m s.
Proof. intros Hne. apply lookup_delete_ne. intros ?%(inj key). done. Qed.

(** What one operation of task [i] does to the others. *)
Record frame (i : nat) (h h' : holding) (s s' : store) : Prop := mk_frame {
  fr_temps t : ~ plain t -> t ∈ st_reserved s -> (forall ph, ho_temp h <> Some (t, ph)) -> at_ t s' = at_ t s /\ t ∈ st_reserved s';
  fr_kept n e : plain n -> kept n -> at_ n s = Some e -> e <> EFile (Placeholder i) -> at_ n s' = Some e;
  fr_finished n j : (n, j) ∈ st_finished s' -> (n, j) ∈ st_finished s \/ j = i /\ plain n /\ (kept n -> at_ n s' = Some (EFile (Data i)));
  fr_new t ph : ho_temp h' = Some (t, ph) -> (exists ph, ho_temp h = Some (t, ph)) \/ t ∉ st_reserved s }.

Lemma frame_refl i h h' s : (forall t ph, ho_temp h' = Some (t, ph) -> exists ph, ho_temp h = Some (t, ph)) -> frame i h h' s s.
Proof. intros Ht. constructor; [done|done|by left|]. intros t ph H. left. by eapply Ht. Qed.

Lemma plain_temp_ne n t : plain n -> ~ plain t -> n <> t.
Proof. by intros Hn Ht ->. Qed.

(** Holdings that differ in nothing the directory shows. *)
Lemma holds_read i h h' s :
  holds i h s -> checks h h' -> (forall t, ho_temp h' = Some (t, Checked) -> ho_temp h = Some (t, Checked) \/ at_ t s = None) -> holds i h' s.
Proof.
  intros [H1 H2 H3 H4] [Ho Ht] Hc. constructor.
  - intros t ph H. destruct Ht as [Ht|(t' & Ht & Ht')]; [apply (H1 t ph); congruence|]. assert (t' = t) as -> by congruence. by apply (H1 t Unchecked).
  - intros t ph H Hph. destruct Ht as [Ht|(t' & Ht & Ht')]; [apply (H2 t ph); congruence|]. assert (ph = Checked) as -> by congruence.
    destruct (Hc t H) as [Hc'|Hc']; [by apply (H2 t Checked)|by left].
  - intros t l H. destruct Ht as [Ht|(t' & Ht & Ht')]; [apply (H3 t l); congruence|congruence].
  - intros n. rewrite Ho. apply H4.
Qed.

Lemma checks_temp h h' t ph : checks h h' -> ho_temp h' = Some (t, ph) -> exists ph, ho_temp h = Some (t, ph).
Proof. intros [_ [->|(t' & -> & ->)]]; [by eexists|]. intros [= <- _]. by eexists. Qed.

Lemma lstat_effect i h s n r : holds i h s -> answers (at_ n s) (lstat (at_ n s)) r -> holds i (after_lstat n r h) s.
Proof.
  intros Hh Hr. apply (holds_read _ _ _ _ Hh (after_lstat_checks _ _ _)). intros t. unfold after_lstat.
  destruct (ho_temp h) as [[t' []]|] eqn:E; try (rewrite E; by left). destruct r as [|e]; [rewrite E; by left|].
  case_match eqn:Hb; [|rewrite E; by left]. bool_hyps. subst t'. cbn. intros [= <-]. right.
  destruct Hr as [Hr|[[= ->]|[_ Hr]]]; [|done|done]. by destruct (at_ n s) as [[| |]|].
Qed.

(** A change of a plain name that keeps what is kept. *)
Lemma plain_effect i h own n s s' :
  holds i h s -> plain n -> st_reserved s' = st_reserved s -> st_finished s' = st_finished s -> (forall m, m <> n -> at_ m s' = at_ m s) ->
  (forall m, m ∈ own -> m <> n -> m ∈ ho_own h) -> (n ∈ own -> kept n -> at_ n s' = Some (EFile (Placeholder i))) ->
  (forall e, kept n -> at_ n s = Some e -> e <> EFile (Placeholder i) -> at_ n s' = Some e) ->
  holds i (mk_holding (ho_temp h) own) s' /\ frame i h (mk_holding (ho_temp h) own) s s'.
Proof.
  intros [H1 H2 H3 H4] Hn Hr Hf Hat Hown Hnew Hkeep. split; constructor; cbn.
  - intros t ph H. rewrite Hr. by eapply H1.
  - intros t ph H Hph. rewrite Hat; [by eapply H2|]. intros ->. by apply (H1 _ _ H).
  - intros t l H. rewrite Hat; [by eapply H3|]. intros ->. by apply (H1 _ _ H).
  - intros m Hm. destruct (decide (m = n)) as [->|Hne]; [split; [done|by apply Hnew]|]. rewrite Hat by done. by apply H4, Hown.
  - intros t Ht Hin _. rewrite Hr, Hat; [done|]. by intros ->.
  - intros m e Hm Hk He Hp. destruct (decide (m = n)) as [->|Hne]; [by apply Hkeep|]. by rewrite Hat.
  - intros m j. rewrite Hf. by left.
  - intros t ph H. left. by exists ph.
Qed.

Lemma create_effect i h n s :
  holds i h s -> plain n -> at_ n s = None ->
  let h' := mk_holding (ho_temp h) (ho_own h ∪ {[n]}) in let s' := put key n (EFile (Placeholder i)) s in holds i h' s' /\ frame i h h' s s'.
Proof.
  intros Hh Hn Hfree. apply (plain_effect i h _ n); try done.
  - intros m Hne. by apply at_put_ne.
  - set_solver.
  - intros _ _. apply at_put_eq.
  - intros e _ He. congruence.
Qed.

Lemma remove_effect i t h n s s' :
  holds i h s -> t ∈ tasks -> plain n -> n ∈ ho_own h \/ may_replace to_lowercase t n -> s' = s \/ s' = drop_entry key n s ->
  let h' := mk_holding (ho_temp h) (ho_own h ∖ {[n]}) in holds i h' s' /\ frame i h h' s s'.
Proof.
  intros Hh Ht Hn Hor Hs'. apply (plain_effect i h _ n); try done.
  - by destruct Hs' as [->| ->].
  - by destruct Hs' as [->| ->].
  - intros m Hne. destruct Hs' as [->| ->]; [done|]. by apply at_drop_ne.
  - set_solver.
  - set_solver.
  - intros e Hk He Hp. destruct Hor as [Hown|Hmay]; [|by destruct (Hk t)]. apply (hd_own _ _ _ Hh) in Hown as [_ Hown].
    rewrite Hown in He by done. by injection He as <-.
Qed.

Lemma rename_effect i h src dst l e s :
  holds i h s -> ho_temp h = Some (src, Written l) -> dst ∈ ho_own h -> at_ src s = Some e ->
  let s' := mk_store (<[key dst := e]> (delete (key src) (st_disk s))) (st_reserved s) (st_leases s) (st_finished s ++ [(dst, i)]) in
  let h' := mk_holding (Some (src, Leased l)) (ho_own h ∖ {[dst]}) in holds i h' s' /\ frame i h h' s s'.
Proof.
  intros [H1 H2 H3 H4] Ht Hown Hsrc s' h'. destruct (H1 _ _ Ht) as [Hsp Hsr]. destruct (H4 _ Hown) as [Hdp Hdk].
  assert (dst <> src) as Hne by (by apply plain_temp_ne).
  assert (forall m, m <> dst -> m <> src -> at_ m s' = at_ m s) as Hat.
  { intros m Hmd Hms. unfold s', FileNames.at_. cbn. rewrite lookup_insert_ne by (intros ?%(inj key); done).
    apply lookup_delete_ne. by intros ?%(inj key). }
  assert (at_ src s' = None) as Hs by (unfold s', FileNames.at_; cbn; rewrite lookup_insert_ne by (by intros ?%(inj key)); apply lookup_delete_eq).
  assert (at_ dst s' = Some (EFile (Data i))) as Hd.
  { rewrite (H3 _ _ Ht) in Hsrc. injection Hsrc as <-. unfold s', FileNames.at_. cbn. apply lookup_insert_eq. }
  split; constructor; cbn.
  - intros t ph [= <- _]. done.
  - intros t ph [= <- _] _. by left.
  - intros t l' [=].
  - intros m [Hm Hmd]%elem_of_difference. destruct (H4 _ Hm) as [Hmp Hmk]. split; [done|]. intros Hk. rewrite Hat; [by apply Hmk|set_solver|].
    by apply plain_temp_ne.
  - intros t Htp Htr Hnot. rewrite Hat; [done| |].
    + intros ->. done.
    + intros ->. by apply (Hnot (Written l)).
  - intros m e' Hmp Hk He' Hp. destruct (decide (m = dst)) as [->|Hmd]; [rewrite Hdk in He' by done; congruence|]. rewrite Hat; [done|done|].
    by apply plain_temp_ne.
  - intros m j [Hin|[= -> ->]%list_elem_of_singleton]%elem_of_app; [by left|]. by right.
  - intros t ph [= <- _]. left. by eexists.
Qed.

(** Changes of the set of reserved paths. *)
Lemma reserve_effect i h t ph s :
  holds i h s -> ~ plain t -> ho_temp h = None -> t ∉ st_reserved s -> ph = Unchecked \/ ph = Checked /\ at_ t s = None ->
  let h' := mk_holding (Some (t, ph)) (ho_own h) in let s' := set_reserved (st_reserved s ∪ {[t]}) s in holds i h' s' /\ frame i h h' s s'.
Proof.
  intros [H1 H2 H3 H4] Hp Hn Ht Hph. split; constructor; cbn; try done.
  - intros t' ph' [= <- _]. split; [done|set_solver].
  - intros t' ph' [= <- <-] Hu. destruct Hph as [->|[-> Ha]]; [done|]. by left.
  - intros t' l [= <- ->]. by destruct Hph as [|[? _]].
  - intros t' _ Hin _. split; [done|set_solver].
  - by left.
  - intros t' ph' [= <- _]. by right.
Qed.

Lemma unreserve_effect i h t ph s :
  holds i h s -> ho_temp h = Some (t, ph) ->
  let h' := mk_holding None (ho_own h) in let s' := set_reserved (st_reserved s ∖ {[t]}) s in holds i h' s' /\ frame i h h' s s'.
Proof.
  intros [H1 H2 H3 H4] Ht. split; constructor; cbn; try done.
  - intros t' Hp Hin Hnot. split; [done|]. apply elem_of_difference. split; [done|]. intros ->%elem_of_singleton. by apply (Hnot ph).
  - by left.
Qed.

Lemma write_effect i h t ph l s :
  holds i h s -> ho_temp h = Some (t, ph) ->
  let h' := mk_holding (Some (t, Written l)) (ho_own h) in let s' := put key t (EFile (Data i)) s in holds i h' s' /\ frame i h h' s s'.
Proof.
  intros [H1 H2 H3 H4] Ht. destruct (H1 _ _ Ht) as [Hp Hr]. split; constructor; cbn.
  - intros t' ph' [= <- _]. done.
  - intros t' ph' [= <- _] _. right. apply at_put_eq.
  - intros t' l' [= <- _]. apply at_put_eq.
  - intros n Hn. destruct (H4 _ Hn) as [Hnp Hnk]. rewrite at_put_ne by (intros ->; done). done.
  - intros t' Hp' Hin Hnot. rewrite at_put_ne by (intros ->; by apply (Hnot ph)). done.
  - intros n e Hn _ He _. rewrite at_put_ne by (intros ->; done). done.
  - by left.
  - intros t' ph' [= <- _]. left. by eexists.
Qed.

(** Taking and giving back a lease: the directory stays. *)
Lemma lease_effect i h t ph ph' leases s :
  holds i h s -> ho_temp h = Some (t, ph) -> ph <> Unchecked -> (forall l, ph' <> Written l) ->
  let h' := mk_holding (Some (t, ph')) (ho_own h) in let s' := set_leases leases s in holds i h' s' /\ frame i h h' s s'.
Proof.
  intros [H1 H2 H3 H4] Ht Hph Hnew. split; constructor; cbn; try done.
  - intros t' p' [= <- _]. by eapply H1.
  - intros t' p' [= <- _] _. by eapply H2.
  - intros t' l [= <- E]. by destruct (Hnew l).
  - by left.
  - intros t' p' [= <- _]. left. by eexists.
Qed.

Lemma op_effect i t h s p s' p' :
  t ∈ tasks -> good (may_replace to_lowercase t) p h (fun _ _ => True) -> holds i h s -> op_step key lease_fold i s p s' p' ->
  exists h', good (may_replace to_lowercase t) p' h' (fun _ _ => True) /\ holds i h' s' /\ frame i h h' s s'.
Proof.
  intros Htask Hg Hh Hop.
  assert (forall q : prog unit, good (may_replace to_lowercase t) q h (fun _ _ => True) ->
    exists h', good (may_replace to_lowercase t) q h' (fun _ _ => True) /\ holds i h' s /\ frame i h h' s s) as Hidle.
  { intros q Hq. exists h. split; [done|]. split; [done|]. apply frame_refl. by eexists. }
  destruct Hop as [n k r Hr|n k r _|k r|n k Hn|n k e|src dst k e Hsrc Hdst|src dst k e|n k e He _|n k e|t' k Ht'|t' k _|t' k|u n k unique Hu Hd|k u|t' k|t' sp k Hsp _ _|t' k|l k];
    cbn [good] in Hg.
  - exists (after_lstat n r h). split; [apply Hg|]. split; [by apply lstat_effect|]. apply frame_refl.
    intros t' ph. apply checks_temp, after_lstat_checks.
  - apply Hidle, Hg.
  - apply Hidle, Hg.
  - destruct Hg as (Hp & Hg & _). eexists. split; [exact Hg|]. by apply create_effect.
  - apply Hidle, Hg.
  - destruct Hg as (l & Ht & Hown & Hg & _). eexists. split; [exact Hg|]. by apply rename_effect.
  - apply Hidle. by destruct Hg as (l & _ & _ & _ & Hg).
  - destruct Hg as (Hp & Hor & Hg). eexists. split; [apply (Hg (Ok tt))|]. apply (remove_effect i t); try done. by right.
  - destruct Hg as (Hp & Hor & Hg). eexists. split; [apply (Hg (Err e))|]. apply (remove_effect i t); try done. by left.
  - destruct Hg as (Hp & Hn & Hg & _). eexists. split; [exact Hg|]. apply reserve_effect; try done. by left.
  - apply Hidle, Hg.
  - destruct Hg as ((ph & Ht & _) & Hg). eexists. split; [exact Hg|]. by apply (unreserve_effect i h t' ph).
  - destruct Hg as (Hn & Hg). eexists. split; [apply Hg|]. apply reserve_effect; try done; [apply temp_not_plain|]. by right.
  - apply Hidle, Hg.
  - destruct Hg as (ph & l & Ht & _ & Hg). eexists. split; [exact Hg|]. by apply (write_effect i h t' ph).
  - destruct Hg as (Ht & Hg & _). eexists. split; [apply Hg|]. by apply (lease_effect i h t' Checked).
  - apply Hidle, Hg.
  - destruct Hg as (t' & ph & Ht & Hl & Hg). eexists. split; [exact Hg|]. apply (lease_effect i h t' ph); try done. by intros ->.
Qed.

Lemma frame_holds i j h h' g s s' :
  holds j g s -> j <> i -> frame i h h' s s' ->
  (forall t ph ph', ho_temp h = Some (t, ph) -> ho_temp g = Some (t, ph') -> j = i) -> holds j g s'.
Proof.
  intros [H1 H2 H3 H4] Hne [F1 F2 F3 F4] Hap.
  assert (forall t ph, ho_temp g = Some (t, ph) -> at_ t s' = at_ t s /\ t ∈ st_reserved s') as Ht.
  { intros t ph Hg. destruct (H1 _ _ Hg) as [Hp Hr]. apply F1; [done..|]. intros ph' Hh. by apply Hne, (Hap t ph' ph). }
  constructor.
  - intros t ph Hg. split; [by eapply H1|]. by eapply Ht.
  - intros t ph Hg Hph. rewrite (proj1 (Ht _ _ Hg)). by eapply H2.
  - intros t l Hg. rewrite (proj1 (Ht _ _ Hg)). by eapply H3.
  - intros n Hn. destruct (H4 _ Hn) as [Hp Hk]. split; [done|]. intros Hkn. apply F2; [done..|by apply Hk|]. by intros [= ->].
Qed.

Lemma task_step_sound w hs i p s' p' :
  sound w hs -> w_threads w !! i = Some p -> op_step key lease_fold i (w_store w) p s' p' ->
  exists h', sound (mk_world s' (<[i := p']> (w_threads w))) (<[i := h']> hs).
Proof.
  intros [S1 S2 S3 S4 S5 S6] Hp Hop. pose proof (lookup_lt_Some _ _ _ Hp) as Hlt.
  destruct (lookup_lt_is_Some_2 tasks i) as [t Ht]; [lia|]. destruct (lookup_lt_is_Some_2 hs i) as [h Hh]; [lia|].
  destruct (op_effect i t h (w_store w) p s' p') as (h' & Hg & Hholds & Hframe); [by eapply list_elem_of_lookup_2|by eapply S3|by apply S4|done|].
  pose proof Hframe as [F1 F2 F3 F4]. exists h'. constructor; cbn [w_store w_threads].
  - by rewrite length_insert.
  - by rewrite length_insert.
  - intros j t' q g Ht' Hq Hg'. destruct (decide (j = i)) as [->|Hne].
    + rewrite list_lookup_insert_eq in Hq by lia. rewrite list_lookup_insert_eq in Hg' by lia. congruence.
    + rewrite list_lookup_insert_ne in Hq by done. rewrite list_lookup_insert_ne in Hg' by done. by eapply S3.
  - intros j g Hg'. destruct (decide (j = i)) as [->|Hne]; [rewrite list_lookup_insert_eq in Hg' by lia; congruence|].
    rewrite list_lookup_insert_ne in Hg' by done. apply (frame_holds i j h h' g (w_store w)); [by apply S4|done..|].
    intros t' ph ph' H1 H2. by apply (S5 j i g h t' ph' ph).
  - assert (forall j g t' ph ph', hs !! j = Some g -> ho_temp h' = Some (t', ph) -> ho_temp g = Some (t', ph') -> j = i) as Hap.
    { intros j g t' ph ph' Hg' H1 H2. destruct (F4 _ _ H1) as [[ph0 H0]|Hnew]; [by apply (S5 j i g h t' ph' ph0)|].
      exfalso. apply Hnew. by apply (hd_temp _ _ _ (S4 _ _ Hg') t' ph'). }
    intros j1 j2 g1 g2 t' ph1 ph2 Hg1 Hg2 H1 H2. destruct (decide (j1 = i)) as [->|N1], (decide (j2 = i)) as [->|N2].
    + done.
    + rewrite list_lookup_insert_eq in Hg1 by lia. injection Hg1 as <-. rewrite list_lookup_insert_ne in Hg2 by done. symmetry. by eapply Hap.
    + rewrite list_lookup_insert_eq in Hg2 by lia. injection Hg2 as <-. rewrite list_lookup_insert_ne in Hg1 by done. by eapply Hap.
    + rewrite list_lookup_insert_ne in Hg1 by done. rewrite list_lookup_insert_ne in Hg2 by done. by eapply S5.
  - intros n j [Hin|(-> & Hn & Hd)]%F3; [|done]. destruct (S6 _ _ Hin) as [Hn Hd]. split; [done|]. intros Hk. apply F2; [done..|by apply Hd|done].
Qed.

Lemma at_alter_ne n m e s : n <> m -> at_ m (set_disk (partial_alter (fun _ => e) (key n) (st_disk s)) s) = at_ m s.
Proof. intros Hne. apply lookup_partial_alter_ne. by intros ?%(inj key). Qed.

Lemma other_step_sound w hs n e :
  sound w hs -> plain n -> foreign (at_ n (w_store w)) = true ->
  sound (mk_world (set_disk (partial_alter (fun _ => e) (key n) (st_disk (w_store w))) (w_store w)) (w_threads w)) hs.
Proof.
  intros [S1 S2 S3 S4 S5 S6] Hn Hf.
  assert (forall m c, at_ m (w_store w) = Some (EFile c) -> foreign (Some (EFile c)) = false -> m <> n) as Hne by (intros m c Hm Hc ->; congruence).
  constructor; cbn [w_store w_threads]; try done.
  - intros i h Hh. destruct (S4 _ _ Hh) as [H1 H2 H3 H4]. constructor; [done| | |].
    + intros t ph Ht Hph. rewrite at_alter_ne; [by eapply H2|]. intros ->. by apply (H1 _ _ Ht).
    + intros t l Ht. rewrite at_alter_ne; [by eapply H3|]. intros ->. by apply (H1 _ _ Ht).
    + intros m Hm. destruct (H4 _ Hm) as [Hp Hk]. split; [done|]. intros Hkm. specialize (Hk Hkm).
      rewrite at_alter_ne; [done|]. intros ->. by eapply (Hne m).
  - intros m i Hm. destruct (S6 _ _ Hm) as [Hp Hk]. split; [done|]. intros Hkm. specialize (Hk Hkm).
    rewrite at_alter_ne; [done|]. intros ->. by eapply (Hne m).
Qed.

Lemma directory_sound w : reached w -> exists hs, sound w hs.
Proof.
  induction 1 as [disk Hd|w who w' _ [hs IH] Hs].
  - exists (replicate (length tasks) (mk_holding None ∅)). constructor; cbn [w_store w_threads].
    + apply length_replicate.
    + apply length_map.
    + intros i t p h Ht Hp (-> & _)%lookup_replicate. rewrite list_lookup_fmap, Ht in Hp. injection Hp as <-.
      destruct (Forall_lookup_1 _ _ _ _ Hnames Ht). by apply life_good.
    + intros i h (-> & _)%lookup_replicate. constructor; cbn; set_solver.
    + intros i j h h' t ph ph' (-> & _)%lookup_replicate _ [=].
    + intros n i []%not_elem_of_nil.
  - destruct Hs as [i p s p' Hp Hop|n e Hn Hf He].
    + destruct (task_step_sound _ _ _ _ _ _ IH Hp Hop) as [h' Hh']. by eexists.
    + exists hs. by apply other_step_sound.
Qed.

(** ** The theorems *)

(** C25. One writer per temporary file.  On a file system that tells all names
    apart, for tasks whose names do not end like those of temporary files: however
    the tasks interleave, whatever
    operation fails and whatever other programs do to files of their own: the
    temporary file a task is about to write is absent or was written by that task
    alone, no other task is about to write it, and what a task renames to its
    final name is what it wrote. *)
Theorem temp_files_have_one_writer w i :
  reached w ->
  (forall t k, w_threads w !! i = Some (WriteTemp t k) ->
     (at_ t (w_store w) = None \/ at_ t (w_store w) = Some (EFile (Data i))) /\
     forall j t' k', j <> i -> w_threads w !! j = Some (WriteTemp t' k') -> key t' <> key t) /\
  (forall src dst k, w_threads w !! i = Some (RenameFile src dst k) -> at_ src (w_store w) = Some (EFile (Data i))).
Proof.
  intros [hs [S1 S2 S3 S4 S5 S6]]%directory_sound.
  assert (forall i p, w_threads w !! i = Some p ->
    exists t h, hs !! i = Some h /\ good (may_replace to_lowercase t) p h (fun _ _ => True)) as Hgood.
  { intros j p Hp. pose proof (lookup_lt_Some _ _ _ Hp). destruct (lookup_lt_is_Some_2 tasks j) as [t Ht]; [lia|].
    destruct (lookup_lt_is_Some_2 hs j) as [h Hh]; [lia|]. exists t, h. split; [done|]. by eapply S3. }
  split.
  - intros t k Hp. destruct (Hgood _ _ Hp) as (tk & h & Hh & ph & l & Ht & Hl & _).
    split; [apply (hd_checked _ _ _ (S4 _ _ Hh) t ph); [done|by intros ->]|].
    intros j t' k' Hne Hp'. destruct (Hgood _ _ Hp') as (tk' & h' & Hh' & ph' & l' & Ht' & _). intros Heq%(inj key). subst t'. apply Hne. by eapply S5.
  - intros src dst k Hp. destruct (Hgood _ _ Hp) as (tk & h & Hh & l & Ht & _). by apply (hd_written _ _ _ (S4 _ _ Hh) _ l).
Qed.

(** C24. Nothing is lost.  On a file system that tells all names apart, for tasks
    whose names do not end like those of temporary files: unless some task's policy permits replacing a file of that
    name, a completed download keeps its file, whole, whatever the other tasks
    do, so that no two downloads are completed under one name; and no task
    changes or removes an existing entry that is not its own placeholder. *)
Theorem nothing_is_lost w :
  reached w ->
  (forall n i, (n, i) ∈ st_finished (w_store w) -> kept n -> at_ n (w_store w) = Some (EFile (Data i))) /\
  (forall i w' n e, step key lease_fold w (Some i) w' -> plain n -> kept n -> at_ n (w_store w) = Some e -> e <> EFile (Placeholder i) ->
     at_ n (w_store w') = Some e).
Proof.
  intros [hs Hs]%directory_sound. split; [intros n i Hn; by apply (so_finished _ _ Hs)|].
  intros i w' n e Hstep Hn Hk He Hp. inversion Hstep as [i' p s' p' Hlook Hop|]; subst.
  pose proof (lookup_lt_Some _ _ _ Hlook) as Hlt. rewrite (so_threads _ _ Hs) in Hlt.
  destruct (lookup_lt_is_Some_2 tasks i) as [t Ht]; [done|]. destruct (lookup_lt_is_Some_2 hs i) as [h Hh]; [by rewrite (so_length _ _ Hs)|].
  destruct (op_effect i t h (w_store w) p s' p') as (h' & _ & _ & Hf);
    [by eapply list_elem_of_lookup_2|by eapply (so_good _ _ Hs)|by apply (so_holds _ _ Hs)|done|]. by apply (fr_kept _ _ _ _ _ Hf).
Qed.
End Safety.

(** ** Leases

    On a file system that does not tell all names apart, reservations do not
    exclude each other; leases do, when they fold names as the file system
    does. *)


Section Leases.
Context (key lease_fold to_lowercase : text -> text) (tasks : list task).
Context (Hnames : Forall (fun t => plain (tk_name t) /\ forall chosen, plain chosen -> plain (tk_refined t chosen)) tasks).
Context (Hfold : forall a b, key a = key b -> lease_fold a = lease_fold b).













End Leases.

(** ** Runs *)

Lemma next_op_step key fold uuid i p s s' p' : next_op key fold uuid i p s = Some (s', p') -> op_step key fold i s p s' p'.
Proof.
  destruct p; cbn [next_op]; unfold try_create, try_rename, try_remove, try_insert, try_acquire; intros H; try done.
  all: repeat case_match; bool_hyps; simplify_eq.
  all: try (constructor; by first [left|done]).
  all: try by econstructor.
  all: by constructor.
Qed.

Lemma directory_played key fold uuid to_lowercase tasks order w w' :
  play key fold uuid order w = Some w' -> reached key fold to_lowercase tasks w -> reached key fold to_lowercase tasks w'.
Proof.
  revert w. induction order as [|i order IH]; intros w; cbn [play]; [by intros [= ->]|].
  destruct (w_threads w !! i) as [p|] eqn:Hp; [|done]. destruct (next_op key fold uuid i p (w_store w)) as [[s' p']|] eqn:E; [|done].
  intros Hplay Hr. eapply IH; [exact Hplay|]. eapply reached_step; [exact Hr|]. apply (step_task _ _ _ i p); [done|]. by eapply next_op_step.
Qed.

(** ** The cursor and its reference *)

Lemma run_bind key fold uuid i {A B} (p : prog A) (f : A -> prog B) s :
  run_alone key fold uuid i (pbind p f) s = (let* sa := run_alone key fold uuid i p s in run_alone key fold uuid i (f sa.2) sa.1).
Proof.
  revert s. induction p as [a|n k IH|n k IH|k IH|n k IH|s0 d k IH|n k IH|t k IH|t p IH|n k IH|k IH|t p IH|t k IH|l p IH]; intros s; cbn [pbind run_alone]; try done.
  - by destruct (try_create key i n s).
  - by destruct (try_rename key i s0 d s).
  - by destruct (try_remove key n s).
  - by destruct (try_insert t s).
  - by case_match.
  - by destruct (try_acquire fold i t s).
Qed.

Section Reference.
Context (to_lowercase fold : text -> text) (uuid : text) (i : nat) (s : store) (reserved avoid : gset text).
Context (Hfolded : forall k, is_Some (st_disk s !! k) -> to_lowercase k = k).

(** The file system compares names as [str::to_lowercase] folds them. *)
Local Abbreviation run := (run_alone to_lowercase fold uuid i).

Definition present (n : text) : bool := bool_decide (is_Some (FileNames.at_ to_lowercase n s)).
Definition dir_at (n : text) : bool := match stat (FileNames.at_ to_lowercase n s) with Ok KDir => true | _ => false end.

Lemma scanned n : bool_decide (to_lowercase n ∈ (list_to_set (map to_lowercase (entries s)) : gset text)) = present n.
Proof.
  apply bool_decide_ext. rewrite elem_of_list_to_set, list_elem_of_fmap. unfold entries, FileNames.at_. split.
  - intros (k & -> & (kv & -> & Hkv)%list_elem_of_fmap). destruct kv as [k e]. apply elem_of_map_to_list in Hkv. cbn in *.
    rewrite Hfolded; by eexists.
  - intros [e He]. exists (to_lowercase n). split; [symmetry; apply Hfolded; by eexists|]. apply list_elem_of_fmap. exists (to_lowercase n, e).
    split; [done|]. by apply elem_of_map_to_list.
Qed.

Lemma run_exists n : run (entry_exists n) s = Some (s, Ok (present n)).
Proof. unfold present. cbn. unfold FileNames.at_. by destruct (st_disk s !! to_lowercase n) as [[]|]. Qed.

Lemma run_is_dir n : run (path_is_dir n) s = Some (s, Ok (dir_at n)).
Proof. unfold dir_at. cbn. unfold FileNames.at_. by destruct (st_disk s !! to_lowercase n) as [[| |[[]|]]|]. Qed.

Definition taken (overwrite : bool) (cand : text) : bool :=
  bool_decide (temp_of cand ∈ reserved) || bool_decide (to_lowercase cand ∈ avoid) || present (temp_of cand)
  || (if overwrite then dir_at cand else present cand).

Lemma run_probe cand allow overwrite :
  run (candidate_taken_by_probe to_lowercase cand (mk_rules (Some reserved) (Some avoid) allow false) overwrite) s = Some (s, Ok (taken overwrite cand)).
Proof.
  unfold candidate_taken_by_probe, taken. cbn [contains ru_reserved ru_avoid ru_companion_mp4].
  destruct (bool_decide (temp_of cand ∈ reserved)); [done|]. destruct (bool_decide (to_lowercase cand ∈ avoid)); [done|]. cbn [orb].
  rewrite run_bind, run_exists. cbn [fst snd]. destruct (present (temp_of cand)); [done|]. cbn [orb].
  destruct overwrite; rewrite run_bind; [rewrite run_is_dir|rewrite run_exists]; cbn [fst snd]; by case_match.
Qed.

Lemma scan_taken cand allow :
  candidate_taken_in_scan to_lowercase cand (mk_rules (Some reserved) (Some avoid) allow false)
    (list_to_set (map to_lowercase (entries s))) = taken false cand.
Proof.
  unfold candidate_taken_in_scan, taken. cbn [contains ru_reserved ru_avoid ru_companion_mp4]. rewrite !scanned.
  destruct (bool_decide (temp_of cand ∈ reserved)), (bool_decide (to_lowercase cand ∈ avoid)), (present cand), (present (temp_of cand)); done.
Qed.

Lemma run_loop allow name numbers next scan :
  (0 < next)%nat -> (scan = None \/ scan = Some (list_to_set (map to_lowercase (entries s)))) ->
  exists c, run (next_free_loop to_lowercase numbers name (mk_rules (Some reserved) (Some avoid) allow false) next scan) s
    = Some (s, Ok (reference_loop (fun cand => negb (taken false cand)) name numbers next, c)).
Proof.
  revert next scan. induction numbers as [|numbers IH]; intros next scan Hn Hscan; cbn [next_free_loop reference_loop]; [by eexists|].
  destruct (_ <=? _)%nat.
  - rewrite run_bind. replace (next =? 0)%nat with false by (symmetry; apply Nat.eqb_neq; lia). cbn [andb]. rewrite run_probe. cbn [fst snd].
    destruct (taken false (candidate name next)); cbn; [apply IH; [lia|done]|by eexists].
  - rewrite run_bind. assert (run match scan with Some s => Done (Ok s) | None => scan_dir_folded to_lowercase end s
      = Some (s, Ok (list_to_set (map to_lowercase (entries s))))) as -> by (by destruct Hscan as [-> | ->]).
    cbn [fst snd]. rewrite scan_taken. destruct (taken false (candidate name next)); cbn; [apply IH; [lia|by right]|by eexists].
Qed.
End Reference.

(** C26. The cursor equals the reference it replaced.  On a file system that compares
    names as the code folds them, probing one candidate after the other, the
    first 33 on disk and the rest in a scan, ends and chooses the name that one
    look at the whole directory would choose: the asked name if it is free, or
    may be replaced, else the first of its numbered variants that collides with
    no entry, no temporary file, no reservation and no name to avoid; and a name
    with a UUID if all 9999 are taken. *)
Theorem probing_is_reference to_lowercase fold uuid i s reserved avoid allow_overwrite name :
  (forall k, is_Some (st_disk s !! k) -> to_lowercase k = k) ->
  run_alone to_lowercase fold uuid i (dedup_name_by_probe to_lowercase name (mk_rules (Some reserved) (Some avoid) allow_overwrite false)) s
  = Some (s, Ok (default (uuid_suffixed_name uuid name)
      (dedup_reference_scan to_lowercase (entries s) (dir_at to_lowercase s name) name reserved avoid allow_overwrite))).
Proof.
  intros Hf. unfold dedup_name_by_probe, next_free, cursor_new, dedup_reference_scan. cbn [cu_left cu_next cu_scan].
  rewrite run_bind. cbn [next_free_loop]. change ((0 <=? DEDUP_PROBE_LIMIT)%nat) with true. cbn [Nat.eqb andb ru_allow_overwrite].
  rewrite run_bind, run_probe. cbn [fst snd].
  assert (forall cand, reference_taken to_lowercase (list_to_set (map to_lowercase (entries s))) reserved avoid cand
    || bool_decide (to_lowercase cand ∈ (list_to_set (map to_lowercase (entries s)) : gset text)) = taken to_lowercase s reserved avoid false cand) as Htaken.
  { intros cand. unfold reference_taken, taken. by rewrite !scanned. }
  assert (reference_taken to_lowercase (list_to_set (map to_lowercase (entries s))) reserved avoid name
    || (if allow_overwrite then dir_at to_lowercase s name else bool_decide (to_lowercase name ∈ (list_to_set (map to_lowercase (entries s)) : gset text)))
    = taken to_lowercase s reserved avoid allow_overwrite name) as ->.
  { destruct allow_overwrite; [|apply Htaken]. unfold reference_taken, taken. by rewrite !scanned. }
  change (candidate name 0) with name. destruct (taken _ _ _ _ allow_overwrite name); cbn [negb]; [|done].
  destruct (run_loop to_lowercase fold uuid i s reserved avoid Hf allow_overwrite name DEDUP_MAX_NUMBER 1 None) as [c Hc]; [lia|by left|].
  rewrite Hc. cbn [fst snd].
  assert (forall numbers next, reference_loop (fun cand => negb (taken to_lowercase s reserved avoid false cand)) name numbers next =
    reference_loop (fun cand => negb (reference_taken to_lowercase (list_to_set (map to_lowercase (entries s))) reserved avoid cand
      || bool_decide (to_lowercase cand ∈ (list_to_set (map to_lowercase (entries s)) : gset text)))) name numbers next) as Hloop.
  { induction numbers as [|numbers IH]; intros next; cbn; [done|]. rewrite Htaken. case_match; [done|]. apply IH. }
  rewrite Hloop. generalize (reference_loop (fun cand => negb (reference_taken to_lowercase (list_to_set (map to_lowercase (entries s))) reserved avoid cand
      || bool_decide (to_lowercase cand ∈ (list_to_set (map to_lowercase (entries s)) : gset text)))) name DEDUP_MAX_NUMBER 1).
  intros [cand|]; reflexivity.
Qed.

(** ** Decisions about existing files *)

(** C27. When a file of the name exists: it is only kept as the download's result when
    the task or, for a protocol that allows it, the settings say so; only replaced
    when the settings say so for all files or the task for this name, and then
    only if nobody is downloading under it; the user is asked only where nothing
    was decided, nobody is downloading under the name and somebody can answer, and
    never again once there is an answer.  Where no file exists, nothing of this
    happens. *)
Theorem existing_files_decided name f n :
  (decide_existing f = ActSkip <->
     ef_final_file_exists f = true /\
     (ef_decision f = DecSkip \/ ef_decision f = DecNone /\ ef_global f = BhSkip /\ ef_support f = WithSkip)) /\
  (forall allow_skip, decide_existing f = ActAsk allow_skip <->
     ef_final_file_exists f = true /\ ef_temp_conflict f = false /\ ef_decision f = DecNone /\ ef_global f = BhAsk /\
     ef_support f <> AskNone /\ ef_unattended f = false /\ ef_can_prompt f = true /\ allow_skip = bool_decide (ef_support f = WithSkip)) /\
  (forall p, start_policy name f (global_overwrite_policy (ef_global f)) = Some p -> permits p n = true ->
     ef_global f = BhOverwrite \/
     n = name /\ ef_decision f = DecOverwrite /\ ef_final_file_exists f = true /\ ef_temp_conflict f = false).
Proof.
  destruct f as [exists_ conflict decision global support unattended prompt].
  unfold start_policy, decide_existing, global_overwrite_policy. cbn.
  split_and!; [|intros allow_skip|intros p].
  all: destruct exists_, conflict, decision, global, support, unattended, prompt; cbn;
    first [by split; [by intros|]; naive_solver|by split; naive_solver|intros [= <-]; cbn; try done; intros H; first [by left|bool_hyps; subst; by right]|by intros].
Qed.

(** The answer is stored as text and read back. *)
Theorem decisions_roundtrip d : from_db (as_db d) = d.
Proof. by destruct d. Qed.

(** *** The answer [rename] is overruled

    The task was told to leave the existing file alone; when it starts, the
    settings replace files.  The file is replaced. *)

Definition user_file : store := mk_store {[ lit "a.zip" := EFile (Foreign 7) ]} ∅ ∅ [].

Definition rename_facts : ExistsFacts := mk_facts true false DecRename BhOverwrite WithSkip false true.

Definition restarted (p : OverwritePolicy) : task := mk_task (lit "a.zip") p false 0 true (fun chosen => chosen) ∅.

(** A task whose existing file the user has said to keep replaces it, although
    the decision is to choose another name: the policy of the settings goes along
    to the reservation and to the end of the download. *)
Theorem rename_answer_overruled :
  exists p s, decide_existing rename_facts = ActDedup /\
    start_policy (lit "a.zip") rename_facts (global_overwrite_policy (ef_global rename_facts)) = Some p /\
    run_alone id id (lit "u") 0 (life id (restarted p)) user_file = Some (s, tt) /\
    FileNames.at_ id (lit "a.zip") user_file = Some (EFile (Foreign 7)) /\
    FileNames.at_ id (lit "a.zip") s = Some (EFile (Data 0)) /\ st_finished s = [(lit "a.zip", 0%nat)].
Proof.
  exists OwAny. eexists. split; [done|]. split; [done|]. split; [by vm_compute|]. by vm_compute.
Qed.

(** *** Names that differ in case

    Windows folds the paths of leases; on other systems whose file systems ignore
    case nothing keeps two spellings of one temporary file apart. *)

Definition ascii_fold : text -> text := map ascii_lower.

Definition upper_and_lower : list task :=
  [mk_task (lit "A.zip") OwNever false 0 true (fun chosen => chosen) ∅; mk_task (lit "a.zip") OwNever false 0 true (fun chosen => chosen) ∅].

Definition empty_world (to_lowercase : text -> text) (tasks : list task) : world :=
  mk_world (mk_store ∅ ∅ ∅ []) (map (life to_lowercase) tasks).

Lemma empty_reached key fold to_lowercase tasks : reached key fold to_lowercase tasks (empty_world to_lowercase tasks).
Proof. apply reached_start. by apply map_Forall_empty. Qed.

(** What a run of an order leads to, without normalising the programs left. *)
Lemma played {B} key fold to_lowercase tasks order (f : world -> B) v :
  (let* w := play key fold (lit "u") order (empty_world to_lowercase tasks) in Some (f w)) = Some v ->
  exists w, reached key fold to_lowercase tasks w /\ f w = v.
Proof.
  destruct (play _ _ _ _ _) as [w|] eqn:E; [|done]. intros H. exists w. split; [|by injection H]. eapply directory_played; [exact E|apply empty_reached].
Qed.

Definition case_order : list nat := replicate 5 0%nat ++ replicate 5 1%nat ++ [0; 1; 0; 1; 0; 0; 0]%nat.

(** Where the file system ignores case and leases do not, two downloads whose
    names differ in case reserve and lease two paths that are one file, both
    write it, and the first ends as complete with what the second wrote. *)
Theorem case_folding_shares_temp :
  exists w, reached ascii_fold id ascii_fold upper_and_lower w /\
    st_finished (w_store w) = [(lit "A.zip", 0%nat)] /\ FileNames.at_ ascii_fold (lit "A.zip") (w_store w) = Some (EFile (Data 1)).
Proof.
  destruct (played ascii_fold id ascii_fold upper_and_lower case_order (fun w => (st_finished (w_store w), FileNames.at_ ascii_fold (lit "A.zip") (w_store w)))
    ([(lit "A.zip", 0%nat)], Some (EFile (Data 1)))) as (w & Hw & [= H1 H2]); [by vm_compute|]. by exists w.
Qed.

(** ** Witnesses *)

(** Two downloads of one name; the second finds the reservation of the first. *)
Definition twins : list task :=
  [mk_task (lit "a.zip") OwNever false 0 true (fun chosen => chosen) ∅; mk_task (lit "a.zip") OwNever false 0 true (fun chosen => chosen) ∅].

Definition twin_order : list nat := concat (replicate 11 [0; 1]%nat) ++ [1; 1; 1]%nat.

Lemma twin_names : Forall (fun t => plain (tk_name t) /\ forall chosen, plain chosen -> plain (tk_refined t chosen)) twins.
Proof. repeat constructor; [apply (bool_decide_unpack _); by vm_compute|done|apply (bool_decide_unpack _); by vm_compute|done]. Qed.

Lemma twin_kept n : kept ascii_fold twins n.
Proof. intros t [->|[->|[]%not_elem_of_nil]%elem_of_cons]%elem_of_cons (_ & H & _); done. Qed.

(** What the next operation of a task is. *)
Definition writing (p : option (prog unit)) : option text := match p with Some (WriteTemp t _) => Some t | _ => None end.

Lemma writing_eq p t : writing p = Some t -> exists k, p = Some (WriteTemp t k).
Proof. destruct p as [[]|]; try done. intros [= ->]. by eexists. Qed.

(** Both downloads are about to write, each its own file. *)
Lemma temp_files_have_one_writer_witness :
  exists w k, reached id id ascii_fold twins w /\ w_threads w !! 0%nat = Some (WriteTemp (lit "a.zip.fdownloading") k) /\
    (FileNames.at_ id (lit "a.zip.fdownloading") (w_store w) = None \/
     FileNames.at_ id (lit "a.zip.fdownloading") (w_store w) = Some (EFile (Data 0))) /\
    exists k', w_threads w !! 1%nat = Some (WriteTemp (lit "a (1).zip.fdownloading") k').
Proof.
  destruct (played id id ascii_fold twins (concat (replicate 6 [0; 1]%nat) ++ [1; 1; 1]%nat)
    (fun w => (writing (w_threads w !! 0%nat), writing (w_threads w !! 1%nat)))
    (Some (lit "a.zip.fdownloading"), Some (lit "a (1).zip.fdownloading"))) as (w & Hw & Hf); [by vm_compute|].
  destruct (writing_eq _ _ (f_equal fst Hf)) as [k Hk], (writing_eq _ _ (f_equal snd Hf)) as [k' Hk'].
  exists w, k. destruct (temp_files_have_one_writer id id ascii_fold twins twin_names w 0 Hw) as [H _]. destruct (H _ _ Hk) as [Hat _].
  split; [exact Hw|]. split; [exact Hk|]. split; [exact Hat|]. exists k'. exact Hk'.
Defined.

(** Both are complete, each under a name of its own. *)
Lemma nothing_is_lost_witness :
  exists w, reached id id ascii_fold twins w /\ st_finished (w_store w) = [(lit "a.zip", 0%nat); (lit "a (1).zip", 1%nat)] /\
    FileNames.at_ id (lit "a.zip") (w_store w) = Some (EFile (Data 0)) /\
    FileNames.at_ id (lit "a (1).zip") (w_store w) = Some (EFile (Data 1)).
Proof.
  destruct (played id id ascii_fold twins twin_order (fun w => st_finished (w_store w)) [(lit "a.zip", 0%nat); (lit "a (1).zip", 1%nat)]) as (w & Hw & Hf); [by vm_compute|].
  exists w. split; [exact Hw|]. split; [exact Hf|]. destruct (nothing_is_lost id id ascii_fold twins twin_names w Hw) as [H _].
  split; apply H; try apply twin_kept; rewrite Hf; [by left|by right; left].
Defined.




Definition crowded : store :=
  mk_store {[ lit "a.zip" := EFile (Foreign 1); lit "a (1).zip.fdownloading" := EFile (Foreign 2); lit "a (2).zip" := EDir ]} ∅ ∅ [].

Lemma probing_is_reference_witness :
  run_alone ascii_fold id (lit "u") 0 (dedup_name_by_probe ascii_fold (lit "A.zip") (mk_rules (Some ∅) (Some ∅) false false)) crowded
  = Some (crowded, Ok (lit "A (3).zip")).
Proof.
  rewrite (probing_is_reference ascii_fold id (lit "u") 0 crowded ∅ ∅ false (lit "A.zip")).
  - by vm_compute.
  - assert (Forall (fun ke => ascii_fold ke.1 = ke.1) (map_to_list (st_disk crowded))) as H by (vm_compute; repeat constructor).
    intros k [e He]. rewrite Forall_forall in H. apply (H (k, e)). by apply elem_of_map_to_list.
Defined.
