(* ===== verification/Unicode.v ===== *)
(** * Unicode: Rust's strings as their characters

    The engine names files with arbitrary text, so the files on names model a
    [String] as its list of Unicode scalar values, and a byte slice as a list of
    bytes, both as [Z]; [utf8_encode] and [from_utf8] connect the two.  The rest
    are the operations of [str] and of slices the naming code uses. *)
From Stdlib Require Import Ascii.
From S2P Require Import Prelude Text.

Definition str : Type := list Z.
Definition bytes : Type := list Z.

(** An ASCII literal, as characters or as bytes. *)
Definition chars (s : string) : list Z := map byte_of (lit s).

Definition is_scalar (c : Z) : Prop := 0 <= c < 55296 \/ 57344 <= c <= 1114111.

#[export] Instance is_scalar_dec c : Decision (is_scalar c).
Proof. unfold is_scalar. apply _. Defined.

(** ** UTF-8 *)

Definition encode_char (c : Z) : bytes :=
  if c <? 128 then [c]
  else if c <? 2048 then [192 + c / 64; 128 + c mod 64]
  else if c <? 65536 then [224 + c / 4096; 128 + c / 64 mod 64; 128 + c mod 64]
  else [240 + c / 262144; 128 + c / 4096 mod 64; 128 + c / 64 mod 64; 128 + c mod 64].

Definition utf8_encode (s : str) : bytes := concat (map encode_char s).

(** [char::len_utf8] and [str::len]. *)
Definition char_len (c : Z) : Z := if c <? 128 then 1 else if c <? 2048 then 2 else if c <? 65536 then 3 else 4.
Definition str_len (s : str) : Z := sum_list_with_Z char_len s.

Definition is_cont (b : Z) : bool := (128 <=? b) && (b <=? 191).

(** [std::str::from_utf8]: no overlong form, no surrogate. *)
Fixpoint from_utf8 (b : bytes) : option str :=
  match b with
  | [] => Some []
  | b0 :: r0 =>
      if (0 <=? b0) && (b0 <? 128) then cons b0 <$> from_utf8 r0
      else
        match r0 with
        | [] => None
        | b1 :: r1 =>
            if (194 <=? b0) && (b0 <=? 223) then
              if is_cont b1 then cons ((b0 - 192) * 64 + (b1 - 128)) <$> from_utf8 r1 else None
            else
              match r1 with
              | [] => None
              | b2 :: r2 =>
                  if (224 <=? b0) && (b0 <=? 239) then
                    let c := (b0 - 224) * 4096 + (b1 - 128) * 64 + (b2 - 128) in
                    if is_cont b1 && is_cont b2 && (2048 <=? c) && negb ((55296 <=? c) && (c <=? 57343))
                    then cons c <$> from_utf8 r2 else None
                  else
                    match r2 with
                    | [] => None
                    | b3 :: r3 =>
                        let c := (b0 - 240) * 262144 + (b1 - 128) * 4096 + (b2 - 128) * 64 + (b3 - 128) in
                        if (240 <=? b0) && (b0 <=? 244) && is_cont b1 && is_cont b2 && is_cont b3 && (65536 <=? c) && (c <=? 1114111)
                        then cons c <$> from_utf8 r3 else None
                    end
              end
        end
  end.

Ltac test_true := rewrite (proj2 (Z.leb_le _ _)) by div_lia.
Ltac test_lt := rewrite (proj2 (Z.ltb_lt _ _)) by div_lia.

(** Case analysis on a comparison of the goal, closing the impossible branch. *)
Ltac split_test :=
  match goal with
  | |- context [?a <? ?b] => destruct (Z.ltb_spec a b); try (exfalso; div_lia)
  | |- context [?a <=? ?b] => destruct (Z.leb_spec a b); try (exfalso; div_lia)
  end; cbn [andb orb negb].

Lemma from_utf8_cons c b : is_scalar c -> from_utf8 (encode_char c ++ b) = cons c <$> from_utf8 b.
Proof.
  intros Hc. unfold is_scalar in Hc. unfold encode_char. destruct (Z.ltb_spec c 128); [|destruct (Z.ltb_spec c 2048); [|destruct (Z.ltb_spec c 65536)]].
  - cbn [app from_utf8]. by repeat split_test.
  - cbn [app from_utf8]. unfold is_cont. repeat split_test. do 2 f_equal. div_lia.
  - cbn [app from_utf8]. unfold is_cont. repeat split_test. all: do 2 f_equal; div_lia.
  - cbn [app from_utf8]. unfold is_cont. repeat split_test. all: do 2 f_equal; div_lia.
Qed.

(** Encoding loses nothing. *)
Lemma from_utf8_encode s : Forall is_scalar s -> from_utf8 (utf8_encode s) = Some s.
Proof. induction 1 as [|c s Hc _ IH]; [done|]. cbn. rewrite from_utf8_cons by done. change (concat (map encode_char s)) with (utf8_encode s). by rewrite IH. Qed.

(** ** Searching and splitting *)

(** What comes before and after the first (the last) element that fits. *)
Fixpoint split_first (p : Z -> bool) (l : list Z) : option (list Z * list Z) :=
  match l with
  | [] => None
  | x :: l =>
      if p x then Some ([], l)
      else match split_first p l with Some (a, b) => Some (x :: a, b) | None => None end
  end.

Fixpoint split_last (p : Z -> bool) (l : list Z) : option (list Z * list Z) :=
  match l with
  | [] => None
  | x :: l =>
      match split_last p l with
      | Some (a, b) => Some (x :: a, b)
      | None => if p x then Some ([], l) else None
      end
  end.

Definition eqc (c : Z) : Z -> bool := fun x => x =? c.

(** [s.split(c).next()] and [s.rsplit(c).next()]. *)
Definition before_first (p : Z -> bool) (l : list Z) : list Z := match split_first p l with Some (a, _) => a | None => l end.
Definition after_last (p : Z -> bool) (l : list Z) : list Z := match split_last p l with Some (_, b) => b | None => l end.

(** [s.split(c)]. *)
Fixpoint split_all (p : Z -> bool) (l : list Z) : list (list Z) :=
  match l with
  | [] => [[]]
  | x :: l =>
      if p x then [] :: split_all p l
      else match split_all p l with q :: qs => (x :: q) :: qs | [] => [[x]] end
  end.

Fixpoint strip (p l : list Z) : option (list Z) :=
  match p, l with
  | [], _ => Some l
  | x :: p, y :: l => if x =? y then strip p l else None
  | _, [] => None
  end.

Definition starts (p l : list Z) : bool := match strip p l with Some _ => true | None => false end.
Definition ends (p l : list Z) : bool := starts (reverse p) (reverse l).

(** [l.windows(k).any(..)] for a needle of [k] elements. *)
Fixpoint contains_sub (p l : list Z) : bool := starts p l || match l with [] => false | _ :: l => contains_sub p l end.

(** ** Trimming *)

Fixpoint drop_while (p : Z -> bool) (l : list Z) : list Z :=
  match l with [] => [] | x :: l' => if p x then drop_while p l' else l end.

Definition drop_while_end (p : Z -> bool) (l : list Z) : list Z := reverse (drop_while p (reverse l)).

(** [trim_matches]. *)
Definition trim_by (p : Z -> bool) (l : list Z) : list Z := drop_while_end p (drop_while p l).

(** [char::is_whitespace]. *)
Definition is_whitespace (c : Z) : bool :=
  (9 <=? c) && (c <=? 13) || (c =? 32) || (c =? 133) || (c =? 160) || (c =? 5760) || (8192 <=? c) && (c <=? 8202)
  || (c =? 8232) || (c =? 8233) || (c =? 8239) || (c =? 8287) || (c =? 12288).

(** [u8::is_ascii_whitespace]. *)
Definition is_ascii_whitespace (b : Z) : bool := (b =? 9) || (b =? 10) || (b =? 12) || (b =? 13) || (b =? 32).

Definition trim_str (s : str) : str := trim_by is_whitespace s.
Definition trim_ascii (b : bytes) : bytes := trim_by is_ascii_whitespace b.

(** ** ASCII *)

Definition is_upper (c : Z) : bool := (65 <=? c) && (c <=? 90).
Definition is_lower (c : Z) : bool := (97 <=? c) && (c <=? 122).
Definition is_digit_char (c : Z) : bool := (48 <=? c) && (c <=? 57).
Definition is_alphabetic (c : Z) : bool := is_upper c || is_lower c.
Definition is_alphanumeric (c : Z) : bool := is_alphabetic c || is_digit_char c.

Definition lower (c : Z) : Z := if is_upper c then c + 32 else c.
Definition to_ascii_lowercase (s : list Z) : list Z := map lower s.
Definition eq_ignore_case (a b : list Z) : bool := bool_decide (to_ascii_lowercase a = to_ascii_lowercase b).

(** ** Lemmas *)

Lemma split_first_eq p l a b : split_first p l = Some (a, b) -> exists x, l = a ++ x :: b /\ p x = true /\ Forall (fun y => p y = false) a.
Proof.
  revert a. induction l as [|y l IH]; intros a; [done|]. cbn. destruct (p y) eqn:E; [intros [= <- <-]; by exists y|].
  destruct (split_first p l) as [[a' b']|]; [|done]. intros [= <- <-]. destruct (IH a' eq_refl) as (x & -> & Hx & Ha). exists x. by repeat constructor.
Qed.

Lemma split_last_eq p l a b : split_last p l = Some (a, b) -> exists x, l = a ++ x :: b /\ p x = true /\ Forall (fun y => p y = false) b.
Proof.
  revert a. induction l as [|y l IH]; intros a; [done|]. cbn. destruct (split_last p l) as [[a' b']|] eqn:E.
  - intros [= <- <-]. destruct (IH a' eq_refl) as (x & -> & Hx & Hb). by exists x.
  - destruct (p y) eqn:Ey; [|done]. intros [= <- <-]. exists y. split_and!; [done..|].
    clear IH Ey. induction l as [|z l IHl]; [done|]. cbn in E. destruct (split_last p l) as [[]|]; [done|].
    destruct (p z) eqn:Ez; [done|]. constructor; [done|]. by apply IHl.
Qed.

Lemma split_last_none p l : split_last p l = None -> Forall (fun y => p y = false) l.
Proof.
  induction l as [|z l IH]; [done|]. cbn. destruct (split_last p l) as [[]|]; [done|]. destruct (p z) eqn:Ez; [done|]. constructor; [done|]. by apply IH.
Qed.

Lemma split_last_app p a x b : p x = true -> Forall (fun y => p y = false) b -> split_last p (a ++ x :: b) = Some (a, b).
Proof.
  intros Hx Hb. assert (split_last p b = None) as Hn.
  { induction Hb as [|y b Hy _ IH]; [done|]. cbn. by rewrite IH, Hy. }
  induction a as [|y a IH]; cbn; [by rewrite Hn, Hx|]. by rewrite IH.
Qed.

Lemma drop_while_sub p l x : x ∈ drop_while p l -> x ∈ l.
Proof. induction l as [|y l IH]; [done|]. cbn. destruct (p y); [|done]. intros H. right. by apply IH. Qed.

Lemma drop_while_head p l x : head (drop_while p l) = Some x -> p x = false.
Proof. induction l as [|y l IH]; [done|]. cbn. destruct (p y) eqn:E; [done|]. by intros [= <-]. Qed.

Lemma drop_while_id p l : (forall x, head l = Some x -> p x = false) -> drop_while p l = l.
Proof. destruct l as [|x l]; [done|]. cbn. intros H. by rewrite (H x). Qed.

Lemma drop_while_suffix p l : exists k, l = k ++ drop_while p l.
Proof. induction l as [|x l [k IH]]; [by exists []|]. cbn. destruct (p x); [exists (x :: k); cbn; by f_equal|by exists []]. Qed.

Lemma drop_while_end_prefix p l : exists k, l = drop_while_end p l ++ k.
Proof.
  unfold drop_while_end. destruct (drop_while_suffix p (reverse l)) as [k Hk]. exists (reverse k). apply (f_equal reverse) in Hk.
  rewrite reverse_involutive, reverse_app in Hk. exact Hk.
Qed.

Lemma drop_while_end_last p l x : last (drop_while_end p l) = Some x -> p x = false.
Proof. unfold drop_while_end. rewrite last_reverse. apply drop_while_head. Qed.

Lemma trim_by_sub p l x : x ∈ trim_by p l -> x ∈ l.
Proof.
  unfold trim_by. intros Hx. apply (drop_while_sub p). destruct (drop_while_end_prefix p (drop_while p l)) as [k Hk]. rewrite Hk. set_solver.
Qed.

(** A trimmed text begins and ends with something else. *)
Definition trimmed (p : Z -> bool) (l : list Z) : Prop :=
  (forall x, head l = Some x -> p x = false) /\ (forall x, last l = Some x -> p x = false).

Lemma trim_by_trimmed p l : trimmed p (trim_by p l).
Proof.
  split; [|intros x; apply drop_while_end_last]. intros x Hx. destruct (drop_while_end_prefix p (drop_while p l)) as [k Hk].
  apply (drop_while_head p l). rewrite Hk. unfold trim_by in Hx. by destruct (drop_while_end p (drop_while p l)).
Qed.

Lemma trim_by_id p l : trimmed p l -> trim_by p l = l.
Proof.
  intros [H1 H2]. unfold trim_by. rewrite (drop_while_id p l) by done. unfold drop_while_end. rewrite drop_while_id, reverse_involutive; [done|].
  intros x. rewrite head_reverse. apply H2.
Qed.

Lemma trim_by_nil p l : trim_by p l = [] -> Forall (fun x => p x = true) l.
Proof.
  unfold trim_by, drop_while_end. intros H. apply (f_equal reverse) in H. rewrite reverse_involutive in H. cbn in H.
  assert (forall l, drop_while p l = [] -> Forall (fun x => p x = true) l) as Hall.
  { intros l0. induction l0 as [|x l0 IH]; [done|]. cbn. destruct (p x) eqn:E; [|done]. intros H0. constructor; [done|]. by apply IH. }
  apply Hall in H. rewrite Forall_reverse in H. apply Hall.
  destruct (drop_while p l) as [|x r] eqn:E; [done|]. exfalso. apply Forall_cons_1 in H as [Hx _].
  pose proof (drop_while_head p l x) as Hh. rewrite E in Hh. by rewrite Hh in Hx.
Qed.

Lemma str_len_app a b : str_len (a ++ b) = str_len a + str_len b.
Proof. apply sum_Z_app. Qed.

Lemma char_len_pos c : 1 <= char_len c <= 4.
Proof. unfold char_len. repeat case_match; lia. Qed.

Lemma str_len_nonneg s : 0 <= str_len s.
Proof. apply sum_Z_nonneg. intros c _. pose proof (char_len_pos c). lia. Qed.

Lemma encode_char_length c : Z.of_nat (length (encode_char c)) = char_len c.
Proof. unfold encode_char, char_len. by repeat case_match. Qed.

Lemma utf8_length s : Z.of_nat (length (utf8_encode s)) = str_len s.
Proof.
  induction s as [|c s IH]; [done|]. unfold utf8_encode in *. cbn [map concat]. rewrite length_app, Nat2Z.inj_add, IH, encode_char_length. done.
Qed.
