(* ===== verification/Disposition.v ===== *)
(** * Disposition: file names in response headers ([naming/disposition.rs],
    [naming/charset.rs])

    A [Content-Disposition] header is a byte string in one of several formats
    (quoted strings, RFC 8187 and RFC 2231 parameters, RFC 2047 words) or plain
    bytes of an unknown character set.  The tables of the character sets and the
    base64 decoder are outside code ([EncodingRs]); UTF-8 is [Unicode]'s. *)
From S2P Require Import Prelude Unicode.

Definition QUOTE : Z := 34.
Definition PERCENT : Z := 37.
Definition APOSTROPHE : Z := 39.
Definition STAR : Z := 42.
Definition SEMICOLON : Z := 59.
Definition EQUALS : Z := 61.
Definition QUESTION : Z := 63.
Definition BACKSLASH : Z := 92.
Definition UNDERSCORE : Z := 95.

(** ** Percent encoding *)

Definition hex_nibble (b : Z) : option Z :=
  if (48 <=? b) && (b <=? 57) then Some (b - 48)
  else if (97 <=? b) && (b <=? 102) then Some (b - 97 + 10)
  else if (65 <=? b) && (b <=? 70) then Some (b - 65 + 10)
  else None.

Definition from_nibbles (hi lo : Z) : Z := Z.lor (Z.shiftl hi 4) lo.

Definition escape_at (c h l : Z) : option Z :=
  if c =? PERCENT then
    match hex_nibble h, hex_nibble l with Some hi, Some lo => Some (from_nibbles hi lo) | _, _ => None end
  else None.

Fixpoint has_percent_escape (input : bytes) : bool :=
  match input with
  | c :: r => match r with h :: l :: _ => match escape_at c h l with Some _ => true | None => has_percent_escape r end | _ => false end
  | [] => false
  end.

Fixpoint percent_decode_bytes (input : bytes) : bytes :=
  match input with
  | [] => []
  | c :: r =>
      match r with
      | h :: l :: r' => match escape_at c h l with Some b => b :: percent_decode_bytes r' | None => c :: percent_decode_bytes r end
      | _ => c :: percent_decode_bytes r
      end
  end.

(** ** Character sets *)

Inductive Encoding :=
| GBK | GB18030 | BIG5 | SHIFT_JIS | UTF_8 | UTF_16LE | UTF_16BE | WINDOWS_1252 | EUC_KR | X_USER_DEFINED
| OtherEncoding (name : string).

#[export] Instance encoding_eq : EqDecision Encoding.
Proof. solve_decision. Defined.

Class EncodingRs := {
  for_label : bytes -> option Encoding;
  strict_decode : bytes -> Encoding -> option str;
  is_ascii_compatible : Encoding -> bool;
  lossy_windows_1252 : bytes -> str;
  base64_decode : bytes -> option bytes }.

Record NameHints := mk_hints { hi_host : option str; hi_page_charset : option bytes }.

Definition is_unscored_encoding `{EncodingRs} (e : Encoding) : bool :=
  bool_decide (e ∉ [UTF_8; UTF_16LE; UTF_16BE; GBK; GB18030; BIG5; SHIFT_JIS; WINDOWS_1252; X_USER_DEFINED]) && is_ascii_compatible e.

Definition host_tld (host : str) : str :=
  let tld := after_last (eqc 46) (drop_while_end (eqc 46) (trim_str host)) in
  default [] (head (filter (fun known => eq_ignore_case tld known = true) (map chars ["kr"; "cn"; "tw"; "hk"; "mo"; "jp"]%string))).

Definition in_range (lo hi b : Z) : bool := (lo <=? b) && (b <=? hi).

(** The scoring loops advance by one, two or four bytes; a fuel of the length. *)
Fixpoint score_gbk_loop (fuel : nat) (b : bytes) : Z :=
  match fuel, b with
  | S fuel, b1 :: r =>
      if b1 <? 128 then score_gbk_loop fuel r
      else
        match (if b1 =? 128 then None else head r) with
        | None => - 2 + score_gbk_loop fuel r
        | Some b2 =>
            if in_range 48 57 b2 then - 3 + score_gbk_loop fuel (drop 3 r)
            else
              let trail := in_range 161 254 b2 in
              (if in_range 176 215 b1 && trail then 2
               else if in_range 216 247 b1 && trail then 0
               else if ((b1 =? 161) || (b1 =? 163)) && trail then 0 else - 2)
              + score_gbk_loop fuel (drop 1 r)
        end
  | _, _ => 0
  end.
Definition score_gbk (b : bytes) : Z := score_gbk_loop (length b) b.

Fixpoint score_big5_loop (fuel : nat) (b : bytes) : Z :=
  match fuel, b with
  | S fuel, b1 :: r =>
      if b1 <? 128 then score_big5_loop fuel r
      else
        match r with
        | [] => - 2
        | b2 :: r =>
            (if in_range 164 197 b1 then 2
             else if (b1 =? 198) && (b2 <=? 126) then 2
             else if in_range 201 249 b1 || in_range 161 163 b1 then 0 else - 2)
            + score_big5_loop fuel r
        end
  | _, _ => 0
  end.
Definition score_big5 (b : bytes) : Z := score_big5_loop (length b) b.

Fixpoint score_shift_jis_loop (fuel : nat) (b : bytes) : Z :=
  match fuel, b with
  | S fuel, b1 :: r =>
      if b1 <? 128 then score_shift_jis_loop fuel r
      else if in_range 161 223 b1 then - 1 + score_shift_jis_loop fuel r
      else if (b1 =? 128) || (b1 =? 160) || in_range 253 255 b1 then - 2 + score_shift_jis_loop fuel r
      else
        match r with
        | [] => - 2
        | b2 :: r =>
            (if (b1 =? 130) && in_range 159 241 b2 then 2
             else if (b1 =? 131) && in_range 64 150 b2 then 2
             else if b1 =? 129 then 0
             else if in_range 137 151 b1 then 2
             else if (b1 =? 136) && (159 <=? b2) then 2
             else if (b1 =? 152) && (b2 <=? 114) then 2
             else if in_range 152 159 b1 || in_range 224 234 b1 then 0 else - 2)
            + score_shift_jis_loop fuel r
        end
  | _, _ => 0
  end.
Definition score_shift_jis (b : bytes) : Z := score_shift_jis_loop (length b) b.

Definition score_windows_1252 (b : bytes) : Z :=
  sum_list_with_Z (fun b =>
    if in_range 128 159 b then - 3
    else if in_range 160 191 b || (b =? 215) || (b =? 247) then - 1
    else if in_range 192 255 b then 1 else 0) b.

Section Decoding.
Context `{EncodingRs}.

Definition decode_with_label (b label : bytes) : option str := let* e := for_label label in strict_decode b e.

Definition consider (best : option (Z * str)) (candidate : Z * option str) : option (Z * str) :=
  match candidate.2 with
  | None => best
  | Some decoded =>
      match best with
      | Some (top, _) => if top <? candidate.1 then Some (candidate.1, decoded) else best
      | None => Some (candidate.1, decoded)
      end
  end.

Definition decode_legacy_bytes (b : bytes) (hints : NameHints) : str :=
  match from_utf8 b with
  | Some s => s
  | None =>
      let page := let* label := hi_page_charset hints in for_label label in
      match (let* e := page in if is_unscored_encoding e then strict_decode b e else None) with
      | Some s => s
      | None =>
          let tld := default [] (host_tld <$> hi_host hints) in
          match (if bool_decide (tld = chars "kr") then strict_decode b EUC_KR else None) with
          | Some s => s
          | None =>
              let page_is l := match page with Some p => bool_decide (p ∈ l) | None => false end in
              let tld_is l := bool_decide (tld ∈ map chars l) in
              let candidates :=
                [(score_gbk b + (if tld_is ["cn"%string] then 1 else 0) + (if page_is [GBK; GB18030] then 4 else 0), strict_decode b GBK);
                 (score_big5 b + (if tld_is ["tw"; "hk"; "mo"]%string then 1 else 0) + (if page_is [BIG5] then 4 else 0), strict_decode b BIG5);
                 (score_shift_jis b + (if tld_is ["jp"%string] then 1 else 0) + (if page_is [SHIFT_JIS] then 4 else 0), strict_decode b SHIFT_JIS);
                 (score_windows_1252 b, strict_decode b WINDOWS_1252)] in
              match foldl consider None candidates with Some (_, decoded) => decoded | None => lossy_windows_1252 b end
          end
      end
  end.

Definition decode_declared (b label : bytes) (hints : NameHints) : option str :=
  let* e := for_label label in
  if bool_decide (e = UTF_8) then Some (match from_utf8 b with Some s => s | None => decode_legacy_bytes b hints end)
  else strict_decode b e.

(** ** Parameters *)

Fixpoint split_semicolons (in_quotes : bool) (acc input : bytes) : list bytes :=
  match input with
  | [] => [reverse acc]
  | c :: r =>
      if (c =? BACKSLASH) && in_quotes then
        match r with
        | n :: r' =>
            if (n =? QUOTE) || (n =? BACKSLASH) then split_semicolons in_quotes (n :: c :: acc) r'
            else split_semicolons in_quotes (c :: acc) r
        | [] => split_semicolons in_quotes (c :: acc) r
        end
      else if c =? QUOTE then split_semicolons (negb in_quotes) (c :: acc) r
      else if (c =? SEMICOLON) && negb in_quotes then reverse acc :: split_semicolons in_quotes [] r
      else split_semicolons in_quotes (c :: acc) r
  end.

Definition parameter (part : bytes) : option (bytes * bytes) :=
  let* nv := split_first (eqc EQUALS) part in Some (trim_ascii nv.1, trim_ascii nv.2).

Definition split_params (header : bytes) : list (bytes * bytes) := omap parameter (split_semicolons false [] header).

Fixpoint unescape (inner : bytes) : bytes :=
  match inner with
  | [] => []
  | c :: r =>
      match r with
      | n :: r' => if (c =? BACKSLASH) && ((n =? QUOTE) || (n =? BACKSLASH)) then n :: unescape r' else c :: unescape r
      | [] => c :: unescape r
      end
  end.

Definition strip_suffix_byte (c : Z) (b : bytes) : bytes := match reverse b with x :: r => if x =? c then reverse r else b | [] => b end.
Definition strip_prefix_byte (c : Z) (b : bytes) : bytes := match b with x :: r => if x =? c then r else b | [] => b end.

Definition unquote (value : bytes) : bytes :=
  let value := trim_ascii value in
  match value with
  | c :: inner => if c =? QUOTE then unescape (strip_suffix_byte QUOTE inner) else value
  | [] => value
  end.

Definition strip_ext_quotes (value : bytes) : bytes :=
  trim_ascii (strip_suffix_byte QUOTE (strip_prefix_byte QUOTE (trim_ascii value))).

Definition split_ext_value (value : bytes) : option (bytes * bytes) :=
  match split_first (eqc APOSTROPHE) value with
  | None => None
  | Some (charset, rest) => match split_first (eqc APOSTROPHE) rest with Some (_, payload) => Some (charset, payload) | None => None end
  end.

Definition decode_with_declared_charset (b charset : bytes) (hints : NameHints) : option str :=
  let charset := trim_ascii charset in
  if bool_decide (charset = []) then Some (decode_legacy_bytes b hints) else decode_declared b charset hints.

Definition trimmed_non_empty (decoded : str) : option str := let t := trim_str decoded in if bool_decide (t = []) then None else Some t.

Definition decode_ext_value (value : bytes) (hints : NameHints) : option str :=
  match split_ext_value value with
  | None => None
  | Some (charset, payload) => let* decoded := decode_with_declared_charset (percent_decode_bytes payload) charset hints in trimmed_non_empty decoded
  end.

(** ** Continuations *)

Definition FILENAME_STAR : bytes := chars "filename*".

Definition number_of (digits : bytes) : Z := foldl (fun acc d => acc * 10 + (d - 48)) 0 digits.

Definition continuation_index (name : bytes) : option (Z * bool) :=
  if (length name <=? length FILENAME_STAR)%nat || negb (eq_ignore_case (take (length FILENAME_STAR) name) FILENAME_STAR) then None
  else
    let rest := drop (length FILENAME_STAR) name in
    let '(digits, encoded) := match last rest with Some c => if c =? STAR then (strip_suffix_byte STAR rest, true) else (rest, false) | None => (rest, false) end in
    if bool_decide (digits = []) || (4 <? length digits)%nat || negb (forallb is_digit_char digits) then None
    else Some (number_of digits, encoded).

(** A stable sort: an element goes before the later ones of its number. *)
Fixpoint insert_segment (x : Z * bool * bytes) (l : list (Z * bool * bytes)) : list (Z * bool * bytes) :=
  match l with [] => [x] | y :: l' => if x.1.1 <=? y.1.1 then x :: l else y :: insert_segment x l' end.
Definition sort_segments (l : list (Z * bool * bytes)) : list (Z * bool * bytes) := foldr insert_segment [] l.

Fixpoint dedup_segments (l : list (Z * bool * bytes)) : list (Z * bool * bytes) :=
  match l with
  | [] => []
  | x :: l' => match dedup_segments l' with y :: r => if x.1.1 =? y.1.1 then x :: r else x :: y :: r | [] => [x] end
  end.

Definition contiguous (l : list (Z * bool * bytes)) : bool := bool_decide (map (fun x => x.1.1) l = map Z.of_nat (seq 0 (length l))).

Definition segment_bytes (first : bool) (encoded : bool) (value : bytes) : option (option bytes * bytes) :=
  if encoded then
    let value := strip_ext_quotes value in
    if first then match split_ext_value value with Some (cs, payload) => Some (Some cs, percent_decode_bytes payload) | None => None end
    else Some (None, percent_decode_bytes value)
  else Some (None, unquote value).

Fixpoint join_segments (first : bool) (l : list (Z * bool * bytes)) (charset acc : bytes) : option (bytes * bytes) :=
  match l with
  | [] => Some (charset, acc)
  | (_, encoded, value) :: l =>
      match segment_bytes first encoded value with
      | None => None
      | Some (cs, b) => join_segments false l (default charset cs) (acc ++ b)
      end
  end.

Definition continuation_filename (params : list (bytes * bytes)) (hints : NameHints) : option str :=
  let segments := omap (fun nv => (fun ie => (ie.1, ie.2, nv.2)) <$> continuation_index nv.1) params in
  let segments := dedup_segments (sort_segments segments) in
  if bool_decide (segments = []) || negb (contiguous segments) then None
  else
    match join_segments true segments [] [] with
    | None => None
    | Some (charset, b) => let* decoded := decode_with_declared_charset b charset hints in trimmed_non_empty decoded
    end.

(** ** Encoded words *)

Fixpoint decode_q (text : bytes) : bytes :=
  match text with
  | [] => []
  | c :: r =>
      let plain := (if c =? UNDERSCORE then 32 else c) in
      match r with
      | h :: l :: r' =>
          match (if c =? EQUALS then match hex_nibble h, hex_nibble l with Some hi, Some lo => Some (from_nibbles hi lo) | _, _ => None end else None) with
          | Some b => b :: decode_q r'
          | None => plain :: decode_q r
          end
      | _ => plain :: decode_q r
      end
  end.

(** The length of the word and what it decodes to. *)
Definition parse_encoded_word (input : bytes) : option (nat * option str) :=
  match split_first (eqc QUESTION) (drop 2 input) with
  | None => None
  | Some (charset, rest) =>
      if bool_decide (charset = []) || existsb is_ascii_whitespace charset then None
      else
        let label := before_first (eqc STAR) charset in
        match rest with
        | encoding :: q :: rest =>
            if negb (existsb (eqc encoding) (chars "BbQq")) || negb (q =? QUESTION) then None
            else
              match split_first (eqc QUESTION) rest with
              | Some (text, e :: _) =>
                  if existsb is_ascii_whitespace text || negb (e =? EQUALS) then None
                  else
                    let b := if existsb (eqc encoding) (chars "Bb") then base64_decode text else Some (decode_q text) in
                    Some ((2 + length charset + 1 + 1 + 1 + length text + 2)%nat, let* b := b in decode_with_label b label)
              | _ => None
              end
        | _ => None
        end
  end.

Inductive Piece := Word (s : str) | Plain (b : bytes).

Definition plain_piece (acc : bytes) : list Piece := if bool_decide (acc = []) then [] else [Plain (reverse acc)].

(** The pieces of a value, or [None] when there is no word or one that cannot
    be decoded. *)
Fixpoint word_pieces (fuel : nat) (found : bool) (acc value : bytes) : option (list Piece) :=
  match fuel, value with
  | S fuel, c :: r =>
      match (if starts (chars "=?") value then parse_encoded_word value else None) with
      | Some (len, decoded) =>
          let* s := decoded in
          let* rest := word_pieces fuel true [] (drop len value) in
          Some (plain_piece acc ++ Word s :: rest)
      | None => word_pieces fuel found (c :: acc) r
      end
  | _, _ => if found then Some (plain_piece acc) else None
  end.

Definition is_word (p : option Piece) : bool := match p with Some (Word _) => true | _ => false end.

Fixpoint piece_texts (before : option Piece) (pieces : list Piece) (hints : NameHints) : str :=
  match pieces with
  | [] => []
  | Word s :: rest => s ++ piece_texts (Some (Word s)) rest hints
  | Plain b :: rest =>
      (if forallb is_ascii_whitespace b && is_word before && is_word (head rest) then [] else decode_legacy_bytes b hints)
      ++ piece_texts (Some (Plain b)) rest hints
  end.

Definition decode_encoded_words (value : bytes) (hints : NameHints) : option str :=
  let* pieces := word_pieces (length value) false [] value in Some (piece_texts None pieces hints).

(** ** The file name *)

Definition plain_filename (value : bytes) (hints : NameHints) : option str :=
  let value := trim_ascii (unquote value) in
  if bool_decide (value = []) then None
  else
    match (let* decoded := decode_encoded_words value hints in trimmed_non_empty decoded) with
    | Some name => Some name
    | None =>
        match (if has_percent_escape value then trimmed_non_empty (decode_legacy_bytes (percent_decode_bytes value) hints) else None) with
        | Some name => Some name
        | None => trimmed_non_empty (decode_legacy_bytes value hints)
        end
    end.

Definition first_some {A B} (f : A -> option B) (l : list A) : option B := head (omap f l).

Definition disposition_filename (header : bytes) (hints : NameHints) : option str :=
  let params := split_params header in
  let extended := first_some (fun nv => if eq_ignore_case nv.1 FILENAME_STAR then decode_ext_value (strip_ext_quotes nv.2) hints else None) params in
  match extended with
  | Some decoded => Some decoded
  | None =>
      match continuation_filename params hints with
      | Some decoded => Some decoded
      | None => first_some (fun nv => if eq_ignore_case nv.1 (chars "filename") then plain_filename nv.2 hints else None) params
      end
  end.
End Decoding.

(** ** What a server sends

    RFC 6266 has a server send a quoted name for old clients and the name itself
    in UTF-8, percent-encoded. *)

Definition escaped (c : Z) : bytes := if (c =? QUOTE) || (c =? BACKSLASH) then [BACKSLASH; c] else [c].
Definition quoted_string (b : bytes) : bytes := QUOTE :: concat (map escaped b) ++ [QUOTE].

Definition attr_char (b : Z) : bool := is_alphanumeric b || existsb (eqc b) (chars "!#$&+-.^_`|~").
Definition hex_digit (n : Z) : Z := if n <? 10 then 48 + n else 55 + n.
Definition percent_encode_byte (b : Z) : bytes := if attr_char b then [b] else [PERCENT; hex_digit (b / 16); hex_digit (b mod 16)].
Definition percent_encode (b : bytes) : bytes := concat (map percent_encode_byte b).

Definition plain_header (shown : bytes) : bytes := chars "attachment; filename=" ++ quoted_string shown.
Definition full_header (shown : bytes) (name : str) : bytes :=
  plain_header shown ++ chars "; filename*=UTF-8''" ++ percent_encode (utf8_encode name).

Definition is_byte (b : Z) : Prop := 0 <= b < 256.

Lemma encode_char_bytes c : is_scalar c -> Forall is_byte (encode_char c).
Proof. intros Hc. unfold is_scalar in Hc. unfold encode_char. repeat case_match; bool_hyps; repeat constructor; unfold is_byte; div_lia. Qed.

Lemma utf8_bytes s : Forall is_scalar s -> Forall is_byte (utf8_encode s).
Proof. induction 1 as [|c s Hc _ IH]; [done|]. unfold utf8_encode. cbn. apply Forall_app. split; [by apply encode_char_bytes|done]. Qed.

Lemma hex_nibble_digit n : 0 <= n < 16 -> hex_nibble (hex_digit n) = Some n.
Proof. intros Hn. unfold hex_digit. destruct (Z.ltb_spec n 10); unfold hex_nibble; repeat split_test; f_equal; lia. Qed.

Lemma from_nibbles_eq hi lo : 0 <= lo < 16 -> from_nibbles hi lo = hi * 16 + lo.
Proof.
  intros Hl. unfold from_nibbles. pose proof (Z.add_lor_land (Z.shiftl hi 4) lo) as Hsum.
  enough (Z.land (Z.shiftl hi 4) lo = 0) as H0 by (rewrite H0, Z.shiftl_mul_pow2 in Hsum by lia; rewrite Z.shiftl_mul_pow2 by lia; lia).
  apply Z.bits_inj'. intros n Hn.
  rewrite Z.land_spec, Z.bits_0. destruct (Z.lt_ge_cases n 4).
  - rewrite Z.shiftl_spec_low by done. done.
  - rewrite (Z.bits_above_log2 lo n), andb_false_r; [done|lia|]. destruct (Z.eq_dec lo 0) as [->|]; [cbn; lia|].
    apply Z.log2_lt_pow2; [lia|]. pose proof (Z.pow_le_mono_r 2 4 n). lia.
Qed.

Lemma percent_decode_plain c r : c <> PERCENT -> percent_decode_bytes (c :: r) = c :: percent_decode_bytes r.
Proof.
  intros Hc. cbn [percent_decode_bytes]. destruct r as [|h [|l r]]; [done..|]. unfold escape_at. by rewrite (proj2 (Z.eqb_neq _ _)).
Qed.

Lemma attr_char_values : Forall (fun b => attr_char b = true -> b <> PERCENT /\ b <> QUOTE /\ b <> SEMICOLON /\ b <> APOSTROPHE /\ is_ascii_whitespace b = false)
  (map Z.of_nat (seq 0 256)).
Proof. apply (bool_decide_unpack _). by vm_compute. Qed.

Lemma attr_char_not b : is_byte b -> attr_char b = true ->
  b <> PERCENT /\ b <> QUOTE /\ b <> SEMICOLON /\ b <> APOSTROPHE /\ is_ascii_whitespace b = false.
Proof.
  intros Hb. pose proof attr_char_values as H. rewrite Forall_forall in H. apply H. apply list_elem_of_fmap. exists (Z.to_nat b).
  unfold is_byte in Hb. split; [lia|]. apply elem_of_seq. lia.
Qed.

Lemma hex_digit_values : Forall (fun n => is_alphanumeric (hex_digit n) = true) (map Z.of_nat (seq 0 16)).
Proof. apply (bool_decide_unpack _). by vm_compute. Qed.

(** Decoding inverts encoding. *)
Lemma percent_decode_encode b : Forall is_byte b -> percent_decode_bytes (percent_encode b) = b.
Proof.
  induction 1 as [|x b Hx _ IH]; [done|]. unfold percent_encode. cbn [map concat]. unfold percent_encode_byte at 1. destruct (attr_char x) eqn:E.
  - cbn [app]. rewrite percent_decode_plain by (by apply attr_char_not). by f_equal.
  - cbn [app percent_decode_bytes]. unfold escape_at. rewrite Z.eqb_refl. unfold is_byte in Hx.
    rewrite !hex_nibble_digit by div_lia. rewrite from_nibbles_eq by div_lia. f_equal; [div_lia|exact IH].
Qed.

(** ** Reading it back *)

Lemma split_passes acc p r :
  Forall (fun c => c <> QUOTE /\ c <> SEMICOLON) p -> split_semicolons false acc (p ++ r) = split_semicolons false (reverse p ++ acc) r.
Proof.
  intros Hp. revert acc. induction Hp as [|c p [Hq Hs] _ IH]; intros acc; [done|]. cbn [app split_semicolons].
  rewrite andb_false_r, (proj2 (Z.eqb_neq _ _) Hq), (proj2 (Z.eqb_neq _ _) Hs). cbn [andb]. rewrite IH, reverse_cons, <- app_assoc. done.
Qed.

Lemma split_escaped acc shown r :
  split_semicolons true acc (concat (map escaped shown) ++ QUOTE :: r) = split_semicolons false (QUOTE :: reverse (concat (map escaped shown)) ++ acc) r.
Proof.
  revert acc. induction shown as [|c shown IH]; intros acc; [done|]. cbn [map concat]. rewrite <- app_assoc. unfold escaped at 1 3.
  destruct (Z.eqb_spec c QUOTE) as [->|Hq]; [|destruct (Z.eqb_spec c BACKSLASH) as [->|Hb]]; cbn [orb].
  - change ([BACKSLASH; QUOTE] ++ ?x) with (BACKSLASH :: QUOTE :: x). cbn [split_semicolons].
    change ((BACKSLASH =? BACKSLASH) && true) with true. change ((QUOTE =? QUOTE) || (QUOTE =? BACKSLASH)) with true.
    rewrite IH. do 2 f_equal. rewrite !reverse_cons, <- !app_assoc. done.
  - change ([BACKSLASH; BACKSLASH] ++ ?x) with (BACKSLASH :: BACKSLASH :: x). cbn [split_semicolons].
    change ((BACKSLASH =? BACKSLASH) && true) with true. change ((BACKSLASH =? QUOTE) || (BACKSLASH =? BACKSLASH)) with true.
    rewrite IH. do 2 f_equal. rewrite !reverse_cons, <- !app_assoc. done.
  - cbn [app split_semicolons]. rewrite (proj2 (Z.eqb_neq _ _) Hb), (proj2 (Z.eqb_neq _ _) Hq). cbn [andb negb].
    rewrite andb_false_r, IH. do 2 f_equal. rewrite !reverse_cons, <- !app_assoc. done.
Qed.

Lemma split_quoted acc shown r :
  split_semicolons false acc (quoted_string shown ++ r) = split_semicolons false (reverse (quoted_string shown) ++ acc) r.
Proof.
  unfold quoted_string. rewrite <- app_comm_cons, <- app_assoc. cbn [split_semicolons]. change (QUOTE =? BACKSLASH) with false. cbn [andb].
  rewrite Z.eqb_refl. cbn [negb app]. rewrite split_escaped. f_equal. rewrite reverse_cons, reverse_app, <- !app_assoc. done.
Qed.

Lemma percent_encode_safe b :
  Forall is_byte b -> Forall (fun c => attr_char c = true \/ c = PERCENT) (percent_encode b) /\ Forall is_byte (percent_encode b).
Proof.
  intros Hb. apply Forall_and. unfold percent_encode. induction Hb as [|x b Hx _ IH]; [done|]. cbn [map concat]. apply Forall_app. split; [|done].
  unfold percent_encode_byte. destruct (attr_char x) eqn:E; [apply Forall_singleton; auto|].
  assert (forall n, 0 <= n < 16 -> attr_char (hex_digit n) = true /\ is_byte (hex_digit n)) as Hd.
  { intros n Hn. split.
    - unfold attr_char. pose proof hex_digit_values as H. rewrite Forall_forall in H. rewrite H; [done|].
      apply list_elem_of_fmap. exists (Z.to_nat n). split; [f_equal; lia|apply elem_of_seq; lia].
    - unfold is_byte, hex_digit. case_match; lia. }
  unfold is_byte in Hx. destruct (Hd (x / 16)) as [H1 H2]; [div_lia|]. destruct (Hd (x mod 16)) as [H3 H4]; [div_lia|].
  apply Forall_cons. split; [split; [by right|unfold is_byte, PERCENT; lia]|]. apply Forall_cons. split; [auto|]. apply Forall_singleton. auto.
Qed.

Lemma split_first_app p a x b : p x = true -> Forall (fun y => p y = false) a -> split_first p (a ++ x :: b) = Some (a, b).
Proof. intros Hx Ha. induction Ha as [|y a Hy _ IH]; cbn; [by rewrite Hx|]. by rewrite Hy, IH. Qed.

(** The parameters of the two headers. *)
Lemma plain_split shown r :
  split_semicolons false [] (plain_header shown ++ r) =
  chars "attachment" :: split_semicolons false (reverse (chars " filename=" ++ quoted_string shown)) r.
Proof.
  unfold plain_header. change (chars "attachment; filename=") with (chars "attachment" ++ SEMICOLON :: chars " filename=").
  rewrite <- !app_assoc, (split_passes [] (chars "attachment")) by (apply (bool_decide_unpack _); by vm_compute).
  rewrite <- app_comm_cons. cbn [split_semicolons].
  change ((SEMICOLON =? BACKSLASH) && false) with false. change (SEMICOLON =? QUOTE) with false. change ((SEMICOLON =? SEMICOLON) && negb false) with true.
  rewrite (split_passes [] (chars " filename=")) by (apply (bool_decide_unpack _); by vm_compute).
  rewrite split_quoted, !app_nil_r, reverse_involutive, <- reverse_app. done.
Qed.

Lemma filename_parameter shown : parameter (chars " filename=" ++ quoted_string shown) = Some (chars "filename", trim_ascii (quoted_string shown)).
Proof.
  unfold parameter. change (chars " filename=" ++ quoted_string shown) with (chars " filename" ++ EQUALS :: quoted_string shown).
  rewrite split_first_app; [done|done|]. apply (bool_decide_unpack _). by vm_compute.
Qed.

Lemma star_parameter v : parameter (chars " filename*=" ++ v) = Some (FILENAME_STAR, trim_ascii v).
Proof.
  unfold parameter. change (chars " filename*=" ++ v) with (chars " filename*" ++ EQUALS :: v).
  rewrite split_first_app; [done|done|]. apply (bool_decide_unpack _). by vm_compute.
Qed.

Lemma plain_params shown : split_params (plain_header shown) = [(chars "filename", trim_ascii (quoted_string shown))].
Proof.
  unfold split_params. rewrite <- (app_nil_r (plain_header shown)), plain_split. cbn [split_semicolons]. rewrite reverse_involutive.
  cbn [omap list_omap]. by rewrite filename_parameter.
Qed.

(** The value of an extended parameter. *)
Definition extended_value (name : str) : bytes := chars "UTF-8''" ++ percent_encode (utf8_encode name).

Lemma extended_trimmed name : Forall is_scalar name -> trimmed is_ascii_whitespace (extended_value name) /\ trimmed (eqc QUOTE) (extended_value name).
Proof.
  intros Hn. destruct (percent_encode_safe (utf8_encode name)) as [H1 H2]; [by apply utf8_bytes|]. unfold extended_value.
  assert (forall x, last (chars "UTF-8''" ++ percent_encode (utf8_encode name)) = Some x -> is_ascii_whitespace x = false /\ eqc QUOTE x = false) as Hlast.
  { intros x. rewrite last_app. destruct (last (percent_encode (utf8_encode name))) as [y|] eqn:E; [|by intros [= <-]]. intros [= <-].
    apply last_Some_elem_of in E. rewrite Forall_forall in H1, H2. destruct (H1 _ E) as [Ha| ->]; [|done].
    destruct (attr_char_not y (H2 _ E) Ha) as (_ & Hq & _ & _ & Hw). split; [done|]. by apply Z.eqb_neq. }
  split; (split; [by intros x [= <-]|intros x Hx; by apply Hlast]).
Qed.

Lemma full_params shown name :
  Forall is_scalar name ->
  split_params (full_header shown name) = [(chars "filename", trim_ascii (quoted_string shown)); (FILENAME_STAR, extended_value name)].
Proof.
  intros Hn. unfold split_params, full_header. rewrite plain_split.
  change (chars "; filename*=UTF-8''" ++ percent_encode (utf8_encode name)) with (SEMICOLON :: chars " filename*=" ++ extended_value name).
  cbn [split_semicolons]. change ((SEMICOLON =? BACKSLASH) && false) with false. change (SEMICOLON =? QUOTE) with false.
  change ((SEMICOLON =? SEMICOLON) && negb false) with true. rewrite reverse_involutive.
  rewrite <- (app_nil_r (chars " filename*=" ++ extended_value name)), split_passes.
  - cbn [split_semicolons]. rewrite app_nil_r, reverse_involutive. cbn [omap list_omap]. rewrite filename_parameter, star_parameter.
    assert (trim_ascii (extended_value name) = extended_value name) as -> by (by apply trim_by_id, extended_trimmed). done.
  - destruct (percent_encode_safe (utf8_encode name)) as [H1 H2]; [by apply utf8_bytes|]. apply Forall_app. split; [apply (bool_decide_unpack _); by vm_compute|].
    apply Forall_app. split; [apply (bool_decide_unpack _); by vm_compute|]. rewrite Forall_forall in H1, H2 |- *. intros x Hx.
    destruct (H1 _ Hx) as [Ha| ->]; [|done]. destruct (attr_char_not x (H2 _ Hx) Ha) as (_ & ? & ? & _). done.
Qed.

Lemma strip_byte_id c v : trimmed (eqc c) v -> strip_suffix_byte c (strip_prefix_byte c v) = v.
Proof.
  intros [H1 H2]. assert (strip_prefix_byte c v = v) as ->.
  { destruct v as [|x v]; [done|]. cbn. specialize (H1 x eq_refl). unfold eqc in H1. by rewrite H1. }
  unfold strip_suffix_byte. destruct (reverse v) as [|x r] eqn:E; [done|]. specialize (H2 x). rewrite <- head_reverse, E in H2.
  unfold eqc in H2. by rewrite (H2 eq_refl).
Qed.

Lemma extended_decodes `{EncodingRs} name hints :
  for_label (chars "UTF-8") = Some UTF_8 -> Forall is_scalar name ->
  decode_ext_value (strip_ext_quotes (extended_value name)) hints = trimmed_non_empty name.
Proof.
  intros Hl Hn. destruct (extended_trimmed name Hn) as [Hw Hq]. unfold strip_ext_quotes, trim_ascii.
  rewrite (trim_by_id _ _ Hw), (strip_byte_id _ _ Hq), (trim_by_id _ _ Hw). unfold decode_ext_value, split_ext_value, extended_value.
  change (chars "UTF-8''" ++ percent_encode (utf8_encode name)) with (chars "UTF-8" ++ APOSTROPHE :: APOSTROPHE :: percent_encode (utf8_encode name)).
  rewrite split_first_app; [|done|apply (bool_decide_unpack _); by vm_compute]. cbn [split_first]. change (eqc APOSTROPHE APOSTROPHE) with true. cbv iota.
  rewrite percent_decode_encode by (by apply utf8_bytes). unfold decode_with_declared_charset. change (trim_ascii (chars "UTF-8")) with (chars "UTF-8").
  rewrite bool_decide_false by done. unfold decode_declared. rewrite Hl, bool_decide_true by done. by rewrite from_utf8_encode.
Qed.

(** *** Quoted strings *)

Lemma quoted_trimmed shown : trim_ascii (quoted_string shown) = quoted_string shown.
Proof.
  apply trim_by_id. split; [by intros x [= <-]|]. intros x. unfold quoted_string. rewrite app_comm_cons, last_snoc. by intros [= <-].
Qed.

Lemma unescape_escaped b : unescape (concat (map escaped b)) = b.
Proof.
  induction b as [|c b IH]; [done|]. cbn [map concat]. unfold escaped at 1.
  destruct ((c =? QUOTE) || (c =? BACKSLASH)) eqn:E.
  - change ([BACKSLASH; c] ++ concat (map escaped b)) with (BACKSLASH :: c :: concat (map escaped b)). cbn [unescape].
    change (BACKSLASH =? BACKSLASH) with true. rewrite E. cbn [andb]. by f_equal.
  - apply orb_false_iff in E as [_ E]. cbn [app unescape]. destruct (concat (map escaped b)) as [|n r] eqn:Ec; [by destruct b; [|cbn in IH; subst]|].
    rewrite E. cbn [andb]. by f_equal.
Qed.

Lemma unquote_quoted b : unquote (trim_ascii (quoted_string b)) = b.
Proof.
  unfold unquote. rewrite !quoted_trimmed. unfold quoted_string at 1. rewrite Z.eqb_refl. unfold strip_suffix_byte.
  rewrite reverse_snoc, Z.eqb_refl, reverse_involutive. apply unescape_escaped.
Qed.

(** *** Names without escapes *)

Lemma no_words `{EncodingRs} fuel acc value : QUESTION ∉ value -> word_pieces fuel false acc value = None.
Proof.
  revert acc value. induction fuel as [|fuel IH]; intros acc [|c value] Hq; try done. cbn [word_pieces].
  assert (starts (chars "=?") (c :: value) = false) as ->.
  { change (chars "=?") with [EQUALS; QUESTION]. unfold starts. cbn [strip]. destruct (EQUALS =? c); [|done]. destruct value as [|d value]; [done|].
    destruct (Z.eqb_spec QUESTION d) as [<-|]; [|done]. exfalso. apply Hq. set_solver. }
  apply IH. set_solver.
Qed.

Lemma no_escapes value : PERCENT ∉ value -> has_percent_escape value = false.
Proof.
  induction value as [|c value IH]; intros Hp; [done|]. cbn [has_percent_escape]. destruct value as [|h [|l value]]; [done..|].
  assert (escape_at c h l = None) as ->; [|apply IH; set_solver]. unfold escape_at. rewrite (proj2 (Z.eqb_neq _ _)); [done|]. intros ->. apply Hp. set_solver.
Qed.

(** A character below 128 in the bytes is a character of the text. *)
Lemma ascii_in_utf8 s b : Forall is_scalar s -> b < 128 -> b ∈ utf8_encode s -> b ∈ s.
Proof.
  intros Hs Hb. induction Hs as [|c s Hc _ IH]; [done|]. unfold utf8_encode. cbn [map concat]. intros [Hin|Hin]%elem_of_app; [|right; by apply IH].
  assert (b = c) as ->; [|by left]. unfold is_scalar in Hc. unfold encode_char in Hin.
  repeat case_match; bool_hyps; repeat (apply elem_of_cons in Hin as [Hin|Hin]; [try done; exfalso; div_lia|]); by apply not_elem_of_nil in Hin.
Qed.

Lemma encode_head c : is_scalar c -> exists b, head (encode_char c) = Some b /\ (b = c \/ 128 <= b).
Proof. intros Hc. unfold is_scalar in Hc. unfold encode_char. repeat case_match; bool_hyps; eexists; (split; [done|]); [by left|right; div_lia..]. Qed.

Lemma encode_last c : is_scalar c -> exists b, last (encode_char c) = Some b /\ (b = c \/ 128 <= b).
Proof. intros Hc. unfold is_scalar in Hc. unfold encode_char. repeat case_match; bool_hyps; eexists; (split; [done|]); [by left|right; div_lia..]. Qed.

Lemma high_not_space b : 128 <= b -> is_ascii_whitespace b = false.
Proof. intros Hb. unfold is_ascii_whitespace. rewrite !(proj2 (Z.eqb_neq _ _)) by lia. done. Qed.

Lemma space_not_space c : is_whitespace c = false -> is_ascii_whitespace c = false.
Proof.
  unfold is_whitespace, is_ascii_whitespace. intros H. repeat (apply orb_false_elim in H as [H ?]).
  destruct (Z.eqb_spec c 9) as [->|]; [done|]. destruct (Z.eqb_spec c 10) as [->|]; [done|]. destruct (Z.eqb_spec c 12) as [->|]; [done|].
  destruct (Z.eqb_spec c 13) as [->|]; [done|]. destruct (Z.eqb_spec c 32) as [->|]; done.
Qed.

Lemma utf8_trimmed s : Forall is_scalar s -> trimmed is_whitespace s -> trimmed is_ascii_whitespace (utf8_encode s).
Proof.
  intros Hs [H1 H2]. split.
  - intros x Hx. destruct s as [|c s]; [done|]. apply Forall_cons_1 in Hs as [Hc _]. destruct (encode_head c Hc) as (b & Hb & Hor).
    unfold utf8_encode in Hx. cbn [map concat] in Hx. rewrite head_app, Hb in Hx. injection Hx as <-.
    destruct Hor as [->|Hhigh]; [by apply space_not_space, H1|by apply high_not_space].
  - intros x Hx. destruct s as [|c s _] using rev_ind; [done|]. apply Forall_app in Hs as [_ Hc]. apply Forall_cons_1 in Hc as [Hc _].
    destruct (encode_last c Hc) as (b & Hb & Hor). unfold utf8_encode in Hx. rewrite map_app, concat_app in Hx. cbn [map concat] in Hx.
    rewrite app_nil_r, last_app, Hb in Hx. injection Hx as <-. destruct Hor as [->|Hhigh]; [|by apply high_not_space].
    apply space_not_space, H2. by rewrite last_snoc.
Qed.

(** ** The theorem *)

(** C29. What servers send is read back.  From a header with the quoted name and the
    name in UTF-8, percent-encoded, any text at all is read, trimmed, whatever the
    quoted name contains (quotes, semicolons, backslashes, foreign bytes); and from
    a header with the quoted name alone a name in UTF-8 that is trimmed and holds
    neither a percent sign nor a question mark, which are taken for the signs of
    other encodings and decoded. *)
Theorem names_read_back `{EncodingRs} shown name hints :
  for_label (chars "UTF-8") = Some UTF_8 -> Forall is_scalar name -> trim_str name <> [] ->
  disposition_filename (full_header shown name) hints = Some (trim_str name) /\
  (trim_str name = name -> PERCENT ∉ name -> QUESTION ∉ name -> disposition_filename (plain_header (utf8_encode name)) hints = Some name).
Proof.
  intros Hl Hn Hne. split.
  - unfold disposition_filename, first_some. rewrite full_params by done. cbn [omap list_omap].
    change (eq_ignore_case (chars "filename", trim_ascii (quoted_string shown)).1 FILENAME_STAR) with false.
    change (eq_ignore_case (FILENAME_STAR, extended_value name).1 FILENAME_STAR) with true. cbn [snd].
    rewrite extended_decodes by done. unfold trimmed_non_empty. by rewrite bool_decide_false.
  - intros Ht Hp Hq. unfold disposition_filename, first_some. rewrite plain_params. cbn [omap list_omap fst snd].
    change (eq_ignore_case (chars "filename") FILENAME_STAR) with false. cbn [head].
    assert (continuation_filename [(chars "filename", trim_ascii (quoted_string (utf8_encode name)))] hints = None) as -> by done.
    change (eq_ignore_case (chars "filename") (chars "filename")) with true. cbv iota. unfold plain_filename. rewrite unquote_quoted.
    assert (trim_ascii (utf8_encode name) = utf8_encode name) as ->.
    { apply trim_by_id, utf8_trimmed; [done|]. rewrite <- Ht. apply trim_by_trimmed. }
    rewrite bool_decide_false.
    2:{ intros H0. apply Hne. rewrite Ht. apply (f_equal from_utf8) in H0. rewrite from_utf8_encode in H0 by done. by injection H0. }
    unfold decode_encoded_words. rewrite no_words by (intros ?%ascii_in_utf8; done). rewrite no_escapes by (intros ?%ascii_in_utf8; done).
    unfold decode_legacy_bytes. rewrite from_utf8_encode by done. unfold trimmed_non_empty. rewrite Ht, bool_decide_false by congruence. done.
Qed.

(** ** Witness *)

Definition utf8_only : EncodingRs := {|
  for_label := fun l => if eq_ignore_case l (chars "utf-8") then Some UTF_8 else None;
  strict_decode := fun b e => if bool_decide (e = UTF_8) then from_utf8 b else None;
  is_ascii_compatible := fun _ => true; lossy_windows_1252 := fun b => b; base64_decode := fun _ => None |}.

(** Two Chinese characters with an extension, and a quoted name full of traps. *)
Definition sample_name : str := [25991; 20214] ++ chars ".txt".

Lemma names_read_back_witness :
  @disposition_filename utf8_only (full_header (chars "a;\b=.txt") sample_name) (mk_hints None None) = Some sample_name /\
  @disposition_filename utf8_only (plain_header (utf8_encode sample_name)) (mk_hints None None) = Some sample_name.
Proof.
  destruct (@names_read_back utf8_only (chars "a;\b=.txt") sample_name (mk_hints None None)) as [H1 H2].
  - by vm_compute.
  - apply (bool_decide_unpack _). by vm_compute.
  - by vm_compute.
  - split; [exact H1|]. apply H2; [by vm_compute|apply (bool_decide_unpack _); by vm_compute..].
Defined.
