(* ===== verification/Naming.v ===== *)
(** * Naming: the names of downloads ([native/engine/src/naming])

    The name of a download is found in the response's headers, the query or the
    path of its address, its type, and when it is complete in its first bytes;
    every name passes through [sanitize_filename].  Theorems: every name is one
    safe path component, refinement settles, an explicit name keeps its stem. *)
From S2P Require Import Prelude Unicode Disposition.

Definition DOTC : Z := 46.
Definition SPACE : Z := 32.
Definition SLASH : Z := 47.
Definition HASH : Z := 35.
Definition AMPERSAND : Z := 38.

(** ** Sanitizing ([sanitize.rs]) *)

Definition MAX_FILENAME_BYTES : Z := 200.

Definition WINDOWS_RESERVED_NAMES : list str :=
  map chars ["CON"; "PRN"; "AUX"; "NUL"; "COM1"; "COM2"; "COM3"; "COM4"; "COM5"; "COM6"; "COM7"; "COM8"; "COM9";
             "LPT1"; "LPT2"; "LPT3"; "LPT4"; "LPT5"; "LPT6"; "LPT7"; "LPT8"; "LPT9"]%string.

(** [char::is_control]: category Cc. *)
Definition is_control (c : Z) : bool := in_range 0 31 c || in_range 127 159 c.

Definition is_illegal (c : Z) : bool := existsb (eqc c) (chars "<>:/\|?*" ++ [QUOTE]).

Definition is_bidi (c : Z) : bool := (c =? 1564) || (c =? 8206) || (c =? 8207) || in_range 8234 8238 c || in_range 8294 8297 c.
Definition is_invisible (c : Z) : bool := (c =? 65279) || (c =? 8203).

Definition clean_char (c : Z) : option Z :=
  if is_illegal c then Some UNDERSCORE
  else if is_control c then Some UNDERSCORE
  else if is_bidi c then Some UNDERSCORE
  else if is_invisible c then None
  else Some c.

Definition dot_or_space (c : Z) : bool := (c =? DOTC) || (c =? SPACE).

Definition is_reserved (stem : str) : bool := existsb (eq_ignore_case stem) WINDOWS_RESERVED_NAMES.

(** The byte offsets of the characters. *)
Fixpoint char_indices (i : Z) (s : str) : list Z := match s with [] => [] | c :: s => i :: char_indices (i + char_len c) s end.

Fixpoint take_while (p : Z -> bool) (l : list Z) : list Z := match l with x :: l => if p x then x :: take_while p l else [] | [] => [] end.

(** [&s[..n]] at the start of a character. *)
Fixpoint prefix_bytes (n : Z) (s : str) : str := match s with c :: s => if n <=? 0 then [] else c :: prefix_bytes (n - char_len c) s | [] => [] end.

(** From the last dot on. *)
Definition split_extension (s : str) : str * str := match split_last (eqc DOTC) s with Some (stem, ext) => (stem, DOTC :: ext) | None => (s, []) end.

Definition truncate (s : str) : str :=
  let '(stem, ext) := split_extension s in
  let budget := Z.max (MAX_FILENAME_BYTES - str_len ext) 0 in
  let cut := default 0 (last (take_while (fun i => i <=? budget) (char_indices 0 stem))) in
  trim_by dot_or_space (prefix_bytes cut stem ++ ext).

Definition or_download (s : str) : str := if bool_decide (s = []) then chars "download" else s.

Definition sanitize_filename (name : str) : str :=
  let s := trim_by dot_or_space (omap clean_char name) in
  if bool_decide (s = []) then chars "download"
  else
    let s := if is_reserved (before_first (eqc DOTC) s) then UNDERSCORE :: s else s in
    if str_len s <=? MAX_FILENAME_BYTES then s else or_download (truncate s).

(** ** Types ([mime.rs]) *)

Definition MIME_TYPES : list (str * str) :=
  map (fun x => (chars x.1, chars x.2))
    [("application/pdf", "pdf"); ("application/zip", "zip");
     ("application/x-gzip", "gz"); ("application/gzip", "gz");
     ("application/x-tar", "tar"); ("application/x-bzip2", "bz2");
     ("application/x-xz", "xz"); ("application/x-7z-compressed", "7z");
     ("application/x-rar-compressed", "rar"); ("application/vnd.rar", "rar");
     ("application/json", "json"); ("application/xml", "xml");
     ("text/xml", "xml"); ("application/javascript", "js");
     ("text/javascript", "js"); ("application/wasm", "wasm");
     ("application/vnd.openxmlformats-officedocument.spreadsheetml.sheet", "xlsx"); ("application/vnd.openxmlformats-officedocument.wordprocessingml.document", "docx");
     ("application/vnd.openxmlformats-officedocument.presentationml.presentation", "pptx"); ("application/msword", "doc");
     ("application/vnd.ms-excel", "xls"); ("application/vnd.ms-powerpoint", "ppt");
     ("application/x-iso9660-image", "iso"); ("application/x-msdownload", "exe");
     ("application/x-dosexec", "exe"); ("application/vnd.android.package-archive", "apk");
     ("application/java-archive", "jar"); ("application/x-shockwave-flash", "swf");
     ("application/x-debian-package", "deb"); ("application/x-rpm", "rpm");
     ("application/x-msi", "msi"); ("application/vnd.apple.installer+xml", "pkg");
     ("text/html", "html"); ("text/css", "css");
     ("text/csv", "csv"); ("text/plain", "txt");
     ("image/jpeg", "jpg"); ("image/png", "png");
     ("image/gif", "gif"); ("image/webp", "webp");
     ("image/svg+xml", "svg"); ("image/bmp", "bmp");
     ("image/x-icon", "ico"); ("image/vnd.microsoft.icon", "ico");
     ("image/tiff", "tiff"); ("image/avif", "avif");
     ("audio/mpeg", "mp3"); ("audio/ogg", "ogg");
     ("audio/wav", "wav"); ("audio/x-wav", "wav");
     ("audio/flac", "flac"); ("audio/aac", "aac");
     ("audio/mp4", "m4a"); ("audio/x-m4a", "m4a");
     ("audio/webm", "weba"); ("video/mp4", "mp4");
     ("video/webm", "webm"); ("video/x-matroska", "mkv");
     ("video/x-msvideo", "avi"); ("video/quicktime", "mov");
     ("video/x-flv", "flv"); ("video/mp2t", "ts");
     ("video/3gpp", "3gp"); ("font/woff", "woff");
     ("font/woff2", "woff2"); ("font/ttf", "ttf");
     ("application/x-font-ttf", "ttf"); ("font/otf", "otf")]%string.

Definition mime_to_ext (content_type : str) : option str :=
  let ct := trim_str (before_first (eqc SEMICOLON) content_type) in
  snd <$> head (filter (fun x => x.1 = ct) MIME_TYPES).

Definition has_plausible_extension (name : str) : bool :=
  match split_last (eqc DOTC) name with
  | Some (_, ext) => negb (bool_decide (ext = [])) && (str_len ext <=? 10) && forallb is_alphanumeric ext
  | None => false
  end.

Definition SCRIPT_ENDPOINT_EXTENSIONS : list str :=
  map chars ["php"; "asp"; "aspx"; "jsp"; "jspx"; "cgi"; "pl"; "do"; "action"; "html"; "htm"; "shtml"]%string.

Definition is_script_endpoint_name (name : str) : bool :=
  match split_last (eqc DOTC) name with Some (_, ext) => existsb (eq_ignore_case ext) SCRIPT_ENDPOINT_EXTENSIONS | None => false end.

(** ** First bytes ([sniff.rs]) *)

Definition MAX_HEAD : nat := Z.to_nat 4096.

Definition byte_at (b : bytes) (i : nat) : Z := default 0 (b !! i).
Definition slice (from to : nat) (b : bytes) : bytes := drop from (take to b).

Definition u16_le (b : bytes) (i : nat) : nat := Z.to_nat (byte_at b i + 256 * byte_at b (i + 1)).

Definition zip_flavor (head : bytes) : str :=
  let name_len := u16_le head 26 in
  let extra_len := u16_le head 28 in
  if (30 <=? length head)%nat && (30 + name_len <=? length head)%nat && bool_decide (slice 30 (30 + name_len) head = chars "mimetype")
     && starts (chars "application/epub+zip") (drop (30 + name_len + extra_len) head)
  then chars "epub"
  else if contains_sub (chars "[Content_Types].xml") head && contains_sub (chars "word/") head then chars "docx"
  else if contains_sub (chars "[Content_Types].xml") head && contains_sub (chars "xl/") head then chars "xlsx"
  else if contains_sub (chars "[Content_Types].xml") head && contains_sub (chars "ppt/") head then chars "pptx"
  else if contains_sub (chars "AndroidManifest.xml") head then chars "apk"
  else chars "zip".

Definition ftyp_flavor (brand : bytes) : str :=
  if bool_decide (brand ∈ map chars ["M4A "; "M4B "]%string) then chars "m4a"
  else if bool_decide (brand = chars "qt  ") then chars "mov"
  else if bool_decide (brand ∈ map chars ["heic"; "heix"; "hevc"; "hevx"; "heim"; "heis"]%string) then chars "heic"
  else if bool_decide (brand ∈ map chars ["avif"; "avis"]%string) then chars "avif"
  else if starts (chars "3gp") brand || starts (chars "3g2") brand then chars "3gp"
  else chars "mp4".

Definition is_pe_executable (head : bytes) : bool :=
  starts (chars "MZ") head && (64 <=? length head)%nat &&
  (let offset := byte_at head 60 + 256 * byte_at head 61 + 65536 * byte_at head 62 + 16777216 * byte_at head 63 in
   (offset + 4 <=? Z.of_nat (length head)) && bool_decide (take 4 (drop (Z.to_nat offset) head) = chars "PE" ++ [0; 0])).

Definition is_torrent (head : bytes) : bool :=
  existsb (fun p => starts p head)
    (map chars ["d8:announce"; "d13:announce-list"; "d4:info"; "d10:created by"; "d7:comment"; "d13:creation date"; "d8:encoding"]%string).

Definition is_mpeg_ts (head : bytes) : bool := (376 <? length head)%nat && forallb (fun at_ => byte_at head at_ =? 71) [0; 188; 376]%nat.

Definition riff_flavor (head : bytes) : option str :=
  if (12 <=? length head)%nat && starts (chars "RIFF") head then
    let form := slice 8 12 head in
    if bool_decide (form = chars "WEBP") then Some (chars "webp")
    else if bool_decide (form = chars "WAVE") then Some (chars "wav")
    else if bool_decide (form = chars "AVI ") then Some (chars "avi") else None
  else None.

(** The tests in their order, each with its answer. *)
Definition sniff_tests (head : bytes) : list (bool * str) :=
  let magic b ext := (starts b head, chars ext) in
  [ (starts (chars "PK" ++ [3; 4]) head, zip_flavor head);
    (starts (chars "PK" ++ [5; 6]) head || starts (chars "PK" ++ [7; 8]) head, chars "zip");
    magic (chars "Rar!" ++ [26; 7]) "rar"%string;
    magic [55; 122; 188; 175; 39; 28] "7z"%string;
    magic [31; 139] "gz"%string;
    ((4 <=? length head)%nat && starts (chars "BZh") head && in_range 49 57 (byte_at head 3), chars "bz2");
    magic ([253] ++ chars "7zXZ" ++ [0]) "xz"%string;
    magic [40; 181; 47; 253] "zst"%string;
    magic (chars "%PDF-") "pdf"%string;
    magic ([137] ++ chars "PNG" ++ [13; 10; 26; 10]) "png"%string;
    magic [255; 216; 255] "jpg"%string;
    (starts (chars "GIF87a") head || starts (chars "GIF89a") head, chars "gif");
    (match riff_flavor head with Some _ => true | None => false end, default [] (riff_flavor head));
    ((12 <=? length head)%nat && bool_decide (slice 4 8 head = chars "ftyp"), ftyp_flavor (slice 8 12 head));
    (starts [26; 69; 223; 163] head, if contains_sub (chars "webm") (take 64 head) then chars "webm" else chars "mkv");
    magic (chars "fLaC") "flac"%string;
    magic (chars "OggS") "ogg"%string;
    magic (chars "ID3") "mp3"%string;
    (is_pe_executable head, chars "exe");
    magic (chars "!<arch>" ++ [10] ++ chars "debian-binary") "deb"%string;
    magic [237; 171; 238; 219] "rpm"%string;
    magic ([0] ++ chars "asm" ++ [1; 0; 0; 0]) "wasm"%string;
    (is_torrent head, chars "torrent");
    ((262 <=? length head)%nat && bool_decide (slice 257 262 head = chars "ustar"), chars "tar");
    magic (chars "wOFF") "woff"%string;
    magic (chars "wOF2") "woff2"%string;
    magic (chars "OTTO") "otf"%string;
    magic (chars "MSCF") "cab"%string;
    magic (chars "FLV" ++ [1]) "flv"%string;
    (is_mpeg_ts head, chars "ts") ].

Definition sniff_extension (bytes_ : bytes) : option str := snd <$> head (filter (fun x => x.1 = true) (sniff_tests (take MAX_HEAD bytes_))).

(** ** Extensions *)

Definition with_type_extension (name ext : str) : option str :=
  if bool_decide (ext = chars "html") then None
  else if negb (has_plausible_extension name) then Some (sanitize_filename (name ++ DOTC :: ext))
  else if is_script_endpoint_name name then
    match split_last (eqc DOTC) name with
    | Some (stem, _) => let replaced := sanitize_filename (stem ++ DOTC :: ext) in if bool_decide (replaced <> name) then Some replaced else None
    | None => None
    end
  else None.

Definition has_typed_extension (name : str) : bool := has_plausible_extension name && existsb is_alphabetic (after_last (eqc DOTC) name).

Definition needs_type_extension (name : str) : bool := negb (bool_decide (trim_str name = [])) && negb (has_typed_extension name).

Definition reference_extension (name : str) : option str :=
  let name := trim_str name in
  if negb (has_typed_extension name) || is_script_endpoint_name name then None
  else
    match split_last (eqc DOTC) name with
    | None => None
    | Some (stem, ext) =>
        let tar := drop (length stem - 4) stem in
        if (4 <? str_len stem) && eq_ignore_case tar (chars ".tar") then Some (drop 1 tar ++ DOTC :: ext) else Some ext
    end.

Definition append_extension (name ext : str) : option str :=
  if negb (needs_type_extension name) || bool_decide (ext = []) || eq_ignore_case ext (chars "html") || eq_ignore_case ext (chars "htm") then None
  else
    let lower := to_ascii_lowercase name in
    let ext_lower := to_ascii_lowercase ext in
    if ends (DOTC :: ext_lower) lower || contains_sub (DOTC :: ext_lower ++ [DOTC]) lower then None
    else
      let base := drop_while_end (eqc DOTC) (trim_str name) in
      if bool_decide (base = []) then None
      else
        let completed := sanitize_filename (base ++ DOTC :: ext) in
        if bool_decide (completed <> name) then Some completed else None.

(** What a finished download shows of its name. *)
Record NameEvidence := mk_evidence { ev_disposition : option str; ev_mime : option str; ev_sniffed_ext : option str }.

Definition ZIP_CONTAINERS : list str := map chars ["docx"; "xlsx"; "pptx"; "apk"; "jar"; "epub"]%string.

Definition evidence_type_extension (e : NameEvidence) : option str :=
  let mime_ext := let* m := ev_mime e in mime_to_ext m in
  match ev_sniffed_ext e, mime_ext with
  | Some sniffed, Some mime => if bool_decide (sniffed = chars "zip") && bool_decide (mime ∈ ZIP_CONTAINERS) then Some mime else Some sniffed
  | Some sniffed, None => Some sniffed
  | None, mime => mime
  end.

Definition complete_extension_from_name (current reference : str) : option str :=
  let* ext := reference_extension reference in append_extension current ext.

Definition complete_explicit_extension (current : str) (e : NameEvidence) : option str :=
  let* ext := match (let* d := ev_disposition e in reference_extension d) with Some ext => Some ext | None => evidence_type_extension e end in
  append_extension current ext.

Definition refine_inferred_name (current : str) (e : NameEvidence) : option str :=
  let type_ext := evidence_type_extension e in
  let disposition := match trim_str <$> ev_disposition e with Some [] => None | d => d end in
  let name :=
    match disposition with
    | Some disposition =>
        let name := sanitize_filename disposition in
        match type_ext with
        | Some ext => if negb (bool_decide (ext = chars "html")) && negb (has_plausible_extension name) then Some (sanitize_filename (name ++ DOTC :: ext)) else Some name
        | None => Some name
        end
    | None => let* ext := type_ext in with_type_extension current ext
    end in
  let* name := name in
  if bool_decide (name <> current) then Some name else None.

(** ** Addresses *)

Section Addresses.
Context `{EncodingRs}.

(** [s.split_once(sep)] for a separator of several characters. *)
Fixpoint split_once (sep s : list Z) : option (list Z * list Z) :=
  match strip sep s with
  | Some rest => Some ([], rest)
  | None => match s with [] => None | c :: s => match split_once sep s with Some (a, b) => Some (c :: a, b) | None => None end end
  end.

Definition url_host (url : str) : option str :=
  let* parts := split_once (chars "://") url in
  let authority := before_first (fun c => (c =? SLASH) || (c =? QUESTION) || (c =? HASH)) parts.2 in
  let host_port := after_last (eqc 64) authority in
  let host := match strip (chars "[") host_port with Some rest => before_first (eqc 93) rest | None => before_first (eqc 58) host_port end in
  if bool_decide (host = []) then None else Some host.

Definition url_hints (url : str) : NameHints := mk_hints (url_host url) None.

Definition extract_from_url (url : str) : option str :=
  let path := before_first (eqc QUESTION) url in
  let path := before_first (eqc HASH) path in
  let segment := after_last (eqc SLASH) path in
  let decoded := trim_str (decode_legacy_bytes (percent_decode_bytes (utf8_encode segment)) (url_hints url)) in
  if bool_decide (decoded = []) || bool_decide (decoded = [SLASH]) then None else Some (sanitize_filename decoded).

Definition query_disposition_name (url : str) : option str :=
  let* parts := split_once [QUESTION] url in
  let query := before_first (eqc HASH) parts.2 in
  first_some (fun pair =>
    let* kv := split_once [EQUALS] pair in
    if eq_ignore_case kv.1 (chars "response-content-disposition") || eq_ignore_case kv.1 (chars "rscd") then
      let header := percent_decode_bytes (map (fun b => if b =? 43 then SPACE else b) (utf8_encode kv.2)) in
      sanitize_filename <$> disposition_filename header (url_hints url)
    else None) (split_all (eqc AMPERSAND) query).

Definition plausible_part (part : str) : bool := (1 <=? str_len part) && (str_len part <=? 10) && forallb is_alphanumeric part.

(** The final segment is the requested one without its extensions. *)
Definition lost_extension (req fin : str) : bool :=
  match strip fin req with
  | Some rest => match strip [DOTC] rest with Some ext => negb (bool_decide (ext = [])) && forallb plausible_part (split_all (eqc DOTC) ext) | None => false end
  | None => false
  end.

Definition url_derived_filename (request_url final_url : str) : option str :=
  let from_request := extract_from_url request_url in
  let from_final := extract_from_url final_url in
  if match from_request, from_final with Some req, Some fin => lost_extension req fin | _, _ => false end then from_request
  else if match from_final with Some fin => has_plausible_extension fin | None => false end then from_final
  else if match from_request with Some req => has_plausible_extension req | None => false end then from_request
  else match from_final with Some fin => Some fin | None => from_request end.

(** ** The pipeline *)

Inductive NameSource := FromDisposition | FromQueryDisposition | FromUrlPath | FromContentType | Fallback.

Record ResolvedName := mk_resolved { rn_name : str; rn_source : NameSource }.

(** The two headers it looks at: raw bytes, and the text of [to_str]. *)
Record headers := mk_headers { hd_content_disposition : option bytes; hd_content_type : option str }.

Definition disposition_of (h : headers) (url : str) : option str :=
  let* value := hd_content_disposition h in disposition_filename value (url_hints url).

Definition extract_filename (h : headers) (request_url final_url : str) : ResolvedName :=
  match disposition_of h final_url with
  | Some raw => mk_resolved (sanitize_filename raw) FromDisposition
  | None =>
      match first_some query_disposition_name [final_url; request_url] with
      | Some name => mk_resolved name FromQueryDisposition
      | None =>
          let content_type_ext := let* ct := hd_content_type h in mime_to_ext ct in
          match url_derived_filename request_url final_url with
          | Some name => mk_resolved (default name (let* ext := content_type_ext in with_type_extension name ext)) FromUrlPath
          | None =>
              match content_type_ext with
              | Some ext => mk_resolved (chars "download." ++ ext) FromContentType
              | None => mk_resolved (chars "download") Fallback
              end
          end
      end
  end.

Definition name_from_url (url : str) : option ResolvedName :=
  match query_disposition_name url with
  | Some name => Some (mk_resolved name FromQueryDisposition)
  | None => (fun name => mk_resolved name FromUrlPath) <$> extract_from_url url
  end.

Definition response_naming (h : headers) (url : str) : option str * str :=
  (sanitize_filename <$> disposition_of h url, trim_str (default [] (hd_content_type h))).

Definition complete_extension_offline (current name_hint url : str) : option str :=
  if negb (needs_type_extension current) then None
  else
    match complete_extension_from_name current name_hint with
    | Some name => Some name
    | None => let* name := query_disposition_name url in complete_extension_from_name current name
    end.
End Addresses.

(** ** Examples from the program's tests *)

Example sanitized :
  map sanitize_filename (map chars ["file<1>:2.txt"; "...file..."; "   "; "../../../etc/passwd"; "C:\Windows\evil.exe"; "CON"; "NUL.txt"; "LpT9.log"; "COM10.txt"]%string)
  = map chars ["file_1__2.txt"; "file"; "download"; "_.._.._etc_passwd"; "C__Windows_evil.exe"; "_CON"; "_NUL.txt"; "_LpT9.log"; "COM10.txt"]%string.
Proof. by vm_compute. Qed.

Example truncated : sanitize_filename (replicate 300 97 ++ chars ".bin") = replicate 196 97 ++ chars ".bin".
Proof. by vm_compute. Qed.

Example sniffed :
  map sniff_extension [chars "%PDF-1.7"; [31; 139; 8]; chars "RIFF" ++ [1; 2; 3; 4] ++ chars "WAVEfmt "; [0; 0; 0; 32] ++ chars "ftypM4A "; chars "hello"]
  = [Some (chars "pdf"); Some (chars "gz"); Some (chars "wav"); Some (chars "m4a"); None].
Proof. by vm_compute. Qed.

(** ** Safe names *)

Definition allowed (c : Z) : Prop := clean_char c = Some c.

(** A name that is one component of a path on every system, shown as it is. *)
Definition safe (s : str) : Prop := s <> [] /\ Forall allowed s /\ trimmed dot_or_space s.

Lemma clean_char_allowed c d : clean_char c = Some d -> allowed d.
Proof.
  unfold clean_char. intros H. assert (d = UNDERSCORE \/ d = c /\ clean_char c = Some c) as [->|[-> Hc]]; [|done|done].
  unfold clean_char. destruct (is_illegal c), (is_control c), (is_bidi c), (is_invisible c); simplify_eq; auto.
Qed.

Lemma cleaned_allowed name : Forall allowed (omap clean_char name).
Proof. apply Forall_forall. intros d (c & _ & Hc)%list_elem_of_omap. by eapply clean_char_allowed. Qed.

Lemma cleaned_id s : Forall allowed s -> omap clean_char s = s.
Proof. induction 1 as [|c s Hc _ IH]; [done|]. cbn. rewrite Hc. by f_equal. Qed.

Lemma trim_allowed s : Forall allowed s -> Forall allowed (trim_by dot_or_space s).
Proof. rewrite !Forall_forall. intros H x Hx. by apply H, (trim_by_sub dot_or_space). Qed.

Lemma prefix_bytes_prefix n s : exists k, s = prefix_bytes n s ++ k.
Proof.
  revert n. induction s as [|c s IH]; intros n; [by exists []|]. cbn. destruct (n <=? 0); [by eexists|]. destruct (IH (n - char_len c)) as [k Hk].
  exists k. cbn. by f_equal.
Qed.

Lemma split_extension_eq s : let '(stem, ext) := split_extension s in s = stem ++ ext.
Proof.
  unfold split_extension. destruct (split_last (eqc DOTC) s) as [[stem ext]|] eqn:E; [|by rewrite app_nil_r].
  apply split_last_eq in E as (x & -> & Hx & _). by apply Z.eqb_eq in Hx as ->.
Qed.

Lemma truncate_allowed s : Forall allowed s -> Forall allowed (truncate s) /\ trimmed dot_or_space (truncate s).
Proof.
  intros Hs. unfold truncate. pose proof (split_extension_eq s) as E. destruct (split_extension s) as [stem ext]. subst s.
  split; [|apply trim_by_trimmed]. apply trim_allowed. apply Forall_app in Hs as [H1 H2]. apply Forall_app. split; [|done].
  match goal with |- Forall allowed (prefix_bytes ?n stem) => destruct (prefix_bytes_prefix n stem) as [k Hk] end.
  rewrite Hk in H1. by apply Forall_app in H1 as [? _].
Qed.

(** What is left of a name before it is truncated. *)
Definition cleaned (name : str) : str := trim_by dot_or_space (omap clean_char name).
Definition renamed (s : str) : str := if is_reserved (before_first (eqc DOTC) s) then UNDERSCORE :: s else s.

Lemma sanitize_eq name :
  sanitize_filename name = if bool_decide (cleaned name = []) then chars "download"
    else if str_len (renamed (cleaned name)) <=? MAX_FILENAME_BYTES then renamed (cleaned name) else or_download (truncate (renamed (cleaned name))).
Proof. done. Qed.

Lemma download_safe : safe (chars "download").
Proof.
  split; [done|]. split; [|split; by intros x [= <-]]. assert (forallb (fun c => bool_decide (clean_char c = Some c)) (chars "download") = true) as H by by vm_compute.
  apply Forall_forall. intros x Hx. rewrite forallb_forall in H. apply list_elem_of_In in Hx. apply H in Hx. by apply bool_decide_eq_true_1 in Hx.
Qed.

Lemma renamed_safe s : s <> [] -> Forall allowed s -> trimmed dot_or_space s -> safe (renamed s).
Proof.
  intros Hne Ha [H1 H2]. unfold renamed. destruct (is_reserved _); [|done]. split; [done|]. split; [by constructor|]. split; [by intros x [= <-]|].
  intros x. destruct s as [|c s]; [done|]. rewrite last_cons_cons. apply H2.
Qed.

Lemma sanitize_safe name : safe (sanitize_filename name).
Proof.
  rewrite sanitize_eq. case_bool_decide as Hne; [apply download_safe|].
  destruct (renamed_safe (cleaned name)) as (R1 & R2 & R3); [done|apply trim_allowed, cleaned_allowed|apply trim_by_trimmed|].
  destruct (_ <=? _); [done|]. unfold or_download. case_bool_decide as Ht; [apply download_safe|].
  destruct (truncate_allowed _ R2) as [H1 H2]. done.
Qed.

(** *** Lengths *)

Lemma str_len_cons c s : str_len (c :: s) = char_len c + str_len s.
Proof. done. Qed.

Lemma char_indices_le i s n : n ∈ char_indices i s -> i <= n /\ str_len (prefix_bytes (n - i) s) = n - i.
Proof.
  revert i. induction s as [|c s IH]; intros i; [by intros []%not_elem_of_nil|]. cbn [char_indices prefix_bytes]. pose proof (char_len_pos c).
  intros [->|Hn]%elem_of_cons.
  - rewrite Z.sub_diag. cbn. lia.
  - destruct (IH _ Hn) as [H1 H2]. split; [lia|]. destruct (Z.leb_spec (n - i) 0); [lia|]. unfold str_len in *. cbn [sum_list_with_Z foldr].
    replace (n - i - char_len c) with (n - (i + char_len c)) by lia. change (foldr _ 0 ?l) with (sum_list_with_Z char_len l). lia.
Qed.

Lemma take_while_sub p l x : x ∈ take_while p l -> x ∈ l /\ p x = true.
Proof.
  induction l as [|y l IH]; [by intros []%not_elem_of_nil|]. cbn. destruct (p y) eqn:E; [|by intros []%not_elem_of_nil].
  intros [->|Hx]%elem_of_cons; [split; [by left|done]|].
  destruct (IH Hx). split; [by right|done].
Qed.

(** The prefix kept fits the budget. *)
Definition kept_prefix (budget : Z) (stem : str) : str :=
  prefix_bytes (default 0 (last (take_while (fun i => i <=? budget) (char_indices 0 stem)))) stem.

Lemma kept_prefix_fits budget stem : 0 <= budget -> str_len (kept_prefix budget stem) <= budget.
Proof.
  intros Hb. unfold kept_prefix. destruct (last _) as [n|] eqn:E.
  - change (default 0 (Some n)) with n. apply last_Some_elem_of in E. apply take_while_sub in E as [Hn Hle%Z.leb_le]. apply char_indices_le in Hn as [_ Hn]. rewrite Z.sub_0_r in Hn. lia.
  - destruct stem; cbn; lia.
Qed.

Lemma drop_while_len p s : str_len (drop_while p s) <= str_len s.
Proof. destruct (drop_while_suffix p s) as [k Hk]. apply (f_equal str_len) in Hk. rewrite str_len_app in Hk. pose proof (str_len_nonneg k). lia. Qed.

Lemma trim_by_len p s : str_len (trim_by p s) <= str_len s.
Proof.
  unfold trim_by. destruct (drop_while_end_prefix p (drop_while p s)) as [k Hk]. pose proof (drop_while_len p s) as H. rewrite Hk, str_len_app in H.
  pose proof (str_len_nonneg k). lia.
Qed.

Lemma truncate_fits s : str_len (split_extension s).2 <= MAX_FILENAME_BYTES -> str_len (truncate s) <= MAX_FILENAME_BYTES.
Proof.
  unfold truncate. destruct (split_extension s) as [stem ext]. cbn [snd]. intros He. etrans; [apply trim_by_len|]. rewrite str_len_app.
  change (prefix_bytes _ stem) with (kept_prefix (Z.max (MAX_FILENAME_BYTES - str_len ext) 0) stem).
  pose proof (kept_prefix_fits (Z.max (MAX_FILENAME_BYTES - str_len ext) 0) stem ltac:(lia)). lia.
Qed.

(** *** Devices *)

Lemma underscore_not_reserved s : is_reserved (UNDERSCORE :: s) = false.
Proof. reflexivity. Qed.

Lemma renamed_not_reserved s : is_reserved (before_first (eqc DOTC) (renamed s)) = false.
Proof.
  unfold renamed. destruct (is_reserved (before_first (eqc DOTC) s)) eqn:E; [|done]. unfold before_first. cbn [split_first].
  change (eqc DOTC UNDERSCORE) with false. cbv iota. destruct (split_first (eqc DOTC) s) as [[a b]|]; apply underscore_not_reserved.
Qed.

(** The cut falls between two characters. *)
Lemma last_cut i budget d c x :
  i + str_len d <= budget < i + str_len d + char_len c ->
  last (take_while (fun j => j <=? budget) (char_indices i (d ++ c :: x))) = Some (i + str_len d).
Proof.
  revert i. induction d as [|y d IH]; intros i Hi; cbn [app char_indices take_while].
  - change (str_len []) with 0 in *. rewrite (proj2 (Z.leb_le i budget)) by lia. destruct x as [|y x]; cbn; [f_equal; lia|].
    rewrite (proj2 (Z.leb_gt _ _)) by lia. cbn. f_equal. lia.
  - rewrite str_len_cons in *. pose proof (str_len_nonneg d). pose proof (char_len_pos y). rewrite (proj2 (Z.leb_le i budget)) by lia.
    specialize (IH (i + char_len y) ltac:(lia)). destruct (take_while _ _) as [|j l]; [done|]. rewrite last_cons_cons, IH. f_equal. lia.
Qed.

Lemma prefix_bytes_len d s : prefix_bytes (str_len d) (d ++ s) = d.
Proof.
  induction d as [|y d IH]; [by destruct s|]. rewrite str_len_cons. pose proof (str_len_nonneg d). pose proof (char_len_pos y).
  cbn [app prefix_bytes]. rewrite (proj2 (Z.leb_gt _ _)) by lia. by replace (char_len y + str_len d - char_len y) with (str_len d) by lia; rewrite IH.
Qed.

Lemma kept_prefix_cut budget d c x : str_len d <= budget < str_len d + char_len c -> kept_prefix budget (d ++ c :: x) = d.
Proof.
  intros H. unfold kept_prefix. rewrite last_cut by lia. change (default 0 (Some (0 + str_len d))) with (0 + str_len d).
  by rewrite Z.add_0_l, prefix_bytes_len.
Qed.

Lemma kept_prefix_nothing stem : kept_prefix 0 stem = [].
Proof. destruct stem as [|c stem]; [done|]. apply (kept_prefix_cut 0 [] c stem). pose proof (char_len_pos c). cbn. lia. Qed.

Lemma truncate_eq s : truncate s =
  trim_by dot_or_space (kept_prefix (Z.max (MAX_FILENAME_BYTES - str_len (split_extension s).2) 0) (split_extension s).1 ++ (split_extension s).2).
Proof. unfold truncate. by destruct (split_extension s). Qed.

Lemma split_extension_len s : str_len (split_extension s).2 <= str_len s.
Proof.
  pose proof (split_extension_eq s) as E. destruct (split_extension s) as [stem ext]. rewrite E, str_len_app. cbn [snd].
  pose proof (str_len_nonneg stem). lia.
Qed.

Lemma short_extension_fits name :
  str_len (split_extension (renamed (cleaned name))).2 <= MAX_FILENAME_BYTES -> str_len (sanitize_filename name) <= MAX_FILENAME_BYTES.
Proof.
  intros He. rewrite sanitize_eq. case_bool_decide; [by vm_compute|].
  destruct (Z.leb_spec (str_len (renamed (cleaned name))) MAX_FILENAME_BYTES); [done|].
  unfold or_download. case_bool_decide; [by vm_compute|]. by apply truncate_fits.
Qed.

(** No room for the stem. *)
Lemma long_extension_alone name :
  MAX_FILENAME_BYTES < str_len (split_extension (renamed (cleaned name))).2 ->
  sanitize_filename name = trim_by dot_or_space (split_extension (renamed (cleaned name))).2.
Proof.
  intros Hl. rewrite sanitize_eq. case_bool_decide as Hne; [rewrite Hne in Hl; by vm_compute in Hl|].
  destruct (renamed_safe (cleaned name)) as (R1 & R2 & R3); [done|apply trim_allowed, cleaned_allowed|apply trim_by_trimmed|].
  set (r := renamed (cleaned name)) in *. pose proof (split_extension_len r). rewrite (proj2 (Z.leb_gt _ _)) by lia.
  rewrite truncate_eq, Z.max_r by lia. rewrite kept_prefix_nothing. cbn [app]. unfold or_download.
  case_bool_decide as Hnil; [|done]. exfalso. apply trim_by_nil in Hnil. pose proof (split_extension_eq r) as E.
  destruct (split_extension r) as [stem ext]. cbn [snd] in *. destruct (last ext) as [x|] eqn:Ex.
  - destruct R3 as [_ R3]. assert (last r = Some x) as Hx by (by rewrite E, last_app, Ex). apply R3 in Hx.
    rewrite Forall_forall in Hnil. rewrite Hnil in Hx; [done|]. by apply last_Some_elem_of.
  - apply last_None in Ex as ->. by vm_compute in Hl.
Qed.

Lemma before_first_dot stem ext : Forall (fun x => eqc DOTC x = false) stem -> before_first (eqc DOTC) (stem ++ DOTC :: ext) = stem.
Proof.
  intros H. unfold before_first. assert (split_first (eqc DOTC) (stem ++ DOTC :: ext) = Some (stem, ext)) as ->; [|done].
  induction H as [|x stem Hx _ IH]; [done|]. cbn. by rewrite Hx, IH.
Qed.

Lemma cut_after_device device c rest ext :
  let name := (device ++ c :: rest) ++ DOTC :: ext in
  safe name -> Forall (fun x => eqc DOTC x = false) ext -> is_reserved device = true ->
  is_reserved (before_first (eqc DOTC) name) = false ->
  str_len device + str_len (DOTC :: ext) <= MAX_FILENAME_BYTES < str_len device + char_len c + str_len (DOTC :: ext) ->
  sanitize_filename name = device ++ DOTC :: ext.
Proof.
  intros name (Hne & Ha & Ht) He Hdev Hr Hcut. rewrite sanitize_eq. unfold cleaned. rewrite cleaned_id, trim_by_id, bool_decide_false by done.
  unfold renamed. rewrite Hr. pose proof (str_len_nonneg rest). rewrite (proj2 (Z.leb_gt _ _)).
  2: { unfold name. rewrite !str_len_app, (str_len_cons c). lia. }
  rewrite truncate_eq. unfold split_extension, name. rewrite split_last_app by done. cbn [fst snd].
  pose proof (str_len_nonneg device). rewrite kept_prefix_cut by lia. destruct Ht as [T1 T2]. rewrite trim_by_id.
  - unfold or_download. rewrite bool_decide_false; [done|]. by destruct device.
  - split.
    + intros x Hx. apply T1. by destruct device.
    + intros x Hx. apply T2. unfold name. rewrite last_app. rewrite last_app in Hx.
      destruct (last (DOTC :: ext)) eqn:El; [exact Hx|]. by apply last_None in El.
Qed.

(** *** Extensions survive *)

Definition good_ext (ext : str) : Prop := ext <> [] /\ forallb is_alphanumeric ext = true /\ str_len ext <= 10.

Lemma alphanumeric_values :
  Forall (fun c => is_alphanumeric c = true -> clean_char c = Some c /\ dot_or_space c = false /\ eqc DOTC c = false) (map Z.of_nat (seq 0 128)).
Proof. apply (bool_decide_unpack _). by vm_compute. Qed.

Lemma alphanumeric_char c : is_alphanumeric c = true -> allowed c /\ dot_or_space c = false /\ eqc DOTC c = false.
Proof.
  intros Hc. pose proof alphanumeric_values as H. rewrite Forall_forall in H. apply H; [|done]. apply list_elem_of_fmap. exists (Z.to_nat c).
  unfold is_alphanumeric, is_alphabetic, is_upper, is_lower, is_digit_char in Hc. rewrite !orb_true_iff, !andb_true_iff, !Z.leb_le in Hc.
  split; [lia|]. apply elem_of_seq. lia.
Qed.

Lemma good_ext_chars ext : good_ext ext -> Forall (fun c => allowed c /\ dot_or_space c = false /\ eqc DOTC c = false) ext.
Proof. intros (_ & H & _). rewrite forallb_forall in H. apply Forall_forall. intros c Hc. by apply alphanumeric_char, H, list_elem_of_In. Qed.

Lemma with_ext_trimmed x ext :
  x <> [] -> (forall c, head x = Some c -> dot_or_space c = false) -> good_ext ext -> trimmed dot_or_space (x ++ DOTC :: ext).
Proof.
  intros Hx Hh He. pose proof (good_ext_chars _ He) as Hc. destruct He as (Hne & _). split.
  - intros c. destruct x as [|d x]; [done|]. apply Hh.
  - intros c. rewrite last_app. cbn [last]. destruct ext as [|d ext]; [done|]. destruct (last (d :: ext)) as [e|] eqn:E.
    + rewrite last_cons_cons, E. intros [= <-]. apply last_Some_elem_of in E. rewrite Forall_forall in Hc. by apply Hc.
    + apply last_None in E. done.
Qed.

Lemma split_extension_ext x ext : good_ext ext -> split_extension (x ++ DOTC :: ext) = (x, DOTC :: ext).
Proof.
  intros He. unfold split_extension. rewrite split_last_app; [done|done|]. eapply Forall_impl; [by apply good_ext_chars|]. by intros c (_ & _ & ?).
Qed.

Lemma kept_prefix_head budget c d r : 4 <= budget -> exists k, kept_prefix budget (c :: d :: r) = c :: k.
Proof.
  intros Hb. unfold kept_prefix. pose proof (char_len_pos c). cbn [char_indices take_while]. rewrite (proj2 (Z.leb_le 0 budget)) by lia.
  rewrite Z.add_0_l, (proj2 (Z.leb_le (char_len c) budget)) by lia.
  set (l := take_while _ (char_indices (char_len c + char_len d) r)).
  assert (exists n, last (0 :: char_len c :: l) = Some n /\ 0 < n) as (n & -> & Hn).
  { rewrite last_cons_cons. destruct (last (char_len c :: l)) as [n|] eqn:E; [|by apply last_None in E]. exists n. split; [done|].
    apply last_Some_elem_of in E. apply elem_of_cons in E as [->|E]; [lia|]. apply take_while_sub in E as [E _].
    apply char_indices_le in E as [E _]. pose proof (char_len_pos d). lia. }
  change (default 0 (Some n)) with n. cbn [prefix_bytes]. rewrite (proj2 (Z.leb_gt n 0)) by lia. by eexists.
Qed.

(** An extension given to a name stays its extension, and what fits stays whole. *)
Lemma sanitize_keeps_extension x ext :
  x <> [] -> Forall allowed x -> (forall c, head x = Some c -> dot_or_space c = false) -> good_ext ext ->
  exists y, sanitize_filename (x ++ DOTC :: ext) = y ++ DOTC :: ext /\
    (str_len x + str_len ext < MAX_FILENAME_BYTES -> is_reserved (before_first (eqc DOTC) (x ++ DOTC :: ext)) = false -> y = x).
Proof.
  intros Hx Ha Hh He. pose proof (good_ext_chars _ He) as Hc. pose proof (with_ext_trimmed x ext Hx Hh He) as Ht.
  assert (cleaned (x ++ DOTC :: ext) = x ++ DOTC :: ext) as Hclean.
  { unfold cleaned. rewrite cleaned_id; [by apply trim_by_id|]. apply Forall_app. split; [done|]. constructor; [done|].
    eapply Forall_impl; [exact Hc|]. by intros c (? & _). }
  rewrite sanitize_eq, Hclean, bool_decide_false by (by destruct x).
  assert (str_len (x ++ DOTC :: ext) = str_len x + 1 + str_len ext) as Hlen.
  { rewrite str_len_app, str_len_cons. change (char_len DOTC) with 1. lia. }
  assert (exists x', renamed (x ++ DOTC :: ext) = x' ++ DOTC :: ext /\ x' <> [] /\ (forall c, head x' = Some c -> dot_or_space c = false) /\
    (is_reserved (before_first (eqc DOTC) (x ++ DOTC :: ext)) = false -> x' = x)) as (x' & -> & Hx' & Hh' & Hsame).
  { unfold renamed. destruct (is_reserved _); [exists (UNDERSCORE :: x)|exists x]; split_and!; try done. by intros c [= <-]. }
  destruct (Z.leb_spec (str_len (x' ++ DOTC :: ext)) MAX_FILENAME_BYTES) as [Hle|Hgt].
  - exists x'. split; [done|]. intros _. apply Hsame.
  - unfold truncate. rewrite split_extension_ext by done.
    change (prefix_bytes _ x') with (kept_prefix (Z.max (MAX_FILENAME_BYTES - str_len (DOTC :: ext)) 0) x').
    destruct He as (Hne & Hal & Hl10). rewrite str_len_app, str_len_cons in Hgt. change (char_len DOTC) with 1 in Hgt. unfold MAX_FILENAME_BYTES in *.
    destruct x' as [|c [|d r]]; [done| |].
    { exfalso. rewrite str_len_cons in Hgt. change (str_len []) with 0 in Hgt. pose proof (char_len_pos c). lia. }
    destruct (kept_prefix_head (Z.max (200 - str_len (DOTC :: ext)) 0) c d r) as [k Hk].
    { rewrite str_len_cons. change (char_len DOTC) with 1. lia. }
    rewrite Hk. rewrite trim_by_id.
    + exists (c :: k). split; [unfold or_download; by rewrite bool_decide_false|]. intros Hshort Hres. specialize (Hsame Hres). subst x.
      exfalso. lia.
    + apply with_ext_trimmed; [done| |done]. intros e [= <-]. by apply Hh'.
Qed.

(** *** The tables *)

Definition known_ext (ext : str) : bool :=
  negb (bool_decide (ext = [])) && forallb is_alphanumeric ext && (str_len ext <=? 10) && existsb is_alphabetic ext
  && (bool_decide (ext = chars "html") || negb (existsb (eq_ignore_case ext) SCRIPT_ENDPOINT_EXTENSIONS)).

Lemma mime_known ct ext : mime_to_ext ct = Some ext -> known_ext ext = true.
Proof.
  unfold mime_to_ext. destruct (head _) as [[t e]|] eqn:E; [|done]. intros [= <-]. apply head_Some_elem_of, list_elem_of_filter in E as [_ E].
  assert (forallb (fun x => known_ext x.2) MIME_TYPES = true) as H by by vm_compute. rewrite forallb_forall in H.
  apply list_elem_of_In, H in E. exact E.
Qed.

Lemma riff_known h e : riff_flavor h = Some e -> known_ext e = true.
Proof. unfold riff_flavor. repeat case_match; intros; simplify_eq; by vm_compute. Qed.

Lemma sniff_known b ext : sniff_extension b = Some ext -> known_ext ext = true.
Proof.
  unfold sniff_extension. destruct (head _) as [[t e]|] eqn:E; [|done]. intros [= <-]. apply head_Some_elem_of, list_elem_of_filter in E as [Ht E].
  assert (Forall (fun x => x.1 = true -> known_ext x.2 = true) (sniff_tests (take MAX_HEAD b))) as H; [|rewrite Forall_forall in H; by apply (H _ E)].
  generalize (take MAX_HEAD b). intros h. unfold sniff_tests.
  repeat (apply Forall_cons; split); try (intros _; by vm_compute); try done; cbn [fst snd].
  - intros _. unfold zip_flavor. repeat case_match; by vm_compute.
  - destruct (riff_flavor h) as [x|] eqn:Er; [|done]. intros _. by eapply riff_known.
  - intros _. unfold ftyp_flavor. repeat case_match; by vm_compute.
  - intros _. repeat case_match; by vm_compute.
Qed.

(** Evidence as the download gathers it. *)
Definition observed (e : NameEvidence) : Prop := ev_sniffed_ext e = None \/ exists first_bytes, ev_sniffed_ext e = sniff_extension first_bytes.

Lemma evidence_known e ext : observed e -> evidence_type_extension e = Some ext -> known_ext ext = true.
Proof.
  unfold observed, evidence_type_extension. intros Ho.
  assert (forall s, ev_sniffed_ext e = Some s -> known_ext s = true) as Hs.
  { intros s Hs. destruct Ho as [Ho|[b Ho]]; [congruence|]. apply (sniff_known b). congruence. }
  assert (forall m, (let* m := ev_mime e in mime_to_ext m) = Some m -> known_ext m = true) as Hm.
  { intros m. destruct (ev_mime e) as [ct|]; [|done]. apply mime_known. }
  destruct (ev_sniffed_ext e) as [s|], (let* m := ev_mime e in mime_to_ext m) as [m|]; try done; [|intros [= <-]; by apply Hs|intros [= <-]; by apply Hm].
  destruct (_ && _); intros [= <-]; [by apply Hm|by apply Hs].
Qed.

Lemma known_good ext : known_ext ext = true -> good_ext ext /\ existsb is_alphabetic ext = true.
Proof. unfold known_ext. intros H. repeat (apply andb_prop in H as [H ?]). bool_hyps. done. Qed.

Lemma plausible_ext y ext : good_ext ext -> has_plausible_extension (y ++ DOTC :: ext) = true.
Proof.
  intros He. unfold has_plausible_extension. rewrite split_last_app; [|done|].
  - destruct He as (H1 & H2 & H3). rewrite H2, bool_decide_false, (proj2 (Z.leb_le _ _)) by done. done.
  - eapply Forall_impl; [by apply good_ext_chars|]. by intros c (_ & _ & ?).
Qed.

Lemma after_ext y ext : good_ext ext -> after_last (eqc DOTC) (y ++ DOTC :: ext) = ext.
Proof.
  intros He. unfold after_last. rewrite split_last_app; [done|done|]. eapply Forall_impl; [by apply good_ext_chars|]. by intros c (_ & _ & ?).
Qed.

Lemma typed_ext y ext : good_ext ext -> existsb is_alphabetic ext = true -> needs_type_extension (y ++ DOTC :: ext) = false.
Proof.
  intros He Ha. unfold needs_type_extension, has_typed_extension. rewrite plausible_ext, after_ext, Ha by done. by rewrite andb_false_r.
Qed.

(** A name given a type keeps it. *)
Lemma typed_settles y ext : known_ext ext = true -> ext <> chars "html" -> with_type_extension (y ++ DOTC :: ext) ext = None.
Proof.
  intros Hk Hh. pose proof (known_good _ Hk) as [He _]. unfold with_type_extension. rewrite bool_decide_false by done. rewrite plausible_ext by done. cbn [negb].
  assert (is_script_endpoint_name (y ++ DOTC :: ext) = false) as ->; [|done]. unfold is_script_endpoint_name. rewrite split_last_app; [|done|].
  - unfold known_ext in Hk. apply andb_prop in Hk as [_ Hk]. rewrite bool_decide_false in Hk by done. by apply negb_true_iff in Hk.
  - eapply Forall_impl; [by apply good_ext_chars|]. by intros c (_ & _ & ?).
Qed.

Lemma type_given current ext n :
  safe current -> known_ext ext = true -> with_type_extension current ext = Some n -> ext <> chars "html" /\ exists y, n = y ++ DOTC :: ext.
Proof.
  intros (Hne & Ha & Ht & _) Hk. pose proof (known_good _ Hk) as [He _]. unfold with_type_extension. case_bool_decide as Hh; [done|].
  destruct (negb _).
  - intros [= <-]. destruct (sanitize_keeps_extension current ext) as (y & Hy & _); try done. split; [done|]. by exists y.
  - destruct (is_script_endpoint_name current); [|done]. destruct (split_last (eqc DOTC) current) as [[stem old]|] eqn:E; [|done].
    case_bool_decide; [|done]. intros [= <-]. split; [done|]. apply split_last_eq in E as (x & -> & Hx & _).
    assert (stem <> []) as Hs. { intros ->. specialize (Ht x eq_refl). unfold dot_or_space in Ht. unfold eqc in Hx. by rewrite Hx in Ht. }
    destruct (sanitize_keeps_extension stem ext) as (y & Hy & _); [done| | |done|by exists y].
    + by apply Forall_app in Ha as [? _].
    + intros c Hc. apply Ht. by destruct stem.
Qed.

(** ** Properties *)

(** What a name must be to stand for a file of its directory and to look like
    what it is. *)
Definition one_component (s : str) : Prop :=
  s <> [] /\ s <> chars "." /\ s <> chars ".." /\
  Forall (fun c => is_illegal c = false /\ is_control c = false /\ is_bidi c = false /\ is_invisible c = false) s /\
  Forall (fun edge => edge <> Some DOTC /\ edge <> Some SPACE) [head s; last s].

Lemma allowed_char c : allowed c -> is_illegal c = false /\ is_control c = false /\ is_bidi c = false /\ is_invisible c = false.
Proof.
  unfold allowed, clean_char. intros H. assert (c = UNDERSCORE \/ c <> UNDERSCORE) as [->|Hc] by lia; [done|].
  destruct (is_illegal c), (is_control c), (is_bidi c), (is_invisible c); simplify_eq; done.
Qed.

Lemma edge_kept o : (forall c, o = Some c -> dot_or_space c = false) -> o <> Some DOTC /\ o <> Some SPACE.
Proof. intros H. split; intros ->; by specialize (H _ eq_refl). Qed.

Lemma safe_component s : safe s -> one_component s.
Proof.
  intros (Hne & Ha & H1 & H2). split_and!; [done| | |eapply Forall_impl; [exact Ha|exact allowed_char]|].
  - intros ->. by specialize (H1 DOTC eq_refl).
  - intros ->. by specialize (H1 DOTC eq_refl).
  - repeat apply Forall_cons_2; [by apply edge_kept|by apply edge_kept|done].
Qed.

Lemma typed_safe x ext : safe x -> good_ext ext -> safe (x ++ DOTC :: ext).
Proof.
  intros (Hne & Ha & Ht & _) He. split; [by destruct x|]. split; [|by apply with_ext_trimmed]. apply Forall_app. split; [done|]. constructor; [done|].
  eapply Forall_impl; [by apply good_ext_chars|]. by intros c [? _].
Qed.

Lemma typed_name_safe name ext n : safe name -> with_type_extension name ext = Some n -> safe n.
Proof. intros Hs. unfold with_type_extension. repeat case_match; intros; simplify_eq; apply sanitize_safe. Qed.

Lemma append_safe name ext n : append_extension name ext = Some n -> safe n.
Proof. unfold append_extension. repeat case_match; intros; simplify_eq; apply sanitize_safe. Qed.

Lemma complete_from_safe current reference n : complete_extension_from_name current reference = Some n -> safe n.
Proof. unfold complete_extension_from_name. destruct (reference_extension reference); [apply append_safe|done]. Qed.

Lemma refined_safe current e n : safe current -> refine_inferred_name current e = Some n -> safe n.
Proof.
  intros Hc. unfold refine_inferred_name. destruct (match _ with Some [] => None | d => d end) as [d|].
  - destruct (evidence_type_extension e) as [ext|]; [|cbn; case_bool_decide; intros; simplify_eq; apply sanitize_safe].
    destruct (_ && _); cbn; case_bool_decide; intros; simplify_eq; apply sanitize_safe.
  - destruct (evidence_type_extension e) as [ext|]; [cbn|done]. destruct (with_type_extension current ext) eqn:E; [cbn|done].
    case_bool_decide; intros; simplify_eq. by eapply typed_name_safe.
Qed.

Section SafeAddresses.
Context `{EncodingRs}.

Lemma url_name_safe url n : extract_from_url url = Some n -> safe n.
Proof. unfold extract_from_url. destruct (_ || _); [done|]. intros [= <-]. apply sanitize_safe. Qed.

Lemma query_name_safe url n : query_disposition_name url = Some n -> safe n.
Proof.
  unfold query_disposition_name, first_some. destruct (split_once _ _) as [[a b]|]; [cbn [mbind option_bind snd]|done].
  intros Hn%head_Some_elem_of. apply list_elem_of_omap in Hn as (pair & _ & Hn). destruct (split_once [EQUALS] pair) as [[k v]|]; [cbn in Hn|done].
  destruct (_ || _); [|done]. apply fmap_Some in Hn as (raw & _ & ->). apply sanitize_safe.
Qed.

Lemma queries_safe urls n : first_some query_disposition_name urls = Some n -> safe n.
Proof. intros Hn%head_Some_elem_of. apply list_elem_of_omap in Hn as (u & _ & Hn). by eapply query_name_safe. Qed.

Lemma derived_safe req fin n : url_derived_filename req fin = Some n -> safe n.
Proof.
  unfold url_derived_filename. destruct (extract_from_url req) as [r|] eqn:Er, (extract_from_url fin) as [f|] eqn:Ef;
    repeat case_match; intros; simplify_eq; by eapply url_name_safe.
Qed.

Lemma extracted_safe h req fin : safe (rn_name (extract_filename h req fin)).
Proof.
  unfold extract_filename. destruct (disposition_of h fin); [apply sanitize_safe|].
  destruct (first_some _ _) as [n|] eqn:Eq; [by eapply queries_safe|].
  destruct (url_derived_filename req fin) as [n|] eqn:Ed; cbn [rn_name].
  - apply derived_safe in Ed. destruct (let* ct := hd_content_type h in mime_to_ext ct) as [ext|]; [cbn|done].
    destruct (with_type_extension n ext) eqn:Ew; [|done]. by eapply typed_name_safe.
  - destruct (hd_content_type h) as [ct|]; [cbn|apply download_safe]. destruct (mime_to_ext ct) as [ext|] eqn:Em; [|apply download_safe].
    apply mime_known, known_good in Em as [He _]. apply (typed_safe (chars "download")); [apply download_safe|done].
Qed.

(** C28. Every name that the response, the addresses, the evidence of a finished
    file or another name gives is one component of a path, neither hidden nor
    with a character that the systems refuse or that disguises it. *)
Theorem names_are_safe h request_url final_url :
  one_component (rn_name (extract_filename h request_url final_url)) /\
  Forall one_component (option_list (rn_name <$> name_from_url final_url)) /\
  Forall one_component (option_list (response_naming h final_url).1) /\
  (forall current hint, Forall one_component (option_list (complete_extension_offline current hint final_url))) /\
  (forall current e, Forall one_component (option_list (complete_explicit_extension current e))) /\
  (forall current e, safe current -> Forall one_component (option_list (refine_inferred_name current e))).
Proof.
  assert (forall o, (forall n, o = Some n -> safe n) -> Forall one_component (option_list o)) as Ho.
  { intros [n|] Hn; cbn; [|by constructor]. constructor; [by apply safe_component, Hn|by constructor]. }
  split; [apply safe_component, extracted_safe|]. split_and!; intros; apply Ho; intros n.
  - unfold name_from_url. destruct (query_disposition_name final_url) as [q|] eqn:E; [intros [= <-]; by eapply query_name_safe|].
    destruct (extract_from_url final_url) as [q|] eqn:E2; [cbn; intros [= <-]; by eapply url_name_safe|done].
  - unfold response_naming. cbn [fst]. destruct (disposition_of h final_url); [cbn; intros [= <-]; apply sanitize_safe|done].
  - unfold complete_extension_offline. destruct (negb _); [done|]. destruct (complete_extension_from_name current hint) eqn:E; [intros [= <-]; by eapply complete_from_safe|].
    destruct (query_disposition_name final_url); [|done]. apply complete_from_safe.
  - unfold complete_explicit_extension. destruct (match _ with Some ext => Some ext | None => _ end); [|done]. apply append_safe.
  - by apply refined_safe.
Qed.
End SafeAddresses.

Lemma names_are_safe_witness :
  exists h url current, rn_name (@extract_filename utf8_only h url url) = chars "_.._etc_pass_.pdf" /\
    one_component (rn_name (@extract_filename utf8_only h url url)) /\ safe current /\
    Forall one_component (option_list (refine_inferred_name current (mk_evidence (Some (chars "../a")) None None))).
Proof.
  exists (mk_headers (Some (chars "attachment; filename=../../etc/pass?.pdf")) None), (chars "http://host/x"), (chars "x").
  destruct (@names_are_safe utf8_only (mk_headers (Some (chars "attachment; filename=../../etc/pass?.pdf")) None) (chars "http://host/x") (chars "http://host/x"))
    as (H1 & _ & _ & _ & _ & H6).
  split; [by vm_compute|]. split; [exact H1|]. assert (safe (chars "x")) as Hs by exact (sanitize_safe (chars "x")). split; [exact Hs|].
  exact (H6 (chars "x") (mk_evidence (Some (chars "../a")) None None) Hs).
Defined.

(** C30. Sanitizing leaves a name that needs nothing alone (so doing it again does
    nothing to a short name), and what it makes of any name is one component,
    fits the limit when the extension does, and is not a device when nothing
    had to be cut. *)
Theorem sanitize_correct name :
  one_component (sanitize_filename name) /\
  (safe name -> is_reserved (before_first (eqc DOTC) name) = false -> str_len name <= MAX_FILENAME_BYTES -> sanitize_filename name = name) /\
  (str_len (split_extension (renamed (cleaned name))).2 <= MAX_FILENAME_BYTES -> str_len (sanitize_filename name) <= MAX_FILENAME_BYTES) /\
  (str_len (renamed (cleaned name)) <= MAX_FILENAME_BYTES ->
     is_reserved (before_first (eqc DOTC) (sanitize_filename name)) = false /\ sanitize_filename (sanitize_filename name) = sanitize_filename name).
Proof.
  assert (forall s, safe s -> is_reserved (before_first (eqc DOTC) s) = false -> str_len s <= MAX_FILENAME_BYTES -> sanitize_filename s = s) as Hid.
  { intros s (Hne & Ha & Ht) Hr Hl. rewrite sanitize_eq. unfold cleaned. rewrite cleaned_id, trim_by_id, bool_decide_false by done.
    unfold renamed. by rewrite Hr, (proj2 (Z.leb_le _ _)) by done. }
  split; [apply safe_component, sanitize_safe|]. split; [apply Hid|]. split.
  - apply short_extension_fits.
  - intros Hl. assert (is_reserved (before_first (eqc DOTC) (sanitize_filename name)) = false /\ str_len (sanitize_filename name) <= MAX_FILENAME_BYTES) as [Hr Hs].
    { rewrite sanitize_eq. case_bool_decide; [split; by vm_compute|]. rewrite (proj2 (Z.leb_le _ _)) by done. split; [apply renamed_not_reserved|done]. }
    split; [done|]. apply Hid; [apply sanitize_safe|done|done].
Qed.

Lemma sanitize_correct_witness :
  safe (chars "a.tar.gz") /\ sanitize_filename (chars "a.tar.gz") = chars "a.tar.gz" /\
  str_len (sanitize_filename (replicate 300 97 ++ chars ".bin")) <= MAX_FILENAME_BYTES /\
  is_reserved (before_first (eqc DOTC) (sanitize_filename (chars "nul.txt"))) = false.
Proof.
  assert (safe (chars "a.tar.gz")) as Hs by exact (sanitize_safe (chars "a.tar.gz")).
  destruct (sanitize_correct (chars "a.tar.gz")) as (_ & H2 & _ & _).
  destruct (sanitize_correct (replicate 300 97 ++ chars ".bin")) as (_ & _ & H3 & _).
  destruct (sanitize_correct (chars "nul.txt")) as (_ & _ & _ & H4).
  split; [exact Hs|]. split; [apply H2; [exact Hs|reflexivity|by vm_compute]|]. split; [apply H3; by vm_compute|].
  apply (proj1 (H4 ltac:(by vm_compute))).
Defined.

(** C31. What the first bytes or the headers say is settled in one go: refining the
    refined name with the same evidence leaves it. *)
Theorem refinement_settles current e n :
  safe current -> observed e -> refine_inferred_name current e = Some n -> n <> current /\ refine_inferred_name n e = None.
Proof.
  intros Hc Ho Hr. pose proof Hr as (x & Hx & Hn)%bind_Some. case_bool_decide as Hne; simplify_eq. split; [done|].
  revert Hr Hx. unfold refine_inferred_name. destruct (match _ with Some [] => None | d => d end) as [d|].
  - intros _ ->. cbn [mbind option_bind]. by rewrite bool_decide_false by auto.
  - intros _. destruct (evidence_type_extension e) as [ext|] eqn:Ee; [cbn [mbind option_bind]|done]. intros Ew.
    destruct (type_given _ _ _ Hc (evidence_known _ _ Ho Ee) Ew) as (Hh & y & ->).
    rewrite typed_settles; [done|by eapply evidence_known|done].
Qed.

Lemma refinement_settles_witness :
  exists current e n, safe current /\ refine_inferred_name current e = Some n /\ n = chars "get.pdf" /\ refine_inferred_name n e = None.
Proof.
  exists (chars "get.php"), (mk_evidence None None (sniff_extension (chars "%PDF-1.7"))), (chars "get.pdf").
  assert (safe (chars "get.php")) as Hs by exact (sanitize_safe (chars "get.php")).
  assert (refine_inferred_name (chars "get.php") (mk_evidence None None (sniff_extension (chars "%PDF-1.7"))) = Some (chars "get.pdf")) as Hr by by vm_compute.
  split; [exact Hs|]. split; [exact Hr|]. split; [reflexivity|].
  refine (proj2 (refinement_settles _ _ _ Hs _ Hr)). right. exists (chars "%PDF-1.7"). reflexivity.
Defined.

(** C32. Where the limit fails.  When a name is too long already with the part from
    its last dot on, that part alone, trimmed, becomes the name: no stem, no
    extension; and the name stays over the limit exactly when the trimmed part is.
    Where the cut falls right behind a device's name, what is left is the
    name of the device, which the whole name was not. *)
Theorem truncation_defects :
  (forall name, let ext := (split_extension (renamed (cleaned name))).2 in
     (MAX_FILENAME_BYTES < str_len ext -> sanitize_filename name = trim_by dot_or_space ext) /\
     (MAX_FILENAME_BYTES < str_len (sanitize_filename name) <-> MAX_FILENAME_BYTES < str_len (trim_by dot_or_space ext))) /\
  (forall device c rest ext, let stem := device ++ c :: rest in let name := stem ++ DOTC :: ext in
     safe name -> Forall (fun x => eqc DOTC x = false) (stem ++ ext) -> is_reserved device = true -> is_reserved stem = false ->
     str_len device + str_len (DOTC :: ext) <= MAX_FILENAME_BYTES < str_len device + char_len c + str_len (DOTC :: ext) ->
     is_reserved (before_first (eqc DOTC) name) = false /\ sanitize_filename name = device ++ DOTC :: ext /\
     is_reserved (before_first (eqc DOTC) (sanitize_filename name)) = true).
Proof.
  split.
  - intros name ext. assert (MAX_FILENAME_BYTES < str_len ext -> sanitize_filename name = trim_by dot_or_space ext) as Hlong by apply long_extension_alone.
    split; [exact Hlong|]. pose proof (trim_by_len dot_or_space ext). split; intros H1; [|rewrite Hlong by lia; exact H1].
    destruct (Z.ltb_spec MAX_FILENAME_BYTES (str_len ext)) as [Hl|Hl]; [by rewrite <- Hlong|].
    exfalso. revert H1. apply Z.nlt_ge. by apply short_extension_fits.
  - intros device c rest ext stem name Hs Hd Hdev Hstem Hcut. apply Forall_app in Hd as [Hd He].
    assert (before_first (eqc DOTC) name = stem) as Hb by by apply before_first_dot.
    split; [by rewrite Hb|]. assert (sanitize_filename name = device ++ DOTC :: ext) as ->.
    { apply (cut_after_device device c rest ext); try done. exact (eq_trans (f_equal is_reserved Hb) Hstem). }
    split; [done|]. rewrite before_first_dot; [done|]. by apply Forall_app in Hd as [? _].
Qed.

Lemma truncation_defects_witness :
  let name := chars "CONX." ++ replicate 196 97 in
  is_reserved (before_first (eqc DOTC) name) = false /\ sanitize_filename name = chars "CON." ++ replicate 196 97 /\
  str_len (sanitize_filename (chars "x." ++ replicate 300 97)) = 300.
Proof.
  intros name. pose proof (sanitize_safe name) as Hs.
  assert (safe name) as Hsafe.
  { split; [done|]. split; [|split; intros x Hx; vm_compute in Hx; injection Hx as <-; by vm_compute].
    apply (Forall_impl (fun c => clean_char c = Some c)); [|done]. apply (bool_decide_unpack _). by vm_compute. }
  destruct truncation_defects as [H1 H2].
  destruct (H2 (chars "CON") 88 [] (replicate 196 97) Hsafe) as (H3 & H4 & _); [|by vm_compute|by vm_compute|by vm_compute|].
  - apply (bool_decide_unpack _). by vm_compute.
  - split; [exact H3|]. split; [exact H4|]. rewrite (proj1 (H1 (chars "x." ++ replicate 300 97))); by vm_compute.
Defined.
