(* ===== verification/Schedule.v ===== *)
(** * Schedule: the daily schedules of queues ([due_schedule_actions],
      [parse_hhmm], [tick_queue_schedules] of [download_manager.rs])

    A queue may start and stop at fixed times on chosen days of the week.  The
    host ticks every half minute; a tick finds the edges that have passed today
    and are not in the ledger, records them, and carries out the latest one of
    each queue.  After midnight it makes up for the start of a window that
    began yesterday.  The reference is [scheduled], what the schedule asks for at
    a moment; the theorem of the file relates runs of ticks to it.  The calendar
    ([chrono]) is an interface: the day of the week and the day before. *)
From Stdlib Require Import Ascii.
From S2P Require Import Prelude Text.

(** ** Times of day *)

(** [s.split_once(c)]. *)
Fixpoint split_once (c : ascii) (s : text) : option (text * text) :=
  match s with
  | [] => None
  | x :: s =>
      if decide (x = c) then Some ([], s) else
      let* (a, b) := split_once c s in Some (x :: a, b)
  end.

Definition parse_u32 : text -> option Z := parse_int 0 u32_max.

Definition parse_hhmm (s : text) : option Z :=
  let* (h, m) := split_once ":"%char s in
  let* h := parse_u32 h in
  let* m := parse_u32 m in
  if (h <? 24) && (m <? 60) then Some (h * 60 + m) else None.

(** ** Schedules *)

(** The part of [QueueInfo] that says whether a queue runs and when. *)
Record QueuePlan := mk_plan {
  is_running : bool;
  schedule_enabled : bool;
  schedule_start : text;
  schedule_stop : text;
  schedule_days : Z }.

(** [(queue_id, is_start)]. *)
Notation ScheduleEdge := (text * bool)%type.

(** Dates are day numbers; [weekday] counts from Monday. *)
Class Calendar := {
  weekday : Z -> Z;
  pred_opt : Z -> option Z;
  weekday_range d : 0 <= weekday d < 7;
  pred_spec d : pred_opt d = Some (d - 1);
  weekday_pred d : weekday (d - 1) = (weekday d + 6) mod 7 }.

Section Due.
Context `{Calendar}.

(** Is the edge still to be handled at its minute? *)
Definition edge_due (fired : gmap ScheduleEdge Z) (today now_min : Z) (edge : ScheduleEdge) (minute : Z) : bool :=
  negb (now_min <? minute) && negb (bool_decide (fired !! edge = Some today)).

(** One round of the loop over the two edges of a queue: the edges recorded so
    far, the latest of them. *)
Definition edge_round (queue_id : text) (fired : gmap ScheduleEdge Z) (today now_min : Z)
    (st : list (ScheduleEdge * Z) * option (Z * bool)) (edge : option Z * bool) : list (ScheduleEdge * Z) * option (Z * bool) :=
  let '(passed, newest) := st in
  let '(time, is_start) := edge in
  match time with
  | None => st
  | Some minute =>
      if edge_due fired today now_min (queue_id, is_start) minute then
        (passed ++ [((queue_id, is_start), today)],
         if match newest with Some (m, _) => m <=? minute | None => true end then Some (minute, is_start) else newest)
      else st
  end.

(** The window of last night, if it is to be made up for. *)
Definition night_window (q : QueuePlan) (now_min : Z) : bool :=
  match parse_hhmm (schedule_start q), parse_hhmm (schedule_stop q) with
  | Some start, Some stop => (stop <? start) && (now_min <? stop)
  | _, _ => false
  end.

Definition prev_bit (day_bit : Z) : Z := if day_bit =? 1 then Z.shiftl 1 6 else Z.shiftr day_bit 1.

Definition due_queue (fired : gmap ScheduleEdge Z) (today day_bit now_min : Z) (x : text * QueuePlan)
    : list (ScheduleEdge * Z) * list ScheduleEdge :=
  let '(queue_id, q) := x in
  if negb (schedule_enabled q) || (Z.land (schedule_days q) day_bit =? 0) then ([], []) else
  let '(passed, newest) :=
    foldl (edge_round queue_id fired today now_min) ([], None)
      [(parse_hhmm (schedule_start q), true); (parse_hhmm (schedule_stop q), false)] in
  match newest with
  | Some (_, is_start) => (passed, [(queue_id, is_start)])
  | None =>
      if night_window q now_min then
        let yesterday := default today (pred_opt today) in
        let key := (queue_id, true) in
        let handled := bool_decide (fired !! key = Some yesterday) || bool_decide (fired !! key = Some today) in
        if negb (Z.land (schedule_days q) (prev_bit day_bit) =? 0) && negb handled
        then (passed ++ [(key, yesterday)], [key])
        else (passed, [])
      else (passed, [])
  end.

(** The edges to record, each with its day, and the actions. *)
Definition due_schedule_actions (queues : list (text * QueuePlan)) (fired : gmap ScheduleEdge Z)
    (today day_bit now_min : Z) : list (ScheduleEdge * Z) * list ScheduleEdge :=
  foldl (fun acc x => let '(p, a) := due_queue fired today day_bit now_min x in (acc.1 ++ p, acc.2 ++ a)) ([], []) queues.

Definition record_edges (passed : list (ScheduleEdge * Z)) (fired : gmap ScheduleEdge Z) : gmap ScheduleEdge Z :=
  foldl (fun fired x => <[x.1 := x.2]> fired) fired passed.

(** A tick at a day and a minute: the ledger, and the actions to carry out. *)
Definition tick (queues : list (text * QueuePlan)) (fired : gmap ScheduleEdge Z) (now : Z * Z)
    : gmap ScheduleEdge Z * list (ScheduleEdge * Z) * list ScheduleEdge :=
  let '(today, now_min) := now in
  let '(passed, actions) := due_schedule_actions queues fired today (Z.shiftl 1 (weekday today)) now_min in
  (record_edges passed fired, passed, actions).

(** Ticks one after another: the ledger, all edges recorded, all actions. *)
Definition ticks (queues : list (text * QueuePlan)) (nows : list (Z * Z))
    : gmap ScheduleEdge Z * list (ScheduleEdge * Z) * list ScheduleEdge :=
  foldl (fun st now =>
    let '(fired, passed, actions) := st in
    let '(fired, p, a) := tick queues fired now in (fired, passed ++ p, actions ++ a)) (∅, [], []) nows.

(** ** The reference *)

Definition on_day (q : QueuePlan) (d : Z) : bool := schedule_enabled q && Z.testbit (schedule_days q) (weekday d).

(** What the schedule asks for at a moment: the latest edge of today, else the
    start of a window that began yesterday. *)
Definition scheduled (q : QueuePlan) (today now_min : Z) : option bool :=
  if negb (on_day q today) then None else
  let reached := fun s => match parse_hhmm s with Some m => if m <=? now_min then Some m else None | None => None end in
  match reached (schedule_start q), reached (schedule_stop q) with
  | Some a, Some b => Some (b <? a)
  | Some _, None => Some true
  | None, Some _ => Some false
  | None, None => if night_window q now_min && on_day q (today - 1) then Some true else None
  end.

(** The clock does not go backwards. *)
Definition not_after (a b : Z * Z) : Prop := a.1 < b.1 \/ (a.1 = b.1 /\ a.2 <= b.2).

Definition last_action (queue_id : text) (actions : list ScheduleEdge) : option bool :=
  snd <$> last (filter (fun e => e.1 = queue_id) actions).
End Due.

(** ** One queue *)

Definition edge_time (q : QueuePlan) (is_start : bool) : option Z :=
  parse_hhmm (if is_start then schedule_start q else schedule_stop q).

Lemma land_bit x w : 0 <= w -> (Z.land x (Z.shiftl 1 w) =? 0) = negb (Z.testbit x w).
Proof.
  intros Hw. assert (Z.land x (Z.shiftl 1 w) = if Z.testbit x w then Z.shiftl 1 w else 0) as ->.
  { apply Z.bits_inj'. intros n Hn. rewrite Z.land_spec, Z.shiftl_spec by done.
    destruct (decide (n = w)) as [->|Hne].
    - rewrite Z.sub_diag. destruct (Z.testbit x w) eqn:E; [|by rewrite Z.bits_0].
      rewrite Z.shiftl_spec, Z.sub_diag by done. done.
    - assert (Z.testbit 1 (n - w) = false) as E1.
      { destruct (Z.ltb_spec (n - w) 0); [by apply Z.testbit_neg_r|]. apply (Z.bits_above_log2 1); simpl; lia. }
      rewrite E1, andb_false_r. destruct (Z.testbit x w); [|by rewrite Z.bits_0].
      by rewrite Z.shiftl_spec, E1 by done. }
  rewrite Z.shiftl_1_l. destruct (Z.testbit x w); [|done]. simpl. apply Z.eqb_neq. pose proof (Z.pow_pos_nonneg 2 w). lia.
Qed.

Lemma prev_bit_spec w : 0 <= w < 7 -> prev_bit (Z.shiftl 1 w) = Z.shiftl 1 ((w + 6) mod 7).
Proof.
  intros Hw. assert (w = 0 \/ w = 1 \/ w = 2 \/ w = 3 \/ w = 4 \/ w = 5 \/ w = 6) as H by lia.
  by destruct H as [->|[->|[->|[->|[->|[->| ->]]]]]].
Qed.

Lemma parse_hhmm_bounds s m : parse_hhmm s = Some m -> 0 <= m < 1440.
Proof.
  unfold parse_hhmm. destruct (split_once _ s) as [[h mm]|]; [|done]. unfold parse_u32.
  destruct (parse_int _ _ h) as [a|] eqn:Ea; [|done]. destruct (parse_int _ _ mm) as [b|] eqn:Eb; [|done].
  apply parse_int_bounds in Ea, Eb; [|unfold u32_max; lia..].
  destruct (Z.ltb_spec a 24), (Z.ltb_spec b 60); simpl; intros; simplify_eq; lia.
Qed.

Section OneQueue.
Context `{Calendar} (queue_id : text) (q : QueuePlan).

(** The minute of an edge that is to be handled now. *)
Definition due_minute (fired : gmap ScheduleEdge Z) (today now_min : Z) (is_start : bool) : option Z :=
  match edge_time q is_start with
  | Some m => if edge_due fired today now_min (queue_id, is_start) m then Some m else None
  | None => None
  end.

Definition due_last_night (fired : gmap ScheduleEdge Z) (today now_min : Z) : bool :=
  night_window q now_min && on_day q (today - 1)
  && negb (bool_decide (fired !! (queue_id, true) = Some (today - 1)) || bool_decide (fired !! (queue_id, true) = Some today)).

Lemma due_queue_eq fired today now_min :
  due_queue fired today (Z.shiftl 1 (weekday today)) now_min (queue_id, q) =
  if negb (on_day q today) then ([], []) else
  match due_minute fired today now_min true, due_minute fired today now_min false with
  | Some a, Some b => ([((queue_id, true), today); ((queue_id, false), today)], [(queue_id, b <? a)])
  | Some _, None => ([((queue_id, true), today)], [(queue_id, true)])
  | None, Some _ => ([((queue_id, false), today)], [(queue_id, false)])
  | None, None =>
      if due_last_night fired today now_min then ([((queue_id, true), today - 1)], [(queue_id, true)]) else ([], [])
  end.
Proof.
  pose proof (weekday_range today) as Hw. pose proof (weekday_range (today - 1)) as Hw'.
  unfold due_queue. rewrite land_bit, prev_bit_spec, pred_spec, <- weekday_pred, land_bit by lia.
  replace (negb (schedule_enabled q) || negb (Z.testbit (schedule_days q) (weekday today))) with (negb (on_day q today)) by apply negb_andb.
  destruct (on_day q today) eqn:Eday; [|done]. cbn [negb]. unfold on_day in Eday. apply andb_prop in Eday as [Een Eday].
  unfold due_minute, edge_time, foldl, edge_round. cbn [default]. unfold due_last_night, on_day. rewrite Een. cbn [andb].
  destruct (parse_hhmm (schedule_start q)) as [a|]; [destruct (edge_due fired today now_min (queue_id, true) a)|];
    (destruct (parse_hhmm (schedule_stop q)) as [b|]; [destruct (edge_due fired today now_min (queue_id, false) b)|]);
    cbn [app]; try done.
  all: try (destruct (night_window q now_min); [|done]; cbn [andb]; rewrite negb_involutive;
    by destruct (Z.testbit _ _), (negb _)).
  destruct (Z.leb_spec a b), (Z.ltb_spec b a); try lia; done.
Qed.

(** What is known of the queue's edges and of its last action after a tick. *)
Definition followed (fired : gmap ScheduleEdge Z) (last : option bool) (now : option (Z * Z)) : Prop :=
  match now with
  | None => forall b, fired !! (queue_id, b) = None
  | Some (d, n) =>
      (forall b x, fired !! (queue_id, b) = Some x -> x <= d /\ on_day q x = true)
      /\ (forall b m, edge_time q b = Some m -> fired !! (queue_id, b) = Some d -> m <= n)
      /\ (forall b m, edge_time q b = Some m -> on_day q d = true -> m <= n -> fired !! (queue_id, b) = Some d)
      /\ (forall b, scheduled q d n = Some b -> last = Some b)
  end.

Definition after (prev : option (Z * Z)) (now : Z * Z) : Prop :=
  match prev with Some t => not_after t now | None => True end.

Definition reached (now_min : Z) (b : bool) : option Z :=
  match edge_time q b with Some m => if m <=? now_min then Some m else None | None => None end.

Lemma reached_spec n b m : reached n b = Some m <-> edge_time q b = Some m /\ m <= n.
Proof.
  unfold reached. destruct (edge_time q b) as [m'|]; [|naive_solver]. destruct (Z.leb_spec m' n); naive_solver lia.
Qed.

Lemma scheduled_eq d n :
  scheduled q d n =
  if negb (on_day q d) then None else
  match reached n true, reached n false with
  | Some a, Some b => Some (b <? a)
  | Some _, None => Some true
  | None, Some _ => Some false
  | None, None => if night_window q n && on_day q (d - 1) then Some true else None
  end.
Proof. done. Qed.

Lemma due_minute_spec fired d n b m :
  due_minute fired d n b = Some m <-> reached n b = Some m /\ fired !! (queue_id, b) <> Some d.
Proof.
  rewrite reached_spec. unfold due_minute, edge_due. destruct (edge_time q b) as [m'|]; [|naive_solver].
  destruct (Z.ltb_spec n m'); simpl; [naive_solver lia|]. case_bool_decide; simpl; naive_solver.
Qed.

Lemma due_minute_cases fired d n b :
  (exists m, due_minute fired d n b = Some m /\ reached n b = Some m /\ fired !! (queue_id, b) <> Some d)
  \/ (due_minute fired d n b = None /\ (reached n b = None \/ fired !! (queue_id, b) = Some d)).
Proof.
  destruct (due_minute fired d n b) as [m|] eqn:E.
  - left. exists m. split; [done|]. by apply due_minute_spec.
  - right. split; [done|]. destruct (reached n b) as [m|] eqn:Er; [|by left]. right. apply dec_stable. intros Hn.
    assert (due_minute fired d n b = Some m) by (by apply due_minute_spec). congruence.
Qed.

(** An edge recorded today was reached at the tick before, which was today's. *)
Lemma recorded_before fired last prev d n b m :
  followed fired last prev -> after prev (d, n) -> fired !! (queue_id, b) = Some d -> edge_time q b = Some m ->
  exists n0, prev = Some (d, n0) /\ m <= n0 /\ n0 <= n.
Proof.
  destruct prev as [[d0 n0]|]; simpl; [|by intros -> ]. intros (K1 & K2 & _) Ha Hf Ht.
  destruct (K1 _ _ Hf) as [Hle _]. unfold not_after in Ha. simpl in Ha. assert (d0 = d) as -> by lia.
  exists n0. split; [done|]. split; [by apply (K2 b)|lia].
Qed.

(** The start of last night's window is handled exactly when it was carried out
    and nothing has happened since. *)
Lemma night_handled fired last prev d n :
  followed fired last prev -> after prev (d, n) -> on_day q d = true -> night_window q n = true -> on_day q (d - 1) = true ->
  (fired !! (queue_id, true) = Some (d - 1) \/ fired !! (queue_id, true) = Some d) -> last = Some true.
Proof.
  intros Hf Ha Hd Hn Hd' Hk. unfold night_window in Hn.
  destruct (parse_hhmm (schedule_start q)) as [a|] eqn:Ea; [|done]. destruct (parse_hhmm (schedule_stop q)) as [b|] eqn:Eb; [|done].
  bool_hyps. assert (edge_time q true = Some a) as Et by done. assert (edge_time q false = Some b) as Eo by done.
  destruct Hk as [Hk|Hk]; [|destruct (recorded_before _ _ _ _ _ _ _ Hf Ha Hk Et) as (n0 & _ & ? & ?); lia].
  destruct prev as [[d0 n0]|]; [|by rewrite (Hf true) in Hk]. destruct Hf as (K1 & K2 & K3 & K4).
  destruct (K1 _ _ Hk) as [Hle _]. unfold after, not_after in Ha. simpl in Ha. apply K4. rewrite scheduled_eq.
  destruct (decide (d0 = d)) as [->|Hne].
  - rewrite Hd. simpl. unfold reached. rewrite Et, Eo.
    destruct (Z.leb_spec a n0); [lia|]. destruct (Z.leb_spec b n0); [lia|]. unfold night_window. rewrite Ea, Eb, Hd', andb_true_r.
    assert ((b <? a) = true) as -> by lia. assert ((n0 <? b) = true) as -> by lia. done.
  - assert (d0 = d - 1) as -> by lia. rewrite Hd'. simpl. pose proof (K2 true a Et Hk).
    unfold reached. rewrite Et, Eo. destruct (Z.leb_spec a n0); [|lia]. destruct (Z.leb_spec b n0); [|lia].
    f_equal. lia.
Qed.

(** ** One tick *)

(** What the queue contributes to a tick: edges of its own, with new dates, at
    most one action, and that the one the schedule asks for. *)
Record fair_tick (fired : gmap ScheduleEdge Z) (d n : Z) (p : list (ScheduleEdge * Z)) (a : list ScheduleEdge) : Prop := mk_fair {
  fair_mine : forall x, x ∈ p -> x.1.1 = queue_id;
  fair_new : forall x y, x ∈ p -> fired !! x.1 = Some y -> y < x.2;
  fair_keys : NoDup p.*1;
  fair_act : forall e, e ∈ a -> e.1 = queue_id /\ scheduled q d n = Some e.2;
  fair_count : (length a <= 1)%nat /\ (length a <= length p)%nat }.

Definition act (a : list ScheduleEdge) (last_one : option bool) : option bool :=
  match last a with Some e => Some e.2 | None => last_one end.

Lemma fired_before fired last prev d n b y :
  followed fired last prev -> after prev (d, n) -> fired !! (queue_id, b) = Some y -> y <= d.
Proof.
  destruct prev as [[d0 n0]|]; simpl; [|by intros -> ]. intros (K1 & _) Ha Hf. apply K1 in Hf as [? _].
  unfold not_after in Ha. simpl in Ha. lia.
Qed.

Lemma tick_fair fired last prev d n :
  followed fired last prev -> after prev (d, n) ->
  let r := due_queue fired d (Z.shiftl 1 (weekday d)) n (queue_id, q) in fair_tick fired d n r.1 r.2.
Proof.
  intros Hf Ha. rewrite due_queue_eq. destruct (on_day q d) eqn:Hd; simpl; [|by constructor; try constructor; intros; set_solver].
  assert (Hnew : forall b m y, due_minute fired d n b = Some m -> fired !! (queue_id, b) = Some y -> y < d).
  { intros b m y Hm Hy. pose proof (fired_before _ _ _ _ _ _ _ Hf Ha Hy). apply due_minute_spec in Hm as [_ Hm].
    assert (y <> d) by congruence. lia. }
  pose proof (due_minute_cases fired d n true) as Hs. pose proof (due_minute_cases fired d n false) as Hp.
  assert (Hold : forall b m, reached n b = Some m -> fired !! (queue_id, b) = Some d ->
    forall b' m', due_minute fired d n b' = Some m' -> m < m').
  { intros b m [Hm Hmn]%reached_spec Hr b' m' Hdue. destruct (recorded_before _ _ _ _ _ _ _ Hf Ha Hr Hm) as (n0 & -> & H1 & H2).
    apply due_minute_spec in Hdue as [[Hm' _]%reached_spec Hnf]. destruct Hf as (_ & _ & K3 & _).
    destruct (Z.leb_spec m' n0); [|lia]. destruct Hnf. by eapply K3. }
  assert (Hsch := scheduled_eq d n). rewrite Hd in Hsch. simpl in Hsch.
  destruct Hs as [(a & Ea & Ra & Fa)|[Ea Ca]], Hp as [(b & Eb & Rb & Fb)|[Eb Cb]]; rewrite Ea, Eb; simpl.
  - rewrite Ra, Rb in Hsch. constructor; simpl.
    + set_solver.
    + intros x y [->|[->|[]%not_elem_of_nil]%elem_of_cons]%elem_of_cons; simpl; eauto.
    + repeat constructor; set_solver.
    + intros e [->|[]%not_elem_of_nil]%elem_of_cons. done.
    + lia.
  - rewrite Ra in Hsch. assert (scheduled q d n = Some true) as Ht.
    { destruct Cb as [Rb|Fb]; [by rewrite Rb in Hsch|]. destruct (reached n false) as [b|] eqn:Rb; [|done].
      specialize (Hold _ _ Rb Fb _ _ Ea). rewrite Hsch. f_equal. lia. }
    constructor; simpl; [set_solver| |by repeat constructor; set_solver|intros e [->|[]%not_elem_of_nil]%elem_of_cons; done|lia].
    intros x y [->|[]%not_elem_of_nil]%elem_of_cons; simpl; eauto.
  - rewrite Rb in Hsch. assert (scheduled q d n = Some false) as Ht.
    { destruct Ca as [Ra|Fa]; [by rewrite Ra in Hsch|]. destruct (reached n true) as [a|] eqn:Ra; [|done].
      specialize (Hold _ _ Ra Fa _ _ Eb). rewrite Hsch. f_equal. lia. }
    constructor; simpl; [set_solver| |by repeat constructor; set_solver|intros e [->|[]%not_elem_of_nil]%elem_of_cons; done|lia].
    intros x y [->|[]%not_elem_of_nil]%elem_of_cons; simpl; eauto.
  - destruct (due_last_night fired d n) eqn:En; [|by constructor; try constructor; intros; set_solver].
    unfold due_last_night in En. apply andb_prop in En as [[Hn Hy]%andb_prop Hk]. rewrite negb_orb in Hk. bool_hyps.
    constructor; simpl; [set_solver| |by repeat constructor; set_solver| |lia].
    + intros x y [->|[]%not_elem_of_nil]%elem_of_cons Hy'; simpl in *. pose proof (fired_before _ _ _ _ _ _ _ Hf Ha Hy').
      assert (y <> d) by (intros ->; tauto). assert (y <> d - 1) by (intros ->; tauto). lia.
    + intros e [->|[]%not_elem_of_nil]%elem_of_cons. split; [done|]. rewrite Hsch, Hn, Hy.
      unfold night_window in Hn. unfold reached, edge_time.
      destruct (parse_hhmm (schedule_start q)) as [a|]; [|done]. destruct (parse_hhmm (schedule_stop q)) as [b|]; [|done]. bool_hyps.
      destruct (Z.leb_spec a n); [lia|]. by destruct (Z.leb_spec b n); [lia|].
Qed.

(** The ledger after a tick, for the queue's edges. *)
Lemma record_notin p fired k : k ∉ p.*1 -> record_edges p fired !! k = fired !! k.
Proof.
  unfold record_edges. revert fired. induction p as [|x p IH]; intros fired Hk; [done|]. simpl in *.
  rewrite IH by set_solver. rewrite lookup_insert_ne by set_solver. done.
Qed.

Lemma record_in p fired k v : NoDup p.*1 -> (k, v) ∈ p -> record_edges p fired !! k = Some v.
Proof.
  unfold record_edges. revert fired. induction p as [|x p IH]; intros fired Hn Hk; [set_solver|]. simpl in *.
  apply NoDup_cons in Hn as [Hx Hn]. apply elem_of_cons in Hk as [<-|Hk]; [|by apply IH].
  change (record_edges p (<[k:=v]> fired) !! k = Some v). rewrite record_notin by done. apply lookup_insert_eq.
Qed.

Definition night_due (fired : gmap ScheduleEdge Z) (d n : Z) : bool :=
  match due_minute fired d n true, due_minute fired d n false with None, None => due_last_night fired d n | _, _ => false end.

Lemma night_due_spec fired d n : night_due fired d n = true ->
  on_day q (d - 1) = true /\ fired !! (queue_id, true) <> Some d.
Proof.
  unfold night_due. destruct (due_minute fired d n true); [done|]. destruct (due_minute fired d n false); [done|].
  unfold due_last_night. intros [[_ ?]%andb_prop E]%andb_prop. rewrite negb_orb in E. bool_hyps. done.
Qed.

Lemma ledger_after fired d n b :
  record_edges (due_queue fired d (Z.shiftl 1 (weekday d)) n (queue_id, q)).1 fired !! (queue_id, b) =
  if negb (on_day q d) then fired !! (queue_id, b)
  else if bool_decide (is_Some (due_minute fired d n b)) then Some d
  else if b && night_due fired d n then Some (d - 1) else fired !! (queue_id, b).
Proof.
  rewrite due_queue_eq. destruct (on_day q d); cbn [negb]; [|done]. unfold night_due.
  destruct (due_minute fired d n true) as [x|] eqn:E1, (due_minute fired d n false) as [y|] eqn:E2; [| | |destruct (due_last_night fired d n)];
    destruct b; rewrite ?E1, ?E2; unfold record_edges; cbn;
    repeat (rewrite lookup_insert_eq || rewrite lookup_insert_ne by congruence); done.
Qed.

(** Nothing fell due, but the schedule asks for something: it was done before. *)
Lemma nothing_due fired last prev d n b :
  followed fired last prev -> after prev (d, n) ->
  due_minute fired d n true = None -> due_minute fired d n false = None -> due_last_night fired d n = false ->
  scheduled q d n = Some b -> last = Some b.
Proof.
  intros Hf Ha E1 E2 En Hs. pose proof Hs as Hs'. rewrite scheduled_eq in Hs. destruct (on_day q d) eqn:Hd; simpl in Hs; [|done].
  assert (Hc : forall c, reached n c = None \/ fired !! (queue_id, c) = Some d).
  { intros c. destruct (due_minute_cases fired d n c) as [(m & Hm & _)|[_ ?]]; [|done]. destruct c; congruence. }
  destruct (decide (reached n true = None /\ reached n false = None)) as [[R1 R2]|Hr].
  - rewrite R1, R2 in Hs. destruct (night_window q n && _) eqn:En'; [|done]. simplify_eq. apply andb_prop in En' as [Hw Hy].
    apply (night_handled fired last prev d n); try done. unfold due_last_night in En. rewrite Hw, Hy in En. simpl in En.
    apply negb_false_iff, orb_prop in En as [?%bool_decide_eq_true|?%bool_decide_eq_true]; auto.
  - assert (exists c, is_Some (reached n c)) as [c [m Rc]].
    { destruct (reached n true) eqn:R1; [by exists true; rewrite R1|]. destruct (reached n false) eqn:R2; [by exists false; rewrite R2|]. naive_solver. }
    destruct (Hc c) as [?|Fc]; [congruence|]. apply reached_spec in Rc as [Tc _].
    destruct (recorded_before _ _ _ _ _ _ _ Hf Ha Fc Tc) as (n0 & -> & _ & Hn).
    assert (Hsame : forall c, reached n0 c = reached n c).
    { intros c'. destruct (reached n c') as [m'|] eqn:R.
      - destruct (Hc c') as [?|Fc']; [congruence|]. apply reached_spec in R as [T' _]. apply reached_spec. split; [done|].
        destruct Hf as (_ & K2 & _). by eapply K2.
      - destruct (reached n0 c') as [m'|] eqn:R0; [|done]. apply reached_spec in R0 as [T' ?].
        assert (reached n c' = Some m') by (apply reached_spec; split; [done|lia]). congruence. }
    destruct Hf as (_ & _ & _ & K4). apply K4. rewrite <- Hs', !scheduled_eq, !Hsame.
    destruct (reached n true) eqn:R1; [done|]. destruct (reached n false) eqn:R2; [done|]. naive_solver.
Qed.

Lemma tick_followed fired fired' last prev d n :
  followed fired last prev -> after prev (d, n) ->
  let r := due_queue fired d (Z.shiftl 1 (weekday d)) n (queue_id, q) in
  (forall b, fired' !! (queue_id, b) = record_edges r.1 fired !! (queue_id, b)) ->
  followed fired' (act r.2 last) (Some (d, n)).
Proof.
  intros Hf Ha r Hr. assert (Hl := fun b => eq_trans (Hr b) (ledger_after fired d n b)). split; [|split; [|split]].
  - intros b x. rewrite Hl. destruct (on_day q d) eqn:Hd; simpl.
    + case_bool_decide; [intros; simplify_eq; split; [lia|done]|]. destruct (b && night_due fired d n) eqn:En.
      * intros; simplify_eq. apply andb_prop in En as [_ [? _]%night_due_spec]. split; [lia|done].
      * intros Hx. split; [by eapply fired_before|]. destruct prev as [[d0 n0]|]; [by apply (proj1 Hf b)|]. by rewrite (Hf b) in Hx.
    + intros Hx. split; [by eapply fired_before|]. destruct prev as [[d0 n0]|]; [by apply (proj1 Hf b)|]. by rewrite (Hf b) in Hx.
  - intros b m Ht. rewrite Hl. assert (fired !! (queue_id, b) = Some d -> m <= n) as Hold.
    { intros Hx. destruct (recorded_before _ _ _ _ _ _ _ Hf Ha Hx Ht) as (n0 & _ & ? & ?). lia. }
    destruct (on_day q d); simpl; [|done]. case_bool_decide as Hm.
    + intros _. destruct Hm as [m' [[? ?]%reached_spec _]%due_minute_spec]. by simplify_eq.
    + destruct (b && _); [intros; simplify_eq; lia|done].
  - intros b m Ht Hd Hn. rewrite Hl, Hd. simpl. case_bool_decide as Hm; [done|].
    destruct (due_minute_cases fired d n b) as [(m' & ? & _)|[Hnone [Hx|Hx]]]; [by destruct Hm|..].
    + assert (reached n b = Some m) by (by apply reached_spec). congruence.
    + destruct (b && night_due fired d n) eqn:En; [|done]. by apply andb_prop in En as [-> [_ []]%night_due_spec].
  - intros b Hs. destruct (tick_fair fired last prev d n Hf Ha) as [_ _ _ Hact _]. fold r in Hact. unfold act.
    destruct (list.last r.2) as [e|] eqn:E.
    + apply last_Some_elem_of, Hact in E as [_ E]. congruence.
    + apply last_None in E. unfold r in E. rewrite due_queue_eq in E. destruct (on_day q d) eqn:Hd; simpl in E.
      * destruct (due_minute fired d n true) eqn:E1, (due_minute fired d n false) eqn:E2; try done.
        destruct (due_last_night fired d n) eqn:En; [done|]. by apply (nothing_due fired last prev d n b).
      * rewrite scheduled_eq, Hd in Hs. done.
Qed.
End OneQueue.

(** ** All queues *)

Section AllQueues.
Context `{Calendar} (queues : list (text * QueuePlan)).

Definition parts_of (fired : gmap ScheduleEdge Z) (d n : Z) (x : text * QueuePlan) : list (ScheduleEdge * Z) * list ScheduleEdge :=
  due_queue fired d (Z.shiftl 1 (weekday d)) n x.

Lemma due_actions_eq fired d bit n l : due_schedule_actions l fired d bit n =
  (mjoin (map (fun x => (due_queue fired d bit n x).1) l), mjoin (map (fun x => (due_queue fired d bit n x).2) l)).
Proof.
  unfold due_schedule_actions. enough (forall acc, foldl (fun acc x => let '(p, a) := due_queue fired d bit n x in (acc.1 ++ p, acc.2 ++ a)) acc l =
    (acc.1 ++ mjoin (map (fun x => (due_queue fired d bit n x).1) l), acc.2 ++ mjoin (map (fun x => (due_queue fired d bit n x).2) l))) as E
    by (by rewrite E).
  induction l as [|x l IH]; intros [p a]; simpl; [by rewrite !app_nil_r|]. rewrite IH.
  destruct (due_queue fired d bit n x) as [p' a']. simpl. by rewrite !app_assoc.
Qed.

Lemma part_mine fired d n x : (forall y, y ∈ (parts_of fired d n x).1 -> y.1.1 = x.1) /\ (forall e, e ∈ (parts_of fired d n x).2 -> e.1 = x.1).
Proof.
  destruct x as [id q]. unfold parts_of. rewrite due_queue_eq.
  destruct (on_day q d); simpl; [|set_solver].
  destruct (due_minute id q fired d n true), (due_minute id q fired d n false); [set_solver..|].
  destruct (due_last_night id q fired d n); set_solver.
Qed.

Lemma filter_all_in {A} (P : A -> Prop) `{!forall x, Decision (P x)} (l : list A) : (forall x, x ∈ l -> P x) -> filter P l = l.
Proof.
  induction l as [|x l IH]; intros Hl; [done|]. rewrite filter_cons, decide_True by (apply Hl; by left).
  f_equal. apply IH. intros y Hy. apply Hl. by right.
Qed.

Lemma filter_mine {A} (f : A -> text) (g : text * QueuePlan -> list A) id q :
  NoDup queues.*1 -> (id, q) ∈ queues -> (forall x y, y ∈ g x -> f y = x.1) ->
  filter (fun y => f y = id) (mjoin (map g queues)) = g (id, q).
Proof.
  intros Hn Hin Hg. induction queues as [|[id' q'] l IH]; [set_solver|]. simpl in *. apply NoDup_cons in Hn as [Hid Hn].
  rewrite filter_app. assert (Hkeep : forall x, x.1 = id -> filter (fun y => f y = id) (g x) = g x).
  { intros x Hx. apply filter_all_in. rewrite <- Hx. intros y. apply Hg. }
  assert (Hdrop : forall l, id ∉ l.*1 -> filter (fun y => f y = id) (mjoin (map g l)) = []).
  { intros l' Hl'. destruct (filter _ (mjoin (map g l'))) as [|y r] eqn:E; [done|].
    assert (y ∈ filter (fun y => f y = id) (mjoin (map g l'))) as Hy by (rewrite E; by left).
    apply list_elem_of_filter in Hy as [<- Hy]. apply list_elem_of_join in Hy as (z & Hy & Hz).
    apply list_elem_of_fmap in Hz as (x & -> & Hx). destruct Hl'. rewrite (Hg x y Hy). apply list_elem_of_fmap. by exists x. }
  apply elem_of_cons in Hin as [[= -> ->]|Hin].
  - rewrite Hkeep, Hdrop by done. apply app_nil_r.
  - assert (id <> id') as Hne. { intros ->. apply Hid, list_elem_of_fmap. by exists (id', q). }
    rewrite IH by done. destruct (filter (fun y => f y = id) (g (id', q'))) as [|y r] eqn:E; [done|].
    assert (y ∈ filter (fun y => f y = id) (g (id', q'))) as Hy by (rewrite E; by left).
    apply list_elem_of_filter in Hy as [<- Hy]. by apply Hg in Hy.
Qed.

Lemma record_filter p fired id b :
  record_edges p fired !! (id, b) = record_edges (filter (fun x => x.1.1 = id) p) fired !! (id, b).
Proof.
  enough (forall f1 f2 : gmap ScheduleEdge Z, (forall b, f1 !! (id, b) = f2 !! (id, b)) ->
    record_edges p f1 !! (id, b) = record_edges (filter (fun x => x.1.1 = id) p) f2 !! (id, b)) as Hg by (by apply Hg).
  unfold record_edges. induction p as [|[[i c] v] p IH]; intros f1 f2 Hf; [apply Hf|]. rewrite filter_cons. simpl.
  destruct (decide (i = id)) as [->|Hi]; simpl; apply IH; intros b'.
  - destruct (decide (c = b')) as [->|Hc]; [by rewrite !lookup_insert_eq|].
    rewrite !lookup_insert_ne by congruence. apply Hf.
  - rewrite lookup_insert_ne by congruence. apply Hf.
Qed.

Lemma last_action_app id l a : last_action id (l ++ a) = act (filter (fun e => e.1 = id) a) (last_action id l).
Proof.
  unfold last_action, act. rewrite filter_app, last_app. by destruct (list.last (filter _ a)).
Qed.

Lemma tick_eq fired d n : tick queues fired (d, n) =
  (record_edges (mjoin (map (fun x => (parts_of fired d n x).1) queues)) fired,
   mjoin (map (fun x => (parts_of fired d n x).1) queues), mjoin (map (fun x => (parts_of fired d n x).2) queues)).
Proof. unfold tick. by rewrite due_actions_eq. Qed.

(** A run of ticks, kept by one more tick. *)
Record run_ok (st : gmap ScheduleEdge Z * list (ScheduleEdge * Z) * list ScheduleEdge) (prev : option (Z * Z)) : Prop := mk_run_ok {
  run_followed : forall id q, (id, q) ∈ queues -> followed id q st.1.1 (last_action id st.2) prev;
  run_ledger : forall x, x ∈ st.1.2 -> exists y, st.1.1 !! x.1 = Some y /\ x.2 <= y;
  run_once : NoDup st.1.2;
  run_count : (length st.2 <= length st.1.2)%nat }.

Lemma join_count {A B} (f : text * QueuePlan -> list A * list B) l :
  (forall x, x ∈ l -> (length (f x).2 <= length (f x).1)%nat) ->
  (length (mjoin (map (fun x => (f x).2) l)) <= length (mjoin (map (fun x => (f x).1) l)))%nat.
Proof.
  induction l as [|x l IH]; intros Hl; simpl; [done|]. rewrite !length_app. pose proof (Hl x ltac:(by left)).
  assert (forall x, x ∈ l -> (length (f x).2 <= length (f x).1)%nat) as H1 by (intros; apply Hl; by right).
  apply IH in H1. lia.
Qed.

Lemma join_keys (f : text * QueuePlan -> list (ScheduleEdge * Z)) l :
  NoDup l.*1 -> (forall x, x ∈ l -> NoDup (f x).*1) -> (forall x y, y ∈ f x -> y.1.1 = x.1) -> NoDup (mjoin (map f l)).*1.
Proof.
  intros Hn Hk Hm. induction l as [|x l IH]; simpl; [constructor|]. apply NoDup_cons in Hn as [Hx Hn].
  rewrite fmap_app. apply NoDup_app. split; [apply Hk; by left|]. split; [|apply IH; [done|intros; apply Hk; by right]].
  intros k (y & -> & Hy)%list_elem_of_fmap (z & Hz & Hz')%list_elem_of_fmap.
  apply list_elem_of_join in Hz' as (u & Hz' & (x' & -> & Hx')%list_elem_of_fmap).
  apply Hx, list_elem_of_fmap. exists x'. split; [|done]. pose proof (Hm x y Hy). pose proof (Hm x' z Hz').
  congruence.
Qed.

Lemma run_tick st prev d n :
  NoDup queues.*1 -> run_ok st prev -> after prev (d, n) ->
  let '(fired', p, a) := tick queues st.1.1 (d, n) in
  run_ok (fired', st.1.2 ++ p, st.2 ++ a) (Some (d, n))
  /\ (forall e, e ∈ a -> exists q, (e.1, q) ∈ queues /\ scheduled q d n = Some e.2).
Proof.
  intros Hn [R1 R2 R3 R4] Ha. rewrite tick_eq. set (fired := st.1.1) in *.
  set (p := mjoin (map (fun x => (parts_of fired d n x).1) queues)). set (a := mjoin (map (fun x => (parts_of fired d n x).2) queues)).
  assert (Hfair : forall id q, (id, q) ∈ queues -> fair_tick id q fired d n (parts_of fired d n (id, q)).1 (parts_of fired d n (id, q)).2)
    by (intros id q Hin; apply (tick_fair id q fired (last_action id st.2) prev); [by apply R1|done]).
  assert (Hkeys : NoDup p.*1).
  { apply join_keys; [done|intros [id q] Hin; apply (fair_keys _ _ _ _ _ _ _ (Hfair id q Hin))|intros x y; apply part_mine]. }
  assert (Hin : forall x, x ∈ p -> exists id q, (id, q) ∈ queues /\ x ∈ (parts_of fired d n (id, q)).1).
  { intros x (u & Hx & ([id q] & -> & Hin)%list_elem_of_fmap)%list_elem_of_join. by exists id, q. }
  assert (Hnew : forall x y, x ∈ p -> fired !! x.1 = Some y -> y < x.2).
  { intros x y (id & q & Hq & Hx)%Hin. by apply (fair_new _ _ _ _ _ _ _ (Hfair id q Hq)). }
  assert (Hled : forall x, x ∈ p -> record_edges p fired !! x.1 = Some x.2) by (intros [k v] Hx; by apply record_in).
  split.
  - constructor; cbn [fst snd].
    + intros id q Hq. rewrite last_action_app. unfold a. rewrite (filter_mine (A := ScheduleEdge) fst (fun x => (parts_of fired d n x).2) id q) by (done || apply part_mine).
      apply (tick_followed id q fired _ _ prev); [by apply R1|done|]. intros b. rewrite record_filter. unfold p.
      by rewrite (filter_mine (A := ScheduleEdge * Z) (fun x => x.1.1) (fun x => (parts_of fired d n x).1) id q) by (done || apply part_mine).
    + intros x [Hx|Hx]%elem_of_app; [|exists x.2; split; [by apply Hled|done]].
      destruct (R2 x Hx) as (y & Hy & Hle). destruct (decide (x.1 ∈ p.*1)) as [Hk|Hk].
      * apply list_elem_of_fmap in Hk as (z & Hz & Hzp). rewrite Hz, (Hled z Hzp). exists z.2. split; [done|].
        rewrite Hz in Hy. specialize (Hnew z y Hzp Hy). lia.
      * exists y. by rewrite record_notin.
    + apply NoDup_app. split; [done|]. split; [|by apply (NoDup_fmap_1 fst)]. intros x Hx Hxp.
      destruct (R2 x Hx) as (y & Hy & Hle). specialize (Hnew x y Hxp Hy). lia.
    + rewrite !length_app. pose proof (join_count (parts_of fired d n) queues) as Hc. fold p a in Hc.
      assert (length a <= length p)%nat; [|lia]. apply Hc. intros [id q] Hq. apply (fair_count _ _ _ _ _ _ _ (Hfair id q Hq)).
  - intros e (u & He & ([id q] & -> & Hq)%list_elem_of_fmap)%list_elem_of_join.
    destruct (fair_act _ _ _ _ _ _ _ (Hfair id q Hq) e He) as [-> Hs]. by exists q.
Qed.

Lemma sorted_snoc (l : list (Z * Z)) x : Sorted not_after (l ++ [x]) -> Sorted not_after l /\ after (list.last l) x.
Proof.
  induction l as [|y l IH]; intros Hs; [by split|]. inversion Hs as [|? ? Hs' Hh]; subst. destruct (IH Hs') as [H1 H2]. split.
  - constructor; [done|]. destruct l as [|z l]; [constructor|]. inversion Hh. by constructor.
  - destruct l as [|z l]; [by inversion Hh|done].
Qed.

Lemma ticks_ok nows : NoDup queues.*1 -> Sorted not_after nows -> run_ok (ticks queues nows) (list.last nows).
Proof.
  intros Hn. induction nows as [|[d n] nows IH] using rev_ind; intros Hs.
  - constructor; simpl; [done|set_solver|constructor|done].
  - apply sorted_snoc in Hs as [Hs Ha]. rewrite last_snoc. unfold ticks. rewrite foldl_app. cbn [foldl]. fold (ticks queues nows).
    pose proof (run_tick (ticks queues nows) _ d n Hn (IH Hs) Ha) as Ht. destruct (ticks queues nows) as [[fired passed] acts].
    cbn [fst snd] in Ht. destruct (tick queues fired (d, n)) as [[f' p] a]. apply Ht.
Qed.
End AllQueues.

(** ** What the schedules promise *)

(** C13. Whatever moments the host ticks at (waking late, ticking twice, skipping
    days), with a clock that does not go backwards and any order of the queues:
    each edge of a queue is recorded at most once for a day, and there are no
    more actions than recorded edges; a tick carries out only what the schedule
    asks for at that moment; and after it the last thing done to a queue is what
    its schedule asks for, if it asks for something. *)
Theorem schedules_followed `{Calendar} (queues : list (text * QueuePlan)) (nows : list (Z * Z)) (now : Z * Z) :
  NoDup queues.*1 -> Sorted not_after (nows ++ [now]) ->
  let '(_, passed, actions) := ticks queues (nows ++ [now]) in
  NoDup passed /\ (length actions <= length passed)%nat
  /\ (forall e, e ∈ (tick queues (ticks queues nows).1.1 now).2 -> exists q, (e.1, q) ∈ queues /\ scheduled q now.1 now.2 = Some e.2)
  /\ (forall id q b, (id, q) ∈ queues -> scheduled q now.1 now.2 = Some b -> last_action id actions = Some b).
Proof.
  intros Hn Hs. pose proof (ticks_ok queues _ Hn Hs) as [R1 _ R3 R4]. rewrite last_snoc in R1.
  destruct now as [d n]. destruct (sorted_snoc _ _ Hs) as [Hs0 Ha].
  pose proof (run_tick queues (ticks queues nows) _ d n Hn (ticks_ok queues nows Hn Hs0) Ha) as Ht.
  destruct (tick queues (ticks queues nows).1.1 (d, n)) as [[f' p] a]. destruct Ht as [_ Hact].
  destruct (ticks queues (nows ++ [(d, n)])) as [[fired passed] actions]. simpl in *.
  split; [done|]. split; [done|]. split; [exact Hact|]. intros id q b Hq Hb.
  destruct (R1 id q Hq) as (_ & _ & _ & K4). by apply K4.
Qed.

(** ** A window of one night *)

(** Mondays, from 23:00 to 07:00. *)
Definition monday_night : QueuePlan := mk_plan true true (lit "23:00") (lit "07:00") 1.

Lemma weekday_next `{Calendar} d : weekday (d + 1) = (weekday d + 1) mod 7.
Proof.
  pose proof (weekday_pred (d + 1)) as E. rewrite Z.add_simpl_r in E. pose proof (weekday_range d). pose proof (weekday_range (d + 1)).
  assert (weekday (d + 1) = 0 \/ weekday (d + 1) = 1 \/ weekday (d + 1) = 2 \/ weekday (d + 1) = 3 \/ weekday (d + 1) = 4
    \/ weekday (d + 1) = 5 \/ weekday (d + 1) = 6) as Hw by lia.
  destruct Hw as [Hw|[Hw|[Hw|[Hw|[Hw|[Hw|Hw]]]]]]; rewrite Hw in *; rewrite E; done.
Qed.

Lemma not_monday `{Calendar} monday d : weekday monday = 0 -> monday < d < monday + 7 -> weekday d <> 0.
Proof.
  intros Hm Hd. pose proof (weekday_next monday) as E1. rewrite Hm in E1.
  pose proof (weekday_next (monday + 1)) as E2. rewrite E1 in E2.
  pose proof (weekday_next (monday + 1 + 1)) as E3. rewrite E2 in E3.
  pose proof (weekday_next (monday + 1 + 1 + 1)) as E4. rewrite E3 in E4.
  pose proof (weekday_next (monday + 1 + 1 + 1 + 1)) as E5. rewrite E4 in E5.
  pose proof (weekday_next (monday + 1 + 1 + 1 + 1 + 1)) as E6. rewrite E5 in E6.
  assert (d = monday + 1 \/ d = monday + 1 + 1 \/ d = monday + 1 + 1 + 1 \/ d = monday + 1 + 1 + 1 + 1
    \/ d = monday + 1 + 1 + 1 + 1 + 1 \/ d = monday + 1 + 1 + 1 + 1 + 1 + 1) as Hc by lia.
  destruct Hc as [->|[->|[->|[->|[->| ->]]]]]; rewrite ?E1, ?E2, ?E3, ?E4, ?E5, ?E6; done.
Qed.

Lemma not_on_other_days `{Calendar} id fired d n : weekday d <> 0 -> tick [(id, monday_night)] fired (d, n) = (fired, [], []).
Proof.
  intros Hd. rewrite tick_eq. cbn [map mjoin list_join]. unfold parts_of. rewrite !due_queue_eq.
  assert (on_day monday_night d = false) as ->; [|done]. unfold on_day, monday_night. cbn. pose proof (weekday_range d).
  apply (Z.bits_above_log2 1); simpl; lia.
Qed.

(** A window that begins on a chosen day and ends on the next one, not chosen,
    is never closed and never made up for: a queue scheduled for Monday nights
    is started at 23:00 and runs on through the week, past 07:00 of Tuesday; and
    if the host slept through Monday's end, it is not started after midnight. *)
Theorem one_night_left_open `{Calendar} (queue_id : text) (monday n : Z) (later : list (Z * Z)) :
  weekday monday = 0 -> 23 * 60 <= n -> (forall t, t ∈ later -> monday < t.1 < monday + 7) ->
  (ticks [(queue_id, monday_night)] ((monday, n) :: later)).2 = [(queue_id, true)]
  /\ (ticks [(queue_id, monday_night)] later).2 = [].
Proof.
  intros Hm Hn Hl. assert (Hrest : forall st, foldl (fun st now => let '(fired, passed, actions) := st in
      let '(fired, p, a) := tick [(queue_id, monday_night)] fired now in (fired, passed ++ p, actions ++ a)) st later = st).
  { induction later as [|[d m] later IH]; intros [[f p] a]; [done|]. cbn [foldl].
    rewrite not_on_other_days by (apply (not_monday monday); [done|apply (Hl (d, m)); by left]). rewrite !app_nil_r.
    apply IH. intros t Ht. apply Hl. by right. }
  unfold ticks. split; [|by rewrite Hrest]. cbn [foldl]. rewrite tick_eq. cbn [map mjoin list_join]. unfold parts_of. rewrite !due_queue_eq.
  assert (on_day monday_night monday = true) as ->. { unfold on_day, monday_night. cbn. by rewrite Hm. }
  assert (Hs : due_minute queue_id monday_night ∅ monday n true = Some (23 * 60)).
  { apply due_minute_spec. rewrite lookup_empty. split; [|done]. by apply reached_spec. }
  assert (Hp : due_minute queue_id monday_night ∅ monday n false = Some (7 * 60)).
  { apply due_minute_spec. rewrite lookup_empty. split; [|done]. apply reached_spec. split; [done|lia]. }
  rewrite Hs, Hp. cbn [negb fst snd app]. by rewrite Hrest.
Qed.

(** ** Schedules at work *)

(** Day 0 is a Monday. *)
Definition calendar : Calendar.
Proof.
  refine {| weekday d := d mod 7; pred_opt d := Some (d - 1) |}.
  - intros d. apply Z.mod_pos_bound. lia.
  - done.
  - intros d. rewrite Zplus_mod_idemp_l. replace (d + 6) with (d - 1 + 1 * 7) by lia. by rewrite Z.mod_add.
Defined.

#[local] Existing Instance calendar.

Definition every_night : QueuePlan := mk_plan true true (lit "23:00") (lit "07:00") 127.
Definition office_hours : QueuePlan := mk_plan false true (lit "9:00") (lit "17:30") 31.
Definition two_queues : list (text * QueuePlan) := [(lit "night", every_night); (lit "day", office_hours)].

Example times : map parse_hhmm [lit "00:00"; lit "8:05"; lit "23:59"; lit "24:00"; lit "12:60"; lit ""; lit "12-30"; lit "+1:+2"]
  = [Some 0; Some 485; Some 1439; None; None; None; None; Some 62].
Proof. vm_compute. reflexivity. Qed.

(** Woken at one in the morning: the night's start is made up for, once, and the
    evening's start is not lost; the day queue runs its hours. *)
Example a_day :
  let '(_, passed, actions) := ticks two_queues [(1, 60); (1, 90); (1, 540); (1, 541); (1, 1100); (1, 1380)] in
  passed = [((lit "night", true), 0); ((lit "night", false), 1); ((lit "day", true), 1); ((lit "day", false), 1); ((lit "night", true), 1)]
  /\ actions = [(lit "night", true); (lit "night", false); (lit "day", true); (lit "day", false); (lit "night", true)].
Proof. vm_compute. split; reflexivity. Qed.

Lemma schedules_followed_witness :
  last_action (lit "night") (ticks two_queues ([(1, 60); (1, 540)] ++ [(1, 1380)])).2 = Some true.
Proof.
  assert (NoDup two_queues.*1) as Hn by (apply (bool_decide_unpack _); vm_compute; exact I).
  assert (Sorted not_after ([(1, 60); (1, 540)] ++ [(1, 1380)])) as Hs by (cbn [app]; repeat (apply Sorted_nil || apply Sorted_cons || apply HdRel_nil || apply HdRel_cons); right; simpl; lia).
  pose proof (schedules_followed two_queues [(1, 60); (1, 540)] (1, 1380) Hn Hs) as H.
  destruct (ticks two_queues ([(1, 60); (1, 540)] ++ [(1, 1380)])) as [[f p] a]. destruct H as (_ & _ & _ & H).
  apply (H _ every_night true); [left|vm_compute; reflexivity].
Defined.

Lemma one_night_left_open_witness :
  (ticks [(lit "q", monday_night)] [(7, 1380); (8, 420); (8, 900); (13, 1439)]).2 = [(lit "q", true)].
Proof.
  apply (one_night_left_open (lit "q") 7 1380 [(8, 420); (8, 900); (13, 1439)]); [reflexivity|lia|].
  intros t Ht. repeat (apply elem_of_cons in Ht as [->|Ht]; [simpl; lia|]). by apply not_elem_of_nil in Ht.
Defined.
