(* ===== verification/PendingQueue.v ===== *)
(** * PendingQueue: the tasks that wait for a slot ([PendingQueue],
      [PendingCounts], [QueuedTask] of [native/engine/src/download_manager.rs],
      lines 3122-3414).

    The queue keeps aggregate counts beside its items (how many items wait in
    each named queue, how many are BitTorrent downloads), updated by every
    operation, so that the scheduler never scans a queue of hundreds of
    thousands of tasks to answer a question about it.  The invariant [pq_ok]
    says that the counts are those of a full recount.

    Of [QueuedTask] the fields that only the downloader reads are left out
    (cookies, headers, body, user agent, audio track, selected files).  A count
    is a [nat]: a queue of [2^64] items does not fit in memory. *)
From Stdlib Require Import Ascii.
From S2P Require Import Prelude Text.

(** ** Protocols *)

(** [bt_config::is_magnet_url]: [url.get(..8)] is a valid slice whenever its
    bytes are those of ["magnet:?"]. *)
Definition is_magnet (url : text) : bool := eq_ignore_ascii_case (take 8 url) (lit "magnet:?").

Definition is_torrent_file_url (url : text) : bool := starts_with (lit "torrent-file://") url.

Definition is_bt_url (url : text) : bool := is_magnet url || is_torrent_file_url url.

(** ** Queued tasks *)

Record QueuedTask := mk_queued {
  q_task_id : text; q_url : text; q_save_dir : text; q_file_name : text;
  q_segments : Z; q_is_resume : bool; q_hint_file_size : Z;
  q_torrent_file_bytes : text; q_proxy_url : text; q_queue_id : text; q_checksum : text;
  q_resolver_plugin_id : text; q_resolved : bool; q_range_supported : bool; q_resolver_item : text }.

(** The columns of a task's database row that the scheduler reads;
    [r_request_method] is the method of a browser request taken over,
    [r_resolver] and [r_resolver_item] the plugin bound to the task. *)
Record TaskRow := mk_row {
  r_url : text; r_save_dir : text; r_file_name : text; r_proxy_url : text; r_queue_id : text;
  r_checksum : text; r_request_method : text; r_resolver : text; r_resolver_item : text }.

Definition for_resume (task_id : text) (task : TaskRow) : QueuedTask :=
  mk_queued task_id (r_url task) (r_save_dir task) (r_file_name task) 0 true 0 [] (r_proxy_url task)
    (r_queue_id task) (r_checksum task) [] false false [].

Definition set_queue (queue_id : text) (q : QueuedTask) : QueuedTask :=
  mk_queued (q_task_id q) (q_url q) (q_save_dir q) (q_file_name q) (q_segments q) (q_is_resume q)
    (q_hint_file_size q) (q_torrent_file_bytes q) (q_proxy_url q) queue_id (q_checksum q)
    (q_resolver_plugin_id q) (q_resolved q) (q_range_supported q) (q_resolver_item q).

Definition url_bt (q : QueuedTask) : bool := is_bt_url (q_url q).
Definition bt_item (q : QueuedTask) : bool := url_bt q || negb (bool_decide (q_torrent_file_bytes q = [])).

(** ** Counts *)

(** [pc_per_queue] has no entry for a queue without items. *)
Record PendingCounts := mk_counts {
  pc_per_queue : gmap text nat; pc_bt_items : nat; pc_bt_url_items : nat }.

Definition no_counts : PendingCounts := mk_counts ∅ 0 0.

Definition counts_add (q : QueuedTask) (c : PendingCounts) : PendingCounts :=
  mk_counts
    (match pc_per_queue c !! q_queue_id q with
     | Some count => <[q_queue_id q := S count]> (pc_per_queue c)
     | None => <[q_queue_id q := 1%nat]> (pc_per_queue c)
     end)
    (pc_bt_items c + Nat.b2n (bt_item q)) (pc_bt_url_items c + Nat.b2n (url_bt q)).

(** The debug assertion of the missing entry is not modelled; the subtractions
    saturate. *)
Definition counts_sub (q : QueuedTask) (c : PendingCounts) : PendingCounts :=
  mk_counts
    (match pc_per_queue c !! q_queue_id q with
     | Some count =>
         if (1 <? count)%nat then <[q_queue_id q := (count - 1)%nat]> (pc_per_queue c)
         else delete (q_queue_id q) (pc_per_queue c)
     | None => pc_per_queue c
     end)
    (pc_bt_items c - Nat.b2n (bt_item q)) (pc_bt_url_items c - Nat.b2n (url_bt q)).

(** ** The queue *)

Record PendingQueue := mk_pq { pq_items : list QueuedTask; pq_counts : PendingCounts }.

Definition empty_queue : PendingQueue := mk_pq [] no_counts.

Definition pq_len (p : PendingQueue) : nat := length (pq_items p).
Definition pq_is_empty (p : PendingQueue) : bool := bool_decide (pq_items p = []).
Definition pq_get (p : PendingQueue) (index : nat) : option QueuedTask := pq_items p !! index.

Definition push_back (q : QueuedTask) (p : PendingQueue) : PendingQueue :=
  mk_pq (pq_items p ++ [q]) (counts_add q (pq_counts p)).

Definition push_front (q : QueuedTask) (p : PendingQueue) : PendingQueue :=
  mk_pq (q :: pq_items p) (counts_add q (pq_counts p)).

Definition pq_remove (index : nat) (p : PendingQueue) : option QueuedTask * PendingQueue :=
  match pq_items p !! index with
  | Some q => (Some q, mk_pq (delete index (pq_items p)) (counts_sub q (pq_counts p)))
  | None => (None, p)
  end.

Fixpoint retain_items (keep : QueuedTask -> bool) (items : list QueuedTask) (c : PendingCounts)
  : list QueuedTask * PendingCounts :=
  match items with
  | [] => ([], c)
  | q :: items =>
      if keep q then let '(kept, c) := retain_items keep items c in (q :: kept, c)
      else retain_items keep items (counts_sub q c)
  end.

Definition pq_retain (keep : QueuedTask -> bool) (p : PendingQueue) : PendingQueue :=
  let '(kept, c) := retain_items keep (pq_items p) (pq_counts p) in mk_pq kept c.

Definition pq_clear (p : PendingQueue) : PendingQueue := empty_queue.

Definition queue_ids (p : PendingQueue) : list text := map fst (map_to_list (pc_per_queue (pq_counts p))).
Definition has_bt (p : PendingQueue) : bool := (0 <? pc_bt_items (pq_counts p))%nat.
Definition has_bt_url (p : PendingQueue) : bool := (0 <? pc_bt_url_items (pq_counts p))%nat.
Definition queued_in (p : PendingQueue) (queue_id : text) : nat :=
  default 0%nat (pc_per_queue (pq_counts p) !! queue_id).

Fixpoint drain_bt_loop (items taken rest : list QueuedTask) (c : PendingCounts)
  : list QueuedTask * list QueuedTask * PendingCounts :=
  match items with
  | [] => (taken, rest, c)
  | q :: items =>
      if bt_item q then drain_bt_loop items (taken ++ [q]) rest (counts_sub q c)
      else drain_bt_loop items taken (rest ++ [q]) c
  end.

Definition drain_bt (p : PendingQueue) : list QueuedTask * PendingQueue :=
  let '(taken, rest, c) := drain_bt_loop (pq_items p) [] [] (pq_counts p) in (taken, mk_pq rest c).

(** [self.items.iter().position(|q| q.task_id == task_id)]. *)
Definition position (task_id : text) (p : PendingQueue) : option nat :=
  fst <$> list_find (fun q => q_task_id q = task_id) (pq_items p).

Definition is_queued (task_id : text) (p : PendingQueue) : bool := bool_decide (is_Some (position task_id p)).

Definition set_task_queue (task_id queue_id : text) (p : PendingQueue) : bool * PendingQueue :=
  match position task_id p with
  | Some index =>
      match pq_items p !! index with
      | Some entry =>
          if decide (q_queue_id entry = queue_id) then (true, p)
          else (true, mk_pq (<[index := set_queue queue_id entry]> (pq_items p))
                        (counts_add (set_queue queue_id entry) (counts_sub entry (pq_counts p))))
      | None => (false, p)
      end
  | None => (false, p)
  end.

Fixpoint reassign_items (from to : text) (items : list QueuedTask) (c : PendingCounts)
  : list QueuedTask * PendingCounts :=
  match items with
  | [] => ([], c)
  | q :: items =>
      if decide (q_queue_id q = from)
      then let '(items, c) := reassign_items from to items (counts_add (set_queue to q) (counts_sub q c)) in
           (set_queue to q :: items, c)
      else let '(items, c) := reassign_items from to items c in (q :: items, c)
  end.

Definition reassign_queue (from to : text) (p : PendingQueue) : PendingQueue :=
  if bool_decide (from = to) || (queued_in p from =? 0)%nat then p
  else let '(items, c) := reassign_items from to (pq_items p) (pq_counts p) in mk_pq items c.

(** [counts_match_recount] of the tests: the counts of the items. *)
Definition recount (items : list QueuedTask) : PendingCounts := foldr counts_add no_counts items.

Definition pq_ok (p : PendingQueue) : Prop := pq_counts p = recount (pq_items p).

(** ** Counts of a list *)

(** No queue is listed with zero items. *)
Definition no_zero (c : PendingCounts) : Prop := forall k, pc_per_queue c !! k <> Some 0%nat.

Lemma add_per_queue q c :
  pc_per_queue (counts_add q c) = partial_alter (fun o => Some (S (default 0%nat o))) (q_queue_id q) (pc_per_queue c).
Proof.
  apply map_eq. intros k. unfold counts_add; cbn. destruct (decide (q_queue_id q = k)) as [<-|].
  - rewrite lookup_partial_alter_eq. case_match; by rewrite lookup_insert_eq.
  - rewrite lookup_partial_alter_ne by done. case_match; by rewrite lookup_insert_ne.
Qed.

Lemma counts_eq c1 c2 :
  pc_per_queue c1 = pc_per_queue c2 -> pc_bt_items c1 = pc_bt_items c2 ->
  pc_bt_url_items c1 = pc_bt_url_items c2 -> c1 = c2.
Proof. destruct c1, c2; cbn. congruence. Qed.

Lemma counts_add_comm a b c : counts_add a (counts_add b c) = counts_add b (counts_add a c).
Proof.
  apply counts_eq; [|cbn; lia..]. rewrite !add_per_queue.
  destruct (decide (q_queue_id a = q_queue_id b)) as [->|]; [done|]. by apply partial_alter_partial_alter_ne.
Qed.

Lemma counts_sub_add q c : no_zero c -> counts_sub q (counts_add q c) = c.
Proof.
  intros Hz. destruct c as [m n k]. unfold counts_sub, counts_add; cbn in *. f_equal; [|lia|lia].
  destruct (m !! q_queue_id q) as [count|] eqn:E; rewrite lookup_insert_eq.
  - destruct count as [|count]; [by destruct (Hz (q_queue_id q) E)|]. cbn.
    rewrite insert_insert_eq. by apply insert_id.
  - by rewrite delete_insert_id.
Qed.

Lemma no_zero_add q c : no_zero c -> no_zero (counts_add q c).
Proof.
  intros Hz k. rewrite add_per_queue, lookup_partial_alter. by case_decide.
Qed.

Lemma recount_no_zero items : no_zero (recount items).
Proof. induction items; [intros k; cbn; by rewrite lookup_empty|by apply no_zero_add]. Qed.

Lemma recount_perm l1 l2 : l1 ≡ₚ l2 -> recount l1 = recount l2.
Proof. induction 1 as [|q ? ? _ IH| |]; [done|by apply (f_equal (counts_add q))|apply counts_add_comm|congruence]. Qed.

Lemma counts_sub_recount q items : counts_sub q (recount (q :: items)) = recount items.
Proof. apply counts_sub_add, recount_no_zero. Qed.

Lemma counts_sub_perm q items l : l ≡ₚ q :: items -> counts_sub q (recount l) = recount items.
Proof. intros Hp. rewrite (recount_perm _ _ Hp). apply counts_sub_recount. Qed.

(** The items of a queue, as a number. *)
Definition in_queue (queue_id : text) (items : list QueuedTask) : nat :=
  length (filter (fun q => q_queue_id q = queue_id) items).

Lemma in_queue_cons k q items :
  in_queue k (q :: items) = ((if decide (q_queue_id q = k) then 1 else 0) + in_queue k items)%nat.
Proof. unfold in_queue. rewrite filter_cons. by case_decide. Qed.

Lemma recount_cons q items : recount (q :: items) = counts_add q (recount items).
Proof. done. Qed.

Lemma recount_per_queue items k :
  pc_per_queue (recount items) !! k = (if (in_queue k items =? 0)%nat then None else Some (in_queue k items)).
Proof.
  induction items as [|q items IH]; [by apply lookup_empty|].
  rewrite recount_cons, add_per_queue, lookup_partial_alter, in_queue_cons.
  destruct (decide (q_queue_id q = k)) as [->|]; [|done]. rewrite IH. by destruct (in_queue k items).
Qed.

(** A flag counted over a list. *)
Lemma length_filter_cons {A} (f : A -> bool) x l :
  length (filter (fun y => f y) (x :: l)) = (Nat.b2n (f x) + length (filter (fun y => f y) l))%nat.
Proof. rewrite filter_cons. by destruct (f x). Qed.

Lemma recount_bt items : pc_bt_items (recount items) = length (filter (fun q => bt_item q) items).
Proof. induction items as [|q items IH]; [done|]. rewrite length_filter_cons, <-IH, recount_cons. cbn [pc_bt_items counts_add]. lia. Qed.

Lemma recount_bt_url items : pc_bt_url_items (recount items) = length (filter (fun q => url_bt q) items).
Proof. induction items as [|q items IH]; [done|]. rewrite length_filter_cons, <-IH, recount_cons. cbn [pc_bt_url_items counts_add]. lia. Qed.

(** ** The operations on the items *)

Lemma push_back_ok q p : pq_ok p -> pq_ok (push_back q p).
Proof. unfold pq_ok, push_back; cbn [pq_items pq_counts]. intros ->. apply (recount_perm (q :: pq_items p)), Permutation_cons_append. Qed.

Lemma push_front_ok q p : pq_ok p -> pq_ok (push_front q p).
Proof. unfold pq_ok, push_front; cbn [pq_items pq_counts]. by intros ->. Qed.

Lemma pq_remove_ok i p : pq_ok p -> pq_ok (snd (pq_remove i p)).
Proof.
  unfold pq_ok, pq_remove. intros Hp. destruct (pq_items p !! i) as [q|] eqn:E; cbn; [|done].
  rewrite Hp. apply counts_sub_perm. by apply delete_Permutation.
Qed.

Lemma retain_items_spec keep items c :
  c = recount items ->
  retain_items keep items c = (filter (fun q => keep q) items, recount (filter (fun q => keep q) items)).
Proof.
  intros ->. enough (forall pre, retain_items keep items (recount (pre ++ items)) =
    (filter (fun q => keep q) items, recount (pre ++ filter (fun q => keep q) items))) as H by apply (H []).
  induction items as [|q items IH]; intros pre; cbn [retain_items]; [done|]. rewrite filter_cons.
  destruct (keep q) eqn:E; cbn [Is_true decide].
  - rewrite (recount_perm (pre ++ q :: items) ((pre ++ [q]) ++ items)) by (by rewrite <-app_assoc).
    rewrite IH, <-app_assoc. done.
  - rewrite (counts_sub_perm q (pre ++ items)) by (by rewrite <-Permutation_middle). apply IH.
Qed.

Lemma pq_retain_spec keep p : pq_ok p -> pq_items (pq_retain keep p) = filter (fun q => keep q) (pq_items p) /\ pq_ok (pq_retain keep p).
Proof. intros Hp. unfold pq_retain, pq_ok. by rewrite retain_items_spec. Qed.

Lemma drain_bt_spec p :
  pq_ok p ->
  fst (drain_bt p) = filter (fun q => bt_item q) (pq_items p) /\
  pq_items (snd (drain_bt p)) = filter (fun q => negb (bt_item q)) (pq_items p) /\ pq_ok (snd (drain_bt p)).
Proof.
  intros Hp. unfold drain_bt, pq_ok in *. rewrite Hp. generalize (pq_items p). clear p Hp. intros items.
  enough (forall taken rest, drain_bt_loop items taken rest (recount (rest ++ items)) =
    (taken ++ filter (fun q => bt_item q) items, rest ++ filter (fun q => negb (bt_item q)) items,
     recount (rest ++ filter (fun q => negb (bt_item q)) items))) as H
    by (specialize (H [] []); cbn [app] in H; by rewrite H).
  induction items as [|q items IH]; intros taken rest; cbn [drain_bt_loop]; [by rewrite !app_nil_r|].
  rewrite !filter_cons. destruct (bt_item q) eqn:E; cbn [negb].
  - rewrite (counts_sub_perm q (rest ++ items)) by (by rewrite <-Permutation_middle).
    rewrite IH, <-app_assoc. done.
  - rewrite (recount_perm (rest ++ q :: items) ((rest ++ [q]) ++ items)) by (by rewrite <-app_assoc).
    rewrite IH, <-!app_assoc. done.
Qed.

Lemma position_lookup id p i : position id p = Some i -> exists q, pq_items p !! i = Some q /\ q_task_id q = id.
Proof.
  unfold position. rewrite fmap_Some. intros ([i' q] & H & ->). apply list_find_Some in H as (? & ? & ?). by exists q.
Qed.

Lemma position_None id p : position id p = None <-> id ∉ map q_task_id (pq_items p).
Proof.
  unfold position. rewrite fmap_None, list_find_None, Forall_forall.
  split; [intros H (q & -> & Hq)%list_elem_of_fmap; by apply (H q)|].
  intros H q Hq Heq. apply H, list_elem_of_fmap. by exists q.
Qed.

Lemma is_queued_spec id p : is_queued id p = true <-> id ∈ map q_task_id (pq_items p).
Proof.
  unfold is_queued. rewrite bool_decide_eq_true. destruct (position id p) as [i|] eqn:E.
  - split; [intros _|done]. apply position_lookup in E as (q & Hq & <-). apply list_elem_of_fmap.
    exists q. split; [done|]. by apply list_elem_of_lookup_2 in Hq.
  - apply position_None in E. split; [by intros []|done].
Qed.

(** Moving an item to another queue is removing it and adding the moved one. *)
Lemma recount_replace items i q q' :
  items !! i = Some q -> counts_add q' (counts_sub q (recount items)) = recount (<[i := q']> items).
Proof.
  intros Hi. rewrite (counts_sub_perm q (delete i items)) by (by apply delete_Permutation).
  rewrite <-recount_cons, delete_take_drop, insert_take_drop by (by apply lookup_lt_Some in Hi).
  apply recount_perm, Permutation_middle.
Qed.

Lemma set_task_queue_ids id queue_id p : map q_task_id (pq_items (snd (set_task_queue id queue_id p))) = map q_task_id (pq_items p).
Proof.
  unfold set_task_queue. destruct (position id p) as [i|] eqn:E; [|done].
  apply position_lookup in E as (q & Hi & Hid). rewrite Hi. case_decide; [done|]. cbn [snd pq_items].
  apply list_eq. intros j. rewrite !list_lookup_fmap. destruct (decide (i = j)) as [<-|].
  - by rewrite list_lookup_insert_eq, Hi by (by apply lookup_lt_Some in Hi).
  - by rewrite list_lookup_insert_ne.
Qed.

Lemma set_task_queue_spec id queue_id p :
  pq_ok p ->
  pq_ok (snd (set_task_queue id queue_id p)) /\
  fst (set_task_queue id queue_id p) = is_queued id p /\
  map q_task_id (pq_items (snd (set_task_queue id queue_id p))) = map q_task_id (pq_items p).
Proof.
  intros Hp. split; [|split; [|apply set_task_queue_ids]]; unfold set_task_queue, is_queued; destruct (position id p) as [i|] eqn:E; try done;
    apply position_lookup in E as (q & Hi & Hid); rewrite Hi; case_decide; try done.
  unfold pq_ok in *; cbn [snd pq_items pq_counts]. rewrite Hp. by apply recount_replace.
Qed.

Definition moved (from to : text) (q : QueuedTask) : QueuedTask :=
  if decide (q_queue_id q = from) then set_queue to q else q.

Lemma moved_id from to q : q_task_id (moved from to q) = q_task_id q.
Proof. unfold moved. by case_decide. Qed.

Lemma reassign_items_spec from to items pre :
  reassign_items from to items (recount (pre ++ items)) =
  (map (moved from to) items, recount (pre ++ map (moved from to) items)).
Proof.
  revert pre. induction items as [|q items IH]; intros pre; cbn [reassign_items map]; [done|].
  assert (forall q', recount (pre ++ q' :: items) = recount ((pre ++ [q']) ++ items)) as Hq by (intros; by rewrite <-app_assoc).
  unfold moved at 1 3. case_decide.
  - rewrite (recount_replace (pre ++ q :: items) (length pre) q), insert_app_r_alt by (try lia; by apply list_lookup_middle).
    rewrite Nat.sub_diag. cbn [insert list_insert]. rewrite Hq, IH, <-app_assoc. done.
  - rewrite Hq, IH, <-app_assoc. done.
Qed.

Lemma moved_none from to items : in_queue from items = 0%nat -> map (moved from to) items = items.
Proof.
  induction items as [|q items IH]; [done|]. rewrite in_queue_cons. cbn [map]. unfold moved at 1.
  case_decide; [lia|]. intros H0. by rewrite IH.
Qed.

Lemma queued_in_spec p queue_id : pq_ok p -> queued_in p queue_id = in_queue queue_id (pq_items p).
Proof.
  intros Hp. unfold queued_in. rewrite Hp, recount_per_queue.
  destruct (_ =? _)%nat eqn:E; [|done]. by apply Nat.eqb_eq in E.
Qed.

Lemma reassign_queue_spec from to p :
  pq_ok p -> pq_ok (reassign_queue from to p) /\ pq_items (reassign_queue from to p) = map (moved from to) (pq_items p).
Proof.
  intros Hp. unfold reassign_queue. destruct (_ || _) eqn:E.
  - split; [done|]. apply orb_prop in E as [E|E]; bool_hyps.
    + subst to. symmetry. rewrite <-(map_id (pq_items p)) at 2. apply map_ext. intros q. unfold moved, set_queue.
      case_decide as Hq; [|done]. destruct q; cbn in *. by subst.
    + apply Nat.eqb_eq in E. rewrite queued_in_spec in E by done. by rewrite moved_none.
  - pose proof (reassign_items_spec from to (pq_items p) []) as H. cbn [app] in H. unfold pq_ok in *.
    by rewrite Hp, H.
Qed.

Lemma queue_ids_spec p queue_id :
  pq_ok p -> queue_id ∈ queue_ids p <-> exists q, q ∈ pq_items p /\ q_queue_id q = queue_id.
Proof.
  intros Hp. unfold queue_ids. rewrite list_elem_of_fmap. transitivity (in_queue queue_id (pq_items p) <> 0%nat).
  - pose proof (recount_per_queue (pq_items p) queue_id) as H. rewrite <-Hp in H. split.
    + intros ([k n] & -> & Hk%elem_of_map_to_list). cbn in *. rewrite Hk in H. by destruct (_ =? _)%nat eqn:E; [|apply Nat.eqb_neq in E].
    + intros Hn. apply Nat.eqb_neq in Hn. rewrite Hn in H. eexists (_, _). split; [done|]. by apply elem_of_map_to_list.
  - unfold in_queue. split.
    + intros Hn. destruct (filter _ (pq_items p)) as [|q l] eqn:E; [done|]. exists q.
      assert (q ∈ filter (fun q => q_queue_id q = queue_id) (pq_items p)) as Hq by (rewrite E; constructor).
      apply list_elem_of_filter in Hq as [? ?]. done.
    + intros (q & Hq & Hk) H0%nil_length_inv. by apply (filter_nil_not_elem_of (fun q => q_queue_id q = queue_id) (pq_items p) q) in H0.
Qed.

Lemma has_bt_spec p : pq_ok p -> has_bt p = existsb bt_item (pq_items p).
Proof.
  intros Hp. unfold has_bt. rewrite Hp, recount_bt. induction (pq_items p) as [|q l IH]; [done|].
  rewrite length_filter_cons. cbn [existsb]. by destruct (bt_item q).
Qed.

Lemma has_bt_url_spec p : pq_ok p -> has_bt_url p = existsb url_bt (pq_items p).
Proof.
  intros Hp. unfold has_bt_url. rewrite Hp, recount_bt_url. induction (pq_items p) as [|q l IH]; [done|].
  rewrite length_filter_cons. cbn [existsb]. by destruct (url_bt q).
Qed.

(** The operations of the queue and what each does to the items. *)
Inductive PqOp :=
| OpPushBack (q : QueuedTask)
| OpPushFront (q : QueuedTask)
| OpRemove (index : nat)
| OpRetain (keep : QueuedTask -> bool)
| OpClear
| OpDrainBt
| OpSetTaskQueue (task_id queue_id : text)
| OpReassign (from to : text).

Definition pq_apply (op : PqOp) (p : PendingQueue) : PendingQueue :=
  match op with
  | OpPushBack q => push_back q p
  | OpPushFront q => push_front q p
  | OpRemove index => snd (pq_remove index p)
  | OpRetain keep => pq_retain keep p
  | OpClear => pq_clear p
  | OpDrainBt => snd (drain_bt p)
  | OpSetTaskQueue task_id queue_id => snd (set_task_queue task_id queue_id p)
  | OpReassign from to => reassign_queue from to p
  end.

Lemma pq_apply_ok op p : pq_ok p -> pq_ok (pq_apply op p).
Proof.
  intros Hp. destruct op; cbn [pq_apply].
  - by apply push_back_ok.
  - by apply push_front_ok.
  - by apply pq_remove_ok.
  - by apply pq_retain_spec.
  - done.
  - by apply drain_bt_spec.
  - by apply set_task_queue_spec.
  - by apply reassign_queue_spec.
Qed.

(** ** Property *)

(** However the queue came about from an empty one, its counts are those of
    a full recount, and every question the scheduler asks is answered as by a
    scan of the items: which queues have waiting tasks, how many wait in one,
    whether a BitTorrent item (or link) waits; taking the BitTorrent items out
    splits the queue and keeps both orders. *)
Theorem counts_exact (ops : list PqOp) :
  let p := foldl (fun p op => pq_apply op p) empty_queue ops in
  pq_counts p = recount (pq_items p) /\
  (forall queue_id, queue_id ∈ queue_ids p <-> exists q, q ∈ pq_items p /\ q_queue_id q = queue_id) /\
  (forall queue_id, queued_in p queue_id = in_queue queue_id (pq_items p)) /\
  has_bt p = existsb bt_item (pq_items p) /\
  has_bt_url p = existsb url_bt (pq_items p) /\
  fst (drain_bt p) = filter (fun q => bt_item q) (pq_items p) /\
  pq_items (snd (drain_bt p)) = filter (fun q => negb (bt_item q)) (pq_items p).
Proof.
  intros p. assert (pq_ok p) as Hp.
  { subst p. assert (pq_ok empty_queue) as H by done. revert H. generalize empty_queue.
    induction ops as [|op ops IH]; intros p Hp; [done|]. by apply IH, pq_apply_ok. }
  pose proof (drain_bt_spec p Hp) as (H1 & H2 & _). split_and!; [done| | | | |done|done].
  - intros. by apply queue_ids_spec.
  - intros. by apply queued_in_spec.
  - by apply has_bt_spec.
  - by apply has_bt_url_spec.
Qed.
