(* ===== verification/Slots.v ===== *)
(** * Slots: which tasks hold a concurrency slot, which wait, and the limits
      ([active_tasks], [awaiting_decision], [pending_queue], [pending_resolve]
      of [DownloadManager], [has_capacity], [has_queue_capacity]).

    The second half is the scheduler's abstract specification: [move] is the
    smallest change the manager makes to the slots, [slots_ok] what holds
    between moves, and [count_bound] what a sequence of moves never does.  The
    file [Manager] models the handlers, [SchedInv] shows that each of them is a
    sequence of moves. *)
From Stdlib Require Import Ascii.
From S2P Require Import Prelude Text PendingQueue.

(** ** State *)

(** [handle] of the source is the join handle of the spawned downloader;
    [e_handle] says whether there is one.  The token is not modelled, cancelling
    it is an effect of [Manager]. *)
Record ActiveTaskEntry := mk_active {
  e_generation : Z; e_handle : bool; e_is_bt : bool; e_queue_id : text }.

(** A task whose link a resolver plugin is working on. *)
Inductive PendingResolve :=
| ResolveStart (queued : QueuedTask) (generation : Z)
| ResolveResume (generation : Z).

Definition resolve_generation (p : PendingResolve) : Z :=
  match p with ResolveStart _ generation => generation | ResolveResume generation => generation end.

Record Slots := mk_slots {
  active_tasks : gmap text ActiveTaskEntry;
  awaiting_decision : gmap text Z;
  pending_queue : PendingQueue;
  pending_resolve : gmap text PendingResolve;
  generation : Z }.

(** A named queue, as far as scheduling reads it; [max_concurrent <= 0] means no
    limit. *)
Record QueueInfo := mk_qinfo { qi_max_concurrent : Z }.

(** The global limit is a [usize], 0 means no limit. *)
Record Limits := mk_limits { max_concurrent : Z; queues : gmap text QueueInfo }.

Definition set_active (v : gmap text ActiveTaskEntry) (s : Slots) : Slots :=
  mk_slots v (awaiting_decision s) (pending_queue s) (pending_resolve s) (generation s).
Definition set_awaiting (v : gmap text Z) (s : Slots) : Slots :=
  mk_slots (active_tasks s) v (pending_queue s) (pending_resolve s) (generation s).
Definition set_pending (v : PendingQueue) (s : Slots) : Slots :=
  mk_slots (active_tasks s) (awaiting_decision s) v (pending_resolve s) (generation s).
Definition set_resolves (v : gmap text PendingResolve) (s : Slots) : Slots :=
  mk_slots (active_tasks s) (awaiting_decision s) (pending_queue s) v (generation s).
Definition set_generation (v : Z) (s : Slots) : Slots :=
  mk_slots (active_tasks s) (awaiting_decision s) (pending_queue s) (pending_resolve s) v.

(** ** Capacity *)

Definition is_awaiting_decision (s : Slots) (task_id : text) (gen : Z) : bool :=
  bool_decide (awaiting_decision s !! task_id = Some gen).

(** An active task that uses a slot: not BitTorrent, not waiting for the user's
    answer about an existing file. *)
Definition occupies (s : Slots) (p : text * ActiveTaskEntry) : bool :=
  negb (e_is_bt (snd p)) && negb (is_awaiting_decision s (fst p) (e_generation (snd p))).

Definition http_ftp_active (s : Slots) : Z :=
  Z.of_nat (size (filter (fun p => occupies s p) (active_tasks s))).

Definition active_in_queue (s : Slots) (queue_id : text) : Z :=
  Z.of_nat (size (filter (fun p => negb (e_is_bt (snd p)) && bool_decide (e_queue_id (snd p) = queue_id) &&
    negb (is_awaiting_decision s (fst p) (e_generation (snd p)))) (active_tasks s))).

Definition has_capacity (l : Limits) (s : Slots) : bool :=
  if max_concurrent l =? 0 then true else http_ftp_active s <? max_concurrent l.

(** [queue_max as usize] of a positive [i32] is exact. *)
Definition queue_max (l : Limits) (queue_id : text) : Z :=
  default 0 (qi_max_concurrent <$> queues l !! queue_id).

Definition has_queue_capacity (l : Limits) (s : Slots) (queue_id : text) : bool :=
  if decide (queue_id = []) then true
  else if queue_max l queue_id <=? 0 then true
  else active_in_queue s queue_id <? queue_max l queue_id.

(** The two checks every caller of the scheduler makes together. *)
Definition slot_free (l : Limits) (s : Slots) (queue_id : text) : bool :=
  has_capacity l s && has_queue_capacity l s queue_id.

Definition queued_ids (s : Slots) : list text := map q_task_id (pq_items (pending_queue s)).

(** ** What holds between moves

    A queued task is queued once and not active; generations are never reused;
    a task that is being resolved holds the placeholder of its resolution. *)
Record slots_ok (s : Slots) : Prop := mk_slots_ok {
  ok_counts : pq_ok (pending_queue s);
  ok_unique : NoDup (queued_ids s);
  ok_disjoint : forall id, id ∈ queued_ids s -> active_tasks s !! id = None;
  ok_active_gen : forall id e, active_tasks s !! id = Some e -> e_generation e <= generation s;
  ok_active_inj : forall i j e f, active_tasks s !! i = Some e -> active_tasks s !! j = Some f ->
    e_generation e = e_generation f -> i = j;
  ok_awaiting_gen : forall id g, awaiting_decision s !! id = Some g -> g <= generation s;
  ok_resolve : forall id p, pending_resolve s !! id = Some p ->
    exists e, active_tasks s !! id = Some e /\ e_generation e = resolve_generation p /\ e_handle e = false;
  ok_payload : forall id q g, pending_resolve s !! id = Some (ResolveStart q g) -> q_task_id q = id }.

(** ** Moves *)

(** No active task has the current generation: it was just drawn. *)
Definition fresh_generation (s : Slots) : Prop :=
  forall id e, active_tasks s !! id = Some e -> e_generation e < generation s.

(** [move true] also starts tasks whose slot was not checked. *)
Inductive move (bypass : bool) (l : Limits) (s : Slots) : Slots -> Prop :=
| move_start id e :
    id ∉ queued_ids s -> pending_resolve s !! id = None -> fresh_generation s ->
    e_generation e = generation s -> e_handle e = false ->
    bypass = true \/ e_is_bt e = true \/ slot_free l s (e_queue_id e) = true ->
    move bypass l s (set_active (<[id := e]> (active_tasks s)) s)
| move_generation : move bypass l s (set_generation (generation s + 1) s)
| move_spawned id e :
    active_tasks s !! id = Some e -> pending_resolve s !! id = None ->
    move bypass l s (set_active (<[id := mk_active (e_generation e) true (e_is_bt e) (e_queue_id e)]> (active_tasks s)) s)
| move_stop id :
    pending_resolve s !! id = None -> move bypass l s (set_active (delete id (active_tasks s)) s)
| move_await id e :
    active_tasks s !! id = Some e ->
    move bypass l s (set_awaiting (<[id := e_generation e]> (awaiting_decision s)) s)
| move_answered id :
    pending_resolve s !! id = None ->
    move bypass l s (set_active (delete id (active_tasks s)) (set_awaiting (delete id (awaiting_decision s)) s))
| move_forget id :
    (forall e, active_tasks s !! id = Some e -> awaiting_decision s !! id <> Some (e_generation e)) ->
    move bypass l s (set_awaiting (delete id (awaiting_decision s)) s)
| move_resolving id e p :
    active_tasks s !! id = Some e -> e_generation e = resolve_generation p -> e_handle e = false ->
    (forall q g, p = ResolveStart q g -> q_task_id q = id) ->
    move bypass l s (set_resolves (<[id := p]> (pending_resolve s)) s)
| move_resolved id : move bypass l s (set_resolves (delete id (pending_resolve s)) s)
| move_queue_back q :
    q_task_id q ∉ queued_ids s -> active_tasks s !! q_task_id q = None ->
    move bypass l s (set_pending (push_back q (pending_queue s)) s)
| move_queue_front q :
    q_task_id q ∉ queued_ids s -> active_tasks s !! q_task_id q = None ->
    move bypass l s (set_pending (push_front q (pending_queue s)) s)
| move_unqueue p :
    pq_ok p -> pq_items p `sublist_of` pq_items (pending_queue s) -> move bypass l s (set_pending p s)
| move_requeue p :
    pq_ok p -> map q_task_id (pq_items p) = queued_ids s -> move bypass l s (set_pending p s).

Definition moves (bypass : bool) (l : Limits) : Slots -> Slots -> Prop := rtc (move bypass l).

(** ** Counting active tasks *)

Definition count (f : text * ActiveTaskEntry -> bool) (m : gmap text ActiveTaskEntry) : Z :=
  Z.of_nat (size (filter (fun p => f p) m)).

Definition weight (f : text * ActiveTaskEntry -> bool) (id : text) (o : option ActiveTaskEntry) : Z :=
  match o with Some e => Z.b2z (f (id, e)) | None => 0 end.

Lemma weight_bounds f id o : 0 <= weight f id o <= 1.
Proof. destruct o; cbn; [destruct (f _); cbn; lia|lia]. Qed.

Lemma count_insert f m id e : count f (<[id := e]> m) = count f (delete id m) + Z.b2z (f (id, e)).
Proof.
  unfold count. rewrite <-(insert_delete_eq m), map_filter_insert. case_decide as Hf.
  - rewrite map_size_insert_None by (apply map_lookup_filter_None; left; by rewrite lookup_delete_eq).
    destruct (f (id, e)); [cbn; lia|done].
  - rewrite delete_delete_eq. destruct (f (id, e)); [by destruct Hf|cbn; lia].
Qed.

Lemma count_delete f m id : count f m = count f (delete id m) + weight f id (m !! id).
Proof.
  destruct (m !! id) as [e|] eqn:E; cbn [weight]; [|rewrite delete_id by done; lia].
  by rewrite <-count_insert, insert_id.
Qed.

Lemma count_ext f g m : (forall id e, m !! id = Some e -> f (id, e) = g (id, e)) -> count f m = count g m.
Proof. intros H. unfold count. f_equal. f_equal. apply map_filter_ext. intros id e He. cbn. by rewrite (H id e He). Qed.

Lemma count_ext_delete f g m id :
  (forall id' e, id' <> id -> f (id', e) = g (id', e)) -> count f (delete id m) = count g (delete id m).
Proof. intros H. apply count_ext. intros id' e He. apply H. intros ->. by rewrite lookup_delete_eq in He. Qed.

(** The two counts of the scheduler, as counts of one form. *)
Definition occupies_in (s : Slots) (queue_id : text) (p : text * ActiveTaskEntry) : bool :=
  occupies s p && bool_decide (e_queue_id (snd p) = queue_id).

Definition slot_test (s : Slots) (o : option text) : text * ActiveTaskEntry -> bool :=
  match o with None => occupies s | Some queue_id => occupies_in s queue_id end.

(** The slots in use: of the manager, or of a named queue. *)
Definition used (s : Slots) (o : option text) : Z := count (slot_test s o) (active_tasks s).

Lemma used_global s : http_ftp_active s = used s None.
Proof. done. Qed.

Lemma used_queue s queue_id : active_in_queue s queue_id = used s (Some queue_id).
Proof.
  unfold active_in_queue, used. cbn [slot_test]. fold (count (fun p => negb (e_is_bt (snd p)) &&
    bool_decide (e_queue_id (snd p) = queue_id) && negb (is_awaiting_decision s (fst p) (e_generation (snd p)))) (active_tasks s)).
  apply count_ext. intros id e _. unfold occupies_in, occupies; cbn. by destruct (e_is_bt e), (bool_decide _), (is_awaiting_decision s id _).
Qed.

(** The limit that applies to such a count, if any. *)
Definition limit_of (l : Limits) (o : option text) : option Z :=
  match o with
  | None => if max_concurrent l =? 0 then None else Some (max_concurrent l)
  | Some queue_id =>
      if decide (queue_id = []) then None
      else if queue_max l queue_id <=? 0 then None else Some (queue_max l queue_id)
  end.

(** No count is pushed over its limit. *)
Definition count_bound (l : Limits) (s s' : Slots) : Prop :=
  forall o limit, limit_of l o = Some limit -> used s' o <= Z.max limit (used s o).

Lemma has_capacity_spec l s : has_capacity l s = true <-> forall limit, limit_of l None = Some limit -> used s None < limit.
Proof.
  unfold has_capacity. cbn [limit_of]. case_match; [naive_solver|]. rewrite used_global, Z.ltb_lt. naive_solver.
Qed.

Lemma has_queue_capacity_spec l s queue_id :
  has_queue_capacity l s queue_id = true <->
  forall limit, limit_of l (Some queue_id) = Some limit -> used s (Some queue_id) < limit.
Proof.
  unfold has_queue_capacity. cbn [limit_of]. case_decide; [naive_solver|]. case_match; [naive_solver|].
  rewrite used_queue, Z.ltb_lt. naive_solver.
Qed.

Lemma slot_test_ne s o id e : slot_test s o (id, e) = true -> e_is_bt e = false /\ forall queue_id, o = Some queue_id -> e_queue_id e = queue_id.
Proof.
  destruct o as [queue_id|]; cbn; unfold occupies_in, occupies; cbn; intros H; bool_hyps; by split; [|intros ? [=]; congruence].
Qed.

Lemma count_bound_refl l s : count_bound l s s.
Proof. intros o limit _. lia. Qed.

Lemma count_bound_trans l s1 s2 s3 : count_bound l s1 s2 -> count_bound l s2 s3 -> count_bound l s1 s3.
Proof. intros H1 H2 o limit Ho. specialize (H1 o limit Ho). specialize (H2 o limit Ho). lia. Qed.

Lemma count_bound_le l s s' : (forall o, used s' o <= used s o) -> count_bound l s s'.
Proof. intros H o limit _. specialize (H o). lia. Qed.

(** The slot test depends on the awaiting table only, and only at the task. *)
Lemma slot_test_at s s' o id e :
  awaiting_decision s' !! id = awaiting_decision s !! id -> slot_test s' o (id, e) = slot_test s o (id, e).
Proof. intros H. destruct o; cbn; unfold occupies_in, occupies, is_awaiting_decision; cbn; by rewrite H. Qed.

Lemma used_change s s' o id :
  delete id (active_tasks s') = delete id (active_tasks s) ->
  (forall id', id' <> id -> awaiting_decision s' !! id' = awaiting_decision s !! id') ->
  used s' o = used s o - weight (slot_test s o) id (active_tasks s !! id) + weight (slot_test s' o) id (active_tasks s' !! id).
Proof.
  intros Ha Hw. unfold used. rewrite (count_delete (slot_test s' o) (active_tasks s') id), (count_delete (slot_test s o) (active_tasks s) id), Ha.
  rewrite (count_ext_delete (slot_test s' o) (slot_test s o)) by (intros; apply slot_test_at; by apply Hw). lia.
Qed.

Lemma used_le s s' id :
  delete id (active_tasks s') = delete id (active_tasks s) ->
  (forall id', id' <> id -> awaiting_decision s' !! id' = awaiting_decision s !! id') ->
  (forall o, weight (slot_test s' o) id (active_tasks s' !! id) <= weight (slot_test s o) id (active_tasks s !! id)) ->
  forall o, used s' o <= used s o.
Proof. intros Ha Hw Hle o. rewrite (used_change s s' o id Ha Hw). specialize (Hle o). lia. Qed.

(** A task that waits for an answer uses no slot; a generation that waits is
    the only one concerned. *)
Lemma slot_test_awaiting s o id e :
  slot_test s o (id, e) = slot_test (set_awaiting ∅ s) o (id, e) && negb (is_awaiting_decision s id (e_generation e)).
Proof.
  destruct o; cbn; unfold occupies_in, occupies; cbn; destruct (e_is_bt e), (is_awaiting_decision s id _); cbn; try done;
    destruct (bool_decide (e_queue_id e = _)); done.
Qed.

(** ** The moves keep the invariant and the bounds *)

Lemma start_count_bound l s id e :
  e_is_bt e = true \/ slot_free l s (e_queue_id e) = true ->
  count_bound l s (set_active (<[id := e]> (active_tasks s)) s).
Proof.
  intros Hb o limit Ho. set (s' := set_active _ _).
  rewrite (used_change s s' o id); [|subst s'; cbn; by rewrite delete_insert_eq|done].
  subst s'. cbn [active_tasks set_active]. rewrite lookup_insert_eq.
  pose proof (weight_bounds (slot_test s o) id (active_tasks s !! id)).
  cbn [weight]. rewrite (slot_test_at s _ o id e) by done.
  destruct (slot_test s o (id, e)) eqn:Ht; cbn [Z.b2z]; [|lia].
  pose proof (slot_test_ne _ _ _ _ Ht) as [Hbt Hqu].
  destruct Hb as [|Hfree]; [congruence|].
  unfold slot_free in Hfree. bool_hyps. enough (used s o < limit) by lia. destruct o as [queue_id|].
  - rewrite (Hqu _ eq_refl) in *. rewrite has_queue_capacity_spec in *. by auto.
  - rewrite has_capacity_spec in *. by auto.
Qed.

Lemma move_count_bound l s s' : move false l s s' -> count_bound l s s'.
Proof.
  intros Hm. inversion Hm as [id e Hq Hr Hfr Hg Hh Hb| |id e He Hr|id Hr|id e He|id Hr|id Hf|id e p|id|q|q|p|p]; subst;
    [apply start_count_bound; by destruct Hb as [|Hb]|..];
    try (apply count_bound_le; intros []; by apply Z.le_refl); apply count_bound_le, (used_le s _ id); cbn -[slot_test];
    rewrite ?delete_insert_eq, ?delete_delete_eq, ?lookup_insert_eq, ?lookup_delete_eq; try done;
    try (by intros; rewrite ?lookup_insert_ne, ?lookup_delete_ne); try (intros o; cbn [weight]; by apply weight_bounds).
  - intros o. rewrite He. cbn [weight]. rewrite (slot_test_at s _ o id) by done. by destruct o.
  - intros o. rewrite He. cbn [weight]. rewrite slot_test_awaiting. unfold is_awaiting_decision; cbn -[slot_test].
    rewrite lookup_insert_eq, bool_decide_eq_true_2, andb_false_r by done. apply (weight_bounds _ id (Some e)).
  - intros o. destruct (active_tasks s !! id) as [e|] eqn:He; cbn [weight]; [|done]. specialize (Hf e eq_refl).
    rewrite (slot_test_awaiting s), slot_test_awaiting. unfold is_awaiting_decision; cbn -[slot_test]. rewrite lookup_delete_eq.
    by rewrite !bool_decide_eq_false_2.
Qed.

Lemma moves_count_bound l s s' : moves false l s s' -> count_bound l s s'.
Proof. induction 1 as [|s1 s2 s3 Hm _ IH]; [apply count_bound_refl|]. eapply count_bound_trans; [by apply move_count_bound|done]. Qed.

Lemma move_start_ok s id e :
  slots_ok s -> id ∉ queued_ids s -> pending_resolve s !! id = None -> fresh_generation s -> e_generation e = generation s ->
  slots_ok (set_active (<[id := e]> (active_tasks s)) s).
Proof.
  intros [H1 H2 H3 H4 H5 H6 H7 H8] Hq Hr Hfr Hg. constructor; cbn; try done.
  - intros i Hi. rewrite lookup_insert_ne by (intros ->; done). by apply H3.
  - intros i f [[<- <-]|[_ Hf]]%lookup_insert_Some; [lia|by eapply H4].
  - intros i j f g [[<- <-]|[_ Hf]]%lookup_insert_Some [[<- <-]|[_ Hg']]%lookup_insert_Some; [done| | |].
    + apply Hfr in Hg'. lia.
    + apply Hfr in Hf. lia.
    + by apply (H5 i j f g).
  - intros i p Hi. rewrite lookup_insert_ne by (intros ->; congruence). by apply H7.
Qed.

Lemma move_delete_ok s id :
  slots_ok s -> pending_resolve s !! id = None -> slots_ok (set_active (delete id (active_tasks s)) s).
Proof.
  intros [H1 H2 H3 H4 H5 H6 H7 H8] Hr. constructor; cbn; try done.
  - intros i Hi. rewrite lookup_delete_None. right. by apply H3.
  - intros i e [_ He]%lookup_delete_Some. by eapply H4.
  - intros i j e f [_ He]%lookup_delete_Some [_ Hf]%lookup_delete_Some. by apply (H5 i j e f).
  - intros i p Hi. rewrite lookup_delete_ne by (intros ->; congruence). by apply H7.
Qed.

Lemma move_spawned_ok s id e :
  slots_ok s -> active_tasks s !! id = Some e -> pending_resolve s !! id = None ->
  slots_ok (set_active (<[id := mk_active (e_generation e) true (e_is_bt e) (e_queue_id e)]> (active_tasks s)) s).
Proof.
  intros [H1 H2 H3 H4 H5 H6 H7 H8] He Hr.
  assert (forall i f, <[id := mk_active (e_generation e) true (e_is_bt e) (e_queue_id e)]> (active_tasks s) !! i = Some f ->
    exists f0, active_tasks s !! i = Some f0 /\ e_generation f0 = e_generation f) as Hgen.
  { intros i f [[<- <-]|[_ Hf]]%lookup_insert_Some; eauto. }
  constructor; cbn; try done.
  - intros i Hi. rewrite lookup_insert_ne by (intros <-; apply H3 in Hi; congruence). by apply H3.
  - intros i f (f0 & Hf & <-)%Hgen. by eapply H4.
  - intros i j f g (f0 & Hf & <-)%Hgen (g0 & Hg & <-)%Hgen. by apply (H5 i j f0 g0).
  - intros i p Hi. rewrite lookup_insert_ne by (intros ->; congruence). by apply H7.
Qed.

Lemma move_awaiting_ok s m :
  slots_ok s -> (forall id g, m !! id = Some g -> g <= generation s) -> slots_ok (set_awaiting m s).
Proof. intros [H1 H2 H3 H4 H5 H6 H7 H8] Hm. by constructor. Qed.

Lemma move_pending_ok s p :
  slots_ok s -> pq_ok p -> NoDup (map q_task_id (pq_items p)) ->
  (forall id, id ∈ map q_task_id (pq_items p) -> active_tasks s !! id = None) -> slots_ok (set_pending p s).
Proof. intros [H1 H2 H3 H4 H5 H6 H7 H8] Hp Hn Hd. by constructor. Qed.

Lemma map_sublist {A B} (f : A -> B) l k : l `sublist_of` k -> map f l `sublist_of` map f k.
Proof. apply fmap_sublist. Qed.

Lemma move_ok b l s s' : slots_ok s -> move b l s s' -> slots_ok s'.
Proof.
  intros Hs Hm. inversion Hm as [id e Hq Hr Hfr Hg Hh Hb| |id e He Hr|id Hr|id e He|id Hr|id Hf|id e p He Hg Hh Hp|id|q Hq Ha|q Hq Ha|p Hp Hsub|p Hp Hids]; subst.
  - by apply move_start_ok.
  - destruct Hs as [H1 H2 H3 H4 H5 H6 H7 H8]. constructor; cbn; try done.
    + intros i e Hi%H4. lia.
    + intros i g Hi%H6. lia.
  - by apply move_spawned_ok.
  - by apply move_delete_ok.
  - apply move_awaiting_ok; [done|]. intros i g [[<- <-]|[_ Hi]]%lookup_insert_Some; [by eapply ok_active_gen|by eapply ok_awaiting_gen].
  - apply (move_delete_ok (set_awaiting (delete id (awaiting_decision s)) s)); [|done].
    apply move_awaiting_ok; [done|]. intros i g [_ Hi]%lookup_delete_Some. by eapply ok_awaiting_gen.
  - apply move_awaiting_ok; [done|]. intros i g [_ Hi]%lookup_delete_Some. by eapply ok_awaiting_gen.
  - destruct Hs as [H1 H2 H3 H4 H5 H6 H7 H8]. constructor; cbn; try done.
    + intros i p' [[<- <-]|[_ Hi]]%lookup_insert_Some; [by exists e|by apply H7].
    + intros i q g [[<- ->]|[_ Hi]]%lookup_insert_Some; [by eapply Hp|by eapply H8].
  - destruct Hs as [H1 H2 H3 H4 H5 H6 H7 H8]. constructor; cbn; try done.
    + intros i p [_ Hi]%lookup_delete_Some. by apply H7.
    + intros i q g [_ Hi]%lookup_delete_Some. by eapply H8.
  - apply move_pending_ok; [done|apply push_back_ok, Hs| |]; cbn [push_back pq_items]; rewrite map_app; cbn [map].
    + apply NoDup_app. split_and!; [apply Hs| |apply NoDup_singleton]. intros x Hx ->%list_elem_of_singleton. done.
    + intros i [Hi| ->%list_elem_of_singleton]%elem_of_app; [by apply Hs|done].
  - apply move_pending_ok; [done|apply push_front_ok, Hs| |]; cbn [push_front pq_items map].
    + constructor; [done|apply Hs].
    + intros i [->|Hi]%elem_of_cons; [done|by apply Hs].
  - pose proof (map_sublist q_task_id _ _ Hsub) as Hids. apply move_pending_ok; [done|done| |].
    + eapply sublist_NoDup; [apply (ok_unique s Hs)|done].
    + intros i Hi. apply Hs. by eapply elem_of_sublist.
  - apply move_pending_ok; [done|done| |]; rewrite Hids; apply Hs.
Qed.

Lemma moves_ok b l s s' : slots_ok s -> moves b l s s' -> slots_ok s'.
Proof. intros Hs Hm. induction Hm as [|s1 s2 s3 Hm _ IH]; [done|]. apply IH. by eapply move_ok. Qed.

Lemma move_weaken b l s s' : move b l s s' -> move true l s s'.
Proof. destruct 1; eauto using move. Qed.

Lemma moves_weaken b l s s' : moves b l s s' -> moves true l s s'.
Proof. induction 1; [done|]. eapply rtc_l; [by eapply move_weaken|done]. Qed.
