(* ===== verification/Manager.v ===== *)
(** * Manager: the handlers of the download manager
      ([native/engine/src/download_manager.rs], [download_manager/boost.rs]).

    The manager is an actor: it handles one message at a time and owns all
    scheduling state.  A handler is a computation of the state monad [M], its
    statements in the order of the source.  What the source asks of the outside
    comes from a [World], by the number of the call: whether a database or
    session call succeeds, the status the workers have left in a task's row
    (they write it at any moment), what the plugin host and the retry policy
    decide.  Every claim holds for all worlds.

    What the manager sends (database status, cancellations, spawned workers,
    events) is kept in order in [m_out]; so is one log line ([StaleRemoved]), of
    the one place that gives up a slot without draining the queue.  Not modelled here: log lines, webhooks
    of single tasks except [task.paused], speed limiters, the choice of a route,
    the metadata probe of a queued task, the bookkeeping of retry counters, the
    seeding of completed torrents, task groups, the expansion of a manifest
    (several files behind one link), and the cleaning of files. *)
From Stdlib Require Import Ascii.
From S2P Require Import Prelude Text QueueOrder Schedule PendingQueue Slots.

Definition MAIN_QUEUE_ID : text := lit "main".

Record PendingPause := mk_pause { pp_generation : Z; pp_notify : bool; pp_resume_requested : bool }.

(** What the manager does to the outside. *)
Inductive Effect :=
| Status (task_id : text) (status : Z)
| CancelToken (task_id : text) (generation : Z)
| Spawn (task_id : text) (generation : Z)
| SpawnResolve (task_id : text) (generation : Z)
| Progress (task_id : text) (status : Z)
| QueueStarted (queue_id : text)
| QueueDrained (queue_id : text)
| Positions (delta : QueueOrderDelta)
| PausedNotice (task_id : text)
| QueueChanged (task_id queue_id : text)
| StaleRemoved (task_id : text)
| BoostSaved (state : option (text * list text))
| PriorityTaskChanged (task_id : text) (auto_paused_count : Z)
| QueuesChanged
| TasksSnapshot
| TasksDeleted (task_ids : list text).

(** A queue's record is kept in two parts under one key: its limit in
    [m_limits], its running state and schedule in [m_plans]. *)
Record DownloadManager := mk_manager {
  m_slots : Slots;
  m_limits : Limits;
  m_plans : gmap text QueuePlan;
  m_fired : gmap ScheduleEdge Z;
  m_pauses : gmap text PendingPause;
  m_bt_enabled : bool;
  m_bt_session : bool;
  m_resume_applied : gmap text text;
  m_retry_scheduled : gmap text text;
  m_occupied : gset text;
  m_restoring : bool;
  m_positions_dirty : bool;
  m_queue_order : Keys;
  m_suppress_bulk : bool;
  m_priority : option text;
  m_auto_paused : list text;
  m_rows : gmap text TaskRow;
  m_calls : nat;
  m_out : list Effect }.

Definition set_slots (v : Slots) (m : DownloadManager) : DownloadManager :=
  mk_manager v (m_limits m) (m_plans m) (m_fired m) (m_pauses m) (m_bt_enabled m) (m_bt_session m) (m_resume_applied m) (m_retry_scheduled m) (m_occupied m) (m_restoring m) (m_positions_dirty m) (m_queue_order m) (m_suppress_bulk m) (m_priority m) (m_auto_paused m) (m_rows m) (m_calls m) (m_out m).
Definition set_limits (v : Limits) (m : DownloadManager) : DownloadManager :=
  mk_manager (m_slots m) v (m_plans m) (m_fired m) (m_pauses m) (m_bt_enabled m) (m_bt_session m) (m_resume_applied m) (m_retry_scheduled m) (m_occupied m) (m_restoring m) (m_positions_dirty m) (m_queue_order m) (m_suppress_bulk m) (m_priority m) (m_auto_paused m) (m_rows m) (m_calls m) (m_out m).
Definition set_plans (v : gmap text QueuePlan) (m : DownloadManager) : DownloadManager :=
  mk_manager (m_slots m) (m_limits m) v (m_fired m) (m_pauses m) (m_bt_enabled m) (m_bt_session m) (m_resume_applied m) (m_retry_scheduled m) (m_occupied m) (m_restoring m) (m_positions_dirty m) (m_queue_order m) (m_suppress_bulk m) (m_priority m) (m_auto_paused m) (m_rows m) (m_calls m) (m_out m).
Definition set_fired (v : gmap ScheduleEdge Z) (m : DownloadManager) : DownloadManager :=
  mk_manager (m_slots m) (m_limits m) (m_plans m) v (m_pauses m) (m_bt_enabled m) (m_bt_session m) (m_resume_applied m) (m_retry_scheduled m) (m_occupied m) (m_restoring m) (m_positions_dirty m) (m_queue_order m) (m_suppress_bulk m) (m_priority m) (m_auto_paused m) (m_rows m) (m_calls m) (m_out m).
Definition set_pauses (v : gmap text PendingPause) (m : DownloadManager) : DownloadManager :=
  mk_manager (m_slots m) (m_limits m) (m_plans m) (m_fired m) v (m_bt_enabled m) (m_bt_session m) (m_resume_applied m) (m_retry_scheduled m) (m_occupied m) (m_restoring m) (m_positions_dirty m) (m_queue_order m) (m_suppress_bulk m) (m_priority m) (m_auto_paused m) (m_rows m) (m_calls m) (m_out m).
Definition set_bt_session (v : bool) (m : DownloadManager) : DownloadManager :=
  mk_manager (m_slots m) (m_limits m) (m_plans m) (m_fired m) (m_pauses m) (m_bt_enabled m) v (m_resume_applied m) (m_retry_scheduled m) (m_occupied m) (m_restoring m) (m_positions_dirty m) (m_queue_order m) (m_suppress_bulk m) (m_priority m) (m_auto_paused m) (m_rows m) (m_calls m) (m_out m).
Definition set_resume_applied (v : gmap text text) (m : DownloadManager) : DownloadManager :=
  mk_manager (m_slots m) (m_limits m) (m_plans m) (m_fired m) (m_pauses m) (m_bt_enabled m) (m_bt_session m) v (m_retry_scheduled m) (m_occupied m) (m_restoring m) (m_positions_dirty m) (m_queue_order m) (m_suppress_bulk m) (m_priority m) (m_auto_paused m) (m_rows m) (m_calls m) (m_out m).
Definition set_retry_scheduled (v : gmap text text) (m : DownloadManager) : DownloadManager :=
  mk_manager (m_slots m) (m_limits m) (m_plans m) (m_fired m) (m_pauses m) (m_bt_enabled m) (m_bt_session m) (m_resume_applied m) v (m_occupied m) (m_restoring m) (m_positions_dirty m) (m_queue_order m) (m_suppress_bulk m) (m_priority m) (m_auto_paused m) (m_rows m) (m_calls m) (m_out m).
Definition set_occupied (v : gset text) (m : DownloadManager) : DownloadManager :=
  mk_manager (m_slots m) (m_limits m) (m_plans m) (m_fired m) (m_pauses m) (m_bt_enabled m) (m_bt_session m) (m_resume_applied m) (m_retry_scheduled m) v (m_restoring m) (m_positions_dirty m) (m_queue_order m) (m_suppress_bulk m) (m_priority m) (m_auto_paused m) (m_rows m) (m_calls m) (m_out m).
Definition set_positions_dirty (v : bool) (m : DownloadManager) : DownloadManager :=
  mk_manager (m_slots m) (m_limits m) (m_plans m) (m_fired m) (m_pauses m) (m_bt_enabled m) (m_bt_session m) (m_resume_applied m) (m_retry_scheduled m) (m_occupied m) (m_restoring m) v (m_queue_order m) (m_suppress_bulk m) (m_priority m) (m_auto_paused m) (m_rows m) (m_calls m) (m_out m).
Definition set_queue_order (v : Keys) (m : DownloadManager) : DownloadManager :=
  mk_manager (m_slots m) (m_limits m) (m_plans m) (m_fired m) (m_pauses m) (m_bt_enabled m) (m_bt_session m) (m_resume_applied m) (m_retry_scheduled m) (m_occupied m) (m_restoring m) (m_positions_dirty m) v (m_suppress_bulk m) (m_priority m) (m_auto_paused m) (m_rows m) (m_calls m) (m_out m).
Definition set_priority (v : option text) (m : DownloadManager) : DownloadManager :=
  mk_manager (m_slots m) (m_limits m) (m_plans m) (m_fired m) (m_pauses m) (m_bt_enabled m) (m_bt_session m) (m_resume_applied m) (m_retry_scheduled m) (m_occupied m) (m_restoring m) (m_positions_dirty m) (m_queue_order m) (m_suppress_bulk m) v (m_auto_paused m) (m_rows m) (m_calls m) (m_out m).
Definition set_auto_paused (v : list text) (m : DownloadManager) : DownloadManager :=
  mk_manager (m_slots m) (m_limits m) (m_plans m) (m_fired m) (m_pauses m) (m_bt_enabled m) (m_bt_session m) (m_resume_applied m) (m_retry_scheduled m) (m_occupied m) (m_restoring m) (m_positions_dirty m) (m_queue_order m) (m_suppress_bulk m) (m_priority m) v (m_rows m) (m_calls m) (m_out m).
Definition set_rows (v : gmap text TaskRow) (m : DownloadManager) : DownloadManager :=
  mk_manager (m_slots m) (m_limits m) (m_plans m) (m_fired m) (m_pauses m) (m_bt_enabled m) (m_bt_session m) (m_resume_applied m) (m_retry_scheduled m) (m_occupied m) (m_restoring m) (m_positions_dirty m) (m_queue_order m) (m_suppress_bulk m) (m_priority m) (m_auto_paused m) v (m_calls m) (m_out m).
Definition set_calls (v : nat) (m : DownloadManager) : DownloadManager :=
  mk_manager (m_slots m) (m_limits m) (m_plans m) (m_fired m) (m_pauses m) (m_bt_enabled m) (m_bt_session m) (m_resume_applied m) (m_retry_scheduled m) (m_occupied m) (m_restoring m) (m_positions_dirty m) (m_queue_order m) (m_suppress_bulk m) (m_priority m) (m_auto_paused m) (m_rows m) v (m_out m).
Definition set_out (v : list Effect) (m : DownloadManager) : DownloadManager :=
  mk_manager (m_slots m) (m_limits m) (m_plans m) (m_fired m) (m_pauses m) (m_bt_enabled m) (m_bt_session m) (m_resume_applied m) (m_retry_scheduled m) (m_occupied m) (m_restoring m) (m_positions_dirty m) (m_queue_order m) (m_suppress_bulk m) (m_priority m) (m_auto_paused m) (m_rows m) (m_calls m) v.

(** ** The state monad *)

Definition M (A : Type) : Type := DownloadManager -> A * DownloadManager.

Definition ret {A} (a : A) : M A := fun m => (a, m).
Definition bind {A B} (c : M A) (k : A -> M B) : M B := fun m => let '(a, m) := c m in k a m.
Definition gets {A} (f : DownloadManager -> A) : M A := fun m => (f m, m).
Definition modify (f : DownloadManager -> DownloadManager) : M unit := fun m => (tt, f m).

Notation "'let!' x ':=' c 'in' k" := (bind c (fun x => k))
  (at level 10, x pattern, c at level 200, k at level 200) : engine_scope.
Notation "'do!' c 'in' k" := (bind c (fun _ => k))
  (at level 10, c at level 200, k at level 200) : engine_scope.

Definition skip : M unit := ret tt.
Definition when (b : bool) (c : M unit) : M unit := if b then c else skip.

Fixpoint for_each {A} (l : list A) (f : A -> M unit) : M unit :=
  match l with [] => skip | a :: l => do! f a in for_each l f end.

Definition on_slots (f : Slots -> Slots) : M unit := modify (fun m => set_slots (f (m_slots m)) m).
Definition emit (e : Effect) : M unit := modify (fun m => set_out (m_out m ++ [e]) m).

(** Changes of the tables of the slots. *)
Definition active_insert (id : text) (e : ActiveTaskEntry) : M unit :=
  on_slots (fun s => set_active (<[id := e]> (active_tasks s)) s).
Definition active_remove (id : text) : M unit := on_slots (fun s => set_active (delete id (active_tasks s)) s).
Definition get_active (id : text) : M (option ActiveTaskEntry) := gets (fun m => active_tasks (m_slots m) !! id).
Definition is_active (id : text) : M bool := gets (fun m => bool_decide (is_Some (active_tasks (m_slots m) !! id))).
Definition next_generation : M Z :=
  do! on_slots (fun s => set_generation (generation s + 1) s) in gets (fun m => generation (m_slots m)).
Definition on_pending (f : PendingQueue -> PendingQueue) : M unit :=
  on_slots (fun s => set_pending (f (pending_queue s)) s).
Definition get_pending : M PendingQueue := gets (fun m => pending_queue (m_slots m)).
Definition capacity (queue_id : text) : M bool := gets (fun m => slot_free (m_limits m) (m_slots m) queue_id).

(** ** The outside *)

(** A task as the database returns it. *)
Record Task := mk_dbtask { k_row : TaskRow; k_status : Z; k_seeding_status : Z }.

Record World := mk_world {
  w_ok : nat -> bool;                       (* does the call succeed *)
  w_status : nat -> text -> Z;              (* status in the row of a task *)
  w_seeding : nat -> text -> Z;             (* seeding status in the row *)
  w_resolver : nat -> text;                 (* plugin for a link, empty if none *)
  w_retry : nat -> bool;                    (* is a failed task tried again *)
  w_duplicate : nat -> bool;                (* did it fail as a duplicate torrent *)
  w_order : nat -> list text -> list text;  (* iteration order of a hash map *)
  w_select : nat -> list text;              (* the ids a query selects *)
  w_calendar : Calendar }.

Section Handlers.
Context (w : World).

Definition call {A} (f : World -> nat -> A) : M A := fun m => (f w (m_calls m), set_calls (S (m_calls m)) m).
Definition ask : M bool := call w_ok.

Definition load_task_by_id (id : text) : M (result (option Task) unit) :=
  fun m =>
    let n := m_calls m in
    (if w_ok w n
     then Ok ((fun row => mk_dbtask row (w_status w n id) (w_seeding w n id)) <$> (m_rows m !! id))
     else Err tt, set_calls (S n) m).

(** A text column of a task's row, empty if there is no row. *)
Definition get_column (column : TaskRow -> text) (id : text) : M (result text unit) :=
  fun m => (if w_ok w (m_calls m) then Ok (from_option column [] (m_rows m !! id)) else Err tt, set_calls (S (m_calls m)) m).

Definition update_task_status (id : text) (status : Z) : M bool :=
  let! ok := ask in do! when ok (emit (Status id status)) in ret ok.

Definition emit_progress_from_db (id : text) (status : Z) : M unit :=
  let! task := load_task_by_id id in
  match task with Ok (Some _) => emit (Progress id status) | _ => skip end.

Definition persist_task_failure (id : text) : M unit :=
  do! update_task_status id 4 in emit (Progress id 4).

Definition emit_paused_webhook (id : text) : M unit :=
  let! task := load_task_by_id id in
  match task with Ok (Some _) => emit (PausedNotice id) | _ => skip end.

(** The lists of queues and of tasks, as the database returns them. *)
Definition send_all_queues : M unit := let! ok := ask in when ok (emit QueuesChanged).
Definition send_tasks_snapshot : M unit := let! ok := ask in when ok (emit TasksSnapshot).

(** ** Queue positions and queue occupancy *)

Definition broadcast_queue_positions : M unit :=
  do! modify (set_positions_dirty false) in
  let! ids := gets (fun m => queued_ids (m_slots m)) in
  let! keys := gets m_queue_order in
  let '(delta, keys) := diff keys ids in
  do! modify (set_queue_order keys) in
  match delta with Unchanged => skip | _ => emit (Positions delta) end.

Definition flush_queue_positions : M unit :=
  let! dirty := gets m_positions_dirty in when dirty broadcast_queue_positions.

Definition emit_queue_started (queue_id : text) : M unit :=
  let! restoring := gets m_restoring in when (negb restoring) (emit (QueueStarted queue_id)).

Definition mark_queue_occupied (queue_id : text) : M unit :=
  let! occupied := gets m_occupied in
  if decide (queue_id ∈ occupied) then skip
  else do! modify (set_occupied ({[queue_id]} ∪ occupied)) in emit_queue_started queue_id.

Definition occupied_now (m : DownloadManager) : gset text :=
  list_to_set (map (fun p => e_queue_id (snd p)) (map_to_list (active_tasks (m_slots m)))) ∪
  list_to_set (queue_ids (pending_queue (m_slots m))) ∪
  list_to_set (map snd (map_to_list (m_retry_scheduled m))).

Definition sync_queue_occupancy : M unit :=
  let! occupied := gets occupied_now in
  let! old := gets m_occupied in
  do! modify (set_occupied occupied) in
  do! for_each (elements (old ∖ occupied)) (fun queue_id => emit (QueueDrained queue_id)) in
  for_each (elements (occupied ∖ old)) emit_queue_started.

(** [retry_schedule], [retry_unschedule] without the count they report. *)
Definition retry_schedule (id queue_id : text) : M unit :=
  modify (fun m => set_retry_scheduled (<[id := queue_id]> (m_retry_scheduled m)) m).
Definition retry_unschedule (id : text) : M unit :=
  modify (fun m => set_retry_scheduled (delete id (m_retry_scheduled m)) m).

(** ** BitTorrent *)

Definition ensure_bt_session : M bool :=
  let! enabled := gets m_bt_enabled in
  if negb enabled then ret false else
  let! session := gets m_bt_session in
  if session then ret true else
  let! ok := ask in
  do! modify (set_bt_session ok) in ret ok.

Definition park_bt_disabled_task (id : text) : M unit :=
  let! task := load_task_by_id id in
  match task with
  | Ok (Some t) =>
      if (k_status t =? 0) || (k_status t =? 1) || (k_status t =? 5)
      then let! ok := update_task_status id 2 in when ok (emit_progress_from_db id 2)
      else skip
  | _ => skip
  end.

(** [park_pending_bt_tasks], without the number it returns. *)
Definition park_pending_bt_tasks : M unit :=
  let! enabled := gets m_bt_enabled in
  let! pending := get_pending in
  if enabled || negb (has_bt pending) then skip else
  let '(bt_items, rest) := drain_bt pending in
  do! on_pending (fun _ => rest) in
  do! for_each bt_items (fun q => park_bt_disabled_task (q_task_id q)) in
  when (negb (bool_decide (bt_items = []))) broadcast_queue_positions.

(** ** Resolver plugins *)

Definition clear_pending_resolve (id : text) : M unit :=
  do! on_slots (fun s => set_resolves (delete id (pending_resolve s)) s) in
  modify (fun m => set_resume_applied (delete id (m_resume_applied m)) m).

Definition has_pending_resolve (id : text) : M bool :=
  gets (fun m => bool_decide (is_Some (pending_resolve (m_slots m) !! id))).

Definition mark_resolving (id : text) : M unit :=
  let! ok := update_task_status id 5 in when ok (emit_progress_from_db id 5).

(** Choosing a plugin for the link is the plugin host's. *)
Definition rebind_second_stage (id : text) : M (option text) :=
  let! task := load_task_by_id id in
  match task with
  | Ok (Some t) =>
      let! plugin := call w_resolver in
      if decide (plugin = []) then ret None else
      let! ok := ask in ret (if ok then Some plugin else None)
  | _ => ret None
  end.

Definition fail_second_stage_unavailable (id : text) : M unit := persist_task_failure id.

Definition set_resolver (plugin : text) (resolved : bool) (q : QueuedTask) : QueuedTask :=
  mk_queued (q_task_id q) (q_url q) (q_save_dir q) (q_file_name q) (q_segments q) (q_is_resume q)
    (q_hint_file_size q) (q_torrent_file_bytes q) (q_proxy_url q) (q_queue_id q) (q_checksum q)
    plugin resolved (q_range_supported q) (q_resolver_item q).

(** The placeholder of a resolution and the worker that resolves. *)
Definition begin_resolve (id queue_id : text) (is_bt : bool) (pending : Z -> PendingResolve) : M unit :=
  let! gen := next_generation in
  do! active_insert id (mk_active gen false is_bt queue_id) in
  do! on_slots (fun s => set_resolves (<[id := pending gen]> (pending_resolve s)) s) in
  do! mark_resolving id in
  emit (SpawnResolve id gen).

Definition begin_resolve_start (q : QueuedTask) : M unit :=
  begin_resolve (q_task_id q) (q_queue_id q)
    (is_magnet (q_url q) || negb (bool_decide (q_torrent_file_bytes q = [])) || is_torrent_file_url (q_url q))
    (ResolveStart q).

(** The request context, the resolver selection and the unattended setting are
    read from the database, the headers decoded; any of it may fail. *)
Definition begin_resolve_resume (id plugin : text) : M unit :=
  let! task := load_task_by_id id in
  match task with
  | Ok (Some t) =>
      let! context := ask in
      if negb context then persist_task_failure id else
      let! headers := ask in
      if negb headers then persist_task_failure id else
      let! selection := ask in
      if negb selection then persist_task_failure id else
      let! unattended := ask in
      if negb unattended then persist_task_failure id else
      begin_resolve id (r_queue_id (k_row t)) (is_bt_url (r_url (k_row t))) ResolveResume
  | _ => skip
  end.

(** ** Starting a download *)

Definition spawn_worker (id : text) (gen : Z) : M unit :=
  do! emit (Spawn id gen) in
  let! entry := get_active id in
  match entry with
  | Some e => active_insert id (mk_active (e_generation e) true (e_is_bt e) (e_queue_id e))
  | None => skip
  end.

(** The part of [do_start_task] after the resolver guard.  A torrent's start
    fails when the session cannot be had or the name the user gave it (if any)
    cannot be stored. *)
Definition launch (q : QueuedTask) : M unit :=
  let id := q_task_id q in
  do! mark_queue_occupied (q_queue_id q) in
  let! gen := next_generation in
  let use_bt := is_magnet (q_url q) || negb (bool_decide (q_torrent_file_bytes q = [])) || is_torrent_file_url (q_url q) in
  do! active_insert id (mk_active gen false use_bt (q_queue_id q)) in
  if use_bt then
    let! session := ensure_bt_session in
    if negb session then
      do! update_task_status id 4 in
      do! emit (Progress id 4) in
      active_remove id
    else
      let! named := ask in
      if negb named then do! persist_task_failure id in active_remove id
      else spawn_worker id gen
  else spawn_worker id gen.

Definition do_start_task (q : QueuedTask) : M unit :=
  let id := q_task_id q in
  let second_stage := negb (bool_decide (q_resolver_item q = [])) in
  if negb (q_resolved q) && (negb (bool_decide (q_resolver_plugin_id q = [])) || second_stage) then
    let! bound := get_column r_resolver id in
    match bound with
    | Ok [] =>
        if second_stage then
          let! plugin := rebind_second_stage id in
          match plugin with
          | Some plugin => begin_resolve_start (set_resolver plugin (q_resolved q) q)
          | None => fail_second_stage_unavailable id
          end
        else launch (set_resolver [] (q_resolved q) q)
    | Ok bound =>
        begin_resolve_start (if decide (q_resolver_plugin_id q = []) then set_resolver bound (q_resolved q) q else q)
    | Err _ =>
        if decide (q_resolver_plugin_id q = []) then fail_second_stage_unavailable id else begin_resolve_start q
    end
  else launch q.

(** The part of [do_resume_task] after the resolver guard, with the link the
    resolver found, if one ran (empty: the task's own). *)
Definition relaunch (id : text) (applied : option text) : M unit :=
  let! task := load_task_by_id id in
  match task with
  | Err _ => emit (Progress id 4)
  | Ok None => skip
  | Ok (Some t) =>
      let url := match applied with Some (c :: s) => c :: s | _ => r_url (k_row t) end in
      let! post_only :=
        match applied with
        | Some _ => ret false
        | None => let! method := get_column r_request_method id in
                  ret (match method with Ok (_ :: _) => true | _ => false end)
        end in
      if post_only then do! update_task_status id 4 in emit (Progress id 4) else
      let! gen := next_generation in
      let use_bt := is_bt_url url in
      let! enabled := gets m_bt_enabled in
      if use_bt && negb enabled then park_bt_disabled_task id else
      do! active_insert id (mk_active gen false use_bt (r_queue_id (k_row t))) in
      if use_bt then
        let! session := ensure_bt_session in
        if negb session then
          do! update_task_status id 4 in
          do! emit (Progress id 4) in
          active_remove id
        else
          let! stale_handle_gone := ask in
          if negb stale_handle_gone then active_remove id else
          let! bytes_kept := if is_torrent_file_url url then ask else ret true in
          if negb bytes_kept then do! update_task_status id 4 in active_remove id
          else spawn_worker id gen
      else spawn_worker id gen
  end.

Definition do_resume_task (id : text) : M unit :=
  let! bound := get_column r_resolver id in
  let! reentered := gets (fun m => m_resume_applied m !! id) in
  do! modify (fun m => set_resume_applied (delete id (m_resume_applied m)) m) in
  match bound with
  | Ok (c :: plugin) =>
      match reentered with
      | Some url => relaunch id (Some url)
      | None => begin_resolve_resume id (c :: plugin)
      end
  | _ =>
      let! item := get_column r_resolver_item id in
      let second_stage := match item with Ok [] => false | _ => true end in
      if second_stage then
        let! plugin := rebind_second_stage id in
        match plugin with
        | Some plugin => begin_resolve_resume id plugin
        | None => fail_second_stage_unavailable id
        end
      else relaunch id None
  end.

(** ** Draining the queue *)

(** The [while] loop of [drain_queue]: every round takes an item out of the
    queue or moves the cursor on, so as many rounds as there are items suffice. *)
Fixpoint drain_loop (fuel : nat) (blocked : gset text) (blocked_items cursor : nat) : M unit :=
  match fuel with
  | O => skip
  | S fuel =>
      let! cap := gets (fun m => has_capacity (m_limits m) (m_slots m)) in
      if negb cap then skip else
      let! pending := get_pending in
      if (pq_len pending - blocked_items =? 0)%nat then skip else
      match pq_get pending cursor with
      | None => skip
      | Some item =>
          let! active := is_active (q_task_id item) in
          if active then
            do! on_pending (fun p => snd (pq_remove cursor p)) in
            drain_loop fuel blocked
              (if decide (q_queue_id item ∈ blocked) then (blocked_items - 1)%nat else blocked_items) cursor
          else if decide (q_queue_id item ∈ blocked) then drain_loop fuel blocked blocked_items (S cursor)
          else
            let! room := gets (fun m => has_queue_capacity (m_limits m) (m_slots m) (q_queue_id item)) in
            if negb room then
              drain_loop fuel ({[q_queue_id item]} ∪ blocked) (blocked_items + queued_in pending (q_queue_id item))
                (S cursor)
            else
              do! on_pending (fun p => snd (pq_remove cursor p)) in
              do! if q_is_resume item then do_resume_task (q_task_id item) else do_start_task item in
              drain_loop fuel blocked blocked_items cursor
      end
  end.

Definition drain_queue : M unit :=
  do! park_pending_bt_tasks in
  let! pending := get_pending in
  let! cap := gets (fun m => has_capacity (m_limits m) (m_slots m)) in
  if pq_is_empty pending || negb cap then skip else
  let! room := gets (fun m => existsb (has_queue_capacity (m_limits m) (m_slots m)) (queue_ids pending)) in
  if negb room then skip else
  let initial_len := pq_len pending in
  do! drain_loop (S initial_len) ∅ 0 0 in
  let! pending := get_pending in
  if (pq_len pending =? initial_len)%nat then skip
  else if pq_is_empty pending then broadcast_queue_positions
  else modify (set_positions_dirty true).

(** ** Resuming *)

(** [resume_completed]: a completed task is never downloaded again; a torrent
    whose seeding was stopped seeds again, which is not modelled beyond the
    session it needs. *)
Definition resume_completed (id : text) (t : Task) : M bool :=
  if negb (k_status t =? 3) then ret false else
  if (2 <=? k_seeding_status t) && (k_seeding_status t <=? 7) then
    let! session := gets m_bt_session in
    if session then ret true else let! _ := ensure_bt_session in ret true
  else ret true.

Definition resume_task_inner (id : text) : M unit :=
  do! retry_unschedule id in
  let! pause := gets (fun m => m_pauses m !! id) in
  match pause with
  | Some p => modify (fun m => set_pauses (<[id := mk_pause (pp_generation p) (pp_notify p) true]> (m_pauses m)) m)
  | None =>
      let! active := is_active id in
      let! go_on :=
        if active then
          let! resolving := has_pending_resolve id in
          if resolving then ret false else
          let! task := load_task_by_id id in
          match task with
          | Err _ => ret false
          | Ok None => ret false
          | Ok (Some t) => if k_status t =? 4 then do! emit (StaleRemoved id) in do! active_remove id in ret true else ret false
          end
        else ret true in
      if negb go_on then skip else
      let! queued := gets (fun m => is_queued id (pending_queue (m_slots m))) in
      if queued then skip else
      let! task := load_task_by_id id in
      match task with
      | Err _ => skip
      | Ok row =>
          let! completed := match row with Some t => resume_completed id t | None => ret false end in
          if completed then skip else
          let is_bt := match row with Some t => is_bt_url (r_url (k_row t)) | None => false end in
          let queue_id := match row with Some t => r_queue_id (k_row t) | None => [] end in
          let! free := capacity queue_id in
          if is_bt || free then
            do! do_resume_task id in
            do! drain_queue in
            sync_queue_occupancy
          else
            match row with
            | Some t =>
                let! ok := update_task_status id 0 in
                if negb ok then skip else
                do! emit (Progress id 0) in
                do! on_pending (push_back (for_resume id (k_row t))) in
                do! broadcast_queue_positions in
                sync_queue_occupancy
            | None => sync_queue_occupancy
            end
      end
  end.

(** [resume_task], [resume_task_auto] without the retry counters. *)
Definition resume_task (id : text) : M unit := resume_task_inner id.

(** ** Boost *)

Definition persist_boost : M unit :=
  let! priority := gets m_priority in
  let! paused := gets m_auto_paused in
  let! ok := ask in
  when ok (emit (BoostSaved (match priority with Some p => Some (p, paused) | None => None end))).

Definition record_auto_paused (id : text) : M unit :=
  modify (fun m => if decide (id ∈ m_auto_paused m) then m else set_auto_paused (m_auto_paused m ++ [id]) m).

Definition clear_priority : M unit :=
  let! priority := gets m_priority in
  do! modify (set_priority None) in
  let! to_resume := gets m_auto_paused in
  do! modify (set_auto_paused []) in
  do! when (bool_decide (is_Some priority)) persist_boost in
  do! for_each to_resume (fun id =>
    let! task := load_task_by_id id in
    match task with
    | Err _ => skip
    | Ok row =>
        if match row with Some t => k_status t =? 3 | None => false end then skip else resume_task id
    end) in
  do! broadcast_queue_positions in
  emit (PriorityTaskChanged [] 0).

Definition reconcile_priority : M unit :=
  let! priority := gets m_priority in
  match priority with
  | None => skip
  | Some priority =>
      let! active := is_active priority in
      let! resolving := has_pending_resolve priority in
      let! queued := gets (fun m => is_queued priority (pending_queue (m_slots m))) in
      if active || resolving || queued then skip else clear_priority
  end.

Definition end_boost_of (id : text) : M unit :=
  let! priority := gets m_priority in
  when (bool_decide (priority = Some id)) clear_priority.

(** ** Pausing *)

(** [pause_failed_task] without the route bookkeeping. *)
Definition pause_failed_task (id : text) : M bool :=
  let! task := load_task_by_id id in
  match task with
  | Ok (Some t) =>
      if k_status t =? 4 then
        do! retry_unschedule id in
        let! ok := update_task_status id 2 in
        if ok then do! emit_progress_from_db id 2 in ret true else ret false
      else ret false
  | _ => ret false
  end.

(** The branch of an active task.  [BtSession::pause_task] is called whenever
    there is a session. *)
Definition pause_active (id : text) (entry : ActiveTaskEntry) (notify drain_freed_slot : bool) : M unit :=
  do! active_remove id in
  do! emit (CancelToken id (e_generation entry)) in
  do! when (e_handle entry)
    (modify (fun m => set_pauses (<[id := mk_pause (e_generation entry) notify false]> (m_pauses m)) m)) in
  let! session := gets m_bt_session in
  let! paused := if session then ask else ret true in
  if negb paused then drain_queue else
  let! ok := update_task_status id 2 in
  if negb ok then do! drain_queue in sync_queue_occupancy else
  do! when (negb (e_handle entry))
    (do! emit_progress_from_db id 2 in
     let! _ := load_task_by_id id in
     when notify (emit_paused_webhook id)) in
  do! when drain_freed_slot drain_queue in
  do! end_boost_of id in
  sync_queue_occupancy.

(** The branch of a completed torrent that seeds; [false] when the handler ends
    early.  Seeding itself is not modelled. *)
Definition pause_seeding (id : text) : M bool :=
  let! task := load_task_by_id id in
  match task with
  | Ok (Some t) =>
      if (k_status t =? 3) && ((k_seeding_status t =? 1) || (k_seeding_status t =? 8)) then
        let! session := gets m_bt_session in
        let! paused := if session then ask else ret true in
        if negb paused then ret false else
        let! ok := ask in
        if negb ok then ret false else
        do! emit_progress_from_db id 3 in ret true
      else ret true
  | _ => ret true
  end.

Definition pause_task_inner (id : text) (notify drain_freed_slot : bool) : M unit :=
  do! clear_pending_resolve id in
  do! retry_unschedule id in
  let! pause := gets (fun m => m_pauses m !! id) in
  match pause with
  | Some p =>
      do! modify (fun m => set_pauses (<[id := mk_pause (pp_generation p) (pp_notify p || notify) false]> (m_pauses m)) m) in
      sync_queue_occupancy
  | None =>
      let! pos := gets (fun m => position id (pending_queue (m_slots m))) in
      match pos with
      | Some pos =>
          let! ok := update_task_status id 2 in
          if negb ok then sync_queue_occupancy else
          do! on_pending (fun p => snd (pq_remove pos p)) in
          do! broadcast_queue_positions in
          do! emit_progress_from_db id 2 in
          do! when notify (emit_paused_webhook id) in
          sync_queue_occupancy
      | None =>
          let! entry := get_active id in
          let! completed :=
            match entry with
            | Some e =>
                if e_handle e then
                  let! task := load_task_by_id id in
                  ret (match task with Ok (Some t) => k_status t =? 3 | _ => false end)
                else ret false
            | None => ret false
            end in
          if completed then skip else
          match entry with
          | Some e => pause_active id e notify drain_freed_slot
          | None =>
              let! failed := pause_failed_task id in
              if failed then
                do! when notify (emit_paused_webhook id) in
                sync_queue_occupancy
              else
                let! go_on := pause_seeding id in
                if negb go_on then skip else
                do! when notify (emit_paused_webhook id) in
                sync_queue_occupancy
          end
      end
  end.

Definition pause_task (id : text) : M unit := pause_task_inner id true true.
Definition pause_task_silent (id : text) : M unit := pause_task_inner id false true.

(** [finish_pending_pause]: may a resume request that came during the flush be
    served now? *)
Definition finish_pending_pause (id : text) (gen : Z) : M bool :=
  let! pause := gets (fun m => m_pauses m !! id) in
  match pause with
  | None => ret false
  | Some p =>
      if negb (pp_generation p =? gen) then ret false else
      do! modify (fun m => set_pauses (delete id (m_pauses m)) m) in
      let! entry := get_active id in
      if match entry with Some e => negb (e_generation e =? gen) | None => false end then ret false else
      let! task := load_task_by_id id in
      match task with
      | Ok (Some t) =>
          do! when (k_status t =? 2)
            (do! emit (Progress id 2) in when (pp_notify p) (emit (PausedNotice id))) in
          ret (pp_resume_requested p && (0 <=? k_status t) && (k_status t <=? 2))
      | _ => ret false
      end
  end.

(** ** The end of a download *)

Definition get_live (id : text) (gen : Z) : M bool :=
  let! entry := get_active id in
  ret (match entry with Some e => e_generation e =? gen | None => false end).

(** The start of a download asks what to do with an existing file. *)
Definition on_decision_pending (id : text) (gen : Z) : M unit :=
  let! live := get_live id gen in
  if negb live then skip else
  do! on_slots (fun s => set_awaiting (<[id := gen]> (awaiting_decision s)) s) in
  let! task := load_task_by_id id in
  do! match task with
      | Ok (Some t) =>
          if negb (k_status t =? 0) then
            let! ok := update_task_status id 0 in when ok (emit_progress_from_db id 0)
          else skip
      | _ => skip
      end in
  do! drain_queue in
  sync_queue_occupancy.

Inductive FileExistsChoice := Rename | Overwrite | SkipFile | Cancel.

(** [ExistsDecision::from_choice]: is there a decision, or did the user cancel? *)
Definition is_decision (choice : FileExistsChoice) : bool :=
  match choice with Cancel => false | _ => true end.

Definition on_decision_ready (id : text) (gen : Z) (choice : FileExistsChoice) : M unit :=
  let! live := get_live id gen in
  let! awaiting := gets (fun m => is_awaiting_decision (m_slots m) id gen) in
  if negb live || negb awaiting then skip else
  do! on_slots (fun s => set_awaiting (delete id (awaiting_decision s)) s) in
  do! active_remove id in
  do! if is_decision choice then
        let! ok := ask in
        if negb ok then persist_task_failure id else
        let! task := load_task_by_id id in
        match task with
        | Ok (Some t) =>
            do! on_pending (push_front (for_resume id (k_row t))) in broadcast_queue_positions
        | _ => skip
        end
      else
        let! ok := update_task_status id 2 in
        when ok (do! emit_progress_from_db id 2 in emit_paused_webhook id)
      in
  do! drain_queue in
  sync_queue_occupancy.

Inductive TaskDonePhase :=
| Finished
| AwaitingDecision
| DecisionReady (choice : FileExistsChoice).

Record TaskDone := mk_done { d_task_id : text; d_generation : Z; d_phase : TaskDonePhase }.

(** What follows the end of the current generation: a duplicate torrent's row
    is removed; a failure may be tried again, over a spare route or after a
    delay (the policy is the world's); a success ends the retries. *)
Definition after_end (id : text) : M unit :=
  let! task := load_task_by_id id in
  match task with
  | Ok (Some t) =>
      let! duplicate := call w_duplicate in
      if (k_status t =? 4) && duplicate then
        do! retry_unschedule id in
        let! ok := ask in
        do! when ok (modify (fun m => set_rows (delete id (m_rows m)) m)) in
        broadcast_queue_positions
      else
        let! again := call w_retry in
        do! when ((k_status t =? 4) && again) (retry_schedule id (r_queue_id (k_row t))) in
        when (k_status t =? 3) (retry_unschedule id)
  | _ => skip
  end.

(** The wait for an answer ends with the generation, whose slot is freed if it
    is still the task's. *)
Definition release (id : text) (gen : Z) : M bool :=
  let! awaiting := gets (fun m => awaiting_decision (m_slots m) !! id) in
  do! when (bool_decide (awaiting = Some gen))
    (on_slots (fun s => set_awaiting (delete id (awaiting_decision s)) s)) in
  let! generation_matched := get_live id gen in
  do! when generation_matched (active_remove id) in ret generation_matched.

Definition task_finished (id : text) (gen : Z) : M unit :=
  let! generation_matched := release id gen in
  do! when generation_matched (end_boost_of id) in
  let! resume_after_pause := finish_pending_pause id gen in
  do! when resume_after_pause (resume_task_inner id) in
  do! drain_queue in
  do! when generation_matched (after_end id) in
  sync_queue_occupancy.

Definition handle_task_done (done : TaskDone) : M unit :=
  match d_phase done with
  | Finished => task_finished (d_task_id done) (d_generation done)
  | AwaitingDecision => on_decision_pending (d_task_id done) (d_generation done)
  | DecisionReady choice => on_decision_ready (d_task_id done) (d_generation done) choice
  end.

(** [on_task_done]; the removal of expired records is not modelled. *)
Definition on_task_done (done : TaskDone) : M unit :=
  do! handle_task_done done in reconcile_priority.

(** ** The end of a resolution *)

Inductive ResolveKind := Start | Resume.

(** The outcome of a resolution without a manifest: the new link (empty to keep
    the task's own), no change, or an error. *)
Record ResolveOutcome := mk_outcome {
  o_task_id : text; o_generation : Z; o_cancelled : bool; o_kind : ResolveKind;
  o_identity : text; o_result : result (option text) unit }.

Definition set_url (url : text) (q : QueuedTask) : QueuedTask :=
  mk_queued (q_task_id q) url (q_save_dir q) (q_file_name q) (q_segments q) (q_is_resume q)
    (q_hint_file_size q) (q_torrent_file_bytes q) (q_proxy_url q) (q_queue_id q) (q_checksum q)
    (q_resolver_plugin_id q) (q_resolved q) (q_range_supported q) (q_resolver_item q).

(** [apply_resolve_to_queued], for the link. *)
Definition apply_resolve_to_queued (url : text) (q : QueuedTask) : QueuedTask :=
  match url with [] => q | _ => set_url url q end.

Definition remove_resolve (id : text) : M unit :=
  on_slots (fun s => set_resolves (delete id (pending_resolve s)) s).

(** The re-entry of a start whose plugin has answered. *)
Definition reenter_start (id plugin : text) (applied : option text) (q : QueuedTask) : M unit :=
  do! remove_resolve id in
  let! bound := get_column r_resolver id in
  do! match bound with
      | Ok [] =>
          if decide (q_resolver_item q = []) then do_start_task (set_resolver [] true q)
          else do! active_remove id in do_start_task (set_resolver [] (q_resolved q) q)
      | _ =>
          do_start_task (match applied with
                         | Some url => apply_resolve_to_queued url (set_resolver plugin true q)
                         | None => set_resolver plugin true q
                         end)
      end in
  drain_queue.

Definition reenter_resume (id : text) (applied : option text) : M unit :=
  do! remove_resolve id in
  do! active_remove id in
  do! modify (fun m => set_resume_applied (<[id := default [] applied]> (m_resume_applied m)) m) in
  do! do_resume_task id in
  drain_queue.

Definition handle_resolve_ready (out : ResolveOutcome) : M unit :=
  let id := o_task_id out in
  let! pending := gets (fun m => pending_resolve (m_slots m) !! id) in
  if negb (bool_decide (resolve_generation <$> pending = Some (o_generation out))) then
    let! live := get_live id (o_generation out) in
    when live (do! active_remove id in drain_queue)
  else if o_cancelled out then pause_task_silent id
  else
    let! task := load_task_by_id id in
    match task with
    | Ok (Some t) =>
        match o_result out with
        | Ok applied =>
            match o_kind out with
            | Start =>
                match pending with
                | Some (ResolveStart q _) => reenter_start id (o_identity out) applied q
                | _ => remove_resolve id
                end
            | Resume => reenter_resume id applied
            end
        | Err _ =>
            let! _ := get_column r_resolver_item id in
            do! update_task_status id 4 in
            do! emit (Progress id 4) in
            do! remove_resolve id in
            do! active_remove id in
            drain_queue
        end
    | _ =>
        do! remove_resolve id in
        do! active_remove id in
        drain_queue
    end.

Definition on_resolve_ready (out : ResolveOutcome) : M unit :=
  do! handle_resolve_ready out in reconcile_priority.

(** ** New tasks *)

(** [enqueue_persisted_task]; the probe of a queued task's name and size is not
    modelled. *)
Definition enqueue_persisted_task (q : QueuedTask) : M unit :=
  let is_bt := is_magnet (q_url q) || negb (bool_decide (q_torrent_file_bytes q = [])) in
  let! free := capacity (q_queue_id q) in
  if is_bt || free then
    do! do_start_task q in
    do! drain_queue in
    sync_queue_occupancy
  else
    do! mark_queue_occupied (q_queue_id q) in
    do! on_pending (push_back q) in
    let! suppress := gets m_suppress_bulk in
    when (negb suppress) (modify (set_positions_dirty true)).

(** ** Cancelling and deleting *)

Definition unqueue (id : text) : M unit :=
  let! pos := gets (fun m => position id (pending_queue (m_slots m))) in
  match pos with
  | Some pos => do! on_pending (fun p => snd (pq_remove pos p)) in broadcast_queue_positions
  | None => skip
  end.

Definition cancel_task (id : text) : M unit :=
  do! clear_pending_resolve id in
  do! unqueue id in
  let! entry := get_active id in
  let! completed :=
    match entry with
    | Some e =>
        if e_handle e then
          let! task := load_task_by_id id in
          ret (match task with Ok (Some t) => k_status t =? 3 | _ => false end)
        else ret false
    | None => ret false
    end in
  if completed then skip else
  do! match entry with
      | Some e =>
          do! active_remove id in
          do! emit (CancelToken id (e_generation e)) in
          let! session := gets m_bt_session in
          if e_is_bt e && session then let! _ := ask in skip else skip
      | None => skip
      end in
  let! ok := update_task_status id 4 in
  if negb ok then drain_queue else
  let! task := load_task_by_id id in
  match task with
  | Err _ => drain_queue
  | Ok _ => do! emit (Progress id 4) in drain_queue
  end.

(** [delete_task] without the files: their cleaning (and that of the torrent
    session) succeeds, fails early (the session) or fails late (a file). *)
Definition delete_task (id : text) : M unit :=
  do! retry_unschedule id in
  do! clear_pending_resolve id in
  do! unqueue id in
  let! entry := get_active id in
  do! match entry with
      | Some e => do! active_remove id in emit (CancelToken id (e_generation e))
      | None => skip
      end in
  let! task := load_task_by_id id in
  match task with
  | Err _ => drain_queue
  | Ok _ =>
      let! session_ok := ask in
      if negb session_ok then drain_queue else
      let! cleaned := ask in
      if negb cleaned then do! drain_queue in sync_queue_occupancy else
      let! deleted := ask in
      if negb deleted then do! drain_queue in sync_queue_occupancy else
      do! modify (fun m => set_rows (delete id (m_rows m)) m) in
      do! emit (Progress id 4) in
      do! modify (fun m => set_auto_paused (filter (fun i => i <> id) (m_auto_paused m)) m) in
      do! end_boost_of id in
      do! drain_queue in
      sync_queue_occupancy
  end.

(** ** Configuration *)

Definition set_max_concurrent (max : Z) : M unit :=
  do! modify (fun m => set_limits (mk_limits max (queues (m_limits m))) m) in
  drain_queue.

(** [update_queue], for the limit of concurrent tasks. *)
Definition update_queue (queue_id : text) (max : Z) : M unit :=
  let! ok := ask in
  if negb ok then skip else
  do! modify (fun m =>
        match queues (m_limits m) !! queue_id with
        | Some _ => set_limits (mk_limits (max_concurrent (m_limits m)) (<[queue_id := mk_qinfo max]> (queues (m_limits m)))) m
        | None => m
        end) in
  do! send_all_queues in
  drain_queue.

Definition row_set_queue (queue_id : text) (r : TaskRow) : TaskRow :=
  mk_row (r_url r) (r_save_dir r) (r_file_name r) (r_proxy_url r) queue_id (r_checksum r)
    (r_request_method r) (r_resolver r) (r_resolver_item r).

Definition entry_set_queue (queue_id : text) (e : ActiveTaskEntry) : ActiveTaskEntry :=
  mk_active (e_generation e) (e_handle e) (e_is_bt e) queue_id.

Definition LATER_QUEUE_ID : text := lit "later".
Definition is_builtin_queue (queue_id : text) : bool :=
  bool_decide (queue_id = MAIN_QUEUE_ID) || bool_decide (queue_id = LATER_QUEUE_ID).

(** The ledger of the schedules forgets a queue. *)
Definition forget_edges (queue_id : text) : M unit :=
  modify (fun m => set_fired (filter (fun x => x.1.1 <> queue_id) (m_fired m)) m).

Definition delete_queue (queue_id : text) : M unit :=
  if is_builtin_queue queue_id then skip else
  let! ok := ask in
  if negb ok then skip else
  let! moved := gets (fun m => filter (fun p => r_queue_id (snd p) = queue_id) (map_to_list (m_rows m))) in
  do! modify (fun m => set_rows ((fun r => if decide (r_queue_id r = queue_id) then row_set_queue MAIN_QUEUE_ID r else r) <$> m_rows m) m) in
  do! on_slots (fun s => set_active
        ((fun e => if decide (e_queue_id e = queue_id) then entry_set_queue MAIN_QUEUE_ID e else e) <$> active_tasks s) s) in
  do! on_pending (reassign_queue queue_id MAIN_QUEUE_ID) in
  do! modify (fun m => set_limits (mk_limits (max_concurrent (m_limits m)) (delete queue_id (queues (m_limits m)))) m) in
  do! modify (fun m => set_plans (delete queue_id (m_plans m)) m) in
  do! forget_edges queue_id in
  do! for_each moved (fun p => emit (QueueChanged (fst p) MAIN_QUEUE_ID)) in
  do! modify (set_positions_dirty true) in
  do! drain_queue in
  do! flush_queue_positions in
  do! send_tasks_snapshot in
  send_all_queues.

Definition move_task_to_queue (id queue_id : text) : M unit :=
  let queue_id := if decide (queue_id = []) then MAIN_QUEUE_ID else queue_id in
  let! ok := ask in
  if negb ok then skip else
  do! modify (fun m => set_rows (alter (row_set_queue queue_id) id (m_rows m)) m) in
  do! on_slots (fun s => set_active (alter (entry_set_queue queue_id) id (active_tasks s)) s) in
  do! on_pending (fun p => snd (set_task_queue id queue_id p)) in
  do! emit (QueueChanged id queue_id) in
  do! send_all_queues in
  drain_queue.

(** ** Setting the boosted task *)

Definition not_id (id i : text) : bool := negb (bool_decide (i = id)).

Definition active_ids_but (id : text) : M (list text) :=
  let! ids := gets (fun m => map fst (map_to_list (active_tasks (m_slots m)))) in
  let! order := call w_order in
  ret (filter (fun i => not_id id i) (order ids)).

Definition queued_ids_but (id : text) : M (list text) :=
  gets (fun m => filter (fun i => not_id id i) (queued_ids (m_slots m))).

(** Steps 1 to 4 of [set_priority_task]: everything but the target is paused. *)
Definition pause_all_but (id : text) : M (option QueuedTask) :=
  let! pos := gets (fun m => position id (pending_queue (m_slots m))) in
  let! target_queued := gets (fun m => pos ← pos; pq_get (pending_queue (m_slots m)) pos) in
  do! match pos with Some pos => on_pending (fun p => snd (pq_remove pos p)) | None => skip end in
  let! active := active_ids_but id in
  let! queued := queued_ids_but id in
  do! for_each (active ++ queued) record_auto_paused in
  do! for_each active pause_task_silent in
  let! queued := queued_ids_but id in
  do! for_each queued (fun i => do! record_auto_paused i in pause_task_silent i) in
  let! stray := active_ids_but id in
  do! for_each stray (fun i => do! record_auto_paused i in pause_task_silent i) in
  ret target_queued.

(** Step 5 and what follows it. *)
Definition start_target (id : text) (target_queued : option QueuedTask) : M unit :=
  let! active := is_active id in
  do! when (negb active)
    (do! modify (fun m => set_auto_paused (filter (fun i => i <> id) (m_auto_paused m)) m) in
     match target_queued with
     | Some q => if q_is_resume q then do_resume_task id else do_start_task q
     | None => resume_task id
     end) in
  let! active := is_active id in
  if negb active then clear_priority else
  do! persist_boost in
  let! paused := gets m_auto_paused in
  emit (PriorityTaskChanged id (Z.of_nat (length paused))).

Inductive BoostError := NotFound | Completed | Ended | Db.

Definition set_priority_task (id : text) : M (result unit BoostError) :=
  let! priority := gets m_priority in
  if bool_decide (id = []) || bool_decide (priority = Some id) then do! clear_priority in ret (Ok tt) else
  let! task := load_task_by_id id in
  match task with
  | Err _ => ret (Err Db)
  | Ok None => ret (Err NotFound)
  | Ok (Some t) =>
      if k_status t =? 3 then ret (Err Completed) else
      if k_status t =? 4 then ret (Err Ended) else
      do! modify (fun m => set_auto_paused (filter (fun i => i <> id) (m_auto_paused m)) m) in
      do! modify (set_priority None) in
      let! target_queued := pause_all_but id in
      do! modify (set_priority (Some id)) in
      do! start_target id target_queued in
      ret (Ok tt)
  end.

End Handlers.
