(* ===== verification/Batch.v ===== *)
(** * Batch: operations of the download manager on many tasks at once
      ([download_manager.rs], [download_manager/boost.rs])

    Resuming, pausing and deleting a selection, a queue or everything; starting
    and stopping queues, by hand or by their schedules ([Schedule]).  The batch
    handlers write the database once and announce the queue once, so they have
    their own paths through the checks of [Manager]'s single-task handlers.

    Not modelled: seeding (the torrents that seed are given by the world),
    groups, the files a deletion cleans (whether it succeeds is the world's),
    the retry counters, and a queue's name, speed limits and defaults. *)
From Stdlib Require Import Ascii.
From S2P Require Import Prelude Text QueueOrder Schedule PendingQueue Slots Manager.

Section Handlers.
Context (w : World).

(** ** Rows in bulk *)

(** [load_tasks_by_ids], as the map every caller makes of it: a snapshot. *)
Definition load_tasks_by_ids (ids : list text) : M (result (gmap text Task) unit) :=
  fun m =>
    let n := m_calls m in
    (if w_ok w n
     then Ok (map_imap (fun id row => Some (mk_dbtask row (w_status w n id) (w_seeding w n id)))
                (filter (fun x => x.1 ∈ ids) (m_rows m)))
     else Err tt, set_calls (S n) m).

Definition update_tasks_status_batch (ids : list text) (status : Z) : M bool :=
  let! ok := ask w in
  do! when ok (for_each ids (fun id => emit (Status id status))) in ret ok.

(** A query for ids. *)
Definition select_ids : M (option (list text)) :=
  let! ok := ask w in
  let! ids := call w w_select in
  ret (if ok then Some ids else None).

Definition within (ids : list text) (id : text) : bool := bool_decide (id ∈ ids).

(** Ids in the order of a hash map or set. *)
Definition hash_order (ids : list text) : M (list text) := let! order := call w w_order in ret (order ids).

(** ** Resuming *)

(** [resume_task_with_row]: has the task been queued? *)
Definition resume_task_with_row (id : text) (t : Task) : M bool :=
  do! retry_unschedule id in
  let! pause := gets (fun m => m_pauses m !! id) in
  match pause with
  | Some p =>
      do! modify (fun m => set_pauses (<[id := mk_pause (pp_generation p) (pp_notify p) true]> (m_pauses m)) m) in ret false
  | None =>
      let! active := is_active id in
      let! go_on :=
        if active then
          let! resolving := has_pending_resolve id in
          if resolving then ret false
          else if negb (k_status t =? 4) then ret false
          else do! emit (StaleRemoved id) in do! active_remove id in ret true
        else ret true in
      if negb go_on then ret false else
      let! queued := gets (fun m => is_queued id (pending_queue (m_slots m))) in
      if queued then ret false else
      let! completed := resume_completed w id t in
      if completed then ret false else
      let! free := capacity (r_queue_id (k_row t)) in
      if is_bt_url (r_url (k_row t)) || free then
        do! do_resume_task w id in
        do! drain_queue w in ret false
      else do! on_pending (push_back (for_resume id (k_row t))) in ret true
  end.

(** The loop of [batch_resume]: the tasks it queued. *)
Fixpoint resume_rows (tasks : gmap text Task) (ids queued : list text) : M (list text) :=
  match ids with
  | [] => ret queued
  | id :: ids =>
      match tasks !! id with
      | Some t =>
          let! is_queued := resume_task_with_row id t in
          resume_rows tasks ids (if is_queued then queued ++ [id] else queued)
      | None => resume_rows tasks ids queued
      end
  end.

Definition drop_pending (ids : list text) : M unit :=
  on_pending (pq_retain (fun q => negb (within ids (q_task_id q)))).

Definition finish_resume (queued : list text) : M unit :=
  if bool_decide (queued = []) then send_tasks_snapshot w else
  let! ok := update_tasks_status_batch queued 0 in
  do! when (negb ok) (drop_pending queued) in
  do! broadcast_queue_positions in
  send_tasks_snapshot w.

Definition batch_resume (ids : list text) : M unit :=
  if bool_decide (ids = []) then skip else
  let! tasks := load_tasks_by_ids ids in
  match tasks with
  | Err _ => for_each ids (resume_task w)
  | Ok tasks => let! queued := resume_rows tasks ids [] in finish_resume queued
  end.

(** [resume_all_eligible] for downloads; the seeding part is not modelled. *)
Definition resume_all_eligible : M unit :=
  let! ids := select_ids in
  match ids with Some ids => batch_resume ids | None => skip end.

(** ** Pausing *)

Inductive FailedPause := AnyFailed | RetryPending.

Definition release_priority_for_batch : M (list text) :=
  do! modify (set_priority None) in
  let! paused := gets m_auto_paused in
  do! modify (set_auto_paused []) in
  do! persist_boost w in ret paused.

Fixpoint collect_failed (scope : FailedPause) (candidates failed : list text) : M (list text) :=
  match candidates with
  | [] => ret failed
  | id :: candidates =>
      let! scheduled := gets (fun m => bool_decide (is_Some (m_retry_scheduled m !! id))) in
      if match scope with RetryPending => negb scheduled | AnyFailed => false end
      then collect_failed scope candidates failed
      else
        let! task := load_task_by_id w id in
        collect_failed scope candidates
          match task with Ok (Some t) => if k_status t =? 4 then failed ++ [id] else failed | _ => failed end
  end.

Definition pause_failed_batch (candidates : list text) (scope : FailedPause) : M bool :=
  let! failed := collect_failed scope candidates [] in
  if bool_decide (failed = []) then ret false else
  let! ok := update_tasks_status_batch failed 2 in
  if negb ok then ret false else
  do! for_each failed retry_unschedule in ret true.

Definition queue_runs (queue_id : text) : M bool :=
  gets (fun m => default true (is_running <$> m_plans m !! queue_id)).

Definition restore_boost_paused_after_batch (paused ids : list text) : M unit :=
  let candidates := filter (fun id => negb (within ids id)) paused in
  if bool_decide (candidates = []) then skip else
  let! rows := load_tasks_by_ids candidates in
  match rows with
  | Err _ => skip
  | Ok rows =>
      for_each candidates (fun id =>
        match rows !! id with
        | Some t =>
            if k_status t =? 3 then skip else
            let! running := queue_runs (r_queue_id (k_row t)) in
            when running (resume_task w id)
        | None => skip
        end)
  end.

(** The boost is released first when its task is part of the batch. *)
Definition release_boost (ids : list text) : M (option (list text)) :=
  let! priority := gets m_priority in
  if match priority with Some p => within ids p | None => false end
  then let! paused := release_priority_for_batch in ret (Some paused)
  else ret None.

(** The waiting tasks of the batch leave the queue. *)
Definition pause_queued (ids : list text) : M (list text) :=
  let! queued := gets (fun m => filter (fun id => within ids id) (queued_ids (m_slots m))) in
  do! when (negb (bool_decide (queued = [])))
    (do! drop_pending ids in
     do! for_each queued clear_pending_resolve in
     let! _ := update_tasks_status_batch queued 2 in skip) in
  ret queued.

Definition pause_running (ids : list text) : M (list text) :=
  let! active := gets (fun m => map fst (map_to_list (active_tasks (m_slots m)))) in
  let! active := hash_order (filter (fun id => within ids id) active) in
  do! for_each active (pause_task_silent w) in
  ret active.

(** The torrents of the batch that seed. *)
Definition pause_seeds (ids : list text) : M (list text) :=
  let! session := gets m_bt_session in
  let! seeding := if session then call w w_select else ret [] in
  let seeding := filter (fun id => within ids id) seeding in
  do! for_each seeding (pause_task_silent w) in
  ret seeding.

(** The end of a batch: the boosted task's companions, the announcements. *)
Definition finish_pause (released : option (list text)) (restore : bool) (ids queued : list text) (nothing : bool) : M unit :=
  match released with
  | None =>
      if nothing then skip else
      do! when (negb (bool_decide (queued = []))) broadcast_queue_positions in
      send_tasks_snapshot w
  | Some paused =>
      do! when restore (restore_boost_paused_after_batch paused ids) in
      do! broadcast_queue_positions in
      do! emit (PriorityTaskChanged [] 0) in
      do! when (negb (bool_decide (queued = []))) broadcast_queue_positions in
      send_tasks_snapshot w
  end.

Definition batch_pause_impl (ids : list text) (restore : bool) (scope : FailedPause) : M unit :=
  if bool_decide (ids = []) then skip else
  let! released := release_boost ids in
  let! queued := pause_queued ids in
  let! active := pause_running ids in
  let! seeding := pause_seeds ids in
  let! candidates := hash_order (remove_dups ids) in
  let! failed_paused := pause_failed_batch (filter (fun id => negb (within (queued ++ active ++ seeding) id)) candidates) scope in
  finish_pause released restore ids queued
    (bool_decide (queued = []) && bool_decide (active = []) && bool_decide (seeding = []) && negb failed_paused).

Definition batch_pause (ids : list text) : M unit := batch_pause_impl ids true RetryPending.
Definition pause_selected (ids : list text) : M unit := batch_pause_impl ids true AnyFailed.
Definition batch_pause_all (ids : list text) : M unit := batch_pause_impl ids false RetryPending.

(** ** Deleting *)

Definition stop_worker (id : text) : M unit :=
  let! entry := get_active id in
  match entry with
  | Some e => do! active_remove id in emit (CancelToken id (e_generation e))
  | None => skip
  end.

(** The tasks whose cleaning succeeds. *)
Fixpoint cleaned (ids deleted : list text) : M (list text) :=
  match ids with
  | [] => ret deleted
  | id :: ids => let! ok := ask w in cleaned ids (if ok then deleted ++ [id] else deleted)
  end.

Definition delete_rows (ids : list text) (rows : gmap text TaskRow) : gmap text TaskRow :=
  filter (fun x => x.1 ∉ ids) rows.

Definition delete_tasks_batch (ids : list text) : M (result nat unit) :=
  if bool_decide (ids = []) then ret (Ok 0%nat) else
  let! tasks_read := ask w in
  if negb tasks_read then ret (Err tt) else
  let! facts_read := ask w in
  if negb facts_read then ret (Err tt) else
  do! drop_pending ids in
  do! broadcast_queue_positions in
  do! for_each ids stop_worker in
  let! deleted := cleaned ids [] in
  if bool_decide (deleted = []) then do! drain_queue w in do! sync_queue_occupancy in ret (Ok 0%nat) else
  let! committed := ask w in
  if negb committed then do! drain_queue w in do! sync_queue_occupancy in ret (Err tt) else
  do! modify (fun m => set_rows (delete_rows deleted (m_rows m)) m) in
  do! modify (fun m => set_auto_paused (filter (fun id => negb (within deleted id)) (m_auto_paused m)) m) in
  do! for_each deleted retry_unschedule in
  let! priority := gets m_priority in
  do! when (match priority with Some p => within deleted p | None => false end) (clear_priority w) in
  do! emit (TasksDeleted deleted) in
  do! drain_queue w in
  do! sync_queue_occupancy in
  ret (Ok (length deleted)).

(** ** Queues *)

Definition has_queue (queue_id : text) : M bool := gets (fun m => bool_decide (is_Some (m_plans m !! queue_id))).

Definition is_always_running_queue (queue_id : text) : bool := bool_decide (queue_id = MAIN_QUEUE_ID).

Definition set_running (v : bool) (q : QueuePlan) : QueuePlan :=
  mk_plan v (schedule_enabled q) (schedule_start q) (schedule_stop q) (schedule_days q).
Definition set_schedule (enabled : bool) (start stop : text) (days : Z) (q : QueuePlan) : QueuePlan :=
  mk_plan (is_running q) enabled start stop days.

Definition on_plan (queue_id : text) (f : QueuePlan -> QueuePlan) : M unit :=
  modify (fun m => set_plans (alter f queue_id (m_plans m)) m).

(** [create_queue] with its new id. *)
Definition create_queue (queue_id : text) (max : Z) : M unit :=
  let! _ := ask w in
  let! ok := ask w in
  if negb ok then skip else
  do! modify (fun m => set_limits (mk_limits (max_concurrent (m_limits m)) (<[queue_id := mk_qinfo max]> (queues (m_limits m)))) m) in
  do! modify (fun m => set_plans (<[queue_id := mk_plan true false [] [] 127]> (m_plans m)) m) in
  send_all_queues w.

Definition start_queue (queue_id : text) : M unit :=
  let! known := has_queue queue_id in
  if negb known then skip else
  let! ok := ask w in
  if negb ok then skip else
  do! on_plan queue_id (set_running true) in
  let! ids := select_ids in
  do! batch_resume (default [] ids) in
  send_all_queues w.

(** The tasks of a queue that wait, run, or wait to be tried again. *)
Definition tasks_to_stop (queue_id : text) : M (list text) :=
  let! queued := gets (fun m => map q_task_id (filter (fun q => q_queue_id q = queue_id) (pq_items (pending_queue (m_slots m))))) in
  let! active := gets (fun m => map fst (filter (fun x => e_queue_id x.2 = queue_id) (map_to_list (active_tasks (m_slots m))))) in
  let! active := hash_order active in
  let! retrying := gets (fun m => map fst (filter (fun x => x.2 = queue_id) (map_to_list (m_retry_scheduled m)))) in
  let! retrying := hash_order retrying in
  ret (queued ++ active ++ retrying).

Definition stop_queue (queue_id : text) : M unit :=
  let! known := has_queue queue_id in
  if negb known then skip else
  if is_always_running_queue queue_id then skip else
  let! ok := ask w in
  if negb ok then skip else
  do! on_plan queue_id (set_running false) in
  let! to_pause := tasks_to_stop queue_id in
  do! batch_pause to_pause in
  send_all_queues w.

(** Is the time neither empty nor readable? *)
Definition bad_time (s : text) : bool := negb (bool_decide (s = [])) && bool_decide (parse_hhmm s = None).

Definition set_queue_schedule (queue_id : text) (enabled : bool) (start stop : text) (days : Z) : M unit :=
  if is_always_running_queue queue_id then skip else
  if bad_time start || bad_time stop then skip else
  let days := if Z.land days 127 =? 0 then 127 else Z.land days 127 in
  let enabled := enabled && negb (bool_decide (start = []) && bool_decide (stop = [])) in
  let! ok := ask w in
  if negb ok then skip else
  do! on_plan queue_id (set_schedule enabled start stop days) in
  do! forget_edges queue_id in
  send_all_queues w.

Definition carry_out (edge : ScheduleEdge) : M unit :=
  if edge.2 then start_queue edge.1 else stop_queue edge.1.

(** The tick at a day and a minute; the queues come in the order of the map. *)
Definition tick_queue_schedules (today now_min : Z) : M unit :=
  let! plans := gets m_plans in
  let! ids := hash_order (map fst (map_to_list plans)) in
  let! fired := gets m_fired in
  let '(passed, actions) :=
    due_schedule_actions (H := w_calendar w) (omap (fun id => pair id <$> plans !! id) ids) fired today
      (Z.shiftl 1 (weekday (Calendar := w_calendar w) today)) now_min in
  do! modify (fun m => set_fired (record_edges passed (m_fired m)) m) in
  for_each actions carry_out.

End Handlers.
