(* ===== verification/SchedInv.v ===== *)
(** * SchedInv: the handlers of [Manager] are sequences of the moves of [Slots]

    A small Hoare logic for the state monad; assertions speak of the [Core] of
    the manager, the part that scheduling decisions read.  A [quiet] command
    changes nothing of it.  The triples of the handlers keep [sched], "the slots
    were reached by moves and are well formed"; the theorems at the end follow
    from what [Slots] shows of the moves. *)
From Stdlib Require Import Ascii.
From S2P Require Import Prelude Text QueueOrder PendingQueue Slots Manager.

(** ** Triples *)

Record Core := mk_core {
  c_slots : Slots; c_limits : Limits; c_rows : gmap text TaskRow; c_priority : option text;
  c_applied : gmap text text; c_stale : nat }.

(** How often the manager has removed the entry of a failed task whose end is
    still to be reported. *)
Definition is_stale (e : Effect) : bool := match e with StaleRemoved _ => true | _ => false end.

Definition core (m : DownloadManager) : Core := mk_core (m_slots m) (m_limits m) (m_rows m) (m_priority m) (m_resume_applied m)
    (length (List.filter is_stale (m_out m))).

Definition triple {A} (P : Core -> Prop) (c : M A) (Q : A -> Core -> Prop) : Prop :=
  forall m, P (core m) -> Q (fst (c m)) (core (snd (c m))).

Definition quiet {A} (c : M A) : Prop := forall m, core (snd (c m)) = core m.

Lemma triple_ret {A} (P : Core -> Prop) (a : A) (Q : A -> Core -> Prop) :
  (forall k, P k -> Q a k) -> triple P (ret a) Q.
Proof. intros H m Hm. by apply H. Qed.

Lemma triple_bind {A B} P (c : M A) (k : A -> M B) R Q :
  triple P c R -> (forall a, triple (R a) (k a) Q) -> triple P (bind c k) Q.
Proof.
  intros Hc Hk m Hm. unfold bind. specialize (Hc m Hm). destruct (c m) as [a m']. by apply Hk.
Qed.

Lemma triple_and {A} P P' (c : M A) (Q Q' : A -> Core -> Prop) :
  triple P c Q -> triple P' c Q' -> triple (fun k => P k /\ P' k) c (fun a k => Q a k /\ Q' a k).
Proof. intros H H' m [Hm Hm']. split; [by apply H|by apply H']. Qed.

Lemma triple_weaken {A} P P' (c : M A) Q : triple P c Q -> triple (fun k => P k /\ P' k) c Q.
Proof. intros H m [Hm _]. by apply H. Qed.

(** A fact that does not depend on the state. *)
Lemma triple_fact {A} (H : Prop) P (c : M A) Q : (H -> triple P c Q) -> triple (fun k => P k /\ H) c Q.
Proof. intros Hc m [Hm Hf]. by apply Hc. Qed.

(** One command after another. *)
Lemma triple_then {A} P (c : M unit) (k : M A) (R : Core -> Prop) Q :
  triple P c (fun _ => R) -> triple R k Q -> triple P (bind c (fun _ => k)) Q.
Proof. intros Hc Hk. eapply triple_bind; [exact Hc|]. by intros []. Qed.

Lemma triple_conseq {A} P P' (c : M A) Q Q' :
  triple P' c Q' -> (forall k, P k -> P' k) -> (forall a k, Q' a k -> Q a k) -> triple P c Q.
Proof. intros Hc HP HQ m Hm. by apply HQ, Hc, HP. Qed.

Lemma triple_pre {A} P P' (c : M A) Q : triple P' c Q -> (forall k, P k -> P' k) -> triple P c Q.
Proof. intros. by eapply triple_conseq. Qed.

Lemma triple_quiet {A} P (c : M A) : quiet c -> triple P c (fun _ => P).
Proof. intros Hq m Hm. by rewrite Hq. Qed.

Lemma triple_seq_quiet {A B} P (c : M A) (k : A -> M B) Q :
  quiet c -> (forall a, triple P (k a) Q) -> triple P (bind c k) Q.
Proof. intros Hc Hk. eapply triple_bind; [by apply triple_quiet|done]. Qed.

Lemma triple_gets {A} P (f : DownloadManager -> A) (Q : A -> Core -> Prop) :
  (forall m, P (core m) -> Q (f m) (core m)) -> triple P (gets f) Q.
Proof. intros H m Hm. by apply H. Qed.

(** Reading the core. *)
Lemma triple_read {A B} P (f : Core -> A) (k : A -> M B) Q :
  (forall a, triple (fun c => P c /\ f c = a) (k a) Q) -> triple P (bind (gets (fun m => f (core m))) k) Q.
Proof. intros H m Hm. unfold bind, gets. by apply (H (f (core m)) m). Qed.

Lemma triple_when P (b : bool) (c : M unit) (Q : unit -> Core -> Prop) :
  (b = true -> triple P c Q) -> (b = false -> forall k, P k -> Q tt k) -> triple P (when b c) Q.
Proof. intros Hc Hf. destruct b; [by apply Hc|]. apply triple_ret. auto. Qed.

Lemma triple_for_each {A} P (l : list A) (f : A -> M unit) :
  (forall a, a ∈ l -> triple P (f a) (fun _ => P)) -> triple P (for_each l f) (fun _ => P).
Proof.
  induction l as [|a l IH]; intros H; cbn [for_each]; [by apply triple_ret|].
  eapply triple_bind; [apply H; by left|]. intros []. apply IH. intros x Hx. apply H. by right.
Qed.

(** ** Quiet commands *)

Lemma quiet_bind {A B} (c : M A) (k : A -> M B) : quiet c -> (forall a, quiet (k a)) -> quiet (bind c k).
Proof. intros Hc Hk m. unfold bind. specialize (Hc m). destruct (c m) as [a m']. by rewrite Hk. Qed.

Lemma quiet_ret {A} (a : A) : quiet (ret a).
Proof. done. Qed.

Lemma quiet_skip : quiet skip.
Proof. done. Qed.

Lemma quiet_gets {A} (f : DownloadManager -> A) : quiet (gets f).
Proof. done. Qed.

Lemma quiet_modify (f : DownloadManager -> DownloadManager) : (forall m, core (f m) = core m) -> quiet (modify f).
Proof. done. Qed.

Lemma quiet_for_each {A} (l : list A) (f : A -> M unit) : (forall a, quiet (f a)) -> quiet (for_each l f).
Proof. intros H. induction l; [done|]. by apply quiet_bind. Qed.

Lemma quiet_when b c : quiet c -> quiet (when b c).
Proof. by destruct b. Qed.

Create HintDb quiet.
#[export] Hint Resolve quiet_ret quiet_skip quiet_gets quiet_modify quiet_when : quiet.

(** A command is quiet when its parts are. *)
Ltac quiet_tac :=
  repeat first
    [ progress intros
    | solve [auto with quiet nocore]
    | apply quiet_bind
    | apply quiet_for_each
    | apply quiet_when
    | apply quiet_modify; intros; (done || (case_match; done))
    | case_match
    | done ].

Section Quiet.
Context (w : World).

Lemma quiet_emit e : is_stale e = false -> quiet (emit e).
Proof. intros He m. unfold core; cbn. rewrite List.filter_app, length_app; cbn. by rewrite He, Nat.add_0_r. Qed.


#[local] Hint Extern 1 (quiet (emit _)) => apply quiet_emit; reflexivity : quiet.

Lemma quiet_call {A} (f : World -> nat -> A) : quiet (call w f).
Proof. done. Qed.

Lemma quiet_ask : quiet (ask w).
Proof. done. Qed.

Lemma quiet_load id : quiet (load_task_by_id w id).
Proof. done. Qed.

Lemma quiet_column f id : quiet (get_column w f id).
Proof. done. Qed.

#[local] Hint Resolve quiet_call quiet_ask quiet_load quiet_column : quiet.

Lemma quiet_status id st : quiet (update_task_status w id st).
Proof. unfold update_task_status. quiet_tac. Qed.

#[local] Hint Resolve quiet_status : quiet.

Lemma quiet_progress id st : quiet (emit_progress_from_db w id st).
Proof. unfold emit_progress_from_db, skip. quiet_tac. Qed.

#[local] Hint Resolve quiet_progress : quiet.

Lemma quiet_failure id : quiet (persist_task_failure w id).
Proof. unfold persist_task_failure. quiet_tac. Qed.

Lemma quiet_webhook id : quiet (emit_paused_webhook w id).
Proof. unfold emit_paused_webhook, skip. quiet_tac. Qed.

Lemma quiet_queues : quiet (send_all_queues w).
Proof. unfold send_all_queues. quiet_tac. Qed.

Lemma quiet_snapshot : quiet (send_tasks_snapshot w).
Proof. unfold send_tasks_snapshot. quiet_tac. Qed.

Lemma quiet_started queue_id : quiet (emit_queue_started queue_id).
Proof. unfold emit_queue_started. quiet_tac. Qed.

#[local] Hint Resolve quiet_failure quiet_webhook quiet_queues quiet_snapshot quiet_started : quiet.

Lemma quiet_broadcast : quiet broadcast_queue_positions.
Proof. unfold broadcast_queue_positions, skip. quiet_tac. Qed.

#[local] Hint Resolve quiet_broadcast : quiet.

Lemma quiet_flush : quiet flush_queue_positions.
Proof. unfold flush_queue_positions. quiet_tac. Qed.

Lemma quiet_occupied queue_id : quiet (mark_queue_occupied queue_id).
Proof. unfold mark_queue_occupied, skip. quiet_tac. Qed.

Lemma quiet_sync : quiet sync_queue_occupancy.
Proof. unfold sync_queue_occupancy. quiet_tac. Qed.

Lemma quiet_schedule id queue_id : quiet (retry_schedule id queue_id).
Proof. done. Qed.

Lemma quiet_unschedule id : quiet (retry_unschedule id).
Proof. done. Qed.

Lemma quiet_bt_session : quiet (ensure_bt_session w).
Proof. unfold ensure_bt_session. quiet_tac. Qed.

#[local] Hint Resolve quiet_flush quiet_occupied quiet_sync quiet_schedule quiet_unschedule quiet_bt_session : quiet.

Lemma quiet_park id : quiet (park_bt_disabled_task w id).
Proof. unfold park_bt_disabled_task, skip. quiet_tac. Qed.

Lemma quiet_resolving id : quiet (mark_resolving w id).
Proof. unfold mark_resolving. quiet_tac. Qed.

Lemma quiet_rebind id : quiet (rebind_second_stage w id).
Proof. unfold rebind_second_stage. quiet_tac. Qed.

Lemma quiet_unavailable id : quiet (fail_second_stage_unavailable w id).
Proof. apply quiet_failure. Qed.

Lemma quiet_completed id t : quiet (resume_completed w id t).
Proof. unfold resume_completed. quiet_tac. Qed.

Lemma quiet_boost : quiet (persist_boost w).
Proof. unfold persist_boost. quiet_tac. Qed.

Lemma quiet_record id : quiet (record_auto_paused id).
Proof. intros m. unfold record_auto_paused, modify; cbn. by case_decide. Qed.

Lemma quiet_pause_failed id : quiet (pause_failed_task w id).
Proof. unfold pause_failed_task. quiet_tac. Qed.

Lemma quiet_pause_seeding id : quiet (pause_seeding w id).
Proof. unfold pause_seeding. quiet_tac. Qed.

Lemma quiet_finish_pause id gen : quiet (finish_pending_pause w id gen).
Proof. unfold finish_pending_pause, get_active. quiet_tac. Qed.

Lemma quiet_forget queue_id : quiet (forget_edges queue_id).
Proof. done. Qed.

Lemma quiet_live id gen : quiet (get_live id gen).
Proof. unfold get_live, get_active. quiet_tac. Qed.
End Quiet.

#[export] Hint Extern 1 (quiet (emit _)) => apply quiet_emit; reflexivity : quiet.
#[export] Hint Resolve quiet_call quiet_ask quiet_load quiet_column quiet_status quiet_progress
  quiet_failure quiet_webhook quiet_queues quiet_snapshot quiet_started quiet_broadcast quiet_flush quiet_occupied quiet_sync quiet_schedule
  quiet_unschedule quiet_bt_session quiet_park quiet_resolving quiet_rebind quiet_unavailable quiet_completed quiet_boost
  quiet_record quiet_pause_failed quiet_pause_seeding quiet_finish_pause quiet_forget quiet_live : quiet.

(** ** Sequences of moves *)

(** A queued resumption waits in the queue its row names. *)
Definition linked (rows : gmap text TaskRow) (p : PendingQueue) : Prop :=
  forall q r, q ∈ pq_items p -> q_is_resume q = true -> rows !! q_task_id q = Some r -> r_queue_id r = q_queue_id q.

(** What holds between the operations: the slots are well formed, the queue
    agrees with the rows, no answer of a plugin is left over. *)
Definition core_ok (k : Core) : Prop :=
  slots_ok (c_slots k) /\ linked (c_rows k) (pending_queue (c_slots k)) /\ c_applied k = ∅.

(** Reached by moves from [k0], whose limits still hold. *)
Definition sched (b : bool) (k0 k : Core) : Prop :=
  core_ok k /\ c_limits k = c_limits k0 /\ moves b (c_limits k0) (c_slots k0) (c_slots k) /\ (c_stale k0 <= c_stale k)%nat.

(** The task may take a slot. *)
Definition may_start (b : bool) (id : text) (is_bt : bool) (queue_id : text) (k : Core) : Prop :=
  (id ∉ queued_ids (c_slots k)) /\ pending_resolve (c_slots k) !! id = None /\
  (b = true \/ is_bt = true \/ slot_free (c_limits k) (c_slots k) queue_id = true).

Definition no_resolve (id : text) (k : Core) : Prop := pending_resolve (c_slots k) !! id = None.

Lemma sched_ok b k0 k : sched b k0 k -> slots_ok (c_slots k).
Proof. by intros [[H _] _]. Qed.

Lemma sched_move b k0 k k' :
  sched b k0 k -> move b (c_limits k) (c_slots k) (c_slots k') -> c_limits k' = c_limits k ->
  linked (c_rows k') (pending_queue (c_slots k')) -> c_applied k' = c_applied k -> (c_stale k <= c_stale k')%nat -> sched b k0 k'.
Proof.
  intros ((H1 & H2 & H3) & H4 & H5 & H6) Hm Hl Hk Ha Hst. rewrite H4 in *. split_and!; [|done|by eapply rtc_r|lia].
  split_and!; [by eapply move_ok|done|congruence].
Qed.

Lemma sched_refl b k : core_ok k -> sched b k k.
Proof. intros Hk. split_and!; [done|done|apply rtc_refl|done]. Qed.

Lemma triple_on_slots P (f : Slots -> Slots) (Q : unit -> Core -> Prop) :
  (forall k, P k -> Q tt (mk_core (f (c_slots k)) (c_limits k) (c_rows k) (c_priority k) (c_applied k) (c_stale k))) -> triple P (on_slots f) Q.
Proof. intros H m Hm. by apply (H (core m)). Qed.

(** A move that leaves the queue alone. *)
Lemma triple_move b k0 (P : Core -> Prop) (f : Slots -> Slots) :
  (forall k, P k -> move b (c_limits k) (c_slots k) (f (c_slots k))) ->
  (forall s, pending_queue (f s) = pending_queue s) ->
  triple (fun k => sched b k0 k /\ P k) (on_slots f) (fun _ => sched b k0).
Proof.
  intros H Hp. apply triple_on_slots. intros k [Hs HP]. eapply sched_move; [done|by apply H|done| |done|done].
  cbn. rewrite Hp. apply Hs.
Qed.

Lemma triple_stop b k0 id :
  triple (fun k => sched b k0 k /\ no_resolve id k) (active_remove id) (fun _ => sched b k0).
Proof. apply triple_move; [|done]. intros k Hr. by apply move_stop. Qed.

Lemma triple_spawn b k0 id gen :
  triple (fun k => sched b k0 k /\ no_resolve id k) (spawn_worker id gen) (fun _ => sched b k0).
Proof.
  apply triple_seq_quiet; [auto with quiet|]. intros [].
  apply (triple_read _ (fun k => active_tasks (c_slots k) !! id)). intros [e|].
  - apply (triple_pre _ (fun k => sched b k0 k /\ no_resolve id k /\ active_tasks (c_slots k) !! id = Some e)); [|naive_solver].
    apply triple_move; [|done]. intros k [Hr He]. by apply move_spawned.
  - apply triple_ret. naive_solver.
Qed.

(** Drawing a generation and taking the slot. *)
Lemma triple_generation b k0 id is_bt queue_id :
  triple (fun k => sched b k0 k /\ may_start b id is_bt queue_id k) next_generation
    (fun gen k => sched b k0 k /\ may_start b id is_bt queue_id k /\ fresh_generation (c_slots k) /\ gen = generation (c_slots k)).
Proof.
  intros m [Hs Hm]. cbn. split_and!; [|exact Hm| |done].
  - eapply sched_move; [done|apply move_generation|done|apply Hs|done|done].
  - intros i e He. cbn in *. pose proof (ok_active_gen _ (sched_ok _ _ _ Hs) i e He). cbn in *. lia.
Qed.

Lemma triple_claim b k0 id is_bt queue_id gen :
  triple (fun k => sched b k0 k /\ may_start b id is_bt queue_id k /\ fresh_generation (c_slots k) /\ gen = generation (c_slots k))
    (active_insert id (mk_active gen false is_bt queue_id))
    (fun _ k => sched b k0 k /\ no_resolve id k /\ active_tasks (c_slots k) !! id = Some (mk_active gen false is_bt queue_id)).
Proof.
  intros m (Hs & (Hq & Hr & Hb) & Hf & ->). cbn. split_and!; [|done|by rewrite lookup_insert_eq].
  eapply sched_move; [done| |done|apply Hs|done|done]. by apply move_start.
Qed.

Lemma triple_resolving b k0 id e p :
  e_generation e = resolve_generation p -> e_handle e = false -> (forall q g, p = ResolveStart q g -> q_task_id q = id) ->
  triple (fun k => sched b k0 k /\ active_tasks (c_slots k) !! id = Some e)
    (on_slots (fun s => set_resolves (<[id := p]> (pending_resolve s)) s)) (fun _ => sched b k0).
Proof. intros Hg Hh Hq. apply triple_move; [|done]. intros k He. by eapply move_resolving. Qed.

(** Walks over quiet commands, reads and tests. *)
Ltac triple_skip := apply triple_seq_quiet; [solve [auto with quiet | quiet_tac]|intros].

(** Splits on the test at the head of the command. *)
Ltac triple_case :=
  match goal with
  | |- triple _ (if ?x then _ else _) _ => destruct x eqn:?
  | |- triple _ (match ?x with _ => _ end) _ => destruct x eqn:?
  end.

Section Triples.
Context (w : World) (b : bool) (k0 : Core).

Lemma triple_begin_resolve id queue_id is_bt (pending : Z -> PendingResolve) :
  (forall gen, resolve_generation (pending gen) = gen) ->
  (forall gen q g, pending gen = ResolveStart q g -> q_task_id q = id) ->
  triple (fun k => sched b k0 k /\ may_start b id is_bt queue_id k) (begin_resolve w id queue_id is_bt pending)
    (fun _ => sched b k0).
Proof.
  intros Hg Hq. unfold begin_resolve. eapply triple_bind; [apply triple_generation|]. intros gen.
  eapply triple_bind; [apply triple_claim|]. intros []. eapply triple_bind.
  - eapply triple_pre; [apply (triple_resolving b k0 id (mk_active gen false is_bt queue_id) (pending gen))|]; [by rewrite Hg|done|eauto|naive_solver].
  - intros []. apply triple_quiet. quiet_tac.
Qed.

Definition use_bt (q : QueuedTask) : bool :=
  is_magnet (q_url q) || negb (bool_decide (q_torrent_file_bytes q = [])) || is_torrent_file_url (q_url q).

Lemma triple_begin_resolve_start q :
  triple (fun k => sched b k0 k /\ may_start b (q_task_id q) (use_bt q) (q_queue_id q) k) (begin_resolve_start w q) (fun _ => sched b k0).
Proof. apply triple_begin_resolve; [done|]. by intros gen q' g [= <- <-]. Qed.

Lemma triple_launch q :
  triple (fun k => sched b k0 k /\ may_start b (q_task_id q) (use_bt q) (q_queue_id q) k) (launch w q) (fun _ => sched b k0).
Proof.
  unfold launch. triple_skip. eapply triple_bind; [apply triple_generation|]. intros gen.
  eapply triple_bind; [apply triple_claim|]. intros []. fold (use_bt q). 
  apply (triple_pre _ (fun k => sched b k0 k /\ no_resolve (q_task_id q) k)); [|naive_solver].
  destruct (use_bt q); [|apply triple_spawn]. triple_skip. case_match.
  - triple_skip. triple_skip. apply triple_stop.
  - triple_skip. case_match; [triple_skip; apply triple_stop|apply triple_spawn].
Qed.

Lemma triple_do_start q :
  triple (fun k => sched b k0 k /\ may_start b (q_task_id q) (use_bt q) (q_queue_id q) k) (do_start_task w q) (fun _ => sched b k0).
Proof.
  assert (forall (c : M unit), quiet c -> triple (fun k => sched b k0 k /\ may_start b (q_task_id q) (use_bt q) (q_queue_id q) k) c (fun _ => sched b k0)) as Hquiet.
  { intros c Hc. eapply triple_conseq; [by apply triple_quiet|intros k Hk; exact Hk|]. by intros ? ? []. }
  unfold do_start_task. case_match; [|apply triple_launch]. triple_skip.
  repeat case_match; try solve [apply Hquiet; auto with quiet | apply triple_begin_resolve_start | apply triple_launch].
  - triple_skip. case_match; [|apply Hquiet; auto with quiet].
    by apply (triple_begin_resolve_start (set_resolver _ (q_resolved q) q)).
  - apply (triple_launch (set_resolver [] (q_resolved q) q)).
  - by apply (triple_begin_resolve_start (set_resolver (_ :: _) (q_resolved q) q)).
Qed.

(** What a resumption needs: the task's row says whether a slot is needed. *)
Definition may_resume (id : text) (k : Core) : Prop :=
  (id ∉ queued_ids (c_slots k)) /\ pending_resolve (c_slots k) !! id = None /\
  (b = true \/ forall r, c_rows k !! id = Some r ->
     is_bt_url (r_url r) = true \/ slot_free (c_limits k) (c_slots k) (r_queue_id r) = true).

Lemma may_resume_start id r k :
  may_resume id k -> c_rows k !! id = Some r -> may_start b id (is_bt_url (r_url r)) (r_queue_id r) k.
Proof. intros (H1 & H2 & H3) Hr. split_and!; [done|done|]. destruct H3 as [H3|H3]; [by left|right; by apply H3]. Qed.

Lemma may_start_bypass id bt bt' queue_id queue_id' k :
  b = true -> may_start b id bt queue_id k -> may_start b id bt' queue_id' k.
Proof. intros Hb (H1 & H2 & _). split_and!; [done|done|by left]. Qed.

(** Loading a task: its row is the stored one. *)
Lemma triple_load {B} P id (f : result (option Task) unit -> M B) Q :
  triple P (f (Err tt)) Q ->
  triple (fun k => P k /\ c_rows k !! id = None) (f (Ok None)) Q ->
  (forall t, triple (fun k => P k /\ c_rows k !! id = Some (k_row t)) (f (Ok (Some t))) Q) ->
  triple P (bind (load_task_by_id w id) f) Q.
Proof.
  intros He Hn Hs m Hm. unfold bind, load_task_by_id. cbn. destruct (w_ok w (m_calls m)).
  - destruct (m_rows m !! id) as [r|] eqn:Hr; cbn.
    + by apply (Hs (mk_dbtask r _ _) (set_calls (S (m_calls m)) m)).
    + by apply (Hn (set_calls (S (m_calls m)) m)).
  - by apply (He (set_calls (S (m_calls m)) m)).
Qed.

Lemma triple_quiet_end {A} (P : Core -> Prop) (c : M A) :
  quiet c -> (forall k, P k -> sched b k0 k) -> triple P c (fun _ => sched b k0).
Proof. intros Hc HP. eapply triple_conseq; [by apply triple_quiet|exact HP|done]. Qed.

Lemma triple_begin_resolve_resume id plugin :
  triple (fun k => sched b k0 k /\ may_resume id k) (begin_resolve_resume w id plugin) (fun _ => sched b k0).
Proof.
  unfold begin_resolve_resume. apply triple_load.
  - apply triple_quiet_end; [quiet_tac|by intros k []].
  - apply triple_quiet_end; [quiet_tac|by intros k [[]]].
  - intros t. do 4 (triple_skip; case_match; [apply triple_quiet_end; [quiet_tac|by intros k [[]]]|]).
    eapply triple_pre; [by apply triple_begin_resolve|]. intros k [[Hs Hm] Hr]. split; [done|by apply may_resume_start].
Qed.

Lemma triple_relaunch id applied :
  (applied <> None -> b = true) ->
  triple (fun k => sched b k0 k /\ may_resume id k) (relaunch w id applied) (fun _ => sched b k0).
Proof.
  intros Happ. unfold relaunch. apply triple_load.
  - apply triple_quiet_end; [quiet_tac|by intros k []].
  - apply triple_quiet_end; [quiet_tac|by intros k [[]]].
  - intros t. set (url := match applied with Some (c :: s) => c :: s | _ => r_url (k_row t) end).
    triple_skip. case_match; [apply triple_quiet_end; [quiet_tac|by intros k [[]]]|].
    eapply triple_bind.
    { eapply triple_pre; [apply (triple_generation b k0 id (is_bt_url url) (r_queue_id (k_row t)))|]. intros k [[Hs Hm] Hr].
      split; [done|]. pose proof (may_resume_start _ _ _ Hm Hr) as H1. destruct applied as [s|]; [|done].
      eapply may_start_bypass; [by apply Happ|exact H1]. }
    intros gen. triple_skip. case_match; [apply triple_quiet_end; [auto with quiet|by intros k []]|].
    eapply triple_bind; [apply triple_claim|]. intros [].
    apply (triple_pre _ (fun k => sched b k0 k /\ no_resolve id k)); [|naive_solver].
    destruct (is_bt_url url); [|apply triple_spawn]. triple_skip. case_match; [do 2 triple_skip; apply triple_stop|].
    triple_skip. case_match; [apply triple_stop|]. triple_skip. case_match; [triple_skip; apply triple_stop|apply triple_spawn].
Qed.

(** The state without the plugin's answer for the task. *)
Definition drop_applied (id : text) (k : Core) : Core :=
  mk_core (c_slots k) (c_limits k) (c_rows k) (c_priority k) (delete id (c_applied k)) (c_stale k).

Lemma triple_do_resume id :
  triple (fun k => sched b k0 (drop_applied id k) /\ may_resume id k /\ (b = true \/ c_applied k !! id = None))
    (do_resume_task w id) (fun _ => sched b k0).
Proof.
  unfold do_resume_task. triple_skip. apply (triple_read _ (fun k => c_applied k !! id)). intros reentered.
  eapply triple_bind with (R := fun _ k => (sched b k0 k /\ may_resume id k) /\ (reentered <> None -> b = true)).
  { intros m [(Hs & Hm & Hb) <-]. cbn. split; [done|]. by destruct Hb. }
  intros []. destruct (decide (reentered <> None -> b = true)) as [Hre|Hre]; [|by intros m [_ ?]].
  apply (triple_pre _ (fun k => sched b k0 k /\ may_resume id k)); [|naive_solver].
  assert (triple (fun k => sched b k0 k /\ may_resume id k)
    (let! item := get_column w r_resolver_item id in
     if match item with Ok [] => false | _ => true end
     then let! plugin := rebind_second_stage w id in
       match plugin with
       | Some plugin => begin_resolve_resume w id plugin
       | None => fail_second_stage_unavailable w id
       end
     else relaunch w id None) (fun _ => sched b k0)) as Hunbound.
  { triple_skip. triple_case; [|by apply triple_relaunch]. triple_skip.
    triple_case; [apply triple_begin_resolve_resume|apply triple_quiet_end; [auto with quiet|by intros k []]]. }
  destruct a as [[|c plugin]|]; [done| |done]. destruct reentered; [by apply triple_relaunch; auto|apply triple_begin_resolve_resume].
Qed.
End Triples.
