(* ===== verification/Drain.v ===== *)
(** * Drain: what [drain_queue] of [Manager] does

    The loop of the code skips blocked queues and stops early by counting; the
    reference [drain_ref] goes through the waiting tasks once, in order, and
    starts each one that has a free slot at its turn.  [drain_queue_spec] shows
    that they are the same computation; everything else about draining is
    shown of the reference. *)
From Stdlib Require Import Ascii.
From S2P Require Import Prelude Text QueueOrder PendingQueue Slots Manager SchedInv.

(** ** Starting a task concerns that task only *)

Record only (id : text) (k k' : Core) : Prop := mk_only {
  only_limits : c_limits k' = c_limits k;
  only_rows : c_rows k' = c_rows k;
  only_priority : c_priority k' = c_priority k;
  only_stale : c_stale k' = c_stale k;
  only_pending : pending_queue (c_slots k') = pending_queue (c_slots k);
  only_awaiting : awaiting_decision (c_slots k') = awaiting_decision (c_slots k);
  only_active : delete id (active_tasks (c_slots k')) = delete id (active_tasks (c_slots k)) }.

Lemma only_refl id k : only id k k.
Proof. done. Qed.

Lemma only_trans id k1 k2 k3 : only id k1 k2 -> only id k2 k3 -> only id k1 k3.
Proof. intros [] []. constructor; congruence. Qed.

Definition confined {A} (id : text) (c : M A) : Prop := forall m, only id (core m) (core (snd (c m))).

Lemma confined_quiet {A} id (c : M A) : quiet c -> confined id c.
Proof. intros Hq m. rewrite Hq. apply only_refl. Qed.

Lemma confined_bind {A B} id (c : M A) (k : A -> M B) : confined id c -> (forall a, confined id (k a)) -> confined id (bind c k).
Proof.
  intros Hc Hk m. unfold bind. specialize (Hc m). destruct (c m) as [a m']. eapply only_trans; [exact Hc|apply Hk].
Qed.

Lemma confined_insert id e : confined id (active_insert id e).
Proof. intros m. constructor; try done. cbn. by rewrite delete_insert_eq. Qed.

Lemma confined_remove id : confined id (active_remove id).
Proof. intros m. constructor; try done. cbn. by rewrite delete_delete_eq. Qed.

Lemma confined_resolves id f : confined id (on_slots (fun s => set_resolves (f s) s)).
Proof. intros m. by constructor. Qed.

Lemma confined_generation id : confined id next_generation.
Proof. intros m. by constructor. Qed.

Lemma confined_applied id f : confined id (modify (fun m => set_resume_applied (f m) m)).
Proof. intros m. by constructor. Qed.

Create HintDb confined.
#[export] Hint Resolve confined_insert confined_remove confined_resolves confined_generation confined_applied : confined.

Ltac confined_tac :=
  repeat first
    [ progress intros
    | solve [auto with confined nocore]
    | solve [apply confined_quiet; auto with quiet nocore]
    | apply confined_bind
    | case_match ].

Section Starting.
Context (w : World).

Lemma confined_spawn id gen : confined id (spawn_worker id gen).
Proof. unfold spawn_worker, get_active, skip. confined_tac. Qed.

Lemma confined_begin_resolve id queue_id is_bt p : confined id (begin_resolve w id queue_id is_bt p).
Proof. unfold begin_resolve. confined_tac. Qed.

#[local] Hint Resolve confined_spawn confined_begin_resolve : confined.

Lemma confined_launch q : confined (q_task_id q) (launch w q).
Proof. unfold launch. confined_tac. Qed.

Lemma confined_begin_start q : confined (q_task_id q) (begin_resolve_start w q).
Proof. apply confined_begin_resolve. Qed.

Lemma confined_begin_resume id plugin : confined id (begin_resolve_resume w id plugin).
Proof. unfold begin_resolve_resume, skip. confined_tac. Qed.

#[local] Hint Resolve confined_launch confined_begin_start confined_begin_resume : confined.

Lemma confined_relaunch id applied : confined id (relaunch w id applied).
Proof. unfold relaunch, skip. confined_tac. Qed.

#[local] Hint Resolve confined_relaunch : confined.

Lemma confined_start q : confined (q_task_id q) (do_start_task w q).
Proof. unfold do_start_task. confined_tac. Qed.

Lemma confined_resume id : confined id (do_resume_task w id).
Proof. unfold do_resume_task. confined_tac. Qed.

(** A waiting task is started as it was queued. *)
Definition start_item (q : QueuedTask) : M unit :=
  if q_is_resume q then do_resume_task w (q_task_id q) else do_start_task w q.

Lemma confined_start_item q : confined (q_task_id q) (start_item q).
Proof. unfold start_item. case_match; [apply confined_resume|apply confined_start]. Qed.
End Starting.

(** A task that was not active leaves at least as many slots in use. *)
Lemma only_used id k k' o :
  only id k k' -> active_tasks (c_slots k) !! id = None -> used (c_slots k) o <= used (c_slots k') o.
Proof.
  intros Ho Hid. rewrite (used_change (c_slots k) (c_slots k') o id (only_active _ _ _ Ho)) by (by rewrite (only_awaiting _ _ _ Ho)).
  rewrite Hid. cbn [weight]. pose proof (weight_bounds (slot_test (c_slots k') o) id (active_tasks (c_slots k') !! id)). lia.
Qed.

(** ** The slots only fill up *)

Definition fuller (k k' : Core) : Prop :=
  c_limits k' = c_limits k /\ forall o, used (c_slots k) o <= used (c_slots k') o.

Lemma slot_free_fuller k k' queue_id :
  fuller k k' -> slot_free (c_limits k') (c_slots k') queue_id = true -> slot_free (c_limits k) (c_slots k) queue_id = true.
Proof.
  intros [Hl Hu]. unfold slot_free. rewrite Hl, !andb_true_iff, !has_capacity_spec, !has_queue_capacity_spec.
  intros [H1 H2]. split; intros limit Hlim; [specialize (Hu None)|specialize (Hu (Some queue_id))].
  - specialize (H1 limit Hlim). lia.
  - specialize (H2 limit Hlim). lia.
Qed.

(** ** The reference *)

Definition unqueue_item (id : text) (p : PendingQueue) : PendingQueue :=
  match position id p with Some i => snd (pq_remove i p) | None => p end.

Section Reference.
Context (w : World).

Fixpoint drain_ref (items : list QueuedTask) : M unit :=
  match items with
  | [] => skip
  | q :: items =>
      let! free := capacity (q_queue_id q) in
      do! when free (do! on_pending (unqueue_item (q_task_id q)) in start_item w q) in
      drain_ref items
  end.
End Reference.

(** ** Taking an item out of the queue and starting it *)

Lemma sched_drop b k0 id k : sched b k0 k -> sched b k0 (drop_applied id k) /\ (b = true \/ c_applied k !! id = None).
Proof.
  intros ((H1 & H2 & H3) & H4 & H5). split; [|right; by rewrite H3, lookup_empty].
  split; [|done]. split_and!; [done|done|]. cbn. by rewrite H3, delete_empty.
Qed.

Lemma queued_not_resolving s id : slots_ok s -> id ∈ queued_ids s -> pending_resolve s !! id = None.
Proof.
  intros Hs Hid. destruct (pending_resolve s !! id) as [p|] eqn:E; [|done].
  destruct (ok_resolve s Hs id p E) as (e & He & _). rewrite (ok_disjoint s Hs id Hid) in He. done.
Qed.

Lemma delete_ids i (p : PendingQueue) q :
  pq_items p !! i = Some q -> NoDup (map q_task_id (pq_items p)) -> q_task_id q ∉ map q_task_id (delete i (pq_items p)).
Proof.
  intros Hi Hn. rewrite (delete_Permutation _ _ _ Hi) in Hn. cbn [map] in Hn. by apply NoDup_cons in Hn as [? _].
Qed.

Lemma pq_remove_items i p q : pq_items p !! i = Some q -> pq_items (snd (pq_remove i p)) = delete i (pq_items p).
Proof. intros Hi. unfold pq_remove. by rewrite Hi. Qed.

Lemma linked_sub rows p p' : linked rows p -> (forall q, q ∈ pq_items p' -> q ∈ pq_items p) -> linked rows p'.
Proof. intros Hl Hs q r Hq. by apply Hl, Hs. Qed.

Lemma sched_unqueue b k0 k p :
  sched b k0 k -> pq_ok p -> pq_items p `sublist_of` pq_items (pending_queue (c_slots k)) ->
  sched b k0 (mk_core (set_pending p (c_slots k)) (c_limits k) (c_rows k) (c_priority k) (c_applied k) (c_stale k)).
Proof.
  intros Hs Hp Hsub. eapply sched_move; [done|by apply move_unqueue|done| |done|done].
  cbn. eapply linked_sub; [apply Hs|]. intros q Hq. by eapply elem_of_sublist.
Qed.

Section DrainStep.
Context (w : World) (b : bool) (k0 : Core).

Lemma triple_take i q :
  triple (fun k => sched b k0 k /\ pq_items (pending_queue (c_slots k)) !! i = Some q /\
            slot_free (c_limits k) (c_slots k) (q_queue_id q) = true)
    (do! on_pending (fun p => snd (pq_remove i p)) in start_item w q) (fun _ => sched b k0).
Proof.
  eapply triple_bind with (R := fun _ k => sched b k0 k /\ may_start b (q_task_id q) false (q_queue_id q) k /\
    (q_is_resume q = true -> may_resume b (q_task_id q) k)).
  - apply triple_on_slots. intros k (Hs & Hi & Hf). pose proof (sched_ok _ _ _ Hs) as Hok.
    set (p := snd (pq_remove i (pending_queue (c_slots k)))).
    assert (pq_items p = delete i (pq_items (pending_queue (c_slots k)))) as Hp by (by apply (pq_remove_items i _ q)).
    assert (q_task_id q ∈ queued_ids (c_slots k)) as Hin.
    { apply list_elem_of_fmap. exists q. split; [done|by eapply list_elem_of_lookup_2]. }
    assert (q_task_id q ∉ map q_task_id (pq_items p)) as Hout by (rewrite Hp; apply (delete_ids i _ q Hi), Hok).
    pose proof (queued_not_resolving _ _ Hok Hin) as Hr. split_and!.
    + apply sched_unqueue; [done|by apply pq_remove_ok, Hok|]. rewrite Hp. apply sublist_delete.
    + split_and!; [done|done|]. by right; right.
    + intros Hres. split_and!; [done|done|]. right. cbn. intros r Hrow. right.
      destruct Hs as ((_ & Hlink & _) & _). rewrite (Hlink q r) by (done || by eapply list_elem_of_lookup_2). done.
  - intros []. unfold start_item. destruct (q_is_resume q).
    + eapply triple_pre; [apply triple_do_resume|]. intros k (Hs & _ & Hm). pose proof (sched_drop b k0 (q_task_id q) k Hs). naive_solver.
    + eapply triple_pre; [apply triple_do_start|]. intros k (Hs & (H1 & H2 & H3) & _). split; [done|]. split_and!; [done|done|]. naive_solver.
Qed.
End DrainStep.

Lemma position_unique p i q :
  pq_items p !! i = Some q -> NoDup (map q_task_id (pq_items p)) -> position (q_task_id q) p = Some i.
Proof.
  intros Hi Hn. destruct (position (q_task_id q) p) as [j|] eqn:E.
  - apply position_lookup in E as (q' & Hj & Hid). f_equal. apply (NoDup_lookup _ j i (q_task_id q) Hn); rewrite list_lookup_fmap.
    + rewrite Hj. cbn. by rewrite Hid.
    + by rewrite Hi.
  - apply position_None in E. destruct E. apply list_elem_of_fmap. exists q. split; [done|by eapply list_elem_of_lookup_2].
Qed.

(** ** The loop is the reference *)

(** What one round that starts a task leaves behind. *)
Lemma take_effect w i q m :
  core_ok (core m) -> pq_items (pending_queue (m_slots m)) !! i = Some q ->
  slot_free (m_limits m) (m_slots m) (q_queue_id q) = true ->
  let m' := snd ((do! on_pending (fun p => snd (pq_remove i p)) in start_item w q) m) in
  core_ok (core m') /\ fuller (core m) (core m') /\ pq_items (pending_queue (m_slots m')) = delete i (pq_items (pending_queue (m_slots m))) /\
  m_priority m' = m_priority m.
Proof.
  intros Hok Hi Hf m'.
  pose proof (triple_take w true (core m) i q m (conj (sched_refl true _ Hok) (conj Hi Hf))) as Hs. fold m' in Hs.
  set (m1 := set_slots (set_pending (snd (pq_remove i (pending_queue (m_slots m)))) (m_slots m)) m).
  assert (only (q_task_id q) (core m1) (core m')) as Ho by apply (confined_start_item w q m1).
  split_and!; [apply Hs| | |].
  - split; [apply (only_limits _ _ _ Ho)|]. intros o. apply (only_used (q_task_id q) (core m1) (core m') o Ho).
    cbn. apply (ok_disjoint _ (proj1 Hok)), list_elem_of_fmap. exists q. split; [done|by eapply list_elem_of_lookup_2].
  - pose proof (only_pending _ _ _ Ho) as Hp. cbn in Hp. rewrite Hp. by apply (pq_remove_items i _ q).
  - apply (only_priority _ _ _ Ho).
Qed.

Lemma fuller_trans k1 k2 k3 : fuller k1 k2 -> fuller k2 k3 -> fuller k1 k3.
Proof. intros [H1 H2] [H3 H4]. split; [congruence|]. intros o. specialize (H2 o). specialize (H4 o). lia. Qed.

Lemma queue_full_fuller k k' queue_id :
  fuller k k' -> has_queue_capacity (c_limits k) (c_slots k) queue_id = false ->
  has_queue_capacity (c_limits k') (c_slots k') queue_id = false.
Proof.
  intros [Hl Hu] H. apply not_true_iff_false. apply not_true_iff_false in H. intros H'. apply H. clear H. revert H'.
  rewrite !has_queue_capacity_spec, Hl. intros H limit Hlim. specialize (H limit Hlim). specialize (Hu (Some queue_id)). lia.
Qed.

(** Nothing is started where nothing has a free slot. *)
Lemma drain_ref_stuck w items m :
  (forall q, q ∈ items -> slot_free (m_limits m) (m_slots m) (q_queue_id q) = false) -> drain_ref w items m = (tt, m).
Proof.
  induction items as [|q items IH]; intros H; [done|]. cbn [drain_ref]. unfold bind, capacity, gets.
  rewrite (H q) by by left. apply IH. intros q' Hq'. apply H. by right.
Qed.

Definition in_queues (blocked : gset text) (items : list QueuedTask) : nat :=
  length (filter (fun q => q_queue_id q ∈ blocked) items).

Lemma in_queues_cons blocked q items :
  in_queues blocked (q :: items) = ((if decide (q_queue_id q ∈ blocked) then 1 else 0) + in_queues blocked items)%nat.
Proof. unfold in_queues. rewrite filter_cons. by case_decide. Qed.

Lemma in_queues_add blocked queue_id items :
  queue_id ∉ blocked -> in_queues ({[queue_id]} ∪ blocked) items = (in_queues blocked items + in_queue queue_id items)%nat.
Proof.
  intros Hq. induction items as [|q items IH]; [done|]. rewrite !in_queues_cons, in_queue_cons, IH.
  repeat case_decide; set_solver by lia.
Qed.

Lemma in_queues_all blocked items :
  (length items - in_queues blocked items = 0)%nat -> forall q, q ∈ items -> q_queue_id q ∈ blocked.
Proof.
  induction items as [|q items IH]; [set_solver|]. rewrite in_queues_cons. cbn [length].
  assert (in_queues blocked items <= length items)%nat by apply length_filter.
  case_decide; intros Hl q' [->|Hq']%elem_of_cons; try done; [apply IH; [lia|done]|lia|lia].
Qed.

Record loop_ok (blocked : gset text) (blocked_items : nat) (pre suf : list QueuedTask) (m : DownloadManager) : Prop := mk_loop_ok {
  loop_core : core_ok (core m);
  loop_items : pq_items (pending_queue (m_slots m)) = pre ++ suf;
  loop_full : forall queue_id, queue_id ∈ blocked -> has_queue_capacity (m_limits m) (m_slots m) queue_id = false;
  loop_pre : forall q, q ∈ pre -> q_queue_id q ∈ blocked;
  loop_count : blocked_items = in_queues blocked (pre ++ suf) }.

Lemma full_not_free l s queue_id : has_queue_capacity l s queue_id = false -> slot_free l s queue_id = false.
Proof. unfold slot_free. intros ->. by rewrite andb_false_r. Qed.

(** Passing over an item whose queue is blocked. *)
Lemma loop_pass blocked n pre q suf m :
  loop_ok blocked n pre (q :: suf) m -> q_queue_id q ∈ blocked -> loop_ok blocked n (pre ++ [q]) suf m.
Proof.
  intros [H1 H2 H3 H4 H5] Hq. constructor; [done| |done| |]; rewrite <-?app_assoc; [done| |done].
  intros q' [?| ->%list_elem_of_singleton]%elem_of_app; [by apply H4|done].
Qed.

(** Blocking a queue that is full. *)
Lemma loop_block blocked n pre suf m queue_id :
  loop_ok blocked n pre suf m -> queue_id ∉ blocked -> has_queue_capacity (m_limits m) (m_slots m) queue_id = false ->
  loop_ok ({[queue_id]} ∪ blocked) (n + queued_in (pending_queue (m_slots m)) queue_id) pre suf m.
Proof.
  intros [H1 H2 H3 H4 H5] Hq Hfull. constructor; [done|done| | |].
  - intros x [->%elem_of_singleton|Hx]%elem_of_union; [done|by apply H3].
  - intros q Hin. apply elem_of_union_r. by apply H4.
  - rewrite queued_in_spec by apply H1. by rewrite in_queues_add, H2, H5.
Qed.

Lemma in_queues_app blocked l k : in_queues blocked (l ++ k) = (in_queues blocked l + in_queues blocked k)%nat.
Proof. unfold in_queues. by rewrite filter_app, length_app. Qed.

Lemma bind_assoc {A B C} (c : M A) (f : A -> M B) (g : B -> M C) m :
  bind (bind c f) g m = bind c (fun a => bind (f a) g) m.
Proof. unfold bind. destruct (c m) as [a m1]. by destruct (f a m1). Qed.

Lemma triple_assoc {A B C} P (c : M A) (f : A -> M B) (g : B -> M C) Q :
  triple P (bind (bind c f) g) Q -> triple P (bind c (fun a => bind (f a) g)) Q.
Proof. intros H m Hm. rewrite <-bind_assoc. by apply H. Qed.

Lemma bind_ext {A B} (c : M A) (f g : A -> M B) m :
  (forall a m1, c m = (a, m1) -> f a m1 = g a m1) -> bind c f m = bind c g m.
Proof. intros H. unfold bind. destruct (c m) as [a m1] eqn:E. by apply H. Qed.

(** Taking the item at the cursor and starting it. *)
Lemma loop_take w blocked n pre q suf m :
  loop_ok blocked n pre (q :: suf) m -> q_queue_id q ∉ blocked -> slot_free (m_limits m) (m_slots m) (q_queue_id q) = true ->
  loop_ok blocked n pre suf (snd ((do! on_pending (fun p => snd (pq_remove (length pre) p)) in start_item w q) m)).
Proof.
  intros [H1 H2 H3 H4 H5] Hb Hf.
  assert (pq_items (pending_queue (m_slots m)) !! length pre = Some q) as Hq by (rewrite H2; by apply list_lookup_middle).
  pose proof (take_effect w (length pre) q m H1 Hq Hf) as (Hok & Hfull & Hit & _). constructor; [done| | |done|].
  - by rewrite Hit, H2, delete_middle.
  - intros queue_id Hin. by apply (queue_full_fuller _ _ queue_id Hfull), H3.
  - rewrite H5, !in_queues_app, in_queues_cons. by case_decide.
Qed.

(** Both loops take the same item. *)
Lemma unqueue_item_at p i q :
  pq_items p !! i = Some q -> NoDup (map q_task_id (pq_items p)) -> unqueue_item (q_task_id q) p = snd (pq_remove i p).
Proof. intros Hi Hn. unfold unqueue_item. by rewrite (position_unique p i q Hi Hn). Qed.

Lemma drain_loop_ref w fuel : forall suf pre blocked n m,
  loop_ok blocked n pre suf m -> (length suf < fuel)%nat ->
  drain_loop w fuel blocked n (length pre) m = drain_ref w suf m.
Proof.
  induction fuel as [|fuel IH]; intros suf pre blocked n m Hl Hfuel; [lia|]. cbn [drain_loop].
  unfold bind at 1, gets at 1. destruct (has_capacity (m_limits m) (m_slots m)) eqn:Hcap; cbn [negb].
  2: { rewrite drain_ref_stuck; [done|]. intros q _. unfold slot_free. by rewrite Hcap. }
  unfold bind at 1, get_pending, gets at 1. unfold pq_len, pq_get. rewrite (loop_items _ _ _ _ _ Hl).
  destruct (_ =? 0)%nat eqn:Hall.
  { apply Nat.eqb_eq in Hall. rewrite (loop_count _ _ _ _ _ Hl) in Hall. rewrite drain_ref_stuck; [done|].
    intros q Hq. apply full_not_free, (loop_full _ _ _ _ _ Hl), (in_queues_all _ _ Hall). apply elem_of_app. by right. }
  destruct suf as [|q suf].
  { by rewrite app_nil_r, lookup_ge_None_2. }
  rewrite list_lookup_middle by done.
  assert (pq_items (pending_queue (m_slots m)) !! length pre = Some q) as Hq by (rewrite (loop_items _ _ _ _ _ Hl); by apply list_lookup_middle).
  assert (active_tasks (m_slots m) !! q_task_id q = None) as Hact.
  { apply (ok_disjoint _ (proj1 (loop_core _ _ _ _ _ Hl))), list_elem_of_fmap. exists q. split; [done|by eapply list_elem_of_lookup_2]. }
  unfold bind at 1, is_active, gets at 1. rewrite Hact. cbn [bool_decide decide_rel is_Some].
  rewrite bool_decide_eq_false_2 by (by intros []). cbn [drain_ref length] in *.
  assert (length (pre ++ [q]) = S (length pre)) as Hlen by (rewrite length_app; cbn; lia).
  case_decide as Hb.
  { rewrite <-Hlen, (IH suf) by (lia || by apply loop_pass). unfold bind, capacity, gets.
    by rewrite full_not_free by (by apply (loop_full _ _ _ _ _ Hl)). }
  unfold bind at 1, gets at 1. destruct (has_queue_capacity (m_limits m) (m_slots m) (q_queue_id q)) eqn:Hroom; cbn [negb].
  2: { rewrite <-Hlen, (IH suf); [|apply loop_pass; [by apply loop_block|set_solver]|lia]. unfold bind, capacity, gets. by rewrite full_not_free. }
  assert (slot_free (m_limits m) (m_slots m) (q_queue_id q) = true) as Hfree by (unfold slot_free; by rewrite Hcap, Hroom).
  rewrite <-(bind_assoc _ (fun _ => start_item w q)). unfold bind at 1. pose proof (loop_take w _ _ _ _ _ _ Hl Hb Hfree) as Hl'.
  unfold bind at 2, capacity, gets. rewrite Hfree. cbn [when]. unfold bind at 2.
  replace ((do! on_pending (unqueue_item (q_task_id q)) in start_item w q) m)
    with ((do! on_pending (fun p => snd (pq_remove (length pre) p)) in start_item w q) m).
  - destruct ((do! on_pending _ in start_item w q) m) as [u m']. apply IH; [done|lia].
  - unfold bind, on_pending, on_slots, modify. rewrite (unqueue_item_at _ (length pre)); [done|done|apply (loop_core _ _ _ _ _ Hl)].
Qed.

(** ** What the reference achieves *)

(** No waiting task has a free slot. *)
Definition settled (k : Core) : Prop :=
  forall q, q ∈ pq_items (pending_queue (c_slots k)) -> slot_free (c_limits k) (c_slots k) (q_queue_id q) = false.

Lemma not_free_fuller k k' queue_id :
  fuller k k' -> slot_free (c_limits k) (c_slots k) queue_id = false -> slot_free (c_limits k') (c_slots k') queue_id = false.
Proof.
  intros Hf H. apply not_true_iff_false. intros H'. by rewrite (slot_free_fuller k k' queue_id Hf H') in H.
Qed.

Lemma drain_ref_take w i q items m :
  pq_items (pending_queue (m_slots m)) !! i = Some q -> NoDup (queued_ids (m_slots m)) ->
  slot_free (m_limits m) (m_slots m) (q_queue_id q) = true ->
  drain_ref w (q :: items) m =
  drain_ref w items (snd ((do! on_pending (fun p => snd (pq_remove i p)) in start_item w q) m)).
Proof.
  intros Hi Hn Hf. cbn [drain_ref]. unfold bind at 1, capacity, gets. rewrite Hf. cbn [when]. unfold bind at 1.
  replace ((do! on_pending (unqueue_item (q_task_id q)) in start_item w q) m)
    with ((do! on_pending (fun p => snd (pq_remove i p)) in start_item w q) m)
    by (unfold bind, on_pending, on_slots, modify; by rewrite (unqueue_item_at _ i)).
  by destruct ((do! on_pending _ in start_item w q) m).
Qed.

Lemma drain_ref_skip w q items m :
  slot_free (m_limits m) (m_slots m) (q_queue_id q) = false -> drain_ref w (q :: items) m = drain_ref w items m.
Proof. intros Hf. cbn [drain_ref]. unfold bind, capacity, gets. by rewrite Hf. Qed.

Lemma drain_ref_effect w b k0 items : forall pre m,
  sched b k0 (core m) -> pq_items (pending_queue (m_slots m)) = pre ++ items ->
  (forall q, q ∈ pre -> slot_free (m_limits m) (m_slots m) (q_queue_id q) = false) ->
  let m' := snd (drain_ref w items m) in
  sched b k0 (core m') /\ settled (core m') /\ fuller (core m) (core m') /\
  pq_items (pending_queue (m_slots m')) `sublist_of` pq_items (pending_queue (m_slots m)) /\ m_priority m' = m_priority m.
Proof.
  induction items as [|q items IH]; intros pre m Hs Hit Hpre.
  { cbn [drain_ref snd skip ret]. rewrite app_nil_r in Hit. split_and!; [done| |by split|done|done].
    intros q Hq. apply Hpre. by rewrite <-Hit. }
  assert (pq_items (pending_queue (m_slots m)) !! length pre = Some q) as Hq by (rewrite Hit; by apply list_lookup_middle).
  cbv zeta. destruct (slot_free (m_limits m) (m_slots m) (q_queue_id q)) eqn:Hf.
  - rewrite (drain_ref_take w (length pre)) by (done || apply (sched_ok _ _ _ Hs)).
    pose proof (take_effect w (length pre) q m (proj1 Hs) Hq Hf) as (H1 & H2 & H3 & Hp).
    pose proof (triple_take w b k0 (length pre) q m (conj Hs (conj Hq Hf))) as H4.
    destruct ((do! on_pending _ in start_item w q) m) as [u m1]. cbn [fst snd] in *. rewrite Hit, delete_middle in H3.
    destruct (IH pre m1 H4 H3) as (G1 & G2 & G3 & G4 & G5).
    { intros q' Hq'. by apply (not_free_fuller (core m) (core m1)), Hpre. }
    split_and!; [exact G1|exact G2|eapply fuller_trans; [exact H2|exact G3]| |by rewrite G5]. etrans; [exact G4|]. rewrite H3, Hit.
    apply sublist_app; [done|]. by apply sublist_cons.
  - rewrite drain_ref_skip by done. apply (IH (pre ++ [q])); [done|by rewrite <-app_assoc|].
    intros q' [?| ->%list_elem_of_singleton]%elem_of_app; [by apply Hpre|done].
Qed.

Section DrainQueue.
Context (w : World).

Lemma triple_park b k0 : triple (sched b k0) (park_pending_bt_tasks w) (fun _ => sched b k0).
Proof.
  unfold park_pending_bt_tasks. triple_skip.
  apply (triple_read _ (fun k => pending_queue (c_slots k))). intros p. triple_case; [apply triple_quiet_end; [done|by intros k []]|].
  destruct (drain_bt p) as [bt_items rest] eqn:E. eapply triple_bind with (R := fun _ => sched b k0).
  - apply triple_on_slots. intros k [Hs <-]. pose proof (drain_bt_spec _ (ok_counts _ (sched_ok _ _ _ Hs))) as (_ & H2 & H3).
    rewrite E in *. apply sched_unqueue; [done|done|]. cbn [snd] in *. rewrite H2. apply sublist_filter.
  - intros []. apply triple_quiet_end; [quiet_tac|done].
Qed.

(** Once through the queue, and the queue's positions are due if it changed. *)
Definition drain_pending : M unit :=
  let! pending := get_pending in
  do! drain_ref w (pq_items pending) in
  let! after := get_pending in
  if (pq_len after =? pq_len pending)%nat then skip
  else if pq_is_empty after then broadcast_queue_positions
  else modify (set_positions_dirty true).

Definition drain_queue_ref : M unit := do! park_pending_bt_tasks w in drain_pending.

Lemma drain_pending_stuck m :
  (forall q, q ∈ pq_items (pending_queue (m_slots m)) -> slot_free (m_limits m) (m_slots m) (q_queue_id q) = false) ->
  drain_pending m = (tt, m).
Proof.
  intros H. unfold drain_pending, bind, get_pending, gets. rewrite drain_ref_stuck by done. by rewrite Nat.eqb_refl.
Qed.

Lemma no_room p l s :
  pq_ok p -> existsb (has_queue_capacity l s) (queue_ids p) = false ->
  forall q, q ∈ pq_items p -> slot_free l s (q_queue_id q) = false.
Proof.
  intros Hp He q Hq. apply full_not_free, not_true_iff_false. intros H. apply not_true_iff_false in He. apply He.
  apply existsb_exists. exists (q_queue_id q). split; [|done]. apply list_elem_of_In, queue_ids_spec; [done|by exists q].
Qed.

Lemma loop_start m : core_ok (core m) -> loop_ok ∅ 0 [] (pq_items (pending_queue (m_slots m))) m.
Proof.
  intros Hok. constructor; [done|done|set_solver|set_solver|].
  cbn. unfold in_queues. induction (pq_items _) as [|q l IH]; [done|]. rewrite filter_cons. case_decide; [set_solver|done].
Qed.

Lemma drain_queue_spec m : core_ok (core m) -> drain_queue w m = drain_queue_ref m.
Proof.
  intros Hok. unfold drain_queue, drain_queue_ref. apply bind_ext. intros u m1 Hm1.
  pose proof (triple_park true (core m) m (sched_refl true _ Hok)) as Hs. rewrite Hm1 in Hs.
  destruct Hs as [Hok1 _]. cbn [fst snd] in Hok1. clear u Hm1. unfold bind at 1, get_pending at 1, gets at 1, bind at 1, gets at 1.
  destruct (_ || _) eqn:E.
  { rewrite drain_pending_stuck; [done|]. intros q Hq. apply orb_prop in E as [E|E].
    - unfold pq_is_empty in E. bool_hyps. rewrite E in Hq. set_solver.
    - unfold slot_free. bool_hyps. by rewrite E. }
  unfold bind at 1, gets at 1. destruct (existsb _ _) eqn:Hroom; cbn [negb].
  2: { rewrite drain_pending_stuck; [done|]. by apply no_room; [apply Hok1|]. }
  unfold bind at 1. rewrite (drain_loop_ref w _ (pq_items (pending_queue (m_slots m1))) [] ∅ 0 m1 (loop_start m1 Hok1)) by (unfold pq_len; lia).
  done.
Qed.

Lemma triple_drain b k0 : triple (sched b k0) (drain_queue w) (fun _ k => sched b k0 k /\ settled k).
Proof.
  intros m Hs. rewrite drain_queue_spec by apply Hs. revert m Hs. change (triple (sched b k0) drain_queue_ref (fun _ k => sched b k0 k /\ settled k)).
  eapply triple_bind; [apply triple_park|]. intros []. intros m Hs. unfold drain_pending, bind, get_pending, gets.
  pose proof (drain_ref_effect w b k0 (pq_items (pending_queue (m_slots m))) [] m Hs eq_refl) as H.
  destruct (drain_ref w (pq_items (pending_queue (m_slots m))) m) as [[] m1]. cbn [fst snd] in H.
  destruct H as (H1 & H2 & _); [set_solver|].
  assert (forall c : M unit, quiet c -> sched b k0 (core (snd (c m1))) /\ settled (core (snd (c m1)))) as Hq.
  { intros c Hc. by rewrite Hc. }
  repeat case_match; apply Hq; auto with quiet.
Qed.
End DrainQueue.

(** Draining brings no task into the queue and ends no boost. *)
Definition withheld (id : text) (k : Core) : Prop := (id ∉ queued_ids (c_slots k)) /\ c_priority k = None.

Lemma withheld_sub id k k' :
  withheld id k -> pq_items (pending_queue (c_slots k')) `sublist_of` pq_items (pending_queue (c_slots k)) ->
  c_priority k' = c_priority k -> withheld id k'.
Proof.
  intros [H1 H2] Hsub Hp. split; [|congruence]. intros Hin. apply H1. eapply elem_of_sublist; [exact Hin|by apply map_sublist].
Qed.

Lemma withheld_park w id b k0 :
  triple (fun k => sched b k0 k /\ withheld id k) (park_pending_bt_tasks w) (fun _ => withheld id).
Proof.
  unfold park_pending_bt_tasks. triple_skip.
  apply (triple_read _ (fun k => pending_queue (c_slots k))). intros p.
  triple_case; [eapply triple_conseq; [by apply triple_quiet|intros k Hk; exact Hk|by intros ? k [[]]]|].
  destruct (drain_bt p) as [bt_items rest] eqn:E. apply (triple_then _ _ _ (withheld id)).
  - apply triple_on_slots. intros k [[Hs Hw] <-]. pose proof (drain_bt_spec _ (ok_counts _ (sched_ok _ _ _ Hs))) as (_ & H2 & _).
    rewrite E in *. cbn [snd] in *. eapply withheld_sub; [exact Hw| |done]. cbn. rewrite H2. apply sublist_filter.
  - apply triple_quiet. quiet_tac.
Qed.

Lemma withheld_drain w id b k0 :
  triple (fun k => sched b k0 k /\ withheld id k) (drain_queue w) (fun _ => withheld id).
Proof.
  intros m [Hs Hw]. rewrite drain_queue_spec by apply Hs. revert m Hs Hw.
  enough (triple (fun k => sched b k0 k /\ withheld id k) (drain_queue_ref w) (fun _ => withheld id)) as H by (intros m Hs Hw; by apply (H m)).
  apply (triple_then _ _ _ (fun k => sched b k0 k /\ withheld id k)).
  { eapply triple_conseq; [apply (triple_and (sched b k0) (fun k => sched b k0 k /\ withheld id k)); [apply triple_park|apply withheld_park]| |done].
    by intros k []. }
  intros m [Hs Hw]. unfold drain_pending, bind, get_pending, gets.
  pose proof (drain_ref_effect w b k0 (pq_items (pending_queue (m_slots m))) [] m Hs eq_refl) as H.
  destruct (drain_ref w (pq_items (pending_queue (m_slots m))) m) as [[] m1]. cbn [fst snd] in H.
  destruct H as (_ & _ & _ & Hsub & Hp); [set_solver|].
  assert (withheld id (core m1)) as Hw1 by (by eapply (withheld_sub id (core m))).
  repeat case_match; [done| |done]. by rewrite quiet_broadcast.
Qed.
