(* ===== verification/Sched.v ===== *)
(** * Sched: the invariant of the scheduler over all handlers of [Manager]

    [inv s] extends [sched]: with [s = true] it also claims that no waiting task
    has a free slot ([settled]), unless since [k0] the entry of a failed task
    was taken out whose end is still to be reported.  The theorems: the handlers are sequences of
    moves of [Slots] and never push a count over its limit; they leave no slot
    unused while a task waits for it; draining is the reference; what the
    clients are told about the queue. *)
From Stdlib Require Import Ascii.
From S2P Require Import Prelude Text QueueOrder PendingQueue Slots Manager SchedInv Drain.

(** ** The invariant *)

Definition inv (b s : bool) (k0 k : Core) : Prop :=
  sched b k0 k /\ (s = true -> settled k \/ (c_stale k0 < c_stale k)%nat).

Lemma inv_weaken b s k0 k : inv b s k0 k -> inv b false k0 k.
Proof. by intros [H _]. Qed.

Lemma inv_sched b s k0 k : inv b s k0 k -> sched b k0 k.
Proof. by intros [H _]. Qed.

Lemma inv_refl b k : core_ok k -> inv b false k k.
Proof. intros Hk. split; [by apply sched_refl|done]. Qed.

(** The boosted task is not part of the invariant. *)
Lemma inv_same b s k0 k k' :
  c_slots k' = c_slots k -> c_limits k' = c_limits k -> c_rows k' = c_rows k -> c_applied k' = c_applied k ->
  c_stale k' = c_stale k -> inv b s k0 k -> inv b s k0 k'.
Proof. unfold inv, sched, core_ok, settled. by intros -> -> -> -> ->. Qed.

(** Filling slots and shortening the queue keep a settled state settled. *)
Lemma settled_mono k k' :
  fuller k k' -> (forall q, q ∈ pq_items (pending_queue (c_slots k')) -> q ∈ pq_items (pending_queue (c_slots k))) ->
  settled k -> settled k'.
Proof. intros Hf Hp Hs q Hq. apply (not_free_fuller k k'), Hs, Hp; done. Qed.

Section Inv.
Context (w : World) (b s : bool) (k0 : Core).

Lemma triple_to_false {A} P (c : M A) :
  triple P c (fun _ => sched b k0) -> triple P c (fun _ => inv b false k0).
Proof. intros Hc. eapply triple_conseq; [exact Hc|done|]. intros a k Hk. by split. Qed.

Lemma triple_drain_inv s' : triple (inv b s' k0) (drain_queue w) (fun _ => inv b s k0).
Proof.
  eapply triple_conseq; [apply (triple_drain w b k0)|by intros k []|]. intros _ k [Hs Hd]. split; [done|auto].
Qed.

Lemma triple_quiet_weaken {A} s' (c : M A) : quiet c -> (s = true -> s' = true) -> triple (inv b s' k0) c (fun _ => inv b s k0).
Proof.
  intros Hc Hs. eapply triple_conseq; [by apply triple_quiet|intros k Hk; exact Hk|]. intros a k [H1 H2]. split; [done|auto].
Qed.

Lemma triple_quiet_weaken_pre P : (forall k, P k -> sched b k0 k) -> triple P skip (fun _ => inv b false k0).
Proof. intros HP. apply triple_ret. intros k Hk. split; [by apply HP|done]. Qed.

Lemma triple_quiet_inv {A} (P : Core -> Prop) (c : M A) :
  quiet c -> (forall k, P k -> inv b s k0 k) -> triple P c (fun _ => inv b s k0).
Proof. intros Hc HP. eapply triple_conseq; [by apply triple_quiet|exact HP|done]. Qed.

(** Starting a task that is not active only fills slots. *)
Lemma triple_start_inv {A} id P (c : M A) :
  triple P c (fun _ => sched b k0) -> confined id c ->
  (forall k, P k -> inv b s k0 k /\ active_tasks (c_slots k) !! id = None) ->
  triple P c (fun _ => inv b s k0).
Proof.
  intros Hc Hid HP m Hm. split; [by apply Hc|]. intros Hs. destruct (HP _ Hm) as [[_ Hset] Hact].
  specialize (Hid m). pose proof Hid as []. rewrite only_stale. destruct (Hset Hs) as [H|H]; [left|by right].
  revert H. apply settled_mono; [|by rewrite only_pending].
  split; [done|]. intros o. by apply (only_used id).
Qed.

Lemma inv_unqueue k p :
  inv b s k0 k -> pq_ok p -> pq_items p `sublist_of` pq_items (pending_queue (c_slots k)) ->
  inv b s k0 (mk_core (set_pending p (c_slots k)) (c_limits k) (c_rows k) (c_priority k) (c_applied k) (c_stale k)).
Proof.
  intros [H1 H2] Hp Hsub. split; [by apply sched_unqueue|]. intros Hs. destruct (H2 Hs) as [H|H]; [left|by right].
  revert H. apply settled_mono; [split; [done|intros o; cbn; destruct o; apply Z.le_refl]|].
  intros q Hq. by eapply elem_of_sublist.
Qed.

Lemma pq_remove_sublist i p : pq_items (snd (pq_remove i p)) `sublist_of` pq_items p.
Proof. unfold pq_remove. case_match; cbn; [apply sublist_delete|done]. Qed.

Lemma triple_pq_remove i : triple (inv b s k0) (on_pending (fun p => snd (pq_remove i p))) (fun _ => inv b s k0).
Proof.
  apply triple_on_slots. intros k Hk. apply inv_unqueue; [done|by apply pq_remove_ok, (sched_ok b k0), (inv_sched _ _ _ _ Hk)|apply pq_remove_sublist].
Qed.

(** Appending a task that has no free slot. *)
Lemma inv_queue k q p :
  inv b s k0 k -> q_task_id q ∉ queued_ids (c_slots k) -> active_tasks (c_slots k) !! q_task_id q = None ->
  p = push_back q (pending_queue (c_slots k)) \/ p = push_front q (pending_queue (c_slots k)) ->
  (q_is_resume q = true -> forall r, c_rows k !! q_task_id q = Some r -> r_queue_id r = q_queue_id q) ->
  (s = true -> slot_free (c_limits k) (c_slots k) (q_queue_id q) = false) ->
  inv b s k0 (mk_core (set_pending p (c_slots k)) (c_limits k) (c_rows k) (c_priority k) (c_applied k) (c_stale k)).
Proof.
  intros [H1 H2] Hq Ha Hp Hr Hfree.
  assert (forall x, x ∈ pq_items p <-> x = q \/ x ∈ pq_items (pending_queue (c_slots k))) as Hin.
  { intros x. destruct Hp as [->| ->]; cbn; set_solver. }
  split.
  - eapply sched_move; [done| |done| |done|done].
    + destruct Hp as [->| ->]; [by apply move_queue_back|by apply move_queue_front].
    + intros x r [->|Hx]%Hin; [auto|by apply H1].
  - intros Hs. destruct (H2 Hs) as [H|H]; [left|by right]. intros x [->|Hx]%Hin; cbn; [by apply Hfree|by apply H].
Qed.

Lemma triple_stop_inv id :
  triple (fun k => inv b s k0 k /\ no_resolve id k) (active_remove id) (fun _ => inv b false k0).
Proof. apply triple_to_false. eapply triple_pre; [apply triple_stop|]. by intros k [[H _] ?]. Qed.

Lemma triple_unresolve id : triple (inv b s k0) (on_slots (fun x => set_resolves (delete id (pending_resolve x)) x)) (fun _ k => inv b s k0 k /\ no_resolve id k).
Proof.
  apply triple_on_slots. intros k [H1 H2]. split; [|unfold no_resolve; cbn; by rewrite lookup_delete_eq]. split.
  - eapply sched_move; [done|apply move_resolved|done|apply H1|done|done].
  - intros Hs. destruct (H2 Hs) as [H|H]; [left|by right]. revert H. apply settled_mono; [split; [done|intros []; apply Z.le_refl]|done].
Qed.

Lemma no_resolve_inactive k id : slots_ok (c_slots k) -> active_tasks (c_slots k) !! id = None -> no_resolve id k.
Proof.
  intros Hs Ha. unfold no_resolve. destruct (pending_resolve (c_slots k) !! id) as [p|] eqn:E; [|done].
  destruct (ok_resolve _ Hs id p E) as (e & He & _). congruence.
Qed.

(** Checked before it starts. *)
Lemma triple_resume_checked id :
  triple (fun k => sched b k0 k /\ may_resume b id k) (do_resume_task w id) (fun _ => sched b k0).
Proof.
  eapply triple_pre; [apply triple_do_resume|]. intros k [Hs Hm]. pose proof (sched_drop b k0 id k Hs). naive_solver.
Qed.
End Inv.

(** The tests of the handlers, on the core. *)
Definition running (id : text) (k : Core) : bool := bool_decide (is_Some (active_tasks (c_slots k) !! id)).
Definition resolving (id : text) (k : Core) : bool := bool_decide (is_Some (pending_resolve (c_slots k) !! id)).

Lemma running_false id k : running id k = false -> active_tasks (c_slots k) !! id = None.
Proof. unfold running. intros H. bool_hyps. by apply eq_None_not_Some. Qed.

Lemma resolving_false id k : resolving id k = false -> no_resolve id k.
Proof. unfold resolving. intros H. bool_hyps. by apply eq_None_not_Some. Qed.

(** ** Resuming *)

Section Resuming.
Context (w : World) (b s : bool) (k0 : Core).

(** The task is neither active nor queued. *)
Definition idle (id : text) (k : Core) : Prop :=
  active_tasks (c_slots k) !! id = None /\ (id ∉ queued_ids (c_slots k)).

Lemma emitted_stale (m : DownloadManager) id x :
  (length (List.filter is_stale (m_out m)) < length (List.filter is_stale (m_out m ++ StaleRemoved id :: x)))%nat.
Proof. rewrite List.filter_app, length_app. cbn. lia. Qed.

Lemma triple_stale id :
  triple (fun k => inv b s k0 k /\ no_resolve id k) (do! emit (StaleRemoved id) in active_remove id)
    (fun _ k => inv b s k0 k /\ active_tasks (c_slots k) !! id = None).
Proof.
  intros m [[H1 H2] Hr]. split; [|by apply lookup_delete_eq]. split.
  - eapply (sched_move b k0 (core m)); [done|by apply move_stop|done|apply H1|done|apply Nat.lt_le_incl, (emitted_stale m id [])].
  - intros _. right. destruct H1 as (_ & _ & _ & H1). apply (Nat.le_lt_trans _ _ _ H1), emitted_stale.
Qed.

(** The task loaded, none or one whose row is the stored one. *)
Definition loaded (id : text) (row : option Task) (k : Core) : Prop :=
  c_rows k !! id = k_row <$> row.

Lemma start_or_queue id row :
  triple (fun k => inv b s k0 k /\ idle id k /\ loaded id row k)
    (let is_bt := match row with Some t => is_bt_url (r_url (k_row t)) | None => false end in
     let queue_id := match row with Some t => r_queue_id (k_row t) | None => [] end in
     let! free := capacity queue_id in
     if is_bt || free then
       do! do_resume_task w id in do! drain_queue w in sync_queue_occupancy
     else
       match row with
       | Some t =>
           let! ok := update_task_status w id 0 in
           if negb ok then skip else
           do! emit (Progress id 0) in
           do! on_pending (push_back (for_resume id (k_row t))) in
           do! broadcast_queue_positions in
           sync_queue_occupancy
       | None => sync_queue_occupancy
       end)
    (fun _ => inv b s k0).
Proof.
  cbv zeta. set (queue_id := match row with Some t => r_queue_id (k_row t) | None => [] end).
  apply (triple_read _ (fun k => slot_free (c_limits k) (c_slots k) queue_id)). intros free. triple_case.
  - apply (triple_then _ _ _ (inv b false k0)); [|apply (triple_then _ _ _ (inv b s k0)); [apply triple_drain_inv|apply triple_quiet; auto with quiet]].
    apply triple_to_false. eapply triple_pre; [apply triple_resume_checked|].
    intros k (([H1 _] & [Ha Hq] & Hl) & <-). split; [done|]. split_and!; [done|by eapply no_resolve_inactive; [apply H1|]|].
    right. intros r Hr. unfold loaded in Hl. rewrite Hl in Hr. destruct row as [t|]; [|done]. cbn in Hr. injection Hr as <-.
    by apply orb_prop in Heqb0.
  - destruct row as [t|]; [|apply triple_quiet_inv; [auto with quiet|by intros k [[]]]].
    triple_skip. triple_case; [apply triple_quiet_inv; [auto with quiet|by intros k [[]]]|]. triple_skip.
    apply (triple_then _ _ _ (inv b s k0)); [|apply triple_quiet; quiet_tac].
    apply triple_on_slots. intros k ((H1 & [Ha Hq] & Hl) & Hf). apply (inv_queue b s k0 k (for_resume id (k_row t))); try done; [by left| |].
    + intros _ r Hr. unfold loaded in Hl. cbn in *. rewrite Hl in Hr. by injection Hr as <-.
    + intros _. apply orb_false_elim in Heqb0 as [_ Heq]. by rewrite Heq in Hf.
Qed.

Lemma triple_go_on id (active : bool) :
  triple (fun k => inv b s k0 k /\ running id k = active)
    (if active then
       let! resolving := has_pending_resolve id in
       if resolving then ret false else
       let! task := load_task_by_id w id in
       match task with
       | Err _ => ret false
       | Ok None => ret false
       | Ok (Some t) => if k_status t =? 4 then do! emit (StaleRemoved id) in do! active_remove id in ret true else ret false
       end
     else ret true)
    (fun go k => inv b s k0 k /\ (go = true -> active_tasks (c_slots k) !! id = None)).
Proof.
  destruct active.
  2: { apply triple_ret. intros k [Hk Ha]. split; [done|]. intros _. by apply running_false. }
  apply (triple_read _ (resolving id)). intros [|].
  { apply triple_ret. intros k [[Hk _] _]. by split. }
  apply (triple_pre _ (fun k => inv b s k0 k /\ no_resolve id k)).
  2: { intros k [[Hk _] Hr]. split; [done|by apply resolving_false]. }
  triple_skip. assert (forall P, (forall k, P k -> inv b s k0 k) ->
    triple P (ret false) (fun go k => inv b s k0 k /\ (go = true -> active_tasks (c_slots k) !! id = None))) as Hno.
  { intros P HP. apply triple_ret. intros k Hk. split; [by apply HP|done]. }
  repeat case_match; try (apply Hno; by intros k []).
  intros m Hm. pose proof (triple_stale id m Hm) as [G1 G2]. by split.
Qed.

Lemma triple_resume_inner id : triple (inv b s k0) (resume_task_inner w id) (fun _ => inv b s k0).
Proof.
  unfold resume_task_inner. do 2 triple_skip. triple_case; [apply triple_quiet; auto with quiet; by apply quiet_modify|].
  apply (triple_read _ (running id)). intros active.
  eapply triple_bind; [apply triple_go_on|]. intros [|]; cbn [negb]; [|apply triple_quiet_inv; [done|by intros k []]].
  apply (triple_read _ (fun k => is_queued id (pending_queue (c_slots k)))). intros [|]; [apply triple_quiet_inv; [done|by intros k [[]]]|].
  apply (triple_pre _ (fun k => inv b s k0 k /\ idle id k)).
  2: { intros k [[H1 H2] H3]. split; [done|]. split; [by apply H2|]. intros H. apply (is_queued_spec id) in H. congruence. }
  apply triple_load; [apply triple_quiet_inv; [done|by intros k []]| |].
  - apply triple_seq_quiet; [done|]. intros []; [apply triple_quiet_inv; [done|by intros k [[]]]|].
    eapply triple_pre; [apply (start_or_queue id None)|]. by intros k [[? ?] ?].
  - intros t. triple_skip. triple_case; [apply triple_quiet_inv; [done|by intros k [[]]]|].
    eapply triple_pre; [apply (start_or_queue id (Some t))|]. by intros k [[? ?] ?].
Qed.
End Resuming.

(** ** Boost, pausing, cancelling, deleting *)

Section Handlers.
Context (w : World) (b s : bool) (k0 : Core).
Definition keeps {A} (c : M A) : Prop := triple (inv b s k0) c (fun _ => inv b s k0).

Lemma keeps_modify (f : DownloadManager -> DownloadManager) :
  (forall m, m_slots (f m) = m_slots m /\ m_limits (f m) = m_limits m /\ m_rows (f m) = m_rows m /\
     m_resume_applied (f m) = m_resume_applied m /\ m_out (f m) = m_out m) -> keeps (modify f).
Proof.
  intros Hf m. destruct (Hf m) as (H1 & H2 & H3 & H4 & H5). apply inv_same; cbn; [done..|by rewrite H5].
Qed.

(** Rows only disappear. *)
Lemma keeps_delete_row id : keeps (modify (fun m => set_rows (delete id (m_rows m)) m)).
Proof.
  intros m [((H1 & H2 & H3) & H4 & H5) H6]. split; [|done]. split; [|done]. split_and!; [done| |done].
  intros q r Hq Hr Hrow. cbn in Hrow. apply lookup_delete_Some in Hrow as [_ Hrow]. by apply H2.
Qed.

Lemma keeps_clear_priority : keeps (clear_priority w).
Proof.
  unfold clear_priority. triple_skip. apply (triple_then _ _ _ (inv b s k0)); [by apply keeps_modify|].
  triple_skip. triple_skip. triple_skip. apply (triple_then _ _ _ (inv b s k0)).
  - apply triple_for_each. intros id _. triple_skip. repeat case_match; try (apply triple_quiet; done); apply triple_resume_inner.
  - apply triple_quiet. quiet_tac.
Qed.

Lemma keeps_when (c : bool) (p : M unit) : keeps p -> keeps (when c p).
Proof. intros Hp. destruct c; [done|]. by apply triple_quiet. Qed.

Lemma keeps_end_boost id : keeps (end_boost_of w id).
Proof. unfold end_boost_of. triple_skip. apply keeps_when, keeps_clear_priority. Qed.

Lemma keeps_reconcile : keeps (reconcile_priority w).
Proof.
  unfold reconcile_priority. triple_skip. triple_case; [|by apply triple_quiet]. unfold is_active, has_pending_resolve.
  do 3 triple_skip. triple_case; [by apply triple_quiet|apply keeps_clear_priority].
Qed.

Lemma keeps_quiet {A} (c : M A) : quiet c -> keeps c.
Proof. apply triple_quiet. Qed.

Lemma keeps_unqueue id : keeps (unqueue id).
Proof.
  unfold unqueue. triple_skip. triple_case; [|by apply triple_quiet].
  apply (triple_then _ _ _ (inv b s k0)); [apply triple_pq_remove|apply triple_quiet; auto with quiet].
Qed.

Lemma clear_pending_resolve_triple id :
  triple (inv b s k0) (clear_pending_resolve id) (fun _ k => inv b s k0 k /\ no_resolve id k).
Proof.
  unfold clear_pending_resolve. eapply triple_bind; [apply triple_unresolve|]. intros [].
  intros m [H1 H2]. cbn. destruct H1 as [((G1 & G2 & G3) & G4 & G5) G6]. split; [|done].
  split; [|done]. split; [|done]. split_and!; [done|done|]. cbn in *. by rewrite G3, delete_empty.
Qed.

Lemma keeps_drain : keeps (drain_queue w).
Proof. apply triple_drain_inv. Qed.

Lemma drain_then {A} s' (c : M A) : quiet c -> triple (inv b s' k0) (do! drain_queue w in c) (fun _ => inv b s k0).
Proof. intros Hc. apply (triple_then _ _ _ (inv b s k0)); [apply triple_drain_inv|by apply triple_quiet]. Qed.
End Handlers.

Section Pausing.
Context (w : World) (b s : bool) (k0 : Core).

(** Pausing an active task frees its slot; the drain of the freed slot is asked
    for, or the claim of a settled state is given up. *)
Lemma triple_pause_active id entry notify drain :
  (s = true -> drain = true) ->
  triple (fun k => inv b s k0 k /\ no_resolve id k) (pause_active w id entry notify drain) (fun _ => inv b s k0).
Proof.
  intros Hs. unfold pause_active. apply (triple_then _ _ _ (inv b false k0)); [apply triple_stop_inv|].
  do 4 triple_skip. triple_case; [apply triple_drain_inv|]. triple_skip.
  triple_case; [apply drain_then; auto with quiet|]. triple_skip. apply (triple_then _ _ _ (inv b s k0)).
  - destruct drain; [apply triple_drain_inv|]. apply triple_quiet_weaken; [done|]. intros ->. by specialize (Hs eq_refl).
  - apply (triple_then _ _ _ (inv b s k0)); [apply keeps_end_boost|apply triple_quiet; auto with quiet].
Qed.

Lemma triple_pause id notify drain :
  (s = true -> drain = true) -> triple (inv b s k0) (pause_task_inner w id notify drain) (fun _ => inv b s k0).
Proof.
  intros Hs. unfold pause_task_inner. eapply triple_bind; [apply clear_pending_resolve_triple|]. intros [].
  do 2 triple_skip. triple_case; [apply triple_quiet_inv; [quiet_tac|by intros k []]|].
  triple_skip. triple_case.
  - triple_skip. triple_case; [apply triple_quiet_inv; [auto with quiet|by intros k []]|].
    apply (triple_then _ _ _ (inv b s k0)); [eapply triple_pre; [apply triple_pq_remove|by intros k []]|].
    apply triple_quiet. quiet_tac.
  - unfold get_active. triple_skip. triple_skip. triple_case; [apply triple_quiet_inv; [done|by intros k []]|].
    triple_case; [by apply triple_pause_active|]. apply triple_quiet_inv; [quiet_tac|by intros k []].
Qed.

Lemma no_resolve_unqueue i id : triple (no_resolve id) (unqueue i) (fun _ => no_resolve id).
Proof.
  unfold unqueue. triple_skip. triple_case; [|by apply triple_quiet].
  apply (triple_then _ _ _ (no_resolve id)); [by apply triple_on_slots|apply triple_quiet; auto with quiet].
Qed.

(** The resolution is forgotten, the task taken out of the queue. *)
Lemma triple_withdraw {A} id (c : M A) Q :
  triple (fun k => inv b s k0 k /\ no_resolve id k) c Q ->
  triple (inv b s k0) (do! clear_pending_resolve id in do! unqueue id in c) Q.
Proof.
  intros Hc. eapply triple_bind; [apply clear_pending_resolve_triple|]. intros [].
  apply (triple_then _ _ _ (fun k => inv b s k0 k /\ no_resolve id k)); [|done].
  apply triple_and; [apply (keeps_unqueue w)|apply no_resolve_unqueue].
Qed.

Lemma triple_cancel id : triple (inv b s k0) (cancel_task w id) (fun _ => inv b s k0).
Proof.
  unfold cancel_task. apply triple_withdraw. unfold get_active. do 2 triple_skip.
  triple_case; [apply triple_quiet_inv; [done|by intros k []]|].
  apply (triple_then _ _ _ (inv b false k0)).
  - triple_case; [|apply triple_quiet_weaken_pre; by intros k [[? ?] ?]].
    apply (triple_then _ _ _ (inv b false k0)); [apply triple_stop_inv|apply triple_quiet; quiet_tac].
  - triple_skip. triple_case; [apply triple_drain_inv|]. triple_skip. triple_case; [|apply triple_drain_inv].
    triple_skip. apply triple_drain_inv.
Qed.

Lemma triple_delete id : triple (inv b s k0) (delete_task w id) (fun _ => inv b s k0).
Proof.
  unfold delete_task. triple_skip. apply triple_withdraw. unfold get_active. triple_skip.
  apply (triple_then _ _ _ (inv b false k0)).
  - triple_case; [|apply triple_quiet_weaken_pre; by intros k [[? ?] ?]].
    apply (triple_then _ _ _ (inv b false k0)); [apply triple_stop_inv|apply triple_quiet; quiet_tac].
  - triple_skip. triple_case; [|apply triple_drain_inv]. triple_skip. triple_case; [apply triple_drain_inv|].
    do 2 (triple_skip; triple_case; [apply drain_then; auto with quiet|]).
    apply (triple_then _ _ _ (inv b false k0)); [apply keeps_delete_row|]. triple_skip.
    apply (triple_then _ _ _ (inv b false k0)); [by apply keeps_modify|].
    apply (triple_then _ _ _ (inv b false k0)); [apply keeps_end_boost|apply drain_then; auto with quiet].
Qed.
End Pausing.

(** ** New tasks, ends of downloads, answers *)

Section Ends.
Context (w : World) (b s : bool) (k0 : Core).

(** A task no handler knows yet. *)
Definition new_task (q : QueuedTask) (k : Core) : Prop := idle (q_task_id q) k /\ q_is_resume q = false.

Lemma triple_enqueue q :
  triple (fun k => inv b s k0 k /\ new_task q k) (enqueue_persisted_task w q) (fun _ => inv b s k0).
Proof.
  unfold enqueue_persisted_task. apply (triple_read _ (fun k => slot_free (c_limits k) (c_slots k) (q_queue_id q))). intros free.
  triple_case.
  - apply (triple_then _ _ _ (inv b false k0)); [|apply drain_then; auto with quiet].
    apply triple_to_false. eapply triple_pre; [apply triple_do_start|]. intros k (([H1 _] & [Ha Hq] & _) & <-). split; [done|].
    split_and!; [done|by eapply no_resolve_inactive; [apply H1|]|]. right. unfold use_bt.
    apply orb_prop in Heqb0 as [->|Hf]; [by left|by right].
  - triple_skip. apply (triple_then _ _ _ (inv b s k0)).
    + apply triple_on_slots. intros k ((H1 & [Ha Hq] & Hr) & Hf). apply (inv_queue b s k0 k q); try done; [by left|congruence|].
      intros _. apply orb_false_elim in Heqb0 as [_ Heq]. by rewrite Heq in Hf.
    + triple_skip. apply keeps_when. by apply triple_quiet.
Qed.

Lemma get_live_triple {B} P id gen (f : bool -> M B) Q :
  triple (fun k => P k /\ exists e, active_tasks (c_slots k) !! id = Some e /\ e_generation e = gen) (f true) Q ->
  triple (fun k => P k /\ forall e, active_tasks (c_slots k) !! id = Some e -> e_generation e <> gen) (f false) Q ->
  triple P (bind (get_live id gen) f) Q.
Proof.
  intros Ht Hf m Hm. unfold get_live, get_active, bind, gets, ret.
  destruct (active_tasks (m_slots m) !! id) as [e|] eqn:E; [destruct (e_generation e =? gen) eqn:Eg; bool_hyps|].
  - apply (Ht m). split; [done|]. by exists e.
  - apply (Hf m). split; [done|]. intros e'. cbn. rewrite E. by intros [= <-].
  - apply (Hf m). split; [done|]. intros e'. cbn. by rewrite E.
Qed.

Lemma triple_decision_pending id gen : triple (inv b s k0) (on_decision_pending w id gen) (fun _ => inv b s k0).
Proof.
  unfold on_decision_pending. apply get_live_triple; [|apply triple_quiet_inv; [done|by intros k []]]. cbn [negb].
  apply (triple_then _ _ _ (inv b false k0)).
  - apply triple_to_false. eapply triple_pre; [apply (triple_move b k0 (fun k => exists e, active_tasks (c_slots k) !! id = Some e /\ e_generation e = gen))|]; [|done|].
    + intros k (e & He & <-). by apply move_await.
    + intros k [[H _] He]. by split.
  - triple_skip. triple_skip. apply drain_then; auto with quiet.
Qed.

(** The end of a spawned worker's generation: an entry of that generation has
    its worker. *)
Definition spawned (id : text) (gen : Z) (k : Core) : Prop :=
  forall e, active_tasks (c_slots k) !! id = Some e -> e_generation e = gen -> e_handle e = true.

Lemma spawned_no_resolve id gen k e :
  slots_ok (c_slots k) -> spawned id gen k -> active_tasks (c_slots k) !! id = Some e -> e_generation e = gen -> no_resolve id k.
Proof.
  intros Hs Hsp He Hg. unfold no_resolve. destruct (pending_resolve (c_slots k) !! id) as [p|] eqn:E; [|done].
  destruct (ok_resolve _ Hs id p E) as (e' & He' & _ & Hh). rewrite He in He'. injection He' as <-. by rewrite (Hsp e He Hg) in Hh.
Qed.

Lemma triple_answered id :
  triple (fun k => sched b k0 k /\ no_resolve id k)
    (do! on_slots (fun x => set_awaiting (delete id (awaiting_decision x)) x) in active_remove id)
    (fun _ k => inv b false k0 k /\ active_tasks (c_slots k) !! id = None).
Proof.
  intros m [Hs Hr]. split; [|by apply lookup_delete_eq]. split; [|done].
  eapply (sched_move b k0 (core m)); [done|exact (move_answered b _ (m_slots m) id Hr)|done|apply Hs|done|done].
Qed.

Lemma not_queued_answered id :
  triple (fun k => id ∉ queued_ids (c_slots k))
    (do! on_slots (fun x => set_awaiting (delete id (awaiting_decision x)) x) in active_remove id)
    (fun _ k => id ∉ queued_ids (c_slots k)).
Proof. by intros m Hm. Qed.

(** Pushing the answered task to the front of the queue. *)
Lemma triple_requeue id t :
  triple (fun k => (inv b false k0 k /\ idle id k) /\ loaded id (Some t) k)
    (do! on_pending (push_front (for_resume id (k_row t))) in broadcast_queue_positions) (fun _ => inv b false k0).
Proof.
  apply (triple_then _ _ _ (inv b false k0)); [|apply triple_quiet; auto with quiet].
  apply triple_on_slots. intros k ((H1 & [Ha Hq]) & Hl). apply (inv_queue b false k0 k (for_resume id (k_row t))); try done; [by right|].
  intros _ r Hr. unfold loaded in Hl. cbn in *. rewrite Hl in Hr. by injection Hr as <-.
Qed.

Lemma triple_decision_ready id gen choice :
  triple (fun k => inv b s k0 k /\ spawned id gen k) (on_decision_ready w id gen choice) (fun _ => inv b s k0).
Proof.
  unfold on_decision_ready. apply get_live_triple; cbn [negb orb]; triple_skip; [|apply triple_quiet_inv; [done|by intros k [[]]]].
  triple_case; [apply triple_quiet_inv; [done|by intros k [[]]]|].
  assert (forall k, (inv b s k0 k /\ spawned id gen k) /\ (exists e, active_tasks (c_slots k) !! id = Some e /\ e_generation e = gen) ->
    sched b k0 k /\ no_resolve id k /\ (id ∉ queued_ids (c_slots k))) as Hpre.
  { intros k [[[H1 _] H2] (e & He & Hg)]. pose proof (sched_ok _ _ _ H1) as Hok. split_and!; [done|by eapply spawned_no_resolve|].
    intros Hin. apply (ok_disjoint _ Hok) in Hin. congruence. }
  apply triple_assoc.
  apply (triple_then _ _ _ (fun k => inv b false k0 k /\ idle id k)).
  - eapply triple_conseq; [apply (triple_and (fun k => sched b k0 k /\ no_resolve id k) (fun k => id ∉ queued_ids (c_slots k)) _ _ _ (triple_answered id) (not_queued_answered id))| |].
    + intros k Hk%Hpre. naive_solver.
    + intros ? k [[? ?] ?]. by split.
  - apply (triple_then _ _ _ (inv b false k0)); [|apply drain_then; auto with quiet].
    triple_case; [|apply triple_quiet_inv; [quiet_tac|by intros k []]].
    triple_skip. triple_case; [apply triple_quiet_inv; [auto with quiet|by intros k []]|].
    apply triple_load; [apply triple_quiet_inv; [done|by intros k []]|apply triple_quiet_inv; [done|by intros k [[]]]|].
    intros t. apply triple_requeue.
Qed.
End Ends.

Section Finishing.
Context (w : World) (b s : bool) (k0 : Core).

Lemma keeps_after_end id : triple (inv b s k0) (after_end w id) (fun _ => inv b s k0).
Proof.
  unfold after_end. triple_skip. repeat case_match; try (by apply triple_quiet).
  triple_skip. triple_case; [|apply triple_quiet; quiet_tac]. do 2 triple_skip.
  apply (triple_then _ _ _ (inv b s k0)); [apply keeps_when, keeps_delete_row|apply triple_quiet; auto with quiet].
Qed.

Definition is_live (id : text) (gen : Z) (x : Slots) : bool :=
  match active_tasks x !! id with Some e => e_generation e =? gen | None => false end.

Definition released (id : text) (gen : Z) (x : Slots) : Slots :=
  let x' := if is_awaiting_decision x id gen then set_awaiting (delete id (awaiting_decision x)) x else x in
  if is_live id gen x then set_active (delete id (active_tasks x)) x' else x'.

Lemma release_eq id gen m : release id gen m = (is_live id gen (m_slots m), set_slots (released id gen (m_slots m)) m).
Proof.
  destruct m as [[]]. unfold release, released, is_live, is_awaiting_decision, bind, gets, ret, get_live, get_active; cbn.
  destruct (bool_decide _); cbn; destruct (_ !! id) as [e|]; cbn; try done; by destruct (_ =? _).
Qed.

Lemma triple_release id gen :
  triple (fun k => sched b k0 k /\ spawned id gen k) (release id gen) (fun _ => inv b false k0).
Proof.
  intros m [Hs Hsp]. rewrite release_eq. split; [|done]. pose proof (sched_ok _ _ _ Hs) as Hok.
  assert (is_live id gen (m_slots m) = true -> pending_resolve (m_slots m) !! id = None) as Hr.
  { unfold is_live. case_match eqn:He; [|done]. intros Hg. bool_hyps. by apply (spawned_no_resolve id gen (core m) a). }
  cbn [snd]. unfold released. destruct (is_awaiting_decision (m_slots m) id gen) eqn:Haw, (is_live id gen (m_slots m)) eqn:Hl.
  - eapply (sched_move b k0 (core m)); [done|exact (move_answered b _ (m_slots m) id (Hr eq_refl))|done|apply Hs|done|done].
  - eapply (sched_move b k0 (core m)); [done|apply (move_forget b _ (m_slots m) id)|done|apply Hs|done|done].
    intros e He. unfold is_live in Hl. rewrite He in Hl. unfold is_awaiting_decision in Haw. bool_hyps. congruence.
  - eapply (sched_move b k0 (core m)); [done|exact (move_stop b _ (m_slots m) id (Hr eq_refl))|done|apply Hs|done|done].
  - done.
Qed.

Lemma triple_task_finished s' id gen :
  triple (fun k => inv b s' k0 k /\ spawned id gen k) (task_finished w id gen) (fun _ => inv b s k0).
Proof.
  unfold task_finished. eapply triple_bind.
  { eapply triple_pre; [apply triple_release|]. by intros k [[H _] ?]. }
  intros matched. apply (triple_then _ _ _ (inv b false k0)); [apply keeps_when, keeps_end_boost|].
  triple_skip. apply (triple_then _ _ _ (inv b false k0)); [apply keeps_when, triple_resume_inner|].
  apply (triple_then _ _ _ (inv b s k0)); [apply triple_drain_inv|].
  apply (triple_then _ _ _ (inv b s k0)); [apply keeps_when, keeps_after_end|apply triple_quiet; auto with quiet].
Qed.

(** A message of a spawned worker. *)
Definition done_ok (d : TaskDone) (k : Core) : Prop := spawned (d_task_id d) (d_generation d) k.

Lemma triple_task_done d :
  triple (fun k => inv b s k0 k /\ done_ok d k) (on_task_done w d) (fun _ => inv b s k0).
Proof.
  unfold on_task_done. apply (triple_then _ _ _ (inv b s k0)); [|apply keeps_reconcile].
  unfold handle_task_done. triple_case; [apply triple_task_finished| |apply triple_decision_ready].
  eapply triple_pre; [apply triple_decision_pending|]. by intros k [].
Qed.
End Finishing.

(** ** Answers of resolver plugins *)

Section Resolved.
Context (w : World) (s : bool) (k0 : Core).

Lemma no_resolve_unqueued_triple id :
  triple (fun k => inv true s k0 k /\ (id ∉ queued_ids (c_slots k))) (remove_resolve id)
    (fun _ k => inv true s k0 k /\ (id ∉ queued_ids (c_slots k)) /\ no_resolve id k).
Proof.
  intros m [H1 H2]. pose proof (triple_unresolve true s k0 id m H1) as [H3 H4]. by split_and!.
Qed.

Lemma start_bypass {A} q id (c : M A) :
  q_task_id q = id ->
  triple (fun k => inv true s k0 k /\ (id ∉ queued_ids (c_slots k)) /\ no_resolve id k) (do_start_task w q) (fun _ => inv true false k0).
Proof.
  intros <-. apply triple_to_false. eapply triple_pre; [apply triple_do_start|].
  intros k ([H1 _] & H2 & H3). split; [done|]. split_and!; [done|done|by left].
Qed.

Lemma stop_unqueued id :
  triple (fun k => inv true s k0 k /\ (id ∉ queued_ids (c_slots k)) /\ no_resolve id k) (active_remove id)
    (fun _ k => inv true false k0 k /\ (id ∉ queued_ids (c_slots k)) /\ no_resolve id k).
Proof.
  intros m (H1 & H2 & H3). split; [|by split]. by apply (triple_stop_inv true s k0 id m).
Qed.
End Resolved.

Section Answered.
Context (w : World) (s : bool) (k0 : Core).

Lemma triple_reenter_start id plugin applied q :
  q_task_id q = id ->
  triple (fun k => inv true s k0 k /\ (id ∉ queued_ids (c_slots k))) (reenter_start w id plugin applied q) (fun _ => inv true s k0).
Proof.
  intros Hid. unfold reenter_start. eapply triple_bind; [apply no_resolve_unqueued_triple|]. intros []. triple_skip.
  apply (triple_then _ _ _ (inv true false k0)); [|apply triple_drain_inv].
  assert (forall q', q_task_id q' = id ->
    triple (fun k => inv true s k0 k /\ (id ∉ queued_ids (c_slots k)) /\ no_resolve id k) (do_start_task w q') (fun _ => inv true false k0)) as Hstart.
  { intros q' Hq'. by apply (start_bypass w s k0 q' id skip). }
  assert (forall url, q_task_id (apply_resolve_to_queued url (set_resolver plugin true q)) = id) as Hurl by (by intros []).
  assert (triple (fun k => inv true s k0 k /\ (id ∉ queued_ids (c_slots k)) /\ no_resolve id k)
    (do_start_task w (match applied with
                      | Some url => apply_resolve_to_queued url (set_resolver plugin true q)
                      | None => set_resolver plugin true q
                      end)) (fun _ => inv true false k0)) as Hbound.
  { destruct applied as [url|]; apply Hstart; [apply Hurl|exact Hid]. }
  destruct a as [[|c bound]|]; [|exact Hbound|exact Hbound].
  triple_case; [apply Hstart; exact Hid|].
  eapply triple_bind; [apply stop_unqueued|]. intros []. by apply (start_bypass w false k0 _ id skip).
Qed.

Lemma triple_reenter_resume id applied :
  triple (fun k => inv true s k0 k /\ (id ∉ queued_ids (c_slots k))) (reenter_resume w id applied) (fun _ => inv true s k0).
Proof.
  unfold reenter_resume. eapply triple_bind; [apply no_resolve_unqueued_triple|]. intros [].
  eapply triple_bind; [apply stop_unqueued|]. intros [].
  apply (triple_then _ _ _ (fun k => sched true k0 (drop_applied id k) /\ may_resume true id k)).
  - intros m ([((H1 & H2 & H3) & H4 & H5) _] & H6 & H7). split; [|split_and!; [done|done|by left]].
    split; [|done]. split_and!; [done|done|]. cbn in *. by rewrite H3, insert_empty, delete_singleton_eq.
  - apply (triple_then _ _ _ (inv true false k0)); [|apply triple_drain_inv]. apply triple_to_false.
    eapply triple_pre; [apply triple_do_resume|]. intros k [H1 H2]. naive_solver.
Qed.

Lemma triple_fail_resolve id :
  triple (inv true s k0) (do! remove_resolve id in do! active_remove id in drain_queue w) (fun _ => inv true s k0).
Proof.
  eapply triple_bind; [apply triple_unresolve|]. intros [].
  apply (triple_then _ _ _ (inv true false k0)); [apply triple_stop_inv|apply triple_drain_inv].
Qed.

Lemma resolve_unqueued k id p : inv true s k0 k -> pending_resolve (c_slots k) !! id = Some p -> id ∉ queued_ids (c_slots k).
Proof.
  intros [H _] Hp Hin. pose proof (sched_ok _ _ _ H) as Hok. destruct (ok_resolve _ Hok id p Hp) as (e & He & _).
  apply (ok_disjoint _ Hok) in Hin. congruence.
Qed.

Lemma triple_stale_answer id gen p :
  resolve_generation <$> p <> Some gen ->
  triple (fun k => inv true s k0 k /\ pending_resolve (c_slots k) !! id = p)
    (let! live := get_live id gen in when live (do! active_remove id in drain_queue w)) (fun _ => inv true s k0).
Proof.
  intros Hp. apply get_live_triple; cbn [when]; [|apply triple_quiet_inv; [done|by intros k [[]]]].
  apply (triple_then _ _ _ (inv true false k0)); [|apply triple_drain_inv].
  eapply triple_pre; [apply triple_stop_inv|]. intros k [[H1 H2] (e & He & Hg)]. split; [done|].
  unfold no_resolve. destruct p as [p|]; [|done]. destruct Hp. cbn.
  destruct (ok_resolve _ (sched_ok _ _ _ (proj1 H1)) id p H2) as (e' & He' & Hg' & _). congruence.
Qed.

Lemma triple_resolve_ready out : triple (inv true s k0) (on_resolve_ready w out) (fun _ => inv true s k0).
Proof.
  unfold on_resolve_ready. apply (triple_then _ _ _ (inv true s k0)); [|apply keeps_reconcile]. unfold handle_resolve_ready.
  apply (triple_read _ (fun k => pending_resolve (c_slots k) !! o_task_id out)). intros p.
  triple_case; [apply triple_stale_answer; by bool_hyps|]. bool_hyps.
  assert (forall k, inv true s k0 k /\ pending_resolve (c_slots k) !! o_task_id out = p -> inv true s k0 k /\ (o_task_id out ∉ queued_ids (c_slots k))) as Hun.
  { intros k [H1 H2]. split; [done|]. destruct p as [p|]; [|done]. by eapply resolve_unqueued. }
  triple_case; [eapply triple_pre; [apply (triple_pause w true s k0 (o_task_id out) false true); done|by intros k []]|].
  assert (triple (fun k => inv true s k0 k /\ pending_resolve (c_slots k) !! o_task_id out = p)
    (do! remove_resolve (o_task_id out) in do! active_remove (o_task_id out) in drain_queue w) (fun _ => inv true s k0)) as Hfail.
  { eapply triple_pre; [apply triple_fail_resolve|by intros k []]. }
  assert (triple (fun k => inv true s k0 k /\ pending_resolve (c_slots k) !! o_task_id out = p)
    (remove_resolve (o_task_id out)) (fun _ => inv true s k0)) as Hremove.
  { eapply triple_conseq; [apply triple_unresolve|by intros k []|]. by intros ? k []. }
  triple_skip. destruct a as [[t|]|]; [|exact Hfail|exact Hfail].
  destruct (o_result out) as [applied|]; [|do 3 triple_skip; exact Hfail].
  destruct (o_kind out); [|eapply triple_pre; [apply triple_reenter_resume|exact Hun]].
  destruct p as [[q g|g]|]; [|exact Hremove|exact Hremove].
  destruct (decide (q_task_id q = o_task_id out)) as [Hq|Hq].
  - eapply triple_pre; [apply (triple_reenter_start _ (o_identity out) applied q Hq)|exact Hun].
  - intros m [[Hs _] Hp]. destruct Hq. by eapply (ok_payload _ (sched_ok _ _ _ Hs)).
Qed.
End Answered.

(** ** Boosting a task *)

Section Boosting.
Context (w : World) (s : bool) (k0 : Core) (id : text).
Definition kept (settle : bool) (k : Core) : Prop := inv true settle k0 k /\ withheld id k.

Lemma kept_pre {A} P (c : M A) (Q : A -> Core -> Prop) :
  triple P c Q -> triple (fun k => P k /\ withheld id k) c Q.
Proof. intros H. eapply triple_pre; [exact H|]. by intros k []. Qed.

Lemma withheld_slots P (f : Slots -> Slots) :
  (forall x, pending_queue (f x) = pending_queue x) -> triple (fun k => P k /\ withheld id k) (on_slots f) (fun _ => withheld id).
Proof. intros Hf. apply triple_on_slots. intros k [_ [H1 H2]]. split; [|done]. unfold queued_ids in *. cbn. by rewrite Hf. Qed.

Lemma kept_drain s' : triple (kept s') (drain_queue w) (fun _ => kept s).
Proof.
  intros m [H1 H2]. split; [by apply (triple_drain_inv w true s k0 s' m)|].
  apply (withheld_drain w id true k0 m). split; [apply H1|done].
Qed.

Lemma kept_end_boost i : triple (kept s) (end_boost_of w i) (fun _ => kept s).
Proof.
  unfold end_boost_of. apply (triple_read _ c_priority). intros p.
  destruct (decide (p = Some i)) as [->|Hp]; [by intros m [[_ [_ H]] ?]; congruence|].
  rewrite bool_decide_eq_false_2 by done. eapply triple_conseq; [by apply triple_quiet|intros k Hk; exact Hk|by intros ? k []].
Qed.

Lemma kept_stop i :
  triple (fun k => (inv true s k0 k /\ no_resolve i k) /\ withheld id k) (active_remove i) (fun _ => kept false).
Proof.
  intros m Hm. split; [by apply (kept_pre _ _ _ (triple_stop_inv true s k0 i) m)|].
  by apply (withheld_slots (fun k => inv true s k0 k /\ no_resolve i k) _ (fun _ => eq_refl) m).
Qed.

Lemma kept_quiet {A} P (c : M A) : quiet c -> (forall k, P k -> kept s k) -> triple P c (fun _ => kept s).
Proof. intros Hc HP. eapply triple_conseq; [by apply triple_quiet|exact HP|done]. Qed.

Lemma kept_pause_active i entry notify :
  triple (fun k => (inv true s k0 k /\ no_resolve i k) /\ withheld id k) (pause_active w i entry notify true) (fun _ => kept s).
Proof.
  unfold pause_active. apply (triple_then _ _ _ (kept false)); [apply kept_stop|].
  do 4 triple_skip. triple_case; [apply kept_drain|]. triple_skip.
  triple_case; [apply (triple_then _ _ _ (kept s)); [apply kept_drain|apply triple_quiet; auto with quiet]|]. triple_skip.
  apply (triple_then _ _ _ (kept s)); [apply kept_drain|].
  apply (triple_then _ _ _ (kept s)); [apply kept_end_boost|apply triple_quiet; auto with quiet].
Qed.

Lemma kept_pause i : triple (kept s) (pause_task_silent w i) (fun _ => kept s).
Proof.
  unfold pause_task_silent, pause_task_inner.
  apply (triple_then _ _ _ (fun k => (inv true s k0 k /\ no_resolve i k) /\ withheld id k)).
  { intros m [H1 H2]. by split; [apply (clear_pending_resolve_triple true s k0 i m)|]. }
  do 2 triple_skip. triple_case; [apply kept_quiet; [quiet_tac|by intros k [[] ?]]|].
  triple_skip. triple_case.
  - triple_skip. triple_case; [apply kept_quiet; [auto with quiet|by intros k [[] ?]]|].
    apply (triple_then _ _ _ (kept s)); [|apply triple_quiet; quiet_tac].
    intros m [[H1 _] H2]. split; [by apply (triple_pq_remove true s k0 n m)|].
    eapply (withheld_sub id (core m)); [done|apply pq_remove_sublist|done].
  - unfold get_active. triple_skip. triple_skip. triple_case; [apply kept_quiet; [done|by intros k [[] ?]]|].
    triple_case; [apply kept_pause_active|]. apply kept_quiet; [quiet_tac|by intros k [[] ?]].
Qed.

Lemma kept_all l (f : text -> M unit) :
  (forall i, f i = pause_task_silent w i) \/ (forall i, f i = (do! record_auto_paused i in pause_task_silent w i)) ->
  triple (kept s) (for_each l f) (fun _ => kept s).
Proof.
  intros Hf. apply triple_for_each. intros i _. destruct Hf as [-> | ->]; [apply kept_pause|]. triple_skip. apply kept_pause.
Qed.

(** The target is out of the queue, everything else paused. *)
Lemma triple_pause_all :
  triple (fun k => inv true s k0 k /\ c_priority k = None) (pause_all_but w id)
    (fun q k => kept s k /\ forall q', q = Some q' -> q_task_id q' = id).
Proof.
  unfold pause_all_but. apply (triple_read _ (fun k => position id (pending_queue (c_slots k)))). intros pos.
  apply (triple_read _ (fun k => pos ← pos; pq_get (pending_queue (c_slots k)) pos)). intros target.
  apply (triple_then _ _ _ (fun k => kept s k /\ forall q', target = Some q' -> q_task_id q' = id)).
  - intros m [[[H1 H2] Hpos] Htarget]. destruct pos as [i|]; cbn in Htarget.
    + apply position_lookup in Hpos as (q & Hq & Hid). unfold pq_get in Htarget. cbn [core c_slots] in *. rewrite Hq in Htarget.
      split; [split; [by apply (triple_pq_remove true s k0 i m)|]|intros q' Hq'; congruence].
      split; [|done]. change (id ∉ map q_task_id (pq_items (snd (pq_remove i (pending_queue (m_slots m)))))).
      rewrite (pq_remove_items _ _ _ Hq), <-Hid.
      apply (delete_ids i (pending_queue (m_slots m)) q Hq), (ok_unique _ (sched_ok _ _ _ (inv_sched _ _ _ _ H1))).
    + apply position_None in Hpos. by subst.
  - apply triple_fact. intros Ht.
    unfold active_ids_but, queued_ids_but. triple_skip. triple_skip.
    apply (triple_then _ _ _ (kept s)); [apply triple_quiet; quiet_tac|].
    apply (triple_then _ _ _ (kept s)); [apply kept_all; by left|]. triple_skip.
    apply (triple_then _ _ _ (kept s)); [apply kept_all; by right|]. triple_skip.
    apply (triple_then _ _ _ (kept s)); [apply kept_all; by right|]. by apply triple_ret.
Qed.
End Boosting.

Section Boost.
Context (w : World) (s : bool) (k0 : Core).

Lemma triple_start_withdrawn id q :
  q_task_id q = id ->
  triple (fun k => (inv true s k0 k /\ (id ∉ queued_ids (c_slots k))) /\ active_tasks (c_slots k) !! id = None)
    (if q_is_resume q then do_resume_task w id else do_start_task w q) (fun _ => inv true s k0).
Proof.
  intros <-. assert (forall k, (inv true s k0 k /\ (q_task_id q ∉ queued_ids (c_slots k))) /\ active_tasks (c_slots k) !! q_task_id q = None ->
    sched true k0 k /\ (q_task_id q ∉ queued_ids (c_slots k)) /\ no_resolve (q_task_id q) k) as Hpre.
  { intros k [[[H1 _] H2] H3]. split_and!; [done|done|]. by eapply no_resolve_inactive; [apply H1|]. }
  destruct (q_is_resume q); apply (triple_start_inv true s k0 (q_task_id q)).
  - eapply triple_pre; [apply (triple_resume_checked w true k0)|]. intros k (H1 & H2 & H3)%Hpre. split; [done|]. split_and!; [done|done|by left].
  - apply confined_resume.
  - by intros k [[? ?] ?].
  - eapply triple_pre; [apply (triple_do_start w true k0)|]. intros k (H1 & H2 & H3)%Hpre. split; [done|]. split_and!; [done|done|by left].
  - apply confined_start.
  - by intros k [[? ?] ?].
Qed.

Lemma triple_start_target id target :
  (forall q, target = Some q -> q_task_id q = id) ->
  triple (fun k => inv true s k0 k /\ (id ∉ queued_ids (c_slots k))) (start_target w id target) (fun _ => inv true s k0).
Proof.
  intros Ht. unfold start_target. apply (triple_read _ (running id)). intros active.
  apply (triple_then _ _ _ (inv true s k0)).
  - destruct active; cbn [when negb]; [apply triple_quiet_inv; [done|by intros k [[]]]|].
    apply (triple_then _ _ _ (fun k => (inv true s k0 k /\ (id ∉ queued_ids (c_slots k))) /\ active_tasks (c_slots k) !! id = None)).
    + intros m [[H1 H2] H3]. split; [split; [|done]|by apply running_false in H3].
      by apply (inv_same _ _ _ (core m)).
    + destruct target as [q|]; [apply triple_start_withdrawn; by apply Ht|].
      eapply triple_pre; [apply (triple_resume_inner w true s k0)|by intros k [[]]].
  - apply (triple_read _ (running id)). intros [|]; cbn [negb].
    + apply triple_quiet_inv; [quiet_tac|by intros k []].
    + eapply triple_pre; [apply keeps_clear_priority|by intros k []].
Qed.

Lemma triple_set_priority id : triple (inv true s k0) (set_priority_task w id) (fun _ => inv true s k0).
Proof.
  unfold set_priority_task. triple_skip. triple_case.
  { eapply triple_bind; [apply keeps_clear_priority|]. intros []. by apply triple_ret. }
  triple_skip. repeat case_match; try (by apply triple_ret).
  apply (triple_then _ _ _ (inv true s k0)); [by apply keeps_modify|].
  apply (triple_then _ _ _ (fun k => inv true s k0 k /\ c_priority k = None)).
  { intros m Hm. split; [|done]. by apply (inv_same _ _ _ (core m)). }
  eapply triple_bind; [apply triple_pause_all|]. intros target. apply triple_fact. intros Ht.
  apply (triple_then _ _ _ (fun k => inv true s k0 k /\ (id ∉ queued_ids (c_slots k)))).
  - intros m [G1 [G2 _]]. split; [|done]. by apply (inv_same _ _ _ (core m)).
  - eapply triple_bind; [by apply triple_start_target|]. intros []. by apply triple_ret.
Qed.
End Boost.

(** ** Configuration: limits change, tasks move between queues *)

(** What every operation keeps: the core is well formed and, with [s], no
    waiting task has a free slot unless more than [n] entries were taken out. *)
Definition grown (n : nat) (k : Core) : Prop := core_ok k /\ (n <= c_stale k)%nat.
Definition stable (s : bool) (n : nat) (k : Core) : Prop := grown n k /\ (s = true -> settled k \/ (n < c_stale k)%nat).

(** A command that keeps [inv] from each state on keeps [stable]. *)
Lemma inv_stable {A} b s n (P : Core -> Prop) (c : M A) :
  (forall s k0, triple (fun k => inv b s k0 k /\ P k) c (fun _ => inv b s k0)) ->
  triple (fun k => stable s n k /\ P k) c (fun _ => stable s n).
Proof.
  intros Hc m [[[H1 Hn] H2] HP].
  assert (forall x, (x = true -> settled (core m)) -> inv b x (core m) (core m)) as Hstart.
  { intros x Hx. split; [by apply sched_refl|]. intros E. left. by apply Hx. }
  destruct (Hc false (core m) m) as [(Hok & _ & _ & Hle) _]; [split; [by apply Hstart|done]|].
  split; [split; [done|lia]|]. intros Hs. destruct (H2 Hs) as [H|H]; [|right; lia].
  destruct (Hc true (core m) m) as [_ [G|G]]; [split; [by apply Hstart|done]|done|by left|right; lia].
Qed.

Lemma stable_drain w s n : triple (grown n) (drain_queue w) (fun _ => stable s n).
Proof.
  intros m [Hm Hn]. destruct (triple_drain w true (core m) m (sched_refl true _ Hm)) as [(H & _ & _ & Hle) Hs].
  split; [split; [done|lia]|by left].
Qed.

(** A change of the queues of tasks, everywhere at once. *)
Lemma slots_requeue x (g : text -> ActiveTaskEntry -> ActiveTaskEntry) a p :
  slots_ok x -> (forall id, a !! id = g id <$> active_tasks x !! id) ->
  (forall id e, e_generation (g id e) = e_generation e /\ e_handle (g id e) = e_handle e) ->
  pq_ok p -> map q_task_id (pq_items p) = queued_ids x -> slots_ok (set_pending p (set_active a x)).
Proof.
  intros [H1 H2 H3 H4 H5 H6 H7 H8] Ha Hg Hp Hids.
  assert (forall id e, a !! id = Some e -> exists e0, active_tasks x !! id = Some e0 /\ e_generation e0 = e_generation e) as Hback.
  { intros id e He. rewrite Ha in He. apply fmap_Some in He as (e0 & He0 & ->). exists e0. split; [done|]. by destruct (Hg id e0). }
  constructor; cbn; unfold queued_ids; cbn; rewrite ?Hids; try done.
  - intros id Hid. by rewrite Ha, H3.
  - intros id e (e0 & He & <-)%Hback. by eapply H4.
  - intros i j e e' (e0 & He & <-)%Hback (e1 & He1 & <-)%Hback. by apply (H5 i j e0 e1).
  - intros id r Hr. destruct (H7 id r Hr) as (e & He & Hge & Hh). exists (g id e). rewrite Ha, He. cbn.
    destruct (Hg id e) as [-> ->]. done.
Qed.

Section Configuration.
Context (w : World) (s : bool) (n : nat).

Lemma stable_quiet {A} (c : M A) : quiet c -> triple (stable s n) c (fun _ => stable s n).
Proof. apply triple_quiet. Qed.

Lemma stable_set_max max : triple (stable s n) (set_max_concurrent w max) (fun _ => stable s n).
Proof.
  apply (triple_then _ _ _ (grown n)); [|apply stable_drain]. intros m [H _]. exact H.
Qed.

Lemma stable_update_queue queue_id max : triple (stable s n) (update_queue w queue_id max) (fun _ => stable s n).
Proof.
  unfold update_queue. triple_skip. triple_case; [by apply triple_quiet|].
  apply (triple_then _ _ _ (grown n)); [|triple_skip; apply stable_drain]. intros m [H _]. unfold modify; cbn. by case_match.
Qed.

(** The queue of a task changes in its row, its entry and its queued item. *)
Definition change_queue (change : text -> text -> option text) (k k' : Core) : Prop :=
  (forall id, c_rows k' !! id =
     (fun r => match change id (r_queue_id r) with Some x => row_set_queue x r | None => r end) <$> c_rows k !! id) /\
  (forall id, active_tasks (c_slots k') !! id =
     (fun e => match change id (e_queue_id e) with Some x => entry_set_queue x e | None => e end) <$> active_tasks (c_slots k) !! id) /\
  pq_items (pending_queue (c_slots k')) =
    map (fun q => match change (q_task_id q) (q_queue_id q) with Some x => set_queue x q | None => q end)
      (pq_items (pending_queue (c_slots k))) /\
  pq_ok (pending_queue (c_slots k')) /\
  c_slots k' = set_pending (pending_queue (c_slots k')) (set_active (active_tasks (c_slots k')) (c_slots k)) /\
  c_applied k' = c_applied k.

Lemma change_queue_ok change k k' : core_ok k -> change_queue change k k' -> core_ok k'.
Proof.
  intros (H1 & H2 & H3) (G1 & G2 & G3 & G4 & G5 & G6). split_and!; [| |congruence].
  - rewrite G5. eapply (slots_requeue _ (fun id e => match change id (e_queue_id e) with Some x => entry_set_queue x e | None => e end)); try done.
    + intros i e. by case_match.
    + rewrite G3. unfold queued_ids. rewrite map_map. apply map_ext. intros q. by case_match.
  - intros q r Hq Hr Hrow. rewrite G3 in Hq. apply list_elem_of_fmap in Hq as (q0 & -> & Hq0).
    assert (q_is_resume q0 = true) as Hr0 by (by destruct (change _ _)).
    assert (q_task_id (match change (q_task_id q0) (q_queue_id q0) with Some x => set_queue x q0 | None => q0 end) = q_task_id q0) as Hid by (by case_match).
    rewrite Hid, G1 in Hrow. apply fmap_Some in Hrow as (r0 & Hrow0 & ->). pose proof (H2 q0 r0 Hq0 Hr0 Hrow0) as Hsame.
    rewrite Hsame. by case_match.
Qed.

Lemma moved_set_queue from to q : moved from to q = match (if decide (q_queue_id q = from) then Some to else None) with Some x => set_queue x q | None => q end.
Proof. unfold moved. by case_decide. Qed.

(** Three changes of the state in a row. *)
Lemma triple_modify3 {A} P f1 f2 f3 (c : M A) (R : Core -> Prop) Q :
  (forall m, P (core m) -> R (core (f3 (f2 (f1 m))))) -> triple R c Q ->
  triple P (do! modify f1 in do! modify f2 in do! modify f3 in c) Q.
Proof. intros H Hc m Hm. by apply (Hc (f3 (f2 (f1 m)))), H. Qed.

Lemma stable_delete_queue queue_id : triple (stable s n) (delete_queue w queue_id) (fun _ => stable s n).
Proof.
  unfold delete_queue. triple_case; [by apply triple_quiet|]. triple_skip. triple_case; [by apply triple_quiet|].
  triple_skip. unfold on_pending, on_slots. apply (triple_modify3 _ _ _ _ _ (grown n)).
  - intros m [[Hm Hn] _]. split; [|exact Hn]. pose proof (reassign_queue_spec queue_id MAIN_QUEUE_ID _ (ok_counts _ (proj1 Hm))) as [H1 H2].
    apply (change_queue_ok (fun _ x => if decide (x = queue_id) then Some MAIN_QUEUE_ID else None) (core m)); [done|].
    split_and!; [| | |exact H1|done|done]; cbn.
    + intros i. rewrite lookup_fmap. destruct (m_rows m !! i); cbn; [|done]. by case_decide.
    + intros i. rewrite lookup_fmap. destruct (active_tasks (m_slots m) !! i); cbn; [|done]. by case_decide.
    + etrans; [exact H2|]. apply map_ext. intros q. apply moved_set_queue.
  - apply (triple_then _ _ _ (grown n)); [by intros m Hm|]. do 2 triple_skip.
    apply (triple_then _ _ _ (grown n)); [apply triple_quiet, quiet_for_each; auto with quiet|]. triple_skip.
    apply (triple_then _ _ _ (stable s n)); [apply stable_drain|apply triple_quiet; quiet_tac].
Qed.

(** The queued item of a task, by its position or by its id. *)
Lemma set_task_queue_items id queue_id p :
  NoDup (map q_task_id (pq_items p)) ->
  pq_items (snd (set_task_queue id queue_id p)) =
  map (fun q => match (if decide (q_task_id q = id) then Some queue_id else None) with Some x => set_queue x q | None => q end) (pq_items p).
Proof.
  intros Hn. set (f := fun q => match _ with Some x => set_queue x q | None => q end).
  assert (forall q, q_task_id q <> id -> f q = q) as Hother by (intros q Hq; subst f; cbn; by rewrite decide_False).
  assert (id ∉ map q_task_id (pq_items p) -> map f (pq_items p) = pq_items p) as Hnone.
  { intros Hid. rewrite <-(map_id (pq_items p)) at 2. apply map_ext_in. intros q Hq. apply Hother. intros <-.
    apply Hid, list_elem_of_fmap. exists q. split; [done|by apply list_elem_of_In]. }
  unfold set_task_queue. destruct (position id p) as [i|] eqn:E; [|apply position_None in E; cbn; by rewrite Hnone].
  apply position_lookup in E as (q & Hi & Hid). rewrite Hi.
  assert (map f (pq_items p) = <[i := set_queue queue_id q]> (pq_items p)) as Hmap.
  { apply list_eq. intros j. rewrite list_lookup_fmap. destruct (decide (i = j)) as [<-|Hij].
    - rewrite list_lookup_insert_eq, Hi by (by apply lookup_lt_Some in Hi). cbn. subst f. cbn. by rewrite decide_True.
    - rewrite list_lookup_insert_ne by done. destruct (pq_items p !! j) as [q'|] eqn:Hj; [|done]. cbn. f_equal. apply Hother.
      intros Hid'. apply Hij, (NoDup_lookup _ i j id Hn); rewrite list_lookup_fmap, ?Hi, ?Hj; cbn; congruence. }
  rewrite Hmap. case_decide as Hq; cbn; [|done]. rewrite list_insert_id; [done|]. rewrite Hi. f_equal. destruct q; cbn in *. by subst.
Qed.

Lemma stable_move_task id queue_id : triple (stable s n) (move_task_to_queue w id queue_id) (fun _ => stable s n).
Proof.
  unfold move_task_to_queue. triple_skip. triple_case; [by apply triple_quiet|]. clear Heqb.
  generalize (if decide (queue_id = []) then MAIN_QUEUE_ID else queue_id). clear queue_id. intros queue_id.
  unfold on_pending, on_slots. apply (triple_modify3 _ _ _ _ _ (grown n)); [|do 2 triple_skip; apply stable_drain].
  intros m [[Hm Hn] _]. split; [|exact Hn]. apply (change_queue_ok (fun i _ => if decide (i = id) then Some queue_id else None) (core m)); [done|].
  pose proof (set_task_queue_spec id queue_id _ (ok_counts _ (proj1 Hm))) as [H1 _].
  split_and!; [| |by apply set_task_queue_items, (ok_unique _ (proj1 Hm))|exact H1|done|done]; cbn; intros i; rewrite lookup_alter; case_decide; subst;
    rewrite ?decide_True, ?decide_False by done; try done; by destruct (_ !! i).
Qed.
End Configuration.
