(* ===== verification/Positions.v ===== *)
(** * Positions: what the clients of the manager know of its queue

    The manager publishes the order of the waiting tasks as deltas
    ([QueueOrder]), at once or through [m_positions_dirty] at the end of the
    batch.  [told] says that the last published order is the queue's, or that
    the queue is marked; the file shows that every handler keeps it, except the
    boost of a waiting task (see [Scheduler]). *)
From Stdlib Require Import Ascii.
From S2P Require Import Prelude Text QueueOrder PendingQueue Slots Manager.

(** ** The part of the manager that concerns the clients *)

Definition position_events (out : list Effect) : list QueueOrderDelta :=
  omap (fun e => match e with Positions d => Some d | _ => None end) out.

(** What a subscriber from the start shows. *)
Definition shown (m : DownloadManager) : list QueuePosition := foldl receive [] (position_events (m_out m)).

Record View := mk_view {
  v_ids : list text; v_dirty : bool; v_order : Keys; v_suppress : bool; v_shown : list QueuePosition }.

Definition view (m : DownloadManager) : View :=
  mk_view (queued_ids (m_slots m)) (m_positions_dirty m) (m_queue_order m) (m_suppress_bulk m) (shown m).

(** The subscriber shows what was published. *)
Definition history (v : View) : Prop :=
  v_suppress v = false /\ exists queues, publish_all queues = (v_order v, v_shown v).

Definition told (v : View) : Prop :=
  v_suppress v = false /\ exists queues, publish_all queues = (v_order v, v_shown v) /\
    (v_dirty v = true \/ default [] (last queues) = v_ids v).

Lemma told_history v : told v -> history v.
Proof. intros (H & queues & Hq & _). split; [done|by exists queues]. Qed.

(** ** Triples over views *)

Definition leads {A} (P : View -> Prop) (c : M A) (Q : View -> Prop) : Prop :=
  forall m, P (view m) -> Q (view (snd (c m))).

(** A command that changes nothing of the view; one that keeps [told]. *)
Definition calm {A} (c : M A) : Prop := forall m, view (snd (c m)) = view m.
Definition telling {A} (c : M A) : Prop := leads told c told.

Lemma leads_bind {A B} P (c : M A) (k : A -> M B) R Q :
  leads P c R -> (forall a, leads R (k a) Q) -> leads P (bind c k) Q.
Proof. intros Hc Hk m Hm. unfold bind. specialize (Hc m Hm). destruct (c m) as [a m']. by apply Hk. Qed.

Lemma leads_calm {A} P (c : M A) : calm c -> leads P c P.
Proof. intros Hc m Hm. by rewrite Hc. Qed.

Lemma leads_pre {A} P P' (c : M A) Q : leads P' c Q -> (forall v, P v -> P' v) -> leads P c Q.
Proof. intros Hc HP m Hm. by apply Hc, HP. Qed.

Lemma calm_bind {A B} (c : M A) (k : A -> M B) : calm c -> (forall a, calm (k a)) -> calm (bind c k).
Proof. intros Hc Hk m. unfold bind. specialize (Hc m). destruct (c m) as [a m']. by rewrite Hk. Qed.

Lemma calm_for_each {A} (l : list A) (f : A -> M unit) : (forall a, calm (f a)) -> calm (for_each l f).
Proof. intros H. induction l; [done|]. by apply calm_bind. Qed.

Lemma calm_when b c : calm c -> calm (when b c).
Proof. by destruct b. Qed.

Lemma calm_modify (f : DownloadManager -> DownloadManager) : (forall m, view (f m) = view m) -> calm (modify f).
Proof. done. Qed.

Lemma calm_slots (f : Slots -> Slots) : (forall s, queued_ids (f s) = queued_ids s) -> calm (on_slots f).
Proof. intros H m. unfold view. cbn. by rewrite H. Qed.

Lemma calm_emit e : match e with Positions _ => False | _ => True end -> calm (emit e).
Proof.
  intros He m. unfold view, shown, emit, modify; cbn. unfold position_events. rewrite omap_app. cbn.
  by destruct e; rewrite ?app_nil_r.
Qed.

Lemma calm_ret {A} (a : A) : calm (ret a).
Proof. done. Qed.

Lemma calm_gets {A} (f : DownloadManager -> A) : calm (gets f).
Proof. done. Qed.

Create HintDb calm.
#[export] Hint Resolve calm_ret calm_gets : calm.
#[export] Hint Extern 1 (calm (emit _)) => apply calm_emit; exact I : calm.
#[export] Hint Extern 1 (calm (on_slots _)) => apply calm_slots; done : calm.
#[export] Hint Extern 1 (calm skip) => apply calm_ret : calm.

Ltac calm_tac :=
  repeat first
    [ progress intros
    | solve [auto with calm nocore]
    | apply calm_bind
    | apply calm_for_each
    | apply calm_when
    | apply calm_modify; intros; (done || (case_match; done))
    | case_match
    | done ].

Lemma telling_bind {A B} (c : M A) (k : A -> M B) : telling c -> (forall a, telling (k a)) -> telling (bind c k).
Proof. apply leads_bind. Qed.

Lemma telling_calm {A} (c : M A) : calm c -> telling c.
Proof. apply leads_calm. Qed.

Lemma telling_for_each {A} (l : list A) (f : A -> M unit) : (forall a, telling (f a)) -> telling (for_each l f).
Proof. intros H. induction l; [by apply telling_calm|]. by apply telling_bind. Qed.

Lemma telling_when b c : telling c -> telling (when b c).
Proof. destruct b; [done|]. intros _. by apply telling_calm. Qed.

Create HintDb telling.

Ltac telling_tac :=
  repeat first
    [ progress intros
    | solve [auto with telling nocore]
    | solve [apply telling_calm; auto with calm nocore]
    | apply telling_bind
    | apply telling_for_each
    | apply telling_when
    | solve [apply telling_calm, calm_modify; intros; (done || (case_match; done))]
    | case_match ].

(** ** Commands that do not concern the queue *)

Section Calm.
Context (w : World).

Lemma calm_call {A} (f : World -> nat -> A) : calm (call w f).
Proof. done. Qed.

Lemma calm_ask : calm (ask w).
Proof. done. Qed.

Lemma calm_load id : calm (load_task_by_id w id).
Proof. done. Qed.

Lemma calm_column f id : calm (get_column w f id).
Proof. done. Qed.

#[local] Hint Resolve calm_call calm_ask calm_load calm_column : calm.

Lemma calm_status id st : calm (update_task_status w id st).
Proof. unfold update_task_status. calm_tac. Qed.

#[local] Hint Resolve calm_status : calm.

Lemma calm_progress id st : calm (emit_progress_from_db w id st).
Proof. unfold emit_progress_from_db. calm_tac. Qed.

#[local] Hint Resolve calm_progress : calm.

Lemma calm_failure id : calm (persist_task_failure w id).
Proof. unfold persist_task_failure. calm_tac. Qed.

Lemma calm_webhook id : calm (emit_paused_webhook w id).
Proof. unfold emit_paused_webhook. calm_tac. Qed.

Lemma calm_queues : calm (send_all_queues w).
Proof. unfold send_all_queues. calm_tac. Qed.

Lemma calm_snapshot : calm (send_tasks_snapshot w).
Proof. unfold send_tasks_snapshot. calm_tac. Qed.

Lemma calm_started queue_id : calm (emit_queue_started queue_id).
Proof. unfold emit_queue_started. calm_tac. Qed.

#[local] Hint Resolve calm_failure calm_webhook calm_queues calm_snapshot calm_started : calm.

Lemma calm_occupied queue_id : calm (mark_queue_occupied queue_id).
Proof. unfold mark_queue_occupied. calm_tac. Qed.

Lemma calm_sync : calm sync_queue_occupancy.
Proof. unfold sync_queue_occupancy. calm_tac. Qed.

Lemma calm_schedule id queue_id : calm (retry_schedule id queue_id).
Proof. done. Qed.

Lemma calm_unschedule id : calm (retry_unschedule id).
Proof. done. Qed.

Lemma calm_bt_session : calm (ensure_bt_session w).
Proof. unfold ensure_bt_session. calm_tac. Qed.

#[local] Hint Resolve calm_occupied calm_sync calm_schedule calm_unschedule calm_bt_session : calm.

Lemma calm_park id : calm (park_bt_disabled_task w id).
Proof. unfold park_bt_disabled_task. calm_tac. Qed.

Lemma calm_clear_resolve id : calm (clear_pending_resolve id).
Proof. unfold clear_pending_resolve. calm_tac. Qed.

Lemma calm_resolving id : calm (mark_resolving w id).
Proof. unfold mark_resolving. calm_tac. Qed.

Lemma calm_rebind id : calm (rebind_second_stage w id).
Proof. unfold rebind_second_stage. calm_tac. Qed.

Lemma calm_unavailable id : calm (fail_second_stage_unavailable w id).
Proof. apply calm_failure. Qed.

Lemma calm_generation : calm next_generation.
Proof. unfold next_generation. calm_tac. Qed.

Lemma calm_insert id e : calm (active_insert id e).
Proof. unfold active_insert. calm_tac. Qed.

Lemma calm_remove id : calm (active_remove id).
Proof. unfold active_remove. calm_tac. Qed.

Lemma calm_remove_resolve id : calm (remove_resolve id).
Proof. unfold remove_resolve. calm_tac. Qed.

#[local] Hint Resolve calm_park calm_clear_resolve calm_resolving calm_rebind calm_unavailable calm_generation calm_insert
  calm_remove calm_remove_resolve : calm.

Lemma calm_spawn id gen : calm (spawn_worker id gen).
Proof. unfold spawn_worker, get_active. calm_tac. Qed.

Lemma calm_begin_resolve id queue_id is_bt p : calm (begin_resolve w id queue_id is_bt p).
Proof. unfold begin_resolve. calm_tac. Qed.

#[local] Hint Resolve calm_spawn calm_begin_resolve : calm.

Lemma calm_begin_start q : calm (begin_resolve_start w q).
Proof. unfold begin_resolve_start. apply (calm_begin_resolve (q_task_id q)). Qed.

Lemma calm_begin_resume id plugin : calm (begin_resolve_resume w id plugin).
Proof. unfold begin_resolve_resume. calm_tac. Qed.

Lemma calm_launch q : calm (launch w q).
Proof. unfold launch. calm_tac. Qed.

Lemma calm_relaunch id applied : calm (relaunch w id applied).
Proof. unfold relaunch. calm_tac. Qed.

#[local] Hint Resolve calm_begin_start calm_begin_resume calm_launch calm_relaunch : calm.

Lemma calm_start q : calm (do_start_task w q).
Proof. unfold do_start_task. calm_tac. Qed.

Lemma calm_resume id : calm (do_resume_task w id).
Proof. unfold do_resume_task. calm_tac. Qed.

Lemma calm_completed id t : calm (resume_completed w id t).
Proof. unfold resume_completed. calm_tac. Qed.

Lemma calm_boost : calm (persist_boost w).
Proof. unfold persist_boost. calm_tac. Qed.

Lemma calm_record id : calm (record_auto_paused id).
Proof. intros m. unfold record_auto_paused, modify; cbn. by case_decide. Qed.

Lemma calm_pause_failed id : calm (pause_failed_task w id).
Proof. unfold pause_failed_task. calm_tac. Qed.

Lemma calm_pause_seeding id : calm (pause_seeding w id).
Proof. unfold pause_seeding. calm_tac. Qed.

Lemma calm_finish_pause id gen : calm (finish_pending_pause w id gen).
Proof. unfold finish_pending_pause, get_active. calm_tac. Qed.

Lemma calm_forget queue_id : calm (forget_edges queue_id).
Proof. done. Qed.

Lemma calm_live id gen : calm (get_live id gen).
Proof. unfold get_live, get_active. calm_tac. Qed.

#[local] Hint Resolve calm_live : calm.

Lemma calm_release id gen : calm (release id gen).
Proof. unfold release. calm_tac. Qed.
End Calm.

#[export] Hint Resolve calm_call calm_ask calm_load calm_column calm_status calm_progress calm_failure calm_webhook
  calm_queues calm_snapshot calm_started calm_occupied calm_sync calm_schedule calm_unschedule calm_bt_session calm_park calm_clear_resolve
  calm_resolving calm_rebind calm_unavailable calm_generation calm_insert calm_remove calm_remove_resolve calm_spawn
  calm_begin_resolve calm_begin_start calm_begin_resume calm_launch calm_relaunch calm_start calm_resume calm_completed
  calm_boost calm_record calm_pause_failed calm_pause_seeding calm_finish_pause calm_forget calm_live calm_release : calm.

(** ** Commands that change the queue *)

Lemma view_eta v : v = mk_view (v_ids v) (v_dirty v) (v_order v) (v_suppress v) (v_shown v).
Proof. by destruct v. Qed.

(** Publishing tells the clients everything. *)
Lemma leads_broadcast : leads history broadcast_queue_positions told.
Proof.
  intros m (Hs & queues & Hq). cbn in Hs, Hq.
  set (d := diff (m_queue_order m) (queued_ids (m_slots m))).
  assert (view (snd (broadcast_queue_positions m)) =
    mk_view (queued_ids (m_slots m)) false (snd d) (m_suppress_bulk m) (receive (shown m) (fst d))) as ->.
  { unfold broadcast_queue_positions, bind, modify, gets, ret. cbn. fold d. destruct d as [delta keys]. cbn.
    unfold view, shown, emit, modify, position_events; destruct delta; cbn; rewrite ?omap_app, ?foldl_app; done. }
  split; [done|]. exists (queues ++ [queued_ids (m_slots m)]). cbn. split; [|right; by rewrite last_snoc].
  unfold publish_all in *. rewrite foldl_app, Hq. cbn. fold d. by destruct d.
Qed.

Lemma leads_mark : leads history (modify (set_positions_dirty true)) told.
Proof. intros m (Hs & queues & Hq). split; [done|]. exists queues. split; [done|by left]. Qed.

Lemma leads_pending P f : (forall v, P v -> history v) -> leads P (on_pending f) history.
Proof. intros HP m Hm. apply HP in Hm. exact Hm. Qed.

Lemma history_calm {A} (c : M A) : calm c -> leads history c history.
Proof. apply leads_calm. Qed.

Lemma telling_broadcast : telling broadcast_queue_positions.
Proof. eapply leads_pre; [apply leads_broadcast|apply told_history]. Qed.

Lemma telling_flush : telling flush_queue_positions.
Proof. unfold flush_queue_positions. apply telling_bind; [apply telling_calm, calm_gets|]. intros []; [apply telling_broadcast|by apply telling_calm]. Qed.

(** A change of the queue, then what tells it. *)
Lemma telling_change {A} f (c : M A) : leads history c told -> telling (do! on_pending f in c).
Proof. intros Hc. eapply leads_bind; [apply leads_pending, told_history|]. by intros _. Qed.

Lemma leads_broadcast_then {A} (c : M A) : telling c -> leads history (do! broadcast_queue_positions in c) told.
Proof. intros Hc. eapply leads_bind; [apply leads_broadcast|]. by intros _. Qed.

Lemma telling_change_broadcast {A} f (c : M A) :
  telling c -> telling (do! on_pending f in do! broadcast_queue_positions in c).
Proof. intros Hc. by apply telling_change, leads_broadcast_then. Qed.

Lemma telling_change_last f : telling (do! on_pending f in broadcast_queue_positions).
Proof. apply telling_change, leads_broadcast. Qed.

#[export] Hint Resolve telling_broadcast telling_flush telling_change_last : telling.
#[export] Hint Extern 2 (telling (bind (on_pending _) (fun _ => bind broadcast_queue_positions _))) =>
  apply telling_change_broadcast; solve [apply telling_calm; calm_tac] : telling.

(** [since v0]: the queue only lost tasks and nothing was published. *)
Definition since (v0 v : View) : Prop :=
  v_ids v `sublist_of` v_ids v0 /\ v_dirty v = v_dirty v0 /\ v_order v = v_order v0 /\
  v_suppress v = v_suppress v0 /\ v_shown v = v_shown v0.

Lemma since_same v0 v : since v0 v -> length (v_ids v) = length (v_ids v0) -> v = v0.
Proof.
  intros (H1 & H2 & H3 & H4 & H5) Hl. rewrite (view_eta v), (view_eta v0). f_equal; try done.
  revert H1 Hl. generalize (v_ids v), (v_ids v0). induction 1 as [|x l1 l2 _ IH|x l1 l2 Hs _]; cbn; intros Hl; [done| |].
  - f_equal. apply IH. lia.
  - apply sublist_length in Hs. lia.
Qed.

Lemma since_history v0 v : history v0 -> since v0 v -> history v.
Proof. intros (H & queues & Hq) (_ & _ & H1 & H2 & H3). unfold history. rewrite H1, H2, H3. split; [done|by exists queues]. Qed.

Lemma leads_pq_remove v0 i : leads (since v0) (on_pending (fun p => snd (pq_remove i p))) (since v0).
Proof.
  intros m (H1 & H2). split; [|exact H2]. etrans; [|exact H1]. cbn. unfold queued_ids; cbn. apply fmap_sublist.
  unfold pq_remove. case_match; cbn; [apply sublist_delete|done].
Qed.

Section Telling.
Context (w : World).

Lemma leads_drain_loop v0 fuel blocked blocked_items cursor :
  leads (since v0) (drain_loop w fuel blocked blocked_items cursor) (since v0).
Proof.
  revert blocked blocked_items cursor. induction fuel as [|fuel IH]; intros blocked blocked_items cursor; cbn [drain_loop].
  { by apply leads_calm. }
  assert (forall A B (c : M A) (k : A -> M B), calm c -> (forall a, leads (since v0) (k a) (since v0)) -> leads (since v0) (bind c k) (since v0)) as Hcalm.
  { intros A B c k Hc Hk. eapply leads_bind; [by apply leads_calm|done]. }
  apply Hcalm; [done|intros cap]. destruct (negb cap); [by apply leads_calm|].
  apply Hcalm; [done|intros pending]. destruct (_ =? 0)%nat; [by apply leads_calm|].
  destruct (pq_get pending cursor) as [item|]; [|by apply leads_calm].
  apply Hcalm; [done|intros active]. destruct active; [eapply leads_bind; [apply leads_pq_remove|]; intros _; apply IH|].
  destruct (decide _); [apply IH|]. apply Hcalm; [done|intros room]. destruct (negb room); [apply IH|].
  eapply leads_bind; [apply leads_pq_remove|]. intros _. apply Hcalm; [|intros _; apply IH].
  destruct (q_is_resume item); [apply (calm_resume w (q_task_id item))|apply (calm_start w item)].
Qed.

Lemma drain_bt_none p : fst (drain_bt p) = [] -> pq_items (snd (drain_bt p)) = pq_items p.
Proof.
  unfold drain_bt. enough (forall items taken rest c, let '(t, r, _) := drain_bt_loop items taken rest c in
    t = [] -> taken = [] /\ r = rest ++ items) as H.
  { specialize (H (pq_items p) [] [] (pq_counts p)). destruct (drain_bt_loop _ _ _ _) as [[t r] c]. cbn. intros ->. by destruct H. }
  induction items as [|q items IH]; intros taken rest c; cbn [drain_bt_loop]; [by rewrite app_nil_r|]. destruct (bt_item q).
  - specialize (IH (taken ++ [q]) rest (counts_sub q c)). destruct (drain_bt_loop _ _ _ _) as [[t r] c'].
    intros [Ht _]%IH. by destruct taken.
  - specialize (IH taken (rest ++ [q]) c). destruct (drain_bt_loop _ _ _ _) as [[t r] c'].
    intros [Ht ->]%IH. by rewrite <-app_assoc.
Qed.

Lemma telling_park : telling (park_pending_bt_tasks w).
Proof.
  intros m Hm. unfold park_pending_bt_tasks, bind at 1, gets at 1, bind at 1, get_pending, gets. destruct (_ || _); [done|].
  destruct (drain_bt (pending_queue (m_slots m))) as [items rest] eqn:E.
  case_bool_decide as Hi; cbn [negb when].
  - subst items. unfold bind, on_pending, on_slots, modify. cbn [for_each snd].
    assert (pq_items rest = pq_items (pending_queue (m_slots m))) as Hr.
    { pose proof (drain_bt_none (pending_queue (m_slots m))) as H. rewrite E in H. by apply H. }
    replace (view _) with (view m); [done|]. unfold view, queued_ids, shown. cbn. by rewrite Hr.
  - revert m Hm E. enough (telling (do! on_pending (fun _ => rest) in
      do! for_each items (fun q => park_bt_disabled_task w (q_task_id q)) in broadcast_queue_positions)) as H by (intros m Hm _; by apply H).
    apply telling_change. eapply leads_bind; [apply history_calm, calm_for_each; auto with calm|]. intros _. apply leads_broadcast.
Qed.

Lemma telling_drain : telling (drain_queue w).
Proof.
  unfold drain_queue. apply telling_bind; [apply telling_park|]. intros _.
  intros m Hm. unfold bind at 1, get_pending at 1, gets at 1, bind at 1, gets at 1. destruct (_ || _); [done|].
  unfold bind at 1, gets at 1. destruct (negb _); [done|]. unfold bind at 1.
  pose proof (leads_drain_loop (view m) (S (pq_len (pending_queue (m_slots m)))) ∅ 0 0 m) as H.
  destruct (drain_loop _ _ _ _ _ m) as [[] m1]. cbn [snd] in H.
  assert (since (view m) (view m1)) as Hsince by (by apply H). pose proof (since_history _ _ (told_history _ Hm) Hsince) as Hh.
  unfold bind, get_pending, gets. destruct (_ =? _)%nat eqn:El.
  - apply Nat.eqb_eq in El. cbn. rewrite (since_same (view m) (view m1)); [done|done|]. cbn. unfold queued_ids. by rewrite !length_map.
  - destruct (pq_is_empty _); [by apply leads_broadcast|by apply leads_mark].
Qed.
End Telling.

#[export] Hint Resolve telling_park telling_drain : telling.

(** ** The handlers *)

Section Handlers.
Context (w : World).

Lemma telling_resume_inner id : telling (resume_task_inner w id).
Proof. unfold resume_task_inner, is_active, has_pending_resolve, capacity. telling_tac. Qed.

Lemma telling_resume id : telling (resume_task w id).
Proof. unfold resume_task. apply (telling_resume_inner id). Qed.

#[local] Hint Resolve telling_resume_inner telling_resume : telling.

Lemma telling_clear_priority : telling (clear_priority w).
Proof. unfold clear_priority. telling_tac. Qed.

#[local] Hint Resolve telling_clear_priority : telling.

Lemma telling_reconcile : telling (reconcile_priority w).
Proof. unfold reconcile_priority, is_active, has_pending_resolve. telling_tac. Qed.

Lemma telling_end_boost id : telling (end_boost_of w id).
Proof. unfold end_boost_of. telling_tac. Qed.

#[local] Hint Resolve telling_reconcile telling_end_boost : telling.

Lemma telling_pause_active id entry notify drain : telling (pause_active w id entry notify drain).
Proof. unfold pause_active. telling_tac. Qed.

#[local] Hint Resolve telling_pause_active : telling.

Lemma telling_pause id notify drain : telling (pause_task_inner w id notify drain).
Proof. unfold pause_task_inner, get_active. telling_tac. Qed.

Lemma telling_pause_silent id : telling (pause_task_silent w id).
Proof. unfold pause_task_silent. apply (telling_pause id). Qed.

Lemma telling_decision_pending id gen : telling (on_decision_pending w id gen).
Proof. unfold on_decision_pending. telling_tac. Qed.

Lemma telling_decision_ready id gen choice : telling (on_decision_ready w id gen choice).
Proof. unfold on_decision_ready. telling_tac. Qed.

Lemma telling_after_end id : telling (after_end w id).
Proof. unfold after_end. telling_tac. Qed.

#[local] Hint Resolve telling_pause telling_pause_silent telling_decision_pending telling_decision_ready telling_after_end : telling.

Lemma telling_task_finished id gen : telling (task_finished w id gen).
Proof. unfold task_finished. telling_tac. Qed.

#[local] Hint Resolve telling_task_finished : telling.

Lemma telling_task_done d : telling (on_task_done w d).
Proof. unfold on_task_done, handle_task_done. telling_tac. Qed.

Lemma telling_reenter_start id plugin applied q : telling (reenter_start w id plugin applied q).
Proof. unfold reenter_start. telling_tac. Qed.

Lemma telling_reenter_resume id applied : telling (reenter_resume w id applied).
Proof. unfold reenter_resume. telling_tac. Qed.

#[local] Hint Resolve telling_reenter_start telling_reenter_resume : telling.

Lemma telling_resolve_ready out : telling (on_resolve_ready w out).
Proof. unfold on_resolve_ready, handle_resolve_ready. telling_tac. Qed.

(** A queued task is announced at the end of the batch. *)
Lemma telling_enqueue q : telling (enqueue_persisted_task w q).
Proof.
  unfold enqueue_persisted_task, capacity. apply telling_bind; [by apply telling_calm|]. intros free.
  destruct (_ || _); [telling_tac|]. apply telling_bind; [apply telling_calm; auto with calm|]. intros _.
  apply telling_change. intros m (Hs & queues & Hq). unfold bind, gets. cbn in Hs. rewrite Hs. cbn [negb when].
  apply leads_mark. split; [done|by exists queues].
Qed.

Lemma telling_unqueue id : telling (unqueue id).
Proof. unfold unqueue. telling_tac. Qed.

#[local] Hint Resolve telling_unqueue : telling.

Lemma telling_cancel id : telling (cancel_task w id).
Proof. unfold cancel_task, get_active. telling_tac. Qed.

Lemma telling_delete id : telling (delete_task w id).
Proof. unfold delete_task, get_active. telling_tac. Qed.

Lemma telling_set_max max : telling (set_max_concurrent w max).
Proof. unfold set_max_concurrent. telling_tac. Qed.

Lemma telling_update_queue queue_id max : telling (update_queue w queue_id max).
Proof. unfold update_queue. telling_tac. Qed.

Lemma calm_set_task_queue id queue_id : calm (on_pending (fun p => snd (set_task_queue id queue_id p))).
Proof. apply calm_slots. intros s. unfold queued_ids. cbn. apply set_task_queue_ids. Qed.

Lemma telling_move_task id queue_id : telling (move_task_to_queue w id queue_id).
Proof. pose proof calm_set_task_queue. unfold move_task_to_queue. telling_tac. Qed.

Lemma telling_delete_queue queue_id : telling (delete_queue w queue_id).
Proof.
  unfold delete_queue. destruct (is_builtin_queue queue_id); [by apply telling_calm|].
  apply telling_bind; [telling_tac|]. intros []; cbn [negb]; [|by apply telling_calm].
  do 3 (apply telling_bind; [telling_tac|]; intros).
  apply telling_change. do 4 (eapply leads_bind; [apply history_calm; calm_tac|]; intros _).
  eapply leads_bind; [apply leads_mark|]. intros _. change (telling (do! drain_queue w in do! flush_queue_positions in do! send_tasks_snapshot w in send_all_queues w)). telling_tac.
Qed.
End Handlers.
