(* ===== verification/BatchInv.v ===== *)
(** * BatchInv: the batch handlers keep what [Sched] and [Positions] show of the
      single-task handlers

    A batch reads the rows of its tasks once, before it starts any: [steady]
    commands leave the rows alone, so the snapshot stays true.  While a batch
    has changed the queue and not announced it yet, the clients are behind
    ([history]); [recording] commands keep that, the announcement ends it. *)
From Stdlib Require Import Ascii.
From S2P Require Import Prelude Text QueueOrder Schedule PendingQueue Slots Manager Batch SchedInv Drain Sched Positions.

(** ** Commands that leave the rows alone *)

Definition steady {A} (c : M A) : Prop := forall m, m_rows (snd (c m)) = m_rows m.

Lemma steady_bind {A B} (c : M A) (k : A -> M B) : steady c -> (forall a, steady (k a)) -> steady (bind c k).
Proof. intros Hc Hk m. unfold bind. specialize (Hc m). destruct (c m) as [a m']. by rewrite Hk. Qed.

Lemma steady_quiet {A} (c : M A) : quiet c -> steady c.
Proof. intros Hq m. specialize (Hq m). by injection Hq. Qed.

Lemma steady_confined {A} id (c : M A) : confined id c -> steady c.
Proof. intros Hc m. apply (only_rows _ _ _ (Hc m)). Qed.

Lemma steady_for_each {A} (l : list A) (f : A -> M unit) : (forall a, steady (f a)) -> steady (for_each l f).
Proof. intros H. induction l; [done|]. by apply steady_bind. Qed.

Lemma steady_slots f : steady (on_slots f).
Proof. done. Qed.

Lemma steady_start w q : steady (do_start_task w q).
Proof. apply (steady_confined (q_task_id q)), confined_start. Qed.

Lemma steady_resume w id : steady (do_resume_task w id).
Proof. apply (steady_confined id), confined_resume. Qed.

Create HintDb steady.
#[export] Hint Resolve steady_slots steady_start steady_resume : steady.

Ltac steady_tac :=
  repeat first
    [ progress intros
    | solve [auto with steady nocore]
    | solve [apply steady_quiet; auto with quiet nocore]
    | apply steady_bind
    | apply steady_for_each
    | case_match
    | done ].

Lemma steady_drain_loop w fuel blocked n cursor : steady (drain_loop w fuel blocked n cursor).
Proof.
  revert blocked n cursor. induction fuel as [|fuel IH]; intros blocked n cursor; cbn [drain_loop]; [done|].
  pose proof (fun i => steady_slots (fun s => set_pending (snd (pq_remove i (pending_queue s))) s)) as Hp.
  unfold get_pending, is_active. steady_tac.
Qed.

#[export] Hint Resolve steady_drain_loop : steady.

Lemma steady_drain w : steady (drain_queue w).
Proof. unfold drain_queue, park_pending_bt_tasks, get_pending, when. steady_tac. Qed.

#[export] Hint Resolve steady_drain : steady.

(** A steady command keeps a fact about the rows. *)
Lemma triple_steady {A} (P : Core -> Prop) (c : M A) (Q : A -> Core -> Prop) rows :
  triple P c Q -> steady c -> triple (fun k => P k /\ c_rows k = rows) c (fun a k => Q a k /\ c_rows k = rows).
Proof. intros Hc Hs m [Hm Hr]. split; [by apply Hc|]. rewrite <- Hr. apply Hs. Qed.

(** ** Quiet parts of the batch handlers *)

Section Quiet.
Context (w : World).

Lemma quiet_load_many ids : quiet (load_tasks_by_ids w ids).
Proof. done. Qed.

Lemma quiet_status_batch ids st : quiet (update_tasks_status_batch w ids st).
Proof. unfold update_tasks_status_batch. quiet_tac. Qed.

#[local] Hint Resolve quiet_status_batch : quiet.

Lemma quiet_select : quiet (select_ids w).
Proof. unfold select_ids. quiet_tac. Qed.

Lemma quiet_order ids : quiet (hash_order w ids).
Proof. unfold hash_order. quiet_tac. Qed.

Lemma quiet_collect scope candidates failed : quiet (collect_failed w scope candidates failed).
Proof. revert failed. induction candidates as [|id l IH]; intros failed; cbn [collect_failed]; [done|]. quiet_tac; apply IH. Qed.

#[local] Hint Resolve quiet_collect : quiet.

Lemma quiet_pause_failed_batch candidates scope : quiet (pause_failed_batch w candidates scope).
Proof. unfold pause_failed_batch. quiet_tac. Qed.

Lemma quiet_queue_runs queue_id : quiet (queue_runs queue_id).
Proof. done. Qed.

Lemma quiet_plan queue_id f : quiet (on_plan queue_id f).
Proof. done. Qed.

Lemma quiet_cleaned ids deleted : quiet (cleaned w ids deleted).
Proof. revert deleted. induction ids as [|id l IH]; intros deleted; cbn [cleaned]; [done|]. quiet_tac; apply IH. Qed.
End Quiet.

#[export] Hint Resolve quiet_load_many quiet_status_batch quiet_select quiet_order quiet_collect quiet_pause_failed_batch
  quiet_queue_runs quiet_plan quiet_cleaned : quiet.

Lemma quiet_set_schedule w queue_id enabled start stop days : quiet (set_queue_schedule w queue_id enabled start stop days).
Proof. unfold set_queue_schedule. quiet_tac. Qed.

#[export] Hint Resolve quiet_set_schedule : quiet.

(** ** The invariant *)

Section Keeps.
Context (w : World) (b s : bool) (k0 : Core).
Notation keeping c := (triple (inv b s k0) c (fun _ => inv b s k0)).

Lemma keeps_drop_pending ids : keeping (drop_pending ids).
Proof.
  apply triple_on_slots. intros k Hk.
  destruct (pq_retain_spec (fun q => negb (within ids (q_task_id q))) (pending_queue (c_slots k))) as [H1 H2];
    [apply (sched_ok b k0), (inv_sched _ _ _ _ Hk)|].
  apply inv_unqueue; [done|done|]. rewrite H1. apply sublist_filter.
Qed.

Lemma triple_load_many {B : Type} (P : Core -> Prop) (rows : gmap text TaskRow) (ids : list text) (f : result (gmap text Task) unit -> M B) (Q : B -> Core -> Prop) :
  triple (fun k => P k /\ c_rows k = rows) (f (Err tt)) Q ->
  (forall tasks : gmap text Task, (forall id t, tasks !! id = Some t -> rows !! id = Some (k_row t)) ->
     triple (fun k => P k /\ c_rows k = rows) (f (Ok tasks)) Q) ->
  triple (fun k => P k /\ c_rows k = rows) (bind (load_tasks_by_ids w ids) f) Q.
Proof.
  intros He Hs m Hm. unfold bind, load_tasks_by_ids. cbn. destruct (w_ok w (m_calls m)).
  - eapply (Hs _ _ (set_calls (S (m_calls m)) m) Hm).
    Unshelve. destruct Hm as [_ <-]. intros id t Ht.
    rewrite map_lookup_imap in Ht. destruct (filter _ (m_rows m) !! id) as [r|] eqn:E; [|done]. cbn in Ht. simplify_eq. cbn.
    by apply map_lookup_filter_Some in E as [? _].
  - by apply (He (set_calls (S (m_calls m)) m)).
Qed.

(** A task whose row was read before the batch. *)
Lemma triple_go_on_row id t (active : bool) :
  triple (fun k => inv b s k0 k /\ running id k = active)
    (if active then
       let! resolving := has_pending_resolve id in
       if resolving then ret false
       else if negb (k_status t =? 4) then ret false
       else do! emit (StaleRemoved id) in do! active_remove id in ret true
     else ret true)
    (fun go k => inv b s k0 k /\ (go = true -> active_tasks (c_slots k) !! id = None)).
Proof.
  destruct active.
  2: { apply triple_ret. intros k [Hk Ha]. split; [done|]. intros _. by apply running_false. }
  apply (triple_read _ (resolving id)). intros [|].
  { apply triple_ret. intros k [[Hk _] _]. by split. }
  destruct (negb (k_status t =? 4)); [apply triple_ret; intros k [[Hk _] _]; by split|].
  intros m [[Hk _] Hr]. pose proof (triple_stale b s k0 id m (conj Hk (resolving_false _ _ Hr))) as [G1 G2]. by split.
Qed.

Lemma steady_go_on_row id t (active : bool) :
  steady (if active then
       let! resolving := has_pending_resolve id in
       if resolving then ret false
       else if negb (k_status t =? 4) then ret false
       else do! emit (StaleRemoved id) in do! active_remove id in ret true
     else ret true).
Proof. unfold has_pending_resolve, active_remove. steady_tac. Qed.

Lemma triple_resume_with_row rows id t :
  rows !! id = Some (k_row t) ->
  triple (fun k => inv b s k0 k /\ c_rows k = rows) (resume_task_with_row w id t) (fun _ k => inv b s k0 k /\ c_rows k = rows).
Proof.
  intros Hrow. assert (forall A (a : A) (P : Core -> Prop), (forall k, P k -> inv b s k0 k /\ c_rows k = rows) ->
    triple P (ret a) (fun _ k => inv b s k0 k /\ c_rows k = rows)) as Hno by (intros A a P HP; by apply triple_ret).
  unfold resume_task_with_row. do 2 triple_skip. triple_case.
  { apply (triple_then _ _ _ (fun k => inv b s k0 k /\ c_rows k = rows)); [apply triple_quiet, quiet_modify; done|by apply Hno]. }
  unfold is_active. apply (triple_read _ (running id)). intros active.
  eapply triple_bind.
  { eapply triple_pre; [apply (triple_steady _ _ _ rows (triple_go_on_row id t active) (steady_go_on_row id t active))|].
    by intros k [[? ?] ?]. }
  intros [|]; cbn [negb]; [|apply Hno; by intros k [[]]].
  apply (triple_read _ (fun k => is_queued id (pending_queue (c_slots k)))). intros [|]; [apply Hno; by intros k [[[]]]|].
  apply (triple_pre _ (fun k => (inv b s k0 k /\ idle id k) /\ c_rows k = rows)).
  2: { intros k [[[H1 H2] H3] H4]. split; [|done]. split; [done|]. split; [by apply H2|]. intros H. apply (is_queued_spec id) in H. congruence. }
  triple_skip. triple_case; [apply Hno; by intros k [[]]|].
  apply (triple_read _ (fun k => slot_free (c_limits k) (c_slots k) (r_queue_id (k_row t)))). intros free.
  destruct (is_bt_url (r_url (k_row t)) || free) eqn:Hf.
  - apply (triple_then _ _ _ (fun k => inv b false k0 k /\ c_rows k = rows)).
    + eapply triple_conseq; [apply (triple_steady _ _ _ rows (triple_resume_checked w b k0 id)); apply steady_resume| |].
      * intros k [[[[H1 _] [Ha Hq]] Hr] <-]. split; [|done]. split; [done|]. split_and!; [done|by eapply no_resolve_inactive; [apply H1|]|].
        right. intros r Hr'. rewrite Hr, Hrow in Hr'. injection Hr' as <-. by apply orb_prop in Hf.
      * intros ? k [? ?]. split; [by split|done].
    + apply (triple_then _ _ _ (fun k => inv b s k0 k /\ c_rows k = rows)); [|by apply Hno].
      apply (triple_steady _ _ _ rows (triple_drain_inv w b s k0 false)), steady_drain.
  - apply (triple_then _ _ _ (fun k => inv b s k0 k /\ c_rows k = rows)); [|by apply Hno].
    apply triple_on_slots. intros k [[[H1 [Ha Hq]] Hr] Hfree]. split; [|done].
    apply (inv_queue b s k0 k (for_resume id (k_row t))); try done; [by left| |].
    + intros _ r Hr'. cbn in *. rewrite Hr, Hrow in Hr'. by injection Hr' as <-.
    + intros _. apply orb_false_elim in Hf as [_ Hf]. by rewrite Hf in Hfree.
Qed.

Lemma triple_resume_rows rows tasks ids queued :
  (forall id t, tasks !! id = Some t -> rows !! id = Some (k_row t)) ->
  triple (fun k => inv b s k0 k /\ c_rows k = rows) (resume_rows w tasks ids queued) (fun _ k => inv b s k0 k /\ c_rows k = rows).
Proof.
  intros Ht. revert queued. induction ids as [|id ids IH]; intros queued; cbn [resume_rows]; [by apply triple_ret|].
  destruct (tasks !! id) as [t|] eqn:E; [|apply IH].
  eapply triple_bind; [apply triple_resume_with_row; by apply Ht|]. intros a. apply IH.
Qed.

Lemma keeps_finish_resume queued : keeping (finish_resume w queued).
Proof.
  unfold finish_resume. triple_case; [apply triple_quiet; auto with quiet|]. triple_skip.
  apply (triple_then _ _ _ (inv b s k0)); [apply keeps_when, keeps_drop_pending|apply triple_quiet; quiet_tac].
Qed.

Lemma keeps_batch_resume ids : keeping (batch_resume w ids).
Proof.
  unfold batch_resume. triple_case; [by apply triple_quiet|].
  intros m Hm. revert m Hm. enough (forall rows, triple (fun k => inv b s k0 k /\ c_rows k = rows)
    (let! tasks := load_tasks_by_ids w ids in
     match tasks with
     | Err _ => for_each ids (resume_task w)
     | Ok tasks => let! queued := resume_rows w tasks ids [] in finish_resume w queued
     end) (fun _ => inv b s k0)) as H by (intros m Hm; by apply (H (m_rows m))).
  intros rows. apply triple_load_many.
  - eapply triple_pre; [apply triple_for_each; intros id _; apply triple_resume_inner|by intros k []].
  - intros tasks Ht. eapply triple_bind; [by apply triple_resume_rows|]. intros queued.
    eapply triple_pre; [apply keeps_finish_resume|by intros k []].
Qed.

Lemma keeps_release ids : keeping (release_boost w ids).
Proof.
  unfold release_boost. triple_skip. triple_case; [|by apply triple_ret].
  unfold release_priority_for_batch. apply (triple_bind _ _ _ (fun _ => inv b s k0)).
  - apply (triple_then _ _ _ (inv b s k0)); [by apply keeps_modify|]. triple_skip.
    apply (triple_then _ _ _ (inv b s k0)); [by apply keeps_modify|]. triple_skip. by apply triple_ret.
  - intros ?. by apply triple_ret.
Qed.

Lemma keeps_clear_resolves ids : keeping (for_each ids clear_pending_resolve).
Proof.
  apply triple_for_each. intros id _. eapply triple_conseq; [apply clear_pending_resolve_triple|done|by intros ? k []].
Qed.

Lemma keeps_pause_queued ids : keeping (pause_queued w ids).
Proof.
  unfold pause_queued. triple_skip. apply (triple_then _ _ _ (inv b s k0)); [|by apply triple_ret].
  apply keeps_when. apply (triple_then _ _ _ (inv b s k0)); [apply keeps_drop_pending|].
  apply (triple_then _ _ _ (inv b s k0)); [apply keeps_clear_resolves|apply triple_quiet; quiet_tac].
Qed.

Lemma keeps_pause_each ids : keeping (for_each ids (pause_task_silent w)).
Proof. apply triple_for_each. intros id _. unfold pause_task_silent. by apply (triple_pause w b s k0 id false true). Qed.

Lemma keeps_pause_running ids : keeping (pause_running w ids).
Proof.
  unfold pause_running. do 2 triple_skip. apply (triple_then _ _ _ (inv b s k0)); [apply keeps_pause_each|by apply triple_ret].
Qed.

Lemma keeps_pause_seeds ids : keeping (pause_seeds w ids).
Proof.
  unfold pause_seeds. do 2 triple_skip. apply (triple_then _ _ _ (inv b s k0)); [apply keeps_pause_each|by apply triple_ret].
Qed.

Lemma keeps_restore paused ids : keeping (restore_boost_paused_after_batch w paused ids).
Proof.
  unfold restore_boost_paused_after_batch. triple_case; [by apply triple_quiet|]. triple_skip. triple_case; [|by apply triple_quiet].
  apply triple_for_each. intros id _. triple_case; [|by apply triple_quiet]. triple_case; [by apply triple_quiet|].
  triple_skip. apply keeps_when, triple_resume_inner.
Qed.

Lemma keeps_finish_pause released restore ids queued nothing : keeping (finish_pause w released restore ids queued nothing).
Proof.
  unfold finish_pause. triple_case; [|triple_case; apply triple_quiet; quiet_tac].
  apply (triple_then _ _ _ (inv b s k0)); [apply keeps_when, keeps_restore|apply triple_quiet; quiet_tac].
Qed.

Lemma keeps_batch_pause ids restore scope : keeping (batch_pause_impl w ids restore scope).
Proof.
  unfold batch_pause_impl. triple_case; [by apply triple_quiet|]. eapply triple_bind; [apply keeps_release|]. intros released.
  eapply triple_bind; [apply keeps_pause_queued|]. intros queued.
  eapply triple_bind; [apply keeps_pause_running|]. intros active.
  eapply triple_bind; [apply keeps_pause_seeds|]. intros seeding. do 2 triple_skip. apply keeps_finish_pause.
Qed.

Lemma keeps_start_queue queue_id : keeping (start_queue w queue_id).
Proof.
  unfold start_queue, has_queue. triple_skip. triple_case; [by apply triple_quiet|]. triple_skip. triple_case; [by apply triple_quiet|].
  do 2 triple_skip. apply (triple_then _ _ _ (inv b s k0)); [apply keeps_batch_resume|apply triple_quiet; auto with quiet].
Qed.

Lemma quiet_to_stop queue_id : quiet (tasks_to_stop w queue_id).
Proof. unfold tasks_to_stop. quiet_tac. Qed.

Lemma keeps_stop_queue queue_id : keeping (stop_queue w queue_id).
Proof.
  unfold stop_queue, has_queue. triple_skip. triple_case; [by apply triple_quiet|]. triple_case; [by apply triple_quiet|].
  triple_skip. triple_case; [by apply triple_quiet|]. triple_skip. apply triple_seq_quiet; [apply quiet_to_stop|intros ids].
  apply (triple_then _ _ _ (inv b s k0)); [apply keeps_batch_pause|apply triple_quiet; auto with quiet].
Qed.

Lemma keeps_resume_all : keeping (resume_all_eligible w).
Proof. unfold resume_all_eligible. triple_skip. triple_case; [apply keeps_batch_resume|by apply triple_quiet]. Qed.

Lemma keeps_tick today now_min : keeping (tick_queue_schedules w today now_min).
Proof.
  unfold tick_queue_schedules. do 3 triple_skip. destruct (due_schedule_actions _ _ _ _ _) as [passed actions].
  triple_skip. apply triple_for_each. intros [id []] _; [apply keeps_start_queue|apply keeps_stop_queue].
Qed.

(** ** Deleting *)

(** None of the tasks is being resolved. *)
Definition unresolved (ids : list text) (k : Core) : Prop := forall id, id ∈ ids -> no_resolve id k.

Lemma stop_workers ids : triple (fun k => inv b s k0 k /\ unresolved ids k) (for_each ids stop_worker) (fun _ => inv b false k0).
Proof.
  apply (triple_pre _ (fun k => inv b false k0 k /\ unresolved ids k)); [|intros k [[? _] ?]; by split].
  enough (forall l, (forall id, id ∈ l -> id ∈ ids) -> triple (fun k => inv b false k0 k /\ unresolved ids k) (for_each l stop_worker)
    (fun _ k => inv b false k0 k /\ unresolved ids k)) as H.
  { eapply triple_conseq; [by apply (H ids)|done|by intros ? k []]. }
  intros l Hl. apply triple_for_each. intros id Hid. unfold stop_worker, get_active. triple_skip.
  triple_case; [|by apply triple_ret].
  apply (triple_then _ _ _ (fun k => inv b false k0 k /\ unresolved ids k)); [|apply triple_quiet; auto with quiet].
  intros m [Hm Hu]. split; [|exact Hu]. apply (triple_stop_inv b false k0 id m). split; [done|]. by apply Hu, Hl.
Qed.

(** Rows only disappear. *)
Lemma keeps_delete_rows ids : keeping (modify (fun m => set_rows (delete_rows ids (m_rows m)) m)).
Proof.
  intros m [((H1 & H2 & H3) & H4 & H5) H6]. split; [|done]. split; [|done]. split_and!; [done| |done].
  intros q r Hq Hr Hrow. cbn in Hrow. apply map_lookup_filter_Some in Hrow as [Hrow _]. by apply H2.
Qed.
End Keeps.

Lemma keeps_delete_batch w b s k0 ids :
  triple (fun k => inv b s k0 k /\ unresolved ids k) (delete_tasks_batch w ids) (fun _ => inv b s k0).
Proof.
  assert (forall A (a : A), triple (fun k => inv b s k0 k /\ unresolved ids k) (ret a) (fun _ => inv b s k0)) as Hno
    by (intros A a; apply triple_ret; by intros k []).
  assert (forall A (a : A), triple (inv b false k0) (do! drain_queue w in do! sync_queue_occupancy in ret a) (fun _ => inv b s k0)) as Hend
    by (intros A a; apply drain_then; quiet_tac).
  unfold delete_tasks_batch. triple_case; [apply Hno|]. do 2 (triple_skip; triple_case; [apply Hno|]).
  apply (triple_then _ _ _ (fun k => inv b s k0 k /\ unresolved ids k)).
  { intros m [Hm Hu]. split; [by apply (keeps_drop_pending b s k0 ids m)|exact Hu]. }
  triple_skip. apply (triple_then _ _ _ (inv b false k0)); [apply stop_workers|].
  triple_skip. triple_case; [apply Hend|]. triple_skip. triple_case; [apply Hend|].
  apply (triple_then _ _ _ (inv b false k0)); [apply keeps_delete_rows|].
  apply (triple_then _ _ _ (inv b false k0)); [by apply keeps_modify|]. do 2 triple_skip.
  apply (triple_then _ _ _ (inv b false k0)); [apply keeps_when, keeps_clear_priority|].
  triple_skip. apply Hend.
Qed.

(** A new queue's limit can only keep waiting tasks waiting. *)
Lemma stable_create_queue w s n queue_id max :
  triple (fun k => stable s n k /\ queues (c_limits k) !! queue_id = None) (create_queue w queue_id max) (fun _ => stable s n).
Proof.
  unfold create_queue. do 2 triple_skip. triple_case; [apply triple_ret; by intros k []|].
  apply (triple_then _ _ _ (stable s n)); [|apply triple_quiet; quiet_tac].
  intros m [[Hok Hs] Hq]. split; [done|]. intros Hst. destruct (Hs Hst) as [H|H]; [left|by right].
  intros q Hin. specialize (H q Hin). apply not_true_is_false. apply not_true_iff_false in H. contradict H.
  cbn in *. unfold slot_free in *. apply andb_prop in H as [H1 H2]. apply andb_true_intro. split; [done|].
  unfold has_queue_capacity, queue_max in *. cbn in *. destruct (decide (q_queue_id q = [])); [done|].
  destruct (decide (q_queue_id q = queue_id)) as [->|Hne]; [by rewrite Hq|]. by rewrite lookup_insert_ne in H2.
Qed.

(** ** What the clients know *)

(** The queue may have changed since it was last announced. *)
Definition recording {A} (c : M A) : Prop := leads history c history.

Lemma recording_calm {A} (c : M A) : calm c -> recording c.
Proof. apply history_calm. Qed.

Lemma recording_bind {A B} (c : M A) (k : A -> M B) : recording c -> (forall a, recording (k a)) -> recording (bind c k).
Proof. apply leads_bind. Qed.

Lemma recording_for_each {A} (l : list A) (f : A -> M unit) : (forall a, recording (f a)) -> recording (for_each l f).
Proof. intros H. induction l; [by apply recording_calm|]. by apply recording_bind. Qed.

Lemma recording_when b c : recording c -> recording (when b c).
Proof. destruct b; [done|]. intros _. by apply recording_calm. Qed.

Lemma recording_pending f : recording (on_pending f).
Proof. by apply leads_pending. Qed.

Lemma recording_broadcast : recording broadcast_queue_positions.
Proof. intros m Hm. by apply told_history, leads_broadcast. Qed.

Lemma recording_mark : recording (modify (set_positions_dirty true)).
Proof. intros m Hm. by apply told_history, leads_mark. Qed.

Create HintDb recording.
#[export] Hint Resolve recording_pending recording_broadcast recording_mark : recording.

Ltac recording_tac :=
  repeat first
    [ progress intros
    | solve [auto with recording nocore]
    | solve [apply recording_calm; auto with calm nocore]
    | apply recording_bind
    | apply recording_for_each
    | apply recording_when
    | solve [apply recording_calm, calm_modify; intros; (done || (case_match; done))]
    | case_match ].

Section Recording.
Context (w : World).

Lemma recording_park : recording (park_pending_bt_tasks w).
Proof. unfold park_pending_bt_tasks, get_pending. recording_tac. Qed.

Lemma recording_drain_loop fuel blocked n cursor : recording (drain_loop w fuel blocked n cursor).
Proof. intros m Hm. eapply since_history; [exact Hm|]. by apply leads_drain_loop. Qed.

#[local] Hint Resolve recording_park recording_drain_loop : recording.

Lemma recording_drain : recording (drain_queue w).
Proof. unfold drain_queue, get_pending. recording_tac. Qed.

#[local] Hint Resolve recording_drain : recording.

Lemma recording_resume id : recording (resume_task w id).
Proof. unfold resume_task, resume_task_inner, is_active, has_pending_resolve, capacity. recording_tac. Qed.

#[local] Hint Resolve recording_resume : recording.

Lemma recording_end_boost id : recording (end_boost_of w id).
Proof. unfold end_boost_of, clear_priority. recording_tac. Qed.

#[local] Hint Resolve recording_end_boost : recording.

Lemma recording_pause_silent id : recording (pause_task_silent w id).
Proof. unfold pause_task_silent, pause_task_inner, pause_active, get_active. recording_tac. Qed.

Lemma recording_with_row id t : recording (resume_task_with_row w id t).
Proof. unfold resume_task_with_row, is_active, has_pending_resolve, capacity. recording_tac. Qed.
End Recording.

#[export] Hint Resolve recording_park recording_drain_loop recording_drain recording_resume recording_end_boost
  recording_pause_silent recording_with_row : recording.

Section Telling.
Context (w : World).

Lemma calm_load_many ids : calm (load_tasks_by_ids w ids).
Proof. done. Qed.

Lemma calm_status_batch ids st : calm (update_tasks_status_batch w ids st).
Proof. unfold update_tasks_status_batch. calm_tac. Qed.

#[local] Hint Resolve calm_load_many calm_status_batch : calm.

Lemma calm_select : calm (select_ids w).
Proof. unfold select_ids. calm_tac. Qed.

Lemma calm_order ids : calm (hash_order w ids).
Proof. unfold hash_order. calm_tac. Qed.

Lemma calm_collect scope candidates failed : calm (collect_failed w scope candidates failed).
Proof. revert failed. induction candidates as [|id l IH]; intros failed; cbn [collect_failed]; [done|]. calm_tac; apply IH. Qed.

#[local] Hint Resolve calm_select calm_order calm_collect : calm.

Lemma calm_pause_failed_batch candidates scope : calm (pause_failed_batch w candidates scope).
Proof. unfold pause_failed_batch. calm_tac. Qed.

Lemma calm_release_boost ids : calm (release_boost w ids).
Proof. unfold release_boost, release_priority_for_batch. calm_tac. Qed.

Lemma calm_cleaned ids deleted : calm (cleaned w ids deleted).
Proof. revert deleted. induction ids as [|id l IH]; intros deleted; cbn [cleaned]; [done|]. calm_tac; apply IH. Qed.

Lemma calm_stop_worker id : calm (stop_worker id).
Proof. unfold stop_worker, get_active. calm_tac. Qed.

Lemma calm_queue_runs queue_id : calm (queue_runs queue_id).
Proof. done. Qed.

Lemma calm_plan queue_id f : calm (on_plan queue_id f).
Proof. done. Qed.

Lemma calm_to_stop queue_id : calm (tasks_to_stop w queue_id).
Proof. unfold tasks_to_stop. calm_tac. Qed.

#[local] Hint Resolve calm_pause_failed_batch calm_release_boost calm_cleaned calm_stop_worker calm_queue_runs calm_plan calm_to_stop : calm.

(** Behind, but not before the first change. *)
Definition behind (changed : list text) (v : View) : Prop := history v /\ (changed = [] -> told v).

Lemma behind_step {A} (c : M A) changed :
  telling c -> recording c -> leads (behind changed) c (behind changed).
Proof. intros Ht Hr m [H1 H2]. split; [by apply Hr|]. intros E. by apply Ht, H2. Qed.

Lemma behind_calm {A} (c : M A) changed : calm c -> leads (behind changed) c (behind changed).
Proof. intros Hc. apply behind_step; [by apply telling_calm|by apply recording_calm]. Qed.

(** A resumption that does not queue its task has told everything. *)
Lemma with_row_told id t m : told (view m) ->
  fst (resume_task_with_row w id t m) = false -> told (view (snd (resume_task_with_row w id t m))).
Proof.
  set (P := fun c : M bool => forall m, told (view m) -> fst (c m) = false -> told (view (snd (c m)))).
  enough (P (resume_task_with_row w id t)) as H by apply H.
  assert (Pb : forall A (c : M A) (k : A -> M bool), telling c -> (forall a, P (k a)) -> P (bind c k)).
  { intros A c k Hc Hk m0 Hm. unfold bind. specialize (Hc m0 Hm). destruct (c m0) as [a m1]. by apply Hk. }
  assert (Pt : forall c, telling c -> P c) by (intros c Hc m0 Hm _; by apply Hc).
  assert (Pf : P (ret false)) by (by apply Pt, telling_calm).
  unfold resume_task_with_row. apply Pb; [telling_tac|]. intros _. apply Pb; [telling_tac|]. intros [p|].
  { apply Pb; [telling_tac|]. by intros _. }
  apply Pb; [telling_tac|]. intros active. apply Pb; [unfold has_pending_resolve; telling_tac|]. intros go.
  destruct (negb go); [done|]. apply Pb; [telling_tac|]. intros queued. destruct queued; [done|].
  apply Pb; [telling_tac|]. intros completed. destruct completed; [done|].
  apply Pb; [unfold capacity; telling_tac|]. intros free. destruct (_ || _).
  - apply Pb; [telling_tac|]. intros _. apply Pb; [telling_tac|]. by intros _.
  - intros m0 Hm E. cbn in E. done.
Qed.

Lemma rows_behind tasks ids queued m : behind queued (view m) ->
  let '(queued', m') := resume_rows w tasks ids queued m in behind queued' (view m').
Proof.
  revert queued m. induction ids as [|id ids IH]; intros queued m Hm; cbn [resume_rows]; [done|].
  destruct (tasks !! id) as [t|]; [|by apply IH]. unfold bind. pose proof (recording_with_row w id t m (proj1 Hm)) as Hr.
  pose proof (fun H => with_row_told id t m H) as Ht. destruct (resume_task_with_row w id t m) as [b m1]. cbn [fst snd] in *.
  apply IH. destruct b; split; [done| |done|]; [intros E; by destruct queued|]. intros ->. apply Ht; [|done]. by apply Hm.
Qed.

Lemma telling_finish_resume queued : leads (behind queued) (finish_resume w queued) told.
Proof.
  unfold finish_resume. case_bool_decide as Hq.
  - intros m [_ Hm]. apply (telling_calm (send_tasks_snapshot w)); auto with calm.
  - apply (leads_pre _ history); [|by intros v []]. eapply leads_bind; [apply recording_calm; auto with calm|]. intros ok.
    eapply leads_bind; [apply recording_when, recording_pending|]. intros _. apply leads_broadcast_then, telling_calm. auto with calm.
Qed.

Lemma telling_batch_resume ids : telling (batch_resume w ids).
Proof.
  unfold batch_resume. destruct (bool_decide _); [by apply telling_calm|]. apply telling_bind; [telling_tac|].
  intros [tasks|]; [|pose proof (telling_resume w); telling_tac].
  intros m Hm. unfold bind. pose proof (rows_behind tasks ids [] m) as H.
  assert (behind [] (view m)) as H0 by (split; [by apply told_history|done]).
  specialize (H H0). destruct (resume_rows w tasks ids [] m) as [queued m']. by apply telling_finish_resume.
Qed.

(** The waiting tasks of the batch leave the queue unannounced. *)
Lemma queued_behind ids m : told (view m) ->
  let '(queued, m') := pause_queued w ids m in behind queued (view m').
Proof.
  intros Hm. unfold pause_queued. unfold bind at 1, gets at 1. set (queued := filter _ _). unfold bind at 1.
  case_bool_decide as Hq; cbn [negb when].
  - split; [by apply told_history|done].
  - assert (history (view (snd ((do! drop_pending ids in do! for_each queued clear_pending_resolve in
      let! _ := update_tasks_status_batch w queued 2 in skip) m)))) as Hh.
    { apply (recording_bind (drop_pending ids)); [apply recording_pending| |by apply told_history]. intros _. recording_tac. }
    destruct ((do! drop_pending ids in _) m) as [u m']. split; [done|]. by intros.
Qed.

Lemma running_behind ids changed : leads (behind changed) (pause_running w ids) (behind changed).
Proof.
  unfold pause_running. do 2 (eapply leads_bind; [apply behind_calm; auto with calm|]; intros).
  eapply leads_bind; [|intros; by apply behind_calm].
  apply behind_step; [apply telling_for_each, telling_pause_silent|apply recording_for_each, recording_pause_silent].
Qed.

Lemma seeds_behind ids changed : leads (behind changed) (pause_seeds w ids) (behind changed).
Proof.
  unfold pause_seeds. eapply leads_bind; [apply behind_calm; auto with calm|]. intros session.
  eapply leads_bind; [apply behind_calm; calm_tac|]. intros seeding.
  eapply leads_bind; [|intros; by apply behind_calm].
  apply behind_step; [apply telling_for_each, telling_pause_silent|apply recording_for_each, recording_pause_silent].
Qed.

Lemma telling_restore paused ids : telling (restore_boost_paused_after_batch w paused ids).
Proof. pose proof (telling_resume w). unfold restore_boost_paused_after_batch. telling_tac. Qed.

Lemma recording_restore paused ids : recording (restore_boost_paused_after_batch w paused ids).
Proof. unfold restore_boost_paused_after_batch. recording_tac. Qed.

Lemma telling_finish_pause released restore ids queued nothing :
  (nothing = true -> queued = []) ->
  leads (behind queued) (finish_pause w released restore ids queued nothing) told.
Proof.
  intros Hn. unfold finish_pause. destruct released as [paused|].
  - apply (leads_pre _ history); [|by intros v []]. eapply leads_bind; [apply recording_when, recording_restore|]. intros _.
    apply leads_broadcast_then. telling_tac.
  - destruct nothing; [intros m [_ Hm]; apply Hm; auto|]. case_bool_decide as Hq; cbn [negb when].
    + intros m [_ Hm]. apply telling_bind; [by apply telling_calm| |by apply Hm]. intros _. telling_tac.
    + apply (leads_pre _ history); [|by intros v []]. apply leads_broadcast_then. telling_tac.
Qed.

Lemma telling_batch_pause ids restore scope : telling (batch_pause_impl w ids restore scope).
Proof.
  unfold batch_pause_impl. destruct (bool_decide _); [by apply telling_calm|]. apply telling_bind; [telling_tac|]. intros released.
  intros m Hm. unfold bind at 1. pose proof (queued_behind ids m Hm) as Hb. destruct (pause_queued w ids m) as [queued m1].
  revert m1 Hb. enough (leads (behind queued)
    (let! active := pause_running w ids in
     let! seeding := pause_seeds w ids in
     let! candidates := hash_order w (remove_dups ids) in
     let! failed_paused := pause_failed_batch w (filter (fun id => negb (within (queued ++ active ++ seeding) id)) candidates) scope in
     finish_pause w released restore ids queued
       (bool_decide (queued = []) && bool_decide (active = []) && bool_decide (seeding = []) && negb failed_paused)) told) as H
    by (intros m1 Hb; by apply H).
  eapply leads_bind; [apply running_behind|]. intros active. eapply leads_bind; [apply seeds_behind|]. intros seeding.
  do 2 (eapply leads_bind; [apply behind_calm; auto with calm|]; intros). apply telling_finish_pause.
  intros E. repeat apply andb_prop in E as [E _]. by apply bool_decide_eq_true in E.
Qed.

Lemma telling_start_queue queue_id : telling (start_queue w queue_id).
Proof. pose proof telling_batch_resume. unfold start_queue, has_queue. telling_tac. Qed.

Lemma telling_stop_queue queue_id : telling (stop_queue w queue_id).
Proof. pose proof telling_batch_pause. unfold stop_queue, has_queue, batch_pause. telling_tac. Qed.

Lemma telling_resume_all : telling (resume_all_eligible w).
Proof. pose proof telling_batch_resume. unfold resume_all_eligible. telling_tac. Qed.

Lemma telling_tick today now_min : telling (tick_queue_schedules w today now_min).
Proof. pose proof telling_start_queue. pose proof telling_stop_queue. unfold tick_queue_schedules, carry_out. telling_tac. Qed.

Lemma telling_set_schedule queue_id enabled start stop days : telling (set_queue_schedule w queue_id enabled start stop days).
Proof. unfold set_queue_schedule. telling_tac. Qed.

Lemma telling_create_queue queue_id max : telling (create_queue w queue_id max).
Proof. unfold create_queue. telling_tac. Qed.

Lemma telling_delete_batch ids : telling (delete_tasks_batch w ids).
Proof.
  pose proof (telling_clear_priority w). unfold delete_tasks_batch. destruct (bool_decide _); [by apply telling_calm|].
  do 2 (apply telling_bind; [telling_tac|]; intros; destruct (negb _); [by apply telling_calm|]).
  apply telling_change_broadcast. telling_tac.
Qed.
End Telling.
