(* ===== verification/Scheduler.v ===== *)
(** * Scheduler: what the download manager guarantees about its queue

    The messages of the manager as one type, the states it can reach, and the
    properties: the invariant of slots and queue, the limits of concurrent
    tasks, no slot left unused, and what the clients know of the queue order. *)
From Stdlib Require Import Ascii.
From S2P Require Import Prelude Text QueueOrder Schedule PendingQueue Slots Manager Batch SchedInv Drain Sched Positions BatchInv.

(** ** Messages *)

(** [OpCreate]: [create_task] stores the row, then hands the task over. *)
Inductive Op :=
| OpCreate (q : QueuedTask) (row : TaskRow)
| OpResume (id : text)
| OpPause (id : text) (notify : bool)
| OpCancel (id : text)
| OpDelete (id : text)
| OpDone (d : TaskDone)
| OpDrain
| OpFlushPositions
| OpResolved (out : ResolveOutcome)
| OpBoost (id : text)
| OpSetMaxConcurrent (max : Z)
| OpUpdateQueue (queue_id : text) (max : Z)
| OpDeleteQueue (queue_id : text)
| OpMoveTask (id queue_id : text)
| OpBatchResume (ids : list text)
| OpResumeAll
| OpBatchPause (ids : list text) (restore : bool) (scope : FailedPause)
| OpBatchDelete (ids : list text)
| OpCreateQueue (queue_id : text) (max : Z)
| OpStartQueue (queue_id : text)
| OpStopQueue (queue_id : text)
| OpSetSchedule (queue_id : text) (enabled : bool) (start stop : text) (days : Z)
| OpTick (today now_min : Z).

Definition create (w : World) (q : QueuedTask) (row : TaskRow) : M unit :=
  do! modify (fun m => set_rows (<[q_task_id q := row]> (m_rows m)) m) in enqueue_persisted_task w q.

Definition handle (w : World) (op : Op) : M unit :=
  match op with
  | OpCreate q row => create w q row
  | OpResume id => resume_task w id
  | OpPause id notify => pause_task_inner w id notify true
  | OpCancel id => cancel_task w id
  | OpDelete id => delete_task w id
  | OpDone d => on_task_done w d
  | OpDrain => drain_queue w
  | OpFlushPositions => flush_queue_positions
  | OpResolved out => on_resolve_ready w out
  | OpBoost id => let! _ := set_priority_task w id in skip
  | OpSetMaxConcurrent max => set_max_concurrent w max
  | OpUpdateQueue queue_id max => update_queue w queue_id max
  | OpDeleteQueue queue_id => delete_queue w queue_id
  | OpMoveTask id queue_id => move_task_to_queue w id queue_id
  | OpBatchResume ids => batch_resume w ids
  | OpResumeAll => resume_all_eligible w
  | OpBatchPause ids restore scope => batch_pause_impl w ids restore scope
  | OpBatchDelete ids => let! _ := delete_tasks_batch w ids in skip
  | OpCreateQueue queue_id max => create_queue w queue_id max
  | OpStartQueue queue_id => start_queue w queue_id
  | OpStopQueue queue_id => stop_queue w queue_id
  | OpSetSchedule queue_id enabled start stop days => set_queue_schedule w queue_id enabled start stop days
  | OpTick today now_min => tick_queue_schedules w today now_min
  end.

(** What the senders guarantee: a new task and a new queue have new ids, a
    [TaskDone] comes from a spawned worker.  A batch that deletes a task whose
    link is being resolved is left out: see [delete_forgets_resolution]. *)
Definition op_ok (op : Op) (k : Core) : Prop :=
  match op with
  | OpCreate q _ => new_task q k
  | OpDone d => done_ok d k
  | OpBatchDelete ids => unresolved ids k
  | OpCreateQueue queue_id _ => queues (c_limits k) !! queue_id = None
  | _ => True
  end.

(** Messages that start tasks only after checking both limits, and change no
    limit. *)
Definition checked (op : Op) : bool :=
  match op with
  | OpResolved _ | OpBoost _ | OpSetMaxConcurrent _ | OpUpdateQueue _ _ | OpDeleteQueue _ | OpMoveTask _ _ | OpCreateQueue _ _ => false
  | _ => true
  end.

Lemma create_triple w b s k0 q row :
  triple (fun k => inv b s k0 k /\ new_task q k) (create w q row) (fun _ => inv b s k0).
Proof.
  apply (triple_then _ _ _ (fun k => inv b s k0 k /\ new_task q k)); [|apply triple_enqueue].
  intros m [[((H1 & H2 & H3) & H4 & H5) H6] H7]. split; [|done]. split; [|done]. split; [|done]. split_and!; [done| |done].
  intros q' r Hq' Hr Hrow. cbn in Hrow. destruct (decide (q_task_id q' = q_task_id q)) as [E|E].
  - destruct H7 as [[_ Hn] _]. destruct Hn. rewrite <-E. apply list_elem_of_fmap. by exists q'.
  - rewrite lookup_insert_ne in Hrow by done. by apply H2.
Qed.

Lemma checked_triple w b s k0 op :
  checked op = true -> triple (fun k => inv b s k0 k /\ op_ok op k) (handle w op) (fun _ => inv b s k0).
Proof.
  intros Hop. destruct op; try done; cbn [handle op_ok].
  - apply create_triple.
  - apply triple_weaken, triple_resume_inner.
  - apply triple_weaken. by apply triple_pause.
  - apply triple_weaken, triple_cancel.
  - apply triple_weaken, triple_delete.
  - apply triple_task_done.
  - apply triple_weaken, triple_drain_inv.
  - apply triple_weaken, triple_quiet; auto with quiet.
  - apply triple_weaken, keeps_batch_resume.
  - apply triple_weaken, keeps_resume_all.
  - apply triple_weaken, keeps_batch_pause.
  - eapply triple_bind; [apply keeps_delete_batch|]. intros ?. by apply triple_quiet.
  - apply triple_weaken, keeps_start_queue.
  - apply triple_weaken, keeps_stop_queue.
  - apply triple_weaken, triple_quiet; auto with quiet.
  - apply triple_weaken, keeps_tick.
Qed.

Lemma handle_stable w s n op : triple (fun k => stable s n k /\ op_ok op k) (handle w op) (fun _ => stable s n).
Proof.
  destruct (checked op) eqn:Hop.
  - apply (inv_stable true). intros x k0. by apply checked_triple.
  - destruct op; try done; cbn [handle op_ok].
    + apply (inv_stable true). intros. apply triple_weaken, triple_resolve_ready.
    + apply (inv_stable true). intros. apply triple_weaken.
      eapply triple_bind; [apply triple_set_priority|]. intros r. by apply triple_quiet.
    + apply triple_weaken, stable_set_max.
    + apply triple_weaken, stable_update_queue.
    + apply triple_weaken, stable_delete_queue.
    + apply triple_weaken, stable_move_task.
    + apply stable_create_queue.
Qed.

(** ** Reachable states *)

Definition no_slots : Slots := mk_slots ∅ ∅ empty_queue ∅ 0.

(** A manager that has just started. *)
Definition initial (m : DownloadManager) : Prop :=
  m_slots m = no_slots /\ m_resume_applied m = ∅ /\ m_queue_order m = ∅ /\ m_suppress_bulk m = false /\ m_out m = [].

Inductive reachable_by (allowed : Op -> bool) (w : World) : DownloadManager -> Prop :=
| reach_init m : initial m -> reachable_by allowed w m
| reach_step m op :
    reachable_by allowed w m -> op_ok op (core m) -> allowed op = true -> reachable_by allowed w (snd (handle w op m)).

Definition reachable : World -> DownloadManager -> Prop := reachable_by (fun _ => true).

Lemma no_slots_ok : slots_ok no_slots.
Proof. by constructor; cbn; try (intros *; by rewrite ?lookup_empty); constructor. Qed.

Lemma reachable_stable allowed w m : reachable_by allowed w m -> stable true 0 (core m).
Proof.
  induction 1 as [m (H1 & H2 & _)|m op Hr IH Hop _].
  - unfold stable, grown, core_ok, settled, linked. cbn. rewrite H1, H2. split; [|intros _; left; set_solver].
    split_and!; [apply no_slots_ok|set_solver|done|lia].
  - by apply (handle_stable w true 0 op m).
Qed.

Definition no_boost (op : Op) : bool := match op with OpBoost _ => false | _ => true end.

Lemma handle_telling w op : no_boost op = true -> telling (handle w op).
Proof.
  intros Hop. destruct op; try done; cbn [handle].
  - apply telling_bind; [apply telling_calm, calm_modify; done|]. intros _. apply telling_enqueue.
  - apply telling_resume.
  - apply telling_pause.
  - apply telling_cancel.
  - apply telling_delete.
  - apply telling_task_done.
  - apply telling_drain.
  - apply telling_flush.
  - apply telling_resolve_ready.
  - apply telling_set_max.
  - apply telling_update_queue.
  - apply telling_delete_queue.
  - apply telling_move_task.
  - apply telling_batch_resume.
  - apply telling_resume_all.
  - apply telling_batch_pause.
  - apply telling_bind; [apply telling_delete_batch|]. intros ?. by apply telling_calm.
  - apply telling_create_queue.
  - apply telling_start_queue.
  - apply telling_stop_queue.
  - apply telling_set_schedule.
  - apply telling_tick.
Qed.

Lemma reachable_told w m : reachable_by no_boost w m -> told (view m).
Proof.
  induction 1 as [m (H1 & _ & H3 & H4 & H5)|m op _ IH _ Hop]; [|by apply (handle_telling w op Hop m)].
  split; [done|]. exists []. cbn. unfold shown. rewrite H1, H3, H5. split; [done|by right].
Qed.

Lemma flushed m : let m' := snd (flush_queue_positions m) in m_slots m' = m_slots m /\ m_positions_dirty m' = false.
Proof.
  unfold flush_queue_positions, bind, gets. destruct (m_positions_dirty m) eqn:E; [|done]. cbn [when].
  unfold broadcast_queue_positions, bind, modify, gets. cbn. destruct (diff _ _) as [[] ?]; done.
Qed.

(** ** Properties *)

(** C6. In every state the manager reaches by any messages but a batch deletion of a
    task whose link is being resolved (that one forgets the placeholder of the
    resolution, [delete_forgets_resolution], and the task may later be both active
    and waiting): a waiting task waits once and is
    not active; the counts of the queue are exact; no two active tasks share a
    generation and none is newer than the last one drawn, so that the end of an
    old worker is never taken for that of a new one; a task whose link is being
    resolved holds its placeholder, and the answer finds the task that asked. *)
Theorem scheduler_invariant (w : World) (m : DownloadManager) :
  reachable w m ->
  let s := m_slots m in
  NoDup (queued_ids s) /\ (forall id, id ∈ queued_ids s -> active_tasks s !! id = None) /\
  pq_counts (pending_queue s) = recount (pq_items (pending_queue s)) /\
  (forall i j e f, active_tasks s !! i = Some e -> active_tasks s !! j = Some f ->
     e_generation e = e_generation f -> i = j) /\
  (forall i e, active_tasks s !! i = Some e -> e_generation e <= generation s) /\
  (forall i p, pending_resolve s !! i = Some p ->
     (exists e, active_tasks s !! i = Some e /\ e_generation e = resolve_generation p /\ e_handle e = false) /\
     forall q g, p = ResolveStart q g -> q_task_id q = i).
Proof.
  intros [[[H _] _] _]%reachable_stable. destruct H as [H1 H2 H3 H4 H5 H6 H7 H8].
  split_and!; [done|done|done|done|done|]. intros i p Hp. split; [by apply H7|]. intros q g ->. by eapply H8.
Qed.

(** C7. Creating, resuming, pausing, cancelling and deleting tasks, one by one
    or in batches, starting and stopping queues by hand or by their schedules,
    and the end of downloads never push the number of active tasks over the
    manager's limit, nor that of a named queue over the queue's: a count ends at
    most at its limit or, where it was above (the limit was lowered), at most
    where it was. *)
Theorem limits_respected (w : World) (m : DownloadManager) (op : Op) :
  reachable w m -> op_ok op (core m) -> checked op = true ->
  let m' := snd (handle w op m) in
  m_limits m' = m_limits m /\
  (max_concurrent (m_limits m) <> 0 ->
     http_ftp_active (m_slots m') <= Z.max (max_concurrent (m_limits m)) (http_ftp_active (m_slots m))) /\
  (forall queue_id, queue_id <> [] -> 0 < queue_max (m_limits m) queue_id ->
     active_in_queue (m_slots m') queue_id <= Z.max (queue_max (m_limits m) queue_id) (active_in_queue (m_slots m) queue_id)).
Proof.
  intros Hr Hop Hc m'. pose proof (reachable_stable _ w m Hr) as [[Hok _] _].
  destruct (checked_triple w false false (core m) op Hc m) as [(_ & Hl & Hm & _) _]; [split; [by apply inv_refl|done]|].
  fold m' in Hl, Hm. apply moves_count_bound in Hm. split; [done|]. split.
  - intros Hmax. rewrite !used_global. apply Hm. cbn. destruct (_ =? 0) eqn:E; [|done]. bool_hyps. done.
  - intros queue_id Hq Hmax. rewrite !used_queue. apply Hm. cbn. rewrite decide_False by done.
    destruct (_ <=? 0) eqn:E; [|done]. bool_hyps. cbn in *. lia.
Qed.

(** The end of a worker's generation drains the queue, in whatever state. *)
Lemma task_finished_settles w id gen :
  triple (fun k => core_ok k /\ spawned id gen k) (task_finished w id gen) (fun _ => settled).
Proof.
  intros m [Hok Hsp]. revert m Hok Hsp. enough (forall k0, triple (fun k => sched true k0 k /\ spawned id gen k) (task_finished w id gen) (fun _ => settled)) as H.
  { intros m Hok Hsp. apply (H (core m)). split; [by apply sched_refl|done]. }
  intros k0. unfold task_finished. eapply triple_bind; [apply (triple_release true k0)|]. intros matched.
  apply (triple_then _ _ _ (inv true false k0)); [apply keeps_when, keeps_end_boost|]. triple_skip.
  apply (triple_then _ _ _ (inv true false k0)); [apply keeps_when, triple_resume_inner|].
  apply (triple_then _ _ _ settled).
  { eapply triple_conseq; [apply (triple_drain w true k0)|by intros k []|by intros ? k []]. }
  apply (triple_then _ _ _ settled); [|apply triple_quiet; auto with quiet]. destruct matched; [|by apply triple_quiet].
  unfold after_end. cbn [when]. triple_skip. repeat case_match; try (by apply triple_quiet).
  triple_skip. triple_case; [|apply triple_quiet; quiet_tac]. do 2 triple_skip.
  apply (triple_then _ _ _ settled); [|apply triple_quiet; auto with quiet]. apply triple_when; [by intros _ m Hm|done].
Qed.

(** How often a resume has taken out the entry of a failed task. *)
Definition stale_removals (m : DownloadManager) : nat := length (List.filter is_stale (m_out m)).

(** C8. No slot stays unused while a task waits for it.  A reachable state in
    which every waiting task finds the manager or its queue full is left by any
    message in such a state, whatever the message starts, stops, moves or
    configures, but for a message in which a resume takes out the entry of a
    failed task whose end is still to be reported; draining, and the report of an
    end, lead from any reachable state to such a state. *)
Theorem work_conserving (w : World) (m : DownloadManager) (op : Op) :
  reachable w m -> op_ok op (core m) ->
  let full m q := slot_free (m_limits m) (m_slots m) (q_queue_id q) = false in
  let none_left m := forall q, q ∈ pq_items (pending_queue (m_slots m)) -> full m q in
  let m' := snd (handle w op m) in
  (none_left m -> none_left m' \/ (stale_removals m < stale_removals m')%nat) /\
  none_left (snd (drain_queue w m)) /\
  (forall id gen, spawned id gen (core m) -> none_left (snd (task_finished w id gen m))).
Proof.
  intros Hr%reachable_stable Hop full none_left m'. destruct Hr as [[Hok _] _]. split_and!.
  - intros Hm. destruct (handle_stable w true (stale_removals m) op m) as [_ H]; [|exact (H eq_refl)].
    split; [|done]. split; [by split|]. intros _. left. exact Hm.
  - by apply (triple_drain w true (core m) m), sched_refl.
  - intros id gen Hsp. by apply (task_finished_settles w id gen m).
Qed.

(** C9. Draining does what the reference does, which goes through the waiting
    tasks once, in order, and starts each one that finds a free slot at its
    turn: skipping the queues found full, counting what they hold and stopping
    early change nothing, and the loop ends by itself, not for lack of fuel. *)
Theorem drain_is_reference (w : World) (m : DownloadManager) :
  reachable w m ->
  drain_queue w m = drain_queue_ref w m /\
  forall fuel, (S (pq_len (pending_queue (m_slots m))) <= fuel)%nat ->
    drain_loop w fuel ∅ 0 0 m = drain_loop w (S (pq_len (pending_queue (m_slots m)))) ∅ 0 0 m.
Proof.
  intros [[Hok _] _]%reachable_stable. split; [by apply drain_queue_spec|]. intros fuel Hfuel.
  rewrite !(drain_loop_ref w _ (pq_items (pending_queue (m_slots m))) [] ∅ 0 m (loop_start m Hok)) by (unfold pq_len in *; lia). done.
Qed.

(** C10. Once the tick has flushed what was left to publish, the last published
    order is that of the queue: the deltas the clients got are those of a
    sequence of orders that ends with it, and (no order holding more tasks than
    there are keys) a client that applies them shows the waiting tasks in their
    order, ranked from one.  Two messages are excepted: boosting a waiting task
    ([boost_leaves_stale_position]), and, as in C6, a batch deletion of a task
    whose link is being resolved. *)
Theorem clients_know_queue (w : World) (m : DownloadManager) :
  reachable_by no_boost w m ->
  let m' := snd (flush_queue_positions m) in
  let ids := queued_ids (m_slots m') in
  m_slots m' = m_slots m /\
  exists orders, publish_all orders = (m_queue_order m', shown m') /\ default [] (last orders) = ids /\
    ((forall order, order ∈ orders -> Z.of_nat (length order) * KEY_STEP <= KEY_LIMIT) ->
     map qp_task (shown m') = ids /\ map qp_position (shown m') = imap (fun i _ => position_of i) ids).
Proof.
  intros Hr m' ids. pose proof (reachable_stable _ w m Hr) as [[Hok _] _].
  pose proof (telling_flush m (reachable_told w m Hr)) as (_ & orders & Ho & Hlast). fold m' in Ho, Hlast.
  destruct (flushed m) as [Hslots Hdirty]. fold m' in Hslots, Hdirty. split; [done|]. exists orders. cbn in Ho, Hlast.
  destruct Hlast as [|Hlast]; [congruence|]. split_and!; [done|done|]. intros Hlim.
  destruct (publish_all_spec orders Hlim) as (ks & (Hl & _) & Ht). rewrite Ho, Hlast in *. cbn [snd] in Ht.
  assert (NoDup ids) as Hn by (subst ids; rewrite Hslots; apply (ok_unique _ (proj1 Hok))).
  fold ids in Hl, Ht. rewrite (first_occurrences_id ids Hn) in *. rewrite Ht. split; [by apply table_tasks|by apply table_positions].
Qed.

(** ** Runs *)

Definition op_okb (op : Op) (k : Core) : bool :=
  match op with
  | OpCreate q _ => bool_decide (active_tasks (c_slots k) !! q_task_id q = None) &&
      bool_decide (q_task_id q ∉ queued_ids (c_slots k)) && negb (q_is_resume q)
  | OpDone d => match active_tasks (c_slots k) !! d_task_id d with
                | Some e => negb (e_generation e =? d_generation d) || e_handle e
                | None => true
                end
  | OpBatchDelete ids => forallb (fun id => bool_decide (pending_resolve (c_slots k) !! id = None)) ids
  | OpCreateQueue queue_id _ => bool_decide (queues (c_limits k) !! queue_id = None)
  | _ => true
  end.

Lemma op_okb_spec op k : op_okb op k = true -> op_ok op k.
Proof.
  destruct op; cbn; try done.
  - intros H. bool_hyps. split; [by split|]. by destruct (q_is_resume q).
  - intros H e He Hg. rewrite He in H. apply orb_prop in H as [H|H]; [|done]. bool_hyps. done.
  - rewrite forallb_forall. intros H id Hid%list_elem_of_In. apply H in Hid. by bool_hyps.
  - intros H. by bool_hyps.
Qed.

(** The state after a list of messages. *)
Fixpoint run (w : World) (ops : list Op) (m : DownloadManager) : DownloadManager :=
  match ops with [] => m | op :: ops => run w ops (snd (handle w op m)) end.

Fixpoint runs (allowed : Op -> bool) (w : World) (ops : list Op) (m : DownloadManager) : bool :=
  match ops with
  | [] => true
  | op :: ops => op_okb op (core m) && allowed op && runs allowed w ops (snd (handle w op m))
  end.

Lemma run_reachable allowed w ops m :
  initial m -> runs allowed w ops m = true -> reachable_by allowed w (run w ops m).
Proof.
  intros Hm. assert (reachable_by allowed w m) as Hr by by apply reach_init. clear Hm. revert m Hr.
  induction ops as [|op ops IH]; intros m Hr Hops; [done|]. cbn in Hops. bool_hyps.
  apply IH; [|done]. apply reach_step; [done|by apply op_okb_spec|done].
Qed.

(** A world where all calls succeed, the status of every row is [status], and
    every link of a rebound task goes to no plugin. *)
Definition calm_world (status : Z) : World :=
  mk_world (fun _ => true) (fun _ _ => status) (fun _ _ => 0) (fun _ => []) (fun _ => false) (fun _ => false) (fun _ ids => ids) (fun _ => []) calendar.

(** A manager with the given limits. *)
Definition started (max : Z) (queues : gmap text QueueInfo) : DownloadManager :=
  mk_manager no_slots (mk_limits max queues) ∅ ∅ ∅ true false ∅ ∅ ∅ false false ∅ false None [] ∅ 0 [].

Definition http_row (queue_id resolver : text) : TaskRow :=
  mk_row (lit "http://host/f") (lit "/d") (lit "f") [] queue_id [] [] resolver [].

Definition http_task (id queue_id resolver : text) : QueuedTask :=
  mk_queued id (lit "http://host/f") (lit "/d") (lit "f") 0 false 0 [] [] queue_id [] resolver false false [].

Definition new (id : text) : Op := OpCreate (http_task id MAIN_QUEUE_ID []) (http_row MAIN_QUEUE_ID []).

(** Two tasks, one slot. *)
Definition two_tasks : list Op := [new (lit "a"); new (lit "b"); OpFlushPositions].

Lemma two_tasks_reachable allowed :
  allowed (new (lit "a")) && allowed (new (lit "b")) && allowed OpFlushPositions = true ->
  reachable_by allowed (calm_world 1) (run (calm_world 1) two_tasks (started 1 ∅)).
Proof.
  intros H. apply andb_prop in H as [H H3]. apply andb_prop in H as [H1 H2].
  apply run_reachable; [done|]. unfold two_tasks, runs. rewrite H1, H2, H3. by vm_compute.
Qed.

(** ** Witnesses *)

Lemma scheduler_invariant_witness :
  let s := m_slots (run (calm_world 1) two_tasks (started 1 ∅)) in
  queued_ids s = [lit "b"] /\ active_tasks s !! lit "b" = None.
Proof.
  pose proof (scheduler_invariant (calm_world 1) _ (two_tasks_reachable (fun _ => true) eq_refl)) as (_ & H & _).
  split; [by vm_compute|]. apply H. vm_compute. left.
Defined.

Lemma limits_respected_witness :
  let m := run (calm_world 1) two_tasks (started 1 ∅) in
  queued_ids (m_slots m) = [lit "b"] /\
  http_ftp_active (m_slots (snd (handle (calm_world 1) (OpDone (mk_done (lit "a") 1 Finished)) m))) <= Z.max 1 1.
Proof.
  intros m. assert (op_ok (OpDone (mk_done (lit "a") 1 Finished)) (core m)) as Hop by (apply op_okb_spec; by vm_compute).
  destruct (limits_respected (calm_world 1) m _ (two_tasks_reachable (fun _ => true) eq_refl) Hop eq_refl) as (_ & H & _).
  split; [by vm_compute|]. etrans; [apply H; by vm_compute|]. by vm_compute.
Defined.

(** A third task is created, and waits as the second does. *)
Lemma work_conserving_witness :
  let m := run (calm_world 1) two_tasks (started 1 ∅) in
  let m' := snd (handle (calm_world 1) (new (lit "c")) m) in
  queued_ids (m_slots m') = [lit "b"; lit "c"] /\
  (forall q, q ∈ pq_items (pending_queue (m_slots m')) -> slot_free (m_limits m') (m_slots m') (q_queue_id q) = false).
Proof.
  intros m m'. assert (op_ok (new (lit "c")) (core m)) as Hop by (apply op_okb_spec; by vm_compute).
  pose proof (work_conserving (calm_world 1) m _ (two_tasks_reachable (fun _ => true) eq_refl) Hop) as (H & _).
  split; [by vm_compute|]. destruct H as [H|H]; [|exact H|exfalso; vm_compute in H; lia].
  intros q Hq. assert (q_queue_id q = MAIN_QUEUE_ID) as ->; [|by vm_compute].
  assert (forallb (fun q => bool_decide (q_queue_id q = MAIN_QUEUE_ID)) (pq_items (pending_queue (m_slots m))) = true) as Hall by by vm_compute.
  rewrite forallb_forall in Hall. apply list_elem_of_In, Hall in Hq. by bool_hyps.
Defined.

Lemma drain_is_reference_witness :
  let m := run (calm_world 1) two_tasks (started 1 ∅) in
  queued_ids (m_slots m) = [lit "b"] /\ drain_queue (calm_world 1) m = drain_queue_ref (calm_world 1) m.
Proof.
  split; [by vm_compute|]. apply (drain_is_reference (calm_world 1) _ (two_tasks_reachable (fun _ => true) eq_refl)).
Defined.

Lemma clients_know_queue_witness :
  let m := run (calm_world 1) two_tasks (started 1 ∅) in
  queued_ids (m_slots m) = [lit "b"] /\ map qp_task (shown m) = [lit "b"] /\
  exists orders, default [] (last orders) = [lit "b"] /\ (publish_all orders).1 = m_queue_order m.
Proof.
  pose proof (clients_know_queue (calm_world 1) _ (two_tasks_reachable no_boost eq_refl)) as (_ & orders & H1 & H2 & _).
  split; [by vm_compute|]. split; [by vm_compute|]. exists orders. split; [rewrite H2; by vm_compute|rewrite H1; by vm_compute].
Defined.

(** ** What goes wrong *)

(** Boosting a waiting task takes it out of the queue without publishing
    the new order or marking it as unpublished: the tick has nothing to flush,
    and the clients go on showing the task, which is being downloaded, as the
    first of a queue that is empty. *)
Theorem boost_leaves_stale_position :
  exists (w : World) (m : DownloadManager) (id : text),
    reachable w m /\
    let m' := snd (flush_queue_positions (snd (handle w (OpBoost id) m))) in
    queued_ids (m_slots m') = [] /\ is_Some (active_tasks (m_slots m') !! id) /\ map qp_task (shown m') = [id].
Proof.
  exists (calm_world 1), (run (calm_world 1) two_tasks (started 1 ∅)), (lit "b").
  split; [by apply two_tasks_reachable|]. split_and!; [by vm_compute| |by vm_compute].
  apply (bool_decide_eq_true_1 (is_Some _)). by vm_compute.
Qed.

Definition resolved_task : list Op :=
  [OpCreate (http_task (lit "a") MAIN_QUEUE_ID (lit "p")) (http_row MAIN_QUEUE_ID (lit "p"));
   OpMoveTask (lit "a") (lit "night")].

(** A task moved to another queue while a plugin resolves its link starts
    in the queue it was taken from: the row and the placeholder are moved, the
    task kept for the answer is not, and its slot and limits are then those of
    the old queue, against the row. *)
Theorem resolve_ignores_move :
  exists (w : World) (m : DownloadManager) (id : text) (out : ResolveOutcome),
    reachable w m /\ o_result out = Ok None /\
    let m' := snd (handle w (OpResolved out) m) in
    r_queue_id <$> m_rows m !! id = Some (lit "night") /\
    e_queue_id <$> active_tasks (m_slots m) !! id = Some (lit "night") /\
    r_queue_id <$> m_rows m' !! id = Some (lit "night") /\
    e_queue_id <$> active_tasks (m_slots m') !! id = Some MAIN_QUEUE_ID /\ Spawn id 2 ∈ m_out m'.
Proof.
  exists (calm_world 1), (run (calm_world 1) resolved_task (started 1 ∅)), (lit "a"),
    (mk_outcome (lit "a") 1 false Start (lit "p") (Ok None)).
  split; [by apply run_reachable; [|vm_compute]|]. split; [done|]. split_and!; try by vm_compute.
  apply list_elem_of_In. vm_compute. tauto.
Qed.

(** A world where all calls but one succeed. *)
Definition failing_at (n : nat) : World :=
  mk_world (fun i => negb (i =? n)%nat) (fun _ _ => 1) (fun _ _ => 0) (fun _ => []) (fun _ => false) (fun _ => false) (fun _ ids => ids)
    (fun _ => []) calendar.

Definition resolving_task : list Op := [OpCreate (http_task (lit "a") MAIN_QUEUE_ID (lit "p")) (http_row MAIN_QUEUE_ID (lit "p"))].

(** Deleting a batch forgets the resolution of its tasks, where deleting
    one task ends it: when the files of a task whose link a plugin resolves
    cannot be cleaned, the task stays, without its placeholder, and the
    answer of the plugin starts the task that was to be deleted. *)
Theorem delete_forgets_resolution :
  exists (w : World) (m : DownloadManager) (id : text) (out : ResolveOutcome),
    reachable w m /\ is_Some (pending_resolve (m_slots m) !! id) /\
    pending_resolve (m_slots (snd (handle w (OpDelete id) m))) !! id = None /\
    let '(result, m1) := delete_tasks_batch w [id] m in
    result = Ok 0%nat /\ active_tasks (m_slots m1) !! id = None /\
    let m2 := snd (handle w (OpResolved out) m1) in
    is_Some (active_tasks (m_slots m2) !! id) /\ Spawn id 2 ∈ m_out m2.
Proof.
  exists (failing_at 5), (run (failing_at 5) resolving_task (started 1 ∅)), (lit "a"),
    (mk_outcome (lit "a") 1 false Start (lit "p") (Ok None)).
  split; [by apply run_reachable; [|vm_compute]|]. split; [apply (bool_decide_eq_true_1 (is_Some _)); by vm_compute|].
  split; [by vm_compute|]. rewrite (surjective_pairing (delete_tasks_batch _ _ _)). cbv beta iota zeta.
  split_and!; [by vm_compute|by vm_compute|apply (bool_decide_eq_true_1 (is_Some _)); by vm_compute|].
  apply list_elem_of_In. vm_compute. tauto.
Qed.
