(* ===== verification/Stopping.v ===== *)
(** * Stopping: what pausing a batch and stopping a queue achieve

    Pausing a running task frees its slot, and the freed slot goes to a waiting
    task at once.  The claims: no task of the batch is started again on the way,
    whatever else is; and a stopped queue rests. *)
From Stdlib Require Import Ascii.
From S2P Require Import Prelude Text QueueOrder Schedule PendingQueue Slots Manager Batch SchedInv Drain Sched Positions BatchInv Scheduler.

(** Retaining keeps, whatever the counters say, those the test keeps. *)
Lemma pq_retain_kept keep p q : q ∈ pq_items (pq_retain keep p) -> keep q = true /\ q ∈ pq_items p.
Proof.
  unfold pq_retain. enough (forall items c, q ∈ (retain_items keep items c).1 -> keep q = true /\ q ∈ items) as H.
  { specialize (H (pq_items p) (pq_counts p)). destruct (retain_items _ _ _). apply H. }
  induction items as [|x items IH]; intros c; cbn [retain_items]; [by intros ?%not_elem_of_nil|]. destruct (keep x) eqn:Ex.
  - specialize (IH c). destruct (retain_items keep items c) as [kept c']. cbn in *. intros [->|[H1 H2]%IH]%elem_of_cons.
    + split; [done|by left].
    + split; [done|by right].
  - intros [H1 H2]%IH. split; [done|by right].
Qed.

(** Parking the torrents only takes tasks out. *)
Lemma drain_bt_sub p q : q ∈ pq_items (snd (drain_bt p)) -> q ∈ pq_items p.
Proof.
  unfold drain_bt. enough (forall items taken rest c, let '(_, r, _) := drain_bt_loop items taken rest c in
    forall x, x ∈ r -> x ∈ rest ++ items) as H.
  { specialize (H (pq_items p) [] [] (pq_counts p)). destruct (drain_bt_loop _ _ _ _) as [[t r] c]. apply H. }
  induction items as [|x items IH]; intros taken rest c; cbn [drain_bt_loop]; [by rewrite app_nil_r|]. destruct (bt_item x).
  - specialize (IH (taken ++ [x]) rest (counts_sub x c)). destruct (drain_bt_loop _ _ _ _) as [[t r] c']. intros y Hy%IH. set_solver.
  - specialize (IH taken (rest ++ [x]) c). destruct (drain_bt_loop _ _ _ _) as [[t r] c']. intros y Hy%IH. set_solver.
Qed.

(** ** Nothing starts in a queue *)

Section Resting.
Context (w : World) (queue : text) (rows : gmap text TaskRow) (was_there : text -> Prop) (batch : list text).

(** No task waits in the queue, those active in it were so before; the end of a
    task of the batch ends no boost. *)
Record resting (k : Core) : Prop := mk_resting {
  rest_rows : c_rows k = rows;
  rest_linked : linked rows (pending_queue (c_slots k));
  rest_queue : forall q, q ∈ pq_items (pending_queue (c_slots k)) -> q_queue_id q <> queue;
  rest_active : forall id e, active_tasks (c_slots k) !! id = Some e -> e_queue_id e = queue -> was_there id;
  rest_boost : forall p, c_priority k = Some p -> p ∉ batch }.
Notation rests c := (triple resting c (fun _ => resting)).

Lemma rests_insert id e : e_queue_id e <> queue -> rests (active_insert id e).
Proof.
  intros He. apply triple_on_slots. intros k [H1 H2 H3 H4 H5]. constructor; [done|done|done| |done]. intros i e' Hi Hq. cbn in Hi.
  destruct (decide (id = i)) as [->|Hne]; [rewrite lookup_insert_eq in Hi; by simplify_eq|].
  rewrite lookup_insert_ne in Hi by done. by eapply H4.
Qed.

Lemma rests_remove id : rests (active_remove id).
Proof.
  apply triple_on_slots. intros k [H1 H2 H3 H4 H5]. constructor; [done|done|done| |done]. intros i e' Hi Hq. cbn in Hi.
  apply lookup_delete_Some in Hi as [_ Hi]. by eapply H4.
Qed.

Lemma rests_slots f : (forall s, pending_queue (f s) = pending_queue s) -> (forall s, active_tasks (f s) = active_tasks s) -> rests (on_slots f).
Proof. intros Hp Ha. apply triple_on_slots. intros k [H1 H2 H3 H4 H5]. constructor; cbn; rewrite ?Hp, ?Ha; done. Qed.

Lemma rests_shorter f :
  (forall p, forall q, q ∈ pq_items (f p) -> q ∈ pq_items p) -> rests (on_pending f).
Proof.
  intros Hf. apply triple_on_slots. intros k [H1 H2 H3 H4 H5]. constructor; [done| | |done|done].
  - intros q r Hq. apply H2. by apply Hf.
  - intros q Hq. apply H3. by apply Hf.
Qed.

Lemma rests_modify f :
  (forall m, m_slots (f m) = m_slots m /\ m_rows (f m) = m_rows m /\ (m_priority (f m) = m_priority m \/ m_priority (f m) = None)) ->
  rests (modify f).
Proof.
  intros Hf m. destruct (Hf m) as (H1 & H2 & H3). intros [G1 G2 G3 G4 G5]. constructor; cbn in *; rewrite ?H1, ?H2; try done.
  destruct H3 as [-> | ->]; done.
Qed.

Lemma rests_bind {A B} (c : M A) (k : A -> M B) : rests c -> (forall a, rests (k a)) -> rests (bind c k).
Proof. intros Hc Hk. eapply triple_bind; [exact Hc|exact Hk]. Qed.

Lemma rests_when b c : rests c -> rests (when b c).
Proof. destruct b; [done|]. intros _. by apply triple_quiet. Qed.

Lemma rests_for_each {A} (l : list A) (f : A -> M unit) : (forall a, a ∈ l -> rests (f a)) -> rests (for_each l f).
Proof. apply triple_for_each. Qed.

Lemma rests_quiet {A} (c : M A) : quiet c -> rests c.
Proof. apply triple_quiet. Qed.

(** Loading a task: its row is the stored one. *)
Lemma rests_load {B : Type} id (f : result (option Task) unit -> M B) :
  rests (f (Err tt)) -> rests (f (Ok None)) -> (forall t, rows !! id = Some (k_row t) -> rests (f (Ok (Some t)))) ->
  rests (bind (load_task_by_id w id) f).
Proof.
  intros He Hn Hs. apply triple_load; [done|eapply triple_pre; [exact Hn|by intros k []]|].
  intros t m [Hm Hr]. apply Hs; [|done]. destruct Hm as [Hrows _]. by rewrite <- Hrows.
Qed.

Lemma rests_spawn id gen : rests (spawn_worker id gen).
Proof.
  unfold spawn_worker, get_active. apply rests_bind; [apply rests_quiet; auto with quiet|]. intros _.
  apply (triple_read _ (fun k => active_tasks (c_slots k) !! id)). intros [e|]; [|apply triple_ret; by intros k []].
  apply triple_on_slots. intros k [[H1 H2 H3 H4 H5] He]. constructor; [done|done|done| |done]. intros i e' Hi Hq. cbn in Hi.
  destruct (decide (id = i)) as [->|Hne].
  - rewrite lookup_insert_eq in Hi. simplify_eq. by eapply H4.
  - rewrite lookup_insert_ne in Hi by done. by eapply H4.
Qed.

Lemma rests_begin_resolve id queue_id is_bt p : queue_id <> queue -> rests (begin_resolve w id queue_id is_bt p).
Proof.
  intros Hq. unfold begin_resolve, next_generation.
  apply rests_bind; [apply rests_bind; [by apply rests_slots|intros; by apply rests_quiet]|]. intros gen.
  apply rests_bind; [by apply rests_insert|]. intros _. apply rests_bind; [by apply rests_slots|]. intros _.
  apply rests_quiet. quiet_tac.
Qed.

Lemma rests_launch q : q_queue_id q <> queue -> rests (launch w q).
Proof.
  intros Hq. unfold launch, next_generation. apply rests_bind; [apply rests_quiet; auto with quiet|]. intros _.
  apply rests_bind; [apply rests_bind; [by apply rests_slots|intros; by apply rests_quiet]|]. intros gen.
  apply rests_bind; [by apply rests_insert|]. intros _. case_match; [|apply rests_spawn].
  apply rests_bind; [apply rests_quiet; auto with quiet|]. intros []; cbn [negb].
  - apply rests_bind; [apply rests_quiet; auto with quiet|]. intros []; cbn [negb]; [apply rests_spawn|].
    apply rests_bind; [apply rests_quiet; auto with quiet|intros; apply rests_remove].
  - do 2 (apply rests_bind; [apply rests_quiet; auto with quiet|intros ?]). apply rests_remove.
Qed.

Lemma rests_start q : q_queue_id q <> queue -> rests (do_start_task w q).
Proof.
  intros Hq. unfold do_start_task, begin_resolve_start. case_match; [|by apply rests_launch].
  apply rests_bind; [apply rests_quiet; auto with quiet|]. intros [[|c bound]|e].
  - case_match; [|by apply rests_launch]. apply rests_bind; [apply rests_quiet; auto with quiet|].
    intros [plugin|]; [by apply rests_begin_resolve|apply rests_quiet; auto with quiet].
  - case_match; by apply rests_begin_resolve.
  - case_match; [apply rests_quiet; auto with quiet|by apply rests_begin_resolve].
Qed.

Lemma rests_begin_resume id plugin :
  (forall r, rows !! id = Some r -> r_queue_id r <> queue) -> rests (begin_resolve_resume w id plugin).
Proof.
  intros Hr. unfold begin_resolve_resume. apply rests_load; [by apply rests_quiet..|]. intros t Ht.
  do 4 (apply rests_bind; [apply rests_quiet; auto with quiet|]; intros []; cbn [negb]; [|apply rests_quiet; auto with quiet]).
  apply rests_begin_resolve. by apply Hr.
Qed.

Lemma rests_relaunch id applied : (forall r, rows !! id = Some r -> r_queue_id r <> queue) -> rests (relaunch w id applied).
Proof.
  intros Hr. unfold relaunch, next_generation. apply rests_load; [apply rests_quiet; auto with quiet|by apply rests_quiet|]. intros t Ht.
  apply rests_bind; [apply rests_quiet; quiet_tac|]. intros []; [apply rests_quiet; quiet_tac|].
  apply rests_bind; [apply rests_bind; [by apply rests_slots|intros; by apply rests_quiet]|]. intros gen.
  apply rests_bind; [by apply rests_quiet|]. intros enabled. destruct (_ && _); [apply rests_quiet; auto with quiet|].
  apply rests_bind; [by apply rests_insert, Hr|]. intros _. destruct (is_bt_url _); [|apply rests_spawn].
  apply rests_bind; [apply rests_quiet; auto with quiet|]. intros []; cbn [negb].
  - apply rests_bind; [apply rests_quiet; auto with quiet|]. intros []; cbn [negb]; [|apply rests_remove].
    apply rests_bind; [apply rests_quiet; quiet_tac|]. intros []; cbn [negb]; [apply rests_spawn|].
    apply rests_bind; [apply rests_quiet; auto with quiet|intros; apply rests_remove].
  - do 2 (apply rests_bind; [apply rests_quiet; auto with quiet|intros ?]). apply rests_remove.
Qed.

Lemma rests_do_resume id : (forall r, rows !! id = Some r -> r_queue_id r <> queue) -> rests (do_resume_task w id).
Proof.
  intros Hr. unfold do_resume_task. do 2 (apply rests_bind; [apply rests_quiet; auto with quiet|intros ?]).
  apply rests_bind; [apply rests_modify; auto|]. intros _.
  assert (rests (let! item := get_column w r_resolver_item id in
     if match item with Ok [] => false | _ => true end
     then let! plugin := rebind_second_stage w id in
       match plugin with
       | Some plugin => begin_resolve_resume w id plugin
       | None => fail_second_stage_unavailable w id
       end
     else relaunch w id None)) as Hunbound.
  { apply rests_bind; [apply rests_quiet; auto with quiet|]. intros item. case_match; [|by apply rests_relaunch].
    apply rests_bind; [apply rests_quiet; auto with quiet|]. intros [plugin|]; [by apply rests_begin_resume|apply rests_quiet; auto with quiet]. }
  destruct a as [[|c plugin]|e]; [done| |done]. destruct a0 as [url|]; [by apply rests_relaunch|by apply rests_begin_resume].
Qed.

Lemma rests_pq_remove i : rests (on_pending (fun p => snd (pq_remove i p))).
Proof. apply rests_shorter. intros p q Hq. eapply elem_of_sublist; [exact Hq|apply pq_remove_sublist]. Qed.

Lemma rests_drain_loop fuel blocked n cursor : rests (drain_loop w fuel blocked n cursor).
Proof.
  revert blocked n cursor. induction fuel as [|fuel IH]; intros blocked n cursor; cbn [drain_loop]; [by apply rests_quiet|].
  apply rests_bind; [by apply rests_quiet|]. intros []; cbn [negb]; [|by apply rests_quiet].
  apply (triple_read _ (fun k => pending_queue (c_slots k))). intros p.
  assert (forall A (c : M A), rests c -> triple (fun k => resting k /\ pending_queue (c_slots k) = p) c (fun _ => resting)) as Hw
    by (intros A c Hc; eapply triple_pre; [exact Hc|by intros k []]).
  case_match; [apply Hw; by apply rests_quiet|].
  destruct (pq_get p cursor) as [item|] eqn:Hitem; [|apply Hw; by apply rests_quiet].
  triple_skip. triple_case; [apply Hw; apply rests_bind; [apply rests_pq_remove|intros; apply IH]|].
  triple_case; [apply Hw, IH|]. triple_skip. triple_case; [apply Hw, IH|].
  destruct (decide (q_queue_id item = queue)) as [Hq|Hq].
  { intros m [[_ _ H3 _ _] Hp]. destruct (H3 item); [|done]. rewrite Hp. by eapply list_elem_of_lookup_2. }
  intros m [Hm Hp]. revert m Hm Hp. enough (forall m, resting (core m) /\ pending_queue (m_slots m) = p ->
    (q_is_resume item = true -> forall r, rows !! q_task_id item = Some r -> r_queue_id r <> queue) ->
    resting (core (snd ((do! on_pending (fun p => snd (pq_remove cursor p)) in
      do! if q_is_resume item then do_resume_task w (q_task_id item) else do_start_task w item in
      drain_loop w fuel blocked n cursor) m)))) as Hgo.
  { intros m Hm Hp. apply Hgo; [done|]. destruct Hm as [_ H2 H3 _ _]. cbn in H2, H3, Hp. rewrite Hp in H2, H3.
    apply list_elem_of_lookup_2 in Hitem. intros Er r Hrow. rewrite (H2 item r Hitem Er Hrow). by apply H3. }
  intros m [Hm _] Hr. revert m Hm. change (rests (do! on_pending (fun p => snd (pq_remove cursor p)) in
      do! if q_is_resume item then do_resume_task w (q_task_id item) else do_start_task w item in
      drain_loop w fuel blocked n cursor)).
  apply rests_bind; [apply rests_pq_remove|]. intros _. apply rests_bind; [|intros _; apply IH].
  destruct (q_is_resume item); [apply rests_do_resume; by apply Hr|by apply rests_start].
Qed.

Lemma rests_drain : rests (drain_queue w).
Proof.
  unfold drain_queue, park_pending_bt_tasks. apply rests_bind.
  - apply rests_bind; [by apply rests_quiet|]. intros enabled. apply (triple_read _ (fun k => pending_queue (c_slots k))). intros p.
    triple_case; [apply triple_ret; by intros k []|]. destruct (drain_bt p) as [items rest] eqn:E.
    apply (triple_then _ _ _ resting); [|apply rests_quiet; quiet_tac].
    apply triple_on_slots. intros k [[H1 H2 H3 H4 H5] Hp]. pose proof (drain_bt_sub p) as Hsub. rewrite E, <- Hp in Hsub. cbn in Hsub.
    constructor; [done| | |done|done].
    + intros q r Hq. apply H2. by apply Hsub.
    + intros q Hq. apply H3. by apply Hsub.
  - intros _. apply rests_bind; [by apply rests_quiet|]. intros p. apply rests_bind; [by apply rests_quiet|]. intros cap.
    destruct (_ || _); [by apply rests_quiet|]. apply rests_bind; [by apply rests_quiet|]. intros room.
    destruct (negb room); [by apply rests_quiet|]. apply rests_bind; [apply rests_drain_loop|]. intros _.
    apply rests_quiet. quiet_tac.
Qed.

(** Resuming a task of another queue. *)
Lemma rests_push id r : rows !! id = Some r -> r_queue_id r <> queue -> rests (on_pending (push_back (for_resume id r))).
Proof.
  intros Hr Hq. apply triple_on_slots. intros k [H1 H2 H3 H4 H5].
  assert (forall x, x ∈ pq_items (push_back (for_resume id r) (pending_queue (c_slots k))) -> x = for_resume id r \/ x ∈ pq_items (pending_queue (c_slots k)))
    as Hin by (cbn; set_solver).
  constructor; [done| | |done|done].
  - intros x r' Hx Hres Hrow. apply Hin in Hx as [->|Hx]; [|by apply H2]. cbn in *. rewrite Hr in Hrow. by injection Hrow as <-.
  - intros x Hx. by apply Hin in Hx as [->|Hx]; [|apply H3].
Qed.

Lemma rests_resume id : (forall r, rows !! id = Some r -> r_queue_id r <> queue) -> rests (resume_task w id).
Proof.
  intros Hr. unfold resume_task, resume_task_inner. do 2 (apply rests_bind; [apply rests_quiet; auto with quiet|intros ?]).
  destruct a0 as [p|]; [apply rests_modify; auto|]. apply rests_bind; [by apply rests_quiet|]. intros active.
  apply rests_bind.
  { destruct active; [|by apply rests_quiet]. apply rests_bind; [by apply rests_quiet|]. intros []; [by apply rests_quiet|].
    apply rests_bind; [by apply rests_quiet|]. intros [[t|]|e]; [|by apply rests_quiet..]. case_match; [|by apply rests_quiet].
    apply rests_bind; [apply rests_modify; auto|]. intros _. apply rests_bind; [apply rests_remove|intros; by apply rests_quiet]. }
  intros []; cbn [negb]; [|by apply rests_quiet]. apply rests_bind; [by apply rests_quiet|]. intros []; [by apply rests_quiet|].
  assert (Hgo : rests (do! do_resume_task w id in do! drain_queue w in sync_queue_occupancy)).
  { apply rests_bind; [by apply rests_do_resume|]. intros _. apply rests_bind; [apply rests_drain|intros; apply rests_quiet; auto with quiet]. }
  apply rests_load; [by apply rests_quiet| |].
  - apply rests_bind; [by apply rests_quiet|]. intros []; [by apply rests_quiet|]. apply rests_bind; [by apply rests_quiet|]. intros free.
    case_match; [done|apply rests_quiet; auto with quiet].
  - intros t Ht. apply rests_bind; [apply rests_quiet; auto with quiet|]. intros []; [by apply rests_quiet|].
    apply rests_bind; [by apply rests_quiet|]. intros free. case_match; [done|].
    apply rests_bind; [apply rests_quiet; auto with quiet|]. intros []; cbn [negb]; [|by apply rests_quiet].
    apply rests_bind; [apply rests_quiet; auto with quiet|]. intros _. apply rests_bind; [by apply rests_push; [|apply Hr]|].
    intros _. apply rests_quiet. quiet_tac.
Qed.

(** Pausing a task of the batch. *)
Lemma rests_end_boost id : id ∈ batch -> rests (end_boost_of w id).
Proof.
  intros Hid. unfold end_boost_of. apply (triple_read _ c_priority). intros p. case_bool_decide as Hp; cbn [when].
  - subst p. intros m [Hm Hp]. by destruct (rest_boost _ Hm id Hp).
  - apply triple_ret. by intros k [].
Qed.

Lemma rests_clear_resolve id : rests (clear_pending_resolve id).
Proof. unfold clear_pending_resolve. apply rests_bind; [by apply rests_slots|]. intros _. apply rests_modify. auto. Qed.

Lemma rests_pause_active id e notify drain : id ∈ batch -> rests (pause_active w id e notify drain).
Proof.
  intros Hid. unfold pause_active. apply rests_bind; [apply rests_remove|]. intros _.
  apply rests_bind; [apply rests_quiet; auto with quiet|]. intros _. apply rests_bind; [apply rests_when, rests_modify; auto|]. intros _.
  apply rests_bind; [by apply rests_quiet|]. intros session. apply rests_bind; [apply rests_quiet; quiet_tac|]. intros []; cbn [negb]; [|apply rests_drain].
  apply rests_bind; [apply rests_quiet; auto with quiet|]. intros []; cbn [negb].
  - apply rests_bind; [apply rests_quiet; quiet_tac|]. intros _. apply rests_bind; [apply rests_when, rests_drain|]. intros _.
    apply rests_bind; [by apply rests_end_boost|intros; apply rests_quiet; auto with quiet].
  - apply rests_bind; [apply rests_drain|intros; apply rests_quiet; auto with quiet].
Qed.

Lemma rests_pause id : id ∈ batch -> rests (pause_task_silent w id).
Proof.
  intros Hid. unfold pause_task_silent, pause_task_inner, get_active. apply rests_bind; [apply rests_clear_resolve|]. intros _.
  do 2 (apply rests_bind; [apply rests_quiet; auto with quiet|intros ?]).
  destruct a0 as [p|]; [apply rests_bind; [apply rests_modify; auto|intros; apply rests_quiet; auto with quiet]|].
  apply rests_bind; [by apply rests_quiet|]. intros [pos|].
  - apply rests_bind; [apply rests_quiet; auto with quiet|]. intros []; cbn [negb]; [|apply rests_quiet; auto with quiet].
    apply rests_bind; [apply rests_pq_remove|]. intros _. apply rests_quiet. quiet_tac.
  - apply rests_bind; [by apply rests_quiet|]. intros entry. apply rests_bind; [apply rests_quiet; quiet_tac|].
    intros []; [by apply rests_quiet|]. destruct entry as [e|]; [by apply rests_pause_active|]. apply rests_quiet. quiet_tac.
Qed.
End Resting.

(** ** Commands that leave the pending pauses and the plans of the queues alone *)

Definition unplanned {A} (c : M A) : Prop := forall m, m_plans (snd (c m)) = m_plans m.
Definition patient {A} (c : M A) : Prop := forall m, m_pauses (snd (c m)) = m_pauses m /\ m_plans (snd (c m)) = m_plans m.

Lemma patient_bind {A B} (c : M A) (k : A -> M B) : patient c -> (forall a, patient (k a)) -> patient (bind c k).
Proof.
  intros Hc Hk m. unfold bind. specialize (Hc m). destruct (c m) as [a m']. destruct (Hk a m') as [-> ->]. done.
Qed.

Lemma patient_for_each {A} (l : list A) (f : A -> M unit) : (forall a, patient (f a)) -> patient (for_each l f).
Proof. intros H. induction l; [done|]. by apply patient_bind. Qed.

Lemma patient_when b c : patient c -> patient (when b c).
Proof. by destruct b. Qed.

Lemma patient_ret {A} (a : A) : patient (ret a).
Proof. done. Qed.

Lemma patient_gets {A} (f : DownloadManager -> A) : patient (gets f).
Proof. done. Qed.

Lemma patient_modify f : (forall m, m_pauses (f m) = m_pauses m /\ m_plans (f m) = m_plans m) -> patient (modify f).
Proof. intros Hf m. apply Hf. Qed.

Lemma patient_slots f : patient (on_slots f).
Proof. done. Qed.

Lemma patient_call {A} w (f : World -> nat -> A) : patient (call w f).
Proof. done. Qed.

Lemma patient_load w id : patient (load_task_by_id w id).
Proof. done. Qed.

Lemma patient_column w f id : patient (get_column w f id).
Proof. done. Qed.

Create HintDb patient.
#[export] Hint Resolve patient_ret patient_gets patient_slots patient_call patient_load patient_column : patient.

Ltac patient_tac :=
  repeat first
    [ progress intros
    | solve [auto with patient nocore]
    | apply patient_bind
    | apply patient_for_each
    | apply patient_when
    | apply patient_modify; intros; (done || (case_match; done))
    | case_match
    | done ].

Section Patient.
Context (w : World).

Lemma patient_status id st : patient (update_task_status w id st).
Proof. unfold update_task_status, ask, emit. patient_tac. Qed.

Lemma patient_progress id st : patient (emit_progress_from_db w id st).
Proof. unfold emit_progress_from_db, emit, skip. patient_tac. Qed.

#[local] Hint Resolve patient_status patient_progress : patient.

Lemma patient_failure id : patient (persist_task_failure w id).
Proof. unfold persist_task_failure, emit. patient_tac. Qed.

Lemma patient_broadcast : patient broadcast_queue_positions.
Proof. unfold broadcast_queue_positions, emit, skip. patient_tac. Qed.

Lemma patient_occupied queue_id : patient (mark_queue_occupied queue_id).
Proof. unfold mark_queue_occupied, emit_queue_started, emit, skip. patient_tac. Qed.

Lemma patient_sync : patient sync_queue_occupancy.
Proof. unfold sync_queue_occupancy, emit_queue_started, emit. patient_tac. Qed.

Lemma patient_bt_session : patient (ensure_bt_session w).
Proof. unfold ensure_bt_session, ask. patient_tac. Qed.

Lemma patient_parked id : patient (park_bt_disabled_task w id).
Proof. unfold park_bt_disabled_task, skip. patient_tac. Qed.

Lemma patient_rebind id : patient (rebind_second_stage w id).
Proof. unfold rebind_second_stage, ask. patient_tac. Qed.

#[local] Hint Resolve patient_failure patient_broadcast patient_occupied patient_sync patient_bt_session patient_parked patient_rebind : patient.

Lemma patient_unavailable id : patient (fail_second_stage_unavailable w id).
Proof. apply patient_failure. Qed.

Lemma patient_generation : patient next_generation.
Proof. unfold next_generation. patient_tac. Qed.

Lemma patient_begin_resolve id queue_id is_bt p : patient (begin_resolve w id queue_id is_bt p).
Proof. unfold begin_resolve, next_generation, active_insert, mark_resolving, emit. patient_tac. Qed.

Lemma patient_begin_start q : patient (begin_resolve_start w q).
Proof. apply (patient_begin_resolve (q_task_id q)). Qed.

#[local] Hint Resolve patient_unavailable patient_generation patient_begin_resolve patient_begin_start : patient.

Lemma patient_begin_resume id plugin : patient (begin_resolve_resume w id plugin).
Proof. unfold begin_resolve_resume, ask, skip. patient_tac. Qed.

Lemma patient_spawn id gen : patient (spawn_worker id gen).
Proof. unfold spawn_worker, get_active, active_insert, emit, skip. patient_tac. Qed.

#[local] Hint Resolve patient_begin_resume patient_spawn : patient.

Lemma patient_launch q : patient (launch w q).
Proof. unfold launch, ask, active_insert, active_remove, emit. patient_tac. Qed.

Lemma patient_relaunch id applied : patient (relaunch w id applied).
Proof. unfold relaunch, ask, active_insert, active_remove, emit, skip. patient_tac. Qed.

#[local] Hint Resolve patient_launch patient_relaunch : patient.

Lemma patient_start q : patient (do_start_task w q).
Proof. unfold do_start_task. patient_tac. Qed.

Lemma patient_resume id : patient (do_resume_task w id).
Proof. unfold do_resume_task. patient_tac. Qed.

#[local] Hint Resolve patient_start patient_resume : patient.

Lemma patient_drain_loop fuel blocked n cursor : patient (drain_loop w fuel blocked n cursor).
Proof.
  revert blocked n cursor. induction fuel as [|fuel IH]; intros blocked n cursor; cbn [drain_loop]; [done|].
  unfold get_pending, is_active, on_pending, skip. patient_tac; apply IH.
Qed.

Lemma patient_park : patient (park_pending_bt_tasks w).
Proof. unfold park_pending_bt_tasks, get_pending, on_pending, skip. patient_tac. Qed.

#[local] Hint Resolve patient_drain_loop patient_park : patient.

Lemma patient_drain : patient (drain_queue w).
Proof. unfold drain_queue, get_pending, skip. patient_tac. Qed.

Lemma patient_unschedule id : patient (retry_unschedule id).
Proof. done. Qed.

Lemma patient_completed id t : patient (resume_completed w id t).
Proof. unfold resume_completed. patient_tac. Qed.

Lemma patient_snapshot : patient (send_tasks_snapshot w).
Proof. unfold send_tasks_snapshot, ask, emit. patient_tac. Qed.

Lemma patient_queues : patient (send_all_queues w).
Proof. unfold send_all_queues, ask, emit. patient_tac. Qed.

Lemma patient_pause_failed id : patient (pause_failed_task w id).
Proof. unfold pause_failed_task, retry_unschedule. patient_tac. Qed.

Lemma patient_pause_seeding id : patient (pause_seeding w id).
Proof. unfold pause_seeding, ask. patient_tac. Qed.

Lemma patient_webhook id : patient (emit_paused_webhook w id).
Proof. unfold emit_paused_webhook, emit, skip. patient_tac. Qed.

Lemma patient_clear_resolve id : patient (clear_pending_resolve id).
Proof. unfold clear_pending_resolve. patient_tac. Qed.

Lemma patient_status_batch ids st : patient (update_tasks_status_batch w ids st).
Proof. unfold update_tasks_status_batch, ask, emit. patient_tac. Qed.

#[local] Hint Resolve patient_unschedule patient_status_batch : patient.

Lemma patient_collect scope candidates failed : patient (collect_failed w scope candidates failed).
Proof. revert failed. induction candidates as [|id l IH]; intros failed; cbn [collect_failed]; [done|]. patient_tac; apply IH. Qed.

#[local] Hint Resolve patient_collect : patient.

Lemma patient_pause_failed_batch candidates scope : patient (pause_failed_batch w candidates scope).
Proof. unfold pause_failed_batch. patient_tac. Qed.
End Patient.

#[export] Hint Resolve patient_status patient_progress patient_failure patient_broadcast patient_occupied patient_sync
  patient_bt_session patient_parked patient_rebind patient_start patient_resume patient_drain patient_park patient_unschedule
  patient_completed patient_snapshot patient_queues patient_pause_failed patient_pause_seeding patient_webhook
  patient_clear_resolve patient_status_batch patient_pause_failed_batch : patient.

(** *** Commands that leave the plans alone *)

Lemma unplanned_patient {A} (c : M A) : patient c -> unplanned c.
Proof. intros Hc m. apply Hc. Qed.

Lemma unplanned_bind {A B} (c : M A) (k : A -> M B) : unplanned c -> (forall a, unplanned (k a)) -> unplanned (bind c k).
Proof. intros Hc Hk m. unfold bind. specialize (Hc m). destruct (c m) as [a m']. by rewrite Hk. Qed.

Lemma unplanned_modify f : (forall m, m_plans (f m) = m_plans m) -> unplanned (modify f).
Proof. done. Qed.

Lemma unplanned_when b c : unplanned c -> unplanned (when b c).
Proof. by destruct b. Qed.

Lemma unplanned_for_each {A} (l : list A) (f : A -> M unit) : (forall a, unplanned (f a)) -> unplanned (for_each l f).
Proof. intros H. induction l; [done|]. by apply unplanned_bind. Qed.

Ltac unplanned_tac :=
  repeat first
    [ progress intros
    | solve [apply unplanned_patient; auto with patient nocore]
    | apply unplanned_when
    | apply unplanned_bind
    | apply unplanned_for_each
    | apply unplanned_modify; intros; (done || (case_match; done))
    | case_match
    | done ].

Section Unplanned.
Context (w : World).

Lemma unplanned_resume id : unplanned (resume_task w id).
Proof. unfold resume_task, resume_task_inner, is_active, has_pending_resolve, active_remove, emit, on_pending, capacity, skip. unplanned_tac. Qed.

Lemma unplanned_clear_priority : unplanned (clear_priority w).
Proof. unfold clear_priority, persist_boost, ask, emit, skip. pose proof unplanned_resume. unplanned_tac. Qed.

Lemma unplanned_pause id : unplanned (pause_task_silent w id).
Proof.
  unfold pause_task_silent, pause_task_inner, pause_active, end_boost_of, get_active, on_pending, active_remove, ask, emit, skip.
  pose proof unplanned_clear_priority. unplanned_tac.
Qed.
End Unplanned.

(** ** A task of the batch *)

Section Apart.
Context (w : World) (batch : list text) (id : text) (Hid : id ∈ batch).

(** It does not wait; its entry and its pending pause. *)
Record apart (o : option ActiveTaskEntry) (p : bool) (m : DownloadManager) : Prop := mk_apart {
  apart_queue : id ∉ queued_ids (m_slots m);
  apart_active : active_tasks (m_slots m) !! id = o;
  apart_pause : bool_decide (is_Some (m_pauses m !! id)) = p;
  apart_boost : forall x, m_priority m = Some x -> x ∉ batch }.

Definition spares {A} (c : M A) : Prop := forall o p m, apart o p m -> apart o p (snd (c m)).

Lemma spares_bind {A B} (c : M A) (k : A -> M B) : spares c -> (forall a, spares (k a)) -> spares (bind c k).
Proof. intros Hc Hk o p m Hm. unfold bind. specialize (Hc o p m Hm). destruct (c m) as [a m']. by apply Hk. Qed.

Lemma spares_for_each {A} (l : list A) (f : A -> M unit) : (forall a, a ∈ l -> spares (f a)) -> spares (for_each l f).
Proof.
  induction l as [|a l IH]; intros H; [by intros o p m Hm|]. cbn [for_each]. apply spares_bind; [apply H; by left|].
  intros _. apply IH. intros x Hx. apply H. by right.
Qed.

Lemma spares_when b c : spares c -> spares (when b c).
Proof. destruct b; [done|]. by intros _ o p m Hm. Qed.

Lemma spares_quiet {A} (c : M A) : quiet c -> patient c -> spares c.
Proof.
  intros Hq Hp o p m [H1 H2 H3 H4]. specialize (Hq m). destruct (Hp m) as [Hp' _]. injection Hq as G1 _ _ G4 _ _.
  constructor; rewrite ?G1, ?Hp', ?G4; done.
Qed.

Lemma spares_modify f : (forall m, m_slots (f m) = m_slots m /\ m_pauses (f m) = m_pauses m /\
  (m_priority (f m) = m_priority m \/ m_priority (f m) = None)) -> spares (modify f).
Proof.
  intros Hf o p m [H1 H2 H3 H4]. destruct (Hf m) as (G1 & G2 & G3). constructor; cbn; rewrite ?G1, ?G2; try done.
  destruct G3 as [-> | ->]; done.
Qed.

Lemma spares_pauses i f : i <> id -> spares (modify (fun m => set_pauses (<[i := f m]> (m_pauses m)) m)).
Proof. intros Hi o p m [H1 H2 H3 H4]. constructor; cbn; [done|done| |done]. by rewrite lookup_insert_ne. Qed.

Lemma spares_pauses_again f o p m :
  is_Some (m_pauses m !! id) -> apart o p m -> apart o p (set_pauses (<[id := f]> (m_pauses m)) m).
Proof.
  intros Hs [H1 H2 H3 H4]. constructor; cbn; [done|done| |done]. rewrite <- H3, lookup_insert_eq.
  rewrite !bool_decide_eq_true_2 by done. done.
Qed.

Lemma spares_confined {A} i (c : M A) : i <> id -> confined i c -> patient c -> spares c.
Proof.
  intros Hi Hc Hp o p m [H1 H2 H3 H4]. specialize (Hc m). destruct (Hp m) as [Hp' _]. destruct Hc as [_ _ C3 _ C5 _ C7]. cbn in *.
  constructor; [unfold queued_ids in *; by rewrite C5| |by rewrite Hp'|by rewrite C3].
  rewrite <- H2. rewrite <- (lookup_delete_ne (active_tasks (m_slots (snd (c m)))) i id) by done.
  by rewrite C7, lookup_delete_ne.
Qed.

Lemma spares_shorter f : (forall p q, q ∈ pq_items (f p) -> q ∈ pq_items p) -> spares (on_pending f).
Proof.
  intros Hf o p m [H1 H2 H3 H4]. constructor; [|done|done|done]. cbn. intros Hin. apply H1. unfold queued_ids in *. cbn in Hin.
  apply list_elem_of_fmap in Hin as (q & Hq & Hin). apply list_elem_of_fmap. exists q. split; [done|]. by eapply Hf.
Qed.

Lemma spares_slots f : (forall s, pending_queue (f s) = pending_queue s) -> (forall s, active_tasks (f s) !! id = active_tasks s !! id) ->
  spares (on_slots f).
Proof. intros Hp Ha o p m [H1 H2 H3 H4]. constructor; cbn; [unfold queued_ids in *; by rewrite Hp|by rewrite Ha|done|done]. Qed.

Lemma spares_remove i : i <> id -> spares (active_remove i).
Proof. intros Hi. apply spares_slots; [done|]. intros s. cbn. by rewrite lookup_delete_ne. Qed.

Ltac spares_base := apply spares_quiet; [solve [auto with quiet|quiet_tac]|solve [auto with patient|patient_tac]].

Lemma spares_item item : id <> q_task_id item ->
  spares (if q_is_resume item then do_resume_task w (q_task_id item) else do_start_task w item).
Proof.
  intros Hi. destruct (q_is_resume item); (apply (spares_confined (q_task_id item)); [done| |]).
  - apply (confined_resume w (q_task_id item)).
  - auto with patient.
  - apply (confined_start w item).
  - apply (patient_start w item).
Qed.

Lemma spares_drain_loop fuel blocked n cursor : spares (drain_loop w fuel blocked n cursor).
Proof.
  revert blocked n cursor. induction fuel as [|fuel IH]; intros blocked n cursor; cbn [drain_loop]; [by intros o p m Hm|].
  assert (Hrm : forall i, spares (on_pending (fun p => snd (pq_remove i p)))).
  { intros i. apply spares_shorter. intros p q Hq. eapply elem_of_sublist; [exact Hq|apply pq_remove_sublist]. }
  apply spares_bind; [spares_base|]. intros []; cbn [negb]; [|by intros o p m Hm].
  intros o p m Hm. unfold bind at 1, get_pending, gets. set (p0 := pending_queue (m_slots m)).
  destruct (_ =? 0)%nat; [done|].
  destruct (pq_get _ cursor) as [item|] eqn:Hitem; [|done].
  assert (id <> q_task_id item) as Hne.
  { intros ->. apply (apart_queue _ _ _ Hm), list_elem_of_fmap. exists item. split; [done|]. by eapply list_elem_of_lookup_2. }
  enough (spares (let! active := is_active (q_task_id item) in
      if active then do! on_pending (fun p => snd (pq_remove cursor p)) in
        drain_loop w fuel blocked (if decide (q_queue_id item ∈ blocked) then (n - 1)%nat else n) cursor
      else if decide (q_queue_id item ∈ blocked) then drain_loop w fuel blocked n (S cursor)
      else
        let! room := gets (fun m => has_queue_capacity (m_limits m) (m_slots m) (q_queue_id item)) in
        if negb room then drain_loop w fuel ({[q_queue_id item]} ∪ blocked) (n + queued_in p0 (q_queue_id item)) (S cursor)
        else do! on_pending (fun p => snd (pq_remove cursor p)) in
          do! if q_is_resume item then do_resume_task w (q_task_id item) else do_start_task w item in
          drain_loop w fuel blocked n cursor)) as H by (by apply H).
  clearbody p0. clear o p m Hm Hitem.
  apply spares_bind; [spares_base|]. intros [].
  - apply spares_bind; [apply Hrm|intros; apply IH].
  - destruct (decide _); [apply IH|]. apply spares_bind; [spares_base|]. intros room.
    destruct (negb room); [apply IH|]. apply spares_bind; [apply Hrm|]. intros _. apply spares_bind; [by apply spares_item|intros; apply IH].
Qed.

Lemma spares_drain : spares (drain_queue w).
Proof.
  unfold drain_queue, park_pending_bt_tasks. apply spares_bind.
  - apply spares_bind; [spares_base|]. intros enabled o p m Hm. unfold bind at 1, get_pending, gets.
    destruct (_ || _); [done|]. destruct (drain_bt _) as [items rest] eqn:E.
    pose proof (drain_bt_sub (pending_queue (m_slots m))) as Hsub. rewrite E in Hsub.
    assert (apart o p (snd (on_pending (fun _ => rest) m))) as Hm'.
    { destruct Hm as [H1 H2 H3 H4]. constructor; [|done|done|done]. cbn. intros Hin. apply H1. unfold queued_ids in *. cbn in Hin.
      apply list_elem_of_fmap in Hin as (q & Hq & Hin). apply list_elem_of_fmap. exists q. split; [done|]. by apply Hsub. }
    assert (spares (do! for_each items (fun q => park_bt_disabled_task w (q_task_id q)) in
      when (negb (bool_decide (items = []))) broadcast_queue_positions)) as Hs by spares_base.
    by apply (Hs o p _ Hm').
  - intros _. apply spares_bind; [spares_base|]. intros pending. apply spares_bind; [spares_base|]. intros cap.
    destruct (_ || _); [spares_base|]. apply spares_bind; [spares_base|]. intros room.
    destruct (negb room); [spares_base|]. apply spares_bind; [apply spares_drain_loop|]. intros _. spares_base.
Qed.

(** *** Another task is resumed or paused *)

Lemma spares_push i r : i <> id -> spares (on_pending (push_back (for_resume i r))).
Proof.
  intros Hi o p m [H1 H2 H3 H4]. constructor; [|done|done|done]. unfold queued_ids in *. cbn. rewrite map_app, elem_of_app. cbn.
  rewrite list_elem_of_singleton. intros [H|H]; [done|congruence].
Qed.

Lemma spares_resume_later i p : i <> id -> spares (modify (fun m => set_pauses (<[i := mk_pause (pp_generation p) (pp_notify p) true]> (m_pauses m)) m)).
Proof. intros Hi. by apply (spares_pauses i (fun _ => _)). Qed.

Lemma spares_emit e : spares (emit e).
Proof. apply spares_modify. intros m. cbn. auto. Qed.

Lemma spares_resumed i : i <> id -> spares (do! do_resume_task w i in do! drain_queue w in sync_queue_occupancy).
Proof.
  intros Hi. apply spares_bind; [apply (spares_confined i); [done|apply confined_resume|auto with patient]|]. intros _.
  apply spares_bind; [apply spares_drain|]. intros _. spares_base.
Qed.

Lemma spares_resume i : i <> id -> spares (resume_task w i).
Proof.
  intros Hi. unfold resume_task, resume_task_inner. apply spares_bind; [spares_base|]. intros _.
  apply spares_bind; [spares_base|]. intros [pp|]; [by apply spares_resume_later|]. apply spares_bind; [spares_base|]. intros active.
  apply spares_bind.
  { destruct active; [|spares_base]. apply spares_bind; [spares_base|]. intros []; [spares_base|].
    apply spares_bind; [spares_base|]. intros [[t|]|e]; [|spares_base..]. case_match; [|spares_base].
    apply spares_bind; [apply spares_emit|]. intros _. apply spares_bind; [by apply spares_remove|]. intros _. spares_base. }
  intros []; cbn [negb]; [|spares_base]. apply spares_bind; [spares_base|]. intros []; [spares_base|].
  apply spares_bind; [spares_base|]. intros [row|e]; [|spares_base]. apply spares_bind; [destruct row; spares_base|]. intros []; [spares_base|].
  apply spares_bind; [spares_base|]. intros free. destruct (_ || _); [by apply spares_resumed|]. destruct row as [t|]; [|spares_base].
  apply spares_bind; [spares_base|]. intros []; cbn [negb]; [|spares_base]. apply spares_bind; [apply spares_emit|]. intros _.
  apply spares_bind; [by apply spares_push|]. intros _. spares_base.
Qed.

Lemma spares_end_boost i : i ∈ batch -> spares (end_boost_of w i).
Proof.
  intros Hi o p m Hm. unfold end_boost_of, bind at 1, gets. case_bool_decide as Hp; [|done].
  by destruct (apart_boost _ _ _ Hm i Hp).
Qed.

Lemma spares_clear_resolve i : spares (clear_pending_resolve i).
Proof. unfold clear_pending_resolve. apply spares_bind; [by apply spares_slots|]. intros _. apply spares_modify. auto. Qed.

(** The rest of the pause of an active task, its entry gone. *)
Lemma spares_after_removal i e : i ∈ batch -> spares (
  let! session := gets m_bt_session in
  let! paused := if session then ask w else ret true in
  if negb paused then drain_queue w else
  let! ok := update_task_status w i 2 in
  if negb ok then do! drain_queue w in sync_queue_occupancy else
  do! when (negb (e_handle e)) (do! emit_progress_from_db w i 2 in let! _ := load_task_by_id w i in when false (emit_paused_webhook w i)) in
  do! when true (drain_queue w) in
  do! end_boost_of w i in
  sync_queue_occupancy).
Proof.
  intros Hi. apply spares_bind; [spares_base|]. intros session. apply spares_bind; [spares_base|]. intros []; cbn [negb]; [|apply spares_drain].
  apply spares_bind; [spares_base|]. intros []; cbn [negb].
  - apply spares_bind; [spares_base|]. intros _. apply spares_bind; [apply spares_drain|]. intros _.
    apply spares_bind; [by apply spares_end_boost|]. intros _. spares_base.
  - apply spares_bind; [apply spares_drain|]. intros _. spares_base.
Qed.

Lemma spares_pause i : i ∈ batch -> i <> id -> spares (pause_task_silent w i).
Proof.
  intros Hb Hi. unfold pause_task_silent, pause_task_inner, get_active. apply spares_bind; [apply spares_clear_resolve|]. intros _.
  apply spares_bind; [spares_base|]. intros _. apply spares_bind; [spares_base|].
  intros [pp|]; [apply spares_bind; [by apply (spares_pauses i (fun _ => _))|]; intros _; spares_base|].
  apply spares_bind; [spares_base|]. intros [pos|].
  - apply spares_bind; [spares_base|]. intros []; cbn [negb]; [|spares_base].
    apply spares_bind; [apply spares_shorter; intros p q Hq; eapply elem_of_sublist; [exact Hq|apply pq_remove_sublist]|]. intros _. spares_base.
  - apply spares_bind; [spares_base|]. intros entry. apply spares_bind; [spares_base|]. intros []; [spares_base|].
    destruct entry as [e|]; [|spares_base]. unfold pause_active. apply spares_bind; [by apply spares_remove|]. intros _.
    apply spares_bind; [spares_base|]. intros _. apply spares_bind; [apply spares_when; by apply (spares_pauses i (fun _ => _))|]. intros _.
    by apply spares_after_removal.
Qed.

(** *** The task itself is paused *)

(** It has no entry, or its old one: it is being paused already, or it was found
    completed. *)
Definition halted (o : option ActiveTaskEntry) (m : DownloadManager) : Prop :=
  exists o' p, apart o' p m /\
    (o' = None \/ o' = o /\ (p = true \/ exists e, o = Some e /\ e_handle e = true /\ exists n, w_status w n id = 3)).

Lemma spares_then {A B : Type} (c : M A) (k : A -> M B) o p m (R : DownloadManager -> Prop) :
  spares c -> apart o p m -> (forall a m', apart o p m' -> R (snd (k a m'))) -> R (snd (bind c k m)).
Proof. intros Hc Hm Hk. unfold bind. specialize (Hc o p m Hm). destruct (c m) as [a m']. by apply Hk. Qed.

Lemma spares_halted {A} (c : M A) o m : spares c -> halted o m -> halted o (snd (c m)).
Proof. intros Hc (o' & p & Hm & Ho). exists o', p. split; [by apply Hc|done]. Qed.

Lemma pause_active_halts e p m : apart (Some e) p m -> exists p', apart None p' (snd (pause_active w id e false true m)).
Proof.
  intros [H1 H2 H3 H4]. unfold pause_active, bind at 1, active_remove, on_slots, modify. cbn [snd].
  eapply (spares_then _ _ None p); [apply spares_emit|by constructor; cbn; [|rewrite lookup_delete_eq| |]|]. intros _ m1 Hm1.
  assert (exists p', apart None p'
    (snd (when (e_handle e) (modify (fun m => set_pauses (<[id := mk_pause (e_generation e) false false]> (m_pauses m)) m)) m1))) as [p' Hp'].
  { destruct (e_handle e); cbn [when]; [exists true|by exists p]. destruct Hm1 as [G1 G2 G3 G4]. constructor; [done|done| |done].
    cbn. rewrite lookup_insert_eq. by apply bool_decide_eq_true_2. }
  exists p'. unfold bind at 1. destruct (when _ _ m1) as [[] m2]. by apply (spares_after_removal id e Hid None p').
Qed.

Lemma pause_halts o p m : apart o p m -> halted o (snd (pause_task_silent w id m)).
Proof.
  intros Hm. unfold pause_task_silent, pause_task_inner. eapply spares_then; [apply spares_clear_resolve|done|].
  intros _ m1 Hm1. eapply spares_then; [spares_base|done|]. intros _ m2 Hm2. unfold bind at 1, gets.
  destruct (m_pauses m2 !! id) as [pp|] eqn:Hpp.
  - assert (p = true) as -> by (rewrite <- (apart_pause _ _ _ Hm2), Hpp; by apply bool_decide_eq_true_2).
    exists o, true. split; [|by right; split; [|left]]. unfold bind at 1, modify.
    apply (spares_quiet sync_queue_occupancy); [auto with quiet|auto with patient|]. apply spares_pauses_again; [by rewrite Hpp|done].
  - assert (position id (pending_queue (m_slots m2)) = None) as Hpos by (apply position_None, (apart_queue _ _ _ Hm2)).
    unfold bind at 1, gets. rewrite Hpos. unfold get_active. unfold bind at 1, gets. rewrite (apart_active _ _ _ Hm2).
    destruct o as [e|].
    + destruct (e_handle e) eqn:Hh.
      * unfold bind at 1 2, load_task_by_id. destruct (w_ok w (m_calls m2)).
        -- destruct (m_rows m2 !! id) as [r|]; cbn [fmap option_fmap option_map k_status ret fst snd].
           ++ destruct (w_status w (m_calls m2) id =? 3) eqn:Hst.
              ** exists (Some e), p. split; [by destruct Hm2|]. right. split; [done|]. right. exists e. split_and!; [done|done|].
                 exists (m_calls m2). by apply Z.eqb_eq.
              ** edestruct (pause_active_halts e p) as [p' Hp']; [|exists None, p'; split; [exact Hp'|by left]]. by destruct Hm2.
           ++ edestruct (pause_active_halts e p) as [p' Hp']; [|exists None, p'; split; [exact Hp'|by left]]. by destruct Hm2.
        -- edestruct (pause_active_halts e p) as [p' Hp']; [|exists None, p'; split; [exact Hp'|by left]]. by destruct Hm2.
      * edestruct (pause_active_halts e p) as [p' Hp']; [|exists None, p'; split; [exact Hp'|by left]]. by destruct Hm2.
    + exists None, p. split; [|by left]. cbn [bind ret].
      refine (spares_quiet (let! failed := pause_failed_task w id in
        if failed then do! when false (emit_paused_webhook w id) in sync_queue_occupancy
        else let! go_on := pause_seeding w id in
          if negb go_on then skip else do! when false (emit_paused_webhook w id) in sync_queue_occupancy) _ _ _ _ _ Hm2).
      * quiet_tac.
      * patient_tac.
Qed.

(** Pausing it again, or another of the batch. *)
Lemma halted_pause o i m : i ∈ batch -> halted o m -> halted o (snd (pause_task_silent w i m)).
Proof.
  intros Hi. destruct (decide (i = id)) as [->|Hne]; [|by apply spares_halted, spares_pause].
  intros (o' & p & Hm & Ho). destruct (pause_halts _ _ _ Hm) as (o2 & p2 & Hm2 & Ho2). exists o2, p2. split; [done|].
  destruct Ho2 as [->|[-> H2]]; [by left|]. destruct Ho as [->|[-> H]]; [by left|]. by right.
Qed.

Lemma halted_pauses o l m : (forall i, i ∈ l -> i ∈ batch) -> halted o m -> halted o (snd (for_each l (pause_task_silent w) m)).
Proof.
  revert m. induction l as [|i l IH]; intros m Hl Hm; [done|]. cbn [for_each]. unfold bind.
  pose proof (halted_pause o i m (Hl i ltac:(by left)) Hm) as H. destruct (pause_task_silent w i m) as [[] m'].
  apply IH; [|done]. intros x Hx. apply Hl. by right.
Qed.

(** The pauses of a list that holds it, if it is active. *)
Lemma pauses_halt o p l m :
  (forall i, i ∈ l -> i ∈ batch) -> (o <> None -> id ∈ l) -> apart o p m -> halted o (snd (for_each l (pause_task_silent w) m)).
Proof.
  revert m. induction l as [|i l IH]; intros m Hl Ho Hm.
  { exists o, p. split; [done|]. left. destruct o as [e|]; [|done]. by apply not_elem_of_nil in Ho. }
  cbn [for_each]. unfold bind. assert (forall x, x ∈ l -> x ∈ batch) as Hl' by (intros x Hx; apply Hl; by right).
  destruct (decide (i = id)) as [->|Hne].
  - pose proof (pause_halts o p m Hm) as H. destruct (pause_task_silent w id m) as [[] m']. by apply halted_pauses.
  - pose proof (spares_pause i (Hl i ltac:(by left)) Hne o p m Hm) as H. destruct (pause_task_silent w i m) as [[] m'].
    apply IH; [done| |done]. intros Hn. apply Ho in Hn. apply elem_of_cons in Hn as [Hn|Hn]; [by destruct Hne|done].
Qed.
End Apart.

(** ** Pausing a batch *)

(** The order of a hash map or set is an order of its members. *)
Definition fair_order (w : World) : Prop := forall n ids, w_order w n ids ≡ₚ ids.

Section Batch.
Context (w : World) (ids : list text).

(** The first two steps: the boost of the batch is gone, none of it waits. *)
Definition batch_off : M (option (list text) * list text) :=
  let! released := release_boost w ids in let! queued := pause_queued w ids in ret (released, queued).

Record off_from (m m' : DownloadManager) : Prop := mk_off {
  off_active : active_tasks (m_slots m') = active_tasks (m_slots m);
  off_items : forall q, q ∈ pq_items (pending_queue (m_slots m')) -> q ∈ pq_items (pending_queue (m_slots m)) /\ q_task_id q ∉ ids;
  off_rows : m_rows m' = m_rows m;
  off_pauses : m_pauses m' = m_pauses m;
  off_plans : m_plans m' = m_plans m;
  off_boost : forall x, m_priority m' = Some x -> x ∉ ids }.

Lemma aside {A : Type} (c : M A) m a m' : quiet c -> patient c -> c m = (a, m') ->
  m_slots m' = m_slots m /\ m_rows m' = m_rows m /\ m_pauses m' = m_pauses m /\ m_plans m' = m_plans m /\ m_priority m' = m_priority m.
Proof. intros Hq Hp E. specialize (Hq m). specialize (Hp m). rewrite E in Hq, Hp. cbn in *. injection Hq as ? ? ? ? ? ?. naive_solver. Qed.

Lemma release_boost_spec m released m' :
  release_boost w ids m = (released, m') ->
  m_slots m' = m_slots m /\ m_rows m' = m_rows m /\ m_pauses m' = m_pauses m /\ m_plans m' = m_plans m /\
  (forall x, m_priority m' = Some x -> x ∉ ids).
Proof.
  unfold release_boost, release_priority_for_batch, bind, gets, modify. destruct (m_priority m) as [x|] eqn:Ex.
  - unfold within. case_bool_decide as Hx; cbn [ret].
    + destruct (persist_boost w _) as [[] m2] eqn:E. intros [= <- <-]. apply aside in E as (-> & -> & -> & -> & ->);
        [|auto with quiet|unfold persist_boost, ask, emit; patient_tac]. done.
    + intros [= <- <-]. split_and!; [done..|]. intros y Hy. congruence.
  - intros [= <- <-]. split_and!; [done..|]. intros y Hy. congruence.
Qed.

Lemma clear_resolves_spec (l : list text) m m' :
  for_each l clear_pending_resolve m = (tt, m') ->
  active_tasks (m_slots m') = active_tasks (m_slots m) /\ pending_queue (m_slots m') = pending_queue (m_slots m) /\
  m_rows m' = m_rows m /\ m_pauses m' = m_pauses m /\ m_plans m' = m_plans m /\ m_priority m' = m_priority m.
Proof.
  revert m. induction l as [|x l IH]; intros m; [by intros [= <-]|]. cbn [for_each]. unfold bind.
  destruct (clear_pending_resolve x m) as [[] m1] eqn:E. intros (-> & -> & -> & -> & -> & ->)%IH.
  unfold clear_pending_resolve, on_slots, modify, bind in E. injection E as <-. done.
Qed.

Lemma pause_queued_spec m queued m' :
  pause_queued w ids m = (queued, m') ->
  active_tasks (m_slots m') = active_tasks (m_slots m) /\
  (forall q, q ∈ pq_items (pending_queue (m_slots m')) -> q ∈ pq_items (pending_queue (m_slots m)) /\ q_task_id q ∉ ids) /\
  m_rows m' = m_rows m /\ m_pauses m' = m_pauses m /\ m_plans m' = m_plans m /\ m_priority m' = m_priority m.
Proof.
  unfold pause_queued, bind, gets. case_bool_decide as Hq; cbn [negb when].
  - intros [= <- <-]. split_and!; try done. intros q Hin. split; [done|]. intros Hid.
    assert (q_task_id q ∈ filter (fun id => within ids id) (queued_ids (m_slots m))) as H; [|rewrite Hq in H; by apply not_elem_of_nil in H].
    apply list_elem_of_filter. split; [by apply bool_decide_pack|]. unfold queued_ids. apply list_elem_of_fmap. by exists q.
  - destruct (drop_pending ids m) as [[] m1] eqn:E1. destruct (for_each _ clear_pending_resolve m1) as [[] m2] eqn:E2.
    destruct (update_tasks_status_batch w _ 2 m2) as [ok m3] eqn:E3. intros [= <- <-].
    apply aside in E3 as (-> & -> & -> & -> & ->); [|auto with quiet|auto with patient].
    apply clear_resolves_spec in E2 as (-> & -> & -> & -> & -> & ->). injection E1 as <-. cbn.
    split_and!; try done. intros q [Hk Hin]%pq_retain_kept. split; [done|]. unfold within in Hk. by bool_hyps.
Qed.

Lemma batch_off_spec m released queued m' : batch_off m = ((released, queued), m') -> off_from m m'.
Proof.
  unfold batch_off, bind. destruct (release_boost w ids m) as [r m1] eqn:E1. destruct (pause_queued w ids m1) as [q m2] eqn:E2.
  intros [= <- <- <-]. apply release_boost_spec in E1 as (H1 & H2 & H3 & H4 & H5).
  apply pause_queued_spec in E2 as (G1 & G2 & G3 & G4 & G5 & G6). rewrite ?H1 in *. constructor; try congruence.
  - done.
  - rewrite G6. done.
Qed.

(** The rest of the handler. *)
Definition batch_rest (restore : bool) (scope : FailedPause) (released : option (list text)) (queued : list text) : M unit :=
  let! active := pause_running w ids in
  let! seeding := pause_seeds w ids in
  let! candidates := hash_order w (remove_dups ids) in
  let! failed_paused := pause_failed_batch w (filter (fun id => negb (within (queued ++ active ++ seeding) id)) candidates) scope in
  finish_pause w released restore ids queued
    (bool_decide (queued = []) && bool_decide (active = []) && bool_decide (seeding = []) && negb failed_paused).

Lemma batch_pause_parts restore scope m : ids <> [] ->
  batch_pause_impl w ids restore scope m = (let! parts := batch_off in batch_rest restore scope parts.1 parts.2) m.
Proof.
  intros Hne. unfold batch_pause_impl, batch_off. rewrite bool_decide_eq_false_2 by done. unfold bind.
  destruct (release_boost w ids m) as [r m1]. by destruct (pause_queued w ids m1) as [q m2].
Qed.

(** Which tasks are paused. *)
Definition running_of (m : DownloadManager) : list text :=
  w_order w (m_calls m) (filter (fun id => within ids id) (map fst (map_to_list (active_tasks (m_slots m))))).

Lemma running_of_spec m id : fair_order w -> id ∈ running_of m <-> id ∈ ids /\ is_Some (active_tasks (m_slots m) !! id).
Proof.
  intros Hw. unfold running_of. rewrite (Hw _ _), list_elem_of_filter. unfold within. rewrite bool_decide_spec. split; intros [H1 H2]; (split; [done|]).
  - apply list_elem_of_fmap in H2 as ([x e] & -> & H2). apply elem_of_map_to_list in H2. by exists e.
  - destruct H2 as [e He]. apply list_elem_of_fmap. exists (id, e). split; [done|]. by apply elem_of_map_to_list.
Qed.

Lemma pause_running_eq m :
  pause_running w ids m = (running_of m, snd (for_each (running_of m) (pause_task_silent w) (set_calls (S (m_calls m)) m))).
Proof.
  unfold pause_running, hash_order, bind, gets, call. cbv beta iota delta [ret]. fold (running_of m).
  by destruct (for_each (running_of m) _ _) as [[] m'].
Qed.

Lemma pause_seeds_eq m : exists (l : list text) n, (forall id, id ∈ l -> id ∈ ids) /\
  pause_seeds w ids m = (l, snd (for_each l (pause_task_silent w) (set_calls n m))).
Proof.
  unfold pause_seeds, bind, gets, call. destruct (m_bt_session m); cbv beta iota delta [ret].
  - exists (filter (fun id => within ids id) (w_select w (m_calls m))), (S (m_calls m)). split.
    + intros id [Hi _]%list_elem_of_filter. by apply bool_decide_unpack in Hi.
    + by destruct (for_each _ _ _) as [[] m'].
  - exists [], (m_calls m). split; [by intros id ?%not_elem_of_nil|by destruct m].
Qed.

(** *** One task of the batch *)

Section Member.
Context (id : text) (Hid : id ∈ ids).

Lemma spares_select (f : list text -> M unit) session :
  (forall l, spares ids id (f l)) -> spares ids id (bind (if session : bool then call w w_select else ret []) f).
Proof. intros Hf. apply spares_bind; [destruct session; apply spares_quiet; auto with quiet patient|done]. Qed.

Lemma spares_restore paused : spares ids id (restore_boost_paused_after_batch w paused ids).
Proof.
  unfold restore_boost_paused_after_batch. cbv zeta. case_bool_decide; [by intros o p m Hm|].
  apply spares_bind; [apply spares_quiet; [auto with quiet|done]|]. intros [rows|e]; [|by intros o p m Hm].
  apply spares_for_each. intros i [Hi _]%list_elem_of_filter. assert (i <> id) as Hne.
  { intros ->. unfold within in Hi. by rewrite bool_decide_eq_true_2 in Hi. }
  destruct (rows !! i) as [t|]; [|by intros o p m Hm]. destruct (_ =? 3); [by intros o p m Hm|].
  apply spares_bind; [apply spares_quiet; [auto with quiet|done]|]. intros running. by apply spares_when, spares_resume.
Qed.

Lemma spares_finish released restore queued nothing : spares ids id (finish_pause w released restore ids queued nothing).
Proof.
  unfold finish_pause. destruct released as [paused|].
  - apply spares_bind; [apply spares_when, spares_restore|]. intros _.
    apply spares_bind; [apply spares_quiet; auto with quiet patient|]. intros _.
    apply spares_bind; [apply spares_emit|]. intros _.
    apply spares_bind; [apply spares_when, spares_quiet; auto with quiet patient|]. intros _. apply spares_quiet; auto with quiet patient.
  - destruct nothing; [by intros o p m Hm|]. apply spares_bind; [apply spares_when, spares_quiet; auto with quiet patient|]. intros _.
    apply spares_quiet; auto with quiet patient.
Qed.

Lemma rest_halts restore scope released queued o p m :
  fair_order w -> apart ids id o p m -> halted w ids id o (snd (batch_rest restore scope released queued m)).
Proof.
  intros Hw Hm. unfold batch_rest. unfold bind at 1. rewrite pause_running_eq.
  assert (halted w ids id o (snd (for_each (running_of m) (pause_task_silent w) (set_calls (S (m_calls m)) m)))) as Hm1.
  { apply (pauses_halt w ids id Hid o p); [by intros i [Hi _]%running_of_spec| |by destruct Hm].
    intros Ho. apply running_of_spec; [done|]. split; [done|]. rewrite (apart_active _ _ _ _ _ Hm). destruct o as [e|]; [by eexists|done]. }
  revert Hm1. generalize (snd (for_each (running_of m) (pause_task_silent w) (set_calls (S (m_calls m)) m))). intros m1 Hm1.
  unfold bind at 1. destruct (pause_seeds_eq m1) as (l & n & Hl & ->).
  assert (halted w ids id o (snd (for_each l (pause_task_silent w) (set_calls n m1)))) as Hm2.
  { apply halted_pauses; [done|done|]. destruct Hm1 as (o' & p' & Hm1 & Ho'). exists o', p'. split; [by destruct Hm1|done]. }
  revert Hm2. apply (spares_halted _ ids).
  apply spares_bind; [apply spares_quiet; [auto with quiet|done]|]. intros candidates.
  apply spares_bind; [apply spares_quiet; auto with quiet patient|]. intros failed. apply spares_finish.
Qed.
End Member.

Lemma batch_halts restore scope id m :
  fair_order w -> id ∈ ids ->
  halted w ids id (active_tasks (m_slots m) !! id) (snd (batch_pause_impl w ids restore scope m)).
Proof.
  intros Hw Hid. rewrite batch_pause_parts by (intros ->; by apply not_elem_of_nil in Hid). unfold bind.
  destruct batch_off as [[released queued] m1] eqn:E. apply batch_off_spec in E as [H1 H2 H3 H4 H5 H6]. cbn [fst snd].
  eapply (rest_halts id Hid); [done|]. constructor; [|by rewrite H1|reflexivity|done].
  unfold queued_ids. intros (q & -> & Hq)%list_elem_of_fmap. by apply H2 in Hq as [_ Hq].
Qed.

(** *** A queue all of whose waiting tasks are of the batch *)

Section Queue.
Context (queue : text) (rows : gmap text TaskRow) (was_there : text -> Prop).

(** It rests, and its plan says that it does not run. *)
Definition rested (m : DownloadManager) : Prop :=
  resting queue rows was_there ids (core m) /\ is_running <$> m_plans m !! queue = Some false.

Definition restful {A} (c : M A) : Prop := forall m, rested m -> rested (snd (c m)).

Lemma restful_intro {A} (c : M A) :
  triple (resting queue rows was_there ids) c (fun _ => resting queue rows was_there ids) -> unplanned c -> restful c.
Proof. intros Hr Hu m [H1 H2]. split; [by apply Hr|by rewrite Hu]. Qed.

Lemma restful_bind {A B : Type} (c : M A) (k : A -> M B) : restful c -> (forall a, restful (k a)) -> restful (bind c k).
Proof. intros Hc Hk m Hm. unfold bind. specialize (Hc m Hm). destruct (c m) as [a m']. by apply Hk. Qed.

Lemma restful_when b c : restful c -> restful (when b c).
Proof. destruct b; [done|]. by intros _ m Hm. Qed.

Lemma restful_for_each {A : Type} (l : list A) (f : A -> M unit) : (forall a, a ∈ l -> restful (f a)) -> restful (for_each l f).
Proof.
  induction l as [|a l IH]; intros H; [by intros m Hm|]. cbn [for_each]. apply restful_bind; [apply H; by left|].
  intros _. apply IH. intros x Hx. apply H. by right.
Qed.

Lemma restful_quiet {A} (c : M A) : quiet c -> patient c -> restful c.
Proof. intros Hq Hp. apply restful_intro; [by apply rests_quiet|by apply unplanned_patient]. Qed.

Lemma restful_pause id : id ∈ ids -> restful (pause_task_silent w id).
Proof. intros Hid. apply restful_intro; [by apply rests_pause|apply unplanned_pause]. Qed.

(** A task paused for the boost resumes only if its queue runs. *)
Lemma restful_restored id r :
  rows !! id = Some r -> restful (let! running := queue_runs (r_queue_id r) in when running (resume_task w id)).
Proof.
  intros Hr m Hm. unfold bind, queue_runs, gets. destruct (decide (r_queue_id r = queue)) as [->|Hne].
  - destruct Hm as [H1 H2]. rewrite H2. by split.
  - destruct (default true _); [|done]. apply restful_intro; [|apply unplanned_resume|done].
    apply rests_resume. intros r' Hr'. congruence.
Qed.

Lemma restful_restore paused : restful (restore_boost_paused_after_batch w paused ids).
Proof.
  unfold restore_boost_paused_after_batch. cbv zeta. case_bool_decide; [by intros m Hm|].
  intros m Hm. unfold bind at 1, load_tasks_by_ids. destruct (w_ok w (m_calls m)).
  - match goal with |- context [for_each ?l ?f ?m0] => assert (restful (for_each l f)) as Hc; [|apply Hc; by destruct Hm] end.
    apply restful_for_each. intros i Hi. destruct (map_imap _ _ !! i) as [t|] eqn:Et; [|by intros m' Hm'].
    destruct (_ =? 3); [by intros m' Hm'|]. apply restful_restored. rewrite map_lookup_imap in Et.
    destruct (filter _ (m_rows m) !! i) as [r|] eqn:E; [|done]. cbn in Et. injection Et as <-. cbn.
    apply map_lookup_filter_Some in E as [E _]. rewrite <- (rest_rows _ _ _ _ _ (proj1 Hm)). done.
  - by destruct Hm.
Qed.

Lemma restful_rest restore scope released queued : fair_order w -> restful (batch_rest restore scope released queued).
Proof.
  intros Hw.
  apply restful_bind; [|intros active; apply restful_bind; [|intros seeding; apply restful_bind; [|intros candidates; apply restful_bind]]].
  - intros m Hm. rewrite pause_running_eq. apply (restful_for_each (running_of m) (pause_task_silent w)); [|by destruct Hm].
    intros i [Hi _]%running_of_spec; [by apply restful_pause|done].
  - intros m Hm. destruct (pause_seeds_eq m) as (l & n & Hl & ->).
    apply (restful_for_each l (pause_task_silent w)); [|by destruct Hm]. intros i Hi. by apply restful_pause, Hl.
  - apply restful_quiet; [auto with quiet|done].
  - apply restful_quiet; auto with quiet patient.
  - intros failed. unfold finish_pause. destruct released as [paused|].
    + apply restful_bind; [apply restful_when, restful_restore|]. intros _.
      do 2 (apply restful_bind; [apply restful_quiet; [auto with quiet|unfold emit; patient_tac]|intros _]).
      apply restful_bind; [apply restful_when, restful_quiet; auto with quiet patient|]. intros _. apply restful_quiet; auto with quiet patient.
    + case_match; [by intros m Hm|]. apply restful_bind; [apply restful_when, restful_quiet; auto with quiet patient|]. intros _.
      apply restful_quiet; auto with quiet patient.
Qed.
End Queue.

Lemma batch_rests queue restore scope m :
  fair_order w -> ids <> [] -> core_ok (core m) -> is_running <$> m_plans m !! queue = Some false ->
  (forall q, q ∈ pq_items (pending_queue (m_slots m)) -> q_queue_id q = queue -> q_task_id q ∈ ids) ->
  rested queue (m_rows m) (fun id => exists e, active_tasks (m_slots m) !! id = Some e /\ e_queue_id e = queue)
    (snd (batch_pause_impl w ids restore scope m)).
Proof.
  intros Hw Hne [_ [Hlinked _]] Hplan Hids. rewrite batch_pause_parts by done. unfold bind.
  destruct batch_off as [[released queued] m1] eqn:E. apply batch_off_spec in E as [H1 H2 H3 H4 H5 H6].
  apply restful_rest; [done|]. split; [|by rewrite H5]. constructor; cbn.
  - done.
  - intros q r Hq. apply Hlinked. by apply H2.
  - intros q [Hq Hn]%H2 Hqueue. by apply Hn, Hids.
  - intros id e He Hqueue. rewrite H1 in He. by exists e.
  - done.
Qed.
End Batch.

(** ** Stopping a queue *)

Lemma tasks_to_stop_spec w queue m ids m' :
  fair_order w -> tasks_to_stop w queue m = (ids, m') ->
  (forall q, q ∈ pq_items (pending_queue (m_slots m)) -> q_queue_id q = queue -> q_task_id q ∈ ids) /\
  (forall id e, active_tasks (m_slots m) !! id = Some e -> e_queue_id e = queue -> id ∈ ids) /\
  exists n, m' = set_calls n m.
Proof.
  intros Hw. unfold tasks_to_stop, hash_order, bind, gets, call, ret. cbn [m_slots m_calls m_retry_scheduled set_calls].
  intros [= <- <-]. split_and!; [| |by eexists].
  - intros q Hq Hqueue. apply elem_of_app. left. apply list_elem_of_fmap. exists q. split; [done|]. by apply list_elem_of_filter.
  - intros id e He Hqueue. apply elem_of_app. right. apply elem_of_app. left. rewrite (Hw _ _). apply list_elem_of_fmap. exists (id, e).
    split; [done|]. apply list_elem_of_filter. split; [done|]. by apply elem_of_map_to_list.
Qed.

(** Its entry is gone, or it is the old one of a task that is being paused or
    was found completed. *)
Definition being_stopped (w : World) (m m' : DownloadManager) (id : text) (e : ActiveTaskEntry) : Prop :=
  active_tasks (m_slots m) !! id = Some e /\
  (is_Some (m_pauses m' !! id) \/ e_handle e = true /\ exists n, w_status w n id = 3).

Lemma halted_entry w ids id o m :
  halted w ids id o m -> (id ∉ queued_ids (m_slots m)) /\
  forall e, active_tasks (m_slots m) !! id = Some e ->
    o = Some e /\ (is_Some (m_pauses m !! id) \/ e_handle e = true /\ exists n, w_status w n id = 3).
Proof.
  intros (o' & p & [H1 H2 H3 _] & Ho). split; [done|]. intros e He. rewrite He in H2. destruct Ho as [->|[-> Ho]]; [done|].
  split; [done|]. destruct Ho as [->|(e' & -> & Hh & Hn)].
  - left. by bool_hyps.
  - right. injection H2 as ->. done.
Qed.

(** C11. Pausing a batch stops it, whatever the state: no task of the batch waits
    afterwards, although each pause frees a slot that goes to a waiting task at
    once and the tasks that a boost had paused are resumed at the end; and a task
    of the batch that is still active has its old entry and is being paused, or
    was found completed. *)
Theorem batch_pause_stops (w : World) (m : DownloadManager) (ids : list text) (restore : bool) (scope : FailedPause) (id : text) :
  fair_order w -> id ∈ ids ->
  let m' := snd (batch_pause_impl w ids restore scope m) in
  (id ∉ queued_ids (m_slots m')) /\
  forall e, active_tasks (m_slots m') !! id = Some e -> being_stopped w m m' id e.
Proof. intros Hw Hid. by apply (halted_entry w ids), batch_halts. Qed.

(** The state once the stop is stored. *)
Definition stop_stored (w : World) (queue : text) (m : DownloadManager) : DownloadManager :=
  snd (on_plan queue (set_running false) (set_calls (S (m_calls m)) m)).

Lemma stop_queue_parts w queue m :
  is_Some (m_plans m !! queue) -> queue <> MAIN_QUEUE_ID -> w_ok w (m_calls m) = true ->
  stop_queue w queue m =
    (let! ids := tasks_to_stop w queue in do! batch_pause w ids in send_all_queues w) (stop_stored w queue m).
Proof.
  intros Hknown Hmain Hok. unfold stop_queue, has_queue, is_always_running_queue.
  rewrite (bool_decide_eq_false_2 (queue = MAIN_QUEUE_ID)) by done.
  unfold bind at 1, gets. rewrite bool_decide_eq_true_2 by done. cbn [negb].
  unfold bind at 1, ask, call. by rewrite Hok.
Qed.

(** C12. A stopped queue rests: once the stop is stored, the plan of the queue
    says that it does not run, no task of it waits, and those still active in it
    are being paused or were found completed. *)
Theorem stopped_queue_rests (w : World) (m : DownloadManager) (queue : text) :
  reachable w m -> fair_order w -> is_Some (m_plans m !! queue) -> queue <> MAIN_QUEUE_ID -> w_ok w (m_calls m) = true ->
  let m' := snd (stop_queue w queue m) in
  is_running <$> m_plans m' !! queue = Some false /\
  (forall q, q ∈ pq_items (pending_queue (m_slots m')) -> q_queue_id q <> queue) /\
  (forall id e, active_tasks (m_slots m') !! id = Some e -> e_queue_id e = queue -> being_stopped w m m' id e).
Proof.
  intros [[Hok _] _]%reachable_stable Hw Hknown Hmain Hsave. rewrite stop_queue_parts by done. destruct Hknown as [plan Hplan].
  set (m1 := stop_stored w queue m). assert (is_running <$> m_plans m1 !! queue = Some false) as Hstopped by (cbn; by rewrite lookup_alter_eq, Hplan).
  unfold bind. destruct (tasks_to_stop w queue m1) as [ids m2] eqn:E. apply tasks_to_stop_spec in E as (Hitems & Hactive & n & ->); [|done].
  assert (exists m3, snd (batch_pause w ids (set_calls n m1)) = m3 /\ is_running <$> m_plans m3 !! queue = Some false /\
    (forall q, q ∈ pq_items (pending_queue (m_slots m3)) -> q_queue_id q <> queue) /\
    (forall id e, active_tasks (m_slots m3) !! id = Some e -> e_queue_id e = queue -> being_stopped w m m3 id e)) as (m3 & E3 & H).
  { eexists. split; [reflexivity|]. unfold batch_pause. destruct (decide (ids = [])) as [->|Hne].
    - split_and!; [done| |].
      + intros q Hq Hqueue. by apply (not_elem_of_nil (q_task_id q)), Hitems.
      + intros id e He Hqueue. exfalso. by apply (not_elem_of_nil id), (Hactive id e).
    - destruct (batch_rests w ids queue true RetryPending (set_calls n m1) Hw Hne Hok Hstopped Hitems) as [[R1 R2 R3 R4 R5] Hp].
      split_and!; [done|done|]. intros id e He Hqueue. destruct (R4 id e He Hqueue) as (e0 & He0 & Hqueue0).
      destruct (halted_entry w ids id _ _ (batch_halts w ids true RetryPending id (set_calls n m1) Hw (Hactive id e0 He0 Hqueue0))) as [_ Hh].
      by apply Hh. }
  destruct (batch_pause w ids (set_calls n m1)) as [[] m3'] eqn:Eb. cbn [snd] in E3. subst m3'.
  destruct (send_all_queues w m3) as [[] m4] eqn:E4. cbn [snd]. apply aside in E4 as (-> & _ & Hpauses & -> & _); [|auto with quiet|auto with patient].
  unfold being_stopped in *. by rewrite Hpauses.
Qed.

(** ** Witnesses *)

(** One task of the queue runs, one waits. *)
Definition night_tasks : list Op :=
  [OpCreateQueue (lit "night") 1;
   OpCreate (http_task (lit "a") (lit "night") []) (http_row (lit "night") []);
   OpCreate (http_task (lit "b") (lit "night") []) (http_row (lit "night") [])].

Definition night_state : DownloadManager := run (calm_world 1) night_tasks (started 1 ∅).

Lemma night_reachable : reachable (calm_world 1) night_state.
Proof. apply run_reachable; [done|]. by vm_compute. Qed.

Lemma calm_fair status : fair_order (calm_world status).
Proof. by intros n ids. Qed.

Lemma batch_pause_stops_witness :
  let m' := snd (batch_pause (calm_world 1) [lit "b"] night_state) in
  queued_ids (m_slots night_state) = [lit "b"] /\ lit "b" ∉ queued_ids (m_slots m').
Proof.
  split; [by vm_compute|].
  apply (batch_pause_stops (calm_world 1) night_state [lit "b"] true RetryPending (lit "b") (calm_fair 1)). by left.
Defined.

Lemma stopped_queue_rests_witness :
  let m' := snd (stop_queue (calm_world 1) (lit "night") night_state) in
  queued_ids (m_slots night_state) = [lit "b"] /\ is_running <$> m_plans m' !! lit "night" = Some false.
Proof.
  split; [by vm_compute|].
  apply (stopped_queue_rests (calm_world 1) night_state (lit "night") night_reachable (calm_fair 1)).
  - apply (bool_decide_eq_true_1 (is_Some _)). by vm_compute.
  - by vm_compute.
  - by vm_compute.
Defined.
