(* ===== verification/Retry.v ===== *)
(** * Retry: when a failed download is tried again
      ([net_failure.rs], [auto_proxy.rs], the retry policy of
      [download_manager.rs]).

    A failure is known by its message, as the database stores it: a tag
    [[net:<code>]] where the downloader classified the failure, keywords
    otherwise.  The manager then switches to a route not yet tried, or retries
    after a growing delay, within quotas per task.

    [str::to_lowercase] is modelled as far as its callers look: they search
    ASCII words and digits.  Two characters outside ASCII have ASCII in their
    lower case (U+0130, U+212A); the bytes of all others stand for themselves.

    The map entries of one task are one record, an absent entry being its
    default.  The timers that delay a retry, the ranking of the candidate
    proxies by their measured speed and the log are not modelled. *)
From Stdlib Require Import Ascii.
From S2P Require Import Prelude Text.

(** ** Searching text *)

(** The text before and after the first occurrence of [p]. *)
Fixpoint cut (p s : text) : option (text * text) :=
  match strip_prefix p s with
  | Some after => Some ([], after)
  | None =>
      match s with
      | [] => None
      | c :: s => match cut p s with Some (before, after) => Some (c :: before, after) | None => None end
      end
  end.

Definition contains (p s : text) : bool := match cut p s with Some _ => true | None => false end.
Definition ends_with (p s : text) : bool := starts_with (reverse p) (reverse s).

Definition byte (n : nat) : ascii := ascii_of_nat n.

Fixpoint to_lowercase (s : text) : text :=
  match s with
  | [] => []
  | c :: s1 =>
      match s1 with
      | d :: s2 =>
          if decide (c = byte 196 /\ d = byte 176) then "i"%char :: byte 204 :: byte 135 :: to_lowercase s2 else
          match s2 with
          | e :: s3 =>
              if decide (c = byte 226 /\ d = byte 132 /\ e = byte 170) then "k"%char :: to_lowercase s3
              else ascii_lower c :: to_lowercase s1
          | [] => ascii_lower c :: to_lowercase s1
          end
      | [] => [ascii_lower c]
      end
  end.

(** [str::split_inclusive(char::is_whitespace)]; every round takes a byte. *)
Fixpoint split_spaces (fuel : nat) (piece s : text) : list text :=
  match fuel, s with
  | O, _ | _, [] => match piece with [] => [] | _ => [piece] end
  | S fuel, c :: s' =>
      match strip_one space_codes s with
      | Some rest => (piece ++ take (length s - length rest) s) :: split_spaces fuel [] rest
      | None => split_spaces fuel (piece ++ [c]) s'
      end
  end.

Definition split_inclusive (s : text) : list text := split_spaces (S (length s)) [] s.

(** [str::find(char::is_whitespace)], the text from there on. *)
Fixpoint from_space (s : text) : text :=
  match s with
  | [] => []
  | _ :: s' => match strip_one space_codes s with Some _ => s | None => from_space s' end
  end.

(** ** Tags *)

Inductive NetFailure :=
| Dns | Refused | ConnectTimeout | Unreachable | ConnReset | Tls | ReadTimeout | Interrupted | Stalled | Connect.

Definition code (f : NetFailure) : text :=
  match f with
  | Dns => lit "dns" | Refused => lit "refused" | ConnectTimeout => lit "connect-timeout"
  | Unreachable => lit "unreachable" | ConnReset => lit "reset" | Tls => lit "tls" | ReadTimeout => lit "timeout"
  | Interrupted => lit "interrupted" | Stalled => lit "stalled" | Connect => lit "connect"
  end.

Definition from_code (c : text) : option NetFailure :=
  if decide (c = lit "dns") then Some Dns
  else if decide (c = lit "refused") then Some Refused
  else if decide (c = lit "connect-timeout") then Some ConnectTimeout
  else if decide (c = lit "unreachable") then Some Unreachable
  else if decide (c = lit "reset") then Some ConnReset
  else if decide (c = lit "tls") then Some Tls
  else if decide (c = lit "timeout") then Some ReadTimeout
  else if decide (c = lit "interrupted") then Some Interrupted
  else if decide (c = lit "stalled") then Some Stalled
  else if decide (c = lit "connect") then Some Connect
  else None.

Definition retriable_same_path (f : NetFailure) : bool := match f with Tls => false | _ => true end.

Definition TAG_OPEN : text := lit "[net:".

Definition tag_of (msg : text) : option NetFailure :=
  match cut TAG_OPEN msg with
  | Some (_, rest) => match cut [("]")%char] rest with Some (c, _) => from_code c | None => None end
  | None => None
  end.

Definition append_tag (msg : text) (failure : option NetFailure) : text :=
  match failure with
  | Some f => match tag_of msg with None => msg ++ lit " [net:" ++ code f ++ lit "]" | Some _ => msg end
  | None => msg
  end.

(** ** Errors worth a retry *)

(** The first run of exactly three digits. *)
Fixpoint scan_status (run s : text) : option Z :=
  match s with
  | [] => if (length run =? 3)%nat then parse_int 0 u16_max run else None
  | c :: s =>
      match digit_of c with
      | Some _ => scan_status (run ++ [c]) s
      | None => if (length run =? 3)%nat then parse_int 0 u16_max run else scan_status [] s
      end
  end.

Definition extract_http_status (msg : text) : option Z :=
  match cut (lit "http status") (to_lowercase msg) with
  | Some (_, after) => scan_status [] (lit "http status" ++ after)
  | None => None
  end.

Definition is_retriable_http_status (status : Z) : bool :=
  (status =? 500) || (status =? 502) || (status =? 503) || (status =? 504) || (status =? 408).

Definition without_urls (msg : text) : text :=
  concat (filter (fun token => negb (contains (lit "://") token)) (split_inclusive msg)).

Definition RETRIABLE_WORDS : list text :=
  map lit ["stalled"; "connection reset"; "connection refused"; "timed out"; "timeout"; "broken pipe"; "network unreachable";
    "network is down"; "no route to host"; "eof"; "connection closed"; "connection abort"; "incomplete download";
    "error decoding response body"; "content-encoding"; "piece verification failed"; "track probe failed"]%string.

Definition is_retriable_error (msg : text) : bool :=
  match tag_of msg with
  | Some f => retriable_same_path f
  | None =>
      match extract_http_status msg with
      | Some status => is_retriable_http_status status || existsb (fun p => contains p (to_lowercase (without_urls msg))) RETRIABLE_WORDS
      | None => existsb (fun p => contains p (to_lowercase (without_urls msg))) RETRIABLE_WORDS
      end
  end.

(** Every round removes an occurrence. *)
Fixpoint strip_urls (fuel : nat) (rest : text) : text :=
  match fuel, cut (lit "for url (") rest with
  | S fuel, Some (before, after) => before ++ strip_urls fuel (from_space after)
  | _, _ => rest
  end.

Definition strip_url_context (lower : text) : text := strip_urls (length lower) lower.

Definition TRANSPORT_WORDS : list text :=
  map lit ["connection refused"; "connection reset"; "timed out"; "timeout"; "network unreachable"; "network is down";
    "no route to host"; "dns"; "stalled"; "broken pipe"; "eof"; "connection closed"; "connection abort";
    "incomplete download"; "error decoding response body"]%string.

Definition is_route_transport_error (msg : text) : bool :=
  match tag_of msg with
  | Some _ => true
  | None => existsb (fun p => contains p (strip_url_context (to_lowercase msg))) TRANSPORT_WORDS
  end.

(** ** Routes *)

Inductive CandidateSource := System | ManualFields.
#[global] Instance CandidateSource_eq : EqDecision CandidateSource.
Proof. solve_decision. Defined.

Inductive RoutePath := RDirect | RProxy (source : CandidateSource) | RLink (index : Z).
Inductive AutoFailoverTarget := TProxy (source : CandidateSource) | TDirect.

Definition route (t : AutoFailoverTarget) : RoutePath := match t with TProxy s => RProxy s | TDirect => RDirect end.

Definition route_of_label (label : text) : option RoutePath :=
  if starts_with (lit "direct") label then Some RDirect
  else if negb (starts_with (lit "proxy") label) then None
  else if ends_with (lit ":system") label then Some (RProxy System)
  else if ends_with (lit ":manual") label then Some (RProxy ManualFields)
  else None.

Record AutoFailoverAttempts := mk_attempts { a_direct : bool; a_manual : bool; a_system : bool }.

Definition no_attempts : AutoFailoverAttempts := mk_attempts false false false.
Definition mark_direct (a : AutoFailoverAttempts) : AutoFailoverAttempts := mk_attempts true (a_manual a) (a_system a).
Definition mark_source (s : CandidateSource) (a : AutoFailoverAttempts) : AutoFailoverAttempts :=
  match s with
  | ManualFields => mk_attempts (a_direct a) true (a_system a)
  | System => mk_attempts (a_direct a) (a_manual a) true
  end.
Definition source_attempted (a : AutoFailoverAttempts) (s : CandidateSource) : bool :=
  match s with ManualFields => a_manual a | System => a_system a end.
Definition mark_route (r : RoutePath) (a : AutoFailoverAttempts) : AutoFailoverAttempts :=
  match r with RProxy s => mark_source s a | RDirect | RLink _ => mark_direct a end.

Definition auto_failover_target (auto_route error : text) (candidate_sources : list CandidateSource)
    (network_reachable : bool) (attempts : AutoFailoverAttempts) : option AutoFailoverTarget * AutoFailoverAttempts :=
  if negb (is_route_transport_error error) then (None, attempts) else
  let attempts :=
    if starts_with (lit "proxy") auto_route then
      if ends_with (lit ":manual") auto_route then mark_source ManualFields attempts
      else if ends_with (lit ":system") auto_route then mark_source System attempts
      else match candidate_sources with [s] => mark_source s attempts | _ => attempts end
    else mark_direct attempts in
  match find (fun s => negb (source_attempted attempts s)) candidate_sources with
  | Some source => (Some (TProxy source), mark_source source attempts)
  | None =>
      if network_reachable && negb (a_direct attempts) then (Some TDirect, mark_direct attempts)
      else (None, attempts)
  end.

(** ** The policy *)

Definition MAX_AUTO_RETRY_DELAY_SECS : Z := 300.
Definition INTERCEPT_RETRY_LIMIT : Z := 5.

(** [max_auto_retries] (an [i32], -1 for no limit), [auto_retry_delay_secs]. *)
Record Config := mk_config { max_retries : Z; retry_delay_secs : Z }.

(** The entries of one task in the manager's maps. *)
Record Cycle := mk_cycle {
  y_count : Z; y_intercept_count : Z; y_attempts : AutoFailoverAttempts;
  y_pending : option AutoFailoverTarget; y_scheduled : bool }.

Definition fresh_cycle : Cycle := mk_cycle 0 0 no_attempts None false.

Definition set_count (v : Z) (y : Cycle) : Cycle := mk_cycle v (y_intercept_count y) (y_attempts y) (y_pending y) (y_scheduled y).
Definition set_intercept (v : Z) (y : Cycle) : Cycle := mk_cycle (y_count y) v (y_attempts y) (y_pending y) (y_scheduled y).
Definition set_attempts (v : AutoFailoverAttempts) (y : Cycle) : Cycle := mk_cycle (y_count y) (y_intercept_count y) v (y_pending y) (y_scheduled y).
Definition set_target (v : option AutoFailoverTarget) (y : Cycle) : Cycle := mk_cycle (y_count y) (y_intercept_count y) (y_attempts y) v (y_scheduled y).
Definition set_scheduled (v : bool) (y : Cycle) : Cycle := mk_cycle (y_count y) (y_intercept_count y) (y_attempts y) (y_pending y) v.

(** A failed task: its message and route, whether it may change routes (mode
    Auto without a proxy or a site rule of its own, not BitTorrent or ED2K, with
    a host), the candidates that are not blocked, whether direct is usable. *)
Record Failure := mk_failure {
  f_message : text; f_route : text; f_auto : bool; f_candidates : list CandidateSource; f_direct_usable : bool }.

(** What restarts the task: another route, a delay, a plugin's request. *)
Inductive Restart := SwitchRoute (t : AutoFailoverTarget) | RetryAfter (secs : Z) | PluginRetry (intercepted : bool).

(** [handle_task_done] for a task that failed in its current generation. *)
Definition failover_on_failure (f : Failure) (y : Cycle) : Cycle * option Restart :=
  if f_auto f then
    let '(target, attempts) :=
      auto_failover_target (f_route f) (f_message f) (f_candidates f) (f_direct_usable f) (y_attempts y) in
    let y := set_attempts attempts y in
    match target with
    | Some t => (set_scheduled true (set_target (Some t) y), Some (SwitchRoute t))
    | None => (y, None)
    end
  else (y, None).

Definition retry_on_failure (cfg : Config) (f : Failure) (y : Cycle) : Cycle * option Restart :=
  if negb (max_retries cfg =? 0) && is_retriable_error (f_message f) then
    if (max_retries cfg =? -1) || (wrap_i32 (y_count y) <? max_retries cfg) then
      let attempt := y_count y + 1 in
      let base := if max_retries cfg =? -1 then Z.max (retry_delay_secs cfg) 1 else retry_delay_secs cfg in
      let delay_secs := Z.min (sat_mul_u64 base attempt) MAX_AUTO_RETRY_DELAY_SECS in
      (set_scheduled true (set_count attempt y), Some (RetryAfter delay_secs))
    else (y, None)
  else (y, None).

Definition on_failure (cfg : Config) (f : Failure) (y : Cycle) : Cycle * option Restart :=
  let '(y, restart) := failover_on_failure f y in
  match restart with Some _ => (y, restart) | None => retry_on_failure cfg f y end.

(** [plugin_request_retry]; [in_error]: the row has status 4. *)
Definition plugin_request_retry (cfg : Config) (from_interceptor in_error : bool) (y : Cycle) : Cycle * option Restart :=
  if negb from_interceptor && (max_retries cfg =? 0) then (y, None)
  else if y_scheduled y || bool_decide (is_Some (y_pending y)) then (y, None)
  else if negb in_error then (y, None)
  else if from_interceptor then
    if INTERCEPT_RETRY_LIMIT <=? y_intercept_count y then (y, None)
    else (set_scheduled true (set_intercept (y_intercept_count y + 1) y), Some (PluginRetry true))
  else if negb (max_retries cfg =? -1) && (max_retries cfg <=? wrap_i32 (y_count y)) then (y, None)
  else (set_scheduled true (set_count (y_count y + 1) y), Some (PluginRetry false)).

(** What happens to a task without its user. *)
Inductive AutoEvent :=
| Failed (f : Failure)
| Signalled                                    (* the retry signal: [resume_task_auto] *)
| Started                                      (* [take_start_route] *)
| Resolved (failed_routes : list RoutePath)    (* [absorb_resolve_egress] *)
| Requested (from_interceptor in_error : bool).

Definition auto_step (cfg : Config) (e : AutoEvent) (y : Cycle) : Cycle * option Restart :=
  match e with
  | Failed f => on_failure cfg f y
  | Signalled => (set_scheduled false y, None)
  | Started => (set_target None y, None)
  | Resolved failed_routes => (set_attempts (foldl (fun a r => mark_route r a) (y_attempts y) failed_routes) y, None)
  | Requested from_interceptor in_error => plugin_request_retry cfg from_interceptor in_error y
  end.

(** [resume_task]: the user's resume starts a new cycle. *)
Definition user_resume (y : Cycle) : Cycle :=
  mk_cycle 0 0 (if bool_decide (is_Some (y_pending y)) then y_attempts y else no_attempts) (y_pending y) false.

(** The restarts of a run, with the last state. *)
Fixpoint auto_run (cfg : Config) (es : list AutoEvent) (y : Cycle) : list Restart * Cycle :=
  match es with
  | [] => ([], y)
  | e :: es =>
      let '(y, restart) := auto_step cfg e y in
      let '(restarts, y) := auto_run cfg es y in
      (match restart with Some r => r :: restarts | None => restarts end, y)
  end.

(** ** Text lemmas *)

Lemma strip_prefix_app p s : strip_prefix p (p ++ s) = Some s.
Proof. induction p as [|c p IH]; cbn; [done|]. by rewrite decide_True. Qed.

Lemma strip_prefix_Some p s r : strip_prefix p s = Some r -> s = p ++ r.
Proof.
  revert s. induction p as [|c p IH]; intros s H; cbn in H; [by injection H as ->|].
  destruct s as [|d s]; [done|]. case_decide; [|done]. subst d. cbn. f_equal. by apply IH.
Qed.

Lemma cut_Some p s b a : cut p s = Some (b, a) -> s = b ++ p ++ a.
Proof.
  revert b. induction s as [|c s IH]; intros b; cbn.
  - destruct (strip_prefix p []) eqn:E; [|done]. intros [= <- <-]. by apply strip_prefix_Some in E.
  - destruct (strip_prefix p (c :: s)) eqn:E; [intros [= <- <-]; by apply strip_prefix_Some in E|].
    destruct (cut p s) as [[b' a']|]; [|done]. intros [= <- <-]. cbn. f_equal. by apply IH.
Qed.

(** A pattern cannot end in text that begins with a byte it lacks. *)
Lemma strip_prefix_stop p m c y r : c ∉ p -> strip_prefix p (m ++ c :: y) = Some r -> exists m', m = p ++ m'.
Proof.
  revert m. induction p as [|d p IH]; intros m Hc H; [by exists m|]. cbn in H. destruct m as [|e m]; cbn in H.
  - case_decide; [|done]. subst. destruct Hc. by left.
  - case_decide; [|done]. subst e. apply IH in H as [m' ->]; [by exists m'|]. intros Hin. apply Hc. by right.
Qed.

Lemma cut_skip p m c y :
  cut p m = None -> c ∉ p -> cut p (m ++ c :: y) = match cut p (c :: y) with Some (b, a) => Some (m ++ b, a) | None => None end.
Proof.
  intros Hm Hc. induction m as [|d m IH]; [cbn [app]; by destruct (cut p (c :: y)) as [[]|]|]. cbn [app cut] in *.
  destruct (strip_prefix p (d :: m)) as [a|] eqn:E; [done|]. destruct (cut p m) as [[]|] eqn:Em; [done|].
  destruct (strip_prefix p (d :: m ++ c :: y)) as [r|] eqn:E'.
  - change (d :: m ++ c :: y) with ((d :: m) ++ c :: y) in E'. apply strip_prefix_stop in E' as [m' Hm']; [|done].
    rewrite Hm', strip_prefix_app in E. done.
  - rewrite IH by done. cbn [cut]. repeat case_match; simplify_eq; done.
Qed.

Lemma contains_cut p s : contains p s = false <-> cut p s = None.
Proof. unfold contains. by destruct (cut p s). Qed.

Lemma from_code_code f : from_code (code f) = Some f.
Proof. by destruct f. Qed.

Lemma tag_appended msg f : cut TAG_OPEN msg = None -> tag_of (msg ++ lit " [net:" ++ code f ++ lit "]") = Some f.
Proof.
  intros Hm. unfold tag_of. change (lit " [net:" ++ code f ++ lit "]") with (" "%char :: TAG_OPEN ++ code f ++ lit "]").
  rewrite cut_skip; [|done|by vm_compute; set_solver].
  cbn [cut]. by destruct f.
Qed.

(** ** The potential of a cycle *)

Definition open_routes (a : AutoFailoverAttempts) : Z := Z.b2z (negb (a_direct a)) + Z.b2z (negb (a_manual a)) + Z.b2z (negb (a_system a)).

Definition potential (cfg : Config) (y : Cycle) : Z :=
  open_routes (y_attempts y) + Z.max 0 (max_retries cfg - y_count y) + Z.max 0 (INTERCEPT_RETRY_LIMIT - y_intercept_count y).

Lemma open_routes_bounds a : 0 <= open_routes a <= 3.
Proof. unfold open_routes. destruct (a_direct a), (a_manual a), (a_system a); cbn; lia. Qed.

Lemma mark_source_open s a : open_routes (mark_source s a) = open_routes a - Z.b2z (negb (source_attempted a s)).
Proof. unfold open_routes. destruct a as [[] [] []], s; done. Qed.

Lemma mark_direct_open a : open_routes (mark_direct a) = open_routes a - Z.b2z (negb (a_direct a)).
Proof. unfold open_routes. by destruct a as [[] [] []]. Qed.

Lemma mark_route_open r a : open_routes (mark_route r a) <= open_routes a.
Proof.
  destruct r; cbn [mark_route]; rewrite ?mark_source_open, ?mark_direct_open;
    [destruct (negb (a_direct a))|destruct (negb (source_attempted a _))|destruct (negb (a_direct a))]; cbn; lia.
Qed.

(** Has the route been tried? *)
Definition attempted (a : AutoFailoverAttempts) (t : AutoFailoverTarget) : bool :=
  match t with TProxy s => source_attempted a s | TDirect => a_direct a end.

Definition marks (a a' : AutoFailoverAttempts) : Prop := forall t, attempted a t = true -> attempted a' t = true.

Lemma mark_source_marks s a : marks a (mark_source s a) /\ source_attempted (mark_source s a) s = true.
Proof. split; [intros [[]|]; by destruct s|by destruct s]. Qed.

Lemma mark_direct_marks a : marks a (mark_direct a).
Proof. by intros [[]|]. Qed.

(** The attempts after the failed route has been marked. *)
Definition failed_marked (auto_route : text) (candidate_sources : list CandidateSource) (attempts : AutoFailoverAttempts) : AutoFailoverAttempts :=
  if starts_with (lit "proxy") auto_route then
    if ends_with (lit ":manual") auto_route then mark_source ManualFields attempts
    else if ends_with (lit ":system") auto_route then mark_source System attempts
    else match candidate_sources with [s] => mark_source s attempts | _ => attempts end
  else mark_direct attempts.

Lemma failed_marked_spec auto_route cs a :
  let a' := failed_marked auto_route cs a in
  marks a a' /\ open_routes a' <= open_routes a /\
  forall t, route_of_label auto_route = Some (route t) -> attempted a' t = true.
Proof.
  assert (forall s, open_routes (mark_source s a) <= open_routes a) as Hs by (intros s; apply (mark_route_open (RProxy s))).
  assert (open_routes (mark_direct a) <= open_routes a) as Hd by apply (mark_route_open RDirect).
  cbv zeta. unfold failed_marked, route_of_label. destruct (starts_with (lit "proxy") auto_route) eqn:Ep; cbn [negb].
  - assert (starts_with (lit "direct") auto_route = false) as ->.
    { unfold starts_with in *. destruct auto_route as [|c r]; [done|]. cbn in *. repeat case_decide; subst; done. }
    destruct (ends_with (lit ":manual") auto_route) eqn:Em.
    + split_and!; [apply mark_source_marks|apply Hs|]. destruct (ends_with (lit ":system") auto_route) eqn:Es.
      * exfalso. unfold ends_with, starts_with in *.
        destruct (strip_prefix (reverse (lit ":manual")) _) as [r|] eqn:E1; [|done]. destruct (strip_prefix (reverse (lit ":system")) _) as [r'|] eqn:E2; [|done].
        apply strip_prefix_Some in E1, E2. rewrite E1 in E2. by vm_compute in E2.
      * intros [s|] [= <-]. done.
    + destruct (ends_with (lit ":system") auto_route) eqn:Es.
      * split_and!; [apply mark_source_marks|apply Hs|]. by intros [s|] [= <-].
      * assert (marks a a) as Ha by (by intros x Hx).
        destruct cs as [|s []]; (split_and!; [done|done|done]) || (split_and!; [apply mark_source_marks|apply Hs|done]).
  - split_and!; [apply mark_direct_marks|done|]. intros [s|]; [by case_match|done].
Qed.

Lemma find_Some {A} (f : A -> bool) l x : find f l = Some x -> f x = true /\ x ∈ l.
Proof. intros H. apply List.find_some in H as [H1 H2]. split; [done|by apply list_elem_of_In]. Qed.

Lemma target_spec auto_route error cs reachable a t a' :
  auto_failover_target auto_route error cs reachable a = (t, a') ->
  marks a a' /\ open_routes a' + match t with Some _ => 1 | None => 0 end <= open_routes a /\
  forall x, t = Some x -> is_route_transport_error error = true /\ attempted a x = false /\ attempted a' x = true /\
    route_of_label auto_route <> Some (route x) /\ match x with TProxy s => s ∈ cs | TDirect => reachable = true end.
Proof.
  unfold auto_failover_target. fold (failed_marked auto_route cs a). destruct (is_route_transport_error error) eqn:Et; cbn [negb].
  2: { intros [= <- <-]. split_and!; [by intros x Hx|lia|done]. }
  pose proof (failed_marked_spec auto_route cs a) as (H1 & H2 & H3). cbv zeta in H1, H2, H3. set (m := failed_marked auto_route cs a) in *.
  assert (forall x, attempted m x = false -> attempted a x = false /\ route_of_label auto_route <> Some (route x)) as Hnot.
  { intros x Hx. split; [destruct (attempted a x) eqn:E; [apply H1 in E; congruence|done]|]. intros E. apply H3 in E. congruence. }
  destruct (find _ cs) as [s|] eqn:Ef.
  - intros [= <- <-]. apply find_Some in Ef as [Hs Hin]. apply negb_true_iff in Hs. pose proof (mark_source_marks s m) as [H4 H5]. split_and!.
    + intros x Hx. by apply H4, H1.
    + rewrite mark_source_open, Hs. cbn. lia.
    + intros x [= <-]. destruct (Hnot (TProxy s) Hs). split_and!; done.
  - destruct (reachable && negb (a_direct m)) eqn:E; intros [= <- <-].
    + apply andb_prop in E as [-> Hd]. apply negb_true_iff in Hd. split_and!.
      * intros x Hx. by apply mark_direct_marks, H1.
      * rewrite mark_direct_open, Hd. cbn. lia.
      * intros x [= <-]. destruct (Hnot TDirect Hd). split_and!; done.
    + split_and!; [done|lia|done].
Qed.

(** What a number of automatic retries already made means. *)
Definition cycle_ok (cfg : Config) (y : Cycle) : Prop :=
  0 <= y_count y /\ (0 <= max_retries cfg -> y_count y <= i32_max).

Lemma count_cast y : 0 <= y_count y <= i32_max -> wrap_i32 (y_count y) = y_count y.
Proof. unfold wrap_i32, i32_max. intros H. rewrite Z.mod_small; lia. Qed.

Lemma delay_bounds base attempt : 0 <= base -> 0 <= attempt -> 0 <= Z.min (sat_mul_u64 base attempt) MAX_AUTO_RETRY_DELAY_SECS <= 300.
Proof. unfold sat_mul_u64, u64_max, MAX_AUTO_RETRY_DELAY_SECS. intros. assert (0 <= base * attempt) by nia. lia. Qed.

(** A step keeps the counts valid and pays for the restart it asks for. *)
Lemma auto_step_spec cfg e y :
  0 <= max_retries cfg <= i32_max -> cycle_ok cfg y ->
  let '(y', r) := auto_step cfg e y in
  cycle_ok cfg y' /\ potential cfg y' + match r with Some _ => 1 | None => 0 end <= potential cfg y.
Proof.
  intros Hmax [H1 H2]. specialize (H2 (proj1 Hmax)).
  assert (forall f z, y_count z = y_count y -> let '(y', r) := retry_on_failure cfg f z in
    cycle_ok cfg y' /\ potential cfg y' + match r with Some _ => 1 | None => 0 end <= potential cfg z) as Hretry.
  { intros f z Hz. unfold retry_on_failure. destruct (_ && _); [|unfold cycle_ok, i32_max in *; rewrite Hz; split; [split; [done|lia]|lia]].
    rewrite count_cast by lia. destruct (max_retries cfg =? -1) eqn:Em; bool_hyps; [lia|]. cbn [orb].
    destruct (y_count z <? max_retries cfg) eqn:El; bool_hyps.
    - unfold cycle_ok, potential; cbn. rewrite Hz in *. split; [split; [lia|intros _; lia]|lia].
    - unfold cycle_ok. rewrite Hz. split; [split; [done|intros _; lia]|lia]. }
  destruct e as [f| | |rs|fi ie]; cbn [auto_step].
  - unfold on_failure, failover_on_failure. destruct (f_auto f); [|by apply Hretry].
    destruct (auto_failover_target _ _ _ _ _) as [t a'] eqn:E. apply target_spec in E as (_ & Ho & _).
    destruct t as [t|].
    + unfold cycle_ok, potential; cbn. split; [split; [done|intros _; done]|lia].
    + specialize (Hretry f (set_attempts a' y) eq_refl). destruct (retry_on_failure cfg f (set_attempts a' y)) as [y' r].
      destruct Hretry as [G1 G2]. split; [done|]. unfold potential in *. cbn in *. lia.
  - unfold cycle_ok, potential; cbn. split; [split; [done|intros _; done]|lia].
  - unfold cycle_ok, potential; cbn. split; [split; [done|intros _; done]|lia].
  - unfold cycle_ok, potential; cbn. split; [split; [done|intros _; done]|].
    assert (forall a, open_routes (foldl (fun a r => mark_route r a) a rs) <= open_routes a) as Hrs.
    { induction rs as [|r rs IH]; intros a; cbn; [lia|]. pose proof (mark_route_open r a). specialize (IH (mark_route r a)). lia. }
    specialize (Hrs (y_attempts y)). lia.
  - unfold plugin_request_retry. assert (cycle_ok cfg y /\ potential cfg y + 0 <= potential cfg y) as Hsame by (split; [by split; [|intros _]|lia]).
    destruct (negb fi && _); [exact Hsame|]. destruct (_ || _); [exact Hsame|]. destruct (negb ie); [exact Hsame|]. destruct fi.
    + destruct (INTERCEPT_RETRY_LIMIT <=? y_intercept_count y) eqn:El; [exact Hsame|]. bool_hyps.
      unfold cycle_ok, potential, INTERCEPT_RETRY_LIMIT in *; cbn. split; [split; [done|intros _; done]|lia].
    + rewrite count_cast by lia. destruct (max_retries cfg =? -1) eqn:Em; bool_hyps; [lia|]. cbn [negb andb].
      destruct (max_retries cfg <=? y_count y) eqn:El; [exact Hsame|]. bool_hyps.
      unfold cycle_ok, potential; cbn. split; [split; [lia|intros _; lia]|lia].
Qed.

Lemma auto_run_potential cfg es y :
  0 <= max_retries cfg <= i32_max -> cycle_ok cfg y ->
  let '(restarts, y') := auto_run cfg es y in
  cycle_ok cfg y' /\ potential cfg y' + Z.of_nat (length restarts) <= potential cfg y.
Proof.
  intros Hmax. revert y. induction es as [|e es IH]; intros y Hy; cbn [auto_run]; [split; [done|cbn; lia]|].
  pose proof (auto_step_spec cfg e y Hmax Hy) as Hs. destruct (auto_step cfg e y) as [y1 r]. destruct Hs as [Hy1 Hp].
  specialize (IH y1 Hy1). destruct (auto_run cfg es y1) as [restarts y2]. destruct IH as [Hy2 Hp2].
  split; [done|]. destruct r; cbn [length]; lia.
Qed.

Lemma potential_bound cfg y : 0 <= y_count y -> 0 <= y_intercept_count y -> potential cfg y <= 3 + Z.max 0 (max_retries cfg) + INTERCEPT_RETRY_LIMIT.
Proof. pose proof (open_routes_bounds (y_attempts y)). unfold potential, INTERCEPT_RETRY_LIMIT. lia. Qed.

(** The decision about one failure. *)
Lemma on_failure_spec cfg f y y' r :
  0 <= retry_delay_secs cfg -> 0 <= y_count y ->
  on_failure cfg f y = (y', Some r) ->
  y_scheduled y' = true /\
  match r with
  | SwitchRoute t =>
      y_pending y' = Some t /\ y_count y' = y_count y /\ attempted (y_attempts y) t = false /\ attempted (y_attempts y') t = true /\
      route_of_label (f_route f) <> Some (route t) /\ is_route_transport_error (f_message f) = true
  | RetryAfter secs =>
      0 <= secs <= MAX_AUTO_RETRY_DELAY_SECS /\ y_count y' = y_count y + 1 /\ is_retriable_error (f_message f) = true /\
      (max_retries cfg = -1 -> 1 <= secs) /\
      secs = Z.min (sat_mul_u64 (if max_retries cfg =? -1 then Z.max (retry_delay_secs cfg) 1 else retry_delay_secs cfg) (y_count y'))
               MAX_AUTO_RETRY_DELAY_SECS
  | PluginRetry _ => False
  end.
Proof.
  intros Hd Hc. unfold on_failure, failover_on_failure.
  assert (forall z, y_count z = y_count y -> retry_on_failure cfg f z = (y', Some r) -> y_scheduled y' = true /\
    match r with
    | RetryAfter secs => 0 <= secs <= MAX_AUTO_RETRY_DELAY_SECS /\ y_count y' = y_count y + 1 /\ is_retriable_error (f_message f) = true /\
      (max_retries cfg = -1 -> 1 <= secs) /\
      secs = Z.min (sat_mul_u64 (if max_retries cfg =? -1 then Z.max (retry_delay_secs cfg) 1 else retry_delay_secs cfg) (y_count y'))
               MAX_AUTO_RETRY_DELAY_SECS
    | _ => False
    end) as Hretry.
  { intros z Hz. unfold retry_on_failure. destruct (negb (max_retries cfg =? 0) && is_retriable_error (f_message f)) eqn:E; [|done].
    apply andb_prop in E as [_ Hr]. destruct (_ || _); [|done]. intros [= <- <-]. cbn. rewrite Hz.
    split; [done|]. split_and!; [| |done|done| |done].
    - apply delay_bounds; [|lia]. destruct (_ =? -1); lia.
    - unfold MAX_AUTO_RETRY_DELAY_SECS, sat_mul_u64. lia.
    - intros ->. cbn. unfold sat_mul_u64, u64_max, MAX_AUTO_RETRY_DELAY_SECS. assert (1 <= Z.max (retry_delay_secs cfg) 1 * (y_count y + 1)) by nia. lia. }
  destruct (f_auto f).
  - destruct (auto_failover_target _ _ _ _ _) as [[t|] a'] eqn:E.
    + intros [= <- <-]. apply target_spec in E as (_ & _ & Ht). destruct (Ht t eq_refl) as (G1 & G2 & G3 & G4 & _). done.
    + intros [Hs H]%Hretry; [|done]. split; [done|by destruct r].
  - intros [Hs H]%Hretry; [|done]. split; [done|by destruct r].
Qed.

(** C16. Automatic restarts come to an end: with a limit on retries, whatever
    failures, plugin requests and resolutions follow one another without the
    user, a task is restarted at most as often as three routes, the retries left
    and five requests of interceptors allow; the allowance never grows on its
    own, and a resume by the user opens a new one of the same size. *)
Theorem restarts_end (cfg : Config) (es : list AutoEvent) (y : Cycle) :
  0 <= max_retries cfg <= i32_max -> 0 <= y_count y <= i32_max -> 0 <= y_intercept_count y ->
  let '(restarts, y') := auto_run cfg es y in
  Z.of_nat (length restarts) <= potential cfg y - potential cfg y' /\ 0 <= potential cfg y' /\
  potential cfg y <= 3 + max_retries cfg + INTERCEPT_RETRY_LIMIT /\
  potential cfg (user_resume y') <= 3 + max_retries cfg + INTERCEPT_RETRY_LIMIT.
Proof.
  intros Hmax Hc Hi. assert (cycle_ok cfg y) as Hy by (split; [lia|intros _; lia]).
  pose proof (auto_run_potential cfg es y Hmax Hy) as H. destruct (auto_run cfg es y) as [restarts y']. destruct H as [_ H].
  pose proof (potential_bound cfg y (proj1 Hc) Hi). pose proof (potential_bound cfg (user_resume y')) as Hu. cbn [user_resume y_count y_intercept_count] in Hu.
  pose proof (open_routes_bounds (y_attempts y')). split_and!; [lia|unfold potential; lia|lia|lia].
Qed.

(** One failure: a restart over another route is over a route that was not
    tried in this cycle and is not the one that has just failed, only for an
    error of the transport, and is tried once; a delayed retry is for a
    retriable error, waits the base delay times its number, five minutes at
    most, and at least a second when retries are unlimited. *)
Theorem restart_decisions (cfg : Config) (f : Failure) (y y' : Cycle) (r : Restart) :
  0 <= retry_delay_secs cfg -> 0 <= y_count y ->
  on_failure cfg f y = (y', Some r) ->
  match r with
  | SwitchRoute t =>
      y_pending y' = Some t /\ attempted (y_attempts y) t = false /\ attempted (y_attempts y') t = true /\
      route_of_label (f_route f) <> Some (route t) /\ is_route_transport_error (f_message f) = true
  | RetryAfter secs =>
      secs = Z.min (sat_mul_u64 (if max_retries cfg =? -1 then Z.max (retry_delay_secs cfg) 1 else retry_delay_secs cfg) (y_count y'))
               MAX_AUTO_RETRY_DELAY_SECS /\
      0 <= secs <= 300 /\ (max_retries cfg = -1 -> 1 <= secs) /\ y_count y' = y_count y + 1 /\ is_retriable_error (f_message f) = true
  | PluginRetry _ => False
  end.
Proof.
  intros Hd Hc H. apply on_failure_spec in H as [_ H]; [|done|done]. destruct r; [| |done].
  - by destruct H as (? & _ & ? & ? & ? & ?).
  - by destruct H as (? & ? & ? & ? & ?).
Qed.

(** The tag decides: to a message that mentions no tag the classification
    is appended and read back, further classifications leave it as it is, and
    the policy follows it whatever else the message says — URLs and status
    codes included: another route may help, the same one helps unless TLS
    failed.  A message that already contains the opening of a tag it does not
    close with a known code hides every tag appended to it. *)
Theorem tags_decide (msg : text) (f : NetFailure) :
  cut TAG_OPEN msg = None ->
  let tagged := append_tag msg (Some f) in
  tag_of tagged = Some f /\ (forall o, append_tag tagged o = tagged) /\
  is_route_transport_error tagged = true /\ is_retriable_error tagged = retriable_same_path f /\
  exists bad, tag_of (append_tag bad (Some f)) = None /\ append_tag (append_tag bad (Some f)) (Some f) <> append_tag bad (Some f).
Proof.
  intros Hm tagged. assert (tag_of msg = None) as Hn by (unfold tag_of; by rewrite Hm).
  assert (tag_of tagged = Some f) as Ht by (subst tagged; unfold append_tag; rewrite Hn; by apply tag_appended).
  split_and!; [done| | | |].
  - intros [o|]; [|done]. unfold append_tag at 1. by rewrite Ht.
  - unfold is_route_transport_error. by rewrite Ht.
  - unfold is_retriable_error. by rewrite Ht.
  - exists (lit "reset [net:quic]"). split; [by destruct f; vm_compute|]. intros H. destruct f; vm_compute in H; discriminate H.
Qed.

(** ** Witnesses *)

Definition sample_failure : Failure :=
  mk_failure (lit "error sending request for url (http://h/eof) [net:reset]") (lit "direct") true [ManualFields; System] true.

Definition sample_events : list AutoEvent :=
  [Failed sample_failure; Signalled; Started;
   Failed (mk_failure (f_message sample_failure) (lit "proxy:failover:manual") true [ManualFields; System] true); Signalled; Started;
   Failed (mk_failure (lit "download stalled: no bytes") (lit "proxy:failover:system") true [ManualFields; System] true);
   Requested true true; Signalled; Started].

Example sample_restarts : fst (auto_run (mk_config 3 5) sample_events fresh_cycle) =
  [SwitchRoute (TProxy ManualFields); SwitchRoute (TProxy System); RetryAfter 5].
Proof. by vm_compute. Qed.

Example status_found : extract_http_status (lit "12 HTTP status server error (503 Service Unavailable)") = Some 503.
Proof. by vm_compute. Qed.

Example url_ignored : is_retriable_error (lit "HTTP status client error (404 Not Found) for url (http://h/timeout)") = false.
Proof. by vm_compute. Qed.

Lemma restarts_end_witness :
  let '(restarts, y) := auto_run (mk_config 3 5) sample_events fresh_cycle in
  length restarts = 3%nat /\ Z.of_nat (length restarts) <= 11 /\ 0 <= potential (mk_config 3 5) y.
Proof.
  assert (0 <= max_retries (mk_config 3 5) <= i32_max /\ 0 <= y_count fresh_cycle <= i32_max) as [H1 H2] by (split; split; by vm_compute).
  pose proof (restarts_end (mk_config 3 5) sample_events fresh_cycle H1 H2 ltac:(by vm_compute)) as H.
  assert (length (fst (auto_run (mk_config 3 5) sample_events fresh_cycle)) = 3%nat) as Hl by by vm_compute.
  destruct (auto_run (mk_config 3 5) sample_events fresh_cycle) as [restarts y]. destruct H as (G1 & G2 & G3 & _).
  split_and!; [exact Hl|cbn in *; lia|exact G2].
Defined.

Lemma restart_decisions_witness :
  on_failure (mk_config 3 5) sample_failure fresh_cycle =
    (snd (auto_run (mk_config 3 5) [Failed sample_failure] fresh_cycle), Some (SwitchRoute (TProxy ManualFields))) /\
  route_of_label (lit "direct") <> Some (RProxy ManualFields).
Proof.
  assert (on_failure (mk_config 3 5) sample_failure fresh_cycle =
    (snd (auto_run (mk_config 3 5) [Failed sample_failure] fresh_cycle), Some (SwitchRoute (TProxy ManualFields)))) as H by by vm_compute.
  split; [exact H|]. pose proof (restart_decisions (mk_config 3 5) sample_failure fresh_cycle _ _ ltac:(by vm_compute) ltac:(by vm_compute) H) as G.
  apply G.
Defined.

Lemma tags_decide_witness :
  let tagged := append_tag (lit "invalid peer certificate for http://h/timeout") (Some Tls) in
  tag_of tagged = Some Tls /\ is_retriable_error tagged = false.
Proof.
  pose proof (tags_decide (lit "invalid peer certificate for http://h/timeout") Tls ltac:(by vm_compute)) as (H1 & _ & _ & H2 & _).
  split; [exact H1|exact H2].
Defined.
