(* ===== verification/NodePool.v ===== *)
(** * NodePool: the paths and nodes a download may use
      ([native/engine/src/cdn/node_pool.rs]).

    A download reaches its file over several routes: the route it started on
    (slot 0, "SYS"), addresses of a CDN pinned by hand, candidate proxies, other
    network cards.  Each is a slot of the pool; a worker leases a slot for one
    segment and gives it back.  The pool estimates the speed of every slot,
    explores slots it knows nothing about, spreads connections, and bans slots
    that fail.

    One operation is one critical section of the pool's lock.  A client is known
    only by whether it exists; what building one yields is an argument.  IP
    addresses are their texts.  Counters of leases and failures are unbounded
    integers.  The health table and the telemetry receive the calls recorded in
    [p_out]; poisoned locks and log lines are not modelled. *)
From S2P Require Import Prelude F64 PathScheduler Text Retry.

Definition EWMA_ALPHA : f64 := f64_lit 3 10.
#[global] Arguments EWMA_ALPHA : simpl never.
Definition MIN_SAMPLE_BYTES : Z := 256 * 1024.
Definition KICK_STREAK : Z := 3.
Definition SYS_FALLBACK_BUDGET : Z := 8.
Definition DEFAULT_EWMA_BPS : f64 := f64_mul (f64_mul (f64_of_Z 4) (f64_of_Z 1024)) (f64_of_Z 1024).
(** Milliseconds. *)
Definition LEASES_EMIT_MIN_GAP : Z := 2000.

(** ** Data *)

#[global] Instance RoutePath_eq : EqDecision RoutePath.
Proof. solve_decision. Defined.

Definition is_link (r : RoutePath) : bool := match r with RLink _ => true | _ => false end.
Definition is_proxy (r : RoutePath) : bool := match r with RProxy _ => true | _ => false end.

(** [multi_nic::LinkBinding]. *)
Record LinkBinding := mk_link { k_name : text; k_index : Z; k_v4 : option text; k_v6 : option text }.
Definition link_label (l : LinkBinding) : text := lit "NIC:" ++ k_name l.
Definition local_ip (l : LinkBinding) : option text :=
  match k_v4 l with Some ip => Some ip | None => k_v6 l end.

Record NodeSlot := mk_slot {
  ip : option text;
  s_route : RoutePath;
  client : bool;
  ewma_bps : f64;
  measured_windows : Z;
  cold : bool;
  evidence : bool;
  ever_leased : bool;
  fail_streak : Z;
  kicked : bool;
  outstanding : Z;
  origin : text;
  bytes_done : Z;
  link : option LinkBinding;
  window_conns : Z }.
Definition set_route (v : RoutePath) (x : NodeSlot) : NodeSlot :=
  mk_slot (ip x) v (client x) (ewma_bps x) (measured_windows x) (cold x) (evidence x) (ever_leased x) (fail_streak x) (kicked x) (outstanding x) (origin x) (bytes_done x) (link x) (window_conns x).
Definition set_client (v : bool) (x : NodeSlot) : NodeSlot :=
  mk_slot (ip x) (s_route x) v (ewma_bps x) (measured_windows x) (cold x) (evidence x) (ever_leased x) (fail_streak x) (kicked x) (outstanding x) (origin x) (bytes_done x) (link x) (window_conns x).
Definition set_ewma (v : f64) (x : NodeSlot) : NodeSlot :=
  mk_slot (ip x) (s_route x) (client x) v (measured_windows x) (cold x) (evidence x) (ever_leased x) (fail_streak x) (kicked x) (outstanding x) (origin x) (bytes_done x) (link x) (window_conns x).
Definition set_windows (v : Z) (x : NodeSlot) : NodeSlot :=
  mk_slot (ip x) (s_route x) (client x) (ewma_bps x) v (cold x) (evidence x) (ever_leased x) (fail_streak x) (kicked x) (outstanding x) (origin x) (bytes_done x) (link x) (window_conns x).
Definition set_cold (v : bool) (x : NodeSlot) : NodeSlot :=
  mk_slot (ip x) (s_route x) (client x) (ewma_bps x) (measured_windows x) v (evidence x) (ever_leased x) (fail_streak x) (kicked x) (outstanding x) (origin x) (bytes_done x) (link x) (window_conns x).
Definition set_evidence (v : bool) (x : NodeSlot) : NodeSlot :=
  mk_slot (ip x) (s_route x) (client x) (ewma_bps x) (measured_windows x) (cold x) v (ever_leased x) (fail_streak x) (kicked x) (outstanding x) (origin x) (bytes_done x) (link x) (window_conns x).
Definition set_leased (v : bool) (x : NodeSlot) : NodeSlot :=
  mk_slot (ip x) (s_route x) (client x) (ewma_bps x) (measured_windows x) (cold x) (evidence x) v (fail_streak x) (kicked x) (outstanding x) (origin x) (bytes_done x) (link x) (window_conns x).
Definition set_streak (v : Z) (x : NodeSlot) : NodeSlot :=
  mk_slot (ip x) (s_route x) (client x) (ewma_bps x) (measured_windows x) (cold x) (evidence x) (ever_leased x) v (kicked x) (outstanding x) (origin x) (bytes_done x) (link x) (window_conns x).
Definition set_kicked (v : bool) (x : NodeSlot) : NodeSlot :=
  mk_slot (ip x) (s_route x) (client x) (ewma_bps x) (measured_windows x) (cold x) (evidence x) (ever_leased x) (fail_streak x) v (outstanding x) (origin x) (bytes_done x) (link x) (window_conns x).
Definition set_outstanding (v : Z) (x : NodeSlot) : NodeSlot :=
  mk_slot (ip x) (s_route x) (client x) (ewma_bps x) (measured_windows x) (cold x) (evidence x) (ever_leased x) (fail_streak x) (kicked x) v (origin x) (bytes_done x) (link x) (window_conns x).
Definition set_origin (v : text) (x : NodeSlot) : NodeSlot :=
  mk_slot (ip x) (s_route x) (client x) (ewma_bps x) (measured_windows x) (cold x) (evidence x) (ever_leased x) (fail_streak x) (kicked x) (outstanding x) v (bytes_done x) (link x) (window_conns x).
Definition set_bytes (v : Z) (x : NodeSlot) : NodeSlot :=
  mk_slot (ip x) (s_route x) (client x) (ewma_bps x) (measured_windows x) (cold x) (evidence x) (ever_leased x) (fail_streak x) (kicked x) (outstanding x) (origin x) v (link x) (window_conns x).
Definition set_link (v : option LinkBinding) (x : NodeSlot) : NodeSlot :=
  mk_slot (ip x) (s_route x) (client x) (ewma_bps x) (measured_windows x) (cold x) (evidence x) (ever_leased x) (fail_streak x) (kicked x) (outstanding x) (origin x) (bytes_done x) v (window_conns x).
Definition set_conns (v : Z) (x : NodeSlot) : NodeSlot :=
  mk_slot (ip x) (s_route x) (client x) (ewma_bps x) (measured_windows x) (cold x) (evidence x) (ever_leased x) (fail_streak x) (kicked x) (outstanding x) (origin x) (bytes_done x) (link x) v.

Definition new_slot (ip : option text) (route : RoutePath) (client : bool) (prior : option f64) : NodeSlot :=
  mk_slot ip route client (default DEFAULT_EWMA_BPS prior) 0 false false false 0 false 0 [] 0 None 0.

Definition score (s : NodeSlot) : f64 :=
  f64_mul (ewma_bps s) (f64_powi (f64_lit 1 2) (Z.to_nat (Z.min (fail_streak s) 60))).
Definition slot_capacity (s : NodeSlot) : f64 := f64_mul (score s) (f64_of_Z (Z.max (window_conns s) 1)).

Record LiveConn := mk_conn {
  c_lease_id : Z; c_node_id : nat; c_seg_index : Z; c_start_downloaded : Z; c_started_at : Z; c_cancel : Z }.

Record CdnNodeInfo := mk_info { i_ip : text; i_origin : text; i_bytes : Z; i_ewma_bps : Z; i_active : Z }.

(** [EngineEvent::TaskCdnEvent], less the fields the pool always leaves at 0. *)
Record TaskCdnEvent := mk_event {
  e_task_id : text; e_kind : text; e_host : text; e_nodes : list CdnNodeInfo;
  e_ip : text; e_reason : text; e_candidates : Z }.

(** What leaves the pool: events to the sink, calls of the health table, the
    telemetry and the memory of failing links, cancelled tokens. *)
Inductive Out :=
| Emitted (e : TaskCdnEvent)
| EwmaRecorded (ip : text) (bps : f64)
| SegmentRecorded (ip : text) (rate : option Z) (ok : bool)
| NoAggregateRecorded
| LinkFailureRecorded (l : LinkBinding)
| TokenCancelled (token : Z)
| FallbackGranted
| PathFailuresTaken (routes : list RoutePath).

Record NodePool := mk_pool {
  host : text;
  template : bool;
  has_db : bool;
  task_id : text;
  has_sink : bool;
  explore : bool;
  next_lease_id : Z;
  sys_fallback_budget : Z;
  slots : list NodeSlot;
  no_aggregate_recorded : bool;
  last_leases_emit : option Z;
  last_leases_sig : list Z;
  live : gmap Z LiveConn;
  validator_kicked : list RoutePath;
  path_failures : list RoutePath;
  path_failures_noted : list RoutePath;
  deferred : list TaskCdnEvent;
  p_out : list Out }.
Definition set_explore_flag (v : bool) (x : NodePool) : NodePool :=
  mk_pool (host x) (template x) (has_db x) (task_id x) (has_sink x) v (next_lease_id x) (sys_fallback_budget x) (slots x) (no_aggregate_recorded x) (last_leases_emit x) (last_leases_sig x) (live x) (validator_kicked x) (path_failures x) (path_failures_noted x) (deferred x) (p_out x).
Definition set_next_lease (v : Z) (x : NodePool) : NodePool :=
  mk_pool (host x) (template x) (has_db x) (task_id x) (has_sink x) (explore x) v (sys_fallback_budget x) (slots x) (no_aggregate_recorded x) (last_leases_emit x) (last_leases_sig x) (live x) (validator_kicked x) (path_failures x) (path_failures_noted x) (deferred x) (p_out x).
Definition set_budget (v : Z) (x : NodePool) : NodePool :=
  mk_pool (host x) (template x) (has_db x) (task_id x) (has_sink x) (explore x) (next_lease_id x) v (slots x) (no_aggregate_recorded x) (last_leases_emit x) (last_leases_sig x) (live x) (validator_kicked x) (path_failures x) (path_failures_noted x) (deferred x) (p_out x).
Definition set_slots (v : list NodeSlot) (x : NodePool) : NodePool :=
  mk_pool (host x) (template x) (has_db x) (task_id x) (has_sink x) (explore x) (next_lease_id x) (sys_fallback_budget x) v (no_aggregate_recorded x) (last_leases_emit x) (last_leases_sig x) (live x) (validator_kicked x) (path_failures x) (path_failures_noted x) (deferred x) (p_out x).
Definition set_no_aggregate (v : bool) (x : NodePool) : NodePool :=
  mk_pool (host x) (template x) (has_db x) (task_id x) (has_sink x) (explore x) (next_lease_id x) (sys_fallback_budget x) (slots x) v (last_leases_emit x) (last_leases_sig x) (live x) (validator_kicked x) (path_failures x) (path_failures_noted x) (deferred x) (p_out x).
Definition set_last_emit (v : option Z) (x : NodePool) : NodePool :=
  mk_pool (host x) (template x) (has_db x) (task_id x) (has_sink x) (explore x) (next_lease_id x) (sys_fallback_budget x) (slots x) (no_aggregate_recorded x) v (last_leases_sig x) (live x) (validator_kicked x) (path_failures x) (path_failures_noted x) (deferred x) (p_out x).
Definition set_last_sig (v : list Z) (x : NodePool) : NodePool :=
  mk_pool (host x) (template x) (has_db x) (task_id x) (has_sink x) (explore x) (next_lease_id x) (sys_fallback_budget x) (slots x) (no_aggregate_recorded x) (last_leases_emit x) v (live x) (validator_kicked x) (path_failures x) (path_failures_noted x) (deferred x) (p_out x).
Definition set_live (v : gmap Z LiveConn) (x : NodePool) : NodePool :=
  mk_pool (host x) (template x) (has_db x) (task_id x) (has_sink x) (explore x) (next_lease_id x) (sys_fallback_budget x) (slots x) (no_aggregate_recorded x) (last_leases_emit x) (last_leases_sig x) v (validator_kicked x) (path_failures x) (path_failures_noted x) (deferred x) (p_out x).
Definition set_validator_kicked (v : list RoutePath) (x : NodePool) : NodePool :=
  mk_pool (host x) (template x) (has_db x) (task_id x) (has_sink x) (explore x) (next_lease_id x) (sys_fallback_budget x) (slots x) (no_aggregate_recorded x) (last_leases_emit x) (last_leases_sig x) (live x) v (path_failures x) (path_failures_noted x) (deferred x) (p_out x).
Definition set_path_failures (v : list RoutePath) (x : NodePool) : NodePool :=
  mk_pool (host x) (template x) (has_db x) (task_id x) (has_sink x) (explore x) (next_lease_id x) (sys_fallback_budget x) (slots x) (no_aggregate_recorded x) (last_leases_emit x) (last_leases_sig x) (live x) (validator_kicked x) v (path_failures_noted x) (deferred x) (p_out x).
Definition set_noted (v : list RoutePath) (x : NodePool) : NodePool :=
  mk_pool (host x) (template x) (has_db x) (task_id x) (has_sink x) (explore x) (next_lease_id x) (sys_fallback_budget x) (slots x) (no_aggregate_recorded x) (last_leases_emit x) (last_leases_sig x) (live x) (validator_kicked x) (path_failures x) v (deferred x) (p_out x).
Definition set_deferred (v : list TaskCdnEvent) (x : NodePool) : NodePool :=
  mk_pool (host x) (template x) (has_db x) (task_id x) (has_sink x) (explore x) (next_lease_id x) (sys_fallback_budget x) (slots x) (no_aggregate_recorded x) (last_leases_emit x) (last_leases_sig x) (live x) (validator_kicked x) (path_failures x) (path_failures_noted x) v (p_out x).
Definition set_out (v : list Out) (x : NodePool) : NodePool :=
  mk_pool (host x) (template x) (has_db x) (task_id x) (has_sink x) (explore x) (next_lease_id x) (sys_fallback_budget x) (slots x) (no_aggregate_recorded x) (last_leases_emit x) (last_leases_sig x) (live x) (validator_kicked x) (path_failures x) (path_failures_noted x) (deferred x) v.

Definition on_slot (i : nat) (f : NodeSlot -> NodeSlot) (p : NodePool) : NodePool :=
  set_slots (alter f i (slots p)) p.
Definition send (o : Out) (p : NodePool) : NodePool := set_out (p_out p ++ [o]) p.

(** A lease, as its holder keeps it. *)
Record NodeLease := mk_lease {
  l_node_id : nat; l_lease_id : Z; l_ip : option text; l_route : RoutePath; l_link : option LinkBinding }.

Record LeaseRequest := mk_request {
  r_seg_index : Z; r_start_downloaded : Z; r_bytes : Z; r_allow_alternates : bool; r_cancel : Z }.

Definition is_attributable (l : NodeLease) : bool := negb (l_node_id l =? 0)%nat.

Definition slot_label (node_id : nat) (ip : option text) (route : RoutePath) (link : option LinkBinding) : text :=
  match ip, route with
  | Some ip, _ => ip
  | None, _ =>
      if (node_id =? 0)%nat then lit "SYS" else
      match route with
      | RProxy ManualFields => lit "PROXY:manual"
      | RProxy System => lit "PROXY:system"
      | RLink index => match link with Some l => link_label l | None => lit "NIC:#" ++ show_nat index end
      | RDirect => lit "DIRECT"
      end
  end.
Definition describe (l : NodeLease) : text := slot_label (l_node_id l) (l_ip l) (l_route l) (l_link l).

(** ** Construction *)

Definition build (host : text) (template has_db : bool) (task_id : text) (has_sink : bool) (slots : list NodeSlot) : NodePool :=
  mk_pool host template has_db task_id has_sink false 1 SYS_FALLBACK_BUDGET slots false None [] ∅ [] [] [] [] [].

Definition single : NodePool := build [] false false [] false [new_slot None RDirect true None].

(** [lookup_ewma] gives the stored estimates, [origins] the source of each address. *)
Definition multi (host : text) (candidates : list text) (origins : gmap text text)
    (lookup_ewma : text -> option f64) (task_id : text) (has_sink : bool) : NodePool :=
  build host true true task_id has_sink
    (new_slot None RDirect true None ::
     map (fun ip => set_origin (default [] (origins !! ip)) (new_slot (Some ip) RDirect false (lookup_ewma ip))) candidates).

Definition alternate_slot (alt : RoutePath * option f64) : NodeSlot :=
  set_cold (bool_decide (alt.2 = None)) (new_slot None alt.1 true alt.2).

Definition take_off (route : RoutePath) (prior : option f64) (s : NodeSlot) : NodeSlot :=
  let s := set_route route s in match prior with Some v => set_ewma v s | None => s end.

Definition add_paths (sys_route : RoutePath) (sys_prior : option f64) (alternates : list (RoutePath * option f64))
    (p : NodePool) : NodePool :=
  set_slots (alter (take_off sys_route sys_prior) 0%nat (slots p) ++ map alternate_slot alternates) p.

Definition link_slot (l : LinkBinding) : NodeSlot :=
  set_link (Some l) (set_origin (default [] (local_ip l)) (set_cold true (new_slot None (RLink (k_index l)) true None))).

Fixpoint add_links (links : list LinkBinding) (p : NodePool) : NodePool :=
  match links with
  | [] => p
  | l :: links =>
      if existsb (fun s => bool_decide (s_route s = RLink (k_index l))) (slots p) then add_links links p
      else add_links links (set_slots (slots p ++ [link_slot l]) p)
  end.

(** ** Questions *)

Definition sys_route (ss : list NodeSlot) : RoutePath := match ss with s :: _ => s_route s | [] => RDirect end.

Definition link_outstanding (p : NodePool) (node_id : nat) : option Z :=
  let* s := slots p !! node_id in if is_link (s_route s) then Some (outstanding s) else None.
Definition is_multi (p : NodePool) : bool := (1 <? length (slots p))%nat.
Definition is_multipath (p : NodePool) : bool := (1 <? length (filter (fun s => kicked s = false) (slots p)))%nat.
Definition alternate_alive (ss : list NodeSlot) (start : RoutePath) : bool :=
  existsb (fun s => negb (kicked s) && negb (bool_decide (s_route s = start))) ss.
Definition sys_fallback_available (p : NodePool) : bool :=
  (0 <? sys_fallback_budget p) && alternate_alive (slots p) (sys_route (slots p)).
Definition has_idle_cold_path (p : NodePool) : bool :=
  existsb (fun s => cold s && negb (kicked s) && (outstanding s =? 0)) (slots p).
Definition has_links (ss : list NodeSlot) : bool := existsb (fun s => is_link (s_route s)) ss.
Definition alternates_explored (p : NodePool) : bool :=
  existsb (fun s => negb (bool_decide (s_route s = sys_route (slots p))) && ever_leased s) (slots p).
Definition live_conns (p : NodePool) : list LiveConn := (map_to_list (live p)).*2.

Definition node_info (i : nat) (s : NodeSlot) : CdnNodeInfo :=
  mk_info (slot_label i (ip s) (s_route s) (link s)) (origin s) (Z.min (bytes_done s) i64_max)
          (f64_to_i64 (ewma_bps s)) (Z.min (outstanding s) i32_max).
Definition node_stats (p : NodePool) : list CdnNodeInfo := imap node_info (slots p).

Definition best_measured_rate (p : NodePool) : option f64 :=
  max_by f64_total_cmp
    (filter (fun v => f64_gt v f64_zero = true)
      (map score (filter (fun s => kicked s = false /\ evidence s = true) (slots p)))).

Definition path_estimates (p : NodePool) : list (RoutePath * f64) :=
  map (fun s => (s_route s, ewma_bps s))
    (filter (fun s => ip s = None /\ 0 < measured_windows s /\ f64_gt (ewma_bps s) f64_zero = true
      /\ s_route s ∉ path_failures_noted p) (slots p)).

(** ** Accounts of bytes *)

Fixpoint add_route (r : RoutePath) (bytes : Z) (acc : list (RoutePath * Z)) : list (RoutePath * Z) :=
  match acc with
  | [] => [(r, bytes)]
  | (r', total) :: acc =>
      if decide (r' = r) then (r', sat_add_u64 total bytes) :: acc else (r', total) :: add_route r bytes acc
  end.

(** The parts of the transfer an account adds up: finished leases by slot, then
    leases in flight, [live] naming their slot. *)
Definition parts (p : NodePool) (live : list (nat * Z)) : list (NodeSlot * Z) :=
  map (fun s => (s, bytes_done s)) (slots p) ++
  omap (fun '(i, bytes) => match slots p !! i with Some s => Some (s, bytes) | None => None end) live.

Definition route_bytes (p : NodePool) (live : list (nat * Z)) : list (RoutePath * Z) :=
  foldl (fun acc '(s, bytes) => add_route (s_route s) bytes acc) [] (parts p live).

Record SourceBytes := mk_source { b_proxy : Z; b_nic : Z; b_cdn : Z }.
Definition sat_add_i64 (a b : Z) : Z := clamp i64_min i64_max (a + b).
Definition add_source (acc : SourceBytes) '((s, bytes) : NodeSlot * Z) : SourceBytes :=
  let bytes := Z.min bytes i64_max in
  match s_route s, ip s with
  | RProxy _, _ => mk_source (sat_add_i64 (b_proxy acc) bytes) (b_nic acc) (b_cdn acc)
  | RLink _, _ => mk_source (b_proxy acc) (sat_add_i64 (b_nic acc) bytes) (b_cdn acc)
  | RDirect, Some _ => mk_source (b_proxy acc) (b_nic acc) (sat_add_i64 (b_cdn acc) bytes)
  | RDirect, None => acc
  end.
Definition source_bytes (p : NodePool) (live : list (nat * Z)) : SourceBytes :=
  foldl add_source (mk_source 0 0 0) (parts p live).

(** ** Events *)

Definition kick_event (p : NodePool) (label reason : text) (count : Z) : TaskCdnEvent :=
  mk_event (task_id p) (lit "kick") (host p) [] label reason (wrap_i32 count).

Definition too_soon (now : Z) (p : NodePool) : bool :=
  match last_leases_emit p with Some last => Z.max (now - last) 0 <? LEASES_EMIT_MIN_GAP | None => false end.

(** The snapshot of the leases: on change, and not twice within the gap. *)
Definition leases_event_locked (now : Z) (p : NodePool) : NodePool * option TaskCdnEvent :=
  if (length (slots p) <? 2)%nat || (negb (has_sink p) && negb (has_links (slots p))) then (p, None) else
  let sig := map outstanding (slots p) in
  if bool_decide (sig = last_leases_sig p) then (p, None) else
  if too_soon now p then (p, None) else
    let p := set_last_sig sig (set_last_emit (Some now) p) in
    let nodes := map (fun x => node_info x.1 x.2)
      (filter (fun x => kicked x.2 = false \/ 0 < outstanding x.2) (imap pair (slots p))) in
    (p, Some (mk_event (task_id p) (lit "leases") (host p) nodes [] [] 0)).

Definition emit_all (events : list TaskCdnEvent) (p : NodePool) : NodePool :=
  match events with
  | [] => p
  | _ =>
      if has_sink p then set_out (p_out p ++ map Emitted events) p
      else if has_links (slots p) then set_deferred (deferred p ++ events) p
      else p
  end.

Definition take_deferred_events (p : NodePool) : list TaskCdnEvent * NodePool := (deferred p, set_deferred [] p).

Definition is_pinned (s : NodeSlot) : bool := match ip s with Some _ => true | None => false end.
Definition kicked_pinned (ss : list NodeSlot) : nat := length (filter (fun s => is_pinned s = true /\ kicked s = true) ss).
Definition alive_pinned (ss : list NodeSlot) : nat := length (filter (fun s => is_pinned s = true /\ kicked s = false) ss).

(** The breaker of the host's aggregation. *)
Definition check_breaker (p : NodePool) : NodePool * option TaskCdnEvent :=
  if no_aggregate_recorded p then (p, None) else
  if (alive_pinned (slots p) <? kicked_pinned (slots p))%nat then
    let p := set_no_aggregate true p in
    let p := if has_db p then send NoAggregateRecorded p else p in
    (p, Some (mk_event (task_id p) (lit "breaker") (host p) [] [] [] 0))
  else (p, None).

(** ** Choosing a slot *)

(** Slots under consideration, with their numbers. *)
Abbreviation candidates := (list (nat * NodeSlot)).

Definition f64_sum (l : list f64) : f64 := foldl f64_add f64_neg_zero l.

Definition best_rate (known : candidates) : f64 := foldl f64_max f64_zero (map (fun x => ewma_bps x.2) known).
Definition competitive (known : candidates) : candidates :=
  filter (fun x => is_competitive (ewma_bps x.2) (best_rate known) = true) known.
Definition total_outstanding (l : candidates) : Z := foldr Z.add 0 (map (fun x => outstanding x.2) l).
Definition lease_cap (l : candidates) : Z := div_ceil (total_outstanding l + 1) (Z.of_nat (length l)).

Definition better (a b : nat * NodeSlot) : bool :=
  f64_gt (score a.2) (score b.2)
  || (f64_eq (score a.2) (score b.2)
      && ((outstanding a.2 <? outstanding b.2)
          || ((outstanding a.2 =? outstanding b.2) && (a.1 <? b.1)%nat))).

Definition pick_best (first : nat * NodeSlot) (rest : candidates) : nat * NodeSlot :=
  foldl (fun chosen x => if better x chosen then x else chosen) first rest.

Definition pick_shared (known : candidates) : nat :=
  match competitive known with
  | [] => 0%nat
  | comp =>
      let under_cap := filter (fun x => outstanding x.2 < lease_cap comp) comp in
      match (match under_cap with [] => comp | _ => under_cap end) with
      | x :: rest => (pick_best x rest).1
      | [] => 0%nat
      end
  end.

Definition link_round (acc : nat * f64) (x : nat * NodeSlot) : nat * f64 :=
  let marginal := link_marginal (slot_capacity x.2) (outstanding x.2) in
  if f64_gt marginal acc.2 then (x.1, marginal) else acc.

Definition pick_across_links (shared_choice : nat) (primary_capacity : f64) (primary_outstanding : Z)
    (links : candidates) (explore : bool) : nat :=
  let total_capacity := f64_add primary_capacity (f64_sum (map (fun x => slot_capacity x.2) links)) in
  match (if explore then
           find (fun x => (outstanding x.2 =? 0)
                   && f64_ge (slot_capacity x.2) (f64_mul LINK_FLOOR_SHARE total_capacity)) links
         else None) with
  | Some idle => idle.1
  | None =>
      (foldl link_round (shared_choice, link_marginal primary_capacity primary_outstanding) links).1
  end.

Definition usable (allow_alternates : bool) (ss : list NodeSlot) : candidates :=
  filter (fun x => x.1 = 0%nat \/ (kicked x.2 = false /\ (allow_alternates = true \/ s_route x.2 = sys_route ss)))
    (imap pair ss).

Definition pick (ss : list NodeSlot) (allow_alternates explore : bool) : nat :=
  let usable := usable allow_alternates ss in
  match (if explore then find (fun x => cold x.2 && (outstanding x.2 =? 0)) usable else None) with
  | Some x => x.1
  | None =>
      let warm := filter (fun x => cold x.2 = false) usable in
      let links := filter (fun x => is_link (s_route x.2) = true) warm in
      let shared := filter (fun x => is_link (s_route x.2) = false) warm in
      let primary_capacity := f64_sum (map (fun x => slot_capacity x.2) shared) in
      let chosen := pick_shared shared in
      match links with
      | [] => chosen
      | _ => pick_across_links chosen primary_capacity (total_outstanding shared) links explore
      end
  end.

(** ** Leasing *)

(** One round of the loop of [lease_for]: the chosen slot and whether its client
    exists, or the pool after the slot was banned.  [can_build] says whether
    building the client of a slot succeeds; [None] where indexing would panic. *)
Definition ban_unbuilt (chosen : nat) (s : NodeSlot) (events : list TaskCdnEvent) (p : NodePool)
    : NodePool * list TaskCdnEvent :=
  let p := on_slot chosen (set_kicked true) p in
  let events := match ip s with Some ip => events ++ [kick_event p ip (lit "build") 0] | None => events end in
  let '(p, evt) := check_breaker p in
  (p, events ++ option_list evt).

Fixpoint choose_node (fuel : nat) (allow_alternates explore : bool) (can_build : nat -> bool)
    (events : list TaskCdnEvent) (p : NodePool) : option (nat * NodePool * list TaskCdnEvent) :=
  match fuel with
  | O => None
  | S fuel =>
      let chosen := pick (slots p) allow_alternates explore in
      let* s := slots p !! chosen in
      if client s || (template p && is_pinned s && can_build chosen) then
        Some (chosen, on_slot chosen (fun s => set_leased true (set_outstanding (outstanding s + 1) (set_client true s))) p, events)
      else
        let '(p, events) := ban_unbuilt chosen s events p in
        choose_node fuel allow_alternates explore can_build events p
  end.

Definition lease_of (p : NodePool) (node_id : nat) (s : NodeSlot) : NodeLease :=
  mk_lease node_id (next_lease_id p) (ip s) (s_route s) (link s).

Definition lease_for (r : LeaseRequest) (can_build : nat -> bool) (now : Z) (p : NodePool) : option (NodeLease * NodePool) :=
  let explore := explore p && r_allow_alternates r && (EXPLORE_MIN_PIECE <=? r_bytes r) in
  let* (node_id, p, events) := choose_node (S (length (slots p))) (r_allow_alternates r) explore can_build [] p in
  let* s := slots p !! node_id in
  let lease := lease_of p node_id s in
  let conn := mk_conn (next_lease_id p) node_id (r_seg_index r) (r_start_downloaded r) now (r_cancel r) in
  let p := set_live (<[next_lease_id p := conn]> (live p)) (set_next_lease (next_lease_id p + 1) p) in
  let '(p, evt) := leases_event_locked now p in
  Some (lease, emit_all (events ++ option_list evt) p).

(** [Drop for NodeLease]. *)
Definition drop_lease (l : NodeLease) (now : Z) (p : NodePool) : NodePool :=
  let p := set_live (delete (l_lease_id l) (live p)) p in
  let p := on_slot (l_node_id l) (fun s => set_outstanding (Z.max (outstanding s - 1) 0) s) p in
  let '(p, evt) := leases_event_locked now p in
  emit_all (option_list evt) p.

(** ** Failures *)

(** [DownloadError]; a request's error carries how the library's error
    classifies ([net_failure::classify]). *)
Inductive DownloadError :=
| ERequest (class : option NetFailure) (msg : text)
| EIo (msg : text)
| EDb (msg : text)
| ECancelled
| EChecksumMismatch (msg : text)
| ERangeNotSupported (msg : text)
| EVersionChanged (msg : text)
| ERangeMisaligned (msg : text)
| ETrueSizeLarger (total : Z)
| ECdnNodeFailed (msg : text)
| EEd2k (msg : text)
| EEd2kIntegrity (msg : text)
| ENotAnHlsPlaylist (msg : text)
| EPluginAbort (msg : text)
| EOther (msg : text).

Definition is_validator_mismatch (e : DownloadError) : bool :=
  match e with
  | EVersionChanged _ => true
  | EOther msg => contains (lit "validator mismatch") msg
  | _ => false
  end.

Definition is_node_attributable (e : DownloadError) : bool :=
  match e with
  | ERequest _ _ => true
  | EOther msg => contains (lit "stalled") msg || is_validator_mismatch e
  | _ => is_validator_mismatch e
  end.

Definition is_engine_stall (msg : text) : bool := contains (lit " stalled: ") msg.

Definition classify_download_error (e : DownloadError) : option NetFailure :=
  match e with
  | ERequest class _ => class
  | EOther msg | ECdnNodeFailed msg =>
      match tag_of msg with
      | Some f => Some f
      | None => if is_engine_stall msg then Some Stalled else None
      end
  | _ => None
  end.

(** A failure of a path is noted once per task. *)
Definition note_path_failure (r : RoutePath) (p : NodePool) : NodePool :=
  if is_link r || bool_decide (r ∈ path_failures_noted p) then p
  else set_path_failures (path_failures p ++ [r]) (set_noted (path_failures_noted p ++ [r]) p).

Definition try_sys_transport_fallback (p : NodePool) : bool * NodePool :=
  let start := sys_route (slots p) in
  if negb (alternate_alive (slots p) start) then (false, p)
  else if sys_fallback_budget p <? 1 then (false, p)
  else (true, send FallbackGranted (note_path_failure start (set_budget (sys_fallback_budget p - 1) p))).

(** [Duration::as_secs_f64] of a duration in nanoseconds. *)
Definition as_secs_f64 (nanos : Z) : f64 :=
  f64_add (f64_of_Z (nanos / 10 ^ 9)) (f64_div (f64_of_Z (nanos mod 10 ^ 9)) (f64_of_Z (10 ^ 9))).

Definition report_ok (l : NodeLease) (bytes elapsed : Z) (p : NodePool) : NodePool :=
  let p := on_slot (l_node_id l) (set_streak 0) p in
  if (MIN_SAMPLE_BYTES <=? bytes) && negb (elapsed =? 0) then
    let rate := f64_div (f64_of_Z bytes) (as_secs_f64 elapsed) in
    let sample s :=
      if measured_windows s =? 0 then
        set_evidence true (set_cold false (set_ewma
          (if cold s then rate
           else f64_add (f64_mul (f64_sub (f64_of_Z 1) EWMA_ALPHA) (ewma_bps s)) (f64_mul EWMA_ALPHA rate)) s))
      else s in
    let p := on_slot (l_node_id l) sample p in
    match slots p !! l_node_id l with
    | Some s =>
        match ip s with
        | Some ip =>
            if has_db p then
              send (SegmentRecorded ip (Some (f64_to_int 0 u64_max rate)) true) (send (EwmaRecorded ip (ewma_bps s)) p)
            else p
        | None => p
        end
    | None => p
    end
  else p.

(** What the coordinator will learn of a ban: the proxy that served another
    version, the path of the Auto mode that failed. *)
Definition remember_kick (s : NodeSlot) (e : DownloadError) (p : NodePool) : NodePool :=
  let p := if is_validator_mismatch e && is_proxy (s_route s)
           then set_validator_kicked (validator_kicked p ++ [s_route s]) p else p in
  if negb (is_pinned s) && bool_decide (link s = None) && bool_decide (is_Some (classify_download_error e))
  then note_path_failure (s_route s) p else p.

(** The ban of a slot that failed. *)
Definition kick_slot (l : NodeLease) (e : DownloadError) (p : NodePool) : NodePool * list TaskCdnEvent :=
  match slots p !! l_node_id l with
  | None => (p, [])
  | Some s =>
      let immediate := is_validator_mismatch e in
      let p := on_slot (l_node_id l) (set_kicked true) p in
      let p := match link s with
               | Some k => if immediate then p else send (LinkFailureRecorded k) p
               | None => p
               end in
      let events :=
        if is_pinned s || bool_decide (is_Some (link s)) then
          [if immediate then kick_event p (describe l) (lit "validator") 0
           else kick_event p (describe l) (lit "fail") (fail_streak s)]
        else [] in
      let '(p, evt) := check_breaker p in
      let p := remember_kick s e p in
      (p, events ++ option_list evt)
  end.

Definition report_err (l : NodeLease) (e : DownloadError) (p : NodePool) : NodePool :=
  match slots p !! l_node_id l with
  | None => p
  | Some s =>
      let s := set_streak (fail_streak s + 1) s in
      let p := on_slot (l_node_id l) (set_streak (fail_streak s)) p in
      let should_kick := negb (l_node_id l =? 0)%nat && (is_validator_mismatch e || (KICK_STREAK <=? fail_streak s)) in
      let p := match ip s with
               | Some ip =>
                   if has_db p then send (SegmentRecorded ip None false) (send (EwmaRecorded ip (score s)) p) else p
               | None => p
               end in
      if should_kick then let '(p, events) := kick_slot l e p in emit_all events p else p
  end.

(** The result of a segment: [Ok(())] or the error. *)
Definition report (l : NodeLease) (bytes elapsed : Z) (outcome : result unit DownloadError) (p : NodePool) : NodePool :=
  match outcome with Ok _ => report_ok l bytes elapsed p | Err e => report_err l e p end.

Definition record_transfer (l : NodeLease) (bytes : Z) (p : NodePool) : NodePool :=
  on_slot (l_node_id l) (fun s => set_bytes (sat_add_u64 (bytes_done s) bytes) s) p.

Definition preempt (lease_id : Z) (p : NodePool) : bool * NodePool :=
  match live p !! lease_id with
  | Some c => (true, send (TokenCancelled (c_cancel c)) p)
  | None => (false, p)
  end.

(** ** Measurements *)

Definition valid_sample (bps : f64) : bool := f64_is_finite bps && f64_ge bps f64_zero.

(** The samples of one slot; the hash map of the code has no order, here the
    slots come in the order of their first valid sample. *)
Definition samples_of (samples : list (nat * f64)) (node_id : nat) : list f64 :=
  (filter (fun x => x.1 = node_id /\ valid_sample x.2 = true) samples).*2.

Definition observe_slot (values : list f64) (med : f64) (count_conns : bool) (s : NodeSlot) : NodeSlot :=
  let s' := set_windows (sat_add_u32 (measured_windows s) 1)
              (set_ewma (blend_rate (ewma_bps s) med (measured_windows s =? 0)) s) in
  let s' := if count_conns then set_conns (Z.min (Z.of_nat (length values)) u32_max) s' else s' in
  set_evidence true (set_cold false s').

Definition observe_node (samples : list (nat * f64)) (count_conns : bool) (p : NodePool) (node_id : nat) : NodePool :=
  let values := samples_of samples node_id in
  match median values with
  | None => p
  | Some med =>
      let p := on_slot node_id (observe_slot values med count_conns) p in
      match slots p !! node_id with
      | Some s =>
          match ip s with
          | Some ip => if has_db p then send (EwmaRecorded ip (ewma_bps s)) p else p
          | None => p
          end
      | None => p
      end
  end.

Definition observe (samples : list (nat * f64)) (count_conns : bool) (p : NodePool) : NodePool :=
  foldl (observe_node samples count_conns) p
    (remove_dups (filter (fun x => valid_sample x.2 = true) samples).*1).
Definition observe_window (samples : list (nat * f64)) : NodePool -> NodePool := observe samples true.
Definition observe_stalled (samples : list (nat * f64)) : NodePool -> NodePool := observe samples false.

Definition take_validator_kicks (p : NodePool) : list RoutePath * NodePool :=
  (validator_kicked p, set_validator_kicked [] p).
Definition take_path_failures (p : NodePool) : list RoutePath * NodePool :=
  (path_failures p, send (PathFailuresTaken (path_failures p)) (set_path_failures [] p)).

(** ** The life of a pool *)

Inductive Op :=
| OpAddPaths (route : RoutePath) (prior : option f64) (alternates : list (RoutePath * option f64))
| OpAddLinks (links : list LinkBinding)
| OpSetExplore (enabled : bool)
| OpLease (r : LeaseRequest) (can_build : nat -> bool) (now : Z)
| OpReport (l : NodeLease) (bytes elapsed : Z) (outcome : result unit DownloadError)
| OpTransfer (l : NodeLease) (bytes : Z)
| OpDrop (l : NodeLease) (now : Z)
| OpObserve (samples : list (nat * f64)) (count_conns : bool)
| OpPreempt (lease_id : Z)
| OpFallback
| OpTakeDeferred
| OpTakeValidatorKicks
| OpTakePathFailures.

Definition exec (op : Op) (p : NodePool) : option NodePool :=
  match op with
  | OpAddPaths route prior alternates => Some (add_paths route prior alternates p)
  | OpAddLinks links => Some (add_links links p)
  | OpSetExplore enabled => Some (set_explore_flag enabled p)
  | OpLease r can_build now => let* x := lease_for r can_build now p in Some x.2
  | OpReport l bytes elapsed outcome => Some (report l bytes elapsed outcome p)
  | OpTransfer l bytes => Some (record_transfer l bytes p)
  | OpDrop l now => Some (drop_lease l now p)
  | OpObserve samples count_conns => Some (observe samples count_conns p)
  | OpPreempt lease_id => Some (preempt lease_id p).2
  | OpFallback => Some (try_sys_transport_fallback p).2
  | OpTakeDeferred => Some (take_deferred_events p).2
  | OpTakeValidatorKicks => Some (take_validator_kicks p).2
  | OpTakePathFailures => Some (take_path_failures p).2
  end.

(** A lease is used by its holder, between [lease_for] and its drop. *)
Definition held (l : NodeLease) (p : NodePool) : Prop :=
  exists c, live p !! l_lease_id l = Some c /\ c_node_id c = l_node_id l.

Definition prior_ok (prior : option f64) : Prop := match prior with Some v => f64_nonneg v | None => True end.

(** How the coordinator and the workers call the pool: leases by their holders,
    paths of the Auto mode that are no links, estimates that are rates. *)
Definition op_ok (op : Op) (p : NodePool) : Prop :=
  match op with
  | OpAddPaths route prior alternates =>
      is_link route = false /\ prior_ok prior /\
      Forall (fun a => is_link a.1 = false /\ prior_ok a.2) alternates
  | OpReport l bytes elapsed _ => held l p /\ is_u64 bytes /\ 0 <= elapsed
  | OpTransfer l bytes => held l p /\ is_u64 bytes
  | OpDrop l _ => held l p
  | OpObserve samples _ => Forall (fun x => x.2 <> f64_neg_zero) samples
  | _ => True
  end.

(** A pool as it is built: [single] or [multi]. *)
Inductive built : NodePool -> Prop :=
| built_single : built single
| built_multi host candidates origins lookup_ewma task_id has_sink :
    (forall ip v, lookup_ewma ip = Some v -> f64_nonneg v) ->
    built (multi host candidates origins lookup_ewma task_id has_sink).

Inductive reachable : NodePool -> Prop :=
| reach_built p : built p -> reachable p
| reach_step p op p' : reachable p -> op_ok op p -> exec op p = Some p' -> reachable p'.

(** ** The invariant *)

Definition on_node (i : nat) (x : Z * LiveConn) : Prop := c_node_id x.2 = i.
#[global] Instance on_node_dec i x : Decision (on_node i x).
Proof. unfold on_node. apply _. Defined.
Definition leases_on (i : nat) (p : NodePool) : Z := Z.of_nat (size (filter (on_node i) (live p))).

Definition slot_ok (s : NodeSlot) : Prop :=
  (ip s = None -> client s = true) /\ f64_nonneg (ewma_bps s)
  /\ (is_link (s_route s) = true <-> link s <> None) /\ (link s <> None -> ip s = None)
  /\ 0 <= measured_windows s /\ 0 <= bytes_done s.

Definition sys_ok (s : NodeSlot) : Prop :=
  kicked s = false /\ cold s = false /\ ip s = None /\ link s = None.

Definition is_granted (o : Out) : bool := match o with FallbackGranted => true | _ => false end.
Definition is_break (o : Out) : bool := match o with NoAggregateRecorded => true | _ => false end.
Definition granted (out : list Out) : Z := Z.of_nat (length (filter (fun o => is_granted o = true) out)).
Definition breaks (out : list Out) : nat := length (filter (fun o => is_break o = true) out).
Fixpoint taken (out : list Out) : list RoutePath :=
  match out with
  | [] => []
  | PathFailuresTaken rs :: out => rs ++ taken out
  | _ :: out => taken out
  end.

(** The invariant of one critical section, and what holds between two: a host
    with more banned than usable nodes has been reported. *)
Record pool_inv (p : NodePool) : Prop := mk_pool_inv {
  po_sys : exists s, slots p !! 0%nat = Some s /\ sys_ok s;
  po_slots : Forall slot_ok (slots p);
  po_counts i s : slots p !! i = Some s -> outstanding s = leases_on i p;
  po_live id c : live p !! id = Some c -> c_lease_id c = id /\ id < next_lease_id p /\ (c_node_id c < length (slots p))%nat;
  po_breaker : no_aggregate_recorded p = true -> (alive_pinned (slots p) < kicked_pinned (slots p))%nat;
  po_breaks : breaks (p_out p) = if no_aggregate_recorded p && has_db p then 1%nat else 0%nat;
  po_budget : 0 <= sys_fallback_budget p /\ sys_fallback_budget p + granted (p_out p) = SYS_FALLBACK_BUDGET;
  po_failures : path_failures_noted p = taken (p_out p) ++ path_failures p /\ NoDup (path_failures_noted p)
    /\ Forall (fun r => is_link r = false) (path_failures_noted p) }.

Definition reported (p : NodePool) : Prop :=
  (alive_pinned (slots p) < kicked_pinned (slots p))%nat -> no_aggregate_recorded p = true.
Definition pool_ok (p : NodePool) : Prop := pool_inv p /\ reported p.

(** *** Choosing *)

Definition may_use (allow_alternates : bool) (ss : list NodeSlot) (i : nat) (s : NodeSlot) : Prop :=
  i = 0%nat \/ (kicked s = false /\ (allow_alternates = true \/ s_route s = sys_route ss)).

Lemma usable_spec aa ss x : x ∈ usable aa ss <-> ss !! x.1 = Some x.2 /\ may_use aa ss x.1 x.2.
Proof.
  unfold usable, may_use. rewrite list_elem_of_filter. destruct x as [i s]. simpl.
  rewrite elem_of_lookup_imap. split.
  - intros [H (j & y & [= <- <-] & Hy)]. auto.
  - intros [H1 H2]. split; [done|]. eauto.
Qed.

(** The slot that [pick] returns: the first one, or one it may use that is warm,
    or idle while exploration is on. *)
Definition picked (aa explore : bool) (ss : list NodeSlot) (i : nat) : Prop :=
  i = 0%nat \/ exists s, ss !! i = Some s /\ may_use aa ss i s /\ (cold s = true -> explore = true /\ outstanding s = 0).

Lemma pick_best_elem x rest : pick_best x rest ∈ x :: rest.
Proof.
  unfold pick_best. revert x. induction rest as [|y rest IH]; intros x; simpl; [set_solver|].
  destruct (better y x).
  - pose proof (IH y). set_solver.
  - pose proof (IH x). set_solver.
Qed.

Lemma pick_shared_elem known : pick_shared known = 0%nat \/ exists s, (pick_shared known, s) ∈ known.
Proof.
  unfold pick_shared. destruct (competitive known) as [|c0 cs] eqn:Ec; [auto|].
  set (comp := c0 :: cs) in *.
  assert (Hsub : forall x, x ∈ comp -> x ∈ known).
  { intros x. rewrite <- Ec. unfold competitive. rewrite list_elem_of_filter. tauto. }
  cbv zeta. set (under := filter _ comp).
  assert (Hu : forall x, x ∈ under -> x ∈ comp) by (intros x; unfold under; rewrite list_elem_of_filter; tauto).
  destruct under as [|u us]; simpl.
  - right. exists (pick_best c0 cs).2. rewrite <- surjective_pairing. apply Hsub, pick_best_elem.
  - right. exists (pick_best u us).2. rewrite <- surjective_pairing. apply Hsub, Hu, pick_best_elem.
Qed.

Lemma pick_links_elem links acc :
  (foldl link_round acc links).1 = acc.1 \/ exists s, ((foldl link_round acc links).1, s) ∈ links.
Proof.
  revert acc. induction links as [|[i s] links IH]; intros acc; simpl; [auto|].
  unfold link_round at 2 4. simpl. destruct (f64_gt _ _).
  - destruct (IH (i, link_marginal (slot_capacity s) (outstanding s))) as [->|[t Ht]]; right; [exists s|exists t]; set_solver.
  - destruct (IH acc) as [->|[t Ht]]; [auto|]. right. exists t. set_solver.
Qed.

Lemma pick_spec aa explore ss : picked aa explore ss (pick ss aa explore).
Proof.
  unfold picked, pick.
  destruct (if explore then find _ _ else None) as [x|] eqn:Ef.
  { destruct explore; [|done].
    apply List.find_some in Ef as [Hin Hc]. apply list_elem_of_In, usable_spec in Hin as [Hs Hm]. bool_hyps.
    right. exists x.2. split; [done|]. split; [done|]. auto. }
  clear Ef. set (warm := filter (fun x => cold x.2 = false) (usable aa ss)).
  assert (Hw : forall i s, (i, s) ∈ warm -> exists s, ss !! i = Some s /\ may_use aa ss i s /\ (cold s = true -> explore = true /\ outstanding s = 0)).
  { intros i s. unfold warm. rewrite list_elem_of_filter, usable_spec. simpl. intros (Hc & Hs & Hm).
    exists s. split; [done|]. split; [done|]. congruence. }
  set (links := filter _ warm). set (shared := filter _ warm).
  assert (Hl : forall x, x ∈ links -> x ∈ warm) by (intros x; unfold links; rewrite list_elem_of_filter; tauto).
  assert (Hsh : forall x, x ∈ shared -> x ∈ warm) by (intros x; unfold shared; rewrite list_elem_of_filter; tauto).
  assert (Hp : pick_shared shared = 0%nat \/ exists s, (pick_shared shared, s) ∈ warm).
  { destruct (pick_shared_elem shared) as [->|[s Hs]]; eauto. }
  assert (Hres : pick_shared shared = 0%nat \/ exists s, ss !! pick_shared shared = Some s /\ may_use aa ss (pick_shared shared) s /\ (cold s = true -> explore = true /\ outstanding s = 0)).
  { destruct Hp as [->|[s Hs]]; eauto. }
  destruct links as [|l0 ls] eqn:El; [done|]. rewrite <- El in *. clear El.
  unfold pick_across_links. destruct (if explore then find _ _ else None) as [x|] eqn:Ef.
  { destruct explore; [|done]. apply List.find_some in Ef as [Hin _]. apply list_elem_of_In, Hl in Hin.
    destruct x as [i s]. right. eauto. }
  destruct (pick_links_elem links (pick_shared shared,
    link_marginal (f64_sum (map (fun x => slot_capacity x.2) shared)) (total_outstanding shared))) as [->|[s Hs]]; [done|].
  right. eauto.
Qed.

(** [better] is a strict order: a slot that nothing beats is the best. *)
Definition scored (x : nat * NodeSlot) : Prop := f64_is_nan (score x.2) = false.

Lemma better_spec a b : scored a -> scored b ->
  better a b = true <->
  rank_lt (f64_rank (score b.2)) (f64_rank (score a.2))
  \/ (f64_rank (score a.2) = f64_rank (score b.2)
      /\ (outstanding a.2 < outstanding b.2 \/ (outstanding a.2 = outstanding b.2 /\ (a.1 < b.1)%nat))).
Proof.
  intros Ha Hb. unfold better. change (f64_gt (score a.2) (score b.2)) with (f64_lt (score b.2) (score a.2)).
  rewrite orb_true_iff, andb_true_iff, orb_true_iff, andb_true_iff, Z.ltb_lt, Z.eqb_eq, Nat.ltb_lt.
  rewrite f64_lt_rank, f64_eq_rank by done. tauto.
Qed.

Lemma better_irrefl a : scored a -> better a a = false.
Proof.
  intros Ha. destruct (better a a) eqn:E; [|done]. apply better_spec in E; [|done..]. unfold rank_lt in E. lia.
Qed.

Lemma better_asym a b : scored a -> scored b -> better a b = true -> better b a = false.
Proof.
  intros Ha Hb H. apply not_true_iff_false. rewrite better_spec in * by done. unfold rank_lt in *.
  destruct H as [H|[H ?]]; intros [H'|[H' ?]]; rewrite ?H in *; rewrite ?H' in *; lia.
Qed.

Lemma better_negtrans a b c : scored a -> scored b -> scored c ->
  better a b = false -> better b c = false -> better a c = false.
Proof.
  intros Ha Hb Hc H1 H2. apply not_true_iff_false in H1, H2. apply not_true_iff_false.
  rewrite better_spec in * by done. unfold rank_lt in *.
  destruct (f64_rank (score a.2)) as [x1 [x2 x3]], (f64_rank (score b.2)) as [y1 [y2 y3]],
    (f64_rank (score c.2)) as [z1 [z2 z3]]. simpl in *.
  intros [H|[[= -> -> ->] H]].
  - assert ((x1, (x2, x3)) = (y1, (y2, y3)) \/ x1 <> y1 \/ x2 <> y2 \/ x3 <> y3) as [[= -> -> ->]|]
      by (destruct (decide (x1 = y1)), (decide (x2 = y2)), (decide (x3 = y3)); subst; auto); [|lia].
    lia.
  - assert ((z1, (z2, z3)) = (y1, (y2, y3)) \/ z1 <> y1 \/ z2 <> y2 \/ z3 <> y3) as [[= -> -> ->]|]
      by (destruct (decide (z1 = y1)), (decide (z2 = y2)), (decide (z3 = y3)); subst; auto); [|lia].
    assert (~ (outstanding a.2 < outstanding b.2 \/ (outstanding a.2 = outstanding b.2 /\ (a.1 < b.1)%nat))) by tauto.
    assert (~ (outstanding b.2 < outstanding c.2 \/ (outstanding b.2 = outstanding c.2 /\ (b.1 < c.1)%nat))) by tauto.
    lia.
Qed.

Lemma pick_best_max x rest : Forall scored (x :: rest) -> Forall (fun y => better y (pick_best x rest) = false) (x :: rest).
Proof.
  unfold pick_best. revert x. induction rest as [|y rest IH]; intros x Hs; simpl.
  { apply Forall_singleton, better_irrefl. by apply Forall_inv in Hs. }
  inversion Hs as [|? ? Hx Hr]; subst. inversion Hr as [|? ? Hy Hr']; subst.
  assert (Hsel : forall z, scored z -> z ∈ [x; y] -> Forall scored (z :: rest)) by (intros; by constructor).
  destruct (better y x) eqn:E.
  - specialize (IH y Hr). pose proof (Forall_inv IH) as Hb.
    constructor; [|done].
    apply better_negtrans with y; [done|done| |  |done].
    + pose proof (pick_best_elem y rest) as Hin. rewrite Forall_forall in Hr. by apply Hr.
    + by apply better_asym.
  - specialize (IH x (ltac:(by constructor))). pose proof (Forall_inv IH) as Hb.
    constructor; [done|]. constructor; [|by inversion IH].
    apply better_negtrans with x; [done|done| |done|done].
    pose proof (pick_best_elem x rest) as Hin. assert (Hxr : Forall scored (x :: rest)) by (by constructor).
    rewrite Forall_forall in Hxr. by apply Hxr.
Qed.

(** The competition is a reference choice: among the slots at least half as
    fast as the best, those with fewer leases than an even share of one more
    lease; of those the one with the best score, then the fewest leases, then
    the lowest number. *)
Definition best_choice (known : candidates) (x : nat * NodeSlot) : Prop :=
  x ∈ competitive known /\ outstanding x.2 < lease_cap (competitive known)
  /\ forall y, y ∈ competitive known -> outstanding y.2 < lease_cap (competitive known) -> better y x = false.

(** Somebody has less than the even share. *)
Lemma under_cap_exists (l : candidates) : l <> [] -> exists x, x ∈ l /\ outstanding x.2 < lease_cap l.
Proof.
  intros Hne. destruct (decide (Exists (fun x => outstanding x.2 < lease_cap l) l)) as [H|H].
  { apply Exists_exists in H as (x & ? & ?). eauto. }
  apply not_Exists_Forall in H; [|intros x; apply _]. exfalso.
  assert (Hsum : Z.of_nat (length l) * lease_cap l <= total_outstanding l).
  { unfold total_outstanding. set (c := lease_cap l) in *. clearbody c. clear Hne.
    induction H as [|x l Hx _ IH]; [done|].
    cbn [length map foldr]. rewrite Nat2Z.inj_succ. unfold compose in Hx. lia. }
  unfold lease_cap, div_ceil in Hsum. destruct l as [|x0 l0]; [done|]. set (n := Z.of_nat (length (x0 :: l0))) in *.
  assert (0 < n) by (unfold n; simpl; lia).
  set (t := total_outstanding (x0 :: l0)) in *. clearbody n t. Z.div_mod_to_equations. nia.
Qed.

Lemma pick_shared_best known : competitive known <> [] -> Forall scored known ->
  exists s, best_choice known (pick_shared known, s).
Proof.
  intros Hne Hs. unfold best_choice, pick_shared.
  destruct (competitive known) as [|c0 cs] eqn:Ec; [done|]. set (comp := c0 :: cs) in *. cbv zeta.
  assert (Hsc : Forall scored comp).
  { apply Forall_forall. intros x. rewrite <- Ec. unfold competitive. rewrite list_elem_of_filter.
    intros [_ Hx]. rewrite Forall_forall in Hs. auto. }
  destruct (under_cap_exists comp) as (w & Hw & Hwc); [done|].
  set (under := filter _ comp).
  assert (Hu : forall x, x ∈ under <-> outstanding x.2 < lease_cap comp /\ x ∈ comp) by
    (intros x; unfold under; rewrite list_elem_of_filter; tauto).
  destruct under as [|u us]; [by exfalso; eapply not_elem_of_nil, Hu; eauto|].
  assert (Hus : Forall scored (u :: us)).
  { apply Forall_forall. intros x Hx. apply Hu in Hx as [_ Hx]. rewrite Forall_forall in Hsc. auto. }
  pose proof (proj1 (Hu _) (pick_best_elem u us)) as [Hc Hin].
  exists (pick_best u us).2. rewrite <- surjective_pairing. split; [done|]. split; [done|].
  intros y Hy Hyc. pose proof (pick_best_max u us Hus) as Hm. rewrite Forall_forall in Hm. apply Hm, Hu. auto.
Qed.

(** *** Frames *)

(** An output that the invariant does not count. *)
Definition plain_out (o : Out) : bool :=
  match o with FallbackGranted | NoAggregateRecorded | PathFailuresTaken _ => false | _ => true end.

Lemma taken_app out1 out2 : taken (out1 ++ out2) = taken out1 ++ taken out2.
Proof. induction out1 as [|[] out1 IH]; simpl; rewrite ?IH, ?app_assoc; done. Qed.

Lemma granted_app out1 out2 : granted (out1 ++ out2) = granted out1 + granted out2.
Proof. unfold granted. rewrite filter_app, length_app. lia. Qed.

Lemma breaks_app out1 out2 : breaks (out1 ++ out2) = (breaks out1 + breaks out2)%nat.
Proof. unfold breaks. by rewrite filter_app, length_app. Qed.

Lemma plain_outs (out : list Out) : Forall (fun o => plain_out o = true) out ->
  taken out = [] /\ granted out = 0 /\ breaks out = 0%nat.
Proof.
  induction 1 as [|o out Ho _ (IH1 & IH2 & IH3)]; [done|].
  change (o :: out) with ([o] ++ out). rewrite taken_app, granted_app, breaks_app, IH1, IH2, IH3.
  destruct o; done.
Qed.

Lemma sends_inv out p : Forall (fun o => plain_out o = true) out -> pool_inv p -> pool_inv (set_out (p_out p ++ out) p).
Proof.
  intros Ho [H1 H2 H3 H4 H5 H6 H7 H8]. destruct (plain_outs out Ho) as (E1 & E2 & E3).
  constructor; simpl; rewrite ?taken_app, ?granted_app, ?breaks_app, ?E1, ?E2, ?E3, ?app_nil_r, ?Z.add_0_r, ?Nat.add_0_r; done.
Qed.

Lemma send_inv o p : plain_out o = true -> pool_inv p -> pool_inv (send o p).
Proof. intros Ho. apply sends_inv. by constructor. Qed.

(** Changes of a slot that the invariant does not see. *)
Definition benign_at (f : NodeSlot -> NodeSlot) (s : NodeSlot) : Prop :=
  slot_ok (f s) /\ outstanding (f s) = outstanding s /\ kicked (f s) = kicked s
  /\ ip (f s) = ip s /\ link (f s) = link s /\ (cold s = false -> cold (f s) = false).
Definition benign (f : NodeSlot -> NodeSlot) : Prop := forall s, slot_ok s -> benign_at f s.

Lemma filter_alter_length (P : NodeSlot -> Prop) `{!forall s, Decision (P s)} f i (l : list NodeSlot) :
  (forall s, l !! i = Some s -> P s <-> P (f s)) -> length (filter P (alter f i l)) = length (filter P l).
Proof.
  revert i. induction l as [|s l IH]; intros i Hi; [done|]. destruct i as [|i]; simpl.
  - specialize (Hi s eq_refl). rewrite !filter_cons. destruct (decide (P (f s))), (decide (P s)); tauto || done.
  - rewrite !filter_cons. destruct (decide (P s)); simpl; [f_equal|]; apply IH; intros t Ht; by apply Hi.
Qed.

Lemma filter_alter_mono (P : NodeSlot -> Prop) `{!forall s, Decision (P s)} f i (l : list NodeSlot) :
  (forall s, P s -> P (f s)) -> (length (filter P l) <= length (filter P (alter f i l)))%nat.
Proof.
  intros Hp. revert i. induction l as [|s l IH]; intros i; [done|]. destruct i as [|i]; simpl.
  - rewrite !filter_cons. destruct (decide (P (f s))), (decide (P s)); simpl; try lia. naive_solver.
  - rewrite !filter_cons. destruct (decide (P s)); simpl; [apply le_n_S|]; apply IH.
Qed.

Lemma filter_alter_anti (P : NodeSlot -> Prop) `{!forall s, Decision (P s)} f i (l : list NodeSlot) :
  (forall s, P (f s) -> P s) -> (length (filter P (alter f i l)) <= length (filter P l))%nat.
Proof.
  intros Hp. revert i. induction l as [|s l IH]; intros i; [done|]. destruct i as [|i]; simpl.
  - rewrite !filter_cons. destruct (decide (P (f s))), (decide (P s)); simpl; try lia. naive_solver.
  - rewrite !filter_cons. destruct (decide (P s)); simpl; [apply le_n_S|]; apply IH.
Qed.

Lemma pinned_alter i f (ss : list NodeSlot) : (forall s, ss !! i = Some s -> benign_at f s) ->
  kicked_pinned (alter f i ss) = kicked_pinned ss /\ alive_pinned (alter f i ss) = alive_pinned ss.
Proof.
  intros Hb. unfold kicked_pinned, alive_pinned, is_pinned.
  split; apply filter_alter_length; intros s Hs; destruct (Hb s Hs) as (_ & _ & -> & -> & _); done.
Qed.

Lemma on_slot_at_inv i f p : pool_inv p -> (forall s, slots p !! i = Some s -> benign_at f s) -> pool_inv (on_slot i f p).
Proof.
  intros Hp Hb. destruct (pinned_alter i f (slots p) Hb) as [Ek Ea].
  destruct Hp as [(s0 & Hs0 & Hsys) H2 H3 H4 H5 H6 H7 H8]. constructor; simpl; rewrite ?Ek, ?Ea; auto.
  - destruct (decide (i = 0%nat)) as [->|Hi].
    + exists (f s0). rewrite list_lookup_alter, Hs0. split; [done|].
      destruct (Hb s0 Hs0) as (_ & _ & Ekk & Ei & El & Ec). destruct Hsys as (? & ? & ? & ?).
      unfold sys_ok. rewrite Ekk, Ei, El. auto.
    + exists s0. by rewrite list_lookup_alter_ne.
  - apply Forall_alter; [done|]. intros s Hs _. by destruct (Hb s Hs).
  - intros j s Hs. destruct (decide (i = j)) as [->|Hi].
    + rewrite list_lookup_alter, decide_True in Hs by done. apply fmap_Some in Hs as (t & Et & ->).
      destruct (Hb t Et) as (_ & -> & _). by apply H3.
    + rewrite list_lookup_alter_ne in Hs by done. by apply H3.
  - intros id c Hc. rewrite length_alter. by apply H4.
Qed.

Lemma on_slot_at_ok i f p : pool_ok p -> (forall s, slots p !! i = Some s -> benign_at f s) -> pool_ok (on_slot i f p).
Proof.
  intros [Hp Hr] Hf. split; [by apply on_slot_at_inv|].
  unfold reported. simpl. by destruct (pinned_alter i f (slots p) Hf) as [-> ->].
Qed.

Lemma slot_at_ok i p s : pool_inv p -> slots p !! i = Some s -> slot_ok s.
Proof. intros Hp Hs. pose proof (po_slots p Hp) as Ha. rewrite Forall_lookup in Ha. eauto. Qed.

Lemma on_slot_ok i f p : pool_ok p -> benign f -> pool_ok (on_slot i f p).
Proof. intros Hp Hf. apply on_slot_at_ok; [done|]. intros s Hs. apply Hf. destruct Hp. by eapply slot_at_ok. Qed.

(** *** Operations keep the invariant *)

Lemma check_breaker_ok p : pool_inv p -> pool_ok (check_breaker p).1.
Proof.
  intros Hp. unfold check_breaker.
  destruct (no_aggregate_recorded p) eqn:En; [by split; [|intros _]|].
  destruct (Nat.ltb_spec (alive_pinned (slots p)) (kicked_pinned (slots p))) as [Hlt|Hge].
  - destruct Hp as [H1 H2 H3 H4 H5 H6 H7 H8]. rewrite En in H6. simpl.
    destruct (has_db p) eqn:Ed; (split; [constructor; simpl; rewrite ?taken_app, ?granted_app, ?breaks_app, ?H6, ?Ed; simpl; auto|done]).
    + by rewrite Z.add_0_r.
    + by rewrite app_nil_r.
  - split; [done|]. unfold reported. simpl. lia.
Qed.

Lemma check_breaker_slots p : slots (check_breaker p).1 = slots p /\ template (check_breaker p).1 = template p
  /\ next_lease_id (check_breaker p).1 = next_lease_id p /\ live (check_breaker p).1 = live p.
Proof.
  unfold check_breaker. destruct (no_aggregate_recorded p); [done|].
  destruct (_ <? _)%nat; [|done]. simpl. by destruct (has_db p).
Qed.

Lemma kick_inv i p : pool_inv p -> i <> 0%nat -> pool_inv (on_slot i (set_kicked true) p).
Proof.
  intros [(s0 & Hs0 & Hsys) H2 H3 H4 H5 H6 H7 H8] Hi. constructor; simpl; auto.
  - exists s0. by rewrite list_lookup_alter_ne.
  - apply Forall_alter; [done|]. done.
  - intros j s Hs. destruct (decide (i = j)) as [->|Hij].
    + rewrite list_lookup_alter, decide_True in Hs by done. apply fmap_Some in Hs as (t & Et & ->). by apply (H3 j t).
    + rewrite list_lookup_alter_ne in Hs by done. by apply H3.
  - intros id c Hc. rewrite length_alter. by apply H4.
  - intros H. specialize (H5 H). eapply Nat.le_lt_trans; [|eapply Nat.lt_le_trans; [exact H5|]].
    + apply filter_alter_anti. simpl. naive_solver.
    + apply filter_alter_mono. simpl. naive_solver.
Qed.

Lemma leases_event_ok now p : pool_ok p -> pool_ok (leases_event_locked now p).1.
Proof.
  intros [Hp Hr]. unfold leases_event_locked. destruct (_ || _); [done|]. destruct (bool_decide _); [done|].
  destruct (too_soon now p); [done|]. split; [|done]. by destruct Hp; constructor.
Qed.

Lemma leases_event_frame now p : slots (leases_event_locked now p).1 = slots p /\ live (leases_event_locked now p).1 = live p.
Proof.
  unfold leases_event_locked. destruct (_ || _); [done|]. destruct (bool_decide _); [done|].
  by destruct (too_soon now p).
Qed.

Lemma emit_all_inv events p : pool_inv p -> pool_inv (emit_all events p).
Proof.
  intros Hp. unfold emit_all. destruct events as [|e events]; [done|].
  destruct (has_sink p); [|destruct (has_links _)]; [|by destruct Hp; constructor|done].
  apply sends_inv; [|done]. apply Forall_map, Forall_true. done.
Qed.

Lemma emit_all_frame events p : slots (emit_all events p) = slots p /\ live (emit_all events p) = live p
  /\ no_aggregate_recorded (emit_all events p) = no_aggregate_recorded p.
Proof. unfold emit_all. destruct events; [done|]. destruct (has_sink p); [done|]. by destruct (has_links _). Qed.

Lemma emit_all_ok events p : pool_ok p -> pool_ok (emit_all events p).
Proof.
  intros [Hp Hr]. split; [by apply emit_all_inv|]. unfold reported.
  destruct (emit_all_frame events p) as (-> & _ & ->). done.
Qed.

Lemma note_path_failure_ok r p : pool_ok p -> pool_ok (note_path_failure r p).
Proof.
  intros [Hp Hr]. unfold note_path_failure. destruct (is_link r) eqn:El; [done|].
  destruct (bool_decide _) eqn:Eb; [done|]. bool_hyps. split; [|done].
  destruct Hp as [H1 H2 H3 H4 H5 H6 H7 (H8 & H9 & H10)]. constructor; simpl; auto. split; [by rewrite H8, app_assoc|].
  split.
  - apply NoDup_app. split; [done|]. split; [set_solver|]. apply NoDup_singleton.
  - apply Forall_app. auto.
Qed.

Lemma fallback_ok p : pool_ok p -> pool_ok (try_sys_transport_fallback p).2.
Proof.
  intros Hp. unfold try_sys_transport_fallback. destruct (negb _); [done|].
  destruct (Z.ltb_spec (sys_fallback_budget p) 1); [done|]. simpl.
  set (p1 := set_budget _ p).
  assert (Hn : exists l1 l2, note_path_failure (sys_route (slots p)) p1 = set_path_failures l1 (set_noted l2 p1) /\
    (l2 = taken (p_out p) ++ l1 /\ NoDup l2 /\ Forall (fun r => is_link r = false) l2)).
  { pose proof (note_path_failure_ok (sys_route (slots p)) p Hp) as [[_ _ _ _ _ _ _ H8] _].
    unfold note_path_failure in *. change (path_failures_noted p1) with (path_failures_noted p) in *.
    destruct (_ || _); [|eauto]. exists (path_failures p), (path_failures_noted p). split; [by destruct p|done]. }
  destruct Hn as (l1 & l2 & -> & Hl). destruct Hp as [[H1 H2 H3 H4 H5 H6 H7 H8] Hr].
  split; [|done]. constructor; simpl; rewrite ?taken_app, ?granted_app, ?breaks_app; simpl; auto.
  - rewrite Nat.add_0_r. done.
  - change (granted [FallbackGranted]) with 1. lia.
  - by rewrite app_nil_r.
Qed.

(** *** Growing the pool *)

Definition fresh_slot (s : NodeSlot) : Prop := slot_ok s /\ outstanding s = 0 /\ is_pinned s = false.

Lemma leases_on_none i p : (forall id c, live p !! id = Some c -> c_node_id c <> i) -> leases_on i p = 0.
Proof.
  intros H. unfold leases_on.
  assert (filter (on_node i) (live p) = ∅) as ->; [|by rewrite map_size_empty].
  apply map_empty. intros id. apply map_lookup_filter_None. right. intros c Hc Hn. by apply (H id c).
Qed.

Lemma no_fresh (P : NodeSlot -> Prop) `{!forall s, Decision (P s)} ss :
  Forall fresh_slot ss -> (forall s, fresh_slot s -> ~ P s) -> length (filter P ss) = 0%nat.
Proof. intros Hss HP. induction Hss as [|s ss Hs _ IH]; [done|]. rewrite filter_cons, decide_False; auto. Qed.

Lemma push_slots_ok ss p : pool_ok p -> Forall fresh_slot ss -> pool_ok (set_slots (slots p ++ ss) p).
Proof.
  intros [[(s0 & Hs0 & Hsys) H2 H3 H4 H5 H6 H7 H8] Hr] Hss.
  assert (Hk : kicked_pinned (slots p ++ ss) = kicked_pinned (slots p) /\ alive_pinned (slots p ++ ss) = alive_pinned (slots p)).
  { unfold kicked_pinned, alive_pinned. rewrite !filter_app, !length_app.
    rewrite !(no_fresh _ ss) by (try done; intros s (_ & _ & Hs) [Hs' _]; congruence). lia. }
  destruct Hk as [Ek Ea]. split; [|unfold reported; simpl; by rewrite Ek, Ea].
  constructor; simpl; rewrite ?Ek, ?Ea; auto.
  - exists s0. split; [|done]. apply lookup_app_l_Some. done.
  - apply Forall_app. split; [done|]. eapply Forall_impl; [exact Hss|]. by intros s [? _].
  - intros i s Hs. apply lookup_app_Some in Hs as [Hs|[Hi Hs]]; [by apply H3|].
    rewrite leases_on_none.
    + rewrite Forall_lookup in Hss. by destruct (Hss _ _ Hs) as (_ & ? & _).
    + intros id c Hc E. simpl in Hc. apply H4 in Hc. lia.
  - intros id c Hc. rewrite length_app. apply H4 in Hc. lia.
Qed.

Lemma default_ewma_ok prior : prior_ok prior -> f64_nonneg (default DEFAULT_EWMA_BPS prior).
Proof. destruct prior; [done|]. intros _. vm_compute. done. Qed.

Lemma add_paths_ok route prior alternates p : pool_ok p -> op_ok (OpAddPaths route prior alternates) p ->
  pool_ok (add_paths route prior alternates p).
Proof.
  intros Hp (Hr & Hpr & Ha). unfold add_paths. set (f := take_off route prior).
  assert (Hok : pool_ok (on_slot 0 f p)).
  { apply on_slot_at_ok; [done|]. intros s Hs. destruct Hp as [Hp _]. destruct (slot_at_ok _ _ _ Hp Hs) as (H1 & H2 & H3 & H4 & H5).
    destruct (po_sys p Hp) as (s0 & Hs0 & Hk & Hc & Hi & Hl). simplify_eq.
    unfold benign_at, f, slot_ok, take_off. destruct prior as [v|]; simpl; rewrite Hl, Hr; simpl in Hpr; naive_solver. }
  apply (push_slots_ok (map alternate_slot alternates)) in Hok; [exact Hok|].
  apply Forall_map. eapply Forall_impl; [exact Ha|]. intros [r pr] [Hl Hpr']. simpl in *.
  split; [|done]. unfold slot_ok, alternate_slot. simpl. rewrite Hl.
  split; [done|]. split; [by apply default_ewma_ok|]. repeat split; try done; lia.
Qed.

Lemma add_links_ok links p : pool_ok p -> pool_ok (add_links links p).
Proof.
  revert p. induction links as [|l links IH]; intros p Hp; [done|]. simpl.
  destruct (existsb _ _); [by apply IH|]. apply IH, push_slots_ok; [done|]. apply Forall_singleton.
  split; [|done]. unfold slot_ok. simpl. split; [done|]. split; [vm_compute; done|]. repeat split; try done; lia.
Qed.

(** *** Leasing *)

Definition unbuilt (ss : list NodeSlot) : nat :=
  length (filter (fun s => client s = false /\ kicked s = false) ss).

(** A slot that could not be built is banned; the others stay. *)
Definition banned_only (p p' : NodePool) : Prop :=
  length (slots p') = length (slots p) /\ next_lease_id p' = next_lease_id p /\ live p' = live p
  /\ forall i s, slots p !! i = Some s ->
       slots p' !! i = Some s \/ (i <> 0%nat /\ client s = false /\ slots p' !! i = Some (set_kicked true s)).

Lemma banned_only_refl p : banned_only p p.
Proof. repeat split; auto. Qed.

Lemma banned_only_trans p q r : banned_only p q -> banned_only q r -> banned_only p r.
Proof.
  intros (A1 & A2 & A3 & A4) (B1 & B2 & B3 & B4). repeat split; try congruence.
  intros i s Hs. destruct (A4 i s Hs) as [H|(Hi & Hc & H)]; [by apply B4|].
  right. split; [done|]. split; [done|]. destruct (B4 i _ H) as [H'|(_ & _ & H')]; exact H'.
Qed.

Lemma sys_route_lookup ss s : ss !! 0%nat = Some s -> sys_route ss = s_route s.
Proof. destruct ss; [done|]. by intros [= ->]. Qed.

Lemma filter_alter_lt (P : NodeSlot -> Prop) `{!forall s, Decision (P s)} f i s (l : list NodeSlot) :
  (forall s, P (f s) -> P s) -> l !! i = Some s -> P s -> ~ P (f s) ->
  (length (filter P (alter f i l)) < length (filter P l))%nat.
Proof.
  intros Hp. revert i. induction l as [|t l IH]; intros i Hs H1 H2; [done|]. destruct i as [|i]; simpl in *.
  - simplify_eq. rewrite !filter_cons, decide_False, decide_True by done. simpl. lia.
  - rewrite !filter_cons. destruct (decide (P t)); simpl; [apply (proj1 (Nat.succ_lt_mono _ _))|]; by apply IH.
Qed.

Lemma ban_unbuilt_spec i s events p : pool_ok p -> slots p !! i = Some s -> client s = false -> kicked s = false -> i <> 0%nat ->
  let '(p', _) := ban_unbuilt i s events p in
  pool_ok p' /\ banned_only p p' /\ (unbuilt (slots p') < unbuilt (slots p))%nat /\ template p' = template p.
Proof.
  intros [Hp Hr] Hs Hc Hk Hi. unfold ban_unbuilt. set (p1 := on_slot i (set_kicked true) p).
  assert (Hp1 : pool_inv p1) by (by apply kick_inv).
  pose proof (check_breaker_ok p1 Hp1) as Hok. destruct (check_breaker_slots p1) as (Es & Et & En & El).
  destruct (check_breaker p1) as [p2 evt]. simpl in *. split; [done|]. rewrite Es. split; [|split; [|done]].
  - repeat split; [by rewrite Es; simpl; rewrite length_alter|by rewrite En|by rewrite El|].
    intros j t Ht. rewrite Es. simpl. destruct (decide (i = j)) as [<-|Hij].
    + right. simplify_eq. rewrite list_lookup_alter, decide_True, Hs by done. done.
    + left. by rewrite list_lookup_alter_ne.
  - apply (filter_alter_lt (fun s => client s = false /\ kicked s = false) (set_kicked true) i s); simpl; naive_solver.
Qed.

Definition mark_leased (s : NodeSlot) : NodeSlot := set_leased true (set_outstanding (outstanding s + 1) (set_client true s)).

(** [choose_node] ends with the slot [pick] chooses, in the pool that is left
    when the slots whose client cannot be built are banned. *)
Lemma choose_node_spec fuel aa ex can_build events p : pool_ok p -> (unbuilt (slots p) < fuel)%nat ->
  exists p0 s events', choose_node fuel aa ex can_build events p = Some (pick (slots p0) aa ex, on_slot (pick (slots p0) aa ex) mark_leased p0, events')
    /\ pool_ok p0 /\ banned_only p p0 /\ slots p0 !! pick (slots p0) aa ex = Some s.
Proof.
  revert events p. induction fuel as [|fuel IH]; intros events p Hp Hf; [lia|]. simpl.
  pose proof (pick_spec aa ex (slots p)) as Hpick. set (i := pick (slots p) aa ex) in *.
  destruct (po_sys p (proj1 Hp)) as (s0 & Hs0 & Hk0 & Hc0 & Hi0 & Hl0).
  assert (exists s, slots p !! i = Some s /\ (i = 0%nat \/ kicked s = false)) as (s & Hs & Hks).
  { destruct Hpick as [->|(s & Hs & [->|[Hk _]] & _)]; eauto. }
  rewrite Hs. destruct (client s || _) eqn:Ec.
  { exists p, s, events. split; [done|]. auto using banned_only_refl. }
  apply orb_false_elim in Ec as [Ec _].
  assert (Hi : i <> 0%nat).
  { intros E. rewrite E in Hs. simplify_eq. destruct (slot_at_ok _ _ _ (proj1 Hp) Hs0) as [Hcl _]. rewrite Hcl in Ec; done. }
  destruct Hks as [|Hks]; [done|].
  pose proof (ban_unbuilt_spec i s events p Hp Hs Ec Hks Hi) as Hb.
  destruct (ban_unbuilt i s events p) as [p1 events1]. destruct Hb as (Hp1 & Hb1 & Hu & _).
  destruct (IH events1 p1 Hp1 ltac:(lia)) as (p0 & t & events' & -> & Hp0 & Hb0 & Ht).
  exists p0, t, events'. split; [done|]. split; [done|]. split; [|done]. by eapply banned_only_trans.
Qed.

Lemma leases_on_insert i j id c p : live p !! id = None -> c_node_id c = j ->
  leases_on i (set_live (<[id := c]> (live p)) p) = leases_on i p + (if decide (i = j) then 1 else 0).
Proof.
  intros Hid Hc. unfold leases_on. simpl. destruct (decide (i = j)) as [->|Hij].
  - rewrite map_filter_insert_True by (unfold on_node; done).
    rewrite map_size_insert_None; [lia|]. apply map_lookup_filter_None. auto.
  - rewrite map_filter_insert_not'; [lia|unfold on_node; simpl; congruence|]. intros t Ht. congruence.
Qed.

Lemma leases_on_delete i id c p : live p !! id = Some c ->
  leases_on i (set_live (delete id (live p)) p) = leases_on i p - (if decide (i = c_node_id c) then 1 else 0).
Proof.
  intros Hid. unfold leases_on. simpl. rewrite map_filter_delete. destruct (decide (i = c_node_id c)) as [->|Hi].
  - assert (filter (on_node (c_node_id c)) (live p) !! id = Some c) as Hf by (by apply map_lookup_filter_Some).
    rewrite map_size_delete_Some by (by eexists).
    assert (0 < size (filter (on_node (c_node_id c)) (live p)))%nat; [|lia].
    apply Nat.neq_0_lt_0. intros E. apply map_size_empty_iff in E. rewrite E in Hf. done.
  - rewrite delete_id; [lia|]. apply map_lookup_filter_None. right. intros d Hd Hn. unfold on_node in Hn. simpl in Hn. congruence.
Qed.

(** Changing the number of leases of one slot together with the table. *)
Lemma relive_ok i d lv nx p : pool_ok p ->
  (forall id c, lv !! id = Some c -> c_lease_id c = id /\ id < nx /\ (c_node_id c < length (slots p))%nat) ->
  (forall j s, slots p !! j = Some s -> leases_on j (set_live lv p) = outstanding s + (if decide (i = j) then d else 0)) ->
  forall f, (forall s, slots p !! i = Some s -> f s = set_leased (ever_leased (f s)) (set_outstanding (outstanding s + d) (set_client (client (f s)) s))
               /\ (client s = true -> client (f s) = true)) ->
  pool_ok (set_live lv (set_next_lease nx (on_slot i f p))).
Proof.
  intros [[(s0 & Hs0 & Hsys) H2 H3 H4 H5 H6 H7 H8] Hr] Hlive Hcount f Hf.
  assert (Hk : kicked_pinned (alter f i (slots p)) = kicked_pinned (slots p)
    /\ alive_pinned (alter f i (slots p)) = alive_pinned (slots p)).
  { unfold kicked_pinned, alive_pinned, is_pinned. split; apply filter_alter_length; intros s Hs;
      destruct (Hf s Hs) as [-> _]; done. }
  destruct Hk as [Ek Ea]. split; [|unfold reported; simpl; by rewrite Ek, Ea].
  constructor; simpl; rewrite ?Ek, ?Ea; auto.
  - destruct (decide (i = 0%nat)) as [->|Hi].
    + exists (f s0). rewrite list_lookup_alter, decide_True, Hs0 by done. split; [done|].
      destruct (Hf s0 Hs0) as [-> _]. done.
    + exists s0. by rewrite list_lookup_alter_ne.
  - apply Forall_alter; [done|]. intros s Hs (A1 & A). destruct (Hf s Hs) as [Ef Ec]. split; [|rewrite Ef; done].
    rewrite Ef. simpl. auto.
  - intros j s Hs. change (leases_on j (set_live lv (set_next_lease nx (on_slot i f p)))) with (leases_on j (set_live lv p)).
    destruct (decide (i = j)) as [->|Hi].
    + rewrite list_lookup_alter, decide_True in Hs by done. apply fmap_Some in Hs as (t & Et & ->).
      rewrite (Hcount j t Et), decide_True by done. destruct (Hf t Et) as [-> _]. done.
    + rewrite list_lookup_alter_ne in Hs by done. rewrite (Hcount j s Hs), decide_False by done. lia.
  - intros id c Hc. rewrite length_alter. by apply Hlive.
Qed.

Definition may_explore (p : NodePool) (r : LeaseRequest) : bool :=
  explore p && r_allow_alternates r && (EXPLORE_MIN_PIECE <=? r_bytes r).

Definition conn_of (p : NodePool) (r : LeaseRequest) (i : nat) (now : Z) : LiveConn :=
  mk_conn (next_lease_id p) i (r_seg_index r) (r_start_downloaded r) now (r_cancel r).

Lemma lease_for_spec r can_build now p : pool_ok p -> exists p0 s p',
  let i := pick (slots p0) (r_allow_alternates r) (may_explore p r) in
  lease_for r can_build now p = Some (lease_of p0 i s, p')
  /\ pool_ok p' /\ banned_only p p0 /\ pool_ok p0 /\ slots p0 !! i = Some s
  /\ slots p' = alter mark_leased i (slots p0)
  /\ live p' = <[next_lease_id p := conn_of p r i now]> (live p).
Proof.
  intros Hp. unfold lease_for. fold (may_explore p r).
  destruct (choose_node_spec (S (length (slots p))) (r_allow_alternates r) (may_explore p r) can_build [] p Hp) as (p0 & s & events & -> & Hp0 & Hb & Hs).
  { unfold unbuilt. pose proof (length_filter (fun s => client s = false /\ kicked s = false) (slots p)). lia. }
  set (i := pick _ _ _) in *. exists p0, s.
  assert (Ht : slots (on_slot i mark_leased p0) !! i = Some (mark_leased s)).
  { simpl. by rewrite list_lookup_alter, decide_True, Hs. }
  rewrite Ht. cbv zeta.
  destruct Hb as (B1 & B2 & B3 & B4).
  change (next_lease_id (on_slot i mark_leased p0)) with (next_lease_id p0).
  set (p1 := set_live _ _).
  assert (Hid : live p0 !! next_lease_id p0 = None).
  { destruct (live p0 !! next_lease_id p0) as [c|] eqn:E; [|done]. apply (po_live p0 (proj1 Hp0)) in E. lia. }
  assert (Hp1 : pool_ok p1).
  { apply (relive_ok i 1 (<[next_lease_id p0 := mk_conn (next_lease_id p0) i (r_seg_index r) (r_start_downloaded r) now (r_cancel r)]> (live p0))
      (next_lease_id p0 + 1) p0 Hp0) with (f := mark_leased).
    - intros id c Hc. apply lookup_insert_Some in Hc as [[<- <-]|[Hne Hc]].
      + simpl. split; [done|]. split; [lia|]. by apply lookup_lt_Some in Hs.
      + apply (po_live p0 (proj1 Hp0)) in Hc. destruct Hc as (? & ? & ?). auto with lia.
    - intros j t Hj. rewrite leases_on_insert with (j := i) by done.
      rewrite (po_counts p0 (proj1 Hp0) j t Hj). destruct (decide (i = j)), (decide (j = i)); congruence || lia.
    - intros t _. done. }
  pose proof (leases_event_ok now p1 Hp1) as Hok. destruct (leases_event_frame now p1) as [Es El].
  destruct (leases_event_locked now p1) as [p2 evt]. simpl in Hok, Es, El.
  exists (emit_all (events ++ option_list evt) p2).
  destruct (emit_all_frame (events ++ option_list evt) p2) as (Es' & El' & _).
  split; [done|]. split; [by apply emit_all_ok|]. split; [done|]. split; [done|]. split; [done|].
  rewrite Es', Es, El', El. split; [done|]. simpl. unfold conn_of. by rewrite <- B2, <- B3.
Qed.

Lemma drop_lease_ok l now p : pool_ok p -> held l p -> pool_ok (drop_lease l now p).
Proof.
  intros Hp (c & Hc & Hn). unfold drop_lease.
  set (f := fun s => set_outstanding (Z.max (outstanding s - 1) 0) s).
  set (p1 := on_slot _ f _).
  assert (Hp1 : pool_ok p1).
  { apply (relive_ok (l_node_id l) (-1) (delete (l_lease_id l) (live p)) (next_lease_id p) p Hp) with (f := f).
    - intros id d Hd. apply lookup_delete_Some in Hd as [_ Hd]. by apply (po_live p (proj1 Hp)).
    - intros j s Hs. rewrite (leases_on_delete _ _ c) by done. rewrite <- (po_counts p (proj1 Hp) j s Hs), Hn.
      destruct (decide (j = l_node_id l)), (decide (l_node_id l = j)); congruence || lia.
    - intros s Hs. unfold f. split; [|done].
      assert (0 < outstanding s) as Hpos.
      { rewrite (po_counts p (proj1 Hp) _ s Hs). pose proof (leases_on_delete (l_node_id l) _ c p Hc) as Hd.
        rewrite decide_True in Hd by done. unfold leases_on in *. lia. }
      replace (Z.max (outstanding s - 1) 0) with (outstanding s + -1) by lia. by destruct s. }
  pose proof (leases_event_ok now p1 Hp1) as Hok.
  destruct (leases_event_locked now p1) as [p2 evt]. by apply emit_all_ok.
Qed.

(** *** Reports and measurements *)

Lemma send_ok o p : plain_out o = true -> pool_ok p -> pool_ok (send o p).
Proof. intros Ho [Hp Hr]. split; [by apply send_inv|done]. Qed.

Lemma as_secs_nonneg nanos : 0 <= nanos -> f64_nonneg (as_secs_f64 nanos).
Proof.
  intros H. unfold as_secs_f64. apply f64_add_nonneg; [apply f64_of_Z_nonneg, Z.div_pos; lia|].
  apply f64_div_nonneg; [apply f64_of_Z_nonneg; apply Z.mod_pos_bound; lia|vm_compute; done|right; vm_compute; done].
Qed.

Lemma rate_nonneg bytes elapsed : MIN_SAMPLE_BYTES <= bytes -> is_u64 bytes -> 0 <= elapsed ->
  f64_nonneg (f64_div (f64_of_Z bytes) (as_secs_f64 elapsed)).
Proof.
  intros H1 H2 H3. unfold MIN_SAMPLE_BYTES, is_u64 in *.
  assert (f64_pos (f64_of_Z bytes)) by (apply f64_of_Z_pos; lia).
  apply f64_div_nonneg; auto using f64_pos_nonneg, as_secs_nonneg.
Qed.

Lemma f64_mul_const_nonneg c x : f64_pos c -> f64_nonneg x -> f64_nonneg (f64_mul c x).
Proof.
  intros Hc Hx. destruct c as [| | |[] m e]; try done. destruct x as [[]|[]| |[] m' e']; try done.
  apply binary_round_aux_nonneg. lia.
Qed.

Lemma alpha_pos : f64_pos EWMA_ALPHA.
Proof. vm_compute. done. Qed.
Lemma beta_pos : f64_pos (f64_sub (f64_of_Z 1) EWMA_ALPHA).
Proof. vm_compute. done. Qed.

Lemma benign_intro f : (forall s, slot_ok s -> slot_ok (f s)) ->
  (forall s, outstanding (f s) = outstanding s /\ kicked (f s) = kicked s /\ ip (f s) = ip s /\ link (f s) = link s
    /\ (cold s = false -> cold (f s) = false)) -> benign f.
Proof. intros H1 H2 s Hs. split; [by apply H1|]. apply H2. Qed.

Lemma set_ewma_ok v s : slot_ok s -> f64_nonneg v -> slot_ok (set_ewma v s).
Proof. unfold slot_ok. simpl. tauto. Qed.

Lemma report_ok_ok l bytes elapsed p : pool_ok p -> is_u64 bytes -> 0 <= elapsed -> pool_ok (report_ok l bytes elapsed p).
Proof.
  intros Hp Hb He. unfold report_ok. cbv zeta.
  assert (Hp1 : pool_ok (on_slot (l_node_id l) (set_streak 0) p)) by (apply on_slot_ok; [done|]; by apply benign_intro).
  set (p1 := on_slot _ (set_streak 0) p) in *.
  destruct (_ && _) eqn:Et; [|done]. bool_hyps. set (rate := f64_div _ _).
  assert (Hr : f64_nonneg rate) by (by apply rate_nonneg).
  set (sample := fun s => if measured_windows s =? 0 then _ else s).
  assert (Hp2 : pool_ok (on_slot (l_node_id l) sample p1)).
  { apply on_slot_ok; [done|]. apply benign_intro; intros s; unfold sample; destruct (_ =? _); try done.
    - intros Hs. change (slot_ok (set_ewma (if cold s then rate else
        f64_add (f64_mul (f64_sub (f64_of_Z 1) EWMA_ALPHA) (ewma_bps s)) (f64_mul EWMA_ALPHA rate)) s)).
      apply set_ewma_ok; [done|]. destruct (cold s); [done|]. destruct Hs as (_ & Hs & _).
      apply f64_add_nonneg;
        [apply f64_mul_const_nonneg; [exact beta_pos|assumption]|apply f64_mul_const_nonneg; [exact alpha_pos|assumption]]. }
  destruct (slots _ !! l_node_id l) as [s|]; [|done]. destruct (ip s); [|done].
  destruct (has_db _); [|done]. by apply send_ok, send_ok.
Qed.

Lemma remember_kick_ok s e p : pool_ok p -> pool_ok (remember_kick s e p).
Proof.
  intros Hp. unfold remember_kick.
  assert (pool_ok (set_validator_kicked (validator_kicked p ++ [s_route s]) p)) as Hp'
    by (destruct Hp as [[] ?]; split; [by constructor|done]).
  destruct (is_validator_mismatch e && is_proxy (s_route s)); destruct (_ && _); try done; by apply note_path_failure_ok.
Qed.

Lemma kick_slot_ok l e p : pool_inv p -> l_node_id l <> 0%nat -> slots p !! l_node_id l <> None -> pool_ok (kick_slot l e p).1.
Proof.
  intros Hp Hi Hs. unfold kick_slot. destruct (slots p !! l_node_id l) as [s|]; [|done]. cbv zeta.
  set (p1 := on_slot _ _ p). assert (Hp1 : pool_inv p1) by (by apply kick_inv).
  set (p2 := match link s with Some k => _ | None => p1 end).
  assert (Hp2 : pool_inv p2).
  { unfold p2. destruct (link s); [|done]. destruct (is_validator_mismatch e); [done|]. by apply send_inv. }
  pose proof (check_breaker_ok p2 Hp2) as Hok. destruct (check_breaker p2) as [p3 evt].
  by apply remember_kick_ok.
Qed.

Lemma report_err_ok l e p : pool_ok p -> pool_ok (report_err l e p).
Proof.
  intros Hp. unfold report_err. destruct (slots p !! l_node_id l) as [s|] eqn:Es; [|done]. cbv zeta.
  set (p1 := on_slot _ _ p).
  assert (Hp1 : pool_ok p1) by (apply on_slot_ok; [done|]; by apply benign_intro).
  set (s1 := set_streak _ s).
  set (p2 := match ip s1 with Some ip => _ | None => p1 end).
  assert (Hp2 : pool_ok p2 /\ slots p2 = slots p1).
  { unfold p2. destruct (ip s1); [|done]. destruct (has_db p1); [|done]. split; [|done]. by apply send_ok, send_ok. }
  destruct Hp2 as [Hp2 Esl]. destruct (_ && _) eqn:Ek; [|done]. bool_hyps.
  pose proof (kick_slot_ok l e p2 (proj1 Hp2)) as Hk. destruct (kick_slot l e p2) as [p3 events].
  apply emit_all_ok, Hk.
  - intros E. rewrite E in *. done.
  - rewrite Esl. simpl. rewrite list_lookup_alter, decide_True, Es; done.
Qed.

Lemma median_nonneg values med : Forall f64_nonneg values -> median values = Some med -> f64_nonneg med.
Proof.
  intros Hv Hm. unfold median in Hm. destruct values as [|v0 vs]; [done|]. set (values := v0 :: vs) in *. cbv zeta in Hm.
  assert (Hs : forall i x, merge_sort f64_total_le values !! i = Some x -> f64_nonneg x).
  { intros i x Hx. apply list_elem_of_lookup_2 in Hx. rewrite merge_sort_Permutation in Hx.
    rewrite Forall_forall in Hv. auto. }
  destruct (Nat.even _); [|by eapply Hs].
  destruct (merge_sort _ _ !! (Nat.div2 (length values) - 1)%nat) as [a|] eqn:Ea; [|done].
  destruct (merge_sort _ _ !! Nat.div2 (length values)) as [b|] eqn:Eb; [|done].
  injection Hm as <-. apply f64_div_nonneg; [apply f64_add_nonneg; by eapply Hs|vm_compute; done|right; vm_compute; done].
Qed.

Lemma rate_alpha_pos : f64_pos RATE_EWMA_ALPHA.
Proof. vm_compute. done. Qed.
Lemma rate_beta_pos : f64_pos (f64_sub (f64_of_Z 1) RATE_EWMA_ALPHA).
Proof. vm_compute. done. Qed.

Lemma blend_nonneg cur sample first : f64_nonneg cur -> f64_nonneg sample -> f64_nonneg (blend_rate cur sample first).
Proof.
  intros Hc Hs. unfold blend_rate. destruct first; [done|].
  apply f64_add_nonneg; apply f64_mul_const_nonneg; first [assumption|exact rate_alpha_pos|exact rate_beta_pos].
Qed.

Lemma valid_sample_nonneg v : valid_sample v = true -> v <> f64_neg_zero -> f64_nonneg v.
Proof. unfold valid_sample, f64_ge. intros H Hn. destruct v as [[]|[]| |[] m e]; done. Qed.

Lemma observe_ok samples count_conns p : pool_ok p -> Forall (fun x => x.2 <> f64_neg_zero) samples ->
  pool_ok (observe samples count_conns p).
Proof.
  intros Hp Hs. unfold observe. generalize (remove_dups (filter (fun x => valid_sample x.2 = true) samples).*1). intros nodes.
  revert p Hp. induction nodes as [|n nodes IH]; intros p Hp; [done|]. simpl. apply IH. clear IH. unfold observe_node.
  destruct (median (samples_of samples n)) as [med|] eqn:Em; [|done].
  assert (Hmed : f64_nonneg med).
  { eapply median_nonneg; [|exact Em]. apply Forall_fmap, Forall_forall. intros x Hx.
    apply list_elem_of_filter in Hx as [[_ Hv] Hx]. rewrite Forall_forall in Hs. by apply valid_sample_nonneg, Hs. }
  assert (Hok : pool_ok (on_slot n (observe_slot (samples_of samples n) med count_conns) p)).
  { apply on_slot_ok; [done|]. apply benign_intro; intros s; unfold observe_slot, slot_ok.
    - intros (H1 & H2 & H3 & H4 & H5 & H6).
      assert (f64_nonneg (blend_rate (ewma_bps s) med (measured_windows s =? 0))) by (by apply blend_nonneg).
      assert (0 <= sat_add_u32 (measured_windows s) 1) by (unfold sat_add_u32, u32_max; lia).
      destruct count_conns; simpl; tauto.
    - destruct count_conns; simpl; tauto. }
  cbv zeta. destruct (slots _ !! n) as [s|]; [|done]. destruct (ip s); [|done]. destruct (has_db _); [|done].
  by apply send_ok.
Qed.

(** *** Every pool in use *)

Lemma built_ok p : built p -> pool_ok p.
Proof.
  assert (Hgen : forall h t d tk sk ss, Forall slot_ok ss -> Forall (fun s => kicked s = false /\ outstanding s = 0) ss ->
    (exists s, ss !! 0%nat = Some s /\ sys_ok s) -> pool_ok (build h t d tk sk ss)).
  { intros h t d tk sk ss Hs Hk H0.
    assert (kicked_pinned ss = 0%nat) as Ek.
    { unfold kicked_pinned. clear H0 Hs. induction Hk as [|s ss [Hk _] _ IH]; [done|].
      rewrite filter_cons, decide_False by (intros [_ ?]; congruence). done. }
    split; [|unfold reported; simpl; rewrite Ek; lia].
    constructor; simpl; auto; try done.
    - intros i s Hi. rewrite leases_on_none by done. rewrite Forall_lookup in Hk. by apply (Hk i).
    - repeat split; by constructor || done. }
  intros [|h cands origins lookup tk sk Hl].
  - apply Hgen; [apply Forall_singleton|by apply Forall_singleton|by eexists].
    unfold slot_ok. simpl. split; [done|]. split; [vm_compute; done|]. repeat split; try done; lia.
  - apply Hgen; [| |by eexists].
    + constructor.
      * unfold slot_ok. simpl. split; [done|]. split; [vm_compute; done|]. repeat split; try done; lia.
      * apply Forall_map, Forall_true. intros ip. unfold slot_ok. simpl. split; [done|].
        split; [|repeat split; try done; lia]. apply default_ewma_ok. unfold prior_ok. destruct (lookup ip) eqn:E; [|done].
        by eapply Hl.
    + constructor; [done|]. by apply Forall_map, Forall_true.
Qed.

Lemma exec_total op p : pool_ok p -> op_ok op p -> exists p', exec op p = Some p' /\ pool_ok p'.
Proof.
  intros Hp Ho. destruct op; simpl; try (eexists; split; [reflexivity|]).
  - by apply add_paths_ok.
  - by apply add_links_ok.
  - destruct Hp as [[] ?]. split; [by constructor|done].
  - destruct (lease_for_spec r can_build now p Hp) as (p0 & s & p' & -> & Hp' & _). by exists p'.
  - destruct Ho as (_ & Hb & He). destruct outcome; simpl; [by apply report_ok_ok|by apply report_err_ok].
  - apply on_slot_ok; [done|]. destruct Ho as [_ Hb]. apply benign_intro; intros s; [|done].
    unfold slot_ok, sat_add_u64, u64_max, is_u64 in *. simpl. intuition lia.
  - by apply drop_lease_ok.
  - by apply observe_ok.
  - unfold preempt. destruct (live p !! lease_id); [|done]. by apply send_ok.
  - by apply fallback_ok.
  - destruct Hp as [[] ?]. split; [by constructor|done].
  - destruct Hp as [[] ?]. split; [by constructor|done].
  - destruct Hp as [[H1 H2 H3 H4 H5 H6 H7 (H8 & H9)] Hr]. split; [|done].
    constructor; simpl; rewrite ?taken_app, ?granted_app, ?breaks_app; simpl; rewrite ?app_nil_r, ?Nat.add_0_r; auto.
    change (granted [PathFailuresTaken (path_failures p)]) with 0. by rewrite Z.add_0_r.
Qed.

Lemma reachable_ok p : reachable p -> pool_ok p.
Proof.
  induction 1 as [p Hb|p op p' _ IH Ho He]; [by apply built_ok|].
  destruct (exec_total op p IH Ho) as (q & Hq & Hok). congruence.
Qed.

(** ** Bans *)

(** What may ban a slot in one operation: the third failure in a row or another
    version of the file, reported by a lease on it; a client that cannot be built. *)
Definition ban_cause (op : Op) (i : nat) (s : NodeSlot) : Prop :=
  match op with
  | OpReport l _ _ (Err e) => l_node_id l = i /\ (is_validator_mismatch e = true \/ KICK_STREAK <= fail_streak s + 1)
  | OpLease _ _ _ => client s = false
  | _ => False
  end.

(** From [ss] to [ss'] every slot keeps its number, and is banned as before
    unless [cause] says so; none is unbanned. *)
Definition bans_by (cause : nat -> NodeSlot -> Prop) (ss ss' : list NodeSlot) : Prop :=
  forall i s, ss !! i = Some s -> exists s', ss' !! i = Some s' /\
    (kicked s' = kicked s \/ (kicked s' = true /\ i <> 0%nat /\ cause i s)).

Lemma bans_refl cause ss : bans_by cause ss ss.
Proof. intros i s Hs. eauto. Qed.

Lemma bans_alter cause f i ss : (forall s, kicked (f s) = kicked s) -> bans_by cause ss (alter f i ss).
Proof.
  intros Hf j s Hs. destruct (decide (i = j)) as [->|Hij].
  - exists (f s). rewrite list_lookup_alter, decide_True, Hs by done. auto.
  - exists s. rewrite list_lookup_alter_ne by done. auto.
Qed.

Lemma bans_app cause ss ss1 : bans_by cause ss (ss ++ ss1).
Proof. intros i s Hs. exists s. split; [by apply lookup_app_l_Some|auto]. Qed.

Lemma bans_trans cause ss ss1 ss2 : bans_by (fun _ _ => False) ss ss1 -> bans_by (fun _ _ => False) ss1 ss2 -> bans_by cause ss ss2.
Proof.
  intros H1 H2 i s Hs. destruct (H1 i s Hs) as (s1 & Hs1 & [E|(_ & _ & [])]).
  destruct (H2 i s1 Hs1) as (s2 & Hs2 & [E2|(_ & _ & [])]). exists s2. rewrite E2. auto.
Qed.

Lemma add_links_bans cause links p : bans_by cause (slots p) (slots (add_links links p)).
Proof.
  revert p. induction links as [|l links IH]; intros p; [apply bans_refl|]. simpl. destruct (existsb _ _); [apply IH|].
  intros i s Hs. destruct (IH (set_slots (slots p ++ [link_slot l]) p) i s) as (s' & H1 & H2); [by apply lookup_app_l_Some|].
  eauto.
Qed.

Lemma leases_event_bans cause now p : bans_by cause (slots p) (slots (leases_event_locked now p).1).
Proof. destruct (leases_event_frame now p) as [-> _]. apply bans_refl. Qed.

Lemma note_path_failure_slots r p : slots (note_path_failure r p) = slots p.
Proof. unfold note_path_failure. by destruct (_ || _). Qed.

Lemma kick_slot_slots l e p : slots (kick_slot l e p).1 = alter (set_kicked true) (l_node_id l) (slots p).
Proof.
  unfold kick_slot. destruct (slots p !! l_node_id l) as [s|] eqn:Es; simpl.
  - set (p2 := match link s with Some k => _ | None => _ end).
    assert (slots p2 = alter (set_kicked true) (l_node_id l) (slots p)) as <-.
    { unfold p2. destruct (link s); [|done]. by destruct (is_validator_mismatch e). }
    destruct (check_breaker_slots p2) as (E & _). destruct (check_breaker p2) as [p3 evt]. simpl in *. rewrite <- E.
    unfold remember_kick. destruct (is_validator_mismatch e && is_proxy (s_route s)); destruct (_ && _);
      rewrite ?note_path_failure_slots; done.
  - apply list_eq. intros j. destruct (decide (l_node_id l = j)) as [<-|Hj]; [|by rewrite list_lookup_alter_ne].
    by rewrite list_lookup_alter, decide_True, Es.
Qed.

Lemma report_err_bans l bytes elapsed e p :
  bans_by (ban_cause (OpReport l bytes elapsed (Err e))) (slots p) (slots (report_err l e p)).
Proof.
  unfold report_err. destruct (slots p !! l_node_id l) as [s|] eqn:Es; [|apply bans_refl]. cbv zeta.
  set (f := set_streak _). set (p2 := match ip _ with Some ip => _ | None => _ end).
  assert (slots p2 = alter f (l_node_id l) (slots p)) as E2.
  { unfold p2. destruct (ip _); [|done]. by destruct (has_db _). }
  destruct (_ && _) eqn:Ek.
  - pose proof (kick_slot_slots l e p2) as E3. destruct (kick_slot l e p2) as [p3 events]. simpl in E3.
    destruct (emit_all_frame events p3) as (-> & _). rewrite E3, E2.
    intros j t Ht. destruct (decide (l_node_id l = j)) as [<-|Hj].
    + simplify_eq. exists (set_kicked true (f s)). rewrite !list_lookup_alter, !decide_True, Es by done.
      split; [done|]. right. bool_hyps. split; [done|]. split.
      * intros E. rewrite E in *. done.
      * split; [done|]. simpl in *. rewrite orb_true_iff, Z.leb_le in *. tauto.
    + exists t. rewrite !list_lookup_alter_ne by done. auto.
  - rewrite E2. by apply bans_alter.
Qed.

Lemma observe_bans cause samples count_conns p : bans_by cause (slots p) (slots (observe samples count_conns p)).
Proof.
  unfold observe. generalize (remove_dups (filter (fun x => valid_sample x.2 = true) samples).*1). intros nodes.
  assert (H : forall q, bans_by (fun _ _ => False) (slots p) (slots q) ->
    bans_by (fun _ _ => False) (slots p) (slots (foldl (observe_node samples count_conns) q nodes))).
  { induction nodes as [|n nodes IH]; intros q Hq; [done|]. simpl. apply IH. unfold observe_node.
    destruct (median _) as [med|]; [|done]. cbv zeta. set (f := observe_slot _ _ _).
    eapply bans_trans; [exact Hq|].
    assert (bans_by (fun _ _ => False) (slots q) (slots (on_slot n f q))) as Hf by
      (apply bans_alter; intros s; unfold f, observe_slot; by destruct count_conns).
    destruct (slots (on_slot n f q) !! n) as [s|]; [|done]. destruct (ip s); [|done]. by destruct (has_db _). }
  intros i s Hs. destruct (H p (bans_refl _ _) i s Hs) as (s' & Hs' & [E|(_ & _ & [])]). eauto.
Qed.

(** ** What the pool promises *)

(** C36. Every operation that a coordinator or a worker may call returns, whatever
    clients cannot be built; a lease is always granted: on the slot the task
    started with, or on one that is not banned and that the request allows, with
    a working client and a number of its own; a path nobody has measured gets it
    only to be explored, as its single connection. *)
Theorem lease_always_granted (p : NodePool) (r : LeaseRequest) (can_build : nat -> bool) (now : Z) :
  reachable p ->
  exists l p' s, lease_for r can_build now p = Some (l, p')
    /\ slots p' !! l_node_id l = Some s
    /\ client s = true /\ may_use (r_allow_alternates r) (slots p') (l_node_id l) s
    /\ (cold s = true -> may_explore p r = true /\ outstanding s = 1)
    /\ live p !! l_lease_id l = None
    /\ live p' = <[l_lease_id l := conn_of p r (l_node_id l) now]> (live p).
Proof.
  intros Hr. apply reachable_ok in Hr as Hp.
  destruct (lease_for_spec r can_build now p Hp) as (p0 & s & p' & E & Hp' & Hb & Hp0 & Hs & Hsl & Hlive).
  set (i := pick _ _ _) in *. exists (lease_of p0 i s), p', (mark_leased s). split; [done|].
  destruct Hb as (_ & Hn & Hl & _). simpl.
  assert (Hi : slots p' !! i = Some (mark_leased s)) by (rewrite Hsl, list_lookup_alter, decide_True, Hs; done).
  split; [done|]. split; [done|].
  destruct (po_sys p0 (proj1 Hp0)) as (s0 & Hs0 & _ & Hcold & _).
  assert (Hroute : sys_route (slots p') = sys_route (slots p0)).
  { rewrite Hsl. destruct (slots p0) as [|t ts]; [done|]. by destruct i. }
  assert (Hpick : may_use (r_allow_alternates r) (slots p') i (mark_leased s) /\
    (cold s = true -> may_explore p r = true /\ outstanding s + 1 = 1)).
  { unfold may_use. rewrite Hroute.
    pose proof (pick_spec (r_allow_alternates r) (may_explore p r) (slots p0)) as Hps. fold i in Hps.
    destruct Hps as [Hz|(t & Ht & Hu & Hc)].
    - split; [auto|]. rewrite Hz in Hs. simplify_eq. congruence.
    - simplify_eq. split; [exact Hu|]. intros Hcd. destruct (Hc Hcd) as [? ->]. auto. }
  destruct Hpick as [H1 H2]. split; [done|]. split; [done|]. rewrite Hn. split; [|done].
  destruct (live p !! next_lease_id p) as [c|] eqn:Ec; [|done]. apply (po_live p (proj1 Hp)) in Ec. lia.
Qed.

(** C35. In every reachable state the first slot is usable and measured; a slot counts
    exactly the leases that are out on it; a task is granted at most eight
    changes of route by its quota; each failing path is handed to the coordinator
    at most once; and the host is reported as unfit for aggregation, once,
    exactly when more of its pinned nodes are banned than usable. *)
Theorem pool_accounts (p : NodePool) : reachable p ->
  (exists s, slots p !! 0%nat = Some s /\ sys_ok s)
  /\ (forall i s, slots p !! i = Some s -> outstanding s = leases_on i p)
  /\ granted (p_out p) <= SYS_FALLBACK_BUDGET
  /\ NoDup (taken (p_out p) ++ path_failures p)
  /\ (no_aggregate_recorded p = true <-> (alive_pinned (slots p) < kicked_pinned (slots p))%nat)
  /\ breaks (p_out p) = (if no_aggregate_recorded p && has_db p then 1%nat else 0%nat).
Proof.
  intros Hr. apply reachable_ok in Hr as [[H1 _ H3 _ H5 H6 H7 (H8 & H9 & _)] Hrep].
  split; [done|]. split; [done|]. split; [lia|]. split; [by rewrite <- H8|]. split; [split; [done|exact Hrep]|done].
Qed.

(** A ban has a cause and is final: an operation leaves every slot in place and
    never lifts a ban; it bans a slot only for a third failure in a row or for
    another version of the file, reported by a lease on it, or because its client
    cannot be built; the slot the task started with is never banned. *)
Theorem bans_are_final (p p' : NodePool) (op : Op) : reachable p -> op_ok op p -> exec op p = Some p' ->
  bans_by (ban_cause op) (slots p) (slots p').
Proof.
  intros Hr Ho He. apply reachable_ok in Hr as Hp. destruct op; simpl in He; simplify_eq; try apply bans_refl.
  - unfold add_paths. intros i s Hs.
    destruct (bans_alter (fun _ _ => False) (take_off route prior) 0 (slots p)) with (i := i) (s := s) as (s' & Hs' & Hk);
      [by intros t; unfold take_off; destruct prior|done|].
    exists s'. split; [by apply lookup_app_l_Some|]. destruct Hk as [?|(_ & _ & [])]. auto.
  - apply add_links_bans.
  - destruct (lease_for_spec r can_build now p Hp) as (p0 & s & q & E & _ & Hb & _ & Hs & Hsl & _).
    rewrite E in He. simplify_eq. simpl. rewrite Hsl. destruct Hb as (_ & _ & _ & Hb). intros i t Ht.
    set (k := pick _ _ _).
    destruct (Hb i t Ht) as [Hi|(Hne & Hc & Hi)].
    + destruct (bans_alter (fun _ _ => False) mark_leased k (slots p0) ltac:(done) i t Hi) as (t' & Ht' & [Hk|(_ & _ & [])]).
      exists t'. auto.
    + destruct (bans_alter (fun _ _ => False) mark_leased k (slots p0) ltac:(done) i _ Hi) as (t' & Ht' & [Hk|(_ & _ & [])]).
      exists t'. auto.
  - destruct outcome as [u|e]; simpl; [|apply report_err_bans]. unfold report_ok. cbv zeta.
    set (p1 := on_slot _ _ p). assert (bans_by (fun _ _ => False) (slots p) (slots p1)) as H1 by (by apply bans_alter).
    assert (bans_by (ban_cause (OpReport l bytes elapsed (Ok u))) (slots p) (slots p1)) as H1' by (by apply bans_alter).
    destruct (_ && _); [|done]. set (f := fun s => if measured_windows s =? 0 then _ else s).
    assert (bans_by (ban_cause (OpReport l bytes elapsed (Ok u))) (slots p) (slots (on_slot (l_node_id l) f p1))) as H2.
    { eapply bans_trans; [exact H1|]. apply bans_alter. intros s. unfold f. by destruct (_ =? _). }
    destruct (slots (on_slot _ f p1) !! _) as [s|]; [|done]. destruct (ip s); [|done]. by destruct (has_db _).
  - by apply bans_alter.
  - unfold drop_lease. set (p1 := on_slot _ _ _).
    pose proof (leases_event_bans (fun _ _ => False) now p1) as H2. destruct (leases_event_locked now p1) as [p2 evt]. simpl in H2.
    destruct (emit_all_frame (option_list evt) p2) as (-> & _). eapply bans_trans; [|exact H2]. by apply bans_alter.
  - apply observe_bans.
  - unfold preempt. destruct (live p !! lease_id); apply bans_refl.
  - unfold try_sys_transport_fallback. destruct (negb _); [apply bans_refl|]. destruct (_ <? _); [apply bans_refl|]. simpl.
    rewrite note_path_failure_slots. apply bans_refl.
Qed.

(** Halving at most sixty times stays positive. *)
Lemma halves_pos n : (n <= 60)%nat -> f64_pos (f64_powi (f64_lit 1 2) n).
Proof.
  intros H. assert (Hall : forallb (fun n => match f64_powi (f64_lit 1 2) n with SpecFloat.S754_finite false _ _ => true | _ => false end) (seq 0 61) = true)
    by (vm_compute; done).
  rewrite forallb_forall in Hall. specialize (Hall n). rewrite in_seq in Hall. specialize (Hall ltac:(lia)).
  destruct (f64_powi _ n) as [| | |[]]; done.
Qed.

Lemma score_scored i s : slot_ok s -> scored (i, s).
Proof.
  intros (_ & Hs & _). unfold scored, score. simpl. apply f64_nonneg_not_nan, f64_mul_nonneg; [done|]. apply halves_pos. lia.
Qed.

(** Within one link connections spread by even shares: the choice of the code,
    with its loop and its fall-backs, is the reference choice [best_choice], for
    any selection of slots of a reachable pool; the slot it takes holds no more
    than an even share afterwards. *)
Theorem shares_are_even (p : NodePool) (known : candidates) :
  reachable p -> (forall x, x ∈ known -> slots p !! x.1 = Some x.2) -> competitive known <> [] ->
  exists s, best_choice known (pick_shared known, s)
    /\ Z.of_nat (length (competitive known)) * outstanding s <= total_outstanding (competitive known)
    /\ forall y, y ∈ competitive known -> better y (pick_shared known, s) = true -> lease_cap (competitive known) <= outstanding y.2.
Proof.
  intros Hr Hk Hne. apply reachable_ok in Hr as [Hp _].
  destruct (pick_shared_best known Hne) as (s & Hb).
  { apply Forall_forall. intros [i s] Hx. apply score_scored, (slot_at_ok i p s Hp), (Hk _ Hx). }
  exists s. split; [done|]. destruct Hb as (Hin & Hc & Hmax). simpl in Hc. split.
  - unfold lease_cap, div_ceil in Hc. set (n := Z.of_nat (length (competitive known))) in *.
    assert (0 < n) by (unfold n; destruct (competitive known); [done|simpl; lia]).
    set (t := total_outstanding _) in *. clearbody n t.
    pose proof (Z.mul_div_le (t + 1 + n - 1) n). nia.
  - intros y Hy Hbt. destruct (decide (outstanding y.2 < lease_cap (competitive known))) as [Hlt|]; [|lia].
    rewrite (Hmax y Hy Hlt) in Hbt. done.
Qed.

(** ** Accounts *)

Definition total_bytes {A} (l : list (A * Z)) : Z := foldr (fun x acc => x.2 + acc) 0 l.
Definition is_source (s : NodeSlot) : bool := match s_route s, ip s with RDirect, None => true | _, _ => false end.

Lemma total_bytes_nonneg {A} (l : list (A * Z)) : Forall (fun x => 0 <= x.2) l -> 0 <= total_bytes l.
Proof. unfold total_bytes. induction 1; simpl; lia. Qed.

Definition accelerated (b : SourceBytes) : Z := b_proxy b + b_nic b + b_cdn b.
Definition source_nonneg (b : SourceBytes) : Prop := 0 <= b_proxy b /\ 0 <= b_nic b /\ 0 <= b_cdn b.

Lemma add_source_step acc s v : source_nonneg acc -> 0 <= v -> accelerated acc + v <= i64_max ->
  source_nonneg (add_source acc (s, v))
  /\ accelerated (add_source acc (s, v)) + (if is_source s then v else 0) = accelerated acc + v.
Proof.
  intros (H1 & H2 & H3) Hv Hb. unfold accelerated in *.
  assert (Hs : forall x, 0 <= x -> x + v <= i64_max -> sat_add_i64 x v = x + v) by
    (intros x ? ?; unfold sat_add_i64; apply clamp_id; unfold i64_min; lia).
  unfold add_source, is_source. rewrite Z.min_l by lia.
  destruct (s_route s); [destruct (ip s)|..]; unfold source_nonneg; simpl; rewrite ?Hs by lia; lia.
Qed.

Lemma add_source_sum l acc : Forall (fun x => 0 <= x.2) l -> source_nonneg acc -> accelerated acc + total_bytes l <= i64_max ->
  accelerated (foldl add_source acc l) + total_bytes (filter (fun x => is_source x.1 = true) l) = accelerated acc + total_bytes l.
Proof.
  intros Hl. revert acc. induction Hl as [|[s v] l Hv Hl IH]; intros acc Ha Hb; [done|]. simpl in Hv.
  pose proof (total_bytes_nonneg l Hl) as Hn. change (total_bytes ((s, v) :: l)) with (v + total_bytes l) in *.
  destruct (add_source_step acc s v Ha Hv ltac:(lia)) as [Ha' Hs].
  cbn [foldl]. rewrite filter_cons. specialize (IH _ Ha').
  assert (0 <= (if is_source s then v else 0)) by (destruct (is_source s); lia).
  destruct (decide _) as [Hd|Hd]; simpl in Hd.
  - rewrite Hd in *. change (total_bytes ((s, v) :: ?m)) with (v + total_bytes m). lia.
  - apply not_true_is_false in Hd. rewrite Hd in *. lia.
Qed.

Lemma add_route_sum r v acc : 0 <= v -> Forall (fun x => 0 <= x.2) acc -> total_bytes acc + v <= u64_max ->
  total_bytes (add_route r v acc) = total_bytes acc + v /\ Forall (fun x => 0 <= x.2) (add_route r v acc).
Proof.
  intros Hv. induction 1 as [|[r' t] acc Ht Ha IH]; intros Hb; simpl in *; [split; [lia|by repeat constructor]|].
  pose proof (total_bytes_nonneg acc Ha).
  destruct (decide (r' = r)); simpl.
  - unfold sat_add_u64. rewrite Z.min_l by lia. split; [lia|]. constructor; [simpl; lia|done].
  - destruct IH as [IH1 IH2]; [lia|]. split; [lia|]. by constructor.
Qed.

Lemma route_bytes_sum l acc : Forall (fun x : NodeSlot * Z => 0 <= x.2) l -> Forall (fun x : RoutePath * Z => 0 <= x.2) acc ->
  total_bytes acc + total_bytes l <= u64_max ->
  total_bytes (foldl (fun acc '(s, bytes) => add_route (s_route s) bytes acc) acc l) = total_bytes acc + total_bytes l.
Proof.
  intros Hl. revert acc. induction Hl as [|[s v] l Hv Hl IH]; intros acc Ha Hb; [by rewrite Z.add_0_r|]. simpl in Hv.
  pose proof (total_bytes_nonneg l Hl). change (total_bytes ((s, v) :: l)) with (v + total_bytes l) in *.
  destruct (add_route_sum (s_route s) v acc Hv Ha ltac:(lia)) as [H1 H2]. cbn [foldl]. rewrite IH; [lia|done|lia].
Qed.

(** No byte is lost or counted twice: for any leases in flight, the bytes by
    route add up to all bytes transferred, and the bytes by accelerated source
    (proxies, network cards, pinned nodes) are all bytes but those of the
    server's own link. *)
Theorem bytes_accounted (p : NodePool) (flight : list (nat * Z)) :
  reachable p -> Forall (fun x => 0 <= x.2) flight -> total_bytes (parts p flight) <= i64_max ->
  total_bytes (route_bytes p flight) = total_bytes (parts p flight)
  /\ accelerated (source_bytes p flight) + total_bytes (filter (fun x => is_source x.1 = true) (parts p flight))
     = total_bytes (parts p flight).
Proof.
  intros Hr Hf Hb. apply reachable_ok in Hr as [Hp _].
  assert (Hn : Forall (fun x => 0 <= x.2) (parts p flight)).
  { unfold parts. apply Forall_app. split.
    - apply Forall_map. eapply Forall_impl; [exact (po_slots p Hp)|]. intros s (_ & _ & _ & _ & _ & H). exact H.
    - apply Forall_forall. intros x Hx. apply list_elem_of_omap in Hx as ([i v] & Hi & E).
      destruct (slots p !! i); [|done]. simplify_eq. rewrite Forall_forall in Hf. by apply (Hf (i, v)). }
  split.
  - unfold route_bytes. rewrite route_bytes_sum; [done|done|constructor|]. unfold i64_max, u64_max in *. simpl. lia.
  - unfold source_bytes. rewrite add_source_sum; [done|done|split; [|split]; simpl; lia|]. unfold accelerated. simpl. lia.
Qed.

(** ** A pool at work *)

Definition two_nodes : NodePool :=
  multi (lit "cdn") [lit "10.0.0.1"; lit "10.0.0.2"] ∅ (fun _ => None) (lit "t") true.
Definition with_proxy : NodePool := set_explore_flag true (add_paths RDirect None [(RProxy ManualFields, None)] two_nodes).

Lemma with_proxy_reachable : reachable with_proxy.
Proof.
  apply reach_step with (op := OpSetExplore true) (p := add_paths RDirect None [(RProxy ManualFields, None)] two_nodes); [|exact I|done].
  apply reach_step with (op := OpAddPaths RDirect None [(RProxy ManualFields, None)]) (p := two_nodes); [|split; [done|split; [exact I|repeat constructor]]|done].
  apply reach_built. apply built_multi. done.
Qed.

Definition any_segment : LeaseRequest := mk_request 0 0 (2 * 1024 * 1024) true 7.

(** The proxy has never been measured: it is explored first. *)
Example proxy_explored : fmap (fun x => l_node_id x.1) (lease_for any_segment (fun _ => true) 0 with_proxy) = Some 3%nat.
Proof. vm_compute. reflexivity. Qed.

(** While it is busy, the three links of the server's own route share the rest,
    and one whose client cannot be built is banned on the way. *)
Example shared_after :
  (let* a := lease_for any_segment (fun _ => true) 0 with_proxy in
   let* b := lease_for any_segment (fun i => negb (i =? 1)%nat) 1 a.2 in
   let* c := lease_for any_segment (fun i => negb (i =? 1)%nat) 2 b.2 in
   Some (l_node_id b.1, l_node_id c.1, map kicked (slots c.2))) = Some (0%nat, 2%nat, [false; true; false; false]).
Proof. vm_compute. reflexivity. Qed.

Lemma lease_always_granted_witness : exists l p' s,
  lease_for any_segment (fun _ => false) 0 with_proxy = Some (l, p') /\ slots p' !! l_node_id l = Some s /\ client s = true.
Proof.
  destruct (lease_always_granted with_proxy any_segment (fun _ => false) 0 with_proxy_reachable) as (l & p' & s & H1 & H2 & H3 & _).
  exists l, p', s. auto.
Defined.

Lemma pool_accounts_witness : granted (p_out with_proxy) <= SYS_FALLBACK_BUDGET /\ breaks (p_out with_proxy) = 0%nat.
Proof.
  destruct (pool_accounts with_proxy with_proxy_reachable) as (_ & _ & H3 & _ & _ & H6). split; [exact H3|exact H6].
Defined.

Lemma bans_are_final_witness :
  let op := OpLease any_segment (fun _ => false) 0 in
  bans_by (ban_cause op) (slots with_proxy) (slots (default with_proxy (exec op with_proxy))).
Proof.
  intros op. apply (bans_are_final with_proxy _ op with_proxy_reachable I). vm_compute. reflexivity.
Defined.

Lemma shares_are_even_witness : exists s,
  best_choice (take 3 (imap pair (slots with_proxy))) (pick_shared (take 3 (imap pair (slots with_proxy))), s).
Proof.
  destruct (shares_are_even with_proxy (take 3 (imap pair (slots with_proxy))) with_proxy_reachable) as (s & H & _).
  - intros x Hx. apply list_elem_of_lookup in Hx as [k Hk]. apply lookup_take_Some in Hk as [Hk _].
    rewrite list_lookup_imap in Hk. destruct (slots with_proxy !! k) as [t|] eqn:Et; [|discriminate]. injection Hk as <-. exact Et.
  - vm_compute. discriminate.
  - exists s. exact H.
Defined.

Lemma bytes_accounted_witness :
  accelerated (source_bytes with_proxy [(1%nat, 500); (0%nat, 300)]) = 500
  /\ total_bytes (route_bytes with_proxy [(1%nat, 500); (0%nat, 300)]) = 800.
Proof.
  destruct (bytes_accounted with_proxy [(1%nat, 500); (0%nat, 300)] with_proxy_reachable) as [H1 H2];
    [repeat constructor; simpl; lia|vm_compute; discriminate|].
  split; [vm_compute; reflexivity|]. rewrite H1. vm_compute. reflexivity.
Defined.
