(* ===== verification/Multipath.v ===== *)
(** * Multipath: what the coordinator does with the pool of paths
      ([native/engine/src/segment_coordinator/multipath.rs], the end of a lease in
      [worker_loop] of [segment_coordinator.rs]).

    Once per window the coordinator measures every connection in flight, feeds
    the pool, allows exploration, and takes work away from connections that
    would finish far too late.  Instants and durations are nanoseconds.  The hash
    maps of the code have no order: the orders in which it walks the live leases
    and the tracks are arguments.

    The planning of network links in the background, the construction of the
    proxies' clients, the log and the database's outcome are not modelled; the
    labels of routes are texts, as the clients read them. *)
From S2P Require Import Prelude F64 BTreeMap PathScheduler Segments Text Retry NodePool.

Definition EXPLORE_MIN_REMAINING : Z := 4 * 1024 * 1024.
Definition MIGRATION_QUIET_TICKS : Z := 2.
(** 500 ms. *)
Definition MIN_EVAL_WINDOW : Z := 500 * 10 ^ 6.

Record Track := mk_track {
  t_seg_index : Z; t_node_id : nat; t_last_bytes : Z; t_last_at : Z; t_windows : Z;
  t_last_delta : option Z; t_last_rate : option f64; t_preempted : bool }.

Definition set_preempted (t : Track) : Track :=
  mk_track (t_seg_index t) (t_node_id t) (t_last_bytes t) (t_last_at t) (t_windows t) (t_last_delta t) (t_last_rate t) true.

Record TickGuards := mk_guards {
  g_sampling : bool; g_may_reroute : bool; g_remaining_total : Z; g_protected_seg : option Z }.
Record TickReport := mk_tick { tr_preempted : nat; tr_explore_worker_wanted : bool }.

(** [RouteLabeler] with its context: the route and label the task started with. *)
Record RouteLabeler := mk_labeler {
  la_start_route : RoutePath; la_start_label : text; la_published : text; la_pinned : bool }.

Record Multipath := mk_multipath { tracks : gmap Z Track; labeler : option RouteLabeler; quiet_ticks : Z }.

(** ** Labels *)

Definition DIRECT : text := lit "direct".
Definition DIRECT_SAMPLED : text := lit "direct:sampled".
Definition DIRECT_PINNED : text := lit "direct:pinned".

Definition sampled_label (r : RoutePath) : text :=
  match r with
  | RDirect | RLink _ => DIRECT_SAMPLED
  | RProxy System => lit "proxy:sampled:system"
  | RProxy ManualFields => lit "proxy:sampled:manual"
  end.

(** By bytes, then the starting route. *)
Definition cmp_route (start : RoutePath) (a b : RoutePath * Z) : comparison :=
  match Z.compare a.2 b.2 with
  | Eq => Z.compare (Z.b2z (bool_decide (a.1 = start))) (Z.b2z (bool_decide (b.1 = start)))
  | c => c
  end.

Definition dominant (start : RoutePath) (route_bytes : list (RoutePath * Z)) : RoutePath :=
  match F64.max_by (cmp_route start) (filter (fun x => 0 < x.2) route_bytes) with Some x => x.1 | None => start end.

Definition desired (l : RouteLabeler) (route_bytes : list (RoutePath * Z)) (explored : bool) : text :=
  let start := la_start_route l in
  let d := dominant start route_bytes in
  if negb (bool_decide (d = start)) then sampled_label d
  else if bool_decide (start = RDirect) && bool_decide (la_start_label l = DIRECT) then
    if la_pinned l then DIRECT_PINNED else if explored then DIRECT_SAMPLED else la_start_label l
  else la_start_label l.

(** ** One window *)

Definition new_track (c : LiveConn) : Track :=
  mk_track (c_seg_index c) (c_node_id c) (c_start_downloaded c) (c_started_at c) 0 None None false.

(** The track of a connection whose segment has [current] bytes. *)
Definition measure (sampling : bool) (now current : Z) (t : Track) : Track :=
  let elapsed := Z.max (now - t_last_at t) 0 in
  if MIN_EVAL_WINDOW <=? elapsed then
    let delta := Z.max (current - t_last_bytes t) 0 in
    let windows := sat_add_u32 (t_windows t) 1 in
    mk_track (t_seg_index t) (t_node_id t) current now windows (Some delta)
      (if sampling && (MIN_SAMPLE_WINDOWS <=? windows) then Some (window_rate delta (as_secs_f64 elapsed)) else None)
      (t_preempted t)
  else mk_track (t_seg_index t) (t_node_id t) (t_last_bytes t) (t_last_at t) (t_windows t) None None (t_preempted t).

Definition set_seg_index (i : Z) (t : Track) : Track :=
  mk_track i (t_node_id t) (t_last_bytes t) (t_last_at t) (t_windows t) (t_last_delta t) (t_last_rate t) (t_preempted t).

Record Sampling := mk_sampling { sm_tracks : gmap Z Track; sm_segments : segmap; sm_samples : list (nat * f64) }.

Definition sample_conn (old : gmap Z Track) (sampling : bool) (now : Z) (st : Sampling) (c : LiveConn) : Sampling :=
  match bt_get (c_seg_index c) (sm_segments st) with
  | None => st
  | Some seg =>
      let t := measure sampling now (downloaded_bytes seg) (default (new_track c) (old !! c_lease_id c)) in
      let '(segs, samples) :=
        match t_last_rate t with
        | Some rate =>
            (if bool_decide (state seg = Active) then bt_alter (set_rate (Some rate)) (c_seg_index c) (sm_segments st)
             else sm_segments st,
             sm_samples st ++ [(t_node_id t, rate)])
        | None => (sm_segments st, sm_samples st)
        end in
      mk_sampling (<[c_lease_id c := set_seg_index (c_seg_index c) t]> (sm_tracks st)) segs samples
  end.

Definition clear_rates (segments : segmap) : segmap := map (fun x => (x.1, set_rate None x.2)) segments.

Definition sample_window (old : gmap Z Track) (live : list LiveConn) (sampling : bool) (now : Z) (segments : segmap) : Sampling :=
  foldl (sample_conn old sampling now) (mk_sampling ∅ (clear_rates segments) []) live.

(** ** Preemption *)

Record Straggler := mk_straggler {
  x_completion : f64; x_lease_id : Z; x_seg_index : Z; x_remaining : Z; x_rate : f64; x_node_id : nat }.

Definition straggler (segments : segmap) (g : TickGuards) (best : f64) (x : Z * Track) : option Straggler :=
  let t := x.2 in
  if t_preempted t || bool_decide (g_protected_seg g = Some (t_seg_index t)) then None else
  let* seg := bt_get (t_seg_index t) segments in
  if negb (bool_decide (state seg = Active)) then None else
  let* rate := match t_last_rate t with
               | Some rate => Some rate
               | None => if (1 <=? t_windows t) && g_sampling g && bool_decide (t_last_delta t = Some 0) then Some f64_zero else None
               end in
  let remaining := remaining seg in
  if should_preempt remaining rate best
  then Some (mk_straggler (completion_secs remaining rate) x.1 (t_seg_index t) remaining rate (t_node_id t))
  else None.

Definition later (a b : Straggler) : Prop := f64_total_cmp (x_completion b) (x_completion a) <> Gt.
#[global] Instance later_dec a b : Decision (later a b).
Proof. unfold later. destruct (f64_total_cmp _ _); [left|left|right]; congruence. Defined.

Definition drains (node_id : nat) (x : Z * Track) : Prop := t_preempted x.2 = true /\ t_node_id x.2 = node_id.
#[global] Instance drains_dec node_id x : Decision (drains node_id x).
Proof. unfold drains. apply _. Defined.
Definition draining (ts : gmap Z Track) (node_id : nat) : Z := Z.of_nat (base.size (filter (drains node_id) ts)).

Record Preempting := mk_preempting {
  pr_pool : NodePool; pr_tracks : gmap Z Track; pr_attempts : nat; pr_done : list Straggler;
  pr_stalled : list (nat * f64); pr_link_left : gmap nat Z }.

Definition is_stalled (c : Straggler) : bool := f64_eq (x_rate c) f64_zero.

(** What is left of a link's connections, counted at its first straggler. *)
Definition left_of (st : Preempting) (node_id : nat) (outstanding : Z) : Z :=
  default (Z.max (outstanding - Z.min (draining (pr_tracks st) node_id) u32_max) 0) (pr_link_left st !! node_id).

Definition take_over (c : Straggler) (st : Preempting) : Preempting :=
  let attempts := S (pr_attempts st) in
  let '(hit, p) := preempt (x_lease_id c) (pr_pool st) in
  if hit then
    mk_preempting p (alter set_preempted (x_lease_id c) (pr_tracks st)) attempts (pr_done st ++ [c])
      (if is_stalled c && bool_decide (is_Some (pr_tracks st !! x_lease_id c))
       then pr_stalled st ++ [(x_node_id c, f64_zero)] else pr_stalled st) (pr_link_left st)
  else mk_preempting p (pr_tracks st) attempts (pr_done st) (pr_stalled st) (pr_link_left st).

Definition set_left (node_id : nat) (v : Z) (st : Preempting) : Preempting :=
  mk_preempting (pr_pool st) (pr_tracks st) (pr_attempts st) (pr_done st) (pr_stalled st) (<[node_id := v]> (pr_link_left st)).

Fixpoint preempt_loop (budget : nat) (cs : list Straggler) (st : Preempting) : Preempting :=
  match cs with
  | [] => st
  | c :: cs =>
      if (pr_attempts st =? budget)%nat then st else
      match link_outstanding (pr_pool st) (x_node_id c) with
      | Some outstanding =>
          let left := left_of st (x_node_id c) outstanding in
          if f64_gt (x_rate c) f64_zero && (left <=? 1) then preempt_loop budget cs (set_left (x_node_id c) left st)
          else preempt_loop budget cs (take_over c (set_left (x_node_id c) (Z.max (left - 1) 0) st))
      | None => preempt_loop budget cs (take_over c st)
      end
  end.

Definition preempt_stragglers (order : list (Z * Track)) (ts : gmap Z Track) (segments : segmap) (g : TickGuards)
    (live_count : nat) (p : NodePool) : Preempting :=
  match best_measured_rate p with
  | None => mk_preempting p ts 0 [] [] ∅
  | Some best =>
      let cs := merge_sort later (omap (straggler segments g best) order) in
      let budget := Nat.max (live_count / 4) 1 in
      let st := preempt_loop budget cs (mk_preempting p ts 0 [] [] ∅) in
      match pr_stalled st with
      | [] => st
      | _ => mk_preempting (observe_stalled (pr_stalled st) (pr_pool st)) (pr_tracks st) (pr_attempts st) (pr_done st)
               (pr_stalled st) (pr_link_left st)
      end
  end.

(** [live] and [order] list the live leases and the new tracks. *)
Definition on_tick (live : list LiveConn) (order : gmap Z Track -> list (Z * Track)) (now : Z) (g : TickGuards)
    (m : Multipath) (segments : segmap) (p : NodePool) : Multipath * segmap * NodePool * TickReport * list Straggler :=
  let s := sample_window (tracks m) live (g_sampling g) now segments in
  let p := observe_window (sm_samples s) p in
  let explore := g_may_reroute g && (EXPLORE_MIN_REMAINING <=? g_remaining_total g) in
  let p := set_explore_flag explore p in
  let st := if g_may_reroute g && is_multipath p
            then preempt_stragglers (order (sm_tracks s)) (sm_tracks s) (sm_segments s) g (length live) p
            else mk_preempting p (sm_tracks s) 0 [] [] ∅ in
  let preempted := length (pr_done st) in
  let quiet := if (0 <? preempted)%nat then MIGRATION_QUIET_TICKS else quiet_ticks m in
  (mk_multipath (pr_tracks st) (labeler m) quiet, sm_segments s, pr_pool st,
   mk_tick preempted (explore && has_idle_cold_path (pr_pool st)), pr_done st).

Definition take_quiet_tick (m : Multipath) : bool * Multipath :=
  if 0 <? quiet_ticks m then (true, mk_multipath (tracks m) (labeler m) (quiet_ticks m - 1)) else (false, m).

Definition alternates_used (p : NodePool) : bool := alternates_explored p.

Definition in_flight (live : list LiveConn) (segments : segmap) : list (nat * Z) :=
  omap (fun c => let* seg := bt_get (c_seg_index c) segments in
                 Some (c_node_id c, Z.max (downloaded_bytes seg - c_start_downloaded c) 0)) live.

(** ** The end of a lease

    What a worker does when a segment ends: it reports to the pool, gives the
    lease back, and tells the coordinator.  The failure of one node, or of the
    starting route while another is left, is no failure of the task. *)

Inductive WorkerEvent :=
| WDone (seg_index downloaded : Z)
| WPreempted (seg_index : Z)
| WFailed (seg_index : Z) (error : DownloadError).

(** [Display] of an error; the text of a library's error is its own. *)
Definition show_error (e : DownloadError) : text :=
  match e with
  | ERequest _ m => lit "request failed: " ++ m
  | EIo m => lit "io error: " ++ m
  | EDb m => lit "db error: " ++ m
  | ECancelled => lit "cancelled"
  | EChecksumMismatch m => lit "checksum mismatch: " ++ m
  | ERangeNotSupported m =>
      lit "server does not support Range requests (returned " ++ m ++ lit " instead of 206 Partial Content)"
  | EVersionChanged m =>
      lit "file changed on server during download (validator mismatch, server returned " ++ m ++ lit ")"
  | ERangeMisaligned m =>
      lit "server returned a misaligned Range response (206 but Content-Range does not match the requested offset: "
        ++ m ++ lit ")"
  | ETrueSizeLarger z => lit "server reports a larger true size than planned (Content-Range total: " ++ show_int z ++ lit ")"
  | ECdnNodeFailed m => lit "cdn node failed: " ++ m
  | EEd2k m => lit "ed2k error: " ++ m
  | EEd2kIntegrity m => lit "ed2k integrity violation: " ++ m
  | ENotAnHlsPlaylist m => lit "not an HLS playlist: " ++ m
  | EPluginAbort m | EOther m => m
  end.

Definition range_error (e : DownloadError) : bool :=
  match e with ERangeNotSupported _ | ERangeMisaligned _ => true | _ => false end.
Definition recoverable (e : DownloadError) : bool :=
  match e with ETrueSizeLarger _ | ECdnNodeFailed _ => true | _ => false end.

Record LeaseEnd := mk_end { le_event : option WorkerEvent; le_keeps : bool; le_pool : NodePool }.

(** The report and the return of the lease; [shared] is the progress of the
    segment in the vector shared with the coordinator. *)
Definition give_back (l : NodeLease) (start_downloaded : Z) (outcome : result Z DownloadError) (shared : option Z)
    (elapsed now : Z) (p : NodePool) : NodePool :=
  let final := match outcome with Ok d => d | Err _ => default start_downloaded shared end in
  let transferred := Z.max (final - start_downloaded) 0 in
  let p := record_transfer l transferred p in
  let p := match outcome with
           | Ok _ => report l transferred elapsed (Ok tt) p
           | Err ECancelled => p
           | Err e => report l 0 elapsed (Err e) p
           end in
  drop_lease l now p.

Definition failed_end (l : NodeLease) (seg_index : Z) (e : DownloadError) (p : NodePool) : LeaseEnd :=
  let attributable := is_node_attributable e || (is_attributable l && range_error e) in
  let '(fallback, p) :=
    if negb (is_attributable l) && bool_decide (is_Some (classify_download_error e))
    then try_sys_transport_fallback p else (false, p) in
  let e := if (is_attributable l && attributable) || fallback
           then ECdnNodeFailed (lit "node " ++ describe l ++ lit ": " ++ show_error e) else e in
  mk_end (Some (WFailed seg_index e)) (recoverable e) p.

Definition end_of_lease (l : NodeLease) (seg_index start_downloaded : Z) (outcome : result Z DownloadError)
    (shared : option Z) (elapsed now : Z) (task_cancelled : bool) (p : NodePool) : LeaseEnd :=
  let p := give_back l start_downloaded outcome shared elapsed now p in
  match outcome with
  | Ok downloaded => mk_end (Some (WDone seg_index downloaded)) true p
  | Err ECancelled => if task_cancelled then mk_end None false p else mk_end (Some (WPreempted seg_index)) true p
  | Err e => failed_end l seg_index e p
  end.

(** ** Lemmas *)

Lemma quotient_sign x y : f64_nonneg x -> f64_nonneg y -> f64_div x y <> f64_neg_zero.
Proof.
  intros Hx Hy E.
  assert (Hn : f64_div x y = f64_div x y -> f64_nonneg (f64_div x y) \/ f64_is_nan (f64_div x y) = true).
  { intros _. destruct x as [[]|[]| |[] m e]; try done; destruct y as [[]|[]| |[] m' e']; try done;
      try (left; done); try (right; done); left; apply f64_div_nonneg; simpl; auto. }
  rewrite E in Hn. destruct (Hn eq_refl); done.
Qed.

Lemma window_rate_sign bytes secs : f64_nonneg secs -> window_rate bytes secs <> f64_neg_zero.
Proof.
  intros Hs. unfold window_rate. destruct (f64_le secs f64_zero); [done|].
  apply quotient_sign; [apply f64_of_Z_nonneg; lia|done].
Qed.

(** A measured rate is never minus zero; what an earlier window measured is not
    reported again. *)
Lemma measure_rate sampling now current t r : t_last_rate (measure sampling now current t) = Some r -> r <> f64_neg_zero.
Proof.
  unfold measure. destruct (_ <=? _); simpl; [|done]. destruct (_ && _); [|done]. intros [= <-].
  apply window_rate_sign, as_secs_nonneg. lia.
Qed.

Definition samples_fine (l : list (nat * f64)) : Prop := Forall (fun x => x.2 <> f64_neg_zero) l.

(** What the sampling of a window knows of the leases it has visited. *)
Record sampled (old : gmap Z Track) (live : list LiveConn) (st : Sampling) : Prop := mk_sampled {
  sp_samples : samples_fine (sm_samples st);
  sp_tracks id t : sm_tracks st !! id = Some t ->
    exists c, c ∈ live /\ c_lease_id c = id /\ t_seg_index t = c_seg_index c
      /\ t_node_id t = t_node_id (default (new_track c) (old !! id))
      /\ t_preempted t = t_preempted (default (new_track c) (old !! id)) }.

Lemma measure_frame sampling now current t :
  t_node_id (measure sampling now current t) = t_node_id t /\ t_preempted (measure sampling now current t) = t_preempted t.
Proof. unfold measure. by destruct (_ <=? _). Qed.

Lemma sample_conn_ok old sampling now c live st : sampled old live st -> sampled old (live ++ [c]) (sample_conn old sampling now st c).
Proof.
  intros [H1 H2]. unfold sample_conn. destruct (bt_get (c_seg_index c) (sm_segments st)) as [seg|].
  2:{ constructor; [done|]. intros id t Ht. destruct (H2 id t Ht) as (d & Hd & ?). exists d. split; [set_solver|done]. }
  cbv zeta. set (t := measure _ _ _ _).
  destruct (measure_frame sampling now (downloaded_bytes seg) (default (new_track c) (old !! c_lease_id c))) as [E1 E2]. fold t in E1, E2.
  assert (Ht : forall id u, <[c_lease_id c := set_seg_index (c_seg_index c) t]> (sm_tracks st) !! id = Some u ->
    exists c0, c0 ∈ live ++ [c] /\ c_lease_id c0 = id /\ t_seg_index u = c_seg_index c0
      /\ t_node_id u = t_node_id (default (new_track c0) (old !! id))
      /\ t_preempted u = t_preempted (default (new_track c0) (old !! id))).
  { intros id u Hu. apply lookup_insert_Some in Hu as [[<- <-]|[_ Hu]].
    - exists c. split; [set_solver|]. done.
    - destruct (H2 id u Hu) as (d & Hd & ?). exists d. split; [set_solver|done]. }
  destruct (t_last_rate t) as [r|] eqn:Er; constructor; simpl; try done.
  apply Forall_app. split; [done|]. apply Forall_singleton. by eapply measure_rate.
Qed.

Lemma sample_window_ok old live sampling now segments : sampled old live (sample_window old live sampling now segments).
Proof.
  unfold sample_window. set (st := mk_sampling _ _ _).
  assert (H : sampled old [] st) by (constructor; [constructor|done]).
  change live with ([] ++ live) at 1. revert H. generalize (@nil LiveConn) at 1 2. generalize st. clear st.
  induction live as [|c live IH]; intros st seen H; simpl; [by rewrite app_nil_r|].
  change (c :: live) with ([c] ++ live). rewrite app_assoc. apply IH. by apply sample_conn_ok.
Qed.

Lemma sample_conn_segments old sampling now st c k seg :
  bt_get k (sm_segments (sample_conn old sampling now st c)) = Some seg ->
  exists seg0, bt_get k (sm_segments st) = Some seg0 /\ state seg = state seg0 /\ remaining seg = remaining seg0.
Proof.
  unfold sample_conn. destruct (bt_get (c_seg_index c) (sm_segments st)) as [s0|]; [|eauto]. cbv zeta.
  destruct (t_last_rate _); simpl; [|eauto]. destruct (bool_decide _); [|eauto].
  rewrite bt_get_alter. destruct (Z.eqb_spec k (c_seg_index c)) as [->|Hk]; [|eauto].
  destruct (bt_get (c_seg_index c) (sm_segments st)) as [s1|]; [|done]. intros [= <-]. eauto.
Qed.

Lemma clear_rates_get k segments seg : bt_get k (clear_rates segments) = Some seg ->
  exists seg0, bt_get k segments = Some seg0 /\ state seg = state seg0 /\ remaining seg = remaining seg0.
Proof.
  induction segments as [|[k1 s1] segments IH]; simpl; [done|]. destruct (k =? k1); [|done].
  intros [= <-]. eauto.
Qed.

Lemma sample_window_segments old live sampling now segments k seg :
  bt_get k (sm_segments (sample_window old live sampling now segments)) = Some seg ->
  exists seg0, bt_get k segments = Some seg0 /\ state seg = state seg0 /\ remaining seg = remaining seg0.
Proof.
  unfold sample_window. set (st := mk_sampling _ _ _).
  assert (H : forall seg, bt_get k (sm_segments st) = Some seg ->
    exists seg0, bt_get k segments = Some seg0 /\ state seg = state seg0 /\ remaining seg = remaining seg0)
    by (intros s0; apply clear_rates_get).
  revert seg H. generalize st. clear st. induction live as [|c live IH]; intros st seg H; simpl; [apply H|].
  apply IH. intros s0 Hs0. apply sample_conn_segments in Hs0 as (s1 & Hs1 & E1 & E2).
  destruct (H s1 Hs1) as (s2 & ? & ? & ?). exists s2. split; [done|]. split; congruence.
Qed.

(** *** Preemption *)

Definition cancels (out : list Out) : list Z := omap (fun o => match o with TokenCancelled t => Some t | _ => None end) out.

(** How many of the chosen stragglers are on a node. *)
Definition given_up (node_id : nat) (xs : list Straggler) : Z :=
  Z.of_nat (length (filter (fun c => x_node_id c = node_id) xs)).

Lemma given_up_app n xs ys : given_up n (xs ++ ys) = given_up n xs + given_up n ys.
Proof. unfold given_up. rewrite filter_app, length_app. lia. Qed.

(** A straggler taken for its speed leaves its link another working connection. *)
Definition spares_link (p0 : NodePool) (ts0 : gmap Z Track) (xs : list Straggler) : Prop :=
  forall pre x post o, xs = pre ++ x :: post -> link_outstanding p0 (x_node_id x) = Some o -> f64_gt (x_rate x) f64_zero = true ->
    draining ts0 (x_node_id x) + given_up (x_node_id x) pre + 2 <= o.

(** A straggler comes from a track that has not been preempted. *)
Definition from_track (ts : gmap Z Track) (c : Straggler) : Prop :=
  exists t, ts !! x_lease_id c = Some t /\ t_node_id t = x_node_id c /\ t_preempted t = false.

Record preempt_inv (p0 : NodePool) (ts0 : gmap Z Track) (budget : nat) (st : Preempting) : Prop := mk_preempt_inv {
  pi_reach : reachable (pr_pool st);
  pi_slots : slots (pr_pool st) = slots p0;
  pi_live : live (pr_pool st) = live p0;
  pi_out : exists out, p_out (pr_pool st) = p_out p0 ++ out
    /\ Forall2 (fun t c => exists conn, live p0 !! x_lease_id c = Some conn /\ c_cancel conn = t) (cancels out) (pr_done st);
  pi_attempts : pr_attempts st = length (pr_done st) /\ (pr_attempts st <= budget)%nat;
  pi_stalled : samples_fine (pr_stalled st);
  pi_tracks id : id ∉ map x_lease_id (pr_done st) -> pr_tracks st !! id = ts0 !! id;
  pi_left n o : link_outstanding p0 n = Some o -> match pr_link_left st !! n with
    | Some v => v <= Z.max (o - draining ts0 n - given_up n (pr_done st)) 0
    | None => given_up n (pr_done st) = 0 /\ draining (pr_tracks st) n = draining ts0 n
    end;
  pi_spares : spares_link p0 ts0 (pr_done st) }.

Lemma draining_alter ts id t n : ts !! id = Some t -> t_node_id t <> n -> draining (alter set_preempted id ts) n = draining ts n.
Proof.
  intros Ht Hn. unfold draining. f_equal. f_equal. apply map_filter_strong_ext_1. intros i u. unfold drains. simpl.
  destruct (decide (i = id)) as [->|Hi].
  - rewrite lookup_alter, decide_True, Ht by done. simpl. split; intros [[? Hu] ?]; simplify_eq; done.
  - by rewrite lookup_alter_ne.
Qed.

Lemma take_over_ok p0 ts0 budget c st : preempt_inv p0 ts0 budget st ->
  (pr_attempts st < budget)%nat ->
  is_Some (live p0 !! x_lease_id c) -> from_track ts0 c -> x_lease_id c ∉ map x_lease_id (pr_done st) ->
  (* the entry of its link has been brought down for it *)
  (forall o, link_outstanding p0 (x_node_id c) = Some o -> exists v, pr_link_left st !! x_node_id c = Some v
    /\ v <= Z.max (o - draining ts0 (x_node_id c) - given_up (x_node_id c) (pr_done st) - 1) 0
    /\ (f64_gt (x_rate c) f64_zero = true -> draining ts0 (x_node_id c) + given_up (x_node_id c) (pr_done st) + 2 <= o)) ->
  preempt_inv p0 ts0 budget (take_over c st).
Proof.
  intros [H1 H2 H3 (out & Ho & Hf) [H5 H5'] H6 H7 H8 H9] Hb [conn Hc] (t & Ht & Hn & Hp) Hid Hleft.
  unfold take_over, preempt. rewrite H3, Hc.
  assert (Htr : pr_tracks st !! x_lease_id c = Some t) by (rewrite H7; done).
  constructor; cbn [pr_pool pr_tracks pr_attempts pr_done pr_stalled pr_link_left]; try done.
  - eapply reach_step with (op := OpPreempt (x_lease_id c)); [exact H1|exact I|].
    unfold exec, preempt. rewrite H3, Hc. done.
  - exists (out ++ [TokenCancelled (c_cancel conn)]). split; [simpl; by rewrite Ho, app_assoc|].
    unfold cancels. rewrite omap_app. apply Forall2_app; [done|]. simpl. constructor; [eauto|constructor].
  - rewrite length_app. simpl. lia.
  - destruct (_ && _); [|done]. apply Forall_app. split; [done|]. by apply Forall_singleton.
  - intros id Hi. rewrite map_app in Hi. simpl in Hi. rewrite lookup_alter_ne by set_solver. apply H7. set_solver.
  - intros n o Hl. rewrite given_up_app. specialize (H8 n o Hl). unfold given_up at 2 4. rewrite filter_cons. simpl.
    destruct (decide (x_node_id c = n)) as [<-|Hne].
    + destruct (Hleft o Hl) as (v & Hv & Hvb & _). rewrite Hv. simpl. lia.
    + simpl. destruct (pr_link_left st !! n) as [v|]; [lia|]. rewrite (draining_alter _ _ t n Htr) by congruence. lia.
  - intros pre x post o E Hl Hr. destruct post as [|y post] using rev_ind.
    + apply app_inj_tail in E as [<- <-]. destruct (Hleft o Hl) as (v & _ & _ & Hs). by apply Hs.
    + rewrite app_comm_cons, app_assoc in E. apply app_inj_tail in E as [E _]. by apply (H9 pre x post o).
Qed.

Lemma set_left_ok p0 ts0 budget n v st : preempt_inv p0 ts0 budget st ->
  (forall o, link_outstanding p0 n = Some o -> v <= Z.max (o - draining ts0 n - given_up n (pr_done st)) 0) ->
  preempt_inv p0 ts0 budget (set_left n v st).
Proof.
  intros [H1 H2 H3 H4 H5 H6 H7 H8 H9] Hv. constructor; simpl; try done.
  intros m o Hl. destruct (decide (n = m)) as [<-|Hne].
  - rewrite lookup_insert, decide_True by done. auto.
  - rewrite lookup_insert_ne by done. by apply H8.
Qed.

Lemma draining_bound ts n : draining ts n <= Z.of_nat (base.size ts).
Proof. unfold draining. apply inj_le. apply map_size_filter. Qed.

Lemma left_of_bound p0 ts0 budget st n o : preempt_inv p0 ts0 budget st -> link_outstanding p0 n = Some o ->
  Z.of_nat (base.size ts0) <= u32_max ->
  left_of st n o <= Z.max (o - draining ts0 n - given_up n (pr_done st)) 0.
Proof.
  intros Hi Hl Hs. unfold left_of. pose proof (pi_left _ _ _ _ Hi n o Hl) as Hp.
  destruct (pr_link_left st !! n) as [v|]; simpl; [done|]. destruct Hp as [-> ->].
  pose proof (draining_bound ts0 n). lia.
Qed.

Lemma link_outstanding_slots p q n : slots p = slots q -> link_outstanding p n = link_outstanding q n.
Proof. unfold link_outstanding. by intros ->. Qed.

Lemma preempt_loop_ok p0 ts0 budget cs st : preempt_inv p0 ts0 budget st -> Z.of_nat (base.size ts0) <= u32_max ->
  Forall (fun c => is_Some (live p0 !! x_lease_id c) /\ from_track ts0 c) cs ->
  NoDup (map x_lease_id (pr_done st ++ cs)) ->
  preempt_inv p0 ts0 budget (preempt_loop budget cs st)
  /\ exists ys, pr_done (preempt_loop budget cs st) = pr_done st ++ ys /\ ys `sublist_of` cs.
Proof.
  intros Hi Hs Hcs. revert st Hi. induction Hcs as [|c cs [Hl Ht] Hcs IH]; intros st Hi Hnd.
  { simpl. split; [done|]. exists []. by rewrite app_nil_r. }
  assert (Hid : x_lease_id c ∉ map x_lease_id (pr_done st)).
  { rewrite map_app in Hnd. apply NoDup_app in Hnd as (_ & Hd & _). intros Hin. apply (Hd _ Hin). simpl. set_solver. }
  assert (Hskip : NoDup (map x_lease_id (pr_done st ++ cs))).
  { rewrite map_app in *. apply NoDup_app in Hnd as (Ha & Hd & Hc). apply NoDup_cons in Hc as [_ Hc].
    apply NoDup_app. split; [done|]. split; [|done]. intros y Hy Hy'. apply (Hd y Hy). simpl. set_solver. }
  cbn [preempt_loop]. destruct (Nat.eqb_spec (pr_attempts st) budget) as [E|E].
  { split; [done|]. exists []. rewrite app_nil_r. split; [done|apply sublist_nil_l]. }
  assert (Hb : (pr_attempts st < budget)%nat) by (destruct (pi_attempts _ _ _ _ Hi); lia).
  assert (Htake : forall st', pr_done st' = pr_done st -> preempt_inv p0 ts0 budget (take_over c st') ->
    pr_done (take_over c st') = pr_done st ++ [c] ->
    preempt_inv p0 ts0 budget (preempt_loop budget cs (take_over c st'))
    /\ exists ys, pr_done (preempt_loop budget cs (take_over c st')) = pr_done st ++ ys /\ ys `sublist_of` c :: cs).
  { intros st' Hd' Hi' Hdone. destruct (IH (take_over c st') Hi') as [H1 (ys & Hys & Hsub)].
    - rewrite Hdone. by rewrite <- app_assoc.
    - split; [done|]. exists (c :: ys). rewrite Hys, Hdone, <- app_assoc. split; [done|]. by apply sublist_skip. }
  assert (Hdone : forall st', pr_done st' = pr_done st -> live (pr_pool st') = live p0 -> pr_done (take_over c st') = pr_done st ++ [c]).
  { intros st' Hd' Hlv. unfold take_over, preempt. rewrite Hlv. destruct Hl as [conn ->]. simpl. by rewrite Hd'. }
  rewrite (link_outstanding_slots _ p0) by apply (pi_slots _ _ _ _ Hi).
  destruct (link_outstanding p0 (x_node_id c)) as [o|] eqn:Elo.
  - pose proof (left_of_bound _ _ _ _ _ _ Hi Elo Hs) as Hlb.
    destruct (f64_gt (x_rate c) f64_zero && _) eqn:Eskip.
    + destruct (IH (set_left (x_node_id c) (left_of st (x_node_id c) o) st)) as [H1 (ys & Hys & Hsub)].
      * apply set_left_ok; [done|]. intros o' Ho'. simplify_eq. done.
      * done.
      * split; [done|]. exists ys. split; [done|]. by apply sublist_cons.
    + set (st' := set_left _ _ st).
      assert (Hi' : preempt_inv p0 ts0 budget st').
      { apply set_left_ok; [done|]. intros o' Ho'. simplify_eq. lia. }
      apply Htake; [done| |apply Hdone; [done|apply (pi_live _ _ _ _ Hi)]].
      apply take_over_ok; try done. intros o' Ho'. simplify_eq.
      exists (Z.max (left_of st (x_node_id c) o - 1) 0). split; [simpl; by rewrite lookup_insert, decide_True|].
      split; [simpl; lia|]. intros Hr. rewrite Hr in Eskip. simpl in Eskip. bool_hyps. simpl. lia.
  - apply Htake; [done| |apply Hdone; [done|apply (pi_live _ _ _ _ Hi)]].
    apply take_over_ok; try done. intros o' Ho'. congruence.
Qed.

(** *** The window *)

Definition same_leases (p q : NodePool) : Prop :=
  live q = live p /\ cancels (p_out q) = cancels (p_out p) /\ forall n, link_outstanding q n = link_outstanding p n.

Lemma same_leases_refl p : same_leases p p.
Proof. done. Qed.

Lemma same_leases_trans p q r : same_leases p q -> same_leases q r -> same_leases p r.
Proof. intros (A1 & A2 & A3) (B1 & B2 & B3). split; [congruence|]. split; [congruence|]. intros n. by rewrite B3. Qed.

Lemma cancels_app a b : cancels (a ++ b) = cancels a ++ cancels b.
Proof. apply omap_app. Qed.

Lemma on_slot_leases i f p : (forall s, s_route (f s) = s_route s /\ outstanding (f s) = outstanding s) -> same_leases p (on_slot i f p).
Proof.
  intros Hf. split; [done|]. split; [done|]. intros n. unfold link_outstanding. simpl.
  rewrite list_lookup_alter. destruct (decide (i = n)) as [->|]; [|done].
  destruct (slots p !! n) as [s|]; [|done]. simpl. by destruct (Hf s) as [-> ->].
Qed.

Lemma observe_leases samples count_conns p : same_leases p (observe samples count_conns p).
Proof.
  unfold observe. generalize (remove_dups (filter (fun x => valid_sample x.2 = true) samples).*1). intros nodes.
  assert (H : forall q, same_leases p q -> same_leases p (foldl (observe_node samples count_conns) q nodes));
    [|apply H, same_leases_refl].
  induction nodes as [|n nodes IH]; intros q Hq; [done|]. simpl. apply IH. unfold observe_node.
  destruct (median _) as [med|]; [|done]. cbv zeta.
  set (q1 := on_slot _ _ q). assert (Hq1 : same_leases p q1).
  { eapply same_leases_trans; [exact Hq|]. apply on_slot_leases. intros s. unfold observe_slot. by destruct count_conns. }
  destruct (slots q1 !! n) as [s|]; [|done]. destruct (ip s); [|done]. destruct (has_db q1); [|done].
  destruct Hq1 as (A1 & A2 & A3). split; [done|]. split; [|done]. simpl. rewrite cancels_app. change (p_out q) with (p_out q1). rewrite A2. apply app_nil_r.
Qed.

Lemma sm_tracks_size old live sampling now segments :
  (base.size (sm_tracks (sample_window old live sampling now segments)) <= length live)%nat.
Proof.
  unfold sample_window. set (st := mk_sampling _ _ _).
  assert (H : (base.size (sm_tracks st) <= 0)%nat) by (simpl; by rewrite map_size_empty).
  revert H. rewrite <- (Nat.add_0_l (length live)). generalize 0%nat as k. generalize st. clear st.
  induction live as [|c live IH]; intros st k H; simpl; [lia|].
  rewrite <- Nat.add_succ_comm. apply IH. unfold sample_conn. destruct (bt_get _ _); [|lia]. cbv zeta.
  assert (Hins : forall v, (base.size (<[c_lease_id c := v]> (sm_tracks st)) <= S k)%nat).
  { intros v. destruct (sm_tracks st !! c_lease_id c) eqn:E; [rewrite map_size_insert_Some by (by eexists)|rewrite map_size_insert_None by done]; lia. }
  destruct (t_last_rate _); simpl; apply Hins.
Qed.

Lemma straggler_spec segments g best x c : straggler segments g best x = Some c ->
  x_lease_id c = x.1 /\ x_seg_index c = t_seg_index x.2 /\ x_node_id c = t_node_id x.2 /\ t_preempted x.2 = false
  /\ g_protected_seg g <> Some (x_seg_index c)
  /\ exists seg, bt_get (x_seg_index c) segments = Some seg /\ state seg = Active
     /\ should_preempt (remaining seg) (x_rate c) best = true.
Proof.
  unfold straggler. destruct (t_preempted x.2) eqn:Ep; [done|]. simpl. destruct (bool_decide _) eqn:Eg; [done|].
  destruct (bt_get _ _) as [seg|] eqn:Es; [|done]. destruct (bool_decide (state seg = Active)) eqn:Ea; [|done]. simpl.
  destruct (match t_last_rate x.2 with Some _ => _ | None => _ end) as [rate|]; [|done].
  destruct (should_preempt _ _ _) eqn:Esp; [|done]. intros [= <-]. simpl. bool_hyps. eauto 10.
Qed.

(** What one scan over the tracks [ts] of a window takes. *)
Record taken_ok (p0 : NodePool) (ts : gmap Z Track) (segments : segmap) (g : TickGuards) (live_count : nat) (st : Preempting) : Prop := mk_taken_ok {
  tk_reach : reachable (pr_pool st);
  tk_bounded : (length (pr_done st) <= Nat.max (live_count / 4) 1)%nat;
  tk_once : NoDup (map x_lease_id (pr_done st));
  tk_cancels : exists tokens, cancels (p_out (pr_pool st)) = cancels (p_out p0) ++ tokens
    /\ Forall2 (fun t x => exists c, live p0 !! x_lease_id x = Some c /\ c_cancel c = t) tokens (pr_done st);
  tk_slow x : x ∈ pr_done st -> exists t best, ts !! x_lease_id x = Some t /\ straggler segments g best (x_lease_id x, t) = Some x;
  tk_spares : spares_link p0 ts (pr_done st) }.

Lemma nothing_taken p ts segments g n : reachable p -> taken_ok p ts segments g n (mk_preempting p ts 0 [] [] ∅).
Proof.
  intros Hr. split; simpl; [done|lia|constructor| | |intros pre x post o E; by destruct pre].
  - exists []. rewrite app_nil_r. split; [done|constructor].
  - intros x Hx. by apply not_elem_of_nil in Hx.
Qed.

Lemma stragglers_nodup segments g best (l : list (Z * Track)) : NoDup l.*1 -> NoDup (map x_lease_id (omap (straggler segments g best) l)).
Proof.
  induction l as [|x l IH]; intros Hk; [constructor|]. apply NoDup_cons in Hk as [Hx Hk]. simpl.
  destruct (straggler _ _ _ x) as [c|] eqn:Ec; simpl; [|by apply IH].
  apply NoDup_cons. split; [|by apply IH]. destruct (straggler_spec _ _ _ _ _ Ec) as (-> & _). intros Hin'. apply Hx.
  apply list_elem_of_In, in_map_iff in Hin' as (d & Ed & Hd). apply list_elem_of_In, list_elem_of_omap in Hd as (y & Hy & Ey).
  destruct (straggler_spec _ _ _ _ _ Ey) as (E & _). apply list_elem_of_fmap. exists y. split; [congruence|done].
Qed.

Lemma stalled_observed p0 ts budget st : preempt_inv p0 ts budget st ->
  reachable (observe_stalled (pr_stalled st) (pr_pool st)) /\ cancels (p_out (observe_stalled (pr_stalled st) (pr_pool st))) = cancels (p_out (pr_pool st)).
Proof.
  intros Hi. split; [|apply observe_leases].
  eapply reach_step with (op := OpObserve (pr_stalled st) false); [apply (pi_reach _ _ _ _ Hi)|exact (pi_stalled _ _ _ _ Hi)|reflexivity].
Qed.

Lemma preempt_stragglers_ok p ts order segments g n :
  reachable p -> order ≡ₚ map_to_list ts -> Z.of_nat (base.size ts) <= u32_max ->
  (forall id t, ts !! id = Some t -> is_Some (live p !! id)) -> taken_ok p ts segments g n (preempt_stragglers order ts segments g n p).
Proof.
  intros Hr Horder Hsize Hts. unfold preempt_stragglers. destruct (best_measured_rate p) as [best|]; [|by apply nothing_taken].
  set (cs := merge_sort later _). set (budget := Nat.max _ _). set (st0 := mk_preempting _ _ _ _ _ _).
  assert (Hcs : forall c, c ∈ cs -> exists t, ts !! x_lease_id c = Some t /\ straggler segments g best (x_lease_id c, t) = Some c).
  { intros c Hc. unfold cs in Hc. rewrite merge_sort_Permutation, Horder in Hc. apply list_elem_of_omap in Hc as ([id t] & Hin%elem_of_map_to_list & Hst).
    destruct (straggler_spec _ _ _ _ _ Hst) as (E & _). simpl in E. rewrite E. eauto. }
  assert (Hi0 : preempt_inv p ts budget st0).
  { unfold st0. constructor; [exact Hr|done|done| |simpl; lia|constructor|done| |intros pre x post o E; by destruct pre].
    - exists []. rewrite app_nil_r. split; [done|constructor].
    - intros i o _. simpl. rewrite lookup_empty. done. }
  assert (Hnd : NoDup (map x_lease_id cs)).
  { unfold cs. rewrite merge_sort_Permutation, Horder. apply stragglers_nodup, NoDup_fst_map_to_list. }
  destruct (preempt_loop_ok p ts budget cs st0 Hi0 Hsize) as [Hi (ys & Hys & Hsub)]; [|exact Hnd|].
  { apply Forall_forall. intros c Hc. destruct (Hcs c Hc) as (t & Ht & Hst). split; [by eapply Hts|].
    destruct (straggler_spec _ _ _ _ _ Hst) as (_ & _ & E3 & E4 & _). by exists t. }
  set (st := preempt_loop budget cs st0) in *. simpl in Hys.
  assert (Hst : taken_ok p ts segments g n st).
  { destruct (pi_attempts _ _ _ _ Hi) as [Ha1 Ha2]. split; [apply (pi_reach _ _ _ _ Hi)|unfold budget in Ha2; lia| | | |apply (pi_spares _ _ _ _ Hi)].
    - rewrite Hys. eapply sublist_NoDup; [exact Hnd|]. by apply (fmap_sublist x_lease_id).
    - destruct (pi_out _ _ _ _ Hi) as (out & Hout & Hf). exists (cancels out). by rewrite Hout, cancels_app.
    - intros x Hx. rewrite Hys in Hx. destruct (Hcs x) as (t & Ht & Hx'); [by eapply elem_of_sublist|]. by exists t, best. }
  destruct (pr_stalled st) as [|x0 l0] eqn:Es; [done|]. destruct (stalled_observed _ _ _ _ Hi) as [H1 H2]. rewrite Es in H1, H2.
  destruct Hst as [T1 T2 T3 (tokens & T4 & T4') T5 T6]. split; [exact H1|exact T2|exact T3| |exact T5|exact T6].
  exists tokens. simpl. by rewrite H2.
Qed.

(** C37. What one window takes from whom.  Whatever the order in which the code walks
    its hash maps: work is taken only while the task may be rerouted, from at
    most a quarter of the connections (or one), each once, each in flight on an
    active segment that is not the task's lifeline, each predicted to finish far
    later than the best path would; exactly their tokens are cancelled; and a
    connection that is merely slow is taken from a network link only while
    another of the link's connections is not being stopped. *)
Theorem preemption_is_bounded (p : NodePool) (m : Multipath) (segments : segmap) (g : TickGuards) (now : Z)
    (live : list LiveConn) (order : gmap Z Track -> list (Z * Track)) :
  reachable p -> live ≡ₚ live_conns p -> (forall ts, order ts ≡ₚ map_to_list ts) -> Z.of_nat (length live) <= u32_max ->
  let '(m', segments', p', report, xs) := on_tick live order now g m segments p in
  reachable p' /\ tr_preempted report = length xs
  /\ (g_may_reroute g = false -> xs = [])
  /\ (length xs <= Nat.max (length live / 4) 1)%nat /\ NoDup (map x_lease_id xs)
  /\ (exists tokens, cancels (p_out p') = cancels (p_out p) ++ tokens
      /\ Forall2 (fun t x => exists c, NodePool.live p !! x_lease_id x = Some c /\ c_cancel c = t) tokens xs)
  /\ (forall x, x ∈ xs -> g_protected_seg g <> Some (x_seg_index x)
      /\ (forall t, tracks m !! x_lease_id x = Some t -> t_preempted t = false)
      /\ exists best seg, bt_get (x_seg_index x) segments = Some seg /\ state seg = Active
         /\ should_preempt (remaining seg) (x_rate x) best = true)
  /\ spares_link p (sm_tracks (sample_window (tracks m) live (g_sampling g) now segments)) xs.
Proof.
  intros Hr Hlive Horder Hsize. unfold on_tick. cbv zeta.
  pose proof (sample_window_ok (tracks m) live (g_sampling g) now segments) as [Hsm Htr].
  pose proof (sm_tracks_size (tracks m) live (g_sampling g) now segments) as Hts.
  pose proof (sample_window_segments (tracks m) live (g_sampling g) now segments) as Hseg.
  set (s := sample_window _ _ _ _ _) in *. set (p1 := set_explore_flag _ _).
  assert (Hp1 : reachable p1).
  { eapply reach_step with (op := OpSetExplore _); [|exact I|reflexivity].
    eapply reach_step with (op := OpObserve (sm_samples s) true); [exact Hr|exact Hsm|reflexivity]. }
  assert (same_leases p p1) as (L1 & L2 & L3).
  { destruct (observe_leases (sm_samples s) true p) as (A1 & A2 & A3). split; [exact A1|]. split; [exact A2|]. intros n. by rewrite <- A3. }
  set (st := if _ : bool then _ else _).
  assert (Hold : forall id t, sm_tracks s !! id = Some t -> is_Some (NodePool.live p !! id) /\
    (forall t0, tracks m !! id = Some t0 -> t_preempted t = false -> t_preempted t0 = false)).
  { intros id t Ht. apply elem_of_map_to_list in Ht. destruct (Htr id t ltac:(by apply elem_of_map_to_list in Ht)) as (conn & Hconn & Eid & _ & _ & Ep). split.
    - rewrite Hlive in Hconn. unfold live_conns in Hconn. apply list_elem_of_fmap in Hconn as ([k d] & E & Hd). simpl in E. subst d.
      apply elem_of_map_to_list in Hd. pose proof (po_live p (proj1 (reachable_ok p Hr)) k conn Hd) as (Ek & _). rewrite <- Eid, Ek. eauto.
    - intros t0 Ht0 Et. rewrite Ht0 in Ep. simpl in Ep. congruence. }
  assert (Hst : taken_ok p1 (sm_tracks s) (sm_segments s) g (length live) st /\ (g_may_reroute g = false -> pr_done st = [])).
  { unfold st. destruct (g_may_reroute g && is_multipath p1) eqn:Emay; [|split; [by apply nothing_taken|done]].
    apply andb_prop in Emay as [Emay _]. split; [|congruence].
    apply preempt_stragglers_ok; [done|apply Horder|lia|]. intros id t Ht. rewrite L1. by eapply Hold. }
  destruct Hst as [[T1 T2 T3 (tokens & T4 & T5) T6 T7] Hno].
  split; [exact T1|]. split; [done|]. split; [exact Hno|]. split; [exact T2|]. split; [exact T3|]. split; [|split].
  - exists tokens. split; [by rewrite T4, <- L2|]. eapply Forall2_impl; [exact T5|]. intros t x (c & Hc & ?). exists c. by rewrite <- L1.
  - intros x Hx. destruct (T6 x Hx) as (t & best & Ht & Hx'). destruct (straggler_spec _ _ _ _ _ Hx') as (_ & _ & _ & Ep & Hg & seg & Hs & Ha & Hsp).
    split; [done|]. split; [intros t0 Ht0; by eapply Hold|]. destruct (Hseg _ _ Hs) as (seg0 & Hs0 & Es & Er). exists best, seg0. by rewrite <- Er, <- Es.
  - intros pre x post o E Ho Hrate. rewrite <- L3 in Ho. by eapply T7.
Qed.

(** ** The end of a lease *)

Lemma alternate_alive_alter i f ss start : (forall s, kicked (f s) = kicked s /\ s_route (f s) = s_route s) ->
  alternate_alive (alter f i ss) start = alternate_alive ss start.
Proof.
  intros Hf. unfold alternate_alive. revert i. induction ss as [|s ss IH]; intros i; [done|].
  destruct i as [|i]; simpl; [by destruct (Hf s) as [-> ->]|]. f_equal. apply IH.
Qed.

Lemma sys_route_alter i f ss : (forall s, s_route (f s) = s_route s) -> sys_route (alter f i ss) = sys_route ss.
Proof. intros Hf. destruct ss as [|s ss]; [done|]. destruct i; simpl; [apply Hf|done]. Qed.

(** The parts of the pool that decide on a change of route. *)
Definition same_route (p q : NodePool) : Prop :=
  sys_fallback_budget q = sys_fallback_budget p /\ sys_fallback_available q = sys_fallback_available p
  /\ granted (p_out q) = granted (p_out p).

Lemma same_route_intro p q : sys_fallback_budget q = sys_fallback_budget p -> granted (p_out q) = granted (p_out p) ->
  sys_route (slots q) = sys_route (slots p) ->
  alternate_alive (slots q) (sys_route (slots p)) = alternate_alive (slots p) (sys_route (slots p)) -> same_route p q.
Proof. intros E1 E2 E3 E4. unfold same_route, sys_fallback_available. rewrite E1, E2, E3, E4. done. Qed.

Lemma same_route_trans p q r : same_route p q -> same_route q r -> same_route p r.
Proof. intros (A1 & A2 & A3) (B1 & B2 & B3). repeat split; congruence. Qed.

Lemma on_slot_route i f p : (forall s, kicked (f s) = kicked s /\ s_route (f s) = s_route s) -> same_route p (on_slot i f p).
Proof.
  intros Hf. apply same_route_intro; try done.
  - apply sys_route_alter. intros s. by destruct (Hf s).
  - by apply alternate_alive_alter.
Qed.

Lemma drop_route l now p : same_route p (drop_lease l now p).
Proof.
  unfold drop_lease. set (p1 := on_slot _ _ _).
  eapply same_route_trans; [apply (on_slot_route (l_node_id l) (fun s => set_outstanding (Z.max (outstanding s - 1) 0) s)); done|].
  assert (H : same_route p1 (leases_event_locked now p1).1).
  { unfold leases_event_locked. destruct (_ || _); [done|]. destruct (bool_decide _); [done|]. by destruct (too_soon now p1). }
  change (same_route p1 (let '(p, evt) := leases_event_locked now p1 in emit_all (option_list evt) p)).
  destruct (leases_event_locked now p1) as [p2 evt]. eapply same_route_trans; [exact H|].
  destruct evt as [e|]; [|done]. unfold emit_all. simpl. destruct (has_sink p2); [|by destruct (has_links _)].
  apply same_route_intro; try done. simpl. rewrite granted_app. unfold granted at 2. simpl. lia.
Qed.

(** On the starting route a report changes nothing that decides. *)
Lemma report_err_route l e p : l_node_id l = 0%nat -> (exists s, slots p !! 0%nat = Some s /\ ip s = None) ->
  same_route p (report_err l e p).
Proof.
  intros Hl (s & Hs & Hip). unfold report_err. rewrite Hl, Hs. cbv zeta. simpl. rewrite Hip. by apply on_slot_route.
Qed.

Lemma kick_slot_live l e p : live (kick_slot l e p).1 = live p.
Proof.
  unfold kick_slot. destruct (slots p !! l_node_id l) as [t|]; [|done]. cbv zeta.
  set (p3 := match link t with Some k => _ | None => _ end).
  assert (E3 : live p3 = live p) by (unfold p3; destruct (link t); [|done]; by destruct (is_validator_mismatch e)).
  destruct (check_breaker_slots p3) as (_ & _ & _ & E4). destruct (check_breaker p3) as [p4 evt]. simpl in *.
  rewrite <- E3, <- E4. unfold remember_kick, note_path_failure.
  destruct (is_validator_mismatch e && is_proxy (s_route t)); destruct (_ && _); try done; by destruct (_ || _).
Qed.

Lemma report_live l bytes elapsed outcome p : live (report l bytes elapsed outcome p) = live p.
Proof.
  destruct outcome as [u|e]; simpl.
  - unfold report_ok. cbv zeta. destruct (_ && _); [|done].
    set (p1 := on_slot _ _ _). change (live p) with (live p1).
    destruct (slots p1 !! _) as [s|]; [|done]. destruct (ip s); [|done]. by destruct (has_db p1).
  - unfold report_err. destruct (slots p !! l_node_id l) as [s|] eqn:Es; [|done]. cbv zeta.
    set (p2 := match ip _ with Some ip => _ | None => _ end).
    assert (E2 : live p2 = live p) by (unfold p2; destruct (ip _); [|done]; by destruct (has_db _)).
    destruct (_ && _); [|done]. pose proof (kick_slot_live l e p2) as E3. destruct (kick_slot l e p2) as [p3 ev].
    destruct (emit_all_frame ev p3) as (_ & -> & _). by rewrite <- E2.
Qed.

Lemma give_back_reachable l start outcome shared elapsed now p : reachable p -> held l p -> 0 <= elapsed ->
  (forall d, (outcome = Ok d \/ shared = Some d) -> d - start <= i64_max) ->
  reachable (give_back l start outcome shared elapsed now p) /\
  (l_node_id l = 0%nat -> (forall d, outcome <> Ok d) -> same_route p (give_back l start outcome shared elapsed now p)).
Proof.
  intros Hr Hh He Hd. unfold give_back. cbv zeta. set (tr := Z.max _ 0).
  assert (Htr : is_u64 tr).
  { unfold is_u64, tr, i64_max in *. split; [lia|]. destruct outcome as [d|e]; [specialize (Hd d (or_introl eq_refl)); lia|].
    destruct shared as [d|]; simpl; [specialize (Hd d (or_intror eq_refl)); lia|lia]. }
  assert (H1 : reachable (record_transfer l tr p)) by (by apply reach_step with (p := p) (op := OpTransfer l tr)).
  assert (Hh1 : held l (record_transfer l tr p)) by done.
  assert (Hs : exists s, slots (record_transfer l tr p) !! 0%nat = Some s /\ ip s = None).
  { destruct (po_sys _ (proj1 (reachable_ok _ H1))) as (s & Hs & _ & _ & ? & _). eauto. }
  assert (Hrt : same_route p (record_transfer l tr p)) by (by apply on_slot_route).
  set (p1 := record_transfer l tr p) in *.
  assert (Hrep : forall b o, is_u64 b -> reachable (report l b elapsed o p1)) by
    (intros b o Hb; by apply reach_step with (p := p1) (op := OpReport l b elapsed o)).
  assert (Hheld : forall b o, held l (report l b elapsed o p1)).
  { intros b o. destruct Hh1 as (c & Hc & Hn). exists c. split; [|done]. by rewrite report_live. }
  assert (Hdrop : forall q, reachable q -> held l q -> reachable (drop_lease l now q)) by
    (intros q Hq Hhq; by apply reach_step with (p := q) (op := OpDrop l now)).
  assert (H0 : is_u64 0) by (unfold is_u64; lia).
  split.
  - destruct outcome as [d|[]]; apply Hdrop; auto.
  - intros Hl Hno. eapply same_route_trans; [|apply drop_route]. eapply same_route_trans; [exact Hrt|].
    destruct outcome as [d|[]]; try (by apply report_err_route); [by destruct (Hno d)|done].
Qed.

Lemma fallback_spec p :
  try_sys_transport_fallback p =
    (sys_fallback_available p, if sys_fallback_available p
       then send FallbackGranted (note_path_failure (sys_route (slots p)) (set_budget (sys_fallback_budget p - 1) p)) else p).
Proof.
  unfold try_sys_transport_fallback, sys_fallback_available.
  destruct (alternate_alive _ _); simpl; [|by rewrite andb_false_r].
  destruct (Z.ltb_spec (sys_fallback_budget p) 1), (Z.ltb_spec 0 (sys_fallback_budget p)); done || lia.
Qed.

(** C38. A failure fails the task only where no other path can take over: on a node or
    an alternate route, any failure that can be blamed on it (a failed request, a
    stall, another version, a refused or misaligned range) is recovered; on the
    starting route a failed transfer is recovered while another route is usable,
    and the quota pays for it; every other failure reaches the coordinator as it
    is.  A worker goes on after a recoverable failure, and the pool stays in a
    reachable state, so the quota of eight and the bans bound how often.  The
    critical sections of one end (measurement, report, return of the lease,
    fallback) are run here without another worker's section in between. *)
Theorem failures_are_redirected (l : NodeLease) (seg_index start_downloaded elapsed now : Z) (e : DownloadError)
    (shared : option Z) (task_cancelled : bool) (p : NodePool) :
  reachable p -> held l p -> 0 <= elapsed -> (forall d, shared = Some d -> d - start_downloaded <= i64_max) -> e <> ECancelled ->
  let r := end_of_lease l seg_index start_downloaded (Err e) shared elapsed now task_cancelled p in
  let by_node := is_attributable l && (is_node_attributable e || range_error e) in
  let by_route := negb (is_attributable l) && bool_decide (is_Some (classify_download_error e)) && sys_fallback_available p in
  reachable (le_pool r)
  /\ (if by_node || by_route
      then exists msg, le_event r = Some (WFailed seg_index (ECdnNodeFailed msg)) /\ le_keeps r = true
      else le_event r = Some (WFailed seg_index e) /\ le_keeps r = recoverable e)
  /\ (is_attributable l = false -> granted (p_out (le_pool r)) = granted (p_out p) + Z.b2z by_route).
Proof.
  intros Hr Hh He Hd Hc r.
  assert (Er : r = failed_end l seg_index e (give_back l start_downloaded (Err e) shared elapsed now p)) by (unfold r; by destruct e).
  rewrite Er. clear r Er. unfold failed_end.
  destruct (give_back_reachable l start_downloaded (Err e) shared elapsed now p Hr Hh He) as [Hr1 Hsame].
  { intros d [?|?]; [done|auto]. }
  set (p1 := give_back _ _ _ _ _ _ p) in *.
  assert (Hgrant : is_attributable l = false -> sys_fallback_available p1 = sys_fallback_available p /\ granted (p_out p1) = granted (p_out p)).
  { unfold is_attributable. intros Hl. bool_hyps. apply Nat.eqb_eq in Hl. destruct (Hsame Hl ltac:(done)) as (_ & ? & ?). done. }
  assert (Hgoal : let '(fallback, p2) := if negb (is_attributable l) && bool_decide (is_Some (classify_download_error e))
        then try_sys_transport_fallback p1 else (false, p1) in
      reachable p2 /\ (is_attributable l = false -> granted (p_out p2) = granted (p_out p) + Z.b2z fallback)
      /\ fallback = negb (is_attributable l) && bool_decide (is_Some (classify_download_error e)) && sys_fallback_available p).
  { destruct (negb (is_attributable l) && _) eqn:Ec.
    - apply andb_prop in Ec as [Hl _]. apply negb_true_iff in Hl. destruct (Hgrant Hl) as [Ha Hg].
      pose proof (reach_step p1 OpFallback _ Hr1 I eq_refl) as Hr2. simpl in Hr2. rewrite fallback_spec in *. simpl in Hr2.
      split; [done|]. split; [|by rewrite Ha, andb_true_l]. intros _. rewrite <- Hg. destruct (sys_fallback_available p1); [|simpl; lia].
      simpl. rewrite granted_app. change (granted [FallbackGranted]) with 1.
      unfold note_path_failure. destruct (_ || _); simpl; lia.
    - split; [done|]. split; [|done]. intros Hl. destruct (Hgrant Hl) as [_ ->]. simpl. lia. }
  destruct (if negb (is_attributable l) && _ then _ else _) as [fallback p2]. destruct Hgoal as (G1 & G2 & ->).
  assert (Hattr : is_attributable l && (is_node_attributable e || is_attributable l && range_error e)
    = is_attributable l && (is_node_attributable e || range_error e)) by (by destruct (is_attributable l)).
  cbv zeta. rewrite Hattr. split; [exact G1|]. split; [|exact G2]. cbn [le_event le_keeps].
  destruct (is_attributable l && (is_node_attributable e || range_error e)
    || negb (is_attributable l) && bool_decide (is_Some (classify_download_error e)) && sys_fallback_available p);
    [eexists; split; reflexivity|split; reflexivity].
Qed.

(** ** A download on two paths *)

(** The proxy is explored on segment 0, the starting route serves segment 1. *)
Definition segment (i start stop downloaded : Z) : LiveSegment := mkSeg i start stop downloaded Active None.
Definition MB : Z := 1024 * 1024.
Definition layout_at (a b : Z) : segmap := [(0, segment 0 0 (100 * MB) a); (1, segment 1 (100 * MB + 1) (200 * MB) b)].
Definition request (i : Z) : LeaseRequest := mk_request i 0 (100 * MB) true (100 + i).

Definition lease_all (rs : list LeaseRequest) (p : NodePool) : NodePool :=
  foldl (fun p r => match exec (OpLease r (fun _ => true) 0) p with Some p => p | None => p end) p rs.
Definition two_paths : NodePool := lease_all [request 0; request 1] with_proxy.

Lemma two_paths_reachable : reachable two_paths.
Proof.
  assert (H : forall rs p, reachable p -> reachable (lease_all rs p)).
  { induction rs as [|r rs IH]; intros p Hp; [done|]. simpl. apply IH.
    destruct (exec_total (OpLease r (fun _ => true) 0) p (reachable_ok p Hp) I) as (q & Hq & _).
    pose proof (reach_step p (OpLease r (fun _ => true) 0) q Hp I Hq) as Hr. simpl in Hq. by rewrite Hq. }
  apply H, with_proxy_reachable.
Qed.

Definition all_clear : TickGuards := mk_guards true true (150 * MB) None.
Definition idle_multipath : Multipath := mk_multipath ∅ None 0.
Definition second : Z := 10 ^ 9.

(** After two windows of 8 MB/s the proxy's speed is known, and the connection
    of the starting route, which has not received a byte, loses its segment. *)
Example stalled_is_preempted :
  let '(m1, s1, p1, r1, x1) := on_tick (live_conns two_paths) map_to_list second all_clear idle_multipath (layout_at (8 * MB) 0) two_paths in
  let '(m2, s2, p2, r2, x2) := on_tick (live_conns p1) map_to_list (2 * second) all_clear m1 (layout_at (16 * MB) 0) p1 in
  (map x_lease_id x1, map x_lease_id x2, cancels (p_out p2), best_measured_rate p2)
    = ([], [2], [101], Some (f64_of_Z (8 * MB))).
Proof. vm_compute. reflexivity. Qed.

Lemma preemption_is_bounded_witness :
  let '(m', segments', p', report, xs) :=
    on_tick (live_conns two_paths) map_to_list second all_clear idle_multipath (layout_at (8 * MB) 0) two_paths in
  reachable p' /\ (length xs <= 1)%nat.
Proof.
  pose proof (preemption_is_bounded two_paths idle_multipath (layout_at (8 * MB) 0) all_clear second (live_conns two_paths)
    map_to_list two_paths_reachable (Permutation_refl _) (fun ts => Permutation_refl _)) as H.
  assert (Hl : length (live_conns two_paths) = 2%nat) by (vm_compute; reflexivity).
  rewrite Hl in H. specialize (H ltac:(unfold u32_max; simpl; lia)).
  destruct (on_tick _ _ _ _ _ _ _) as [[[[m' s'] p'] r] xs]. destruct H as (H1 & _ & _ & H2 & _). split; [exact H1|exact H2].
Defined.

(** The lease of the starting route fails on a reset connection. *)
Definition sys_lease : NodeLease := mk_lease 0 2 None RDirect None.

Lemma failures_are_redirected_witness :
  let r := end_of_lease sys_lease 1 0 (Err (ERequest (Some ConnReset) (lit "reset"))) (Some 0) second second false two_paths in
  le_keeps r = true /\ granted (p_out (le_pool r)) = 1.
Proof.
  assert (Hheld : held sys_lease two_paths).
  { exists (conn_of (lease_all [request 0] with_proxy) (request 1) 0 0). split; vm_compute; reflexivity. }
  destruct (failures_are_redirected sys_lease 1 0 second second (ERequest (Some ConnReset) (lit "reset")) (Some 0) false two_paths
    two_paths_reachable Hheld) as (_ & H2 & H3).
  - unfold second. lia.
  - intros d [= <-]. unfold i64_max. lia.
  - discriminate.
  - match type of H2 with if ?c then _ else _ => assert (Hb : c = true) by (vm_compute; reflexivity); rewrite Hb in H2 end.
    destruct H2 as (msg & _ & H2). split; [exact H2|]. etransitivity; [exact (H3 eq_refl)|]. vm_compute. reflexivity.
Defined.

